(* ===== verification/_CoqProject ===== *)
-Q . S2P
Prelude.v
GoText.v
GoNet.v
GoStrings.v
ShellParse.v
PolicyModel.v
SignalEngine.v
HttpService.v
HttpServiceTheorems.v
PolicyEngine.v
PolicyEngineTheorems.v
NetGuards.v
DbEffects.v
DbPolicy.v
DbPolicyTheorems.v
DbValidate.v
DbValidateTheorems.v
PreparedCache.v
PgStateMachine.v
GoJson.v
AuditChain.v
AuditLog.v
AuditLogTheorems.v
CredSub.v
CredSubTheorems.v
DeclaredService.v
DeclaredServiceTheorems.v
ProcAncestry.v
ProcAncestryTheorems.v
WalFrame.v
Wal.v
WalDir.v
WalSteps.v
WalAppend.v
WalOverflow.v
WalAck.v
WalRecover.v
WalLocal.v
WalTheorems.v
WalReaderTheorems.v
NetAcl.v
NetAclEngine.v
NetAclApproval.v
NetAclKernel.v
NetAclFilter.v
NetAclTheorems.v
NetAclKernelTheorems.v
NetAclApprovalTheorems.v
GoJsonRaw.v
GoJsonTypes.v
Mcp.v
McpProxy.v
McpStreamTheorems.v
McpBodyTheorems.v
McpTheorems.v
