(* ===== verification/Prelude.v ===== *)
(** * Verification of AEP-CAW, the execution-layer security of the Agent Element Protocol

    AEP-CAW ([src/AEP-CAW], Go) confines the commands of coding agents: it decides on shell, file,
    network, process, database and LLM traffic at run time and keeps a tamper-evident record of
    what it did.  This library models the parts of it that carry decisions and records, and proves
    what they promise.

    ** The program's parts and how they interact

    The policy engine ([internal/policy]) decides on everything an agent does: commands, execve
    calls, files, Unix sockets, the registry, environment variables, DNS and connections, signals
    ([internal/signal]) and requests to declared HTTP services.  It is built from a policy document
    that is validated, has its variables expanded and is compiled.  Commands that are shell lines
    are taken apart by [internal/shellparse] so that a command hidden in nested shells is decided
    too.  Before the rules, the engine asks two optional guards: the threat feed
    ([internal/threatfeed]) and the Tor coordinator ([internal/tor], [internal/ipset]).  Processes
    started below an agent carry a taint ([internal/policy/ancestry]) that the rules on parent processes
    ([internal/policy/context_eval.go], with the patterns of [internal/policy/pattern]) consult.

    Connections are also decided per process ([internal/netmonitor/pnacl]): a configuration of
    processes, children and targets is compiled into an engine, and a second evaluator with caches
    serves the same configuration behind a manager.  On Linux a kernel program attached to a cgroup
    ([internal/netmonitor/ebpf]) refuses connections by the maps the policy was loaded into and
    reports every attempt; the process filter decides on the reports, asks an approver where the
    policy says so, and an approval opens the destination in the maps.  An answer for good is written
    to the configuration file.

    Declared HTTP services are reached through the gateway of the proxy
    ([internal/proxy/declared_service.go]): the engine decides on method and path, an approver is
    asked where it says so, and the hooks of the session swap the fake credentials the agent holds
    for the real ones ([internal/proxy/credsub], [credshook.go]) and scrub them from the response.

    Tools of MCP servers are registered per session ([internal/mcpregistry], fed by
    [internal/server/mcp_bridge.go]).  The LLM proxy looks at the tool calls in the responses of a
    model, whole bodies and event streams, in the dialects of Anthropic and OpenAI
    ([internal/proxy/mcp_intercept.go], [sse_intercept.go]): each call of a registered tool is decided
    by the cross-server analyzer, the rate limits, the pinned hash and the tool policy
    ([internal/mcpinspect]), and the response reaches the client with the blocked calls replaced by a
    notice.  The session joins registry and analyzer: a tool that a second server takes over is
    marked as shadowed.

    A database client of the agent talks to the PostgreSQL proxy
    ([internal/db/proxy/postgres]).  For every frontend frame the proxy asks the classifier for the
    statements in it, each with a list of effects ([internal/db/effects]), and asks the policy
    evaluator ([internal/db/policy]) for a decision per statement; the state machine
    ([.../statemachine]) turns decisions into actions (forward, synthesize an error, wait for an
    approver, close), remembering prepared statements in a per-connection cache
    ([.../preparedcache]).  The database policy is decoded, validated and compiled before the
    evaluator sees it.

    What happened is recorded by the event stores.  The signed store
    ([internal/store/integrity_wrapper.go]) turns each event into a JSON line that carries a
    sequence number and a keyed hash over itself and its predecessor ([internal/audit]), appends it
    to a size-rotated set of files ([internal/store/jsonl]), and persists the head of the chain in a
    sidecar file at every flush; a start checks the visible chain and resumes it, recovering from
    crashes between a write and its flush.  Events for the remote watchtower first go to a
    write-ahead log ([internal/store/watchtower/wal]): framed records in numbered segment files
    under a byte budget, a persisted watermark of what the remote end has acknowledged, markers
    that stand for records that had to be dropped, and readers that follow the log from a position.

    ** Files

    - [Prelude]: this file; notation for Go's comparisons and [(value, error)] returns, machine
      integers, tactics, and the loops several components share (first maximum, stable sort, tables
      ranged over in unspecified order).
    - [GoText], [GoNet], [GoStrings], [GoJson]: the parts of Go's standard library the modelled code
      uses (UTF-8, quoting and numerals; hosts, addresses and prefixes; [strings], [path] and
      [filepath], with the orbits of case folding; [encoding/json] with its round trip).  [GoJsonRaw],
      [GoJsonTypes]: [encoding/json] on documents kept as raw bytes and on struct types (scanner, printing with HTML escapes,
      decoding into a smaller type).
    - [ShellParse]: [internal/shellparse], with the grammar of the lines it takes apart.
    - [PolicyModel]: decisions, environment policies and the shared parts of [internal/policy], and
      the interface [Libraries] of the matching libraries.  [PolicyEngine]: the policy document,
      its validation, variables and compilation, and every decision of the engine.
      [PolicyEngineTheorems]: its theorems.
    - [SignalEngine]: [internal/signal]: names, rules, targets, the process registry, the handler.
    - [HttpService]: declared services, secret references and fake formats.  [HttpServiceTheorems]:
      its theorems.
    - [NetGuards]: the threat feed store, address sets and the Tor coordinator as the interface
      values the engine asks, with [filepath.Match].
    - [CredSub]: the substitution table, the hooks and their registry, and the start of a session.
      [CredSubTheorems]: its theorems.  [DeclaredService]: the gateway's handler.
      [DeclaredServiceTheorems]: engine, hooks and gateway composed.
    - [DbEffects]: [internal/db/effects], every table, parser, printer and fold.
    - [DbPolicy]: [types.go], [evaluate.go], [evaluate_conn.go], [explain.go] and the compiled
      forms of [compile.go]; the order-free specification of a verdict ([Spec]) and the lemmas
      that tie the three-pass evaluator to it.  [DbPolicyTheorems]: its theorems.
    - [DbValidate]: [validate.go], the compilers of [compile.go], [redaction.go] and [decode.go].
      [DbValidateTheorems]: the invariant of decoded rule sets and what it implies for decisions.
    - [PreparedCache]: [preparedcache/cache.go], a pointer-level LRU cache and its refinement of a
      list in order of use.
    - [PgStateMachine]: the [statemachine] package; the cache behind a type class with laws, the
      transition function, and the reachable configurations of a connection.
    - [AuditChain]: [internal/audit]'s [sequence_allocator.go], [sink_chain.go], [integrity.go] and
      [sidecar.go], with the interleavings of two-phase commits as a reachability relation.
    - [AuditLog]: [logset.go], [store/jsonl/jsonl.go] and [store/integrity_wrapper.go].
      [AuditLogTheorems]: histories of a store, crashes, and what an accepted log commits to.
    - [ProcAncestry]: the taint cache and chain rules of [internal/policy/ancestry], the patterns
      of [internal/policy/pattern] and [context_eval.go].
      [ProcAncestryTheorems]: its theorems.
    - [WalFrame]: [framing.go], [segment.go]'s headers and names, and [meta.go].  [Wal]: [wal.go],
      [segment.go] and [reader.go] over a model of the directory.  [WalDir], [WalSteps],
      [WalAppend], [WalOverflow], [WalAck], [WalRecover]: the layout of the directory, the rules for
      reasoning about calls that may fail anywhere, and one specification per operation.  [WalLocal]:
      an operation depends only on the faults of the calls it makes.
      [WalTheorems]: histories of a log with faults, crashes and restarts.  [WalReaderTheorems]: what
      a reader delivers.
    - [NetAcl]: [pnacl]'s [config.go] and [matcher.go].  [NetAclEngine]: [policy.go], both evaluators,
      and [manager.go].  [NetAclApproval]: [persist.go], [approval.go] and [dialog_prompt.go].
      [NetAclKernel]: [ebpf]'s [program.go], [maps_linux.go], [connect.bpf.c] and [collector.go], at
      the level of bytes.  [NetAclFilter]: [process_filter.go], [connection_holder.go] and
      [dialog_approval.go].  [NetAclTheorems]: rules, caches and the manager over time.
      [NetAclKernelTheorems]: maps, kernel program and approvals composed.
      [NetAclApprovalTheorems]: an answer for good through the file back into the engine.
    - [Mcp]: the tool registry, and the policy, session analyzer, classifier, rate limits and name
      distances of [mcpinspect].  [McpProxy]: [mcp_intercept.go], [sse_intercept.go],
      [mcp_streaming.go] and the relayed body of [proxy.go].  [McpStreamTheorems],
      [McpBodyTheorems]: what a client reads from a stream and from a body.  [McpTheorems]: windows,
      shadowed tools and distances.

    ** What the theorems show

    - Commands: a shell line is taken apart exactly when it prints one command in the quoting
      grammar; each step makes it shorter; the decision is the strictest of what is met on the way, at
      any depth, up to one case at the limit of the derivation that is a finding, so a rule on a hidden
      command is not evaded; execve is decided like the pre-check.
    - Files, environment, network, signals: redirected files land below their target; a variable is
      visible exactly by the more specific pattern; guards only tighten; the programs, endpoints and
      names of Tor are denied without configuration, where addresses and where names are checked; the
      nearest listed parent domain decides; the most specific signal rule wins;
      redirect lookups are total after validation.
    - Services: what validates compiles, each host leading to its service; the first of the most
      specific matching rules decides.  The gateway forwards only what the policy or the approver
      permitted, judged by the path up to a decoded question mark; a path without one is sent as it was
      judged.  Hop-by-hop headers stay behind.
    - Credentials: substitution is leftmost-longest rewriting; requests outside the services are
      never given a credential, requests to a service only its own; the agent gets fakes, and
      scrubbed bodies are free of real credentials.  The conditions (no overlap of fakes and reals,
      no two services in one part, no question mark in the path) are needed: each has an example of
      what happens without it.
    - Database decisions: the evaluator computes exactly the specified verdict, fails closed, lets
      deny rules dominate, is independent of the order of rules and monotone in deny rules; approval
      and redirect metadata are those of the rules that produced them; explanations agree with
      decisions; connection decisions are default deny and most restrictive.
    - Database policies: what validates compiles (up to malformed globs and templates); decoded rule
      sets satisfy an invariant that bounds approval timeouts, pins redirects to catalog-resolved
      reads of one relation and keeps unknown effects denied unless mentioned.
    - Database proxy: the cache refines its abstract list on all call sequences; nothing is
      forwarded that was not vetted, on every reachable configuration; deny routes and Sync resolve
      as specified.
    - Audit: sequence tuples never repeat; whatever callers do, committed entries form one hash
      chain, and a latched chain is dead; wrapped events verify; a persisted head resumes the chain
      exactly; the log on disk validates after every step of every history in which no renaming of a
      file rotation fails; a start after a crash, the second one where a line is torn right behind a
      flush, resumes at the last complete line; equal heads mean equal logs, or that one is the end of
      the other and says so, or a collision between the entries of the two.
    - Parent processes: every descendant of a tainted process is tainted in the same context until
      the depth limit, unless a process of its line outlived the time to live of an entry; what a
      context denies is denied to it; classes of processes are never stale.
    - Write-ahead log: whatever fails and whenever the process dies, an operation during which no read
      fails leaves each record that was stored on disk, acknowledged, or accounted for by a dropped
      range (a failed read is taken for the end of a file, which is a finding); the records on disk are those
      accepted, in order, with nothing torn between them; an ambiguous failure stops the log for
      good; a record read back is the one written, up to a collision of the checksum that no single
      burst of 32 bits causes; a reader delivers what is stored, in order, from where it starts.
    - Process network rules: a most specific applicable rule decides and a denial wins among equals;
      adding a denial denies or changes nothing; the manager answers as one made for the call, so its
      caches never show, while names are unambiguous.  The kernel refuses exactly what the loaded
      endpoints with their ports say, whatever the maps held before, when they fit and the kernel takes
      them; an approval opens one destination of one cgroup and nothing else; an answer for good, after
      the file was written and read back, decides the connection it was given for exactly when the
      entry for the name of the process is the one consulted.
    - MCP tool calls: a client that reads the rewritten stream or body finds the calls of the
      original that are not blocked, and no other.  The theorems are for lines and bodies as the
      upstream services write them (each field once, in its own spelling); examples show what passes
      otherwise.  Streams and bodies decide a call alike; the analyzer with its pruned windows
      decides as one that keeps the whole history; a tool taken over by a second server stays
      blocked until it is cleared; the distance between names is the edit distance.

    ** Modelling choices and bounds

    Go integers that can overflow are [Z] with their wrap-around written out; durations are [Z]
    nanoseconds.  Strings are byte strings.  Database rules are heap objects compared by address,
    and the address is a field.  A Go map is a [gmap]; ranging over one is a list in some order, and
    where the result could depend on it the theorems quantify over the order or compare order-free
    observations; unstable sorts are any sorted permutation.  Recursion is structural except where
    a loop is given turns: the IPv6 parser adds at least two of sixteen bytes per turn, so eight are
    enough; loops over bytes (the shell scanner, [filepath.Match], variable expansion, the backwards
    line reader, the substitution, the walk over parent domains) get one turn per byte and consume
    at least one in each, which their theorems rely on and prove; the derivation of nested shells
    has the source's own limit; the walk over process parents has as many turns as processes and is
    shown to end when the links have no cycle.  In the write-ahead log, a scan of a file has one turn
    per byte and each frame consumes eight; the overflow loop deletes a sealed segment per turn and
    has as many turns as the directory has files; a reader opens,
    leaves and reads to its end each file at most once and has turns for all of their bytes.  The
    proofs of [Append] and of the readers show that these suffice.  The JSON decoder recurses under
    Go's own nesting limit of 10000 and is total; the raw scanner has a turn per byte or member under
    the same limit.  A stream line is at most 262144 bytes, the source's limit; a write to the client
    that fails half-way counts as not taken.  Case folding follows an orbit for four turns, the
    length of the longest orbit of Unicode.

    Parameters stand for code outside the repository: YAML decoding; [gobwas/glob], [regexp] and
    [url.Parse] (the class [Libraries]; a compiled glob is its [Match] function); Unicode case tables
    (the class [UnicodeCase]); [text/template] (a template is its [Execute] function); secret
    providers, random bytes and SHA-256; name resolution; the upstream and the approver of the
    gateway; and the SQL classifier's parser library, reached through the classifier interface the
    source injects.  HMAC is a function of algorithm, key and message with the laws of [HmacLaws]
    (digest bytes and length); nothing is assumed about collisions.  The file system of the
    signed log answers writes through explicit outcomes (complete, failed and undone, failed half-way)
    and file rotations through the success of their status, close, renamings and reopening; the
    theorems are for all of them where they do not say otherwise.  The directory of the write-ahead
    log is a map of names to inodes under plans of faults ([Faults]) that decide, per system call,
    whether it fails, how much of a write arrives and how far a read gets; the theorems hold for every
    plan.  [regexp/syntax] of process
    patterns is the class [RegexSyntax].  The document format of network rules is the class [AclYaml],
    with [AclYamlLaws] (what was encoded decodes to it, also behind comment lines) where a file is
    read back, and [GlobLiteral] says that a pattern without special characters matches itself;
    both have an instance.  Case orbits are the class [CaseOrbits]; [/proc] and reverse name lookup
    are the record [System].  What the kernel does with an
    update of a map (take it, evict others for it, refuse it) and how far an iteration gets is the
    record [BpfKernel].
    The token bucket behind the MCP rate limits computes in floating point and is the class
    [TokenBucket]; the clock, and whether a write to the client succeeds, are arguments.

    ** Not modelled

    Sockets, TLS, timers and goroutine scheduling around the modelled handlers; the SQL classifier
    (it walks the tree of a C library); kernel enforcement (ptrace, seccomp, Landlock, FUSE,
    platform drivers); the HTTP and gRPC servers, the CLI, most configuration structs and metrics;
    policy files on disk with their signatures and policy generation; feed downloads; the LLM path of
    the proxy apart from its hooks and tool calls (dialect detection, DLP, usage, retention); the MCP
    inspector with its detectors and pins, and the statistics of its rate limits; key loading and key
    services, log encryption; the watchtower store, chain and transport above the write-ahead log, with its readers' wake-up channel and its append
    hook for tests; attaching the kernel program, the counters of its maps, connect redirects in its
    collector, and the event emitters of the network rules; and the Rust, JavaScript and TypeScript parts of the
    repository.

    ** Plan

    Next: package checks, the MCP inspector, approvals, the watchtower store's append, and the
    dispatcher that executes the state machine's actions. *)

From Stdlib Require Import ZArith Lia Permutation Sorted.
From stdpp Require Import base list strings gmap sorting.

(** ** Scopes and notation *)

Declare Scope go_scope.
Delimit Scope go_scope with go.

(** Go's [==] on comparable values, as a boolean. *)
Notation "x ==? y" := (bool_decide (x = y)) (at level 70, no associativity) : go_scope.
Notation "x !=? y" := (negb (bool_decide (x = y))) (at level 70, no associativity) : go_scope.
Open Scope go_scope.

(** ** Error values *)

(** A Go call returning [(T, error)]: [Ok v] is [(v, nil)], [Err e] carries the error. *)
Inductive result (E A : Type) : Type :=
| Ok (a : A)
| Err (e : E).
Arguments Ok {E A} a.
Arguments Err {E A} e.

Definition rbind {E A B} (m : result E A) (k : A -> result E B) : result E B :=
  match m with Ok a => k a | Err e => Err e end.

(** [x <-? m ; k] is the idiom [x, err := m; if err != nil { return err }; k]. *)
Notation "x <-? m ; k" := (rbind m (fun x => k))
  (at level 100, m at next level, right associativity) : go_scope.
Notation "' x <-? m ; k" := (rbind m (fun x => k))
  (at level 20, x pattern, m at level 100, k at level 200) : go_scope.

(** [for _, x := range l { y, err := f(x); if err != nil { return err }; out = append(out, y) }]. *)
Fixpoint each {E A B} (f : A -> result E B) (l : list A) : result E (list B) :=
  match l with
  | [] => Ok []
  | x :: l' => y <-? f x ; ys <-? each f l' ; Ok (y :: ys)
  end.

(** [v, ok := m; if !ok { return e }]. *)
Definition of_option {E A} (e : E) (o : option A) : result E A :=
  match o with Some x => Ok x | None => Err e end.

(** Wrapping of an error. *)
Definition map_err {E F A} (f : E -> F) (r : result E A) : result F A :=
  match r with Ok x => Ok x | Err e => Err (f e) end.

Lemma rbind_Ok {E A B} (m : result E A) (k : A -> result E B) b :
  rbind m k = Ok b -> exists a, m = Ok a /\ k a = Ok b.
Proof. destruct m; [|done]. eauto. Qed.

Lemma of_option_Ok {E A} (e : E) (o : option A) a : of_option e o = Ok a -> o = Some a.
Proof. destruct o; [|done]. by intros [= ->]. Qed.

Lemma map_err_Ok {E F A} (f : E -> F) (m : result E A) a : map_err f m = Ok a -> m = Ok a.
Proof. destruct m; [|done]. by intros [= ->]. Qed.

Lemma each_Ok {E A B} (f : A -> result E B) l ys :
  each f l = Ok ys -> Forall2 (fun x y => f x = Ok y) l ys.
Proof.
  revert ys. induction l as [|x l IH]; simpl; intros ys H; [by injection H as <-|].
  apply rbind_Ok in H as (y & Hy & H). apply rbind_Ok in H as (ys' & Hys & H).
  injection H as <-. constructor; auto.
Qed.

Lemma each_Err {E A B} (f : A -> result E B) l e :
  each f l = Err e -> exists x, x ∈ l /\ f x = Err e.
Proof.
  induction l as [|x l IH]; simpl; [done|]. destruct (f x) as [y|e'] eqn:Ef; simpl.
  - destruct (each f l) as [ys|e'] eqn:El; simpl; [done|]. intros [= ->].
    destruct IH as (z & ? & ?); [done|]. exists z. rewrite elem_of_cons. auto.
  - intros [= ->]. exists x. rewrite elem_of_cons. auto.
Qed.

(** Splits the hypothesis that a chain of fallible calls succeeded. *)
Ltac result_steps H :=
  repeat match type of H with
  | rbind _ _ = Ok _ =>
    let a := fresh "a" in let Ha := fresh "Hstep" in apply rbind_Ok in H as (a & Ha & H)
  end.

(** A loop that returns false on the first element that fails a test. *)
Lemma forallb_Forall {A} (f : A -> bool) l : forallb f l = true <-> Forall (fun x => f x = true) l.
Proof. rewrite List.forallb_forall, List.Forall_forall. done. Qed.

(** [len(l) > 0]. *)
Definition nonempty {A} (l : list A) : bool := match l with [] => false | _ => true end.

(** ** Machine-width integers *)

Definition max_int64 : Z := 2 ^ 63 - 1.
Definition min_int64 : Z := - 2 ^ 63.
Definition max_uint32 : Z := 2 ^ 32 - 1.

Definition int64_range (z : Z) : Prop := (min_int64 <= z <= max_int64)%Z.
Definition uint32_range (z : Z) : Prop := (0 <= z <= max_uint32)%Z.

(** Two's-complement wrap of an int64 and reduction of an uint32. *)
Definition wrap_int64 (z : Z) : Z := ((z + 2 ^ 63) mod 2 ^ 64 - 2 ^ 63)%Z.
Definition wrap_uint32 (z : Z) : Z := (z mod 2 ^ 32)%Z.

Lemma wrap_int64_id z : int64_range z -> wrap_int64 z = z.
Proof.
  unfold int64_range, min_int64, max_int64, wrap_int64. intros.
  rewrite Z.mod_small; lia.
Qed.

Lemma wrap_uint32_id z : uint32_range z -> wrap_uint32 z = z.
Proof. unfold uint32_range, max_uint32, wrap_uint32. intros. apply Z.mod_small. lia. Qed.

(** ** Automation *)

Create HintDb caw discriminated.

(** Turns boolean tests in the context and the goal into propositions. *)
Ltac bool_prop :=
  repeat match goal with
  | H : andb _ _ = true |- _ => apply andb_true_iff in H; destruct H
  | H : andb _ _ = false |- _ => apply andb_false_iff in H
  | H : orb _ _ = true |- _ => apply orb_true_iff in H
  | H : orb _ _ = false |- _ => apply orb_false_iff in H; destruct H
  | H : negb _ = true |- _ => apply negb_true_iff in H
  | H : negb _ = false |- _ => apply negb_false_iff in H
  | H : bool_decide _ = true |- _ => apply bool_decide_eq_true in H
  | H : bool_decide _ = false |- _ => apply bool_decide_eq_false in H
  | H : (_ <? _)%Z = true |- _ => apply Z.ltb_lt in H
  | H : (_ <? _)%Z = false |- _ => apply Z.ltb_ge in H
  | H : (_ <=? _)%Z = true |- _ => apply Z.leb_le in H
  | H : (_ <=? _)%Z = false |- _ => apply Z.leb_gt in H
  end.

(** [lia] with division and modulo by constants. *)
Ltac div_lia := Z.to_euclidean_division_equations; lia.

(** Decides a closed proposition by evaluating its [Decision] instance. *)
Ltac decide_vm :=
  lazymatch goal with
  | |- ¬ _ => apply (bool_decide_eq_false_1 _); vm_compute; reflexivity
  | |- _ => apply (bool_decide_eq_true_1 _); vm_compute; reflexivity
  end.

(** Case analysis on the scrutinee of the innermost [match]/[if] in the goal or a hypothesis. *)
Ltac case_goal :=
  match goal with
  | |- context [match ?x with _ => _ end] =>
      lazymatch x with context [match _ with _ => _ end] => fail | _ => destruct x eqn:? end
  end.
Ltac case_hyp H :=
  match type of H with
  | context [match ?x with _ => _ end] =>
      lazymatch x with context [match _ with _ => _ end] => fail | _ => destruct x eqn:? end
  end.

(** ** First maximum of a list under a rank

    The loops [best := l[0]; for x in l[1:] { if rank(x) > rank(best) { best = x } }]
    of the evaluators: the first element of maximal rank wins. *)
Section pick_max.
Context {A : Type} (rank : A -> Z).

Fixpoint pick_max (best : A) (l : list A) : A :=
  match l with
  | [] => best
  | x :: l' => pick_max (if (rank best <? rank x)%Z then x else best) l'
  end.

Lemma pick_max_ge best l x : x ∈ best :: l -> (rank x <= rank (pick_max best l))%Z.
Proof.
  revert best x. induction l as [|y l IH]; intros best x Hx; simpl.
  - apply list_elem_of_singleton in Hx as ->. lia.
  - destruct (Z.ltb_spec (rank best) (rank y)).
    + rewrite !elem_of_cons in Hx. destruct Hx as [->|[->|Hx]].
      * etrans; [|apply (IH y y); left]. lia.
      * apply IH; left.
      * apply IH; by right.
    + rewrite !elem_of_cons in Hx. destruct Hx as [->|[->|Hx]].
      * apply IH; left.
      * etrans; [|apply (IH best best); left]. lia.
      * apply IH; by right.
Qed.

Lemma pick_max_elem best l : pick_max best l ∈ best :: l.
Proof.
  revert best. induction l as [|y l IH]; intros best; simpl; [set_solver|].
  destruct (rank best <? rank y)%Z.
  - pose proof (IH y) as Hy. rewrite elem_of_cons in Hy. rewrite !elem_of_cons. tauto.
  - pose proof (IH best) as Hb. rewrite elem_of_cons in Hb. rewrite !elem_of_cons. tauto.
Qed.

(** Ties keep the earlier element: everything before the winner is strictly smaller. *)
Lemma pick_max_first best l :
  exists pre post, best :: l = pre ++ pick_max best l :: post /\
    forall x, x ∈ pre -> (rank x < rank (pick_max best l))%Z.
Proof.
  revert best. induction l as [|y l IH]; intros best; simpl.
  - exists [], []. split; [done|]. intros x Hx. by apply not_elem_of_nil in Hx.
  - destruct (Z.ltb_spec (rank best) (rank y)) as [Hlt|Hge].
    + destruct (IH y) as (pre & post & Heq & Hpre).
      exists (best :: pre), post. split; [simpl; by f_equal|].
      intros x [->|Hx]%elem_of_cons; [|auto].
      assert (rank y <= rank (pick_max y l))%Z by (apply pick_max_ge; left). lia.
    + destruct (IH best) as (pre & post & Heq & Hpre).
      destruct pre as [|b pre]; simpl in Heq; injection Heq as Hb Hl.
      * exists [], (y :: l). rewrite <- Hb. split; [done|].
        intros x Hx. by apply not_elem_of_nil in Hx.
      * subst b. exists (best :: y :: pre), post. split; [simpl; do 2 f_equal; exact Hl|].
        assert (rank best < rank (pick_max best l))%Z by (apply Hpre; left).
        intros x Hx. rewrite !elem_of_cons in Hx.
        destruct Hx as [->|[->|Hx]]; [done|lia|]. apply Hpre. by right.
Qed.

Lemma pick_max_rank_perm b1 l1 b2 l2 :
  b1 :: l1 ≡ₚ b2 :: l2 -> rank (pick_max b1 l1) = rank (pick_max b2 l2).
Proof.
  intros HP. apply Z.le_antisymm; apply pick_max_ge.
  - rewrite <- HP. apply pick_max_elem.
  - rewrite HP. apply pick_max_elem.
Qed.
End pick_max.

(** ** Stable sorting

    [sort.SliceStable(s, less)]: a stable sort for a strict weak order [less], written as an
    insertion sort.  [less] is a strict weak order when its negation is a total preorder. *)
Section stable_sort.
Context {A : Type} (less : A -> A -> bool).

Fixpoint stable_insert (x : A) (l : list A) : list A :=
  match l with
  | [] => [x]
  | y :: l' => if less y x then y :: stable_insert x l' else x :: y :: l'
  end.

Fixpoint stable_sort (l : list A) : list A :=
  match l with
  | [] => []
  | x :: l' => stable_insert x (stable_sort l')
  end.

(** [not_after x y]: [y] may not be moved before [x]. *)
Definition not_after (x y : A) : Prop := less y x = false.

Lemma stable_insert_perm x l : stable_insert x l ≡ₚ x :: l.
Proof.
  induction l as [|y l IH]; simpl; [done|].
  destruct (less y x); [|done]. rewrite IH. apply Permutation_swap.
Qed.

Lemma stable_sort_perm l : stable_sort l ≡ₚ l.
Proof. induction l as [|x l IH]; simpl; [done|]. by rewrite stable_insert_perm, IH. Qed.

Context (less_asym : forall x y, less x y = true -> less y x = false).
Context (ge_trans : forall x y z, not_after x y -> not_after y z -> not_after x z).

Lemma stable_insert_sorted x l :
  StronglySorted not_after l -> StronglySorted not_after (stable_insert x l).
Proof using less_asym ge_trans.
  induction 1 as [|y l Hs IH Hall]; simpl; [repeat constructor|].
  destruct (less y x) eqn:Hlt.
  - constructor; [done|]. rewrite stable_insert_perm. constructor; [by apply less_asym|done].
  - constructor; [by constructor|]. constructor; [done|].
    eapply Forall_impl; [exact Hall|]. intros z Hz. by eapply ge_trans.
Qed.

Lemma stable_sort_sorted l : StronglySorted not_after (stable_sort l).
Proof using less_asym ge_trans.
  induction l; simpl; [constructor|]. by apply stable_insert_sorted.
Qed.

(** Elements of a class no two of which are strictly ordered keep their relative order. *)
Lemma stable_insert_filter (f : A -> bool) x l :
  (forall a b, f a = true -> f b = true -> less a b = false) ->
  List.filter f (stable_insert x l) = List.filter f (x :: l).
Proof using.
  intros Hf. induction l as [|y l IH]; [done|]. simpl stable_insert.
  destruct (less y x) eqn:Hlt; [|done].
  simpl in *. rewrite IH. destruct (f x) eqn:Hx; [|done].
  destruct (f y) eqn:Hy; [|done]. exfalso. rewrite (Hf y x) in Hlt; done.
Qed.

Lemma stable_sort_filter (f : A -> bool) l :
  (forall a b, f a = true -> f b = true -> less a b = false) ->
  List.filter f (stable_sort l) = List.filter f l.
Proof using.
  intros Hf. induction l as [|x l IH]; [done|]. simpl stable_sort.
  rewrite stable_insert_filter by done. simpl. by rewrite IH.
Qed.
End stable_sort.

(** ** Association tables

    A Go [map] literal as the list of its entries.  Ranging over a Go map visits the entries in
    an unspecified order; the lemmas below show when that order does not matter. *)
Section table.
Context {K V : Type} `{EqDecision K}.

Fixpoint table_get (t : list (K * V)) (k : K) : option V :=
  match t with
  | [] => None
  | (k', v) :: t' => if k ==? k' then Some v else table_get t' k
  end.

Lemma table_get_elem t k v : table_get t k = Some v -> (k, v) ∈ t.
Proof.
  induction t as [|[k' v'] t IH]; simpl; [done|].
  destruct (k ==? k') eqn:E; bool_prop; intros; simplify_eq; set_solver.
Qed.

Lemma table_get_in t k v : NoDup t.*1 -> (k, v) ∈ t -> table_get t k = Some v.
Proof.
  induction t as [|[k' v'] t IH]; simpl; [set_solver|].
  rewrite NoDup_cons. intros [Hni Hnd] [?|Hin]%elem_of_cons; simplify_eq.
  - by rewrite bool_decide_eq_true_2.
  - rewrite bool_decide_eq_false_2; [auto|]. intros ->. apply Hni.
    apply list_elem_of_fmap. by exists (k', v).
Qed.

(** Ranging over the table for the first key whose value satisfies [p]. *)
Fixpoint table_find (p : V -> bool) (t : list (K * V)) : option K :=
  match t with
  | [] => None
  | (k, v) :: t' => if p v then Some k else table_find p t'
  end.

Lemma table_find_Some p t k :
  table_find p t = Some k -> exists v, (k, v) ∈ t /\ p v = true.
Proof.
  induction t as [|[k' v'] t IH]; simpl; [done|].
  destruct (p v') eqn:E; intros; simplify_eq; [exists v'; set_solver|].
  destruct IH as (v & ? & ?); [done|]. exists v. set_solver.
Qed.

Lemma table_find_None p t k v : table_find p t = None -> (k, v) ∈ t -> p v = false.
Proof.
  induction t as [|[k' v'] t IH]; simpl; [set_solver|].
  destruct (p v') eqn:E; [done|]. intros ? [?|?]%elem_of_cons; simplify_eq; auto.
Qed.

Lemma table_find_in p t k v :
  (k, v) ∈ t -> p v = true -> (forall k' v', (k', v') ∈ t -> p v' = true -> k' = k) ->
  table_find p t = Some k.
Proof.
  intros Hin Hp Huniq. destruct (table_find p t) as [k'|] eqn:E.
  - apply table_find_Some in E as (v' & ? & ?). f_equal. by eapply Huniq.
  - by rewrite (table_find_None _ _ _ _ E Hin) in Hp.
Qed.

(** When at most one entry satisfies [p], every iteration order finds the same key. *)
Lemma table_find_perm p t1 t2 :
  t1 ≡ₚ t2 ->
  (forall k1 v1 k2 v2, (k1, v1) ∈ t1 -> (k2, v2) ∈ t1 ->
     p v1 = true -> p v2 = true -> k1 = k2) ->
  table_find p t1 = table_find p t2.
Proof.
  intros HP Huniq.
  destruct (table_find p t1) as [k1|] eqn:E1, (table_find p t2) as [k2|] eqn:E2; [..|done].
  - apply table_find_Some in E1 as (v1 & ? & ?), E2 as (v2 & Hin & ?).
    rewrite <- HP in Hin. f_equal. by eapply Huniq.
  - apply table_find_Some in E1 as (v1 & Hin & ?). rewrite HP in Hin.
    by rewrite (table_find_None _ _ _ _ E2 Hin) in *.
  - apply table_find_Some in E2 as (v2 & Hin & ?). rewrite <- HP in Hin.
    by rewrite (table_find_None _ _ _ _ E1 Hin) in *.
Qed.
End table.
