(* ===== verification/GoText.v ===== *)
(** * Text primitives of the Go standard library

    Byte and string operations the modelled packages use: conversion between strings and bytes,
    UTF-8 decoding ([unicode/utf8]), [unicode.IsSpace], [strconv.FormatInt]/[Itoa],
    [encoding/hex] and the quoting of [%q].  Strings are Go strings (byte sequences); bytes and
    runes are integers. *)

From S2P Require Import Prelude.
From Stdlib Require Import ZArith Lia Ascii String DecimalString DecimalZ.
From stdpp Require Import base list strings.
Open Scope string_scope.
Open Scope list_scope.
Open Scope Z_scope.

Definition byte_range (b : Z) : Prop := 0 <= b < 256.

Definition byte_of_char (c : ascii) : Z := Z.of_N (N_of_ascii c).
Definition char_of_byte (b : Z) : ascii := ascii_of_N (Z.to_N b).

Fixpoint string_bytes (s : string) : list Z :=
  match s with
  | EmptyString => []
  | String c s' => byte_of_char c :: string_bytes s'
  end.

Fixpoint bytes_string (l : list Z) : string :=
  match l with
  | [] => EmptyString
  | b :: l' => String (char_of_byte b) (bytes_string l')
  end.

Lemma ascii_byte_id c : char_of_byte (byte_of_char c) = c.
Proof. unfold char_of_byte, byte_of_char. rewrite N2Z.id. apply ascii_N_embedding. Qed.

Lemma byte_ascii_range c : byte_range (byte_of_char c).
Proof. unfold byte_range, byte_of_char. pose proof (N_ascii_bounded c). lia. Qed.

Lemma byte_ascii_id b : byte_range b -> byte_of_char (char_of_byte b) = b.
Proof.
  unfold byte_range, char_of_byte, byte_of_char. intros.
  rewrite N_ascii_embedding by lia. lia.
Qed.

Lemma bytes_string_bytes s : bytes_string (string_bytes s) = s.
Proof. induction s; simpl; [done|]. by rewrite ascii_byte_id, IHs. Qed.

Lemma string_bytes_of l : Forall byte_range l -> string_bytes (bytes_string l) = l.
Proof. induction 1; simpl; [done|]. rewrite byte_ascii_id by done. by f_equal. Qed.

Lemma string_bytes_inj s1 s2 : string_bytes s1 = string_bytes s2 -> s1 = s2.
Proof. intros H. by rewrite <- (bytes_string_bytes s1), H, bytes_string_bytes. Qed.

Lemma string_bytes_app s1 s2 : string_bytes (s1 +:+ s2) = string_bytes s1 ++ string_bytes s2.
Proof. induction s1; simpl; [done|]. by rewrite IHs1. Qed.

Lemma string_bytes_range s : Forall byte_range (string_bytes s).
Proof. induction s; simpl; constructor; auto using byte_ascii_range. Qed.

(** ** UTF-8 *)

Definition between (lo b hi : Z) : bool := (lo <=? b) && (b <=? hi).
Definition is_cont (b : Z) : bool := between 128 b 191.

(** [utf8.DecodeRuneInString] iterated over the whole string.  [None] when some position would
    yield [(RuneError, 1)], that is when [utf8.ValidString] is false; the cases follow the
    acceptance table of [unicode/utf8]. *)
Fixpoint decode_runes (bs : list Z) : option (list Z) :=
  match bs with
  | [] => Some []
  | b0 :: r0 =>
    if between 0 b0 127 then rs ← decode_runes r0; Some (b0 :: rs)
    else match r0 with
    | b1 :: r1 =>
      if between 194 b0 223 && is_cont b1 then
        rs ← decode_runes r1; Some ((b0 - 192) * 64 + (b1 - 128) :: rs)
      else match r1 with
      | b2 :: r2 =>
        if (((b0 =? 224) && between 160 b1 191) ||
            ((between 225 b0 236 || between 238 b0 239) && is_cont b1) ||
            ((b0 =? 237) && between 128 b1 159)) && is_cont b2 then
          rs ← decode_runes r2;
          Some ((b0 - 224) * 4096 + (b1 - 128) * 64 + (b2 - 128) :: rs)
        else match r2 with
        | b3 :: r3 =>
          if (((b0 =? 240) && between 144 b1 191) ||
              (between 241 b0 243 && is_cont b1) ||
              ((b0 =? 244) && between 128 b1 143)) && is_cont b2 && is_cont b3 then
            rs ← decode_runes r3;
            Some ((b0 - 240) * 262144 + (b1 - 128) * 4096 + (b2 - 128) * 64 + (b3 - 128) :: rs)
          else None
        | [] => None
        end
      | [] => None
      end
    | [] => None
    end
  end.

Definition ValidString (s : string) : bool :=
  match decode_runes (string_bytes s) with Some _ => true | None => false end.

(** [utf8.DecodeRune]: the first rune and its width; [(RuneError, 1)] on an invalid encoding and
    [(RuneError, 0)] on an empty input. *)
Definition RuneError : Z := 65533.

Definition DecodeRune (bs : list Z) : Z * nat :=
  match bs with
  | [] => (RuneError, 0%nat)
  | b0 :: r0 =>
    if between 0 b0 127 then (b0, 1%nat)
    else match r0 with
    | b1 :: r1 =>
      if between 194 b0 223 && is_cont b1 then ((b0 - 192) * 64 + (b1 - 128), 2%nat)
      else match r1 with
      | b2 :: r2 =>
        if (((b0 =? 224) && between 160 b1 191) ||
            ((between 225 b0 236 || between 238 b0 239) && is_cont b1) ||
            ((b0 =? 237) && between 128 b1 159)) && is_cont b2 then
          ((b0 - 224) * 4096 + (b1 - 128) * 64 + (b2 - 128), 3%nat)
        else match r2 with
        | b3 :: _ =>
          if (((b0 =? 240) && between 144 b1 191) ||
              (between 241 b0 243 && is_cont b1) ||
              ((b0 =? 244) && between 128 b1 143)) && is_cont b2 && is_cont b3 then
            ((b0 - 240) * 262144 + (b1 - 128) * 4096 + (b2 - 128) * 64 + (b3 - 128), 4%nat)
          else (RuneError, 1%nat)
        | [] => (RuneError, 1%nat)
        end
      | [] => (RuneError, 1%nat)
      end
    | [] => (RuneError, 1%nat)
    end
  end.

(** The loop [for i := 0; i < len(s); i += size { r, size := utf8.DecodeRune(s[i:]); ... }]: the
    runes with their bytes.  Every step consumes at least a byte, so [length bs] steps are
    enough. *)
Fixpoint runes_from (n : nat) (bs : list Z) : list (Z * list Z) :=
  match n, bs with
  | S n', _ :: _ =>
    let '(r, k) := DecodeRune bs in (r, take k bs) :: runes_from n' (drop k bs)
  | _, _ => []
  end.
Definition range_runes (bs : list Z) : list (Z * list Z) := runes_from (length bs) bs.

(** [utf8.AppendRune] for a valid rune. *)
Definition encode_rune (r : Z) : list Z :=
  if r <=? 127 then [r]
  else if r <=? 2047 then [192 + r / 64; 128 + r mod 64]
  else if r <=? 65535 then [224 + r / 4096; 128 + (r / 64) mod 64; 128 + r mod 64]
  else [240 + r / 262144; 128 + (r / 4096) mod 64; 128 + (r / 64) mod 64; 128 + r mod 64].

(** A Unicode scalar value: in range and not a surrogate. *)
Definition scalar (r : Z) : Prop := 0 <= r < 55296 \/ 57344 <= r < 1114112.

(** [unicode.IsSpace]. *)
Definition IsSpace (r : Z) : bool :=
  between 9 r 13 || (r =? 32) || (r =? 133) || (r =? 160) || (r =? 5760) ||
  between 8192 r 8202 || (r =? 8232) || (r =? 8233) || (r =? 8239) || (r =? 8287) || (r =? 12288).

(** [utf8.DecodeLastRune]. *)
Definition last_start (bs : list Z) : nat :=
  let n := length bs in
  match List.find (fun k => Nat.leb k n && negb (is_cont (nth (n - k) bs 0))) [2%nat; 3%nat; 4%nat] with
  | Some k => k
  | None => Nat.min 5 n
  end.

Definition DecodeLastRune (bs : list Z) : Z * nat :=
  match last bs with
  | None => (RuneError, 0%nat)
  | Some b =>
    if b <? 128 then (b, 1%nat)
    else
      let k := last_start bs in
      let '(r, size) := DecodeRune (drop (length bs - k) bs) in
      if Nat.eqb size k then (r, size) else (RuneError, 1%nat)
  end.

(** [bytes.TrimSpace] and [strings.TrimSpace]. *)
Fixpoint trim_left (n : nat) (bs : list Z) : list Z :=
  match n, bs with
  | S n', _ :: _ =>
    let '(r, k) := DecodeRune bs in if IsSpace r then trim_left n' (drop k bs) else bs
  | _, _ => bs
  end.

Fixpoint trim_right (n : nat) (bs : list Z) : list Z :=
  match n, bs with
  | S n', _ :: _ =>
    let '(r, k) := DecodeLastRune bs in
    if IsSpace r then trim_right n' (take (length bs - k) bs) else bs
  | _, _ => bs
  end.

Definition TrimSpace (bs : list Z) : list Z :=
  let bs' := trim_left (length bs) bs in trim_right (length bs') bs'.

(** [strings.TrimSpace(s) == ""]. *)
Definition TrimSpace_empty (s : string) : bool :=
  match decode_runes (string_bytes s) with
  | Some rs => forallb IsSpace rs
  | None => false
  end.

(** ** Numbers *)

(** [strconv.FormatInt(z, 10)], also [strconv.Itoa] and [strconv.FormatUint]. *)
Definition FormatInt (z : Z) : string := NilZero.string_of_int (Z.to_int z).

Definition hex_digit (n : Z) : ascii :=
  char_of_byte (if n <? 10 then 48 + n else 87 + n).

(** [hex.EncodeToString]. *)
Fixpoint hex_encode (bs : list Z) : string :=
  match bs with
  | [] => EmptyString
  | b :: bs' => String (hex_digit (b / 16)) (String (hex_digit (b mod 16)) (hex_encode bs'))
  end.

Definition is_hex_digit (c : ascii) : bool :=
  let b := byte_of_char c in between 48 b 57 || between 97 b 102 || between 65 b 70.

(** [hex.DecodeString(s)] succeeds: an even number of hexadecimal digits. *)
Definition hex_decodable (s : string) : bool :=
  Nat.even (String.length s) && forallb is_hex_digit (list_ascii_of_string s).

(** ** Quoting *)

(** [%q] of a string: [strconv.Quote] on ASCII; valid non-ASCII text is kept as it is. *)
Definition quote_byte (b : Z) : string :=
  let bsl := String (char_of_byte 92) EmptyString in
  if b =? 34 then bsl +:+ String (char_of_byte 34) EmptyString
  else if b =? 92 then bsl +:+ bsl
  else if b =? 7 then bsl +:+ "a" else if b =? 8 then bsl +:+ "b"
  else if b =? 12 then bsl +:+ "f" else if b =? 10 then bsl +:+ "n"
  else if b =? 13 then bsl +:+ "r" else if b =? 9 then bsl +:+ "t"
  else if b =? 11 then bsl +:+ "v"
  else if (b <? 32) || (b =? 127) then bsl +:+ "x" +:+ hex_encode [b]
  else String (char_of_byte b) EmptyString.

Definition Quote (s : string) : string :=
  let dq := String (char_of_byte 34) EmptyString in
  dq +:+ String.concat "" (quote_byte <$> string_bytes s) +:+ dq.

(** ** UTF-8 facts *)

(** Cases of [decode_runes] on a non-empty input: one scalar is consumed. *)
Lemma decode_runes_cons bs rs :
  decode_runes bs = Some rs -> bs <> [] ->
  exists r rs' rest, rs = r :: rs' /\ bs = encode_rune r ++ rest /\ scalar r /\
    decode_runes rest = Some rs' /\ (length rest < length bs)%nat.
Proof.
  intros H Hne. destruct bs as [|b0 r0]; [done|]. clear Hne. simpl in H.
  unfold between, is_cont, between in H.
  destruct (_ && _) eqn:E1 in H.
  { apply bind_Some in H as (rs' & Hd & [= <-]). exists b0, rs', r0. bool_prop.
    unfold encode_rune. rewrite (proj2 (Z.leb_le b0 127)) by lia.
    repeat split; try done; [left; lia|simpl; lia]. }
  destruct r0 as [|b1 r1]; [done|]. destruct (_ && _) eqn:E2 in H.
  { apply bind_Some in H as (rs' & Hd & [= <-]). exists ((b0 - 192) * 64 + (b1 - 128)), rs', r1. bool_prop.
    unfold encode_rune.
    rewrite (proj2 (Z.leb_gt _ 127)), (proj2 (Z.leb_le _ 2047)) by lia.
    repeat split; try done; [|left; lia|simpl; lia].
    cbn [app]. f_equal; [div_lia|]. f_equal; div_lia. }
  destruct r1 as [|b2 r2]; [done|]. destruct (_ && _) eqn:E3 in H.
  { apply bind_Some in H as (rs' & Hd & [= <-]). 
    exists ((b0 - 224) * 4096 + (b1 - 128) * 64 + (b2 - 128)), rs', r2.
    assert (224 <= b0 <= 239 /\ 128 <= b1 <= 191 /\ 128 <= b2 <= 191 /\
            (b0 = 224 -> 160 <= b1) /\ (b0 = 237 -> b1 <= 159)) by lia.
    clear E1 E2 E3. unfold encode_rune.
    rewrite (proj2 (Z.leb_gt _ 127)), (proj2 (Z.leb_gt _ 2047)), (proj2 (Z.leb_le _ 65535)) by lia.
    repeat split; try done; [|unfold scalar; lia|simpl; lia].
    cbn [app]. do 2 (f_equal; [div_lia|]). f_equal; div_lia. }
  destruct r2 as [|b3 r3]; [done|]. destruct (_ && _) eqn:E4 in H; [|done].
  apply bind_Some in H as (rs' & Hd & [= <-]). 
  exists ((b0 - 240) * 262144 + (b1 - 128) * 4096 + (b2 - 128) * 64 + (b3 - 128)), rs', r3.
  assert (240 <= b0 <= 244 /\ 128 <= b1 <= 191 /\ 128 <= b2 <= 191 /\ 128 <= b3 <= 191 /\
          (b0 = 240 -> 144 <= b1) /\ (b0 = 244 -> b1 <= 143)) by lia.
  clear E1 E2 E3 E4. unfold encode_rune.
  rewrite (proj2 (Z.leb_gt _ 127)), (proj2 (Z.leb_gt _ 2047)), (proj2 (Z.leb_gt _ 65535)) by lia.
  repeat split; try done; [|unfold scalar; lia|simpl; lia].
  cbn [app]. do 3 (f_equal; [div_lia|]). f_equal; div_lia.
Qed.

(** Decoding is the inverse of encoding: the bytes are determined by the runes. *)
Lemma decode_runes_encode bs rs :
  decode_runes bs = Some rs -> bs = concat (encode_rune <$> rs) /\ Forall scalar rs.
Proof.
  remember (length bs) as n eqn:Hn. revert bs rs Hn.
  induction (lt_wf n) as [n _ IH]. intros bs rs -> H.
  destruct bs as [|b bs]; [simpl in H; simplify_eq; done|].
  destruct (decode_runes_cons _ _ H) as (r & rs' & rest & -> & Hb & Hr & Hd & Hlt); [done|].
  destruct (IH _ Hlt _ _ eq_refl Hd) as [-> ?]. split; [by rewrite Hb|by constructor].
Qed.

Lemma decode_runes_inj bs1 bs2 rs :
  decode_runes bs1 = Some rs -> decode_runes bs2 = Some rs -> bs1 = bs2.
Proof.
  intros [-> _]%decode_runes_encode [-> _]%decode_runes_encode. done.
Qed.

Lemma encode_rune_length r : scalar r -> (1 <= length (encode_rune r) <= 4)%nat.
Proof. intros _. unfold encode_rune. repeat case_match; simpl; lia. Qed.

Lemma encode_rune_range r : scalar r -> Forall byte_range (encode_rune r).
Proof.
  unfold scalar, encode_rune, byte_range. intros Hr.
  repeat case_match; bool_prop; repeat constructor; div_lia.
Qed.

Local Ltac case_if E := match goal with |- context [if ?c then _ else _] => destruct c eqn:E end.

(** The decoder reads back one encoded rune, whatever follows. *)
Lemma DecodeRune_encode r rest :
  scalar r -> DecodeRune (encode_rune r ++ rest) = (r, length (encode_rune r)).
Proof.
  unfold scalar, encode_rune. intros Hr.
  destruct (Z.leb_spec r 127); [|destruct (Z.leb_spec r 2047); [|destruct (Z.leb_spec r 65535)]];
    cbn [app length DecodeRune]; unfold is_cont, between.
  - by rewrite (proj2 (Z.leb_le 0 r)), (proj2 (Z.leb_le r 127)) by lia.
  - assert (192 + r / 64 > 127 /\ 194 <= 192 + r / 64 <= 223 /\ 128 <= 128 + r mod 64 <= 191)
      as (? & ? & ?) by div_lia.
    case_if E1; [lia|]. case_if E2; [|lia].
    f_equal. div_lia.
  - assert (224 <= 224 + r / 4096 <= 239 /\ 128 <= 128 + (r / 64) mod 64 <= 191 /\
            128 <= 128 + r mod 64 <= 191 /\
            (224 + r / 4096 = 224 -> 160 <= 128 + (r / 64) mod 64) /\
            (224 + r / 4096 = 237 -> 128 + (r / 64) mod 64 <= 159)) by div_lia.
    case_if E1; [lia|]. case_if E2; [lia|].
    case_if E3; [|lia]. f_equal. div_lia.
  - assert (240 <= 240 + r / 262144 <= 244 /\ 128 <= 128 + (r / 4096) mod 64 <= 191 /\
            128 <= 128 + (r / 64) mod 64 <= 191 /\ 128 <= 128 + r mod 64 <= 191 /\
            (240 + r / 262144 = 240 -> 144 <= 128 + (r / 4096) mod 64) /\
            (240 + r / 262144 = 244 -> 128 + (r / 4096) mod 64 <= 143)) by div_lia.
    case_if E1; [lia|]. case_if E2; [lia|].
    case_if E3; [lia|]. case_if E4; [|lia]. f_equal. div_lia.
Qed.

(** Either decoding fails with width 1 or it consumes the encoding of a scalar. *)
Lemma DecodeRune_cases bs :
  bs <> [] ->
  DecodeRune bs = (RuneError, 1%nat) \/
  exists r rest, scalar r /\ bs = encode_rune r ++ rest /\ DecodeRune bs = (r, length (encode_rune r)).
Proof.
  intros Hne. destruct bs as [|b0 r0]; [done|]. clear Hne.
  assert (Hd : forall bs r k rest, DecodeRune bs = (r, k) ->
    decode_runes (take k bs) = Some [r] -> bs = take k bs ++ rest ->
    exists r' rest', scalar r' /\ bs = encode_rune r' ++ rest' /\
      DecodeRune bs = (r', length (encode_rune r'))).
  { intros bs r k rest _ [He Hs]%decode_runes_encode Hb. simpl in He. rewrite app_nil_r in He.
    inversion Hs; subst. exists r, rest. rewrite He in Hb. split; [done|]. split; [done|].
    rewrite Hb. by apply DecodeRune_encode. }
  destruct (DecodeRune (b0 :: r0)) as [r k] eqn:E.
  assert (Hs : (r, k) = (RuneError, 1%nat) \/ decode_runes (take k (b0 :: r0)) = Some [r]).
  { simpl in E. repeat case_match; simplify_eq; auto; right; simpl;
      repeat match goal with H : ?c = _ |- context [if ?c then _ else _] => rewrite H end; done. }
  destruct Hs as [Hs|Hs]; [by left|right].
  rewrite <- E. eapply Hd; [done..|]. by rewrite take_drop.
Qed.

Lemma runes_from_encode rs n :
  Forall scalar rs -> (length (concat (encode_rune <$> rs)) <= n)%nat ->
  runes_from n (concat (encode_rune <$> rs)) = (fun r => (r, encode_rune r)) <$> rs.
Proof.
  intros Hs. revert n. induction Hs as [|r rs Hr Hs IH]; intros n Hn; simpl in *.
  { by destruct n. }
  pose proof (encode_rune_length r Hr). rewrite length_app in Hn.
  destruct n as [|n]; [lia|]. destruct (encode_rune r ++ _) as [|b bs] eqn:E.
  { apply app_eq_nil in E as [E _]. apply (f_equal length) in E. simpl in E. lia. }
  cbn [runes_from]. rewrite <- E, DecodeRune_encode by done.
  rewrite take_app_length, drop_app_length. f_equal. apply IH. unfold fmap. lia.
Qed.

(** On valid text the loop visits the decoded runes. *)
Lemma range_runes_valid bs rs :
  decode_runes bs = Some rs -> range_runes bs = (fun r => (r, encode_rune r)) <$> rs.
Proof. intros [-> ?]%decode_runes_encode. by apply runes_from_encode. Qed.

Lemma decode_runes_app_encode r bs rs :
  scalar r -> decode_runes bs = Some rs -> decode_runes (encode_rune r ++ bs) = Some (r :: rs).
Proof.
  intros Hr Hb. pose proof (DecodeRune_encode r bs Hr) as Hd.
  pose proof (encode_rune_length r Hr) as Hl.
  destruct (encode_rune r) as [|b0 [|b1 [|b2 [|b3 [|]]]]] eqn:E; simpl in Hl; try lia;
    simpl in Hd |- *; repeat case_match; simplify_eq; try done; try (by rewrite Hb); by rewrite Hb.
Qed.

(** Conversely, encoded scalars are valid text. *)
Lemma decode_encode_runes rs :
  Forall scalar rs -> decode_runes (concat (encode_rune <$> rs)) = Some rs.
Proof. induction 1; simpl; [done|]. by apply decode_runes_app_encode. Qed.

(** ** Decimal facts *)

Lemma trim_right_last n bs b :
  0 <= b < 128 -> (0 < n)%nat ->
  trim_right n (bs ++ [b]) =
    (if IsSpace b then trim_right (pred n) bs else bs ++ [b]).
Proof.
  intros Hb Hn. destruct n as [|n]; [lia|]. cbn [trim_right pred].
  destruct (bs ++ [b]) as [|x l] eqn:E; [by destruct bs|]. rewrite <- E. clear E x l.
  unfold DecodeLastRune. rewrite last_snoc, (proj2 (Z.ltb_lt b 128)) by lia.
  destruct (IsSpace b); [|done]. f_equal. rewrite length_app. simpl.
  rewrite Nat.add_sub. apply take_app_length.
Qed.

Lemma FormatInt_inj a b : FormatInt a = FormatInt b -> a = b.
Proof.
  unfold FormatInt. intros H. apply DecimalZ.to_int_inj.
  assert (Hn : forall z, Z.to_int z <> Decimal.Pos Decimal.Nil /\
                         Z.to_int z <> Decimal.Neg Decimal.Nil).
  { intros [|p|p]; simpl; split; try done; intros [= Hp];
      by apply (DecimalPos.Unsigned.to_uint_nonnil p). }
  assert (Hi : forall z, NilZero.int_of_string (NilZero.string_of_int (Z.to_int z)) =
                         Some (Z.to_int z)).
  { intros z. apply NilZero.isi; apply Hn. }
  pose proof (Hi a) as Ha. rewrite H, Hi in Ha. by injection Ha.
Qed.
