(* ===== verification/GoNet.v ===== *)
(** * Address primitives of the Go standard library

    The parts of package [net] (and [net/netip] below it) that the policy validator uses:
    [net.SplitHostPort], [net.ParseIP], [IP.IsLoopback], [IP.IsPrivate], and [strings.EqualFold]
    and [strings.Split] on the inputs it gives them.  Strings are handled as lists of bytes. *)

From Stdlib Require Import ZArith Lia Ascii String.
From stdpp Require Import base list strings.
From S2P Require Import Prelude GoText.
Open Scope string_scope.
Open Scope list_scope.
Open Scope Z_scope.

(** Code points used below. *)
Definition ch_dot : Z := 46.
Definition ch_colon : Z := 58.
Definition ch_percent : Z := 37.
Definition ch_lbrack : Z := 91.
Definition ch_rbrack : Z := 93.

(** [IndexByteString] and [LastIndexByteString]; [None] is -1. *)
Fixpoint index_byte (c : Z) (l : list Z) : option nat :=
  match l with
  | [] => None
  | b :: l' => if b =? c then Some O else S <$> index_byte c l'
  end.

Fixpoint last_index_byte (c : Z) (l : list Z) : option nat :=
  match l with
  | [] => None
  | b :: l' => match last_index_byte c l' with
               | Some i => Some (S i)
               | None => if b =? c then Some O else None
               end
  end.

Definition has_byte (c : Z) (l : list Z) : bool := existsb (Z.eqb c) l.

(** [strings.Split(s, sep)] for a one-byte separator. *)
Fixpoint split_byte (c : Z) (l : list Z) : list (list Z) :=
  match l with
  | [] => [[]]
  | b :: l' =>
    if b =? c then [] :: split_byte c l'
    else match split_byte c l' with
         | p :: ps => (b :: p) :: ps
         | [] => [[b]]
         end
  end.

(** [net.SplitHostPort]: host and port, [None] for an error. *)
Definition SplitHostPort (hostport : list Z) : option (list Z * list Z) :=
  match last_index_byte ch_colon hostport with
  | None => None
  | Some i =>
    let port := drop (S i) hostport in
    match hostport with
    | b :: rest =>
      if b =? ch_lbrack then
        match index_byte ch_rbrack hostport with
        | None => None
        | Some e =>
          if (S e =? i)%nat then
            if has_byte ch_lbrack (drop 1 hostport) || has_byte ch_rbrack (drop (S e) hostport)
            then None else Some (take (e - 1) rest, port)
          else None
        end
      else
        let host := take i hostport in
        if has_byte ch_colon host then None
        else if has_byte ch_lbrack hostport || has_byte ch_rbrack hostport then None
        else Some (host, port)
    | [] => None
    end
  end.

(** A decimal octet of [parseIPv4Fields]: digits, no leading zero, at most 255. *)
Definition parse_octet (l : list Z) : option Z :=
  if negb (forallb (fun b => between 48 b 57) l) then None
  else match l with
  | [] => None
  | 48 :: _ :: _ => None
  | _ => let v := fold_left (fun acc b => acc * 10 + (b - 48)) l 0 in
         if v <=? 255 then Some v else None
  end.

Definition parseIPv4Fields (l : list Z) : option (list Z) :=
  match split_byte ch_dot l with
  | [a; b; c; d] =>
    va ← parse_octet a; vb ← parse_octet b; vc ← parse_octet c; vd ← parse_octet d;
    Some [va; vb; vc; vd]
  | _ => None
  end.

(** The longest prefix of hexadecimal digits, and the rest. *)
Definition hex_value (b : Z) : option Z :=
  if between 48 b 57 then Some (b - 48)
  else if between 97 b 102 then Some (b - 87)
  else if between 65 b 70 then Some (b - 55) else None.

Fixpoint hex_prefix (l : list Z) : list Z * list Z :=
  match l with
  | [] => ([], [])
  | b :: l' => match hex_value b with
               | Some v => let '(ds, rest) := hex_prefix l' in (v :: ds, rest)
               | None => ([], l)
               end
  end.

(** The loop of [parseIPv6]: [acc] the bytes so far, [ell] the position of the ellipsis, [s] the
    rest of the input.  The result is the loop's exit state.  Each turn adds two bytes, so eight
    turns exhaust the loop condition. *)
Fixpoint parseIPv6_loop (fuel : nat) (acc : list Z) (ell : option nat) (s : list Z)
  : option (list Z * option nat * list Z) :=
  if (16 <=? length acc)%nat then Some (acc, ell, s)
  else match fuel with
  | O => None
  | S fuel' =>
    let '(ds, rest) := hex_prefix s in
    if (length ds =? 0)%nat || (4 <? length ds)%nat then None
    else match rest with
    | b :: _ =>
      if b =? ch_dot then
        if match ell with None => negb (length acc =? 12)%nat | Some _ => false end then None
        else if (16 <? length acc + 4)%nat then None
        else v4 ← parseIPv4Fields s; Some (acc ++ v4, ell, [])
      else
        let v := fold_left (fun a d => a * 16 + d) ds 0 in
        let acc' := acc ++ [v / 256; v mod 256] in
        if negb (b =? ch_colon) then None
        else match drop 1 rest with
        | [] => None
        | c :: s2 =>
          if c =? ch_colon then
            match ell with
            | Some _ => None
            | None => match s2 with
                      | [] => Some (acc', Some (length acc'), [])
                      | _ => parseIPv6_loop fuel' acc' (Some (length acc')) s2
                      end
            end
          else parseIPv6_loop fuel' acc' ell (c :: s2)
        end
    | [] =>
      let v := fold_left (fun a d => a * 16 + d) ds 0 in
      Some (acc ++ [v / 256; v mod 256], ell, [])
    end
  end.

(** [netip.parseIPv6] without a zone: a zone makes [net.ParseIP] fail. *)
Definition parseIPv6 (s : list Z) : option (list Z) :=
  if has_byte ch_percent s then None
  else
    let '(ell, s') := match s with
                      | a :: b :: r => if (a =? ch_colon) && (b =? ch_colon) then (Some O, r)
                                       else (None, s)
                      | _ => (None, s)
                      end in
    match ell, s' with
    | Some _, [] => Some (replicate 16 0)
    | _, _ =>
      match parseIPv6_loop 8 [] ell s' with
      | Some (acc, ell', []) =>
        if (length acc <? 16)%nat then
          match ell' with
          | None => None
          | Some e => Some (take e acc ++ replicate (16 - length acc) 0 ++ drop e acc)
          end
        else match ell' with Some _ => None | None => Some acc end
      | _ => None
      end
    end.

(** [net.ParseIP]: the 16-byte form, IPv4 addresses mapped. *)
Definition v4_prefix : list Z := replicate 10 0 ++ [255; 255].

Definition ParseIP (s : list Z) : option (list Z) :=
  match List.find (fun b => (b =? ch_dot) || (b =? ch_colon) || (b =? ch_percent)) s with
  | Some b => if b =? ch_dot then app v4_prefix <$> parseIPv4Fields s
              else if b =? ch_colon then parseIPv6 s else None
  | None => None
  end.

(** [IP.To4]. *)
Definition To4 (ip : list Z) : option (list Z) :=
  if take 12 ip ==? v4_prefix then Some (drop 12 ip) else None.

Definition nth_byte (l : list Z) (i : nat) : Z := nth i l 0.

Definition IsLoopback (ip : list Z) : bool :=
  match To4 ip with
  | Some ip4 => nth_byte ip4 0 =? 127
  | None => ip ==? replicate 15 0 ++ [1]
  end.

Definition IsPrivate (ip : list Z) : bool :=
  match To4 ip with
  | Some ip4 => (nth_byte ip4 0 =? 10) ||
                ((nth_byte ip4 0 =? 172) && (Z.land (nth_byte ip4 1) 240 =? 16)) ||
                ((nth_byte ip4 0 =? 192) && (nth_byte ip4 1 =? 168))
  | None => (length ip =? 16)%nat && (Z.land (nth_byte ip 0) 254 =? 252)
  end.

(** [strings.EqualFold(s, t)] for an ASCII [t]: simple case folding takes A-Z to a-z, the long s
    U+017F to s and the Kelvin sign U+212A to k. *)
Definition fold_rune (r : Z) : Z :=
  if between 65 r 90 then r + 32 else if r =? 383 then 115 else if r =? 8490 then 107 else r.

Definition EqualFold_ascii (s t : string) : bool :=
  match decode_runes (string_bytes s) with
  | Some rs => (fold_rune <$> rs) ==? (fold_rune <$> string_bytes t)
  | None => false
  end.

(** Addresses as the validator classifies them. *)
Example ParseIP_examples :
  (fun s => (fun ip => (IsLoopback ip, IsPrivate ip)) <$> ParseIP (string_bytes s)) <$>
    ["127.0.0.1"; "10.1.2.3"; "172.31.0.1"; "172.32.0.1"; "8.8.8.8"; "::1"; "fd00::1";
     "::ffff:192.168.0.1"; "1:2:3:4:5:6:7:8"; "2001:db8::"; "01.2.3.4"; "1.2.3"; "1::2::3";
     "fe80::1%eth0"; "db.example"]
  = [Some (true, false); Some (false, true); Some (false, true); Some (false, false);
     Some (false, false); Some (true, false); Some (false, true); Some (false, true);
     Some (false, false); Some (false, false); None; None; None; None; None].
Proof. vm_compute. reflexivity. Qed.

Example SplitHostPort_examples :
  (fun s => (fun p => (bytes_string p.1, bytes_string p.2)) <$> SplitHostPort (string_bytes s)) <$>
    ["db:5432"; "[::1]:5432"; "::1:5432"; "db"; "[::1]"; "[::1]x:1"; ":5432"]
  = [Some ("db", "5432"); Some ("::1", "5432"); None; None; None; None; Some ("", "5432")].
Proof. vm_compute. reflexivity. Qed.
