(* ===== verification/GoStrings.v ===== *)
(** * Strings, paths and address ranges of the Go standard library

    What the command, file and network policy uses of packages [strings], [path/filepath] (on
    Unix) and [net]: case mapping, prefixes and suffixes, [Split] and [Join], [Base], [Clean] and
    [Join] of paths, [ParseCIDR] and [IPNet.Contains].

    Case mapping and case orbits of runes beyond ASCII follow the Unicode tables of package [unicode];
    they are the fields of the classes [UnicodeCase] and [CaseOrbits], and no theorem depends on their
    contents. *)

From Stdlib Require Import ZArith Lia Ascii String.
From stdpp Require Import base list strings.
From S2P Require Import Prelude GoText GoNet.
Open Scope string_scope.
Open Scope list_scope.
Open Scope Z_scope.

(** ** Case *)

(** [unicode.ToLower] and [unicode.ToUpper] on runes beyond ASCII. *)
Class UnicodeCase : Type := {
  unicode_lower : Z -> Z;
  unicode_upper : Z -> Z
}.

(** Tables that only know the Kelvin sign, the micro sign and the Latin-1 letters. *)
Definition latin_case : UnicodeCase := {|
  unicode_lower r :=
    if (between 192 r 222) && negb (r =? 215) then r + 32 else if r =? 8490 then 107 else r;
  unicode_upper r :=
    if (between 224 r 254) && negb (r =? 247) then r - 32 else if r =? 181 then 924 else r
|}.

Section Case.
Context {U : UnicodeCase}.

Definition lower_rune (r : Z) : Z :=
  if r <? 128 then (if between 65 r 90 then r + 32 else r) else unicode_lower r.
Definition upper_rune (r : Z) : Z :=
  if r <? 128 then (if between 97 r 122 then r - 32 else r) else unicode_upper r.

(** [strings.Map]: an invalid byte is replaced by the encoding of U+FFFD. *)
Definition map_runes (f : Z -> Z) (bs : list Z) : list Z :=
  concat ((fun p => encode_rune (f p.1)) <$> range_runes bs).

Definition ToLower (s : string) : string := bytes_string (map_runes lower_rune (string_bytes s)).
Definition ToUpper (s : string) : string := bytes_string (map_runes upper_rune (string_bytes s)).

End Case.

(** ** [strings.EqualFold] *)

(** [unicode.SimpleFold]: the next larger rune of the same case orbit, or its smallest rune. *)
Class CaseOrbits : Type := { SimpleFold : Z -> Z }.

(** Orbits of ASCII letters, with the long s and the Kelvin sign. *)
Definition ascii_orbits : CaseOrbits := {|
  SimpleFold r :=
    if r =? 75 then 107 else if r =? 107 then 8490 else if r =? 8490 then 75
    else if r =? 83 then 115 else if r =? 115 then 383 else if r =? 383 then 83
    else if between 65 r 90 then r + 32 else if between 97 r 122 then r - 32 else r
|}.

Section Fold.
Context {CO : CaseOrbits}.

(** [r := SimpleFold(sr); for r != sr && r < tr { r = SimpleFold(r) }]; an orbit has at most four
    runes. *)
Fixpoint fold_orbit (turns : nat) (sr tr r : Z) : Z :=
  match turns with
  | O => r
  | S turns' => if negb (r =? sr) && (r <? tr) then fold_orbit turns' sr tr (SimpleFold r) else r
  end.

Definition fold_equal (a b : Z) : bool :=
  if a =? b then true
  else
    let sr := Z.min a b in let tr := Z.max a b in
    if tr <? 128 then between 65 sr 90 && (tr =? sr + 32)
    else fold_orbit 4 sr tr (SimpleFold sr) =? tr.

Fixpoint forallb2 {A B} (f : A -> B -> bool) (l : list A) (k : list B) : bool :=
  match l, k with
  | [], [] => true
  | x :: l', y :: k' => f x y && forallb2 f l' k'
  | _, _ => false
  end.

Definition EqualFold (s t : string) : bool :=
  forallb2 fold_equal (range_runes (string_bytes s)).*1 (range_runes (string_bytes t)).*1.

End Fold.

Example fold_examples :
  (fun p : string * string => EqualFold (CO:=ascii_orbits) p.1 p.2) <$>
    [("Claude", "cLAUDE"); ("claude", "claude2"); ("", ""); ("K", "k"); ("a[", "A{")] =
  [true; false; true; true; false].
Proof. vm_compute. reflexivity. Qed.

(** ** Substrings *)

Fixpoint starts_with (p l : list Z) : bool :=
  match p, l with
  | [], _ => true
  | a :: p', b :: l' => (a =? b) && starts_with p' l'
  | _ :: _, [] => false
  end.

Fixpoint contains (p l : list Z) : bool :=
  starts_with p l || match l with [] => false | _ :: l' => contains p l' end.

Definition HasPrefix (s p : string) : bool := starts_with (string_bytes p) (string_bytes s).
Definition HasSuffix (s p : string) : bool :=
  starts_with (rev (string_bytes p)) (rev (string_bytes s)).
Definition Contains (s p : string) : bool := contains (string_bytes p) (string_bytes s).

(** [strings.ContainsAny] for ASCII characters. *)
Definition ContainsAny (s chars : string) : bool :=
  existsb (fun b => has_byte b (string_bytes chars)) (string_bytes s).

Definition TrimPrefix (s p : string) : string :=
  if HasPrefix s p then bytes_string (drop (String.length p) (string_bytes s)) else s.
Definition TrimSuffix (s p : string) : string :=
  if HasSuffix s p
  then bytes_string (take (String.length s - String.length p) (string_bytes s)) else s.

Definition TrimSpace_string (s : string) : string := bytes_string (TrimSpace (string_bytes s)).

(** [strings.Count(s, c)] for a one-byte [c]. *)
Definition count_byte (c : Z) (bs : list Z) : nat := length (List.filter (Z.eqb c) bs).

(** [strings.Join(l, " ")] and the like. *)
Fixpoint join_bytes (sep : list Z) (l : list (list Z)) : list Z :=
  match l with
  | [] => []
  | [x] => x
  | x :: l' => x ++ sep ++ join_bytes sep l'
  end.

Definition Join (l : list string) (sep : string) : string :=
  bytes_string (join_bytes (string_bytes sep) (string_bytes <$> l)).

(** [strconv.Atoi]: an optional sign, decimal digits, within 64 bits. *)
Definition decimal_value (l : list Z) : option Z :=
  if nonempty l && forallb (fun b => between 48 b 57) l
  then Some (fold_left (fun acc b => acc * 10 + (b - 48)) l 0) else None.

Definition Atoi (s : string) : option Z :=
  z ← match string_bytes s with
      | b :: r => if b =? 43 then decimal_value r
                  else if b =? 45 then Z.opp <$> decimal_value r
                  else decimal_value (b :: r)
      | [] => None
      end;
  if (min_int64 <=? z) && (z <=? max_int64) then Some z else None.

(** ** Paths *)

Definition ch_slash : Z := 47.
Definition dot : list Z := [46].
Definition dotdot : list Z := [46; 46].

(** [filepath.Base]. *)
Fixpoint strip_slashes (l : list Z) : list Z :=
  match l with b :: l' => if b =? ch_slash then strip_slashes l' else l | [] => [] end.

Definition base_bytes (p : list Z) : list Z :=
  match p with
  | [] => dot
  | _ =>
    let p1 := rev (strip_slashes (rev p)) in
    let p2 := match last_index_byte ch_slash p1 with Some i => drop (S i) p1 | None => p1 end in
    match p2 with [] => [ch_slash] | _ => p2 end
  end.

(** [filepath.Clean], element by element: [out] holds the elements kept so far, last first. *)
Definition clean_step (rooted : bool) (out : list (list Z)) (e : list Z) : list (list Z) :=
  if bool_decide (e = []) || bool_decide (e = dot) then out
  else if bool_decide (e = dotdot) then
    match out with
    | x :: out' => if bool_decide (x = dotdot) then e :: out else out'
    | [] => if rooted then [] else [e]
    end
  else e :: out.

Definition clean_elems (rooted : bool) (l : list (list Z)) : list (list Z) :=
  rev (fold_left (clean_step rooted) l []).

Definition clean_bytes (p : list Z) : list Z :=
  match p with
  | [] => dot
  | b :: _ =>
    let rooted := b =? ch_slash in
    let elems := clean_elems rooted (split_byte ch_slash p) in
    match rooted, elems with
    | true, _ => ch_slash :: join_bytes [ch_slash] elems
    | false, [] => dot
    | false, _ => join_bytes [ch_slash] elems
    end
  end.

(** [filepath.Join]: empty leading elements are dropped. *)
Fixpoint path_join_bytes (l : list (list Z)) : list Z :=
  match l with
  | [] => []
  | [] :: l' => path_join_bytes l'
  | _ => clean_bytes (join_bytes [ch_slash] l)
  end.

Definition filepath_Base (p : string) : string := bytes_string (base_bytes (string_bytes p)).
Definition filepath_Clean (p : string) : string := bytes_string (clean_bytes (string_bytes p)).
Definition filepath_Join (l : list string) : string :=
  bytes_string (path_join_bytes (string_bytes <$> l)).

(** ** Address ranges *)

Record IPNet : Type := mkIPNet { n_IP : list Z; n_Mask : list Z }.

(** [dtoi] on the whole string, with its overflow limit. *)
Definition parse_mask_bits (l : list Z) : option Z :=
  if nonempty l && forallb (fun b => between 48 b 57) l then
    fold_left (fun acc b => a ← acc; let v := a * 10 + (b - 48) in
                            if 16777215 <=? v then None else Some v) l (Some 0)
  else None.

(** [net.CIDRMask(n, 8 * size)]. *)
Fixpoint cidr_mask (n : Z) (size : nat) : list Z :=
  match size with
  | O => []
  | S size' => (if 8 <=? n then 255 else if n <=? 0 then 0 else 256 - 2 ^ (8 - n)) ::
               cidr_mask (n - 8) size'
  end.

Definition mask_bytes (ip mask : list Z) : list Z := zip_with Z.land ip mask.

(** [netip.ParseAddr] without a zone: the bytes of the address, 4 or 16 of them. *)
Definition ParseAddr (s : list Z) : option (list Z) :=
  match List.find (fun b => (b =? ch_dot) || (b =? ch_colon) || (b =? ch_percent)) s with
  | Some b => if b =? ch_dot then parseIPv4Fields s
              else if b =? ch_colon then parseIPv6 s else None
  | None => None
  end.

(** The network of [net.ParseCIDR]. *)
Definition ParseCIDR (s : string) : option IPNet :=
  let bs := string_bytes s in
  i ← index_byte ch_slash bs;
  addr ← ParseAddr (take i bs);
  n ← parse_mask_bits (drop (S i) bs);
  if 8 * Z.of_nat (length addr) <? n then None
  else let m := cidr_mask n (length addr) in Some (mkIPNet (mask_bytes addr m) m).

(** [networkNumberAndMask] and [IPNet.Contains]. *)
Definition net_number (n : IPNet) : option (list Z * list Z) :=
  let ip := default (n_IP n) (To4 (n_IP n)) in
  if Nat.eqb (length (n_Mask n)) (length ip) then Some (ip, n_Mask n)
  else if Nat.eqb (length ip) 4 && Nat.eqb (length (n_Mask n)) 16 then Some (ip, drop 12 (n_Mask n))
  else None.

Definition IPNet_Contains (n : IPNet) (ip : list Z) : bool :=
  match net_number n with
  | None => false
  | Some (nn, m) =>
    let x := default ip (To4 ip) in
    Nat.eqb (length x) (length nn) && bool_decide (mask_bytes nn m = mask_bytes x m)
  end.

(** ** Facts on paths *)

(** The elements of a path. *)
Definition elements (p : string) : list (list Z) := split_byte ch_slash (string_bytes p).

Lemma split_byte_app c a b : split_byte c (a ++ c :: b) = split_byte c a ++ split_byte c b.
Proof.
  induction a as [|x a IH]; cbn [app split_byte]; [by rewrite Z.eqb_refl|].
  destruct (x =? c); [by rewrite IH|]. rewrite IH.
  destruct (split_byte c a) as [|p ps] eqn:E; [|done].
  destruct a as [|y a]; cbn in E; [done|]. destruct (y =? c); [done|]. by destruct (split_byte c a).
Qed.

Lemma split_byte_none c a : c ∉ a -> split_byte c a = [a].
Proof.
  induction a as [|x a IH]; [done|]. rewrite not_elem_of_cons. intros [Hne Hni]. cbn.
  destruct (Z.eqb_spec x c); [by subst|]. by rewrite IH.
Qed.

Lemma last_index_byte_split c l :
  match last_index_byte c l with
  | Some i => exists a b, l = a ++ c :: b /\ i = length a /\ c ∉ b
  | None => c ∉ l
  end.
Proof.
  induction l as [|x l IH]; cbn; [apply not_elem_of_nil|]. destruct (last_index_byte c l) as [i|].
  - destruct IH as (a & b & -> & -> & Hb). by exists (x :: a), b.
  - destruct (Z.eqb_spec x c) as [->|Hne]; [by exists [], l|]. apply not_elem_of_cons. auto.
Qed.

Lemma strip_slashes_split l : exists k, l = replicate k ch_slash ++ strip_slashes l.
Proof.
  induction l as [|x l [k IH]]; cbn; [by exists O|]. destruct (Z.eqb_spec x ch_slash) as [->|_].
  - exists (S k). cbn. by rewrite <- IH.
  - by exists O.
Qed.

(** [Base] is an element of the path, or stands for an empty or a root path. *)
Lemma base_bytes_element p : base_bytes p = dot \/ base_bytes p = [ch_slash] \/ base_bytes p ∈ split_byte ch_slash p.
Proof.
  unfold base_bytes. destruct p as [|x0 p0] eqn:Ep; [auto|]. rewrite <- Ep. clear Ep x0 p0.
  destruct (strip_slashes_split (rev p)) as [k Hk]. set (s := strip_slashes (rev p)) in *.
  assert (Hp : p = rev s ++ replicate k ch_slash).
  { rewrite <- (rev_involutive p), Hk, rev_app_distr. f_equal. clear. induction k as [|k IH]; [done|].
    cbn [replicate rev]. rewrite IH. symmetry. apply replicate_cons_app. }
  set (p1 := rev s) in *. pose proof (last_index_byte_split ch_slash p1) as Hl.
  assert (Hin : forall q, q ∈ split_byte ch_slash p1 -> q ∈ split_byte ch_slash p).
  { intros q Hq. rewrite Hp. destruct k as [|k]; [by rewrite app_nil_r|]. cbn [replicate].
    rewrite split_byte_app, elem_of_app. auto. }
  destruct (last_index_byte ch_slash p1) as [i|].
  - destruct Hl as (a & b & Ha & -> & Hb). rewrite Ha.
    assert (Hd : drop (S (length a)) (a ++ ch_slash :: b) = b).
    { rewrite drop_app, drop_ge by lia. by replace (S (length a) - length a)%nat with 1%nat by lia. }
    rewrite Hd. destruct b as [|y b]; [auto|]. do 2 right. apply Hin. rewrite Ha, split_byte_app, elem_of_app.
    right. rewrite split_byte_none by done. left.
  - destruct p1 as [|y p1]; [auto|]. do 2 right. apply Hin. rewrite split_byte_none by done. left.
Qed.

(** Elements that survive cleaning when none is [..]. *)
Definition kept (l : list (list Z)) : list (list Z) :=
  List.filter (fun x => negb (bool_decide (x = []) || bool_decide (x = dot))) l.

Lemma clean_elems_app l1 l2 :
  dotdot ∉ l2 -> clean_elems true (l1 ++ l2) = clean_elems true l1 ++ kept l2.
Proof.
  intros Hn. unfold clean_elems. rewrite fold_left_app. generalize (fold_left (clean_step true) l1 []).
  induction l2 as [|x l2 IH]; intros out; cbn [fold_left kept List.filter]; [by rewrite app_nil_r|].
  apply not_elem_of_cons in Hn as [Hx Hn]. rewrite IH by done. unfold clean_step.
  destruct (_ || _); cbn [negb]; [done|]. rewrite bool_decide_eq_false_2 by done.
  cbn [rev]. by rewrite <- app_assoc.
Qed.

(** A path joined below a rooted directory stays below it when it has no [..] element. *)
Lemma join_below base p :
  HasPrefix base "/" = true -> dotdot ∉ split_byte ch_slash p ->
  path_join_bytes [string_bytes base; p] =
  ch_slash :: join_bytes [ch_slash] (clean_elems true (elements base) ++ kept (split_byte ch_slash p)).
Proof.
  unfold HasPrefix, elements. destruct (string_bytes base) as [|b bs] eqn:Eb; [done|].
  intros Hb Hn. change (string_bytes "/") with [ch_slash] in Hb. cbn [starts_with] in Hb.
  apply andb_true_iff in Hb as [<-%Z.eqb_eq _].
  cbn [path_join_bytes join_bytes app]. unfold clean_bytes. rewrite Z.eqb_refl. do 2 f_equal.
  rewrite app_comm_cons, split_byte_app. by apply clean_elems_app.
Qed.

Lemma split_byte_Forall c (P : Z -> Prop) l x : Forall P l -> x ∈ split_byte c l -> Forall P x.
Proof.
  intros Hl. revert x. induction Hl as [|b l Hb _ IH]; cbn; intros x Hx.
  { apply list_elem_of_singleton in Hx as ->. constructor. }
  destruct (b =? c); [apply elem_of_cons in Hx as [->|Hx]; [constructor|auto]|].
  destruct (split_byte c l) as [|p ps]; [apply list_elem_of_singleton in Hx as ->; by repeat constructor|].
  apply elem_of_cons in Hx as [->|Hx]; [|apply IH; by right]. constructor; [done|]. apply IH. left.
Qed.

Lemma split_byte_no_sep c l x : x ∈ split_byte c l -> c ∉ x.
Proof.
  revert x. induction l as [|b l IH]; cbn; intros x Hx.
  { apply list_elem_of_singleton in Hx as ->. apply not_elem_of_nil. }
  destruct (Z.eqb_spec b c) as [->|Hne].
  - apply elem_of_cons in Hx as [->|Hx]; [apply not_elem_of_nil|auto].
  - destruct (split_byte c l) as [|p ps].
    + apply list_elem_of_singleton in Hx as ->. by intros <-%list_elem_of_singleton.
    + apply elem_of_cons in Hx as [->|Hx]; [|apply IH; by right]. apply not_elem_of_cons.
      split; [done|]. apply IH. left.
Qed.

(** [Base] of a path without a [..] element has none either. *)
Lemma Base_no_dotdot p : dotdot ∉ elements p -> dotdot ∉ elements (filepath_Base p).
Proof.
  unfold elements, filepath_Base. intros Hn. destruct (base_bytes_element (string_bytes p)) as [->|[->|Hin]].
  - rewrite string_bytes_of by (repeat constructor; unfold byte_range; lia). by intros ?%list_elem_of_singleton.
  - rewrite string_bytes_of by (repeat constructor; unfold byte_range, ch_slash; lia). cbn.
    rewrite !elem_of_cons, elem_of_nil. by intros [?|[?|?]].
  - rewrite string_bytes_of by (eapply split_byte_Forall; [apply string_bytes_range|done]).
    apply split_byte_no_sep in Hin as Hns.
    rewrite split_byte_none by done. intros He%list_elem_of_singleton. apply Hn. by rewrite He.
Qed.

Lemma join_split_byte c l : join_bytes [c] (split_byte c l) = l.
Proof.
  induction l as [|b l IH]; [done|]. cbn. destruct (Z.eqb_spec b c) as [->|_].
  - destruct (split_byte c l) as [|p ps] eqn:E; [by destruct l as [|x l]; cbn in E; [|destruct (x =? c); [|destruct (split_byte c l)]]|].
    change (join_bytes [c] ([] :: p :: ps)) with (c :: join_bytes [c] (p :: ps)). by rewrite IH.
  - destruct (split_byte c l) as [|p ps]; [cbn in IH; by rewrite <- IH|].
    destruct ps as [|q ps]; cbn in IH |- *; by rewrite <- IH.
Qed.

Lemma split_byte_two c l : c ∈ l -> exists x y r, split_byte c l = x :: y :: r.
Proof.
  intros (a & b & ->)%list_elem_of_split. rewrite split_byte_app.
  assert (Hne : forall m, exists x r, split_byte c m = x :: r).
  { intros m. destruct (split_byte c m) as [|x r] eqn:E; [|eauto].
    destruct m as [|z m]; cbn in E; [done|]. destruct (z =? c); [done|]. by destruct (split_byte c m). }
  destruct (Hne a) as (x & r & ->), (Hne b) as (y & r' & ->). destruct r as [|z r]; cbn; eauto.
Qed.

(** ** Facts on case and suffixes *)

Lemma starts_with_app p l : starts_with p (p ++ l) = true.
Proof. induction p as [|b p IH]; [done|]. cbn. by rewrite Z.eqb_refl. Qed.

Lemma HasSuffix_app s t p : string_bytes s = t ++ string_bytes p -> HasSuffix s p = true.
Proof. intros H. unfold HasSuffix. rewrite H, rev_app_distr. apply starts_with_app. Qed.

(** [ToLower] on ASCII. *)
Definition lower_byte (b : Z) : Z := if between 65 b 90 then b + 32 else b.

Lemma lower_byte_idem b : lower_byte (lower_byte b) = lower_byte b.
Proof. unfold lower_byte, between. repeat case_goal; bool_prop; try lia; done. Qed.

Definition graphic (l : list Z) : Prop := Forall (fun b => 33 <= b <= 126) l.

Lemma graphic_lower l : graphic l -> graphic (lower_byte <$> l).
Proof.
  intros H. apply Forall_fmap. eapply Forall_impl; [exact H|]. cbn. intros b Hb.
  unfold lower_byte, between. destruct ((65 <=? b) && (b <=? 90)) eqn:E; bool_prop; lia.
Qed.

Lemma graphic_runes n l : (length l <= n)%nat -> graphic l -> runes_from n l = (fun b => (b, [b])) <$> l.
Proof.
  intros Hn H. revert n Hn. induction H as [|b l Hb _ IH]; intros [|n] Hn; cbn in Hn; try done; try lia.
  cbn [runes_from DecodeRune]. assert (between 0 b 127 = true) as -> by (unfold between; lia).
  cbn [take drop]. rewrite take_0, drop_0, fmap_cons, IH by lia. done.
Qed.

Lemma ToLower_graphic {U : UnicodeCase} s :
  graphic (string_bytes s) -> string_bytes (ToLower s) = lower_byte <$> string_bytes s.
Proof.
  intros H. unfold ToLower, map_runes, range_runes. rewrite graphic_runes by done.
  assert (Hc : concat ((fun p : Z * list Z => encode_rune (lower_rune p.1)) <$> ((fun b => (b, [b])) <$> string_bytes s)) =
               lower_byte <$> string_bytes s).
  { induction H as [|b l Hb _ IH]; [done|]. rewrite !fmap_cons. cbn [concat fst]. rewrite IH.
    unfold lower_rune, lower_byte, encode_rune. assert (b <? 128 = true) as -> by lia.
    unfold between. destruct ((65 <=? b) && (b <=? 90)) eqn:E; bool_prop; by case_goal; [|lia]. }
  rewrite Hc. apply string_bytes_of. eapply Forall_impl; [by apply graphic_lower|]. cbn. unfold byte_range. lia.
Qed.

Lemma TrimSpace_graphic s : graphic (string_bytes s) -> TrimSpace_string s = s.
Proof.
  intros H. unfold TrimSpace_string. rewrite <- (bytes_string_bytes s) at 2. f_equal.
  assert (Hs : forall b, 33 <= b <= 126 -> IsSpace b = false) by (intros b Hb; unfold IsSpace, between; lia).
  unfold TrimSpace. set (l := string_bytes s) in *. clearbody l.
  assert (Hl : trim_left (length l) l = l).
  { destruct H as [|b l Hb _]; [done|]. cbn [length trim_left DecodeRune].
    assert (between 0 b 127 = true) as -> by (unfold between; lia). by rewrite Hs. }
  rewrite Hl. destruct (length l) as [|n] eqn:En; [done|]. cbn [trim_right].
  destruct l as [|x l]; [done|]. unfold DecodeLastRune.
  destruct (last (x :: l)) as [b|] eqn:El; [|by apply last_None in El].
  apply last_Some_elem_of in El. unfold graphic in H. rewrite Forall_forall in H. apply H in El.
  assert (b <? 128 = true) as -> by lia. by rewrite Hs.
Qed.
