(* ===== verification/ShellParse.v ===== *)
(** * Shell-wrapped commands ([internal/shellparse])

    [shellparse.go]: which binary a command line of the form [sh -c "script"] runs, for the policy
    pre-check.  The script is accepted when it is one external command in a small quoting language;
    every other shape is classified as a fallback (the shell itself is checked), a bypass attempt
    (fail closed) or an opaque program.

    Module [Grammar] is the reference: simple commands as lists of words built from bare, single
    and double quoted spans, with their printed forms and the arguments a POSIX shell passes for
    them.  [ShellTheorems] shows that the tokenizer accepts exactly the printed forms and returns
    exactly those arguments, that every such command is derived whatever its quoting, wrappers and
    environment prefix, and that derivation shrinks the command line.

    Strings are Go strings; scanning loops work on their bytes. *)

From Stdlib Require Import ZArith Lia Ascii String.
From stdpp Require Import base list strings.
From S2P Require Import Prelude GoText GoNet GoStrings.
Open Scope string_scope.
Open Scope list_scope.
Open Scope Z_scope.

Module Shell.

(** [fmt]'s [%q] of an ASCII byte that needs no escape. *)
Definition quote_char (b : Z) : string := bytes_string [39; b; 39].

Inductive parseStatus : Type := statusFallback | statusOK | statusBypass | statusOpaque.

#[export] Instance parseStatus_eq_dec : EqDecision parseStatus.
Proof. solve_decision. Defined.

(** ** Tables *)

Definition one_of (s : string) (l : list string) : bool := existsb (String.eqb s) l.

Definition isKnownShell (base : string) : bool :=
  one_of base ["sh"; "bash"; "dash"; "ash"; "mksh"; "ksh"; "zsh"].

Definition isTransparentWrapper (tok : string) : bool :=
  one_of tok ["exec"; "command"; "nohup"; "nice"; "time"; "env"].

Definition isShellBuiltin (tok : string) : bool :=
  one_of tok
    [":"; "."; "break"; "continue"; "eval"; "exec"; "exit"; "export"; "readonly"; "return"; "set";
     "shift"; "trap"; "unset";
     "alias"; "bg"; "cd"; "command"; "fc"; "fg"; "getopts"; "jobs"; "kill"; "newgrp"; "read";
     "umask"; "unalias"; "wait"; "echo"; "printf"; "pwd"; "test"; "["; "true"; "false";
     "bind"; "builtin"; "caller"; "compgen"; "compopt"; "complete"; "coproc"; "declare"; "dirs";
     "disown"; "enable"; "hash"; "help"; "history"; "let"; "local"; "logout"; "mapfile"; "popd";
     "pushd"; "readarray"; "shopt"; "source"; "suspend"; "times"; "type"; "typeset"; "ulimit";
     "if"; "then"; "else"; "elif"; "fi"; "case"; "esac"; "while"; "do"; "done"; "for"; "in";
     "function"; "select"; "time"; "until"; "{"; "}"; "!"; "[["; "]]"].

(** [e u f x l i v B H s]. *)
Definition isSafeShellShortFlag (ch : Z) : bool :=
  has_byte ch [101; 117; 102; 120; 108; 105; 118; 66; 72; 115].

Definition is_letter (b : Z) : bool := between 65 b 90 || between 97 b 122.
Definition is_digit (b : Z) : bool := between 48 b 57.

(** [A-Za-z0-9_./-]. *)
Definition isUnquotedAllowedByte (b : Z) : bool :=
  is_letter b || is_digit b || (b =? 95) || (b =? 46) || (b =? 47) || (b =? 45).

Definition is_blank (b : Z) : bool := (b =? 32) || (b =? 9).
Definition ch_quote : Z := 39.
Definition ch_dquote : Z := 34.
Definition ch_minus : Z := 45.
Definition ch_plus : Z := 43.
Definition ch_c : Z := 99.
Definition ch_equal : Z := 61.

(** [$], [`] and [\]. *)
Definition is_expansion (b : Z) : bool := (b =? 36) || (b =? 96) || (b =? 92).

Section Derive.
Context {U : UnicodeCase}.

(** The bytes after the last [/] or [\]. *)
Fixpoint after_last_sep (bs : list Z) : option (list Z) :=
  match bs with
  | [] => None
  | b :: bs' => match after_last_sep bs' with
                | Some r => Some r
                | None => if (b =? 47) || (b =? 92) then Some bs' else None
                end
  end.

Definition basenameLower (s : string) : string :=
  let s1 := match after_last_sep (string_bytes s) with Some r => bytes_string r | None => s end in
  TrimSuffix (ToLower s1) ".real".

(** ** Options *)

(** One short-option cluster without its dash: [Some hasC], or [None] on an unsafe option. *)
Fixpoint scan_cluster (cluster : list Z) (hasC : bool) : option bool :=
  match cluster with
  | [] => Some hasC
  | ch :: r => if ch =? ch_c then scan_cluster r true
               else if isSafeShellShortFlag ch then scan_cluster r hasC else None
  end.

Fixpoint findShellCFlag_from (i : nat) (shellArgs : list string) : option nat :=
  match shellArgs with
  | [] => None
  | arg :: rest =>
    match string_bytes arg with
    | d :: c1 :: cs =>
      if negb (d =? ch_minus) then None
      else if c1 =? ch_minus then None
      else match scan_cluster (c1 :: cs) false with
      | None => None
      | Some true => Some i
      | Some false => findShellCFlag_from (S i) rest
      end
    | _ => None
    end
  end.

Definition findShellCFlag (shellArgs : list string) : option nat := findShellCFlag_from 0 shellArgs.

Fixpoint hasShellCWithUnsafeOptions (shellArgs : list string) : bool :=
  match shellArgs with
  | [] => false
  | arg :: rest =>
    if arg ==? "--" then false
    else match string_bytes arg with
    | d :: c1 :: cs =>
      if negb (d =? ch_minus) then hasShellCWithUnsafeOptions rest
      else if c1 =? ch_minus then hasShellCWithUnsafeOptions rest
      else if has_byte ch_c (c1 :: cs) then true else hasShellCWithUnsafeOptions rest
    | _ => hasShellCWithUnsafeOptions rest
    end
  end.

(** ** Environment assignments *)

Definition isValidAssignName (name : list Z) : bool :=
  match name with
  | [] => false
  | c :: r => (is_letter c || (c =? 95)) &&
              forallb (fun c => is_letter c || is_digit c || (c =? 95)) r
  end.

Definition valueBytesAllowed (value : list Z) : bool := forallb isUnquotedAllowedByte value.

Fixpoint skip_blanks (l : list Z) : list Z :=
  match l with b :: r => if is_blank b then skip_blanks r else l | [] => [] end.

Fixpoint raw_word (l : list Z) : list Z :=
  match l with b :: r => if is_blank b then [] else b :: raw_word r | [] => [] end.

(** The loop over leading [NAME=VALUE] tokens; each turn consumes a byte, so the length of the
    script bounds the turns.  [None] is a dirty value. *)
Fixpoint strip_assignments (turns : nat) (remainder : list Z) : option (list Z) :=
  match skip_blanks remainder with
  | [] => Some remainder
  | l =>
    let tok := raw_word l in
    match index_byte ch_equal tok with
    | None | Some O => Some remainder
    | Some eq =>
      if negb (isValidAssignName (take eq tok)) then Some remainder
      else if negb (valueBytesAllowed (drop (S eq) tok)) then None
      else match turns with
           | O => Some remainder
           | S turns' => strip_assignments turns' (drop (length tok) l)
           end
    end
  end.

Definition stripLeadingAssignments (script : list Z) : option (list Z) :=
  strip_assignments (length script) script.

Definition firstWord (s : list Z) : list Z := raw_word (skip_blanks s).

(** ** The tokenizer *)

Inductive tok_state : Type := stateOutside | stateUnquoted | stateSingleQuote | stateDoubleQuote.

(** [tokens] so far, the bytes of the token being read, the state and the rest of the script;
    [None] is opaque. *)
Fixpoint tokenize_from (tokens : list (list Z)) (cur : list Z) (state : tok_state) (bs : list Z)
  : option (list (list Z)) :=
  match bs with
  | [] =>
    match state with
    | stateOutside => Some tokens
    | stateUnquoted => Some (tokens ++ [cur])
    | _ => None
    end
  | b :: r =>
    match state with
    | stateOutside =>
      if is_blank b then tokenize_from tokens cur stateOutside r
      else if b =? ch_quote then tokenize_from tokens cur stateSingleQuote r
      else if b =? ch_dquote then tokenize_from tokens cur stateDoubleQuote r
      else if isUnquotedAllowedByte b then tokenize_from tokens (cur ++ [b]) stateUnquoted r
      else None
    | stateUnquoted =>
      if is_blank b then tokenize_from (tokens ++ [cur]) [] stateOutside r
      else if b =? ch_quote then tokenize_from tokens cur stateSingleQuote r
      else if b =? ch_dquote then tokenize_from tokens cur stateDoubleQuote r
      else if isUnquotedAllowedByte b then tokenize_from tokens (cur ++ [b]) stateUnquoted r
      else None
    | stateSingleQuote =>
      if b =? ch_quote then tokenize_from tokens cur stateUnquoted r
      else tokenize_from tokens (cur ++ [b]) stateSingleQuote r
    | stateDoubleQuote =>
      if b =? ch_dquote then tokenize_from tokens cur stateUnquoted r
      else if is_expansion b then None
      else tokenize_from tokens (cur ++ [b]) stateDoubleQuote r
    end
  end.

Definition tokenizeSimpleScript (script : list Z) : option (list string) :=
  map bytes_string <$> tokenize_from [] [] stateOutside script.

(** ** Wrappers *)

Definition isNumericIncrement (s : string) : bool :=
  match string_bytes s with
  | [] => false
  | b :: r =>
    if (b =? ch_plus) || (b =? ch_minus) then nonempty r && forallb is_digit r
    else is_digit b && forallb is_digit r
  end.

(** [None] is a bypass. *)
Fixpoint stripWrappers (tokens : list string) : option (list string) :=
  match tokens with
  | wrapper :: ((next :: rest) as tl) =>
    if negb (isTransparentWrapper wrapper) then Some tokens
    else if negb (HasPrefix next "-") then stripWrappers tl
    else
      let otherwise :=
        if (wrapper ==? "command") && ((next ==? "-v") || (next ==? "-V")) then Some tokens
        else None in
      match rest with
      | increment :: rest' =>
        if (wrapper ==? "nice") && (next ==? "-n") && isNumericIncrement increment
        then stripWrappers rest' else otherwise
      | [] => otherwise
      end
  | _ => Some tokens
  end.

(** ** Derivation *)

(** Command, arguments and status; the first two are empty unless the status is [statusOK]. *)
Definition parseSimpleShellC (shellArgs : list string) : string * list string * parseStatus :=
  let none status := (EmptyString, [], status) in
  match findShellCFlag shellArgs with
  | None => none (if hasShellCWithUnsafeOptions shellArgs then statusBypass else statusFallback)
  | Some cFlagIdx =>
    match shellArgs !! S cFlagIdx with
    | None => none statusFallback
    | Some arg =>
      let script := TrimSpace (string_bytes arg) in
      if negb (nonempty script) then none statusFallback
      else match stripLeadingAssignments script with
      | None => none statusBypass
      | Some remainder =>
        let script := TrimSpace remainder in
        if negb (nonempty script) then none statusFallback
        else match tokenizeSimpleScript script with
        | None => none (if isTransparentWrapper (bytes_string (firstWord script))
                        then statusBypass else statusOpaque)
        | Some [] => none statusFallback
        | Some tokens =>
          match stripWrappers tokens with
          | None => none statusBypass
          | Some [] => none statusFallback
          | Some (cmd :: argv) =>
            if isShellBuiltin cmd then none statusFallback else (cmd, argv, statusOK)
          end
        end
      end
    end
  end.

(** The status of a command line, [statusFallback] when it is not a known shell. *)
Definition shellStatus (command : string) (args : list string) : parseStatus :=
  if command ==? "" then statusFallback
  else if negb (isKnownShell (basenameLower command)) then statusFallback
  else (parseSimpleShellC args).2.

Definition DerivePolicyTarget (command : string) (args : list string) : option (string * list string) :=
  if command ==? "" then None
  else if negb (isKnownShell (basenameLower command)) then None
  else match parseSimpleShellC args with
       | (cmd, argv, statusOK) => Some (cmd, argv)
       | _ => None
       end.

Definition IsShellCBypassAttempt (command : string) (args : list string) : bool :=
  shellStatus command args ==? statusBypass.

Definition IsOpaqueShellC (command : string) (args : list string) : bool :=
  shellStatus command args ==? statusOpaque.

(** ** Reasons *)

(** The flag scan of [computeBypassReason]: a reason, or the index of the [-c] cluster if any. *)
Fixpoint bypass_flags (i : nat) (shellArgs : list string) : string + option nat :=
  match shellArgs with
  | [] => inr None
  | arg :: rest =>
    match string_bytes arg with
    | d :: c1 :: cs =>
      if negb (d =? ch_minus) && negb (d =? ch_plus) then inr None
      else if (d =? ch_minus) && (c1 =? ch_minus) then
        inl ("long option " +:+ Quote arg +:+ " is not in the safe set")
      else if one_of arg ["-o"; "+o"; "-O"; "+O"] then
        inl ("option " +:+ Quote arg +:+ " takes an argument and shifts the script position")
      else if d =? ch_plus then
        inl (Quote arg +:+ " starts with '+' which is not in the safe set")
      else match List.find (fun ch => negb (ch =? ch_c) && negb (isSafeShellShortFlag ch)) (c1 :: cs) with
      | Some ch => inl ("unsafe option -" +:+ bytes_string (encode_rune ch) +:+ " clustered with -c")
      | None => if has_byte ch_c (c1 :: cs) then inr (Some i) else bypass_flags (S i) rest
      end
    | _ => inr None
    end
  end.

(** The scan for a wrapper followed by a flag; [None] when it ends without one. *)
Fixpoint bypass_wrapper (tokens : list string) : option string :=
  match tokens with
  | wrapper :: ((next :: rest) as tl) =>
    if negb (isTransparentWrapper wrapper) then None
    else if negb (HasPrefix next "-") then bypass_wrapper tl
    else
      let reason := Some ("wrapper " +:+ Quote wrapper +:+ " used with flag " +:+ Quote next) in
      match rest with
      | increment :: rest' =>
        if (wrapper ==? "nice") && (next ==? "-n") && isNumericIncrement increment
        then bypass_wrapper rest' else reason
      | [] => reason
      end
  | _ => None
  end.

Definition computeBypassReason (shellArgs : list string) : string :=
  let unparsable := "unparsable shell-c invocation" in
  match bypass_flags 0 shellArgs with
  | inl reason => reason
  | inr None => unparsable
  | inr (Some i) =>
    match shellArgs !! S i with
    | None => unparsable
    | Some arg =>
      match stripLeadingAssignments (TrimSpace (string_bytes arg)) with
      | None => "environment assignment with a value containing an unsafe character"
      | Some remainder =>
        let script := TrimSpace remainder in
        if negb (nonempty script) then unparsable
        else match tokenizeSimpleScript script with
        | None =>
          let head := bytes_string (firstWord script) in
          if isTransparentWrapper head
          then "wrapper " +:+ Quote head +:+ " used in a form we can't safely parse"
          else unparsable
        | Some tokens => default unparsable (bypass_wrapper tokens)
        end
      end
    end
  end.

Definition describeOpaqueByte (b : Z) : string :=
  if has_byte b [59; 124; 38] then "metacharacter " +:+ quote_char b
  else if has_byte b [62; 60] then "redirect " +:+ quote_char b
  else if has_byte b [40; 41] then "subshell " +:+ quote_char b
  else if has_byte b [42; 63; 91] then "glob " +:+ quote_char b
  else if b =? 36 then "expansion '$'"
  else if b =? 96 then "command substitution '`'"
  else if b =? 92 then "escape '\'"
  else if b =? 61 then "assignment-shape '='"
  else if b =? 35 then "comment '#'"
  else if b =? 126 then "tilde '~'"
  else if has_byte b [123; 125] then "brace " +:+ quote_char b
  else if b =? 33 then "history expansion '!'"
  else if b =? 10 then "newline"
  else "unsafe byte 0x" +:+ hex_encode [b].

Fixpoint opaque_scan (state : tok_state) (bs : list Z) : string :=
  match bs with
  | [] => match state with
          | stateSingleQuote | stateDoubleQuote => "unterminated quote"
          | _ => "unparsable shell script"
          end
  | b :: r =>
    match state with
    | stateOutside | stateUnquoted =>
      if is_blank b then opaque_scan stateOutside r
      else if b =? ch_quote then opaque_scan stateSingleQuote r
      else if b =? ch_dquote then opaque_scan stateDoubleQuote r
      else if isUnquotedAllowedByte b then opaque_scan stateUnquoted r
      else describeOpaqueByte b
    | stateSingleQuote => opaque_scan (if b =? ch_quote then stateUnquoted else state) r
    | stateDoubleQuote =>
      if b =? ch_dquote then opaque_scan stateUnquoted r
      else if is_expansion b then describeOpaqueByte b else opaque_scan state r
    end
  end.

Definition computeOpaqueReason (shellArgs : list string) : string :=
  let unparsable := "unparsable shell script" in
  match findShellCFlag shellArgs with
  | None => unparsable
  | Some i =>
    match shellArgs !! S i with
    | None => unparsable
    | Some arg =>
      let remainder := default [] (stripLeadingAssignments (TrimSpace (string_bytes arg))) in
      opaque_scan stateOutside (TrimSpace remainder)
    end
  end.

Definition BypassReason (command : string) (args : list string) : string :=
  if shellStatus command args ==? statusBypass then computeBypassReason args else EmptyString.

Definition OpaqueReason (command : string) (args : list string) : string :=
  if shellStatus command args ==? statusOpaque then computeOpaqueReason args else EmptyString.

End Derive.
End Shell.
Export Shell.

(** ** The reference: simple commands in the accepted quoting language *)
Module Grammar.

Inductive span : Type :=
| Bare (bs : list Z)
| Single (bs : list Z)
| Double (bs : list Z).

Definition span_ok (s : span) : Prop :=
  match s with
  | Bare bs => bs <> [] /\ Forall (fun b => isUnquotedAllowedByte b = true) bs
  | Single bs => ch_quote ∉ bs
  | Double bs => Forall (fun b => b <> ch_dquote /\ is_expansion b = false) bs
  end.

Definition span_text (s : span) : list Z :=
  match s with
  | Bare bs => bs
  | Single bs => ch_quote :: bs ++ [ch_quote]
  | Double bs => ch_dquote :: bs ++ [ch_dquote]
  end.

(** Quote removal: what the shell passes for the span. *)
Definition span_value (s : span) : list Z := match s with Bare bs | Single bs | Double bs => bs end.

Definition word : Type := list span.
Definition word_ok (w : word) : Prop := w <> [] /\ Forall span_ok w.
Definition word_text (w : word) : list Z := concat (span_text <$> w).
Definition word_value (w : word) : list Z := concat (span_value <$> w).
Definition word_string (w : word) : string := bytes_string (word_value w).

Definition blanks (l : list Z) : Prop := Forall (fun b => is_blank b = true) l.

(** The texts of a list of words: blanks anywhere, at least one between two words. *)
Inductive renders : list word -> list Z -> Prop :=
| renders_nil bl : blanks bl -> renders [] bl
| renders_last bl w : blanks bl -> word_ok w -> renders [w] (bl ++ word_text w)
| renders_cons bl w b ws t :
    blanks bl -> word_ok w -> is_blank b = true -> renders ws t ->
    renders (w :: ws) (bl ++ word_text w ++ b :: t).

(** Environment assignments before a command, and the rest of the text after them, which does not
    begin with another. *)
Definition begins_assignment (l : list Z) : Prop :=
  exists name value, raw_word (skip_blanks l) = name ++ ch_equal :: value /\
    isValidAssignName name = true.

Inductive assigns : list (list Z * list Z) -> list Z -> list Z -> Prop :=
| assigns_nil l : ~ begins_assignment l -> assigns [] l l
| assigns_cons bl name value asg r rest :
    blanks bl -> isValidAssignName name = true -> valueBytesAllowed value = true ->
    (forall b r', r = b :: r' -> is_blank b = true) -> assigns asg r rest ->
    assigns ((name, value) :: asg) (bl ++ name ++ ch_equal :: value ++ r) rest.

(** Removal of the wrappers whose next word is the command they run. *)
Inductive unwraps : list string -> list string -> Prop :=
| unwraps_done cmd argv :
    isTransparentWrapper cmd = false \/ argv = [] -> unwraps (cmd :: argv) (cmd :: argv)
| unwraps_plain w next rest out :
    isTransparentWrapper w = true -> HasPrefix next "-" = false -> unwraps (next :: rest) out ->
    unwraps (w :: next :: rest) out
| unwraps_nice increment rest out :
    isNumericIncrement increment = true -> unwraps rest out ->
    unwraps ("nice" :: "-n" :: increment :: rest) out.

(** A cluster of boolean options, without and with [c] among them. *)
Definition plain_cluster (arg : string) : Prop :=
  exists cl, string_bytes arg = ch_minus :: cl /\ cl <> [] /\
    Forall (fun ch => isSafeShellShortFlag ch = true) cl.
Definition c_cluster (arg : string) : Prop :=
  exists cl, string_bytes arg = ch_minus :: cl /\ ch_c ∈ cl /\
    Forall (fun ch => ch = ch_c \/ isSafeShellShortFlag ch = true) cl.

(** A script that sets some variables for, and runs, one external command behind wrappers. *)
Definition runs (script : string) (cmd : string) (argv : list string) : Prop :=
  exists asg rest ws,
    assigns asg (TrimSpace (string_bytes script)) rest /\ renders ws (TrimSpace rest) /\
    unwraps (word_string <$> ws) (cmd :: argv) /\ isShellBuiltin cmd = false.

End Grammar.
Export Grammar.

(** ** Facts *)
Module ShellFacts.

Lemma blank_not_allowed b : is_blank b = true -> isUnquotedAllowedByte b = false.
Proof. unfold is_blank, isUnquotedAllowedByte, is_letter, is_digit, between. lia. Qed.

Lemma allowed_plain b :
  isUnquotedAllowedByte b = true ->
  is_blank b = false /\ (b =? ch_quote) = false /\ (b =? ch_dquote) = false /\ b <> ch_equal /\
  0 <= b < 128 /\ IsSpace b = false.
Proof.
  unfold is_blank, isUnquotedAllowedByte, is_letter, is_digit, between, ch_quote, ch_dquote, ch_equal,
    IsSpace, between. intros H. split_and!; lia.
Qed.

(** *** Bytes and strings *)

Lemma length_string_bytes s : length (string_bytes s) = String.length s.
Proof. induction s as [|c s IH]; [done|]. cbn. by rewrite IH. Qed.

Lemma length_bytes_string l : String.length (bytes_string l) = length l.
Proof. induction l as [|b l IH]; [done|]. cbn. by rewrite IH. Qed.

(** *** Trimming *)

Lemma trim_left_suffix n bs : exists p, bs = p ++ trim_left n bs.
Proof.
  revert bs. induction n as [|n IH]; intros bs; [by exists []|].
  destruct bs as [|b bs]; [by exists []|]. cbn [trim_left].
  destruct (DecodeRune (b :: bs)) as [r k]. destruct (IsSpace r); [|by exists []].
  destruct (IH (drop k (b :: bs))) as [p Hp]. exists (take k (b :: bs) ++ p).
  by rewrite <- app_assoc, <- Hp, take_drop.
Qed.

Lemma trim_right_prefix n bs : exists t, bs = trim_right n bs ++ t.
Proof.
  revert bs. induction n as [|n IH]; intros bs; [exists []; by rewrite app_nil_r|].
  destruct bs as [|b bs]; [by exists []|]. cbn [trim_right].
  destruct (DecodeLastRune (b :: bs)) as [r k]. destruct (IsSpace r); [|exists []; by rewrite app_nil_r].
  destruct (IH (take (length (b :: bs) - k) (b :: bs))) as [t Ht].
  exists (t ++ drop (length (b :: bs) - k) (b :: bs)). by rewrite app_assoc, <- Ht, take_drop.
Qed.

Lemma TrimSpace_length bs : (length (TrimSpace bs) <= length bs)%nat.
Proof.
  unfold TrimSpace. destruct (trim_left_suffix (length bs) bs) as [p Hp].
  destruct (trim_right_prefix (length (trim_left (length bs) bs)) (trim_left (length bs) bs)) as [t Ht].
  apply (f_equal length) in Hp, Ht. rewrite length_app in Hp, Ht. lia.
Qed.

(** *** Blanks and raw words *)

Lemma skip_blanks_app bl l :
  blanks bl -> skip_blanks (bl ++ l) = skip_blanks l.
Proof. induction 1 as [|b bl Hb _ IH]; [done|]. cbn. by rewrite Hb. Qed.

Lemma skip_blanks_split l : exists bl, blanks bl /\ l = bl ++ skip_blanks l.
Proof.
  induction l as [|b l [bl [Hbl Hl]]]; [by exists []; split; [constructor|]|]. cbn. destruct (is_blank b) eqn:E.
  - exists (b :: bl). split; [by constructor|]. cbn. by f_equal.
  - exists []. split; [constructor|done].
Qed.

Lemma raw_word_split l :
  exists r, l = raw_word l ++ r /\ Forall (fun b => is_blank b = false) (raw_word l) /\
    (forall b r', r = b :: r' -> is_blank b = true).
Proof.
  induction l as [|b l (r & Hl & Hf & Hr)]; [by exists []; split_and!; [|constructor|]|]. cbn. destruct (is_blank b) eqn:E.
  - exists (b :: l). split; [done|]. split; [constructor|]. by intros ? ? [= <- <-].
  - exists r. cbn. split; [by f_equal|]. split; [by constructor|done].
Qed.

Lemma raw_word_app w r :
  Forall (fun b => is_blank b = false) w -> (forall b r', r = b :: r' -> is_blank b = true) ->
  raw_word (w ++ r) = w.
Proof.
  intros Hw Hr. induction Hw as [|b w Hb _ IH]; cbn.
  - destruct r as [|b r]; [done|]. cbn. by rewrite (Hr b r).
  - rewrite Hb. by f_equal.
Qed.

(** *** The tokenizer *)

(** Bytes inside a span. *)
Lemma tokenize_bare toks cur bs r :
  Forall (fun b => isUnquotedAllowedByte b = true) bs ->
  tokenize_from toks cur stateUnquoted (bs ++ r) = tokenize_from toks (cur ++ bs) stateUnquoted r.
Proof.
  intros H. revert cur. induction H as [|b bs Hb _ IH]; intros cur; cbn [app]; [by rewrite app_nil_r|].
  cbn [tokenize_from]. destruct (allowed_plain b Hb) as (-> & -> & -> & _). rewrite Hb, IH.
  by rewrite <- app_assoc.
Qed.

Lemma tokenize_single toks cur bs r :
  ch_quote ∉ bs ->
  tokenize_from toks cur stateSingleQuote (bs ++ ch_quote :: r) =
  tokenize_from toks (cur ++ bs) stateUnquoted r.
Proof.
  revert cur. induction bs as [|b bs IH]; intros cur Hq; cbn [app tokenize_from].
  - by rewrite Z.eqb_refl, app_nil_r.
  - apply not_elem_of_cons in Hq as [Hb Hq].
    rewrite (proj2 (Z.eqb_neq b ch_quote)) by congruence.
    rewrite IH by done. by rewrite <- app_assoc.
Qed.

Lemma tokenize_double toks cur bs r :
  Forall (fun b => b <> ch_dquote /\ is_expansion b = false) bs ->
  tokenize_from toks cur stateDoubleQuote (bs ++ ch_dquote :: r) =
  tokenize_from toks (cur ++ bs) stateUnquoted r.
Proof.
  intros H. revert cur. induction H as [|b bs [Hb He] _ IH]; intros cur; cbn [app tokenize_from].
  - by rewrite Z.eqb_refl, app_nil_r.
  - rewrite (proj2 (Z.eqb_neq b ch_dquote)) by done. rewrite He, IH. by rewrite <- app_assoc.
Qed.

(** A span is read in either unquoted state. *)
Lemma tokenize_span st toks cur s r :
  st = stateOutside \/ st = stateUnquoted -> span_ok s ->
  tokenize_from toks cur st (span_text s ++ r) = tokenize_from toks (cur ++ span_value s) stateUnquoted r.
Proof.
  intros Hst Hs. destruct s as [bs|bs|bs]; cbn [span_text span_value] in *.
  - destruct Hs as [Hne Hs]. destruct bs as [|b bs]; [done|]. inversion_clear Hs as [|? ? Hb Hs'].
    cbn [app]. destruct (allowed_plain b Hb) as (E1 & E2 & E3 & _).
    destruct Hst as [-> | ->]; cbn [tokenize_from]; rewrite E1, E2, E3, Hb, tokenize_bare by done;
      by rewrite <- app_assoc.
  - cbn [app]. rewrite <- app_assoc. cbn [app].
    destruct Hst as [-> | ->]; cbn [tokenize_from]; by apply tokenize_single.
  - cbn [app]. rewrite <- app_assoc. cbn [app].
    destruct Hst as [-> | ->]; cbn [tokenize_from]; by apply tokenize_double.
Qed.

Lemma tokenize_spans toks cur w r :
  Forall span_ok w ->
  tokenize_from toks cur stateUnquoted (word_text w ++ r) =
  tokenize_from toks (cur ++ word_value w) stateUnquoted r.
Proof.
  intros H. revert cur. unfold word_text, word_value.
  induction H as [|s w Hs _ IH]; intros cur; cbn [fmap list_fmap concat]; [by rewrite app_nil_r|].
  rewrite <- app_assoc, tokenize_span by auto. rewrite IH. by rewrite <- app_assoc.
Qed.

Lemma tokenize_word toks w r :
  word_ok w ->
  tokenize_from toks [] stateOutside (word_text w ++ r) =
  tokenize_from toks (word_value w) stateUnquoted r.
Proof.
  intros [Hne Hw]. destruct w as [|s w]; [done|]. inversion_clear Hw as [|? ? Hs Hw'].
  unfold word_text, word_value. cbn [fmap list_fmap concat]. rewrite <- app_assoc, tokenize_span by auto.
  by apply (tokenize_spans toks (span_value s) w r).
Qed.

Lemma tokenize_blanks toks bl r :
  blanks bl -> tokenize_from toks [] stateOutside (bl ++ r) = tokenize_from toks [] stateOutside r.
Proof. induction 1 as [|b bl Hb _ IH]; [done|]. cbn [app tokenize_from]. by rewrite Hb. Qed.

Lemma tokenize_complete ws t :
  renders ws t -> forall toks, tokenize_from toks [] stateOutside t = Some (toks ++ (word_value <$> ws)).
Proof.
  induction 1 as [bl Hbl|bl w Hbl Hw|bl w b ws t Hbl Hw Hb _ IH]; intros toks.
  - rewrite <- (app_nil_r bl), tokenize_blanks by done. cbn. by rewrite app_nil_r.
  - rewrite tokenize_blanks, <- (app_nil_r (word_text w)), tokenize_word by done. done.
  - rewrite tokenize_blanks, tokenize_word by done. cbn [tokenize_from]. rewrite Hb, IH.
    by rewrite <- app_assoc.
Qed.

(** What is left of a word, then the words after it. *)
Definition finishes (sp : list span) (ws : list word) (bs : list Z) : Prop :=
  Forall span_ok sp /\
  ((ws = [] /\ bs = word_text sp) \/
   exists b t, bs = word_text sp ++ b :: t /\ is_blank b = true /\ renders ws t).

Definition reads (st : tok_state) (cur : list Z) (bs : list Z) (out : list (list Z)) : Prop :=
  match st with
  | stateOutside => cur = [] -> exists ws, renders ws bs /\ out = word_value <$> ws
  | stateUnquoted => exists sp ws, finishes sp ws bs /\ out = (cur ++ word_value sp) :: (word_value <$> ws)
  | stateSingleQuote =>
    exists q sp ws r, ch_quote ∉ q /\ bs = q ++ ch_quote :: r /\ finishes sp ws r /\
      out = (cur ++ q ++ word_value sp) :: (word_value <$> ws)
  | stateDoubleQuote =>
    exists q sp ws r, Forall (fun b => b <> ch_dquote /\ is_expansion b = false) q /\
      bs = q ++ ch_dquote :: r /\ finishes sp ws r /\
      out = (cur ++ q ++ word_value sp) :: (word_value <$> ws)
  end.

Lemma word_text_cons s w : word_text (s :: w) = span_text s ++ word_text w.
Proof. done. Qed.
Lemma word_value_cons s w : word_value (s :: w) = span_value s ++ word_value w.
Proof. done. Qed.

Lemma finishes_cons s sp ws bs : span_ok s -> finishes sp ws bs -> finishes (s :: sp) ws (span_text s ++ bs).
Proof.
  intros Hs [Hsp [[-> ->]|(b & t & -> & Hb & Hr)]]; (split; [by constructor|]); rewrite word_text_cons.
  - by left.
  - right. exists b, t. by rewrite <- app_assoc.
Qed.

(** A first span read from outside a word starts a word. *)
Lemma finishes_renders sp ws bs : sp <> [] -> finishes sp ws bs -> renders (sp :: ws) bs.
Proof.
  intros Hne [Hsp [[-> ->]|(b & t & -> & Hb & Hr)]].
  - apply (renders_last []); [constructor|by split].
  - apply (renders_cons []); [constructor|by split|done..].
Qed.

Lemma finishes_quoted sp ws q bs (s := Single q) (d := Double q) :
  finishes sp ws bs ->
  (ch_quote ∉ q -> finishes (s :: sp) ws (ch_quote :: q ++ ch_quote :: bs)) /\
  (Forall (fun b => b <> ch_dquote /\ is_expansion b = false) q ->
   finishes (d :: sp) ws (ch_dquote :: q ++ ch_dquote :: bs)).
Proof.
  intros Hf. split; intros Hq.
  - replace (ch_quote :: q ++ ch_quote :: bs) with (span_text s ++ bs); [by apply finishes_cons|].
    cbn. by rewrite <- app_assoc.
  - replace (ch_dquote :: q ++ ch_dquote :: bs) with (span_text d ++ bs); [by apply finishes_cons|].
    cbn. by rewrite <- app_assoc.
Qed.

Lemma renders_blank b ws t : is_blank b = true -> renders ws t -> renders ws (b :: t).
Proof.
  intros Hb H. inversion H; subst.
  - constructor. by constructor.
  - apply (renders_last (b :: bl)); [by constructor|done].
  - apply (renders_cons (b :: bl)); [by constructor|done..].
Qed.

(** What each state does with a byte that does not stay in it. *)
Lemma tokenize_sound bs : forall st toks cur out,
  tokenize_from toks cur st bs = Some out -> exists out', out = toks ++ out' /\ reads st cur bs out'.
Proof.
  induction bs as [|b bs IH]; intros st toks cur out H.
  { destruct st; try discriminate; injection H as <-.
    - exists []. split; [by rewrite app_nil_r|]. intros ->. exists []. by split; [do 2 constructor|].
    - exists [cur]. split; [done|]. exists [], []. split; [by repeat constructor|].
      cbn. by rewrite app_nil_r. }
  destruct st; cbn [tokenize_from] in H.
  - destruct (is_blank b) eqn:Eb.
    { apply IH in H as (o & -> & Ho). exists o. split; [done|]. intros Hc. destruct (Ho Hc) as (ws & Hr & ->).
      exists ws. split; [by apply renders_blank|done]. }
    destruct (Z.eqb_spec b ch_quote) as [->|].
    { apply IH in H as (o & -> & q & sp & ws & r & Hq & -> & Hf & ->). eexists. split; [done|]. intros ->.
      exists ((Single q :: sp) :: ws). split; [|done].
      apply finishes_renders; [done|]. by apply finishes_quoted. }
    destruct (Z.eqb_spec b ch_dquote) as [->|].
    { apply IH in H as (o & -> & q & sp & ws & r & Hq & -> & Hf & ->). eexists. split; [done|]. intros ->.
      exists ((Double q :: sp) :: ws). split; [|done].
      apply finishes_renders; [done|]. by apply finishes_quoted. }
    destruct (isUnquotedAllowedByte b) eqn:Ea; [|done].
    apply IH in H as (o & -> & sp & ws & Hf & ->). eexists. split; [done|]. intros ->.
    exists ((Bare [b] :: sp) :: ws). split; [|done].
    apply finishes_renders; [done|]. apply (finishes_cons (Bare [b])); [|done]. split; [done|by constructor].
  - destruct (is_blank b) eqn:Eb.
    { apply IH in H as (o & -> & Ho). destruct (Ho eq_refl) as (ws & Hr & ->).
      exists (cur :: (word_value <$> ws)). split; [by rewrite <- app_assoc|].
      exists [], ws. split; [|cbn; by rewrite app_nil_r]. split; [constructor|]. right. by exists b, bs. }
    destruct (Z.eqb_spec b ch_quote) as [->|].
    { apply IH in H as (o & -> & q & sp & ws & r & Hq & -> & Hf & ->). eexists. split; [done|].
      exists (Single q :: sp), ws. split; [by apply finishes_quoted|done]. }
    destruct (Z.eqb_spec b ch_dquote) as [->|].
    { apply IH in H as (o & -> & q & sp & ws & r & Hq & -> & Hf & ->). eexists. split; [done|].
      exists (Double q :: sp), ws. split; [by apply finishes_quoted|done]. }
    destruct (isUnquotedAllowedByte b) eqn:Ea; [|done].
    apply IH in H as (o & -> & sp & ws & Hf & ->). eexists. split; [done|].
    exists (Bare [b] :: sp), ws. split; [|cbn; by rewrite <- app_assoc].
    apply (finishes_cons (Bare [b])); [|done]. split; [done|by constructor].
  - destruct (Z.eqb_spec b ch_quote) as [->|Hb].
    + apply IH in H as (o & -> & sp & ws & Hf & ->). eexists. split; [done|].
      exists [], sp, ws, bs. split; [apply not_elem_of_nil|done].
    + apply IH in H as (o & -> & q & sp & ws & r & Hq & -> & Hf & ->). eexists. split; [done|].
      exists (b :: q), sp, ws, r. split; [by apply not_elem_of_cons|]. split_and!; [done..|].
      by rewrite <- app_assoc.
  - destruct (Z.eqb_spec b ch_dquote) as [->|Hb].
    + apply IH in H as (o & -> & sp & ws & Hf & ->). eexists. split; [done|].
      exists [], sp, ws, bs. split; [constructor|done].
    + destruct (is_expansion b) eqn:Ee; [done|].
      apply IH in H as (o & -> & q & sp & ws & r & Hq & -> & Hf & ->). eexists. split; [done|].
      exists (b :: q), sp, ws, r. split; [by constructor|]. split_and!; [done..|].
      by rewrite <- app_assoc.
Qed.

Lemma tokenize_renders script toks :
  tokenizeSimpleScript script = Some toks <-> exists ws, renders ws script /\ toks = word_string <$> ws.
Proof.
  unfold tokenizeSimpleScript, word_string. split.
  - intros H. apply fmap_Some in H as (l & H & ->). apply tokenize_sound in H as (o & -> & Ho).
    destruct (Ho eq_refl) as (ws & Hr & ->). exists ws. split; [done|]. cbn.
    rewrite <- list_fmap_compose. done.
  - intros (ws & Hr & ->). rewrite (tokenize_complete ws) by done. cbn.
    f_equal. by rewrite <- list_fmap_compose.
Qed.

(** *** Assignments *)

Lemma index_byte_split c l :
  match index_byte c l with
  | Some i => exists a b, l = a ++ c :: b /\ length a = i /\ c ∉ a
  | None => c ∉ l
  end.
Proof.
  induction l as [|x l IH]; cbn; [apply not_elem_of_nil|].
  destruct (Z.eqb_spec x c) as [->|Hx].
  { exists [], l. split_and!; [done..|apply not_elem_of_nil]. }
  destruct (index_byte c l) as [i|]; cbn.
  - destruct IH as (a & b & -> & <- & Ha). exists (x :: a), b. split_and!; [done..|].
    by apply not_elem_of_cons.
  - by apply not_elem_of_cons.
Qed.

Lemma index_byte_app c a b : c ∉ a -> index_byte c (a ++ c :: b) = Some (length a).
Proof.
  induction a as [|x a IH]; cbn; [by rewrite Z.eqb_refl|]. intros H.
  apply not_elem_of_cons in H as [Hx Ha]. rewrite (proj2 (Z.eqb_neq x c)) by congruence.
  by rewrite IH.
Qed.

Lemma name_no_equal name : isValidAssignName name = true -> name <> [] /\ ch_equal ∉ name /\
  Forall (fun b => is_blank b = false) name.
Proof.
  destruct name as [|c r]; [done|]. cbn [isValidAssignName]. intros [H Hr]%andb_true_iff.
  assert (Hall : Forall (fun b => is_letter b || is_digit b || (b =? 95) = true) (c :: r)).
  { constructor; [destruct (is_letter c), (is_digit c); cbn in *; congruence|by apply forallb_Forall]. }
  split; [done|]. split.
  - intros Hin. rewrite Forall_forall in Hall. specialize (Hall _ Hin). by vm_compute in Hall.
  - eapply Forall_impl; [exact Hall|]. cbn. unfold is_letter, is_digit, between, is_blank. lia.
Qed.

Lemma value_no_blank value :
  valueBytesAllowed value = true -> Forall (fun b => is_blank b = false) value.
Proof.
  intros H%forallb_Forall. eapply Forall_impl; [exact H|]. cbn. intros b Hb. by apply allowed_plain.
Qed.

(** The test of one turn of the loop decides [begins_assignment]. *)
Lemma begins_assignment_spec l :
  match index_byte ch_equal (raw_word (skip_blanks l)) with
  | Some (S n) => begins_assignment l <-> isValidAssignName (take (S n) (raw_word (skip_blanks l))) = true
  | _ => ~ begins_assignment l
  end.
Proof.
  unfold begins_assignment. set (tok := raw_word (skip_blanks l)).
  pose proof (index_byte_split ch_equal tok) as Hi.
  destruct (index_byte ch_equal tok) as [[|n]|].
  - destruct Hi as (a & b & Ht & Ha & _). destruct a; [|done].
    intros (name & value & Hn & Hv). destruct (name_no_equal name Hv) as (Hne & Heq & _).
    rewrite Ht in Hn. destruct name as [|x name]; [done|]. injection Hn as <- _.
    apply Heq. by left.
  - destruct Hi as (a & b & Ht & Ha & Hna). split.
    + intros (name & value & Hn & Hv). destruct (name_no_equal name Hv) as (_ & Heq & _).
      rewrite <- Ha, Ht, take_app_length. rewrite Ht in Hn.
      pose proof (index_byte_app ch_equal a b Hna) as H1. rewrite Hn, index_byte_app in H1 by done.
      injection H1 as H1. apply app_inj_1 in Hn as [-> _]; [done|congruence].
    + intros Hv. exists a, b. split; [done|]. by rewrite <- Ha, Ht, take_app_length in Hv.
  - intros (name & value & Hn & _). apply Hi. rewrite Hn. apply elem_of_app. right. by left.
Qed.

(** A clean assignment at the front, as the loop sees it. *)
Lemma front_assignment bl name value r :
  blanks bl -> isValidAssignName name = true -> valueBytesAllowed value = true ->
  (forall b r', r = b :: r' -> is_blank b = true) ->
  skip_blanks (bl ++ name ++ ch_equal :: value ++ r) = name ++ ch_equal :: value ++ r /\
  raw_word (name ++ ch_equal :: value ++ r) = name ++ ch_equal :: value.
Proof.
  intros Hbl Hn Hv Hr. destruct (name_no_equal name Hn) as (Hne & _ & Hb). split.
  - rewrite skip_blanks_app by done. destruct name as [|x name]; [done|]. cbn.
    inversion_clear Hb as [|? ? Hx _]. by rewrite Hx.
  - change (ch_equal :: value ++ r) with ((ch_equal :: value) ++ r). rewrite app_assoc.
    apply raw_word_app; [|done]. apply Forall_app. split; [done|]. constructor; [done|].
    by apply value_no_blank.
Qed.

Lemma strip_assignments_sound turns l rest :
  strip_assignments turns l = Some rest -> (length l <= turns)%nat -> exists asg, assigns asg l rest.
Proof.
  revert l. induction turns as [|turns IH]; intros l Hs Hl.
  { destruct l; [|cbn in Hl; lia]. injection Hs as <-. exists []. constructor.
    intros (name & value & Hn & _). by destruct name. }
  cbn [strip_assignments] in Hs. pose proof (begins_assignment_spec l) as Hsp.
  destruct (skip_blanks_split l) as (bl & Hbl & Hlb).
  destruct (skip_blanks l) as [|c l'] eqn:El.
  { injection Hs as <-. exists []. constructor. done. }
  rewrite <- El in *. clear El c l'.
  destruct (raw_word_split (skip_blanks l)) as (r & Hlr & _ & Hr).
  pose proof (index_byte_split ch_equal (raw_word (skip_blanks l))) as Hi.
  destruct (index_byte ch_equal (raw_word (skip_blanks l))) as [[|n]|];
    [injection Hs as <-; exists []; by constructor| |injection Hs as <-; exists []; by constructor].
  destruct (isValidAssignName _) eqn:Ev; cbn [negb] in Hs.
  2: { injection Hs as <-. exists []. constructor. by rewrite Hsp. }
  destruct (valueBytesAllowed _) eqn:Eva; cbn [negb] in Hs; [|done].
  destruct Hi as (a & b & Ht & Ha & _). rewrite Ht in *.
  rewrite <- Ha, take_app_length in Ev.
  assert (Hb : drop (S (S n)) (a ++ ch_equal :: b) = b).
  { rewrite <- Ha, <- (Nat.add_1_r (length a)), <- drop_drop, drop_app_length. done. }
  rewrite Hb in Eva. rewrite Hlr, drop_app_length in Hs.
  destruct (IH r) as [asg Hasg]; [done|..].
  { rewrite Hlb, Hlr in Hl. rewrite !length_app in Hl. cbn in Hl. lia. }
  exists ((a, b) :: asg). rewrite Hlb, Hlr.
  replace ((a ++ ch_equal :: b) ++ r) with (a ++ ch_equal :: b ++ r) by (by rewrite <- app_assoc).
  by constructor.
Qed.

Lemma strip_assignments_complete asg l rest :
  assigns asg l rest -> forall turns, (length l <= turns)%nat -> strip_assignments turns l = Some rest.
Proof.
  induction 1 as [l Hn|bl name value asg r rest Hbl Hv Hva Hr _ IH]; intros turns Hl.
  - pose proof (begins_assignment_spec l) as Hsp. destruct turns; cbn [strip_assignments];
      (destruct (skip_blanks l) as [|c l'] eqn:El; [done|]);
      (destruct (index_byte ch_equal (raw_word (c :: l'))) as [[|n]|]; [done| |done]);
      (destruct (isValidAssignName _) eqn:Ev; cbn [negb]; [exfalso; by apply Hn, Hsp|done]).
  - destruct (front_assignment bl name value r Hbl Hv Hva Hr) as [Hsk Hrw].
    destruct (name_no_equal name Hv) as (Hne & Heq & _).
    destruct turns as [|turns]. { rewrite !length_app in Hl. cbn in Hl. lia. }
    cbn [strip_assignments]. rewrite Hsk.
    destruct (name ++ ch_equal :: value ++ r) as [|c l'] eqn:El; [by destruct name|]. rewrite <- El, Hrw in *.
    clear El c l'.
    rewrite index_byte_app by done. destruct (length name) as [|n] eqn:Eln; [by destruct name|].
    rewrite <- Eln, take_app_length, Hv. cbn [negb].
    rewrite <- (Nat.add_1_r (length name)), <- drop_drop, drop_app_length. cbn [drop].
    rewrite drop_0, Hva. cbn [negb].
    replace (name ++ ch_equal :: value ++ r) with ((name ++ ch_equal :: value) ++ r) by (by rewrite <- app_assoc).
    rewrite drop_app_length. apply IH. rewrite !length_app in Hl. cbn in Hl. rewrite length_app in Hl. lia.
Qed.

Lemma stripLeadingAssignments_iff l rest :
  stripLeadingAssignments l = Some rest <-> exists asg, assigns asg l rest.
Proof.
  split; [intros H; by eapply strip_assignments_sound|].
  intros [asg H]. by eapply strip_assignments_complete.
Qed.

(** *** Wrappers *)

Lemma stripWrappers_iff tokens cmd argv :
  isShellBuiltin cmd = false ->
  stripWrappers tokens = Some (cmd :: argv) <-> unwraps tokens (cmd :: argv).
Proof.
  intros Hb. split.
  - remember (length tokens) as n eqn:Hn. revert tokens Hn.
    induction n as [n IH] using lt_wf_ind. intros tokens -> H.
    destruct tokens as [|w [|next rest]]; [done|by injection H as <- <-; constructor; right|].
    cbn [stripWrappers] in H. destruct (isTransparentWrapper w) eqn:Ew; cbn [negb] in H.
    2: { injection H as <- <-. constructor. by left. }
    destruct (HasPrefix next "-") eqn:Ep; cbn [negb] in H.
    2: { apply unwraps_plain; [done..|]. eapply (IH (length (next :: rest))); [cbn; lia|done|done]. }
    assert (Hoth : (if (w ==? "command") && ((next ==? "-v") || (next ==? "-V"))
                    then Some (w :: next :: rest) else None) <> Some (cmd :: argv)).
    { case_bool_decide as Hw; cbn [andb]; [|done]. destruct (_ || _); [|done].
      intros [= <- _]. subst w. done. }
    destruct rest as [|increment rest']; [done|].
    destruct (w ==? "nice") eqn:E1; cbn [andb] in H; [|done].
    destruct (next ==? "-n") eqn:E2; cbn [andb] in H; [|done].
    destruct (isNumericIncrement increment) eqn:E3; [|done].
    apply bool_decide_eq_true in E1 as ->, E2 as ->. apply unwraps_nice; [done|].
    eapply (IH (length rest')); [cbn; lia|done|done].
  - induction 1 as [c a Hc|w next rest out Hw Hp _ IH|increment rest out Hi _ IH].
    + destruct a as [|next rest]; [done|]. destruct Hc as [Hc|]; [|done].
      cbn [stripWrappers]. by rewrite Hc.
    + cbn [stripWrappers]. rewrite Hw, Hp. cbn [negb]. exact IH.
    + cbn [stripWrappers]. change (isTransparentWrapper "nice") with true.
      change (HasPrefix "-n" "-") with true. cbn [negb].
      rewrite !bool_decide_eq_true_2 by done. rewrite Hi. exact IH.
Qed.

(** *** Options *)

Lemma scan_cluster_iff cl h b :
  scan_cluster cl h = Some b <->
  Forall (fun ch => ch = ch_c \/ isSafeShellShortFlag ch = true) cl /\ b = h || has_byte ch_c cl.
Proof.
  revert h. induction cl as [|ch cl IH]; intros h; cbn [scan_cluster].
  { cbn. rewrite orb_false_r. split; [by intros [= ->]|by intros [_ ->]]. }
  change (has_byte ch_c (ch :: cl)) with ((ch_c =? ch) || has_byte ch_c cl).
  rewrite (Z.eqb_sym ch_c), Forall_cons. destruct (Z.eqb_spec ch ch_c) as [->|Hne]; cbn [orb].
  - rewrite IH. cbn [orb]. rewrite orb_true_r. tauto.
  - destruct (isSafeShellShortFlag ch); [rewrite IH; tauto|].
    split; [done|]. intros [[[?|?] _] _]; done.
Qed.

Lemma has_byte_elem c l : has_byte c l = true <-> c ∈ l.
Proof.
  unfold has_byte. rewrite existsb_exists. split.
  - intros (x & Hx & ->%Z.eqb_eq). by apply list_elem_of_In.
  - intros H. exists c. split; [by apply list_elem_of_In|apply Z.eqb_refl].
Qed.

(** A cluster does not begin with a second dash. *)
Lemma cluster_first cl :
  Forall (fun ch => ch = ch_c \/ isSafeShellShortFlag ch = true) cl ->
  forall c cs, cl = c :: cs -> (c =? ch_minus) = false.
Proof.
  intros H c cs ->. inversion_clear H as [|? ? Hc _]. apply Z.eqb_neq. intros ->.
  destruct Hc as [Hc|Hc]; [discriminate Hc|by vm_compute in Hc].
Qed.

Lemma findShellCFlag_from_iff i args k :
  findShellCFlag_from i args = Some k <->
  exists pre cl post, args = pre ++ cl :: post /\ k = (i + length pre)%nat /\
    Forall plain_cluster pre /\ c_cluster cl.
Proof.
  revert i. induction args as [|arg args IH]; intros i.
  { split; [done|]. intros (pre & cl & post & H & _). by destruct pre. }
  cbn [findShellCFlag_from]. split.
  - destruct (string_bytes arg) as [|d [|c1 cs]] eqn:Eb; [done..|].
    destruct (Z.eqb_spec d ch_minus) as [->|]; cbn [negb]; [|done].
    destruct (Z.eqb_spec c1 ch_minus) as [|Hc1]; [done|].
    destruct (scan_cluster (c1 :: cs) false) as [hasC|] eqn:Es; [|done].
    apply scan_cluster_iff in Es as [Hf Hh]. cbn [orb] in Hh. destruct hasC.
    + intros [= <-]. exists [], arg, args. split_and!; [done|cbn; lia|constructor|].
      exists (c1 :: cs). split_and!; [done| |done]. by apply has_byte_elem.
    + intros (pre & cl & post & -> & -> & Hpre & Hcl)%IH. exists (arg :: pre), cl, post.
      split_and!; [done|cbn; lia| |done]. constructor; [|done].
      exists (c1 :: cs). split_and!; [done..|].
      rewrite Forall_forall in Hf |- *. intros ch Hch. destruct (Hf ch Hch) as [-> |]; [|done].
      apply has_byte_elem in Hch. congruence.
  - intros (pre & cl & post & Ha & -> & Hpre & Hcl). destruct pre as [|p pre]; injection Ha as -> ->.
    + destruct Hcl as (l & -> & Hin & Hf). destruct l as [|c1 cs]; [by apply not_elem_of_nil in Hin|].
      rewrite Z.eqb_refl, (cluster_first _ Hf c1 cs eq_refl). cbn [negb].
      rewrite (proj2 (scan_cluster_iff (c1 :: cs) false true)); [cbn; by rewrite Nat.add_0_r|].
      split; [done|]. symmetry. by apply has_byte_elem.
    + inversion_clear Hpre as [|? ? Hp Hpre']. destruct Hp as (l & -> & Hne & Hf).
      assert (Hf' : Forall (fun ch => ch = ch_c \/ isSafeShellShortFlag ch = true) l)
        by (eapply Forall_impl; [exact Hf|auto]).
      destruct l as [|c1 cs]; [done|].
      rewrite Z.eqb_refl, (cluster_first _ Hf' c1 cs eq_refl). cbn [negb].
      rewrite (proj2 (scan_cluster_iff (c1 :: cs) false false)).
      * apply IH. exists pre, cl, post. split_and!; [done|cbn; lia|done..].
      * split; [done|]. symmetry. apply not_true_is_false. intros H%has_byte_elem.
        rewrite Forall_forall in Hf. specialize (Hf _ H). by vm_compute in Hf.
Qed.

(** *** Sizes *)

Definition line_size (command : string) (args : list string) : nat :=
  String.length command + sum_list (String.length <$> args).

Lemma renders_size ws t : renders ws t -> (sum_list (String.length <$> (word_string <$> ws)) <= length t)%nat.
Proof.
  assert (Hw : forall w, (String.length (word_string w) <= length (word_text w))%nat).
  { intros w. unfold word_string. rewrite length_bytes_string. unfold word_value, word_text.
    induction w as [|s w IH]; [done|]. rewrite !fmap_cons. cbn [concat]. rewrite !length_app.
    destruct s; cbn [span_text span_value length]; rewrite ?length_app; lia. }
  induction 1 as [bl Hbl|bl w Hbl Hw'|bl w b ws t Hbl Hw' Hb _ IH]; cbn [fmap list_fmap sum_list sum_list_with].
  - cbn. lia.
  - cbn. rewrite length_app. specialize (Hw w). unfold id. lia.
  - cbn. rewrite !length_app. cbn. specialize (Hw w). unfold id, sum_list in *. lia.
Qed.

Lemma assigns_size asg l rest : assigns asg l rest -> (length rest <= length l)%nat.
Proof. induction 1; [done|]. rewrite !length_app. cbn. rewrite length_app. lia. Qed.

Lemma unwraps_size tokens out :
  unwraps tokens out -> (sum_list (String.length <$> out) <= sum_list (String.length <$> tokens))%nat.
Proof. induction 1; cbn in *; lia. Qed.

Lemma runs_size script cmd argv : runs script cmd argv -> (line_size cmd argv <= String.length script)%nat.
Proof.
  intros (asg & rest & ws & Ha%assigns_size & Hr%renders_size & Hu%unwraps_size & _).
  pose proof (TrimSpace_length (string_bytes script)). pose proof (TrimSpace_length rest).
  rewrite length_string_bytes in *. unfold line_size. cbn in Hu. lia.
Qed.

End ShellFacts.
Export ShellFacts.

(** ** Theorems *)
Module ShellTheorems.
Section ShellTheorems.
Context {U : UnicodeCase}.

Lemma word_text_nonempty w : word_ok w -> word_text w <> [].
Proof using.
  intros [Hne Hw]. destruct w as [|s w]; [done|]. inversion_clear Hw as [|? ? Hs _].
  rewrite word_text_cons. intros [Ht _]%app_eq_nil. destruct s; [by destruct Hs|done|done].
Qed.

Lemma renders_empty ws t : renders ws t -> t = [] -> ws = [].
Proof using.
  destruct 1 as [|bl w _ Hw|]; [done|..].
  - intros [_ Ht]%app_eq_nil. by apply word_text_nonempty in Hw.
  - by intros [_ [_ Ht]%app_eq_nil]%app_eq_nil.
Qed.

(** A script that runs a command survives both trims with something left. *)
Lemma runs_not_blank asg l rest ws out :
  assigns asg l rest -> renders ws (TrimSpace rest) -> unwraps (word_string <$> ws) out ->
  l <> [] /\ TrimSpace rest <> [].
Proof using.
  intros Ha Hr Hu. assert (Hne : TrimSpace rest <> []).
  { intros He. apply renders_empty in Hr as ->; [|done]. inversion Hu. }
  split; [|done]. intros ->. apply assigns_size in Ha. destruct rest as [|x rest]; [done|]. cbn in Ha. lia.
Qed.

Lemma parseSimpleShellC_iff args cmd argv :
  parseSimpleShellC args = (cmd, argv, statusOK) <->
  exists pre cl script post, args = pre ++ cl :: script :: post /\
    Forall plain_cluster pre /\ c_cluster cl /\ runs script cmd argv.
Proof.
  unfold parseSimpleShellC. split.
  - destruct (findShellCFlag args) as [i|] eqn:Ef; [|by destruct (hasShellCWithUnsafeOptions args)].
    apply findShellCFlag_from_iff in Ef as (pre & cl & post & -> & -> & Hpre & Hcl).
    rewrite Nat.add_0_l, lookup_app_r by lia. replace (S (length pre) - length pre)%nat with 1%nat by lia.
    destruct post as [|script post]; [done|]. cbn [lookup list_lookup].
    destruct (nonempty (TrimSpace (string_bytes script))); cbn [negb]; [|done].
    destruct (stripLeadingAssignments _) as [rest|] eqn:Ea; [|done].
    apply stripLeadingAssignments_iff in Ea as [asg Ha].
    destruct (nonempty (TrimSpace rest)); cbn [negb]; [|done].
    destruct (tokenizeSimpleScript _) as [toks|] eqn:Et; [|by destruct (isTransparentWrapper _)].
    apply tokenize_renders in Et as (ws & Hr & ->).
    destruct (word_string <$> ws) as [|t0 toks] eqn:Ew; [done|]. rewrite <- Ew.
    destruct (stripWrappers _) as [[|c a]|] eqn:Es; [done| |done].
    destruct (isShellBuiltin c) eqn:Eb; [done|]. intros [= -> ->].
    apply stripWrappers_iff in Es; [|done].
    exists pre, cl, script, post. split_and!; [done..|]. by exists asg, rest, ws.
  - intros (pre & cl & script & post & -> & Hpre & Hcl & asg & rest & ws & Ha & Hr & Hu & Hb).
    destruct (runs_not_blank _ _ _ _ _ Ha Hr Hu) as [Hn1 Hn2].
    assert (Ef : findShellCFlag (pre ++ cl :: script :: post) = Some (length pre)).
    { apply findShellCFlag_from_iff. by exists pre, cl, (script :: post). }
    rewrite Ef, lookup_app_r by lia. replace (S (length pre) - length pre)%nat with 1%nat by lia.
    cbn [lookup list_lookup].
    rewrite (proj2 (stripLeadingAssignments_iff _ rest)) by (by exists asg).
    rewrite (proj2 (tokenize_renders (TrimSpace rest) (word_string <$> ws))) by (by exists ws).
    destruct (TrimSpace (string_bytes script)) as [|x1 l1]; [done|].
    destruct (TrimSpace rest) as [|x2 l2]; [done|]. cbn [nonempty negb].
    destruct (word_string <$> ws) as [|t0 toks] eqn:Ew; [inversion Hu|]. rewrite <- Ew in *.
    rewrite (proj2 (stripWrappers_iff _ _ _ Hb) Hu), Hb. done.
Qed.

(** C5. The derivation is exact: a command line is derived to a command and arguments precisely
    when it is a known shell with safe option clusters, the last carrying [c], whose script, behind
    environment assignments and transparent wrappers, is one external command in the quoting
    grammar, and the arguments are those the shell passes.  No choice of quoting, blanks, options,
    wrappers or assignments hides a simple command, and nothing else is taken for one. *)
Theorem DerivePolicyTarget_exact command args cmd argv :
  DerivePolicyTarget command args = Some (cmd, argv) <->
  isKnownShell (basenameLower command) = true /\
  exists pre cl script post, args = pre ++ cl :: script :: post /\
    Forall plain_cluster pre /\ c_cluster cl /\ runs script cmd argv.
Proof.
  unfold DerivePolicyTarget. case_bool_decide as Hc.
  { subst command. split; [done|]. by intros [H _]. }
  destruct (isKnownShell (basenameLower command)); cbn [negb]; [|split; [done|by intros [? _]]].
  rewrite <- parseSimpleShellC_iff. destruct (parseSimpleShellC args) as [[c a] []];
    split; try done; [by intros [_ ?]|by intros [= -> ->]|by intros [_ [= -> ->]]|by intros [_ ?]..].
Qed.

Lemma derive_shrinks_aux command args cmd argv :
  DerivePolicyTarget command args = Some (cmd, argv) -> (line_size cmd argv < line_size command args)%nat.
Proof.
  unfold DerivePolicyTarget. case_bool_decide as Hc; [done|].
  destruct (isKnownShell (basenameLower command)); cbn [negb]; [|done].
  destruct (parseSimpleShellC args) as [[c a] []] eqn:Ep; try done. intros [= -> ->].
  apply parseSimpleShellC_iff in Ep as (pre & cl & script & post & -> & _ & _ & Hr%runs_size).
  unfold line_size in *. rewrite fmap_app. cbn [fmap list_fmap].
  assert (Hs : forall l1 l2, sum_list (l1 ++ l2) = (sum_list l1 + sum_list l2)%nat).
  { intros l1 l2. induction l1 as [|x l1 IH]; [done|]. cbn in *. lia. }
  rewrite Hs. cbn. destruct command; [done|]. cbn. lia.
Qed.

(** C38. Each derivation makes the command line shorter, so peeling nested shells always ends. *)
Theorem derive_shrinks command args cmd argv :
  DerivePolicyTarget command args = Some (cmd, argv) -> (line_size cmd argv < line_size command args)%nat.
Proof. apply derive_shrinks_aux. Qed.

End ShellTheorems.

Lemma derive_shrinks_witness :
  (line_size "shutdown" ["now"] < line_size "/bin/sh" ["-c"; "exec 'shut'down now"])%nat.
Proof.
  apply (@derive_shrinks latin_case). vm_compute. reflexivity.
Defined.

(** [eval], [trap] and the like run their arguments, but are classified as harmless builtins. *)
Example eval_is_fallback :
  @shellStatus latin_case "sh" ["-c"; "eval shutdown"] = statusFallback /\
  @shellStatus latin_case "sh" ["-c"; "trap shutdown EXIT"] = statusFallback.
Proof. vm_compute. done. Qed.

End ShellTheorems.
Export ShellTheorems.
