(* ===== verification/PolicyModel.v ===== *)
(** * Policy documents and decisions ([internal/policy])

    The data of [model.go] and [rules.go] as the engine uses it, [types.Decision] and its
    companions from [pkg/types/decision.go], the wrapping of a rule's decision ([wrapDecision] of
    [engine.go]) and the environment policy of [env_policy.go].

    A decision is the string the source keeps.  Fields the engine does not read (descriptions,
    timeouts, metadata of generated rules) are left out.  [os.Getenv] is a function, and the two
    engine flags travel with it in [Flags].  Three libraries are parameters, gathered in the class
    [Libraries]: [gobwas/glob] and [regexp] (a compiled pattern is its matching function), and
    [url.Parse]. *)

From Stdlib Require Import ZArith Lia Ascii String.
From stdpp Require Import base list strings gmap.
From S2P Require Import Prelude GoText GoNet GoStrings.
Open Scope string_scope.
Open Scope list_scope.
Open Scope Z_scope.

(** ** Libraries *)

Definition Glob : Type := string -> bool.
Definition Regexp : Type := string -> bool.

(** The fields of [url.URL] the policy reads. *)
Record URL : Type := mkURL {
  url_Scheme : string;
  url_Host : string;
  url_HasUser : bool;
  url_Path : string;
  url_RawPath : string;
  url_ForceQuery : bool;
  url_RawQuery : string;
  url_Fragment : string
}.

Class Libraries : Type := {
  glob_Compile : string -> list Z -> option Glob;      (* pattern, separators *)
  regexp_Compile : string -> option Regexp;
  url_Parse : string -> option URL
}.

(** Small libraries for concrete runs: globs with [*] (within separators), [**] and literal bytes,
    regular expressions that are substrings, and URLs [scheme://host/path]. *)
Fixpoint glob_match (seps pat : list Z) (s : list Z) {struct pat} : bool :=
  match pat with
  | [] => negb (nonempty s)
  | 42 :: pat' =>
    let crossing := match pat' with 42 :: _ => true | _ => false end in
    (fix star (s : list Z) : bool :=
       glob_match seps pat' s ||
       match s with
       | [] => false
       | b :: s' => (crossing || negb (has_byte b seps)) && star s'
       end) s
  | c :: pat' => match s with b :: s' => (b =? c) && glob_match seps pat' s' | [] => false end
  end.

Definition small_url (s : string) : option URL :=
  let bs := string_bytes s in
  i ← index_byte ch_colon bs;
  if negb (starts_with [ch_colon; ch_slash; ch_slash] (drop i bs)) then None
  else
    let rest := drop (i + 3) bs in
    let n := default (length rest) (index_byte ch_slash rest) in
    Some (mkURL (bytes_string (take i bs)) (bytes_string (take n rest)) false
            (bytes_string (drop n rest)) "" false "" "").

Definition small_libraries : Libraries := {|
  glob_Compile pat seps :=
    if has_byte ch_lbrack (string_bytes pat) then None
    else Some (fun s => glob_match seps (string_bytes pat) (string_bytes s));
  regexp_Compile pat := if has_byte 40 (string_bytes pat) then None else Some (fun s => Contains s pat);
  url_Parse := small_url
|}.

(** ** Decisions *)
Module Decisions.

Definition DecisionAllow : string := "allow".
Definition DecisionDeny : string := "deny".
Definition DecisionApprove : string := "approve".
Definition DecisionRedirect : string := "redirect".
Definition DecisionAudit : string := "audit".
Definition DecisionSoftDelete : string := "soft_delete".

Inductive ApprovalMode : Type := ApprovalModeShadow | ApprovalModeEnforced.

Record ApprovalInfo : Type := mkApproval { ai_Required : bool; ai_Mode : ApprovalMode }.

Record RedirectInfo : Type := mkRedirect {
  ri_Command : string;
  ri_Args : list string;
  ri_ArgsAppend : list string;
  ri_Environment : option (gmap string string);
  ri_Reason : string
}.

Record FileRedirectInfo : Type := mkFileRedirect {
  fr_OriginalPath : string;
  fr_RedirectPath : string;
  fr_Operation : string;
  fr_Reason : string
}.

Record TorVerdict : Type := mkTor {
  tv_Vector : string;
  tv_Mode : string;
  tv_Decision : string;
  tv_Target : string
}.

Record ResolvedEnvPolicy : Type := mkResolvedEnv {
  re_Allow : list string;
  re_Deny : list string;
  re_MaxBytes : Z;
  re_MaxKeys : Z;
  re_BlockIteration : bool
}.

Record Decision : Type := mkDecision {
  PolicyDecision : string;
  EffectiveDecision : string;
  d_Rule : string;
  d_Message : string;
  d_Approval : option ApprovalInfo;
  d_Redirect : option RedirectInfo;
  d_FileRedirect : option FileRedirectInfo;
  d_EnvPolicy : option ResolvedEnvPolicy;       (* [None]: the zero value *)
  d_ThreatFeed : string;
  d_ThreatMatch : string;
  d_ThreatAction : string;
  d_Tor : option TorVerdict
}.

(** The composite literal with the first four fields, an approval and a redirect. *)
Definition decision (policy effective rule msg : string) (approval : option ApprovalInfo)
  (redirect : option RedirectInfo) : Decision :=
  mkDecision policy effective rule msg approval redirect None None "" "" "" None.

Definition set_EnvPolicy (d : Decision) (e : option ResolvedEnvPolicy) : Decision :=
  mkDecision (PolicyDecision d) (EffectiveDecision d) (d_Rule d) (d_Message d) (d_Approval d)
    (d_Redirect d) (d_FileRedirect d) e (d_ThreatFeed d) (d_ThreatMatch d) (d_ThreatAction d) (d_Tor d).
Definition set_FileRedirect (d : Decision) (f : option FileRedirectInfo) : Decision :=
  mkDecision (PolicyDecision d) (EffectiveDecision d) (d_Rule d) (d_Message d) (d_Approval d)
    (d_Redirect d) f (d_EnvPolicy d) (d_ThreatFeed d) (d_ThreatMatch d) (d_ThreatAction d) (d_Tor d).
Definition set_Threat (d : Decision) (feed matched action : string) : Decision :=
  mkDecision (PolicyDecision d) (EffectiveDecision d) (d_Rule d) (d_Message d) (d_Approval d)
    (d_Redirect d) (d_FileRedirect d) (d_EnvPolicy d) feed matched action (d_Tor d).
Definition set_Tor (d : Decision) (t : option TorVerdict) : Decision :=
  mkDecision (PolicyDecision d) (EffectiveDecision d) (d_Rule d) (d_Message d) (d_Approval d)
    (d_Redirect d) (d_FileRedirect d) (d_EnvPolicy d) (d_ThreatFeed d) (d_ThreatMatch d)
    (d_ThreatAction d) t.

End Decisions.
Export Decisions.

(** ** Rules *)
Module Rules.

Record FileRule : Type := mkFileRule {
  f_Name : string;
  f_Paths : list string;
  f_Operations : list string;
  f_Decision : string;
  f_Message : string;
  f_RedirectTo : string;
  f_PreserveTree : bool
}.

Record NetworkRule : Type := mkNetworkRule {
  n_Name : string;
  n_Domains : list string;
  n_Ports : list Z;
  n_CIDRs : list string;
  n_Decision : string;
  n_Message : string
}.

Record CommandRedirect : Type := mkCommandRedirect {
  cr_Command : string;
  cr_Args : list string;
  cr_ArgsAppend : list string;
  cr_Environment : option (gmap string string)
}.

(** [rules.go]: depth constraints, -1 for no maximum. *)
Record ContextConfig : Type := mkContext { MinDepth : Z; MaxDepth : Z }.

Definition DefaultContext : ContextConfig := mkContext 0 (-1).

Definition MatchesDepth (c : ContextConfig) (depth : Z) : bool :=
  if depth <? MinDepth c then false
  else if (0 <=? MaxDepth c) && (MaxDepth c <? depth) then false
  else true.

Fixpoint parse_context (arr : list string) (hasDirect hasNested : bool) : option (bool * bool) :=
  match arr with
  | [] => Some (hasDirect, hasNested)
  | v :: r => if v ==? "direct" then parse_context r true hasNested
              else if v ==? "nested" then parse_context r hasDirect true else None
  end.

Definition parseArray (c : ContextConfig) (arr : list string) : option ContextConfig :=
  match parse_context arr false false with
  | None => None
  | Some (true, true) => Some (mkContext 0 (-1))
  | Some (true, false) => Some (mkContext 0 0)
  | Some (false, true) => Some (mkContext 1 (-1))
  | Some (false, false) => Some c
  end.

Record CommandRule : Type := mkCommandRule {
  c_Name : string;
  c_Commands : list string;
  c_ArgsPatterns : list string;
  c_Decision : string;
  c_Message : string;
  c_RedirectTo : option CommandRedirect;
  c_Context : ContextConfig;
  c_EnvAllow : list string;
  c_EnvDeny : list string;
  c_EnvMaxBytes : Z;
  c_EnvMaxKeys : Z;
  c_EnvBlockIteration : option bool
}.

Definition CommandRule_zero : CommandRule :=
  mkCommandRule "" [] [] "" "" None (mkContext 0 0) [] [] 0 0 None.

Record UnixSocketRule : Type := mkUnixRule {
  u_Name : string;
  u_Paths : list string;
  u_Operations : list string;
  u_Decision : string;
  u_Message : string
}.

Record RegistryRule : Type := mkRegistryRule {
  r_Name : string;
  r_Paths : list string;
  r_Operations : list string;
  r_Decision : string;
  r_Message : string;
  r_Priority : Z
}.

Record DnsRedirectRule : Type := mkDnsRedirectRule {
  dr_Name : string;
  dr_Match : string;
  dr_ResolveTo : string;
  dr_Visibility : string;
  dr_OnFailure : string
}.

Record ConnectRedirectTLSConfig : Type := mkTLS { tls_Mode : string; tls_SNI : string }.

Record ConnectRedirectRule : Type := mkConnectRedirectRule {
  cn_Name : string;
  cn_Match : string;
  cn_RedirectTo : string;
  cn_RedirectToUnix : string;
  cn_TLS : option ConnectRedirectTLSConfig;
  cn_Visibility : string;
  cn_Message : string;
  cn_OnFailure : string
}.

Record EnvPolicy : Type := mkEnvPolicy {
  ep_Allow : list string;
  ep_Deny : list string;
  ep_MaxBytes : Z;
  ep_MaxKeys : Z;
  ep_BlockIteration : bool
}.

Definition EnvPolicy_zero : EnvPolicy := mkEnvPolicy [] [] 0 0 false.

End Rules.
Export Rules.

(** ** Wrapping a decision *)

Record Flags : Type := mkFlags {
  enforceApprovals : bool;
  enforceRedirects : bool;
  getenv : string -> string
}.

Section Wrap.
Context {U : UnicodeCase} (fl : Flags).

Definition toRedirectInfo (r : option CommandRedirect) (msg : string) : option RedirectInfo :=
  match r with
  | None => None
  | Some r => if TrimSpace_string (cr_Command r) ==? "" then None
              else Some (mkRedirect (cr_Command r) (cr_Args r) (cr_ArgsAppend r) (cr_Environment r) msg)
  end.

(** [strings.EqualFold(v, "1")] is equality: no other rune folds to [1]. *)
Definition wrapDecision (dec rule msg : string) (redirect : option CommandRedirect) : Decision :=
  let pd := ToLower dec in
  if pd ==? DecisionAllow then decision pd pd rule msg None None
  else if pd ==? DecisionDeny then decision pd pd rule msg None None
  else if pd ==? DecisionApprove then
    if enforceApprovals fl then decision pd pd rule msg (Some (mkApproval true ApprovalModeEnforced)) None
    else if getenv fl "AEP_CAW_APPROVE_SHADOW_ALLOW" ==? "1" then
      decision pd DecisionAllow rule msg (Some (mkApproval true ApprovalModeShadow)) None
    else decision pd DecisionDeny rule (msg +:+ " (approvals disabled; deny fail-closed)")
           (Some (mkApproval true ApprovalModeShadow)) None
  else if pd ==? DecisionRedirect then
    if enforceRedirects fl then decision pd pd rule msg None (toRedirectInfo redirect msg)
    else decision pd DecisionAllow rule msg None (toRedirectInfo redirect msg)
  else if pd ==? DecisionAudit then decision pd DecisionAllow rule msg None None
  else if pd ==? DecisionSoftDelete then decision pd DecisionAllow rule msg None None
  else decision DecisionDeny DecisionDeny "invalid-policy-decision" "invalid decision in policy" None None.

End Wrap.

Definition decisionStrictness (d : string) : Z :=
  if d ==? DecisionDeny then 4
  else if (d ==? DecisionRedirect) || (d ==? DecisionSoftDelete) then 3
  else if d ==? DecisionApprove then 2
  else if d ==? DecisionAudit then 1 else 0.

(** ** Environment policy *)
Module Env.

Fixpoint uniq_from (seen : list string) (l : list string) : list string :=
  match l with
  | [] => []
  | s :: r => if bool_decide (s ∈ seen) then uniq_from seen r else s :: uniq_from (s :: seen) r
  end.
Definition uniqStrings (l : list string) : list string := uniq_from [] l.

Definition MergeEnvPolicy (global : EnvPolicy) (rule : CommandRule) : ResolvedEnvPolicy :=
  let or_rule (r g : list string) := if nonempty r then r else g in
  mkResolvedEnv
    (uniqStrings (or_rule (c_EnvAllow rule) (ep_Allow global)))
    (uniqStrings (or_rule (c_EnvDeny rule) (ep_Deny global)))
    (if 0 <? c_EnvMaxBytes rule then c_EnvMaxBytes rule else ep_MaxBytes global)
    (if 0 <? c_EnvMaxKeys rule then c_EnvMaxKeys rule else ep_MaxKeys global)
    (default (ep_BlockIteration global) (c_EnvBlockIteration rule)).

Definition ValidateEnvPolicy (p : EnvPolicy) : bool := (0 <=? ep_MaxBytes p) && (0 <=? ep_MaxKeys p).

Definition defaultSecretDeny : list string :=
  ["AWS_SECRET_ACCESS_KEY"; "AWS_ACCESS_KEY_ID"; "AWS_SESSION_TOKEN"; "AWS_PROFILE";
   "GOOGLE_APPLICATION_CREDENTIALS"; "GCP_SERVICE_ACCOUNT"; "AZURE_CLIENT_SECRET";
   "AZURE_CLIENT_ID"; "AZURE_TENANT_ID"; "AZURE_SUBSCRIPTION_ID"; "SSH_AUTH_SOCK";
   "SSH_AGENT_PID"; "DOCKER_HOST"; "DOCKER_TLS_VERIFY"; "KUBECONFIG"; "GITHUB_TOKEN"; "GH_TOKEN";
   "LD_PRELOAD"; "LD_LIBRARY_PATH"; "LD_AUDIT"; "LD_DEBUG"; "LD_DEBUG_OUTPUT"; "LD_DYNAMIC_WEAK";
   "LD_HWCAP_MASK"; "LD_ORIGIN_PATH"; "LD_PROFILE"; "LD_PROFILE_OUTPUT"; "LD_SHOW_AUXV";
   "LD_TRACE_LOADED_OBJECTS";
   "DYLD_INSERT_LIBRARIES"; "DYLD_LIBRARY_PATH"; "DYLD_FRAMEWORK_PATH";
   "DYLD_FALLBACK_LIBRARY_PATH"; "DYLD_FALLBACK_FRAMEWORK_PATH"; "DYLD_IMAGE_SUFFIX";
   "DYLD_PRINT_LIBRARIES";
   "PYTHONPATH"; "PYTHONSTARTUP"; "PYTHONHOME"; "PYTHONUSERBASE"; "RUBYLIB"; "RUBYOPT";
   "PERL5LIB"; "PERL5OPT"; "PERLLIB"; "NODE_PATH"; "NODE_OPTIONS";
   "BASH_ENV"; "ENV"; "SHELLOPTS"; "BASHOPTS"; "CDPATH"; "GLOBIGNORE"; "MAILPATH";
   "PROMPT_COMMAND"; "GIT_ASKPASS"; "SSH_ASKPASS"; "GIT_SSH_COMMAND"].

Definition isInternalVar (name : string) : bool := HasPrefix name "AEP_CAW_".

(** [k=v] with a non-empty name. *)
Definition splitKV (kv : string) : option (string * string) :=
  let bs := string_bytes kv in
  match index_byte 61 bs with
  | None | Some O => None
  | Some i => Some (bytes_string (take i bs), bytes_string (drop (S i) bs))
  end.

Inductive env_error : Type := EnvMaxKeys (n : Z) | EnvMaxBytes (n : Z).

Section BuildEnv.
Context `{L : Libraries}.

Definition compilePatterns (patterns : list string) : list Glob :=
  omap (fun p => glob_Compile p []) patterns.

Definition matchesAnyPattern (name : string) (patterns : list string) (globs : list Glob) : bool :=
  existsb (String.eqb name) patterns || existsb (fun g : Glob => g name) globs.

Definition env_isDenied (pol : ResolvedEnvPolicy) (name : string) : bool :=
  matchesAnyPattern name (re_Deny pol) (compilePatterns (re_Deny pol)) ||
  (negb (nonempty (re_Allow pol)) && existsb (String.eqb name) defaultSecretDeny).

Definition env_isAllowed (pol : ResolvedEnvPolicy) (name : string) : bool :=
  if env_isDenied pol name then false
  else if negb (nonempty (re_Allow pol)) then true
  else matchesAnyPattern name (re_Allow pol) (compilePatterns (re_Allow pol)).

(** The three loops that fill the map: base environment, additional keys, internal keys. *)
Definition env_base (pol : ResolvedEnvPolicy) (m : gmap string string) (kv : string)
  : gmap string string :=
  match splitKV kv with
  | Some (k, v) => if v ==? "" then m else if env_isAllowed pol k then <[k := v]> m else m
  | None => m
  end.

Definition env_vars (pol : ResolvedEnvPolicy) (baseEnv : list string) (addKeys : gmap string string)
  : gmap string string :=
  filter (fun p => isInternalVar p.1 = true) addKeys ∪
  (filter (fun p => env_isAllowed pol p.1 = true) addKeys ∪
   fold_left (env_base pol) baseEnv ∅).

(** The pairs [k=v] in the order of [sort.Strings]: bytewise. *)
Fixpoint bytes_less (a b : list Z) : bool :=
  match a, b with
  | [], _ :: _ => true
  | x :: a', y :: b' => (x <? y) || ((x =? y) && bytes_less a' b')
  | _, [] => false
  end.
Definition string_less (a b : string) : bool := bytes_less (string_bytes a) (string_bytes b).

Definition env_pairs (m : gmap string string) : list string :=
  stable_sort string_less ((fun p => p.1 +:+ "=" +:+ p.2) <$> map_to_list m).

Definition BuildEnv (pol : ResolvedEnvPolicy) (baseEnv : list string) (addKeys : gmap string string)
  : result env_error (list string) :=
  let pairs := env_pairs (env_vars pol baseEnv addKeys) in
  let total := sum_list_with (fun p => S (String.length p)) pairs in
  if (0 <? re_MaxKeys pol) && (re_MaxKeys pol <? Z.of_nat (length pairs))
  then Err (EnvMaxKeys (re_MaxKeys pol))
  else if (0 <? re_MaxBytes pol) && (re_MaxBytes pol <? Z.of_nat total)
  then Err (EnvMaxBytes (re_MaxBytes pol))
  else Ok pairs.

End BuildEnv.
End Env.
Export Env.
