(* ===== verification/SignalEngine.v ===== *)
(** * Signal policy ([internal/signal])

    [types.go], [target.go], [engine.go], [registry.go] and the decision part of [handler.go]:
    which signals a process of a session may send to which targets.  Signal numbers are those of
    Linux.  The registry's maps are finite maps from process ids; its methods run under a mutex.

    [isDescendantLocked] follows parent links until it finds none.  It is modelled with a number of
    turns; [SignalTheorems] shows that it ends on registries without a cycle, within as many turns
    as there are entries, and that reused process ids can create a cycle on which it never ends. *)

From Stdlib Require Import ZArith Lia Ascii String.
From stdpp Require Import base list strings gmap relations.
From S2P Require Import Prelude GoText GoNet GoStrings PolicyModel.
Open Scope string_scope.
Open Scope list_scope.
Open Scope Z_scope.

Module Signals.

(** ** [types.go] *)

Definition signalNames : list (string * Z) :=
  [("SIGHUP", 1); ("SIGINT", 2); ("SIGQUIT", 3); ("SIGILL", 4); ("SIGTRAP", 5); ("SIGABRT", 6);
   ("SIGBUS", 7); ("SIGFPE", 8); ("SIGKILL", 9); ("SIGUSR1", 10); ("SIGSEGV", 11); ("SIGUSR2", 12);
   ("SIGPIPE", 13); ("SIGALRM", 14); ("SIGTERM", 15); ("SIGCHLD", 17); ("SIGCONT", 18);
   ("SIGSTOP", 19); ("SIGTSTP", 20); ("SIGTTIN", 21); ("SIGTTOU", 22); ("SIGURG", 23);
   ("SIGXCPU", 24); ("SIGXFSZ", 25); ("SIGVTALRM", 26); ("SIGPROF", 27); ("SIGWINCH", 28);
   ("SIGIO", 29); ("SIGSYS", 31)].

Definition AllSignals : list Z := Z.of_nat <$> seq 1 31.

Definition signalGroups : list (string * list Z) :=
  [("@fatal", [9; 15; 3; 6]); ("@job", [19; 18; 20; 21; 22]); ("@reload", [1; 10; 12]);
   ("@ignore", [17; 23; 28]); ("@all", AllSignals)].

Inductive sig_error : Type :=
| SigOutOfRange (n : Z)
| SigUnknown (s : string)
| SigUnknownGroup (s : string)
| TargetInvalid (s : string)
| TargetPattern (s : string)
| TargetRangeNotPositive
| TargetRangeReversed (lo hi : Z).

Section Parse.
Context {U : UnicodeCase}.

Definition SignalFromString (s : string) : result sig_error Z :=
  let s := TrimSpace_string (ToUpper s) in
  match Atoi s with
  | Some num => if (0 <? num) && (num <? 64) then Ok num else Err (SigOutOfRange num)
  | None =>
    match table_get signalNames s with
    | Some sig => Ok sig
    | None =>
      if negb (HasPrefix s "SIG") then of_option (SigUnknown s) (table_get signalNames ("SIG" +:+ s))
      else Err (SigUnknown s)
    end
  end.

Definition ExpandSignalGroup (group : string) : result sig_error (list Z) :=
  let group := ToLower (TrimSpace_string group) in
  of_option (SigUnknownGroup group) (table_get signalGroups group).

Definition IsSignalGroup (s : string) : bool := HasPrefix (TrimSpace_string s) "@".

(** The map is ranged over in some order; names are unique, so the order does not matter. *)
Definition SignalName (sig : Z) : string :=
  default ("SIG" +:+ FormatInt sig) (table_find (Z.eqb sig) signalNames).

(** ** [target.go] *)

Inductive TargetType : Type :=
| TargetSelf | TargetChildren | TargetDescendants | TargetSiblings | TargetSession | TargetParent
| TargetExternal | TargetSystem | TargetUser | TargetProcess | TargetPIDRange.

Definition validTargetTypes : list (string * TargetType) :=
  [("self", TargetSelf); ("children", TargetChildren); ("descendants", TargetDescendants);
   ("siblings", TargetSiblings); ("session", TargetSession); ("parent", TargetParent);
   ("external", TargetExternal); ("system", TargetSystem); ("user", TargetUser);
   ("process", TargetProcess); ("pid_range", TargetPIDRange)].

Record TargetSpec : Type := mkTargetSpec {
  ts_Type : string;
  ts_Pattern : string;
  ts_Min : Z;
  ts_Max : Z
}.

Record ParsedTarget : Type := mkParsedTarget {
  pt_Type : TargetType;
  pt_ProcessGlob : option Glob;
  pt_PIDMin : Z;
  pt_PIDMax : Z
}.

Record TargetContext : Type := mkTargetContext {
  tc_SourcePID : Z;
  tc_TargetPID : Z;
  tc_TargetCmd : string;
  tc_IsChild : bool;
  tc_IsDescendant : bool;
  tc_IsSibling : bool;
  tc_IsParent : bool;
  tc_InSession : bool;
  tc_SameUser : bool
}.

Definition Matches (t : ParsedTarget) (ctx : TargetContext) : bool :=
  match pt_Type t with
  | TargetSelf => tc_TargetPID ctx =? tc_SourcePID ctx
  | TargetChildren => tc_IsChild ctx
  | TargetDescendants => tc_IsDescendant ctx
  | TargetSiblings => tc_IsSibling ctx
  | TargetSession => tc_InSession ctx
  | TargetParent => tc_IsParent ctx
  | TargetExternal => negb (tc_InSession ctx)
  | TargetSystem => (tc_TargetPID ctx =? 1) || (tc_TargetPID ctx =? 2)
  | TargetUser => tc_SameUser ctx && negb (tc_InSession ctx)
  | TargetProcess => match pt_ProcessGlob t with None => false | Some g => g (tc_TargetCmd ctx) end
  | TargetPIDRange => (pt_PIDMin t <=? tc_TargetPID ctx) && (tc_TargetPID ctx <=? pt_PIDMax t)
  end.

Section Compile.
Context `{L : Libraries}.

Definition ParseTargetSpec (spec : TargetSpec) : result sig_error ParsedTarget :=
  match table_get validTargetTypes (ToLower (TrimSpace_string (ts_Type spec))) with
  | None => Err (TargetInvalid (ts_Type spec))
  | Some ty =>
    g <-? (match ty with
           | TargetProcess =>
             if ts_Pattern spec ==? "" then Ok None
             else match glob_Compile (ts_Pattern spec) [] with
                  | Some g => Ok (Some g)
                  | None => Err (TargetPattern (ts_Pattern spec))
                  end
           | _ => Ok None
           end) ;
    let parsed := mkParsedTarget ty g (ts_Min spec) (ts_Max spec) in
    match ty with
    | TargetPIDRange =>
      if (ts_Min spec <=? 0) || (ts_Max spec <=? 0) then Err TargetRangeNotPositive
      else if ts_Max spec <? ts_Min spec then Err (TargetRangeReversed (ts_Min spec) (ts_Max spec))
      else Ok parsed
    | _ => Ok parsed
    end
  end.

(** ** [engine.go] *)

Record SignalRule : Type := mkSignalRule {
  s_Name : string;
  s_Signals : list string;
  s_Target : TargetSpec;
  s_Decision : string;
  s_Fallback : string;
  s_RedirectTo : string;
  s_Message : string
}.

Record SignalDecision : Type := mkSignalDecision {
  sg_Action : string;
  sg_Rule : string;
  sg_Message : string;
  sg_RedirectSignal : Z;
  sg_Fallback : string
}.

Record compiledSignalRule : Type := mkCompiledSignal {
  cs_rule : SignalRule;
  cs_signals : gset Z;
  cs_target : ParsedTarget;
  cs_redirect : Z
}.

Definition DecisionAbsorb : string := "absorb".

Definition expand_signals (specs : list string) : result sig_error (gset Z) :=
  ls <-? each (fun spec => if IsSignalGroup spec then ExpandSignalGroup spec
                           else sig <-? SignalFromString spec ; Ok [sig]) specs ;
  Ok (list_to_set (concat ls)).

Definition compileSignalRule (rule : SignalRule) : result sig_error compiledSignalRule :=
  sigs <-? expand_signals (s_Signals rule) ;
  target <-? ParseTargetSpec (s_Target rule) ;
  redirect <-? (if (s_Decision rule ==? DecisionRedirect) && (s_RedirectTo rule !=? "")
                then SignalFromString (s_RedirectTo rule) else Ok 0) ;
  Ok (mkCompiledSignal rule sigs target redirect).

Definition NewSignalEngine (rules : list SignalRule) : result sig_error (list compiledSignalRule) :=
  each compileSignalRule rules.

(** [compileSignalRules] of [engine_signal.go]: no engine without rules. *)
Definition compileSignalRules (rules : list SignalRule)
  : result sig_error (option (list compiledSignalRule)) :=
  if negb (nonempty rules) then Ok None else e <-? NewSignalEngine rules ; Ok (Some e).

End Compile.
End Parse.

(** Does the rule apply, with which decision, and how specific is its selector: one signal before
    several, then few signals and a narrow target. *)
Definition signal_applies (signal : Z) (ctx : TargetContext) (r : compiledSignalRule) : bool :=
  bool_decide (signal ∈ cs_signals r) && Matches (cs_target r) ctx.

Definition signal_decision (r : compiledSignalRule) : SignalDecision :=
  mkSignalDecision (s_Decision (cs_rule r)) (s_Name (cs_rule r)) (s_Message (cs_rule r))
    (cs_redirect r) (s_Fallback (cs_rule r)).

Definition signal_exact (r : compiledSignalRule) : Z := if Nat.eqb (size (cs_signals r)) 1 then 1 else 0.

Definition signal_prefix (r : compiledSignalRule) : Z :=
  1000 - Z.of_nat (size (cs_signals r)) +
  match pt_Type (cs_target r) with
  | TargetProcess | TargetPIDRange => 20
  | TargetSelf | TargetParent | TargetChildren => 10
  | _ => 0
  end.

(** The state of the loop of [Check]: the best selector so far and the decisions that have it. *)
Record best_signal : Type := mkBest { b_exact : Z; b_prefix : Z; b_top : list SignalDecision }.

Definition check_step (signal : Z) (ctx : TargetContext) (st : option best_signal)
  (r : compiledSignalRule) : option best_signal :=
  if negb (signal_applies signal ctx r) then st
  else
    let dec := signal_decision r in
    let fresh := Some (mkBest (signal_exact r) (signal_prefix r) [dec]) in
    match st with
    | None => fresh
    | Some b =>
      if (b_exact b <? signal_exact r) ||
         ((signal_exact r =? b_exact b) && (b_prefix b <? signal_prefix r)) then fresh
      else if (signal_exact r =? b_exact b) && (signal_prefix r =? b_prefix b)
      then Some (mkBest (b_exact b) (b_prefix b) (b_top b ++ [dec]))
      else Some b
    end.

Definition no_matching_rule : SignalDecision := mkSignalDecision DecisionDeny "" "no matching rule" 0 "".

Definition signal_Check (rules : list compiledSignalRule) (signal : Z) (ctx : TargetContext)
  : SignalDecision :=
  match fold_left (check_step signal ctx) rules None with
  | None => no_matching_rule
  | Some b =>
    match List.find (fun d => sg_Action d ==? DecisionDeny) (b_top b) with
    | Some d => d
    | None => default no_matching_rule (head (b_top b))
    end
  end.

Definition ApplyFallback (dec : SignalDecision) (canBlock : bool) : SignalDecision :=
  if canBlock then dec
  else
    let a := sg_Action dec in
    let needsBlock := (a ==? DecisionDeny) || (a ==? DecisionApprove) || (a ==? DecisionRedirect) ||
                      (a ==? DecisionAbsorb) in
    if negb needsBlock then dec
    else if sg_Fallback dec !=? "" then
      mkSignalDecision (sg_Fallback dec) (sg_Rule dec) (sg_Message dec +:+ " (fallback applied)")
        (sg_RedirectSignal dec) (sg_Fallback dec)
    else
      mkSignalDecision DecisionAudit (sg_Rule dec) (sg_Message dec +:+ " (platform cannot enforce)") 0
        (sg_Fallback dec).

(** ** [registry.go] *)

Record PIDRegistry : Type := mkRegistry {
  supervisorPID : Z;
  supervisorUID : Z;
  parents : gmap Z Z;
  commands : gmap Z string;
  children : gmap Z (list Z);
  uids : gmap Z Z
}.

Definition NewPIDRegistry (supervisor : Z) : PIDRegistry := mkRegistry supervisor (-1) ∅ ∅ ∅ ∅.
Definition NewPIDRegistryWithUID (supervisor uid : Z) : PIDRegistry := mkRegistry supervisor uid ∅ ∅ ∅ ∅.

(** The value of a Go map at a key, its zero value when absent. *)
Definition get {A} (zero : A) (m : gmap Z A) (k : Z) : A := default zero (m !! k).

Definition Register (r : PIDRegistry) (pid parentPID : Z) (command : string) : PIDRegistry :=
  mkRegistry (supervisorPID r) (supervisorUID r)
    (<[pid := parentPID]> (parents r)) (<[pid := command]> (commands r))
    (<[parentPID := get [] (children r) parentPID ++ [pid]]> (children r))
    (if 0 <=? supervisorUID r then <[pid := supervisorUID r]> (uids r) else uids r).

Definition RegisterWithUID (r : PIDRegistry) (pid parentPID : Z) (command : string) (uid : Z)
  : PIDRegistry :=
  mkRegistry (supervisorPID r) (supervisorUID r)
    (<[pid := parentPID]> (parents r)) (<[pid := command]> (commands r))
    (<[parentPID := get [] (children r) parentPID ++ [pid]]> (children r))
    (<[pid := uid]> (uids r)).

Fixpoint remove_first (pid : Z) (l : list Z) : list Z :=
  match l with [] => [] | x :: l' => if x =? pid then l' else x :: remove_first pid l' end.

Definition Unregister (r : PIDRegistry) (pid : Z) : PIDRegistry :=
  let parentPID := get 0 (parents r) pid in
  mkRegistry (supervisorPID r) (supervisorUID r)
    (delete pid (parents r)) (delete pid (commands r))
    (delete pid (alter (remove_first pid) parentPID (children r)))
    (delete pid (uids r)).

Definition InSession (r : PIDRegistry) (pid : Z) : bool :=
  (pid =? supervisorPID r) || bool_decide (is_Some (parents r !! pid)).

(** [None]: still walking after this many turns. *)
Fixpoint isDescendantLocked (turns : nat) (ps : gmap Z Z) (ancestorPID pid : Z) : option bool :=
  match turns with
  | O => None
  | S turns' =>
    match ps !! pid with
    | None => Some false
    | Some parent => if parent =? ancestorPID then Some true
                     else isDescendantLocked turns' ps ancestorPID parent
    end
  end.

(** The user id of a process when it is known. *)
Definition known_uid (r : PIDRegistry) (pid : Z) : option Z :=
  match uids r !! pid with
  | Some u => Some u
  | None => if (pid =? supervisorPID r) && (0 <=? supervisorUID r) then Some (supervisorUID r) else None
  end.

Definition ClassifyTarget (turns : nat) (r : PIDRegistry) (sourcePID targetPID : Z)
  : option TargetContext :=
  let sameUser := match known_uid r sourcePID, known_uid r targetPID with
                  | Some a, Some b => a =? b
                  | _, _ => false
                  end in
  let ctx child desc sib par :=
    mkTargetContext sourcePID targetPID (get "" (commands r) targetPID) child desc sib par
      (InSession r targetPID) sameUser in
  let parent := get 0 (parents r) in
  if sourcePID =? targetPID then Some (ctx false false false false)
  else if targetPID =? supervisorPID r then Some (ctx false false false true)
  else if parent sourcePID =? targetPID then Some (ctx false false false true)
  else if parent targetPID =? sourcePID then Some (ctx true true false false)
  else
    desc ← isDescendantLocked turns (parents r) sourcePID targetPID;
    if desc : bool then Some (ctx false true false false)
    else if (parent sourcePID =? parent targetPID) && negb (parent sourcePID =? 0)
    then Some (ctx false false true false)
    else Some (ctx false false false false).

(** ** [handler.go] *)

Definition Evaluate_signal (turns : nat) (rules : list compiledSignalRule) (r : PIDRegistry)
  (sourcePID targetPID signal : Z) : option SignalDecision :=
  ctx ← ClassifyTarget turns r sourcePID targetPID;
  Some (signal_Check rules signal ctx).

Definition Handle_signal (canBlock : bool) (turns : nat) (rules : list compiledSignalRule)
  (r : PIDRegistry) (sourcePID targetPID signal : Z) : option SignalDecision :=
  dec ← Evaluate_signal turns rules r sourcePID targetPID signal;
  Some (ApplyFallback dec canBlock).

End Signals.
Export Signals.

(** ** Facts *)
Module SignalFacts.

(** The order of selectors. *)
Definition no_more_specific (a b : compiledSignalRule) : Prop :=
  signal_exact a < signal_exact b \/
  (signal_exact a = signal_exact b /\ signal_prefix a <= signal_prefix b).
Definition as_specific (a b : compiledSignalRule) : Prop :=
  signal_exact a = signal_exact b /\ signal_prefix a = signal_prefix b.

Section Check.
Context (signal : Z) (ctx : TargetContext).
Notation applies := (signal_applies signal ctx).

(** The loop keeps the decisions of the most specific rules that apply, in rule order. *)
Definition keeps (rules : list compiledSignalRule) (st : option best_signal) : Prop :=
  match st with
  | None => forall r, r ∈ rules -> applies r = false
  | Some b =>
    exists best, best ∈ rules /\ applies best = true /\
      b_exact b = signal_exact best /\ b_prefix b = signal_prefix best /\
      (forall r, r ∈ rules -> applies r = true -> no_more_specific r best) /\
      (forall r, r ∈ rules -> applies r = true -> as_specific r best -> signal_decision r ∈ b_top b) /\
      b_top b <> [] /\
      (forall d, d ∈ b_top b -> exists r, r ∈ rules /\ applies r = true /\ as_specific r best /\
                                          d = signal_decision r)
  end.

Lemma check_keeps rules : keeps rules (fold_left (check_step signal ctx) rules None).
Proof.
  induction rules as [|r rules IH] using rev_ind; [intros r Hr; by apply not_elem_of_nil in Hr|].
  rewrite fold_left_app. cbn [fold_left]. unfold check_step at 1.
  destruct (applies r) eqn:Er; cbn [negb].
  2: { destruct (fold_left _ _ _) as [b|]; cbn [keeps] in *.
       - destruct IH as (best & Hin & Ha & He & Hp & Hmax & Htop & Hne & Hfrom). exists best.
         split_and!; try done; [set_solver|..].
         + intros r' [H|H%list_elem_of_singleton]%elem_of_app; [auto|congruence].
         + intros r' [H|H%list_elem_of_singleton]%elem_of_app; [auto|congruence].
         + intros d Hd. destruct (Hfrom d Hd) as (r' & ? & ?). exists r'. set_solver.
       - intros r' [H|H%list_elem_of_singleton]%elem_of_app; [auto|congruence]. }
  assert (Hfresh : (forall r', r' ∈ rules -> applies r' = true -> no_more_specific r' r /\ ~ as_specific r' r) ->
            keeps (rules ++ [r]) (Some (mkBest (signal_exact r) (signal_prefix r) [signal_decision r]))).
  { intros Hlt. exists r. cbn. split_and!; try done; [set_solver|..].
    - intros r' [H| ->%list_elem_of_singleton]%elem_of_app Ha; [by apply Hlt|right; lia].
    - intros r' [H| ->%list_elem_of_singleton]%elem_of_app Ha Hs; [by destruct (Hlt r' H Ha)|by left].
    - intros d ->%list_elem_of_singleton. exists r. split_and!; [set_solver|done|by split|done]. }
  destruct (fold_left _ _ _) as [b|]; cbn [keeps] in IH.
  2: { apply Hfresh. intros r' H Ha. rewrite IH in Ha by done. done. }
  destruct IH as (best & Hin & Ha & He & Hp & Hmax & Htop & Hne & Hfrom). rewrite He, Hp.
  destruct (_ || _) eqn:E1.
  { apply Hfresh. intros r' H Har. specialize (Hmax r' H Har). unfold no_more_specific, as_specific in *.
    apply orb_true_iff in E1 as [E1|E1]; [|apply andb_true_iff in E1 as [? E1]]; lia. }
  apply orb_false_iff in E1 as [E1 E2].
  destruct ((signal_exact r =? signal_exact best) && (signal_prefix r =? signal_prefix best)) eqn:E3.
  - apply andb_true_iff in E3 as [E3 E4]. exists best. cbn. split_and!; try done; [set_solver|..].
    + intros r' [H| ->%list_elem_of_singleton]%elem_of_app Har; [auto|right; lia].
    + intros r' [H| ->%list_elem_of_singleton]%elem_of_app Har Hs; apply elem_of_app;
        [left; auto|right; by left].
    + by destruct (b_top b).
    + intros d [Hd| ->%list_elem_of_singleton]%elem_of_app.
      * destruct (Hfrom d Hd) as (r' & ? & ?). exists r'. set_solver.
      * exists r. split_and!; [set_solver|done|split; lia|done].
  - exists best. split_and!; try done; [set_solver|..].
    + intros r' [H| ->%list_elem_of_singleton]%elem_of_app Har; [auto|]. unfold no_more_specific.
      apply andb_false_iff in E2. lia.
    + intros r' [H| ->%list_elem_of_singleton]%elem_of_app Har [Hs1 Hs2]; [by apply Htop|].
      rewrite Hs1, Hs2, !Z.eqb_refl in E3. done.
    + intros d Hd. destruct (Hfrom d Hd) as (r' & ? & ?). exists r'. set_solver.
Qed.

End Check.

(** *** Parent links *)

Definition links (ps : gmap Z Z) (child parent : Z) : Prop := ps !! child = Some parent.

(** No process is its own ancestor. *)
Definition acyclic (ps : gmap Z Z) : Prop := forall pid, ~ tc (links ps) pid pid.

Lemma links_delete ps c x y : tc (links (delete c ps)) x y -> tc (links ps) x y.
Proof.
  assert (Hl : forall x y, links (delete c ps) x y -> links ps x y).
  { unfold links. intros a b H. by apply lookup_delete_Some in H as [_ H]. }
  induction 1 as [x y H|x y z H _ IH]; [by apply tc_once, Hl|eapply tc_l; [by apply Hl|done]].
Qed.

Lemma acyclic_delete c ps : acyclic ps -> acyclic (delete c ps).
Proof. intros H pid Hp. by apply (H pid), (links_delete ps c). Qed.

(** A walk that never meets [c] does not notice its removal. *)
Lemma walk_delete turns ps anc c x :
  x <> c -> ~ tc (links ps) x c ->
  isDescendantLocked turns (delete c ps) anc x = isDescendantLocked turns ps anc x.
Proof.
  revert x. induction turns as [|turns IH]; intros x Hx Hn; [done|]. cbn [isDescendantLocked].
  rewrite lookup_delete_ne by done. destruct (ps !! x) as [y|] eqn:Ey; [|done].
  destruct (y =? anc); [done|]. apply IH.
  - intros ->. by apply Hn, tc_once.
  - intros Hy. apply Hn. by eapply tc_l.
Qed.

(** One turn per entry, and one to see the end. *)
Lemma walk_ends turns ps anc x :
  acyclic ps -> (size ps < turns)%nat ->
  exists b, isDescendantLocked turns ps anc x = Some b /\ (b = true <-> tc (links ps) x anc).
Proof.
  revert ps x. induction turns as [|turns IH]; intros ps x Hac Hlt; [lia|]. cbn [isDescendantLocked].
  destruct (ps !! x) as [y|] eqn:Ey.
  2: { exists false. split; [done|]. split; [done|]. intros H.
       inversion H as [? ? Hl|? ? ? Hl]; subst; unfold links in Hl; congruence. }
  destruct (Z.eqb_spec y anc) as [->|Hne].
  { exists true. split; [done|]. split; [|done]. intros _. by apply tc_once. }
  assert (Hyx : y <> x) by (intros ->; by apply (Hac x), tc_once).
  assert (Hny : ~ tc (links ps) y x) by (intros H; apply (Hac x); by eapply tc_l).
  rewrite <- (walk_delete turns ps anc x y) by done.
  destruct (IH (delete x ps) y) as (b & -> & Hb).
  { by apply acyclic_delete. }
  { rewrite map_size_delete_Some by (by rewrite Ey). assert (size ps <> 0%nat); [|lia].
    intros H0. apply map_size_empty_iff in H0 as ->. by rewrite lookup_empty in Ey. }
  exists b. split; [done|]. rewrite Hb. split.
  - intros H. eapply tc_l; [exact Ey|by apply links_delete in H].
  - intros H. assert (Hy : tc (links ps) y anc).
    { inversion H as [? ? Hl|? z ? Hl Hz]; subst; unfold links in Hl; congruence. }
    clear - Hy Hyx Hny. revert Hyx Hny. induction Hy as [a b Hl|a b c Hl _ IH']; intros Hyx Hny.
    + apply tc_once. unfold links. by rewrite lookup_delete_ne.
    + assert (b <> x) by (intros ->; by apply Hny, tc_once).
      eapply tc_l; [unfold links; by rewrite lookup_delete_ne|].
      apply IH'; [done|]. intros Hb. apply Hny. by eapply tc_l.
Qed.

(** Adding a process that is not an ancestor of its parent. *)
Lemma acyclic_insert ps pid parent :
  acyclic ps -> pid <> parent -> ~ tc (links ps) parent pid -> acyclic (<[pid := parent]> ps).
Proof.
  intros Hac Hne Hn.
  assert (Hpath : forall x y, tc (links (<[pid := parent]> ps)) x y ->
            (x <> pid /\ tc (links ps) x y) \/
            ((x = pid \/ tc (links ps) x pid) /\ (y = parent \/ tc (links ps) parent y))).
  { induction 1 as [x y Hl|x y z Hl _ IH]; unfold links in Hl.
    - apply lookup_insert_Some in Hl as [[<- <-]|[Hx Hl]]; [by right; auto|].
      left. split; [done|by apply tc_once].
    - apply lookup_insert_Some in Hl as [[<- <-]|[Hx Hl]].
      + right. destruct IH as [[_ IH]|[_ IH]]; auto.
      + destruct IH as [[Hy IH]|[IH1 IH2]].
        * left. split; [done|]. by eapply tc_l.
        * right. split; [|done]. right. destruct IH1 as [->|IH1]; [by apply tc_once|by eapply tc_l]. }
  intros x Hx. destruct (Hpath x x Hx) as [[_ H]|[H1 H2]]; [by apply (Hac x)|].
  destruct H1 as [->|H1], H2 as [->|H2]; [done|done|done|]. apply Hn. by eapply tc_transitive.
Qed.

End SignalFacts.
Export SignalFacts.

(** ** Theorems *)
Module SignalTheorems.

(** A signal decision is the decision of a most specific applying rule: one that no applying
    rule beats, a deny among equally specific ones if there is one; without an applying rule the
    signal is denied. *)
Theorem signal_Check_most_specific rules signal ctx :
  let applying := List.filter (signal_applies signal ctx) rules in
  (applying = [] -> signal_Check rules signal ctx = no_matching_rule) /\
  (applying <> [] -> exists best, best ∈ applying /\
     signal_Check rules signal ctx = signal_decision best /\
     (forall r, r ∈ applying -> no_more_specific r best) /\
     (forall r, r ∈ applying -> as_specific r best -> s_Decision (cs_rule r) = DecisionDeny ->
        sg_Action (signal_Check rules signal ctx) = DecisionDeny)).
Proof.
  intros applying.
  assert (Happ : forall r, r ∈ applying <-> r ∈ rules /\ signal_applies signal ctx r = true).
  { intros r. unfold applying. by rewrite !list_elem_of_In, filter_In. }
  pose proof (check_keeps signal ctx rules) as Hk. unfold signal_Check.
  destruct (fold_left _ _ _) as [b|]; cbn [keeps] in Hk.
  2: { split; [done|]. intros Hne. destruct applying as [|r l]; [done|].
       destruct (proj1 (Happ r)) as [Hr Ha]; [by left|]. rewrite Hk in Ha by done. done. }
  destruct Hk as (best & Hin & Ha & _ & _ & Hmax & Htop & Hne & Hfrom).
  split.
  { intros Hnil. assert (Hb : best ∈ applying) by (by apply Happ). rewrite Hnil in Hb. by apply not_elem_of_nil in Hb. }
  intros _.
  assert (Hone : forall d, d ∈ b_top b ->
            exists r, r ∈ applying /\ d = signal_decision r /\ as_specific r best /\
                      forall r', r' ∈ applying -> no_more_specific r' r).
  { intros d Hd. destruct (Hfrom d Hd) as (r & Hr & Har & Hs & ->). exists r. split_and!; [by apply Happ|done|done|].
    intros r' [Hr' Har']%Happ. specialize (Hmax r' Hr' Har'). unfold no_more_specific, as_specific in *. lia. }
  destruct (List.find _ _) as [d|] eqn:Ef.
  - apply find_some in Ef as [Hd Hdeny]. apply list_elem_of_In in Hd. apply bool_decide_eq_true in Hdeny.
    destruct (Hone d Hd) as (r & Hr & -> & _ & Hrm). exists r. by split_and!.
  - destruct (b_top b) as [|d0 l] eqn:Et; [done|]. cbn [head default].
    destruct (Hone d0) as (r & Hr & -> & Hs & Hrm); [by left|]. exists r. split_and!; [done..|].
    intros r' [Hr' Har']%Happ Hs' Hd'. exfalso.
    assert (Hin' : signal_decision r' ∈ signal_decision r :: l).
    { apply Htop; [done..|]. unfold as_specific in *. lia. }
    apply list_elem_of_In in Hin'. apply (find_none _ _ Ef) in Hin'. cbn in Hin'. rewrite Hd' in Hin'. done.
Qed.

(** What a session does to its registry: a new process id is not a recorded ancestor of the
    process that starts it. *)
Inductive sessions (supervisor : Z) : PIDRegistry -> Prop :=
| sessions_new uid : sessions supervisor (NewPIDRegistryWithUID supervisor uid)
| sessions_register r pid parent command :
    sessions supervisor r -> pid <> parent -> ~ tc (links (parents r)) parent pid ->
    sessions supervisor (Register r pid parent command)
| sessions_register_uid r pid parent command uid :
    sessions supervisor r -> pid <> parent -> ~ tc (links (parents r)) parent pid ->
    sessions supervisor (RegisterWithUID r pid parent command uid)
| sessions_unregister r pid : sessions supervisor r -> sessions supervisor (Unregister r pid).

Lemma sessions_acyclic supervisor r : sessions supervisor r -> acyclic (parents r).
Proof.
  induction 1 as [uid|r pid parent command _ IH Hne Hn|r pid parent command uid _ IH Hne Hn|r pid _ IH];
    [|by apply acyclic_insert..|by apply acyclic_delete].
  intros pid H. inversion H as [? ? Hl|? ? ? Hl]; subst; unfold links in Hl; cbn in Hl; by rewrite lookup_empty in Hl.
Qed.

(** Classification of a signal's target ends on every registry of a session in which no new
    process id is a recorded ancestor of its parent: one turn per registered process is enough, and
    the target is a descendant exactly when parent links lead from it to the source. *)
Theorem ClassifyTarget_ends supervisor r source target :
  sessions supervisor r -> 0 < source ->
  exists ctx, ClassifyTarget (S (size (parents r))) r source target = Some ctx /\
    (tc_IsDescendant ctx = true <->
     tc (links (parents r)) target source /\ target <> source /\ target <> supervisorPID r /\
     get 0 (parents r) source <> target).
Proof.
  intros Hs Hpos. apply sessions_acyclic in Hs. unfold ClassifyTarget.
  destruct (Z.eqb_spec source target) as [->|Hst].
  { eexists. split; [done|]. cbn. split; [done|]. by intros (_ & ? & _). }
  destruct (Z.eqb_spec target (supervisorPID r)) as [->|Hsup].
  { eexists. split; [done|]. cbn. split; [done|]. by intros (_ & _ & ? & _). }
  destruct (Z.eqb_spec (get 0 (parents r) source) target) as [He|Hpar].
  { eexists. split; [done|]. cbn. split; [done|]. by intros (_ & _ & _ & ?). }
  destruct (walk_ends (S (size (parents r))) (parents r) source target Hs) as (b & Hw & Hb); [lia|].
  destruct (Z.eqb_spec (get 0 (parents r) target) source) as [Hc|Hc].
  { eexists. split; [done|]. cbn. split; [|done]. intros _. split_and!; try done.
    unfold get in Hc. destruct (parents r !! target) as [p|] eqn:Ep; cbn in Hc; [subst; by apply tc_once|].
    lia. }
  rewrite Hw. cbn [mbind option_bind]. destruct b.
  - eexists. split; [done|]. cbn. split; [|done]. intros _. split_and!; try done. by apply Hb.
  - destruct (_ && _); (eexists; split; [done|]; cbn; split; [done|]); intros (H & _); by apply Hb in H.
Qed.

(** A session with two generations of processes under the supervisor 1. *)
Definition sample_registry : PIDRegistry :=
  Register (Register (NewPIDRegistryWithUID 1 1000) 10 1 "agent") 11 10 "make".

Lemma sample_session : sessions 1 sample_registry.
Proof.
  apply sessions_register; [apply sessions_register; [apply sessions_new|done|]|done|].
  - intros H. inversion H as [? ? Hl|? ? ? Hl]; subst; unfold links in Hl; cbn in Hl; by rewrite lookup_empty in Hl.
  - assert (Hl : forall y, links (parents (Register (NewPIDRegistryWithUID 1 1000) 10 1 "agent")) 10 y -> y = 1).
    { intros y Hy. unfold links in Hy. cbn in Hy. rewrite lookup_insert_eq in Hy. congruence. }
    assert (H1 : forall y, ~ links (parents (Register (NewPIDRegistryWithUID 1 1000) 10 1 "agent")) 1 y).
    { intros y Hy. unfold links in Hy. cbn in Hy. rewrite lookup_insert_ne, lookup_empty in Hy; done. }
    intros H. inversion H as [? ? H10|? ? ? H10 Hr]; subst; apply Hl in H10; [done|subst].
    inversion Hr as [? ? Hx|? ? ? Hx]; subst; by apply H1 in Hx.
Qed.

Lemma ClassifyTarget_ends_witness :
  exists ctx, ClassifyTarget 3 sample_registry 1 11 = Some ctx /\ tc_IsDescendant ctx = true.
Proof.
  destruct (ClassifyTarget_ends 1 sample_registry 1 11 sample_session) as (ctx & Hc & _); [lia|].
  exists ctx. split; [exact Hc|]. vm_compute in Hc. injection Hc as <-. reflexivity.
Defined.

(** Process 10 exits while its child 11 lives on, and 11 starts a process that gets the id 10: the
    two are recorded as each other's parents, and the walk for a third process never ends. *)
Definition reused_registry : PIDRegistry :=
  Register (Unregister sample_registry 10) 10 11 "worker".

Example reused_pid_never_ends :
  forall turns, isDescendantLocked turns (parents reused_registry) 50 10 = None.
Proof.
  assert (H10 : parents reused_registry !! 10 = Some 11) by (vm_compute; reflexivity).
  assert (H11 : parents reused_registry !! 11 = Some 10) by (vm_compute; reflexivity).
  assert (Hboth : forall turns x, x = 10 \/ x = 11 ->
            isDescendantLocked turns (parents reused_registry) 50 x = None).
  { induction turns as [|turns IH]; intros x Hx; [done|]. cbn [isDescendantLocked].
    destruct Hx as [-> | ->]; rewrite ?H10, ?H11; cbn; apply IH; auto. }
  intros turns. apply Hboth. by left.
Qed.

End SignalTheorems.
