(* ===== verification/HttpService.v ===== *)
(** * HTTP services ([internal/policy/http_service*.go], [internal/proxy/secrets])

    Services an agent reaches through the gateway: validation and compilation of their
    declarations, the decision on a request, and the lookup of a host among the declared ones; with
    the secret references and fake-credential formats the validator parses.

    The two name patterns are regular expressions over character classes and are written as tests
    on bytes.  A Go map that is only looked up is a [gmap]. *)

From Stdlib Require Import ZArith Lia Ascii String.
From stdpp Require Import base list strings gmap.
From S2P Require Import Prelude GoText GoNet GoStrings PolicyModel.
Open Scope string_scope.
Open Scope list_scope.
Open Scope Z_scope.

(** ** [internal/proxy/secrets] *)
Module Secrets.

Inductive secret_error : Type :=
| ErrInvalidURI | ErrUnsupportedScheme | ErrInvalidFakeFormat | ErrFakeEntropyTooLow
| ErrFakeLengthMismatch.

Definition supportedSchemes : list string := ["vault"; "aws-sm"; "gcp-sm"; "azure-kv"; "op"; "keyring"].

Record SecretRef : Type := mkSecretRef {
  sr_Scheme : string;
  sr_Host : string;
  sr_Path : string;
  sr_Field : string
}.

Section ParseRef.
Context {U : UnicodeCase} `{L : Libraries}.

Definition ParseRef (uri : string) : result secret_error SecretRef :=
  if uri ==? "" then Err ErrInvalidURI
  else match url_Parse uri with
  | None => Err ErrInvalidURI
  | Some u =>
    if url_Scheme u ==? "" then Err ErrInvalidURI
    else if negb (existsb (String.eqb (url_Scheme u)) supportedSchemes) then Err ErrUnsupportedScheme
    else if url_Host u ==? "" then Err ErrInvalidURI
    else if (url_RawQuery u !=? "") || url_ForceQuery u then Err ErrInvalidURI
    else if url_HasUser u then Err ErrInvalidURI
    else if (url_RawPath u !=? "") && Contains (ToLower (url_RawPath u)) "%2f" then Err ErrInvalidURI
    else
      let trimmedPath := TrimPrefix (url_Path u) "/" in
      if HasPrefix trimmedPath "/" then Err ErrInvalidURI
      else Ok (mkSecretRef (url_Scheme u) (url_Host u) trimmedPath (url_Fragment u))
  end.

End ParseRef.

(** [strings.Index] and [strings.Count] (of disjoint occurrences) for a substring that does not
    overlap itself. *)
Fixpoint index_of (p l : list Z) : option nat :=
  if starts_with p l then Some O
  else match l with [] => None | _ :: l' => S <$> index_of p l' end.

Definition rand_open : string := "{rand:".
Definition minFakeEntropy : Z := 24.

Definition ParseFormat (format : string) : result secret_error (string * Z) :=
  let bs := string_bytes format in
  if format ==? "" then Err ErrInvalidFakeFormat
  else match index_of (string_bytes rand_open) bs with
  | None => Err ErrInvalidFakeFormat
  | Some idx =>
    let after := drop (idx + String.length rand_open) bs in
    if contains (string_bytes rand_open) after then Err ErrInvalidFakeFormat
    else if negb (HasSuffix format "}") then Err ErrInvalidFakeFormat
    else
      let inner := take (length after - 1) after in
      if negb (nonempty inner) then Err ErrInvalidFakeFormat
      else match Atoi (bytes_string inner) with
      | None => Err ErrInvalidFakeFormat
      | Some n =>
        if n <=? 0 then Err ErrInvalidFakeFormat
        else if n <? minFakeEntropy then Err ErrFakeEntropyTooLow
        else Ok (bytes_string (take idx bs), n)
      end
  end.

Definition base62 : list Z :=
  string_bytes "ABCDEFGHIJKLMNOPQRSTUVWXYZabcdefghijklmnopqrstuvwxyz0123456789".

(** [randBytes] is what [crypto/rand] returns, [randLen] bytes. *)
Definition GenerateFake (format : string) (realLen : Z) (randBytes : list Z)
  : result secret_error (list Z) :=
  '(prefix, randLen) <-? ParseFormat format ;
  if negb (Z.of_nat (String.length prefix) + randLen =? realLen) then Err ErrFakeLengthMismatch
  else Ok (string_bytes prefix ++ ((fun b => nth (Z.to_nat (b mod 62)) base62 0) <$> randBytes)).

End Secrets.
Export Secrets.

(** ** Declarations *)
Module HttpServices.

Record HTTPServiceRule : Type := mkHTTPRule {
  hr_Name : string;
  hr_Methods : list string;
  hr_Paths : list string;
  hr_Decision : string;
  hr_Message : string
}.

Record HTTPServiceSecret : Type := mkHTTPSecret { hs_Ref : string; hs_Format : string }.
Record HTTPServiceInjectHeader : Type := mkInjectHeader { ih_Name : string; ih_Template : string }.

Record HTTPService : Type := mkHTTPService {
  h_Name : string;
  h_Upstream : string;
  h_ExposeAs : string;
  h_Aliases : list string;
  h_AllowDirect : bool;
  h_Default : string;
  h_Rules : list HTTPServiceRule;
  h_Secret : option HTTPServiceSecret;
  h_Inject : option (option HTTPServiceInjectHeader);     (* the inject block and its header *)
  h_ScrubResponse : option bool
}.

Inductive herr : Type :=
| HNameRequired | HNamePattern | HDuplicateName | HInvalidUpstream | HUpstreamScheme
| HInvalidHost | HDuplicateHost | HInvalidAlias | HDuplicateAlias | HInvalidDefault
| HInvalidEnvVar | HReservedEnvVar | HDuplicateEnvVar
| HRuleDecision | HRuleNoPath | HRuleEmptyPath | HRulePathGlob | HRuleEmptyMethod
| HProviderType | HProviderDuplicate
| HNoSecretNoRules | HInjectWithoutSecret | HSecretRef (e : secret_error) | HNoProvider
| HFakeFormat (e : secret_error) | HInjectTemplate | HInjectName | HInjectHeader.

Definition is_alpha (b : Z) : bool := between 65 b 90 || between 97 b 122.
Definition is_num (b : Z) : bool := between 48 b 57.

(** [^[A-Za-z_][A-Za-z0-9_]*$]. *)
Definition envVarNameRe (s : string) : bool :=
  match string_bytes s with
  | [] => false
  | b :: r => (is_alpha b || (b =? 95)) && forallb (fun b => is_alpha b || is_num b || (b =? 95)) r
  end.

(** [^[A-Za-z0-9._-]+$]. *)
Definition httpServiceNameRe (s : string) : bool :=
  nonempty (string_bytes s) &&
  forallb (fun b => is_alpha b || is_num b || (b =? 46) || (b =? 95) || (b =? 45)) (string_bytes s).

Definition reservedEnvVarNames : list string :=
  ["ANTHROPIC_BASE_URL"; "OPENAI_BASE_URL"; "AEP_CAW_SESSION_ID"].

Definition knownProviderTypes : list string :=
  ["keyring"; "vault"; "aws-sm"; "gcp-sm"; "azure-kv"; "op"].

Section Services.
Context {U : UnicodeCase} `{L : Libraries}.

(** [netip.ParseAddr] on a bracketed literal succeeds with an IPv6 address: a zone, if any, is not
    empty. *)
Definition is_ipv6_literal (inner : list Z) : bool :=
  let addr := match index_byte ch_percent inner with
              | Some i => if nonempty (drop (S i) inner) then Some (take i inner) else None
              | None => Some inner
              end in
  match addr with
  | None => false
  | Some a =>
    match List.find (fun b => (b =? ch_dot) || (b =? ch_colon) || (b =? ch_percent)) inner with
    | Some b => if b =? ch_colon then bool_decide (is_Some (parseIPv6 a)) else false
    | None => false
    end
  end.

Definition canonicalizeHost (s : string) : option string :=
  let bs := TrimSpace (string_bytes s) in
  match bs with
  | [] => None
  | b :: _ =>
    if b =? ch_lbrack then
      match index_byte ch_rbrack bs with
      | None => None
      | Some e =>
        let inner := take (e - 1) (drop 1 bs) in
        let rest := drop (S e) bs in
        if nonempty rest && negb (starts_with [ch_colon] rest) then None
        else if negb (is_ipv6_literal inner) then None
        else Some (ToLower (bytes_string inner))
      end
    else if (2 <=? count_byte ch_colon bs)%nat then None
    else
      let host := match last_index_byte ch_colon bs with Some i => take i bs | None => bs end in
      let h := TrimSuffix (ToLower (bytes_string host)) "." in
      if h ==? "" then None else Some h
  end.

(** ** Validation *)

Definition validateHTTPServiceRule (r : HTTPServiceRule) : result herr unit :=
  if negb (existsb (String.eqb (hr_Decision r)) ["allow"; "deny"; "approve"; "audit"]) then Err HRuleDecision
  else if negb (nonempty (hr_Paths r)) then Err HRuleNoPath
  else
    _ <-? each (fun pat => if TrimSpace_string pat ==? "" then Err HRuleEmptyPath
                           else match glob_Compile pat [ch_slash] with
                                | None => Err HRulePathGlob
                                | Some _ => Ok tt
                                end) (hr_Paths r) ;
    _ <-? each (fun m => if TrimSpace_string m ==? "" then Err HRuleEmptyMethod else Ok tt)
            (hr_Methods r) ;
    Ok tt.

(** The three maps of the validator: names, hosts and environment variables seen so far. *)
Record seen : Type := mkSeen {
  nameSeen : gset string;
  hostSeen : gmap string string;
  envVarSeen : gmap string string
}.

Definition derived_env (s : HTTPService) : string :=
  if h_ExposeAs s ==? "" then ToUpper (h_Name s) +:+ "_API_URL" else h_ExposeAs s.

Fixpoint claim_aliases (owner : string) (hosts : gmap string string) (aliases : list string)
  : result herr (gmap string string) :=
  match aliases with
  | [] => Ok hosts
  | alias :: rest =>
    match canonicalizeHost alias with
    | None => Err HInvalidAlias
    | Some a => match hosts !! a with
                | Some _ => Err HDuplicateAlias
                | None => claim_aliases owner (<[a := owner]> hosts) rest
                end
    end
  end.

(** [insecureOk] is the relaxation for tests; it is false in the program. *)
Definition validate_service (insecureOk : bool) (st : seen) (s : HTTPService) : result herr seen :=
  if TrimSpace_string (h_Name s) ==? "" then Err HNameRequired
  else if negb (httpServiceNameRe (h_Name s)) then Err HNamePattern
  else if bool_decide (ToLower (h_Name s) ∈ nameSeen st) then Err HDuplicateName
  else match url_Parse (h_Upstream s) with
  | None => Err HInvalidUpstream
  | Some u =>
    if url_Host u ==? "" then Err HInvalidUpstream
    else if (url_Scheme u !=? "https") && negb (insecureOk && (url_Scheme u ==? "http"))
    then Err HUpstreamScheme
    else match canonicalizeHost (url_Host u) with
    | None => Err HInvalidHost
    | Some host =>
      match hostSeen st !! host with
      | Some _ => Err HDuplicateHost
      | None =>
        hosts <-? claim_aliases (h_Name s) (<[host := h_Name s]> (hostSeen st)) (h_Aliases s) ;
        if negb (existsb (String.eqb (h_Default s)) [""; "allow"; "deny"]) then Err HInvalidDefault
        else
          let exposeAs := derived_env s in
          if negb (envVarNameRe exposeAs) then Err HInvalidEnvVar
          else
            let key := ToUpper exposeAs in
            if existsb (String.eqb key) reservedEnvVarNames then Err HReservedEnvVar
            else match envVarSeen st !! key with
            | Some _ => Err HDuplicateEnvVar
            | None =>
              _ <-? each validateHTTPServiceRule (h_Rules s) ;
              Ok (mkSeen ({[ToLower (h_Name s)]} ∪ nameSeen st) hosts
                    (<[key := h_Name s]> (envVarSeen st)))
            end
      end
    end
  end.

Fixpoint validate_services (insecureOk : bool) (st : seen) (svcs : list HTTPService)
  : result herr seen :=
  match svcs with
  | [] => Ok st
  | s :: rest => st' <-? validate_service insecureOk st s ; validate_services insecureOk st' rest
  end.

Definition ValidateHTTPServices (svcs : list HTTPService) : result herr unit :=
  _ <-? validate_services false (mkSeen ∅ ∅ ∅) svcs ; Ok tt.

(** A provider is its name and the decoded type, if it decodes; the map is ranged over in some
    order. *)
Fixpoint provider_schemes (acc : list string) (providers : list (string * option string))
  : result herr (list string) :=
  match providers with
  | [] => Ok acc
  | (_, ty) :: rest =>
    match ty with
    | None => Err HProviderType
    | Some t =>
      if (t ==? "") || negb (existsb (String.eqb t) knownProviderTypes) then Err HProviderType
      else if existsb (String.eqb t) acc then Err HProviderDuplicate
      else provider_schemes (acc ++ [t]) rest
    end
  end.

Definition validate_credentials (schemes : list string) (s : HTTPService) : result herr unit :=
  match h_Secret s with
  | None => if negb (nonempty (h_Rules s)) then Err HNoSecretNoRules
            else match h_Inject s with Some _ => Err HInjectWithoutSecret | None => Ok tt end
  | Some secret =>
    ref <-? map_err HSecretRef (ParseRef (hs_Ref secret)) ;
    if negb (existsb (String.eqb (sr_Scheme ref)) schemes) then Err HNoProvider
    else
      _ <-? map_err HFakeFormat (ParseFormat (hs_Format secret)) ;
      match h_Inject s with
      | None => Ok tt
      | Some None => Err HInjectHeader
      | Some (Some hd) =>
        if negb (Contains (ih_Template hd) "{{secret}}") then Err HInjectTemplate
        else if TrimSpace_string (ih_Name hd) ==? "" then Err HInjectName
        else Ok tt
      end
  end.

Definition ValidateHTTPServicesWithProviders (svcs : list HTTPService)
  (providers : list (string * option string)) : result herr unit :=
  _ <-? ValidateHTTPServices svcs ;
  schemes <-? provider_schemes [] providers ;
  _ <-? each (validate_credentials schemes) svcs ;
  Ok tt.

(** ** Compilation *)

Record compiledHTTPServiceRule : Type := mkCompiledHTTPRule {
  chr_rule : HTTPServiceRule;
  chr_methods : gset string;
  chr_paths : list Glob
}.

Record compiledHTTPService : Type := mkCompiledHTTPService {
  chs_cfg : HTTPService;
  chs_rules : list compiledHTTPServiceRule;
  chs_envVar : string;
  chs_defaultDecision : string;
  chs_upstreamHost : string
}.

Definition default_decision (s : HTTPService) : string :=
  if h_Default s ==? "" then
    if negb (nonempty (h_Rules s)) && bool_decide (is_Some (h_Secret s)) then "allow" else "deny"
  else h_Default s.

Definition compile_http_rule (r : HTTPServiceRule) : result herr compiledHTTPServiceRule :=
  globs <-? each (fun pat => of_option HRulePathGlob (glob_Compile pat [ch_slash])) (hr_Paths r) ;
  Ok (mkCompiledHTTPRule r (list_to_set ((fun m => ToUpper (TrimSpace_string m)) <$> hr_Methods r)) globs).

Notation service_map := (gmap string compiledHTTPService).

Fixpoint map_aliases (cs : compiledHTTPService) (byHost : service_map) (aliases : list string)
  : result herr service_map :=
  match aliases with
  | [] => Ok byHost
  | alias :: rest =>
    match canonicalizeHost alias with
    | None => Err HInvalidAlias
    | Some a => match byHost !! a with
                | Some _ => Err HDuplicateAlias
                | None => map_aliases cs (<[a := cs]> byHost) rest
                end
    end
  end.

Definition compile_service (maps : service_map * service_map) (s : HTTPService)
  : result herr (service_map * service_map) :=
  let '(byName, byHost) := maps in
  match url_Parse (h_Upstream s) with
  | None => Err HInvalidUpstream
  | Some u =>
    match canonicalizeHost (url_Host u) with
    | None => Err HInvalidHost
    | Some host =>
      rules <-? each compile_http_rule (h_Rules s) ;
      let cs := mkCompiledHTTPService s rules (derived_env s) (default_decision s) host in
      match byName !! ToLower (h_Name s) with
      | Some _ => Err HDuplicateName
      | None =>
        match byHost !! host with
        | Some _ => Err HDuplicateHost
        | None =>
          byHost' <-? map_aliases cs (<[host := cs]> byHost) (h_Aliases s) ;
          Ok (<[ToLower (h_Name s) := cs]> byName, byHost')
        end
      end
    end
  end.

Fixpoint compile_services (maps : service_map * service_map) (svcs : list HTTPService)
  : result herr (service_map * service_map) :=
  match svcs with
  | [] => Ok maps
  | s :: rest => maps' <-? compile_service maps s ; compile_services maps' rest
  end.

(** Services by lower-case name and by canonical host. *)
Definition compileHTTPServices (svcs : list HTTPService) : result herr (service_map * service_map) :=
  compile_services (∅, ∅) svcs.

(** ** Requests *)

Record globScore : Type := mkScore { g_literal : Z; g_wild : Z; g_prefix : Z; g_segs : Z }.

Definition score_byte (s : globScore) (b : Z) : globScore :=
  if has_byte b [42; 63; 91; 123] then mkScore (g_literal s) (g_wild s + 1) (g_prefix s) (g_segs s)
  else if b =? ch_slash then mkScore (g_literal s) (g_wild s) (g_prefix s) (g_segs s + 1)
  else mkScore (g_literal s + 1) (g_wild s) (g_prefix s) (g_segs s).

Definition scoreGlob (pat : string) : globScore :=
  if pat ==? "" then mkScore 0 0 0 0 else fold_left score_byte (string_bytes pat) (mkScore 0 0 0 1).

Definition score_less (a b : globScore) : bool :=
  if g_prefix a <? g_prefix b then true
  else if g_prefix b <? g_prefix a then false
  else if g_wild b <? g_wild a then true
  else if g_wild a <? g_wild b then false
  else if g_literal a <? g_literal b then true
  else if g_literal b <? g_literal a then false
  else g_segs a <? g_segs b.

Record scoredHit : Type := mkHit { hit_dec : Decision; hit_spec : globScore }.

Fixpoint most_specific (best : scoredHit) (hits : list scoredHit) : scoredHit :=
  match hits with
  | [] => best
  | h :: rest => most_specific (if score_less (hit_spec best) (hit_spec h) then h else best) rest
  end.

Definition pickMostSpecific (hits : list scoredHit) (fallback : Decision) : Decision :=
  match hits with [] => fallback | h :: rest => hit_dec (most_specific h rest) end.

Definition methodMatchesHTTPRule (r : compiledHTTPServiceRule) (method : string) : bool :=
  bool_decide (chr_methods r = ∅) || bool_decide ("*" ∈ chr_methods r) ||
  bool_decide (method ∈ chr_methods r).

(** A rule that names its methods is more specific. *)
Definition rule_score (r : compiledHTTPServiceRule) (pat : string) : globScore :=
  let s := scoreGlob pat in
  if negb (bool_decide (chr_methods r = ∅)) && negb (bool_decide ("*" ∈ chr_methods r))
  then mkScore (g_literal s) (g_wild s) (g_prefix s + 1) (g_segs s) else s.

(** A path that is not in canonical form: an empty, [.] or [..] segment inside. *)
Definition traverses (reqPath : string) : bool :=
  Contains reqPath "//" ||
  existsb (fun seg => bool_decide (seg = dot) || bool_decide (seg = dotdot))
    (split_byte ch_slash (string_bytes (TrimPrefix reqPath "/"))).

Definition match_path (reqPath : string) : string :=
  if (1 <? String.length reqPath)%nat && HasSuffix reqPath "/" then TrimSuffix reqPath "/" else reqPath.

Section Check.
Context (fl : Flags).

(** The globs of a rule paired with their patterns, matched against the path. *)
Definition rule_hits (path : string) (method : string) (r : compiledHTTPServiceRule) : list scoredHit :=
  if negb (methodMatchesHTTPRule r method) then []
  else omap (fun p : nat * Glob =>
               let '(i, g) := p in
               if negb (g path) then None
               else Some (mkHit (wrapDecision fl (hr_Decision (chr_rule r)) (hr_Name (chr_rule r))
                                   (hr_Message (chr_rule r)) None)
                            (rule_score r (default path (hr_Paths (chr_rule r) !! i)))))
         (zip (seq 0 (length (chr_paths r))) (chr_paths r)).

Definition CheckHTTPService (byName : service_map) (service method reqPath : string) : Decision :=
  match byName !! ToLower service with
  | None => wrapDecision fl "deny" "" "unknown http_service" None
  | Some cs =>
    let reqPath := if reqPath ==? "" then "/" else reqPath in
    if traverses reqPath then wrapDecision fl "deny" "" "path traversal rejected" None
    else
      let hits := concat (rule_hits (match_path reqPath) (ToUpper method) <$> chs_rules cs) in
      let fallback := if chs_defaultDecision cs ==? "allow"
                      then wrapDecision fl "allow" "default" "" None
                      else wrapDecision fl "deny" "default" "no rule matched" None in
      pickMostSpecific hits fallback
  end.

End Check.

(** ** Hosts *)

(** A bare IPv6 literal gets its brackets back. *)
Definition rewrap_host (host : string) : string :=
  if negb (HasPrefix host "[") && (2 <=? count_byte ch_colon (string_bytes host))%nat
  then "[" +:+ host +:+ "]" else host.

Definition find_host (byHost : service_map) (host : string) : option compiledHTTPService :=
  h ← canonicalizeHost (rewrap_host host); byHost !! h.

Definition DeclaredHTTPServiceHost (byHost : service_map) (host : string) : option (string * string) :=
  cs ← find_host byHost host; Some (h_Name (chs_cfg cs), chs_envVar cs).

Definition DeclaredHTTPServiceAllowsDirect (byHost : service_map) (host : string) : bool :=
  match find_host byHost host with Some cs => h_AllowDirect (chs_cfg cs) | None => false end.

End Services.

Notation service_map := (gmap string compiledHTTPService).

End HttpServices.
Export HttpServices.
