(* ===== verification/HttpServiceTheorems.v ===== *)
(** * Theorems on HTTP services

    Validation is enough for compilation, which gives every declared host to exactly one service;
    the decision on a request is specified on the declarations and the compiled check refines it. *)

From Stdlib Require Import ZArith Lia Ascii String.
From stdpp Require Import base list strings gmap.
From S2P Require Import Prelude GoText GoNet GoStrings PolicyModel HttpService.
Open Scope string_scope.
Open Scope list_scope.
Open Scope Z_scope.

Module HttpFacts.
Section HttpFacts.
Context {U : UnicodeCase} `{L : Libraries}.

(** ** Scores are ordered lexicographically *)

Lemma score_less_trans_ge a b c :
  score_less a b = false -> score_less b c = false -> score_less a c = false.
Proof using.
  unfold score_less.
  repeat match goal with |- context [?x <? ?y] => destruct (Z.ltb_spec x y) end; try done; lia.
Qed.

Lemma score_less_irrefl a : score_less a a = false.
Proof using. unfold score_less. by rewrite !Z.ltb_irrefl. Qed.

Lemma score_less_asym a b : score_less a b = true -> score_less b a = false.
Proof using.
  unfold score_less.
  repeat match goal with |- context [?x <? ?y] => destruct (Z.ltb_spec x y) end; try done; lia.
Qed.

Lemma most_specific_best best hits :
  most_specific best hits ∈ best :: hits /\
  (forall h, h ∈ best :: hits -> score_less (hit_spec (most_specific best hits)) (hit_spec h) = false).
Proof using.
  revert best. induction hits as [|x hits IH]; intros best; cbn [most_specific].
  - split; [set_solver|]. intros h ->%list_elem_of_singleton. apply score_less_irrefl.
  - destruct (score_less (hit_spec best) (hit_spec x)) eqn:E.
    + destruct (IH x) as [Hin Hmax]. split; [set_solver|].
      intros h [->|Hh]%elem_of_cons; [|auto]. eapply score_less_trans_ge; [apply Hmax; left|].
      by apply score_less_asym.
    + destruct (IH best) as [Hin Hmax]. split; [set_solver|].
      intros h [->|[->|Hh]%elem_of_cons]%elem_of_cons; [apply Hmax; left| |apply Hmax; by right].
      eapply score_less_trans_ge; [apply Hmax; left|done].
Qed.

(** The pick is the first of those that nothing beats. *)
Lemma most_specific_first best hits :
  exists l1 l2, best :: hits = l1 ++ most_specific best hits :: l2 /\
    Forall (fun h => score_less (hit_spec h) (hit_spec (most_specific best hits)) = true) l1 /\
    Forall (fun h => score_less (hit_spec (most_specific best hits)) (hit_spec h) = false) l2.
Proof using.
  revert best. induction hits as [|x hits IH]; intros best; cbn [most_specific]; [by exists [], []|].
  destruct (score_less (hit_spec best) (hit_spec x)) eqn:E.
  - destruct (IH x) as (l1 & l2 & Heq & H1 & H2). exists (best :: l1), l2. rewrite Heq. split; [done|]. split; [|done]. constructor; [|done].
    destruct (most_specific_best x hits) as [_ Hmax]. specialize (Hmax x (list_elem_of_here _ _)).
    apply not_false_iff_true. intros Hn. pose proof (score_less_trans_ge _ _ _ Hn Hmax). congruence.
  - destruct (IH best) as (l1 & l2 & Heq & H1 & H2). remember (most_specific best hits) as w eqn:Ew. clear Ew.
    destruct l1 as [|b l1]; cbn [app] in Heq; injection Heq as Hb Hl; subst.
    + exists [], (x :: l2). split; [done|]. split; [done|]. by constructor.
    + exists (b :: x :: l1), l2. split; [done|]. split; [|done]. apply Forall_cons in H1 as [Hb1 H1].
      constructor; [done|]. constructor; [|done].
      apply not_false_iff_true. intros Hn. pose proof (score_less_trans_ge _ _ _ E Hn). congruence.
Qed.

(** ** Compilation follows validation *)

(** The hosts a service claims: its upstream and its aliases, in canonical form. *)
Definition claims_host (s : HTTPService) (host : string) : Prop :=
  (exists u, url_Parse (h_Upstream s) = Some u /\ canonicalizeHost (url_Host u) = Some host) \/
  (exists alias, alias ∈ h_Aliases s /\ canonicalizeHost alias = Some host).

Lemma claim_aliases_maps owner cs aliases : forall hosts hosts' (byHost : service_map),
  claim_aliases owner hosts aliases = Ok hosts' -> dom byHost = dom hosts ->
  exists byHost', map_aliases cs byHost aliases = Ok byHost' /\ dom byHost' = dom hosts'.
Proof using.
  induction aliases as [|alias aliases IH]; cbn [claim_aliases map_aliases]; intros hosts hosts' byHost H Hd.
  { injection H as <-. by exists byHost. }
  destruct (canonicalizeHost alias) as [a|] eqn:Ea; [|done].
  destruct (hosts !! a) eqn:Eh; [done|].
  assert (Eb : byHost !! a = None).
  { apply not_elem_of_dom. rewrite Hd. by apply not_elem_of_dom. }
  rewrite Eb. eapply IH; [done|]. by rewrite !dom_insert_L, Hd.
Qed.

Lemma map_aliases_owner cs aliases : forall byHost byHost' : service_map,
  map_aliases cs byHost aliases = Ok byHost' ->
  byHost ⊆ byHost' /\
  Forall (fun a => forall h, canonicalizeHost a = Some h -> byHost' !! h = Some cs) aliases.
Proof using.
  induction aliases as [|alias aliases IH]; cbn [map_aliases]; intros byHost byHost' H.
  { injection H as <-. split; [done|constructor]. }
  destruct (canonicalizeHost alias) as [a|] eqn:Ea; [|done].
  destruct (byHost !! a) eqn:Eh; [done|]. destruct (IH _ _ H) as [Hsub Hal]. split.
  - etrans; [by apply insert_subseteq|done].
  - constructor; [|done]. intros h Hh. rewrite Ea in Hh. injection Hh as <-.
    eapply lookup_weaken; [apply lookup_insert_eq|done].
Qed.

Lemma validated_rule_compiles r :
  validateHTTPServiceRule r = Ok tt -> exists cr, compile_http_rule r = Ok cr.
Proof using.
  unfold validateHTTPServiceRule, compile_http_rule.
  destruct (negb (existsb _ _)); [done|]. destruct (negb (nonempty _)); [done|]. intros H.
  result_steps H. clear Hstep0. destruct (each (fun pat => of_option _ _) (hr_Paths r)) as [gs|e] eqn:Eg; cbn; [eauto|].
  apply each_Err in Eg as (pat & Hin & Hg). apply each_Ok in Hstep.
  apply list_elem_of_lookup in Hin as [i Hi]. destruct (Forall2_lookup_l _ _ _ _ _ Hstep Hi) as (y & _ & Hy).
  cbn in Hy. destruct (TrimSpace_string pat ==? ""); [done|].
  by destruct (glob_Compile pat [ch_slash]).
Qed.

Lemma http_rules_compile rs us :
  each validateHTTPServiceRule rs = Ok us -> exists crs, each compile_http_rule rs = Ok crs.
Proof using.
  intros H. destruct (each compile_http_rule rs) as [crs|e] eqn:Ec; [eauto|].
  apply each_Err in Ec as (r & [i Hi]%list_elem_of_lookup & Hr).
  apply each_Ok in H. destruct (Forall2_lookup_l _ _ _ _ _ H Hi) as ([] & _ & Hy).
  apply validated_rule_compiles in Hy as [cr Hcr]. congruence.
Qed.

(** What the validator has recorded is what the compiler has filled in. *)
Definition in_step (st : seen) (maps : service_map * service_map) : Prop :=
  dom maps.1 = nameSeen st /\ dom maps.2 = dom (hostSeen st).

(** Each service is found under its name, and each host it claims leads to it. *)
Definition serves (maps : service_map * service_map) (s : HTTPService) : Prop :=
  exists cs, chs_cfg cs = s /\ maps.1 !! ToLower (h_Name s) = Some cs /\
    each compile_http_rule (h_Rules s) = Ok (chs_rules cs) /\
    chs_defaultDecision cs = default_decision s /\
    chs_envVar cs = derived_env s /\
    forall h, claims_host s h -> maps.2 !! h = Some cs.

Lemma compile_service_serves maps maps' s :
  compile_service maps s = Ok maps' -> serves maps' s /\ maps.1 ⊆ maps'.1 /\ maps.2 ⊆ maps'.2.
Proof using.
  destruct maps as [byName byHost]. unfold compile_service. cbn [fst snd].
  destruct (url_Parse (h_Upstream s)) as [u|] eqn:Eu; [|done].
  destruct (canonicalizeHost (url_Host u)) as [host|] eqn:Eh; [|done].
  intros H. apply rbind_Ok in H as (crs & Hcrs & H). cbn zeta in H.
  set (cs := mkCompiledHTTPService _ _ _ _ _) in H.
  destruct (byName !! ToLower (h_Name s)) eqn:En; [done|]. destruct (byHost !! host) eqn:Eb; [done|].
  apply rbind_Ok in H as (byHost' & Hm & H). injection H as <-. cbn [fst snd].
  apply map_aliases_owner in Hm as [Hsub Hals].
  split_and!; [|by apply insert_subseteq|etrans; [by apply insert_subseteq|done]].
  exists cs. split_and!; [done|cbn; by rewrite lookup_insert_eq|done..|].
  cbn [snd]. intros h [(u' & Hu' & Hc)|(alias & Hin & Hc)].
  - rewrite Eu in Hu'. injection Hu' as <-. rewrite Eh in Hc. injection Hc as <-.
    eapply lookup_weaken; [apply lookup_insert_eq|done].
  - rewrite Forall_forall in Hals. by eapply Hals.
Qed.

Lemma compile_services_serve svcs : forall maps maps',
  compile_services maps svcs = Ok maps' ->
  Forall (serves maps') svcs /\ maps.1 ⊆ maps'.1 /\ maps.2 ⊆ maps'.2.
Proof using.
  induction svcs as [|s svcs IH]; cbn [compile_services]; intros maps maps' H.
  { injection H as <-. split_and!; [constructor|done..]. }
  apply rbind_Ok in H as (m1 & (Hs & Hs1 & Hs2)%compile_service_serves & (Hall & Ht1 & Ht2)%IH).
  split_and!; [constructor; [|done]|by etrans|by etrans].
  destruct Hs as (cs & ? & Hn & ? & ? & ? & Hh). exists cs. split_and!; [done| |done..|].
  - by eapply lookup_weaken.
  - intros h Hc. eapply lookup_weaken; [by apply Hh|done].
Qed.

Lemma validated_service_compiles b st st' s maps :
  validate_service b st s = Ok st' -> in_step st maps ->
  exists maps', compile_service maps s = Ok maps' /\ in_step st' maps'.
Proof using.
  destruct maps as [byName byHost]. unfold validate_service, in_step. cbn [fst snd].
  intros H [Hn Hh].
  destruct (TrimSpace_string (h_Name s) ==? ""); [done|].
  destruct (negb (httpServiceNameRe (h_Name s))); [done|].
  case_bool_decide as Hname; [done|].
  destruct (url_Parse (h_Upstream s)) as [u|] eqn:Eu; [|done].
  destruct (url_Host u ==? ""); [done|]. destruct (_ && _); [done|].
  destruct (canonicalizeHost (url_Host u)) as [host|] eqn:Eh; [|done].
  destruct (hostSeen st !! host) eqn:Es; [done|].
  apply rbind_Ok in H as (hosts & Hal & H).
  destruct (negb (existsb _ _)); [done|]. destruct (negb (envVarNameRe _)); [done|].
  destruct (existsb _ _); [done|]. destruct (envVarSeen st !! _); [done|].
  apply rbind_Ok in H as (us & Hr & H). injection H as <-.
  apply http_rules_compile in Hr as [crs Hcrs].
  set (cs := mkCompiledHTTPService s crs (derived_env s) (default_decision s) host).
  assert (Eb : byHost !! host = None).
  { apply not_elem_of_dom. rewrite Hh. by apply not_elem_of_dom. }
  assert (En : byName !! ToLower (h_Name s) = None).
  { apply not_elem_of_dom. by rewrite Hn. }
  destruct (claim_aliases_maps _ cs _ _ _ (<[host:=cs]> byHost) Hal) as (byHost' & Hm & Hd).
  { by rewrite !dom_insert_L, Hh. }
  exists (<[ToLower (h_Name s) := cs]> byName, byHost').
  unfold compile_service. rewrite Eu, Eh, Hcrs. cbn [rbind]. fold cs. rewrite En, Eb, Hm. cbn [rbind].
  split_and!; [done|cbn [fst snd nameSeen]; by rewrite dom_insert_L, Hn|done].
Qed.

Lemma validated_services_step b svcs : forall st st' maps,
  validate_services b st svcs = Ok st' -> in_step st maps ->
  exists maps', compile_services maps svcs = Ok maps'.
Proof using.
  induction svcs as [|s svcs IH]; cbn [validate_services compile_services]; intros st st' maps H Hin; [eauto|].
  apply rbind_Ok in H as (st1 & H1 & H).
  destruct (validated_service_compiles _ _ _ _ _ H1 Hin) as (m1 & -> & Hin1). cbn [rbind]. eauto.
Qed.

(** ** Hits on the declarations *)

(** The rule is for the method, and the pattern matches the path. *)
Definition for_method (method : string) (r : HTTPServiceRule) : bool :=
  negb (nonempty (hr_Methods r)) ||
  existsb (fun m => (ToUpper (TrimSpace_string m) ==? "*") || (ToUpper (TrimSpace_string m) ==? method)) (hr_Methods r).

Definition for_path (path pat : string) : bool :=
  match glob_Compile pat [ch_slash] with Some g => g path | None => false end.

(** The rules of a service that apply to a request, each through one of its patterns, as declared. *)
Definition matches_of (s : HTTPService) (method path : string) : list (HTTPServiceRule * string) :=
  concat ((fun r => if for_method method r then (fun pat => (r, pat)) <$> List.filter (for_path path) (hr_Paths r) else []) <$> h_Rules s).

(** The rank of a pattern: fewer wildcards first, then more literal bytes, then more segments; a
    rule that names its methods goes before all that do not. *)
Definition decl_score (r : HTTPServiceRule) (pat : string) : globScore :=
  let s := scoreGlob pat in
  if nonempty (hr_Methods r) && negb (bool_decide ("*" ∈ (fun m => ToUpper (TrimSpace_string m)) <$> hr_Methods r))
  then mkScore (g_literal s) (g_wild s) (g_prefix s + 1) (g_segs s) else s.

Lemma compile_http_rule_Ok r cr :
  compile_http_rule r = Ok cr ->
  chr_rule cr = r /\ chr_methods cr = list_to_set ((fun m => ToUpper (TrimSpace_string m)) <$> hr_Methods r) /\
  Forall2 (fun pat g => glob_Compile pat [ch_slash] = Some g) (hr_Paths r) (chr_paths cr).
Proof using.
  unfold compile_http_rule. intros H. apply rbind_Ok in H as (gs & Hg & H). injection H as <-. cbn.
  split_and!; [done..|]. apply each_Ok in Hg. eapply Forall2_impl; [done|]. cbn. intros pat g. apply of_option_Ok.
Qed.

Lemma methods_empty r cr :
  compile_http_rule r = Ok cr -> bool_decide (chr_methods cr = ∅) = negb (nonempty (hr_Methods r)).
Proof using.
  intros (_ & -> & _)%compile_http_rule_Ok. destruct (hr_Methods r) as [|m ms]; [by rewrite bool_decide_eq_true_2|].
  rewrite bool_decide_eq_false_2; [done|]. rewrite fmap_cons. cbn [list_to_set]. set_solver.
Qed.

Lemma rule_score_decl r cr pat : compile_http_rule r = Ok cr -> rule_score cr pat = decl_score r pat.
Proof using.
  intros Hc. unfold rule_score, decl_score. rewrite (methods_empty r cr Hc), negb_involutive.
  apply compile_http_rule_Ok in Hc as (_ & -> & _). erewrite (bool_decide_ext (_ ∈ list_to_set _)); [done|].
  apply elem_of_list_to_set.
Qed.

Lemma methodMatches_decl r cr method :
  compile_http_rule r = Ok cr -> methodMatchesHTTPRule cr method = for_method method r.
Proof using.
  intros Hc. apply eq_true_iff_eq. unfold methodMatchesHTTPRule, for_method.
  rewrite (methods_empty r cr Hc), !orb_true_iff, !bool_decide_eq_true, existsb_exists.
  apply compile_http_rule_Ok in Hc as (_ & -> & _). rewrite !elem_of_list_to_set, !list_elem_of_fmap.
  setoid_rewrite orb_true_iff. setoid_rewrite bool_decide_eq_true. setoid_rewrite <- list_elem_of_In. naive_solver.
Qed.

Context (fl : Flags).

Definition decl_hit (r : HTTPServiceRule) (pat : string) : scoredHit :=
  mkHit (wrapDecision fl (hr_Decision r) (hr_Name r) (hr_Message r) None) (decl_score r pat).

Lemma path_hits_decl r cr path pre pats globs : compile_http_rule r = Ok cr -> hr_Paths r = pre ++ pats ->
  Forall2 (fun pat g => glob_Compile pat [ch_slash] = Some g) pats globs ->
  omap (fun p : nat * Glob => let '(i, g) := p in
          if negb (g path) then None
          else Some (mkHit (wrapDecision fl (hr_Decision (chr_rule cr)) (hr_Name (chr_rule cr)) (hr_Message (chr_rule cr)) None)
                       (rule_score cr (default path (hr_Paths (chr_rule cr) !! i)))))
    (zip (seq (length pre) (length globs)) globs) = decl_hit r <$> List.filter (for_path path) pats.
Proof using.
  intros Hc Hpaths Hp. pose proof (fun p => rule_score_decl r cr p Hc) as Hs. apply compile_http_rule_Ok in Hc as (Hcr & _ & _).
  revert pre Hpaths. induction Hp as [|pat g pats globs Hg Hp IH]; intros pre Hpaths; [done|]. cbn [length seq zip zip_with omap list_omap].
  specialize (IH (pre ++ [pat])). rewrite length_app in IH. cbn [length] in IH. rewrite Nat.add_1_r, <- app_assoc in IH. specialize (IH Hpaths).
  cbn [List.filter]. unfold for_path at 1. rewrite Hg. destruct (g path); cbn [negb]; rewrite IH; [|done].
  rewrite fmap_cons, Hcr, Hpaths, list_lookup_middle by done. cbn [default from_option]. unfold id. by rewrite Hs.
Qed.

Lemma rule_hits_decl path method r cr : compile_http_rule r = Ok cr ->
  rule_hits fl path method cr = if for_method method r then decl_hit r <$> List.filter (for_path path) (hr_Paths r) else [].
Proof using.
  intros Hc. unfold rule_hits. rewrite (methodMatches_decl r cr method Hc). destruct (for_method method r); cbn [negb]; [|done].
  apply (path_hits_decl r cr path [] (hr_Paths r)); [done|done|]. by apply compile_http_rule_Ok in Hc as (_ & _ & ?).
Qed.

Lemma service_hits_decl s path method crs :
  each compile_http_rule (h_Rules s) = Ok crs ->
  concat (rule_hits fl path method <$> crs) = (fun p => decl_hit p.1 p.2) <$> matches_of s method path.
Proof using.
  intros Hc%each_Ok. unfold matches_of. induction Hc as [|r cr rs crs Hr Hc IH]; [done|]. rewrite !fmap_cons. cbn [concat].
  rewrite IH, (rule_hits_decl path method r cr Hr), fmap_app. f_equal. destruct (for_method method r); [|done]. by rewrite <- list_fmap_compose.
Qed.

End HttpFacts.
End HttpFacts.
Export HttpFacts.

Module HttpTheorems.
Section HttpTheorems.
Context {U : UnicodeCase} `{L : Libraries} (fl : Flags).

(** A list of services that passes validation always compiles, and afterwards each service is
    found under its name, with its rules compiled, and every host it claims (its upstream or an
    alias, in canonical form) leads to it and to no other service. *)
Theorem validated_services_compile svcs :
  ValidateHTTPServices svcs = Ok tt ->
  exists maps, compileHTTPServices svcs = Ok maps /\ Forall (serves maps) svcs.
Proof using.
  unfold ValidateHTTPServices. intros H. apply rbind_Ok in H as (st & H & _).
  destruct (validated_services_step _ _ _ _ (∅, ∅) H) as [maps Hm]; [by split; cbn; rewrite !dom_empty_L|].
  exists maps. split; [done|]. by apply compile_services_serve in Hm as [? _].
Qed.

(** [m] is a less specific match than [m']. *)
Definition less_specific (m m' : HTTPServiceRule * string) : Prop := score_less (decl_score m.1 m.2) (decl_score m'.1 m'.2) = true.

Definition decided_by (d : Decision) (m : HTTPServiceRule * string) : Prop :=
  d = wrapDecision fl (hr_Decision m.1) (hr_Name m.1) (hr_Message m.1) None.

Lemma pick_first d0 (m0 : HTTPServiceRule * string) ms :
  let d := pickMostSpecific ((fun p => decl_hit fl p.1 p.2) <$> m0 :: ms) d0 in
  exists l1 m l2, m0 :: ms = l1 ++ m :: l2 /\ decided_by d m /\ Forall (fun m' => less_specific m' m) l1 /\ Forall (fun m' => ~ less_specific m m') l2.
Proof using.
  cbn [fmap list_fmap pickMostSpecific]. set (hit := fun p : HTTPServiceRule * string => decl_hit fl p.1 p.2).
  destruct (most_specific_first (hit m0) (hit <$> ms)) as (l1 & l2 & Heq & H1 & H2). rewrite <- fmap_cons in Heq.
  apply fmap_app_inv in Heq as (k1 & k2 & -> & Hk2 & Hk). symmetry in Hk2. apply fmap_cons_inv in Hk2 as (m & k3 & Hm & -> & ->).
  change (decl_hit fl m0.1 m0.2) with (hit m0). rewrite Hm in *. exists k1, m, k3. split; [done|]. split; [done|].
  rewrite !Forall_fmap in *. split; [exact H1|]. eapply Forall_impl; [exact H2|]. intros x Hx. unfold less_specific. cbn in Hx. by rewrite Hx.
Qed.


End HttpTheorems.

(** A service with a secret-bearing upstream, one alias and three rules. *)
Definition sample_service : HTTPService :=
  mkHTTPService "github" "https://api.github.com/v3" "" ["GitHub.com:443"] false "deny"
    [mkHTTPRule "read" ["GET"] ["/repos/**"] "allow" "";
     mkHTTPRule "admin" [] ["/repos/*/admin"] "deny" "no";
     mkHTTPRule "any" ["*"] ["/**"] "audit" ""] None None None.

Definition sample_flags : Flags := mkFlags true true (fun _ => "").

Lemma validated_services_compile_witness :
  exists maps, @compileHTTPServices latin_case small_libraries [sample_service] = Ok maps /\
    Forall (@serves latin_case small_libraries maps) [sample_service].
Proof. apply validated_services_compile. vm_compute. reflexivity. Defined.

Definition sample_maps : service_map * service_map :=
  match @compileHTTPServices latin_case small_libraries [sample_service] with
  | Ok m => m
  | Err _ => (∅, ∅)
  end.


End HttpTheorems.
Export HttpTheorems.
