(* ===== verification/PolicyEngine.v ===== *)
(** * The policy engine ([internal/policy/engine.go], [model.go], [vars.go], [redirect.go])

    A policy document, its validation ([Policy.Validate]), the expansion of variables in it, its
    compilation ([NewEngine]) and the decisions of the engine on commands, executed programs,
    files, sockets, registry keys, environment variables, connections and redirects.

    An engine is built by [NewEngine], which dereferences its policy: the guards against a nil
    engine or policy are dead code and are left out.  [sort.Slice] promises no order for equal keys
    and is a parameter of [NewEngine]; so are the optional threat feed and Tor coordinator, two
    interfaces, and the resolver.  A regular expression the engine compiles without looking at the
    error is an option, and matching a missing one is the panic it is in Go. *)

From Stdlib Require Import ZArith Lia Ascii String.
From stdpp Require Import base list strings gmap.
From S2P Require Import Prelude GoText GoNet GoStrings ShellParse PolicyModel SignalEngine HttpService.
Open Scope string_scope.
Open Scope list_scope.
Open Scope Z_scope.

(** ** The document *)
Module Document.

Record RuleMetadata : Type := mkMetadata { md_RuleName : string; md_Source : string }.

Record PackageMatch : Type := mkPackageMatch {
  pm_Packages : list string;
  pm_NamePatterns : list string;
  pm_FindingType : string;
  pm_Severity : string;
  pm_Reasons : list string;
  pm_LicenseSPDX : option (list string * list string);      (* allow, deny *)
  pm_Ecosystem : string;
  pm_Options : list string                                  (* the keys of the map *)
}.

Record PackageRule : Type := mkPackageRule {
  pk_Match : PackageMatch;
  pk_Action : string;
  pk_Reason : string
}.

Record ResourceLimits : Type := mkLimits {
  rl_MaxMemoryMB : Z;
  rl_CPUQuotaPercent : Z;
  rl_PidsMax : Z;
  rl_CommandTimeout : Z;
  rl_SessionTimeout : Z;
  rl_IdleTimeout : Z
}.

Record Policy : Type := mkPolicy {
  p_Version : Z;
  p_Name : string;
  p_Metadata : list RuleMetadata;
  p_FileRules : list FileRule;
  p_NetworkRules : list NetworkRule;
  p_CommandRules : list CommandRule;
  p_UnixRules : list UnixSocketRule;
  p_RegistryRules : list RegistryRule;
  p_SignalRules : list SignalRule;
  p_DnsRedirectRules : list DnsRedirectRule;
  p_ConnectRedirectRules : list ConnectRedirectRule;
  p_ResourceLimits : ResourceLimits;
  p_EnvPolicy : EnvPolicy;
  p_EnvInject : option (gmap string string);
  p_PackageRules : list PackageRule;
  p_Providers : list (string * option string);              (* name, decoded type *)
  p_Services : bool;                                        (* the old key is present *)
  p_HTTPServices : list HTTPService
}.

Inductive verr : Type :=
| VVersion | VName
| VMetaRuleName (i : nat) | VMetaSource (i : nat)
| VDnsName (i : nat) | VDnsMatch (i : nat) | VDnsRegexp (i : nat) | VDnsResolveTo (i : nat)
| VDnsIP (i : nat) | VDnsVisibility (i : nat) | VDnsOnFailure (i : nat)
| VPackageOptions (i : nat)
| VConnName (i : nat) | VConnMatch (i : nat) | VConnRegexp (i : nat) | VConnTarget (i : nat)
| VConnTLSMode (i : nat) | VConnSNI (i : nat) | VConnVisibility (i : nat) | VConnOnFailure (i : nat)
| VOldServices | VHTTP (e : herr).

(** [for i, x := range l { if err := f(i, x); err != nil { return err } }]. *)
Fixpoint each_i {E A} (f : nat -> A -> result E unit) (i : nat) (l : list A) : result E unit :=
  match l with
  | [] => Ok tt
  | x :: l' => _ <-? f i x ; each_i f (S i) l'
  end.

Section Validate.
Context {U : UnicodeCase} `{L : Libraries}.

Definition known_visibility (v : string) : bool := one_of v [""; "silent"; "audit_only"; "warn"].
Definition known_on_failure (v : string) : bool :=
  one_of v [""; "fail_closed"; "fail_open"; "retry_original"].

Definition validate_metadata (i : nat) (m : RuleMetadata) : result verr unit :=
  if md_RuleName m ==? "" then Err (VMetaRuleName i)
  else if md_Source m ==? "" then Err (VMetaSource i) else Ok tt.

Definition validate_dns_redirect (i : nat) (r : DnsRedirectRule) : result verr unit :=
  if dr_Name r ==? "" then Err (VDnsName i)
  else if dr_Match r ==? "" then Err (VDnsMatch i)
  else match regexp_Compile (dr_Match r) with
  | None => Err (VDnsRegexp i)
  | Some _ =>
    if dr_ResolveTo r ==? "" then Err (VDnsResolveTo i)
    else match ParseIP (string_bytes (dr_ResolveTo r)) with
    | None => Err (VDnsIP i)
    | Some _ =>
      if negb (known_visibility (dr_Visibility r)) then Err (VDnsVisibility i)
      else if negb (known_on_failure (dr_OnFailure r)) then Err (VDnsOnFailure i) else Ok tt
    end
  end.

Definition validate_package_rule (i : nat) (r : PackageRule) : result verr unit :=
  if nonempty (pm_Options (pk_Match r)) then Err (VPackageOptions i) else Ok tt.

Definition validate_connect_redirect (i : nat) (r : ConnectRedirectRule) : result verr unit :=
  if cn_Name r ==? "" then Err (VConnName i)
  else if cn_Match r ==? "" then Err (VConnMatch i)
  else match regexp_Compile (cn_Match r) with
  | None => Err (VConnRegexp i)
  | Some _ =>
    let targets := (if cn_RedirectTo r !=? "" then 1 else 0) + (if cn_RedirectToUnix r !=? "" then 1 else 0) in
    if negb (targets =? 1) then Err (VConnTarget i)
    else
      _ <-? match cn_TLS r with
            | None => Ok tt
            | Some tls => if negb (one_of (tls_Mode tls) [""; "passthrough"; "rewrite_sni"])
                          then Err (VConnTLSMode i)
                          else if (tls_Mode tls ==? "rewrite_sni") && (tls_SNI tls ==? "")
                          then Err (VConnSNI i) else Ok tt
            end ;
      if negb (known_visibility (cn_Visibility r)) then Err (VConnVisibility i)
      else if negb (known_on_failure (cn_OnFailure r)) then Err (VConnOnFailure i) else Ok tt
  end.

Definition Validate (p : Policy) : result verr unit :=
  if p_Version p <=? 0 then Err VVersion
  else if p_Name p ==? "" then Err VName
  else
    _ <-? each_i validate_metadata 0 (p_Metadata p) ;
    _ <-? each_i validate_dns_redirect 0 (p_DnsRedirectRules p) ;
    _ <-? each_i validate_package_rule 0 (p_PackageRules p) ;
    _ <-? each_i validate_connect_redirect 0 (p_ConnectRedirectRules p) ;
    if p_Services p then Err VOldServices
    else map_err VHTTP (ValidateHTTPServicesWithProviders (p_HTTPServices p) (p_Providers p)).

End Validate.

(** ** Variables ([vars.go]) *)

Definition is_name_start (b : Z) : bool := is_letter b || (b =? 95).
Definition is_name_byte (b : Z) : bool := is_letter b || is_digit b || (b =? 95).

Fixpoint span_while (p : Z -> bool) (l : list Z) : list Z * list Z :=
  match l with
  | b :: l' => if p b then let '(a, r) := span_while p l' in (b :: a, r) else ([], l)
  | [] => ([], [])
  end.

(** [varPattern] at the front of the text: the name, the fallback if there is one, and what
    follows. *)
Definition match_var (bs : list Z) : option (list Z * option (list Z) * list Z) :=
  match bs with
  | 36 :: 123 :: b :: r =>
    if negb (is_name_start b) then None
    else
      let '(name, r1) := span_while is_name_byte r in
      match r1 with
      | 125 :: rest => Some (b :: name, None, rest)
      | 58 :: 45 :: r2 =>
        let '(fallback, r3) := span_while (fun b => negb (b =? 125)) r2 in
        match r3 with 125 :: rest => Some (b :: name, Some fallback, rest) | _ => None end
      | _ => None
      end
  | _ => None
  end.

Definition lookup_var (getenv : string -> string) (vars : gmap string string) (name : string)
  (fallback : option (list Z)) : result string (list Z) :=
  match vars !! name with
  | Some v => Ok (string_bytes v)
  | None => if getenv name !=? "" then Ok (string_bytes (getenv name))
            else match fallback with Some f => Ok f | None => Err name end
  end.

(** One turn per byte or match. *)
Fixpoint expand_bytes (getenv : string -> string) (vars : gmap string string) (turns : nat) (bs : list Z)
  : result string (list Z) :=
  match turns, bs with
  | O, _ | _, [] => Ok []
  | S turns', b :: bs' =>
    match match_var bs with
    | Some (name, fallback, rest) =>
      v <-? lookup_var getenv vars (bytes_string name) fallback ;
      out <-? expand_bytes getenv vars turns' rest ; Ok (v ++ out)
    | None => out <-? expand_bytes getenv vars turns' bs' ; Ok (b :: out)
    end
  end.

Definition ExpandVariables (getenv : string -> string) (s : string) (vars : gmap string string)
  : result string string :=
  out <-? expand_bytes getenv vars (String.length s) (string_bytes s) ; Ok (bytes_string out).

Definition expand_file_rule (getenv : string -> string) (vars : gmap string string) (r : FileRule)
  : result string FileRule :=
  paths <-? each (fun p => ExpandVariables getenv p vars) (f_Paths r) ;
  Ok (mkFileRule (f_Name r) paths (f_Operations r) (f_Decision r) (f_Message r) (f_RedirectTo r)
        (f_PreserveTree r)).

Definition expand_network_rule (getenv : string -> string) (vars : gmap string string) (r : NetworkRule)
  : result string NetworkRule :=
  domains <-? each (fun d => ExpandVariables getenv d vars) (n_Domains r) ;
  Ok (mkNetworkRule (n_Name r) domains (n_Ports r) (n_CIDRs r) (n_Decision r) (n_Message r)).

Definition expandPolicy (getenv : string -> string) (p : Policy) (vars : gmap string string)
  : result string Policy :=
  files <-? each (expand_file_rule getenv vars) (p_FileRules p) ;
  nets <-? each (expand_network_rule getenv vars) (p_NetworkRules p) ;
  Ok (mkPolicy (p_Version p) (p_Name p) (p_Metadata p) files nets (p_CommandRules p) (p_UnixRules p)
        (p_RegistryRules p) (p_SignalRules p) (p_DnsRedirectRules p) (p_ConnectRedirectRules p)
        (p_ResourceLimits p) (p_EnvPolicy p) (p_EnvInject p) (p_PackageRules p) (p_Providers p)
        (p_Services p) (p_HTTPServices p)).

End Document.
Export Document.

(** ** Compilation *)
Module Engine.

Record compiledFileRule : Type := mkCompiledFile {
  cf_rule : FileRule;
  cf_globs : list Glob;
  cf_ops : gset string;
  cf_redirectTo : string;
  cf_preserveTree : bool
}.

Record compiledNetworkRule : Type := mkCompiledNetwork {
  cnw_rule : NetworkRule;
  cnw_domainGlobs : list Glob;
  cnw_cidrs : list IPNet;
  cnw_ports : gset Z
}.

Record compiledCommandRule : Type := mkCompiledCommand {
  cc_rule : CommandRule;
  cc_basenames : gset string;
  cc_basenameGlobs : list Glob;
  cc_fullPaths : gset string;
  cc_pathGlobs : list Glob;
  cc_argsRegexes : list Regexp
}.

Record compiledUnixRule : Type := mkCompiledUnix {
  cu_rule : UnixSocketRule;
  cu_paths : list Glob;
  cu_ops : gset string
}.

Record compiledRegistryRule : Type := mkCompiledRegistry {
  creg_rule : RegistryRule;
  creg_globs : list Glob;
  creg_ops : gset string;
  creg_priority : Z
}.

Record compiledDnsRedirectRule : Type := mkCompiledDns {
  cd_rule : DnsRedirectRule;
  cd_pattern : option Regexp
}.

Record compiledConnectRedirectRule : Type := mkCompiledConnect {
  ccn_rule : ConnectRedirectRule;
  ccn_pattern : option Regexp
}.

Record ThreatCheckResult : Type := mkThreat { th_FeedName : string; th_MatchedDomain : string }.

(** The interfaces [ThreatChecker] and [TorChecker]. *)
Definition ThreatChecker : Type := string -> option ThreatCheckResult.

Record TorChecker : Type := mkTorChecker {
  EvalExecve : string -> list string -> option TorVerdict;
  EvalConnect : option (list Z) -> Z -> option TorVerdict;
  EvalOnionName : string -> option TorVerdict
}.

Record Engine : Type := mkEngine {
  e_policy : Policy;
  e_flags : Flags;
  compiledFileRules : list compiledFileRule;
  compiledNetworkRules : list compiledNetworkRule;
  compiledCommandRules : list compiledCommandRule;
  compiledUnixRules : list compiledUnixRule;
  compiledRegistryRules : list compiledRegistryRule;
  hasRestrictiveCommandRule : bool;
  httpServices : service_map;
  httpServiceHosts : service_map;
  dnsRedirectRules : list compiledDnsRedirectRule;
  connectRedirectRules : list compiledConnectRedirectRule;
  compiledEnvAllow : list Glob;
  compiledEnvDeny : list Glob;
  signalEngine : option (list compiledSignalRule);
  threatStore : option ThreatChecker;
  threatAction : string;
  torChecker : option TorChecker
}.

Inductive eerr : Type :=
| EFileGlob (rule pat : string) | ENetworkDomain (rule pat : string) | ENetworkCIDR (rule cidr : string)
| ECommandArgs (rule pat : string) | EUnixGlob (rule pat : string) | ERegistryGlob (rule pat : string)
| EEnvAllow (pat : string) | EEnvDeny (pat : string)
| ESignal (e : sig_error) | EHTTP (e : herr) | EExpand (name : string).

Section Compile.
Context {U : UnicodeCase} `{L : Libraries}.

Definition op_set (ops : list string) : gset string := list_to_set (ToLower <$> ops).

Definition compile_file_rule (r : FileRule) : result eerr compiledFileRule :=
  globs <-? each (fun pat => of_option (EFileGlob (f_Name r) pat) (glob_Compile pat [ch_slash])) (f_Paths r) ;
  Ok (mkCompiledFile r globs (op_set (f_Operations r)) (f_RedirectTo r) (f_PreserveTree r)).

Definition compile_domain (name pat : string) : result eerr Glob :=
  match glob_Compile (ToLower pat) [ch_dot] with
  | Some g => Ok g
  | None => of_option (ENetworkDomain name pat) (glob_Compile (ToLower pat) [])
  end.

Definition compile_network_rule (r : NetworkRule) : result eerr compiledNetworkRule :=
  globs <-? each (compile_domain (n_Name r)) (n_Domains r) ;
  cidrs <-? each (fun c => of_option (ENetworkCIDR (n_Name r) c) (ParseCIDR c)) (n_CIDRs r) ;
  Ok (mkCompiledNetwork r globs cidrs (list_to_set (n_Ports r))).

(** The four collections a command entry can go to. *)
Definition add_command (cr : compiledCommandRule) (entry : string) : compiledCommandRule :=
  let c := TrimSpace_string entry in
  let to_path := mkCompiledCommand (cc_rule cr) (cc_basenames cr) (cc_basenameGlobs cr)
                   ({[ToLower c]} ∪ cc_fullPaths cr) (cc_pathGlobs cr) (cc_argsRegexes cr) in
  let to_name := mkCompiledCommand (cc_rule cr) ({[ToLower c]} ∪ cc_basenames cr) (cc_basenameGlobs cr)
                   (cc_fullPaths cr) (cc_pathGlobs cr) (cc_argsRegexes cr) in
  if c ==? "" then cr
  else if Contains c "/" then
    if ContainsAny c "*?[" then
      match glob_Compile c [ch_slash] with
      | None => to_path
      | Some g => mkCompiledCommand (cc_rule cr) (cc_basenames cr) (cc_basenameGlobs cr)
                    (cc_fullPaths cr) (cc_pathGlobs cr ++ [g]) (cc_argsRegexes cr)
      end
    else to_path
  else if ContainsAny c "*?[" then
    match glob_Compile c [] with
    | None => to_name
    | Some g => mkCompiledCommand (cc_rule cr) (cc_basenames cr) (cc_basenameGlobs cr ++ [g])
                  (cc_fullPaths cr) (cc_pathGlobs cr) (cc_argsRegexes cr)
    end
  else to_name.

Definition compile_command_rule (r : CommandRule) : result eerr compiledCommandRule :=
  let cr := fold_left add_command (c_Commands r) (mkCompiledCommand r ∅ [] ∅ [] []) in
  res <-? each (fun pat => of_option (ECommandArgs (c_Name r) pat) (regexp_Compile pat)) (c_ArgsPatterns r) ;
  Ok (mkCompiledCommand r (cc_basenames cr) (cc_basenameGlobs cr) (cc_fullPaths cr) (cc_pathGlobs cr) res).

Definition is_restrictive (r : compiledCommandRule) : bool :=
  one_of (ToLower (c_Decision (cc_rule r)))
    [DecisionDeny; DecisionRedirect; DecisionSoftDelete; DecisionApprove; DecisionAudit].

Definition compile_unix_rule (r : UnixSocketRule) : result eerr compiledUnixRule :=
  globs <-? each (fun pat => match glob_Compile pat [ch_slash] with
                             | Some g => Ok g
                             | None => of_option (EUnixGlob (u_Name r) pat) (glob_Compile pat [])
                             end) (u_Paths r) ;
  Ok (mkCompiledUnix r globs (op_set (u_Operations r))).

(** [strings.ReplaceAll(pat, `\`, `\\`)]. *)
Definition escape_backslashes (s : string) : string :=
  bytes_string (concat ((fun b => if b =? 92 then [92; 92] else [b]) <$> string_bytes s)).

Definition compile_registry_rule (r : RegistryRule) : result eerr compiledRegistryRule :=
  globs <-? each (fun pat => of_option (ERegistryGlob (r_Name r) pat) (glob_Compile (escape_backslashes pat) []))
              (r_Paths r) ;
  Ok (mkCompiledRegistry r globs (op_set (r_Operations r)) (r_Priority r)).

Section NewEngine.
Context (sort_Slice : list compiledRegistryRule -> list compiledRegistryRule).

Definition NewEngine (p : Policy) (fl : Flags) : result eerr Engine :=
  files <-? each compile_file_rule (p_FileRules p) ;
  nets <-? each compile_network_rule (p_NetworkRules p) ;
  cmds <-? each compile_command_rule (p_CommandRules p) ;
  unix <-? each compile_unix_rule (p_UnixRules p) ;
  regs <-? each compile_registry_rule (p_RegistryRules p) ;
  let dns := (fun r => mkCompiledDns r (regexp_Compile (dr_Match r))) <$> p_DnsRedirectRules p in
  let conn := (fun r => mkCompiledConnect r (regexp_Compile (cn_Match r))) <$> p_ConnectRedirectRules p in
  allow <-? each (fun pat => of_option (EEnvAllow pat) (glob_Compile pat [])) (ep_Allow (p_EnvPolicy p)) ;
  deny <-? each (fun pat => of_option (EEnvDeny pat) (glob_Compile pat [])) (ep_Deny (p_EnvPolicy p)) ;
  sig <-? map_err ESignal (compileSignalRules (p_SignalRules p)) ;
  maps <-? map_err EHTTP (compileHTTPServices (p_HTTPServices p)) ;
  Ok (mkEngine p fl files nets cmds unix (sort_Slice regs) (existsb is_restrictive cmds)
        maps.1 maps.2 dns conn allow deny sig None "" None).

Definition NewEngineWithVariables (p : Policy) (fl : Flags) (vars : gmap string string) : result eerr Engine :=
  expanded <-? map_err EExpand (expandPolicy (getenv fl) p vars) ; NewEngine expanded fl.

End NewEngine.
End Compile.

Definition SetThreatStore (e : Engine) (store : option ThreatChecker) (action : string) : Engine :=
  mkEngine (e_policy e) (e_flags e) (compiledFileRules e) (compiledNetworkRules e)
    (compiledCommandRules e) (compiledUnixRules e) (compiledRegistryRules e)
    (hasRestrictiveCommandRule e) (httpServices e) (httpServiceHosts e) (dnsRedirectRules e)
    (connectRedirectRules e) (compiledEnvAllow e) (compiledEnvDeny e) (signalEngine e) store
    (if one_of action ["deny"; "audit"] then action else "deny") (torChecker e).

Definition SetTorPolicy (e : Engine) (tc : option TorChecker) : Engine :=
  mkEngine (e_policy e) (e_flags e) (compiledFileRules e) (compiledNetworkRules e)
    (compiledCommandRules e) (compiledUnixRules e) (compiledRegistryRules e)
    (hasRestrictiveCommandRule e) (httpServices e) (httpServiceHosts e) (dnsRedirectRules e)
    (connectRedirectRules e) (compiledEnvAllow e) (compiledEnvDeny e) (signalEngine e)
    (threatStore e) (threatAction e) tc.

Definition Limits_of (e : Engine) : Z * Z * Z * Z * Z * Z :=
  let l := p_ResourceLimits (e_policy e) in
  (rl_CommandTimeout l, rl_SessionTimeout l, rl_IdleTimeout l, rl_MaxMemoryMB l,
   rl_CPUQuotaPercent l, rl_PidsMax l).

Definition GetEnvInject (e : Engine) : gmap string string := default ∅ (p_EnvInject (e_policy e)).

End Engine.
Export Engine.

(** ** Decisions of the engine *)
Module Checks.
Section Checks.
Context {U : UnicodeCase} (e : Engine).

Notation wrap := (wrapDecision (e_flags e)).

Definition matchOp (ops : gset string) (op : string) : bool :=
  bool_decide (ops = ∅) || bool_decide ("*" ∈ ops) || bool_decide (op ∈ ops).

(** The first rule of a list that applies. *)
Definition first_rule {A} (applies : A -> bool) (rules : list A) : option A := List.find applies rules.

Definition any_match (globs : list Glob) (s : string) : bool := existsb (fun g : Glob => g s) globs.

(** *** Networks *)

Definition any_cidr (cidrs : list IPNet) (ips : list (list Z)) : bool :=
  existsb (fun ip => existsb (fun c => IPNet_Contains c ip) cidrs) ips.

Definition network_applies (domain : string) (port : Z) (ips : list (list Z)) (r : compiledNetworkRule) : bool :=
  (bool_decide (cnw_ports r = ∅) || bool_decide (port ∈ cnw_ports r)) &&
  (negb (nonempty (cnw_domainGlobs r)) || ((domain !=? "") && any_match (cnw_domainGlobs r) domain)) &&
  (negb (nonempty (cnw_cidrs r)) || any_cidr (cnw_cidrs r) ips).

Definition attach_threat (threat : option ThreatCheckResult) (action : string) (d : Decision) : Decision :=
  match threat with
  | Some t => set_Threat d (th_FeedName t) (th_MatchedDomain t) action
  | None => d
  end.

Definition threat_of (domain : string) : option ThreatCheckResult :=
  if domain ==? "" then None else store ← threatStore e; store domain.

(** The rule loop and the default, behind the threat feed. *)
Definition network_decision (domain : string) (port : Z) (ips : list (list Z)) : Decision :=
  let threat := threat_of domain in
  match threat with
  | Some t =>
    if threatAction e ==? "deny" then
      attach_threat threat "deny"
        (wrap "deny" ("threat-feed:" +:+ th_FeedName t)
           ("domain matched threat feed: " +:+ th_FeedName t +:+ " (matched: " +:+ th_MatchedDomain t +:+ ")") None)
    else
      attach_threat threat "audit"
        match first_rule (network_applies domain port ips) (compiledNetworkRules e) with
        | Some r => wrap (n_Decision (cnw_rule r)) (n_Name (cnw_rule r)) (n_Message (cnw_rule r)) None
        | None => wrap DecisionDeny "default-deny-network" "" None
        end
  | None =>
    match first_rule (network_applies domain port ips) (compiledNetworkRules e) with
    | Some r => wrap (n_Decision (cnw_rule r)) (n_Name (cnw_rule r)) (n_Message (cnw_rule r)) None
    | None => wrap DecisionDeny "default-deny-network" "" None
    end
  end.

Definition tor_deny (v : TorVerdict) : Decision :=
  set_Tor (wrap DecisionDeny ("tor:" +:+ tv_Vector v) "blocked by Tor policy" None) (Some v).

(** A verdict denies at once or is attached to whatever is returned afterwards (the deferred
    assignment to the named result). *)
Definition tor_gate (v : option TorVerdict) (k : Decision) : Decision :=
  match v with
  | None => k
  | Some v => if tv_Decision v ==? "deny" then tor_deny v else set_Tor k (Some v)
  end.

Definition normal_domain (domain : string) : string := ToLower (TrimSpace_string domain).

Definition CheckNetworkIP (domain : string) (ip : option (list Z)) (port : Z) : Decision :=
  tor_gate (tc ← torChecker e; EvalConnect tc ip port)
    (let domain := normal_domain domain in
     let ips := match ip with
                | Some ip => [ip]
                | None => match ParseIP (string_bytes domain) with Some ip => [ip] | None => [] end
                end in
     network_decision domain port ips).

(** [lookup] is the resolver under the caller's context; it is asked at most once, when a rule
    with address ranges is reached. *)
Definition CheckNetworkCtx (lookup : string -> option (list (list Z))) (domain : string) (port : Z)
  : Decision :=
  let domain := normal_domain domain in
  let literal := ParseIP (string_bytes domain) in
  tor_gate (tc ← torChecker e; EvalOnionName tc domain)
    (tor_gate (tc ← torChecker e; ip ← literal; EvalConnect tc (Some ip) port)
       (let ips := match literal with
                   | Some ip => [ip]
                   | None => if domain ==? "" then [] else default [] (lookup domain)
                   end in
        network_decision domain port ips)).

(** *** Commands *)

Definition matches_all (r : compiledCommandRule) : bool :=
  bool_decide (cc_basenames r = ∅) && negb (nonempty (cc_basenameGlobs r)) &&
  bool_decide (cc_fullPaths r = ∅) && negb (nonempty (cc_pathGlobs r)).

Definition args_match (r : compiledCommandRule) (args : list string) : bool :=
  negb (nonempty (cc_argsRegexes r)) ||
  existsb (fun re : Regexp => re (Join args " ")) (cc_argsRegexes r).

Definition path_match (r : compiledCommandRule) (command : string) : bool :=
  bool_decide (ToLower command ∈ cc_fullPaths r) ||
  existsb (fun g : Glob => g (ToLower command) || g command) (cc_pathGlobs r).

(** The rule's commands cover this one; the installed shim's suffix [.real] is ignored. *)
Definition command_applies (command : string) (args : list string) (r : compiledCommandRule) : bool :=
  let cmdBase := ToLower (filepath_Base command) in
  let cmdBaseNorm := TrimSuffix cmdBase ".real" in
  MatchesDepth (c_Context (cc_rule r)) 0 &&
  (matches_all r || path_match r command ||
   bool_decide (cmdBase ∈ cc_basenames r) ||
   ((cmdBaseNorm !=? cmdBase) && bool_decide (cmdBaseNorm ∈ cc_basenames r)) ||
   existsb (fun g : Glob => g cmdBase || g (filepath_Base command) ||
                            ((cmdBaseNorm !=? cmdBase) && g cmdBaseNorm)) (cc_basenameGlobs r)) &&
  args_match r args.

Definition rule_decision (r : compiledCommandRule) : Decision :=
  let c := cc_rule r in
  set_EnvPolicy (wrap (c_Decision c) (c_Name c) (c_Message c) (c_RedirectTo c))
    (Some (MergeEnvPolicy (p_EnvPolicy (e_policy e)) c)).

Definition default_deny (rule : string) : Decision :=
  set_EnvPolicy (wrap DecisionDeny rule "" None)
    (Some (MergeEnvPolicy (p_EnvPolicy (e_policy e)) CommandRule_zero)).

Definition matchCommandRules (command : string) (args : list string) : Decision * bool :=
  match first_rule (command_applies command args) (compiledCommandRules e) with
  | Some r => (rule_decision r, true)
  | None => (default_deny "default-deny-commands", false)
  end.

Inductive ShellCOpaqueMode : Type := ShellCOpaqueEnforce | ShellCOpaqueAllow | ShellCOpaqueDeny.

Definition ParseShellCOpaqueMode (s : string) : ShellCOpaqueMode :=
  if s ==? "allow" then ShellCOpaqueAllow
  else if s ==? "deny" then ShellCOpaqueDeny else ShellCOpaqueEnforce.

(** A stricter decision replaces the result; an audit or approve decision keeps the environment of
    the shell that runs. *)
Definition tighten (result dec : Decision) : Decision :=
  if decisionStrictness (PolicyDecision result) <? decisionStrictness (PolicyDecision dec) then
    if (PolicyDecision dec ==? DecisionAudit) || (PolicyDecision dec ==? DecisionApprove)
    then set_EnvPolicy dec (d_EnvPolicy result) else dec
  else result.

Definition bypass_deny (cur : string) (curArgs : list string) : Decision :=
  let reason := BypassReason cur curArgs in
  wrap DecisionDeny "shellc-wrapper-bypass"
    (if reason !=? "" then "bypass attempt: " +:+ reason
     else "bypass attempt via unparsable shell-c wrapper") None.

Definition opaque_deny (cur : string) (curArgs : list string) : Decision :=
  let reason := OpaqueReason cur curArgs in
  wrap DecisionDeny "shellc-opaque-script"
    ((if reason !=? "" then "opaque shell script: contains " +:+ reason
      else "opaque shell script cannot be safely parsed for policy pre-check") +:+
     "; set sandbox.seccomp.shellc.opaque=allow to run it without per-exec enforcement, or enable execve enforcement (seccomp.execve + unix_sockets, or ptrace) to run it under policy") None.

Definition denies_opaque (execveActive : bool) (mode : ShellCOpaqueMode) : bool :=
  match mode with
  | ShellCOpaqueAllow => false
  | ShellCOpaqueDeny => true
  | ShellCOpaqueEnforce => negb execveActive
  end.

(** What is done where the derivation stops. *)
Definition stop_derivation (execveActive : bool) (mode : ShellCOpaqueMode) (result : Decision)
  (cur : string) (curArgs : list string) : Decision :=
  if IsShellCBypassAttempt cur curArgs then tighten result (bypass_deny cur curArgs)
  else if hasRestrictiveCommandRule e && IsOpaqueShellC cur curArgs && denies_opaque execveActive mode
  then tighten result (opaque_deny cur curArgs)
  else result.

(** The loop: the result and the command it stopped at. *)
Fixpoint derive_loop (execveActive : bool) (mode : ShellCOpaqueMode) (depth : nat) (result : Decision)
  (cur : string) (curArgs : list string) : Decision * (string * list string) :=
  match depth with
  | O => (result, (cur, curArgs))
  | S depth' =>
    match DerivePolicyTarget cur curArgs with
    | None => (stop_derivation execveActive mode result cur curArgs, (cur, curArgs))
    | Some (derivedCmd, derivedArgs) =>
      let '(dec, matched) := matchCommandRules derivedCmd derivedArgs in
      derive_loop execveActive mode depth' (if matched then tighten result dec else result)
        derivedCmd derivedArgs
    end
  end.

Definition maxShellCDeriveDepth : nat := 4.

Definition depth_deny : Decision :=
  wrap DecisionDeny "shellc-depth-exceeded" "nested shell-c chain exceeded max derivation depth" None.

Definition checkCommand (command : string) (args : list string) (execveActive : bool)
  (mode : ShellCOpaqueMode) : Decision :=
  let '(result, (cur, curArgs)) :=
    derive_loop execveActive mode maxShellCDeriveDepth (matchCommandRules command args).1 command args in
  match DerivePolicyTarget cur curArgs with
  | Some _ => tighten result depth_deny
  | None => result
  end.

Definition CheckCommand (command : string) (args : list string) : Decision :=
  checkCommand command args false ShellCOpaqueEnforce.

Definition CheckCommandWithExecve (command : string) (args : list string) (execveActive : bool)
  (mode : ShellCOpaqueMode) : Decision :=
  checkCommand command args execveActive mode.

Definition execve_applies (filename : string) (argv : list string) (depth : Z) (r : compiledCommandRule) : bool :=
  let cmdBase := ToLower (filepath_Base filename) in
  MatchesDepth (c_Context (cc_rule r)) depth &&
  (matches_all r || path_match r filename ||
   bool_decide (cmdBase ∈ cc_basenames r) ||
   existsb (fun g : Glob => g cmdBase || g (filepath_Base filename)) (cc_basenameGlobs r)) &&
  args_match r argv.

Definition CheckExecve (filename : string) (argv : list string) (depth : Z) : Decision :=
  let ruled := match first_rule (execve_applies filename argv depth) (compiledCommandRules e) with
               | Some r => rule_decision r
               | None => default_deny "default-deny-execve"
               end in
  match tc ← torChecker e; EvalExecve tc filename argv with
  | Some v => if tv_Decision v ==? "deny"
              then set_EnvPolicy (tor_deny v) (Some (MergeEnvPolicy (p_EnvPolicy (e_policy e)) CommandRule_zero))
              else set_Tor ruled (Some v)
  | None => ruled
  end.

(** *** Files, sockets, registry *)

Definition isReadOperation (op : string) : bool :=
  one_of op ["open"; "read"; "stat"; "list"; "readlink"; "access"].

Definition HasSoftDeleteFileRule : bool :=
  existsb (fun r => ToLower (f_Decision (cf_rule r)) ==? DecisionSoftDelete) (compiledFileRules e).

Definition computeFileRedirect (originalPath operation targetBase : string) (preserveTree : bool)
  (msg : string) : FileRedirectInfo :=
  let newPath := if preserveTree then filepath_Join [targetBase; originalPath]
                 else filepath_Join [targetBase; filepath_Base originalPath] in
  mkFileRedirect originalPath newPath operation msg.

Definition file_applies (p operation : string) (r : compiledFileRule) : bool :=
  matchOp (cf_ops r) operation && any_match (cf_globs r) p.

Definition CheckFile (p operation : string) : Decision :=
  let operation := ToLower operation in
  match first_rule (file_applies p operation) (compiledFileRules e) with
  | Some r =>
    let dec := wrap (f_Decision (cf_rule r)) (f_Name (cf_rule r)) (f_Message (cf_rule r)) None in
    if (cf_redirectTo r !=? "") && (PolicyDecision dec ==? DecisionRedirect) then
      set_FileRedirect dec
        (Some (computeFileRedirect p operation (cf_redirectTo r) (cf_preserveTree r) (f_Message (cf_rule r))))
    else dec
  | None =>
    if isReadOperation operation && (getenv (e_flags e) "AEP_CAW_DEFAULT_ALLOW_READS" ==? "1")
    then wrap DecisionAllow "default-allow-reads" "" None
    else wrap DecisionDeny "default-deny-files" "" None
  end.

Definition unix_applies (path operation : string) (r : compiledUnixRule) : bool :=
  matchOp (cu_ops r) operation && any_match (cu_paths r) path.

Definition CheckUnixSocket (path operation : string) : Decision :=
  let operation := ToLower (TrimSpace_string operation) in
  match first_rule (unix_applies path operation) (compiledUnixRules e) with
  | Some r => wrap (u_Decision (cu_rule r)) (u_Name (cu_rule r)) (u_Message (cu_rule r)) None
  | None => wrap DecisionDeny "default-deny-unix" "" None
  end.

Definition registry_applies (path operation : string) (r : compiledRegistryRule) : bool :=
  matchOp (creg_ops r) operation &&
  existsb (fun g : Glob => g path || g (ToUpper path)) (creg_globs r).

Definition CheckRegistry (path operation : string) : Decision :=
  match first_rule (registry_applies path (ToLower operation)) (compiledRegistryRules e) with
  | Some r => wrap (r_Decision (creg_rule r)) (r_Name (creg_rule r)) (r_Message (creg_rule r)) None
  | None => wrap DecisionDeny "default-deny-registry" "" None
  end.

(** *** Environment variables *)

Record EnvDecision : Type := mkEnvDecision {
  ed_Allowed : bool;
  ed_MatchedBy : string;
  ed_Pattern : string
}.

Record envHit : Type := mkEnvHit { eh_allow : bool; eh_by : string; eh_pattern : string; eh_spec : Z }.

Definition is_wild (b : Z) : bool := (b =? 42) || (b =? 63).

Definition envPatternSpecificity (pat : string) : Z :=
  if pat ==? "" then -1
  else if (pat ==? "*") || (pat ==? "**") then 0
  else
    let wild := Z.of_nat (count_byte 42 (string_bytes pat) + count_byte 63 (string_bytes pat)) in
    let lit := Z.of_nat (length (List.filter (fun p => negb (is_wild p.1)) (range_runes (string_bytes pat)))) in
    if wild =? 0 then 100000 + lit else 1000 + lit * 10 - wild.

(** The patterns that match, in order, with the position of the compiled pattern deciding which
    text is reported. *)
Definition pattern_hits (allow : bool) (by_ : string) (name : string) (globs : list Glob) (pats : list string)
  : list envHit :=
  omap (fun p : nat * Glob =>
          let '(i, g) := p in
          if g name then let pat := default "" (pats !! i) in
                         Some (mkEnvHit allow by_ pat (envPatternSpecificity pat))
          else None)
    (zip (seq 0 (length globs)) globs).

Definition looks_secret (name : string) : bool :=
  let upper := ToUpper name in
  Contains upper "TOKEN" || Contains upper "SECRET" || Contains upper "PASSWORD" ||
  Contains upper "API_KEY" || Contains upper "APIKEY" || HasSuffix upper "_KEY".

Definition secret_hit (name : string) : envHit :=
  mkEnvHit false "default-secret-deny" name (envPatternSpecificity name).

Definition env_hits (name : string) : list envHit :=
  let pol := p_EnvPolicy (e_policy e) in
  let denies := pattern_hits false "deny" name (compiledEnvDeny e) (ep_Deny pol) in
  denies ++ pattern_hits true "allow" name (compiledEnvAllow e) (ep_Allow pol) ++
  (if nonempty denies then []
   else (if looks_secret name then [secret_hit name] else []) ++
        (if nonempty (compiledEnvAllow e) then []
         else (fun _ => secret_hit name) <$> List.filter (String.eqb name) defaultSecretDeny)).

Fixpoint best_env_hit (best : envHit) (hits : list envHit) : envHit :=
  match hits with
  | [] => best
  | h :: rest =>
    best_env_hit (if eh_spec best <? eh_spec h then h
                  else if (eh_spec h =? eh_spec best) && negb (eh_allow h) && eh_allow best then h
                  else best) rest
  end.

Definition CheckEnv (name : string) : EnvDecision :=
  match env_hits name with
  | [] => if nonempty (compiledEnvAllow e) then mkEnvDecision false "default-deny" ""
          else mkEnvDecision true "default-allow" ""
  | h :: rest => let best := best_env_hit h rest in
                 mkEnvDecision (eh_allow best) (eh_by best) (eh_pattern best)
  end.

(** *** Redirects of names and connections *)

Inductive redirect_panic : Type := NilRegexp.

Record DnsRedirectResult : Type := mkDnsResult {
  dq_Matched : bool; dq_Rule : string; dq_ResolveTo : string; dq_Visibility : string; dq_OnFailure : string
}.

Definition or_default (v d : string) : string := if v ==? "" then d else v.

Fixpoint dns_loop (hostname : string) (rules : list compiledDnsRedirectRule)
  : result redirect_panic DnsRedirectResult :=
  match rules with
  | [] => Ok (mkDnsResult false "" "" "" "")
  | r :: rest =>
    match cd_pattern r with
    | None => Err NilRegexp
    | Some re =>
      if re hostname then
        Ok (mkDnsResult true (dr_Name (cd_rule r)) (dr_ResolveTo (cd_rule r))
              (or_default (dr_Visibility (cd_rule r)) "audit_only")
              (or_default (dr_OnFailure (cd_rule r)) "fail_closed"))
      else dns_loop hostname rest
    end
  end.

Definition normal_hostname (hostname : string) : string :=
  TrimSuffix (ToLower (TrimSpace_string hostname)) ".".

Definition EvaluateDnsRedirect (hostname : string) : result redirect_panic DnsRedirectResult :=
  dns_loop (normal_hostname hostname) (dnsRedirectRules e).

Record ConnectRedirectResult : Type := mkConnectResult {
  cq_Matched : bool; cq_Rule : string; cq_RedirectTo : string; cq_RedirectToUnix : string;
  cq_TLSMode : string; cq_SNI : string; cq_Visibility : string; cq_Message : string; cq_OnFailure : string
}.

(** [net.JoinHostPort]. *)
Definition JoinHostPort (host port : string) : string :=
  if has_byte ch_colon (string_bytes host) then "[" +:+ host +:+ "]:" +:+ port else host +:+ ":" +:+ port.

Definition normal_hostport (hostPort : string) : string :=
  let hp := TrimSpace_string hostPort in
  match SplitHostPort (string_bytes hp) with
  | Some (host, port) => JoinHostPort (TrimSuffix (ToLower (bytes_string host)) ".") (bytes_string port)
  | None => TrimSuffix (ToLower hp) "."
  end.

Definition connect_result (c : ConnectRedirectRule) : ConnectRedirectResult :=
  let '(mode, sni) := match cn_TLS c with
                      | Some t => (or_default (tls_Mode t) "passthrough", tls_SNI t)
                      | None => ("passthrough", "")
                      end in
  mkConnectResult true (cn_Name c) (cn_RedirectTo c) (cn_RedirectToUnix c) mode sni
    (or_default (cn_Visibility c) "audit_only") (cn_Message c) (or_default (cn_OnFailure c) "fail_closed").

Fixpoint connect_loop (hostPort : string) (rules : list compiledConnectRedirectRule)
  : result redirect_panic ConnectRedirectResult :=
  match rules with
  | [] => Ok (mkConnectResult false "" "" "" "" "" "" "" "")
  | r :: rest =>
    match ccn_pattern r with
    | None => Err NilRegexp
    | Some re => if re hostPort then Ok (connect_result (ccn_rule r)) else connect_loop hostPort rest
    end
  end.

Definition EvaluateConnectRedirect (hostPort : string) : result redirect_panic ConnectRedirectResult :=
  connect_loop (normal_hostport hostPort) (connectRedirectRules e).

End Checks.

(** ** Path redirector ([redirect.go]) *)

Record PathRedirectRule : Type := mkPathRedirect {
  pr_Name : string;
  pr_SourcePattern : string;
  pr_TargetBase : string;
  pr_Operations : list string;
  pr_PreserveTree : bool
}.

Record compiledRedirectRule : Type := mkCompiledRedirect {
  cpr_rule : PathRedirectRule;
  cpr_glob : Glob;
  cpr_ops : gset string
}.

Section Redirector.
Context {U : UnicodeCase} `{L : Libraries}.

Definition NewPathRedirector (rules : list PathRedirectRule) : option (list compiledRedirectRule) :=
  mapM (fun r => g ← glob_Compile (pr_SourcePattern r) [ch_slash];
                 Some (mkCompiledRedirect r g (op_set (pr_Operations r)))) rules.

Definition matchRedirectOp : gset string -> string -> bool := matchOp.

Definition redirect_applies (path operation : string) (r : compiledRedirectRule) : bool :=
  matchRedirectOp (cpr_ops r) operation && cpr_glob r path.

Definition redirect_path (path : string) (r : PathRedirectRule) : string :=
  if pr_PreserveTree r then filepath_Join [pr_TargetBase r; path]
  else filepath_Join [pr_TargetBase r; filepath_Base path].

Definition Redirect (pr : option (list compiledRedirectRule)) (path operation : string) : string * bool :=
  match pr with
  | None => (path, false)
  | Some rules =>
    match first_rule (redirect_applies path (ToLower operation)) rules with
    | Some r => (redirect_path path (cpr_rule r), true)
    | None => (path, false)
    end
  end.

Definition RedirectWithInfo (pr : option (list compiledRedirectRule)) (path operation : string)
  : option FileRedirectInfo :=
  rules ← pr;
  r ← first_rule (redirect_applies path (ToLower operation)) rules;
  Some (mkFileRedirect path (redirect_path path (cpr_rule r)) (ToLower operation) (pr_Name (cpr_rule r))).

End Redirector.
End Checks.
Export Checks.
