(* ===== verification/PolicyEngineTheorems.v ===== *)
(** * Theorems on the policy engine

    [EngineFacts] holds the reference notions: the chain of command lines hidden in nested shells
    and the objections met on the way, containment of paths, hits on the declarations.
    [EngineTheorems] states what the engine decides in those terms. *)

From Stdlib Require Import ZArith Lia Ascii String Sorted.
From stdpp Require Import base list strings gmap relations sorting.
From S2P Require Import Prelude GoText GoNet GoStrings ShellParse PolicyModel SignalEngine HttpService.
From S2P Require Import HttpServiceTheorems PolicyEngine.
Open Scope string_scope.
Open Scope list_scope.
Open Scope Z_scope.

Module EngineFacts.
Section Wrapping.
Context {U : UnicodeCase} (fl : Flags).

(** ** Decisions *)

Lemma wrap_deny rule msg rd :
  wrapDecision fl DecisionDeny rule msg rd = decision DecisionDeny DecisionDeny rule msg None None.
Proof using. reflexivity. Qed.

(** A denial is effective whatever the flags. *)
Definition consistent (d : Decision) : Prop :=
  PolicyDecision d = DecisionDeny -> EffectiveDecision d = DecisionDeny.

Lemma wrap_consistent dec rule msg rd : consistent (wrapDecision fl dec rule msg rd).
Proof using.
  unfold consistent, wrapDecision. generalize (ToLower dec). intros pd. cbv zeta.
  destruct (bool_decide (pd = DecisionAllow)) eqn:E1; [bool_prop; by subst|].
  destruct (bool_decide (pd = DecisionDeny)) eqn:E2; [done|]. bool_prop.
  repeat case_goal; done.
Qed.

Lemma wrap_no_tor dec rule msg rd : d_Tor (wrapDecision fl dec rule msg rd) = None.
Proof using. unfold wrapDecision. generalize (ToLower dec). intros pd. repeat case_goal; done. Qed.

Lemma strictness_max d : decisionStrictness d <= 4.
Proof using. unfold decisionStrictness. repeat case_goal; lia. Qed.

Lemma strictness_deny d : 4 <= decisionStrictness d -> d = DecisionDeny.
Proof using. unfold decisionStrictness. case_bool_decide; [done|]. repeat case_goal; lia. Qed.

(** ** Tightening *)

Notation strictness d := (decisionStrictness (PolicyDecision d)).

Lemma tighten_strictness r d : strictness (tighten r d) = Z.max (strictness r) (strictness d).
Proof using.
  unfold tighten. destruct (Z.ltb_spec (strictness r) (strictness d)); [|lia].
  destruct (_ || _); cbn [PolicyDecision set_EnvPolicy]; lia.
Qed.

Lemma tighten_keep r d : strictness d <= strictness r -> tighten r d = r.
Proof using. unfold tighten. intros. destruct (Z.ltb_spec (strictness r) (strictness d)); [lia|done]. Qed.

(** What a stricter decision takes from the one before it does not depend on steps in between. *)
Lemma tighten_tighten r d o : strictness d < strictness o -> tighten (tighten r d) o = tighten r o.
Proof using.
  intros Hlt. destruct (Z.ltb_spec (strictness r) (strictness d)) as [Hr|Hr]; [|by rewrite (tighten_keep r d)].
  unfold tighten at 1. rewrite tighten_strictness. unfold tighten. rewrite (proj2 (Z.ltb_lt (strictness r) (strictness d)) Hr).
  rewrite (proj2 (Z.ltb_lt _ (strictness o))), (proj2 (Z.ltb_lt (strictness r) (strictness o))) by lia.
  destruct ((PolicyDecision o ==? DecisionAudit) || (PolicyDecision o ==? DecisionApprove)) eqn:Eo; [|done].
  assert (strictness o <= 2) by (apply orb_true_iff in Eo as [Eo|Eo]; bool_prop; rewrite Eo; done).
  assert (0 <= strictness r) by (unfold decisionStrictness; repeat case_goal; lia).
  assert (E1 : strictness d = 1) by lia. clear - E1.
  assert (PolicyDecision d = DecisionAudit) as ->; [|done].
  revert E1. unfold decisionStrictness. repeat case_goal; intros; bool_prop; try lia; done.
Qed.

Lemma tighten_consistent r d : consistent r -> consistent d -> consistent (tighten r d).
Proof using.
  unfold tighten, consistent. intros Hr Hd. destruct (_ <? _); [|done]. by destruct (_ || _).
Qed.

End Wrapping.
Notation strictness d := (decisionStrictness (PolicyDecision d)).

(** ** Nested shells *)
Section Nested.
Context {U : UnicodeCase} (e : Engine).

Notation line := (string * list string)%type.

(** A shell line hides another one. *)
Definition derives (x y : line) : Prop := DerivePolicyTarget x.1 x.2 = Some y.

(** What speaks against running a line: an explicit rule for a hidden line, a wrapper that cannot be
    taken apart, a script that cannot be read while some command is restricted, or a line nested
    too deeply. *)
Inductive reason := ByRule | Bypass | Opaque | TooDeep.

(** The objections to a line: how many shells deep each is met, why, and the decision it asks for.
    Only [TooDeep] knows the [depth] the derivation is limited to. *)
Inductive objection (execveActive : bool) (mode : ShellCOpaqueMode) (depth : nat) (start : line) : nat -> reason -> Decision -> Prop :=
| obj_rule n c a :
    (0 < n)%nat -> nsteps derives n start (c, a) -> (matchCommandRules e c a).2 = true ->
    objection execveActive mode depth start n ByRule (matchCommandRules e c a).1
| obj_bypass n c a :
    nsteps derives n start (c, a) -> IsShellCBypassAttempt c a = true ->
    objection execveActive mode depth start n Bypass (bypass_deny e c a)
| obj_opaque n c a :
    nsteps derives n start (c, a) -> IsShellCBypassAttempt c a = false -> IsOpaqueShellC c a = true ->
    hasRestrictiveCommandRule e = true -> denies_opaque execveActive mode = true ->
    objection execveActive mode depth start n Opaque (opaque_deny e c a)
| obj_depth x y :
    nsteps derives depth start x -> derives x y -> objection execveActive mode depth start depth TooDeep (depth_deny e).

(** A script that cannot be read, met exactly where the derivation is cut off. *)
Definition at_cap (depth n : nat) (w : reason) : Prop := n = depth /\ (w = Bypass \/ w = Opaque).

Lemma derives_status c a y : derives (c, a) y -> shellStatus c a = statusOK.
Proof using.
  unfold derives, DerivePolicyTarget, shellStatus. cbn [fst snd].
  destruct (bool_decide (c = "")); [done|].
  destruct (isKnownShell (basenameLower c)); cbn [negb]; [|done].
  by destruct (parseSimpleShellC a) as [[? ?] []].
Qed.

Lemma derives_inv n cur next y : derives cur next -> nsteps derives (S n) cur y -> nsteps derives n next y.
Proof using. intros Hd Hs. inversion Hs as [|n' ? z ? H1 Hrest]; subst. unfold derives in *. rewrite H1 in Hd. by injection Hd as ->. Qed.

(** Objections to a shell line are those to the line it hides, and the rule for that line. *)
Lemma objection_step x m dp cur next n w o : derives cur next ->
  objection x m (S dp) cur n w o <->
  exists n', n = S n' /\ (objection x m dp next n' w o \/
    n' = O /\ w = ByRule /\ (matchCommandRules e next.1 next.2).2 = true /\ o = (matchCommandRules e next.1 next.2).1).
Proof using.
  intros Hd. destruct cur as [cc ca]. pose proof (derives_status _ _ _ Hd) as Hst. split.
  - destruct 1 as [n c a Hn Hs Hm|n c a Hs Hb|n c a Hs Hnb Ho Hr Hm|y z Hs Hy].
    + destruct n as [|n]; [lia|]. exists n. split; [done|]. apply (derives_inv _ _ _ _ Hd) in Hs.
      destruct n as [|n]; [right; inversion Hs; subst; done|left; apply obj_rule; [lia|done..]].
    + destruct n as [|n]; [inversion Hs; subst; unfold IsShellCBypassAttempt in Hb; by rewrite Hst in Hb|].
      exists n. split; [done|left]. apply (derives_inv _ _ _ _ Hd) in Hs. by apply obj_bypass.
    + destruct n as [|n]; [inversion Hs; subst; unfold IsOpaqueShellC in Ho; by rewrite Hst in Ho|].
      exists n. split; [done|left]. apply (derives_inv _ _ _ _ Hd) in Hs. by apply obj_opaque.
    + exists dp. split; [done|left]. apply (derives_inv _ _ _ _ Hd) in Hs. by eapply obj_depth.
  - intros (n' & -> & [[k c a Hn Hs Hm|k c a Hs Hb|k c a Hs Hnb Ho Hr Hm|y z Hs Hy]|(-> & -> & Hm & ->)]).
    + apply obj_rule; [lia|by econstructor|done].
    + apply obj_bypass; [by econstructor|done].
    + apply obj_opaque; [by econstructor|done..].
    + eapply obj_depth; [by econstructor|done].
    + destruct next as [c a]. apply obj_rule; [lia| |done]. by econstructor; [|constructor].
Qed.

(** The end of [checkCommand] on what the loop returns. *)
Definition capped (p : Decision * line) : Decision :=
  match DerivePolicyTarget p.2.1 p.2.2 with Some _ => tighten p.1 (depth_deny e) | None => p.1 end.

(** The loop returns the strictest of the result so far and the objections, those at the cap aside. *)
Definition strictest (x : bool) (m : ShellCOpaqueMode) (dp : nat) (r : Decision) (cur : line) (d : Decision) : Prop :=
  strictness r <= strictness d /\
  (forall n w o, objection x m dp cur n w o -> ~ at_cap dp n w -> strictness o <= strictness d) /\
  (d = r \/ exists n w o, objection x m dp cur n w o /\ strictness r < strictness o /\ d = tighten r o).

(** Without a line below it, a line has no objections but those to itself. *)
Lemma objection_last x m dp c a n w o : DerivePolicyTarget c a = None -> objection x m (S dp) (c, a) n w o ->
  n = O /\ (IsShellCBypassAttempt c a = true /\ o = bypass_deny e c a \/
           IsShellCBypassAttempt c a = false /\ hasRestrictiveCommandRule e && IsOpaqueShellC c a && denies_opaque x m = true /\ o = opaque_deny e c a).
Proof using.
  intros Hn. assert (Hno : forall n y, nsteps derives n (c, a) y -> n = O /\ y = (c, a)).
  { intros k y Hs. inversion Hs as [|n' ? z ? H1]; subst; [done|]. unfold derives in H1. cbn [fst snd] in H1. congruence. }
  intros [k c' a' Hl Hs _|k c' a' Hs Hb|k c' a' Hs Hnb Ho Hr Hm|y z Hs _].
  - apply Hno in Hs as [-> _]. lia.
  - apply Hno in Hs as [-> [= -> ->]]. auto.
  - apply Hno in Hs as [-> [= -> ->]]. split; [done|right]. by rewrite Ho, Hr, Hm.
  - apply Hno in Hs as [? _]. lia.
Qed.

(** What the loop does with one objection that is the strictest there can be. *)
Lemma strictest_deny x m dp r cur n w o : strictness o = 4 -> objection x m dp cur n w o -> strictest x m dp r cur (tighten r o).
Proof using.
  intros Ho Hobj. pose proof (strictness_max (PolicyDecision r)). unfold strictest. rewrite tighten_strictness, Ho. split_and!; [lia| |].
  - intros n' w' o' _ _. pose proof (strictness_max (PolicyDecision o')). lia.
  - destruct (decide (strictness r = 4)) as [E|E]; [left; apply tighten_keep; lia|right]. exists n, w, o. split_and!; [done|lia|done].
Qed.

Lemma strictest_stop x m dp r c a :
  DerivePolicyTarget c a = None ->
  strictest x m (S dp) r (c, a) (stop_derivation e x m r c a).
Proof using.
  intros Hn. pose proof (fun n w o => objection_last x m dp c a n w o Hn) as Hl.
  unfold stop_derivation. destruct (IsShellCBypassAttempt c a) eqn:Eb.
  { eapply strictest_deny; [done|]. by apply (obj_bypass _ _ _ _ O); [constructor|]. }
  destruct (hasRestrictiveCommandRule e && IsOpaqueShellC c a && denies_opaque x m) eqn:Eo.
  - bool_prop. eapply strictest_deny; [done|]. by apply (obj_opaque _ _ _ _ O); [constructor|..].
  - split_and!; [lia| |by left]. intros n w o Ho _. apply Hl in Ho as (_ & [[? _]|(_ & ? & _)]); congruence.
Qed.

Lemma derive_loop_strictest x m dp : forall r c a,
  strictest x m dp r (c, a) (capped (derive_loop e x m dp r c a)).
Proof using.
  induction dp as [|dp IH]; intros r c a; cbn [derive_loop].
  - unfold capped. cbn [fst snd]. destruct (DerivePolicyTarget c a) as [y|] eqn:Ed.
    + eapply strictest_deny; [done|]. by eapply obj_depth; [constructor|].
    + split_and!; [lia| |by left]. intros n w o Ho Hc. destruct n as [|n].
      * inversion Ho as [? ? ? Hlt| | |y z Hs Hy]; subst; [lia|destruct Hc; split; [done|auto]..|]. inversion Hs; subst. unfold derives in Hy. cbn [fst snd] in Hy. congruence.
      * assert (exists y, nsteps derives (S n) (c, a) y) as [y Hy].
        { inversion Ho; subst; eauto. }
        inversion Hy as [|? ? z ? Hz]; subst. unfold derives in Hz. cbn [fst snd] in Hz. congruence.
  - destruct (DerivePolicyTarget c a) as [[c' a']|] eqn:Ed.
    2: { unfold capped. cbn [fst snd]. rewrite Ed. by apply strictest_stop. }
    pose proof (fun n w o => objection_step x m dp (c, a) (c', a') n w o Ed) as Hstep. cbn [fst snd] in Hstep.
    destruct (matchCommandRules e c' a') as [dec mt] eqn:Em. cbn [fst snd] in Hstep.
    specialize (IH (if mt then tighten r dec else r) c' a'). destruct IH as (H1 & H2 & H3).
    set (d := capped _) in *.
    assert (Hdec : mt = true -> objection x m (S dp) (c, a) 1 ByRule dec) by (intros ->; apply Hstep; exists O; auto 10).
    assert (Hr : strictness r <= strictness d) by (destruct mt; [rewrite tighten_strictness in H1|]; lia).
    split_and!; [done| |].
    + intros n w o (n' & -> & [Ho|(-> & -> & -> & ->)])%Hstep Hc; [|rewrite tighten_strictness in H1; lia].
      apply (H2 n' w o Ho). intros [-> Hw]. by apply Hc.
    + destruct H3 as [H3|(n & w & o & Ho & Hlt & H3)].
      * destruct mt; [|by left]. destruct (decide (strictness dec <= strictness r)) as [Hle|Hgt]; [left; by rewrite H3, tighten_keep|].
        right. exists 1%nat, ByRule, dec. split_and!; [auto|lia|done].
      * right. exists (S n), w, o. split; [apply Hstep; eauto|]. destruct mt; [|done].
        rewrite tighten_strictness in Hlt. split; [lia|]. rewrite H3. apply tighten_tighten. lia.
Qed.

Lemma checkCommand_capped c a x m :
  checkCommand e c a x m = capped (derive_loop e x m maxShellCDeriveDepth (matchCommandRules e c a).1 c a).
Proof using. unfold checkCommand, capped. by destruct (derive_loop _ _ _ _ _ _ _) as [r [c' a']]. Qed.

Lemma match_consistent c a : consistent (matchCommandRules e c a).1.
Proof using.
  unfold matchCommandRules, rule_decision, default_deny. destruct (first_rule _ _) as [r|]; cbn [fst].
  - exact (wrap_consistent (e_flags e) _ _ _ _).
  - done.
Qed.

Lemma derive_loop_consistent x m dp : forall r c a, consistent r -> consistent (capped (derive_loop e x m dp r c a)).
Proof using.
  induction dp as [|dp IH]; intros r c a Hr; cbn [derive_loop].
  - unfold capped. destruct (DerivePolicyTarget _ _); [|done]. by apply tighten_consistent.
  - destruct (DerivePolicyTarget c a) as [[c' a']|] eqn:Ed.
    + pose proof (match_consistent c' a'). destruct (matchCommandRules e c' a') as [dec []]; apply IH; [|done].
      by apply tighten_consistent.
    + unfold capped. cbn [fst snd]. rewrite Ed. unfold stop_derivation.
      repeat case_goal; try done; by apply tighten_consistent.
Qed.

End Nested.

(** ** First applicable rule *)

Lemma first_rule_split {A} (f : A -> bool) l r :
  first_rule f l = Some r ->
  exists pre post, l = pre ++ r :: post /\ f r = true /\ Forall (fun x => f x = false) pre.
Proof.
  unfold first_rule. induction l as [|x l IH]; cbn [List.find]; [done|]. destruct (f x) eqn:E.
  - intros [= ->]. by exists [], l.
  - intros (pre & post & -> & Hr & Hpre)%IH. exists (x :: pre), post. split_and!; [done..|by constructor].
Qed.

Lemma first_rule_None {A} (f : A -> bool) l : first_rule f l = None -> Forall (fun x => f x = false) l.
Proof.
  unfold first_rule. induction l as [|x l IH]; cbn [List.find]; [constructor|]. destruct (f x) eqn:E; [done|].
  intros H. constructor; auto.
Qed.

(** ** Environment hits on the declarations *)
Section EnvHits.
Context {U : UnicodeCase} `{L : Libraries}.

Definition pattern_covers (name pat : string) : Prop :=
  exists g, glob_Compile pat [] = Some g /\ g name = true.

(** The specificity of what denies a name: a deny pattern, or, when there is none, the name itself
    if it looks like a credential or (without allow patterns) is on the built-in list. *)
Definition env_denial (pol : EnvPolicy) (name : string) (spec : Z) : Prop :=
  (exists pat, pat ∈ ep_Deny pol /\ pattern_covers name pat /\ spec = envPatternSpecificity pat) \/
  (Forall (fun pat => ~ pattern_covers name pat) (ep_Deny pol) /\
   (looks_secret name = true \/ ep_Allow pol = [] /\ name ∈ defaultSecretDeny) /\
   spec = envPatternSpecificity name).

Definition compiled_as (pats : list string) (globs : list Glob) : Prop :=
  Forall2 (fun pat g => glob_Compile pat [] = Some g) pats globs.

Lemma pattern_hits_decl pats globs allow by_ name h :
  compiled_as pats globs ->
  h ∈ pattern_hits allow by_ name globs pats <->
  exists pat, pat ∈ pats /\ pattern_covers name pat /\ h = mkEnvHit allow by_ pat (envPatternSpecificity pat).
Proof using.
  intros Hp. unfold pattern_hits. rewrite list_elem_of_omap. split.
  - intros ([i g] & Hin & Hh). apply list_elem_of_lookup in Hin as [j Hj].
    rewrite lookup_zip_with in Hj. destruct (seq _ _ !! j) eqn:Ej; [|done].
    apply lookup_seq in Ej as [-> _]. cbn in Hj.
    destruct (globs !! j) as [g'|] eqn:Eg; [|done]. cbn in Hj. injection Hj as <- <-.
    destruct (g' name) eqn:Egp; [|done]. destruct (Forall2_lookup_r _ _ _ _ _ Hp Eg) as (pat & Hpat & Hgl).
    rewrite Hpat in Hh. injection Hh as <-. exists pat. split_and!; [by eapply list_elem_of_lookup_2| |done].
    by exists g'.
  - intros (pat & [i Hi]%list_elem_of_lookup & (g & Hg & Hgp) & ->).
    destruct (Forall2_lookup_l _ _ _ _ _ Hp Hi) as (g' & Hg' & Hgl). rewrite Hg in Hgl. injection Hgl as <-.
    exists (i, g). split; [|by rewrite Hgp, Hi].
    apply (list_elem_of_lookup_2 _ i). rewrite lookup_zip_with, lookup_seq_lt; [|by eapply lookup_lt_Some].
    cbn. by rewrite Hg'.
Qed.

(** The fold keeps a denial unless an allowance is strictly more specific. *)
Lemma best_env_hit_spec best hits :
  let b := best_env_hit best hits in
  b ∈ best :: hits /\
  forall h, h ∈ best :: hits -> eh_spec h <= eh_spec b /\ (eh_spec h = eh_spec b -> eh_allow b = true -> eh_allow h = true).
Proof using.
  revert best. induction hits as [|x hits IH]; intros best; cbn [best_env_hit].
  { split; [left|]. intros h ->%list_elem_of_singleton. split; [lia|done]. }
  match goal with |- context [best_env_hit ?n hits] => set (nb := n) end.
  destruct (IH nb) as [Hin Hmax]. set (b := best_env_hit nb hits) in *.
  assert (Hnb : nb = x \/ nb = best) by (unfold nb; repeat case_goal; auto).
  split.
  { rewrite elem_of_cons in Hin. rewrite !elem_of_cons. destruct Hnb as [Hx|Hx]; rewrite Hx in Hin at 1; tauto. }
  intros h Hh. destruct (Hmax nb (list_elem_of_here _ _)) as [Hle Ha].
  assert (Hbx : forall y, y = x \/ y = best -> eh_spec y <= eh_spec nb /\
            (eh_spec y = eh_spec nb -> eh_allow nb = true -> eh_allow y = true)).
  { intros y Hy. unfold nb. destruct (Z.ltb_spec (eh_spec best) (eh_spec x)).
    - destruct Hy as [->| ->]; split; try lia; auto.
    - destruct (Z.eqb_spec (eh_spec x) (eh_spec best)), (eh_allow x) eqn:E1, (eh_allow best) eqn:E2;
        cbn; destruct Hy as [->| ->]; split; rewrite ?E1, ?E2; try lia; try done; congruence. }
  rewrite !elem_of_cons in Hh. destruct Hh as [->|[->|Hh]].
  - destruct (Hbx best) as [H1 H2]; [auto|]. split; [lia|]. intros. apply H2; [lia|]. apply Ha; [lia|done].
  - destruct (Hbx x) as [H1 H2]; [auto|]. split; [lia|]. intros. apply H2; [lia|]. apply Ha; [lia|done].
  - apply Hmax. by right.
Qed.

Lemma env_hits_deny (e : Engine) name s :
  compiled_as (ep_Deny (p_EnvPolicy (e_policy e))) (compiledEnvDeny e) ->
  compiled_as (ep_Allow (p_EnvPolicy (e_policy e))) (compiledEnvAllow e) ->
  env_denial (p_EnvPolicy (e_policy e)) name s <->
  exists h, h ∈ env_hits e name /\ eh_allow h = false /\ eh_spec h = s.
Proof using.
  intros Hd Ha. unfold env_hits, env_denial. set (pol := p_EnvPolicy (e_policy e)) in *.
  pose proof (fun h => pattern_hits_decl _ _ false "deny" name h Hd) as Hdeny.
  pose proof (fun h => pattern_hits_decl _ _ true "allow" name h Ha) as Hallow.
  assert (Hne : nonempty (pattern_hits false "deny" name (compiledEnvDeny e) (ep_Deny pol)) = false <->
            Forall (fun pat => ~ pattern_covers name pat) (ep_Deny pol)).
  { rewrite Forall_forall. destruct (pattern_hits _ _ _ _ _) as [|h0 hs] eqn:E; split; [|done|done|].
    - intros _ pat Hp Hc. eapply not_elem_of_nil, Hdeny. eauto.
    - intros Hall. destruct (proj1 (Hdeny h0)) as (pat & Hp & Hc & _); [left|]. by destruct (Hall pat Hp). }
  assert (Hna : nonempty (compiledEnvAllow e) = false <-> ep_Allow pol = []).
  { apply Forall2_length in Ha. fold pol in Ha. destruct (ep_Allow pol), (compiledEnvAllow e); cbn in *; naive_solver. }
  setoid_rewrite elem_of_app. setoid_rewrite elem_of_app. setoid_rewrite Hdeny. setoid_rewrite Hallow. split.
  - intros [(pat & Hp & Hc & ->)|(Hnone & Hsec & ->)]; [eexists; split; [left; eauto|done]|].
    exists (secret_hit name). split; [|done]. do 2 right. rewrite (proj2 Hne Hnone).
    destruct Hsec as [->|[Hal Hin]]; [left|]. rewrite (proj2 Hna Hal). rewrite elem_of_app. right.
    apply list_elem_of_fmap. exists name. split; [done|]. apply list_elem_of_In, List.filter_In.
    split; [by apply list_elem_of_In|]. apply String.eqb_refl.
  - intros (h & [(pat & Hp & Hc & ->)|[(pat & Hp & Hc & ->)|Hin]] & Hf & <-); [left; eauto|done|].
    destruct (nonempty (pattern_hits _ _ _ _ _)) eqn:En; [by apply not_elem_of_nil in Hin|].
    right. split; [by apply Hne|]. apply elem_of_app in Hin as [Hin|Hin].
    + destruct (looks_secret name); [|by apply not_elem_of_nil in Hin].
      apply list_elem_of_singleton in Hin as ->. auto.
    + destruct (nonempty (compiledEnvAllow e)) eqn:Ena; [by apply not_elem_of_nil in Hin|].
      apply list_elem_of_fmap in Hin as (x & -> & Hx%list_elem_of_In).
      apply List.filter_In in Hx as [Hx ->%String.eqb_eq]. split; [right|done].
      split; [by apply Hna|by apply list_elem_of_In].
Qed.

Lemma env_hits_allow (e : Engine) name h :
  compiled_as (ep_Deny (p_EnvPolicy (e_policy e))) (compiledEnvDeny e) ->
  compiled_as (ep_Allow (p_EnvPolicy (e_policy e))) (compiledEnvAllow e) ->
  h ∈ env_hits e name /\ eh_allow h = true <->
  exists pat, pat ∈ ep_Allow (p_EnvPolicy (e_policy e)) /\ pattern_covers name pat /\
    h = mkEnvHit true "allow" pat (envPatternSpecificity pat).
Proof using.
  intros Hd Ha. unfold env_hits. rewrite !elem_of_app, !pattern_hits_decl by done. split.
  2: { intros (pat & ? & ? & ->). split; [right; left; eauto|done]. }
  intros [[(pat & _ & _ & ->)|[Hx|Hin]] Ht]; [done|done|]. exfalso. revert Hin.
  destruct (nonempty _); [by intros ?%not_elem_of_nil|]. rewrite elem_of_app.
  destruct (looks_secret name), (nonempty (compiledEnvAllow e)); rewrite ?list_elem_of_fmap, ?list_elem_of_singleton;
    intros [?|?]; repeat match goal with
                         | H : _ ∈ [] |- _ => by apply not_elem_of_nil in H
                         | H : exists _, _ |- _ => destruct H as (? & -> & _)
                         end; by subst.
Qed.

End EnvHits.

End EngineFacts.
Export EngineFacts.

Module EngineTheorems.
Section Commands.
Context {U : UnicodeCase} (e : Engine).

(** C3. No nesting of shells evades a rule: whatever explicit rule matches a command line hidden at
    any depth in a shell line, the decision on the shell line is at least as strict; when that
    rule denies, the shell line is denied, in effect too. *)
Theorem nested_rule_not_evaded command args c a x mode :
  rtc derives (command, args) (c, a) -> (matchCommandRules e c a).2 = true ->
  strictness (matchCommandRules e c a).1 <= strictness (checkCommand e command args x mode) /\
  (PolicyDecision (matchCommandRules e c a).1 = DecisionDeny ->
   EffectiveDecision (checkCommand e command args x mode) = DecisionDeny).
Proof.
  intros [n Hn]%rtc_nsteps Hm. rewrite checkCommand_capped.
  destruct (derive_loop_strictest e x mode maxShellCDeriveDepth (matchCommandRules e command args).1 command args)
    as (H1 & H2 & _).
  pose proof (derive_loop_consistent e x mode maxShellCDeriveDepth _ command args (match_consistent e command args)) as Hc.
  set (d := capped _ _) in *.
  assert (Hle : strictness (matchCommandRules e c a).1 <= strictness d).
  { destruct (decide (n = O)) as [->|Hne]; [by inversion Hn; subst|]. eapply (H2 n ByRule); [apply obj_rule; [lia|done..]|]. by intros [_ [?|?]]. }
  split; [done|]. intros Hd. apply Hc, strictness_deny. rewrite <- Hle, Hd. done.
Qed.

(** C4. The decision on a command line is the strictest of the decision on the line itself and the
    objections met in the shells nested in it, at any depth: rules, wrappers that cannot be taken
    apart, scripts that cannot be read, too many shells.  It is the line's own decision, or the
    one of an objection that is stricter, with the line's environment policy where the line runs
    as it is.  Every objection counts but two: to a script that cannot be read, or a wrapper that cannot
    be taken apart, exactly four shells deep, where the code stops looking (see [depth_cap_evaded]). *)
Theorem checkCommand_strictest command args x mode :
  let outer := (matchCommandRules e command args).1 in
  let d := checkCommand e command args x mode in
  let against := objection e x mode maxShellCDeriveDepth (command, args) in
  strictness outer <= strictness d /\
  (forall n w o, against n w o -> ~ at_cap maxShellCDeriveDepth n w -> strictness o <= strictness d) /\
  (d = outer \/ exists n w o, against n w o /\ strictness outer < strictness o /\ d = tighten outer o).
Proof. cbv zeta. rewrite checkCommand_capped. apply derive_loop_strictest. Qed.

(** A direct execve is decided by the same rule as the command pre-check, for a program whose
    name does not carry the shim's suffix; only the name of the default rule differs. *)
Theorem CheckExecve_agrees filename argv :
  torChecker e = None ->
  TrimSuffix (ToLower (filepath_Base filename)) ".real" = ToLower (filepath_Base filename) ->
  CheckExecve e filename argv 0 =
  if (matchCommandRules e filename argv).2 then (matchCommandRules e filename argv).1
  else default_deny e "default-deny-execve".
Proof.
  intros Ht Hn. unfold CheckExecve, matchCommandRules. rewrite Ht. cbn [mbind option_bind].
  assert (Hf : first_rule (execve_applies filename argv 0) (compiledCommandRules e) =
               first_rule (command_applies filename argv) (compiledCommandRules e)).
  { unfold first_rule. induction (compiledCommandRules e) as [|r rs IH]; [done|]. cbn [List.find].
    assert (Hr : command_applies filename argv r = execve_applies filename argv 0 r).
    { unfold command_applies, execve_applies. rewrite Hn.
      rewrite (bool_decide_eq_true_2 (ToLower (filepath_Base filename) = _)) by done.
      cbn [negb andb]. rewrite orb_false_r. do 3 f_equal.
      induction (cc_basenameGlobs r) as [|g gs IHg]; [done|]. cbn [existsb]. by rewrite orb_false_r, IHg. }
    by rewrite Hr, IH. }
  rewrite Hf. destruct (first_rule (command_applies filename argv) _); reflexivity.
Qed.

End Commands.

(** The network guards only tighten: with a Tor coordinator and a threat feed installed, the
    decision on a connection is a denial when the coordinator denies it or the feed lists the
    domain in any mode but [audit], and otherwise is the decision of the rules alone, with the
    verdicts attached. *)
Theorem network_guards_tighten {U : UnicodeCase} (e : Engine) store action tc domain ip port :
  let e' := SetTorPolicy (SetThreatStore e (Some store) action) (Some tc) in
  let bare := SetTorPolicy (SetThreatStore e None action) None in
  let d := CheckNetworkIP e' domain ip port in
  let d0 := CheckNetworkIP bare domain ip port in
  let tor_denies := match EvalConnect tc ip port with Some v => tv_Decision v ==? "deny" | None => false end in
  let listed := (normal_domain domain !=? "") && bool_decide (is_Some (store (normal_domain domain))) in
  (PolicyDecision d, EffectiveDecision d) =
    (if tor_denies || (listed && (action !=? "audit")) then (DecisionDeny, DecisionDeny)
     else (PolicyDecision d0, EffectiveDecision d0)) /\
  d_Tor d = EvalConnect tc ip port.
Proof.
  cbv zeta. unfold CheckNetworkIP, tor_gate. cbn [torChecker SetTorPolicy mbind option_bind].
  set (dom := normal_domain domain).
  assert (Hact : threatAction (SetTorPolicy (SetThreatStore e (Some store) action) (Some tc)) ==? "deny" =
                 (action !=? "audit")).
  { cbn [threatAction SetTorPolicy SetThreatStore]. unfold one_of. cbn [existsb].
    destruct (String.eqb_spec action "deny") as [->|H1]; [done|].
    destruct (String.eqb_spec action "audit") as [->|H2]; cbn [orb]; [done|].
    by rewrite (bool_decide_eq_false_2 (action = "audit")). }
  assert (Hthreat : threat_of (SetTorPolicy (SetThreatStore e (Some store) action) (Some tc)) dom =
                    if dom ==? "" then None else store dom) by done.
  assert (Hbare : threat_of (SetTorPolicy (SetThreatStore e None action) None) dom = None).
  { unfold threat_of. cbn. by destruct (dom ==? ""). }
  generalize (match ip with Some ip0 => [ip0] | None => match ParseIP (string_bytes dom) with Some ip0 => [ip0] | None => [] end end).
  intros ips. unfold network_decision. rewrite Hact, Hthreat, Hbare.
  cbn [compiledNetworkRules SetTorPolicy SetThreatStore e_flags].
  destruct (EvalConnect tc ip port) as [v|] eqn:Ev; [destruct (bool_decide (tv_Decision v = "deny")) eqn:Edeny; [done|]|];
    destruct (bool_decide (dom = "")); cbn [negb andb orb];
    try (destruct (first_rule _ _) as [r|]; (split; [done|done || apply wrap_no_tor])).
  all: destruct (store dom) as [t|]; [rewrite (bool_decide_eq_true_2 (is_Some _)) by eauto|
         rewrite (bool_decide_eq_false_2 (is_Some _)) by (by intros [])]; cbn [andb];
    destruct (bool_decide (action = "audit")); cbn [negb];
    try destruct (first_rule (network_applies dom port ips) (compiledNetworkRules e)); split; done || apply wrap_no_tor.
Qed.

(** A redirected file lands below its target: for a path without a [..] element and a rooted
    target, the redirect path consists of the cleaned target followed by elements of the path. *)
Theorem CheckFile_redirect_below {U : UnicodeCase} (e : Engine) p op fr :
  Forall (fun r => cf_redirectTo r = "" \/ HasPrefix (cf_redirectTo r) "/" = true) (compiledFileRules e) ->
  dotdot ∉ elements p -> d_FileRedirect (CheckFile e p op) = Some fr ->
  exists r rest, r ∈ compiledFileRules e /\ file_applies p (ToLower op) r = true /\
    fr_OriginalPath fr = p /\
    fr_RedirectPath fr =
      bytes_string (ch_slash :: join_bytes [ch_slash] (clean_elems true (elements (cf_redirectTo r)) ++ rest)) /\
    rest = kept (elements (if cf_preserveTree r then p else filepath_Base p)) /\ dotdot ∉ rest.
Proof.
  intros Hroot Hp. unfold CheckFile. destruct (first_rule _ _) as [r|] eqn:Ef.
  2: { destruct (_ && _); [|done]. unfold wrapDecision. generalize (ToLower DecisionAllow). intros. repeat case_hyp H; done. }
  apply first_rule_split in Ef as (pre & post & Hl & Hr & _).
  assert (Hin : r ∈ compiledFileRules e) by (rewrite Hl; apply elem_of_app; right; left).
  destruct (bool_decide (cf_redirectTo r = "")) eqn:Ene; cbn [negb andb].
  { intros Hd. exfalso. revert Hd. unfold wrapDecision. generalize (ToLower (f_Decision (cf_rule r))).
    intros pd. repeat case_goal; done. }
  apply bool_decide_eq_false in Ene.
  assert (Hbase : HasPrefix (cf_redirectTo r) "/" = true) by (rewrite Forall_forall in Hroot; by destruct (Hroot r Hin)).
  destruct (bool_decide (PolicyDecision _ = DecisionRedirect)).
  2: { intros Hd. exfalso. revert Hd. unfold wrapDecision. generalize (ToLower (f_Decision (cf_rule r))).
       intros pd. repeat case_goal; done. }
  cbn [d_FileRedirect set_FileRedirect]. intros [= <-]. exists r.
  assert (Hq : dotdot ∉ elements (if cf_preserveTree r then p else filepath_Base p)).
  { destruct (cf_preserveTree r); [done|]. by apply Base_no_dotdot. }
  eexists. split_and!; [done..| |reflexivity|].
  - unfold computeFileRedirect, filepath_Join. cbn [fr_RedirectPath].
    destruct (cf_preserveTree r); rewrite !fmap_cons, fmap_nil, join_below by done; done.
  - unfold kept. intros [Hk _]%list_elem_of_In%List.filter_In. by apply Hq, list_elem_of_In.
Qed.

Section Compiled.
Context {U : UnicodeCase} `{L : Libraries}.
Context (sort_Slice : list compiledRegistryRule -> list compiledRegistryRule).

Lemma each_option_Forall2 {A B E} (f : A -> option B) (err : A -> E) l ys :
  each (fun x => of_option (err x) (f x)) l = Ok ys -> Forall2 (fun x y => f x = Some y) l ys.
Proof using.
  intros H%each_Ok. eapply Forall2_impl; [done|]. cbn. intros x y. apply of_option_Ok.
Qed.

(** What [NewEngine] leaves in the engine. *)
Lemma NewEngine_parts p fl e :
  NewEngine sort_Slice p fl = Ok e ->
  e_policy e = p /\
  compiled_as (ep_Allow (p_EnvPolicy p)) (compiledEnvAllow e) /\
  compiled_as (ep_Deny (p_EnvPolicy p)) (compiledEnvDeny e) /\
  (exists regs, each compile_registry_rule (p_RegistryRules p) = Ok regs /\
     compiledRegistryRules e = sort_Slice regs) /\
  dnsRedirectRules e = (fun r => mkCompiledDns r (regexp_Compile (dr_Match r))) <$> p_DnsRedirectRules p /\
  connectRedirectRules e = (fun r => mkCompiledConnect r (regexp_Compile (cn_Match r))) <$> p_ConnectRedirectRules p.
Proof using.
  unfold NewEngine. intros H. result_steps H. cbv zeta in H. result_steps H. injection H as <-.
  split_and!; [done|by eapply each_option_Forall2|by eapply each_option_Forall2|eauto|done|done].
Qed.

(** C36. An environment variable is visible exactly when an allow pattern covers it that is strictly
    more specific than everything that denies it (deny patterns; failing those, the look of a
    credential or the built-in list), or when nothing denies it and there are no allow patterns. *)
Theorem CheckEnv_exact p fl e name :
  NewEngine sort_Slice p fl = Ok e ->
  ed_Allowed (CheckEnv e name) = true <->
  (ep_Allow (p_EnvPolicy p) = [] /\ forall s, ~ env_denial (p_EnvPolicy p) name s) \/
  (exists pat, pat ∈ ep_Allow (p_EnvPolicy p) /\ pattern_covers name pat /\
     forall s, env_denial (p_EnvPolicy p) name s -> s < envPatternSpecificity pat).
Proof using.
  intros (<- & Ha & Hd & _)%NewEngine_parts. set (pol := p_EnvPolicy (e_policy e)) in *.
  pose proof (fun s => env_hits_deny e name s Hd Ha) as Hdeny.
  pose proof (fun h => env_hits_allow e name h Hd Ha) as Hallow. fold pol in Hdeny, Hallow.
  unfold CheckEnv. destruct (env_hits e name) as [|h0 hs].
  - assert (Hno : forall s, ~ env_denial pol name s).
    { intros s (h & Hin & _)%Hdeny. by apply not_elem_of_nil in Hin. }
    apply Forall2_length in Ha. destruct (ep_Allow pol) as [|a al] eqn:Eal, (compiledEnvAllow e); cbn in Ha |- *;
      [split; [by left|done]|lia|lia|].
    split; [done|]. intros [[? _]|(pat & Hp & Hc & _)]; [done|].
    destruct (proj2 (Hallow _) (ex_intro _ pat (conj Hp (conj Hc eq_refl)))) as [Hin _].
    by apply not_elem_of_nil in Hin.
  - destruct (best_env_hit_spec h0 hs) as [Hin Hmax]. set (b := best_env_hit h0 hs) in *. cbn [ed_Allowed]. split.
    + intros Hb. right. destruct (proj1 (Hallow b)) as (pat & Hp & Hc & He); [done|].
      exists pat. split_and!; [done..|]. intros s (h & Hh & Hf & <-)%Hdeny.
      destruct (Hmax h Hh) as [Hle Htie]. rewrite He in *. cbn [eh_spec eh_allow] in *.
      destruct (decide (eh_spec h = envPatternSpecificity pat)); [|lia]. rewrite Htie in Hf; done.
    + intros [[Hal Hno]|(pat & Hp & Hc & Hlt)]; destruct (eh_allow b) eqn:Eb; try done; exfalso.
      * eapply (Hno (eh_spec b)), Hdeny. eauto.
      * destruct (proj2 (Hallow _) (ex_intro _ pat (conj Hp (conj Hc eq_refl)))) as [Hpin _].
        apply Hmax in Hpin as [Hle _]. cbn [eh_spec] in Hle.
        assert (eh_spec b < envPatternSpecificity pat); [|lia]. apply Hlt, Hdeny. eauto.
Qed.

(** A registry access is decided by an applicable rule of the highest priority, however the
    rules are ordered in the policy and ties are ordered by the sort; it is denied when no rule
    applies. *)
Theorem CheckRegistry_priority p fl e path op :
  (forall l, sort_Slice l ≡ₚ l) ->
  (forall l, StronglySorted (fun r1 r2 => creg_priority r2 <= creg_priority r1) (sort_Slice l)) ->
  NewEngine sort_Slice p fl = Ok e ->
  exists rules, each compile_registry_rule (p_RegistryRules p) = Ok rules /\
    let hits r := r ∈ rules /\ registry_applies path (ToLower op) r = true in
    (exists r, hits r /\ (forall r', hits r' -> r_Priority (creg_rule r') <= r_Priority (creg_rule r)) /\
       CheckRegistry e path op =
       wrapDecision (e_flags e) (r_Decision (creg_rule r)) (r_Name (creg_rule r)) (r_Message (creg_rule r)) None) \/
    ((forall r, ~ hits r) /\ EffectiveDecision (CheckRegistry e path op) = DecisionDeny).
Proof using.
  intros Hperm Hsort (_ & _ & _ & (regs & Hregs & Hr) & _)%NewEngine_parts. exists regs. split; [done|].
  cbv zeta. unfold CheckRegistry. rewrite Hr.
  assert (Hprio : forall r, r ∈ regs -> creg_priority r = r_Priority (creg_rule r)).
  { intros r [i Hi]%list_elem_of_lookup. apply each_Ok in Hregs.
    destruct (Forall2_lookup_r _ _ _ _ _ Hregs Hi) as (rr & _ & Hc). unfold compile_registry_rule in Hc.
    result_steps Hc. by injection Hc as <-. }
  destruct (first_rule _ _) as [r|] eqn:Ef.
  - left. apply first_rule_split in Ef as (pre & post & Hl & Ha & Hpre). exists r.
    assert (Hin : r ∈ regs) by (rewrite <- (Hperm regs), Hl; apply elem_of_app; right; left).
    split_and!; [done|done| |done]. intros r' [Hin' Ha'].
    rewrite <- !Hprio by done. specialize (Hsort regs). rewrite Hl in Hsort.
    rewrite <- (Hperm regs), Hl, elem_of_app, elem_of_cons in Hin'.
    rewrite Forall_forall in Hpre. destruct Hin' as [Hp|[->|Hp]]; [by rewrite (Hpre _ Hp) in Ha'|lia|].
    apply StronglySorted_app_1_r in Hsort. inversion_clear Hsort as [|? ? _ Hall].
    rewrite Forall_forall in Hall. by apply Hall.
  - right. apply first_rule_None in Ef. split; [|done]. intros r [Hin Ha].
    rewrite Forall_forall in Ef. rewrite <- (Hperm regs) in Hin. by rewrite (Ef r Hin) in Ha.
Qed.

Lemma each_i_Forall {E A} (f : nat -> A -> result E unit) l : forall i,
  each_i f i l = Ok tt -> Forall (fun x => exists j, f j x = Ok tt) l.
Proof using.
  induction l as [|x l IH]; cbn [each_i]; intros i H; [constructor|].
  apply rbind_Ok in H as ([] & Hx & H). constructor; eauto.
Qed.

(** C37. After validation no redirect lookup can meet a missing regular expression: both lookups
    return for every input, a DNS match resolves to a valid address, and a connection match names
    exactly one target, with a server name when it is to be rewritten. *)
Theorem redirects_total p fl e name :
  Validate p = Ok tt -> NewEngine sort_Slice p fl = Ok e ->
  (exists r, EvaluateDnsRedirect e name = Ok r /\
     (dq_Matched r = true -> is_Some (ParseIP (string_bytes (dq_ResolveTo r))) /\
        one_of (dq_OnFailure r) ["fail_closed"; "fail_open"; "retry_original"] = true)) /\
  (exists r, EvaluateConnectRedirect e name = Ok r /\
     (cq_Matched r = true -> (cq_RedirectTo r = "" <-> cq_RedirectToUnix r <> "") /\
        (cq_TLSMode r = "rewrite_sni" -> cq_SNI r <> ""))).
Proof using.
  intros Hv (_ & _ & _ & _ & Hdns & Hconn)%NewEngine_parts.
  unfold Validate in Hv. destruct (_ <=? _); [done|]. destruct (bool_decide (p_Name p = "")); [done|].
  result_steps Hv. clear Hv. destruct a, a0, a1, a2.
  apply each_i_Forall in Hstep0, Hstep2. split.
  - unfold EvaluateDnsRedirect. rewrite Hdns. revert Hstep0. generalize (p_DnsRedirectRules p). clear. intros l Hl.
    induction Hl as [|r rs (j & Hj) _ IH]; [eexists; split; [reflexivity|done]|]. rewrite fmap_cons. cbn [dns_loop cd_pattern cd_rule].
    unfold validate_dns_redirect in Hj. destruct (bool_decide (dr_Name r = "")), (bool_decide (dr_Match r = "")); try done.
    destruct (regexp_Compile (dr_Match r)) as [re|]; [|done]. destruct (re _); [|done].
    destruct (bool_decide (dr_ResolveTo r = "")); [done|].
    destruct (ParseIP (string_bytes (dr_ResolveTo r))) as [ip|] eqn:Eip; [|done].
    destruct (negb (known_visibility _)); [done|]. destruct (known_on_failure (dr_OnFailure r)) eqn:Ef; [|done].
    eexists. split; [done|]. cbn [dq_ResolveTo dq_OnFailure]. rewrite Eip. intros _. split; [eauto|].
    unfold known_on_failure, one_of in Ef |- *. cbn [existsb] in Ef |- *. unfold or_default.
    case_bool_decide as E0; [done|]. apply orb_true_iff in Ef as [Ef|Ef]; [by apply String.eqb_eq in Ef|done].
  - unfold EvaluateConnectRedirect. rewrite Hconn. revert Hstep2. generalize (p_ConnectRedirectRules p). clear. intros l Hl.
    induction Hl as [|r rs (j & Hj) _ IH]; [eexists; split; [reflexivity|done]|]. rewrite fmap_cons. cbn [connect_loop ccn_pattern ccn_rule].
    unfold validate_connect_redirect in Hj. destruct (bool_decide (cn_Name r = "")), (bool_decide (cn_Match r = "")); try done.
    destruct (regexp_Compile (cn_Match r)) as [re|]; [|done]. destruct (re _); [|done]. cbv zeta in Hj.
    eexists. split; [done|]. intros _. unfold connect_result. split.
    + destruct (bool_decide (cn_RedirectTo r = "")) eqn:E1, (bool_decide (cn_RedirectToUnix r = "")) eqn:E2; try done;
        bool_prop; destruct (cn_TLS r); cbn; split; done.
    + destruct (negb (_ =? _)); [done|]. result_steps Hj. clear Hj.
      destruct (cn_TLS r) as [[mode sni]|]; [|done]. cbn [tls_Mode tls_SNI cq_TLSMode cq_SNI] in *.
      destruct (negb (one_of mode _)); [done|]. unfold or_default.
      destruct (bool_decide (mode = "")) eqn:Em; [done|]. intros ->. cbn [andb] in Hstep.
      rewrite (bool_decide_eq_true_2 ("rewrite_sni" = _)) in Hstep by done. cbn [andb] in Hstep.
      intros ->. done.
Qed.

End Compiled.

(** ** Concrete runs *)

Definition sample_rule (name : string) (cmds : list string) (dec : string) : CommandRule :=
  mkCommandRule name cmds [] dec "" None DefaultContext [] [] 0 0 None.

Definition sample_policy (env : EnvPolicy) : Policy :=
  mkPolicy 1 "sample" []
    [mkFileRule "scratch" ["/home/**"] ["write"] "redirect" "" "/workspace/.scratch" true]
    [mkNetworkRule "web" ["*.example.com"] [443] [] "allow" ""]
    [sample_rule "shells" ["sh"; "bash"] "allow"; sample_rule "power" ["shutdown"] "deny";
     sample_rule "ask" ["/usr/bin/rm"] "approve"; sample_rule "trash" ["rm"] "soft_delete"]
    [] [mkRegistryRule "low" ["HKLM*"] [] "allow" "" 1; mkRegistryRule "high" ["HKLM*"] ["write"] "deny" "" 9]
    [] [mkDnsRedirectRule "internal" "corp" "10.0.0.1" "" ""]
    [mkConnectRedirectRule "api" "api" "127.0.0.1:8443" "" (Some (mkTLS "rewrite_sni" "api.local")) "" "" ""]
    (mkLimits 0 0 0 0 0 0) env None [] [] false [].

Definition sample_sort : list compiledRegistryRule -> list compiledRegistryRule :=
  stable_sort (fun r1 r2 => creg_priority r2 <? creg_priority r1).

Lemma sample_sort_sorted l : StronglySorted (fun r1 r2 => creg_priority r2 <= creg_priority r1) (sample_sort l).
Proof.
  assert (H : StronglySorted (not_after (fun r1 r2 => creg_priority r2 <? creg_priority r1)) (sample_sort l)).
  { apply stable_sort_sorted; unfold not_after; intros; lia. }
  induction H as [|r rs _ IH Hall]; constructor; [done|]. eapply Forall_impl; [exact Hall|].
  unfold not_after. intros. lia.
Qed.

Definition build (env : EnvPolicy) : result eerr Engine :=
  @NewEngine latin_case small_libraries sample_sort (sample_policy env) sample_flags.

Definition is_ok {E A} (r : result E A) : bool := match r with Ok _ => true | Err _ => false end.

Definition empty_engine : Engine :=
  mkEngine (sample_policy EnvPolicy_zero) sample_flags [] [] [] [] [] false ∅ ∅ [] [] [] [] None None "" None.

Definition sample_engine (env : EnvPolicy) : Engine :=
  match build env with Ok e => e | Err _ => empty_engine end.

Lemma sample_built env : is_ok (build env) = true -> build env = Ok (sample_engine env).
Proof. unfold sample_engine. by destruct (build env). Qed.

Notation E0 := (sample_engine EnvPolicy_zero).

(** A script put in quotes, byte by byte, as the argument of one more shell. *)
Definition quoted (s : string) : string :=
  bytes_string (concat ((fun b => if b =? ch_quote then [ch_dquote; b; ch_dquote] else [ch_quote; b; ch_quote])
                          <$> string_bytes s)).

Lemma nested_rule_not_evaded_witness :
  EffectiveDecision (@checkCommand latin_case E0 "/bin/sh" ["-c"; "bash -c " +:+ quoted "exec 'shut'down now"] true ShellCOpaqueAllow)
  = DecisionDeny.
Proof.
  apply (@nested_rule_not_evaded latin_case E0 "/bin/sh" ["-c"; "bash -c " +:+ quoted "exec 'shut'down now"]
           "shutdown" ["now"] true ShellCOpaqueAllow).
  - apply (rtc_l _ _ ("bash", ["-c"; "exec 'shut'down now"])); [vm_compute; reflexivity|].
    apply rtc_once. vm_compute. reflexivity.
  - vm_compute. reflexivity.
  - vm_compute. reflexivity.
Defined.

Lemma CheckExecve_agrees_witness :
  @CheckExecve latin_case E0 "/sbin/Shutdown" ["now"] 0 =
  (@matchCommandRules latin_case E0 "/sbin/Shutdown" ["now"]).1.
Proof.
  assert (Hm : (@matchCommandRules latin_case E0 "/sbin/Shutdown" ["now"]).2 = true) by (vm_compute; reflexivity).
  pose proof (@CheckExecve_agrees latin_case E0 "/sbin/Shutdown" ["now"]
                ltac:(vm_compute; reflexivity) ltac:(vm_compute; reflexivity)) as H.
  rewrite Hm in H. exact H.
Defined.

Lemma CheckFile_redirect_below_witness :
  exists fr r rest, d_FileRedirect (@CheckFile latin_case E0 "/home/u/./a.txt" "WRITE") = Some fr /\
    r ∈ compiledFileRules E0 /\ fr_RedirectPath fr = "/workspace/.scratch/home/u/a.txt" /\
    fr_RedirectPath fr =
      bytes_string (ch_slash :: join_bytes [ch_slash] (clean_elems true (elements (cf_redirectTo r)) ++ rest)).
Proof.
  destruct (d_FileRedirect (@CheckFile latin_case E0 "/home/u/./a.txt" "WRITE")) as [fr|] eqn:Ef.
  - destruct (@CheckFile_redirect_below latin_case E0 "/home/u/./a.txt" "WRITE" fr) as (r & rest & Hin & _ & _ & Hp & _).
    + assert (Hr : forallb (fun r => HasPrefix (cf_redirectTo r) "/") (compiledFileRules E0) = true)
        by (vm_compute; reflexivity).
      apply forallb_Forall in Hr. eapply Forall_impl; [exact Hr|]. intros r H. right. exact H.
    + apply (bool_decide_eq_false_1 _). vm_compute. reflexivity.
    + exact Ef.
    + exists fr, r, rest. split; [reflexivity|]. split; [exact Hin|]. split; [|exact Hp].
      revert Ef. vm_compute. intros [= <-]. reflexivity.
  - exfalso. revert Ef. vm_compute. discriminate.
Defined.

Definition sample_env : EnvPolicy := mkEnvPolicy ["PATH"; "GITHUB_TOKEN"] ["PA*"] 0 0 false.

Lemma CheckEnv_exact_witness :
  ed_Allowed (@CheckEnv latin_case (sample_engine sample_env) "PATH") = true /\
  ((ep_Allow sample_env = [] /\ forall s, ~ @env_denial latin_case small_libraries sample_env "PATH" s) \/
   (exists pat, pat ∈ ep_Allow sample_env /\ @pattern_covers small_libraries "PATH" pat /\
      forall s, @env_denial latin_case small_libraries sample_env "PATH" s -> s < envPatternSpecificity pat)).
Proof.
  assert (Ha : ed_Allowed (@CheckEnv latin_case (sample_engine sample_env) "PATH") = true) by (vm_compute; reflexivity).
  split; [exact Ha|].
  apply (@CheckEnv_exact latin_case small_libraries sample_sort (sample_policy sample_env) sample_flags
           (sample_engine sample_env) "PATH"); [|exact Ha].
  apply sample_built. vm_compute. reflexivity.
Defined.

Lemma CheckRegistry_priority_witness :
  d_Rule (@CheckRegistry latin_case E0 "HKLM-Software" "write") = "high" /\
  exists rules, @each _ _ _ (@compile_registry_rule latin_case small_libraries) (p_RegistryRules (sample_policy EnvPolicy_zero)) = Ok rules /\
    let hits r := r ∈ rules /\ @registry_applies latin_case "HKLM-Software" (@ToLower latin_case "write") r = true in
    (exists r, hits r /\ (forall r', hits r' -> r_Priority (creg_rule r') <= r_Priority (creg_rule r)) /\
       @CheckRegistry latin_case E0 "HKLM-Software" "write" =
       @wrapDecision latin_case (e_flags E0) (r_Decision (creg_rule r)) (r_Name (creg_rule r)) (r_Message (creg_rule r)) None) \/
    ((forall r, ~ hits r) /\ EffectiveDecision (@CheckRegistry latin_case E0 "HKLM-Software" "write") = DecisionDeny).
Proof.
  split; [vm_compute; reflexivity|].
  apply (@CheckRegistry_priority latin_case small_libraries sample_sort (sample_policy EnvPolicy_zero) sample_flags E0).
  - intros l. apply stable_sort_perm.
  - exact sample_sort_sorted.
  - apply sample_built. vm_compute. reflexivity.
Defined.

Lemma redirects_total_witness :
  exists r1 r2, @EvaluateDnsRedirect latin_case E0 "API.corp." = Ok r1 /\ dq_Matched r1 = true /\
    @EvaluateConnectRedirect latin_case E0 "API.corp." = Ok r2 /\ cq_Matched r2 = true /\ cq_SNI r2 <> "".
Proof.
  destruct (@redirects_total latin_case small_libraries sample_sort (sample_policy EnvPolicy_zero) sample_flags E0 "API.corp.")
    as [(r1 & H1 & H1') (r2 & H2 & H2')].
  - vm_compute. reflexivity.
  - apply sample_built. vm_compute. reflexivity.
  - exists r1, r2. assert (M1 : dq_Matched r1 = true) by (revert H1; vm_compute; intros [= <-]; reflexivity).
    assert (M2 : cq_Matched r2 = true /\ cq_TLSMode r2 = "rewrite_sni")
      by (revert H2; vm_compute; intros [= <-]; split; reflexivity).
    destruct M2 as [M2 M3]. split_and!; [exact H1|exact M1|exact H2|exact M2|]. by apply (H2' M2).
Defined.

(** *** Findings *)

(** A script in [n] more shells. *)
Fixpoint wrapped_in (n : nat) (script : string) : string :=
  match n with O => script | S n' => "sh -c " +:+ quoted (wrapped_in n' script) end.

(** A script that is denied as opaque, or as a bypass attempt, up to three shells deep is allowed
    four shells deep: after the last derivation only derivability is looked at. *)
Example depth_cap_evaded :
  let run n script := EffectiveDecision (@CheckCommand latin_case E0 "sh" ["-c"; wrapped_in n script]) in
  (fun n => run n "true;shutdown") <$> seq 0 6 = ["deny"; "deny"; "deny"; "deny"; "allow"; "deny"] /\
  (fun n => run n "exec -a x shutdown") <$> seq 0 6 = ["deny"; "deny"; "deny"; "deny"; "allow"; "deny"].
Proof. split; vm_compute; reflexivity. Qed.

(** A rule on the hidden command can loosen the effective decision: [soft_delete] outranks
    [approve], but lets the command run. *)
Example stricter_rule_loosens :
  EffectiveDecision (@matchCommandRules latin_case E0 "/usr/bin/rm" []).1 = DecisionApprove /\
  (let outer := (@matchCommandRules latin_case E0 "/usr/bin/rm" []).1 in
   let inner := (@matchCommandRules latin_case E0 "rm" []).1 in
   EffectiveDecision (tighten outer inner) = DecisionAllow).
Proof. split; vm_compute; reflexivity. Qed.

(** An allowed credential name ties with its own look and stays hidden; a catch-all deny pattern
    makes it visible. *)
Example deny_all_reveals :
  ed_Allowed (@CheckEnv latin_case (sample_engine (mkEnvPolicy ["GITHUB_TOKEN"] [] 0 0 false)) "GITHUB_TOKEN") = false /\
  ed_Allowed (@CheckEnv latin_case (sample_engine (mkEnvPolicy ["GITHUB_TOKEN"] ["*"] 0 0 false)) "GITHUB_TOKEN") = true.
Proof. split; vm_compute; reflexivity. Qed.

(** A path with [..] elements is redirected out of its target. *)
Example redirect_escapes :
  fr_RedirectPath <$> d_FileRedirect (@CheckFile latin_case E0 "/home/../../etc/passwd" "write") = Some "/workspace/etc/passwd".
Proof. vm_compute. reflexivity. Qed.

(** The renamed shell behind the shim is known to the pre-check and not to the execve check. *)
Example shim_name_unknown :
  EffectiveDecision (@CheckCommand latin_case E0 "/bin/bash.real" []) = DecisionAllow /\
  d_Rule (@CheckExecve latin_case E0 "/bin/bash.real" [] 0) = "default-deny-execve".
Proof. split; vm_compute; reflexivity. Qed.

End EngineTheorems.
Export EngineTheorems.
