(* ===== verification/NetGuards.v ===== *)
(** * Network guards ([internal/threatfeed], [internal/ipset], [internal/tor], [config/tor.go])

    The two optional guards the policy engine asks before its network and command rules: the threat
    feed store with its adapter, and the Tor coordinator with the resolution of its configuration,
    its relay set and its onion gateway.  Both are built here as the interface values
    [ThreatChecker] and [TorChecker] of [PolicyEngine].

    [filepath.Match] is modelled as far as its callers look: a malformed pattern does not match.
    SHA-256, which only shortens the name of a local list, is a parameter.  Persistence of the
    store and the download of feeds are not modelled. *)

From Stdlib Require Import ZArith Lia Ascii String.
From stdpp Require Import base list strings gmap.
From S2P Require Import Prelude GoText GoNet GoStrings ShellParse PolicyModel PolicyEngine.
From S2P Require Import PolicyEngineTheorems.
Open Scope string_scope.
Open Scope list_scope.
Open Scope Z_scope.

(** ** [filepath.Match] and [IP.String] *)
Module GoMatch.

(** Leading stars, and the text up to the next star outside a class. *)
Fixpoint strip_stars (p : list Z) : bool * list Z :=
  match p with
  | b :: p' => if b =? 42 then (true, (strip_stars p').2) else (false, p)
  | [] => (false, [])
  end.

Fixpoint scan_chunk (inrange : bool) (p : list Z) : list Z * list Z :=
  match p with
  | [] => ([], [])
  | b :: p' =>
    if b =? 92 then
      match p' with
      | c :: p'' => let '(a, r) := scan_chunk inrange p'' in (b :: c :: a, r)
      | [] => ([b], [])
      end
    else if (b =? 42) && negb inrange then ([], p)
    else
      let inrange' := if b =? ch_lbrack then true else if b =? ch_rbrack then false else inrange in
      let '(a, r) := scan_chunk inrange' p' in (b :: a, r)
  end.

Definition get_esc (chunk : list Z) : option (Z * list Z) :=
  match chunk with
  | [] => None
  | b :: r =>
    if (b =? 45) || (b =? ch_rbrack) then None
    else
      let c := if b =? 92 then r else chunk in
      if negb (nonempty c) then None
      else
        let '(ru, n) := DecodeRune c in
        if (ru =? RuneError) && Nat.eqb n 1 then None
        else if nonempty (drop n c) then Some (ru, drop n c) else None
  end.

(** The ranges of a class: whether the rune is in one of them, and what follows the class. *)
Fixpoint class_ranges (turns : nat) (r : Z) (some matched : bool) (chunk : list Z) : option (bool * list Z) :=
  match turns with
  | O => None
  | S turns' =>
    if some && starts_with [ch_rbrack] chunk then Some (matched, drop 1 chunk)
    else
      '(lo, c1) ← get_esc chunk;
      if starts_with [45] c1 then
        '(hi, c2) ← get_esc (drop 1 c1);
        class_ranges turns' r true (matched || between lo r hi) c2
      else class_ranges turns' r true (matched || (r =? lo)) c1
  end.

Fixpoint match_chunk (turns : nat) (chunk s : list Z) : option (list Z) :=
  match chunk, s with
  | [], _ => Some s
  | _ :: _, [] => None
  | b :: c', sb :: s' =>
    match turns with
    | O => None
    | S turns' =>
      if b =? ch_lbrack then
        let '(r, n) := DecodeRune s in
        let negated := starts_with [94] c' in
        '(m, rest) ← class_ranges turns' r false false (if negated then drop 1 c' else c');
        if Bool.eqb m negated then None else match_chunk turns' rest (drop n s)
      else if b =? 63 then
        if sb =? ch_slash then None else match_chunk turns' c' (drop (DecodeRune s).2 s)
      else if b =? 92 then
        match c' with
        | c1 :: c'' => if c1 =? sb then match_chunk turns' c'' s' else None
        | [] => None
        end
      else if b =? sb then match_chunk turns' c' s' else None
    end
  end.

Definition matchChunk (chunk s : list Z) : option (list Z) := match_chunk (S (length chunk)) chunk s.

(** The chunk after a star, tried behind one, two, ... bytes other than a slash. *)
Fixpoint star_try (chunk : list Z) (is_last : bool) (name : list Z) : option (list Z) :=
  match name with
  | [] => None
  | b :: name' =>
    if b =? ch_slash then None
    else match matchChunk chunk name' with
    | Some t => if is_last && nonempty t then star_try chunk is_last name' else Some t
    | None => star_try chunk is_last name'
    end
  end.

Fixpoint match_from (turns : nat) (pattern name : list Z) : bool :=
  match turns, pattern with
  | _, [] => negb (nonempty name)
  | O, _ => false
  | S turns', _ =>
    let '(star, p) := strip_stars pattern in
    let '(chunk, rest) := scan_chunk false p in
    if star && negb (nonempty chunk) then negb (has_byte ch_slash name)
    else
      let is_last := negb (nonempty rest) in
      match matchChunk chunk name with
      | Some t =>
        if negb is_last || negb (nonempty t) then match_from turns' rest t
        else if star then match star_try chunk is_last name with
                          | Some t => match_from turns' rest t
                          | None => false
                          end
        else false
      | None =>
        if star then match star_try chunk is_last name with
                     | Some t => match_from turns' rest t
                     | None => false
                     end
        else false
      end
  end.

Definition filepath_Match (pattern name : string) : bool :=
  match_from (S (String.length pattern)) (string_bytes pattern) (string_bytes name).

Example filepath_Match_examples :
  (fun p : string * string => filepath_Match p.1 p.2) <$>
    [("tor*", "torsocks"); ("*/tor", "bin/tor"); ("*/tor", "a/b/tor"); ("[a-c]?or", "bxor");
     ("[^t]or", "tor"); ("a\*b", "a*b"); ("a[", "a["); ("*.onion", "x.onion"); ("*a*b", "xaybab"); ("", "")] =
  [true; true; false; true; false; true; false; true; true; true].
Proof. vm_compute. reflexivity. Qed.

(** [strconv.Itoa] on octets and groups; the longest run of at least two zero groups is elided. *)
Fixpoint hex_digits (turns : nat) (n : Z) : list Z :=
  match turns with
  | O => []
  | S turns' => (if n <? 16 then [] else hex_digits turns' (n / 16)) ++
                [let d := n mod 16 in if d <? 10 then 48 + d else 87 + d]
  end.

Fixpoint groups (ip : list Z) : list Z :=
  match ip with a :: b :: r => a * 256 + b :: groups r | _ => [] end.

Fixpoint zero_run (l : list Z) : nat :=
  match l with z :: l' => if z =? 0 then S (zero_run l') else O | [] => O end.

(** The start and length of the first longest zero run. *)
Fixpoint longest_run (i : nat) (l : list Z) (best : nat * nat) : nat * nat :=
  match l with
  | [] => best
  | _ :: l' => longest_run (S i) l' (if Nat.ltb best.2 (zero_run l) then (i, zero_run l) else best)
  end.

Definition join_groups (l : list Z) : list Z := join_bytes [ch_colon] (hex_digits 4 <$> l).

Definition IP_String (ip : list Z) : string :=
  match To4 ip with
  | Some v4 => bytes_string (join_bytes [ch_dot] ((fun b => string_bytes (FormatInt b)) <$> v4))
  | None =>
    let g := groups ip in
    let '(i, n) := longest_run 0 g (0%nat, 1%nat) in
    if Nat.ltb n 2 then bytes_string (join_groups g)
    else bytes_string (join_groups (take i g) ++ [ch_colon; ch_colon] ++ join_groups (drop (i + n) g))
  end.

Example IP_String_examples :
  (fun s => IP_String <$> ParseIP (string_bytes s)) <$>
    ["127.0.0.1"; "::1"; "2001:db8:0:0:1:0:0:1"; "::ffff:1.2.3.4"; "1:2:3:4:5:6:7:8"; "::"] =
  [Some "127.0.0.1"; Some "::1"; Some "2001:db8::1:0:0:1"; Some "1.2.3.4"; Some "1:2:3:4:5:6:7:8"; Some "::"].
Proof. vm_compute. reflexivity. Qed.

End GoMatch.
Export GoMatch.

(** ** Threat feed *)
Module ThreatFeed.

Record FeedEntry : Type := mkFeedEntry { fe_FeedName : string; fe_AddedAt : Z; fe_MatchedDomain : string }.

Record Store : Type := mkStore {
  st_domains : gmap string FeedEntry;
  st_allowlist : gset string;
  st_cacheDir : string
}.

(** [strings.TrimRight(s, ".")]. *)
Fixpoint strip_dots (l : list Z) : list Z :=
  match l with b :: l' => if b =? ch_dot then strip_dots l' else l | [] => [] end.
Definition TrimRight_dots (s : string) : string := bytes_string (rev (strip_dots (rev (string_bytes s)))).

Section Store.
Context {U : UnicodeCase}.

Definition normal_feed_domain (d : string) : string := ToLower (TrimRight_dots (TrimSpace_string d)).

Definition NewStore (cacheDir : string) (allowlist : list string) : Store :=
  mkStore ∅ (list_to_set (List.filter (fun d => d !=? "") (normal_feed_domain <$> allowlist))) cacheDir.

Definition matched (e : FeedEntry) (d : string) : FeedEntry := mkFeedEntry (fe_FeedName e) (fe_AddedAt e) d.

(** The walk over the parent domains. *)
Fixpoint check_parents (s : Store) (turns : nat) (d : list Z) : option FeedEntry :=
  match turns with
  | O => None
  | S turns' =>
    match index_byte ch_dot d with
    | None => None
    | Some idx =>
      let d' := drop (S idx) d in
      if negb (nonempty d') then None
      else if negb (has_byte ch_dot d') then None
      else if bool_decide (bytes_string d' ∈ st_allowlist s) then None
      else match st_domains s !! bytes_string d' with
      | Some e => Some (matched e (bytes_string d'))
      | None => check_parents s turns' d'
      end
    end
  end.

Definition Store_Check (s : Store) (raw : string) : option FeedEntry :=
  let domain := normal_feed_domain raw in
  if domain ==? "" then None
  else if bool_decide (domain ∈ st_allowlist s) then None
  else match st_domains s !! domain with
  | Some e => Some (matched e domain)
  | None => check_parents s (String.length domain) (string_bytes domain)
  end.

Definition Store_Update (s : Store) (domains : gmap string FeedEntry) : Store :=
  mkStore domains (st_allowlist s) (st_cacheDir s).

Definition Store_Size (s : Store) : nat := size (st_domains s).

(** [adapter.go] *)
Context (sha256 : list Z -> list Z).

Definition sanitizeBasename (s : string) : string :=
  bytes_string (concat ((fun p : Z * list Z =>
    if is_letter p.1 || is_digit p.1 || has_byte p.1 [46; 95; 45] then encode_rune p.1 else [95])
      <$> range_runes (string_bytes s))).

Definition redactFeedName (name : string) : string :=
  if HasPrefix name "local:" then
    let fullPath := TrimPrefix name "local:" in
    "local:" +:+ sanitizeBasename (filepath_Base fullPath) +:+ "." +:+
    hex_encode (take 4 (sha256 (string_bytes fullPath)))
  else name.

Definition ThreatAdapter (store : option Store) : ThreatChecker := fun domain =>
  s ← store; e ← Store_Check s domain; Some (mkThreat (redactFeedName (fe_FeedName e)) (fe_MatchedDomain e)).

(** [parser.go]: one line of each format, and the de-duplication over all lines. *)
Definition Fields (bs : list Z) : list (list Z) :=
  let '(acc, cur) := fold_left (fun (st : list (list Z) * list Z) (p : Z * list Z) =>
      let '(acc, cur) := st in
      if IsSpace p.1 then (if nonempty cur then (acc ++ [cur], []) else (acc, []))
      else (acc, cur ++ p.2)) (range_runes bs) ([], []) in
  if nonempty cur then acc ++ [cur] else acc.

(** The text of a line before a comment; nothing for a comment line. *)
Definition feed_line (line : list Z) : list Z :=
  let l := TrimSpace line in
  if starts_with [35] l then []
  else match index_byte 35 l with Some idx => TrimSpace (take idx l) | None => l end.

Definition feed_domain (f : list Z) : string := ToLower (TrimRight_dots (bytes_string f)).

Definition hostfile_line (line : list Z) : list string :=
  let fields := Fields (feed_line line) in
  if Nat.ltb (length fields) 2 then []
  else List.filter (fun d => (d !=? "") &&
         negb (one_of d ["localhost"; "localhost.localdomain"; "broadcasthost"; "local"]))
         (feed_domain <$> drop 1 fields).

Definition domainlist_line (line : list Z) : list string :=
  let l := feed_line line in
  if nonempty l then List.filter (fun d => d !=? "") [feed_domain l] else [].

(** [format] decides; [lines] are the lines the scanner yields. *)
Definition Parse_feed (format : string) (lines : list (list Z)) : list string :=
  uniqStrings (concat ((if ToLower format ==? "hostfile" then hostfile_line else domainlist_line) <$> lines)).

End Store.
End ThreatFeed.
Export ThreatFeed.

(** ** Address sets *)
Module IPSet.

Definition Set_ : Type := list IPNet.

Definition Set_Add (s : Set_) (entry : string) : option Set_ :=
  match ParseCIDR entry with
  | Some n => Some (s ++ [n])
  | None =>
    ip ← ParseIP (string_bytes entry);
    let bits := match To4 ip with Some _ => 32 | None => 128 end in
    Some (s ++ [mkIPNet ip (cidr_mask bits (Z.to_nat (bits / 8)))])
  end.

Definition Set_Contains (s : Set_) (ip : option (list Z)) : bool :=
  match ip with None => false | Some ip => existsb (fun n => IPNet_Contains n ip) s end.

End IPSet.
Export IPSet.

(** ** Tor *)
Module Tor.

Record TorVectors : Type := mkVectors {
  tv_Processes : option bool; tv_SocksPorts : option bool; tv_Onion : option bool; tv_RelayIPs : option bool
}.

Record TorRelayFeed : Type := mkRelayFeed {
  rf_Enabled : bool; rf_Sources : list string; rf_LocalLists : list string; rf_SyncInterval : Z; rf_CacheDir : string
}.

Record TorOnionRule : Type := mkOnionRule { or_Onion : string; or_Decision : string }.

Record TorConfig : Type := mkTorConfig {
  tc_Enabled : option bool;
  tc_Mode : string;
  tc_Vectors : TorVectors;
  tc_ClientBinaries : list string;
  tc_SocksPorts : list Z;
  tc_ControlPorts : list Z;
  tc_SocksLoopbackOnly : option bool;
  tc_RelayFeed : TorRelayFeed;
  tc_OnionRules : list TorOnionRule
}.

Definition TorConfig_zero : TorConfig :=
  mkTorConfig None "" (mkVectors None None None None) [] [] [] None (mkRelayFeed false [] [] 0 "") [].

Record ResolvedTorVectors : Type := mkRVectors {
  rv_Processes : bool; rv_SocksPorts : bool; rv_Onion : bool; rv_RelayIPs : bool
}.

Record ResolvedTorConfig : Type := mkResolvedTor {
  rt_Enabled : bool;
  rt_Mode : string;
  rt_Vectors : ResolvedTorVectors;
  rt_ClientBinaries : list string;
  rt_SocksPorts : list Z;
  rt_ControlPorts : list Z;
  rt_SocksLoopbackOnly : bool;
  rt_RelayFeed : TorRelayFeed;
  rt_OnionRules : list TorOnionRule
}.

Definition DefaultTorClientBinaries : list string :=
  ["tor"; "obfs4proxy"; "snowflake-client"; "lyrebird"; "meek-client"; "torsocks"].
Definition DefaultOnionooSource : string := "https://onionoo.torproject.org/details".

Definition resolve_feed (f : TorRelayFeed) : TorRelayFeed :=
  if rf_Enabled f && negb (nonempty (rf_Sources f)) && negb (nonempty (rf_LocalLists f))
  then mkRelayFeed (rf_Enabled f) [DefaultOnionooSource] (rf_LocalLists f) (rf_SyncInterval f) (rf_CacheDir f)
  else f.

Definition ResolveTorConfig (c : TorConfig) : ResolvedTorConfig :=
  let or_list {A} (l d : list A) := if nonempty l then l else d in
  mkResolvedTor (default true (tc_Enabled c))
    (if one_of (tc_Mode c) ["deny"; "audit"; "allow"] then tc_Mode c else "deny")
    (mkRVectors (default true (tv_Processes (tc_Vectors c))) (default true (tv_SocksPorts (tc_Vectors c)))
       (default true (tv_Onion (tc_Vectors c))) (default true (tv_RelayIPs (tc_Vectors c))))
    (or_list (tc_ClientBinaries c) DefaultTorClientBinaries)
    (or_list (tc_SocksPorts c) [9050; 9150])
    (or_list (tc_ControlPorts c) [9051])
    (default true (tc_SocksLoopbackOnly c))
    (resolve_feed (tc_RelayFeed c))
    ((fun r => mkOnionRule (or_Onion r) (if or_Decision r ==? "allow" then "allow" else "deny")) <$> tc_OnionRules c).

Definition DirectoryAuthoritySeed : list string :=
  ["128.31.0.39"; "86.59.21.38"; "199.58.81.140"; "192.36.123.159"; "66.111.2.131"; "131.188.40.189";
   "193.23.244.244"; "171.25.193.9"; "154.35.175.225"; "204.13.164.118"].

Definition ModeDeny : string := "deny".
Definition ModeAudit : string := "audit".
Definition ModeAllow : string := "allow".

Record onionRule : Type := mkCompiledOnion { on_pattern : string; on_decision : string }.

Record TorPolicy : Type := mkTorPolicy {
  tp_cfg : ResolvedTorConfig;
  tp_binBasenames : gset string;
  tp_binPatterns : list string;
  tp_socksPorts : gset Z;
  tp_controlPorts : gset Z;
  tp_seed : Set_;
  tp_relays : Set_;
  tp_onionRules : list onionRule
}.

Section Policy.
Context {U : UnicodeCase}.

Definition New (cfg : ResolvedTorConfig) : TorPolicy :=
  mkTorPolicy cfg (list_to_set (ToLower <$> rt_ClientBinaries cfg)) (ToLower <$> rt_ClientBinaries cfg)
    (list_to_set (rt_SocksPorts cfg)) (list_to_set (rt_ControlPorts cfg))
    (fold_left (fun s ip => default s (Set_Add s ip)) DirectoryAuthoritySeed []) []
    ((fun r => mkCompiledOnion (ToLower (TrimSpace_string (or_Onion r))) (or_Decision r)) <$> rt_OnionRules cfg).

Definition active (p : TorPolicy) : bool :=
  rt_Enabled (tp_cfg p) && ((rt_Mode (tp_cfg p) ==? ModeDeny) || (rt_Mode (tp_cfg p) ==? ModeAudit)).

Definition decisionForMode (p : TorPolicy) : string :=
  if rt_Mode (tp_cfg p) ==? ModeAudit then ModeAudit else ModeDeny.

Definition verdict (p : TorPolicy) (vector target : string) : TorVerdict :=
  mkTor vector (rt_Mode (tp_cfg p)) (decisionForMode p) target.

Definition tor_EvalExecve (p : TorPolicy) (filename : string) (argv : list string) : option TorVerdict :=
  if negb (active p) || negb (rv_Processes (rt_Vectors (tp_cfg p))) then None
  else
    let base := ToLower (filepath_Base filename) in
    if bool_decide (base ∈ tp_binBasenames p) ||
       existsb (fun pat => filepath_Match pat base || filepath_Match pat (ToLower filename)) (tp_binPatterns p)
    then Some (verdict p "process" filename) else None.

Definition ipString (ip : option (list Z)) : string := match ip with None => "" | Some ip => IP_String ip end.

Definition ip_is_loopback (ip : option (list Z)) : bool :=
  match ip with None => false | Some ip => IsLoopback ip end.

Definition tor_EvalConnect (p : TorPolicy) (ip : option (list Z)) (port : Z) : option TorVerdict :=
  let v := rt_Vectors (tp_cfg p) in
  let target := JoinHostPort (ipString ip) (FormatInt port) in
  if negb (active p) then None
  else if rv_SocksPorts v && (bool_decide (port ∈ tp_socksPorts p) || bool_decide (port ∈ tp_controlPorts p)) &&
          (negb (rt_SocksLoopbackOnly (tp_cfg p)) || ip_is_loopback ip)
  then Some (verdict p "socks_port" target)
  else if rv_RelayIPs v && (Set_Contains (tp_seed p) ip || Set_Contains (tp_relays p) ip)
  then Some (verdict p "relay_ip" target)
  else None.

Definition onion_host (host : string) : string := ToLower (TrimSuffix (TrimSpace_string host) ".").

Definition tor_EvalOnionName (p : TorPolicy) (host : string) : option TorVerdict :=
  if negb (active p) || negb (rv_Onion (rt_Vectors (tp_cfg p))) then None
  else
    let h := onion_host host in
    if (h ==? "onion") || HasSuffix h ".onion" then Some (verdict p "onion_dns" host) else None.

Definition SetRelays (p : TorPolicy) (s : option Set_) : TorPolicy :=
  match s with
  | None => p
  | Some s => mkTorPolicy (tp_cfg p) (tp_binBasenames p) (tp_binPatterns p) (tp_socksPorts p)
                (tp_controlPorts p) (tp_seed p) s (tp_onionRules p)
  end.

Definition RelayFeedEnabled (p : TorPolicy) : bool :=
  rt_Enabled (tp_cfg p) && rv_RelayIPs (rt_Vectors (tp_cfg p)) && rf_Enabled (rt_RelayFeed (tp_cfg p)).

(** [gateway.go] *)

Definition GatewayActive (p : TorPolicy) : bool :=
  rt_Enabled (tp_cfg p) && (rt_Mode (tp_cfg p) ==? ModeAllow) && nonempty (tp_onionRules p).

Definition with_mode (c : ResolvedTorConfig) (mode : string) : ResolvedTorConfig :=
  mkResolvedTor (rt_Enabled c) mode (rt_Vectors c) (rt_ClientBinaries c) (rt_SocksPorts c)
    (rt_ControlPorts c) (rt_SocksLoopbackOnly c) (rt_RelayFeed c) (rt_OnionRules c).

Definition DenyModeClone (p : TorPolicy) : TorPolicy := New (with_mode (tp_cfg p) ModeDeny).

Definition onionVerdict (p : TorPolicy) (decision target : string) : TorVerdict :=
  mkTor "onion" (rt_Mode (tp_cfg p)) decision target.

Definition EvalSocksTarget (p : TorPolicy) (host : string) (port : Z) : option TorVerdict :=
  if negb (GatewayActive p) then None
  else
    let h := onion_host host in
    let target := JoinHostPort host (FormatInt port) in
    match List.find (fun r => (on_pattern r ==? h) || filepath_Match (on_pattern r) h) (tp_onionRules p) with
    | Some r => Some (onionVerdict p (on_decision r) target)
    | None => Some (onionVerdict p "deny" target)
    end.

Definition UpstreamSocksAddr (p : TorPolicy) : string :=
  match rt_SocksPorts (tp_cfg p) with
  | [] => ""
  | port :: _ => JoinHostPort "127.0.0.1" (FormatInt port)
  end.

(** [adapter.go]: the coordinator behind the engine's interface. *)
Definition TorAdapter (p : option TorPolicy) : TorChecker :=
  mkTorChecker (fun filename argv => p ← p; tor_EvalExecve p filename argv)
    (fun ip port => p ← p; tor_EvalConnect p ip port)
    (fun host => p ← p; tor_EvalOnionName p host).

End Policy.
End Tor.
Export Tor.

(** ** Theorems *)
Module GuardTheorems.

(** *** Lists of domains *)

(** The first candidate that is on the allow list (an exception) or listed. *)
Fixpoint first_listed (s : Store) (candidates : list string) : option FeedEntry :=
  match candidates with
  | [] => None
  | d :: rest => if bool_decide (d ∈ st_allowlist s) then None
                 else match st_domains s !! d with
                 | Some e => Some (matched e d)
                 | None => first_listed s rest
                 end
  end.

(** The parent domains of a list of labels, nearest first, down to two labels. *)
Fixpoint parents (labels : list (list Z)) : list (list (list Z)) :=
  match labels with
  | _ :: ((_ :: _ :: _) as tl) => tl :: parents tl
  | _ => []
  end.

Definition join_labels (labels : list (list Z)) : string := bytes_string (join_bytes [ch_dot] labels).

Lemma check_parents_listed s turns : forall d,
  (length d <= turns)%nat ->
  check_parents s turns d = first_listed s (join_labels <$> parents (split_byte ch_dot d)).
Proof.
  induction turns as [|turns IH]; intros d Hd.
  { destruct d; [done|cbn in Hd; lia]. }
  cbn [check_parents]. pose proof (index_byte_split ch_dot d) as Hi.
  destruct (index_byte ch_dot d) as [idx|].
  2: { by rewrite split_byte_none. }
  destruct Hi as (a & b & -> & <- & Ha).
  assert (Hdrop : drop (S (length a)) (a ++ ch_dot :: b) = b).
  { rewrite drop_app, drop_ge by lia. by replace (S (length a) - length a)%nat with 1%nat by lia. }
  rewrite Hdrop, split_byte_app, (split_byte_none _ a) by done. cbn [app].
  pose proof (join_split_byte ch_dot b) as Hj. rewrite length_app in Hd. cbn [length] in Hd.
  destruct (has_byte ch_dot b) eqn:Eb.
  - apply has_byte_elem in Eb. destruct b as [|b0 b]; [by apply not_elem_of_nil in Eb|]. cbn [nonempty negb].
    destruct (split_byte_two ch_dot _ Eb) as (x & y & l & Hs).
    rewrite IH by (cbn [length] in *; lia). rewrite Hs in *. cbn [parents]. rewrite fmap_cons. cbn [first_listed].
    assert (Hjl : join_labels (x :: y :: l) = bytes_string (b0 :: b)) by (unfold join_labels; by rewrite Hj).
    by rewrite Hjl.
  - rewrite (split_byte_none _ b); [by destruct b|]. intros Hin%has_byte_elem. congruence.
Qed.

(** The threat feed looks up a domain and its parent domains, nearest first, down to two labels:
    the first of them that is on the allow list makes an exception, the first that is listed is
    the match. *)
Theorem Store_Check_nearest {U : UnicodeCase} s raw :
  Store_Check s raw =
  let domain := normal_feed_domain raw in
  if domain ==? "" then None
  else first_listed s (domain :: (join_labels <$> parents (split_byte ch_dot (string_bytes domain)))).
Proof.
  unfold Store_Check. cbv zeta. case_bool_decide; [done|]. cbn [first_listed].
  rewrite check_parents_listed; [done|]. by rewrite length_string_bytes.
Qed.

(** *** Tor is denied by default *)
Section Default.
Context {U : UnicodeCase} (e : Engine) (relays : option Set_).

(** The coordinator of an absent [tor:] block, whatever relays the feed has delivered. *)
Definition default_tor : TorPolicy := SetRelays (New (ResolveTorConfig TorConfig_zero)) relays.
Definition guarded : Engine := SetTorPolicy e (Some (TorAdapter (Some default_tor))).

Lemma default_tor_cfg : tp_cfg default_tor = ResolveTorConfig TorConfig_zero.
Proof using. unfold default_tor. by destruct relays. Qed.

Lemma default_active : active default_tor = true.
Proof using. unfold active. rewrite default_tor_cfg. reflexivity. Qed.

Lemma default_denies v t : tv_Decision (verdict default_tor v t) = "deny".
Proof using. unfold verdict, decisionForMode. rewrite default_tor_cfg. reflexivity. Qed.

Lemma gate_denies v t k : EffectiveDecision (tor_gate guarded (Some (verdict default_tor v t)) k) = DecisionDeny.
Proof using. unfold tor_gate. rewrite default_denies. reflexivity. Qed.

(** A host in any case with an optional final dot, of printable ASCII. *)
Definition onion_name (host : string) : Prop :=
  graphic (string_bytes host) /\
  exists stem, lower_byte <$> string_bytes host = stem ++ string_bytes ".onion" \/
               lower_byte <$> string_bytes host = stem ++ string_bytes ".onion" ++ [ch_dot].

Lemma onion_name_found host : onion_name host -> HasSuffix (onion_host (normal_domain host)) ".onion" = true.
Proof using.
  intros [Hg [stem Hs]]. unfold normal_domain, onion_host. rewrite (TrimSpace_graphic host) by done.
  set (n := ToLower host).
  assert (Hn : string_bytes n = lower_byte <$> string_bytes host) by (by apply ToLower_graphic).
  assert (Hl : graphic (string_bytes n)) by (rewrite Hn; by apply graphic_lower).
  rewrite TrimSpace_graphic by done.
  assert (Ht : string_bytes (TrimSuffix n ".") = stem ++ string_bytes ".onion").
  { unfold TrimSuffix, HasSuffix. rewrite <- length_string_bytes. rewrite <- Hn in Hs.
    destruct Hs as [Hs|Hs]; rewrite !Hs, rev_app_distr.
    - exact Hs.
    - rewrite rev_app_distr. cbn [rev app]. change (string_bytes ".") with [ch_dot]. cbn [rev app starts_with].
      rewrite Z.eqb_refl. cbn [andb]. rewrite app_assoc, take_app_le by (rewrite !length_app; cbn; lia).
      rewrite take_ge by (rewrite !length_app; cbn; lia). apply string_bytes_of.
      rewrite Hs, app_assoc in Hl. apply Forall_app in Hl as [Hl _]. eapply Forall_impl; [exact Hl|].
      cbn. unfold byte_range. lia. }
  apply (HasSuffix_app _ stem). rewrite ToLower_graphic; rewrite Ht.
  - rewrite Hn in Hl. destruct Hs as [Hs|Hs]; [rewrite <- Hs|].
    + rewrite <- list_fmap_compose. apply list_fmap_ext. intros i b _. apply lower_byte_idem.
    + assert (Hx : lower_byte <$> (stem ++ string_bytes ".onion" ++ [ch_dot]) = stem ++ string_bytes ".onion" ++ [ch_dot]).
      { rewrite <- Hs at 1. rewrite <- list_fmap_compose, <- Hs. apply list_fmap_ext. intros i b _. apply lower_byte_idem. }
      rewrite app_assoc, fmap_app in Hx. apply app_inj_2 in Hx as [Hx _]; [exact Hx|done].
  - rewrite Hn in Hl. destruct Hs as [Hs|Hs]; rewrite Hs in Hl; [done|].
    rewrite app_assoc in Hl. by apply Forall_app in Hl as [? _].
Qed.

Lemma seed_contained s ip :
  s ∈ DirectoryAuthoritySeed -> ParseIP (string_bytes s) = Some ip -> Set_Contains (tp_seed default_tor) (Some ip) = true.
Proof using.
  assert (Hseed : tp_seed default_tor = tp_seed (New (ResolveTorConfig TorConfig_zero))) by (unfold default_tor; by destruct relays).
  assert (Hall : forallb (fun s => match ParseIP (string_bytes s) with
                                   | Some ip => Set_Contains (tp_seed (New (ResolveTorConfig TorConfig_zero))) (Some ip)
                                   | None => false end) DirectoryAuthoritySeed = true) by (vm_compute; reflexivity).
  apply forallb_Forall in Hall. rewrite Forall_forall in Hall. intros Hs Hp. rewrite Hseed.
  specialize (Hall s Hs). by rewrite Hp in Hall.
Qed.

(** An address that is part of Tor: a local SOCKS or control port, a directory authority, or a relay of
    the feed. *)
Definition tor_endpoint (ip : list Z) (port : Z) : Prop :=
  (IsLoopback ip = true /\ port ∈ [9050; 9150; 9051]) \/
  (exists s, s ∈ DirectoryAuthoritySeed /\ ParseIP (string_bytes s) = Some ip) \/
  (exists feed, relays = Some feed /\ Set_Contains feed (Some ip) = true).

Lemma endpoint_verdict ip port : tor_endpoint ip port -> exists v t, tor_EvalConnect default_tor (Some ip) port = Some (verdict default_tor v t).
Proof using.
  assert (Hports : tp_socksPorts default_tor = list_to_set [9050; 9150]) by (unfold default_tor; by destruct relays).
  assert (Hctrl : tp_controlPorts default_tor = list_to_set [9051]) by (unfold default_tor; by destruct relays).
  intros H. unfold tor_EvalConnect. rewrite default_active. cbn [negb]. cbv zeta.
  destruct (_ && _ && _) eqn:Esocks; [by eexists _, _|]. rewrite default_tor_cfg in *. cbn [rv_RelayIPs rt_Vectors ResolveTorConfig andb].
  enough (Set_Contains (tp_seed default_tor) (Some ip) || Set_Contains (tp_relays default_tor) (Some ip) = true) as ->.
  { cbn. by eexists _, _. }
  destruct H as [[Hl Hp]|[(s & Hs & Hip)|(feed & Hf & Hc)]].
  - exfalso. rewrite Hports, Hctrl in Esocks.
    assert (Hin : bool_decide (port ∈ (list_to_set [9050; 9150] : gset Z)) || bool_decide (port ∈ (list_to_set [9051] : gset Z)) = true).
    { rewrite orb_true_iff, !bool_decide_eq_true, !elem_of_list_to_set. set_solver. }
    rewrite Hin in Esocks. cbn in Esocks. by rewrite Hl in Esocks.
  - by rewrite (seed_contained s).
  - apply orb_true_iff. right. unfold default_tor. by rewrite Hf.
Qed.

(** A connection to such an address is refused where addresses are checked, and where names are when the
    name is the address. *)
Lemma endpoint_denied ip port : tor_endpoint ip port ->
  (forall domain, EffectiveDecision (CheckNetworkIP guarded domain (Some ip) port) = DecisionDeny) /\
  (forall lookup host, ParseIP (string_bytes (normal_domain host)) = Some ip ->
     EffectiveDecision (CheckNetworkCtx guarded lookup host port) = DecisionDeny).
Proof using.
  intros H. destruct (endpoint_verdict ip port H) as (v & t & Hv). split.
  - intros domain. unfold CheckNetworkIP. cbn [torChecker SetTorPolicy guarded mbind option_bind TorAdapter EvalConnect].
    rewrite Hv. apply gate_denies.
  - intros lookup host Hip. unfold CheckNetworkCtx. rewrite Hip.
    cbn [torChecker SetTorPolicy guarded mbind option_bind TorAdapter EvalConnect EvalOnionName]. rewrite Hv.
    unfold tor_EvalOnionName. destruct (_ || _); [apply gate_denies|]. destruct (_ || _); apply gate_denies.
Qed.

(** C39. Without any [tor:] configuration, whatever the rules of the policy allow and whatever relays
    the feed has delivered: executing a known Tor client is denied; a connection to a local SOCKS or
    control port, to a directory authority or to a relay of the feed is denied, both where the address
    is checked and on the live path of names, when the name is written as the address; and an onion name in any
    case, with or without a final dot, is denied on the path of names.  (A name that merely resolves to
    such an address, and the command check before execution, have no gate for Tor.) *)
Theorem tor_denied_by_default :
  (forall filename argv depth, ToLower (filepath_Base filename) ∈ DefaultTorClientBinaries ->
     EffectiveDecision (CheckExecve guarded filename argv depth) = DecisionDeny) /\
  (forall ip port, tor_endpoint ip port ->
     (forall domain, EffectiveDecision (CheckNetworkIP guarded domain (Some ip) port) = DecisionDeny) /\
     (forall lookup host, ParseIP (string_bytes (normal_domain host)) = Some ip ->
        EffectiveDecision (CheckNetworkCtx guarded lookup host port) = DecisionDeny)) /\
  (forall lookup host port, onion_name host ->
     EffectiveDecision (CheckNetworkCtx guarded lookup host port) = DecisionDeny).
Proof using.
  split_and!; [|apply endpoint_denied|].
  - intros filename argv depth Hb. unfold CheckExecve. cbn [torChecker SetTorPolicy guarded mbind option_bind TorAdapter EvalExecve].
    unfold tor_EvalExecve. rewrite default_active, default_tor_cfg. cbn [negb orb rt_Vectors ResolveTorConfig rv_Processes].
    assert (Hin : ToLower (filepath_Base filename) ∈ tp_binBasenames default_tor).
    { assert (He : tp_binBasenames default_tor = list_to_set DefaultTorClientBinaries) by (unfold default_tor; by destruct relays).
      rewrite He. by apply elem_of_list_to_set. }
    cbn. rewrite bool_decide_eq_true_2 by done. cbn [orb]. rewrite default_denies. reflexivity.
  - intros lookup host port Hh. unfold CheckNetworkCtx. cbn [torChecker SetTorPolicy guarded mbind option_bind TorAdapter EvalOnionName].
    unfold tor_EvalOnionName. rewrite default_active, default_tor_cfg, (onion_name_found _ Hh), orb_true_r.
    cbn. apply gate_denies.
Qed.

End Default.

Lemma tor_denied_by_default_witness :
  EffectiveDecision (@CheckExecve latin_case (@guarded latin_case E0 None) "/usr/bin/TorSocks" [] 0) = DecisionDeny /\
  EffectiveDecision (@CheckNetworkCtx latin_case (@guarded latin_case E0 None) (fun _ => None) " 127.0.0.1" 9050) = DecisionDeny /\
  EffectiveDecision (@CheckNetworkCtx latin_case (@guarded latin_case E0 None) (fun _ => None) "Example.ONION." 443) = DecisionDeny.
Proof.
  split_and!.
  - apply (proj1 (@tor_denied_by_default latin_case E0 None)). decide_vm.
  - apply (fun H => proj2 (proj1 (proj2 (@tor_denied_by_default latin_case E0 None)) (v4_prefix ++ [127; 0; 0; 1]) 9050 H));
      [left; split; [vm_compute; reflexivity|left]|vm_compute; reflexivity].
  - apply (proj2 (proj2 (@tor_denied_by_default latin_case E0 None))). split; [|exists (string_bytes "example"); right; vm_compute; reflexivity].
    unfold graphic. decide_vm.
Defined.

End GuardTheorems.
Export GuardTheorems.
