(* ===== verification/DbEffects.v ===== *)
(** * Effect taxonomy ([internal/db/effects])

    The vocabulary of the database policy: operation groups and their risk tiers, group aliases,
    subtypes, object references, resolution tags, and classified statements with the canonical
    order of their effects.

    Go's enumerations are small unsigned integers with named constants; they are kept as [Z] so
    that the lookups with their defaults on out-of-range values are the source's.  Map literals
    are the list of their entries, in source order. *)

From S2P Require Import Prelude.
From Stdlib Require Import ZArith Lia Permutation Sorted Ascii String.
From stdpp Require Import base list strings sorting gmap.
Open Scope string_scope.
Open Scope list_scope.
Open Scope Z_scope.

(** ** Risk tiers ([risk_tier.go]) *)
Module RiskTier.

Definition RiskTier := Z.
Definition Safe : RiskTier := 0.
Definition Low : RiskTier := 1.
Definition Medium : RiskTier := 2.
Definition High : RiskTier := 3.
Definition Critical : RiskTier := 4.

Definition riskTierNames : list string := ["safe"; "low"; "medium"; "high"; "critical"].

Definition tierString (t : RiskTier) : string :=
  default "unknown" (riskTierNames !! Z.to_nat t).

Definition Compare (t other : RiskTier) : Z := t - other.

End RiskTier.
Export RiskTier.

(** ** Operation groups ([group.go]) *)
Module Group.

Definition Group := Z.
Definition GroupRead : Group := 1.
Definition GroupWrite : Group := 2.
Definition GroupModify : Group := 3.
Definition GroupDelete : Group := 4.
Definition GroupBulkLoad : Group := 5.
Definition GroupBulkExport : Group := 6.
Definition GroupSchemaCreate : Group := 7.
Definition GroupSchemaAlter : Group := 8.
Definition GroupSchemaDestroy : Group := 9.
Definition GroupPrivilege : Group := 10.
Definition GroupTransaction : Group := 11.
Definition GroupSession : Group := 12.
Definition GroupMaintenance : Group := 13.
Definition GroupLock : Group := 14.
Definition GroupNotify : Group := 15.
Definition GroupProcedural : Group := 16.
Definition GroupUnsafeIO : Group := 17.
Definition GroupUnknown : Group := 18.

Record groupInfo := { gi_name : string; gi_tier : RiskTier }.

Definition groupTable : list (Group * groupInfo) :=
  [ (GroupRead, {| gi_name := "read"; gi_tier := Low |});
    (GroupWrite, {| gi_name := "write"; gi_tier := Medium |});
    (GroupModify, {| gi_name := "modify"; gi_tier := Medium |});
    (GroupDelete, {| gi_name := "delete"; gi_tier := High |});
    (GroupBulkLoad, {| gi_name := "bulk_load"; gi_tier := High |});
    (GroupBulkExport, {| gi_name := "bulk_export"; gi_tier := Critical |});
    (GroupSchemaCreate, {| gi_name := "schema_create"; gi_tier := High |});
    (GroupSchemaAlter, {| gi_name := "schema_alter"; gi_tier := High |});
    (GroupSchemaDestroy, {| gi_name := "schema_destroy"; gi_tier := Critical |});
    (GroupPrivilege, {| gi_name := "privilege"; gi_tier := Critical |});
    (GroupTransaction, {| gi_name := "transaction"; gi_tier := Low |});
    (GroupSession, {| gi_name := "session"; gi_tier := Low |});
    (GroupMaintenance, {| gi_name := "maintenance"; gi_tier := Medium |});
    (GroupLock, {| gi_name := "lock"; gi_tier := Medium |});
    (GroupNotify, {| gi_name := "notify"; gi_tier := Low |});
    (GroupProcedural, {| gi_name := "procedural"; gi_tier := High |});
    (GroupUnsafeIO, {| gi_name := "unsafe_io"; gi_tier := Critical |});
    (GroupUnknown, {| gi_name := "unknown"; gi_tier := Critical |}) ].

Definition groupString (g : Group) : string :=
  match table_get groupTable g with Some info => gi_name info | None => "unknown" end.

Definition groupRiskTier (g : Group) : RiskTier :=
  match table_get groupTable g with Some info => gi_tier info | None => Critical end.

Definition groupID (g : Group) : Z := g.

(** [ParseGroup] ranges over [groupTable]; [order] is the iteration order the runtime picks. *)
Definition ParseGroup_in (order : list (Group * groupInfo)) (name : string) : option Group :=
  table_find (fun info => gi_name info ==? name) order.
Definition ParseGroup (name : string) : option Group := ParseGroup_in groupTable name.

End Group.
Export Group.

(** ** Aliases ([alias.go]) *)
Module Alias.

Definition aliasTable : list (string * list Group) :=
  [ ("READ", [GroupRead]);
    ("INSERT", [GroupWrite]);
    ("UPDATE", [GroupModify]);
    ("DELETE", [GroupDelete]);
    ("REMOVE", [GroupDelete]);
    ("CREATE", [GroupSchemaCreate]);
    ("DROP", [GroupSchemaDestroy]);
    ("ALTER", [GroupSchemaAlter]);
    ("TRUNCATE", [GroupSchemaDestroy]);
    ("EXPORT", [GroupBulkExport; GroupUnsafeIO]);
    ("LOAD", [GroupBulkLoad]);
    ("MUTATE", [GroupWrite; GroupModify; GroupDelete]);
    ("SCHEMA", [GroupSchemaCreate; GroupSchemaAlter; GroupSchemaDestroy]);
    ("MAINTENANCE", [GroupMaintenance]);
    ("LOCK_TABLES", [GroupLock]);
    ("LISTEN_NOTIFY", [GroupNotify]);
    ("DANGEROUS", [GroupSchemaDestroy; GroupPrivilege; GroupUnsafeIO; GroupProcedural; GroupBulkExport; GroupLock]) ].

(** [ExpandAlias] returns [ok = false] as [None].  The wildcard ranges over [groupTable]. *)
Definition ExpandAlias (token : string) : option (list Group) :=
  if token ==? "*" then
    Some (List.filter (fun g => g !=? GroupUnknown) groupTable.*1)
  else match table_get aliasTable token with
       | Some groups => Some groups
       | None => match ParseGroup token with
                 | Some g => Some [g]
                 | None => None
                 end
       end.

End Alias.
Export Alias.

(** ** Subtypes ([subtype.go]) *)
Module Subtype.

Definition Subtype := Z.
Definition SubtypeNone : Subtype := 0.
Definition SubtypeSet : Subtype := 1.
Definition SubtypeSetSearchPath : Subtype := 2.
Definition SubtypeSetRole : Subtype := 3.
Definition SubtypeSetSessionAuthorization : Subtype := 4.
Definition SubtypeSetLocal : Subtype := 5.
Definition SubtypeReset : Subtype := 6.
Definition SubtypeResetAll : Subtype := 7.
Definition SubtypeDiscard : Subtype := 8.
Definition SubtypeDiscardAll : Subtype := 9.
Definition SubtypeDiscardTemp : Subtype := 10.
Definition SubtypeDiscardPlans : Subtype := 11.
Definition SubtypeDiscardSequences : Subtype := 12.
Definition SubtypeCancelRequest : Subtype := 13.
Definition SubtypeCreateTable : Subtype := 14.
Definition SubtypeCreateIndex : Subtype := 15.
Definition SubtypeCreateView : Subtype := 16.
Definition SubtypeCreateSchema : Subtype := 17.
Definition SubtypeCreateFunction : Subtype := 18.
Definition SubtypeCreateMaterializedView : Subtype := 19.
Definition SubtypeCreateExtension : Subtype := 20.
Definition SubtypeCreateDatabase : Subtype := 21.
Definition SubtypeCreatePublication : Subtype := 22.
Definition SubtypeAlterPublication : Subtype := 23.
Definition SubtypeDropTable : Subtype := 24.
Definition SubtypeDropDatabase : Subtype := 25.
Definition SubtypeDropSchema : Subtype := 26.
Definition SubtypeDropIndex : Subtype := 27.
Definition SubtypeDropView : Subtype := 28.
Definition SubtypeDropFunction : Subtype := 29.
Definition SubtypeDropPublication : Subtype := 30.
Definition SubtypeTruncate : Subtype := 31.
Definition SubtypeGrant : Subtype := 32.
Definition SubtypeRevoke : Subtype := 33.
Definition SubtypeAlterRole : Subtype := 34.
Definition SubtypeCreateRole : Subtype := 35.
Definition SubtypeDropRole : Subtype := 36.
Definition SubtypeAlterSystem : Subtype := 37.
Definition SubtypeSecurityLabel : Subtype := 38.
Definition SubtypeCopyFromStdin : Subtype := 39.
Definition SubtypeCopyFromS3 : Subtype := 40.
Definition SubtypeCopyToStdout : Subtype := 41.
Definition SubtypeUnloadToS3 : Subtype := 42.
Definition SubtypeFunctionCallProtocol : Subtype := 43.
Definition SubtypeEscalatedFunctionCall : Subtype := 44.
Definition SubtypeCall : Subtype := 45.
Definition SubtypeDo : Subtype := 46.
Definition SubtypeAnonymousBlock : Subtype := 47.
Definition SubtypeDoOrAnon : Subtype := 48.
Definition SubtypeCreateSubscription : Subtype := 49.
Definition SubtypeAlterSubscription : Subtype := 50.
Definition SubtypeDropSubscription : Subtype := 51.
Definition SubtypeCreateServer : Subtype := 52.
Definition SubtypeAlterServer : Subtype := 53.
Definition SubtypeDropServer : Subtype := 54.
Definition SubtypeCreateUserMapping : Subtype := 55.
Definition SubtypeAlterUserMapping : Subtype := 56.
Definition SubtypeDropUserMapping : Subtype := 57.
Definition SubtypeCreateTablespace : Subtype := 58.
Definition SubtypeAlterTablespace : Subtype := 59.
Definition SubtypeDropTablespace : Subtype := 60.
Definition SubtypeCopyToPath : Subtype := 61.
Definition SubtypeCopyFromPath : Subtype := 62.
Definition SubtypeCopyToProgram : Subtype := 63.
Definition SubtypeCopyFromProgram : Subtype := 64.
Definition SubtypeLargeObjectIO : Subtype := 65.
Definition SubtypeServerFileRead : Subtype := 66.
Definition SubtypeDblinkCall : Subtype := 67.
Definition SubtypeFdwAccess : Subtype := 68.

Record subtypeInfo := { si_name : string; si_parent : Group }.

Definition subtypeTable : list (Subtype * subtypeInfo) :=
  [ (SubtypeNone, {| si_name := ""; si_parent := 0 |});
    (SubtypeSet, {| si_name := "set"; si_parent := GroupSession |});
    (SubtypeSetSearchPath, {| si_name := "set_search_path"; si_parent := GroupSession |});
    (SubtypeSetRole, {| si_name := "set_role"; si_parent := GroupSession |});
    (SubtypeSetSessionAuthorization, {| si_name := "set_session_authorization"; si_parent := GroupSession |});
    (SubtypeSetLocal, {| si_name := "set_local"; si_parent := GroupSession |});
    (SubtypeReset, {| si_name := "reset"; si_parent := GroupSession |});
    (SubtypeResetAll, {| si_name := "reset_all"; si_parent := GroupSession |});
    (SubtypeDiscard, {| si_name := "discard"; si_parent := GroupSession |});
    (SubtypeDiscardAll, {| si_name := "discard_all"; si_parent := GroupSession |});
    (SubtypeDiscardTemp, {| si_name := "discard_temp"; si_parent := GroupSession |});
    (SubtypeDiscardPlans, {| si_name := "discard_plans"; si_parent := GroupSession |});
    (SubtypeDiscardSequences, {| si_name := "discard_sequences"; si_parent := GroupSession |});
    (SubtypeCancelRequest, {| si_name := "cancel_request"; si_parent := GroupSession |});
    (SubtypeCreateTable, {| si_name := "create_table"; si_parent := GroupSchemaCreate |});
    (SubtypeCreateIndex, {| si_name := "create_index"; si_parent := GroupSchemaCreate |});
    (SubtypeCreateView, {| si_name := "create_view"; si_parent := GroupSchemaCreate |});
    (SubtypeCreateSchema, {| si_name := "create_schema"; si_parent := GroupSchemaCreate |});
    (SubtypeCreateFunction, {| si_name := "create_function"; si_parent := GroupSchemaCreate |});
    (SubtypeCreateMaterializedView, {| si_name := "create_materialized_view"; si_parent := GroupSchemaCreate |});
    (SubtypeCreateExtension, {| si_name := "create_extension"; si_parent := GroupSchemaCreate |});
    (SubtypeCreateDatabase, {| si_name := "create_database"; si_parent := GroupSchemaCreate |});
    (SubtypeCreatePublication, {| si_name := "create_publication"; si_parent := GroupSchemaCreate |});
    (SubtypeAlterPublication, {| si_name := "alter_publication"; si_parent := GroupSchemaAlter |});
    (SubtypeDropTable, {| si_name := "drop_table"; si_parent := GroupSchemaDestroy |});
    (SubtypeDropDatabase, {| si_name := "drop_database"; si_parent := GroupSchemaDestroy |});
    (SubtypeDropSchema, {| si_name := "drop_schema"; si_parent := GroupSchemaDestroy |});
    (SubtypeDropIndex, {| si_name := "drop_index"; si_parent := GroupSchemaDestroy |});
    (SubtypeDropView, {| si_name := "drop_view"; si_parent := GroupSchemaDestroy |});
    (SubtypeDropFunction, {| si_name := "drop_function"; si_parent := GroupSchemaDestroy |});
    (SubtypeDropPublication, {| si_name := "drop_publication"; si_parent := GroupSchemaDestroy |});
    (SubtypeTruncate, {| si_name := "truncate"; si_parent := GroupSchemaDestroy |});
    (SubtypeGrant, {| si_name := "grant"; si_parent := GroupPrivilege |});
    (SubtypeRevoke, {| si_name := "revoke"; si_parent := GroupPrivilege |});
    (SubtypeAlterRole, {| si_name := "alter_role"; si_parent := GroupPrivilege |});
    (SubtypeCreateRole, {| si_name := "create_role"; si_parent := GroupPrivilege |});
    (SubtypeDropRole, {| si_name := "drop_role"; si_parent := GroupPrivilege |});
    (SubtypeAlterSystem, {| si_name := "alter_system"; si_parent := GroupPrivilege |});
    (SubtypeSecurityLabel, {| si_name := "security_label"; si_parent := GroupPrivilege |});
    (SubtypeCopyFromStdin, {| si_name := "copy_from_stdin"; si_parent := GroupBulkLoad |});
    (SubtypeCopyFromS3, {| si_name := "copy_from_s3"; si_parent := GroupBulkLoad |});
    (SubtypeCopyToStdout, {| si_name := "copy_to_stdout"; si_parent := GroupBulkExport |});
    (SubtypeUnloadToS3, {| si_name := "unload_to_s3"; si_parent := GroupBulkExport |});
    (SubtypeFunctionCallProtocol, {| si_name := "function_call_protocol"; si_parent := GroupProcedural |});
    (SubtypeEscalatedFunctionCall, {| si_name := "escalated_function_call"; si_parent := GroupProcedural |});
    (SubtypeCall, {| si_name := "call"; si_parent := GroupProcedural |});
    (SubtypeDo, {| si_name := "do"; si_parent := GroupProcedural |});
    (SubtypeAnonymousBlock, {| si_name := "anonymous_block"; si_parent := GroupProcedural |});
    (SubtypeDoOrAnon, {| si_name := "do_or_anon"; si_parent := GroupProcedural |});
    (SubtypeCreateSubscription, {| si_name := "create_subscription"; si_parent := GroupUnsafeIO |});
    (SubtypeAlterSubscription, {| si_name := "alter_subscription"; si_parent := GroupUnsafeIO |});
    (SubtypeDropSubscription, {| si_name := "drop_subscription"; si_parent := GroupUnsafeIO |});
    (SubtypeCreateServer, {| si_name := "create_server"; si_parent := GroupUnsafeIO |});
    (SubtypeAlterServer, {| si_name := "alter_server"; si_parent := GroupUnsafeIO |});
    (SubtypeDropServer, {| si_name := "drop_server"; si_parent := GroupUnsafeIO |});
    (SubtypeCreateUserMapping, {| si_name := "create_user_mapping"; si_parent := GroupUnsafeIO |});
    (SubtypeAlterUserMapping, {| si_name := "alter_user_mapping"; si_parent := GroupUnsafeIO |});
    (SubtypeDropUserMapping, {| si_name := "drop_user_mapping"; si_parent := GroupUnsafeIO |});
    (SubtypeCreateTablespace, {| si_name := "create_tablespace"; si_parent := GroupUnsafeIO |});
    (SubtypeAlterTablespace, {| si_name := "alter_tablespace"; si_parent := GroupUnsafeIO |});
    (SubtypeDropTablespace, {| si_name := "drop_tablespace"; si_parent := GroupUnsafeIO |});
    (SubtypeCopyToPath, {| si_name := "copy_to_path"; si_parent := GroupUnsafeIO |});
    (SubtypeCopyFromPath, {| si_name := "copy_from_path"; si_parent := GroupUnsafeIO |});
    (SubtypeCopyToProgram, {| si_name := "copy_to_program"; si_parent := GroupUnsafeIO |});
    (SubtypeCopyFromProgram, {| si_name := "copy_from_program"; si_parent := GroupUnsafeIO |});
    (SubtypeLargeObjectIO, {| si_name := "large_object_io"; si_parent := GroupUnsafeIO |});
    (SubtypeServerFileRead, {| si_name := "server_file_read"; si_parent := GroupUnsafeIO |});
    (SubtypeDblinkCall, {| si_name := "dblink_call"; si_parent := GroupUnsafeIO |});
    (SubtypeFdwAccess, {| si_name := "fdw_access"; si_parent := GroupUnsafeIO |}) ].

Definition subtypeString (s : Subtype) : string :=
  match table_get subtypeTable s with Some info => si_name info | None => "" end.

Definition subtypeGroup (s : Subtype) : Group :=
  match table_get subtypeTable s with Some info => si_parent info | None => 0 end.

Definition ParseSubtype_in (order : list (Subtype * subtypeInfo)) (name : string)
  : option Subtype :=
  if name ==? "" then None
  else table_find (fun info => si_name info ==? name) order.
Definition ParseSubtype (name : string) : option Subtype := ParseSubtype_in subtypeTable name.

End Subtype.
Export Subtype.

(** ** Resolution tags ([resolution.go]) *)
Module Resolution.

Definition Resolution := Z.
Definition ResolutionQualified : Resolution := 0.
Definition ResolutionUnqualified : Resolution := 1.
Definition ResolutionAmbiguousAfterSearchPath : Resolution := 2.
Definition ResolutionMaybeTempShadowed : Resolution := 3.
Definition ResolutionUnresolved : Resolution := 4.
Definition ResolutionCatalogResolved : Resolution := 5.
Definition ResolutionCatalogUnresolved : Resolution := 6.
Definition ResolutionCatalogUnavailable : Resolution := 7.

Definition resolutionNames : list string :=
  [ "qualified_syntactic";
    "unqualified_syntactic";
    "ambiguous_after_search_path";
    "maybe_temp_shadowed";
    "unresolved";
    "catalog_resolved";
    "catalog_unresolved";
    "catalog_unavailable" ].

Definition resolutionConfidenceRank : list (Resolution * Z) :=
  [ (ResolutionCatalogResolved, 0);
    (ResolutionQualified, 1);
    (ResolutionUnqualified, 2);
    (ResolutionAmbiguousAfterSearchPath, 3);
    (ResolutionMaybeTempShadowed, 4);
    (ResolutionUnresolved, 5);
    (ResolutionCatalogUnresolved, 6);
    (ResolutionCatalogUnavailable, 7) ].

Definition resolutionString (r : Resolution) : string :=
  default "" (resolutionNames !! Z.to_nat r).

Definition resolutionRank (r : Resolution) : Z :=
  match table_get resolutionConfidenceRank r with
  | Some rank => rank
  | None => default 0 (table_get resolutionConfidenceRank ResolutionCatalogUnavailable)
  end.

Definition Fold (rs : list Resolution) : Resolution :=
  match rs with
  | [] => ResolutionQualified
  | r :: rest => pick_max resolutionRank r rest
  end.

(** The loop over [resolutionNames]: index of the first name equal to the input. *)
Fixpoint ParseResolution_from (i : Z) (names : list string) (name : string) : option Resolution :=
  match names with
  | [] => None
  | n :: rest => if n ==? name then Some i else ParseResolution_from (i + 1) rest name
  end.
Definition ParseResolution (name : string) : option Resolution :=
  ParseResolution_from 0 resolutionNames name.

End Resolution.
Export Resolution.

(** ** Object references ([object.go], [resolved_object.go]) *)
Module Object.

Definition ObjectKind := Z.
Definition ObjectTable : ObjectKind := 1.
Definition ObjectView : ObjectKind := 2.
Definition ObjectFunction : ObjectKind := 3.
Definition ObjectSchema : ObjectKind := 4.
Definition ObjectIndex : ObjectKind := 5.
Definition ObjectSequence : ObjectKind := 6.
Definition ObjectExternalEndpoint : ObjectKind := 7.
Definition ObjectFilesystemPath : ObjectKind := 8.
Definition ObjectProgram : ObjectKind := 9.
Definition ObjectSubscription : ObjectKind := 10.
Definition ObjectPublication : ObjectKind := 11.
Definition ObjectServer : ObjectKind := 12.
Definition ObjectUserMapping : ObjectKind := 13.
Definition ObjectTablespace : ObjectKind := 14.
Definition ObjectGUC : ObjectKind := 15.
Definition ObjectRole : ObjectKind := 16.

Definition objectKindNames : list (ObjectKind * string) :=
  [ (ObjectTable, "table");
    (ObjectView, "view");
    (ObjectFunction, "function");
    (ObjectSchema, "schema");
    (ObjectIndex, "index");
    (ObjectSequence, "sequence");
    (ObjectExternalEndpoint, "external_endpoint");
    (ObjectFilesystemPath, "filesystem_path");
    (ObjectProgram, "program");
    (ObjectSubscription, "subscription");
    (ObjectPublication, "publication");
    (ObjectServer, "server");
    (ObjectUserMapping, "user_mapping");
    (ObjectTablespace, "tablespace");
    (ObjectGUC, "guc");
    (ObjectRole, "role") ].

Definition objectKindString (k : ObjectKind) : string :=
  default "" (table_get objectKindNames k).

Record ObjectRef := {
  o_Kind : ObjectKind;
  o_Schema : string;
  o_Name : string;
  o_Host : string;
  o_Port : Z;
  o_Path : string;
  o_Argv0 : string
}.

(** The zero [ObjectRef{}]. *)
Definition ObjectRef_zero : ObjectRef :=
  {| o_Kind := 0; o_Schema := ""; o_Name := ""; o_Host := ""; o_Port := 0; o_Path := "";
     o_Argv0 := "" |}.

Record objectRefJSON := {
  j_Kind : string;
  j_Schema : string;
  j_Name : string;
  j_Host : string;
  j_Port : Z;
  j_Path : string;
  j_Argv0 : string
}.

(** The struct [MarshalJSON] hands to the encoder: only the fields of the active kind. *)
Definition ObjectRef_MarshalJSON (r : ObjectRef) : objectRefJSON :=
  let out := {| j_Kind := objectKindString (o_Kind r); j_Schema := ""; j_Name := ""; j_Host := "";
                j_Port := 0; j_Path := ""; j_Argv0 := "" |} in
  if bool_decide (o_Kind r ∈ [ObjectTable; ObjectView; ObjectFunction; ObjectIndex;
                              ObjectSequence]) then
    {| j_Kind := j_Kind out; j_Schema := o_Schema r; j_Name := o_Name r; j_Host := ""; j_Port := 0;
       j_Path := ""; j_Argv0 := "" |}
  else if o_Kind r ==? ObjectExternalEndpoint then
    {| j_Kind := j_Kind out; j_Schema := ""; j_Name := ""; j_Host := o_Host r; j_Port := o_Port r;
       j_Path := ""; j_Argv0 := "" |}
  else if o_Kind r ==? ObjectFilesystemPath then
    {| j_Kind := j_Kind out; j_Schema := ""; j_Name := ""; j_Host := ""; j_Port := 0;
       j_Path := o_Path r; j_Argv0 := "" |}
  else if o_Kind r ==? ObjectProgram then
    {| j_Kind := j_Kind out; j_Schema := ""; j_Name := ""; j_Host := ""; j_Port := 0;
       j_Path := ""; j_Argv0 := o_Argv0 r |}
  else
    {| j_Kind := j_Kind out; j_Schema := ""; j_Name := o_Name r; j_Host := ""; j_Port := 0;
       j_Path := ""; j_Argv0 := "" |}.

(** [UnmarshalJSON] on receiver [r] and the decoded struct; an unknown kind leaves [r.Kind]. *)
Definition ObjectRef_UnmarshalJSON_in (order : list (ObjectKind * string))
  (r : ObjectRef) (raw : objectRefJSON) : ObjectRef :=
  {| o_Kind := default (o_Kind r) (table_find (fun name => name ==? j_Kind raw) order);
     o_Schema := j_Schema raw; o_Name := j_Name raw; o_Host := j_Host raw; o_Port := j_Port raw;
     o_Path := j_Path raw; o_Argv0 := j_Argv0 raw |}.
Definition ObjectRef_UnmarshalJSON := ObjectRef_UnmarshalJSON_in objectKindNames.

Definition ResolvedObjectSourceCatalog : string := "catalog".
Definition ResolvedObjectRelation : string := "relation".
Definition ResolvedObjectFunction : string := "function".

Record ResolvedObjectRef := {
  ro_Source : string;
  ro_Kind : string;
  ro_OID : Z;
  ro_Schema : string;
  ro_Name : string;
  ro_RelationKind : string;
  ro_FunctionIdentityArgs : string;
  ro_FunctionVolatility : string;
  ro_UnresolvedReason : string
}.

Definition CanonicalName (r : ResolvedObjectRef) : string :=
  if ro_Schema r ==? "" then ro_Name r else ro_Schema r +:+ "." +:+ ro_Name r.

End Object.
Export Object.

(** ** Effects and classified statements ([effect.go], [statement.go]) *)
Module Effect.

Record Effect := {
  e_Group : Group;
  e_Subtype : Subtype;
  e_Objects : list ObjectRef;
  e_ResolvedObjects : list ResolvedObjectRef;
  e_Resolution : Resolution;
  e_HasWhere : bool;
  e_FunctionOID : option Z
}.

Definition canonicalGroupRank : list (Group * Z) :=
  [ (GroupUnknown, 0);
    (GroupUnsafeIO, 1);
    (GroupSchemaDestroy, 2);
    (GroupBulkExport, 3);
    (GroupPrivilege, 4);
    (GroupDelete, 0);
    (GroupSchemaCreate, 1);
    (GroupSchemaAlter, 2);
    (GroupBulkLoad, 3);
    (GroupProcedural, 4);
    (GroupModify, 0);
    (GroupWrite, 1);
    (GroupMaintenance, 2);
    (GroupLock, 3);
    (GroupRead, 0);
    (GroupTransaction, 1);
    (GroupSession, 2);
    (GroupNotify, 3) ].

Definition groupRank (g : Group) : Z := default 0 (table_get canonicalGroupRank g).

(** The comparison function passed to [sort.SliceStable]. *)
Definition effect_less (x y : Effect) : bool :=
  let ti := groupRiskTier (e_Group x) in
  let tj := groupRiskTier (e_Group y) in
  if negb (ti =? tj)%Z then (tj <? ti)%Z
  else (groupRank (e_Group x) <? groupRank (e_Group y))%Z.

Definition Order (effects : list Effect) : list Effect := stable_sort effect_less effects.

Definition ParserBackend := Z.
Definition ParserBackendUnknown : ParserBackend := 0.
Definition ParserBackendLibPgQuery : ParserBackend := 1.
Definition ParserBackendPureGo : ParserBackend := 2.

Definition parserBackendString (b : ParserBackend) : string :=
  if b ==? ParserBackendLibPgQuery then "libpg_query"
  else if b ==? ParserBackendPureGo then "pure_go" else "".

Definition BulkOpKind := Z.
Definition BulkOpNone : BulkOpKind := 0.
Definition BulkOpIn : BulkOpKind := 1.
Definition BulkOpOut : BulkOpKind := 2.

Definition bulkOpString (b : BulkOpKind) : string :=
  if b ==? BulkOpIn then "copy_in" else if b ==? BulkOpOut then "copy_out" else "".

(** The double quote character. *)
Definition dq : string := String (ascii_of_nat 34) EmptyString.

Definition BulkOpKind_MarshalJSON (b : BulkOpKind) : string := dq +:+ bulkOpString b +:+ dq.

(** [None] is the [unknown bulk_op] error. *)
Definition BulkOpKind_UnmarshalJSON (bs : string) : option BulkOpKind :=
  if (bs ==? dq +:+ dq) || (bs ==? "null") then Some BulkOpNone
  else if bs ==? dq +:+ "copy_in" +:+ dq then Some BulkOpIn
  else if bs ==? dq +:+ "copy_out" +:+ dq then Some BulkOpOut
  else None.

Record ClassifiedStatement := {
  cs_Effects : list Effect;
  cs_RawVerb : string;
  cs_ParserBackend : ParserBackend;
  cs_Error : string;
  cs_SourceStart : Z;
  cs_SourceEnd : Z;
  cs_PreparedName : string;
  cs_BulkOp : BulkOpKind
}.

(** [Primary]: [None] is [ok = false]. *)
Definition Primary (s : ClassifiedStatement) : option Effect :=
  match cs_Effects s with [] => None | e :: _ => Some e end.

Definition FoldResolution (s : ClassifiedStatement) : Resolution :=
  Fold (e_Resolution <$> cs_Effects s).

End Effect.
Export Effect.

(** ** Properties *)
Module EffectFacts.

(** The group, subtype and object-kind tables have distinct keys and distinct names, so ranging
    over them in any order gives the same answer. *)
Lemma groupTable_keys_nodup : NoDup groupTable.*1.
Proof. decide_vm. Qed.

Lemma groupTable_names_nodup : NoDup (gi_name <$> groupTable.*2).
Proof. decide_vm. Qed.

Lemma subtypeTable_names_nodup : NoDup (si_name <$> subtypeTable.*2).
Proof. decide_vm. Qed.

Lemma objectKindNames_nodup : NoDup objectKindNames.*2.
Proof. decide_vm. Qed.

(** Distinct names make the entry with a given name unique. *)
Lemma unique_name {K V} (name : V -> string) (t : list (K * V)) n k1 v1 k2 v2 :
  NoDup (name <$> t.*2) -> (k1, v1) ∈ t -> (k2, v2) ∈ t ->
  (name v1 ==? n) = true -> (name v2 ==? n) = true -> k1 = k2.
Proof.
  intros Hnd H1 H2 E1 E2. bool_prop. subst n.
  apply list_elem_of_lookup in H1 as [i Hi], H2 as [j Hj].
  assert (i = j) as ->; [|congruence].
  eapply (NoDup_lookup _ _ _ (name v1) Hnd); rewrite !list_lookup_fmap.
  - by rewrite Hi.
  - by rewrite Hj; simpl; f_equal.
Qed.

Lemma ParseGroup_String_ok g info :
  (g, info) ∈ groupTable -> ParseGroup (groupString g) = Some g.
Proof.
  intros Hin. unfold groupString.
  rewrite (table_get_in _ _ _ groupTable_keys_nodup Hin).
  eapply table_find_in; [exact Hin|by rewrite bool_decide_eq_true_2|].
  intros k' v' Hin' Hn. eapply (unique_name gi_name); eauto using groupTable_names_nodup.
  by rewrite bool_decide_eq_true_2.
Qed.

(** [ParseGroup] inverts [Group.String] on every group of the taxonomy, whatever order the
    runtime ranges over the group table in, and rejects every name that is not in the table. *)
Theorem ParseGroup_roundtrip order :
  order ≡ₚ groupTable ->
  (forall g info, (g, info) ∈ groupTable -> ParseGroup_in order (groupString g) = Some g) /\
  (forall name g, ParseGroup_in order name = Some g -> groupString g = name).
Proof.
  intros HP. assert (Heq : forall n, ParseGroup_in order n = ParseGroup n).
  { intros n. symmetry. apply table_find_perm; [by symmetry|].
    intros. eapply (unique_name gi_name); eauto using groupTable_names_nodup. }
  split; intros.
  - rewrite Heq. by eapply ParseGroup_String_ok.
  - rewrite Heq in H. apply table_find_Some in H as (v & Hin & Hn). bool_prop.
    unfold groupString. by rewrite (table_get_in _ _ _ groupTable_keys_nodup Hin).
Qed.

Lemma ParseGroup_roundtrip_witness :
  ParseGroup_in (rev groupTable) "schema_destroy" = Some GroupSchemaDestroy.
Proof.
  apply (proj1 (ParseGroup_roundtrip (rev groupTable) (Permutation_sym (Permutation_rev _)))
           GroupSchemaDestroy {| gi_name := "schema_destroy"; gi_tier := Critical |}).
  apply table_get_elem. vm_compute. reflexivity.
Defined.

(** *** Canonical order *)

(** [e1] may precede [e2]: higher tier first, then lower canonical rank. *)
Definition effect_before (e1 e2 : Effect) : Prop :=
  groupRiskTier (e_Group e2) < groupRiskTier (e_Group e1) \/
  groupRiskTier (e_Group e1) = groupRiskTier (e_Group e2) /\
  groupRank (e_Group e1) <= groupRank (e_Group e2).

Lemma effect_less_false e1 e2 : effect_less e2 e1 = false <-> effect_before e1 e2.
Proof.
  unfold effect_less, effect_before.
  destruct (Z.eqb_spec (groupRiskTier (e_Group e2)) (groupRiskTier (e_Group e1))); simpl; lia.
Qed.

Lemma effect_less_true e1 e2 : effect_less e2 e1 = true <-> ~ effect_before e1 e2.
Proof. rewrite <- effect_less_false. by destruct (effect_less e2 e1). Qed.

Lemma effect_less_asym x y : effect_less x y = true -> effect_less y x = false.
Proof. rewrite effect_less_true, effect_less_false. unfold effect_before. lia. Qed.

Lemma effect_less_ge_trans x y z :
  not_after effect_less x y -> not_after effect_less y z -> not_after effect_less x z.
Proof. unfold not_after. rewrite !effect_less_false. unfold effect_before. lia. Qed.

(** The tier and the rank of an effect: the key effects are ordered by. *)
Definition effect_key (e : Effect) : Z * Z :=
  (groupRiskTier (e_Group e), groupRank (e_Group e)).

(** [Order] sorts a statement's effects into canonical order: the result is a permutation of
    the input, sorted by risk tier (highest first) and then by canonical group rank, and effects
    with the same key keep their input order. *)
Theorem Order_canonical effects :
  Order effects ≡ₚ effects /\
  StronglySorted effect_before (Order effects) /\
  forall key, List.filter (fun e => effect_key e ==? key) (Order effects) =
              List.filter (fun e => effect_key e ==? key) effects.
Proof.
  split; [apply stable_sort_perm|]. split.
  - unfold Order.
    pose proof (stable_sort_sorted _ effect_less_asym effect_less_ge_trans effects) as Hs.
    induction Hs as [|x l Hs IH Hall]; constructor; [done|].
    eapply Forall_impl; [exact Hall|]. intros. by apply effect_less_false.
  - intros key. apply stable_sort_filter. intros a b Ha Hb. bool_prop. subst key.
    unfold effect_key in Hb. injection Hb as Ht Hr.
    apply effect_less_false. unfold effect_before. lia.
Qed.

(** *** Resolution *)

Lemma Fold_ge r rs : r ∈ rs -> resolutionRank r <= resolutionRank (Fold rs).
Proof. destruct rs as [|r0 rs]; [set_solver|]. apply pick_max_ge. Qed.

Lemma Fold_elem r rs : Fold (r :: rs) ∈ r :: rs.
Proof. apply pick_max_elem. Qed.

(** The folded resolution of a statement is one of its effects' tags and is the least
    confident one: no effect is less certain than the statement as a whole. *)
Theorem FoldResolution_worst s e :
  e ∈ cs_Effects s ->
  resolutionRank (e_Resolution e) <= resolutionRank (FoldResolution s) /\
  exists e', e' ∈ cs_Effects s /\ FoldResolution s = e_Resolution e'.
Proof.
  intros Hin. split.
  - apply Fold_ge. by apply list_elem_of_fmap_2.
  - unfold FoldResolution. destruct (cs_Effects s) as [|e0 l]; [set_solver|].
    pose proof (Fold_elem (e_Resolution e0) (e_Resolution <$> l)) as Hf.
    change (e_Resolution e0 :: (e_Resolution <$> l)) with (e_Resolution <$> e0 :: l) in Hf.
    apply list_elem_of_fmap in Hf as (e' & -> & ?). eauto.
Qed.

Definition ex_effect (g : Group) (r : Resolution) : Effect :=
  {| e_Group := g; e_Subtype := SubtypeNone; e_Objects := []; e_ResolvedObjects := [];
     e_Resolution := r; e_HasWhere := false; e_FunctionOID := None |}.

Definition ex_statement (es : list Effect) : ClassifiedStatement :=
  {| cs_Effects := es; cs_RawVerb := "SELECT"; cs_ParserBackend := ParserBackendUnknown;
     cs_Error := ""; cs_SourceStart := 0; cs_SourceEnd := 0; cs_PreparedName := "";
     cs_BulkOp := BulkOpNone |}.

Lemma FoldResolution_worst_witness :
  resolutionRank ResolutionUnresolved <=
  resolutionRank (FoldResolution (ex_statement
    [ex_effect GroupRead ResolutionCatalogResolved; ex_effect GroupRead ResolutionUnresolved])).
Proof.
  apply (FoldResolution_worst (ex_statement _) (ex_effect GroupRead ResolutionUnresolved)).
  simpl. right. left.
Defined.

(** *** JSON forms *)

(** The fields [MarshalJSON] keeps for the object's kind. *)
Definition active_fields (r : ObjectRef) : ObjectRef :=
  let j := ObjectRef_MarshalJSON r in
  {| o_Kind := o_Kind r; o_Schema := j_Schema j; o_Name := j_Name j; o_Host := j_Host j;
     o_Port := j_Port j; o_Path := j_Path j; o_Argv0 := j_Argv0 j |}.

Lemma marshal_kind r : j_Kind (ObjectRef_MarshalJSON r) = objectKindString (o_Kind r).
Proof. unfold ObjectRef_MarshalJSON. by repeat case_match. Qed.

(** Decoding the encoding of an [ObjectRef] of a known kind gives back its kind and exactly
    the fields meaningful for it, whatever the receiver held and whatever order the runtime ranges
    over the kind table in. *)
Theorem ObjectRef_json_roundtrip order recv r :
  order ≡ₚ objectKindNames -> o_Kind r ∈ objectKindNames.*1 ->
  ObjectRef_UnmarshalJSON_in order recv (ObjectRef_MarshalJSON r) = active_fields r.
Proof.
  intros HP Hk. unfold ObjectRef_UnmarshalJSON_in, active_fields. f_equal.
  rewrite marshal_kind. apply list_elem_of_fmap in Hk as ([k n] & Hk & Hin). simpl in Hk. subst k.
  assert (Hs : objectKindString (o_Kind r) = n).
  { unfold objectKindString.
    rewrite (table_get_in _ _ n); [done| |done]. decide_vm. }
  assert (Huniq : forall k1 v1 k2 v2, (k1, v1) ∈ order -> (k2, v2) ∈ order ->
    (v1 ==? n) = true -> (v2 ==? n) = true -> k1 = k2).
  { intros k1 v1 k2 v2 H1 H2. rewrite HP in H1, H2.
    apply (unique_name id objectKindNames n k1 v1 k2 v2); [|done..]. rewrite list_fmap_id.
    apply objectKindNames_nodup. }
  rewrite Hs. rewrite <- HP in Hin.
  erewrite table_find_in; [done|exact Hin|by rewrite bool_decide_eq_true_2|].
  intros k' v' Hin' Hn. eapply Huniq; eauto. by rewrite bool_decide_eq_true_2.
Qed.

Lemma ObjectRef_json_roundtrip_witness :
  ObjectRef_UnmarshalJSON ObjectRef_zero
    (ObjectRef_MarshalJSON
       {| o_Kind := ObjectTable; o_Schema := "app"; o_Name := "users"; o_Host := "ignored";
          o_Port := 5; o_Path := ""; o_Argv0 := "" |}) =
  {| o_Kind := ObjectTable; o_Schema := "app"; o_Name := "users"; o_Host := ""; o_Port := 0;
     o_Path := ""; o_Argv0 := "" |}.
Proof.
  apply (ObjectRef_json_roundtrip objectKindNames ObjectRef_zero
    {| o_Kind := ObjectTable; o_Schema := "app"; o_Name := "users"; o_Host := "ignored";
       o_Port := 5; o_Path := ""; o_Argv0 := "" |}); [reflexivity|].
  decide_vm.
Defined.

Lemma ParseResolution_String r :
  0 <= r < 8 -> ParseResolution (resolutionString r) = Some r.
Proof.
  intros Hr. assert (r ∈ [0;1;2;3;4;5;6;7]) as Hin.
  { rewrite !elem_of_cons. lia. }
  repeat (apply elem_of_cons in Hin as [->|Hin]; [reflexivity|]).
  by apply not_elem_of_nil in Hin.
Qed.

(** *** Aliases never reach the unknown group *)

Lemma ParseGroup_unknown token : ParseGroup token = Some GroupUnknown -> token = "unknown".
Proof.
  intros H. apply table_find_Some in H as (v & Hin & Hn). bool_prop. subst token.
  apply (table_get_in _ _ _ groupTable_keys_nodup) in Hin. vm_compute in Hin. by simplify_eq.
Qed.

Lemma aliasTable_known token gs :
  table_get aliasTable token = Some gs -> GroupUnknown ∉ gs.
Proof.
  intros H. apply table_get_elem in H.
  assert (Hall : Forall (fun p : string * list Group => GroupUnknown ∉ p.2) aliasTable).
  { decide_vm. }
  rewrite Forall_forall in Hall. by apply (Hall _ H).
Qed.

(** The only operation token that reaches [GroupUnknown] is its own name. *)
Lemma ExpandAlias_unknown token gs :
  ExpandAlias token = Some gs -> GroupUnknown ∈ gs -> token = "unknown".
Proof.
  unfold ExpandAlias. destruct (token ==? "*") eqn:Es.
  - intros [= <-] Hin. exfalso. revert Hin. decide_vm.
  - destruct (table_get aliasTable token) as [gs'|] eqn:Ea.
    + intros [= <-] Hin. exfalso. by eapply aliasTable_known.
    + destruct (ParseGroup token) as [g|] eqn:Eg; [|done]. intros [= <-] Hin.
      apply list_elem_of_singleton in Hin. apply ParseGroup_unknown. congruence.
Qed.

End EffectFacts.
