(* ===== verification/DbPolicy.v ===== *)
(** * Database policy evaluator ([internal/db/policy])

    The compiled rule set and the pure evaluator of database statements and connections:
    [types.go], the evaluator-ready forms of [compile.go], [evaluate.go], [evaluate_conn.go] and
    [explain.go].

    A compiled glob ([gobwas/glob]) is represented by its [Match] function and a compiled message
    template by its [Execute] function; both come from the compiler modelled in [DbValidate].
    Rules are heap objects in the source and are compared by address in
    [coverageRulesInPolicyOrder]: [csr_ptr] is that address.  A nil [*RuleSet] is [None]. *)

From S2P Require Import Prelude GoText DbEffects.
From Stdlib Require Import ZArith Lia Permutation Sorted Ascii String.
From stdpp Require Import base list strings gmap.
Open Scope string_scope.
Open Scope list_scope.
Open Scope Z_scope.

(** ** Types ([types.go]) *)
Module Types.

Definition ServiceID := string.

(** The numeric order of the constants is the order of restrictiveness. *)
Inductive DecisionVerb := VerbAllow | VerbAudit | VerbRedirect | VerbApprove | VerbDeny.

#[export] Instance DecisionVerb_eq_dec : EqDecision DecisionVerb.
Proof. solve_decision. Defined.

Definition verb_num (v : DecisionVerb) : Z :=
  match v with
  | VerbAllow => 0 | VerbAudit => 1 | VerbRedirect => 2 | VerbApprove => 3 | VerbDeny => 4
  end.

Definition verbString (v : DecisionVerb) : string :=
  match v with
  | VerbAllow => "allow" | VerbAudit => "audit" | VerbRedirect => "redirect"
  | VerbApprove => "approve" | VerbDeny => "deny"
  end.

Inductive RuleKind := RuleKindStatement | RuleKindConnection | RuleKindCancel.

#[export] Instance RuleKind_eq_dec : EqDecision RuleKind.
Proof. solve_decision. Defined.

Record RedirectDecision := { rd_SourceRelation : string; rd_TargetRelation : string }.

Inductive ConnectionMatchKind := MatchConnect | MatchCancel | MatchReplication.

#[export] Instance ConnectionMatchKind_eq_dec : EqDecision ConnectionMatchKind.
Proof. solve_decision. Defined.

Record DBService := {
  svc_Name : string;
  svc_Family : string;
  svc_Dialect : string;
  svc_Upstream : string;
  svc_TLSMode : string;
  svc_AllowFunctionCallProtocol : bool;
  svc_AllowGSSEncryption : bool;
  svc_TrustedNetwork : bool
}.

(** The on-disk rule.  [sr_Timeout] is a [time.Duration] in nanoseconds; [sr_Redirect] is the
    optional [redirect] block with its [relation]. *)
Record StatementRule := {
  sr_Name : string;
  sr_DBService : string;
  sr_DBFamily : string;
  sr_DBDialect : string;
  sr_Schemas : list string;
  sr_Objects : list string;
  sr_Relations : list string;
  sr_Functions : list string;
  sr_Operations : list string;
  sr_Subtypes : list string;
  sr_MatchObjectResolution : string;
  sr_RequireWhere : bool;
  sr_Decision : string;
  sr_Message : string;
  sr_Timeout : Z;
  sr_Redirect : option string;
  sr_AcknowledgeAuditOnDangerous : bool;
  sr_DenyModeInTx : string
}.

(** [StatementRule{}]. *)
Definition StatementRule_zero : StatementRule :=
  {| sr_Name := ""; sr_DBService := ""; sr_DBFamily := ""; sr_DBDialect := ""; sr_Schemas := [];
     sr_Objects := []; sr_Relations := []; sr_Functions := []; sr_Operations := [];
     sr_Subtypes := []; sr_MatchObjectResolution := ""; sr_RequireWhere := false;
     sr_Decision := ""; sr_Message := ""; sr_Timeout := 0; sr_Redirect := None;
     sr_AcknowledgeAuditOnDangerous := false; sr_DenyModeInTx := "" |}.

Record ConnectionRule := {
  cr_Name : string;
  cr_DBService : string;
  cr_MatchKind : string;
  cr_DBUser : list string;
  cr_Database : string;
  cr_ApplicationName : string;
  cr_ClientIdentity : string;
  cr_Decision : string;
  cr_Message : string;
  cr_Timeout : Z
}.

Record ConnectionInfo := {
  ci_Service : ServiceID;
  ci_MatchKind : ConnectionMatchKind;
  ci_DBUser : string;
  ci_Database : string;
  ci_ApplicationName : string;
  ci_ClientIdentity : string
}.

Record ApprovalRequest := {
  ar_Timeout : Z;
  ar_ContributingApproveRules : list string
}.

Record Decision := {
  d_Verb : DecisionVerb;
  d_RuleKind : RuleKind;
  d_RuleName : string;
  d_MatchingEffectIndex : Z;
  d_MatchingEffectGroup : Group;
  d_Reason : string;
  d_ContributingAuditRules : list string;
  d_Approval : option ApprovalRequest;
  d_Redirect : option RedirectDecision
}.

End Types.
Export Types.

(** ** Compiled rules ([compile.go]) *)
Module Compiled.

(** A compiled glob, as its [Match] method. *)
Definition glob := string -> bool.

Inductive resolutionMatcher := resAny | resEq (r : Resolution).

Definition resolution_matches (m : resolutionMatcher) (r : Resolution) : bool :=
  match m with resAny => true | resEq r' => r' ==? r end.

Record serviceFilter := { sf_service : ServiceID; sf_family : string; sf_dialect : string }.

Definition serviceFilter_matches (f : serviceFilter) (id : ServiceID) (svc : option DBService)
  : bool :=
  if (sf_service f !=? "") && (sf_service f !=? id) then false
  else if (sf_family f !=? "") &&
          match svc with None => true | Some s => svc_Family s !=? sf_family f end then false
  else if (sf_dialect f !=? "") &&
          match svc with None => true | Some s => svc_Dialect s !=? sf_dialect f end then false
  else true.

Record messageContext := {
  mc_Operation : string;
  mc_Subtype : string;
  mc_Schema : string;
  mc_Object : string;
  mc_Verb : string;
  mc_StatementPreview : string
}.

(** A parsed template, as its [Execute] method: the rendered text or the error text. *)
Definition template := messageContext -> result string string.

Record compiledStatementRule := {
  csr_ptr : nat;
  csr_src : StatementRule;
  csr_verb : DecisionVerb;
  csr_groups : gset Group;
  csr_subtypes : gset Subtype;
  csr_requireWhere : bool;
  csr_resolution : resolutionMatcher;
  csr_schemas : list glob;
  csr_objects : list glob;
  csr_relations : list glob;
  csr_functions : list glob;
  csr_timeout : Z;
  csr_msgTemplate : option template;
  csr_redirect : option RedirectDecision;
  csr_serviceFilter : serviceFilter
}.

Record compiledConnectionRule := {
  ccr_src : ConnectionRule;
  ccr_verb : DecisionVerb;
  ccr_matchKind : ConnectionMatchKind;
  ccr_dbUsers : gset string;
  ccr_database : string;
  ccr_applicationName : option glob;
  ccr_clientIdentity : option glob;
  ccr_timeout : Z;
  ccr_msgTemplate : option template;
  ccr_serviceFilter : serviceFilter
}.

Definition hasObjectSelectors (c : compiledStatementRule) : bool :=
  nonempty (csr_objects c) || nonempty (csr_relations c) ||
  nonempty (csr_functions c).

Definition coversAllObjects (c : compiledStatementRule) : bool := negb (hasObjectSelectors c).

Definition matchesResolution (c : compiledStatementRule) (r : Resolution) : bool :=
  resolution_matches (csr_resolution c) r.

Definition objectMatchField (o : ObjectRef) : string :=
  if o_Kind o ==? ObjectExternalEndpoint then o_Host o
  else if o_Kind o ==? ObjectFilesystemPath then o_Path o
  else if o_Kind o ==? ObjectProgram then o_Argv0 o
  else o_Name o.

Definition objectMatches (c : compiledStatementRule) (o : ObjectRef) : bool :=
  if coversAllObjects c then true
  else existsb (fun g => g (objectMatchField o)) (csr_objects c).

(** [resolved] and [hasResolved] of the source as one option. *)
Definition schemaMatchesObjectSlot (c : compiledStatementRule) (o : ObjectRef)
  (resolved : option ResolvedObjectRef) : bool :=
  if negb (nonempty (csr_schemas c)) then true
  else existsb (fun g =>
         ((o_Schema o !=? "") && g (o_Schema o)) ||
         match resolved with
         | Some r => (ro_Schema r !=? "") && g (ro_Schema r)
         | None => false
         end) (csr_schemas c).

Definition schemaMatchesResolvedObject (c : compiledStatementRule) (resolved : ResolvedObjectRef)
  : bool :=
  if negb (nonempty (csr_schemas c)) then true
  else if ro_Schema resolved ==? "" then false
  else existsb (fun g => g (ro_Schema resolved)) (csr_schemas c).

Definition relationMatches (c : compiledStatementRule) (r : ResolvedObjectRef) : bool :=
  if negb (nonempty (csr_relations c)) then false
  else if (ro_Source r !=? ResolvedObjectSourceCatalog) ||
          (ro_Kind r !=? ResolvedObjectRelation) || (ro_UnresolvedReason r !=? "") then false
  else existsb (fun g => g (CanonicalName r)) (csr_relations c).

Definition resolvedFunctionIdentity (r : ResolvedObjectRef) : string :=
  CanonicalName r +:+ "(" +:+ ro_FunctionIdentityArgs r +:+ ")".

Definition functionMatches (c : compiledStatementRule) (r : ResolvedObjectRef) : bool :=
  if negb (nonempty (csr_functions c)) then false
  else if (ro_Source r !=? ResolvedObjectSourceCatalog) ||
          (ro_Kind r !=? ResolvedObjectFunction) || (ro_UnresolvedReason r !=? "") then false
  else existsb (fun g => g (resolvedFunctionIdentity r)) (csr_functions c).

(** Shared body of the two [renderMessage] methods. *)
Definition render (t : option template) (raw : string) (ctx : messageContext) : string :=
  match t with
  | None => raw
  | Some ex => match ex ctx with
               | Ok s => s
               | Err err => "<message render error: " +:+ err +:+ ">"
               end
  end.

Definition renderMessage (c : compiledStatementRule) (ctx : messageContext) : string :=
  render (csr_msgTemplate c) (sr_Message (csr_src c)) ctx.

Definition conn_renderMessage (c : compiledConnectionRule) (ctx : messageContext) : string :=
  render (ccr_msgTemplate c) (cr_Message (ccr_src c)) ctx.

End Compiled.
Export Compiled.

(** The immutable rule set ([types.go]). *)
Module RuleSets.

Definition RedactionTier := Z.
Definition RedactNone : RedactionTier := 0.
Definition RedactParametersRedacted : RedactionTier := 1.
Definition RedactFull : RedactionTier := 2.

Record RedactionConfig := {
  rc_LogStatements : RedactionTier;
  rc_ApprovalStatementPreview : RedactionTier;
  rc_ApprovalStatementChars : Z;
  rc_EscalateUnknownFunctions : bool;
  rc_SafeFunctionAllowlist : list string
}.

(** [policies.db.unavoidability] ([internal/db/service/flag.go]). *)
Inductive Unavoidability := UnavoidabilityOff | UnavoidabilityObserve | UnavoidabilityEnforce.

#[export] Instance Unavoidability_eq_dec : EqDecision Unavoidability.
Proof. solve_decision. Defined.

Definition unavoidabilityString (u : Unavoidability) : string :=
  match u with
  | UnavoidabilityOff => "off" | UnavoidabilityObserve => "observe"
  | UnavoidabilityEnforce => "enforce"
  end.

Definition ParseUnavoidability (s : string) : option Unavoidability :=
  if s ==? "off" then Some UnavoidabilityOff
  else if s ==? "observe" then Some UnavoidabilityObserve
  else if s ==? "enforce" then Some UnavoidabilityEnforce
  else None.

Record RuleSet := {
  rs_services : gmap string DBService;
  rs_statement : list compiledStatementRule;
  rs_connection : list compiledConnectionRule;
  rs_redaction : RedactionConfig;
  rs_unavoidability : Unavoidability
}.

(** [RedactionConfig{}]. *)
Definition RedactionConfig_zero : RedactionConfig :=
  {| rc_LogStatements := RedactNone; rc_ApprovalStatementPreview := RedactNone;
     rc_ApprovalStatementChars := 0; rc_EscalateUnknownFunctions := false;
     rc_SafeFunctionAllowlist := [] |}.

Definition Redaction (rs : option RuleSet) : RedactionConfig :=
  match rs with None => RedactionConfig_zero | Some rs => rs_redaction rs end.

(** The accessor [RuleSet.Unavoidability]. *)
Definition UnavoidabilityOf (rs : option RuleSet) : Unavoidability :=
  match rs with None => UnavoidabilityOff | Some rs => rs_unavoidability rs end.

(** The accessor [RuleSet.Service]. *)
Definition ServiceOf (rs : option RuleSet) (id : ServiceID) : option DBService :=
  match rs with None => None | Some rs => rs_services rs !! id end.

(** [AllServices]; the source's order is the unspecified order of a map range. *)
Definition AllServices (rs : option RuleSet) : list DBService :=
  match rs with None => [] | Some rs => (map_to_list (rs_services rs)).*2 end.

Definition statementRulesFor (rs : RuleSet) (svc : ServiceID) : list compiledStatementRule :=
  List.filter (fun r => serviceFilter_matches (csr_serviceFilter r) svc (rs_services rs !! svc))
    (rs_statement rs).

Definition AllStatementRules (rs : option RuleSet) : list StatementRule :=
  match rs with None => [] | Some rs => csr_src <$> rs_statement rs end.

Definition UsesCanonicalSelectors (rs : option RuleSet) (svc : ServiceID) : bool :=
  match rs with
  | None => false
  | Some rs => existsb (fun r => nonempty (csr_relations r) ||
                                 nonempty (csr_functions r)) (statementRulesFor rs svc)
  end.

End RuleSets.
Export RuleSets.

(** ** Statement evaluation ([evaluate.go]) *)
Module Evaluate.

(** Verdicts of one effect; [iv_num] is the order used by the folds. *)
Inductive internalVerb :=
  verbAllow | verbAudit | verbRedirect | verbApprove | verbImplicitDeny | verbDeny.

#[export] Instance internalVerb_eq_dec : EqDecision internalVerb.
Proof. solve_decision. Defined.

Definition iv_num (v : internalVerb) : Z :=
  match v with
  | verbAllow => 0 | verbAudit => 1 | verbRedirect => 2 | verbApprove => 3
  | verbImplicitDeny => 4 | verbDeny => 5
  end.

Definition compareInternalVerb (a b : internalVerb) : Z :=
  if iv_num b <? iv_num a then 1 else if iv_num a <? iv_num b then -1 else 0.

Record effectDecision := {
  ed_verb : internalVerb;
  ed_rule : option compiledStatementRule;
  ed_contributingApprove : list compiledStatementRule;
  ed_contributingAudit : list compiledStatementRule;
  ed_uncoveredObject : ObjectRef;
  ed_denyMatchingObject : ObjectRef
}.

(** [effectDecision{verb: v, rule: r}]. *)
Definition mkDecision (v : internalVerb) (r : option compiledStatementRule) : effectDecision :=
  {| ed_verb := v; ed_rule := r; ed_contributingApprove := []; ed_contributingAudit := [];
     ed_uncoveredObject := ObjectRef_zero; ed_denyMatchingObject := ObjectRef_zero |}.

Definition isRelationObjectKind (kind : ObjectKind) : bool :=
  (kind ==? ObjectTable) || (kind ==? ObjectView) || (kind ==? ObjectSequence).

(** The common loop of [relationObjectSlotOrdinal] and [functionObjectSlotOrdinal]. *)
Fixpoint slotOrdinal (p : ObjectRef -> bool) (objects : list ObjectRef) (idx : nat) (ordinal : Z)
  : Z :=
  match objects with
  | [] => -1
  | o :: rest =>
    if negb (p o) then match idx with O => -1 | S i => slotOrdinal p rest i ordinal end
    else match idx with O => ordinal | S i => slotOrdinal p rest i (ordinal + 1) end
  end.

Definition relationObjectSlotOrdinal (objects : list ObjectRef) (idx : nat) : Z :=
  slotOrdinal (fun o => isRelationObjectKind (o_Kind o)) objects idx 0.

Definition functionObjectSlotOrdinal (objects : list ObjectRef) (idx : nat) : Z :=
  slotOrdinal (fun o => o_Kind o ==? ObjectFunction) objects idx 0.

(** The common loop of the two [resolved...ObjectAtOrdinal] functions. *)
Fixpoint resolvedAtOrdinal (kind : string) (l : list ResolvedObjectRef) (ordinal count : Z)
  : option ResolvedObjectRef :=
  match l with
  | [] => None
  | r :: rest =>
    if ro_Kind r !=? kind then resolvedAtOrdinal kind rest ordinal count
    else if count =? ordinal then Some r
    else resolvedAtOrdinal kind rest ordinal (count + 1)
  end.

Definition resolvedRelationObjectAtOrdinal (l : list ResolvedObjectRef) (ordinal : Z)
  : option ResolvedObjectRef :=
  if ordinal <? 0 then None else resolvedAtOrdinal ResolvedObjectRelation l ordinal 0.

Definition resolvedFunctionObjectAtOrdinal (l : list ResolvedObjectRef) (ordinal : Z)
  : option ResolvedObjectRef :=
  if ordinal <? 0 then None else resolvedAtOrdinal ResolvedObjectFunction l ordinal 0.

Definition resolvedObjectCompatibleWithSlot (o : ObjectRef) (resolved : ResolvedObjectRef) : bool :=
  if (o_Name o ==? "") || (ro_Name resolved ==? "") || (o_Name o !=? ro_Name resolved) then false
  else if (o_Schema o !=? "") && (o_Schema o !=? ro_Schema resolved) then false
  else if ro_Kind resolved ==? ResolvedObjectRelation then isRelationObjectKind (o_Kind o)
  else if ro_Kind resolved ==? ResolvedObjectFunction then o_Kind o ==? ObjectFunction
  else false.

Definition resolvedObjectForSlot (e : Effect) (idx : nat) : option ResolvedObjectRef :=
  match e_Objects e !! idx with
  | None => None
  | Some o =>
    if isRelationObjectKind (o_Kind o) then
      match resolvedRelationObjectAtOrdinal (e_ResolvedObjects e)
              (relationObjectSlotOrdinal (e_Objects e) idx) with
      | Some resolved => if resolvedObjectCompatibleWithSlot o resolved then Some resolved else None
      | None => None
      end
    else if o_Kind o ==? ObjectFunction then
      match resolvedFunctionObjectAtOrdinal (e_ResolvedObjects e)
              (functionObjectSlotOrdinal (e_Objects e) idx) with
      | Some resolved => if resolvedObjectCompatibleWithSlot o resolved then Some resolved else None
      | None => None
      end
    else List.find (resolvedObjectCompatibleWithSlot o) (e_ResolvedObjects e)
  end.

(** The selector that matched, [None] for [(false, "")]. *)
Definition ruleMatchesObjectSlot (r : compiledStatementRule) (e : Effect) (idx : nat)
  : option string :=
  match e_Objects e !! idx with
  | None => None
  | Some o =>
    let resolved := resolvedObjectForSlot e idx in
    if negb (schemaMatchesObjectSlot r o resolved) then None
    else if negb (hasObjectSelectors r) then Some "all"
    else if nonempty (csr_objects r) && objectMatches r o then Some "objects"
    else match resolved with
         | Some res => if relationMatches r res then Some "relations"
                       else if functionMatches r res then Some "functions" else None
         | None => None
         end
  end.

Definition slot_matched (r : compiledStatementRule) (e : Effect) (idx : nat) : bool :=
  match ruleMatchesObjectSlot r e idx with Some _ => true | None => false end.

Definition isObjectlessGroup (g : Group) : bool :=
  (g ==? GroupTransaction) || (g ==? GroupSession) || (g ==? GroupNotify).

Definition isObjectlessEffect (e : Effect) : bool :=
  if isObjectlessGroup (e_Group e) then true
  else (e_Subtype e ==? SubtypeFunctionCallProtocol) && negb (nonempty (e_ResolvedObjects e)).

Definition isResolvedOnlyFunctionEffect (e : Effect) : bool :=
  if nonempty (e_Objects e) || (e_Group e !=? GroupProcedural) then false
  else existsb (fun r => ro_Kind r ==? ResolvedObjectFunction) (e_ResolvedObjects e).

Definition ruleMatchesEffectMeta (r : compiledStatementRule) (e : Effect) : bool :=
  if negb (bool_decide (e_Group e ∈ csr_groups r)) then false
  else if csr_requireWhere r && negb (e_HasWhere e) then false
  else if bool_decide (csr_subtypes r ≠ ∅) && negb (bool_decide (e_Subtype e ∈ csr_subtypes r))
       then false
  else if negb (matchesResolution r (e_Resolution e)) then false
  else true.

(** Loop state of [foldCoverageRules]. *)
Record coverageFold := {
  cf_best : internalVerb;
  cf_approve : list compiledStatementRule;
  cf_audit : list compiledStatementRule;
  cf_redirect : option compiledStatementRule;
  cf_approveSeen : gset string;
  cf_auditSeen : gset string
}.

Definition raise_verb (v best : internalVerb) : internalVerb :=
  if iv_num best <? iv_num v then v else best.

Definition foldCoverageStep (st : coverageFold) (r : compiledStatementRule) : coverageFold :=
  let name := sr_Name (csr_src r) in
  match csr_verb r with
  | VerbRedirect =>
    {| cf_best := raise_verb verbRedirect (cf_best st); cf_approve := cf_approve st;
       cf_audit := cf_audit st;
       cf_redirect := match cf_redirect st with None => Some r | Some r' => Some r' end;
       cf_approveSeen := cf_approveSeen st; cf_auditSeen := cf_auditSeen st |}
  | VerbApprove =>
    let seen := bool_decide (name ∈ cf_approveSeen st) in
    {| cf_best := raise_verb verbApprove (cf_best st);
       cf_approve := if seen then cf_approve st else cf_approve st ++ [r];
       cf_audit := cf_audit st; cf_redirect := cf_redirect st;
       cf_approveSeen := if seen then cf_approveSeen st else {[name]} ∪ cf_approveSeen st;
       cf_auditSeen := cf_auditSeen st |}
  | VerbAudit =>
    let seen := bool_decide (name ∈ cf_auditSeen st) in
    {| cf_best := raise_verb verbAudit (cf_best st); cf_approve := cf_approve st;
       cf_audit := if seen then cf_audit st else cf_audit st ++ [r];
       cf_redirect := cf_redirect st; cf_approveSeen := cf_approveSeen st;
       cf_auditSeen := if seen then cf_auditSeen st else {[name]} ∪ cf_auditSeen st |}
  | _ => st
  end.

Definition coverageFold_init : coverageFold :=
  {| cf_best := verbAllow; cf_approve := []; cf_audit := []; cf_redirect := None;
     cf_approveSeen := ∅; cf_auditSeen := ∅ |}.

Definition foldCoverageRules (coverage : list compiledStatementRule) : effectDecision :=
  let st := fold_left foldCoverageStep coverage coverageFold_init in
  let primary := match cf_best st with
                 | verbApprove => head (cf_approve st)
                 | verbRedirect => cf_redirect st
                 | verbAudit => head (cf_audit st)
                 | _ => head coverage
                 end in
  {| ed_verb := cf_best st; ed_rule := primary; ed_contributingApprove := cf_approve st;
     ed_contributingAudit := cf_audit st; ed_uncoveredObject := ObjectRef_zero;
     ed_denyMatchingObject := ObjectRef_zero |}.

(** [coverage[i]] of the source's map, nil when absent; the loops visit [i < objectCount]. *)
Definition coverage_upto (coverage : list (list compiledStatementRule)) (objectCount : nat)
  : list compiledStatementRule :=
  concat ((fun i => default [] (coverage !! i)) <$> seq 0 objectCount).

Definition coverageRulesInPolicyOrder (applicable : list compiledStatementRule)
  (coverage : list (list compiledStatementRule)) (objectCount : nat)
  : list compiledStatementRule :=
  let covered : gset nat := list_to_set (csr_ptr <$> coverage_upto coverage objectCount) in
  List.filter (fun r => bool_decide (csr_ptr r ∈ covered)) applicable.

(** The source relation of a rule with verb redirect and a redirect action. *)
Definition redirect_source (r : compiledStatementRule) : option string :=
  match csr_verb r, csr_redirect r with
  | VerbRedirect, Some rd => Some (rd_SourceRelation rd)
  | _, _ => None
  end.

Definition redirectSources (rules : list compiledStatementRule) : gset string :=
  list_to_set (omap redirect_source rules).

Definition redirectSourceCount (coverage : list (list compiledStatementRule)) (objectCount : nat)
  : nat := size (redirectSources (coverage_upto coverage objectCount)).

Definition foldObjectCoverageRules (applicable : list compiledStatementRule)
  (coverage : list (list compiledStatementRule)) (objectCount : nat) : effectDecision :=
  let d := foldCoverageRules (coverageRulesInPolicyOrder applicable coverage objectCount) in
  if ed_verb d !=? verbRedirect then d
  else if (redirectSourceCount coverage objectCount =? 1)%nat then d
  else mkDecision verbImplicitDeny None.

Definition is_deny (r : compiledStatementRule) : bool := csr_verb r ==? VerbDeny.

Definition evaluateEffectObjectless (e : Effect) (applicable : list compiledStatementRule)
  : effectDecision :=
  match List.find (fun r => is_deny r && ruleMatchesEffectMeta r e && coversAllObjects r)
          applicable with
  | Some r => mkDecision verbDeny (Some r)
  | None =>
    let coverage := List.filter (fun r => negb (is_deny r) && ruleMatchesEffectMeta r e &&
                                          coversAllObjects r) applicable in
    if negb (nonempty coverage) then mkDecision verbImplicitDeny None
    else foldCoverageRules coverage
  end.

Definition resolvedOnlyFunctionRuleMatches (r : compiledStatementRule)
  (resolved : ResolvedObjectRef) : bool :=
  (ro_Kind resolved ==? ResolvedObjectFunction) && schemaMatchesResolvedObject r resolved.

(** Some resolved object of the effect is matched by the rule. *)
Definition resolvedOnly_matched (r : compiledStatementRule) (e : Effect) : bool :=
  existsb (fun resolved => resolvedOnlyFunctionRuleMatches r resolved &&
                           (negb (hasObjectSelectors r) || functionMatches r resolved))
    (e_ResolvedObjects e).

Definition evaluateEffectResolvedOnly (e : Effect) (applicable : list compiledStatementRule)
  : effectDecision :=
  match List.find (fun r => is_deny r && ruleMatchesEffectMeta r e && resolvedOnly_matched r e)
          applicable with
  | Some r => mkDecision verbDeny (Some r)
  | None =>
    let coverage := List.filter (fun r => negb (is_deny r) && ruleMatchesEffectMeta r e &&
                                          resolvedOnly_matched r e) applicable in
    if negb (nonempty coverage) then mkDecision verbImplicitDeny None
    else foldCoverageRules coverage
  end.

(** Pass 1 of [evaluateEffect]: the first deny rule, and its first matching object. *)
Fixpoint firstDeny (e : Effect) (applicable : list compiledStatementRule)
  : option (compiledStatementRule * ObjectRef) :=
  match applicable with
  | [] => None
  | r :: rest =>
    if is_deny r && ruleMatchesEffectMeta r e then
      match List.find (fun p => slot_matched r e p.1) (imap pair (e_Objects e)) with
      | Some p => Some (r, p.2)
      | None => firstDeny e rest
      end
    else firstDeny e rest
  end.

(** Pass 2: for each object, the non-deny rules that cover it. *)
Definition objectCoverage (e : Effect) (applicable : list compiledStatementRule)
  : list (list compiledStatementRule) :=
  imap (fun i _ => List.filter (fun r => negb (is_deny r) && ruleMatchesEffectMeta r e &&
                                         slot_matched r e i) applicable) (e_Objects e).

Definition evaluateEffect (e : Effect) (applicable : list compiledStatementRule)
  : effectDecision :=
  if negb (nonempty (e_Objects e)) then
    if isResolvedOnlyFunctionEffect e then evaluateEffectResolvedOnly e applicable
    else if isObjectlessEffect e then evaluateEffectObjectless e applicable
    else mkDecision verbImplicitDeny None
  else match firstDeny e applicable with
  | Some (r, o) =>
    {| ed_verb := verbDeny; ed_rule := Some r; ed_contributingApprove := [];
       ed_contributingAudit := []; ed_uncoveredObject := ObjectRef_zero;
       ed_denyMatchingObject := o |}
  | None =>
    let coverage := objectCoverage e applicable in
    match List.find (fun p => negb (nonempty p.2)) (zip (e_Objects e) coverage) with
    | Some p =>
      {| ed_verb := verbImplicitDeny; ed_rule := None; ed_contributingApprove := [];
         ed_contributingAudit := []; ed_uncoveredObject := p.1;
         ed_denyMatchingObject := ObjectRef_zero |}
    | None => foldObjectCoverageRules applicable coverage (length (e_Objects e))
    end
  end.

Definition messageContextFor (e : Effect) (stmt : ClassifiedStatement) : messageContext :=
  {| mc_Operation := groupString (e_Group e);
     mc_Subtype := if e_Subtype e !=? SubtypeNone then subtypeString (e_Subtype e) else "";
     mc_Schema := match e_Objects e with o :: _ => o_Schema o | [] => "" end;
     mc_Object := match e_Objects e with o :: _ => objectMatchField o | [] => "" end;
     mc_Verb := cs_RawVerb stmt;
     mc_StatementPreview := "" |}.

Definition implicitDeny (stmt : ClassifiedStatement) (idx : nat) (reason : string) : Decision :=
  {| d_Verb := VerbDeny; d_RuleKind := RuleKindStatement; d_RuleName := "";
     d_MatchingEffectIndex := Z.of_nat idx;
     d_MatchingEffectGroup := match cs_Effects stmt !! idx with Some e => e_Group e | None => 0 end;
     d_Reason := reason; d_ContributingAuditRules := []; d_Approval := None; d_Redirect := None |}.

(** The fields every decision that names a rule shares.  A nil [d.rule] would be dereferenced
    here; [ds_rule] of [evaluateEffect_spec] shows it is nil only for an implicit deny. *)
Definition ruleDecision (v : DecisionVerb) (d : effectDecision) (stmt : ClassifiedStatement)
  (idx : nat) (e : Effect) : Decision :=
  {| d_Verb := v; d_RuleKind := RuleKindStatement;
     d_RuleName := match ed_rule d with Some r => sr_Name (csr_src r) | None => "" end;
     d_MatchingEffectIndex := Z.of_nat idx; d_MatchingEffectGroup := e_Group e;
     d_Reason := match ed_rule d with
                 | Some r => renderMessage r (messageContextFor e stmt)
                 | None => ""
                 end;
     d_ContributingAuditRules := []; d_Approval := None; d_Redirect := None |}.

(** Shortest timeout among the contributing approve rules. *)
Definition minTimeout (rules : list compiledStatementRule) : Z :=
  match rules with
  | [] => 0
  | r :: rest => fold_left (fun t x => if csr_timeout x <? t then csr_timeout x else t)
                   (r :: rest) (csr_timeout r)
  end.

(** The final [switch d.verb] of [foldEffects], for the winning effect. *)
Definition effectToDecision (stmt : ClassifiedStatement) (bestIdx : nat) (e : Effect)
  (d : effectDecision) : Decision :=
  match ed_verb d with
  | verbAllow => ruleDecision VerbAllow d stmt bestIdx e
  | verbAudit => ruleDecision VerbAudit d stmt bestIdx e
  | verbRedirect =>
    let rd := ruleDecision VerbRedirect d stmt bestIdx e in
    {| d_Verb := d_Verb rd; d_RuleKind := d_RuleKind rd; d_RuleName := d_RuleName rd;
       d_MatchingEffectIndex := d_MatchingEffectIndex rd;
       d_MatchingEffectGroup := d_MatchingEffectGroup rd; d_Reason := d_Reason rd;
       d_ContributingAuditRules := []; d_Approval := None;
       d_Redirect := match ed_rule d with Some r => csr_redirect r | None => None end |}
  | verbApprove =>
    let rd := ruleDecision VerbApprove d stmt bestIdx e in
    {| d_Verb := d_Verb rd; d_RuleKind := d_RuleKind rd; d_RuleName := d_RuleName rd;
       d_MatchingEffectIndex := d_MatchingEffectIndex rd;
       d_MatchingEffectGroup := d_MatchingEffectGroup rd; d_Reason := d_Reason rd;
       d_ContributingAuditRules := (fun r => sr_Name (csr_src r)) <$> ed_contributingAudit d;
       d_Approval := Some
         {| ar_Timeout := minTimeout (ed_contributingApprove d);
            ar_ContributingApproveRules :=
              (fun r => sr_Name (csr_src r)) <$> ed_contributingApprove d |};
       d_Redirect := None |}
  | verbImplicitDeny =>
    implicitDeny stmt bestIdx
      ("no rule covers " +:+ Quote (objectMatchField (ed_uncoveredObject d)) +:+ " in " +:+
       Quote (groupString (e_Group e)) +:+ " effect")
  | verbDeny => ruleDecision VerbDeny d stmt bestIdx e
  end.

Definition foldEffects (stmt : ClassifiedStatement) (perEffect : list effectDecision) : Decision :=
  match imap pair perEffect with
  | [] => implicitDeny stmt 0 "unknown effect verdict"
  | p0 :: rest =>
    let '(bestIdx, d) := pick_max (fun p => iv_num (ed_verb p.2)) p0 rest in
    match cs_Effects stmt !! bestIdx with
    | None => implicitDeny stmt bestIdx "unknown effect verdict"
    | Some e => effectToDecision stmt bestIdx e d
    end
  end.

Definition Evaluate (stmt : ClassifiedStatement) (rs : option RuleSet) (svc : ServiceID)
  : Decision :=
  match rs with
  | None => implicitDeny stmt 0 "policy not loaded"
  | Some rs =>
    let applicable := statementRulesFor rs svc in
    if negb (nonempty (cs_Effects stmt)) then implicitDeny stmt 0 "no effects on statement"
    else foldEffects stmt ((fun e => evaluateEffect e applicable) <$> cs_Effects stmt)
  end.

End Evaluate.
Export Evaluate.

(** ** Connection evaluation ([evaluate_conn.go]) *)
Module EvaluateConn.

Definition connectionRuleKindFor (mk : ConnectionMatchKind) : RuleKind :=
  match mk with MatchCancel => RuleKindCancel | _ => RuleKindConnection end.

Definition connKindString (mk : ConnectionMatchKind) : string :=
  match mk with
  | MatchConnect => "connect" | MatchCancel => "cancel" | MatchReplication => "replication"
  end.

Definition connVerbRank (v : DecisionVerb) : Z :=
  match v with
  | VerbAllow => 0 | VerbAudit => 1 | VerbApprove => 2 | VerbDeny => 3 | VerbRedirect => -1
  end.

Definition compareConnVerb (a b : DecisionVerb) : Z := connVerbRank a - connVerbRank b.

Definition connRuleMatchesInfo (r : compiledConnectionRule) (info : ConnectionInfo) : bool :=
  if bool_decide (ccr_dbUsers r ≠ ∅) && negb (bool_decide (ci_DBUser info ∈ ccr_dbUsers r))
  then false
  else if (ccr_database r !=? "") && (ccr_database r !=? ci_Database info) then false
  else if match ccr_applicationName r with
          | Some g => negb (g (ci_ApplicationName info)) | None => false end then false
  else if match ccr_clientIdentity r with
          | Some g => negb (g (ci_ClientIdentity info)) | None => false end then false
  else true.

(** The guards of the matching loop. *)
Definition connRuleApplies (info : ConnectionInfo) (r : compiledConnectionRule) : bool :=
  if ccr_matchKind r !=? ci_MatchKind info then false
  else if (sf_service (ccr_serviceFilter r) !=? "") &&
          (sf_service (ccr_serviceFilter r) !=? ci_Service info) then false
  else if negb (connRuleMatchesInfo r info) then false
  else true.

Definition connDeny (info : ConnectionInfo) (reason : string) : Decision :=
  {| d_Verb := VerbDeny; d_RuleKind := connectionRuleKindFor (ci_MatchKind info);
     d_RuleName := ""; d_MatchingEffectIndex := -1; d_MatchingEffectGroup := GroupUnknown;
     d_Reason := reason; d_ContributingAuditRules := []; d_Approval := None; d_Redirect := None |}.

Definition EvaluateConnection (info : ConnectionInfo) (rs : option RuleSet) : Decision :=
  match rs with
  | None => connDeny info "policy not loaded"
  | Some rs =>
    match List.filter (connRuleApplies info) (rs_connection rs) with
    | [] => connDeny info "no connection rule matched"
    | r0 :: rest =>
      let best := pick_max (fun r => connVerbRank (ccr_verb r)) r0 rest in
      {| d_Verb := ccr_verb best; d_RuleKind := connectionRuleKindFor (ci_MatchKind info);
         d_RuleName := cr_Name (ccr_src best); d_MatchingEffectIndex := -1;
         d_MatchingEffectGroup := GroupUnknown;
         d_Reason := conn_renderMessage best
           {| mc_Operation := connKindString (ci_MatchKind info); mc_Subtype := "";
              mc_Schema := ""; mc_Object := ""; mc_Verb := ""; mc_StatementPreview := "" |};
         d_ContributingAuditRules := [];
         d_Approval := if ccr_verb best ==? VerbApprove then
             Some {| ar_Timeout := ccr_timeout best;
                     ar_ContributingApproveRules := [cr_Name (ccr_src best)] |}
           else None;
         d_Redirect := None |}
    end
  end.

End EvaluateConn.
Export EvaluateConn.

(** ** Explanations ([explain.go]) *)
Module Explain.

Record RuleMatch := { rm_RuleName : string; rm_Verb : DecisionVerb; rm_Selector : string }.

Record ObjectCoverage := {
  oc_Index : nat;
  oc_Object : ObjectRef;
  oc_ResolvedObject : option ResolvedObjectRef;
  oc_Covered : bool;
  oc_CoveringRules : list RuleMatch;
  oc_UncoveredReason : string
}.

Record EffectExplanation := {
  ee_Index : nat;
  ee_Group : Group;
  ee_Subtype : Subtype;
  ee_Resolution : Resolution;
  ee_Coverage : list ObjectCoverage;
  ee_CoveringRules : list RuleMatch;
  ee_DenyRules : list RuleMatch
}.

Record StatementExplanation := {
  se_Decision : Decision;
  se_ApplicableRules : list string;
  se_Effects : list EffectExplanation
}.

(** The key [RuleName + NUL + Selector] and the list with its [seen] set. *)
Definition match_key (m : RuleMatch) : string :=
  rm_RuleName m +:+ String (char_of_byte 0) EmptyString +:+ rm_Selector m.

Definition appendRuleMatchUnique (st : list RuleMatch * gset string) (m : RuleMatch)
  : list RuleMatch * gset string :=
  if bool_decide (match_key m ∈ st.2) then st
  else (st.1 ++ [m], {[match_key m]} ∪ st.2).

Definition mkMatch (r : compiledStatementRule) (selector : string) : RuleMatch :=
  {| rm_RuleName := sr_Name (csr_src r); rm_Verb := csr_verb r; rm_Selector := selector |}.

(** Loop state of the object-less explanations: covering and deny matches with their seen sets. *)
Definition matchAcc : Type :=
  (list RuleMatch * gset string) * (list RuleMatch * gset string).

Definition explainMatch (sel : compiledStatementRule -> option string) (e : Effect)
  (acc : matchAcc) (r : compiledStatementRule) : matchAcc :=
  if negb (ruleMatchesEffectMeta r e) then acc
  else match sel r with
  | None => acc
  | Some selector =>
    if is_deny r then (acc.1, appendRuleMatchUnique acc.2 (mkMatch r selector))
    else (appendRuleMatchUnique acc.1 (mkMatch r selector), acc.2)
  end.

Definition matchAcc_init : matchAcc := (([], ∅), ([], ∅)).

(** [resolvedOnlyFunctionRuleSelector]: the first resolved object that the rule matches. *)
Fixpoint resolvedOnlySelector (r : compiledStatementRule) (l : list ResolvedObjectRef)
  : option string :=
  match l with
  | [] => None
  | resolved :: rest =>
    if negb (resolvedOnlyFunctionRuleMatches r resolved) then resolvedOnlySelector r rest
    else if negb (hasObjectSelectors r) then Some "all"
    else if functionMatches r resolved then Some "functions"
    else resolvedOnlySelector r rest
  end.

Definition resolvedOnlyFunctionRuleSelector (r : compiledStatementRule) (e : Effect)
  : option string := resolvedOnlySelector r (e_ResolvedObjects e).

Definition objectlessSelector (r : compiledStatementRule) : option string :=
  if coversAllObjects r then Some "all" else None.

Definition explainNoObjectEffect (e : Effect) (applicable : list compiledStatementRule)
  : matchAcc :=
  if isResolvedOnlyFunctionEffect e then
    fold_left (explainMatch (fun r => resolvedOnlyFunctionRuleSelector r e) e) applicable
      matchAcc_init
  else if isObjectlessEffect e then
    fold_left (explainMatch objectlessSelector e) applicable matchAcc_init
  else matchAcc_init.

(** Inner loop over the rules for one object. *)
Definition explainObjectStep (e : Effect) (i : nat)
  (acc : list RuleMatch * (list RuleMatch * gset string)) (r : compiledStatementRule)
  : list RuleMatch * (list RuleMatch * gset string) :=
  if negb (ruleMatchesEffectMeta r e) then acc
  else match ruleMatchesObjectSlot r e i with
  | None => acc
  | Some selector =>
    if is_deny r then (acc.1, appendRuleMatchUnique acc.2 (mkMatch r selector))
    else (acc.1 ++ [mkMatch r selector], acc.2)
  end.

Definition explainObjectAt (e : Effect) (applicable : list compiledStatementRule)
  (acc : list ObjectCoverage * (list RuleMatch * gset string)) (p : nat * ObjectRef)
  : list ObjectCoverage * (list RuleMatch * gset string) :=
  let '(i, obj) := p in
  let '(covering, deny) := fold_left (explainObjectStep e i) applicable ([], acc.2) in
  let covered := nonempty covering in
  (acc.1 ++
     [{| oc_Index := i; oc_Object := obj; oc_ResolvedObject := resolvedObjectForSlot e i;
         oc_Covered := covered; oc_CoveringRules := covering;
         oc_UncoveredReason :=
           if covered then "" else "no matching non-deny rule covers object" |}], deny).

Definition explainEffect (index : nat) (e : Effect) (applicable : list compiledStatementRule)
  : effectDecision * EffectExplanation :=
  let d := evaluateEffect e applicable in
  if negb (nonempty (e_Objects e)) then
    let acc := explainNoObjectEffect e applicable in
    (d, {| ee_Index := index; ee_Group := e_Group e; ee_Subtype := e_Subtype e;
           ee_Resolution := e_Resolution e; ee_Coverage := []; ee_CoveringRules := acc.1.1;
           ee_DenyRules := acc.2.1 |})
  else
    let acc := fold_left (explainObjectAt e applicable) (imap pair (e_Objects e)) ([], ([], ∅)) in
    (d, {| ee_Index := index; ee_Group := e_Group e; ee_Subtype := e_Subtype e;
           ee_Resolution := e_Resolution e; ee_Coverage := acc.1; ee_CoveringRules := [];
           ee_DenyRules := acc.2.1 |}).

Definition ExplainStatement (stmt : ClassifiedStatement) (rs : option RuleSet) (svc : ServiceID)
  : StatementExplanation :=
  match rs with
  | None => {| se_Decision := implicitDeny stmt 0 "policy not loaded"; se_ApplicableRules := [];
               se_Effects := [] |}
  | Some rs =>
    let applicable := statementRulesFor rs svc in
    let both := imap (fun i e => explainEffect i e applicable) (cs_Effects stmt) in
    let names := (fun r => sr_Name (csr_src r)) <$> applicable in
    if negb (nonempty (cs_Effects stmt)) then
      {| se_Decision := implicitDeny stmt 0 "no effects on statement";
         se_ApplicableRules := names; se_Effects := [] |}
    else {| se_Decision := foldEffects stmt both.*1; se_ApplicableRules := names;
            se_Effects := both.*2 |}
  end.

End Explain.
Export Explain.

(** ** Abstract specification of an effect's verdict

    What §10.2 promises, without passes, maps or order of rules: an effect has targets (its object
    slots, or one target when it has none), each target is matched by some rules, and the verdict
    depends only on which rules match which targets. *)
Module Spec.

Definition effect_targets (e : Effect) : list (compiledStatementRule -> bool) :=
  if nonempty (e_Objects e) then imap (fun i _ r => slot_matched r e i) (e_Objects e)
  else if isResolvedOnlyFunctionEffect e then [fun r => resolvedOnly_matched r e]
  else if isObjectlessEffect e then [coversAllObjects]
  else [].

(** Rule [r] of [rules] matches target [t] of [e]. *)
Definition rule_hits (rules : list compiledStatementRule) (e : Effect)
  (t : compiledStatementRule -> bool) (r : compiledStatementRule) : Prop :=
  r ∈ rules /\ ruleMatchesEffectMeta r e = true /\ t r = true.

Definition denied_by (rules : list compiledStatementRule) (e : Effect)
  (r : compiledStatementRule) : Prop :=
  csr_verb r = VerbDeny /\ exists t, In t (effect_targets e) /\ rule_hits rules e t r.

Definition effect_denied (rules : list compiledStatementRule) (e : Effect) : Prop :=
  exists r, denied_by rules e r.

(** [r] is a non-deny rule that covers some target of [e]. *)
Definition covering (rules : list compiledStatementRule) (e : Effect)
  (r : compiledStatementRule) : Prop :=
  csr_verb r <> VerbDeny /\ exists t, In t (effect_targets e) /\ rule_hits rules e t r.

Definition effect_covered (rules : list compiledStatementRule) (e : Effect) : Prop :=
  effect_targets e <> [] /\
  forall t, In t (effect_targets e) -> exists r, csr_verb r <> VerbDeny /\ rule_hits rules e t r.

Definition internal_of (v : DecisionVerb) : internalVerb :=
  match v with
  | VerbAllow => verbAllow | VerbAudit => verbAudit | VerbRedirect => verbRedirect
  | VerbApprove => verbApprove | VerbDeny => verbDeny
  end.

Definition public_of (v : internalVerb) : DecisionVerb :=
  match v with
  | verbAllow => VerbAllow | verbAudit => VerbAudit | verbRedirect => VerbRedirect
  | verbApprove => VerbApprove | verbImplicitDeny => VerbDeny | verbDeny => VerbDeny
  end.

(** [v] is the most restrictive verb of the covering rules. *)
Definition strictest (rules : list compiledStatementRule) (e : Effect) (v : internalVerb) : Prop :=
  (exists r, covering rules e r /\ internal_of (csr_verb r) = v) /\
  forall r, covering rules e r -> iv_num (internal_of (csr_verb r)) <= iv_num v.

(** Exactly one source relation among the covering redirect rules. *)
Definition one_source (rules : list compiledStatementRule) (e : Effect) : Prop :=
  exists s, (exists r, covering rules e r /\ redirect_source r = Some s) /\
    forall r s', covering rules e r -> redirect_source r = Some s' -> s' = s.

Inductive effect_verdict (rules : list compiledStatementRule) (e : Effect)
  : internalVerb -> Prop :=
| ev_deny : effect_denied rules e -> effect_verdict rules e verbDeny
| ev_uncovered : ~ effect_denied rules e -> ~ effect_covered rules e ->
    effect_verdict rules e verbImplicitDeny
| ev_covered v : ~ effect_denied rules e -> effect_covered rules e -> strictest rules e v ->
    (v = verbRedirect -> e_Objects e <> [] -> one_source rules e) -> effect_verdict rules e v
| ev_ambiguous : ~ effect_denied rules e -> effect_covered rules e ->
    strictest rules e verbRedirect -> e_Objects e <> [] -> ~ one_source rules e ->
    effect_verdict rules e verbImplicitDeny.

(** The statement's verdict is the most restrictive of its effects' verdicts. *)
Definition statement_verdict (rules : list compiledStatementRule) (stmt : ClassifiedStatement)
  (v : internalVerb) : Prop :=
  (exists e, e ∈ cs_Effects stmt /\ effect_verdict rules e v) /\
  forall e v', e ∈ cs_Effects stmt -> effect_verdict rules e v' -> iv_num v' <= iv_num v.

(** Rules are distinct heap objects. *)
Definition ptrs_distinct (rules : list compiledStatementRule) : Prop := NoDup (csr_ptr <$> rules).

Definition rs_wf (rs : RuleSet) : Prop := ptrs_distinct (rs_statement rs).

End Spec.
Export Spec.

(** ** Lemmas on the evaluator *)
Module PolicyFacts.

Lemma iv_num_inj a b : iv_num a = iv_num b -> a = b.
Proof. by destruct a, b. Qed.

Lemma is_deny_true r : is_deny r = true <-> csr_verb r = VerbDeny.
Proof. unfold is_deny. apply bool_decide_eq_true. Qed.

Lemma is_deny_false r : negb (is_deny r) = true <-> csr_verb r <> VerbDeny.
Proof. unfold is_deny. rewrite negb_true_iff. apply bool_decide_eq_false. Qed.

Lemma nonempty_true {A} (l : list A) : nonempty l = true <-> l <> [].
Proof. by destruct l. Qed.

Lemma nonempty_false {A} (l : list A) : nonempty l = false <-> l = [].
Proof. by destruct l. Qed.

Lemma nonempty_elem {A} (l : list A) : nonempty l = true <-> exists x, In x l.
Proof.
  split; [destruct l as [|x l]; [done|]; exists x; by left|]. intros [x Hx]. by destruct l.
Qed.

(** The predicate a coverage pass filters with, and its reading. *)
Lemma hits_filter rules e t r :
  In r (List.filter (fun r => negb (is_deny r) && ruleMatchesEffectMeta r e && t r) rules) <->
  csr_verb r <> VerbDeny /\ rule_hits rules e t r.
Proof.
  unfold rule_hits.
  rewrite filter_In, !andb_true_iff, is_deny_false, <- list_elem_of_In. tauto.
Qed.

(** *** The fold over covering rules, component by component *)

(** Keep the first rule of each name. *)
Fixpoint dedup_by_name (seen : gset string) (l : list compiledStatementRule)
  : list compiledStatementRule :=
  match l with
  | [] => []
  | r :: l' =>
    if bool_decide (sr_Name (csr_src r) ∈ seen) then dedup_by_name seen l'
    else r :: dedup_by_name ({[sr_Name (csr_src r)]} ∪ seen) l'
  end.

Lemma dedup_by_name_sub seen l r : In r (dedup_by_name seen l) -> In r l.
Proof.
  revert seen. induction l as [|x l IH]; intros seen; simpl; [done|].
  case_bool_decide; [eauto|]. intros [->|?]; eauto.
Qed.

Lemma dedup_by_name_rep seen l r :
  In r l -> sr_Name (csr_src r) ∉ seen ->
  exists r', In r' (dedup_by_name seen l) /\ sr_Name (csr_src r') = sr_Name (csr_src r).
Proof.
  revert seen. induction l as [|x l IH]; intros seen Hin Hn; [done|]. simpl.
  destruct (decide (sr_Name (csr_src x) = sr_Name (csr_src r))) as [Hx|Hx].
  - rewrite bool_decide_eq_false_2 by (by rewrite Hx). exists x. split; [by left|done].
  - destruct Hin as [->|Hin]; [done|]. case_bool_decide; [by apply IH|].
    destruct (IH ({[sr_Name (csr_src x)]} ∪ seen) Hin) as (r' & ? & ?); [set_solver|].
    exists r'. split; [by right|done].
Qed.

Definition has_verb (v : DecisionVerb) (r : compiledStatementRule) : bool := csr_verb r ==? v.

(** Verb a covering rule contributes to the fold; deny rules never reach it. *)
Definition fold_verb (r : compiledStatementRule) : internalVerb :=
  match csr_verb r with VerbDeny => verbAllow | v => internal_of v end.

Lemma fold_verb_nondeny r : csr_verb r <> VerbDeny -> fold_verb r = internal_of (csr_verb r).
Proof. unfold fold_verb. by destruct (csr_verb r). Qed.

Lemma fold_best cov st :
  cf_best (fold_left foldCoverageStep cov st) =
  fold_left (fun b r => raise_verb (fold_verb r) b) cov (cf_best st).
Proof.
  revert st. induction cov as [|r cov IH]; intros st; simpl; [done|]. rewrite IH. f_equal.
  unfold foldCoverageStep, fold_verb, raise_verb. destruct (csr_verb r); simpl; try done;
    by destruct (cf_best st).
Qed.

Lemma fold_approve cov st :
  cf_approve (fold_left foldCoverageStep cov st) =
  cf_approve st ++ dedup_by_name (cf_approveSeen st) (List.filter (has_verb VerbApprove) cov).
Proof.
  revert st. induction cov as [|r cov IH]; intros st; simpl; [by rewrite app_nil_r|]. rewrite IH.
  unfold foldCoverageStep, has_verb. destruct (csr_verb r); simpl; try done.
  case_bool_decide; [done|]. by rewrite <- app_assoc.
Qed.

Lemma fold_audit cov st :
  cf_audit (fold_left foldCoverageStep cov st) =
  cf_audit st ++ dedup_by_name (cf_auditSeen st) (List.filter (has_verb VerbAudit) cov).
Proof.
  revert st. induction cov as [|r cov IH]; intros st; simpl; [by rewrite app_nil_r|]. rewrite IH.
  unfold foldCoverageStep, has_verb. destruct (csr_verb r); simpl; try done.
  case_bool_decide; [done|]. by rewrite <- app_assoc.
Qed.

Lemma fold_redirect cov st :
  cf_redirect (fold_left foldCoverageStep cov st) =
  match cf_redirect st with
  | Some r => Some r
  | None => List.find (has_verb VerbRedirect) cov
  end.
Proof.
  revert st. induction cov as [|r cov IH]; intros st; simpl; [by case_match|]. rewrite IH.
  unfold foldCoverageStep, has_verb. destruct (csr_verb r); simpl; try done.
  by destruct (cf_redirect st).
Qed.

Lemma fold_raise_ge cov b :
  iv_num b <= iv_num (fold_left (fun b r => raise_verb (fold_verb r) b) cov b) /\
  forall r, In r cov ->
    iv_num (fold_verb r) <= iv_num (fold_left (fun b r => raise_verb (fold_verb r) b) cov b).
Proof.
  revert b. induction cov as [|x cov IH]; intros b; simpl; [split; [lia|done]|].
  destruct (IH (raise_verb (fold_verb x) b)) as [H1 H2].
  assert (iv_num b <= iv_num (raise_verb (fold_verb x) b) /\
          iv_num (fold_verb x) <= iv_num (raise_verb (fold_verb x) b)).
  { unfold raise_verb. destruct (Z.ltb_spec (iv_num b) (iv_num (fold_verb x))); lia. }
  split; [lia|]. intros r [->|Hr]; [lia|auto].
Qed.

Lemma fold_raise_in cov b :
  fold_left (fun b r => raise_verb (fold_verb r) b) cov b = b \/
  exists r, In r cov /\ fold_verb r = fold_left (fun b r => raise_verb (fold_verb r) b) cov b.
Proof.
  revert b. induction cov as [|x cov IH]; intros b; simpl; [by left|].
  destruct (IH (raise_verb (fold_verb x) b)) as [Heq|(r & ? & ?)]; [|right; eauto].
  rewrite Heq. unfold raise_verb. case_match; [right; eauto|by left].
Qed.

(** What [foldCoverageRules] promises on a non-empty list of non-deny rules. *)
Record fold_spec (cov : list compiledStatementRule) (d : effectDecision) : Prop := {
  fs_bound : forall r, In r cov -> iv_num (internal_of (csr_verb r)) <= iv_num (ed_verb d);
  fs_rule : exists r, ed_rule d = Some r /\ In r cov /\ internal_of (csr_verb r) = ed_verb d;
  fs_approve : forall r, In r (ed_contributingApprove d) -> In r cov /\ csr_verb r = VerbApprove;
  fs_approve_all : forall r, In r cov -> csr_verb r = VerbApprove ->
    exists r', In r' (ed_contributingApprove d) /\ sr_Name (csr_src r') = sr_Name (csr_src r);
  fs_audit : forall r, In r (ed_contributingAudit d) -> In r cov /\ csr_verb r = VerbAudit
}.

Lemma head_In {A} (l : list A) : l <> [] -> exists x, head l = Some x /\ In x l.
Proof. destruct l as [|x l]; [done|]. intros _. exists x. split; [done|by left]. Qed.

Lemma filter_has_verb v cov r :
  In r (List.filter (has_verb v) cov) <-> In r cov /\ csr_verb r = v.
Proof. rewrite filter_In. unfold has_verb. by rewrite bool_decide_eq_true. Qed.

Lemma head_dedup v cov r :
  In r cov -> csr_verb r = v ->
  exists x, head (dedup_by_name ∅ (List.filter (has_verb v) cov)) = Some x /\ In x cov /\
    csr_verb x = v.
Proof.
  intros Hr Hv.
  destruct (dedup_by_name_rep ∅ (List.filter (has_verb v) cov) r) as (r' & Hr' & _);
    [by apply filter_has_verb|set_solver|].
  destruct (head_In (dedup_by_name ∅ (List.filter (has_verb v) cov))) as (x & Hh & Hx);
    [by intros Hnil; rewrite Hnil in Hr'|].
  exists x. apply dedup_by_name_sub, filter_has_verb in Hx as [? ?]. done.
Qed.

Lemma foldCoverageRules_spec cov :
  cov <> [] -> (forall r, In r cov -> csr_verb r <> VerbDeny) ->
  fold_spec cov (foldCoverageRules cov).
Proof.
  intros Hne Hnd. unfold foldCoverageRules.
  set (st := fold_left foldCoverageStep cov coverageFold_init).
  assert (Hb : forall r, In r cov -> iv_num (internal_of (csr_verb r)) <= iv_num (cf_best st)).
  { intros r Hr. rewrite <- fold_verb_nondeny by auto. unfold st. rewrite fold_best.
    by apply fold_raise_ge. }
  assert (Ha : cf_approve st = dedup_by_name ∅ (List.filter (has_verb VerbApprove) cov)).
  { unfold st. by rewrite fold_approve. }
  assert (Hu : cf_audit st = dedup_by_name ∅ (List.filter (has_verb VerbAudit) cov)).
  { unfold st. by rewrite fold_audit. }
  assert (Hrd : cf_redirect st = List.find (has_verb VerbRedirect) cov).
  { unfold st. by rewrite fold_redirect. }
  assert (Hin : cf_best st = verbAllow \/
                exists r, In r cov /\ internal_of (csr_verb r) = cf_best st).
  { unfold st. rewrite fold_best. destruct (fold_raise_in cov verbAllow) as [Heq|(r & Hr & Heq)].
    - by left.
    - right. exists r. rewrite <- fold_verb_nondeny by auto. done. }
  constructor; simpl; rewrite ?Ha, ?Hu.
  - exact Hb.
  - destruct (cf_best st) eqn:Eb.
    + destruct (head_In cov Hne) as (r & Hh & Hr). exists r. repeat split; try done.
      pose proof (Hb r Hr). destruct (csr_verb r) eqn:?; simpl in *; try lia; done.
    + destruct Hin as [?|(r & Hr & Heq)]; [done|].
      destruct (head_dedup VerbAudit cov r Hr) as (x & -> & ? & Hx); [by destruct (csr_verb r)|].
      exists x. by rewrite Hx.
    + rewrite Hrd. destruct Hin as [?|(r & Hr & Heq)]; [done|].
      destruct (List.find (has_verb VerbRedirect) cov) as [x|] eqn:Ef.
      * apply find_some in Ef as [? Hx]. exists x. unfold has_verb in Hx. bool_prop.
        repeat split; try done. by rewrite Hx.
      * pose proof (find_none _ _ Ef r Hr) as Hx. unfold has_verb in Hx. bool_prop.
        by destruct (csr_verb r).
    + destruct Hin as [?|(r & Hr & Heq)]; [done|].
      destruct (head_dedup VerbApprove cov r Hr) as (x & -> & ? & Hx); [by destruct (csr_verb r)|].
      exists x. by rewrite Hx.
    + destruct Hin as [?|(r & Hr & Heq)]; [done|]. by destruct (csr_verb r).
    + destruct Hin as [?|(r & Hr & Heq)]; [done|]. specialize (Hnd r Hr).
      by destruct (csr_verb r).
  - intros r Hr. by apply dedup_by_name_sub, filter_has_verb in Hr.
  - intros r Hr Hv. apply dedup_by_name_rep; [by apply filter_has_verb|set_solver].
  - intros r Hr. by apply dedup_by_name_sub, filter_has_verb in Hr.
Qed.

(** *** The passes of [evaluateEffect] *)

(** Deny pass of the object-bearing path. *)
Lemma firstDeny_Some e rules r o :
  firstDeny e rules = Some (r, o) ->
  r ∈ rules /\ csr_verb r = VerbDeny /\ ruleMatchesEffectMeta r e = true /\
  exists i, e_Objects e !! i = Some o /\ slot_matched r e i = true.
Proof.
  induction rules as [|x rules IH]; simpl; [done|].
  assert (Hrec : firstDeny e rules = Some (r, o) -> r ∈ x :: rules /\ csr_verb r = VerbDeny /\
    ruleMatchesEffectMeta r e = true /\
    exists i, e_Objects e !! i = Some o /\ slot_matched r e i = true).
  { intros H. destruct (IH H) as (? & ?). split; [by right|done]. }
  destruct (is_deny x && ruleMatchesEffectMeta x e) eqn:Ex; [|done].
  destruct (List.find _ _) as [p|] eqn:Ef; [|done]. intros [= <- <-].
  apply andb_true_iff in Ex as [Hd Hm]. apply is_deny_true in Hd.
  apply find_some in Ef as [Hin Hs]. apply list_elem_of_In, elem_of_lookup_imap in Hin as (i & y & -> & ?).
  split; [left|]. eauto.
Qed.

Lemma firstDeny_None e rules r i o :
  firstDeny e rules = None -> r ∈ rules -> csr_verb r = VerbDeny ->
  ruleMatchesEffectMeta r e = true -> e_Objects e !! i = Some o -> slot_matched r e i = false.
Proof.
  induction rules as [|x rules IH]; simpl; [set_solver|]. intros Hn Hr Hv Hm Ho.
  destruct (is_deny x && ruleMatchesEffectMeta x e) eqn:Ex.
  - destruct (List.find _ _) as [p|] eqn:Ef; [done|].
    apply elem_of_cons in Hr as [->|Hr]; [|by apply IH].
    apply (find_none _ _ Ef (i, o)). apply list_elem_of_In, elem_of_lookup_imap. eauto.
  - apply elem_of_cons in Hr as [->|Hr]; [|by apply IH].
    apply is_deny_true in Hv. by rewrite Hv, Hm in Ex.
Qed.

(** Targets of an effect with objects are its slots. *)
Lemma targets_objects e t :
  e_Objects e <> [] ->
  (In t (effect_targets e) <->
   exists i o, e_Objects e !! i = Some o /\ t = fun r => slot_matched r e i).
Proof.
  intros Hne. unfold effect_targets. rewrite (proj2 (nonempty_true _) Hne).
  rewrite <- list_elem_of_In, elem_of_lookup_imap. naive_solver.
Qed.

Lemma elem_objectCoverage e rules cov :
  cov ∈ objectCoverage e rules <->
  exists i o, e_Objects e !! i = Some o /\
    cov = List.filter (fun r => negb (is_deny r) && ruleMatchesEffectMeta r e &&
                                slot_matched r e i) rules.
Proof. unfold objectCoverage. rewrite elem_of_lookup_imap. naive_solver. Qed.

(** The loops over [i < objectCount] see every object's coverage. *)
Lemma coverage_upto_all (coverage : list (list compiledStatementRule)) :
  coverage_upto coverage (length coverage) = concat coverage.
Proof.
  unfold coverage_upto. f_equal. apply list_eq. intros i. rewrite list_lookup_fmap.
  destruct (decide (i < length coverage)%nat) as [Hlt|Hge].
  - rewrite lookup_seq_lt by done. simpl.
    destruct (lookup_lt_is_Some_2 coverage i Hlt) as [x Hx]. by rewrite Hx.
  - rewrite lookup_ge_None_2 by (rewrite length_seq; lia).
    rewrite lookup_ge_None_2 by lia. done.
Qed.

Lemma length_objectCoverage e rules : length (objectCoverage e rules) = length (e_Objects e).
Proof. apply length_imap. Qed.

Lemma in_coverage e rules r :
  e_Objects e <> [] -> In r (concat (objectCoverage e rules)) <-> covering rules e r.
Proof.
  intros Hne. rewrite in_concat. unfold covering. split.
  - intros (cov & Hcov & Hr). apply list_elem_of_In, elem_objectCoverage in Hcov as (i & o & ? & ->).
    apply hits_filter in Hr as [? ?]. split; [done|].
    exists (fun r => slot_matched r e i). split; [apply targets_objects; eauto|done].
  - intros (? & t & Ht & Hh). apply targets_objects in Ht as (i & o & ? & ->); [|done].
    eexists. split; [apply list_elem_of_In, elem_objectCoverage; eauto|]. by apply hits_filter.
Qed.

(** Rules picked back by address are the covering rules. *)
Lemma in_policy_order e rules r :
  e_Objects e <> [] -> ptrs_distinct rules ->
  In r (coverageRulesInPolicyOrder rules (objectCoverage e rules) (length (e_Objects e))) <->
  covering rules e r.
Proof.
  intros Hne Hd. unfold coverageRulesInPolicyOrder.
  rewrite <- (length_objectCoverage e rules), coverage_upto_all, filter_In.
  rewrite bool_decide_eq_true, elem_of_list_to_set, list_elem_of_fmap. split.
  - intros (Hr & x & Hp & Hx). rewrite list_elem_of_In, in_coverage in Hx by done.
    assert (x = r) as ->; [|done].
    destruct Hx as (_ & t & _ & (Hxr & _)). apply list_elem_of_In in Hr.
    apply list_elem_of_lookup in Hr as [i Hi], Hxr as [j Hj].
    assert (i = j); [|congruence].
    eapply (NoDup_lookup _ i j (csr_ptr r) Hd); rewrite list_lookup_fmap.
    + by rewrite Hi. + rewrite Hj. simpl. congruence.
  - intros Hc. split; [apply list_elem_of_In; by destruct Hc as (_ & t & _ & (? & _))|].
    exists r. split; [done|]. rewrite list_elem_of_In. by apply in_coverage.
Qed.

Lemma redirectSourceCount_one e rules :
  e_Objects e <> [] ->
  redirectSourceCount (objectCoverage e rules) (length (e_Objects e)) = 1%nat <->
  one_source rules e.
Proof.
  intros Hne. unfold redirectSourceCount, redirectSources, one_source.
  rewrite <- (length_objectCoverage e rules), coverage_upto_all.
  assert (Hs : forall s, s ∈ (list_to_set (omap redirect_source (concat (objectCoverage e rules)))
                 : gset string) <-> exists r, covering rules e r /\ redirect_source r = Some s).
  { intros s. rewrite elem_of_list_to_set, list_elem_of_omap.
    setoid_rewrite list_elem_of_In. setoid_rewrite in_coverage; done. }
  split.
  - intros [s Heq]%size_1_elem_of. exists s. split; [apply Hs; set_solver|].
    intros r s' Hc Hr. assert (s' ∈ ({[s]} : gset string)); [|set_solver].
    rewrite <- Heq. apply Hs. eauto.
  - intros (s & Hex & Hall).
    assert (Heq : (list_to_set (omap redirect_source (concat (objectCoverage e rules)))
                     : gset string) = {[s]}); [|by rewrite Heq, size_singleton].
    apply set_eq. intros x. rewrite Hs, elem_of_singleton. naive_solver.
Qed.

(** The search for an uncovered object decides whether the effect is covered. *)
Lemma find_uncovered e rules :
  e_Objects e <> [] ->
  match List.find (fun p => negb (nonempty p.2)) (zip (e_Objects e) (objectCoverage e rules)) with
  | None => effect_covered rules e
  | Some _ => ~ effect_covered rules e
  end.
Proof.
  intros Hne. destruct (List.find _ _) as [[o cov]|] eqn:Ef.
  - apply find_some in Ef as [Hin Hn]. simpl in Hn. bool_prop. apply nonempty_false in Hn as ->.
    apply list_elem_of_In, elem_of_zip_r, elem_objectCoverage in Hin as (i & o' & Ho & Hf).
    intros [_ Hc]. destruct (Hc (fun r => slot_matched r e i)) as (r & Hr).
    { apply targets_objects; eauto. }
    apply hits_filter in Hr. by rewrite <- Hf in Hr.
  - split.
    + intros Ht. destruct (e_Objects e) as [|o l] eqn:Eo; [done|].
      assert (In (fun r => slot_matched r e 0) (effect_targets e)) as Hin; [|by rewrite Ht in Hin].
      apply targets_objects; [by rewrite Eo|]. exists O, o. by rewrite Eo.
    + intros t Ht. apply targets_objects in Ht as (i & o & Ho & ->); [|done].
      assert (Hz : zip (e_Objects e) (objectCoverage e rules) !! i =
        Some (o, List.filter (fun r => negb (is_deny r) && ruleMatchesEffectMeta r e &&
                                       slot_matched r e i) rules)).
      { apply lookup_zip_Some. split; [done|]. unfold objectCoverage.
        by rewrite list_lookup_imap, Ho. }
      apply list_elem_of_lookup_2, list_elem_of_In in Hz.
      pose proof (find_none _ _ Ef _ Hz) as Hn. simpl in Hn. bool_prop.
      apply nonempty_elem in Hn as (r & Hr). apply hits_filter in Hr. eauto.
Qed.

(** Targets of an effect without objects: at most one, given by a predicate on rules. *)
Definition single_target (e : Effect) : option (compiledStatementRule -> bool) :=
  if isResolvedOnlyFunctionEffect e then Some (fun r => resolvedOnly_matched r e)
  else if isObjectlessEffect e then Some coversAllObjects else None.

Lemma targets_no_objects e :
  e_Objects e = [] ->
  effect_targets e = match single_target e with Some t => [t] | None => [] end.
Proof.
  intros Ho. unfold effect_targets, single_target. rewrite Ho. simpl. by repeat case_match.
Qed.

(** Both object-less evaluations are the same two passes on the single target. *)
Definition evaluateSingle (t : compiledStatementRule -> bool) (e : Effect)
  (rules : list compiledStatementRule) : effectDecision :=
  match List.find (fun r => is_deny r && ruleMatchesEffectMeta r e && t r) rules with
  | Some r => mkDecision verbDeny (Some r)
  | None =>
    let coverage := List.filter (fun r => negb (is_deny r) && ruleMatchesEffectMeta r e && t r)
                      rules in
    if negb (nonempty coverage) then mkDecision verbImplicitDeny None
    else foldCoverageRules coverage
  end.

Lemma evaluateEffect_no_objects e rules :
  e_Objects e = [] ->
  evaluateEffect e rules = match single_target e with
                           | Some t => evaluateSingle t e rules
                           | None => mkDecision verbImplicitDeny None
                           end.
Proof.
  intros Ho. unfold evaluateEffect, single_target. rewrite Ho. simpl.
  destruct (isResolvedOnlyFunctionEffect e); [done|]. by destruct (isObjectlessEffect e).
Qed.

(** What one effect's decision carries, in terms of the specification. *)
Record decision_spec (rules : list compiledStatementRule) (e : Effect) (d : effectDecision)
  : Prop := {
  ds_verdict : effect_verdict rules e (ed_verb d);
  ds_rule : ed_verb d <> verbImplicitDeny ->
    exists r, ed_rule d = Some r /\ r ∈ rules /\ internal_of (csr_verb r) = ed_verb d /\
      (denied_by rules e r \/ covering rules e r);
  ds_approve : forall r, In r (ed_contributingApprove d) ->
    covering rules e r /\ csr_verb r = VerbApprove;
  ds_approve_all : ed_verb d = verbApprove -> forall r, covering rules e r ->
    csr_verb r = VerbApprove ->
    exists r', In r' (ed_contributingApprove d) /\ sr_Name (csr_src r') = sr_Name (csr_src r)
}.

Lemma implicit_spec rules e o :
  effect_verdict rules e verbImplicitDeny ->
  decision_spec rules e {| ed_verb := verbImplicitDeny; ed_rule := None;
    ed_contributingApprove := []; ed_contributingAudit := []; ed_uncoveredObject := o;
    ed_denyMatchingObject := ObjectRef_zero |}.
Proof. intros. by constructor. Qed.

Lemma deny_spec rules e r o :
  denied_by rules e r ->
  decision_spec rules e {| ed_verb := verbDeny; ed_rule := Some r;
    ed_contributingApprove := []; ed_contributingAudit := [];
    ed_uncoveredObject := ObjectRef_zero; ed_denyMatchingObject := o |}.
Proof.
  intros Hd. pose proof Hd as (Hv & t & Ht & (Hin & _)). constructor; simpl; try done.
  - apply ev_deny. by exists r.
  - intros _. exists r. rewrite Hv. auto.
Qed.

Lemma covering_in rules e r : covering rules e r -> r ∈ rules.
Proof. by intros (_ & t & _ & (? & _)). Qed.

(** From the fold over exactly the covering rules to the specification. *)
Lemma fold_decision rules e cov :
  (forall r, In r cov <-> covering rules e r) -> cov <> [] ->
  ~ effect_denied rules e -> effect_covered rules e ->
  (ed_verb (foldCoverageRules cov) = verbRedirect -> e_Objects e <> [] -> one_source rules e) ->
  decision_spec rules e (foldCoverageRules cov).
Proof.
  intros Hc Hne Hnd Hcov Hone.
  destruct (foldCoverageRules_spec cov Hne) as [Hb (r & Hr & Hin & Hv) Ha Haa _].
  { intros r Hr. by apply Hc in Hr as [? _]. }
  constructor.
  - apply ev_covered; try done. split; [exists r; by rewrite <- Hc|].
    intros r' Hr'. by apply Hb, Hc.
  - intros _. exists r. rewrite <- Hc. repeat split; auto. by apply (covering_in _ e), Hc.
  - intros r' Hr'. rewrite <- Hc. auto.
  - intros _ r' Hr'. by apply Haa, Hc.
Qed.

Lemma evaluateSingle_spec t e rules :
  e_Objects e = [] -> single_target e = Some t ->
  decision_spec rules e (evaluateSingle t e rules).
Proof.
  intros Ho Ht. unfold evaluateSingle.
  assert (Htg : effect_targets e = [t]) by (rewrite targets_no_objects by done; by rewrite Ht).
  assert (Hc : forall r, covering rules e r <-> csr_verb r <> VerbDeny /\ rule_hits rules e t r).
  { intros r. unfold covering. rewrite Htg. simpl. naive_solver. }
  destruct (List.find _ _) as [r|] eqn:Ef.
  - apply find_some in Ef as [Hin Hr]. bool_prop. apply deny_spec. split; [by apply is_deny_true|].
    exists t. rewrite Htg. split; [by left|]. split; [by apply list_elem_of_In|done].
  - assert (Hnd : ~ effect_denied rules e).
    { intros (r & Hv & t' & Ht' & (Hin & Hm & Htr)). rewrite Htg in Ht'.
      destruct Ht' as [<-|[]]. apply list_elem_of_In in Hin.
      pose proof (find_none _ _ Ef r Hin) as Hn. simpl in Hn.
      apply is_deny_true in Hv. by rewrite Hv, Hm, Htr in Hn. }
    destruct (nonempty _) eqn:En; simpl.
    + apply fold_decision; [|by apply nonempty_true|done| |by rewrite Ho].
      * intros r. by rewrite hits_filter, Hc.
      * split; [by rewrite Htg|]. rewrite Htg. intros t' [<-|[]].
        apply nonempty_elem in En as (r & Hr). apply hits_filter in Hr. eauto.
    + apply implicit_spec, ev_uncovered; [done|]. intros [_ Hall].
      destruct (Hall t) as (r & Hr); [rewrite Htg; by left|].
      apply hits_filter in Hr. apply nonempty_false in En. by rewrite En in Hr.
Qed.

(** [evaluateEffect] implements the specification. *)
Lemma evaluateEffect_spec e rules :
  ptrs_distinct rules -> decision_spec rules e (evaluateEffect e rules).
Proof.
  intros Hd. destruct (decide (e_Objects e = [])) as [Ho|Ho].
  { rewrite evaluateEffect_no_objects by done.
    destruct (single_target e) as [t|] eqn:Et; [by apply evaluateSingle_spec|].
    assert (Htg : effect_targets e = []) by (rewrite targets_no_objects by done; by rewrite Et).
    apply implicit_spec, ev_uncovered; [|by intros [? _]].
    intros (r & _ & t & Ht & _). by rewrite Htg in Ht. }
  unfold evaluateEffect. rewrite (proj2 (nonempty_true _) Ho). simpl.
  destruct (firstDeny e rules) as [[r o]|] eqn:Efd.
  { apply firstDeny_Some in Efd as (Hin & Hv & Hm & i & Hi & Hs). apply deny_spec.
    split; [done|]. exists (fun r => slot_matched r e i). split; [|done].
    apply targets_objects; eauto. }
  assert (Hnd : ~ effect_denied rules e).
  { intros (r & Hv & t & Ht & (Hin & Hm & Htr)). apply targets_objects in Ht as (i & o & Hi & ->);
      [|done]. by rewrite (firstDeny_None _ _ _ _ _ Efd Hin Hv Hm Hi) in Htr. }
  pose proof (find_uncovered e rules Ho) as Hfu.
  destruct (List.find _ _) as [p|]; [by apply implicit_spec, ev_uncovered|].
  unfold foldObjectCoverageRules.
  pose proof (in_policy_order e rules) as Hpo.
  set (cov := coverageRulesInPolicyOrder _ _ _) in *.
  assert (Hne : cov <> []).
  { destruct Hfu as [Ht Hall]. destruct (effect_targets e) as [|t ts] eqn:Et; [done|].
    destruct (Hall t) as (r & Hr); [by left|]. intros Hnil.
    assert (Hin : In r cov); [|by rewrite Hnil in Hin].
    apply Hpo; [done|done|]. destruct Hr. split; [done|]. exists t. rewrite Et. split; [by left|done]. }
  case_bool_decide as Ev; simpl.
  - destruct (Nat.eqb_spec (redirectSourceCount (objectCoverage e rules) (length (e_Objects e))) 1)
      as [E1|E1].
    + apply fold_decision; auto. intros _ _. by apply redirectSourceCount_one.
    + rewrite redirectSourceCount_one in E1 by done. apply implicit_spec, ev_ambiguous; try done.
      assert (Hs : fold_spec cov (foldCoverageRules cov)).
      { apply foldCoverageRules_spec; [done|]. intros r Hr. by apply Hpo in Hr as [? _]. }
      destruct Hs as [Hb (r & _ & Hin & Hv) _ _ _]. rewrite Ev in *. split.
      * exists r. split; [by apply Hpo|done].
      * intros r' Hr'. by apply Hb, Hpo.
  - apply fold_decision; auto. done.
Qed.

(** *** From effects to the statement *)

Lemma foldEffects_winner stmt ds :
  length ds = length (cs_Effects stmt) -> ds <> [] ->
  exists i d e, ds !! i = Some d /\ cs_Effects stmt !! i = Some e /\
    foldEffects stmt ds = effectToDecision stmt i e d /\
    (forall j d', ds !! j = Some d' -> iv_num (ed_verb d') <= iv_num (ed_verb d)) /\
    (forall j d', ds !! j = Some d' -> (j < i)%nat -> iv_num (ed_verb d') < iv_num (ed_verb d)).
Proof.
  intros Hlen Hne. unfold foldEffects.
  destruct (imap pair ds) as [|p0 rest] eqn:Ei; [by destruct ds|].
  assert (Hlk : forall j, (p0 :: rest) !! j = (fun d => (j, d)) <$> ds !! j).
  { intros j. by rewrite <- Ei, list_lookup_imap. }
  set (rank := fun p : nat * effectDecision => iv_num (ed_verb p.2)).
  destruct (pick_max_first rank p0 rest) as (pre & post & Heq & Hpre).
  pose proof (fun x => pick_max_ge rank p0 rest x) as Hge.
  set (w := pick_max rank p0 rest) in *.
  assert (Hw : (p0 :: rest) !! length pre = Some w).
  { rewrite Heq, lookup_app_r, Nat.sub_diag by lia. done. }
  rewrite Hlk in Hw. destruct (ds !! length pre) as [d|] eqn:Ed; simplify_eq/=.
  destruct (lookup_lt_is_Some_2 (cs_Effects stmt) (length pre)) as [e He].
  { rewrite <- Hlen. by eapply lookup_lt_Some. }
  rewrite <- Hw, He. exists (length pre), d, e. repeat split; try done.
  - intros j d' Hj. assert (Hin : (p0 :: rest) !! j = Some (j, d')) by (by rewrite Hlk, Hj).
    apply list_elem_of_lookup_2, Hge in Hin. rewrite <- Hw in Hin. exact Hin.
  - intros j d' Hj Hlt.
    assert (Hin : (p0 :: rest) !! j = Some (j, d')) by (by rewrite Hlk, Hj).
    rewrite Heq, lookup_app_l in Hin by done. apply list_elem_of_lookup_2, Hpre in Hin.
    rewrite <- Hw in Hin. exact Hin.
Qed.

Lemma effectToDecision_verb stmt i e d :
  d_Verb (effectToDecision stmt i e d) = public_of (ed_verb d).
Proof. unfold effectToDecision. by destruct (ed_verb d). Qed.

Lemma ptrs_distinct_for rs svc : rs_wf rs -> ptrs_distinct (statementRulesFor rs svc).
Proof.
  unfold rs_wf, ptrs_distinct, statementRulesFor. intros Hnd.
  induction (rs_statement rs) as [|r l IH]; simpl; [done|].
  apply NoDup_cons in Hnd as [Hni Hnd]. case_match; [|by apply IH].
  simpl. apply NoDup_cons. split; [|by apply IH]. intros Hin. apply Hni.
  apply list_elem_of_fmap in Hin as (x & Hx & Hin). apply list_elem_of_fmap.
  exists x. split; [done|]. apply list_elem_of_In, filter_In in Hin as [? _].
  by apply list_elem_of_In.
Qed.

(** The decision of a statement with effects: the winning effect and its decision. *)
Lemma Evaluate_winner stmt rs svc :
  rs_wf rs -> cs_Effects stmt <> [] ->
  let rules := statementRulesFor rs svc in
  exists i e, cs_Effects stmt !! i = Some e /\
    Evaluate stmt (Some rs) svc = effectToDecision stmt i e (evaluateEffect e rules) /\
    decision_spec rules e (evaluateEffect e rules) /\
    forall e', e' ∈ cs_Effects stmt ->
      decision_spec rules e' (evaluateEffect e' rules) /\
      iv_num (ed_verb (evaluateEffect e' rules)) <= iv_num (ed_verb (evaluateEffect e rules)).
Proof.
  intros Hwf Hne rules. pose proof (ptrs_distinct_for rs svc Hwf) as Hd.
  destruct (foldEffects_winner stmt ((fun e => evaluateEffect e rules) <$> cs_Effects stmt))
    as (i & d & e & Hi & He & Heq & Hmax & _); [by rewrite length_fmap|by destruct (cs_Effects stmt)|].
  rewrite list_lookup_fmap, He in Hi. simpl in Hi. injection Hi as <-.
  exists i, e. split; [done|]. split.
  { unfold Evaluate. rewrite (proj2 (nonempty_true _) Hne). exact Heq. }
  split; [by apply evaluateEffect_spec|]. intros e' Hin. split; [by apply evaluateEffect_spec|].
  apply list_elem_of_lookup in Hin as [j Hj]. apply (Hmax j). by rewrite list_lookup_fmap, Hj.
Qed.

Lemma strictest_unique rules e v1 v2 : strictest rules e v1 -> strictest rules e v2 -> v1 = v2.
Proof.
  intros [(r1 & H1 & <-) Hb1] [(r2 & H2 & <-) Hb2]. apply iv_num_inj.
  pose proof (Hb1 _ H2). pose proof (Hb2 _ H1). lia.
Qed.

Lemma effect_verdict_unique rules e v1 v2 :
  effect_verdict rules e v1 -> effect_verdict rules e v2 -> v1 = v2.
Proof.
  intros H1 H2. destruct H1 as [|? ?|v1 ? ? Hs1 Ho1|? ? Hs1 ? ?];
    destruct H2 as [|? ?|v2 ? ? Hs2 Ho2|? ? Hs2 ? ?]; try done; try contradiction;
    pose proof (strictest_unique _ _ _ _ Hs1 Hs2); subst; try done; naive_solver.
Qed.

Lemma statement_verdict_unique rules stmt v1 v2 :
  statement_verdict rules stmt v1 -> statement_verdict rules stmt v2 -> v1 = v2.
Proof.
  intros [(e1 & Hi1 & He1) Hb1] [(e2 & Hi2 & He2) Hb2]. apply iv_num_inj.
  pose proof (Hb1 _ _ Hi2 He2). pose proof (Hb2 _ _ Hi1 He1). lia.
Qed.

Lemma Evaluate_statement_verdict stmt rs svc :
  rs_wf rs -> cs_Effects stmt <> [] ->
  exists v, statement_verdict (statementRulesFor rs svc) stmt v /\
    d_Verb (Evaluate stmt (Some rs) svc) = public_of v.
Proof.
  intros Hwf Hne. destruct (Evaluate_winner stmt rs svc Hwf Hne) as (i & e & He & Heq & Hds & Hall).
  exists (ed_verb (evaluateEffect e (statementRulesFor rs svc))). split.
  - split; [exists e; split; [by eapply list_elem_of_lookup_2|apply Hds]|].
    intros e' v' Hin Hv'. destruct (Hall e' Hin) as [Hds' ?].
    rewrite (effect_verdict_unique _ _ _ _ Hv' (ds_verdict _ _ _ Hds')). done.
  - by rewrite Heq, effectToDecision_verb.
Qed.

(** The verdict depends on the set of rules, not on their order. *)
Lemma effect_verdict_perm rules1 rules2 e v :
  (forall r, r ∈ rules1 <-> r ∈ rules2) -> effect_verdict rules1 e v -> effect_verdict rules2 e v.
Proof.
  intros Hp.
  assert (Hh : forall t r, rule_hits rules1 e t r <-> rule_hits rules2 e t r).
  { intros t r. unfold rule_hits. by rewrite Hp. }
  assert (Hc : forall r, covering rules1 e r <-> covering rules2 e r).
  { intros r. unfold covering. by setoid_rewrite Hh. }
  assert (Hd : effect_denied rules1 e <-> effect_denied rules2 e).
  { unfold effect_denied, denied_by. by setoid_rewrite Hh. }
  assert (Hcv : effect_covered rules1 e <-> effect_covered rules2 e).
  { unfold effect_covered. by setoid_rewrite Hh. }
  assert (Ho : one_source rules1 e <-> one_source rules2 e).
  { unfold one_source. by setoid_rewrite Hc. }
  assert (Hs : forall w, strictest rules1 e w <-> strictest rules2 e w).
  { intros w. unfold strictest. by setoid_rewrite Hc. }
  destruct 1; [apply ev_deny|apply ev_uncovered|apply ev_covered|apply ev_ambiguous];
    rewrite <- ?Hd, <- ?Hcv, <- ?Ho, <- ?Hs; auto.
Qed.

Lemma statement_verdict_perm rules1 rules2 stmt v :
  (forall r, r ∈ rules1 <-> r ∈ rules2) ->
  statement_verdict rules1 stmt v -> statement_verdict rules2 stmt v.
Proof.
  intros Hp [(e & Hin & Hv) Hb]. split; [exists e; eauto using effect_verdict_perm|].
  intros e' v' Hin' Hv'. apply (Hb e' v' Hin').
  eapply effect_verdict_perm; [|exact Hv']. intros r. by rewrite Hp.
Qed.

(** A deny rule more either denies the effect or leaves its verdict alone. *)
Lemma effect_verdict_add_deny rules1 rules2 e v v' r0 :
  csr_verb r0 = VerbDeny -> (forall r, r ∈ rules2 <-> r = r0 \/ r ∈ rules1) ->
  effect_verdict rules1 e v -> effect_verdict rules2 e v' -> v' = verbDeny \/ v' = v.
Proof.
  intros Hv0 Hp H1 H2.
  assert (Hh : forall t r, csr_verb r <> VerbDeny ->
                 rule_hits rules1 e t r <-> rule_hits rules2 e t r).
  { intros t r Hr. unfold rule_hits. rewrite Hp. naive_solver. }
  assert (Hc : forall r, covering rules1 e r <-> covering rules2 e r).
  { intros r. unfold covering. split; intros (Hr & t & ? & ?); (split; [done|]);
      exists t; (split; [done|]); by apply Hh. }
  assert (Hcv : effect_covered rules1 e <-> effect_covered rules2 e).
  { unfold effect_covered. split; intros (Ht & Hall); (split; [done|]); intros t Hin;
      destruct (Hall t Hin) as (r & ? & ?); exists r; (split; [done|]); by apply Hh. }
  assert (Ho : one_source rules1 e <-> one_source rules2 e).
  { unfold one_source. by setoid_rewrite Hc. }
  assert (Hs : forall w, strictest rules1 e w <-> strictest rules2 e w).
  { intros w. unfold strictest. by setoid_rewrite Hc. }
  assert (Hd : effect_denied rules1 e -> effect_denied rules2 e).
  { intros (r & Hr & t & Ht & (Hin & ?)). exists r. split; [done|]. exists t. split; [done|].
    split; [|done]. apply Hp. by right. }
  destruct H2 as [|Hn ?|v2 Hn ? ? ?|Hn ? ? ? ?]; [by left|right..];
    eapply effect_verdict_unique; try exact H1;
    [apply ev_uncovered|apply ev_covered|apply ev_ambiguous]; rewrite ?Hcv, ?Ho, ?Hs; auto.
Qed.

Lemma statement_verdict_add_deny rules1 rules2 stmt v v' r0 :
  csr_verb r0 = VerbDeny -> (forall r, r ∈ rules2 <-> r = r0 \/ r ∈ rules1) ->
  (forall e, e ∈ cs_Effects stmt -> exists w, effect_verdict rules2 e w) ->
  statement_verdict rules1 stmt v -> statement_verdict rules2 stmt v' -> iv_num v <= iv_num v'.
Proof.
  intros Hv0 Hp Htot [(e & Hin & He) _] [_ Hb].
  destruct (Htot e Hin) as [w Hw]. pose proof (Hb e w Hin Hw).
  destruct (effect_verdict_add_deny _ _ _ _ _ _ Hv0 Hp He Hw) as [->| ->]; [|done].
  destruct v; simpl in *; lia.
Qed.

Lemma public_mono a b : iv_num a <= iv_num b -> verb_num (public_of a) <= verb_num (public_of b).
Proof. destruct a, b; simpl; lia. Qed.

End PolicyFacts.
Export PolicyFacts.
