(* ===== verification/DbPolicyTheorems.v ===== *)
(** * What the database policy evaluator guarantees

    The theorems about [Evaluate], [ExplainStatement] and [EvaluateConnection]: the evaluator
    implements the order-free specification of [DbPolicy.Spec], it fails closed, deny rules
    dominate and only ever tighten, the approval and redirect metadata of a decision are those of
    the rules that produced it, and an explanation agrees with the decision it explains. *)

From S2P Require Import Prelude GoText DbEffects DbPolicy.
From Stdlib Require Import ZArith Lia Permutation Sorted Ascii String.
From stdpp Require Import base list strings gmap.
Open Scope string_scope.
Open Scope list_scope.
Open Scope Z_scope.

(** ** A concrete policy, on which the theorems are instantiated *)
Module Sample.

Definition any_glob : glob := fun _ => true.
Definition is_glob (s : string) : glob := fun x => x ==? s.

Definition src (name : string) : StatementRule :=
  {| sr_Name := name; sr_DBService := "pg"; sr_DBFamily := ""; sr_DBDialect := ""; sr_Schemas := [];
     sr_Objects := ["*"]; sr_Relations := []; sr_Functions := []; sr_Operations := ["read"];
     sr_Subtypes := []; sr_MatchObjectResolution := ""; sr_RequireWhere := false;
     sr_Decision := "allow"; sr_Message := ""; sr_Timeout := 0; sr_Redirect := None;
     sr_AcknowledgeAuditOnDangerous := false; sr_DenyModeInTx := "" |}.

Definition rule (p : nat) (name : string) (v : DecisionVerb) (gs : list Group) (g : glob)
  (timeout : Z) (rd : option RedirectDecision) : compiledStatementRule :=
  {| csr_ptr := p; csr_src := src name; csr_verb := v; csr_groups := list_to_set gs;
     csr_subtypes := ∅; csr_requireWhere := false; csr_resolution := resAny; csr_schemas := [];
     csr_objects := [g]; csr_relations := []; csr_functions := []; csr_timeout := timeout;
     csr_msgTemplate := None; csr_redirect := rd;
     csr_serviceFilter := {| sf_service := "pg"; sf_family := ""; sf_dialect := "" |} |}.

Definition conn_src (name : string) : ConnectionRule :=
  {| cr_Name := name; cr_DBService := "pg"; cr_MatchKind := "connect"; cr_DBUser := [];
     cr_Database := ""; cr_ApplicationName := ""; cr_ClientIdentity := ""; cr_Decision := "allow";
     cr_Message := ""; cr_Timeout := 0 |}.

Definition conn_rule (name : string) (v : DecisionVerb) (users : list string)
  : compiledConnectionRule :=
  {| ccr_src := conn_src name; ccr_verb := v; ccr_matchKind := MatchConnect;
     ccr_dbUsers := list_to_set users; ccr_database := ""; ccr_applicationName := None;
     ccr_clientIdentity := None; ccr_timeout := 0; ccr_msgTemplate := None;
     ccr_serviceFilter := {| sf_service := "pg"; sf_family := ""; sf_dialect := "" |} |}.

Definition ruleset (rules : list compiledStatementRule) (conns : list compiledConnectionRule)
  : RuleSet :=
  {| rs_services := ∅; rs_statement := rules; rs_connection := conns;
     rs_redaction := RedactionConfig_zero; rs_unavoidability := UnavoidabilityOff |}.

Definition table (name : string) : ObjectRef :=
  {| o_Kind := ObjectTable; o_Schema := ""; o_Name := name; o_Host := ""; o_Port := 0;
     o_Path := ""; o_Argv0 := "" |}.

Definition effect (g : Group) (names : list string) : Effect :=
  {| e_Group := g; e_Subtype := SubtypeNone; e_Objects := table <$> names;
     e_ResolvedObjects := []; e_Resolution := ResolutionQualified; e_HasWhere := false;
     e_FunctionOID := None |}.

Definition stmt (es : list Effect) : ClassifiedStatement :=
  {| cs_Effects := es; cs_RawVerb := "SELECT"; cs_ParserBackend := ParserBackendUnknown;
     cs_Error := ""; cs_SourceStart := 0; cs_SourceEnd := 0; cs_PreparedName := "";
     cs_BulkOp := BulkOpNone |}.

(** Reads of [users] need approval, reads of anything are audited, [secrets] is denied. *)
Definition allow_read : compiledStatementRule :=
  rule 1 "read-all" VerbAudit [GroupRead] any_glob 0 None.
Definition approve_users : compiledStatementRule :=
  rule 2 "users" VerbApprove [GroupRead] (is_glob "users") 60 None.
Definition deny_secrets : compiledStatementRule :=
  rule 3 "secrets" VerbDeny [GroupRead] (is_glob "secrets") 0 None.
Definition redirect_old : compiledStatementRule :=
  rule 4 "moved" VerbRedirect [GroupRead] (is_glob "old") 0
    (Some {| rd_SourceRelation := "public.old"; rd_TargetRelation := "public.new" |}).

Definition policy : RuleSet :=
  ruleset [allow_read; approve_users; deny_secrets; redirect_old]
    [conn_rule "everyone" VerbAudit []; conn_rule "no-root" VerbDeny ["root"]].

Definition select (names : list string) : ClassifiedStatement := stmt [effect GroupRead names].

(** The policy is well formed; its decisions on four statements. *)
Lemma policy_wf : rs_wf policy.
Proof. unfold rs_wf, ptrs_distinct. decide_vm. Qed.

Example select_decisions :
  (fun n => d_Verb (Evaluate (select n) (Some policy) "pg")) <$>
    [["t"]; ["t"; "users"]; ["users"; "secrets"]; ["old"]; []] =
  [VerbAudit; VerbApprove; VerbDeny; VerbRedirect; VerbDeny].
Proof. vm_compute. reflexivity. Qed.

End Sample.

(** ** Lemmas shared by the theorems *)
Module TheoremLemmas.

(** The wrapping of a verdict in a statement decision keeps the rule and the metadata. *)
Lemma effectToDecision_rule stmt i e d r :
  ed_verb d <> verbImplicitDeny -> ed_rule d = Some r ->
  d_RuleName (effectToDecision stmt i e d) = sr_Name (csr_src r).
Proof. unfold effectToDecision. intros Hv Hr. destruct (ed_verb d); simpl; rewrite ?Hr; done. Qed.

Lemma public_of_internal v : public_of (internal_of v) = v.
Proof. by destruct v. Qed.

Lemma verdict_nondeny v : public_of v <> VerbDeny -> v <> verbDeny /\ v <> verbImplicitDeny.
Proof. by destruct v. Qed.

Lemma effect_verdict_nondeny rules e v :
  effect_verdict rules e v -> public_of v <> VerbDeny ->
  ~ effect_denied rules e /\ effect_covered rules e.
Proof. intros [] Hn; simpl in *; done. Qed.

Lemma public_le a b : iv_num a <= iv_num b -> public_of b <> VerbDeny -> public_of a <> VerbDeny.
Proof. destruct a, b; simpl; done || lia. Qed.

Lemma statementRulesFor_elem rs svc r :
  r ∈ statementRulesFor rs svc <->
  r ∈ rs_statement rs /\ serviceFilter_matches (csr_serviceFilter r) svc (rs_services rs !! svc).
Proof.
  unfold statementRulesFor. rewrite !list_elem_of_In, filter_In. by rewrite Is_true_true.
Qed.

(** The loop of [minTimeout]. *)
Definition tmin (t : Z) (x : compiledStatementRule) : Z :=
  if csr_timeout x <? t then csr_timeout x else t.

Lemma tmin_le l t :
  fold_left tmin l t <= t /\ forall x, In x l -> fold_left tmin l t <= csr_timeout x.
Proof.
  revert t. induction l as [|y l IH]; intros t; simpl; [split; [lia|done]|].
  assert (tmin t y <= t /\ tmin t y <= csr_timeout y)
    by (unfold tmin; destruct (Z.ltb_spec (csr_timeout y) t); lia).
  destruct (IH (tmin t y)) as [H1 H2]. split; [lia|]. intros x [<-|Hx]; [lia|auto].
Qed.

Lemma tmin_in l t :
  fold_left tmin l t = t \/ exists x, In x l /\ csr_timeout x = fold_left tmin l t.
Proof.
  revert t. induction l as [|y l IH]; intros t; simpl; [by left|].
  destruct (IH (tmin t y)) as [Heq|(x & ? & ?)]; [|eauto]. rewrite Heq.
  unfold tmin. destruct (csr_timeout y <? t); eauto.
Qed.

Lemma minTimeout_le rules r : In r rules -> minTimeout rules <= csr_timeout r.
Proof. destruct rules as [|r0 rest]; [done|]. apply (tmin_le (r0 :: rest)). Qed.

Lemma minTimeout_in rules : rules <> [] -> exists r, In r rules /\ csr_timeout r = minTimeout rules.
Proof.
  destruct rules as [|r0 rest]; [done|]. intros _.
  destruct (tmin_in (r0 :: rest) (csr_timeout r0)) as [Heq|(x & Hx & Heq)].
  - exists r0. split; [by left|]. symmetry. exact Heq.
  - exists x. auto.
Qed.

Lemma NoDup_fmap_elem {A B} (f : A -> B) (l : list A) (x y : A) :
  NoDup (f <$> l) -> x ∈ l -> y ∈ l -> f x = f y -> x = y.
Proof.
  intros Hnd Hx Hy Hf. apply list_elem_of_lookup in Hx as [i Hi], Hy as [j Hj].
  assert (i = j) as ->; [|congruence].
  eapply (NoDup_lookup (f <$> l)); [done|by rewrite list_lookup_fmap, Hi|].
  by rewrite list_lookup_fmap, Hj, Hf.
Qed.

(** Statement-level consequences, shared with the theorems on decoded policies. *)
Lemma fail_closed stmt rs svc :
  (forall rs', rs = Some rs' -> rs_wf rs') ->
  d_Verb (Evaluate stmt rs svc) <> VerbDeny ->
  exists rs', rs = Some rs' /\ cs_Effects stmt <> [] /\
    forall e, e ∈ cs_Effects stmt ->
      ~ effect_denied (statementRulesFor rs' svc) e /\
      effect_covered (statementRulesFor rs' svc) e.
Proof.
  intros Hwf Hv. destruct rs as [rs|]; [|done]. exists rs. split; [done|].
  destruct (decide (cs_Effects stmt = [])) as [Hnil|Hne].
  { unfold Evaluate in Hv. by rewrite Hnil in Hv. }
  split; [done|]. intros e' He'.
  destruct (Evaluate_winner stmt rs svc (Hwf _ eq_refl) Hne) as (i & e & He & Heq & Hds & Hall).
  rewrite Heq, effectToDecision_verb in Hv. destruct (Hall e' He') as [Hds' Hle].
  eapply effect_verdict_nondeny; [apply Hds'|]. by eapply public_le.
Qed.

Lemma approval_of_winner stmt rs svc :
  rs_wf rs -> d_Verb (Evaluate stmt (Some rs) svc) = VerbApprove ->
  let rules := statementRulesFor rs svc in
  exists e a, e ∈ cs_Effects stmt /\ d_Approval (Evaluate stmt (Some rs) svc) = Some a /\
    (forall n, n ∈ ar_ContributingApproveRules a <->
       exists r, covering rules e r /\ csr_verb r = VerbApprove /\ sr_Name (csr_src r) = n) /\
    (exists r, covering rules e r /\ csr_verb r = VerbApprove /\ csr_timeout r = ar_Timeout a) /\
    (NoDup ((fun r => sr_Name (csr_src r)) <$> rules) ->
     forall r, covering rules e r -> csr_verb r = VerbApprove -> ar_Timeout a <= csr_timeout r).
Proof.
  intros Hwf Hv rules. destruct (decide (cs_Effects stmt = [])) as [Hnil|Hne].
  { unfold Evaluate in Hv. by rewrite Hnil in Hv. }
  destruct (Evaluate_winner stmt rs svc Hwf Hne) as (i & e & He & Heq & Hds & _).
  rewrite Heq in Hv |- *. rewrite effectToDecision_verb in Hv. fold rules in Hv, Hds |- *.
  set (d := evaluateEffect e rules) in *.
  assert (Hva : ed_verb d = verbApprove) by (by destruct (ed_verb d)).
  unfold effectToDecision. rewrite Hva. simpl.
  destruct (ds_rule _ _ _ Hds) as (r0 & _ & _ & Hi0 & Hc0); [by rewrite Hva|].
  rewrite Hva in Hi0.
  destruct Hc0 as [[Hc0 _]|Hc0]; [by rewrite Hc0 in Hi0|].
  destruct (ds_approve_all _ _ _ Hds Hva r0 Hc0) as (r1 & Hr1 & _); [by destruct (csr_verb r0)|].
  exists e. eexists. split; [by eapply list_elem_of_lookup_2|]. split; [done|]. simpl. split.
  - intros n. rewrite list_elem_of_fmap. split.
    + intros (r & -> & Hr). apply list_elem_of_In in Hr.
      destruct (ds_approve _ _ _ Hds r Hr). eauto.
    + intros (r & Hc & Hav & <-). destruct (ds_approve_all _ _ _ Hds Hva r Hc Hav) as (r' & Hr' & Hn).
      exists r'. rewrite list_elem_of_In. auto.
  - split.
    + destruct (minTimeout_in (ed_contributingApprove d)) as (r & Hr & Ht);
        [by intros Hn; rewrite Hn in Hr1|].
      destruct (ds_approve _ _ _ Hds r Hr). eauto.
    + intros Hnd r Hc Hav. destruct (ds_approve_all _ _ _ Hds Hva r Hc Hav) as (r' & Hr' & Hn).
      replace r with r'; [by apply minTimeout_le|].
      destruct (ds_approve _ _ _ Hds r' Hr') as [Hc' _].
      eapply (NoDup_fmap_elem (fun r => sr_Name (csr_src r)) rules);
        eauto using covering_in.
Qed.

Lemma redirect_of_winner stmt rs svc :
  rs_wf rs -> d_Verb (Evaluate stmt (Some rs) svc) = VerbRedirect ->
  let rules := statementRulesFor rs svc in
  exists e r, e ∈ cs_Effects stmt /\ covering rules e r /\ csr_verb r = VerbRedirect /\
    d_RuleName (Evaluate stmt (Some rs) svc) = sr_Name (csr_src r) /\
    d_Redirect (Evaluate stmt (Some rs) svc) = csr_redirect r /\
    (forall r', covering rules e r' -> verb_num (csr_verb r') <= verb_num VerbRedirect) /\
    (e_Objects e <> [] -> one_source rules e).
Proof.
  intros Hwf Hv rules. destruct (decide (cs_Effects stmt = [])) as [Hnil|Hne].
  { unfold Evaluate in Hv. by rewrite Hnil in Hv. }
  destruct (Evaluate_winner stmt rs svc Hwf Hne) as (i & e & He & Heq & Hds & _).
  rewrite Heq in Hv |- *. rewrite effectToDecision_verb in Hv. fold rules in Hv, Hds |- *.
  set (d := evaluateEffect e rules) in *.
  assert (Hvr : ed_verb d = verbRedirect) by (by destruct (ed_verb d)).
  destruct (ds_rule _ _ _ Hds) as (r & Hr & _ & Hi & Hc); [by rewrite Hvr|].
  rewrite Hvr in Hi. destruct Hc as [[Hc _]|Hc]; [by rewrite Hc in Hi|].
  exists e, r. split; [by eapply list_elem_of_lookup_2|]. split; [done|].
  split; [by destruct (csr_verb r)|].
  split; [by apply effectToDecision_rule; [rewrite Hvr|]|].
  split; [by unfold effectToDecision; rewrite Hvr; simpl; rewrite Hr|].
  pose proof (ds_verdict _ _ _ Hds) as Hver. rewrite Hvr in Hver.
  inversion Hver as [| |v _ _ [_ Hs] Ho|]; subst. split; [|by auto].
  intros r' Hc'. specialize (Hs r' Hc'). destruct Hc' as [Hn _].
  destruct (csr_verb r'); simpl in *; done || lia.
Qed.

End TheoremLemmas.
Import TheoremLemmas.

(** ** Statement decisions *)
Module Decisions.

(** C1. [Evaluate] implements the specification: for a rule set whose rules are distinct objects
    and a statement with at least one effect, the specification has exactly one verdict and the
    verb of the decision is that verdict. *)
Theorem Evaluate_refines_spec stmt rs svc :
  rs_wf rs -> cs_Effects stmt <> [] ->
  exists v, statement_verdict (statementRulesFor rs svc) stmt v /\
    (forall v', statement_verdict (statementRulesFor rs svc) stmt v' -> v' = v) /\
    d_Verb (Evaluate stmt (Some rs) svc) = public_of v.
Proof.
  intros Hwf Hne. destruct (Evaluate_statement_verdict stmt rs svc Hwf Hne) as (v & Hv & Heq).
  exists v. split; [done|]. split; [|done]. intros v' Hv'. by eapply statement_verdict_unique.
Qed.

Lemma Evaluate_refines_spec_witness :
  exists v, statement_verdict (statementRulesFor Sample.policy "pg") (Sample.select ["users"]) v /\
    (forall v', statement_verdict (statementRulesFor Sample.policy "pg")
                  (Sample.select ["users"]) v' -> v' = v) /\
    d_Verb (Evaluate (Sample.select ["users"]) (Some Sample.policy) "pg") = public_of v.
Proof. apply Evaluate_refines_spec; [apply Sample.policy_wf|done]. Defined.

(** C2. The evaluator fails closed: a decision other than deny is only reached with a policy
    loaded, on a statement with effects, when no effect is hit by a deny rule and every target of
    every effect is covered by a matching non-deny rule. *)
Theorem Evaluate_fail_closed stmt rs svc :
  (forall rs', rs = Some rs' -> rs_wf rs') ->
  d_Verb (Evaluate stmt rs svc) <> VerbDeny ->
  exists rs', rs = Some rs' /\ cs_Effects stmt <> [] /\
    forall e, e ∈ cs_Effects stmt ->
      ~ effect_denied (statementRulesFor rs' svc) e /\
      effect_covered (statementRulesFor rs' svc) e.
Proof. exact (fail_closed stmt rs svc). Qed.

Lemma Evaluate_fail_closed_witness :
  exists rs', Some Sample.policy = Some rs' /\ cs_Effects (Sample.select ["users"]) <> [] /\
    forall e, e ∈ cs_Effects (Sample.select ["users"]) ->
      ~ effect_denied (statementRulesFor rs' "pg") e /\
      effect_covered (statementRulesFor rs' "pg") e.
Proof.
  apply Evaluate_fail_closed; [|by vm_compute]. intros rs' [= <-]. apply Sample.policy_wf.
Defined.

(** Deny dominates: when some effect of the statement is hit by a deny rule, the decision is
    deny and names a deny rule that hits an effect of the statement, whatever the other rules and
    effects are. *)
Theorem Evaluate_deny_dominates stmt rs svc e r :
  rs_wf rs -> e ∈ cs_Effects stmt -> denied_by (statementRulesFor rs svc) e r ->
  d_Verb (Evaluate stmt (Some rs) svc) = VerbDeny /\
  exists e' r', e' ∈ cs_Effects stmt /\ denied_by (statementRulesFor rs svc) e' r' /\
    d_RuleName (Evaluate stmt (Some rs) svc) = sr_Name (csr_src r').
Proof.
  intros Hwf He Hd.
  destruct (Evaluate_winner stmt rs svc Hwf) as (i & w & Hw & Heq & Hds & Hall).
  { by intros Hnil; rewrite Hnil in He; apply elem_of_nil in He. }
  destruct (Hall e He) as [Hds' Hle].
  pose proof (effect_verdict_unique _ _ _ _ (ds_verdict _ _ _ Hds')
                (ev_deny _ _ (ex_intro _ r Hd))) as Hv.
  rewrite Hv in Hle.
  assert (Hwv : ed_verb (evaluateEffect w (statementRulesFor rs svc)) = verbDeny)
    by (destruct (ed_verb (evaluateEffect w _)); simpl in Hle; done || lia).
  rewrite Heq, effectToDecision_verb, Hwv. split; [done|].
  destruct (ds_rule _ _ _ Hds) as (r' & Hr' & _ & Hiv & Hor); [by rewrite Hwv|].
  exists w, r'. split; [by eapply list_elem_of_lookup_2|].
  rewrite (effectToDecision_rule _ _ _ _ r') by (done || by rewrite Hwv). split; [|done].
  destruct Hor as [|(Hn & _)]; [done|]. destruct (csr_verb r'); by rewrite Hwv in Hiv.
Qed.

Lemma Evaluate_deny_dominates_witness :
  let s := Sample.stmt [Sample.effect GroupRead ["t"]; Sample.effect GroupRead ["secrets"]] in
  d_Verb (Evaluate s (Some Sample.policy) "pg") = VerbDeny /\
  exists e' r', e' ∈ cs_Effects s /\ denied_by (statementRulesFor Sample.policy "pg") e' r' /\
    d_RuleName (Evaluate s (Some Sample.policy) "pg") = sr_Name (csr_src r').
Proof.
  intros s. apply (Evaluate_deny_dominates s Sample.policy "pg"
    (Sample.effect GroupRead ["secrets"]) Sample.deny_secrets).
  - apply Sample.policy_wf.
  - set_solver.
  - split; [done|]. exists (fun r => slot_matched r (Sample.effect GroupRead ["secrets"]) 0).
    split; [by left|]. split; [|split; vm_compute; reflexivity].
    vm_compute. right. right. left.
Defined.

(** The order of rules in the policy never changes the verb of a decision. *)
Theorem Evaluate_order_independent stmt rs1 rs2 svc :
  rs_wf rs1 -> rs_statement rs1 ≡ₚ rs_statement rs2 -> rs_services rs1 = rs_services rs2 ->
  d_Verb (Evaluate stmt (Some rs1) svc) = d_Verb (Evaluate stmt (Some rs2) svc).
Proof.
  intros Hwf Hp Hs.
  assert (Hwf2 : rs_wf rs2) by (unfold rs_wf, ptrs_distinct; by rewrite <- Hp).
  destruct (decide (cs_Effects stmt = [])) as [Hnil|Hne].
  { unfold Evaluate. by rewrite Hnil. }
  destruct (Evaluate_statement_verdict stmt rs1 svc Hwf Hne) as (v1 & Hv1 & ->).
  destruct (Evaluate_statement_verdict stmt rs2 svc Hwf2 Hne) as (v2 & Hv2 & ->).
  f_equal. eapply statement_verdict_unique; [|exact Hv2].
  eapply statement_verdict_perm; [|exact Hv1]. intros r.
  by rewrite !statementRulesFor_elem, Hp, Hs.
Qed.

Lemma Evaluate_order_independent_witness :
  d_Verb (Evaluate (Sample.select ["users"]) (Some Sample.policy) "pg") =
  d_Verb (Evaluate (Sample.select ["users"])
            (Some (Sample.ruleset [Sample.redirect_old; Sample.deny_secrets; Sample.approve_users;
                                   Sample.allow_read] [])) "pg").
Proof.
  apply Evaluate_order_independent; [apply Sample.policy_wf| |done].
  apply (Permutation_rev (rs_statement Sample.policy)).
Defined.

(** Adding a deny rule to a policy never makes a decision less restrictive. *)
Theorem Evaluate_deny_rule_monotone stmt rs1 rs2 svc r0 :
  rs_wf rs2 -> csr_verb r0 = VerbDeny ->
  rs_statement rs2 ≡ₚ r0 :: rs_statement rs1 -> rs_services rs1 = rs_services rs2 ->
  verb_num (d_Verb (Evaluate stmt (Some rs1) svc)) <=
  verb_num (d_Verb (Evaluate stmt (Some rs2) svc)).
Proof.
  intros Hwf2 Hr0 Hp Hs.
  assert (Hwf1 : rs_wf rs1).
  { unfold rs_wf, ptrs_distinct in *. rewrite Hp in Hwf2. by apply NoDup_cons in Hwf2 as [_ ?]. }
  destruct (decide (cs_Effects stmt = [])) as [Hnil|Hne].
  { unfold Evaluate. by rewrite Hnil. }
  destruct (Evaluate_statement_verdict stmt rs1 svc Hwf1 Hne) as (v1 & Hv1 & ->).
  destruct (Evaluate_statement_verdict stmt rs2 svc Hwf2 Hne) as (v2 & Hv2 & ->).
  apply public_mono.
  destruct (serviceFilter_matches (csr_serviceFilter r0) svc (rs_services rs2 !! svc)) eqn:Ef.
  - apply (statement_verdict_add_deny (statementRulesFor rs1 svc) (statementRulesFor rs2 svc) stmt
             v1 v2 r0 Hr0); try done.
    + intros r. rewrite !statementRulesFor_elem, Hp, Hs, elem_of_cons. split; [naive_solver|].
      intros [->|[? ?]]; [|auto]. split; [by left|]. by rewrite Ef.
    + intros e He. exists (ed_verb (evaluateEffect e (statementRulesFor rs2 svc))).
      apply evaluateEffect_spec, ptrs_distinct_for, Hwf2.
  - replace v2 with v1; [lia|]. eapply statement_verdict_unique; [|exact Hv2].
    eapply statement_verdict_perm; [|exact Hv1]. intros r.
    rewrite !statementRulesFor_elem, Hp, Hs, elem_of_cons. split; [naive_solver|].
    intros [[->|?] Hm]; [|done]. by rewrite Ef in Hm.
Qed.

Lemma Evaluate_deny_rule_monotone_witness :
  verb_num (d_Verb (Evaluate (Sample.select ["secrets"])
                      (Some (Sample.ruleset [Sample.allow_read] [])) "pg")) <=
  verb_num (d_Verb (Evaluate (Sample.select ["secrets"])
                      (Some (Sample.ruleset [Sample.deny_secrets; Sample.allow_read] [])) "pg")).
Proof.
  apply (Evaluate_deny_rule_monotone _ _ _ _ Sample.deny_secrets); try done.
  unfold rs_wf, ptrs_distinct. decide_vm.
Defined.

(** An approve decision carries an approval whose rule names are exactly those of the approve
    rules covering the winning effect, whose timeout is the timeout of one of them, and, when the
    names of the applicable rules are distinct, the shortest. *)
Theorem Evaluate_approval stmt rs svc :
  rs_wf rs -> d_Verb (Evaluate stmt (Some rs) svc) = VerbApprove ->
  let rules := statementRulesFor rs svc in
  exists e a, e ∈ cs_Effects stmt /\ d_Approval (Evaluate stmt (Some rs) svc) = Some a /\
    (forall n, n ∈ ar_ContributingApproveRules a <->
       exists r, covering rules e r /\ csr_verb r = VerbApprove /\ sr_Name (csr_src r) = n) /\
    (exists r, covering rules e r /\ csr_verb r = VerbApprove /\ csr_timeout r = ar_Timeout a) /\
    (NoDup ((fun r => sr_Name (csr_src r)) <$> rules) ->
     forall r, covering rules e r -> csr_verb r = VerbApprove -> ar_Timeout a <= csr_timeout r).
Proof. exact (approval_of_winner stmt rs svc). Qed.

Lemma Evaluate_approval_witness :
  let rules := statementRulesFor Sample.policy "pg" in
  exists e a, e ∈ cs_Effects (Sample.select ["users"]) /\
    d_Approval (Evaluate (Sample.select ["users"]) (Some Sample.policy) "pg") = Some a /\
    (forall n, n ∈ ar_ContributingApproveRules a <->
       exists r, covering rules e r /\ csr_verb r = VerbApprove /\ sr_Name (csr_src r) = n) /\
    (exists r, covering rules e r /\ csr_verb r = VerbApprove /\ csr_timeout r = ar_Timeout a) /\
    (NoDup ((fun r => sr_Name (csr_src r)) <$> rules) ->
     forall r, covering rules e r -> csr_verb r = VerbApprove -> ar_Timeout a <= csr_timeout r).
Proof. apply Evaluate_approval; [apply Sample.policy_wf|by vm_compute]. Defined.

(** Without distinct names the shortest timeout may lose: the second of two covering approve rules
    with one name is dropped, and with it its shorter timeout. *)
Example shortest_timeout_may_lose :
  let r1 := Sample.rule 1 "ask" VerbApprove [GroupRead] Sample.any_glob 600 None in
  let r2 := Sample.rule 2 "ask" VerbApprove [GroupRead] Sample.any_glob 30 None in
  ar_Timeout <$> d_Approval (Evaluate (Sample.select ["t"]) (Some (Sample.ruleset [r1; r2] [])) "pg")
  = Some 600.
Proof. vm_compute. reflexivity. Qed.

(** A redirect decision carries the redirect action of a redirect rule that covers the winning
    effect, no covering rule is stricter, and when that effect has objects the covering redirect
    rules agree on one source relation. *)
Theorem Evaluate_redirect stmt rs svc :
  rs_wf rs -> d_Verb (Evaluate stmt (Some rs) svc) = VerbRedirect ->
  let rules := statementRulesFor rs svc in
  exists e r, e ∈ cs_Effects stmt /\ covering rules e r /\ csr_verb r = VerbRedirect /\
    d_RuleName (Evaluate stmt (Some rs) svc) = sr_Name (csr_src r) /\
    d_Redirect (Evaluate stmt (Some rs) svc) = csr_redirect r /\
    (forall r', covering rules e r' -> verb_num (csr_verb r') <= verb_num VerbRedirect) /\
    (e_Objects e <> [] -> one_source rules e).
Proof. exact (redirect_of_winner stmt rs svc). Qed.

Lemma Evaluate_redirect_witness :
  let rules := statementRulesFor Sample.policy "pg" in
  let D := Evaluate (Sample.select ["old"]) (Some Sample.policy) "pg" in
  exists e r, e ∈ cs_Effects (Sample.select ["old"]) /\ covering rules e r /\
    csr_verb r = VerbRedirect /\ d_RuleName D = sr_Name (csr_src r) /\
    d_Redirect D = csr_redirect r /\
    (forall r', covering rules e r' -> verb_num (csr_verb r') <= verb_num VerbRedirect) /\
    (e_Objects e <> [] -> one_source rules e).
Proof. apply Evaluate_redirect; [apply Sample.policy_wf|by vm_compute]. Defined.

End Decisions.

(** ** Explanations *)
Module Explanations.

(** A match list with its seen set, as the loops build them. *)
Definition acc_ok (st : list RuleMatch * gset string) : Prop := st.1 = [] -> st.2 = ∅.

Lemma append_ok st m : acc_ok st -> acc_ok (appendRuleMatchUnique st m).
Proof. unfold acc_ok, appendRuleMatchUnique. intros H. case_match; [done|]. by destruct st.1. Qed.

Lemma append_nonempty st m : acc_ok st -> (appendRuleMatchUnique st m).1 <> [].
Proof.
  unfold acc_ok, appendRuleMatchUnique. intros H. case_bool_decide as Hin; [|by destruct st.1].
  intros Hnil. rewrite (H Hnil) in Hin. set_solver.
Qed.

(** Rule [r] is recorded under selector function [sel]. *)
Definition recorded (sel : compiledStatementRule -> option string) (e : Effect)
  (r : compiledStatementRule) : Prop := ruleMatchesEffectMeta r e = true /\ is_Some (sel r).

Lemma explainMatch_fold sel e rules acc :
  acc_ok acc.1 -> acc_ok acc.2 ->
  let acc' := fold_left (explainMatch sel e) rules acc in
  (acc'.1.1 <> [] <-> acc.1.1 <> [] \/
     Exists (fun r => recorded sel e r /\ csr_verb r <> VerbDeny) rules) /\
  (acc'.2.1 <> [] <-> acc.2.1 <> [] \/
     Exists (fun r => recorded sel e r /\ csr_verb r = VerbDeny) rules).
Proof.
  revert acc. induction rules as [|r rules IH]; intros acc H1 H2; simpl.
  { rewrite !Exists_nil. tauto. }
  rewrite !Exists_cons.
  assert (Hcase : (~ recorded sel e r /\ explainMatch sel e acc r = acc) \/
    exists s, recorded sel e r /\ explainMatch sel e acc r =
      if is_deny r then (acc.1, appendRuleMatchUnique acc.2 (mkMatch r s))
      else (appendRuleMatchUnique acc.1 (mkMatch r s), acc.2)).
  { unfold explainMatch, recorded. destruct (ruleMatchesEffectMeta r e); simpl;
      [|left; split; [by intros []|done]].
    destruct (sel r) as [s|]; [right; exists s; split; [by eauto|done]|left].
    split; [by intros [_ [? ?]]|done]. }
  destruct Hcase as [[Hn ->]|(s & Hr & ->)].
  { destruct (IH acc H1 H2). tauto. }
  destruct (is_deny r) eqn:Ed.
  - apply is_deny_true in Ed. pose proof (append_nonempty _ (mkMatch r s) H2).
    destruct (IH (acc.1, appendRuleMatchUnique acc.2 (mkMatch r s)) H1 (append_ok _ _ H2)).
    simpl in *. tauto.
  - rewrite <- negb_true_iff, is_deny_false in Ed. pose proof (append_nonempty _ (mkMatch r s) H1).
    destruct (IH (appendRuleMatchUnique acc.1 (mkMatch r s), acc.2) (append_ok _ _ H1) H2).
    simpl in *. tauto.
Qed.

Lemma resolvedOnlySelector_matched r e :
  is_Some (resolvedOnlyFunctionRuleSelector r e) <-> resolvedOnly_matched r e = true.
Proof.
  unfold resolvedOnlyFunctionRuleSelector, resolvedOnly_matched.
  induction (e_ResolvedObjects e) as [|x l IH]; simpl; [by split; [intros [? [=]]|]|].
  destruct (resolvedOnlyFunctionRuleMatches r x); simpl; [|by rewrite IH].
  destruct (hasObjectSelectors r); simpl; [|by split].
  destruct (functionMatches r x); simpl; [by split|]. by rewrite IH.
Qed.

Lemma objectlessSelector_matched r : is_Some (objectlessSelector r) <-> coversAllObjects r = true.
Proof. unfold objectlessSelector. destruct (coversAllObjects r); split; by try intros [? [=]]. Qed.

(** The lists of an object-less explanation are non-empty exactly when the single target is hit. *)
Lemma explainNoObjectEffect_spec e rules :
  e_Objects e = [] ->
  ((explainNoObjectEffect e rules).1.1 <> [] <-> effect_covered rules e) /\
  ((explainNoObjectEffect e rules).2.1 <> [] <-> effect_denied rules e).
Proof.
  intros Ho. unfold effect_covered, effect_denied, denied_by.
  rewrite (targets_no_objects e Ho).
  assert (Hone : forall (t : compiledStatementRule -> bool) sel,
    (forall r, is_Some (sel r) <-> t r = true) ->
    forall acc, acc = fold_left (explainMatch sel e) rules matchAcc_init ->
    (acc.1.1 <> [] <-> [t] <> [] /\
       forall t', In t' [t] -> exists r, csr_verb r <> VerbDeny /\ rule_hits rules e t' r) /\
    (acc.2.1 <> [] <-> exists r, csr_verb r = VerbDeny /\
       exists t', In t' [t] /\ rule_hits rules e t' r)).
  { intros t sel Hsel acc ->. destruct (explainMatch_fold sel e rules matchAcc_init) as [-> ->];
      [done|done|]. unfold recorded, rule_hits. rewrite !Exists_exists. simpl.
    setoid_rewrite Hsel. setoid_rewrite list_elem_of_In. split; split.
    - intros [?|(r & ?)]; [done|]. split; [done|]. intros t' [<-|[]]. exists r. tauto.
    - intros [_ H]. right. destruct (H t (or_introl eq_refl)) as (r & ?). exists r. tauto.
    - intros [?|(r & ?)]; [done|]. exists r. split; [tauto|]. exists t. tauto.
    - intros (r & Hv & t' & [<-|[]] & ?). right. exists r. tauto. }
  unfold explainNoObjectEffect, single_target.
  destruct (isResolvedOnlyFunctionEffect e);
    [by eapply Hone; [intros; apply resolvedOnlySelector_matched|]|].
  destruct (isObjectlessEffect e); [by eapply Hone; [intros; apply objectlessSelector_matched|]|].
  simpl. split; split; [done|by intros [? _]|done|by intros (? & _ & ? & [] & _)].
Qed.

(** One object's covering matches. *)
Definition covering_match (e : Effect) (i : nat) (r : compiledStatementRule) : option RuleMatch :=
  if negb (is_deny r) && ruleMatchesEffectMeta r e
  then mkMatch r <$> ruleMatchesObjectSlot r e i else None.

Definition deny_hit (e : Effect) (i : nat) (r : compiledStatementRule) : Prop :=
  csr_verb r = VerbDeny /\ ruleMatchesEffectMeta r e = true /\ slot_matched r e i = true.

Lemma explainObjectStep_cases e i acc r :
  (~ deny_hit e i r /\
     explainObjectStep e i acc r = (acc.1 ++ option_list (covering_match e i r), acc.2)) \/
  exists s, deny_hit e i r /\ covering_match e i r = None /\
    explainObjectStep e i acc r = (acc.1, appendRuleMatchUnique acc.2 (mkMatch r s)).
Proof.
  unfold explainObjectStep, covering_match, deny_hit, slot_matched. destruct acc as [c d].
  destruct (ruleMatchesEffectMeta r e); simpl;
    [|left; rewrite andb_false_r, app_nil_r; split; [by intros (_ & ? & _)|done]].
  rewrite andb_true_r.
  destruct (ruleMatchesObjectSlot r e i) as [s|]; simpl;
    [|left; destruct (is_deny r); simpl; rewrite app_nil_r; split; by try intros (_ & _ & ?)].
  destruct (is_deny r) eqn:Ed; simpl.
  - right. exists s. by rewrite is_deny_true in Ed.
  - left. split; [|done]. rewrite <- negb_true_iff, is_deny_false in Ed. by intros (? & _).
Qed.

Lemma explainObject_fold e i rules cov deny :
  acc_ok deny ->
  let acc' := fold_left (explainObjectStep e i) rules (cov, deny) in
  acc'.1 = cov ++ omap (covering_match e i) rules /\ acc_ok acc'.2 /\
  (acc'.2.1 <> [] <-> deny.1 <> [] \/ Exists (deny_hit e i) rules).
Proof.
  revert cov deny. induction rules as [|r rules IH]; intros cov deny Hok; simpl.
  { rewrite app_nil_r, Exists_nil. repeat split; [done|tauto..]. }
  rewrite Exists_cons.
  destruct (explainObjectStep_cases e i (cov, deny) r) as [[Hn ->]|(s & Hr & Hc & ->)]; simpl.
  - destruct (IH (cov ++ option_list (covering_match e i r)) deny Hok) as (-> & ? & ?).
    split; [|tauto]. rewrite <- app_assoc. by destruct (covering_match e i r).
  - pose proof (append_nonempty _ (mkMatch r s) Hok).
    destruct (IH cov (appendRuleMatchUnique deny (mkMatch r s)) (append_ok _ _ Hok)) as (-> & ? & ?).
    rewrite Hc. tauto.
Qed.

(** The object-bearing explanation: one coverage entry per object, in order. *)
Definition object_entry (e : Effect) (rules : list compiledStatementRule) (p : nat * ObjectRef)
  : ObjectCoverage :=
  let covering := omap (covering_match e p.1) rules in
  {| oc_Index := p.1; oc_Object := p.2; oc_ResolvedObject := resolvedObjectForSlot e p.1;
     oc_Covered := nonempty covering; oc_CoveringRules := covering;
     oc_UncoveredReason :=
       if nonempty covering then "" else "no matching non-deny rule covers object" |}.

Lemma explainObjects_fold e rules ps cov deny :
  acc_ok deny ->
  let acc' := fold_left (explainObjectAt e rules) ps (cov, deny) in
  acc'.1 = cov ++ (object_entry e rules <$> ps) /\
  (acc'.2.1 <> [] <-> deny.1 <> [] \/ Exists (fun p => Exists (deny_hit e p.1) rules) ps).
Proof.
  revert cov deny. induction ps as [|[i o] ps IH]; intros cov deny Hok; simpl.
  { rewrite app_nil_r, Exists_nil. split; [done|tauto]. }
  rewrite Exists_cons. simpl.
  destruct (explainObject_fold e i rules [] deny Hok) as (Hc & Hok' & Hd).
  destruct (fold_left (explainObjectStep e i) rules ([], deny)) as [c d'] eqn:Ef. simpl in *.
  subst c. destruct (IH (cov ++ [object_entry e rules (i, o)]) d' Hok') as [IH1 IH2].
  rewrite <- app_assoc in IH1. split; [exact IH1|]. etrans; [exact IH2|]. tauto.
Qed.

Lemma covering_match_Some e i r :
  is_Some (covering_match e i r) <->
  csr_verb r <> VerbDeny /\ ruleMatchesEffectMeta r e = true /\ slot_matched r e i = true.
Proof.
  unfold covering_match, slot_matched. rewrite <- is_deny_false.
  destruct (is_deny r); simpl; [naive_solver|].
  destruct (ruleMatchesEffectMeta r e); simpl; [|naive_solver].
  destruct (ruleMatchesObjectSlot r e i); simpl; naive_solver.
Qed.

Lemma entry_covered e rules p :
  oc_Covered (object_entry e rules p) = true <->
  exists r, csr_verb r <> VerbDeny /\ rule_hits rules e (fun r => slot_matched r e p.1) r.
Proof.
  unfold object_entry, rule_hits. simpl. rewrite nonempty_elem. split.
  - intros [m Hm]. apply list_elem_of_In, list_elem_of_omap in Hm as (r & Hr & Heq).
    exists r. pose proof (covering_match_Some e p.1 r). naive_solver.
  - intros (r & Hv & Hin & Hm).
    destruct (proj2 (covering_match_Some e p.1 r)) as [m Heq]; [done|].
    exists m. apply list_elem_of_In, list_elem_of_omap. eauto.
Qed.

(** The explanation of one effect agrees with the specification. *)
Lemma explainEffect_spec i e rules :
  let ee := (explainEffect i e rules).2 in
  (ee_DenyRules ee <> [] <-> effect_denied rules e) /\
  ((if nonempty (e_Objects e) then forallb oc_Covered (ee_Coverage ee)
    else nonempty (ee_CoveringRules ee)) = true <-> effect_covered rules e).
Proof.
  unfold explainEffect. destruct (decide (e_Objects e = [])) as [Ho|Ho].
  - rewrite Ho. simpl. destruct (explainNoObjectEffect_spec e rules Ho) as [<- <-].
    by rewrite nonempty_true.
  - rewrite (proj2 (nonempty_true _) Ho). simpl.
    destruct (explainObjects_fold e rules (imap pair (e_Objects e)) [] ([], ∅)) as [-> ->]; [done|].
    simpl. setoid_rewrite Exists_exists. split.
    + split.
      * intros [?|(p & Hp & Hex)]; [done|]. apply Exists_exists in Hex as (r & Hr & Hh).
        apply elem_of_lookup_imap in Hp as (k & o & -> & Hk).
        exists r. split; [apply Hh|]. eexists. split; [apply targets_objects; eauto|].
        split; [done|apply Hh].
      * intros (r & Hv & t & Ht & Hin & Hm). right. apply targets_objects in Ht as (k & o & Hk & ->);
          [|done]. exists (k, o). split.
        { apply elem_of_lookup_imap. eauto. }
        apply Exists_exists. exists r. split; [done|]. by split.
    + rewrite forallb_forall. unfold effect_covered. split.
      * intros Hall. split.
        { unfold effect_targets. rewrite (proj2 (nonempty_true _) Ho).
          by destruct (e_Objects e). }
        intros t Ht. apply targets_objects in Ht as (k & o & Hk & ->); [|done].
        apply (entry_covered e rules (k, o)), Hall, in_map, list_elem_of_In, elem_of_lookup_imap.
        eauto.
      * intros [_ Hall] x Hx. apply in_map_iff in Hx as (p & <- & Hp).
        apply list_elem_of_In, elem_of_lookup_imap in Hp as (k & o & -> & Hk).
        apply entry_covered, Hall, targets_objects; eauto.
Qed.

(** Explanations are faithful: the decision of [ExplainStatement] is the decision of
    [Evaluate], and each effect's explanation lists a deny rule exactly when the effect is denied
    and shows it as covered (every object covered, or a covering rule when it has no object)
    exactly when it is. *)
Theorem ExplainStatement_faithful stmt rs svc :
  se_Decision (ExplainStatement stmt rs svc) = Evaluate stmt rs svc /\
  forall rs' i e, rs = Some rs' -> cs_Effects stmt !! i = Some e ->
    exists ee, se_Effects (ExplainStatement stmt rs svc) !! i = Some ee /\ ee_Index ee = i /\
      (ee_DenyRules ee <> [] <-> effect_denied (statementRulesFor rs' svc) e) /\
      ((if nonempty (e_Objects e) then forallb oc_Covered (ee_Coverage ee)
        else nonempty (ee_CoveringRules ee)) = true <->
       effect_covered (statementRulesFor rs' svc) e).
Proof.
  destruct rs as [rs|]; [|by split].
  unfold ExplainStatement, Evaluate. set (rules := statementRulesFor rs svc). split.
  - destruct (nonempty (cs_Effects stmt)); [|done]. simpl. f_equal.
    apply list_eq. intros i. rewrite !list_lookup_fmap, list_lookup_imap.
    destruct (cs_Effects stmt !! i) as [e|]; [|done]. simpl. unfold explainEffect.
    by destruct (nonempty (e_Objects e)).
  - intros rs' i e [= <-] He. destruct (nonempty (cs_Effects stmt)) eqn:Hne;
      [|apply nonempty_false in Hne; by rewrite Hne in He].
    simpl. exists (explainEffect i e rules).2. split.
    + by rewrite list_lookup_fmap, list_lookup_imap, He.
    + split; [|apply explainEffect_spec]. unfold explainEffect. by destruct (nonempty (e_Objects e)).
Qed.

Lemma ExplainStatement_faithful_witness :
  let s := Sample.select ["users"; "secrets"] in
  exists ee, se_Effects (ExplainStatement s (Some Sample.policy) "pg") !! 0%nat = Some ee /\
    ee_Index ee = 0%nat /\
    (ee_DenyRules ee <> [] <->
     effect_denied (statementRulesFor Sample.policy "pg") (Sample.effect GroupRead ["users"; "secrets"])) /\
    (forallb oc_Covered (ee_Coverage ee) = true <->
     effect_covered (statementRulesFor Sample.policy "pg") (Sample.effect GroupRead ["users"; "secrets"])).
Proof.
  intros s. by apply (proj2 (ExplainStatement_faithful s (Some Sample.policy) "pg")).
Defined.

End Explanations.

(** ** Connection decisions *)
Module Connections.

(** Connection decisions are default deny and most restrictive: without a policy or a matching
    rule the connection is denied; otherwise the decision is that of a matching rule of the same
    kind and no matching rule is stricter, so one matching deny rule denies the connection. *)
Theorem EvaluateConnection_strictest info rs :
  let D := EvaluateConnection info (Some rs) in
  d_Verb (EvaluateConnection info None) = VerbDeny /\
  ((forall r, r ∈ rs_connection rs -> connRuleApplies info r = false) ->
     d_Verb D = VerbDeny /\ d_RuleName D = "" /\ d_Approval D = None) /\
  (forall r0, r0 ∈ rs_connection rs -> connRuleApplies info r0 = true ->
     exists r, r ∈ rs_connection rs /\ connRuleApplies info r = true /\
       ccr_matchKind r = ci_MatchKind info /\
       d_Verb D = ccr_verb r /\ d_RuleName D = cr_Name (ccr_src r) /\
       (is_Some (d_Approval D) <-> ccr_verb r = VerbApprove) /\
       forall r', r' ∈ rs_connection rs -> connRuleApplies info r' = true ->
         connVerbRank (ccr_verb r') <= connVerbRank (ccr_verb r)).
Proof.
  intros D. split; [done|].
  assert (Hin : forall r, In r (List.filter (connRuleApplies info) (rs_connection rs)) <->
            r ∈ rs_connection rs /\ connRuleApplies info r = true).
  { intros r. by rewrite filter_In, list_elem_of_In. }
  unfold D, EvaluateConnection.
  destruct (List.filter (connRuleApplies info) (rs_connection rs)) as [|r0 rest].
  - split; [done|]. intros r0 ? ?. by destruct (proj2 (Hin r0)).
  - split.
    { intros Hno. destruct (proj1 (Hin r0) (or_introl eq_refl)) as [? Ha].
      by rewrite Hno in Ha. }
    intros _ _ _. set (rank := fun r => connVerbRank (ccr_verb r)).
    exists (pick_max rank r0 rest). pose proof (pick_max_elem rank r0 rest) as He.
    apply list_elem_of_In, Hin in He as [He Ha]. repeat split; try done.
    + unfold connRuleApplies in Ha. destruct (ccr_matchKind _ !=? _) eqn:Ek; [done|]. by bool_prop.
    + simpl. fold rank. destruct (ccr_verb (pick_max rank r0 rest) ==? VerbApprove) eqn:Ev;
        [by bool_prop|by intros [? ?]].
    + simpl. fold rank. intros ->. by eexists.
    + intros r' Hr' Ha'. apply (pick_max_ge rank), list_elem_of_In, Hin. done.
Qed.

Lemma EvaluateConnection_strictest_witness :
  let info := {| ci_Service := "pg"; ci_MatchKind := MatchConnect; ci_DBUser := "root";
                 ci_Database := "db"; ci_ApplicationName := ""; ci_ClientIdentity := "" |} in
  let D := EvaluateConnection info (Some Sample.policy) in
  exists r, r ∈ rs_connection Sample.policy /\ connRuleApplies info r = true /\
    ccr_matchKind r = ci_MatchKind info /\
    d_Verb D = ccr_verb r /\ d_RuleName D = cr_Name (ccr_src r) /\
    (is_Some (d_Approval D) <-> ccr_verb r = VerbApprove) /\
    forall r', r' ∈ rs_connection Sample.policy -> connRuleApplies info r' = true ->
      connVerbRank (ccr_verb r') <= connVerbRank (ccr_verb r).
Proof.
  intros info D.
  apply (proj2 (proj2 (EvaluateConnection_strictest info Sample.policy))
           (Sample.conn_rule "no-root" VerbDeny ["root"])).
  - right. left.
  - by vm_compute.
Defined.

End Connections.
