(* ===== verification/DbValidate.v ===== *)
(** * Policy decoding, validation and compilation ([internal/db/policy])

    [validate.go], the rule compilers of [compile.go], [redaction.go] and phases B and C of
    [Decode] in [decode.go].

    Three libraries outside the repository are parameters: YAML decoding (the typed result of
    [strictDecode] on each block), [glob.Compile] of gobwas/glob and [template.Parse] of
    text/template with the rendering it yields.  Errors carry the stable code that prefixes the
    message and the name of the service or rule; the prose after it is not modelled. *)

From Stdlib Require Import ZArith Lia Permutation Sorted Ascii String.
From stdpp Require Import base list strings gmap.
From S2P Require Import Prelude GoText GoNet DbEffects DbPolicy.
Open Scope string_scope.
Open Scope list_scope.
Open Scope Z_scope.

(** ** Validation ([validate.go]) *)
Module Validate.

Definition second : Z := 1000000000.
Definition approveTimeoutMax : Z := 600 * second.

Record verror := { ve_Code : string; ve_Subject : string }.

(** [Warning], without the prose of [Message] and the YAML line, which nothing sets. *)
Record Warning := { w_Rule : string; w_Field : string; w_Code : string }.

Definition err (code subject : string) : verror := {| ve_Code := code; ve_Subject := subject |}.

(** [if b { errs = append(errs, e) }]. *)
Definition when {A} (b : bool) (x : A) : list A := if b then [x] else [].

Definition is_some {A} (o : option A) : bool := match o with Some _ => true | None => false end.

Definition upstreamHost (upstream : string) : string :=
  match SplitHostPort (string_bytes upstream) with
  | Some (host, _) => bytes_string host
  | None => upstream
  end.

Definition isLoopbackOrPrivate (host : string) : bool :=
  if host ==? "" then false
  else if EqualFold_ascii host "localhost" then true
  else match ParseIP (string_bytes host) with
  | None => false
  | Some ip => IsLoopback ip || IsPrivate ip
  end.

Definition validateService (s : DBService) : list verror :=
  (if svc_TLSMode s ==? "" then [err "service_tls_mode_required" (svc_Name s)]
   else if (svc_TLSMode s ==? "passthrough") || (svc_TLSMode s ==? "terminate_reissue") ||
           (svc_TLSMode s ==? "terminate_plaintext_upstream") then []
   else [err "service_unknown_tls_mode" (svc_Name s)]) ++
  when ((svc_TLSMode s ==? "terminate_plaintext_upstream") && negb (svc_TrustedNetwork s) &&
        negb (isLoopbackOrPrivate (upstreamHost (svc_Upstream s))))
    (err "service_plaintext_unsafe_dest" (svc_Name s)).

Definition expandedGroups (r : StatementRule) : gset Group :=
  list_to_set (concat (omap ExpandAlias (sr_Operations r))).

Definition groupsOnlyRead (groups : gset Group) : bool :=
  if (size groups =? 0)%nat then false
  else if negb (size groups =? 1)%nat then false
  else bool_decide (GroupRead ∈ groups).

Definition groupsOnlyModifyDelete (groups : gset Group) : bool :=
  if (size groups =? 0)%nat then false
  else forallb (fun g => (g ==? GroupModify) || (g ==? GroupDelete)) (elements groups).

Definition allGroupsObjectless (groups : gset Group) : bool :=
  if (size groups =? 0)%nat then false else forallb isObjectlessGroup (elements groups).

Definition hasHighRisk (groups : gset Group) : bool :=
  existsb (fun g => (groupRiskTier g ==? High) || (groupRiskTier g ==? Critical))
    (elements groups).

Definition ruleHasCanonicalSelectors (r : StatementRule) : bool :=
  nonempty (sr_Relations r) || nonempty (sr_Functions r).

Definition ruleHasAnyObjectSelector (r : StatementRule) : bool :=
  nonempty (sr_Objects r) || nonempty (sr_Relations r) || nonempty (sr_Functions r).

Definition canonicalSelectorWarningField (r : StatementRule) : string :=
  if nonempty (sr_Relations r) then "relations" else "functions".

Definition rule_filter (r : StatementRule) : serviceFilter :=
  {| sf_service := sr_DBService r; sf_family := sr_DBFamily r; sf_dialect := sr_DBDialect r |}.

Definition ruleMatchesTerminatePostgresService (r : StatementRule) (svcs : gmap string DBService)
  : bool :=
  existsb (fun p => (svc_Family p.2 ==? "postgres") && (svc_TLSMode p.2 !=? "passthrough") &&
                    serviceFilter_matches (rule_filter r) p.1 (Some p.2)) (map_to_list svcs).

Fixpoint plain_tail (l : list Z) : bool :=
  match l with
  | [] => true
  | c :: l' => if between 97 c 122 || between 48 c 57 || (c =? 95) then plain_tail l' else false
  end.

Definition isPlainIdentifier (l : list Z) : bool :=
  match l with
  | [] => false
  | c :: l' => if between 97 c 122 || (c =? 95) then plain_tail l' else false
  end.

Definition isCanonicalRelationName (s : string) : bool :=
  match split_byte ch_dot (string_bytes s) with
  | [a; b] => isPlainIdentifier a && isPlainIdentifier b
  | _ => false
  end.

Definition validateRedirectStatementRule (r : StatementRule) (svcs : gmap string DBService)
  (groups : gset Group) : list verror :=
  match sr_Redirect r with
  | None => [err "redirect_relation_required" (sr_Name r)]
  | Some rel =>
    if rel ==? "" then [err "redirect_relation_required" (sr_Name r)]
    else when (negb (isCanonicalRelationName rel)) (err "redirect_relation_not_canonical" (sr_Name r))
  end ++
  match sr_Relations r with
  | [rel] => when (negb (isCanonicalRelationName rel))
               (err "redirect_source_relation_not_canonical" (sr_Name r))
  | _ => [err "redirect_source_relation_required" (sr_Name r)]
  end ++
  when (nonempty (sr_Objects r) || nonempty (sr_Functions r))
    (err "redirect_source_relation_exclusive" (sr_Name r)) ++
  when (sr_MatchObjectResolution r !=? "catalog_resolved")
    (err "redirect_requires_catalog_resolved" (sr_Name r)) ++
  when (negb (groupsOnlyRead groups)) (err "redirect_operations_must_be_read" (sr_Name r)) ++
  when (negb (ruleMatchesTerminatePostgresService r svcs))
    (err "redirect_requires_terminate_postgres_service" (sr_Name r)).

(** The errors of [validateStatementRule], in the order they are appended. *)
Definition validateStatementRule_errs (r : StatementRule) (svcs : gmap string DBService)
  : list verror :=
  let groups := expandedGroups r in
  (if sr_DBService r ==? "" then []
   else match svcs !! sr_DBService r with
   | None => [err "rule_service_unknown" (sr_Name r)]
   | Some svc => when (svc_TLSMode svc ==? "passthrough") (err "rule_service_passthrough" (sr_Name r))
   end) ++
  when (negb (bool_decide (sr_Decision r ∈ ["allow"; "deny"; "approve"; "audit"; "redirect"])))
    (err "rule_unknown_decision" (sr_Name r)) ++
  when (negb (nonempty (sr_Operations r))) (err "rule_operations_required" (sr_Name r)) ++
  concat ((fun op => when (negb (is_some (ExpandAlias op))) (err "rule_unknown_operation" (sr_Name r)))
            <$> sr_Operations r) ++
  when (sr_RequireWhere r && negb (groupsOnlyModifyDelete groups))
    (err "rule_require_where_invalid_operation" (sr_Name r)) ++
  concat ((fun st => when (negb (is_some (ParseSubtype st))) (err "rule_unknown_subtype" (sr_Name r)))
            <$> sr_Subtypes r) ++
  when ((sr_MatchObjectResolution r !=? "") && (sr_MatchObjectResolution r !=? "*") &&
        negb (is_some (ParseResolution (sr_MatchObjectResolution r))))
    (err "rule_unknown_resolution" (sr_Name r)) ++
  when ((sr_Decision r ==? "approve") && (approveTimeoutMax <? sr_Timeout r))
    (err "approve_timeout_exceeds_max" (sr_Name r)) ++
  (if sr_Decision r ==? "redirect" then validateRedirectStatementRule r svcs groups else []) ++
  when ((sr_Decision r ==? "allow") && (sr_DBService r ==? "") && (sr_DBFamily r ==? "") &&
        existsb (fun op => op ==? "*") (sr_Operations r)) (err "rule_too_broad_allow" (sr_Name r)) ++
  (if sr_DenyModeInTx r ==? "" then []
   else if sr_Decision r !=? "deny" then [err "rule_deny_mode_in_tx_not_deny" (sr_Name r)]
   else when (negb (bool_decide (sr_DenyModeInTx r ∈ ["terminate"; "rollback_then_continue"])))
          (err "rule_deny_mode_in_tx_unknown" (sr_Name r))).

Definition warn (r : StatementRule) (field code : string) : Warning :=
  {| w_Rule := sr_Name r; w_Field := field; w_Code := code |}.

(** Its warnings, in the order they are appended. *)
Definition validateStatementRule_warns (r : StatementRule) (svcs : gmap string DBService)
  : list Warning :=
  let groups := expandedGroups r in
  when ((sr_Decision r ==? "audit") && negb (sr_AcknowledgeAuditOnDangerous r) && hasHighRisk groups)
    (warn r "decision" "audit_on_dangerous") ++
  (if ruleHasCanonicalSelectors r then
     when (sr_MatchObjectResolution r !=? "catalog_resolved")
       (warn r "match_object_resolution" "canonical_selector_without_resolution_guard") ++
     when (negb (ruleMatchesTerminatePostgresService r svcs))
       (warn r (canonicalSelectorWarningField r) "canonical_selector_without_catalog_service")
   else []) ++
  when (ruleHasAnyObjectSelector r && allGroupsObjectless groups)
    (warn r "objects" "selector_on_objectless_operation").

Definition validateStatementRule (r : StatementRule) (svcs : gmap string DBService)
  : list verror * list Warning :=
  (validateStatementRule_errs r svcs, validateStatementRule_warns r svcs).

Definition validateConnectionRuleVsService (r : ConnectionRule) (svc : DBService) : list verror :=
  if svc_TLSMode svc !=? "passthrough" then []
  else when (nonempty (cr_DBUser r) || (cr_Database r !=? "") || (cr_ApplicationName r !=? ""))
         (err "conn_passthrough_field_unavailable" (cr_Name r)).

Definition effective_match_kind (r : ConnectionRule) : string :=
  if cr_MatchKind r ==? "" then "connect" else cr_MatchKind r.

(** The first error over all services, if any: [break] after the first. *)
Definition first_service_error (r : ConnectionRule) (svcs : gmap string DBService) : list verror :=
  take 1 (concat ((fun p => validateConnectionRuleVsService r p.2) <$> map_to_list svcs)).

Definition validateConnectionRule (r : ConnectionRule) (svcs : gmap string DBService)
  : list verror * list Warning :=
  let mk := effective_match_kind r in
  ((if cr_DBService r ==? "" then first_service_error r svcs
    else match svcs !! cr_DBService r with
    | None => [err "rule_service_unknown" (cr_Name r)]
    | Some svc => validateConnectionRuleVsService r svc
    end) ++
   when (negb (bool_decide (mk ∈ ["connect"; "cancel"; "replication"])))
     (err "conn_unknown_match_kind" (cr_Name r)) ++
   (if bool_decide (cr_Decision r ∈ ["allow"; "deny"; "approve"; "audit"]) then []
    else if cr_Decision r ==? "redirect" then [err "conn_redirect_invalid" (cr_Name r)]
    else [err "rule_unknown_decision" (cr_Name r)]) ++
   when ((mk ==? "cancel") && (cr_Decision r ==? "approve")) (err "cancel_rule_approve" (cr_Name r)) ++
   when ((cr_Decision r ==? "approve") && (approveTimeoutMax <? cr_Timeout r))
     (err "approve_timeout_exceeds_max" (cr_Name r)),
   when ((mk ==? "replication") && (cr_Decision r ==? "approve"))
     {| w_Rule := cr_Name r; w_Field := "decision"; w_Code := "approve_on_replication" |}).

(** The warnings, and the joined errors when there is one.  The errors of services come in the
    unspecified order of a map range. *)
Definition validate (svcs : gmap string DBService) (stmt : list StatementRule)
  (conn : list ConnectionRule) : list Warning * list verror :=
  let ss := (fun r => validateStatementRule r svcs) <$> stmt in
  let cs := (fun r => validateConnectionRule r svcs) <$> conn in
  (concat ss.*2 ++ concat cs.*2,
   concat ((fun p => validateService p.2) <$> map_to_list svcs) ++ concat ss.*1 ++ concat cs.*1).

End Validate.
Export Validate.

(** ** Redaction tiers ([redaction.go]) *)
Module Redact.

Definition redactionTierNames : list string := ["none"; "parameters_redacted"; "full"].

Definition tierName (r : RedactionTier) : string :=
  default "" (redactionTierNames !! Z.to_nat r).

Definition ParseRedactionTier (s : string) : option RedactionTier :=
  if s ==? "none" then Some RedactNone
  else if s ==? "parameters_redacted" then Some RedactParametersRedacted
  else if s ==? "full" then Some RedactFull
  else None.

Definition parseApprovalPreviewTier (s : string) : option RedactionTier :=
  if s ==? "redacted" then Some RedactParametersRedacted else ParseRedactionTier s.

(** [builtins.DefaultSafeFunctionAllowlist] ([classify/postgres/builtins/allowlist.go]). *)
Definition DefaultSafeFunctionAllowlist : list string :=
  [ "now"; "current_timestamp"; "current_date"; "current_time";
    "localtimestamp"; "localtime"; "statement_timestamp"; "transaction_timestamp";
    "clock_timestamp"; "timeofday";
    "nextval"; "currval"; "lastval";
    "extract"; "date_part"; "date_trunc"; "age";
    "to_date"; "to_timestamp"; "to_char"; "to_number";
    "to_tsvector"; "to_tsquery"; "plainto_tsquery"; "phraseto_tsquery";
    "websearch_to_tsquery"; "ts_rank"; "ts_rank_cd"; "ts_headline";
    "count"; "sum"; "avg"; "min"; "max"; "stddev"; "variance";
    "string_agg"; "array_agg"; "json_agg"; "jsonb_agg";
    "bit_and"; "bit_or"; "bool_and"; "bool_or"; "every";
    "abs"; "ceil"; "ceiling"; "floor"; "round"; "trunc"; "sign";
    "power"; "sqrt"; "exp"; "ln"; "log"; "mod"; "div";
    "sin"; "cos"; "tan"; "asin"; "acos"; "atan"; "atan2";
    "degrees"; "radians"; "pi"; "random";
    "length"; "char_length"; "character_length"; "octet_length"; "bit_length";
    "lower"; "upper"; "initcap";
    "trim"; "btrim"; "ltrim"; "rtrim";
    "substring"; "substr"; "left"; "right"; "position"; "strpos";
    "replace"; "translate"; "overlay";
    "split_part"; "regexp_replace"; "regexp_split_to_array"; "regexp_split_to_table";
    "regexp_matches"; "concat"; "concat_ws"; "format";
    "chr"; "ascii"; "to_hex"; "md5";
    "coalesce"; "nullif"; "greatest"; "least";
    "pg_typeof"; "version"; "current_schema"; "current_schemas";
    "current_database"; "current_user"; "session_user"; "user";
    "current_setting"; "inet_client_addr"; "inet_server_addr";
    "json_extract_path"; "json_extract_path_text";
    "jsonb_extract_path"; "jsonb_extract_path_text";
    "jsonb_typeof"; "json_typeof";
    "json_array_elements"; "jsonb_array_elements";
    "json_object_keys"; "jsonb_object_keys";
    "array_length"; "array_lower"; "array_upper"; "cardinality";
    "unnest"; "array_to_string"; "string_to_array"; "array_position" ].

(** [<] of Go strings. *)
Definition string_less (a b : string) : bool :=
  match String.compare a b with Lt => true | _ => false end.

(** The keys of the map, sorted. *)
Definition defaultAllowlistKeys : list string :=
  stable_sort string_less (remove_dups DefaultSafeFunctionAllowlist).

(** The [policies.db] block as decoded. *)
Record redactionYAML := {
  ry_LogStatements : string;
  ry_ApprovalStatementPreview : string;
  ry_ApprovalStatementPreviewChars : Z;
  ry_Unavoidability : string;
  ry_EscalateUnknownFunctions : bool;
  ry_SafeFunctionAllowlist : list string
}.

End Redact.
Export Redact.

(** ** Compilation and [Decode] ([compile.go], [decode.go]) *)
Module Compile.

Definition defaultApproveTimeout : Z := 60 * second.

(** Errors of the rule compilers: the first five are the ones validation should have rejected. *)
Inductive cerror :=
| UnhandledDecision (rule : string)
| IncompleteRedirect (rule : string)
| UnknownOperation (rule op : string)
| UnknownSubtype (rule st : string)
| UnknownResolution (rule res : string)
| UnhandledMatchKind (rule mk : string)
| GlobCompile (rule field pat cause : string)
| MessageTemplateParse (rule cause : string).

(** The library's fault, as opposed to a shape validation rejects. *)
Definition library_error (e : cerror) : Prop :=
  match e with GlobCompile _ _ _ _ | MessageTemplateParse _ _ => True | _ => False end.

Inductive derror :=
| PolicyNil
| DecodeBlock (block cause : string)
| UnknownLogStatements (s : string)
| UnknownApprovalPreview (s : string)
| UnknownUnavoidability (s : string)
| Invalid (errs : list verror)
| CompileError (e : cerror).

Definition statement_verb (r : StatementRule) : result cerror DecisionVerb :=
  let d := sr_Decision r in
  if d ==? "allow" then Ok VerbAllow else if d ==? "deny" then Ok VerbDeny
  else if d ==? "approve" then Ok VerbApprove else if d ==? "audit" then Ok VerbAudit
  else if d ==? "redirect" then Ok VerbRedirect
  else Err (UnhandledDecision (sr_Name r)).

Definition statement_redirect (r : StatementRule) (v : DecisionVerb)
  : result cerror (option RedirectDecision) :=
  if v !=? VerbRedirect then Ok None
  else match sr_Relations r, sr_Redirect r with
  | [rel], Some target =>
    if target ==? "" then Err (IncompleteRedirect (sr_Name r))
    else Ok (Some {| rd_SourceRelation := rel; rd_TargetRelation := target |})
  | _, _ => Err (IncompleteRedirect (sr_Name r))
  end.

Definition statement_resolution (r : StatementRule) : result cerror resolutionMatcher :=
  let m := sr_MatchObjectResolution r in
  if (m ==? "") || (m ==? "*") then Ok resAny
  else res <-? of_option (UnknownResolution (sr_Name r) m) (ParseResolution m) ; Ok (resEq res).

(** The sets built by the loops over operations and subtypes. *)
Definition statement_groups (r : StatementRule) : result cerror (gset Group) :=
  gs <-? each (fun op => of_option (UnknownOperation (sr_Name r) op) (ExpandAlias op))
           (sr_Operations r) ;
  Ok (list_to_set (concat gs)).

Definition statement_subtypes (r : StatementRule) : result cerror (gset Subtype) :=
  ss <-? each (fun st => of_option (UnknownSubtype (sr_Name r) st) (ParseSubtype st))
           (sr_Subtypes r) ;
  Ok (list_to_set ss).

(** [c.timeout]. *)
Definition compiled_timeout (decision : string) (timeout : Z) : Z :=
  if (decision ==? "approve") && (timeout =? 0) then defaultApproveTimeout else timeout.

Definition connection_verb (r : ConnectionRule) : result cerror DecisionVerb :=
  let d := cr_Decision r in
  if d ==? "allow" then Ok VerbAllow else if d ==? "deny" then Ok VerbDeny
  else if d ==? "approve" then Ok VerbApprove else if d ==? "audit" then Ok VerbAudit
  else Err (UnhandledDecision (cr_Name r)).

Definition connection_kind (r : ConnectionRule) : result cerror ConnectionMatchKind :=
  let m := cr_MatchKind r in
  if (m ==? "") || (m ==? "connect") then Ok MatchConnect
  else if m ==? "cancel" then Ok MatchCancel
  else if m ==? "replication" then Ok MatchReplication
  else Err (UnhandledMatchKind (cr_Name r) m).

Section Libraries.

(** [glob.Compile] and [template.New("msg").Parse]. *)
Context (glob_Compile : string -> result string glob).
Context (template_Parse : string -> result string template).

Definition compile_glob (rule field pat : string) : result cerror glob :=
  map_err (GlobCompile rule field pat) (glob_Compile pat).

Definition compile_message (rule msg : string) : result cerror (option template) :=
  if TrimSpace_empty msg then Ok None
  else t <-? map_err (MessageTemplateParse rule) (template_Parse msg) ; Ok (Some t).

(** An optional glob of a connection rule. *)
Definition compile_opt_glob (rule field pat : string) : result cerror (option glob) :=
  if pat ==? "" then Ok None else g <-? compile_glob rule field pat ; Ok (Some g).

(** [ptr] is the address of the rule object the call allocates. *)
Definition compileStatementRule (ptr : nat) (r : StatementRule)
  : result cerror compiledStatementRule :=
  v <-? statement_verb r ;
  rd <-? statement_redirect r v ;
  gs <-? statement_groups r ;
  ss <-? statement_subtypes r ;
  res <-? statement_resolution r ;
  schemas <-? each (compile_glob (sr_Name r) "schemas") (sr_Schemas r) ;
  objects <-? each (compile_glob (sr_Name r) "objects") (sr_Objects r) ;
  relations <-? each (compile_glob (sr_Name r) "relations") (sr_Relations r) ;
  functions <-? each (compile_glob (sr_Name r) "functions") (sr_Functions r) ;
  tmpl <-? compile_message (sr_Name r) (sr_Message r) ;
  Ok {| csr_ptr := ptr; csr_src := r; csr_verb := v; csr_groups := gs; csr_subtypes := ss;
        csr_requireWhere := sr_RequireWhere r; csr_resolution := res; csr_schemas := schemas;
        csr_objects := objects; csr_relations := relations; csr_functions := functions;
        csr_timeout := compiled_timeout (sr_Decision r) (sr_Timeout r); csr_msgTemplate := tmpl;
        csr_redirect := rd; csr_serviceFilter := rule_filter r |}.

Definition compileConnectionRule (r : ConnectionRule) : result cerror compiledConnectionRule :=
  v <-? connection_verb r ;
  k <-? connection_kind r ;
  app <-? compile_opt_glob (cr_Name r) "application_name" (cr_ApplicationName r) ;
  ident <-? compile_opt_glob (cr_Name r) "client_identity" (cr_ClientIdentity r) ;
  tmpl <-? compile_message (cr_Name r) (cr_Message r) ;
  Ok {| ccr_src := r; ccr_verb := v; ccr_matchKind := k; ccr_dbUsers := list_to_set (cr_DBUser r);
        ccr_database := cr_Database r; ccr_applicationName := app; ccr_clientIdentity := ident;
        ccr_timeout := compiled_timeout (cr_Decision r) (cr_Timeout r); ccr_msgTemplate := tmpl;
        ccr_serviceFilter := {| sf_service := cr_DBService r; sf_family := ""; sf_dialect := "" |} |}.

(** YAML nodes, the four blocks of a policy and the strict decoder at each of their types. *)
Context {Node : Type} (IsZero : Node -> bool).
Context (strictDecode_services : Node -> result string (gmap string DBService)).
Context (strictDecode_statement : Node -> result string (list StatementRule)).
Context (strictDecode_connection : Node -> result string (list ConnectionRule)).
Context (strictDecode_db : Node -> result string redactionYAML).

Record Policy := {
  p_DBServices : Node;
  p_DatabaseRules : Node;
  p_DatabaseConnectionRules : Node;
  p_Policies : Node
}.

Definition set_name (name : string) (s : DBService) : DBService :=
  {| svc_Name := name; svc_Family := svc_Family s; svc_Dialect := svc_Dialect s;
     svc_Upstream := svc_Upstream s; svc_TLSMode := svc_TLSMode s;
     svc_AllowFunctionCallProtocol := svc_AllowFunctionCallProtocol s;
     svc_AllowGSSEncryption := svc_AllowGSSEncryption s;
     svc_TrustedNetwork := svc_TrustedNetwork s |}.

(** A service is never nil here: see [strictDecode_services]'s type. *)
Definition decodeServices (n : Node) : result derror (gmap string DBService) :=
  if IsZero n then Ok ∅
  else raw <-? map_err (DecodeBlock "db_services") (strictDecode_services n) ;
       Ok (map_imap (fun name svc => Some (set_name name svc)) raw).

Definition decodeStatementRules (n : Node) : result derror (list StatementRule) :=
  if IsZero n then Ok []
  else map_err (DecodeBlock "database_rules") (strictDecode_statement n).

Definition decodeConnectionRules (n : Node) : result derror (list ConnectionRule) :=
  if IsZero n then Ok []
  else map_err (DecodeBlock "database_connection_rules") (strictDecode_connection n).

Definition decodeRedaction (p : Policy) : result derror RedactionConfig :=
  if IsZero (p_Policies p) then
    Ok {| rc_LogStatements := RedactParametersRedacted;
          rc_ApprovalStatementPreview := RedactParametersRedacted;
          rc_ApprovalStatementChars := 200; rc_EscalateUnknownFunctions := false;
          rc_SafeFunctionAllowlist := [] |}
  else
    rb <-? map_err (DecodeBlock "policies.db") (strictDecode_db (p_Policies p)) ;
    log <-? (if ry_LogStatements rb ==? "" then Ok RedactParametersRedacted
             else of_option (UnknownLogStatements (ry_LogStatements rb))
                    (ParseRedactionTier (ry_LogStatements rb))) ;
    preview <-? (if ry_ApprovalStatementPreview rb ==? "" then Ok RedactParametersRedacted
                 else of_option (UnknownApprovalPreview (ry_ApprovalStatementPreview rb))
                        (parseApprovalPreviewTier (ry_ApprovalStatementPreview rb))) ;
    Ok {| rc_LogStatements := log; rc_ApprovalStatementPreview := preview;
          rc_ApprovalStatementChars :=
            if 0 <? ry_ApprovalStatementPreviewChars rb then ry_ApprovalStatementPreviewChars rb
            else 200;
          rc_EscalateUnknownFunctions := ry_EscalateUnknownFunctions rb;
          rc_SafeFunctionAllowlist :=
            if nonempty (ry_SafeFunctionAllowlist rb) then ry_SafeFunctionAllowlist rb
            else if ry_EscalateUnknownFunctions rb then defaultAllowlistKeys else [] |}.

Definition decodeUnavoidability (p : Policy) : result derror Unavoidability :=
  if IsZero (p_Policies p) then Ok UnavoidabilityOff
  else
    rb <-? map_err (DecodeBlock "policies.db") (strictDecode_db (p_Policies p)) ;
    if ry_Unavoidability rb ==? "" then Ok UnavoidabilityOff
    else of_option (UnknownUnavoidability (ry_Unavoidability rb))
           (ParseUnavoidability (ry_Unavoidability rb)).

(** Phase C: the statement rules, then the connection rules. *)
Definition compileRules (stmt : list StatementRule) (conn : list ConnectionRule)
  : result derror (list compiledStatementRule * list compiledConnectionRule) :=
  cs <-? map_err CompileError (each (fun p => compileStatementRule p.1 p.2) (imap pair stmt)) ;
  cc <-? map_err CompileError (each compileConnectionRule conn) ;
  Ok (cs, cc).

(** The rule set with the warnings, or the error with the warnings collected up to it. *)
Definition Decode (p : option Policy) : result (derror * list Warning) (RuleSet * list Warning) :=
  let early {A} (r : result derror A) := map_err (fun e => (e, [])) r in
  match p with
  | None => Err (PolicyNil, [])
  | Some p =>
    svcs <-? early (decodeServices (p_DBServices p)) ;
    stmt <-? early (decodeStatementRules (p_DatabaseRules p)) ;
    conn <-? early (decodeConnectionRules (p_DatabaseConnectionRules p)) ;
    red <-? early (decodeRedaction p) ;
    unavoid <-? early (decodeUnavoidability p) ;
    let '(warns, errs) := validate svcs stmt conn in
    if nonempty errs then Err (Invalid errs, warns)
    else
      rules <-? map_err (fun e => (e, warns)) (compileRules stmt conn) ;
      Ok ({| rs_services := svcs; rs_statement := rules.1; rs_connection := rules.2;
             rs_redaction := red; rs_unavoidability := unavoid |}, warns)
  end.

End Libraries.

End Compile.
Export Compile.
