(* ===== verification/DbValidateTheorems.v ===== *)
(** * What validation and compilation of a policy guarantee

    A policy that validates compiles, up to malformed globs and templates; the compiled rule set
    satisfies an invariant ([ruleset_ok]) on timeouts, redirects, connection verbs and service
    transport; and the invariant bounds the decisions the evaluator takes with it. *)

From Stdlib Require Import ZArith Lia Permutation Sorted Ascii String.
From stdpp Require Import base list strings gmap.
From S2P Require Import Prelude GoText GoNet DbEffects DbPolicy DbPolicyTheorems DbValidate.
Open Scope string_scope.
Open Scope list_scope.
Open Scope Z_scope.

Module ValidateFacts.

Lemma when_nil {A} b (x : A) : when b x = [] <-> b = false.
Proof. by destruct b. Qed.

Lemma is_some_true {A} (o : option A) : is_some o = true <-> is_Some o.
Proof. destruct o; simpl; split; (by eauto) || by intros [? ?]. Qed.

Lemma concat_nil {A B} (f : A -> list B) l x : concat (f <$> l) = [] -> x ∈ l -> f x = [].
Proof.
  induction l as [|y l IH]; simpl; [set_solver|]. intros [? ?]%app_nil [->|?]%elem_of_cons; auto.
Qed.

(** What a statement rule without errors satisfies. *)
Record stmt_valid (svcs : gmap string DBService) (r : StatementRule) : Prop := {
  sv_decision : sr_Decision r ∈ ["allow"; "deny"; "approve"; "audit"; "redirect"];
  sv_operations : sr_Operations r <> [];
  sv_known_ops : forall op, op ∈ sr_Operations r -> is_Some (ExpandAlias op);
  sv_known_subtypes : forall st, st ∈ sr_Subtypes r -> is_Some (ParseSubtype st);
  sv_resolution : sr_MatchObjectResolution r = "" \/ sr_MatchObjectResolution r = "*" \/
    is_Some (ParseResolution (sr_MatchObjectResolution r));
  sv_timeout : sr_Decision r = "approve" -> sr_Timeout r <= approveTimeoutMax;
  sv_redirect : sr_Decision r = "redirect" ->
    validateRedirectStatementRule r svcs (expandedGroups r) = [];
  sv_broad : sr_Decision r = "allow" -> "*" ∈ sr_Operations r ->
    sr_DBService r <> "" \/ sr_DBFamily r <> ""
}.

Lemma validateStatementRule_ok svcs r :
  validateStatementRule_errs r svcs = [] -> stmt_valid svcs r.
Proof.
  unfold validateStatementRule_errs. intros H.
  apply app_nil in H as [_ H]. apply app_nil in H as [Hdec H]. apply app_nil in H as [Hops H].
  apply app_nil in H as [Hknown H]. apply app_nil in H as [_ H]. apply app_nil in H as [Hsub H].
  apply app_nil in H as [Hres H]. apply app_nil in H as [Hto H]. apply app_nil in H as [Hred H].
  apply app_nil in H as [Hbroad _].
  rewrite when_nil in Hdec, Hops, Hres, Hto, Hbroad. constructor.
  - by bool_prop.
  - bool_prop. by apply nonempty_true.
  - intros op Hop. apply (concat_nil _ _ _ Hknown), when_nil in Hop. bool_prop.
    by apply is_some_true.
  - intros st Hst. apply (concat_nil _ _ _ Hsub), when_nil in Hst. bool_prop.
    by apply is_some_true.
  - apply andb_false_iff in Hres as [Hres|Hres].
    + bool_prop. destruct Hres as [?|?]; bool_prop; auto.
    + bool_prop. right. right. by apply is_some_true.
  - intros Hd. rewrite bool_decide_eq_true_2 in Hto by done. simpl in Hto. by bool_prop.
  - intros Hd. by rewrite bool_decide_eq_true_2 in Hred.
  - intros Hd Hstar. rewrite bool_decide_eq_true_2 in Hbroad by done. simpl in Hbroad.
    assert (Hex : existsb (fun op => op ==? "*") (sr_Operations r) = true).
    { apply existsb_exists. exists "*". split; [by apply list_elem_of_In|].
      by apply bool_decide_eq_true_2. }
    rewrite Hex, andb_true_r in Hbroad. apply andb_false_iff in Hbroad as [?|?]; bool_prop; auto.
Qed.

Record conn_valid (r : ConnectionRule) : Prop := {
  cv_kind : effective_match_kind r ∈ ["connect"; "cancel"; "replication"];
  cv_decision : cr_Decision r ∈ ["allow"; "deny"; "approve"; "audit"];
  cv_cancel : effective_match_kind r = "cancel" -> cr_Decision r <> "approve";
  cv_timeout : cr_Decision r = "approve" -> cr_Timeout r <= approveTimeoutMax
}.

Lemma validateConnectionRule_ok svcs r :
  (validateConnectionRule r svcs).1 = [] -> conn_valid r.
Proof.
  unfold validateConnectionRule. simpl. intros H.
  apply app_nil in H as [_ H]. apply app_nil in H as [Hk H]. apply app_nil in H as [Hd H].
  apply app_nil in H as [Hc Ht]. rewrite when_nil in Hk, Hc, Ht. constructor.
  - by bool_prop.
  - clear -Hd. case_bool_decide as Hin; [done|]. by case_match.
  - intros Hm Ha. by rewrite !bool_decide_eq_true_2 in Hc.
  - intros Ha. rewrite bool_decide_eq_true_2 in Ht by done. simpl in Ht. by bool_prop.
Qed.

Lemma validate_ok svcs stmt conn :
  (validate svcs stmt conn).2 = [] ->
  (forall id s, svcs !! id = Some s -> validateService s = []) /\
  (forall r, r ∈ stmt -> stmt_valid svcs r) /\ (forall r, r ∈ conn -> conn_valid r).
Proof.
  unfold validate. simpl. intros [Hs [Hst Hc]%app_nil]%app_nil. split; [|split].
  - intros id s Hlk. apply (concat_nil _ _ (id, s) Hs). by apply elem_of_map_to_list.
  - intros r Hr. apply validateStatementRule_ok.
    rewrite <- list_fmap_compose in Hst. by apply (concat_nil _ _ r Hst).
  - intros r Hr. apply (validateConnectionRule_ok svcs).
    rewrite <- list_fmap_compose in Hc. by apply (concat_nil _ _ r Hc).
Qed.

(** *** The compilers on validated rules *)

Lemma statement_verb_ok svcs r : stmt_valid svcs r -> exists v, statement_verb r = Ok v.
Proof.
  intros [Hd _ _ _ _ _ _ _]. unfold statement_verb.
  repeat (case_bool_decide; [by eexists|]). set_solver.
Qed.

Lemma statement_verb_string r v :
  statement_verb r = Ok v -> sr_Decision r = verbString v.
Proof.
  unfold statement_verb. intros H. repeat (case_bool_decide; [by injection H as <-|]). done.
Qed.

Lemma statement_redirect_ok svcs r v :
  stmt_valid svcs r -> statement_verb r = Ok v -> exists rd, statement_redirect r v = Ok rd.
Proof.
  intros Hv Hverb. unfold statement_redirect. case_bool_decide as Hr; simpl; [|by eexists].
  subst v. apply statement_verb_string in Hverb. pose proof (sv_redirect _ _ Hv Hverb) as Hred.
  unfold validateRedirectStatementRule in Hred. apply app_nil in Hred as [H1 [H2 _]%app_nil].
  destruct (sr_Redirect r) as [t|]; [|done]. destruct (sr_Relations r) as [|rel [|? ?]]; try done.
  destruct (t ==? "") eqn:Et; [done|]. by eexists.
Qed.

Lemma each_total {E A B} (f : A -> result E B) l :
  (forall x, x ∈ l -> exists y, f x = Ok y) -> exists ys, each f l = Ok ys.
Proof.
  induction l as [|x l IH]; intros H; simpl; [by eexists|].
  destruct (H x) as [y ->]; [left|]. destruct IH as [ys ->]; [|by eexists].
  intros z Hz. apply H. by right.
Qed.

Lemma of_option_total {E A} (e : E) (o : option A) : is_Some o -> exists x, of_option e o = Ok x.
Proof. intros [x ->]. by eexists. Qed.

Lemma statement_sets_ok svcs r :
  stmt_valid svcs r ->
  (exists gs, statement_groups r = Ok gs) /\ (exists ss, statement_subtypes r = Ok ss) /\
  (exists res, statement_resolution r = Ok res).
Proof.
  intros Hv. unfold statement_groups, statement_subtypes, statement_resolution. split; [|split].
  - destruct (each_total (fun op => of_option (UnknownOperation (sr_Name r) op) (ExpandAlias op))
      (sr_Operations r)) as [gs ->]; [|by eexists].
    intros op Hop. by apply of_option_total, (sv_known_ops _ _ Hv).
  - destruct (each_total (fun st => of_option (UnknownSubtype (sr_Name r) st) (ParseSubtype st))
      (sr_Subtypes r)) as [ss ->]; [|by eexists].
    intros st Hst. by apply of_option_total, (sv_known_subtypes _ _ Hv).
  - destruct (sv_resolution _ _ Hv) as [->|[->|[x Hx]]]; [by eexists..|].
    case_match; [by eexists|]. rewrite Hx. by eexists.
Qed.

Section Libraries.
Context (glob_Compile : string -> result string glob).
Context (template_Parse : string -> result string template).

Definition only_library {A} (m : result cerror A) : Prop :=
  match m with Ok _ => True | Err e => library_error e end.

Lemma only_library_bind {A B} (m : result cerror A) (k : A -> result cerror B) :
  only_library m -> (forall a, m = Ok a -> only_library (k a)) -> only_library (rbind m k).
Proof. destruct m; simpl; auto. Qed.

Lemma only_library_ok {A} (m : result cerror A) : (exists a, m = Ok a) -> only_library m.
Proof. by intros [a ->]. Qed.

Lemma only_library_each {A B} (f : A -> result cerror B) l :
  (forall x, x ∈ l -> only_library (f x)) -> only_library (each f l).
Proof.
  intros H. destruct (each f l) as [ys|e] eqn:He; simpl; [done|].
  apply each_Err in He as (x & Hx & Hf). specialize (H x Hx). by rewrite Hf in H.
Qed.

Lemma compile_glob_lib rule field pat : only_library (compile_glob glob_Compile rule field pat).
Proof. unfold compile_glob. by destruct (glob_Compile pat). Qed.

Lemma compile_opt_glob_lib rule field pat :
  only_library (compile_opt_glob glob_Compile rule field pat).
Proof.
  unfold compile_opt_glob. case_bool_decide; simpl; [done|].
  apply only_library_bind; [apply compile_glob_lib|done].
Qed.

Lemma compile_message_lib rule msg : only_library (compile_message template_Parse rule msg).
Proof. unfold compile_message. case_match; [done|]. by destruct (template_Parse msg). Qed.

Lemma compileStatementRule_lib svcs ptr r :
  stmt_valid svcs r -> only_library (compileStatementRule glob_Compile template_Parse ptr r).
Proof.
  intros Hv. unfold compileStatementRule.
  destruct (statement_sets_ok _ _ Hv) as (Hg & Hs & Hr).
  apply only_library_bind; [by eapply only_library_ok, statement_verb_ok|]. intros v Hverb.
  apply only_library_bind; [by eapply only_library_ok, statement_redirect_ok|]. intros rd _.
  do 3 (apply only_library_bind; [by apply only_library_ok|]; intros ? _).
  do 4 (apply only_library_bind; [by apply only_library_each; intros; apply compile_glob_lib|];
        intros ? _).
  apply only_library_bind; [apply compile_message_lib|done].
Qed.

Lemma connection_kind_string r k :
  connection_kind r = Ok k -> effective_match_kind r = connKindString k.
Proof.
  unfold connection_kind, effective_match_kind. intros H.
  repeat case_bool_decide; simpl in H; simplify_eq; simpl; congruence.
Qed.

Lemma connection_verb_string r v : connection_verb r = Ok v -> cr_Decision r = verbString v.
Proof.
  unfold connection_verb. intros H. repeat (case_bool_decide; [by injection H as <-|]). done.
Qed.

Lemma compileConnectionRule_lib r :
  conn_valid r -> only_library (compileConnectionRule glob_Compile template_Parse r).
Proof.
  intros [Hk Hd _ _]. unfold compileConnectionRule.
  apply only_library_bind.
  { apply only_library_ok. unfold connection_verb.
    repeat (case_bool_decide; [by eexists|]). set_solver. }
  intros v _. apply only_library_bind.
  { apply only_library_ok. unfold connection_kind, effective_match_kind in *.
    repeat case_bool_decide; simpl; try (by eexists). set_solver. }
  intros k _. do 2 (apply only_library_bind; [apply compile_opt_glob_lib|]; intros ? _).
  apply only_library_bind; [apply compile_message_lib|done].
Qed.

(** The fields of a compiled statement rule. *)
Record compiled_from (ptr : nat) (r : StatementRule) (c : compiledStatementRule) : Prop := {
  cf_ptr : csr_ptr c = ptr;
  cf_src : csr_src c = r;
  cf_verb : statement_verb r = Ok (csr_verb c);
  cf_rd : statement_redirect r (csr_verb c) = Ok (csr_redirect c);
  cf_groups : statement_groups r = Ok (csr_groups c);
  cf_res : statement_resolution r = Ok (csr_resolution c);
  cf_relations : each (compile_glob glob_Compile (sr_Name r) "relations") (sr_Relations r) =
    Ok (csr_relations c);
  cf_objects : each (compile_glob glob_Compile (sr_Name r) "objects") (sr_Objects r) =
    Ok (csr_objects c);
  cf_functions : each (compile_glob glob_Compile (sr_Name r) "functions") (sr_Functions r) =
    Ok (csr_functions c);
  cf_timeout : csr_timeout c = compiled_timeout (sr_Decision r) (sr_Timeout r)
}.

Lemma compileStatementRule_fields ptr r c :
  compileStatementRule glob_Compile template_Parse ptr r = Ok c -> compiled_from ptr r c.
Proof.
  unfold compileStatementRule. intros H. result_steps H. injection H as <-. by constructor.
Qed.

Lemma compileConnectionRule_fields r c :
  compileConnectionRule glob_Compile template_Parse r = Ok c ->
  ccr_src c = r /\ connection_verb r = Ok (ccr_verb c) /\ connection_kind r = Ok (ccr_matchKind c) /\
  ccr_timeout c = compiled_timeout (cr_Decision r) (cr_Timeout r).
Proof.
  unfold compileConnectionRule. intros H. result_steps H. injection H as <-. by repeat split.
Qed.

End Libraries.
End ValidateFacts.
Import ValidateFacts.

(** ** The invariant of decoded rule sets *)
Module DecodedInvariant.

(** The action and the shape of a redirect rule. *)
Record redirect_ok (r : compiledStatementRule) (src tgt : string) : Prop := {
  rk_action : csr_redirect r = Some {| rd_SourceRelation := src; rd_TargetRelation := tgt |};
  rk_source : isCanonicalRelationName src = true;
  rk_target : isCanonicalRelationName tgt = true;
  rk_read : csr_groups r = {[GroupRead]};
  rk_resolution : csr_resolution r = resEq ResolutionCatalogResolved;
  rk_objects : csr_objects r = [];
  rk_functions : csr_functions r = [];
  rk_relations : sr_Relations (csr_src r) = [src]
}.

Record statement_ok (r : compiledStatementRule) : Prop := {
  so_approve : csr_verb r = VerbApprove -> csr_timeout r <= approveTimeoutMax /\ csr_timeout r <> 0;
  so_redirect : csr_verb r = VerbRedirect -> exists src tgt, redirect_ok r src tgt;
  so_groups : csr_groups r = expandedGroups (csr_src r);
  so_broad : csr_verb r = VerbAllow -> "*" ∈ sr_Operations (csr_src r) ->
    sr_DBService (csr_src r) <> "" \/ sr_DBFamily (csr_src r) <> ""
}.

Record connection_ok (r : compiledConnectionRule) : Prop := {
  co_redirect : ccr_verb r <> VerbRedirect;
  co_cancel : ccr_matchKind r = MatchCancel -> ccr_verb r <> VerbApprove;
  co_approve : ccr_verb r = VerbApprove -> ccr_timeout r <= approveTimeoutMax /\ ccr_timeout r <> 0
}.

Record service_ok (id : string) (s : DBService) : Prop := {
  vo_name : svc_Name s = id;
  vo_mode : svc_TLSMode s ∈ ["passthrough"; "terminate_reissue"; "terminate_plaintext_upstream"];
  vo_plain : svc_TLSMode s = "terminate_plaintext_upstream" ->
    svc_TrustedNetwork s = true \/ isLoopbackOrPrivate (upstreamHost (svc_Upstream s)) = true
}.

Record ruleset_ok (rs : RuleSet) : Prop := {
  ro_wf : rs_wf rs;
  ro_statement : forall r, r ∈ rs_statement rs -> statement_ok r;
  ro_connection : forall r, r ∈ rs_connection rs -> connection_ok r;
  ro_services : forall id s, rs_services rs !! id = Some s -> service_ok id s
}.

Lemma compiled_timeout_ok d t :
  (d = "approve" -> t <= approveTimeoutMax) -> d = "approve" ->
  compiled_timeout d t <= approveTimeoutMax /\ compiled_timeout d t <> 0.
Proof.
  unfold compiled_timeout, approveTimeoutMax, defaultApproveTimeout, second. intros H ->.
  specialize (H eq_refl). rewrite bool_decide_eq_true_2 by done. simpl.
  destruct (Z.eqb_spec t 0); lia.
Qed.

Lemma statement_groups_expanded r gs : statement_groups r = Ok gs -> gs = expandedGroups r.
Proof.
  unfold statement_groups, expandedGroups. intros H. apply rbind_Ok in H as (l & Hl & H).
  injection H as <-. do 2 f_equal. apply each_Ok in Hl.
  induction Hl as [|op g ops l Hop _ IH]; simpl; [done|].
  apply of_option_Ok in Hop as ->. by rewrite IH.
Qed.

Lemma groupsOnlyRead_set gs : groupsOnlyRead gs = true -> gs = {[GroupRead]}.
Proof.
  unfold groupsOnlyRead. destruct (Nat.eqb_spec (size gs) 0); [done|].
  destruct (Nat.eqb_spec (size gs) 1) as [H1|]; simpl; [|done]. intros H. bool_prop.
  apply size_1_elem_of in H1 as [x Hx]. set_solver.
Qed.

Section Libraries.
Context (glob_Compile : string -> result string glob).
Context (template_Parse : string -> result string template).

Lemma redirect_rule_ok svcs ptr r c :
  stmt_valid svcs r -> compiled_from glob_Compile ptr r c -> csr_verb c = VerbRedirect ->
  exists src tgt, redirect_ok c src tgt.
Proof.
  intros Hv Hc Hr. pose proof (statement_verb_string _ _ (cf_verb _ _ _ _ Hc)) as Hd.
  rewrite Hr in Hd. pose proof (sv_redirect _ _ Hv Hd) as Hred.
  unfold validateRedirectStatementRule in Hred.
  apply app_nil in Hred as [H1 H]. apply app_nil in H as [H2 H]. apply app_nil in H as [H3 H].
  apply app_nil in H as [H4 H]. apply app_nil in H as [H5 _].
  rewrite when_nil in H3, H4, H5. bool_prop.
  pose proof (cf_rd _ _ _ _ Hc) as Hrd. unfold statement_redirect in Hrd. rewrite Hr in Hrd.
  simpl in Hrd. destruct (sr_Relations r) as [|src [|? ?]] eqn:Erel; try done.
  destruct (sr_Redirect r) as [tgt|]; [|done].
  destruct (tgt ==? "") eqn:Et; [done|]. injection Hrd as Hrd.
  rewrite when_nil in H1, H2. bool_prop.
  exists src, tgt. constructor; try done.
  - rewrite (statement_groups_expanded _ _ (cf_groups _ _ _ _ Hc)). by apply groupsOnlyRead_set.
  - pose proof (cf_res _ _ _ _ Hc) as Hres. unfold statement_resolution in Hres.
    rewrite H4 in Hres. simpl in Hres. injection Hres as Hres. rewrite <- Hres. reflexivity.
  - pose proof (cf_objects _ _ _ _ Hc) as Ho. rewrite nonempty_false in H. rewrite H in Ho.
    by injection Ho.
  - pose proof (cf_functions _ _ _ _ Hc) as Ho. rewrite nonempty_false in H0. rewrite H0 in Ho.
    by injection Ho.
  - by rewrite (cf_src _ _ _ _ Hc).
Qed.

Lemma compiled_statement_ok svcs ptr r c :
  stmt_valid svcs r -> compiled_from glob_Compile ptr r c -> statement_ok c.
Proof.
  intros Hv Hc. pose proof (statement_verb_string _ _ (cf_verb _ _ _ _ Hc)) as Hd.
  rewrite <- (cf_src _ _ _ _ Hc) in Hd. constructor.
  - intros Ha. rewrite Ha in Hd. rewrite (cf_timeout _ _ _ _ Hc), (cf_src _ _ _ _ Hc) in *.
    apply compiled_timeout_ok; [apply Hv|done].
  - by eapply redirect_rule_ok.
  - rewrite (cf_src _ _ _ _ Hc). apply statement_groups_expanded, Hc.
  - intros Ha. rewrite Ha in Hd. rewrite (cf_src _ _ _ _ Hc) in *. by apply Hv.
Qed.

Lemma compiled_connection_ok r c :
  conn_valid r -> compileConnectionRule glob_Compile template_Parse r = Ok c -> connection_ok c.
Proof.
  intros Hv (Hsrc & Hverb & Hkind & Ht)%compileConnectionRule_fields.
  pose proof (connection_verb_string _ _ Hverb) as Hd.
  pose proof (connection_kind_string _ _ Hkind) as Hk. constructor.
  - intros Hr. rewrite Hr in Hd. pose proof (cv_decision _ Hv) as Hin. rewrite Hd in Hin.
    revert Hin. decide_vm.
  - intros Hm Ha. rewrite Hm in Hk. rewrite Ha in Hd. by apply (cv_cancel _ Hv).
  - intros Ha. rewrite Ha in Hd. rewrite Ht. apply compiled_timeout_ok; [apply Hv|done].
Qed.

Lemma validated_service_ok id s :
  validateService s = [] -> svc_Name s = id -> service_ok id s.
Proof.
  unfold validateService. intros [Hm Hp]%app_nil Hn. rewrite when_nil in Hp.
  constructor; [done| |].
  - destruct (svc_TLSMode s ==? "") eqn:E0; [done|].
    destruct (svc_TLSMode s ==? "passthrough") eqn:E1; [bool_prop; set_solver|].
    destruct (svc_TLSMode s ==? "terminate_reissue") eqn:E2; [bool_prop; set_solver|].
    destruct (svc_TLSMode s ==? "terminate_plaintext_upstream") eqn:E3; [|done].
    bool_prop. set_solver.
  - intros Ht. rewrite bool_decide_eq_true_2 in Hp by done. simpl in Hp.
    apply andb_false_iff in Hp as [?|?]; bool_prop; auto.
Qed.

(** Phase C of [Decode] on validated rules. *)
Lemma compileRules_ok svcs stmt conn cs cc :
  (validate svcs stmt conn).2 = [] ->
  compileRules glob_Compile template_Parse stmt conn = Ok (cs, cc) ->
  NoDup (csr_ptr <$> cs) /\ (forall c, c ∈ cs -> statement_ok c) /\
  (forall c, c ∈ cc -> connection_ok c) /\
  (forall c, c ∈ cs -> csr_src c ∈ stmt /\ exists ptr, compiled_from glob_Compile ptr (csr_src c) c).
Proof.
  intros (_ & Hst & Hcn)%validate_ok H. unfold compileRules in H. result_steps H.
  injection H as -> ->. apply map_err_Ok, each_Ok in Hstep, Hstep0.
  assert (Hcs : Forall2 (fun p c => compiled_from glob_Compile p.1 p.2 c) (imap pair stmt) cs).
  { eapply Forall2_impl; [exact Hstep|]. intros p c. apply compileStatementRule_fields. }
  assert (Hin : forall c, c ∈ cs -> exists i r, r ∈ stmt /\ compiled_from glob_Compile i r c).
  { intros c Hc. apply list_elem_of_lookup in Hc as [k Hk].
    destruct (Forall2_lookup_r _ _ _ _ _ Hcs Hk) as ([i r] & Hp & Hf).
    exists i, r. split; [|done]. rewrite list_lookup_imap in Hp.
    destruct (stmt !! k) as [r'|] eqn:Er; simplify_eq/=. by eapply list_elem_of_lookup_2. }
  split; [|split; [|split]].
  - assert (Heq : csr_ptr <$> cs = seq 0 (length stmt)).
    { apply list_eq. intros k. rewrite list_lookup_fmap.
      pose proof (Forall2_length _ _ _ Hcs) as Hl. rewrite length_imap in Hl.
      destruct (cs !! k) as [c|] eqn:Ek; simpl.
      - destruct (Forall2_lookup_r _ _ _ _ _ Hcs Ek) as ([i r] & Hp & Hf).
        rewrite list_lookup_imap in Hp. destruct (stmt !! k) eqn:Er; simplify_eq/=.
        rewrite (cf_ptr _ _ _ _ Hf). symmetry. apply lookup_seq. split; [done|].
        by eapply lookup_lt_Some.
      - symmetry. apply lookup_ge_None. rewrite length_seq, Hl. by apply lookup_ge_None. }
    rewrite Heq. apply NoDup_seq.
  - intros c Hc. destruct (Hin c Hc) as (i & r & Hr & Hf). by eapply compiled_statement_ok; eauto.
  - intros c Hc. apply list_elem_of_lookup in Hc as [k Hk].
    destruct (Forall2_lookup_r _ _ _ _ _ Hstep0 Hk) as (r & Hr & Hf).
    eapply compiled_connection_ok; [|exact Hf]. apply Hcn. by eapply list_elem_of_lookup_2.
  - intros c Hc. destruct (Hin c Hc) as (i & r & Hr & Hf). rewrite (cf_src _ _ _ _ Hf). eauto.
Qed.

Context {Node : Type} (IsZero : Node -> bool).
Context (strictDecode_services : Node -> result string (gmap string DBService)).
Context (strictDecode_statement : Node -> result string (list StatementRule)).
Context (strictDecode_connection : Node -> result string (list ConnectionRule)).
Context (strictDecode_db : Node -> result string redactionYAML).

(** [Decode] with the libraries of this section. *)
Definition decode (p : option Policy) : result (derror * list Warning) (RuleSet * list Warning) :=
  Decode glob_Compile template_Parse IsZero strictDecode_services strictDecode_statement
    strictDecode_connection strictDecode_db p.

Lemma decodeServices_name n svcs :
  decodeServices IsZero strictDecode_services n = Ok svcs ->
  forall id s, svcs !! id = Some s -> svc_Name s = id.
Proof.
  unfold decodeServices. case_match; intros H' id s Hlk.
  - injection H' as <-. by rewrite lookup_empty in Hlk.
  - result_steps H'. injection H' as <-. rewrite map_lookup_imap in Hlk.
    by apply bind_Some in Hlk as (x & _ & [= <-]).
Qed.

Lemma decode_steps p rs ws :
  decode p = Ok (rs, ws) ->
  exists stmt conn, (validate (rs_services rs) stmt conn).2 = [] /\
    (forall id s, rs_services rs !! id = Some s -> svc_Name s = id) /\
    compileRules glob_Compile template_Parse stmt conn = Ok (rs_statement rs, rs_connection rs).
Proof.
  unfold decode, Decode. destruct p as [p|]; [|done]. intros H. result_steps H.
  rename a0 into stmt, a1 into conn. destruct (validate a stmt conn) as [warns errs] eqn:Ev.
  destruct (nonempty errs) eqn:Ee; [done|]. apply nonempty_false in Ee as ->.
  result_steps H. injection H as <- <-. cbn [rs_services rs_statement rs_connection].
  exists stmt, conn. rewrite Ev. split; [done|].
  split; [by eapply decodeServices_name, map_err_Ok|].
  destruct a0. by apply map_err_Ok in Hstep4.
Qed.

Lemma decode_ok p rs ws : decode p = Ok (rs, ws) -> ruleset_ok rs.
Proof.
  intros (stmt & conn & Hv & Hn & Hc)%decode_steps.
  destruct (compileRules_ok _ _ _ _ _ Hv Hc) as (Hnd & Hs & Hcn & _).
  constructor; try done. intros id s Hlk. apply validated_service_ok; [|by eapply Hn].
  by eapply validate_ok.
Qed.

End Libraries.
End DecodedInvariant.
Import DecodedInvariant.
Import DbPolicyTheorems.TheoremLemmas.

(** ** A concrete policy document *)
Module SampleDoc.

(** A YAML node, already typed. *)
Inductive node :=
| NZero
| NServices (m : gmap string DBService)
| NStatement (l : list StatementRule)
| NConnection (l : list ConnectionRule)
| NDb (y : redactionYAML).

Definition is_zero (n : node) : bool := match n with NZero => true | _ => false end.
Definition bad {A} : result string A := Err "cannot unmarshal".
Definition to_services (n : node) := match n with NServices m => Ok m | _ => bad end.
Definition to_statement (n : node) := match n with NStatement l => Ok l | _ => bad end.
Definition to_connection (n : node) := match n with NConnection l => Ok l | _ => bad end.
Definition to_db (n : node) := match n with NDb y => Ok y | _ => bad end.

(** Globs: a star, or a literal; an opening bracket is malformed. *)
Definition glob_lib (pat : string) : result string glob :=
  if pat ==? "*" then Ok (fun _ => true)
  else if pat ==? "[" then Err "unexpected end of pattern"
  else Ok (fun x => x ==? pat).

Definition template_lib (s : string) : result string template := Ok (fun _ => Ok s).

Definition pg : DBService :=
  {| svc_Name := ""; svc_Family := "postgres"; svc_Dialect := "postgres";
     svc_Upstream := "10.0.0.7:5432"; svc_TLSMode := "terminate_plaintext_upstream";
     svc_AllowFunctionCallProtocol := false; svc_AllowGSSEncryption := false;
     svc_TrustedNetwork := false |}.

Definition stmt_rule (name decision : string) (ops objects relations : list string) (res : string)
  (timeout : Z) (redirect : option string) : StatementRule :=
  {| sr_Name := name; sr_DBService := "pg"; sr_DBFamily := ""; sr_DBDialect := ""; sr_Schemas := [];
     sr_Objects := objects; sr_Relations := relations; sr_Functions := []; sr_Operations := ops;
     sr_Subtypes := []; sr_MatchObjectResolution := res; sr_RequireWhere := false;
     sr_Decision := decision; sr_Message := ""; sr_Timeout := timeout; sr_Redirect := redirect;
     sr_AcknowledgeAuditOnDangerous := false; sr_DenyModeInTx := "" |}.

Definition conn_rule (name kind decision : string) : ConnectionRule :=
  {| cr_Name := name; cr_DBService := "pg"; cr_MatchKind := kind; cr_DBUser := [];
     cr_Database := ""; cr_ApplicationName := ""; cr_ClientIdentity := ""; cr_Decision := decision;
     cr_Message := ""; cr_Timeout := 0 |}.

Definition stmts : list StatementRule :=
  [ stmt_rule "reads" "audit" ["READ"] ["*"] [] "" 0 None;
    stmt_rule "users" "approve" ["READ"] ["users"] [] "" 0 None;
    stmt_rule "moved" "redirect" ["READ"] [] ["public.old"] "catalog_resolved" 0
      (Some "public.new");
    stmt_rule "odd" "approve" ["unknown"] [] [] "" 0 None ].

Definition conns : list ConnectionRule :=
  [ conn_rule "in" "connect" "approve"; conn_rule "stop" "cancel" "allow" ].

Definition document : Policy (Node := node) :=
  {| p_DBServices := NServices {[ "pg" := pg ]}; p_DatabaseRules := NStatement stmts;
     p_DatabaseConnectionRules := NConnection conns; p_Policies := NZero |}.

Definition decoded : result (derror * list Warning) (RuleSet * list Warning) :=
  decode glob_lib template_lib is_zero to_services to_statement to_connection to_db (Some document).

Definition rs : RuleSet :=
  match decoded with
  | Ok (rs, _) => rs
  | Err _ => {| rs_services := ∅; rs_statement := []; rs_connection := [];
                rs_redaction := RedactionConfig_zero; rs_unavoidability := UnavoidabilityOff |}
  end.

(** Validation gives no error and the document decodes without warning. *)
Lemma decoded_ok : decoded = Ok (rs, []).
Proof.
  assert (H : match decoded with Ok (_, []) => true | _ => false end = true)
    by (vm_compute; reflexivity).
  unfold rs. destruct decoded as [[r [|w ws]]|]; done.
Qed.

Definition old_ref : ResolvedObjectRef :=
  {| ro_Source := ResolvedObjectSourceCatalog; ro_Kind := ResolvedObjectRelation; ro_OID := 16384;
     ro_Schema := "public"; ro_Name := "old"; ro_RelationKind := "r";
     ro_FunctionIdentityArgs := ""; ro_FunctionVolatility := ""; ro_UnresolvedReason := "" |}.

Definition select_old : ClassifiedStatement :=
  Sample.stmt [{| e_Group := GroupRead; e_Subtype := SubtypeNone; e_Objects := [Sample.table "old"];
                  e_ResolvedObjects := [old_ref]; e_Resolution := ResolutionCatalogResolved;
                  e_HasWhere := false; e_FunctionOID := None |}].

Definition unknown_stmt : ClassifiedStatement :=
  Sample.stmt [Sample.effect GroupUnknown ["t"]].

Example decoded_decisions :
  (fun s => d_Verb (Evaluate s (Some rs) "pg")) <$>
    [Sample.select ["t"]; Sample.select ["users"]; select_old; unknown_stmt] =
  [VerbAudit; VerbApprove; VerbRedirect; VerbApprove].
Proof. vm_compute. reflexivity. Qed.

End SampleDoc.

(** ** Theorems on decoded policies *)
Module DecodeTheorems.

Section Libraries.
Context (glob_Compile : string -> result string glob).
Context (template_Parse : string -> result string template).
Context {Node : Type} (IsZero : Node -> bool).
Context (strictDecode_services : Node -> result string (gmap string DBService)).
Context (strictDecode_statement : Node -> result string (list StatementRule)).
Context (strictDecode_connection : Node -> result string (list ConnectionRule)).
Context (strictDecode_db : Node -> result string redactionYAML).

Local Notation decode := (decode glob_Compile template_Parse IsZero strictDecode_services
  strictDecode_statement strictDecode_connection strictDecode_db).

(** Validation is complete for the compiler: rules that validate without error compile, or
    fail on a malformed glob or message template; none of the compiler's other error returns
    ("validate should have rejected") is reachable. *)
Theorem validated_rules_compile svcs stmt conn :
  (validate svcs stmt conn).2 = [] ->
  match compileRules glob_Compile template_Parse stmt conn with
  | Ok _ => True
  | Err e => exists c, e = CompileError c /\ library_error c
  end.
Proof.
  intros (_ & Hst & Hcn)%validate_ok. unfold compileRules.
  set (m := each (fun p => compileStatementRule glob_Compile template_Parse p.1 p.2)
              (imap pair stmt)).
  assert (Hm : only_library m).
  { apply only_library_each. intros [i r] Hin. apply elem_of_lookup_imap in Hin as (k & x & [= -> ->] & Hk).
    eapply compileStatementRule_lib, Hst. by eapply list_elem_of_lookup_2. }
  assert (Hc : only_library (each (compileConnectionRule glob_Compile template_Parse) conn)).
  { apply only_library_each. intros r Hr. by apply compileConnectionRule_lib, Hcn. }
  destruct m as [cs|e]; simpl; [|by eauto].
  destruct (each _ conn) as [cc|e]; simpl; [done|by eauto].
Qed.

(** C7. Every rule set [Decode] returns is well formed: its rules are distinct objects; approve
    rules have a non-zero timeout of at most ten minutes; redirect rules have canonical source and
    target relations, cover only reads and match only catalog-resolved effects; an allow rule with
    the wildcard operation is scoped; no connection rule redirects and no cancel rule asks for
    approval; and a service spoken to in plaintext is on a trusted network or on a loopback or
    private address. *)
Theorem Decode_ruleset_ok p rs ws : decode p = Ok (rs, ws) -> ruleset_ok rs.
Proof. apply decode_ok. Qed.

(** C40. With a decoded policy, the approval of an approve decision is bounded: a statement or
    connection held for approval carries a non-zero timeout of at most ten minutes, and a cancel
    request is never held. *)
Theorem Decode_approval_bounded p rs ws :
  decode p = Ok (rs, ws) ->
  (forall stmt svc, d_Verb (Evaluate stmt (Some rs) svc) = VerbApprove ->
     exists a, d_Approval (Evaluate stmt (Some rs) svc) = Some a /\
       ar_Timeout a <= approveTimeoutMax /\ ar_Timeout a <> 0) /\
  (forall info, d_Verb (EvaluateConnection info (Some rs)) = VerbApprove ->
     ci_MatchKind info <> MatchCancel /\
     exists a, d_Approval (EvaluateConnection info (Some rs)) = Some a /\
       ar_Timeout a <= approveTimeoutMax /\ ar_Timeout a <> 0).
Proof.
  intros Hrs%decode_ok. split.
  - intros stmt svc Hv.
    destruct (approval_of_winner stmt rs svc (ro_wf _ Hrs) Hv)
      as (e & a & _ & Ha & _ & (r & Hc & Hr & Ht) & _).
    exists a. split; [done|]. rewrite <- Ht. apply (so_approve r); [|done]. apply (ro_statement _ Hrs).
    by apply covering_in, statementRulesFor_elem in Hc as [? _].
  - intros info. unfold EvaluateConnection.
    destruct (List.filter (connRuleApplies info) (rs_connection rs)) as [|r0 rest] eqn:Ef; [done|].
    set (best := pick_max _ r0 rest). simpl. intros Hv.
    assert (Hin : best ∈ rs_connection rs /\ connRuleApplies info best = true).
    { rewrite list_elem_of_In, <- filter_In, Ef, <- list_elem_of_In. apply pick_max_elem. }
    destruct Hin as [Hin Happ]. pose proof (ro_connection _ Hrs _ Hin) as Hok. split.
    + intros Hm. apply (co_cancel _ Hok); [|done].
      unfold connRuleApplies in Happ. rewrite Hm in Happ.
      destruct (ccr_matchKind best !=? MatchCancel) eqn:Ek; [done|]. by bool_prop.
    + rewrite Hv. eexists. split; [done|]. simpl. by apply co_approve.
Qed.

(** With a decoded policy, and globs that match a plain [schema.name] pattern literally, a
    redirect is only decided for a catalog-resolved read one of whose objects resolves to exactly
    the source relation of the redirect, and both relations of the redirect are canonical
    [schema.name] names. *)
Theorem Decode_redirect_exact p rs ws stmt svc :
  (forall s, isCanonicalRelationName s = true ->
     exists g, glob_Compile s = Ok g /\ forall x, g x = (x ==? s)) ->
  decode p = Ok (rs, ws) ->
  d_Verb (Evaluate stmt (Some rs) svc) = VerbRedirect ->
  exists e i res rd, e ∈ cs_Effects stmt /\ e_Group e = GroupRead /\
    e_Resolution e = ResolutionCatalogResolved /\ resolvedObjectForSlot e i = Some res /\
    ro_Source res = ResolvedObjectSourceCatalog /\ ro_Kind res = ResolvedObjectRelation /\
    d_Redirect (Evaluate stmt (Some rs) svc) = Some rd /\
    CanonicalName res = rd_SourceRelation rd /\
    isCanonicalRelationName (rd_SourceRelation rd) = true /\
    isCanonicalRelationName (rd_TargetRelation rd) = true.
Proof.
  intros Hglob Hdec Hv. pose proof (decode_ok _ _ _ _ _ _ _ _ _ _ Hdec) as Hrs.
  destruct (redirect_of_winner stmt rs svc (ro_wf _ Hrs) Hv)
    as (e & r & He & Hc & Hr & _ & Hrd & _).
  assert (Hin : r ∈ rs_statement rs).
  { by apply covering_in, statementRulesFor_elem in Hc as [? _]. }
  destruct (so_redirect _ (ro_statement _ Hrs r Hin) Hr) as (src & tgt & Hk).
  assert (Hrel : exists g, csr_relations r = [g] /\ forall x, g x = (x ==? src)).
  { apply decode_steps in Hdec as (stm & conn & Hval & _ & Hcomp).
    destruct (compileRules_ok _ _ _ _ _ _ _ Hval Hcomp) as (_ & _ & _ & Hfrom).
    destruct (Hfrom r Hin) as (_ & ptr & Hcf). pose proof (cf_relations _ _ _ _ Hcf) as Hrel.
    rewrite (rk_relations _ _ _ Hk) in Hrel. destruct (Hglob src (rk_source _ _ _ Hk)) as (g & Hg & Hx).
    simpl in Hrel. unfold compile_glob in Hrel. rewrite Hg in Hrel. simpl in Hrel.
    injection Hrel as <-. by exists g. }
  destruct Hrel as (g & Hg & Hlit).
  destruct Hc as (_ & t & Ht & (_ & Hmeta & Hhit)).
  unfold ruleMatchesEffectMeta in Hmeta. rewrite (rk_read _ _ _ Hk) in Hmeta.
  unfold matchesResolution in Hmeta. rewrite (rk_resolution _ _ _ Hk) in Hmeta. simpl in Hmeta.
  destruct (bool_decide (e_Group e ∈ _)) eqn:Egr; [|done]. bool_prop.
  apply elem_of_singleton in Egr. simpl in Hmeta.
  destruct (ResolutionCatalogResolved ==? e_Resolution e) eqn:Ere; [|by repeat case_match].
  bool_prop. clear Hmeta.
  assert (Hsel : hasObjectSelectors r = true).
  { unfold hasObjectSelectors. by rewrite Hg, (rk_objects _ _ _ Hk). }
  unfold effect_targets in Ht. destruct (nonempty (e_Objects e)).
  2:{ unfold isResolvedOnlyFunctionEffect in Ht. rewrite Egr in Ht. simpl in Ht.
      rewrite orb_true_r in Ht. destruct (isObjectlessEffect e); [|done].
      destruct Ht as [<-|[]]. unfold coversAllObjects in Hhit. by rewrite Hsel in Hhit. }
  apply list_elem_of_In, elem_of_lookup_imap in Ht as (i & o & -> & Ho).
  unfold slot_matched, ruleMatchesObjectSlot in Hhit.
  rewrite Ho, Hsel, (rk_objects _ _ _ Hk) in Hhit. simpl in Hhit.
  destruct (schemaMatchesObjectSlot _ _ _); [|done]. simpl in Hhit.
  destruct (resolvedObjectForSlot e i) as [res|] eqn:Eres; [|done].
  assert (Hf : functionMatches r res = false).
  { unfold functionMatches. by rewrite (rk_functions _ _ _ Hk). }
  rewrite Hf in Hhit. destruct (relationMatches r res) eqn:Erm; [|done].
  unfold relationMatches in Erm. rewrite Hg in Erm. simpl in Erm.
  destruct (_ || _) eqn:Eor in Erm; [done|]. bool_prop.
  destruct Erm as [Erm|]; [|done]. rewrite Hlit in Erm. bool_prop.
  exists e, i, res, {| rd_SourceRelation := src; rd_TargetRelation := tgt |}.
  rewrite Hrd, (rk_action _ _ _ Hk). repeat split; try done; apply Hk.
Qed.

(** An effect the classifier could not name is denied unless the policy speaks of it: with a
    decoded policy, a statement with an [unknown] effect is only let through (or held) when a
    matching non-deny rule lists the operation "unknown" itself; no alias and no wildcard
    reaches it. *)
Theorem Decode_unknown_needs_mention p rs ws stmt svc e :
  decode p = Ok (rs, ws) -> e ∈ cs_Effects stmt -> e_Group e = GroupUnknown ->
  d_Verb (Evaluate stmt (Some rs) svc) <> VerbDeny ->
  exists r, r ∈ statementRulesFor rs svc /\ csr_verb r <> VerbDeny /\
    "unknown" ∈ sr_Operations (csr_src r).
Proof.
  intros Hrs%decode_ok He Hg Hv.
  destruct (fail_closed stmt (Some rs) svc) as (rs' & [= <-] & _ & Hall); [|done|].
  { intros rs' [= <-]. apply Hrs. }
  destruct (Hall e He) as (_ & Hne & Hcov).
  destruct (effect_targets e) as [|t ts]; [done|].
  destruct (Hcov t (or_introl eq_refl)) as (r & Hr & (Hin & Hm & _)). exists r.
  split; [done|]. split; [done|].
  unfold ruleMatchesEffectMeta in Hm. destruct (bool_decide (e_Group e ∈ _)) eqn:Eg; [|done].
  bool_prop. rewrite Hg in Eg.
  apply statementRulesFor_elem in Hin as [Hin _].
  rewrite (so_groups _ (ro_statement _ Hrs r Hin)) in Eg. unfold expandedGroups in Eg.
  apply elem_of_list_to_set, list_elem_of_In, in_concat in Eg as (gs & Hgs & Hu).
  apply list_elem_of_In, list_elem_of_omap in Hgs as (op & Hop & Hex).
  apply list_elem_of_In in Hu. by rewrite <- (EffectFacts.ExpandAlias_unknown op gs Hex Hu).
Qed.

End Libraries.

Import SampleDoc.

Lemma validated_rules_compile_witness :
  match compileRules glob_lib template_lib stmts conns with
  | Ok _ => True
  | Err e => exists c, e = CompileError c /\ library_error c
  end.
Proof.
  apply (validated_rules_compile glob_lib template_lib {[ "pg" := pg ]}).
  vm_compute. reflexivity.
Defined.

Lemma Decode_ruleset_ok_witness : ruleset_ok rs.
Proof.
  apply (Decode_ruleset_ok glob_lib template_lib is_zero to_services to_statement to_connection
           to_db (Some document) rs []). apply decoded_ok.
Defined.

Lemma Decode_approval_bounded_witness :
  exists a, d_Approval (Evaluate (Sample.select ["users"]) (Some rs) "pg") = Some a /\
    ar_Timeout a <= approveTimeoutMax /\ ar_Timeout a <> 0.
Proof.
  apply (proj1 (Decode_approval_bounded glob_lib template_lib is_zero to_services to_statement
                  to_connection to_db (Some document) rs [] decoded_ok)).
  vm_compute. reflexivity.
Defined.

Lemma Decode_redirect_exact_witness :
  exists e i res rd, e ∈ cs_Effects select_old /\ e_Group e = GroupRead /\
    e_Resolution e = ResolutionCatalogResolved /\ resolvedObjectForSlot e i = Some res /\
    ro_Source res = ResolvedObjectSourceCatalog /\ ro_Kind res = ResolvedObjectRelation /\
    d_Redirect (Evaluate select_old (Some rs) "pg") = Some rd /\
    CanonicalName res = rd_SourceRelation rd /\
    isCanonicalRelationName (rd_SourceRelation rd) = true /\
    isCanonicalRelationName (rd_TargetRelation rd) = true.
Proof.
  apply (Decode_redirect_exact glob_lib template_lib is_zero to_services to_statement
           to_connection to_db (Some document) rs []).
  - intros s Hs. unfold glob_lib. destruct (s ==? "*") eqn:E1.
    { bool_prop. subst s. by vm_compute in Hs. }
    destruct (s ==? "[") eqn:E2; [bool_prop; subst s; by vm_compute in Hs|]. by eexists.
  - apply decoded_ok.
  - vm_compute. reflexivity.
Defined.

Lemma Decode_unknown_needs_mention_witness :
  exists r, r ∈ statementRulesFor rs "pg" /\ csr_verb r <> VerbDeny /\
    "unknown" ∈ sr_Operations (csr_src r).
Proof.
  apply (Decode_unknown_needs_mention glob_lib template_lib is_zero to_services to_statement
           to_connection to_db (Some document) rs [] unknown_stmt "pg"
           (Sample.effect GroupUnknown ["t"])).
  - apply decoded_ok.
  - left.
  - reflexivity.
  - by vm_compute.
Defined.

End DecodeTheorems.
