(* ===== verification/PreparedCache.v ===== *)
(** * Prepared-statement cache ([internal/db/proxy/postgres/preparedcache])

    The per-connection LRU cache of [cache.go], at the level of its data structures: a
    [container/list] of elements (here the list of their addresses, front first), the items the
    elements point to, and the map from names to elements.  The methods run under the cache's
    mutex, so each is one atomic step.  The abstract cache is the list of entries from the most to
    the least recently used; [Refinement] shows that the pointer structure implements it. *)

From Stdlib Require Import ZArith Lia Ascii String.
From stdpp Require Import base list strings gmap.
From S2P Require Import Prelude.
Open Scope string_scope.
Open Scope list_scope.
Open Scope Z_scope.

(** ** The cache as written *)
Module Cache.

Definition DefaultCapacity : Z := 4096.

Record cacheItem (E : Type) := mkItem { ci_key : string; ci_value : E }.
Arguments mkItem {E} _ _.
Arguments ci_key {E} _.
Arguments ci_value {E} _.

(** [c_order]: the element addresses of [order], front (most recently used) first;
    [c_items]: what the addresses hold; [c_next]: the next fresh address. *)
Record Cache (E : Type) := mkCache {
  c_cap : Z;
  c_order : list nat;
  c_items : gmap nat (cacheItem E);
  c_byKey : gmap string nat;
  c_next : nat
}.
Arguments mkCache {E} _ _ _ _ _.
Arguments c_cap {E} _.
Arguments c_order {E} _.
Arguments c_items {E} _.
Arguments c_byKey {E} _.
Arguments c_next {E} _.

Section Ops.
Context {E : Type}.
Implicit Types (c : Cache E) (name : string) (el : nat).

Definition New (capacity : Z) : Cache E :=
  mkCache (if capacity <=? 0 then DefaultCapacity else capacity) [] ∅ ∅ 0.

(** [list.Remove]: unlink the element. *)
Definition unlink el (order : list nat) : list nat := filter (fun x => x <> el) order.

(** [list.MoveToFront]. *)
Definition MoveToFront el (order : list nat) : list nat := el :: unlink el order.

Definition set_order c (order : list nat) : Cache E :=
  mkCache (c_cap c) order (c_items c) (c_byKey c) (c_next c).

Definition Put c name (e : E) : Cache E :=
  match c_byKey c !! name with
  | Some el =>
    mkCache (c_cap c) (MoveToFront el (c_order c)) (alter (fun it => mkItem (ci_key it) e) el (c_items c))
      (c_byKey c) (c_next c)
  | None =>
    let el := c_next c in
    let order := el :: c_order c in
    let items := <[el := mkItem name e]> (c_items c) in
    let byKey := <[name := el]> (c_byKey c) in
    if c_cap c <? Z.of_nat (length order) then
      match last order with
      | Some oldest =>
        match items !! oldest with
        | Some ci => mkCache (c_cap c) (unlink oldest order) items (delete (ci_key ci) byKey) (S el)
        | None => mkCache (c_cap c) order items byKey (S el)
        end
      | None => mkCache (c_cap c) order items byKey (S el)
      end
    else mkCache (c_cap c) order items byKey (S el)
  end.

(** The entry, [None] on a miss, and the cache after promotion. *)
Definition Get c name : option E * Cache E :=
  match c_byKey c !! name with
  | None => (None, c)
  | Some el => (ci_value <$> c_items c !! el, set_order c (MoveToFront el (c_order c)))
  end.

Definition Delete c name : Cache E :=
  match c_byKey c !! name with
  | None => c
  | Some el => mkCache (c_cap c) (unlink el (c_order c)) (c_items c) (delete name (c_byKey c))
                 (c_next c)
  end.

Definition Clear c : Cache E := mkCache (c_cap c) [] (c_items c) ∅ (c_next c).

Definition Len c : nat := length (c_order c).

End Ops.
End Cache.

(** ** The abstract cache: entries from most to least recently used *)
Module Lru.
Section Lru.
Context {E : Type}.
Implicit Types (l : list (string * E)).

Fixpoint find l (k : string) : option E :=
  match l with
  | [] => None
  | (k', v) :: l' => if k' ==? k then Some v else find l' k
  end.

Definition remove l (k : string) : list (string * E) := filter (fun p => p.1 <> k) l.

(** The new entry in front; what no longer fits falls off the end. *)
Definition put (cap : Z) l (k : string) (v : E) : list (string * E) :=
  take (Z.to_nat cap) ((k, v) :: remove l k).

Definition promote l (k : string) : list (string * E) :=
  match find l k with Some v => (k, v) :: remove l k | None => l end.

Lemma find_remove_eq l k : find (remove l k) k = None.
Proof.
  unfold remove. induction l as [|[k' v] l IH]; [done|]. rewrite filter_cons. case_decide; [|done].
  simpl in *. by rewrite bool_decide_eq_false_2.
Qed.

Lemma find_remove_ne l k k' : k <> k' -> find (remove l k) k' = find l k'.
Proof.
  intros Hne. unfold remove. induction l as [|[k0 v] l IH]; [done|].
  rewrite filter_cons. simpl. case_decide as Hd; simpl in *; rewrite IH; [done|].
  rewrite bool_decide_eq_false_2; [done|]. intros ->. congruence.
Qed.

Lemma remove_id l k : find l k = None -> remove l k = l.
Proof.
  unfold remove. induction l as [|[k' v'] l IH]; simpl; [done|]. case_bool_decide as Hk; [done|].
  intros Hf. rewrite filter_cons_True by done. by rewrite IH.
Qed.

End Lru.
End Lru.

(** ** Refinement *)
Module Refinement.
Import Cache.

Section Refinement.
Context {E : Type}.
Implicit Types (c : Cache E) (k : string).

(** The entries in order of use. *)
Definition entry_of (items : gmap nat (cacheItem E)) (el : nat) : option (string * E) :=
  (fun it => (ci_key it, ci_value it)) <$> items !! el.

Definition abs c : list (string * E) := omap (entry_of (c_items c)) (c_order c).

(** Elements of the list and entries of the map are in bijection. *)
Record cache_ok c : Prop := {
  ok_cap : 0 < c_cap c;
  ok_nodup : NoDup (c_order c);
  ok_elem : forall el, el ∈ c_order c ->
    exists it, c_items c !! el = Some it /\ c_byKey c !! ci_key it = Some el;
  ok_key : forall k el, c_byKey c !! k = Some el ->
    el ∈ c_order c /\ exists it, c_items c !! el = Some it /\ ci_key it = k;
  ok_fresh : forall el, el ∈ c_order c -> (el < c_next c)%nat;
  ok_len : Z.of_nat (length (c_order c)) <= c_cap c
}.

Lemma New_ok n : cache_ok (New n).
Proof.
  assert (0 < c_cap (@New E n)).
  { simpl. unfold DefaultCapacity. destruct (Z.leb_spec n 0); lia. }
  constructor; try done.
  - constructor.
  - intros el Hel. by apply not_elem_of_nil in Hel.
  - intros el Hel. by apply not_elem_of_nil in Hel.
  - simpl in *. lia.
Qed.

Lemma elem_unlink el x order : x ∈ unlink el order <-> x <> el /\ x ∈ order.
Proof. unfold unlink. rewrite list_elem_of_filter. tauto. Qed.

Lemma unlink_not_in el order : el ∉ order -> unlink el order = order.
Proof.
  unfold unlink. induction order as [|x order IH]; [done|]. intros Hni.
  rewrite filter_cons_True by set_solver. f_equal. apply IH. set_solver.
Qed.

Lemma length_unlink el order :
  NoDup order -> el ∈ order -> length order = S (length (unlink el order)).
Proof.
  induction order as [|x order IH]; [set_solver|].
  rewrite NoDup_cons. intros [Hni Hnd] Hin. unfold unlink. rewrite filter_cons.
  case_decide as Hx; simpl.
  - f_equal. apply IH; [done|]. set_solver.
  - assert (x = el) as -> by (destruct (decide (x = el)); tauto).
    f_equal. fold (unlink el order). by rewrite unlink_not_in.
Qed.

Lemma NoDup_MoveToFront el order : NoDup order -> NoDup (MoveToFront el order).
Proof.
  intros. apply NoDup_cons. split; [rewrite elem_unlink; tauto|by apply NoDup_filter].
Qed.

Lemma elem_MoveToFront el x order : el ∈ order -> x ∈ MoveToFront el order <-> x ∈ order.
Proof.
  intros. unfold MoveToFront. rewrite elem_of_cons, elem_unlink.
  destruct (decide (x = el)); naive_solver.
Qed.

(** Looking a name up in the map is looking it up in the abstract list. *)
Lemma find_order c order el it :
  (forall x, x ∈ order ->
     exists it, c_items c !! x = Some it /\ c_byKey c !! ci_key it = Some x) ->
  el ∈ order -> c_items c !! el = Some it ->
  Lru.find (omap (entry_of (c_items c)) order) (ci_key it) = Some (ci_value it).
Proof.
  intros Hall. induction order as [|x order IH]; [set_solver|]. intros Hin Hit.
  destruct (Hall x) as (itx & Hx & Hbx); [left|]. simpl. unfold entry_of at 1. rewrite Hx. simpl.
  case_bool_decide as Hk.
  - destruct (Hall el Hin) as (it' & Hit' & Hb). simplify_eq. rewrite Hk in Hbx. congruence.
  - apply IH; [intros y Hy; apply Hall; by right| |done].
    apply elem_of_cons in Hin as [->|]; [|done]. congruence.
Qed.

Lemma find_none c k :
  cache_ok c -> c_byKey c !! k = None -> Lru.find (abs c) k = None.
Proof.
  intros Hok Hk. unfold abs. pose proof (ok_elem _ Hok) as Hall.
  induction (c_order c) as [|x order IH]; simpl; [done|].
  destruct (Hall x) as (itx & Hx & Hbx); [left|]. unfold entry_of at 1. rewrite Hx. simpl.
  case_bool_decide; [congruence|]. apply IH. intros y Hy. apply Hall. by right.
Qed.

Lemma find_some c k el :
  cache_ok c -> c_byKey c !! k = Some el ->
  exists it, c_items c !! el = Some it /\ ci_key it = k /\ el ∈ c_order c /\
    Lru.find (abs c) k = Some (ci_value it).
Proof.
  intros Hok Hk. destruct (ok_key _ Hok k el Hk) as (Hin & it & Hit & <-). exists it.
  repeat split; try done. eapply find_order; [apply Hok|done..].
Qed.

(** Unlinking an element removes its entry. *)
Lemma omap_unlink c (items : gmap nat (cacheItem E)) el it order :
  (forall x, x ∈ order ->
     exists it, c_items c !! x = Some it /\ c_byKey c !! ci_key it = Some x) ->
  c_items c !! el = Some it -> el ∈ order ->
  (forall x, x <> el -> items !! x = c_items c !! x) ->
  omap (entry_of items) (unlink el order) =
  Lru.remove (omap (entry_of (c_items c)) order) (ci_key it).
Proof.
  intros Hall Hit Hel Hsame. unfold unlink, Lru.remove.
  destruct (Hall el Hel) as (it' & Hit' & Hbel). rewrite Hit in Hit'. injection Hit' as <-.
  clear Hel. induction order as [|x order IH]; [done|].
  destruct (Hall x) as (itx & Hx & Hbx); [left|].
  assert (Hrest : forall y, y ∈ order ->
     exists it, c_items c !! y = Some it /\ c_byKey c !! ci_key it = Some y)
    by (intros y Hy; apply Hall; by right).
  specialize (IH Hrest). simpl. unfold entry_of at 2. rewrite Hx. simpl.
  destruct (decide (x = el)) as [->|Hne].
  - rewrite filter_cons_False by tauto. rewrite filter_cons_False; [|simpl; congruence].
    exact IH.
  - rewrite filter_cons_True by done.
    rewrite filter_cons_True by (simpl; intros Hk; rewrite Hk in Hbx; congruence).
    simpl. unfold entry_of at 1. simpl. rewrite Hsame, Hx by done. simpl. f_equal. exact IH.
Qed.

(** Entries of elements the update does not touch. *)
Lemma omap_entry_same (i1 i2 : gmap nat (cacheItem E)) (order : list nat) :
  (forall x, x ∈ order -> i1 !! x = i2 !! x) ->
  omap (entry_of i1) order = omap (entry_of i2) order.
Proof.
  induction order as [|x order IH]; intros H; simpl; [done|].
  assert (IH' := IH (fun y Hy => H y (list_elem_of_further _ _ _ Hy))).
  assert (Hx : entry_of i1 x = entry_of i2 x) by (unfold entry_of; by rewrite (H x) by left).
  rewrite Hx. destruct (entry_of i2 x); [f_equal|]; exact IH'.
Qed.

Lemma length_abs c : cache_ok c -> length (abs c) = length (c_order c).
Proof.
  intros Hok. unfold abs. pose proof (ok_elem _ Hok) as Hall.
  induction (c_order c) as [|x order IH]; simpl; [done|].
  destruct (Hall x) as (it & Hit & _); [left|]. unfold entry_of at 1. rewrite Hit. simpl. f_equal.
  apply IH. intros y Hy. apply Hall. by right.
Qed.

Lemma Get_refines c k :
  cache_ok c ->
  cache_ok (Get c k).2 /\ (Get c k).1 = Lru.find (abs c) k /\
  abs (Get c k).2 = Lru.promote (abs c) k.
Proof.
  intros Hok. unfold Get, Lru.promote. destruct (c_byKey c !! k) as [el|] eqn:Ek; simpl.
  - destruct (find_some c k el Hok Ek) as (it & Hit & Hk & Hin & Hf). rewrite Hf, Hit.
    split; [|split; [done|]].
    + destruct Hok. constructor; simpl; try done.
      * by apply NoDup_MoveToFront.
      * intros x. rewrite elem_MoveToFront by done. auto.
      * intros k' el' Hk'. rewrite elem_MoveToFront by done. auto.
      * intros x. rewrite elem_MoveToFront by done. auto.
      * by rewrite <- length_unlink.
    + unfold abs. simpl. unfold MoveToFront. simpl. unfold entry_of at 1. rewrite Hit. simpl. rewrite Hk. f_equal.
      rewrite (omap_unlink c (c_items c) el it) by (done || apply Hok). by rewrite Hk.
  - by rewrite find_none.
Qed.

Lemma Delete_refines c k :
  cache_ok c -> cache_ok (Delete c k) /\ abs (Delete c k) = Lru.remove (abs c) k.
Proof.
  intros Hok. unfold Delete. destruct (c_byKey c !! k) as [el|] eqn:Ek.
  - destruct (find_some c k el Hok Ek) as (it & Hit & Hk & Hin & Hf).
    split; [|unfold abs; simpl; rewrite (omap_unlink c (c_items c) el it) by (done || apply Hok);
             by rewrite Hk].
    pose proof (length_unlink el _ (ok_nodup _ Hok) Hin). destruct Hok.
    constructor; simpl; try done.
    + by apply NoDup_filter.
    + intros x [Hne Hx]%elem_unlink. destruct (ok_elem0 x Hx) as (itx & Hitx & Hb).
      exists itx. split; [done|]. rewrite lookup_delete_ne; [done|]. congruence.
    + intros k' el' [Hne Hk']%lookup_delete_Some. destruct (ok_key0 k' el' Hk') as (? & it' & ? & ?).
      split; [|by eauto]. apply elem_unlink. split; [|done]. congruence.
    + intros x [_ Hx]%elem_unlink. auto.
    + lia.
  - split; [done|]. rewrite Lru.remove_id; [done|]. by apply find_none.
Qed.

Lemma Clear_refines c : cache_ok c -> cache_ok (Clear c) /\ abs (Clear c) = [].
Proof.
  intros [? ? ? ? ? ?]. split; [|done]. constructor; simpl; try done.
  - constructor.
  - intros el Hel. by apply not_elem_of_nil in Hel.
  - intros el Hel. by apply not_elem_of_nil in Hel.
  - lia.
Qed.

Lemma last_snoc_unlink order (el oldest : nat) :
  NoDup (el :: order) -> last (el :: order) = Some oldest ->
  exists pre, el :: order = pre ++ [oldest] /\ unlink oldest (el :: order) = pre /\ oldest ∉ pre.
Proof.
  intros Hnd Hl. apply last_Some in Hl as [pre Hpre]. exists pre. split; [done|].
  rewrite Hpre in *. apply NoDup_app in Hnd as (Hnd & Hdis & _).
  assert (Hni : oldest ∉ pre) by (intros Hi; apply (Hdis _ Hi); left).
  split; [|done]. unfold unlink. rewrite filter_app.
  fold (unlink oldest pre). rewrite (unlink_not_in _ _ Hni).
  rewrite filter_cons_False by tauto. by rewrite filter_nil, app_nil_r.
Qed.

(** A new name before any eviction: the state after [PushFront]. *)
Definition pushed c k (e : E) : Cache E :=
  mkCache (c_cap c) (c_next c :: c_order c) (<[c_next c := mkItem k e]> (c_items c))
    (<[k := c_next c]> (c_byKey c)) (S (c_next c)).

Lemma pushed_elem c k e :
  cache_ok c -> c_byKey c !! k = None ->
  NoDup (c_order (pushed c k e)) /\
  (forall x, x ∈ c_order (pushed c k e) -> exists it, c_items (pushed c k e) !! x = Some it /\
     c_byKey (pushed c k e) !! ci_key it = Some x) /\
  (forall k' el, c_byKey (pushed c k e) !! k' = Some el -> el ∈ c_order (pushed c k e) /\
     exists it, c_items (pushed c k e) !! el = Some it /\ ci_key it = k') /\
  abs (pushed c k e) = (k, e) :: abs c.
Proof.
  intros Hok Hk. simpl. assert (Hfresh : c_next c ∉ c_order c).
  { intros Hin. pose proof (ok_fresh _ Hok _ Hin). lia. }
  split; [apply NoDup_cons; split; [done|apply Hok]|]. split; [|split].
  - intros x [->|Hx]%elem_of_cons.
    { exists (mkItem k e). by rewrite !lookup_insert_eq. }
    destruct (ok_elem _ Hok x Hx) as (it & Hit & Hb). exists it.
    rewrite !lookup_insert_ne; [done|congruence|congruence].
  - intros k' el. rewrite lookup_insert_Some. intros [[<- <-]|[Hne Hb]].
    { split; [left|]. exists (mkItem k e). by rewrite lookup_insert_eq. }
    destruct (ok_key _ Hok k' el Hb) as (Hin & it & Hit & Hki).
    split; [by right|]. exists it. rewrite lookup_insert_ne; [done|]. intros <-. done.
  - unfold abs. simpl. unfold entry_of at 1. rewrite lookup_insert_eq. simpl. f_equal.
    apply omap_entry_same. intros x Hx. rewrite lookup_insert_ne; [done|]. intros <-. done.
Qed.

(** Removing a present entry shortens the list by one. *)
Lemma length_remove c k el :
  cache_ok c -> c_byKey c !! k = Some el -> S (length (Lru.remove (abs c) k)) = length (abs c).
Proof.
  intros Hok Ek. destruct (find_some c k el Hok Ek) as (it & _ & _ & Hin & _).
  destruct (Delete_refines c k Hok) as [Hd <-]. rewrite !length_abs by done.
  unfold Delete. rewrite Ek. simpl. by rewrite (length_unlink el _ (ok_nodup _ Hok) Hin).
Qed.

Lemma Put_update c k e el :
  cache_ok c -> c_byKey c !! k = Some el ->
  cache_ok (Put c k e) /\ abs (Put c k e) = (k, e) :: Lru.remove (abs c) k.
Proof.
  intros Hok Ek. unfold Put. rewrite Ek.
  destruct (find_some c k el Hok Ek) as (it & Hit & Hk & Hin & Hf).
  set (items := alter (fun it => mkItem (ci_key it) e) el (c_items c)).
  assert (Hsame : forall x, x <> el -> items !! x = c_items c !! x).
  { intros x Hx. unfold items. by rewrite lookup_alter_ne. }
  assert (Hel : items !! el = Some (mkItem k e)).
  { unfold items. rewrite lookup_alter_eq, Hit. simpl. by rewrite Hk. }
  split.
  + destruct Hok. constructor; simpl; try done.
    * by apply NoDup_MoveToFront.
    * intros x. rewrite elem_MoveToFront by done. intros Hx.
      destruct (decide (x = el)) as [->|Hne]; [by exists (mkItem k e)|].
      rewrite Hsame by done. auto.
    * intros k' el' Hk'. rewrite elem_MoveToFront by done.
      destruct (ok_key0 k' el' Hk') as (? & it' & Hit' & Hki). split; [done|].
      destruct (decide (el' = el)) as [->|Hne]; [exists (mkItem k e)|exists it'].
      -- split; [done|]. simpl. congruence.
      -- by rewrite Hsame.
    * intros x. rewrite elem_MoveToFront by done. auto.
    * by rewrite <- length_unlink.
  + unfold abs. simpl. unfold MoveToFront. simpl. unfold entry_of at 1. rewrite Hel. simpl.
    rewrite (omap_unlink c items el it) by (done || apply Hok). rewrite Hk.
    done.
Qed.

(** A new name that does not fit: the entry at the back is evicted. *)
Lemma Put_evict c k e :
  cache_ok c -> c_byKey c !! k = None ->
  c_cap c < Z.of_nat (length (c_next c :: c_order c)) ->
  cache_ok (Put c k e) /\ abs (Put c k e) = take (Z.to_nat (c_cap c)) ((k, e) :: abs c).
Proof.
  intros Hok Ek Hlt. pose proof (ok_cap _ Hok) as Hcap. unfold Put. rewrite Ek. cbv zeta.
  rewrite (proj2 (Z.ltb_lt _ _) Hlt).
  destruct (pushed_elem c k e Hok Ek) as (Hnd & Hel & Hkey & Habs).
  pose proof (length_abs c Hok) as Hla. pose proof (ok_len _ Hok) as Hlen.
  destruct (last (c_next c :: c_order c)) as [oldest|] eqn:El;
    [|by apply last_None in El].
  destruct (last_snoc_unlink _ _ _ Hnd El) as (pre & Hpre & Hun & Hni).
  assert (Hold : oldest ∈ c_next c :: c_order c) by (rewrite Hpre; set_solver).
  destruct (Hel oldest Hold) as (ci & Hci & Hbci). simpl in Hci, Hbci. rewrite Hci. split.
  * constructor; simpl; rewrite ?Hun; try done.
    -- cbn [c_order pushed] in Hnd. rewrite Hpre in Hnd. by apply NoDup_app in Hnd as [? _].
    -- intros x Hx. destruct (Hel x) as (it & Hit & Hb); [simpl; rewrite Hpre; set_solver|].
       exists it. split; [done|]. simpl in Hb. rewrite lookup_delete_ne; [done|].
       intros Hkk. rewrite <- Hkk in Hb. rewrite Hbci in Hb. injection Hb as <-. done.
    -- intros k' el' [Hne Hb]%lookup_delete_Some.
       destruct (Hkey k' el' Hb) as (Hin & it & Hit & Hki). simpl in *. split; [|by eauto].
       rewrite Hpre in Hin. apply elem_of_app in Hin as [|Hin]; [done|].
       apply list_elem_of_singleton in Hin as ->. rewrite Hci in Hit. congruence.
    -- intros x Hx. assert (Hx' : x ∈ c_next c :: c_order c) by (rewrite Hpre; set_solver).
       apply elem_of_cons in Hx' as [->|Hx']; [lia|]. pose proof (ok_fresh _ Hok _ Hx'). lia.
    -- assert (Hlp : length (c_next c :: c_order c) = S (length pre))
         by (rewrite Hpre, length_app; simpl; lia). simpl in Hlp. lia.
  * unfold abs at 1. simpl. rewrite Hun.
    assert (Hap : abs (pushed c k e) =
      omap (entry_of (<[c_next c := mkItem k e]> (c_items c))) pre ++ [(ci_key ci, ci_value ci)]).
    { unfold abs. cbn [c_order c_items pushed]. rewrite Hpre, omap_app. f_equal. simpl.
      unfold entry_of. by rewrite Hci. }
    rewrite Habs in Hap. rewrite Hap. symmetry. apply take_app_length'.
    assert (length ((k, e) :: abs c) = S (length (omap (entry_of (<[c_next c:=mkItem k e]> (c_items c))) pre)))
      by (rewrite Hap, length_app; simpl; lia).
    simpl in *. lia.
Qed.

Lemma Put_insert c k e :
  cache_ok c -> c_byKey c !! k = None ->
  Z.of_nat (length (c_next c :: c_order c)) <= c_cap c ->
  cache_ok (Put c k e) /\ abs (Put c k e) = (k, e) :: abs c.
Proof.
  intros Hok Ek Hge. unfold Put. rewrite Ek. cbv zeta. rewrite (proj2 (Z.ltb_ge _ _) Hge).
  destruct (pushed_elem c k e Hok Ek) as (Hnd & Hel & Hkey & Habs). split; [|exact Habs].
  constructor; try done; [apply Hok|]. intros x [->|Hx]%elem_of_cons; simpl; [lia|].
  pose proof (ok_fresh _ Hok _ Hx). lia.
Qed.

Lemma Put_refines c k e :
  cache_ok c -> cache_ok (Put c k e) /\ abs (Put c k e) = Lru.put (c_cap c) (abs c) k e.
Proof.
  intros Hok. unfold Lru.put. pose proof (length_abs c Hok) as Hla.
  pose proof (ok_len _ Hok) as Hlen. destruct (c_byKey c !! k) as [el|] eqn:Ek.
  - pose proof (length_remove c k el Hok Ek). rewrite take_ge by (simpl; lia).
    by apply (Put_update c k e el).
  - rewrite (Lru.remove_id (abs c) k) by (by apply find_none).
    destruct (Z.ltb_spec (c_cap c) (Z.of_nat (length (c_next c :: c_order c)))) as [Hlt|Hge].
    + by apply Put_evict.
    + rewrite take_ge by (simpl in *; lia). by apply Put_insert.
Qed.

End Refinement.
End Refinement.

(** ** What the cache promises *)
Module CacheTheorems.
Import Cache Refinement.

(** Calls on the cache. *)
Inductive op (E : Type) := OPut (k : string) (v : E) | OGet (k : string) | ODelete (k : string)
  | OClear | OLen.
Arguments OPut {E} _ _.
Arguments OGet {E} _.
Arguments ODelete {E} _.
Arguments OClear {E}.
Arguments OLen {E}.

(** What the caller sees of a call. *)
Inductive obs (E : Type) := Nothing | Found (r : option E) | Count (n : nat).
Arguments Nothing {E}.
Arguments Found {E} _.
Arguments Count {E} _.

Section Runs.
Context {E : Type}.

Definition step (c : Cache E) (o : op E) : obs E * Cache E :=
  match o with
  | OPut k v => (Nothing, Put c k v)
  | OGet k => let '(r, c') := Get c k in (Found r, c')
  | ODelete k => (Nothing, Delete c k)
  | OClear => (Nothing, Clear c)
  | OLen => (Count (Len c), c)
  end.

Definition spec_step (cap : Z) (l : list (string * E)) (o : op E)
  : obs E * list (string * E) :=
  match o with
  | OPut k v => (Nothing, Lru.put cap l k v)
  | OGet k => (Found (Lru.find l k), Lru.promote l k)
  | ODelete k => (Nothing, Lru.remove l k)
  | OClear => (Nothing, [])
  | OLen => (Count (length l), l)
  end.

Fixpoint run {S} (f : S -> op E -> obs E * S) (s : S) (os : list (op E)) : list (obs E) * S :=
  match os with
  | [] => ([], s)
  | o :: os' => let '(x, s') := f s o in let '(xs, s'') := run f s' os' in (x :: xs, s'')
  end.

Lemma step_refines c o :
  cache_ok c ->
  cache_ok (step c o).2 /\ (step c o).1 = (spec_step (c_cap c) (abs c) o).1 /\
  abs (step c o).2 = (spec_step (c_cap c) (abs c) o).2 /\ c_cap (step c o).2 = c_cap c.
Proof.
  intros Hok. destruct o as [k v|k|k| |]; simpl.
  - destruct (Put_refines c k v Hok) as [? ?]. split_and!; try done.
    unfold Put. by repeat case_match.
  - destruct (Get_refines c k Hok) as (? & Hf & ?). destruct (Get c k) as [r c'] eqn:Eg.
    simpl in *. split_and!; try done; [by rewrite Hf|].
    unfold Get in Eg. case_match; by injection Eg as <- <-.
  - destruct (Delete_refines c k Hok) as [? ?]. split_and!; try done.
    unfold Delete. by case_match.
  - destruct (Clear_refines c Hok) as [? ?]. by split_and!.
  - split_and!; try done. unfold Len. by rewrite length_abs.
Qed.

Lemma run_refines os c :
  cache_ok c ->
  (run step c os).1 = (run (spec_step (c_cap c)) (abs c) os).1 /\
  cache_ok (run step c os).2 /\ c_cap (run step c os).2 = c_cap c.
Proof.
  revert c. induction os as [|o os IH]; intros c Hok; simpl; [done|].
  destruct (step_refines c o Hok) as (Hok' & Hx & Ha & Hcap).
  destruct (step c o) as [x c']. destruct (spec_step (c_cap c) (abs c) o) as [y l'].
  simpl in *. subst. destruct (IH c' Hok') as (IH1 & IH2 & IH3). rewrite Hcap in *.
  destruct (run step c' os), (run (spec_step (c_cap c)) (abs c') os). simpl in *.
  split; [by f_equal|]. done.
Qed.

(** C8. The pointer structure implements the abstract LRU list: on every sequence of calls on a
    fresh cache, each [Get] and [Len] returns what the list of entries in order of use says, and
    the number of entries never exceeds the capacity ([DefaultCapacity] when the requested
    capacity is not positive). *)
Theorem cache_refines_lru n os :
  let cap := if n <=? 0 then DefaultCapacity else n in
  (run step (New n) os).1 = (run (spec_step cap) [] os).1 /\
  Z.of_nat (Len (run step (New n) os).2) <= cap.
Proof.
  intros cap. destruct (run_refines os (New n) (New_ok n)) as (H1 & H2 & H3).
  split; [exact H1|]. change cap with (c_cap (@New E n)). rewrite <- H3. apply H2.
Qed.

Lemma Lru_find_take cap (l : list (string * E)) k v :
  (0 < cap)%nat -> Lru.find (take cap ((k, v) :: l)) k = Some v.
Proof. destruct cap; [lia|]. simpl. by rewrite bool_decide_eq_true_2. Qed.

Lemma find_app_last (l : list (string * E)) p k :
  p.1 <> k -> Lru.find (l ++ [p]) k = Lru.find l k.
Proof.
  induction l as [|[k' v'] l IH]; simpl; intros Hne.
  - destruct p as [k' v']. by rewrite bool_decide_eq_false_2.
  - case_bool_decide; auto.
Qed.

(** A stored entry is returned by the next lookup of its name, and storing it disturbs no
    other name but, in a full cache and for a new name, the least recently used one. *)
Theorem Put_Get (c : Cache E) k v :
  cache_ok c ->
  (Get (Put c k v) k).1 = Some v /\
  forall k', k' <> k ->
    (Get (Put c k v) k').1 = (Get c k').1 \/
    ((Get (Put c k v) k').1 = None /\ (Get c k).1 = None /\ Z.of_nat (Len c) = c_cap c /\
     fst <$> last (abs c) = Some k').
Proof.
  intros Hok. destruct (Put_refines c k v Hok) as [Hok' Habs].
  pose proof (ok_cap _ Hok). pose proof (length_abs c Hok) as Hla. pose proof (ok_len _ Hok).
  rewrite (proj1 (proj2 (Get_refines _ k Hok'))), Habs. split; [apply Lru_find_take; lia|].
  intros k' Hne. rewrite (proj1 (proj2 (Get_refines _ k' Hok'))), Habs.
  rewrite (proj1 (proj2 (Get_refines _ k' Hok))), (proj1 (proj2 (Get_refines _ k Hok))).
  unfold Lru.put.
  assert (Hcons : forall l, Lru.find ((k, v) :: l) k' = Lru.find l k').
  { intros l. simpl. by rewrite bool_decide_eq_false_2. }
  destruct (c_byKey c !! k) as [el|] eqn:Ek.
  - left. pose proof (length_remove c k el Hok Ek). rewrite take_ge by (simpl; lia).
    rewrite Hcons. by apply Lru.find_remove_ne.
  - pose proof (find_none c k Hok Ek) as Hnone. rewrite (Lru.remove_id _ _ Hnone).
    destruct (decide (Z.of_nat (length (abs c)) = c_cap c)) as [Hfull|].
    2:{ left. rewrite take_ge by (simpl; lia). apply Hcons. }
    destruct (last (abs c)) as [p|] eqn:El.
    2:{ apply last_None in El. rewrite El in Hfull. simpl in Hfull. lia. }
    apply last_Some in El as [pre Hpre]. rewrite Hpre in *. rewrite length_app in Hfull. simpl in Hfull.
    assert (Htake : take (Z.to_nat (c_cap c)) ((k, v) :: pre ++ [p]) = (k, v) :: pre).
    { apply (take_app_length' ((k, v) :: pre) [p]). simpl. lia. }
    rewrite Htake, Hcons. destruct (decide (p.1 = k')) as [Hp|Hp].
    + destruct (Lru.find pre k') as [w|] eqn:Ew.
      * left. symmetry. clear -Ew. induction pre as [|[k0 v0] pre IH]; simpl in *; [done|].
        case_bool_decide; auto.
      * right. repeat split; try done; [unfold Len; rewrite <- Hla, length_app; simpl; lia|].
        simpl. by rewrite Hp.
    + left. symmetry. by apply find_app_last.
Qed.

End Runs.

Lemma Put_Get_witness :
  let c := Put (Put (New 2) "a" 1) "b" 2 in
  (Get (Put c "c" 3) "c").1 = Some 3 /\
  forall k', k' <> "c" ->
    (Get (Put c "c" 3) k').1 = (Get c k').1 \/
    ((Get (Put c "c" 3) k').1 = None /\ (Get c "c").1 = None /\ Z.of_nat (Len c) = c_cap c /\
     fst <$> last (abs c) = Some k').
Proof.
  intros c. apply Put_Get. unfold c. apply Put_refines, Put_refines, New_ok.
Defined.

(** The unnamed statement is a legal key, lookups promote and the third name evicts the second. *)
Example lru_run :
  (run step (New 2) [OPut "" 1; OPut "b" 2; OGet ""; OPut "c" 3; OGet "b"; OGet ""; OLen]).1 =
  [Nothing; Nothing; Found (Some 1); Nothing; Found None; Found (Some 1); Count 2].
Proof. vm_compute. reflexivity. Qed.

End CacheTheorems.
