(* ===== verification/PgStateMachine.v ===== *)
(** * Extended-query state machine ([internal/db/proxy/postgres/statemachine])

    [state.go], [frame.go], [action.go], [cacheview.go], [denyroute.go] and [transition.go]: the
    pure transition function of the PostgreSQL proxy, from a connection state, a frontend frame and
    the prepared-statement cache to the next state and the actions the dispatcher runs.

    The cache is reached through the interface [CacheView]; here it is a type class with the laws
    its clients rely on, discharged by the recording fake of [cacheview.go].  The classifier is the injected [PolicyClassifier]. *)

From Stdlib Require Import ZArith Lia Ascii String.
From stdpp Require Import base list strings gmap.
From S2P Require Import Prelude GoText DbEffects DbPolicy DbPolicyTheorems.
Open Scope string_scope.
Open Scope list_scope.
Open Scope Z_scope.

(** ** States, frames and actions *)
Module Machine.

Inductive Phase :=
  PhasePreAuth | PhaseIdle | PhaseInQuery | PhaseInTx | PhaseInTxError | PhaseInCopyIn
| PhaseInCopyOut.

#[export] Instance Phase_eq_dec : EqDecision Phase.
Proof. solve_decision. Defined.

Definition phaseString (p : Phase) : string :=
  match p with
  | PhasePreAuth => "pre_auth" | PhaseIdle => "idle" | PhaseInQuery => "in_query"
  | PhaseInTx => "in_tx" | PhaseInTxError => "in_tx_error" | PhaseInCopyIn => "in_copy_in"
  | PhaseInCopyOut => "in_copy_out"
  end.

(** Status bytes of ReadyForQuery. *)
Definition RFQ_I : Z := 73.
Definition RFQ_T : Z := 84.
Definition RFQ_E : Z := 69.

(** [TxStartedAt]: [None] is the zero time. *)
Record ConnState := mkConnState {
  Phase_ : Phase;
  LastUpstreamRFQ : Z;
  Absorbing : bool;
  UpstreamDirtySinceSync : bool;
  TxStartedAt : option Z
}.

Definition set_absorbing (s : ConnState) (b : bool) : ConnState :=
  mkConnState (Phase_ s) (LastUpstreamRFQ s) b (UpstreamDirtySinceSync s) (TxStartedAt s).

Definition set_dirty (s : ConnState) (b : bool) : ConnState :=
  mkConnState (Phase_ s) (LastUpstreamRFQ s) (Absorbing s) b (TxStartedAt s).

Inductive Frame :=
| QueryFrame (SQL : string)
| ParseFrame (Name SQL : string)
| BindFrame (Portal Statement : string)
| DescribeFrame (ObjectType : Z) (Name : string)
| ExecuteFrame (Portal : string)
| SyncFrame
| FlushFrame
| CloseFrame (ObjectType : Z) (Name : string)
| TerminateFrame
| FunctionCallFrame (FunctionOID : Z)
| CopyDataFrame (Body : list Z)
| CopyDoneFrame
| CopyFailFrame (Message : string).

Inductive FrameKind :=
  FrameKindQuery | FrameKindParse | FrameKindBind | FrameKindDescribe | FrameKindExecute
| FrameKindSync | FrameKindFlush | FrameKindClose | FrameKindTerminate | FrameKindFunctionCall
| FrameKindCopyData | FrameKindCopyDone | FrameKindCopyFail.

Definition Kind (f : Frame) : FrameKind :=
  match f with
  | QueryFrame _ => FrameKindQuery | ParseFrame _ _ => FrameKindParse
  | BindFrame _ _ => FrameKindBind | DescribeFrame _ _ => FrameKindDescribe
  | ExecuteFrame _ => FrameKindExecute | SyncFrame => FrameKindSync | FlushFrame => FrameKindFlush
  | CloseFrame _ _ => FrameKindClose | TerminateFrame => FrameKindTerminate
  | FunctionCallFrame _ => FrameKindFunctionCall | CopyDataFrame _ => FrameKindCopyData
  | CopyDoneFrame => FrameKindCopyDone | CopyFailFrame _ => FrameKindCopyFail
  end.

Inductive Action :=
| ActionForward
| ActionSynthError (SQLState Message Severity : string)
| ActionSynthReadyForQuery (Status : Z)
| ActionSynthParseComplete
| ActionSynthBindComplete
| ActionSuppress
| ActionInjectRollback
| ActionDrainUntilRFQ
| ActionClose
| ActionTrackUpstreamRFQ (Status : Z)
| ActionApproverWait (Timeout : Z) (Stmt : ClassifiedStatement) (Rule : StatementRule).

Definition is_forward (a : Action) : bool := match a with ActionForward => true | _ => false end.

Definition containsClose (acts : list Action) : bool :=
  existsb (fun a => match a with ActionClose => true | _ => false end) acts.

Record CacheValue := {
  cvl_Verb : string;
  cvl_GroupID : Z;
  cvl_OpaqueID : string;
  cvl_CatalogRefreshSearchPath : bool;
  cvl_CatalogRefreshSnapshot : bool
}.

(** [CacheView]: a [Get] may change the cache (promotion), so it returns it. *)
Class CacheView (C : Type) := {
  cv_Get : C -> string -> option CacheValue * C;
  cv_Put : C -> string -> CacheValue -> C;
  cv_Delete : C -> string -> C;
  cv_Clear : C -> C
}.

(** The name is known to the cache. *)
Definition holds {C} `{CacheView C} (c : C) (k : string) : Prop := is_Some (cv_Get c k).1.

(** What the state machine relies on: the cache never invents a name. *)
Class CacheViewLaws (C : Type) `{CacheView C} := {
  cv_ok : C -> Prop;
  cv_Get_ok : forall c k, cv_ok c -> cv_ok (cv_Get c k).2;
  cv_Put_ok : forall c k v, cv_ok c -> cv_ok (cv_Put c k v);
  cv_Delete_ok : forall c k, cv_ok c -> cv_ok (cv_Delete c k);
  cv_Clear_ok : forall c, cv_ok c -> cv_ok (cv_Clear c);
  cv_Get_holds : forall c k k', cv_ok c -> holds (cv_Get c k).2 k' -> holds c k';
  cv_Put_holds : forall c k v k', cv_ok c -> holds (cv_Put c k v) k' -> k' = k \/ holds c k';
  cv_Delete_holds : forall c k k', cv_ok c -> holds (cv_Delete c k) k' -> k' <> k /\ holds c k';
  cv_Clear_holds : forall c k, cv_ok c -> ~ holds (cv_Clear c) k
}.

(** The recording fake ([FakeCacheView]). *)
Record CacheOp := { co_Method : string; co_Key : string; co_Value : CacheValue; co_Hit : bool }.

Definition CacheValue_zero : CacheValue :=
  {| cvl_Verb := ""; cvl_GroupID := 0; cvl_OpaqueID := ""; cvl_CatalogRefreshSearchPath := false;
     cvl_CatalogRefreshSnapshot := false |}.

Record FakeCacheView := { fk_store : gmap string CacheValue; fk_history : list CacheOp }.

Definition NewFakeCacheView : FakeCacheView := {| fk_store := ∅; fk_history := [] |}.

Definition record_op (f : FakeCacheView) (m k : string) (v : CacheValue) (hit : bool)
  : list CacheOp :=
  fk_history f ++ [{| co_Method := m; co_Key := k; co_Value := v; co_Hit := hit |}].

Definition Fake_Get (f : FakeCacheView) (name : string) : option CacheValue * FakeCacheView :=
  let v := fk_store f !! name in
  (v, {| fk_store := fk_store f;
         fk_history := record_op f "Get" name (default CacheValue_zero v)
                         (match v with Some _ => true | None => false end) |}).

Definition Fake_Put (f : FakeCacheView) (name : string) (v : CacheValue) : FakeCacheView :=
  {| fk_store := <[name := v]> (fk_store f); fk_history := record_op f "Put" name v false |}.

Definition Fake_Delete (f : FakeCacheView) (name : string) : FakeCacheView :=
  {| fk_store := delete name (fk_store f);
     fk_history := record_op f "Delete" name CacheValue_zero false |}.

Definition Fake_Clear (f : FakeCacheView) : FakeCacheView :=
  {| fk_store := ∅; fk_history := record_op f "Clear" "" CacheValue_zero false |}.

#[export] Instance Fake_view : CacheView FakeCacheView :=
  {| cv_Get := Fake_Get; cv_Put := Fake_Put; cv_Delete := Fake_Delete; cv_Clear := Fake_Clear |}.

#[export] Instance Fake_laws : CacheViewLaws FakeCacheView.
Proof.
  unshelve eapply Build_CacheViewLaws; [exact (fun _ => True)|..]; unfold holds; simpl; try done.
  - intros c k v k' _ Hk. destruct (decide (k' = k)) as [->|Hne]; [by left|right].
    by rewrite lookup_insert_ne in Hk.
  - intros c k k' _. destruct (decide (k' = k)) as [->|Hne].
    + rewrite lookup_delete_eq. by intros [? ?].
    + by rewrite lookup_delete_ne.
Defined.

(** ** Deny routes ([denyroute.go]) *)

Definition DenyRoute (s : ConnState) (rule : StatementRule) (msg sqlstate : string)
  : list Action :=
  if (LastUpstreamRFQ s =? RFQ_T) || (LastUpstreamRFQ s =? RFQ_E) then
    if sr_DenyModeInTx rule ==? "rollback_then_continue" then
      [ActionSynthError sqlstate msg ""; ActionInjectRollback; ActionDrainUntilRFQ;
       ActionSynthReadyForQuery RFQ_I]
    else [ActionSynthError sqlstate msg "FATAL"; ActionClose]
  else if UpstreamDirtySinceSync s then
    [ActionSynthError sqlstate msg ""; ActionDrainUntilRFQ]
  else [ActionSynthError sqlstate msg ""; ActionSynthReadyForQuery RFQ_I].

(** ** Transitions ([transition.go]) *)

Definition lookupStatementRule (rs : option RuleSet) (name : string) : StatementRule :=
  match rs with
  | None => StatementRule_zero
  | Some _ =>
    if name ==? "" then StatementRule_zero
    else default StatementRule_zero (List.find (fun r => sr_Name r ==? name) (AllStatementRules rs))
  end.

Definition renderDenyMessage (d : Decision) : string :=
  if d_RuleName d !=? "" then "denied by AepCaw policy: " +:+ d_RuleName d
  else if d_Reason d !=? "" then "denied by AepCaw policy: " +:+ d_Reason d
  else "denied by AepCaw policy".

Definition sqlstateForDecision (d : Decision) : string :=
  if d_RuleKind d ==? RuleKindConnection then "28000" else "42501".

Definition sixty_seconds : Z := 60 * 1000000000.

Definition newApproverWaitAction (d : Decision) (cs : ClassifiedStatement) (rule : StatementRule)
  : Action :=
  let timeout := sr_Timeout rule in
  let timeout := match d_Approval d with
                 | Some a => if timeout =? 0 then ar_Timeout a else timeout
                 | None => timeout
                 end in
  let timeout := if timeout =? 0 then sixty_seconds else timeout in
  ActionApproverWait timeout cs rule.

Definition portalCacheKey (name : string) : string :=
  String (char_of_byte 0) EmptyString +:+ "portal:" +:+ name.

(** The evaluation loop of [handleParse] and [handleQuery]: the first statement that is not let
    through decides. *)
Inductive loopResult :=
| AllPass
| NeedsApproval (d : Decision) (cs : ClassifiedStatement)
| Denied (d : Decision).

Fixpoint evalLoop (rules : option RuleSet) (svc : ServiceID) (stmts : list ClassifiedStatement)
  : loopResult :=
  match stmts with
  | [] => AllPass
  | cs :: rest =>
    let d := Evaluate cs rules svc in
    if d_Verb d ==? VerbApprove then NeedsApproval d cs
    else if d_Verb d ==? VerbDeny then Denied d
    else evalLoop rules svc rest
  end.

Section Transition.
Context {C : Type} `{CacheView C}.

(** The classifier with its options, as the statements it returns; its error is ignored. *)
Context (Classify : string -> list ClassifiedStatement).
Context (rules : option RuleSet) (svc : ServiceID).
Implicit Types (s : ConnState) (c : C).

Definition forward_dirty s : ConnState * list Action := (set_dirty s true, [ActionForward]).

Definition handleSync s : ConnState * list Action :=
  if negb (Absorbing s) && negb (UpstreamDirtySinceSync s) then (s, [ActionForward])
  else if Absorbing s && UpstreamDirtySinceSync s then
    (set_dirty (set_absorbing s false) false, [ActionForward; ActionDrainUntilRFQ])
  else if Absorbing s && negb (UpstreamDirtySinceSync s) then
    (set_absorbing s false, [ActionSynthReadyForQuery RFQ_I])
  else (set_dirty s false, [ActionForward; ActionDrainUntilRFQ]).

Definition denyActions s (d : Decision) : list Action :=
  DenyRoute s (lookupStatementRule rules (d_RuleName d)) (renderDenyMessage d)
    (sqlstateForDecision d).

Definition handleParse s c (name sql : string) : ConnState * C * list Action :=
  if Absorbing s then (s, c, [ActionSuppress])
  else
    let stmts := Classify sql in
    match evalLoop rules svc stmts with
    | NeedsApproval d cs =>
      (s, c, [newApproverWaitAction d cs (lookupStatementRule rules (d_RuleName d))])
    | Denied d =>
      let actions := denyActions s d in
      (if containsClose actions then s else set_absorbing s true, c, actions)
    | AllPass =>
      let v := {| cvl_Verb := match stmts with cs :: _ => cs_RawVerb cs | [] => "" end;
                  cvl_GroupID := match stmts with
                                 | cs :: _ => match cs_Effects cs with
                                              | e :: _ => e_Group e
                                              | [] => 0
                                              end
                                 | [] => 0
                                 end;
                  cvl_OpaqueID := ""; cvl_CatalogRefreshSearchPath := false;
                  cvl_CatalogRefreshSnapshot := false |} in
      (set_dirty s true, cv_Put c name v, [ActionForward])
    end.

Definition quoted (s : string) : string := dq +:+ s +:+ dq.

Definition handleBind s c (portal statement : string) : ConnState * C * list Action :=
  if Absorbing s then (s, c, [ActionSuppress])
  else match cv_Get c statement with
  | (None, c') =>
    (set_absorbing s true, c',
     [ActionSynthError "34000" ("prepared statement " +:+ quoted statement +:+ " does not exist") ""])
  | (Some entry, c') =>
    (set_dirty s true, cv_Put c' (portalCacheKey portal) entry, [ActionForward])
  end.

Definition handleDescribe s : ConnState * list Action :=
  if Absorbing s then (s, [ActionSuppress]) else forward_dirty s.

Definition handleExecute s c (portal : string) : ConnState * C * list Action :=
  if Absorbing s then (s, c, [ActionSuppress])
  else match cv_Get c (portalCacheKey portal) with
  | (None, c') =>
    (set_absorbing s true, c',
     [ActionSynthError "34000" ("portal " +:+ quoted portal +:+ " does not exist") ""])
  | (Some _, c') => (set_dirty s true, c', [ActionForward])
  end.

Definition handleFlush s : ConnState * list Action :=
  if Absorbing s then (s, [ActionSuppress]) else (s, [ActionForward]).

Definition handleClose s c (objectType : Z) (name : string) : ConnState * C * list Action :=
  if Absorbing s then (s, c, [ActionSuppress])
  else
    let c' := if objectType =? 83 then cv_Delete c name
              else if objectType =? 80 then cv_Delete c (portalCacheKey name)
              else c in
    (set_dirty s true, c', [ActionForward]).

Definition handleQuery s (sql : string) : ConnState * list Action :=
  if Absorbing s then (s, [ActionSuppress])
  else match evalLoop rules svc (Classify sql) with
  | NeedsApproval d cs =>
    (s, [newApproverWaitAction d cs (lookupStatementRule rules (d_RuleName d))])
  | Denied d => (s, denyActions s d)
  | AllPass => (s, [ActionForward])
  end.

Definition keep (c : C) (r : ConnState * list Action) : ConnState * C * list Action :=
  (r.1, c, r.2).

Definition TransitionWithParser s (frame : Frame) c : ConnState * C * list Action :=
  match frame with
  | SyncFrame => keep c (handleSync s)
  | QueryFrame sql => keep c (handleQuery s sql)
  | ParseFrame name sql => handleParse s c name sql
  | BindFrame portal statement => handleBind s c portal statement
  | DescribeFrame _ _ => keep c (handleDescribe s)
  | ExecuteFrame portal => handleExecute s c portal
  | FlushFrame => keep c (handleFlush s)
  | CloseFrame ty name => handleClose s c ty name
  | TerminateFrame => (s, c, [ActionForward; ActionClose])
  | FunctionCallFrame _ | CopyDataFrame _ | CopyDoneFrame | CopyFailFrame _ =>
    (s, c, [ActionSynthError "0A000" "frame not supported" ""; ActionClose])
  end.

End Transition.

End Machine.
Export Machine.

(** ** Facts on single transitions *)
Module MachineFacts.

Lemma evalLoop_pass rules svc stmts :
  evalLoop rules svc stmts = AllPass <->
  forall cs, In cs stmts -> d_Verb (Evaluate cs rules svc) <> VerbApprove /\
                            d_Verb (Evaluate cs rules svc) <> VerbDeny.
Proof.
  induction stmts as [|cs rest IH]; simpl; [split; [by intros _ ? []|done]|].
  destruct (d_Verb (Evaluate cs rules svc) ==? VerbApprove) eqn:Ea; bool_prop.
  { split; [done|]. intros H. by destruct (H cs (or_introl eq_refl)). }
  destruct (d_Verb (Evaluate cs rules svc) ==? VerbDeny) eqn:Ed; bool_prop.
  { split; [done|]. intros H. by destruct (H cs (or_introl eq_refl)). }
  rewrite IH. split; [|by auto]. intros H x [<-|Hx]; auto.
Qed.

Lemma evalLoop_denied rules svc stmts d :
  evalLoop rules svc stmts = Denied d ->
  exists cs, In cs stmts /\ d = Evaluate cs rules svc /\ d_Verb d = VerbDeny.
Proof.
  induction stmts as [|cs rest IH]; simpl; [done|].
  destruct (d_Verb (Evaluate cs rules svc) ==? VerbApprove) eqn:Ea; [done|].
  destruct (d_Verb (Evaluate cs rules svc) ==? VerbDeny) eqn:Ed; bool_prop.
  { intros [= <-]. eauto. }
  intros H. destruct (IH H) as (x & ? & ? & ?). eauto 10.
Qed.

Definition in_tx (s : ConnState) : Prop := LastUpstreamRFQ s = RFQ_T \/ LastUpstreamRFQ s = RFQ_E.

(** The four deny routes. *)
Lemma DenyRoute_cases s rule msg st :
  (in_tx s /\ sr_DenyModeInTx rule = "rollback_then_continue" /\
   DenyRoute s rule msg st = [ActionSynthError st msg ""; ActionInjectRollback;
                              ActionDrainUntilRFQ; ActionSynthReadyForQuery RFQ_I]) \/
  (in_tx s /\ sr_DenyModeInTx rule <> "rollback_then_continue" /\
   DenyRoute s rule msg st = [ActionSynthError st msg "FATAL"; ActionClose]) \/
  (~ in_tx s /\ UpstreamDirtySinceSync s = true /\
   DenyRoute s rule msg st = [ActionSynthError st msg ""; ActionDrainUntilRFQ]) \/
  (~ in_tx s /\ UpstreamDirtySinceSync s = false /\
   DenyRoute s rule msg st = [ActionSynthError st msg ""; ActionSynthReadyForQuery RFQ_I]).
Proof.
  unfold DenyRoute, in_tx.
  destruct (Z.eqb_spec (LastUpstreamRFQ s) RFQ_T) as [Ht|Ht];
    destruct (Z.eqb_spec (LastUpstreamRFQ s) RFQ_E) as [He|He]; simpl;
    try (case_bool_decide; [left|right; left]; tauto).
  destruct (UpstreamDirtySinceSync s); right; right; [left|right]; tauto.
Qed.

Lemma DenyRoute_no_forward s rule msg st : ActionForward ∉ DenyRoute s rule msg st.
Proof.
  destruct (DenyRoute_cases s rule msg st) as [(_&_&->)|[(_&_&->)|[(_&_&->)|(_&_&->)]]]; set_solver.
Qed.

Section Facts.
Context {C : Type} `{CacheViewLaws C}.
Context (Classify : string -> list ClassifiedStatement) (svc : ServiceID).
Implicit Types (s : ConnState) (c : C).

Local Notation trans rules := (TransitionWithParser Classify rules svc).

Lemma parse_forward rules s c name sql s' c' acts :
  trans rules s (ParseFrame name sql) c = (s', c', acts) -> ActionForward ∈ acts ->
  (exists v, c' = cv_Put c name v) /\ evalLoop rules svc (Classify sql) = AllPass.
Proof.
  simpl. unfold handleParse. destruct (Absorbing s); [intros [= <- <- <-]; set_solver|].
  destruct (evalLoop rules svc (Classify sql)) as [|d cs|d] eqn:El; intros [= <- <- <-] Hf.
  - eauto.
  - unfold newApproverWaitAction in Hf. set_solver.
  - by apply DenyRoute_no_forward in Hf.
Qed.

Lemma parse_no_forward rules s c name sql s' c' acts :
  trans rules s (ParseFrame name sql) c = (s', c', acts) -> ActionForward ∉ acts -> c' = c.
Proof.
  simpl. unfold handleParse. destruct (Absorbing s); [by intros [= <- <- <-]|].
  destruct (evalLoop rules svc (Classify sql)) as [|d cs|d]; intros [= <- <- <-] Hf; [|done..].
  exfalso. apply Hf. left.
Qed.

(** What a Bind does to the cache. *)
Lemma bind_cases rules s c portal stmt s' c' acts :
  trans rules s (BindFrame portal stmt) c = (s', c', acts) ->
  (c' = c /\ ActionForward ∉ acts) \/
  (c' = (cv_Get c stmt).2 /\ ~ holds c stmt /\ ActionForward ∉ acts) \/
  (holds c stmt /\ (exists v, c' = cv_Put (cv_Get c stmt).2 (portalCacheKey portal) v) /\
   acts = [ActionForward]).
Proof.
  simpl. unfold handleBind, holds. destruct (Absorbing s).
  { intros [= <- <- <-]. left. set_solver. }
  destruct (cv_Get c stmt) as [[v|] c1] eqn:Eg; intros [= <- <- <-]; simpl.
  - right. right. eauto.
  - right. left. split; [done|]. split; [by intros [? ?]|set_solver].
Qed.

Lemma execute_cases rules s c portal s' c' acts :
  trans rules s (ExecuteFrame portal) c = (s', c', acts) ->
  (c' = c \/ c' = (cv_Get c (portalCacheKey portal)).2) /\
  (ActionForward ∈ acts -> holds c (portalCacheKey portal)).
Proof.
  simpl. unfold handleExecute, holds. destruct (Absorbing s).
  { intros [= <- <- <-]. split; [by left|set_solver]. }
  destruct (cv_Get c (portalCacheKey portal)) as [[v|] c1] eqn:Eg; intros [= <- <- <-]; simpl.
  - split; [by right|by eauto].
  - split; [by right|set_solver].
Qed.

Lemma close_cache rules s c ty name s' c' acts :
  trans rules s (CloseFrame ty name) c = (s', c', acts) ->
  c' = c \/ exists k, c' = cv_Delete c k.
Proof.
  simpl. unfold handleClose. destruct (Absorbing s); [intros [= <- <- <-]; by left|].
  intros [= <- <- <-]. destruct (ty =? 83); [eauto|]. destruct (ty =? 80); eauto.
Qed.

(** Frames other than Parse, Bind, Execute and Close leave the cache alone. *)
Lemma other_cache rules s c f s' c' acts :
  trans rules s f c = (s', c', acts) ->
  match f with
  | ParseFrame _ _ | BindFrame _ _ | ExecuteFrame _ | CloseFrame _ _ => True
  | _ => c' = c
  end.
Proof. destruct f; simpl; unfold keep; try (by intros _); by intros [= <- <- <-]. Qed.

End Facts.
End MachineFacts.
Import MachineFacts.

(** ** Reachable configurations *)
Module Reach.

(** What happened on a connection, newest first: a frame with its actions under the rules then in
    force, or an approver's consent to a Parse that was held. *)
Inductive event :=
| EvFrame (rules : option RuleSet) (f : Frame) (acts : list Action)
| EvApproved (name sql : string) (cs : ClassifiedStatement).

(** Names on the wire are C strings. *)
Definition no_nul (s : string) : Prop := 0 ∉ string_bytes s.

Definition wire_frame (f : Frame) : Prop :=
  match f with
  | ParseFrame name _ => no_nul name
  | BindFrame _ statement => no_nul statement
  | _ => True
  end.

Section Reach.
Context {C : Type} `{CacheViewLaws C}.
Context (Classify : string -> list ClassifiedStatement) (svc : ServiceID).

Definition config : Type := ConnState * C * list event.

(** A frame is handled (under any rules: the policy may be swapped at any time); upstream's
    ReadyForQuery or COPY responses change the upstream-facing fields; a held Parse is approved,
    which caches it and forwards it. *)
Inductive mstep : config -> config -> Prop :=
| st_frame rules s c log f s' c' acts :
    wire_frame f ->
    TransitionWithParser Classify rules svc s f c = (s', c', acts) ->
    mstep (s, c, log) (s', c', EvFrame rules f acts :: log)
| st_upstream s c log s' :
    Absorbing s' = Absorbing s -> mstep (s, c, log) (s', c, log)
| st_approved s c log rules name sql acts t cs rule v :
    EvFrame rules (ParseFrame name sql) acts ∈ log -> ActionApproverWait t cs rule ∈ acts ->
    mstep (s, c, log) (set_dirty s true, cv_Put c name v, EvApproved name sql cs :: log).

Definition initial (cfg : config) : Prop :=
  cv_ok cfg.1.2 /\ (forall k, ~ holds cfg.1.2 k) /\ cfg.2 = [].

Definition reachable (cfg : config) : Prop := exists cfg0, initial cfg0 /\ rtc mstep cfg0 cfg.

(** The name was prepared by a forwarded Parse all of whose statements the policy let through, or
    by one an approver consented to. *)
Definition vetted (log : list event) (name : string) : Prop :=
  (exists rules sql acts, EvFrame rules (ParseFrame name sql) acts ∈ log /\ ActionForward ∈ acts /\
     forall cs, In cs (Classify sql) -> d_Verb (Evaluate cs rules svc) <> VerbApprove /\
                                        d_Verb (Evaluate cs rules svc) <> VerbDeny) \/
  (exists sql cs, EvApproved name sql cs ∈ log).

(** The portal was opened by a forwarded Bind of a name vetted before it. *)
Definition bound (log : list event) (portal : string) : Prop :=
  exists newer older rules stmt acts,
    log = newer ++ EvFrame rules (BindFrame portal stmt) acts :: older /\
    ActionForward ∈ acts /\ vetted older stmt.

Definition parse_name (e : event) : Prop :=
  match e with
  | EvFrame _ (ParseFrame name _) _ => no_nul name
  | EvApproved name _ _ => no_nul name
  | _ => True
  end.

Record minv (cfg : config) : Prop := {
  mi_ok : cv_ok cfg.1.2;
  mi_names : forall e, e ∈ cfg.2 -> parse_name e;
  mi_holds : forall k, holds cfg.1.2 k ->
    vetted cfg.2 k \/ exists p, k = portalCacheKey p /\ bound cfg.2 p
}.

Lemma vetted_cons e log k : vetted log k -> vetted (e :: log) k.
Proof.
  intros [(rules & sql & acts & ? & ?)|(sql & cs & ?)]; [left|right].
  - exists rules, sql, acts. split; [by right|done].
  - exists sql, cs. by right.
Qed.

Lemma bound_cons e log p : bound log p -> bound (e :: log) p.
Proof.
  intros (newer & older & rules & stmt & acts & -> & ?).
  by exists (e :: newer), older, rules, stmt, acts.
Qed.

Lemma justified_cons e log k :
  (vetted log k \/ exists p, k = portalCacheKey p /\ bound log p) ->
  vetted (e :: log) k \/ exists p, k = portalCacheKey p /\ bound (e :: log) p.
Proof.
  intros [?|(p & ? & ?)]; [left; by apply vetted_cons|right]. eauto using bound_cons.
Qed.

Lemma vetted_no_nul log k : (forall e, e ∈ log -> parse_name e) -> vetted log k -> no_nul k.
Proof.
  intros Hall [(rules & sql & acts & Hin & _)|(sql & cs & Hin)]; by apply Hall in Hin.
Qed.

Lemma portal_key_nul p : ~ no_nul (portalCacheKey p).
Proof. unfold no_nul, portalCacheKey. simpl. set_solver. Qed.

Lemma portal_key_inj p q : portalCacheKey p = portalCacheKey q -> p = q.
Proof. intros Heq. injection Heq. done. Qed.

Lemma minv_frame rules s c log f s' c' acts :
  wire_frame f -> TransitionWithParser Classify rules svc s f c = (s', c', acts) ->
  minv (s, c, log) -> minv (s', c', EvFrame rules f acts :: log).
Proof.
  intros Hw Ht [Hok Hn Hh]. simpl in *.
  assert (Hn' : forall e, e ∈ EvFrame rules f acts :: log -> parse_name e).
  { intros e [->|He]%elem_of_cons; [|auto]. by destruct f. }
  assert (Hkeep : c' = c -> minv (s', c', EvFrame rules f acts :: log)).
  { intros ->. constructor; simpl; try done. intros k Hk. apply justified_cons. auto. }
  destruct f as [| name sql | portal stmt | | portal | | | ty name | | | | |];
    try (apply Hkeep; by apply other_cache in Ht).
  - destruct (decide (existsb is_forward acts = true)) as [Hf|Hf].
    + apply existsb_exists in Hf as (a & Ha & Hfa). apply list_elem_of_In in Ha.
      destruct a; try done.
      destruct (parse_forward _ _ _ _ _ _ _ _ _ _ Ht Ha) as [[v ->] Hpass].
      constructor; simpl; [by apply cv_Put_ok|done|].
      intros k [->|Hk]%cv_Put_holds; [|by apply justified_cons; auto|done].
      left. left. exists rules, sql, acts. split; [left|]. split; [done|].
      by apply evalLoop_pass.
    + apply Hkeep. eapply parse_no_forward; [exact Ht|]. intros Ha. apply Hf.
      apply existsb_exists. exists ActionForward. split; [by apply list_elem_of_In|done].
  - apply bind_cases in Ht as [[-> _]|[(-> & _ & _)|(Hs & [v ->] & ->)]]; [by apply Hkeep| |].
    + constructor; simpl; [by apply cv_Get_ok|done|].
      intros k Hk%cv_Get_holds; [|done]. apply justified_cons. auto.
    + constructor; simpl; [by apply cv_Put_ok, cv_Get_ok|done|].
      intros k [->|Hk]%cv_Put_holds; [| |by apply cv_Get_ok].
      * right. exists portal. split; [done|]. exists [], log, rules, stmt, [ActionForward].
        split; [done|]. split; [left|].
        destruct (Hh stmt Hs) as [?|(p & -> & _)]; [done|]. by apply portal_key_nul in Hw.
      * apply cv_Get_holds in Hk; [|done]. apply justified_cons. auto.
  - apply execute_cases in Ht as [[->| ->] _]; [by apply Hkeep|].
    constructor; simpl; [by apply cv_Get_ok|done|].
    intros k Hk%cv_Get_holds; [|done]. apply justified_cons. auto.
  - apply close_cache in Ht as [->|[k0 ->]]; [by apply Hkeep|].
    constructor; simpl; [by apply cv_Delete_ok|done|].
    intros k [_ Hk]%cv_Delete_holds; [|done]. apply justified_cons. auto.
Qed.

Lemma minv_step cfg cfg' : mstep cfg cfg' -> minv cfg -> minv cfg'.
Proof.
  intros [rules s c log f s' c' acts Hw Ht|s c log s' _|s c log rules name sql acts t cs rule v Hin _].
  - by apply minv_frame.
  - by intros [? ? ?].
  - intros [Hok Hn Hh]. simpl in *. constructor; simpl; [by apply cv_Put_ok| |].
    + intros e [->|He]%elem_of_cons; [|auto]. by apply Hn in Hin.
    + intros k [->|Hk]%cv_Put_holds; [|by apply justified_cons; auto|done].
      left. right. exists sql, cs. left.
Qed.

Lemma reachable_minv cfg : reachable cfg -> minv cfg.
Proof.
  intros (cfg0 & (Hok & Hno & Hlog) & Hr). assert (Hinit : minv cfg0).
  { constructor; [done| |].
    - rewrite Hlog. set_solver.
    - intros k Hk. by apply Hno in Hk. }
  clear Hok Hno Hlog. induction Hr as [|x y z Hs _ IH]; [done|]. apply IH. by eapply minv_step.
Qed.

(** C6. Complete mediation of Execute: on every reachable configuration, whatever policy swaps
    and upstream responses happened, an Execute is forwarded only when its portal was opened by a
    forwarded Bind of a statement that was vetted before that Bind: prepared by a forwarded Parse
    whose every statement the policy let through, or by one an approver consented to. *)
Theorem execute_mediated s c log rules portal s' c' acts :
  reachable (s, c, log) ->
  TransitionWithParser Classify rules svc s (ExecuteFrame portal) c = (s', c', acts) ->
  ActionForward ∈ acts -> bound log portal.
Proof.
  intros [Hok Hn Hh]%reachable_minv Ht Hf. simpl in Hok, Hn, Hh.
  apply execute_cases in Ht as [_ Ht]. specialize (Ht Hf).
  destruct (Hh _ Ht) as [Hv|(p & Heq & Hb)].
  - apply vetted_no_nul in Hv; [|done]. by apply portal_key_nul in Hv.
  - by apply portal_key_inj in Heq as ->.
Qed.

End Reach.
End Reach.

(** ** What the state machine guarantees *)
Module MachineTheorems.
Import Reach.

(** A connection on which "s1" was parsed and bound to the unnamed portal under the sample policy. *)
Definition classify_sample (sql : string) : list ClassifiedStatement :=
  if sql ==? "select" then [Sample.select ["t"]]
  else if sql ==? "users" then [Sample.select ["users"]]
  else if sql ==? "secrets" then [Sample.select ["secrets"]]
  else if sql ==? "users; secrets" then [Sample.select ["users"]; Sample.select ["secrets"]]
  else [].

Definition s0 : ConnState := mkConnState PhaseIdle RFQ_I false false None.

(** The configuration after a list of frames. *)
Fixpoint feed (cfg : config (C := FakeCacheView)) (fs : list Frame) : config :=
  match fs with
  | [] => cfg
  | f :: fs' =>
    let '(s, c, log) := cfg in
    let '(s', c', acts) := TransitionWithParser classify_sample (Some Sample.policy) "pg" s f c in
    feed (s', c', EvFrame (Some Sample.policy) f acts :: log) fs'
  end.

Lemma feed_reachable cfg fs :
  (forall f, f ∈ fs -> wire_frame f) ->
  reachable classify_sample "pg" cfg -> reachable classify_sample "pg" (feed cfg fs).
Proof.
  revert cfg. induction fs as [|f fs IH]; intros [[s c] log] Hw Hr; simpl; [done|].
  destruct (TransitionWithParser _ _ _ s f c) as [[s' c'] acts] eqn:Et.
  apply IH; [intros; apply Hw; by right|]. destruct Hr as (cfg0 & Hi & Hr).
  exists cfg0. split; [done|]. eapply rtc_r; [exact Hr|]. apply st_frame; [|done].
  apply Hw. left.
Qed.

Definition start : config (C := FakeCacheView) := (s0, NewFakeCacheView, []).

Lemma start_reachable : reachable classify_sample "pg" start.
Proof.
  exists start. split; [|apply rtc_refl]. split; [exact I|]. split; [|reflexivity].
  intros k [v Hv]. simpl in Hv. by rewrite lookup_empty in Hv.
Qed.

Definition prepared : config (C := FakeCacheView) :=
  feed start [ParseFrame "s1" "select"; BindFrame "" "s1"].

Lemma execute_mediated_witness :
  bound classify_sample "pg" prepared.2 "".
Proof.
  eapply (execute_mediated classify_sample "pg" prepared.1.1 prepared.1.2 prepared.2
            (Some Sample.policy) "" _ _ [ActionForward]).
  - change (reachable classify_sample "pg" prepared). apply feed_reachable; [|apply start_reachable].
    intros f Hf. rewrite !elem_of_cons in Hf.
    destruct Hf as [->|[->|Hf]]; [..|by apply not_elem_of_nil in Hf]; simpl; unfold no_nul; decide_vm.
  - vm_compute. reflexivity.
  - left.
Defined.

Section Theorems.
Context {C : Type} `{CacheViewLaws C}.
Context (Classify : string -> list ClassifiedStatement) (rules : option RuleSet) (svc : ServiceID).
Implicit Types (s : ConnState) (c : C).

Local Notation trans := (TransitionWithParser Classify rules svc).

(** Inside an absorbing window every frame except Sync, Terminate and the frame kinds that
    close the connection is dropped: nothing is sent, and neither the state nor the cache
    changes. *)
Theorem absorbing_suppresses s c f :
  Absorbing s = true ->
  match Kind f with
  | FrameKindSync | FrameKindTerminate | FrameKindFunctionCall | FrameKindCopyData
  | FrameKindCopyDone | FrameKindCopyFail => True
  | _ => trans s f c = (s, c, [ActionSuppress])
  end.
Proof.
  intros Ha. destruct f; simpl; try done; unfold keep, handleQuery, handleParse, handleBind,
    handleDescribe, handleExecute, handleFlush, handleClose; by rewrite Ha.
Qed.

(** C9. SQL reaches upstream only when the policy lets all of it through: a Query or Parse frame
    is forwarded only outside the absorbing window and only if no statement of it is decided deny or
    approve.  A frame that is not forwarded leaves the cache as it is: in the absorbing window (after
    a denial, until the next Sync) it is suppressed unseen; otherwise the first statement that is
    denied, with none held for approval before it, yields exactly the deny route of its rule, and
    one that is held yields a single wait action. *)
Theorem sql_forwarded_only_if_allowed s c f sql s' c' acts :
  f = QueryFrame sql \/ (exists name, f = ParseFrame name sql) ->
  trans s f c = (s', c', acts) ->
  (ActionForward ∈ acts -> acts = [ActionForward] /\ Absorbing s = false /\
     forall cs, In cs (Classify sql) -> d_Verb (Evaluate cs rules svc) <> VerbApprove /\
                                        d_Verb (Evaluate cs rules svc) <> VerbDeny) /\
  (ActionForward ∉ acts -> c' = c /\
     ((Absorbing s = true /\ s' = s /\ acts = [ActionSuppress]) \/
      (Absorbing s = false /\ exists d, evalLoop rules svc (Classify sql) = Denied d /\ d_Verb d = VerbDeny /\
        acts = denyActions rules s d) \/
      (Absorbing s = false /\ exists d cs t rule, evalLoop rules svc (Classify sql) = NeedsApproval d cs /\
        acts = [ActionApproverWait t cs rule]))).
Proof.
  intros Hf Ht. destruct (Absorbing s) eqn:Ha.
  { assert (trans s f c = (s, c, [ActionSuppress])) as Hs.
    { destruct Hf as [->|[name ->]]; simpl; unfold keep, handleQuery, handleParse; by rewrite Ha. }
    rewrite Hs in Ht. injection Ht as <- <- <-. split; [by intros ?%list_elem_of_singleton|]. auto 10. }
  assert (Hcases : (evalLoop rules svc (Classify sql) = AllPass /\ acts = [ActionForward]) \/
    (exists d, evalLoop rules svc (Classify sql) = Denied d /\ acts = denyActions rules s d /\ c' = c) \/
    (exists d cs t rule, evalLoop rules svc (Classify sql) = NeedsApproval d cs /\
       acts = [ActionApproverWait t cs rule] /\ c' = c)).
  { destruct Hf as [->|[name ->]]; simpl in Ht; unfold keep, handleQuery, handleParse in Ht;
      rewrite Ha in Ht; destruct (evalLoop rules svc (Classify sql)) as [|d cs|d] eqn:El;
      injection Ht as <- <- <-; eauto 10;
      right; right; unfold newApproverWaitAction; eauto 10. }
  destruct Hcases as [[El ->]|[(d & El & -> & ->)|(d & cs & t & rule & El & -> & ->)]]; split.
  - intros _. split_and!; [done..|]. by apply evalLoop_pass.
  - intros Hn. exfalso. apply Hn. left.
  - intros Hin. by apply DenyRoute_no_forward in Hin.
  - intros _. split; [done|]. right. left. split; [done|]. exists d.
    destruct (evalLoop_denied _ _ _ _ El) as (? & _ & _ & ?). done.
  - intros Hin. apply list_elem_of_singleton in Hin. done.
  - intros _. split; [done|]. right. right. eauto 10.
Qed.

(** Every deny route tells the client why first, ends the connection exactly when a
    transaction is open and the rule does not ask to roll back, injects ROLLBACK exactly when it
    does, and never forwards the frame. *)
Theorem deny_route_sound s rule msg st :
  exists sev rest, DenyRoute s rule msg st = ActionSynthError st msg sev :: rest /\
    ActionForward ∉ rest /\
    (ActionClose ∈ rest <->
       in_tx s /\ sr_DenyModeInTx rule <> "rollback_then_continue") /\
    (ActionInjectRollback ∈ rest <->
       in_tx s /\ sr_DenyModeInTx rule = "rollback_then_continue") /\
    (ActionClose ∈ rest <-> sev = "FATAL").
Proof.
  destruct (DenyRoute_cases s rule msg st) as [(?&?&->)|[(?&?&->)|[(?&?&->)|(?&?&->)]]];
    do 2 eexists; (split; [reflexivity|]); set_solver.
Qed.

(** Sync always resolves the window: afterwards the connection neither absorbs nor is dirty,
    and the client is answered exactly once, by upstream (the Sync is forwarded) or, when nothing
    of the window reached upstream, by a synthetic ReadyForQuery. *)
Theorem sync_resolves s c :
  let '(s', c', acts) := trans s SyncFrame c in
  Absorbing s' = false /\ UpstreamDirtySinceSync s' = false /\ c' = c /\
  (acts = [ActionSynthReadyForQuery RFQ_I] <->
     Absorbing s = true /\ UpstreamDirtySinceSync s = false) /\
  (ActionForward ∈ acts <-> acts <> [ActionSynthReadyForQuery RFQ_I]).
Proof.
  simpl. unfold keep, handleSync. destruct s as [ph rfq ab dirty tx].
  destruct ab, dirty; simpl; split_and!; try done; try (split; intros; try done; try naive_solver);
    set_solver.
Qed.

End Theorems.

Lemma absorbing_suppresses_witness :
  let s := set_absorbing s0 true in
  TransitionWithParser classify_sample (Some Sample.policy) "pg" s (QueryFrame "select")
    NewFakeCacheView = (s, NewFakeCacheView, [ActionSuppress]).
Proof.
  intros s. exact (absorbing_suppresses classify_sample (Some Sample.policy) "pg" s
                     NewFakeCacheView (QueryFrame "select") eq_refl).
Defined.

Lemma sql_forwarded_only_if_allowed_witness :
  classify_sample "select" <> [] /\
  (forall cs, In cs (classify_sample "select") ->
     d_Verb (Evaluate cs (Some Sample.policy) "pg") <> VerbApprove /\
     d_Verb (Evaluate cs (Some Sample.policy) "pg") <> VerbDeny).
Proof.
  split; [done|].
  edestruct (sql_forwarded_only_if_allowed classify_sample (Some Sample.policy) "pg" s0
               NewFakeCacheView (ParseFrame "s1" "select") "select") as [Hf _].
  - right. by eexists.
  - vm_compute. reflexivity.
  - apply Hf. left.
Defined.

(** A denied Parse outside a transaction answers the client with ReadyForQuery, and so does the
    Sync that ends its window: two for one Sync. *)
Example denied_parse_answers_twice :
  let '(s1, c1, acts1) := TransitionWithParser classify_sample (Some Sample.policy) "pg" s0
                            (ParseFrame "" "secrets") NewFakeCacheView in
  let '(s2, c2, acts2) := TransitionWithParser classify_sample (Some Sample.policy) "pg" s1
                            SyncFrame c1 in
  acts1 = [ActionSynthError "42501" "denied by AepCaw policy: secrets" "";
           ActionSynthReadyForQuery RFQ_I] /\
  acts2 = [ActionSynthReadyForQuery RFQ_I].
Proof. vm_compute. done. Qed.

(** A statement held for approval hides a denied one behind it in the same frame. *)
Example approval_hides_deny :
  let '(_, _, acts) := TransitionWithParser classify_sample (Some Sample.policy) "pg" s0
                         (QueryFrame "users; secrets") NewFakeCacheView in
  (exists t rule, acts = [ActionApproverWait t (Sample.select ["users"]) rule]) /\
  d_Verb (Evaluate (Sample.select ["secrets"]) (Some Sample.policy) "pg") = VerbDeny.
Proof. vm_compute. eauto. Qed.

(** The wait uses the explicit timeout of the primary rule even when another contributing rule has
    a shorter one, which the decision itself carries. *)
Example wait_ignores_shortest_timeout :
  let slow := {| csr_ptr := 1%nat;
                 csr_src := {| sr_Name := "slow"; sr_DBService := ""; sr_DBFamily := "";
                               sr_DBDialect := ""; sr_Schemas := []; sr_Objects := ["*"];
                               sr_Relations := []; sr_Functions := []; sr_Operations := ["read"];
                               sr_Subtypes := []; sr_MatchObjectResolution := "";
                               sr_RequireWhere := false; sr_Decision := "approve"; sr_Message := "";
                               sr_Timeout := 600; sr_Redirect := None;
                               sr_AcknowledgeAuditOnDangerous := false; sr_DenyModeInTx := "" |};
                 csr_verb := VerbApprove; csr_groups := {[GroupRead]}; csr_subtypes := ∅;
                 csr_requireWhere := false; csr_resolution := resAny; csr_schemas := [];
                 csr_objects := [Sample.any_glob]; csr_relations := []; csr_functions := [];
                 csr_timeout := 600; csr_msgTemplate := None; csr_redirect := None;
                 csr_serviceFilter := {| sf_service := ""; sf_family := ""; sf_dialect := "" |} |} in
  let rs := Some (Sample.ruleset [slow; Sample.approve_users] []) in
  let d := Evaluate (Sample.select ["users"]) rs "pg" in
  ar_Timeout <$> d_Approval d = Some 60 /\
  newApproverWaitAction d (Sample.select ["users"]) (lookupStatementRule rs (d_RuleName d)) =
    ActionApproverWait 600 (Sample.select ["users"]) (csr_src slow).
Proof. vm_compute. done. Qed.

End MachineTheorems.
