(* ===== verification/GoJson.v ===== *)
(** * JSON as the Go standard library reads and writes it

    What the audit packages use of [encoding/json]: values decoded into [map[string]any] with
    [UseNumber], the decoder's grammar with its two error kinds (truncated input and syntax error)
    and its nesting limit, and [json.Marshal] with HTML escaping.  A decoded object is an
    association list sorted by key, so marshalling a map, which sorts keys, prints the list in
    order; a struct is printed in field order.  The theorems of the audit components rest on the
    round trip [parse_marshal]. *)

From Stdlib Require Import ZArith Lia Ascii String DecimalString DecimalZ Sorted.
From stdpp Require Import base list strings sets gmap.
From S2P Require Import Prelude GoText.
Open Scope string_scope.
Open Scope list_scope.
Open Scope Z_scope.

Module Json.

Inductive json : Type :=
| JNull
| JBool (b : bool)
| JNumber (lit : list Z)
| JString (s : string)
| JArray (l : list json)
| JObject (m : list (string * json)).

(** ** Decoder *)

(** [io.ErrUnexpectedEOF], [*json.SyntaxError] and [*json.UnmarshalTypeError]. *)
Inductive jerr : Type := JUnexpectedEOF | JSyntaxError | JTypeError.

Definition parse A : Type := result jerr (A * list Z).

Definition is_ws (b : Z) : bool := (b =? 32) || (b =? 9) || (b =? 10) || (b =? 13).

Fixpoint skip_ws (bs : list Z) : list Z :=
  match bs with
  | b :: r => if is_ws b then skip_ws r else bs
  | [] => []
  end.

(** The rest of a literal [true], [false] or [null]. *)
Fixpoint parse_lit {A} (lit : list Z) (v : A) (bs : list Z) : parse A :=
  match lit, bs with
  | [], _ => Ok (v, bs)
  | _ :: _, [] => Err JUnexpectedEOF
  | c :: lit', b :: r => if b =? c then parse_lit lit' v r else Err JSyntaxError
  end.

Definition is_digit (b : Z) : bool := between 48 b 57.

Fixpoint span_digits (bs : list Z) : list Z * list Z :=
  match bs with
  | b :: r => if is_digit b then let '(ds, r') := span_digits r in (b :: ds, r') else ([], bs)
  | [] => ([], [])
  end.

(** At least one digit. *)
Definition digits1 (bs : list Z) : parse (list Z) :=
  match span_digits bs with
  | ([], []) => Err JUnexpectedEOF
  | ([], _ :: _) => Err JSyntaxError
  | (ds, r) => Ok (ds, r)
  end.

Definition parse_int (bs : list Z) : parse (list Z) :=
  match bs with
  | [] => Err JUnexpectedEOF
  | b :: r => if b =? 48 then Ok ([48], r) else digits1 bs
  end.

Definition parse_frac (bs : list Z) : parse (list Z) :=
  match bs with
  | 46 :: r => '(ds, r') <-? digits1 r ; Ok (46 :: ds, r')
  | _ => Ok ([], bs)
  end.

Definition parse_exp (bs : list Z) : parse (list Z) :=
  match bs with
  | e :: r =>
    if (e =? 101) || (e =? 69) then
      match r with
      | sgn :: r1 =>
        if (sgn =? 43) || (sgn =? 45) then '(ds, r') <-? digits1 r1 ; Ok (e :: sgn :: ds, r')
        else '(ds, r') <-? digits1 r ; Ok (e :: ds, r')
      | [] => Err JUnexpectedEOF
      end
    else Ok ([], bs)
  | [] => Ok ([], [])
  end.

(** A number literal, kept as text ([json.Number]). *)
Definition parse_number (bs : list Z) : parse (list Z) :=
  let '(sign, bs1) := match bs with 45 :: r => ([45], r) | _ => ([], bs) end in
  '(i, bs2) <-? parse_int bs1 ;
  '(f, bs3) <-? parse_frac bs2 ;
  '(e, bs4) <-? parse_exp bs3 ;
  Ok (sign ++ i ++ f ++ e, bs4).

Definition hex_value (b : Z) : option Z :=
  if between 48 b 57 then Some (b - 48)
  else if between 97 b 102 then Some (b - 87)
  else if between 65 b 70 then Some (b - 55)
  else None.

(** Four hexadecimal digits after [\u], one scanner step per digit. *)
Fixpoint parse_hex (n : nat) (acc : Z) (bs : list Z) : parse Z :=
  match n with
  | O => Ok (acc, bs)
  | S n' =>
    match bs with
    | [] => Err JUnexpectedEOF
    | b :: r => match hex_value b with
                | Some v => parse_hex n' (acc * 16 + v) r
                | None => Err JSyntaxError
                end
    end
  end.

(** [getu4]: the value of a [\uXXXX] at the front, if there is one. *)
Definition getu4 (bs : list Z) : option (Z * list Z) :=
  match bs with
  | 92 :: 117 :: r => match parse_hex 4 0 r with Ok p => Some p | Err _ => None end
  | _ => None
  end.

Definition is_surrogate (r : Z) : bool := between 55296 r 57343.

(** [utf16.DecodeRune]. *)
Definition utf16_decode (r1 r2 : Z) : Z :=
  if between 55296 r1 56319 && between 56320 r2 57343
  then (r1 - 55296) * 1024 + (r2 - 56320) + 65536 else RuneError.

(** The rune of an escape [\uXXXX] whose digits have been read, and the input after it: a
    surrogate is combined with a following one or replaced. *)
Definition unicode_escape (rr : Z) (bs : list Z) : Z * list Z :=
  if is_surrogate rr then
    match getu4 bs with
    | Some (rr1, r) =>
      if utf16_decode rr rr1 =? RuneError then (RuneError, bs) else (utf16_decode rr rr1, r)
    | None => (RuneError, bs)
    end
  else (rr, bs).

Definition simple_escape (b : Z) : option Z :=
  if (b =? 34) || (b =? 92) || (b =? 47) then Some b
  else if b =? 98 then Some 8 else if b =? 102 then Some 12
  else if b =? 110 then Some 10 else if b =? 114 then Some 13
  else if b =? 116 then Some 9 else None.

(** The body of a string after its opening quote, up to and including the closing quote. *)
Fixpoint parse_string_from (n : nat) (bs : list Z) : parse (list Z) :=
  match n with
  | O => Err JUnexpectedEOF
  | S n' =>
    match bs with
    | [] => Err JUnexpectedEOF
    | b :: r =>
      if b =? 34 then Ok ([], r)
      else if b =? 92 then
        match r with
        | [] => Err JUnexpectedEOF
        | c :: r1 =>
          if c =? 117 then
            '(rr, r2) <-? parse_hex 4 0 r1 ;
            let '(rune, r3) := unicode_escape rr r2 in
            '(s, r4) <-? parse_string_from n' r3 ;
            Ok (encode_rune rune ++ s, r4)
          else match simple_escape c with
          | Some x => '(s, r2) <-? parse_string_from n' r1 ; Ok (x :: s, r2)
          | None => Err JSyntaxError
          end
        end
      else if b <? 32 then Err JSyntaxError
      else
        let '(rune, k) := DecodeRune bs in
        '(s, r1) <-? parse_string_from n' (drop k bs) ;
        Ok (encode_rune rune ++ s, r1)
    end
  end.

Definition parse_string (bs : list Z) : parse string :=
  '(s, r) <-? parse_string_from (S (length bs)) bs ; Ok (bytes_string s, r).

(** [m[k] = v] on a map, kept sorted by key. *)
Fixpoint obj_put (k : string) (v : json) (m : list (string * json)) : list (string * json) :=
  match m with
  | [] => [(k, v)]
  | (k', v') :: m' =>
    match String.compare k k' with
    | Lt => (k, v) :: m
    | Eq => (k, v) :: m'
    | Gt => (k', v') :: obj_put k v m'
    end
  end.

(** [m[k]], with the [ok] of a map lookup. *)
Definition obj_get (k : string) (m : list (string * json)) : option json := table_get m k.

(** [delete(m, k)]. *)
Definition obj_delete (k : string) (m : list (string * json)) : list (string * json) :=
  List.filter (fun p => p.1 !=? k) m.

Definition expect (c : Z) (bs : list Z) : result jerr (list Z) :=
  match bs with
  | [] => Err JUnexpectedEOF
  | b :: r => if b =? c then Ok r else Err JSyntaxError
  end.

Section Containers.
Variable parse_value : list Z -> parse json.

(** Members of an object, from the first key on; [m] holds the members read so far. *)
Fixpoint parse_members (n : nat) (m : list (string * json)) (bs : list Z)
  : parse (list (string * json)) :=
  match n with
  | O => Err JSyntaxError
  | S n' =>
    r0 <-? expect 34 bs ;
    '(k, r1) <-? parse_string r0 ;
    r2 <-? expect 58 (skip_ws r1) ;
    '(v, r3) <-? parse_value (skip_ws r2) ;
    match skip_ws r3 with
    | [] => Err JUnexpectedEOF
    | c :: r4 =>
      if c =? 44 then parse_members n' (obj_put k v m) (skip_ws r4)
      else if c =? 125 then Ok (obj_put k v m, r4)
      else Err JSyntaxError
    end
  end.

(** Elements of an array, from the first on. *)
Fixpoint parse_elements (n : nat) (bs : list Z) : parse (list json) :=
  match n with
  | O => Err JSyntaxError
  | S n' =>
    '(v, r1) <-? parse_value bs ;
    match skip_ws r1 with
    | [] => Err JUnexpectedEOF
    | c :: r2 =>
      if c =? 44 then '(vs, r3) <-? parse_elements n' (skip_ws r2) ; Ok (v :: vs, r3)
      else if c =? 93 then Ok ([v], r2)
      else Err JSyntaxError
    end
  end.

End Containers.

(** A value at the front of the input; [d] is the number of nesting levels left. *)
Fixpoint parse_value (d : nat) (bs : list Z) : parse json :=
  match bs with
  | [] => Err JUnexpectedEOF
  | b :: r =>
    if b =? 123 then
      match d with
      | O => Err JSyntaxError
      | S d' =>
        match skip_ws r with
        | [] => Err JUnexpectedEOF
        | c :: r1 =>
          if c =? 125 then Ok (JObject [], r1)
          else '(m, r2) <-? parse_members (parse_value d') (length r) [] (c :: r1) ;
               Ok (JObject m, r2)
        end
      end
    else if b =? 91 then
      match d with
      | O => Err JSyntaxError
      | S d' =>
        match skip_ws r with
        | [] => Err JUnexpectedEOF
        | c :: r1 =>
          if c =? 93 then Ok (JArray [], r1)
          else '(l, r2) <-? parse_elements (parse_value d') (length r) (c :: r1) ;
               Ok (JArray l, r2)
        end
      end
    else if b =? 34 then '(s, r1) <-? parse_string r ; Ok (JString s, r1)
    else if b =? 116 then parse_lit (string_bytes "rue") (JBool true) r
    else if b =? 102 then parse_lit (string_bytes "alse") (JBool false) r
    else if b =? 110 then parse_lit (string_bytes "ull") JNull r
    else if (b =? 45) || is_digit b then '(lit, r1) <-? parse_number bs ; Ok (JNumber lit, r1)
    else Err JSyntaxError
  end.

Definition maxNestingDepth : nat := 10000.

(** ** Encoder *)

Definition hex4 (r : Z) : list Z :=
  byte_of_char <$> [hex_digit (r / 4096); hex_digit ((r / 256) mod 16);
                    hex_digit ((r / 16) mod 16); hex_digit (r mod 16)].

Definition u_escape (r : Z) : list Z := 92 :: 117 :: hex4 r.

(** One step of [appendString] with [escapeHTML]: the text written for a rune [r] read from the
    bytes [raw]. *)
Definition append_rune (p : Z * list Z) : list Z :=
  let '(r, raw) := p in
  if between 0 r 127 then
    if (r =? 34) || (r =? 92) then [92; r]
    else if r =? 8 then [92; 98] else if r =? 12 then [92; 102]
    else if r =? 10 then [92; 110] else if r =? 13 then [92; 114]
    else if r =? 9 then [92; 116]
    else if (r <? 32) || (r =? 60) || (r =? 62) || (r =? 38) then u_escape r
    else raw
  else if (r =? RuneError) && (Nat.eqb (length raw) 1) then u_escape RuneError
  else if (r =? 8232) || (r =? 8233) then u_escape r
  else raw.

Definition marshal_string (s : string) : list Z :=
  34 :: concat (append_rune <$> range_runes (string_bytes s)) ++ [34].

Definition sep_by (sep : Z) (l : list (list Z)) : list Z :=
  match l with
  | [] => []
  | x :: l' => x ++ concat (map (fun y => sep :: y) l')
  end.

(** [json.Marshal]. *)
Fixpoint marshal (v : json) : list Z :=
  match v with
  | JNull => string_bytes "null"
  | JBool true => string_bytes "true"
  | JBool false => string_bytes "false"
  | JNumber lit => lit
  | JString s => marshal_string s
  | JArray l => 91 :: sep_by 44 (map marshal l) ++ [93]
  | JObject m =>
    123 :: sep_by 44 (map (fun p => marshal_string p.1 ++ 58 :: marshal p.2) m) ++ [125]
  end.

End Json.
Export Json.

(** ** Facts *)
Module JsonFacts.

(** *** Keys *)

Definition key_lt (a b : string) : Prop := String.compare a b = Lt.

Lemma compare_refl s : String.compare s s = Eq.
Proof.
  induction s as [|c s IH]; simpl; [done|]. unfold Ascii.compare. by rewrite N.compare_refl.
Qed.

Lemma key_lt_trans a b c : key_lt a b -> key_lt b c -> key_lt a c.
Proof.
  unfold key_lt. revert b c. induction a as [|x a IH]; intros [|y b] [|z c]; simpl; try done.
  unfold Ascii.compare.
  destruct (N.compare_spec (N_of_ascii x) (N_of_ascii y)) as [Exy| |]; [|intros _|done];
  destruct (N.compare_spec (N_of_ascii y) (N_of_ascii z)) as [Eyz| |]; try done; intros;
  destruct (N.compare_spec (N_of_ascii x) (N_of_ascii z)); try done; try lia. by eapply IH.
Qed.

Lemma key_lt_neq a b : key_lt a b -> a <> b.
Proof. unfold key_lt. intros H ->. by rewrite compare_refl in H. Qed.

Lemma compare_Gt a b : String.compare a b = Gt -> key_lt b a.
Proof. unfold key_lt. rewrite String.compare_antisym. by destruct (String.compare b a). Qed.

(** A decoded map: its keys in strictly increasing order. *)
Definition sorted_keys (m : list (string * json)) : Prop := StronglySorted key_lt m.*1.

Lemma obj_put_keys k v m p : p ∈ obj_put k v m -> p = (k, v) \/ p ∈ m.
Proof.
  induction m as [|[k' v'] m IH]; simpl; [set_solver|].
  destruct (String.compare k k'); set_solver.
Qed.

Lemma obj_put_sorted k v m : sorted_keys m -> sorted_keys (obj_put k v m).
Proof.
  unfold sorted_keys. induction m as [|[k' v'] m IH]; simpl; [repeat constructor|].
  inversion_clear 1 as [|? ? Hs Hall]. destruct (String.compare k k') eqn:E; simpl.
  - apply String.compare_eq_iff in E as ->. by constructor.
  - constructor; [by constructor|]. constructor; [done|].
    eapply Forall_impl; [exact Hall|]. intros x Hx. by eapply key_lt_trans.
  - constructor; [auto|]. apply Forall_forall. intros x Hx.
    apply list_elem_of_fmap in Hx as ([x' y] & -> & Hx).
    apply obj_put_keys in Hx as [[= -> ->]|Hx]; [by apply compare_Gt|].
    rewrite Forall_forall in Hall. apply Hall, list_elem_of_fmap. by exists (x', y).
Qed.

(** Putting a key beyond all others appends it. *)
Lemma obj_put_last k v m :
  Forall (fun k' => key_lt k' k) m.*1 -> obj_put k v m = m ++ [(k, v)].
Proof.
  induction m as [|[k' v'] m IH]; simpl; [done|]. inversion_clear 1 as [|? ? Hk Hm].
  unfold key_lt in Hk. rewrite String.compare_antisym, Hk. simpl. by rewrite IH.
Qed.

Lemma obj_get_put k v m : obj_get k (obj_put k v m) = Some v.
Proof.
  unfold obj_get. induction m as [|[k' v'] m IH]; simpl.
  - by rewrite bool_decide_eq_true_2.
  - destruct (String.compare k k') eqn:E; simpl; [by rewrite bool_decide_eq_true_2..|].
    rewrite bool_decide_eq_false_2; [done|]. apply compare_Gt, key_lt_neq in E. congruence.
Qed.

Lemma obj_get_put_ne k k' v m : k <> k' -> obj_get k (obj_put k' v m) = obj_get k m.
Proof.
  intros Hne. unfold obj_get. induction m as [|[x y] m IH]; simpl.
  - by rewrite bool_decide_eq_false_2.
  - destruct (String.compare k' x) eqn:E; simpl.
    + apply String.compare_eq_iff in E as ->. by rewrite bool_decide_eq_false_2.
    + by rewrite (bool_decide_eq_false_2 (k = k')).
    + by rewrite IH.
Qed.

Lemma obj_delete_notin k m : obj_get k m = None -> obj_delete k m = m.
Proof.
  unfold obj_get, obj_delete. induction m as [|[k' v'] m IH]; simpl; [done|].
  destruct (decide (k = k')) as [->|Hne]; [by rewrite bool_decide_eq_true_2|].
  rewrite !bool_decide_eq_false_2 by done. intros H. simpl. by rewrite IH.
Qed.

(** Deleting a key just put leaves the map without it. *)
Lemma obj_delete_put k v m : obj_get k m = None -> obj_delete k (obj_put k v m) = m.
Proof.
  unfold obj_get, obj_delete. induction m as [|[k' v'] m IH]; simpl.
  - intros _. by rewrite bool_decide_eq_true_2.
  - destruct (decide (k = k')) as [->|Hne]; [by rewrite bool_decide_eq_true_2|].
    rewrite bool_decide_eq_false_2 by done. intros H.
    destruct (String.compare k k') eqn:E; [by apply String.compare_eq_iff in E| |]; simpl.
    + rewrite (bool_decide_eq_true_2 (k = k)) by done. simpl.
      rewrite (bool_decide_eq_false_2 (k' = k)) by done. simpl. f_equal. by apply obj_delete_notin.
    + rewrite (bool_decide_eq_false_2 (k' = k)) by done. simpl. by rewrite IH.
Qed.

Lemma obj_delete_get k m : obj_get k (obj_delete k m) = None.
Proof.
  unfold obj_get, obj_delete. induction m as [|[k' v'] m IH]; simpl; [done|].
  destruct (decide (k' = k)) as [->|Hne]; [by rewrite (bool_decide_eq_true_2 (k = k))|].
  rewrite (bool_decide_eq_false_2 (k' = k)) by done. simpl.
  by rewrite bool_decide_eq_false_2 by done.
Qed.

(** *** Strings *)

Lemma hex_value_digit n : 0 <= n < 16 -> hex_value (byte_of_char (hex_digit n)) = Some n.
Proof.
  intros Hn. unfold hex_digit.
  rewrite byte_ascii_id by (unfold byte_range; case_match; lia).
  unfold hex_value, between. destruct (Z.ltb_spec n 10).
  - rewrite (proj2 (Z.leb_le 48 _)), (proj2 (Z.leb_le _ 57)) by lia. simpl. f_equal. lia.
  - rewrite (proj2 (Z.leb_le 48 _)), (proj2 (Z.leb_gt _ 57)), (proj2 (Z.leb_le 97 _)),
      (proj2 (Z.leb_le _ 102)) by lia. simpl. f_equal. lia.
Qed.

Lemma parse_hex_hex4 r rest : 0 <= r < 65536 -> parse_hex 4 0 (hex4 r ++ rest) = Ok (r, rest).
Proof.
  intros Hr. unfold hex4. cbn [fmap list_fmap app parse_hex].
  rewrite !hex_value_digit by div_lia. do 2 f_equal. div_lia.
Qed.

(** Reading a [\uXXXX] escape of a rune that is not a surrogate. *)
Lemma parse_u_escape n r rest :
  0 <= r < 55296 \/ 57344 <= r < 65536 ->
  parse_string_from (S n) (u_escape r ++ rest) =
    '(s, r') <-? parse_string_from n rest ; Ok (encode_rune r ++ s, r').
Proof.
  intros Hr. unfold u_escape. cbn [app parse_string_from]. simpl (92 =? 34). simpl (92 =? 92).
  simpl (117 =? 117). cbn [andb negb]. rewrite parse_hex_hex4 by lia. cbn [rbind].
  unfold unicode_escape, is_surrogate, between.
  destruct (_ && _) eqn:E; [lia|]. done.
Qed.

(** The first byte of an encoded rune beyond ASCII. *)
Lemma encode_rune_head r :
  scalar r -> 127 < r -> exists b bs, encode_rune r = b :: bs /\ 194 <= b.
Proof.
  unfold scalar, encode_rune. intros Hr H.
  destruct (Z.leb_spec r 127); [lia|]. destruct (Z.leb_spec r 2047).
  { do 2 eexists. split; [done|]. div_lia. }
  destruct (Z.leb_spec r 65535); do 2 eexists; (split; [done|]); div_lia.
Qed.

(** A rune copied as it is reads back as itself. *)
Lemma parse_raw_rune n r rest :
  scalar r -> 32 <= r -> r <> 34 -> r <> 92 ->
  parse_string_from (S n) (encode_rune r ++ rest) =
    '(s, r') <-? parse_string_from n rest ; Ok (encode_rune r ++ s, r').
Proof.
  intros Hs Hr Hq Hb.
  assert (exists b bs, encode_rune r = b :: bs /\ 32 <= b /\ b <> 34 /\ b <> 92) as (b & bs & E & ? & ? & ?).
  { destruct (Z.le_gt_cases r 127).
    - exists r, []. unfold encode_rune. rewrite (proj2 (Z.leb_le r 127)) by lia. done.
    - destruct (encode_rune_head r) as (b & bs & ? & ?); [done|lia|]. exists b, bs.
      split_and!; [done|lia..]. }
  pose proof (DecodeRune_encode r rest Hs) as Hd.
  rewrite E in Hd |- *. cbn [app parse_string_from] in Hd |- *.
  rewrite (proj2 (Z.eqb_neq b 34)), (proj2 (Z.eqb_neq b 92)), (proj2 (Z.ltb_ge b 32)) by lia.
  rewrite Hd. change (b :: bs ++ rest) with ((b :: bs) ++ rest). by rewrite drop_app_length, E.
Qed.

(** One rune of a marshalled string is read back, whatever follows. *)
Lemma parse_append_rune n r rest :
  scalar r ->
  parse_string_from (S n) (append_rune (r, encode_rune r) ++ rest) =
    '(s, r') <-? parse_string_from n rest ; Ok (encode_rune r ++ s, r').
Proof.
  intros Hs. assert (0 <= r < 1114112) by (unfold scalar in Hs; lia).
  unfold append_rune, between. destruct (_ && _) eqn:Ea.
  - assert (Henc : encode_rune r = [r]) by (unfold encode_rune; by rewrite (proj2 (Z.leb_le r 127)) by lia).
    destruct (r =? 34) eqn:E1; [apply Z.eqb_eq in E1 as ->; done|].
    destruct (r =? 92) eqn:E2; [apply Z.eqb_eq in E2 as ->; done|]. cbn [orb].
    destruct (r =? 8) eqn:E3; [apply Z.eqb_eq in E3 as ->; done|].
    destruct (r =? 12) eqn:E4; [apply Z.eqb_eq in E4 as ->; done|].
    destruct (r =? 10) eqn:E5; [apply Z.eqb_eq in E5 as ->; done|].
    destruct (r =? 13) eqn:E6; [apply Z.eqb_eq in E6 as ->; done|].
    destruct (r =? 9) eqn:E7; [apply Z.eqb_eq in E7 as ->; done|].
    destruct ((r <? 32) || _ || _ || _) eqn:E8; [apply parse_u_escape; lia|].
    apply parse_raw_rune; [done|lia..].
  - destruct ((r =? RuneError) && _) eqn:E1.
    { unfold RuneError in E1. assert (r = 65533) as -> by lia.
      apply parse_u_escape. unfold RuneError. lia. }
    destruct (_ || _) eqn:E2; [apply parse_u_escape; lia|].
    apply parse_raw_rune; [done|lia..].
Qed.

Lemma append_rune_nonempty p : scalar p.1 -> p.2 = encode_rune p.1 -> append_rune p <> [].
Proof.
  destruct p as [r raw]. simpl. intros Hs ->. pose proof (encode_rune_length r Hs) as Hl.
  assert (encode_rune r <> []) by (by intros H; rewrite H in Hl; simpl in Hl; lia).
  unfold append_rune. repeat case_match; done.
Qed.

Lemma parse_string_body rs n rest :
  Forall scalar rs -> (length rs < n)%nat ->
  parse_string_from n (concat (append_rune <$> ((fun r => (r, encode_rune r)) <$> rs)) ++ 34 :: rest)
  = Ok (concat (encode_rune <$> rs), rest).
Proof.
  intros Hs. revert n. induction Hs as [|r rs Hr Hs IH]; intros n Hn; (destruct n as [|n]; [simpl in Hn; lia|]).
  - done.
  - rewrite !fmap_cons. cbn [concat]. rewrite <- app_assoc, parse_append_rune by done.
    rewrite IH by (simpl in Hn; lia). done.
Qed.

Lemma concat_length_ge {A B} (f : A -> list B) l :
  Forall (fun x => f x <> []) l -> (length l <= length (concat (f <$> l)))%nat.
Proof.
  induction 1 as [|x l Hx Hl IH]; simpl; [done|]. rewrite length_app.
  destruct (f x); [done|]. unfold fmap in *. simpl. lia.
Qed.

Lemma ValidString_runes s :
  ValidString s = true ->
  exists rs, Forall scalar rs /\ string_bytes s = concat (encode_rune <$> rs) /\
    range_runes (string_bytes s) = (fun r => (r, encode_rune r)) <$> rs.
Proof.
  unfold ValidString. destruct (decode_runes _) as [rs|] eqn:E; [|done]. intros _.
  exists rs. pose proof (decode_runes_encode _ _ E) as [? ?]. split_and!; [done..|].
  by apply range_runes_valid.
Qed.

(** A marshalled valid string reads back as itself. *)
Lemma parse_marshal_string s rest :
  ValidString s = true ->
  parse_string (concat (append_rune <$> range_runes (string_bytes s)) ++ 34 :: rest) = Ok (s, rest).
Proof.
  intros (rs & Hs & Hb & ->)%ValidString_runes. unfold parse_string.
  rewrite parse_string_body; [|done|].
  - cbn [rbind]. by rewrite <- Hb, bytes_string_bytes.
  - rewrite length_app. simpl.
    assert (length rs <= length (concat (append_rune <$> ((λ r : Z, (r, encode_rune r)) <$> rs))))%nat; [|lia].
    etrans; [|apply concat_length_ge]; [by rewrite length_fmap|].
    apply Forall_fmap. eapply Forall_impl; [exact Hs|]. intros r Hr. by apply append_rune_nonempty.
Qed.

(** What the decoder produces is valid text. *)
Lemma parse_string_from_valid n bs s r :
  parse_string_from n bs = Ok (s, r) ->
  exists rs, Forall scalar rs /\ s = concat (encode_rune <$> rs).
Proof.
  revert bs s r. induction n as [|n IH]; [done|]. intros bs s r H.
  assert (Hcons : forall bs' rune r', (scalar rune) ->
    ('(s, r') <-? parse_string_from n bs' ; Ok (encode_rune rune ++ s, r')) = Ok (s, r') ->
    exists rs, Forall scalar rs /\ s = concat (encode_rune <$> rs)).
  { intros bs' rune r' Hr Hp. apply rbind_Ok in Hp as ([s1 r1] & Hp & [= <- ->]).
    destruct (IH _ _ _ Hp) as (rs & ? & ->). exists (rune :: rs). split; [by constructor|done]. }
  assert (Herr : scalar RuneError) by (unfold scalar, RuneError; lia).
  destruct bs as [|b bs]; [done|]. cbn [parse_string_from] in H.
  destruct (b =? 34) eqn:E1. { injection H as <- <-. by exists []. }
  destruct (b =? 92) eqn:E2.
  - destruct bs as [|c bs]; [done|]. destruct (c =? 117) eqn:E3.
    + apply rbind_Ok in H as ([rr r2] & Hx & H).
      destruct (unicode_escape rr r2) as [rune r3] eqn:Eu. eapply Hcons; [|exact H].
      assert (0 <= rr < 65536).
      { cbn [parse_hex] in Hx. unfold hex_value, between in Hx.
        repeat (case_match; simplify_eq/=; try done); bool_prop; lia. }
      unfold unicode_escape, utf16_decode, is_surrogate, between in Eu.
      repeat (case_match; simplify_eq/=); bool_prop; unfold scalar, RuneError in *; lia.
    + destruct (simple_escape c) as [x|] eqn:E4; [|done].
      assert (Hx : 0 <= x <= 127).
      { unfold simple_escape in E4. repeat (case_match; simplify_eq/=); lia. }
      apply (Hcons bs x r); [unfold scalar; lia|].
      unfold encode_rune. by rewrite (proj2 (Z.leb_le x 127)) by lia.
  - destruct (b <? 32) eqn:E3; [done|].
    destruct (DecodeRune_cases (b :: bs)) as [Hd|(rune & rest & Hs & _ & Hd)]; [done|..];
      rewrite Hd in H; by eapply Hcons.
Qed.

Lemma encoded_bytes_range rs :
  Forall scalar rs -> Forall byte_range (concat (encode_rune <$> rs)).
Proof.
  induction 1; simpl; [constructor|]. apply Forall_app. split; [|done]. by apply encode_rune_range.
Qed.

Lemma parse_string_valid bs s r : parse_string bs = Ok (s, r) -> ValidString s = true.
Proof.
  unfold parse_string. intros H. apply rbind_Ok in H as ([l r'] & H & [= <- ->]).
  apply parse_string_from_valid in H as (rs & Hs & ->). unfold ValidString.
  rewrite string_bytes_of by (by apply encoded_bytes_range). by rewrite decode_encode_runes.
Qed.

(** *** Numbers *)

(** Input that cannot continue a number literal. *)
Definition num_delim (bs : list Z) : Prop :=
  match bs with [] => True | b :: _ => is_digit b = false /\ b <> 46 /\ b <> 101 /\ b <> 69 end.

Definition no_digit (bs : list Z) : Prop :=
  match bs with [] => True | b :: _ => is_digit b = false end.

Lemma num_delim_no_digit bs : num_delim bs -> no_digit bs.
Proof. destruct bs; [done|]. by intros [? _]. Qed.

Lemma span_digits_spec bs ds r :
  span_digits bs = (ds, r) -> Forall (fun b => is_digit b = true) ds /\ no_digit r.
Proof.
  revert ds r. induction bs as [|b bs IH]; simpl; intros ds r H; [by injection H as <- <-|].
  destruct (is_digit b) eqn:E.
  - destruct (span_digits bs) as [ds' r'] eqn:Es. injection H as <- <-.
    destruct (IH _ _ eq_refl). auto.
  - injection H as <- <-. split; [constructor|done].
Qed.

Lemma span_digits_app ds r :
  Forall (fun b => is_digit b = true) ds -> no_digit r -> span_digits (ds ++ r) = (ds, r).
Proof.
  induction 1 as [|b ds Hb Hd IH]; simpl.
  - destruct r; simpl; [done|]. by intros ->.
  - intros Hr. by rewrite Hb, IH.
Qed.

Lemma digits1_spec bs ds r :
  digits1 bs = Ok (ds, r) ->
  ds <> [] /\ Forall (fun b => is_digit b = true) ds /\
  (forall r', no_digit r' -> digits1 (ds ++ r') = Ok (ds, r')).
Proof.
  unfold digits1. destruct (span_digits bs) as [[|d ds'] r0] eqn:E; [by destruct r0|].
  intros [= <- <-]. apply span_digits_spec in E as [Hd _]. split_and!; [done..|].
  intros r' Hr'. by rewrite span_digits_app.
Qed.

Lemma parse_int_spec bs i r :
  parse_int bs = Ok (i, r) ->
  (exists b i', i = b :: i' /\ is_digit b = true) /\
  (forall r', no_digit r' -> parse_int (i ++ r') = Ok (i, r')).
Proof.
  destruct bs as [|b bs]; [done|]. cbn [parse_int]. destruct (b =? 48) eqn:E.
  - intros [= <- <-]. split; [by eexists _, _|done].
  - intros H. assert (Hb : exists ds, i = b :: ds).
    { unfold digits1 in H. cbn [span_digits] in H. destruct (is_digit b); [|done].
      destruct (span_digits bs). injection H as <- <-. eauto. }
    destruct Hb as [ds ->]. apply digits1_spec in H as (_ & Hd & Hr).
    inversion Hd; subst. split; [eauto|]. intros r' Hr'. cbn [app parse_int]. rewrite E.
    by apply (Hr r').
Qed.

Lemma parse_frac_spec bs f r :
  parse_frac bs = Ok (f, r) ->
  f = [] \/ (exists ds, f = 46 :: ds /\ forall r', no_digit r' -> parse_frac (f ++ r') = Ok (f, r')).
Proof.
  unfold parse_frac at 1. destruct bs as [|b bs]; [intros [= <- <-]; auto|].
  destruct (decide (b = 46)) as [->|Hne].
  - intros H. apply rbind_Ok in H as ([ds r1] & Hd & [= <- <-]). right. exists ds.
    split; [done|]. intros r' Hr'. apply digits1_spec in Hd as (_ & _ & Hd). simpl.
    by rewrite Hd.
  - intros H. left. repeat case_match; simplify_eq; done.
Qed.

Lemma parse_frac_none bs : num_delim bs \/ (exists e r, bs = e :: r /\ (e = 101 \/ e = 69)) ->
  parse_frac bs = Ok ([], bs).
Proof.
  destruct bs as [|b bs]; [done|]. intros H.
  assert (b <> 46) by (destruct H as [(_ & ? & _)|(? & ? & [= <- <-] & [|])]; lia).
  unfold parse_frac. repeat case_match; simplify_eq; done.
Qed.

Lemma parse_exp_spec bs e r :
  parse_exp bs = Ok (e, r) ->
  e = [] \/ (exists c e', e = c :: e' /\ (c = 101 \/ c = 69) /\
             forall r', no_digit r' -> parse_exp (e ++ r') = Ok (e, r')).
Proof.
  destruct bs as [|c bs]; [intros [= <- <-]; auto|]. cbn [parse_exp].
  destruct (_ || _) eqn:Ec; [|intros [= <- <-]; auto].
  assert (c = 101 \/ c = 69) by lia.
  destruct bs as [|sg bs]; [done|]. destruct ((sg =? 43) || _) eqn:Es.
  - intros H'. apply rbind_Ok in H' as ([ds r1] & Hd & [= <- <-]). right. do 2 eexists.
    split_and!; [done..|]. intros r' Hr'. apply digits1_spec in Hd as (_ & _ & Hd).
    cbn [app parse_exp]. by rewrite Ec, Es, Hd.
  - intros H'. apply rbind_Ok in H' as ([ds r1] & Hd & [= <- <-]). right. do 2 eexists.
    split_and!; [done..|]. intros r' Hr'. apply digits1_spec in Hd as (Hne & Hall & Hd).
    destruct ds as [|d ds]; [done|]. cbn [app parse_exp]. rewrite Ec.
    inversion_clear Hall as [|? ? Hdig]. unfold is_digit, between in Hdig.
    destruct ((d =? 43) || _) eqn:Ed; [lia|]. change (d :: ds ++ r') with ((d :: ds) ++ r').
    by rewrite Hd.
Qed.

Lemma parse_exp_none bs : num_delim bs -> parse_exp bs = Ok ([], bs).
Proof.
  destruct bs as [|b bs]; [done|]. intros (_ & _ & ? & ?). cbn [parse_exp].
  by rewrite (proj2 (Z.eqb_neq b 101)), (proj2 (Z.eqb_neq b 69)) by lia.
Qed.

(** A number literal is read back before anything that cannot continue it. *)
Lemma parse_number_spec bs lit r :
  parse_number bs = Ok (lit, r) ->
  forall r', num_delim r' -> parse_number (lit ++ r') = Ok (lit, r').
Proof.
  unfold parse_number at 1. intros H r' Hr'.
  set (sb := match bs with 45 :: r => ([45], r) | _ => ([], bs) end) in H.
  assert (Hsign : sb.1 = [] \/ sb.1 = [45]) by (unfold sb; repeat case_match; auto).
  destruct sb as [sign bs1]. simpl in Hsign.
  apply rbind_Ok in H as ([i bs2] & Hi & H). apply rbind_Ok in H as ([f bs3] & Hf & H).
  apply rbind_Ok in H as ([e bs4] & He & [= <- <-]).
  apply parse_int_spec in Hi as [(b & i' & -> & Hb) Hi].
  apply parse_frac_spec in Hf. apply parse_exp_spec in He.
  assert (Hb45 : b <> 45) by (unfold is_digit, between in Hb; lia).
  assert (Hexp : parse_exp (e ++ r') = Ok (e, r')).
  { destruct He as [->|(c & e' & -> & ? & He)]; [by apply parse_exp_none|].
    apply He. by apply num_delim_no_digit. }
  assert (Hnd : no_digit (e ++ r')).
  { destruct He as [->|(c & e' & -> & [->| ->] & He)]; [by apply num_delim_no_digit|done..]. }
  assert (Hfrac : parse_frac (f ++ e ++ r') = Ok (f, e ++ r')).
  { destruct Hf as [->|(ds & -> & Hf)]; [|by apply Hf].
    apply parse_frac_none. destruct He as [->|(c & e' & -> & ? & He)]; [by left|right; eauto]. }
  assert (Hint : parse_int ((b :: i') ++ f ++ e ++ r') = Ok (b :: i', f ++ e ++ r')).
  { apply Hi. destruct Hf as [->|(ds & -> & Hf)]; done. }
  assert (Hgo : forall sign', ('(i, bs2) <-? parse_int ((b :: i') ++ f ++ e ++ r') ;
     '(f, bs3) <-? parse_frac bs2 ; '(e, bs4) <-? parse_exp bs3 ;
     Ok (sign' ++ i ++ f ++ e, bs4)) = Ok (sign' ++ (b :: i') ++ f ++ e, r')).
  { intros sign'. rewrite Hint. cbn [rbind]. rewrite Hfrac. cbn [rbind]. by rewrite Hexp. }
  unfold parse_number. rewrite <- !app_assoc.
  destruct Hsign as [-> | ->]; [|exact (Hgo [45])].
  transitivity ('(i, bs2) <-? parse_int ((b :: i') ++ f ++ e ++ r') ;
     '(f, bs3) <-? parse_frac bs2 ; '(e, bs4) <-? parse_exp bs3 ;
     @Ok jerr _ ([] ++ i ++ f ++ e, bs4)); [|exact (Hgo [])].
  cbn [app]. repeat case_match; simplify_eq; done.
Qed.

Definition valid_number (lit : list Z) : Prop :=
  (exists b r, lit = b :: r /\ (b = 45 \/ is_digit b = true)) /\
  forall r, num_delim r -> parse_number (lit ++ r) = Ok (lit, r).

Lemma parse_number_valid bs lit r :
  parse_number bs = Ok (lit, r) -> valid_number lit.
Proof.
  intros H. split; [|by apply (parse_number_spec _ _ _ H)].
  unfold parse_number in H.
  set (sb := match bs with 45 :: r => ([45], r) | _ => ([], bs) end) in H.
  assert (Hsign : sb.1 = [] \/ sb.1 = [45]) by (unfold sb; repeat case_match; auto).
  destruct sb as [sign bs1]. simpl in Hsign.
  apply rbind_Ok in H as ([i bs2] & Hi & H). apply rbind_Ok in H as ([f bs3] & Hf & H).
  apply rbind_Ok in H as ([e bs4] & He & [= <- <-]).
  apply parse_int_spec in Hi as [(b & i' & -> & Hb) _].
  destruct Hsign as [-> | ->]; do 2 eexists; (split; [done|auto]).
Qed.

Lemma string_of_uint_digits d :
  Forall (fun b => is_digit b = true) (string_bytes (NilEmpty.string_of_uint d)).
Proof. induction d; simpl; constructor; auto. Qed.

(** A positive integer prints as digits, the first of which is not zero. *)
Lemma to_uint_digits p :
  exists b ds, string_bytes (NilZero.string_of_uint (Pos.to_uint p)) = b :: ds /\ b <> 48 /\
    is_digit b = true /\ Forall (fun b => is_digit b = true) ds.
Proof.
  assert (Hn : Decimal.unorm (Pos.to_uint p) = Pos.to_uint p).
  { change (Pos.to_uint p) with (N.to_uint (Npos p)).
    by rewrite <- DecimalN.Unsigned.to_of, DecimalN.Unsigned.of_to. }
  assert (Hz : forall d, Pos.to_uint p <> Decimal.D0 d).
  { intros d Hd. unfold Decimal.unorm in Hn. destruct (Decimal.nzhead (Pos.to_uint p)) eqn:E;
      rewrite <- Hn in Hd; try discriminate.
    - pose proof (DecimalPos.Unsigned.of_to p) as Ho. rewrite <- Hn in Ho. done.
    - by apply DecimalFacts.nzhead_nonzero in E. }
  pose proof (DecimalPos.Unsigned.to_uint_nonnil p) as Hnil.
  destruct (Pos.to_uint p) as [|d|d|d|d|d|d|d|d|d|d] eqn:E; [done|by edestruct Hz|..];
    simpl; do 2 eexists; (split; [reflexivity|]); (split; [done|]); (split; [done|]);
    apply string_of_uint_digits.
Qed.

Lemma parse_int_digits b ds r :
  b <> 48 -> is_digit b = true -> Forall (fun b => is_digit b = true) ds -> no_digit r ->
  parse_int ((b :: ds) ++ r) = Ok (b :: ds, r).
Proof.
  intros Hb Hd Hds Hr. cbn [app parse_int]. rewrite (proj2 (Z.eqb_neq b 48)) by done.
  unfold digits1. change (b :: ds ++ r) with ((b :: ds) ++ r).
  by rewrite span_digits_app by (by constructor || done).
Qed.

(** Decimal integers are number literals. *)
Lemma FormatInt_valid z : valid_number (string_bytes (FormatInt z)).
Proof.
  destruct z as [|p|p].
  - split; [by eexists _, _; split; [reflexivity|right]|].
    intros r Hr. unfold parse_number. cbn [app string_bytes FormatInt].
    change (string_bytes (FormatInt 0)) with [48]. cbn [app parse_int rbind].
    simpl (48 =? 48). cbn [rbind]. rewrite parse_frac_none by auto. cbn [rbind].
    by rewrite parse_exp_none.
  - destruct (to_uint_digits p) as (b & ds & E & Hb & Hd & Hds).
    assert (Hs : string_bytes (FormatInt (Z.pos p)) = b :: ds) by exact E.
    rewrite Hs. split; [by eexists _, _; split; [reflexivity|right]|].
    assert (Hb45 : b <> 45) by (unfold is_digit, between in Hd; lia).
    intros r Hr. unfold parse_number.
    transitivity ('(i, bs2) <-? parse_int ((b :: ds) ++ r) ; '(f, bs3) <-? parse_frac bs2 ;
      '(e, bs4) <-? parse_exp bs3 ; @Ok jerr _ ([] ++ i ++ f ++ e, bs4)).
    { cbn [app]. repeat case_match; simplify_eq; done. }
    rewrite parse_int_digits by (done || by apply num_delim_no_digit). cbn [rbind].
    rewrite parse_frac_none by auto. cbn [rbind]. rewrite parse_exp_none by done.
    cbn [rbind]. by rewrite !app_nil_r.
  - destruct (to_uint_digits p) as (b & ds & E & Hb & Hd & Hds).
    assert (Hs : string_bytes (FormatInt (Z.neg p)) = 45 :: b :: ds)
      by (unfold FormatInt; simpl; f_equal; exact E).
    rewrite Hs. split; [by eexists _, _; split; [reflexivity|left]|].
    intros r Hr. unfold parse_number. cbn [app].
    change (b :: ds ++ r) with ((b :: ds) ++ r).
    rewrite parse_int_digits by (done || by apply num_delim_no_digit). cbn [rbind].
    rewrite parse_frac_none by auto. cbn [rbind]. rewrite parse_exp_none by done.
    cbn [rbind app]. by rewrite !app_nil_r.
Qed.

(** *** Values *)

(** What Go decodes a marshalled value to: every object becomes a sorted map. *)
Fixpoint canon (v : json) : json :=
  match v with
  | JArray l => JArray (map canon l)
  | JObject m => JObject (fold_left (fun acc p => obj_put p.1 p.2 acc)
                            (map (fun p => (p.1, canon p.2)) m) [])
  | _ => v
  end.

(** Values whose strings are valid text and whose numbers are literals. *)
Fixpoint wf (v : json) : Prop :=
  match v with
  | JNumber lit => valid_number lit
  | JString s => ValidString s = true
  | JArray l => fold_right (fun x P => wf x /\ P) True l
  | JObject m => fold_right (fun p P => (ValidString p.1 = true /\ wf p.2) /\ P) True m
  | _ => True
  end.

Fixpoint depth (v : json) : nat :=
  match v with
  | JArray l => S (fold_right (fun x n => Nat.max (depth x) n) 0%nat l)
  | JObject m => S (fold_right (fun p n => Nat.max (depth p.2) n) 0%nat m)
  | _ => 0%nat
  end.

(** Decoded values: maps sorted at every level. *)
Fixpoint sorted (v : json) : Prop :=
  match v with
  | JArray l => fold_right (fun x P => sorted x /\ P) True l
  | JObject m => sorted_keys m /\ fold_right (fun p P => sorted p.2 /\ P) True m
  | _ => True
  end.

Section json_induction.
Variable P : json -> Prop.
Hypothesis Hnull : P JNull.
Hypothesis Hbool : forall b, P (JBool b).
Hypothesis Hnum : forall lit, P (JNumber lit).
Hypothesis Hstr : forall s, P (JString s).
Hypothesis Harr : forall l, Forall P l -> P (JArray l).
Hypothesis Hobj : forall m, Forall (fun p => P p.2) m -> P (JObject m).

Fixpoint json_induction (v : json) : P v :=
  match v with
  | JNull => Hnull
  | JBool b => Hbool b
  | JNumber lit => Hnum lit
  | JString s => Hstr s
  | JArray l => Harr l ((fix go l : Forall P l :=
      match l with
      | [] => Forall_nil_2 _
      | x :: l' => Forall_cons_2 _ _ _ (json_induction x) (go l')
      end) l)
  | JObject m => Hobj m ((fix go m : Forall (fun p => P p.2) m :=
      match m with
      | [] => Forall_nil_2 _
      | p :: m' => Forall_cons_2 _ _ _ (json_induction p.2) (go m')
      end) m)
  end.
End json_induction.

Lemma fold_and_Forall {A} (Q : A -> Prop) l :
  fold_right (fun x P => Q x /\ P) True l <-> Forall Q l.
Proof.
  induction l as [|x l IH]; simpl; [split; [constructor|done]|]. by rewrite Forall_cons, IH.
Qed.

Lemma fold_max_le {A} (f : A -> nat) l d :
  (fold_right (fun x n => Nat.max (f x) n) 0 l <= d)%nat <-> Forall (fun x => f x <= d)%nat l.
Proof.
  induction l as [|x l IH]; simpl; [split; [constructor|lia]|]. rewrite Forall_cons, <- IH. lia.
Qed.

(** A sorted list of members is the map it builds. *)
Lemma fold_put_sorted m :
  sorted_keys m -> fold_left (fun acc p => obj_put p.1 p.2 acc) m [] = m.
Proof.
  assert (Hg : forall m acc, sorted_keys (acc ++ m) ->
    fold_left (fun acc p => obj_put p.1 p.2 acc) m acc = acc ++ m).
  { clear. induction m as [|[k v] m IH]; intros acc Hs; simpl; [by rewrite app_nil_r|].
    rewrite obj_put_last.
    - rewrite IH by (by rewrite <- app_assoc). by rewrite <- app_assoc.
    - unfold sorted_keys in Hs. rewrite fmap_app in Hs. simpl in Hs.
      apply Forall_forall. intros x Hx.
      induction (acc.*1) as [|y l IHl]; [set_solver|]. simpl in Hs.
      inversion_clear Hs as [|? ? Hs' Hall]. apply elem_of_cons in Hx as [->|Hx]; [|auto].
      rewrite Forall_forall in Hall. apply Hall. set_solver. }
  intros Hs. by rewrite (Hg m []).
Qed.

Lemma canon_sorted v : sorted v -> canon v = v.
Proof.
  induction v as [| | | |l IH|m IH] using json_induction; simpl; try done.
  - rewrite fold_and_Forall. intros Hs. f_equal. revert Hs. induction IH; inversion_clear 1; simpl; f_equal; auto.
  - rewrite fold_and_Forall. intros [Hk Hs].
    assert (Hm : map (fun p => (p.1, canon p.2)) m = m).
    { clear Hk. revert Hs. induction IH as [|[k v] m Hv IH IH']; inversion_clear 1; simpl; [done|].
      f_equal; [by f_equal; auto|auto]. }
    rewrite Hm. f_equal. by apply fold_put_sorted.
Qed.

(** *** The round trip *)

Lemma marshal_head v :
  wf v -> exists b r, marshal v = b :: r /\ is_ws b = false /\ b <> 93 /\ b <> 125.
Proof.
  destruct v as [|[]|lit|s|l|m]; simpl; intros Hw; try (by do 2 eexists; split; [reflexivity|]).
  destruct Hw as [(b & r & -> & Hb) _]. do 2 eexists. split; [reflexivity|].
  unfold is_ws, is_digit, between in *. destruct Hb as [->|Hb]; [done|]. lia.
Qed.

Lemma skip_ws_marshal v rest : wf v -> skip_ws (marshal v ++ rest) = marshal v ++ rest.
Proof. intros (b & r & -> & Hb & _)%marshal_head. simpl. by rewrite Hb. Qed.

Definition member (p : string * json) : list Z := marshal_string p.1 ++ 58 :: marshal p.2.

Lemma expect_refl c r : expect c (c :: r) = Ok r.
Proof. simpl. by rewrite Z.eqb_refl. Qed.

Lemma skip_ws_cons b r : is_ws b = false -> skip_ws (b :: r) = b :: r.
Proof. simpl. by intros ->. Qed.

Lemma skip_ws_member p r : skip_ws (member p ++ r) = member p ++ r.
Proof. done. Qed.

Section RoundTrip.
Variable pv : list Z -> parse json.

(** [pv] reads back the marshalled value [v]. *)
Definition reads (v : json) : Prop :=
  wf v /\ forall rest, num_delim rest -> pv (marshal v ++ rest) = Ok (canon v, rest).

Lemma parse_members_marshal m p n acc rest :
  (length m < n)%nat ->
  Forall (fun p => ValidString p.1 = true /\ reads p.2) (p :: m) ->
  parse_members pv n acc (member p ++ concat (map (fun q => 44 :: member q) m) ++ 125 :: rest) =
    Ok (fold_left (fun acc p => obj_put p.1 p.2 acc)
          (map (fun p => (p.1, canon p.2)) (p :: m)) acc, rest).
Proof.
  revert p n acc. induction m as [|q m IH]; intros [k v] n acc Hn Hall;
    (destruct n as [|n]; [simpl in Hn; lia|]);
    inversion_clear Hall as [|? ? [Hk [Hw Hv]] Hm]; simpl in Hk, Hw, Hv;
    unfold member at 1, marshal_string at 1; cbn [fst snd app parse_members];
    rewrite expect_refl; cbn [rbind]; rewrite <- !app_assoc; cbn [app];
    rewrite parse_marshal_string by done; cbn [rbind];
    rewrite skip_ws_cons, expect_refl by done; cbn [rbind];
    rewrite skip_ws_marshal, Hv by done; cbn [rbind].
  - done.
  - cbn [map concat app]. rewrite skip_ws_cons by done. cbv iota. rewrite Z.eqb_refl.
    rewrite <- app_assoc, skip_ws_member, IH; [done|simpl in Hn; lia|done].
Qed.

Lemma parse_elements_marshal l x n rest :
  (length l < n)%nat -> Forall reads (x :: l) ->
  parse_elements pv n (marshal x ++ concat (map (fun y => 44 :: marshal y) l) ++ 93 :: rest) =
    Ok (map canon (x :: l), rest).
Proof.
  revert x n. induction l as [|y l IH]; intros x n Hn Hall;
    (destruct n as [|n]; [simpl in Hn; lia|]);
    inversion_clear Hall as [|? ? [Hw Hv] Hl]; cbn [parse_elements]; rewrite Hv by done; cbn [rbind].
  - done.
  - cbn [map concat app]. rewrite skip_ws_cons by done. cbv iota. rewrite Z.eqb_refl.
    rewrite <- app_assoc, skip_ws_marshal by (by inversion_clear Hl as [|? ? []]).
    rewrite IH; [done|simpl in Hn; lia|done].
Qed.

End RoundTrip.

Lemma sep_by_cons {A} (f : A -> list Z) x l :
  sep_by 44 (map f (x :: l)) = f x ++ concat (map (fun y => 44 :: f y) l).
Proof. simpl. by rewrite map_map. Qed.

Lemma concat_map_length {A} (f : A -> list Z) l :
  (length l <= length (concat (map (fun y => 44%Z :: f y) l)))%nat.
Proof. induction l; simpl; [done|]. rewrite length_app. lia. Qed.

(** A marshalled value is read back as the map Go decodes it to, whatever delimiter follows. *)
Lemma parse_marshal v d rest :
  wf v -> (depth v <= d)%nat -> num_delim rest ->
  parse_value d (marshal v ++ rest) = Ok (canon v, rest).
Proof.
  revert d rest. induction v as [|[]|lit|s|l IH|m IH] using json_induction; intros d rest Hw Hd Hr;
    try (destruct d; done).
  - destruct Hw as [(b & r & -> & Hb) Hl]. simpl marshal. pose proof (Hl rest Hr) as Hp.
    cbn [app] in Hp |- *.
    assert (Hpv : parse_value d (b :: r ++ rest) =
      '(lit, r1) <-? parse_number (b :: r ++ rest) ; Ok (JNumber lit, r1)).
    { assert (Hz : b <> 123 /\ b <> 91 /\ b <> 34 /\ b <> 116 /\ b <> 102 /\ b <> 110)
        by (unfold is_digit, between in Hb; lia).
      destruct Hz as (?&?&?&?&?&?). destruct d; cbn [parse_value];
        rewrite !(proj2 (Z.eqb_neq b _)) by done;
        (destruct Hb as [->|Hb]; [done|]); rewrite Hb, orb_true_r; done. }
    by rewrite Hpv, Hp.
  - simpl in Hw. unfold marshal, marshal_string. cbn [app].
    assert (Hpv : forall r, parse_value d (34 :: r) = '(s, r1) <-? parse_string r ; Ok (JString s, r1))
      by (by destruct d).
    rewrite Hpv, <- app_assoc. cbn [app]. by rewrite parse_marshal_string.
  - simpl in Hw, Hd. apply fold_and_Forall in Hw.
    destruct d as [|d]; [lia|]. apply le_S_n, fold_max_le in Hd.
    assert (Hall : Forall (reads (parse_value d)) l).
    { rewrite Forall_forall in Hw, Hd, IH |- *. intros x Hx. split; [auto|]. intros r Hr'. auto. }
    destruct l as [|x l]; [done|]. cbn [marshal]. rewrite sep_by_cons.
    destruct (marshal_head x) as (b & r & Eb & Hws & H93 & _); [by inversion Hw|].
    assert (Heq : forall t, parse_value (S d) (91 :: b :: t) =
       '(l, r2) <-? parse_elements (parse_value d) (length (b :: t)) (b :: t) ; Ok (JArray l, r2)).
    { intros t. cbn [parse_value]. simpl (91 =? 123). simpl (91 =? 91). cbv iota.
      cbn [skip_ws]. rewrite Hws. by rewrite (proj2 (Z.eqb_neq b 93)) by done. }
    rewrite Eb. cbn [app]. rewrite Heq, <- !app_assoc. cbn [app].
    pose proof (parse_elements_marshal (parse_value d) l x
      (length (b :: r ++ concat (map (fun y => 44 :: marshal y) l) ++ 93 :: rest)) rest) as Hp.
    rewrite Eb in Hp. cbn [app] in Hp. rewrite Hp; [done| |done].
    pose proof (concat_map_length marshal l). simpl. rewrite !length_app. simpl. lia.
  - simpl in Hw, Hd. apply fold_and_Forall in Hw.
    destruct d as [|d]; [lia|]. apply le_S_n, fold_max_le in Hd.
    assert (Hall : Forall (fun p => ValidString p.1 = true /\ reads (parse_value d) p.2) m).
    { rewrite Forall_forall in Hw, Hd, IH |- *. intros x Hx. destruct (Hw x Hx) as [? ?].
      split; [done|]. split; [done|]. intros r Hr'. auto. }
    destruct m as [|x m]; [done|]. cbn [marshal].
    change (fun p : string * json => marshal_string p.1 ++ 58 :: marshal p.2) with member.
    rewrite sep_by_cons.
    assert (Heq : forall t, parse_value (S d) (123 :: 34 :: t) =
       '(m, r2) <-? parse_members (parse_value d) (length (34 :: t)) [] (34 :: t) ; Ok (JObject m, r2))
      by done.
    assert (Hx : exists t, member x = 34 :: t) by (eexists; reflexivity).
    destruct Hx as [t Ht].
    pose proof (parse_members_marshal (parse_value d) m x
      (length (34 :: t ++ concat (map (fun y => 44 :: member y) m) ++ 125 :: rest)) [] rest) as Hp.
    rewrite Ht in Hp |- *. cbn [app] in Hp |- *. rewrite Heq, <- !app_assoc. cbn [app].
    rewrite Hp; [done| |done].
    pose proof (concat_map_length member m). simpl. rewrite !length_app. simpl. lia.
Qed.

(** *** Decoded values *)

(** What the decoder can return with [d] levels of nesting. *)
Definition decoded (d : nat) (v : json) : Prop := wf v /\ sorted v /\ (depth v <= d)%nat.

Definition decoded_members (d : nat) (m : list (string * json)) : Prop :=
  sorted_keys m /\ Forall (fun p => ValidString p.1 = true /\ decoded d p.2) m.

Lemma decoded_object d m : decoded_members d m <-> decoded (S d) (JObject m).
Proof.
  unfold decoded_members, decoded. simpl. rewrite !fold_and_Forall.
  assert (He : forall n, (S n <= S d)%nat <-> (n <= d)%nat) by lia. rewrite He, fold_max_le.
  rewrite !Forall_forall. split.
  - intros [Hs Hm]. split_and!; [|done|..]; intros x Hx; by destruct (Hm x Hx) as (? & ? & ? & ?).
  - intros (Hw & [Hk Hs] & Hd). split; [done|]. intros x Hx.
    destruct (Hw x Hx). split_and!; auto.
Qed.

Lemma decoded_members_put d k v m :
  ValidString k = true -> decoded d v -> decoded_members d m -> decoded_members d (obj_put k v m).
Proof.
  intros Hk Hv [Hs Hm]. split; [by apply obj_put_sorted|].
  apply Forall_forall. intros p [->|Hp]%obj_put_keys; [done|].
  rewrite Forall_forall in Hm. auto.
Qed.

Lemma parse_members_decoded pv d n acc bs m r :
  (forall bs v r, pv bs = Ok (v, r) -> decoded d v) -> decoded_members d acc ->
  parse_members pv n acc bs = Ok (m, r) -> decoded_members d m.
Proof.
  intros Hpv. revert acc bs. induction n as [|n IH]; [done|]. intros acc bs Hacc H.
  cbn [parse_members] in H.
  apply rbind_Ok in H as (r0 & _ & H). apply rbind_Ok in H as ([k r1] & Hk & H).
  apply rbind_Ok in H as (r2 & _ & H). apply rbind_Ok in H as ([v r3] & Hv & H).
  apply parse_string_valid in Hk. apply Hpv in Hv.
  destruct (skip_ws r3) as [|c r4]; [done|].
  destruct (c =? 44); [eapply IH, H; by apply decoded_members_put|].
  destruct (c =? 125); [|done]. injection H as <- <-. by apply decoded_members_put.
Qed.

Lemma parse_elements_decoded pv d n bs l r :
  (forall bs v r, pv bs = Ok (v, r) -> decoded d v) ->
  parse_elements pv n bs = Ok (l, r) -> Forall (decoded d) l.
Proof.
  intros Hpv. revert bs l. induction n as [|n IH]; [done|]. intros bs l H.
  cbn [parse_elements] in H. apply rbind_Ok in H as ([v r1] & Hv & H). apply Hpv in Hv.
  destruct (skip_ws r1) as [|c r2]; [done|]. destruct (c =? 44).
  - apply rbind_Ok in H as ([vs r3] & Hvs & [= <- <-]). constructor; [done|]. by eapply IH.
  - destruct (c =? 93); [|done]. injection H as <- <-. constructor; [done|constructor].
Qed.

Lemma parse_lit_value {A} lit (v v' : A) bs r : parse_lit lit v bs = Ok (v', r) -> v' = v.
Proof.
  revert bs. induction lit as [|c lit IH]; intros [|b bs]; simpl; try congruence; try done.
  destruct (b =? c); [apply IH|done].
Qed.

(** The decoder returns sorted maps, valid strings and number literals, within its depth. *)
Lemma parse_value_decoded d bs v r : parse_value d bs = Ok (v, r) -> decoded d v.
Proof.
  assert (Hleaf : forall d v, wf v -> sorted v -> depth v = 0%nat -> decoded d v).
  { intros d' v' ? ? Hd. split_and!; [done..|]. rewrite Hd. lia. }
  revert bs v r. induction d as [|d IH]; intros [|b bs] v r H; try done; cbn [parse_value] in H.
  all: destruct (b =? 123) eqn:E1;
    [| destruct (b =? 91) eqn:E2; 
       [| destruct (b =? 34) eqn:E3;
          [apply rbind_Ok in H as ([s r1] & Hs & [= <- <-]); apply parse_string_valid in Hs;
           by apply Hleaf|];
          destruct (b =? 116); [apply parse_lit_value in H as ->; by apply Hleaf|];
          destruct (b =? 102); [apply parse_lit_value in H as ->; by apply Hleaf|];
          destruct (b =? 110); [apply parse_lit_value in H as ->; by apply Hleaf|];
          destruct (_ || _); [|done];
          apply rbind_Ok in H as ([l r1] & Hl & [= <- <-]); apply parse_number_valid in Hl;
          by apply Hleaf]]; try done.
  - destruct (skip_ws bs) as [|c r1]; [done|]. destruct (c =? 125).
    + injection H as <- <-. apply decoded_object. split; constructor.
    + apply rbind_Ok in H as ([m r2] & Hm & [= <- <-]). apply decoded_object.
      eapply parse_members_decoded, Hm; [done|]. split; constructor.
  - destruct (skip_ws bs) as [|c r1]; [done|]. destruct (c =? 93).
    + injection H as <- <-. split_and!; simpl; [done..|lia].
    + apply rbind_Ok in H as ([l r2] & Hl & [= <- <-]).
      apply (parse_elements_decoded _ d) in Hl; [|done].
      assert (He : forall n, (S n <= S d)%nat <-> (n <= d)%nat) by lia.
      unfold decoded. simpl. rewrite !fold_and_Forall, He, fold_max_le, !Forall_forall in *.
      split_and!; intros x Hx; by destruct (Hl x Hx) as (? & ? & ?).
Qed.

(** *** Cut text

    Appending text to an input that already parsed does not change what was parsed, except that a
    number at the very end may continue.  So a proper prefix of a marshalled object is not an
    object. *)

Definition extends {A} (p : list Z -> parse A) : Prop :=
  forall bs v r t, p bs = Ok (v, r) -> p (bs ++ t) = Ok (v, r ++ t).

Lemma skip_ws_app bs t c r : skip_ws bs = c :: r -> skip_ws (bs ++ t) = c :: r ++ t.
Proof.
  induction bs as [|b bs IH]; simpl; [done|]. destruct (is_ws b); [apply IH|].
  by intros [= -> ->].
Qed.

Lemma parse_lit_extends {A} lit (v : A) : extends (parse_lit lit v).
Proof.
  induction lit as [|c lit IH]; intros [|b bs] v' r t; simpl; try done;
    try (by intros [= <- <-]). destruct (b =? c); [apply IH|done].
Qed.

Lemma span_digits_extends bs ds r t :
  span_digits bs = (ds, r) -> r <> [] -> span_digits (bs ++ t) = (ds, r ++ t).
Proof.
  revert ds r. induction bs as [|b bs IH]; simpl; intros ds r H Hr; [congruence|].
  destruct (is_digit b); [|by injection H as <- <-].
  destruct (span_digits bs) as [ds' r'] eqn:E. injection H as <- <-. by rewrite (IH _ _ eq_refl).
Qed.

Lemma digits1_extends bs ds r t :
  digits1 bs = Ok (ds, r) -> r <> [] -> digits1 (bs ++ t) = Ok (ds, r ++ t).
Proof.
  unfold digits1. destruct (span_digits bs) as [ds' r'] eqn:E. intros H Hr.
  assert (ds' <> [] /\ ds = ds' /\ r = r') as (Hd & -> & ->).
  { destruct ds' as [|d ds']; [by destruct r'|]. by injection H as <- <-. }
  rewrite (span_digits_extends _ _ _ t E Hr). by destruct ds'.
Qed.

Lemma parse_exp_extends bs e r t :
  parse_exp bs = Ok (e, r) -> r <> [] -> parse_exp (bs ++ t) = Ok (e, r ++ t).
Proof.
  destruct bs as [|c bs]; cbn [app parse_exp]; [congruence|].
  destruct (_ || _); [|by intros [= <- <-]]. destruct bs as [|sg bs]; [done|]. cbn [app].
  destruct ((sg =? 43) || _); intros H Hr; apply rbind_Ok in H as ([ds r1] & Hd & [= <- <-]).
  - by rewrite (digits1_extends _ _ _ t Hd Hr).
  - change (sg :: bs ++ t) with ((sg :: bs) ++ t). by rewrite (digits1_extends _ _ _ t Hd Hr).
Qed.

Lemma parse_frac_extends bs f r t :
  parse_frac bs = Ok (f, r) -> r <> [] -> parse_frac (bs ++ t) = Ok (f, r ++ t).
Proof.
  destruct bs as [|c bs]; [cbn; congruence|]. cbn [app]. intros H Hr.
  destruct (decide (c = 46)) as [->|Hc].
  - cbn [parse_frac] in *. apply rbind_Ok in H as ([ds r1] & Hd & [= <- <-]).
    by rewrite (digits1_extends _ _ _ t Hd Hr).
  - unfold parse_frac in *. repeat case_match; simplify_eq; done.
Qed.

Lemma parse_exp_rest bs e r : parse_exp bs = Ok (e, r) -> r <> [] -> bs <> [].
Proof. destruct bs; simpl; [congruence|done]. Qed.

Lemma parse_frac_rest bs f r : parse_frac bs = Ok (f, r) -> r <> [] -> bs <> [].
Proof. destruct bs; simpl; [congruence|done]. Qed.

Lemma parse_number_extends bs lit r t :
  parse_number bs = Ok (lit, r) -> r <> [] -> parse_number (bs ++ t) = Ok (lit, r ++ t).
Proof.
  unfold parse_number. intros H Hr.
  assert (Hrest : forall sign bs1 lit,
    ('(i, bs2) <-? parse_int bs1 ; '(f, bs3) <-? parse_frac bs2 ; '(e, bs4) <-? parse_exp bs3 ;
     Ok (sign ++ i ++ f ++ e, bs4)) = Ok (lit, r) ->
    bs1 <> [] /\
    ('(i, bs2) <-? parse_int (bs1 ++ t) ; '(f, bs3) <-? parse_frac bs2 ; '(e, bs4) <-? parse_exp bs3 ;
     @Ok jerr _ (sign ++ i ++ f ++ e, bs4)) = Ok (lit, r ++ t)).
  { intros sign bs1 lit' H'. apply rbind_Ok in H' as ([i bs2] & Hi & H').
    apply rbind_Ok in H' as ([f bs3] & Hf & H'). apply rbind_Ok in H' as ([e bs4] & He & [= <- <-]).
    pose proof (parse_exp_rest _ _ _ He Hr) as Hr3. pose proof (parse_frac_rest _ _ _ Hf Hr3) as Hr2.
    destruct bs1 as [|b bs1]; [done|]. split; [done|]. cbn [parse_int] in Hi.
    assert (Hi' : parse_int ((b :: bs1) ++ t) = Ok (i, bs2 ++ t)).
    { cbn [app parse_int]. destruct (b =? 48); [by injection Hi as <- <-|].
      change (b :: bs1 ++ t) with ((b :: bs1) ++ t). by apply digits1_extends. }
    rewrite Hi'. cbn [rbind]. rewrite (parse_frac_extends _ _ _ t Hf Hr3). cbn [rbind].
    by rewrite (parse_exp_extends _ _ _ t He Hr). }
  destruct bs as [|b bs]; [done|]. cbn [app].
  destruct (decide (b = 45)) as [->|Hb]; [by apply (Hrest [45])|].
  specialize (Hrest [] (b :: bs) lit). cbn [app] in Hrest.
  repeat case_match; simplify_eq; by apply Hrest.
Qed.

Lemma parse_hex_extends n acc : extends (parse_hex n acc).
Proof.
  revert acc. induction n as [|n IH]; intros acc [|b bs] v r t; cbn [app parse_hex]; try done;
    try (by intros [= <- <-]). destruct (hex_value b); [apply IH|done].
Qed.

Lemma parse_hex_error n acc bs t e :
  parse_hex n acc bs = Err e -> e <> JUnexpectedEOF -> parse_hex n acc (bs ++ t) = Err e.
Proof.
  revert acc bs. induction n as [|n IH]; intros acc [|b bs]; cbn [app parse_hex]; try done.
  - intros [= <-]. done.
  - destruct (hex_value b); [apply IH|done].
Qed.

(** A surrogate's look-ahead sees the same text, or the string does not end. *)
Lemma unicode_escape_extends n rr bs t s r :
  parse_string_from n (unicode_escape rr bs).2 = Ok (s, r) ->
  unicode_escape rr (bs ++ t) =
    ((unicode_escape rr bs).1, (unicode_escape rr bs).2 ++ t).
Proof.
  unfold unicode_escape. destruct (is_surrogate rr); [|done].
  assert (Hg : (exists p, getu4 bs = Some p /\ getu4 (bs ++ t) = Some (p.1, p.2 ++ t)) \/
               (getu4 bs = None /\ (getu4 (bs ++ t) = None \/
                  forall n s r, parse_string_from n bs <> Ok (s, r)))).
  { destruct bs as [|b0 [|b1 bs]]; [right; split; [done|right; by intros []]|..].
    - right. split; [unfold getu4; repeat case_match; simplify_eq; done|].
      destruct (decide (b0 = 92)) as [->|]; [right; by intros [|[]]|left].
      unfold getu4. cbn [app]. repeat case_match; simplify_eq; done.
    - unfold getu4. cbn [app]. destruct (decide (b0 = 92)) as [->|];
        [|right; split; [|left]; repeat case_match; simplify_eq; done].
      destruct (decide (b1 = 117)) as [->|];
        [|right; split; [|left]; repeat case_match; simplify_eq; done].
      destruct (parse_hex 4 0 bs) as [[x r']|e] eqn:E.
      + left. exists (x, r'). by rewrite (parse_hex_extends _ _ _ _ _ t E).
      + right. split; [done|]. assert (e = JUnexpectedEOF \/ e <> JUnexpectedEOF) as [->|He] by (destruct e; auto).
        * right. intros [|m] s' r''; [done|]. cbn [parse_string_from].
          simpl (92 =? 34). simpl (92 =? 92). simpl (117 =? 117). cbv iota. by rewrite E.
        * left. by rewrite (parse_hex_error _ _ _ t _ E He). }
  destruct Hg as [([x r'] & -> & ->)|(-> & [-> |Hno])]; [|done|].
  - simpl. by destruct (_ =? RuneError).
  - intros H. by apply Hno in H.
Qed.

Lemma DecodeRune_extends b bs t n s r :
  127 < b -> parse_string_from n (drop (DecodeRune (b :: bs)).2 (b :: bs)) = Ok (s, r) ->
  DecodeRune ((b :: bs) ++ t) = DecodeRune (b :: bs).
Proof.
  intros Hb Hp.
  assert (Hq : forall n s r, parse_string_from n [] <> Ok (s, r)) by (by intros []).
  assert (Hq1 : forall n b s r, parse_string_from n [b] = Ok (s, r) -> b = 34).
  { intros [|m] b' s' r' H'; [done|]. cbn [parse_string_from] in H'.
    destruct (Z.eqb_spec b' 34); [done|]. destruct (b' =? 92); [done|].
    destruct (b' <? 32); [done|]. exfalso. cbn in H'.
    destruct (between 0 b' 127); cbn in H'; apply rbind_Ok in H' as ([? ?] & H' & _);
      by apply Hq in H'. }
  destruct bs as [|b1 [|b2 [|b3 bs]]]; [..|done].
  - exfalso. cbn in Hp. assert (between 0 b 127 = false) as E by (unfold between; lia).
    rewrite E in Hp. cbn in Hp. by apply Hq in Hp.
  - cbn in Hp |- *. assert (between 0 b 127 = false) as E by (unfold between; lia).
    rewrite E in *. destruct (between 194 b 223 && is_cont b1) eqn:E2; [done|]. cbn in Hp.
    apply Hq1 in Hp as ->. destruct t as [|t0 [|t1 t]]; [done|..]; cbn;
      unfold is_cont, between in *; repeat case_match; try done; bool_prop; lia.
  - assert (b1 = 34 \/ b2 = 34 \/ DecodeRune [b; b1; b2] <> (RuneError, 1%nat)) as Hc.
    { destruct (decide (DecodeRune [b; b1; b2] = (RuneError, 1%nat))) as [E|]; [|auto].
      rewrite E in Hp. cbn [snd drop] in Hp. destruct n as [|n]; [done|].
      cbn [parse_string_from] in Hp. destruct (Z.eqb_spec b1 34); [auto|].
      destruct (b1 =? 92) eqn:E92.
      - apply Z.eqb_eq in E92 as ->. left. exfalso.
        destruct (b2 =? 117); [done|]. destruct (simple_escape b2); [|done].
        apply rbind_Ok in Hp as ([? ?] & Hp & _). by apply Hq in Hp.
      - destruct (b1 <? 32); [done|]. right; left.
        destruct (DecodeRune [b1; b2]) as [ru k] eqn:Ek.
        apply rbind_Ok in Hp as ([? ?] & Hp & _).
        assert (k = 1%nat \/ k = 2%nat) as [-> | ->] by (cbn in Ek; repeat case_match; simplify_eq; auto);
          cbn [drop] in Hp; [by apply Hq1 in Hp|by apply Hq in Hp]. }
    cbn in Hc |- *. destruct (between 0 b 127); [done|].
    destruct (between 194 b 223 && is_cont b1); [done|].
    destruct (_ && is_cont b2) eqn:E3; [done|]. destruct t as [|t0 t]; [done|].
    destruct (_ && is_cont b2 && is_cont t0) eqn:E4; [|done]. exfalso.
    destruct Hc as [->|[->|Hc]]; [..|done]; unfold is_cont, between in *; lia.
Qed.

Lemma parse_string_from_extends n n' bs s r t :
  parse_string_from n bs = Ok (s, r) -> (n <= n')%nat ->
  parse_string_from n' (bs ++ t) = Ok (s, r ++ t).
Proof.
  revert n' bs s r. induction n as [|n IH]; intros n' bs s r H Hn; [done|].
  destruct n' as [|n']; [lia|]. apply le_S_n in Hn.
  destruct bs as [|b bs]; [done|]. cbn [app parse_string_from] in *.
  destruct (b =? 34) eqn:E34; [by injection H as <- <-|]. destruct (b =? 92) eqn:E92.
  - destruct bs as [|c bs]; [done|]. cbn [app]. destruct (c =? 117).
    + apply rbind_Ok in H as ([rr r2] & Hx & H). rewrite (parse_hex_extends _ _ _ _ _ t Hx).
      cbn [rbind]. destruct (unicode_escape rr r2) as [rune r3] eqn:Eu.
      apply rbind_Ok in H as ([s1 r4] & Hs & [= <- <-]).
      pose proof (unicode_escape_extends n rr r2 t s1 r4) as Hu. rewrite Eu in Hu.
      rewrite (Hu Hs). cbn [fst snd]. by rewrite (IH _ _ _ _ Hs Hn).
    + destruct (simple_escape c); [|done]. apply rbind_Ok in H as ([s1 r4] & Hs & [= <- <-]).
      by rewrite (IH _ _ _ _ Hs Hn).
  - destruct (b <? 32) eqn:E32; [done|]. change (b :: bs ++ t) with ((b :: bs) ++ t).
    assert (Hd : DecodeRune ((b :: bs) ++ t) = DecodeRune (b :: bs)).
    { destruct (Z.le_gt_cases b 127).
      - cbn. unfold between. rewrite (proj2 (Z.leb_le 0 b)), (proj2 (Z.leb_le b 127)) by lia. done.
      - destruct (DecodeRune (b :: bs)) as [ru k] eqn:Ek.
        apply rbind_Ok in H as ([s1 r4] & Hs & _). rewrite <- Ek.
        eapply DecodeRune_extends; [lia|]. rewrite Ek. exact Hs. }
    rewrite Hd. destruct (DecodeRune (b :: bs)) as [ru k] eqn:Ek.
    apply rbind_Ok in H as ([s1 r4] & Hs & [= <- <-]).
    assert (k <= length (b :: bs))%nat.
    { cbn in Ek. repeat case_match; simplify_eq; cbn; lia. }
    rewrite drop_app_le by done. by rewrite (IH _ _ _ _ Hs Hn).
Qed.

Lemma parse_string_extends : extends parse_string.
Proof.
  intros bs s r t. unfold parse_string. intros H. apply rbind_Ok in H as ([s1 r1] & Hs & [= <- <-]).
  rewrite (parse_string_from_extends _ (S (length (bs ++ t))) _ _ _ t Hs); [done|].
  rewrite length_app. lia.
Qed.

(** The same for values, unless a number ends the input. *)
Definition extends_value (pv : list Z -> parse json) : Prop :=
  (forall v r, pv [] <> Ok (v, r)) /\
  forall bs v r t, pv bs = Ok (v, r) -> r <> [] \/ (forall lit, v <> JNumber lit) ->
    pv (bs ++ t) = Ok (v, r ++ t).

Lemma expect_app c bs r t : expect c bs = Ok r -> expect c (bs ++ t) = Ok (r ++ t).
Proof. destruct bs as [|b bs]; simpl; [done|]. destruct (b =? c); [|done]. by intros [= ->]. Qed.

Lemma skip_ws_rest r c r' : skip_ws r = c :: r' -> r <> [].
Proof. by destruct r. Qed.

Lemma parse_members_extends pv n n' acc bs m r t :
  extends_value pv -> parse_members pv n acc bs = Ok (m, r) -> (n <= n')%nat ->
  parse_members pv n' acc (bs ++ t) = Ok (m, r ++ t).
Proof.
  intros [Hnil Hpv]. revert n' acc bs. induction n as [|n IH]; intros n' acc bs H Hn; [done|].
  destruct n' as [|n']; [lia|]. apply le_S_n in Hn. cbn [parse_members] in *.
  apply rbind_Ok in H as (r0 & H0 & H). rewrite (expect_app _ _ _ t H0). cbn [rbind].
  apply rbind_Ok in H as ([k r1] & Hk & H). rewrite (parse_string_extends _ _ _ t Hk). cbn [rbind].
  apply rbind_Ok in H as (r2 & H2 & H). destruct (skip_ws r1) as [|c1 r1'] eqn:E1; [done|].
  rewrite (skip_ws_app _ t _ _ E1). change (c1 :: r1' ++ t) with ((c1 :: r1') ++ t).
  rewrite (expect_app _ _ _ t H2). cbn [rbind].
  apply rbind_Ok in H as ([v r3] & Hv & H). destruct (skip_ws r3) as [|c r4] eqn:E3; [done|].
  assert (Hr3 : r3 <> []) by (by eapply skip_ws_rest).
  assert (Hsv : pv (skip_ws (r2 ++ t)) = Ok (v, r3 ++ t)).
  { destruct (skip_ws r2) as [|c2 r2'] eqn:E2.
    - by apply Hnil in Hv.
    - rewrite (skip_ws_app _ t _ _ E2). change (c2 :: r2' ++ t) with ((c2 :: r2') ++ t). auto. }
  rewrite Hsv. cbn [rbind]. rewrite (skip_ws_app _ t _ _ E3).
  destruct (c =? 44).
  - destruct (skip_ws r4) as [|c4 r4'] eqn:E4; [destruct n; [done|]; by cbn in H|].
    rewrite (skip_ws_app _ t _ _ E4). change (c4 :: r4' ++ t) with ((c4 :: r4') ++ t). by apply IH.
  - destruct (c =? 125); [|done]. by injection H as <- <-.
Qed.

Lemma parse_elements_extends pv n n' bs l r t :
  extends_value pv -> parse_elements pv n bs = Ok (l, r) -> (n <= n')%nat ->
  parse_elements pv n' (bs ++ t) = Ok (l, r ++ t).
Proof.
  intros [Hnil Hpv]. revert n' bs l. induction n as [|n IH]; intros n' bs l H Hn; [done|].
  destruct n' as [|n']; [lia|]. apply le_S_n in Hn. cbn [parse_elements] in *.
  apply rbind_Ok in H as ([v r1] & Hv & H). destruct (skip_ws r1) as [|c r2] eqn:E1; [done|].
  rewrite (Hpv _ _ _ t Hv) by (left; by eapply skip_ws_rest). cbn [rbind].
  rewrite (skip_ws_app _ t _ _ E1). destruct (c =? 44).
  - apply rbind_Ok in H as ([vs r3] & Hvs & [= <- <-]).
    destruct (skip_ws r2) as [|c2 r2'] eqn:E2.
    { destruct n; [done|]. cbn [parse_elements] in Hvs. apply rbind_Ok in Hvs as ([? ?] & Hx & _).
      by apply Hnil in Hx. }
    rewrite (skip_ws_app _ t _ _ E2). change (c2 :: r2' ++ t) with ((c2 :: r2') ++ t).
    by rewrite (IH _ _ _ Hvs Hn).
  - destruct (c =? 93); [|done]. by injection H as <- <-.
Qed.

Lemma parse_value_extends d : extends_value (parse_value d).
Proof.
  induction d as [|d IH]; (split; [done|]); intros [|b bs] v r t H Hr; try done;
    cbn [app parse_value] in *.
  all: destruct (b =? 123);
    [| destruct (b =? 91);
       [| destruct (b =? 34);
          [apply rbind_Ok in H as ([s r1] & Hs & [= <- <-]);
           by rewrite (parse_string_extends _ _ _ t Hs)|];
          destruct (b =? 116); [by apply parse_lit_extends|];
          destruct (b =? 102); [by apply parse_lit_extends|];
          destruct (b =? 110); [by apply parse_lit_extends|];
          destruct (_ || _); [|done];
          apply rbind_Ok in H as ([l r1] & Hl & [= <- <-]);
          change (b :: bs ++ t) with ((b :: bs) ++ t);
          destruct Hr as [Hr|Hr]; [|by edestruct Hr];
          by rewrite (parse_number_extends _ _ _ t Hl Hr)]]; try done.
  - destruct (skip_ws bs) as [|c r1] eqn:E; [done|]. rewrite (skip_ws_app _ t _ _ E).
    destruct (c =? 125); [by injection H as <- <-|].
    apply rbind_Ok in H as ([m r2] & Hm & [= <- <-]). change (c :: r1 ++ t) with ((c :: r1) ++ t).
    rewrite (parse_members_extends _ _ (length (bs ++ t)) _ _ _ _ t IH Hm); [done|].
    rewrite length_app. lia.
  - destruct (skip_ws bs) as [|c r1] eqn:E; [done|]. rewrite (skip_ws_app _ t _ _ E).
    destruct (c =? 93); [by injection H as <- <-|].
    apply rbind_Ok in H as ([l r2] & Hl & [= <- <-]). change (c :: r1 ++ t) with ((c :: r1) ++ t).
    rewrite (parse_elements_extends _ _ (length (bs ++ t)) _ _ _ t IH Hl); [done|].
    rewrite length_app. lia.
Qed.

(** A proper prefix of a marshalled object does not decode to an object. *)
Lemma parse_prefix m d p t v r :
  wf (JObject m) -> (depth (JObject m) <= d)%nat -> marshal (JObject m) = p ++ t -> t <> [] ->
  parse_value d p = Ok (v, r) -> exists lit, v = JNumber lit.
Proof.
  intros Hw Hd Hm Ht Hp. destruct v as [| |lit| | |]; [..|by eexists| | |];
    exfalso; pose proof (proj2 (parse_value_extends d) _ _ _ t Hp ltac:(by right)) as Hx;
    rewrite <- Hm in Hx; pose proof (parse_marshal (JObject m) d [] Hw Hd I) as Hy;
    rewrite app_nil_r in Hy; rewrite Hy in Hx; injection Hx as _ Hx;
    symmetry in Hx; apply app_eq_nil in Hx as [_ ?]; done.
Qed.

End JsonFacts.
Export JsonFacts.
