(* ===== verification/AuditChain.v ===== *)
(** * Audit integrity chain

    [internal/audit]: the sequence allocator ([sequence_allocator.go]), the per-sink hash chain
    ([sink_chain.go]), the single-sink composer and the verification of wrapped entries
    ([integrity.go]), and the persisted chain head ([sidecar.go]).  The keyed hash is a parameter
    [hmac]; JSON is the model of [GoJson].  Pointer identity of a [SinkChain], which binds a
    [ComputeResult] to the chain that made it, is an allocation number. *)

From Stdlib Require Import ZArith Lia Ascii String Sorted.
From stdpp Require Import base list strings sets gmap.
From S2P Require Import Prelude GoText GoJson.
Open Scope string_scope.
Open Scope list_scope.
Open Scope Z_scope.

(** Errors of the package, by the sentinel or message they carry. *)
Inductive aerr : Type :=
| ErrSequenceOverflow
| ErrGenerationOverflow
| ErrInvalidAllocatorState
| ErrKeyTooShort (got : Z)
| ErrUnsupportedAlgorithm (algorithm : string)
| ErrFatalIntegrity
| ErrInvalidChainState
| ErrBackwardsGeneration
| ErrStaleResult
| ErrCrossChainResult
| ErrNilComputeResult
| ErrParsePayload (e : jerr)
| ErrTrailingData
| ErrInvalidIntegrityMetadata
| PanicNilMap
| ErrSidecarNotFound
| ErrSidecarRead
| ErrSidecarCorrupt (what : string)
| ErrSidecarUnsupportedFormat (v : Z).

(** ** [sequence_allocator.go] *)
Module Allocator.

Record SequenceAllocator : Type := mkAllocator {
  sa_sequence : Z;     (* int64, last returned sequence; -1 means none yet *)
  sa_generation : Z    (* uint32 *)
}.

Record AllocatorState : Type := mkAllocatorState {
  as_Sequence : Z;
  as_Generation : Z
}.

Definition NewSequenceAllocator : SequenceAllocator := mkAllocator (-1) 0.

Definition Next (a : SequenceAllocator) : SequenceAllocator * result aerr (Z * Z) :=
  if sa_sequence a =? max_int64 then (a, Err ErrSequenceOverflow)
  else
    let a' := mkAllocator (wrap_int64 (sa_sequence a + 1)) (sa_generation a) in
    (a', Ok (sa_sequence a', sa_generation a')).

Definition NextGeneration (a : SequenceAllocator) : SequenceAllocator * result aerr Z :=
  if sa_generation a =? max_uint32 then (a, Err ErrGenerationOverflow)
  else
    let a' := mkAllocator (-1) (wrap_uint32 (sa_generation a + 1)) in
    (a', Ok (sa_generation a')).

Definition SequenceAllocator_State (a : SequenceAllocator) : AllocatorState :=
  mkAllocatorState (sa_sequence a) (sa_generation a).

Definition SequenceAllocator_Restore (a : SequenceAllocator) (state : AllocatorState)
  : SequenceAllocator * result aerr unit :=
  if as_Sequence state <? -1 then (a, Err ErrInvalidAllocatorState)
  else (mkAllocator (as_Sequence state) (as_Generation state), Ok tt).

End Allocator.
Export Allocator.

(** ** The keyed hash *)

Inductive hash_alg : Type := SHA256 | SHA512.

(** [hmac.New(alg, key)], written and summed. *)
Definition hmac_fn : Type := hash_alg -> list Z -> list Z -> list Z.

Definition hash_size (a : hash_alg) : nat := match a with SHA256 => 32 | SHA512 => 64 end.

(** Documented output of the two hashes. *)
Class HmacLaws (hmac : hmac_fn) : Prop := {
  hmac_length a k m : length (hmac a k m) = hash_size a;
  hmac_bytes a k m : Forall byte_range (hmac a k m)
}.

Section Chain.
Context (hmac : hmac_fn).

Definition MinKeyLength : Z := 32.
Definition IntegrityFormatVersion : Z := 2.

(** The bytes written to the hash. *)
Definition integrity_message (formatVersion sequence : Z) (prevHash : string) (payload : list Z)
  : list Z :=
  string_bytes (FormatInt formatVersion) ++ [124] ++ string_bytes (FormatInt sequence) ++ [124] ++
  string_bytes prevHash ++ [124] ++ payload.

Definition hash_for (algorithm : string) : result aerr hash_alg :=
  if algorithm ==? "" then Ok SHA256
  else if algorithm ==? "hmac-sha512" then Ok SHA512
  else if algorithm !=? "hmac-sha256" then Err (ErrUnsupportedAlgorithm algorithm)
  else Ok SHA256.

Definition computeIntegrityHash (key : list Z) (algorithm : string) (formatVersion sequence : Z)
  (prevHash : string) (payload : list Z) : result aerr string :=
  h <-? hash_for algorithm ;
  Ok (hex_encode (hmac h key (integrity_message formatVersion sequence prevHash payload))).

(** ** [sink_chain.go] *)

Record SinkChain : Type := mkSinkChain {
  sc_id : nat;           (* identity of the instance *)
  sc_key : list Z;
  sc_algorithm : string;
  sc_generation : Z;
  sc_prevHash : string;
  sc_fatal : bool
}.

Record SinkChainState : Type := mkSinkChainState {
  scs_Generation : Z;
  scs_PrevHash : string;
  scs_Fatal : bool
}.

Record ComputeResult : Type := mkComputeResult {
  cr_entryHash : string;
  cr_prevHash : string;
  cr_sequence : Z;
  cr_generation : Z;
  cr_chain : nat
}.

Definition latch (c : SinkChain) : SinkChain :=
  mkSinkChain (sc_id c) (sc_key c) (sc_algorithm c) (sc_generation c) (sc_prevHash c) true.

Definition NewSinkChain (id : nat) (key : list Z) (algorithm : string) : result aerr SinkChain :=
  if Z.of_nat (length key) <? MinKeyLength then Err (ErrKeyTooShort (Z.of_nat (length key)))
  else
    let algorithm := if algorithm ==? "" then "hmac-sha256" else algorithm in
    if (algorithm ==? "hmac-sha256") || (algorithm ==? "hmac-sha512")
    then Ok (mkSinkChain id key algorithm 0 "" false)
    else Err (ErrUnsupportedAlgorithm algorithm).

Definition Compute (c : SinkChain) (formatVersion sequence generation : Z) (payload : list Z)
  : result aerr ComputeResult :=
  if sc_fatal c then Err ErrFatalIntegrity
  else
    let prev := if generation =? sc_generation c then sc_prevHash c else "" in
    hash <-? computeIntegrityHash (sc_key c) (sc_algorithm c) formatVersion sequence prev payload ;
    Ok (mkComputeResult hash prev sequence generation (sc_id c)).

Definition Commit (c : SinkChain) (res : option ComputeResult) : SinkChain * result aerr unit :=
  match res with
  | None => (c, Err ErrNilComputeResult)
  | Some r =>
    if sc_fatal c then (c, Err ErrFatalIntegrity)
    else if negb (Nat.eqb (cr_chain r) (sc_id c)) then (latch c, Err ErrCrossChainResult)
    else if cr_generation r <? sc_generation c then (latch c, Err ErrBackwardsGeneration)
    else if (cr_generation r =? sc_generation c) && (cr_prevHash r !=? sc_prevHash c)
    then (latch c, Err ErrStaleResult)
    else if negb (cr_generation r =? sc_generation c) && (cr_prevHash r !=? "")
    then (latch c, Err ErrStaleResult)
    else (mkSinkChain (sc_id c) (sc_key c) (sc_algorithm c) (cr_generation r) (cr_entryHash r)
            false, Ok tt)
  end.

Definition Fatal (c : SinkChain) : SinkChain := latch c.

Definition SinkChain_State (c : SinkChain) : SinkChainState :=
  mkSinkChainState (sc_generation c) (sc_prevHash c) (sc_fatal c).

Definition validatePrevHash (algorithm prevHash : string) : result aerr unit :=
  if prevHash ==? "" then Ok tt
  else
    let wantBytes := if algorithm ==? "hmac-sha512" then 64%nat else 32%nat in
    if negb (Nat.eqb (String.length prevHash) (wantBytes * 2)) then Err ErrInvalidChainState
    else if negb (hex_decodable prevHash) then Err ErrInvalidChainState
    else Ok tt.

Definition SinkChain_Restore (c : SinkChain) (generation : Z) (prevHash : string) (fatal : bool)
  : SinkChain * result aerr unit :=
  match validatePrevHash (sc_algorithm c) prevHash with
  | Err e => (c, Err e)
  | Ok _ => (mkSinkChain (sc_id c) (sc_key c) (sc_algorithm c) generation prevHash fatal, Ok tt)
  end.

(** ** [integrity.go] *)

Record IntegrityMetadata : Type := mkMeta {
  im_FormatVersion : Z;
  im_Sequence : Z;
  im_PrevHash : string;
  im_EntryHash : string
}.

(** The struct as it is marshalled, in field order. *)
Definition metadata_json (m : IntegrityMetadata) : json :=
  JObject [("format_version", JNumber (string_bytes (FormatInt (im_FormatVersion m))));
           ("sequence", JNumber (string_bytes (FormatInt (im_Sequence m))));
           ("prev_hash", JString (im_PrevHash m));
           ("entry_hash", JString (im_EntryHash m))].

(** [map[string]any]; [None] is the nil map. *)
Definition payload_map : Type := option (list (string * json)).

Definition map_get (k : string) (m : payload_map) : option json :=
  match m with Some m => obj_get k m | None => None end.

Definition map_delete (k : string) (m : payload_map) : payload_map := obj_delete k <$> m.

(** One value and nothing after it; [null] decodes to the nil map. *)
Definition parseIntegrityPayloadUseNumber (payload : list Z) : result aerr payload_map :=
  '(v, rest) <-? map_err ErrParsePayload (parse_value maxNestingDepth (skip_ws payload)) ;
  m <-? match v with
        | JObject m => Ok (Some m)
        | JNull => Ok None
        | _ => Err (ErrParsePayload JTypeError)
        end ;
  match skip_ws rest with
  | [] => Ok m
  | t => match parse_value maxNestingDepth t with
         | Ok _ => Err ErrTrailingData
         | Err e => Err (ErrParsePayload e)
         end
  end.

Definition marshalCanonicalPayload (m : payload_map) : list Z :=
  match m with Some m => marshal (JObject m) | None => marshal JNull end.

(** [json.Number.Int64]: [strconv.ParseInt(s, 10, 64)]. *)
Definition Number_Int64 (lit : list Z) : option Z :=
  match DecimalString.NilZero.int_of_string (bytes_string lit) with
  | Some d => let z := Z.of_int d in
              if (min_int64 <=? z) && (z <=? max_int64) then Some z else None
  | None => None
  end.

Definition jsonInt64 (v : option json) : option Z :=
  match v with Some (JNumber lit) => Number_Int64 lit | _ => None end.

(** [int] is 64 bits wide. *)
Definition jsonInt (v : option json) : option Z := jsonInt64 v.

Definition json_string (v : option json) : option string :=
  match v with Some (JString s) => Some s | _ => None end.

Definition integrityMetadataFromMap (v : option json) : option IntegrityMetadata :=
  match v with
  | Some (JObject integrity) =>
    formatVersion ← jsonInt (obj_get "format_version" integrity);
    sequence ← jsonInt64 (obj_get "sequence" integrity);
    prevHash ← json_string (obj_get "prev_hash" integrity);
    entryHash ← json_string (obj_get "entry_hash" integrity);
    Some (mkMeta formatVersion sequence prevHash entryHash)
  | _ => None
  end.

Definition VerifyHash (key : list Z) (algorithm : string) (formatVersion sequence : Z)
  (prevHash : string) (payload : list Z) (expectedHash : string) : result aerr bool :=
  data <-? parseIntegrityPayloadUseNumber payload ;
  let canonicalPayload := marshalCanonicalPayload (map_delete "integrity" data) in
  actualHash <-? computeIntegrityHash key algorithm formatVersion sequence prevHash canonicalPayload ;
  Ok (actualHash ==? expectedHash).

Definition VerifyWrapped (key : list Z) (algorithm : string) (wrapped : list Z) : result aerr bool :=
  data <-? parseIntegrityPayloadUseNumber wrapped ;
  match integrityMetadataFromMap (map_get "integrity" data) with
  | None => Ok false
  | Some meta =>
    let canonicalPayload := marshalCanonicalPayload (map_delete "integrity" data) in
    actualHash <-? computeIntegrityHash key algorithm (im_FormatVersion meta) (im_Sequence meta)
                     (im_PrevHash meta) canonicalPayload ;
    Ok (actualHash ==? im_EntryHash meta)
  end.

Record IntegrityChain : Type := mkIntegrityChain {
  ic_alloc : SequenceAllocator;
  ic_chain : SinkChain
}.

Record ChainState : Type := mkChainState {
  cs_Sequence : Z;
  cs_PrevHash : string
}.

Definition NewIntegrityChainWithAlgorithm (id : nat) (key : list Z) (algorithm : string)
  : result aerr IntegrityChain :=
  chain <-? NewSinkChain id key algorithm ;
  Ok (mkIntegrityChain NewSequenceAllocator chain).

Definition NewIntegrityChain (id : nat) (key : list Z) : result aerr IntegrityChain :=
  if Z.of_nat (length key) <? MinKeyLength then Err (ErrKeyTooShort (Z.of_nat (length key)))
  else NewIntegrityChainWithAlgorithm id key "hmac-sha256".

(** The entry written for a payload map and its metadata. *)
Definition wrapped_entry (data : list (string * json)) (meta : IntegrityMetadata) : list Z :=
  marshal (JObject (obj_put "integrity" (metadata_json meta) data)).

(** The chain after the call, and the wrapped entry.  The sequence number is consumed before the
    hash is computed. *)
Definition Wrap (c : IntegrityChain) (payload : list Z) : IntegrityChain * result aerr (list Z) :=
  match parseIntegrityPayloadUseNumber payload with
  | Err e => (c, Err e)
  | Ok data =>
    let canonicalPayload := marshalCanonicalPayload data in
    match Next (ic_alloc c) with
    | (alloc', Err e) => (mkIntegrityChain alloc' (ic_chain c), Err e)
    | (alloc', Ok (seq, gen)) =>
      match Compute (ic_chain c) IntegrityFormatVersion seq gen canonicalPayload with
      | Err e => (mkIntegrityChain alloc' (ic_chain c), Err e)
      | Ok r =>
        match data with
        | None => (mkIntegrityChain alloc' (ic_chain c), Err PanicNilMap)
        | Some m =>
          let wrapped := wrapped_entry m (mkMeta IntegrityFormatVersion seq (cr_prevHash r)
                                            (cr_entryHash r)) in
          match Commit (ic_chain c) (Some r) with
          | (chain', Err e) => (mkIntegrityChain alloc' chain', Err e)
          | (chain', Ok _) => (mkIntegrityChain alloc' chain', Ok wrapped)
          end
        end
      end
    end
  end.

Definition IntegrityChain_State (c : IntegrityChain) : ChainState :=
  mkChainState (as_Sequence (SequenceAllocator_State (ic_alloc c)))
    (scs_PrevHash (SinkChain_State (ic_chain c))).

(** All or nothing: the allocator is rolled back when the chain rejects the hash. *)
Definition IntegrityChain_Restore (c : IntegrityChain) (sequence : Z) (prevHash : string)
  : IntegrityChain * result aerr unit :=
  let prevAlloc := SequenceAllocator_State (ic_alloc c) in
  match SequenceAllocator_Restore (ic_alloc c) (mkAllocatorState sequence 0) with
  | (alloc', Err e) => (mkIntegrityChain alloc' (ic_chain c), Err e)
  | (alloc', Ok _) =>
    match SinkChain_Restore (ic_chain c) 0 prevHash false with
    | (chain', Err e) =>
      (mkIntegrityChain (fst (SequenceAllocator_Restore alloc' prevAlloc)) chain', Err e)
    | (chain', Ok _) => (mkIntegrityChain alloc' chain', Ok tt)
    end
  end.

Definition IntegrityChain_VerifyHash (c : IntegrityChain) (formatVersion sequence : Z)
  (prevHash : string) (payload : list Z) (expectedHash : string) : result aerr bool :=
  VerifyHash (sc_key (ic_chain c)) (sc_algorithm (ic_chain c)) formatVersion sequence prevHash
    payload expectedHash.

Definition IntegrityChain_VerifyWrapped (c : IntegrityChain) (wrapped : list Z)
  : result aerr bool :=
  VerifyWrapped (sc_key (ic_chain c)) (sc_algorithm (ic_chain c)) wrapped.

End Chain.

(** ** [sidecar.go] *)
Module Sidecar.

(** Times are seconds; 0 is the zero [time.Time]. *)
Record SidecarState : Type := mkSidecar {
  sd_FormatVersion : Z;
  sd_Sequence : Z;
  sd_PrevHash : string;
  sd_KeyFingerprint : string;
  sd_UpdatedAt : Z
}.

Record sidecarStateDisk : Type := mkDisk {
  dk_FormatVersion : option Z;
  dk_Sequence : option Z;
  dk_PrevHash : option string;
  dk_KeyFingerprint : option string;
  dk_UpdatedAt : option Z
}.

(** The sidecar file: absent, unreadable, not the expected JSON, or the decoded struct. *)
Inductive sidecar_file : Type :=
| SidecarMissing
| SidecarUnreadable
| SidecarBadJSON
| SidecarDisk (disk : sidecarStateDisk).

Definition SidecarPath (logPath : string) : string := logPath +:+ ".chain".

Definition disk_fields (disk : sidecarStateDisk) : result aerr SidecarState :=
  match dk_FormatVersion disk with
  | Some v =>
    if v <=? 0 then Err (ErrSidecarCorrupt "missing or invalid format_version")
    else match dk_Sequence disk, dk_PrevHash disk, dk_KeyFingerprint disk with
    | None, _, _ => Err (ErrSidecarCorrupt "missing sequence")
    | _, None, _ => Err (ErrSidecarCorrupt "missing prev_hash")
    | Some sequence, Some prevHash, Some fp =>
      if fp ==? "" then Err (ErrSidecarCorrupt "missing key_fingerprint")
      else Ok (mkSidecar v sequence prevHash fp (default 0 (dk_UpdatedAt disk)))
    | _, _, None => Err (ErrSidecarCorrupt "missing key_fingerprint")
    end
  | None => Err (ErrSidecarCorrupt "missing or invalid format_version")
  end.

Definition ReadSidecar (f : sidecar_file) : result aerr SidecarState :=
  match f with
  | SidecarMissing => Err ErrSidecarNotFound
  | SidecarUnreadable => Err ErrSidecarRead
  | SidecarBadJSON => Err (ErrSidecarCorrupt "parse sidecar")
  | SidecarDisk disk =>
    state <-? disk_fields disk ;
    if IntegrityFormatVersion <? sd_FormatVersion state
    then Err (ErrSidecarUnsupportedFormat (sd_FormatVersion state))
    else if sd_Sequence state <? -1 then Err (ErrSidecarCorrupt "invalid sequence")
    else if (sd_Sequence state <? 0) && (sd_PrevHash state !=? "")
    then Err (ErrSidecarCorrupt "negative sequence with non-empty prev_hash")
    else if (0 <=? sd_Sequence state) && (sd_PrevHash state ==? "")
    then Err (ErrSidecarCorrupt "persisted sequence requires non-empty prev_hash")
    else if (sd_PrevHash state !=? "") && negb (hex_decodable (sd_PrevHash state))
    then Err (ErrSidecarCorrupt "invalid prev_hash")
    else Ok state
  end.

(** The file after a successful write. *)
Definition WriteSidecar (now : Z) (state : SidecarState) : sidecar_file :=
  let updated := if sd_UpdatedAt state =? 0 then now else sd_UpdatedAt state in
  SidecarDisk (mkDisk (Some IntegrityFormatVersion) (Some (sd_Sequence state))
                 (Some (sd_PrevHash state)) (Some (sd_KeyFingerprint state)) (Some updated)).

End Sidecar.
Export Sidecar.

(** ** Facts *)
Module ChainFacts.

(** *** Text of hashes and numbers *)

Definition ascii_text (s : string) : Prop := Forall (fun b => 0 <= b < 128) (string_bytes s).

Lemma ascii_text_valid s : ascii_text s -> ValidString s = true.
Proof.
  unfold ascii_text, ValidString. intros H.
  assert (decode_runes (string_bytes s) = Some (string_bytes s)) as ->; [|done].
  induction H as [|b bs Hb _ IH]; simpl; [done|]. unfold between.
  rewrite (proj2 (Z.leb_le 0 b)), (proj2 (Z.leb_le b 127)) by lia. simpl. by rewrite IH.
Qed.

Lemma hex_digit_byte n : 0 <= n < 16 ->
  byte_of_char (hex_digit n) = (if n <? 10 then 48 + n else 87 + n).
Proof. intros. unfold hex_digit. apply byte_ascii_id. unfold byte_range. case_match; lia. Qed.

Definition is_lower_hex (b : Z) : Prop := 48 <= b <= 57 \/ 97 <= b <= 102.

Lemma hex_encode_bytes bs :
  Forall byte_range bs -> Forall is_lower_hex (string_bytes (hex_encode bs)).
Proof.
  induction 1 as [|b bs Hb _ IH]; simpl; [constructor|]. unfold byte_range in Hb.
  assert (0 <= b / 16 < 16 /\ 0 <= b mod 16 < 16) as [? ?] by div_lia.
  rewrite !hex_digit_byte by done. unfold is_lower_hex.
  constructor; [case_match; bool_prop; lia|]. constructor; [case_match; bool_prop; lia|done].
Qed.

Lemma hex_encode_length bs : String.length (hex_encode bs) = (2 * length bs)%nat.
Proof. induction bs; simpl; lia. Qed.

Lemma list_ascii_bytes s : byte_of_char <$> list_ascii_of_string s = string_bytes s.
Proof. induction s; simpl; [done|]. f_equal. apply IHs. Qed.

Lemma hex_decodable_encode bs : Forall byte_range bs -> hex_decodable (hex_encode bs) = true.
Proof.
  intros H%hex_encode_bytes. unfold hex_decodable.
  rewrite hex_encode_length, Nat.even_mul. simpl. apply forallb_forall. intros c Hc.
  rewrite Forall_forall in H. unfold is_hex_digit, between.
  assert (is_lower_hex (byte_of_char c)) as Hx.
  { apply H. rewrite <- list_ascii_bytes. apply list_elem_of_fmap. exists c.
    split; [done|]. by apply list_elem_of_In. }
  unfold is_lower_hex in Hx. lia.
Qed.

Lemma hex_decodable_ascii s : hex_decodable s = true -> ascii_text s.
Proof.
  unfold hex_decodable, ascii_text. intros [_ H]%andb_true_iff. rewrite forallb_forall in H.
  apply Forall_forall. intros b Hb. rewrite <- list_ascii_bytes in Hb.
  apply list_elem_of_fmap in Hb as (c & -> & Hc). apply list_elem_of_In, H in Hc.
  unfold is_hex_digit, between in Hc. lia.
Qed.

Lemma hex_decodable_no_bar s : hex_decodable s = true -> 124 ∉ string_bytes s.
Proof.
  unfold hex_decodable. intros [_ H]%andb_true_iff Hb. rewrite forallb_forall in H.
  rewrite <- list_ascii_bytes in Hb. apply list_elem_of_fmap in Hb as (c & Hc & Hin).
  apply list_elem_of_In, H in Hin. unfold is_hex_digit, between in Hin. lia.
Qed.

Lemma FormatInt_no_bar z : 124 ∉ string_bytes (FormatInt z).
Proof.
  assert (Hu : forall d, 124 ∉ string_bytes (DecimalString.NilZero.string_of_uint d)).
  { intros d Hin. destruct d; [set_solver|..]; unfold DecimalString.NilZero.string_of_uint in Hin;
      pose proof (string_of_uint_digits) as Hd;
      match type of Hin with _ ∈ string_bytes (_ ?d) => specialize (Hd d) end;
      rewrite Forall_forall in Hd; apply Hd in Hin; done. }
  unfold FormatInt. destruct z; simpl; [set_solver|apply Hu|].
  rewrite elem_of_cons. intros [?|H]; [done|]. by apply Hu in H.
Qed.

(** *** The hashed message *)

Lemma split_bar (a1 a2 t1 t2 : list Z) :
  124 ∉ a1 -> 124 ∉ a2 -> a1 ++ 124 :: t1 = a2 ++ 124 :: t2 -> a1 = a2 /\ t1 = t2.
Proof.
  revert a2. induction a1 as [|x a1 IH]; intros [|y a2] H1 H2 H; simplify_eq/=; [done|set_solver..|].
  destruct (IH a2) as [-> ->]; [set_solver..|done|done].
Qed.

(** The separator is unambiguous: the message determines what was hashed. *)
Lemma integrity_message_inj v1 s1 p1 b1 v2 s2 p2 b2 :
  124 ∉ string_bytes p1 -> 124 ∉ string_bytes p2 ->
  integrity_message v1 s1 p1 b1 = integrity_message v2 s2 p2 b2 ->
  v1 = v2 /\ s1 = s2 /\ p1 = p2 /\ b1 = b2.
Proof.
  unfold integrity_message. intros H1 H2 H.
  apply split_bar in H as [Hv H]; [|apply FormatInt_no_bar..].
  apply split_bar in H as [Hs H]; [|apply FormatInt_no_bar..].
  apply split_bar in H as [Hp ->]; [|done..].
  apply string_bytes_inj, FormatInt_inj in Hv, Hs. apply string_bytes_inj in Hp. done.
Qed.

(** The two messages differ and have the same keyed hash. *)
Definition collide (hmac : hmac_fn) (key : list Z) (algorithm : string) (m1 m2 : list Z) : Prop :=
  m1 <> m2 /\ exists a, hash_for algorithm = Ok a /\ hmac a key m1 = hmac a key m2.

Lemma hex_encode_inj b1 b2 :
  Forall byte_range b1 -> Forall byte_range b2 -> hex_encode b1 = hex_encode b2 -> b1 = b2.
Proof.
  intros H1. revert b2. induction H1 as [|x b1 Hx _ IH]; intros [|y b2] H2 H; try done.
  inversion_clear H2 as [|? ? Hy Hb2]. simpl in H. injection H as Ha Hb Hr.
  f_equal; [|by apply IH]. unfold byte_range in *.
  assert (0 <= x / 16 < 16 /\ 0 <= x mod 16 < 16 /\ 0 <= y / 16 < 16 /\ 0 <= y mod 16 < 16)
    as (?&?&?&?) by div_lia.
  apply (f_equal byte_of_char) in Ha, Hb. rewrite !hex_digit_byte in Ha, Hb by done.
  assert (x / 16 = y / 16 /\ x mod 16 = y mod 16) by (repeat case_match; bool_prop; lia).
  div_lia.
Qed.

Section Hashes.
Context (hmac : hmac_fn) `{HmacLaws hmac}.

Lemma computeIntegrityHash_hex key alg v s p b h :
  computeIntegrityHash hmac key alg v s p b = Ok h ->
  hex_decodable h = true /\ h <> "" /\
  exists a, hash_for alg = Ok a /\ String.length h = (2 * hash_size a)%nat.
Proof using All.
  unfold computeIntegrityHash. intros Hh. apply rbind_Ok in Hh as (a & Ha & [= <-]).
  split; [apply hex_decodable_encode, hmac_bytes|].
  assert (Hl : String.length (hex_encode (hmac a key (integrity_message v s p b))) =
               (2 * hash_size a)%nat) by (by rewrite hex_encode_length, hmac_length).
  split; [|eauto]. intros He. rewrite He in Hl. by destruct a.
Qed.

(** Equal entry hashes come from equal entries, or the two messages collide. *)
Lemma computeIntegrityHash_inj key alg v1 s1 p1 b1 v2 s2 p2 b2 h :
  124 ∉ string_bytes p1 -> 124 ∉ string_bytes p2 ->
  computeIntegrityHash hmac key alg v1 s1 p1 b1 = Ok h ->
  computeIntegrityHash hmac key alg v2 s2 p2 b2 = Ok h ->
  (v1 = v2 /\ s1 = s2 /\ p1 = p2 /\ b1 = b2) \/
  collide hmac key alg (integrity_message v1 s1 p1 b1) (integrity_message v2 s2 p2 b2).
Proof using All.
  unfold computeIntegrityHash. intros Hp1 Hp2 H1 H2.
  apply rbind_Ok in H1 as (a & Ha & [= <-]). apply rbind_Ok in H2 as (a' & Ha' & [= He]).
  rewrite Ha in Ha'. injection Ha' as <-.
  apply hex_encode_inj in He; [|apply hmac_bytes..].
  destruct (decide (integrity_message v1 s1 p1 b1 = integrity_message v2 s2 p2 b2)) as [Hm|Hm].
  - left. by apply integrity_message_inj.
  - right. split; [done|]. by exists a.
Qed.

End Hashes.

(** *** Payload maps *)

Definition payload_ok (m : payload_map) : Prop :=
  match m with Some m => decoded_members 9999 m | None => True end.

Lemma maxNestingDepth_S : maxNestingDepth = S 9999.
Proof. reflexivity. Qed.

Lemma parse_payload_ok payload m :
  parseIntegrityPayloadUseNumber payload = Ok m -> payload_ok m.
Proof.
  unfold parseIntegrityPayloadUseNumber. intros H.
  apply rbind_Ok in H as ([v rest] & Hv & H). apply map_err_Ok, parse_value_decoded in Hv.
  apply rbind_Ok in H as (m' & Hm & H).
  assert (payload_ok m').
  { destruct v; try done; injection Hm as <-; [done|]. simpl.
    apply decoded_object. by rewrite maxNestingDepth_S in Hv. }
  repeat case_match; simplify_eq; done.
Qed.

Lemma parse_payload_marshal v m :
  wf v -> (depth v <= maxNestingDepth)%nat -> canon v = JObject m ->
  parseIntegrityPayloadUseNumber (marshal v) = Ok (Some m).
Proof.
  intros Hw Hd Hc. unfold parseIntegrityPayloadUseNumber.
  pose proof (parse_marshal v maxNestingDepth [] Hw Hd I) as Hp. rewrite app_nil_r, Hc in Hp.
  pose proof (skip_ws_marshal v [] Hw) as Hs. rewrite app_nil_r in Hs. by rewrite Hs, Hp.
Qed.

(** Canonical text reads back as the map it was printed from. *)
Lemma parse_canonical m :
  payload_ok m -> parseIntegrityPayloadUseNumber (marshalCanonicalPayload m) = Ok m.
Proof.
  destruct m as [m|]; [|by intros _; vm_compute].
  intros H. apply decoded_object in H as (Hw & Hs & Hd).
  change (marshalCanonicalPayload (Some m)) with (marshal (JObject m)).
  apply parse_payload_marshal; [done|by rewrite maxNestingDepth_S|by apply canon_sorted].
Qed.

Lemma payload_ok_delete k m : payload_ok m -> payload_ok (map_delete k m).
Proof.
  destruct m as [m|]; [|done]. simpl. intros [Hs Hm]. split.
  - unfold sorted_keys, obj_delete in *. clear Hm.
    induction m as [|[k' v] m IH]; simpl; [constructor|]. simpl in Hs.
    inversion_clear Hs as [|? ? Hs' Hall]. destruct (_ !=? _); simpl; [|auto].
    constructor; [auto|]. rewrite Forall_forall in Hall |- *. intros x Hx. apply Hall.
    apply list_elem_of_fmap in Hx as (p & -> & Hp). apply list_elem_of_fmap. exists p.
    split; [done|]. apply list_elem_of_In, filter_In in Hp as [? _]. by apply list_elem_of_In.
  - unfold obj_delete. rewrite Forall_forall in Hm |- *. intros p Hp. apply Hm.
    apply list_elem_of_In, filter_In in Hp as [? _]. by apply list_elem_of_In.
Qed.

(** Stored canonical payloads hash as they are: verification recovers the same bytes. *)
Lemma VerifyHash_canonical hmac key alg v s p m expected :
  payload_ok m -> map_get "integrity" m = None ->
  VerifyHash hmac key alg v s p (marshalCanonicalPayload m) expected =
    (h <-? computeIntegrityHash hmac key alg v s p (marshalCanonicalPayload m) ;
     Ok (h ==? expected)).
Proof.
  intros Hm Hg. unfold VerifyHash. rewrite parse_canonical by done. cbn [rbind].
  assert (map_delete "integrity" m = m) as ->; [|done].
  destruct m as [m|]; [|done]. simpl in *. f_equal. by apply obj_delete_notin.
Qed.

(** *** Entries *)

Lemma Number_Int64_FormatInt z :
  int64_range z -> Number_Int64 (string_bytes (FormatInt z)) = Some z.
Proof.
  intros [H1 H2]. unfold Number_Int64, FormatInt. rewrite bytes_string_bytes.
  assert (Hn : Z.to_int z <> Decimal.Pos Decimal.Nil /\ Z.to_int z <> Decimal.Neg Decimal.Nil).
  { destruct z as [|q|q]; simpl; split; try done; intros [= Hp];
      by apply (DecimalPos.Unsigned.to_uint_nonnil q). }
  rewrite DecimalString.NilZero.isi by apply Hn. rewrite DecimalZ.of_to.
  by rewrite (proj2 (Z.leb_le _ _) H1), (proj2 (Z.leb_le _ _) H2).
Qed.

(** Metadata the chain writes. *)
Definition meta_ok (m : IntegrityMetadata) : Prop :=
  int64_range (im_FormatVersion m) /\ int64_range (im_Sequence m) /\
  ValidString (im_PrevHash m) = true /\ ValidString (im_EntryHash m) = true.

Lemma metadata_roundtrip m :
  meta_ok m -> integrityMetadataFromMap (Some (canon (metadata_json m))) = Some m.
Proof.
  intros (Hv & Hs & _ & _). destruct m as [v s p e]. simpl in Hv, Hs.
  transitivity (v' ← Number_Int64 (string_bytes (FormatInt v));
                s' ← Number_Int64 (string_bytes (FormatInt s)); Some (mkMeta v' s' p e));
    [reflexivity|].
  by rewrite !Number_Int64_FormatInt.
Qed.

Lemma metadata_wf m : meta_ok m -> wf (metadata_json m) /\ depth (metadata_json m) = 1%nat.
Proof.
  intros (_ & _ & Hp & He). split; [|done]. simpl.
  split_and!; try done; apply FormatInt_valid.
Qed.

Lemma map_canon_put k v m :
  Forall (fun p => canon p.2 = p.2) m ->
  map (fun p => (p.1, canon p.2)) (obj_put k v m) = obj_put k (canon v) m.
Proof.
  induction 1 as [|[k' v'] m Hv Hm IH]; simpl in *; [done|].
  assert (Hid : map (fun p => (p.1, canon p.2)) m = m).
  { clear -Hm. induction Hm as [|[a b] m Hb _ IHm]; simpl in *; [done|]. by rewrite Hb, IHm. }
  destruct (String.compare k k'); simpl; by rewrite ?Hv, ?Hid, ?IH.
Qed.

(** A written entry reads back as the payload map with its metadata. *)
Lemma parse_wrapped_entry m meta :
  payload_ok (Some m) -> meta_ok meta ->
  parseIntegrityPayloadUseNumber (wrapped_entry m meta) =
    Ok (Some (obj_put "integrity" (canon (metadata_json meta)) m)).
Proof.
  intros [Hs Hm] Hmeta. destruct (metadata_wf meta Hmeta) as [Hw Hd].
  unfold wrapped_entry. apply parse_payload_marshal.
  - simpl. apply fold_and_Forall, Forall_forall. intros p [->|Hp]%obj_put_keys; [done|].
    rewrite Forall_forall in Hm. by destruct (Hm p Hp) as (? & ? & ?).
  - rewrite maxNestingDepth_S. cbn [depth]. apply le_n_S, fold_max_le, Forall_forall.
    intros p [->|Hp]%obj_put_keys; [cbn [snd]; rewrite Hd; by apply Nat.leb_le|].
    rewrite Forall_forall in Hm. by destruct (Hm p Hp) as (? & ? & ? & ?).
  - cbn [canon]. rewrite map_canon_put, fold_put_sorted; [done|by apply obj_put_sorted|].
    eapply Forall_impl; [exact Hm|]. intros p (_ & _ & ? & _). by apply canon_sorted.
Qed.

End ChainFacts.
Export ChainFacts.

(** ** One chain under any interleaving of its callers *)
Module Interleaving.
Section Interleaving.
Context (hmac : hmac_fn).

(** The chain, the tokens its [Compute] has issued and the results it has committed, in order.
    Callers may hold any number of issued tokens at once, commit them in any order or more than
    once, offer tokens of other chains, and latch the chain at any time. *)
Inductive chain_reach (c0 : SinkChain) : SinkChain -> list ComputeResult -> list ComputeResult -> Prop :=
| reach_start : chain_reach c0 c0 [] []
| reach_compute c issued committed v s g payload r :
    chain_reach c0 c issued committed -> Compute hmac c v s g payload = Ok r ->
    chain_reach c0 c (r :: issued) committed
| reach_commit c issued committed r c' :
    chain_reach c0 c issued committed -> r ∈ issued \/ cr_chain r <> sc_id c ->
    Commit c (Some r) = (c', Ok tt) -> chain_reach c0 c' issued (committed ++ [r])
| reach_commit_fails c issued committed res c' e :
    chain_reach c0 c issued committed -> Commit c res = (c', Err e) ->
    chain_reach c0 c' issued committed
| reach_fatal c issued committed :
    chain_reach c0 c issued committed -> chain_reach c0 (Fatal c) issued committed.

(** A single hash chain: generations never go back, a result of the current generation points to
    the hash before it, the first of a new generation to nothing. *)
Fixpoint linked (g : Z) (h : string) (l : list ComputeResult) : Prop :=
  match l with
  | [] => True
  | r :: l' =>
    g <= cr_generation r /\ cr_prevHash r = (if cr_generation r =? g then h else "") /\
    linked (cr_generation r) (cr_entryHash r) l'
  end.

(** The generation and hash after the results. *)
Fixpoint head_after (g : Z) (h : string) (l : list ComputeResult) : Z * string :=
  match l with [] => (g, h) | r :: l' => head_after (cr_generation r) (cr_entryHash r) l' end.

Lemma head_after_snoc g h l r :
  head_after g h (l ++ [r]) = (cr_generation r, cr_entryHash r).
Proof. revert g h. induction l; intros; simpl; auto. Qed.

Lemma linked_snoc g h l r :
  linked g h l -> let '(g', h') := head_after g h l in
  g' <= cr_generation r -> cr_prevHash r = (if cr_generation r =? g' then h' else "") ->
  linked g h (l ++ [r]).
Proof.
  revert g h. induction l as [|x l IH]; simpl; intros g h; [done|].
  intros (? & ? & Hl). specialize (IH _ _ Hl). destruct (head_after _ _ l). auto.
Qed.

Lemma Commit_ok c r c' :
  Commit c (Some r) = (c', Ok tt) ->
  sc_fatal c = false /\ cr_chain r = sc_id c /\ sc_generation c <= cr_generation r /\
  cr_prevHash r = (if cr_generation r =? sc_generation c then sc_prevHash c else "") /\
  c' = mkSinkChain (sc_id c) (sc_key c) (sc_algorithm c) (cr_generation r) (cr_entryHash r) false.
Proof.
  unfold Commit. intros H.
  destruct (sc_fatal c); [done|]. destruct (Nat.eqb_spec (cr_chain r) (sc_id c)); [|done].
  destruct (Z.ltb_spec (cr_generation r) (sc_generation c)); [done|]. simpl in H.
  destruct (cr_generation r =? sc_generation c); simpl in H;
    (case_bool_decide; simpl in H; [|done]); injection H as <-; done.
Qed.

Lemma Commit_err c res c' e :
  Commit c res = (c', Err e) -> c' = c \/ c' = latch c.
Proof. unfold Commit. intros H. repeat case_match; simplify_eq; auto. Qed.

Definition same_identity (c c' : SinkChain) : Prop :=
  sc_id c' = sc_id c /\ sc_key c' = sc_key c /\ sc_algorithm c' = sc_algorithm c.

(** The hash of a result is the keyed hash of its sequence number, predecessor and a payload. *)
Definition hashed (c : SinkChain) (r : ComputeResult) : Prop :=
  exists v payload, computeIntegrityHash hmac (sc_key c) (sc_algorithm c) v (cr_sequence r)
                      (cr_prevHash r) payload = Ok (cr_entryHash r).

Lemma Compute_hashed c v s g payload r :
  Compute hmac c v s g payload = Ok r -> sc_fatal c = false /\ cr_chain r = sc_id c /\ hashed c r.
Proof.
  unfold Compute. intros H. destruct (sc_fatal c); [done|].
  apply rbind_Ok in H as (h & Hh & [= <-]). split_and!; [done..|]. by exists v, payload.
Qed.

Lemma chain_reach_inv c0 c issued committed :
  chain_reach c0 c issued committed ->
  same_identity c0 c /\
  (forall r, r ∈ issued -> cr_chain r = sc_id c0 /\ hashed c0 r) /\
  linked (sc_generation c0) (sc_prevHash c0) committed /\
  (sc_generation c, sc_prevHash c) = head_after (sc_generation c0) (sc_prevHash c0) committed /\
  Forall (fun r => r ∈ issued) committed.
Proof.
  induction 1 as [|c iss com v s g payload r _ IH Hc|c iss com r c' _ IH Htok Hc
                  |c iss com res c' e _ IH Hc|c iss com _ IH].
  - split_and!; try done. intros r Hr. by apply not_elem_of_nil in Hr.
  - destruct IH as ((Hi & Hk & Ha) & Hiss & Hl & Hh & Hin).
    apply Compute_hashed in Hc as (_ & Hid & Hr). split_and!; try done.
    + intros r' [->|Hr']%elem_of_cons; [|auto]. split; [congruence|].
      unfold hashed in *. by rewrite <- Hk, <- Ha.
    + eapply Forall_impl; [exact Hin|]. intros. by right.
  - destruct IH as ((Hi & Hk & Ha) & Hiss & Hl & Hh & Hin).
    apply Commit_ok in Hc as (_ & Hid & Hg & Hp & ->).
    destruct Htok as [Hr|Hr]; [|done]. split_and!; try done.
    + pose proof (linked_snoc _ _ _ r Hl) as Hs. rewrite <- Hh in Hs. by apply Hs.
    + by rewrite head_after_snoc.
    + apply Forall_app. split; [done|]. by constructor.
  - destruct IH as ((Hi & Hk & Ha) & Hiss & Hl & Hh & Hin).
    apply Commit_err in Hc as [->| ->]; split_and!; done.
  - destruct IH as ((Hi & Hk & Ha) & Hiss & Hl & Hh & Hin). split_and!; done.
Qed.

Lemma fatal_reach c0 c issued committed :
  sc_fatal c0 = true -> chain_reach c0 c issued committed ->
  issued = [] /\ committed = [] /\ sc_fatal c = true /\ sc_prevHash c = sc_prevHash c0.
Proof.
  intros Hf. induction 1 as [|c iss com v s g payload r _ IH Hc|c iss com r c' _ IH Htok Hc
                  |c iss com res c' e _ IH Hc|c iss com _ IH]; [done|..];
    destruct IH as (-> & -> & Hl & Hp).
  - apply Compute_hashed in Hc as [? _]. congruence.
  - apply Commit_ok in Hc as [? _]. congruence.
  - apply Commit_err in Hc as [->| ->]; done.
  - done.
Qed.

End Interleaving.
End Interleaving.
Export Interleaving.

(** ** The composed chain *)
Module Composed.
Section Composed.
Context (hmac : hmac_fn) `{HmacLaws hmac}.

(** States of an [IntegrityChain] in use: generation 0, not latched, a well-formed head. *)
Record ic_ok (c : IntegrityChain) : Prop := {
  ico_seq : -1 <= sa_sequence (ic_alloc c) <= max_int64;
  ico_gen : sa_generation (ic_alloc c) = 0;
  ico_chain_gen : sc_generation (ic_chain c) = 0;
  ico_live : sc_fatal (ic_chain c) = false;
  ico_prev : validatePrevHash (sc_algorithm (ic_chain c)) (sc_prevHash (ic_chain c)) = Ok tt;
  ico_alg : sc_algorithm (ic_chain c) = "hmac-sha256" \/ sc_algorithm (ic_chain c) = "hmac-sha512"
}.

Lemma validatePrevHash_hex alg h :
  validatePrevHash alg h = Ok tt -> h = "" \/ hex_decodable h = true.
Proof.
  unfold validatePrevHash. intros Hv. destruct (h ==? "") eqn:E; [bool_prop; auto|].
  right. destruct (hex_decodable h); [done|]. by destruct (negb _) in Hv.
Qed.

Lemma validatePrevHash_text alg h :
  validatePrevHash alg h = Ok tt -> ValidString h = true /\ 124 ∉ string_bytes h.
Proof.
  intros [->|Hh]%validatePrevHash_hex; [split; [done|set_solver]|]. split.
  - by apply ascii_text_valid, hex_decodable_ascii.
  - by apply hex_decodable_no_bar.
Qed.

Lemma computed_hash_valid key alg v s p b h :
  alg = "hmac-sha256" \/ alg = "hmac-sha512" ->
  computeIntegrityHash hmac key alg v s p b = Ok h -> validatePrevHash alg h = Ok tt.
Proof using All.
  intros Halg Hh. apply computeIntegrityHash_hex in Hh as (Hx & Hne & a & Ha & Hl); [|done].
  unfold validatePrevHash. rewrite bool_decide_eq_false_2 by done. rewrite Hl, Hx.
  destruct Halg as [-> | ->]; vm_compute in Ha; injection Ha as <-; done.
Qed.

Lemma hash_total key alg v s p b :
  alg = "hmac-sha256" \/ alg = "hmac-sha512" ->
  exists h, computeIntegrityHash hmac key alg v s p b = Ok h.
Proof. intros [-> | ->]; unfold computeIntegrityHash; simpl; eauto. Qed.

(** The metadata [Wrap] attaches. *)
Definition next_meta (c : IntegrityChain) (h : string) : IntegrityMetadata :=
  mkMeta IntegrityFormatVersion (sa_sequence (ic_alloc c) + 1) (sc_prevHash (ic_chain c)) h.

(** The chain after an entry with hash [h]. *)
Definition advanced (c : IntegrityChain) (h : string) : IntegrityChain :=
  mkIntegrityChain (mkAllocator (sa_sequence (ic_alloc c) + 1) 0)
    (mkSinkChain (sc_id (ic_chain c)) (sc_key (ic_chain c)) (sc_algorithm (ic_chain c)) 0 h false).

Definition hash_next (c : IntegrityChain) (payload : list Z) : result aerr string :=
  computeIntegrityHash hmac (sc_key (ic_chain c)) (sc_algorithm (ic_chain c)) IntegrityFormatVersion
    (sa_sequence (ic_alloc c) + 1) (sc_prevHash (ic_chain c)) payload.

(** [Wrap] on a JSON object succeeds exactly until the sequence is exhausted. *)
Lemma Wrap_object c payload m :
  ic_ok c -> parseIntegrityPayloadUseNumber payload = Ok (Some m) ->
  sa_sequence (ic_alloc c) < max_int64 ->
  exists h, hash_next c (marshal (JObject m)) = Ok h /\
    Wrap hmac c payload = (advanced c h, Ok (wrapped_entry m (next_meta c h))).
Proof.
  intros [Hs Hg Hcg Hl Hp Ha] Hm Hlt.
  destruct (hash_total (sc_key (ic_chain c)) (sc_algorithm (ic_chain c)) IntegrityFormatVersion
    (sa_sequence (ic_alloc c) + 1) (sc_prevHash (ic_chain c)) (marshal (JObject m)) Ha) as [h Hh].
  exists h. split; [done|]. unfold Wrap. rewrite Hm. unfold Next.
  rewrite (proj2 (Z.eqb_neq _ _)) by lia. cbn [sa_sequence sa_generation].
  rewrite wrap_int64_id by (unfold int64_range, min_int64; unfold max_int64 in *; lia).
  unfold Compute. rewrite Hl, Hg, Hcg, Z.eqb_refl.
  change (marshalCanonicalPayload (Some m)) with (marshal (JObject m)). rewrite Hh. cbn [rbind].
  unfold Commit. rewrite Hl. cbn [cr_chain cr_generation cr_prevHash cr_entryHash].
  rewrite Nat.eqb_refl, Hcg. simpl. rewrite bool_decide_eq_true_2 by done. done.
Qed.

Lemma advanced_ok c h payload :
  ic_ok c -> sa_sequence (ic_alloc c) < max_int64 -> hash_next c payload = Ok h ->
  ic_ok (advanced c h).
Proof using All.
  intros [Hs Hg Hcg Hl Hp Ha] Hlt Hh. split; cbn; try done; [lia|]. by eapply computed_hash_valid.
Qed.

Lemma next_meta_ok c h payload :
  ic_ok c -> sa_sequence (ic_alloc c) < max_int64 -> hash_next c payload = Ok h ->
  meta_ok (next_meta c h).
Proof using All.
  intros [Hs Hg Hcg Hl Hp Ha] Hlt Hh. unfold meta_ok, next_meta, int64_range. cbn [im_FormatVersion im_Sequence im_PrevHash im_EntryHash].
  split_and!; try (unfold min_int64, max_int64, IntegrityFormatVersion in *; lia).
  - by apply validatePrevHash_text in Hp as [? _].
  - apply computed_hash_valid in Hh; [|done]. by apply validatePrevHash_text in Hh as [? _].
Qed.

End Composed.
End Composed.
Export Composed.

(** ** Theorems *)
Module ChainTheorems.

(** *** Sequence numbers *)

Inductive alloc_op : Type := OpNext | OpNextGeneration.

(** The tuples handed out, oldest first. *)
Fixpoint alloc_run (a : SequenceAllocator) (ops : list alloc_op) : list (Z * Z) :=
  match ops with
  | [] => []
  | OpNext :: ops' =>
    match Next a with
    | (a', Ok t) => t :: alloc_run a' ops'
    | (a', Err _) => alloc_run a' ops'
    end
  | OpNextGeneration :: ops' => alloc_run (NextGeneration a).1 ops'
  end.

Definition tuple_lt (t1 t2 : Z * Z) : Prop :=
  t1.2 < t2.2 \/ (t1.2 = t2.2 /\ t1.1 < t2.1).

Definition alloc_ok (a : SequenceAllocator) : Prop :=
  -1 <= sa_sequence a <= max_int64 /\ uint32_range (sa_generation a).

(** The allocator never hands out a (sequence, generation) tuple twice: under any mix of
    allocations and generation rotations, also at the ends of both ranges, tuples strictly
    increase, sequences start at 0 in a new generation and stay within their machine widths. *)
Theorem alloc_tuples_increasing a ops :
  alloc_ok a ->
  StronglySorted tuple_lt ((sa_sequence a, sa_generation a) :: alloc_run a ops) /\
  Forall (fun t => 0 <= t.1 <= max_int64 /\ uint32_range t.2) (alloc_run a ops).
Proof.
  assert (Htr : forall x y z, tuple_lt x y -> tuple_lt y z -> tuple_lt x z)
    by (unfold tuple_lt; intros; lia).
  assert (Hback : forall a0 a1 l, tuple_lt a0 a1 -> StronglySorted tuple_lt (a1 :: l) ->
                    StronglySorted tuple_lt (a0 :: l)).
  { intros a0 a1 l Hlt Hs. inversion_clear Hs as [|? ? Hl Hall]. constructor; [done|].
    eapply Forall_impl; [exact Hall|]. intros; eauto. }
  revert a. induction ops as [|[] ops IH]; intros a [Hs Hg]; simpl; [by repeat constructor|..].
  - unfold Next. destruct (Z.eqb_spec (sa_sequence a) max_int64) as [|Hne]; [by apply IH|].
    cbn [sa_sequence sa_generation].
    rewrite wrap_int64_id by (unfold int64_range, min_int64; unfold max_int64 in *; lia).
    destruct (IH (mkAllocator (sa_sequence a + 1) (sa_generation a))) as [Hsort Hall].
    { split; cbn; [lia|done]. }
    cbn in Hsort. split; [|constructor; [split; cbn; [lia|done]|done]].
    constructor; [done|]. inversion_clear Hsort as [|? ? Hl Hall']. constructor.
    + unfold tuple_lt. cbn. lia.
    + eapply Forall_impl; [exact Hall'|]. intros x Hx. eapply Htr; [|exact Hx].
      unfold tuple_lt. cbn. lia.
  - unfold NextGeneration. destruct (Z.eqb_spec (sa_generation a) max_uint32) as [|Hne];
      [by apply IH|]. unfold uint32_range in Hg.
    rewrite wrap_uint32_id by (unfold uint32_range; lia). cbn [fst].
    destruct (IH (mkAllocator (-1) (sa_generation a + 1))) as [Hsort Hall].
    { split; cbn; [unfold max_int64; lia|unfold uint32_range; lia]. }
    split; [|done]. eapply Hback, Hsort. unfold tuple_lt. cbn. lia.
Qed.

Lemma alloc_tuples_increasing_witness :
  let a := mkAllocator (max_int64 - 1) 7 in
  alloc_run a [OpNext; OpNext; OpNextGeneration; OpNext] = [(max_int64, 7); (0, 8)] /\
  StronglySorted tuple_lt
    ((max_int64 - 1, 7) :: alloc_run a [OpNext; OpNext; OpNextGeneration; OpNext]).
Proof.
  split; [reflexivity|].
  apply (alloc_tuples_increasing (mkAllocator (max_int64 - 1) 7)
           [OpNext; OpNext; OpNextGeneration; OpNext]).
  split; cbn; [unfold max_int64; lia|unfold uint32_range, max_uint32; lia].
Defined.

(** A concrete keyed hash with the sizes of the real ones. *)
Definition toy_hmac : hmac_fn := fun a k m =>
  take (hash_size a) (((fun b => b mod 256) <$> rev m ++ k) ++ repeat 0 64).

#[export] Instance toy_hmac_laws : HmacLaws toy_hmac.
Proof.
  split; intros a k m; unfold toy_hmac.
  - rewrite length_take, length_app, repeat_length. unfold hash_size. destruct a; lia.
  - apply Forall_take, Forall_app. split.
    + apply Forall_fmap, Forall_forall. intros b _.
      unfold byte_range, compose. apply Z.mod_pos_bound. lia.
    + apply Forall_forall. intros b Hb. apply list_elem_of_In, repeat_spec in Hb as ->.
      unfold byte_range. lia.
Qed.

Definition toy_key : list Z := repeat 7 32.
Definition toy_sink : SinkChain := mkSinkChain 1 toy_key "hmac-sha256" 0 "" false.
Definition toy_chain : IntegrityChain := mkIntegrityChain NewSequenceAllocator toy_sink.

(** *** The sink chain *)

Section Theorems.
Context (hmac : hmac_fn) `{HmacLaws hmac}.

(** C28. Whatever callers do (overlapping Compute calls, stale, repeated or foreign tokens,
    latching), the results a chain commits form one hash chain: each points to the hash committed
    just before it, or to nothing on the first of a new generation, generations never go back, and
    each hash is the keyed hash of its own sequence number, predecessor and payload. *)
Theorem sink_chain_linear c0 c issued committed :
  chain_reach hmac c0 c issued committed ->
  linked (sc_generation c0) (sc_prevHash c0) committed /\
  (sc_generation c, sc_prevHash c) = head_after (sc_generation c0) (sc_prevHash c0) committed /\
  Forall (hashed hmac c0) committed.
Proof.
  intros Hr. apply chain_reach_inv in Hr as (_ & Hiss & Hl & Hh & Hin). split_and!; [done..|].
  eapply Forall_impl; [exact Hin|]. intros r Hr. by apply Hiss.
Qed.

(** A latched chain is dead: from a fatal state no caller obtains a token, nothing is
    committed, and the head and the latch stay as they are. *)
Theorem fatal_is_final c0 c issued committed :
  sc_fatal c0 = true -> chain_reach hmac c0 c issued committed ->
  issued = [] /\ committed = [] /\ sc_fatal c = true /\ sc_prevHash c = sc_prevHash c0.
Proof. apply fatal_reach. Qed.

(** *** Wrapping and verifying *)

(** Round trip: an object without an integrity field, wrapped by a live chain, verifies; the
    entry carries the next sequence number and the previous head, and the chain moves on to the
    entry's hash. *)
Theorem Wrap_verifies c payload m :
  ic_ok c -> parseIntegrityPayloadUseNumber payload = Ok (Some m) ->
  obj_get "integrity" m = None -> sa_sequence (ic_alloc c) < max_int64 ->
  exists h w, Wrap hmac c payload = (advanced c h, Ok w) /\
    IntegrityChain_VerifyWrapped hmac c w = Ok true /\
    hash_next hmac c (marshal (JObject m)) = Ok h /\ ic_ok (advanced c h).
Proof using All.
  intros Hok Hm Hi Hlt. destruct (Wrap_object hmac c payload m Hok Hm Hlt) as (h & Hh & Hw).
  exists h, (wrapped_entry m (next_meta c h)). split; [done|].
  pose proof (next_meta_ok hmac c h _ Hok Hlt Hh) as Hmeta.
  split; [|split; [done|by eapply (advanced_ok hmac)]].
  unfold IntegrityChain_VerifyWrapped, VerifyWrapped.
  rewrite parse_wrapped_entry; [|by eapply parse_payload_ok|done]. cbn [rbind map_get].
  rewrite obj_get_put, metadata_roundtrip by done. cbn [map_delete fmap option_fmap option_map].
  rewrite obj_delete_put by done.
  change (marshalCanonicalPayload (Some m)) with (marshal (JObject m)).
  unfold hash_next in Hh. cbn [im_FormatVersion im_Sequence im_PrevHash im_EntryHash next_meta].
  rewrite Hh. cbn [rbind]. by rewrite bool_decide_eq_true_2.
Qed.

(** Restoring a chain of the same key to the persisted head of another resumes it exactly:
    the restored chain then wraps every payload as the original would. *)
Theorem Restore_resumes c c1 :
  ic_ok c -> ic_ok c1 -> sc_key (ic_chain c1) = sc_key (ic_chain c) ->
  sc_algorithm (ic_chain c1) = sc_algorithm (ic_chain c) ->
  exists c2, IntegrityChain_Restore c1 (cs_Sequence (IntegrityChain_State c))
               (cs_PrevHash (IntegrityChain_State c)) = (c2, Ok tt) /\
    IntegrityChain_State c2 = IntegrityChain_State c /\
    forall payload, (Wrap hmac c2 payload).2 = (Wrap hmac c payload).2.
Proof.
  intros [Hs Hg Hcg Hl Hp Ha] Hok1 Hk Halg.
  destruct c as [[s g] [id key alg gen prev fatal]], c1 as [[s1 g1] [id1 key1 alg1 gen1 prev1 fatal1]].
  cbn in *. subst.
  unfold IntegrityChain_Restore, SequenceAllocator_Restore, SinkChain_Restore. cbn.
  rewrite (proj2 (Z.ltb_ge s (-1))) by lia. rewrite Hp. eexists. split; [reflexivity|].
  split; [done|]. intros payload. unfold Wrap, Next, Compute, Commit. cbn.
  destruct (parseIntegrityPayloadUseNumber payload) as [data|]; [|done].
  destruct (s =? max_int64); [done|]. cbn.
  destruct (computeIntegrityHash _ _ _ _ _ _ _) as [h|]; [|done]. cbn.
  destruct data; [|done]. rewrite !Nat.eqb_refl. cbn. repeat case_bool_decide; done.
Qed.

(** Restore is all or nothing: a rejected head leaves the chain as it was. *)
Theorem Restore_rejected_unchanged c sequence prevHash c' e :
  ic_ok c -> IntegrityChain_Restore c sequence prevHash = (c', Err e) ->
  c' = c /\ (sequence < -1 \/ (prevHash <> "" /\ validatePrevHash (sc_algorithm (ic_chain c)) prevHash <> Ok tt)).
Proof.
  intros [Hs _ _ _ _ _]. destruct c as [[s g] ch]. cbn in Hs.
  unfold IntegrityChain_Restore, SequenceAllocator_Restore, SinkChain_Restore. cbn.
  destruct (Z.ltb_spec sequence (-1)); [intros [= <- <-]; auto|].
  destruct (validatePrevHash (sc_algorithm ch) prevHash) as [[]|e'] eqn:Hv; [done|]. cbn.
  rewrite (proj2 (Z.ltb_ge s (-1))) by lia. intros [= <- <-]. split; [done|right].
  split; [|done]. by intros ->.
Qed.

End Theorems.

Lemma toy_chain_ok : ic_ok toy_chain.
Proof. split; cbn; try done; unfold max_int64; auto with lia. Qed.

Lemma sink_chain_linear_witness :
  exists r1 r2 r3 c,
    Compute toy_hmac toy_sink 2 0 0 [1] = Ok r1 /\ Compute toy_hmac toy_sink 2 0 0 [2] = Ok r2 /\
    linked 0 "" [r1; r3] /\ sc_prevHash c = cr_entryHash r3.
Proof.
  destruct (Compute toy_hmac toy_sink 2 0 0 [1]) as [r1|] eqn:E1; [|by vm_compute in E1].
  destruct (Compute toy_hmac toy_sink 2 0 0 [2]) as [r2|] eqn:E2; [|by vm_compute in E2].
  destruct (Commit toy_sink (Some r1)) as [c1 [[]|]] eqn:Ec1;
    [|vm_compute in E1; injection E1 as <-; by vm_compute in Ec1].
  destruct (Compute toy_hmac c1 2 1 3 [3]) as [r3|] eqn:E3;
    [|vm_compute in E1; injection E1 as <-; vm_compute in Ec1; injection Ec1 as <-; by vm_compute in E3].
  destruct (Commit c1 (Some r3)) as [c3 [[]|]] eqn:Ec3;
    [|vm_compute in E1; injection E1 as <-; vm_compute in Ec1; injection Ec1 as <-;
      vm_compute in E3; injection E3 as <-; by vm_compute in Ec3].
  exists r1, r2, r3, c3. split; [done|]. split; [done|].
  destruct (sink_chain_linear toy_hmac toy_sink c3 [r3; r2; r1] [r1; r3]) as (Hl & Hh & _).
  - apply (reach_commit toy_hmac toy_sink c1 [r3; r2; r1] [r1] r3 c3); [|left; left|done].
    eapply reach_compute; [|exact E3].
    apply (reach_commit toy_hmac toy_sink toy_sink [r2; r1] [] r1 c1); [|left; right; left|done].
    eapply reach_compute; [|exact E2]. eapply reach_compute; [|exact E1]. constructor.
  - split; [exact Hl|]. cbn in Hh. by injection Hh.
Defined.

Lemma fatal_is_final_witness :
  sc_fatal (Fatal toy_sink) = true /\ (@nil ComputeResult = [] /\ @nil ComputeResult = [] /\
    sc_fatal (Fatal (Fatal toy_sink)) = true /\ sc_prevHash (Fatal (Fatal toy_sink)) = "").
Proof.
  split; [done|].
  apply (fatal_is_final toy_hmac (Fatal toy_sink) (Fatal (Fatal toy_sink)) [] []); [done|].
  apply reach_fatal. constructor.
Defined.

(** A payload and the map it decodes to. *)
Definition dquote : string := String (char_of_byte 34) EmptyString.
Definition sample_payload : list Z :=
  string_bytes ("{" +:+ dquote +:+ "type" +:+ dquote +:+ ":" +:+ dquote +:+ "exec" +:+ dquote +:+ "}").

Lemma Wrap_verifies_witness :
  exists h w, Wrap toy_hmac toy_chain sample_payload = (advanced toy_chain h, Ok w) /\
    IntegrityChain_VerifyWrapped toy_hmac toy_chain w = Ok true.
Proof.
  destruct (Wrap_verifies toy_hmac toy_chain sample_payload [("type", JString "exec")])
    as (h & w & Hw & Hv & _).
  - apply toy_chain_ok.
  - vm_compute. reflexivity.
  - reflexivity.
  - reflexivity.
  - eauto.
Defined.

Lemma Restore_resumes_witness :
  exists c2, IntegrityChain_Restore toy_chain (-1) "" = (c2, Ok tt) /\
    (Wrap toy_hmac c2 sample_payload).2 = (Wrap toy_hmac toy_chain sample_payload).2.
Proof.
  destruct (Restore_resumes toy_hmac toy_chain toy_chain) as (c2 & Hr & _ & Hw);
    [apply toy_chain_ok..|reflexivity|reflexivity|].
  exists c2. split; [exact Hr|apply Hw].
Defined.

Lemma Restore_rejected_unchanged_witness :
  (IntegrityChain_Restore toy_chain 3 "zz").1 = toy_chain.
Proof.
  destruct (Restore_rejected_unchanged toy_chain 3 "zz" (IntegrityChain_Restore toy_chain 3 "zz").1
              ErrInvalidChainState) as [Hc _].
  - apply toy_chain_ok.
  - vm_compute. reflexivity.
  - exact Hc.
Defined.

(** A payload that already has an [integrity] field is hashed with it and stored without it: the
    wrapped entry does not verify. *)
Example wrapped_integrity_field_fails :
  let payload := string_bytes ("{" +:+ dquote +:+ "integrity" +:+ dquote +:+ ":1}") in
  match Wrap toy_hmac toy_chain payload with
  | (_, Ok w) => IntegrityChain_VerifyWrapped toy_hmac toy_chain w = Ok false
  | _ => False
  end.
Proof. vm_compute. reflexivity. Qed.

(** The payload [null] decodes to the nil map: [Wrap] panics on it after taking a sequence
    number. *)
Example wrap_null_panics :
  let '(c, r) := Wrap toy_hmac toy_chain (string_bytes "null") in
  r = Err PanicNilMap /\ sa_sequence (ic_alloc c) = 0 /\ sc_prevHash (ic_chain c) = "".
Proof. vm_compute. done. Qed.

End ChainTheorems.
Export ChainTheorems.
