(* ===== verification/AuditLog.v ===== *)
(** * The signed audit log

    [internal/audit/logset.go] (lines of a rotated log set), [internal/store/jsonl] (the file set
    and its rotation) and [internal/store/integrity_wrapper.go] (the store that signs events,
    validates the visible chain at start-up, recovers after a crash and persists the chain head).
    The disk is a value: the contents of the active file and of its backups, and the sidecar.
    The answers of the operating system to a write and to the calls of a file rotation are inputs, so
    that every failure path is a branch of the definitions. *)

From Stdlib Require Import ZArith Lia Ascii String Sorted.
From stdpp Require Import base list strings sets gmap.
From S2P Require Import Prelude GoText GoJson AuditChain.
Open Scope string_scope.
Open Scope list_scope.
Open Scope Z_scope.

(** ** Lines *)
Module Lines.

Definition newline : Z := 10.

(** The chunks [reader.ReadBytes('\n')] returns until the end of the file: each ends with its
    newline except possibly the last, which is the one returned with [io.EOF]. *)
Fixpoint ReadBytes_all (bs : list Z) : list (list Z) :=
  match bs with
  | [] => []
  | b :: r =>
    if b =? newline then [b] :: ReadBytes_all r
    else match ReadBytes_all r with
         | [] => [[b]]
         | c :: cs => (b :: c) :: cs
         end
  end.

(** The chunk came with [io.EOF]. *)
Definition at_eof (raw : list Z) : bool :=
  match last raw with Some b => negb (b =? newline) | None => true end.

(** ** [logset.go] *)

Record ParsedEntry : Type := mkEntry {
  pe_Type : string;
  pe_Integrity : option IntegrityMetadata;
  pe_CanonicalPayload : list Z
}.

Definition ParseIntegrityEntry (line : list Z) : result aerr ParsedEntry :=
  raw <-? parseIntegrityPayloadUseNumber line ;
  let typ := default "" (json_string (map_get "type" raw)) in
  match map_get "integrity" raw with
  | Some value =>
    match integrityMetadataFromMap (Some value) with
    | None => Err ErrInvalidIntegrityMetadata
    | Some meta =>
      Ok (mkEntry typ (Some meta) (marshalCanonicalPayload (map_delete "integrity" raw)))
    end
  | None => Ok (mkEntry typ None (marshalCanonicalPayload raw))
  end.

Section LastLine.
Variable chunkSize : nat.

(** The inner loop over [data] from [i] down to 0; [scanEnd] bounds the current line.  Either the
    line found, or the scan end for the next chunk. *)
Fixpoint scan_back (data : list Z) (i scanEnd : nat) : list Z + nat :=
  match i with
  | O => inr scanEnd
  | S i' =>
    if nth i' data 0 =? newline then
      let line := TrimSpace (take (scanEnd - i) (drop i data)) in
      if nonempty line then inl line else scan_back data i' i'
    else scan_back data i' scanEnd
  end.

(** Reading the file backwards in chunks; [tail] is the text read that holds no newline. *)
Fixpoint read_back (n : nat) (file : list Z) (fend : nat) (tail : list Z) : option (list Z) :=
  let finish := let line := TrimSpace tail in if nonempty line then Some line else None in
  match n with
  | O => finish
  | S n' =>
    if Nat.eqb fend 0 then finish
    else
      let readSize := if Nat.ltb fend chunkSize then fend else chunkSize in
      let start := (fend - readSize)%nat in
      let data := take readSize (drop start file) ++ tail in
      let scanEnd :=
        if Nat.eqb fend (length file) && negb (at_eof data) then (length data - 1)%nat
        else length data in
      match scan_back data scanEnd scanEnd with
      | inl line => Some line
      | inr scanEnd' => read_back n' file start (take scanEnd' data)
      end
  end.

(** [None] is [os.ErrNotExist]. *)
Definition readLastNonEmptyLineFromFile (file : list Z) : option (list Z) :=
  read_back (length file) file (length file) [].

End LastLine.

Definition lastLineChunk : nat := 64 * 1024.

(** A file of the log set; [None] when it does not exist. *)
Record LogFile : Type := mkLogFile {
  lf_IsBackup : bool;
  lf_content : option (list Z)
}.

(** The newest non-empty line, with the index of its file; the files come oldest first. *)
Fixpoint ReadLastNonEmptyLine_from (i : nat) (rev_files : list LogFile) : option (nat * list Z) :=
  match rev_files with
  | [] => None
  | f :: fs =>
    match lf_content f ≫= readLastNonEmptyLineFromFile lastLineChunk with
    | Some line => Some (pred i, line)
    | None => ReadLastNonEmptyLine_from (pred i) fs
    end
  end.

Definition ReadLastNonEmptyLine (files : list LogFile) : option (nat * list Z) :=
  ReadLastNonEmptyLine_from (length files) (rev files).

End Lines.
Export Lines.

(** ** [jsonl.go]: the file set *)
Module Jsonl.

(** The active file, the backups [.1], [.2] and so on with the numbers that are missing, and whether
    the handle on the active file is open. *)
Record Store : Type := mkStore {
  js_active : list Z;
  js_backups : list (option (list Z));
  js_maxBytes : Z;
  js_maxBackups : nat;
  js_open : bool
}.

(** The file [.i+1] of the list, and the list with it. *)
Definition backup (bs : list (option (list Z))) (i : nat) : option (list Z) := bs !! i ≫= id.
Definition put_backup (bs : list (option (list Z))) (i : nat) (b : option (list Z)) : list (option (list Z)) :=
  if Nat.ltb i (length bs) then <[i := b]> bs else bs ++ replicate (i - length bs) None ++ [b].

(** How the operating system answers the calls of a rotation: the status and the closing of the active
    file, the renaming of [.i] (of the active file for [0]), and opening the active file again. *)
Record file_rotation : Type := mkFileRotation { ro_stat : bool; ro_close : bool; ro_rename : nat -> bool; ro_reopen : bool }.

(** [.i+1] is renamed over [.i+2] if it exists; that a renaming fails is ignored. *)
Definition rename_up (ok : bool) (i : nat) (bs : list (option (list Z))) : list (option (list Z)) :=
  match backup bs i with
  | Some b => if ok then put_backup (put_backup bs i None) (S i) (Some b) else bs
  | None => bs
  end.

(** The files [.i] down to [.1]. *)
Fixpoint shift_backups (ok : nat -> bool) (i : nat) (bs : list (option (list Z))) : list (option (list Z)) :=
  match i with
  | O => bs
  | S i' => shift_backups ok i' (rename_up (ok i) i' bs)
  end.

Definition set_open (s : Store) (b : bool) : Store := mkStore (js_active s) (js_backups s) (js_maxBytes s) (js_maxBackups s) b.

(** [false] for an error.  A handle that was closed answers every later call with an error. *)
Definition rotateIfNeededLocked (r : file_rotation) (s : Store) : Store * bool :=
  if negb (js_open s && ro_stat r) then (s, false)
  else if Z.of_nat (length (js_active s)) <? js_maxBytes s then (s, true)
  else if negb (ro_close r) then (set_open s false, false)
  else
    let shifted := shift_backups (ro_rename r) (js_maxBackups s - 1) (js_backups s) in
    (if ro_rename r 0
     then mkStore [] (put_backup shifted 0 (Some (js_active s))) (js_maxBytes s) (js_maxBackups s) (ro_reopen r)
     else mkStore (js_active s) shifted (js_maxBytes s) (js_maxBackups s) (ro_reopen r), ro_reopen r).

(** How the operating system answers a write: all bytes, a failure after [n] bytes that the
    truncation undoes (or one before the write), or one that it does not. *)
Inductive write_outcome : Type :=
| WriteOk
| WriteFailedClean
| WriteFailedPartial (n : nat).

Record outcome : Type := mkOutcome { oc_rotation : file_rotation; oc_write : write_outcome }.

Inductive werr : Type := WCleanFailure | WPartialWrite.

Definition WriteRaw (s : Store) (o : outcome) (data : list Z) : Store * result werr unit :=
  let '(s1, rotated) := rotateIfNeededLocked (oc_rotation o) s in
  let buf := data ++ [newline] in
  let append bs := mkStore (js_active s1 ++ bs) (js_backups s1) (js_maxBytes s1) (js_maxBackups s1) (js_open s1) in
  if negb rotated then (s1, Err WCleanFailure)
  else match oc_write o with
  | WriteOk => (append buf, Ok tt)
  | WriteFailedClean => (s1, Err WCleanFailure)
  | WriteFailedPartial n => (append (take n buf), Err WPartialWrite)
  end.

(** A new process opens the active file, creating it where it is missing. *)
Definition NewWithLock (s : Store) : Store := set_open s true.

(** [DiscoverRotationSet] on the files the store keeps: oldest backup first, the active file
    last; an error when a number is missing. *)
Definition DiscoverRotationSet (s : Store) : option (list LogFile) :=
  let present := omap id (js_backups s) in
  if bool_decide (take (length present) (js_backups s) = Some <$> present)
  then Some (((fun b => mkLogFile true (Some b)) <$> rev present) ++ [mkLogFile false (Some (js_active s))])
  else None.

End Jsonl.
Export Jsonl.

(** ** [integrity_wrapper.go] *)
Module IntegrityWrapper.

Inductive lerr : Type :=
| LCorrupted (e : aerr)
| LUnsigned
| LLegacy
| LUnsupportedVersion (v : Z)
| LRotationBoundary (what : string)
| LSequenceMismatch (expected got : Z)
| LChainBroken (expected got : string)
| LVerify (e : aerr)
| LInvalidEntry
| LMismatch (what : string)
| LRestore (e : aerr)
| LReadSidecar (e : aerr)
| LKeyFingerprint
| LSidecarCorruptNoLog
| LWrap (e : aerr)
| LWrite (e : werr)
| LFatalIntegrity (op : string)
| LMissingFile
| ErrIntegrityFatal.

Record visibleChainState : Type := mkVisible {
  vc_expectedSequence : Z;
  vc_expectedPrevHash : string;
  vc_seeded : bool;
  vc_verifiedEntries : Z
}.

Definition visible_start : visibleChainState := mkVisible 0 "" false 0.

(** *** Decoding the payload of a rotation boundary

    [json.Unmarshal] into a struct visits the members in order; a member goes to the field whose
    name it equals up to case folding, [null] leaves a field alone (and clears a pointer), a value
    of another type is an error, and a repeated pointer field decodes into the same struct. *)

(** [foldName]: ASCII letters to one case, with the two other runes that fold to ASCII. *)
Definition fold_rune (r : Z) : Z :=
  if between 65 r 90 then r + 32 else if r =? 383 then 115 else if r =? 8490 then 107 else r.

Definition fold_name (s : string) : option (list Z) :=
  map fold_rune <$> decode_runes (string_bytes s).

Definition names (key field : string) : bool := bool_decide (fold_name key = fold_name field).

Record rotationBoundaryPayload : Type := mkRotation {
  rp_PriorLogArchivedTo : string;
  rp_PriorChainSummary : option (Z * string)   (* last sequence and entry hash seen in the log *)
}.

Definition decode_summary_member (acc : Z * string) (p : string * json) : option (Z * string) :=
  let '(k, v) := p in
  if names k "last_sequence_seen_in_log" then
    match v with
    | JNull => Some acc
    | JNumber lit => z ← Number_Int64 lit; Some (z, acc.2)
    | _ => None
    end
  else if names k "last_entry_hash_seen_in_log" then
    match v with
    | JNull => Some acc
    | JString s => Some (acc.1, s)
    | _ => None
    end
  else Some acc.

Definition decode_members {A} (f : A -> string * json -> option A) (acc : A)
  (m : list (string * json)) : option A :=
  fold_left (fun acc p => a ← acc; f a p) m (Some acc).

Definition decode_fields_member (acc : rotationBoundaryPayload) (p : string * json)
  : option rotationBoundaryPayload :=
  let '(k, v) := p in
  if names k "prior_log_archived_to" then
    match v with
    | JNull => Some acc
    | JString s => Some (mkRotation s (rp_PriorChainSummary acc))
    | _ => None
    end
  else if names k "prior_chain_summary" then
    match v with
    | JNull => Some (mkRotation (rp_PriorLogArchivedTo acc) None)
    | JObject sm =>
      s ← decode_members decode_summary_member (default (0, "") (rp_PriorChainSummary acc)) sm;
      Some (mkRotation (rp_PriorLogArchivedTo acc) (Some s))
    | _ => None
    end
  else Some acc.

Definition decode_event_member (acc : rotationBoundaryPayload) (p : string * json)
  : option rotationBoundaryPayload :=
  let '(k, v) := p in
  if names k "fields" then
    match v with
    | JNull => Some acc
    | JObject fm => decode_members decode_fields_member acc fm
    | _ => None
    end
  else Some acc.

(** [json.Unmarshal(payload, &event)]: the whole input must be one value. *)
Definition Unmarshal_rotation (payload : list Z) : option rotationBoundaryPayload :=
  match parse_value maxNestingDepth (skip_ws payload) with
  | Ok (v, rest) =>
    if nonempty (skip_ws rest) then None
    else match v with
    | JObject m => decode_members decode_event_member (mkRotation "" None) m
    | JNull => Some (mkRotation "" None)
    | _ => None
    end
  | Err _ => None
  end.

Definition validateRotationBoundary (payload : list Z) (state : visibleChainState)
  (visibleOriginIsBackup : bool) : result lerr unit :=
  match Unmarshal_rotation payload with
  | None => Err (LRotationBoundary "parse rotation payload")
  | Some event =>
    if vc_verifiedEntries state =? 0 then
      if negb visibleOriginIsBackup && bool_decide (is_Some (rp_PriorChainSummary event)) &&
         (rp_PriorLogArchivedTo event ==? "")
      then Err (LRotationBoundary "visible origin omits prior history before rotation boundary")
      else Ok tt
    else match rp_PriorChainSummary event with
    | None => Err (LRotationBoundary "missing prior_chain_summary")
    | Some (lastSequence, lastEntryHash) =>
      if negb (lastSequence =? wrap_int64 (vc_expectedSequence state - 1))
      then Err (LRotationBoundary "prior_chain_summary.last_sequence_seen_in_log")
      else if lastEntryHash !=? vc_expectedPrevHash state
      then Err (LRotationBoundary "prior_chain_summary.last_entry_hash_seen_in_log")
      else Ok tt
    end
  end.

Section Validate.
Context (hmac : hmac_fn) (chain : IntegrityChain).

Definition verify_entry (meta : IntegrityMetadata) (payload : list Z) : result aerr bool :=
  IntegrityChain_VerifyHash hmac chain (im_FormatVersion meta) (im_Sequence meta)
    (im_PrevHash meta) payload (im_EntryHash meta).

Definition is_boundary (entry : ParsedEntry) (meta : IntegrityMetadata) : bool :=
  (pe_Type entry ==? "integrity_chain_rotated") && (im_Sequence meta =? 0) &&
  (im_PrevHash meta ==? "").

(** The expected position, seeded by the first entry of a backup or by the origin of a chain. *)
Definition seed (isBackup : bool) (state : visibleChainState) (meta : IntegrityMetadata)
  : visibleChainState :=
  if vc_seeded state then state
  else if isBackup && (vc_verifiedEntries state =? 0)
  then mkVisible (im_Sequence meta) (im_PrevHash meta) true (vc_verifiedEntries state)
  else mkVisible 0 "" true (vc_verifiedEntries state).

(** One signed entry of [validateVisibleChain]. *)
Definition validate_entry (isBackup : bool) (state : visibleChainState) (entry : ParsedEntry)
  (meta : IntegrityMetadata) : result lerr visibleChainState :=
  if im_FormatVersion meta <? IntegrityFormatVersion then Err LLegacy
  else if IntegrityFormatVersion <? im_FormatVersion meta
  then Err (LUnsupportedVersion (im_FormatVersion meta))
  else
    state1 <-?
      (if is_boundary entry meta then
         _ <-? validateRotationBoundary (pe_CanonicalPayload entry) state isBackup ; Ok state
       else
         let state1 := seed isBackup state meta in
         if negb (im_Sequence meta =? vc_expectedSequence state1)
         then Err (LSequenceMismatch (vc_expectedSequence state1) (im_Sequence meta))
         else if im_PrevHash meta !=? vc_expectedPrevHash state1
         then Err (LChainBroken (vc_expectedPrevHash state1) (im_PrevHash meta))
         else Ok state1) ;
    match verify_entry meta (pe_CanonicalPayload entry) with
    | Err e => Err (LVerify e)
    | Ok false => Err LInvalidEntry
    | Ok true =>
      Ok (mkVisible (wrap_int64 (im_Sequence meta + 1)) (im_EntryHash meta) true
            (vc_verifiedEntries state1 + 1))
    end.

(** The lines of one file.  A last line without its newline that does not parse is a write cut
    short; it is left to the recovery. *)
Fixpoint validate_lines (isBackup : bool) (state : visibleChainState) (chunks : list (list Z))
  : result lerr visibleChainState :=
  match chunks with
  | [] => Ok state
  | raw :: rest =>
    let line := TrimSpace raw in
    if negb (nonempty line) then
      if at_eof raw then Ok state else validate_lines isBackup state rest
    else
      let tolerated := at_eof raw && negb isBackup in
      match ParseIntegrityEntry line with
      | Err e => if tolerated then Ok state else Err (LCorrupted e)
      | Ok entry =>
        match pe_Integrity entry with
        | None => if tolerated then Ok state else Err LUnsigned
        | Some meta =>
          state' <-? validate_entry isBackup state entry meta ;
          if at_eof raw then Ok state' else validate_lines isBackup state' rest
        end
      end
  end.

Fixpoint validate_files (state : visibleChainState) (files : list LogFile)
  : result lerr visibleChainState :=
  match files with
  | [] => Ok state
  | f :: fs =>
    match lf_content f with
    | None => validate_files state fs
    | Some content =>
      state' <-? validate_lines (lf_IsBackup f) state (ReadBytes_all content) ;
      validate_files state' fs
    end
  end.

Definition validateVisibleChain (files : list LogFile) : result lerr unit :=
  _ <-? validate_files visible_start files ; Ok tt.

(** *** Crash recovery *)

(** Where the walk stands: the last verified entry, the offset after the last good line, the
    current offset and the expected next link. *)
Record walk : Type := mkWalk {
  wk_lastVerified : option IntegrityMetadata;
  wk_lastGood : Z;
  wk_current : Z;
  wk_expectedSeq : Z;
  wk_expectedPrev : string
}.

(** The walk and, when it meets a cut line, the offset to truncate the file to. *)
Fixpoint recover_walk (sidecarSeq : Z) (w : walk) (chunks : list (list Z))
  : result lerr (walk * option Z) :=
  match chunks with
  | [] => Ok (w, None)
  | raw :: rest =>
    let line := TrimSpace raw in
    let after := wk_current w + Z.of_nat (length raw) in
    if negb (nonempty line) then
      let w' := mkWalk (wk_lastVerified w) (wk_lastGood w) after (wk_expectedSeq w)
                  (wk_expectedPrev w) in
      if at_eof raw then Ok (w', None) else recover_walk sidecarSeq w' rest
    else match (entry ← match ParseIntegrityEntry line with Ok e => Some e | Err _ => None end;
                meta ← pe_Integrity entry; Some (entry, meta)) with
    | None => Ok (w, Some (wk_lastGood w))
    | Some (entry, meta) =>
      if im_Sequence meta <=? sidecarSeq then
        recover_walk sidecarSeq (mkWalk (wk_lastVerified w) after after (wk_expectedSeq w)
                                   (wk_expectedPrev w)) rest
      else if negb (im_Sequence meta =? wk_expectedSeq w) ||
              (im_PrevHash meta !=? wk_expectedPrev w)
      then Err (LMismatch "chain broken during recovery")
      else match verify_entry meta (pe_CanonicalPayload entry) with
      | Err e => Err (LVerify e)
      | Ok false => Err (LMismatch "invalid HMAC")
      | Ok true =>
        let w' := mkWalk (Some meta) after after (wrap_int64 (im_Sequence meta + 1))
                    (im_EntryHash meta) in
        if at_eof raw then Ok (w', None) else recover_walk sidecarSeq w' rest
      end
    end
  end.

End Validate.

(** *** The store *)

Record IntegrityStore : Type := mkIntegrityStore {
  is_chain : IntegrityChain;
  is_keyFingerprint : string;
  is_fatal : bool;
  is_pendingFlush : bool
}.

Definition set_chain (s : IntegrityStore) (c : IntegrityChain) : IntegrityStore :=
  mkIntegrityStore c (is_keyFingerprint s) (is_fatal s) (is_pendingFlush s).

(** What survives a restart. *)
Record Disk : Type := mkDiskState {
  d_log : Store;
  d_sidecar : sidecar_file
}.

Section Operations.
Context (hmac : hmac_fn) (now : Z) (timestamp : string).

Definition sidecar_for (s : IntegrityStore) (sequence : Z) (prevHash : string) : sidecar_file :=
  WriteSidecar now (mkSidecar 0 sequence prevHash (is_keyFingerprint s) now).

(** Truncation of the file at index [i] of the set. *)
Definition truncate_log (st : Store) (i : nat) (size : Z) : Store :=
  let n := length (js_backups st) in
  if Nat.eqb i n then
    mkStore (take (Z.to_nat size) (js_active st)) (js_backups st) (js_maxBytes st) (js_maxBackups st) (js_open st)
  else
    mkStore (js_active st) (alter (fmap (take (Z.to_nat size))) (n - 1 - i)%nat (js_backups st))
      (js_maxBytes st) (js_maxBackups st) (js_open st).

Definition file_content (st : Store) (i : nat) : list Z :=
  default [] (files ← DiscoverRotationSet st; f ← files !! i; lf_content f).

(** [true] when the sidecar was behind and has been advanced. *)
Definition recoverFromSidecarGap (s : IntegrityStore) (d : Disk) (sidecar : SidecarState)
  (lastFile : nat) : IntegrityStore * Disk * result lerr bool :=
  match recover_walk hmac (is_chain s) (sd_Sequence sidecar)
          (mkWalk None 0 0 (wrap_int64 (sd_Sequence sidecar + 1)) (sd_PrevHash sidecar))
          (ReadBytes_all (file_content (d_log d) lastFile)) with
  | Err e => (s, d, Err e)
  | Ok (w, cut) =>
    let log := match cut with
               | Some size => truncate_log (d_log d) lastFile size
               | None => d_log d
               end in
    let d1 := mkDiskState log (d_sidecar d) in
    match wk_lastVerified w with
    | None => (s, d1, Ok false)
    | Some meta =>
      match IntegrityChain_Restore (is_chain s) (im_Sequence meta) (im_EntryHash meta) with
      | (c', Err e) => (set_chain s c', d1, Err (LRestore e))
      | (c', Ok _) =>
        (set_chain s c', mkDiskState log (sidecar_for s (im_Sequence meta) (im_EntryHash meta)),
         Ok true)
      end
    end
  end.

Definition resumeFromSidecar (s : IntegrityStore) (d : Disk) (sidecar : SidecarState)
  (lastLine : option (nat * list Z)) : IntegrityStore * Disk * result lerr unit :=
  match lastLine with
  | None => (s, d, Err (LMismatch "no visible audit log"))
  | Some (lastFile, line) =>
    let recover (failure : lerr) :=
      match recoverFromSidecarGap s d sidecar lastFile with
      | (s', d', Err e) => (s', d', Err e)
      | (s', d', Ok true) => (s', d', Ok tt)
      | (s', d', Ok false) => (s', d', Err failure)
      end in
    match (match ParseIntegrityEntry line with
           | Ok e => meta ← pe_Integrity e; Some (e, meta)
           | Err _ => None
           end) with
    | None => recover (LMismatch "malformed last entry")
    | Some (entry, meta) =>
      if (sd_Sequence sidecar =? im_Sequence meta) && (sd_PrevHash sidecar ==? im_EntryHash meta)
      then
        match verify_entry hmac (is_chain s) meta (pe_CanonicalPayload entry) with
        | Err e => (s, d, Err (LVerify e))
        | Ok false => (s, d, Err (LMismatch "invalid last entry"))
        | Ok true =>
          match IntegrityChain_Restore (is_chain s) (sd_Sequence sidecar) (sd_PrevHash sidecar) with
          | (c', Err e) => (set_chain s c', d, Err (LRestore e))
          | (c', Ok _) => (set_chain s c', d, Ok tt)
          end
        end
      else if sd_Sequence sidecar <? im_Sequence meta
      then recover (LMismatch "sidecar does not match")
      else (s, d, Err (LMismatch "sidecar does not match"))
    end
  end.

(** The rotation event as [json.Marshal(ev)] prints it; a nil summary is [null]. *)
Definition rotation_event (reasonCode reason fingerprint : string) (prior : option (Z * string))
  : json :=
  let num z := JNumber (string_bytes (FormatInt z)) in
  JObject [("timestamp", JString timestamp); ("type", JString "integrity_chain_rotated");
           ("session_id", JString "");
           ("fields", JObject
             [("new_chain", JObject [("format_version", num IntegrityFormatVersion);
                                     ("key_fingerprint", JString fingerprint);
                                     ("sequence", num 0)]);
              ("prior_chain_summary",
                match prior with
                | None => JNull
                | Some (seq, h) => JObject [("last_entry_hash_seen_in_log", JString h);
                                            ("last_sequence_seen_in_log", num seq)]
                end);
              ("reason", JString reason);
              ("reason_code", JString reasonCode)])].

Definition appendRotationBoundary (s : IntegrityStore) (d : Disk) (o : outcome)
  (reasonCode reason : string) (prior : option (Z * string))
  : IntegrityStore * Disk * result lerr unit :=
  let payload := marshal (rotation_event reasonCode reason (is_keyFingerprint s) prior) in
  match Wrap hmac (is_chain s) payload with
  | (c', Err e) => (set_chain s c', d, Err (LWrap e))
  | (c', Ok wrapped) =>
    match WriteRaw (d_log d) o wrapped with
    | (log', Err e) => (set_chain s c', mkDiskState log' (d_sidecar d), Err (LWrite e))
    | (log', Ok _) =>
      let state := IntegrityChain_State c' in
      (set_chain s c', mkDiskState log' (sidecar_for s (cs_Sequence state) (cs_PrevHash state)),
       Ok tt)
    end
  end.

Definition bootstrapWithoutSidecar (s : IntegrityStore) (d : Disk) (o : outcome) (files : list LogFile)
  (lastLine : option (nat * list Z)) (reasonCode reason : string)
  : IntegrityStore * Disk * result lerr unit :=
  match lastLine with
  | None => appendRotationBoundary s d o "initial" "initial chain creation" None
  | Some (_, line) =>
    match ParseIntegrityEntry line with
    | Err e => (s, d, Err (LCorrupted e))
    | Ok entry =>
      match pe_Integrity entry with
      | None => (s, d, Err LLegacy)
      | Some meta =>
        if im_FormatVersion meta <? IntegrityFormatVersion then (s, d, Err LLegacy)
        else if IntegrityFormatVersion <? im_FormatVersion meta
        then (s, d, Err (LUnsupportedVersion (im_FormatVersion meta)))
        else
          let verified := verify_entry hmac (is_chain s) meta (pe_CanonicalPayload entry) in
          if (pe_Type entry ==? "integrity_chain_rotated") && (im_Sequence meta =? 0) &&
             match verified with Ok true => true | _ => false end
          then
            match validateVisibleChain hmac (is_chain s) files with
            | Err e => (s, d, Err e)
            | Ok _ =>
              match IntegrityChain_Restore (is_chain s) (im_Sequence meta) (im_EntryHash meta) with
              | (c', Err e) => (set_chain s c', d, Err (LRestore e))
              | (c', Ok _) =>
                (set_chain s c',
                 mkDiskState (d_log d) (sidecar_for s (im_Sequence meta) (im_EntryHash meta)), Ok tt)
              end
            end
          else match verified with
          | Err e => (s, d, Err (LVerify e))
          | Ok false => (s, d, Err (LMismatch "invalid last entry"))
          | Ok true =>
            match validateVisibleChain hmac (is_chain s) files with
            | Err e => (s, d, Err e)
            | Ok _ => appendRotationBoundary s d o reasonCode reason
                        (Some (im_Sequence meta, im_EntryHash meta))
            end
          end
      end
    end
  end.

Definition bootstrap (s : IntegrityStore) (d : Disk) (o : outcome)
  : IntegrityStore * Disk * result lerr unit :=
  match DiscoverRotationSet (d_log d) with
  | None => (s, d, Err LMissingFile)
  | Some files =>
  let lastLine := ReadLastNonEmptyLine files in
  match ReadSidecar (d_sidecar d) with
  | Ok sidecar =>
    if sd_KeyFingerprint sidecar !=? is_keyFingerprint s then (s, d, Err LKeyFingerprint)
    else match validateVisibleChain hmac (is_chain s) files with
    | Err e => (s, d, Err e)
    | Ok _ => resumeFromSidecar s d sidecar lastLine
    end
  | Err ErrSidecarNotFound =>
    bootstrapWithoutSidecar s d o files lastLine "sidecar_missing" "sidecar missing; starting fresh chain"
  | Err (ErrSidecarCorrupt _) =>
    match lastLine with
    | None => (s, d, Err LSidecarCorruptNoLog)
    | Some _ => bootstrapWithoutSidecar s d o files lastLine "sidecar_corrupt"
                  "sidecar corrupt; starting fresh chain"
    end
  | Err e => (s, d, Err (LReadSidecar e))
  end
  end.

(** Appending an event whose JSON is [payload]. *)
Definition AppendEvent (s : IntegrityStore) (d : Disk) (o : outcome) (payload : list Z)
  : IntegrityStore * Disk * result lerr unit :=
  if is_fatal s then (s, d, Err ErrIntegrityFatal)
  else
    let prevState := IntegrityChain_State (is_chain s) in
    match Wrap hmac (is_chain s) payload with
    | (c', Err e) => (set_chain s c', d, Err (LWrap e))
    | (c', Ok wrapped) =>
      match WriteRaw (d_log d) o wrapped with
      | (log', Err WPartialWrite) =>
        (mkIntegrityStore c' (is_keyFingerprint s) true (is_pendingFlush s),
         mkDiskState log' (d_sidecar d), Err (LFatalIntegrity "write audit log"))
      | (log', Err WCleanFailure) =>
        match IntegrityChain_Restore c' (cs_Sequence prevState) (cs_PrevHash prevState) with
        | (c'', Err e) => (set_chain s c'', mkDiskState log' (d_sidecar d), Err (LRestore e))
        | (c'', Ok _) =>
          (set_chain s c'', mkDiskState log' (d_sidecar d), Err (LWrite WCleanFailure))
        end
      | (log', Ok _) =>
        (mkIntegrityStore c' (is_keyFingerprint s) (is_fatal s) true,
         mkDiskState log' (d_sidecar d), Ok tt)
      end
    end.

(** [FlushSync] holds the lock only while it takes the head to persist; appends may run before it
    has written the sidecar. *)
Definition FlushSync_snapshot (s : IntegrityStore) : option ChainState * IntegrityStore :=
  if negb (is_pendingFlush s) || is_fatal s then (None, s)
  else (Some (IntegrityChain_State (is_chain s)),
        mkIntegrityStore (is_chain s) (is_keyFingerprint s) (is_fatal s) false).

(** The rest of it; [sync_ok] and [sidecar_ok] are the answers of the file system. *)
Definition FlushSync_write (s : IntegrityStore) (d : Disk) (state : ChainState)
  (sync_ok sidecar_ok : bool) : IntegrityStore * Disk * result lerr unit :=
  let fail op := (mkIntegrityStore (is_chain s) (is_keyFingerprint s) true (is_pendingFlush s), d,
                  Err (LFatalIntegrity op)) in
  if negb sync_ok then fail "sync audit log"
  else if negb sidecar_ok then fail "write audit integrity sidecar"
  else (s, mkDiskState (d_log d) (sidecar_for s (cs_Sequence state) (cs_PrevHash state)), Ok tt).

End Operations.
End IntegrityWrapper.
Export IntegrityWrapper.

(** ** Facts *)
Module LogFacts.

(** *** Lines of the log hold no newline *)

Definition numeric (b : Z) : Prop := 43 <= b <= 57 \/ b = 101 \/ b = 69.

Lemma is_digit_numeric b : is_digit b = true -> numeric b.
Proof. unfold is_digit, between, numeric. lia. Qed.

Lemma digits1_numeric bs ds r : digits1 bs = Ok (ds, r) -> Forall numeric ds.
Proof.
  intros (_ & Hd & _)%digits1_spec. eapply Forall_impl; [exact Hd|]. apply is_digit_numeric.
Qed.

Lemma parse_number_numeric bs lit r : parse_number bs = Ok (lit, r) -> Forall numeric lit.
Proof.
  unfold parse_number. intros H.
  set (sb := match bs with 45 :: r => ([45], r) | _ => ([], bs) end) in H.
  assert (Hsign : sb.1 = [] \/ sb.1 = [45]) by (unfold sb; repeat case_match; auto).
  destruct sb as [sign bs1]. simpl in Hsign.
  apply rbind_Ok in H as ([i bs2] & Hi & H). apply rbind_Ok in H as ([f bs3] & Hf & H).
  apply rbind_Ok in H as ([e bs4] & He & [= <- <-]).
  assert (numeric 45 /\ numeric 46 /\ numeric 48) as (? & ? & ?) by (unfold numeric; lia).
  rewrite !Forall_app. split_and!.
  - destruct Hsign as [-> | ->]; [constructor|]. by constructor.
  - destruct bs1 as [|b bs1]; [done|]. cbn [parse_int] in Hi. destruct (b =? 48).
    + injection Hi as <- <-. by constructor.
    + by eapply digits1_numeric.
  - unfold parse_frac in Hf. repeat (case_match; simplify_eq/=); try constructor.
    all: apply rbind_Ok in Hf as ([ds r1] & Hd & [= <- <-]); constructor; [done|];
      by eapply digits1_numeric.
  - destruct bs3 as [|c bs3]; [simpl in He; simplify_eq; constructor|]. cbn [parse_exp] in He.
    destruct (_ || _) eqn:Ec; [|simplify_eq; constructor].
    assert (numeric c) by (unfold numeric; lia).
    destruct bs3 as [|sg bs3]; [done|]. destruct ((sg =? 43) || _) eqn:Es;
      apply rbind_Ok in He as ([ds r1] & Hd & [= <- <-]); apply digits1_numeric in Hd;
      constructor; try done. constructor; [unfold numeric; lia|done].
Qed.

Lemma valid_number_numeric lit : valid_number lit -> Forall numeric lit.
Proof. intros [_ H]. by apply (parse_number_numeric (lit ++ []) lit []), H. Qed.

Lemma hex_digit_ge n : 0 <= n < 16 -> 48 <= byte_of_char (hex_digit n).
Proof. intros Hn. rewrite hex_digit_byte by done. destruct (Z.ltb_spec n 10); lia. Qed.

Lemma hex4_bytes r : 0 <= r < 65536 -> newline ∉ hex4 r.
Proof.
  intros Hr. assert (Hall : Forall (fun b => 48 <= b) (hex4 r)).
  { unfold hex4. repeat constructor; apply hex_digit_ge; div_lia. }
  rewrite Forall_forall in Hall. intros H%Hall. unfold newline in H. lia.
Qed.

Lemma encode_rune_newline r : scalar r -> r <> 10 -> newline ∉ encode_rune r.
Proof.
  unfold scalar. intros Hr Hne. destruct (Z.le_gt_cases r 127).
  - unfold encode_rune. rewrite (proj2 (Z.leb_le r 127)) by lia.
    rewrite list_elem_of_singleton. unfold newline. lia.
  - assert (Hall : Forall (fun b => 127 < b) (encode_rune r)).
    { unfold encode_rune. rewrite (proj2 (Z.leb_gt r 127)) by lia.
      repeat case_match; repeat constructor; div_lia. }
    rewrite Forall_forall in Hall. intros Hx%Hall. unfold newline in Hx. lia.
Qed.

Lemma append_rune_newline r : scalar r -> newline ∉ append_rune (r, encode_rune r).
Proof.
  intros Hr. assert (0 <= r < 1114112) by (unfold scalar in Hr; lia).
  assert (Hu : forall r', 0 <= r' < 65536 -> newline ∉ u_escape r').
  { intros r' Hr'. unfold u_escape. rewrite !elem_of_cons.
    intros [?|[?|Hx]]; [done..|]. by apply hex4_bytes in Hx. }
  assert (Hshort : forall x, 10 < x -> newline ∉ [92; x]).
  { intros x Hx. rewrite !elem_of_cons. unfold newline.
    intros [?|[?|H']]; [lia..|]. by apply not_elem_of_nil in H'. }
  unfold append_rune, between. destruct (_ && _) eqn:E1.
  - destruct ((r =? 34) || _) eqn:E2; [apply Hshort; lia|].
    destruct (r =? 8); [apply Hshort; lia|]. destruct (r =? 12); [apply Hshort; lia|].
    destruct (r =? 10) eqn:E10; [apply Hshort; lia|]. destruct (r =? 13); [apply Hshort; lia|].
    destruct (r =? 9); [apply Hshort; lia|]. clear E2.
    destruct (_ || _); [apply Hu; lia|]. apply encode_rune_newline; [done|lia].
  - destruct (_ && _) eqn:E2 in |- *; [apply Hu; unfold RuneError; lia|].
    destruct (_ || _) eqn:E3; [apply Hu; lia|]. apply encode_rune_newline; [done|lia].
Qed.

Lemma marshal_string_newline s : ValidString s = true -> newline ∉ marshal_string s.
Proof.
  intros (rs & Hs & _ & Hr)%ValidString_runes. unfold marshal_string. rewrite Hr.
  rewrite elem_of_cons, elem_of_app. intros [?|[Hx|Hx]]; [done| |set_solver].
  apply list_elem_of_In, in_concat in Hx as (l & Hl & Hx).
  apply list_elem_of_In, list_elem_of_fmap in Hl as ([r raw] & -> & Hl).
  apply list_elem_of_fmap in Hl as (r' & [= -> ->] & Hl).
  rewrite Forall_forall in Hs. apply list_elem_of_In in Hx. by apply append_rune_newline in Hx; auto.
Qed.

Lemma sep_by_newline l : Forall (fun x => newline ∉ x) l -> newline ∉ sep_by 44 l.
Proof.
  destruct l as [|x l]; simpl; [set_solver|]. inversion_clear 1 as [|? ? Hx Hl].
  rewrite elem_of_app. intros [?|Hin]; [done|].
  apply list_elem_of_In, in_concat in Hin as (y & Hy & Hin).
  apply in_map_iff in Hy as (z & <- & Hz). destruct Hin as [?|Hin]; [done|].
  rewrite Forall_forall in Hl. by apply (Hl z); apply list_elem_of_In.
Qed.

Lemma marshal_newline v : wf v -> newline ∉ marshal v.
Proof.
  induction v as [|[]|lit|s|l IH|m IH] using json_induction; intros Hw.
  - apply (bool_decide_eq_false_1 _). reflexivity.
  - apply (bool_decide_eq_false_1 _). reflexivity.
  - apply (bool_decide_eq_false_1 _). reflexivity.
  - simpl in *. apply valid_number_numeric in Hw. rewrite Forall_forall in Hw.
    intros Hx%Hw. unfold numeric, newline in Hx. lia.
  - by apply marshal_string_newline.
  - simpl in Hw. apply fold_and_Forall in Hw. cbn [marshal]. rewrite elem_of_cons, elem_of_app.
    intros [?|[Hx|Hx]]; [done| |set_solver]. revert Hx. apply sep_by_newline.
    apply Forall_forall. intros x Hx. apply list_elem_of_In, in_map_iff in Hx as (y & <- & Hy).
    apply list_elem_of_In in Hy. rewrite Forall_forall in IH, Hw. auto.
  - simpl in Hw. apply fold_and_Forall in Hw. cbn [marshal]. rewrite elem_of_cons, elem_of_app.
    intros [?|[Hx|Hx]]; [done| |set_solver]. revert Hx. apply sep_by_newline.
    apply Forall_forall. intros x Hx. apply list_elem_of_In, in_map_iff in Hx as (y & <- & Hy).
    apply list_elem_of_In in Hy. rewrite Forall_forall in IH, Hw. destruct (Hw _ Hy) as [Hk Hv].
    rewrite elem_of_app, elem_of_cons. intros [Hx|[?|Hx]]; [by apply marshal_string_newline in Hx|done|].
    by apply IH in Hx.
Qed.

(** *** Reading lines back *)

(** Text that trimming leaves alone: not blank at either end. *)
Definition braced (e : list Z) : Prop := exists mid, e = 123 :: mid ++ [125].

Lemma marshal_object_braced m : braced (marshal (JObject m)).
Proof. eexists. reflexivity. Qed.

Lemma trim_left_brace n bs : trim_left n (123 :: bs) = 123 :: bs.
Proof. by destruct n. Qed.

Lemma TrimSpace_braced e : braced e -> TrimSpace e = e.
Proof.
  intros [mid ->]. unfold TrimSpace. rewrite trim_left_brace.
  change (123 :: mid ++ [125]) with ((123 :: mid) ++ [125]).
  rewrite trim_right_last; [done|lia|]. rewrite length_app. simpl. lia.
Qed.

Lemma TrimSpace_line e : braced e -> TrimSpace (e ++ [newline]) = e.
Proof.
  intros [mid ->]. unfold TrimSpace. cbn [app]. rewrite trim_left_brace.
  change (123 :: (mid ++ [125]) ++ [newline]) with (((123 :: mid) ++ [125]) ++ [newline]).
  rewrite trim_right_last; [|unfold newline; lia|rewrite length_app; simpl; lia].
  change (IsSpace newline) with true. cbv iota.
  rewrite trim_right_last; [done|lia|]. rewrite !length_app. simpl. lia.
Qed.

Definition line (e : list Z) : list Z := e ++ [newline].

Lemma ReadBytes_all_line e rest :
  newline ∉ e -> ReadBytes_all (line e ++ rest) = line e :: ReadBytes_all rest.
Proof.
  unfold line. induction e as [|b e IH]; intros Hn; [done|].
  cbn [app ReadBytes_all]. rewrite (proj2 (Z.eqb_neq b newline)) by set_solver.
  rewrite IH by set_solver. done.
Qed.

Lemma ReadBytes_all_tail t : newline ∉ t -> t <> [] -> ReadBytes_all t = [t].
Proof.
  induction t as [|b t IH]; intros Hn Hne; [done|]. cbn [ReadBytes_all].
  rewrite (proj2 (Z.eqb_neq b newline)) by set_solver.
  destruct t as [|b' t]; [done|]. by rewrite IH by (set_solver || done).
Qed.

Lemma ReadBytes_all_lines es rest :
  Forall (fun e => newline ∉ e) es ->
  ReadBytes_all (concat (line <$> es) ++ rest) = (line <$> es) ++ ReadBytes_all rest.
Proof.
  induction 1 as [|e es He _ IH]; [done|]. rewrite fmap_cons. cbn [concat app].
  rewrite <- app_assoc, ReadBytes_all_line by done. by rewrite IH.
Qed.

Lemma at_eof_line e : at_eof (line e) = false.
Proof. unfold at_eof, line. by rewrite last_snoc. Qed.

Lemma at_eof_tail t : newline ∉ t -> at_eof t = true.
Proof.
  unfold at_eof. intros Hn. destruct (last t) as [b|] eqn:E; [|done].
  rewrite (proj2 (Z.eqb_neq b newline)); [done|]. intros ->. apply Hn.
  by apply last_Some_elem_of.
Qed.

(** *** Signed entries *)

(** A payload map an event can have: decodable, without an integrity field. *)
Definition event_map (m : list (string * json)) : Prop :=
  payload_ok (Some m) /\ obj_get "integrity" m = None.

Definition entry_type (m : list (string * json)) : string :=
  default "" (json_string (obj_get "type" m)).

Lemma wrapped_entry_wf m meta :
  payload_ok (Some m) -> meta_ok meta -> wf (JObject (obj_put "integrity" (metadata_json meta) m)).
Proof.
  intros [Hs Hm] Hmeta. destruct (metadata_wf meta Hmeta) as [Hw _]. simpl.
  apply fold_and_Forall, Forall_forall. intros p [->|Hp]%obj_put_keys; [done|].
  rewrite Forall_forall in Hm. by destruct (Hm p Hp) as (? & ? & ?).
Qed.

Lemma wrapped_entry_newline m meta :
  payload_ok (Some m) -> meta_ok meta -> newline ∉ wrapped_entry m meta.
Proof. intros. by apply marshal_newline, wrapped_entry_wf. Qed.

Lemma wrapped_entry_braced m meta : braced (wrapped_entry m meta).
Proof. apply marshal_object_braced. Qed.

Lemma ParseIntegrityEntry_wrapped m meta :
  event_map m -> meta_ok meta ->
  ParseIntegrityEntry (wrapped_entry m meta) =
    Ok (mkEntry (entry_type m) (Some meta) (marshal (JObject m))).
Proof.
  intros [Hm Hi] Hmeta. unfold ParseIntegrityEntry. rewrite parse_wrapped_entry by done.
  cbn [rbind map_get]. rewrite obj_get_put, metadata_roundtrip by done.
  rewrite obj_get_put_ne by done. cbn [map_delete fmap option_fmap option_map].
  by rewrite obj_delete_put.
Qed.

Section Signed.
Context (hmac : hmac_fn) `{HmacLaws hmac}.

(** The entries a chain writes for a list of payload maps, and the chain after them. *)
Inductive signed : IntegrityChain -> list (list (string * json)) -> list (list Z) ->
  IntegrityChain -> Prop :=
| signed_nil c : signed c [] [] c
| signed_cons c m ms h ws c' :
    event_map m -> sa_sequence (ic_alloc c) < max_int64 ->
    hash_next hmac c (marshal (JObject m)) = Ok h ->
    signed (advanced c h) ms ws c' ->
    signed c (m :: ms) (wrapped_entry m (next_meta c h) :: ws) c'.

Lemma signed_snoc c ms ws c' m h :
  signed c ms ws c' -> event_map m -> sa_sequence (ic_alloc c') < max_int64 ->
  hash_next hmac c' (marshal (JObject m)) = Ok h ->
  signed c (ms ++ [m]) (ws ++ [wrapped_entry m (next_meta c' h)]) (advanced c' h).
Proof.
  induction 1 as [c|c m' ms h' ws c' Hm Hlt Hh _ IH]; intros.
  - eapply signed_cons; [done..|]. constructor.
  - cbn [app]. eapply signed_cons; [done..|]. by apply IH.
Qed.

Lemma signed_ok c ms ws c' : signed c ms ws c' -> ic_ok c -> ic_ok c'.
Proof using All.
  induction 1 as [|c m ms h ws c' Hm Hlt Hh _ IH]; [done|]. intros Hok. apply IH.
  by eapply (advanced_ok hmac).
Qed.

Lemma signed_identity c ms ws c' :
  signed c ms ws c' -> same_identity (ic_chain c) (ic_chain c').
Proof. induction 1 as [|c m ms h ws c' Hm Hlt Hh _ (? & ? & ?)]; done. Qed.

Lemma signed_lines c ms ws c' :
  signed c ms ws c' -> ic_ok c ->
  Forall (fun w => braced w /\ newline ∉ w) ws.
Proof using All.
  induction 1 as [|c m ms h ws c' [Hm Hi] Hlt Hh _ IH]; intros Hok; constructor.
  - split; [apply wrapped_entry_braced|]. apply wrapped_entry_newline; [done|].
    by eapply (next_meta_ok hmac).
  - apply IH. by eapply (advanced_ok hmac).
Qed.

Lemma signed_sequence c ms ws c' :
  signed c ms ws c' ->
  sa_sequence (ic_alloc c') = sa_sequence (ic_alloc c) + Z.of_nat (length ws).
Proof.
  induction 1 as [|c m ms h ws c' Hm Hlt Hh _ IH]; simpl; [lia|]. rewrite IH. simpl. lia.
Qed.

(** *** The validator accepts what the chain writes *)

(** The validator stands where the chain [c] does. *)
Definition expects (c : IntegrityChain) (state : visibleChainState) : Prop :=
  vc_seeded state = true /\ vc_expectedSequence state = sa_sequence (ic_alloc c) + 1 /\
  vc_expectedPrevHash state = sc_prevHash (ic_chain c).

(** Checks use the key of any chain with the same key and algorithm. *)
Definition same_key (a b : IntegrityChain) : Prop :=
  sc_key (ic_chain a) = sc_key (ic_chain b) /\ sc_algorithm (ic_chain a) = sc_algorithm (ic_chain b).

Lemma verify_entry_wrapped v c m h :
  same_key v c -> event_map m -> hash_next hmac c (marshal (JObject m)) = Ok h ->
  verify_entry hmac v (next_meta c h) (marshal (JObject m)) = Ok true.
Proof.
  intros [Hk Ha] [Hm Hi] Hh. unfold verify_entry, IntegrityChain_VerifyHash.
  change (marshal (JObject m)) with (marshalCanonicalPayload (Some m)).
  rewrite VerifyHash_canonical by done. rewrite Hk, Ha.
  unfold hash_next in Hh. cbn [im_FormatVersion im_Sequence im_PrevHash im_EntryHash next_meta].
  change (marshalCanonicalPayload (Some m)) with (marshal (JObject m)).
  rewrite Hh. cbn [rbind]. by rewrite bool_decide_eq_true_2.
Qed.

(** An entry that is not the first of its chain extends the visible chain. *)
Lemma validate_entry_next v b state c m h :
  same_key v c -> ic_ok c -> event_map m -> hash_next hmac c (marshal (JObject m)) = Ok h ->
  expects c state -> 0 <= sa_sequence (ic_alloc c) < max_int64 ->
  exists state', validate_entry hmac v b state
      (mkEntry (entry_type m) (Some (next_meta c h)) (marshal (JObject m))) (next_meta c h) = Ok state' /\
    (sa_sequence (ic_alloc c) + 1 < max_int64 -> expects (advanced c h) state').
Proof.
  intros Hk Hok Hm Hh (Hs & Hq & Hp) Hr. unfold validate_entry.
  cbn [im_FormatVersion next_meta]. rewrite !Z.ltb_irrefl.
  unfold is_boundary. cbn [im_Sequence im_PrevHash next_meta].
  rewrite (proj2 (Z.eqb_neq _ 0)) by lia. rewrite andb_false_r. cbn [andb].
  unfold seed. rewrite Hs, Hq, Hp, Z.eqb_refl. cbn [negb]. rewrite bool_decide_eq_true_2 by done.
  cbn [negb rbind pe_CanonicalPayload]. fold (next_meta c h).
  rewrite verify_entry_wrapped by done. eexists. split; [reflexivity|]. intros Hlt.
  split_and!; [done| |done]. cbn. apply wrap_int64_id.
  unfold int64_range, min_int64. unfold max_int64 in *. lia.
Qed.

Lemma validate_lines_step v b state state' m meta rest :
  event_map m -> meta_ok meta ->
  validate_entry hmac v b state (mkEntry (entry_type m) (Some meta) (marshal (JObject m))) meta =
    Ok state' ->
  validate_lines hmac v b state (line (wrapped_entry m meta) :: rest) =
    validate_lines hmac v b state' rest.
Proof.
  intros Hm Hmeta Hv. cbn [validate_lines].
  assert (TrimSpace (line (wrapped_entry m meta)) = wrapped_entry m meta) as ->
    by apply TrimSpace_line, wrapped_entry_braced.
  assert (nonempty (wrapped_entry m meta) = true) as ->
    by (destruct (wrapped_entry_braced m meta) as [mid ->]; done). cbn [negb].
  rewrite ParseIntegrityEntry_wrapped by done. cbn [pe_Integrity]. rewrite Hv. cbn [rbind].
  by rewrite at_eof_line.
Qed.

(** A stretch of entries that does not start a chain. *)
Definition follows (c : IntegrityChain) (state : visibleChainState) : Prop :=
  0 <= sa_sequence (ic_alloc c) /\ (sa_sequence (ic_alloc c) < max_int64 -> expects c state).

Lemma validate_lines_signed v b state c ms ws c' :
  signed c ms ws c' -> same_key v c -> ic_ok c -> follows c state ->
  exists state', follows c' state' /\
    forall rest, validate_lines hmac v b state ((line <$> ws) ++ rest) =
                 validate_lines hmac v b state' rest.
Proof using All.
  intros Hs. revert state. induction Hs as [c|c m ms h ws c' Hm Hlt Hh Hs IH];
    intros state Hk Hok [H0 He]; [by exists state|].
  destruct (validate_entry_next v b state c m h) as (state1 & Hv & He1); auto.
  assert (Hmeta : meta_ok (next_meta c h)) by (by eapply (next_meta_ok hmac)).
  assert (Hok1 : ic_ok (advanced c h)) by (by eapply (advanced_ok hmac)).
  destruct (IH state1) as (state2 & He2 & Hl2); [done|done|split; [cbn; lia|done]|].
  exists state2. split; [done|]. intros rest. rewrite fmap_cons. cbn [app].
  by rewrite (validate_lines_step v b state state1).
Qed.

(** The first entry of a chain may open the visible log unless it is a rotation boundary that
    refers to a chain before it. *)
Definition origin_ok (m : list (string * json)) : Prop :=
  entry_type m = "integrity_chain_rotated" ->
  exists ev, Unmarshal_rotation (marshal (JObject m)) = Some ev /\ rp_PriorChainSummary ev = None.

Definition genesis (c : IntegrityChain) : Prop :=
  sa_sequence (ic_alloc c) = -1 /\ sc_prevHash (ic_chain c) = "".

(** The first visible entry seeds the validator: any entry of a backup, or the first of a chain. *)
Lemma validate_entry_first v b c m h :
  same_key v c -> ic_ok c -> event_map m -> hash_next hmac c (marshal (JObject m)) = Ok h ->
  (genesis c /\ origin_ok m) \/ (b = true /\ 0 <= sa_sequence (ic_alloc c)) ->
  sa_sequence (ic_alloc c) < max_int64 ->
  exists state', validate_entry hmac v b visible_start
      (mkEntry (entry_type m) (Some (next_meta c h)) (marshal (JObject m))) (next_meta c h) = Ok state' /\
    (sa_sequence (ic_alloc c) + 1 < max_int64 -> expects (advanced c h) state').
Proof.
  intros Hk Hok Hm Hh Hstart Hlt. unfold validate_entry.
  cbn [im_FormatVersion next_meta]. rewrite !Z.ltb_irrefl.
  match goal with |- exists s, rbind ?x ?f = _ /\ _ =>
    assert (Hx : exists st, x = Ok st /\ vc_verifiedEntries st = 0) end.
  { unfold is_boundary. cbn [im_Sequence im_PrevHash next_meta pe_Type].
    destruct ((entry_type m ==? "integrity_chain_rotated") && _ && _) eqn:Eb.
    - apply andb_true_iff in Eb as [Eb _]. apply andb_true_iff in Eb as [Et Es].
      apply Z.eqb_eq in Es. apply bool_decide_eq_true in Et.
      destruct Hstart as [[_ Ho]|[_ ?]]; [|lia]. destruct (Ho Et) as (ev & Hu & Hn).
      exists visible_start. unfold validateRotationBoundary. cbn [pe_CanonicalPayload].
      rewrite Hu, Hn. cbn. by rewrite andb_false_r.
    - unfold seed. cbn [vc_seeded visible_start vc_verifiedEntries]. rewrite Z.eqb_refl, andb_true_r.
      destruct b; cbn [vc_expectedSequence vc_expectedPrevHash im_Sequence im_PrevHash next_meta].
      + rewrite Z.eqb_refl, bool_decide_eq_true_2 by done. cbn. by eexists.
      + destruct Hstart as [[[Hs Hp] _]|[? _]]; [|done].
        rewrite (proj2 (Z.eqb_eq (sa_sequence (ic_alloc c) + 1) 0)) by lia.
        rewrite bool_decide_eq_true_2 by done. cbn. by eexists. }
  destruct Hx as (st & -> & Hst). cbn [rbind pe_CanonicalPayload]. fold (next_meta c h).
  rewrite verify_entry_wrapped by done. eexists. split; [reflexivity|]. intros Hlt1.
  split_and!; [done| |done]. cbn. apply wrap_int64_id.
  destruct Hok as [? _ _ _ _ _].
  unfold int64_range, min_int64. unfold max_int64 in *. lia.
Qed.

(** *** Lines that were cut *)

Lemma last_start_le bs : (last_start bs <= length bs)%nat.
Proof.
  unfold last_start. destruct (List.find _ _) as [k|] eqn:E; [|lia].
  apply find_some in E as [_ [E _]%andb_true_iff]. by apply Nat.leb_le in E.
Qed.

(** Trimming on the right keeps the opening brace. *)
Lemma trim_right_brace n l :
  exists l' t, trim_right n (123 :: l) = 123 :: l' /\ l = l' ++ t.
Proof.
  revert l. induction n as [|n IH]; intros l; [exists l, []; by rewrite app_nil_r|].
  cbn [trim_right]. destruct (DecodeLastRune (123 :: l)) as [r k] eqn:E.
  destruct (IsSpace r) eqn:Es; [|exists l, []; by rewrite app_nil_r].
  assert (Hk : (k <= length l)%nat).
  { unfold DecodeLastRune in E. destruct (last (123 :: l)) as [b|] eqn:El; [|by apply last_None in El].
    destruct (b <? 128) eqn:Eb.
    - injection E as <- <-. destruct l; [|simpl; lia]. by injection El as <-.
    - destruct (DecodeRune _) as [r' size] eqn:Ed.
      destruct (Nat.eqb_spec size (last_start (123 :: l))); [|by injection E as <- <-].
      injection E as <- <-. pose proof (last_start_le (123 :: l)) as Hle. simpl in Hle.
      destruct (decide (size = S (length l))) as [->|]; [|lia].
      rewrite <- e in Ed. cbn [length] in Ed. rewrite Nat.sub_diag in Ed. cbn in Ed.
      injection Ed as <- Hl. simplify_eq. }
  replace (length (123%Z :: l) - k)%nat with (S (length l - k)) by (simpl; lia). cbn [take].
  destruct (IH (take (length l - k) l)) as (l' & t & -> & Ht).
  exists l', (t ++ drop (length l - k) l). split; [done|].
  by rewrite app_assoc, <- Ht, take_drop.
Qed.

Lemma TrimSpace_cut l :
  exists l' t, TrimSpace (123 :: l) = 123 :: l' /\ l = l' ++ t.
Proof. unfold TrimSpace. rewrite trim_left_brace. apply trim_right_brace. Qed.

(** A proper prefix of an entry, however it ends, is not an entry. *)
Lemma ParseIntegrityEntry_cut m meta p t :
  payload_ok (Some m) -> meta_ok meta -> wrapped_entry m meta = p ++ t -> t <> [] -> p <> [] ->
  nonempty (TrimSpace p) = true /\ exists e, ParseIntegrityEntry (TrimSpace p) = Err e.
Proof.
  intros Hm Hmeta Hw Ht Hp.
  assert (Hb : exists l, p = 123 :: l).
  { destruct (wrapped_entry_braced m meta) as [mid Hmid]. rewrite Hw in Hmid.
    destruct p as [|b p]; [done|]. injection Hmid as -> _. eauto. }
  destruct Hb as [l ->]. destruct (TrimSpace_cut l) as (l' & t' & -> & ->). split; [done|].
  unfold ParseIntegrityEntry, parseIntegrityPayloadUseNumber.
  change (skip_ws (123 :: l')) with (123 :: l').
  destruct (parse_value maxNestingDepth (123 :: l')) as [[v r]|e] eqn:E; [|cbn; eauto].
  exfalso. destruct (parse_prefix (obj_put "integrity" (metadata_json meta) m) maxNestingDepth
    (123 :: l') (t' ++ t) v r) as [lit ->].
  - by apply wrapped_entry_wf.
  - rewrite maxNestingDepth_S. cbn [depth]. apply le_n_S, fold_max_le, Forall_forall.
    destruct (metadata_wf meta Hmeta) as [_ Hd]. destruct Hm as [_ Hm].
    intros q [->|Hq]%obj_put_keys; [cbn [snd]; rewrite Hd; by apply Nat.leb_le|].
    rewrite Forall_forall in Hm. by destruct (Hm q Hq) as (? & ? & ? & ?).
  - unfold wrapped_entry in Hw. rewrite Hw. cbn [app]. by rewrite <- app_assoc.
  - intros [_ ?]%app_eq_nil. done.
  - done.
  - rewrite maxNestingDepth_S in E. cbn [parse_value] in E. simpl (123 =? 123) in E. cbv iota in E.
    destruct (skip_ws l') as [|c r1]; [done|]. destruct (c =? 125); [done|].
    by apply rbind_Ok in E as ([m' r2] & _ & E).
Qed.

(** What a crash may leave after the last complete line. *)
Definition torn (tail : list Z) : Prop :=
  newline ∉ tail /\ nonempty (TrimSpace tail) = true /\
  exists e, ParseIntegrityEntry (TrimSpace tail) = Err e.

Lemma torn_nonempty tail : torn tail -> tail <> [].
Proof. by intros (_ & Hn & _) ->. Qed.

Lemma torn_cut m meta p t :
  payload_ok (Some m) -> meta_ok meta -> wrapped_entry m meta = p ++ t -> t <> [] -> p <> [] ->
  torn p.
Proof using.
  intros Hm Hmeta Hw Ht Hp. destruct (ParseIntegrityEntry_cut m meta p t) as [? ?]; [done..|].
  split; [|done]. pose proof (wrapped_entry_newline m meta Hm Hmeta) as Hn.
  rewrite Hw in Hn. intros Hin. apply Hn, elem_of_app. by left.
Qed.

Lemma validate_lines_tail v state tail :
  tail = [] \/ torn tail -> validate_lines hmac v false state (ReadBytes_all tail) = Ok state.
Proof.
  intros [->|Ht]; [done|]. pose proof (torn_nonempty _ Ht) as Hne.
  destruct Ht as (Hnl & Hn & e & He). rewrite ReadBytes_all_tail by done. cbn [validate_lines].
  by rewrite Hn, He, at_eof_tail.
Qed.

(** How the visible log may begin at a file. *)
Definition begins (b : bool) (state : visibleChainState) (c : IntegrityChain)
  (ms : list (list (string * json))) : Prop :=
  follows c state \/
  (state = visible_start /\
   ((genesis c /\ forall m, head ms = Some m -> origin_ok m) \/ (b = true /\ 0 <= sa_sequence (ic_alloc c)))).

(** The entries of one file. *)
Lemma validate_file_signed v b state c ms ws c' :
  signed c ms ws c' -> same_key v c -> ic_ok c -> begins b state c ms ->
  exists state', (ws = [] -> state' = state) /\ (ws <> [] -> follows c' state') /\
    forall rest, validate_lines hmac v b state (ReadBytes_all (concat (line <$> ws) ++ rest)) =
                 validate_lines hmac v b state' (ReadBytes_all rest).
Proof using All.
  intros Hs Hk Hok Hb.
  assert (Hnl : Forall (fun w => newline ∉ w) ws).
  { eapply Forall_impl; [by eapply signed_lines|]. by intros w [_ ?]. }
  inversion Hs as [? E1 E2 E3|? m ms' h ws' ? Hm Hlt Hh Hs' E1 E2 E3]; subst.
  { by exists state. }
  destruct Hb as [Hf|[-> Hstart]].
  - destruct (validate_lines_signed v b state c _ _ c' Hs) as (state' & Hf' & Hl); [done..|].
    exists state'. split; [done|]. split; [done|]. intros rest.
    rewrite ReadBytes_all_lines by done. apply Hl.
  - destruct (validate_entry_first v b c m h) as (state1 & Hv & He1); auto.
    { destruct Hstart as [[? Ho]|?]; [left; split; [done|by apply Ho]|by right]. }
    assert (Hmeta : meta_ok (next_meta c h)) by (by eapply (next_meta_ok hmac)).
    assert (Hok1 : ic_ok (advanced c h)) by (by eapply (advanced_ok hmac)).
    assert (Hseq : -1 <= sa_sequence (ic_alloc c)) by apply Hok.
    destruct (validate_lines_signed v b state1 _ _ _ c' Hs') as (state2 & Hf2 & Hl2);
      [done|done|split; [cbn; lia|done]|].
    exists state2. split; [done|]. split; [done|]. intros rest.
    rewrite ReadBytes_all_lines by done. rewrite fmap_cons. cbn [app].
    by rewrite (validate_lines_step v b visible_start state1).
Qed.

Lemma signed_app_inv c ms ws1 ws2 c' :
  signed c ms (ws1 ++ ws2) c' ->
  exists ms1 ms2 c1, ms = ms1 ++ ms2 /\ signed c ms1 ws1 c1 /\ signed c1 ms2 ws2 c'.
Proof.
  revert c ms. induction ws1 as [|w ws1 IH]; intros c ms Hs; [exists [], ms, c; by repeat constructor|].
  inversion Hs as [|? m ms' h ws' ? Hm Hlt Hh Hs' E1 E2 E3]; subst.
  destruct (IH _ _ Hs') as (ms1 & ms2 & c1 & -> & H1 & H2).
  exists (m :: ms1), ms2, c1. split; [done|]. split; [|done]. by econstructor.
Qed.

Lemma same_key_identity v c c' :
  same_key v c -> same_identity (ic_chain c) (ic_chain c') -> same_key v c'.
Proof. intros [? ?] (_ & ? & ?). split; congruence. Qed.

(** The files of a log: backups, then the active file with what a crash left at its end. *)
Definition log_of (gs : list (list (list Z))) (active : list (list Z)) (tail : list Z)
  : list LogFile :=
  ((fun g => mkLogFile true (Some (concat (line <$> g)))) <$> gs) ++
  [mkLogFile false (Some (concat (line <$> active) ++ tail))].

(** The validator accepts every file set the store can leave behind. *)
Lemma validate_log v state c ms gs active tail c' :
  signed c ms (concat gs ++ active) c' -> same_key v c -> ic_ok c ->
  tail = [] \/ torn tail ->
  (if gs is g :: _ then begins (bool_decide (g <> [])) state c ms else begins false state c ms) ->
  exists state', validate_files hmac v state (log_of gs active tail) = Ok state'.
Proof using All.
  intros Hs Hk Hok Ht. revert state c ms Hs Hk Hok.
  induction gs as [|g gs IH]; intros state c ms Hs Hk Hok Hb.
  - unfold log_of. cbn. cbn in Hs.
    destruct (validate_file_signed v false state c ms active c') as (state' & _ & _ & Hl); [done..|].
    rewrite Hl, validate_lines_tail by done. by eexists.
  - cbn [concat] in Hs. rewrite <- app_assoc in Hs.
    apply signed_app_inv in Hs as (ms1 & ms2 & c1 & -> & Hg & Hs).
    destruct (validate_file_signed v true state c ms1 g c1) as (state' & Hnil & Hcons & Hl); [done..| |].
    { destruct Hb as [Hf|[-> [[Hgen Ho]|[_ ?]]]]; [by left|..]; right; (split; [done|]).
      - left. split; [done|]. intros m Hm. apply Ho. by destruct ms1.
      - by right. }
    assert (Hok1 : ic_ok c1) by (by eapply signed_ok).
    assert (Hk1 : same_key v c1).
    { eapply same_key_identity; [exact Hk|]. by eapply signed_identity. }
    specialize (Hl []). rewrite app_nil_r in Hl.
    destruct (IH state' c1 ms2 Hs Hk1 Hok1) as [st Hst].
    { destruct (decide (g = [])) as [->|Hne].
      - rewrite (Hnil eq_refl). inversion Hg; subst.
        destruct Hb as [Hf|[-> [[Hgen Ho]|[Hx _]]]].
        + destruct gs; by left.
        + destruct gs; right; (split; [done|]); by left.
        + by apply bool_decide_eq_true in Hx.
      - specialize (Hcons Hne). destruct gs; by left. }
    exists st. unfold log_of. rewrite fmap_cons. cbn [app validate_files lf_content lf_IsBackup].
    rewrite Hl. cbn. exact Hst.
Qed.

End Signed.
End LogFacts.
Export LogFacts.

(** ** The last line of a file *)
Module LastLineFacts.

(** Reference: the last line that is not blank. *)
Definition last_line (file : list Z) : option (list Z) :=
  last (List.filter nonempty (TrimSpace <$> ReadBytes_all file)).

(** *** Trimming ignores a trailing newline *)

Lemma DecodeRune_newline b bs : DecodeRune ((b :: bs) ++ [newline]) = DecodeRune (b :: bs).
Proof.
  destruct bs as [|b1 [|b2 [|b3 bs]]]; [..|done]; cbn; change (is_cont newline) with false;
    repeat rewrite ?andb_false_r, ?andb_false_l; unfold newline, between;
    repeat (case_match; try done); bool_prop; try done; try lia.
Qed.

Lemma DecodeRune_size b bs : (1 <= (DecodeRune (b :: bs)).2 <= length (b :: bs))%nat.
Proof. cbn. repeat case_match; cbn; lia. Qed.

Lemma trim_left_nil n : trim_left n [] = [].
Proof. by destruct n. Qed.

Lemma trim_left_newline n n' l :
  (length l <= n)%nat -> (length l < n')%nat ->
  trim_left n' (l ++ [newline]) =
    (if nonempty (trim_left n l) then trim_left n l ++ [newline] else []).
Proof.
  revert n' l. induction n as [|n IH]; intros n' l Hn Hn'.
  - destruct l; [|simpl in Hn; lia]. destruct n'; [simpl in Hn'; lia|]. cbn. by destruct n'.
  - destruct l as [|b l].
    { rewrite trim_left_nil. destruct n'; [simpl in Hn'; lia|]. cbn. by destruct n'. }
    destruct n' as [|n']; [simpl in Hn'; lia|].
    change ((b :: l) ++ [newline]) with (b :: l ++ [newline]). cbn [trim_left].
    change (b :: l ++ [newline]) with ((b :: l) ++ [newline]). rewrite DecodeRune_newline.
    pose proof (DecodeRune_size b l) as Hs. destruct (DecodeRune (b :: l)) as [r k]. cbn [snd] in Hs.
    destruct (IsSpace r); [|done]. rewrite drop_app_le by lia.
    apply IH; rewrite length_drop; simpl in *; lia.
Qed.

Lemma trim_right_fuel n n' l :
  (length l <= n)%nat -> (length l <= n')%nat -> trim_right n l = trim_right n' l.
Proof.
  revert n' l. induction n as [|n IH]; intros n' l Hn Hn'.
  - destruct l; [|simpl in Hn; lia]. by destruct n'.
  - destruct l as [|b l]; [by destruct n'|]. destruct n' as [|n']; [simpl in Hn'; lia|].
    cbn [trim_right]. destruct (DecodeLastRune (b :: l)) as [r k] eqn:E.
    destruct (IsSpace r) eqn:Es; [|done].
    assert (1 <= k)%nat.
    { unfold DecodeLastRune in E. destruct (last (b :: l)) eqn:El; [|by apply last_None in El].
      repeat case_match; simplify_eq; try lia.
      match goal with H : Nat.eqb _ _ = true |- _ => apply Nat.eqb_eq in H; subst end.
      unfold last_start. destruct (List.find _ _) eqn:Ef; [|simpl; lia].
      apply find_some in Ef as [Hin _]. cbn in Hin. lia. }
    apply IH; rewrite length_take; simpl in *; lia.
Qed.

Lemma TrimSpace_newline l : TrimSpace (l ++ [newline]) = TrimSpace l.
Proof.
  unfold TrimSpace. rewrite (trim_left_newline (length l)) by (rewrite ?length_app; simpl; lia).
  destruct (trim_left (length l) l) as [|b x]; [done|]. cbn [nonempty].
  rewrite trim_right_last; [|unfold newline; lia|rewrite length_app; simpl; lia].
  change (IsSpace newline) with true. cbv iota. apply trim_right_fuel; rewrite ?length_app; simpl; lia.
Qed.

(** *** Lines of a concatenation *)

Lemma ReadBytes_all_split x y :
  ReadBytes_all (x ++ newline :: y) = ReadBytes_all (x ++ [newline]) ++ ReadBytes_all y.
Proof.
  induction x as [|b x IH]; [done|]. cbn [app ReadBytes_all].
  destruct (b =? newline); [by rewrite IH|]. rewrite IH.
  destruct (ReadBytes_all (x ++ [newline])) eqn:E; [|done].
  exfalso. destruct x; cbn in E; [done|]. repeat case_match; done.
Qed.

(** A newline at the end closes the last line or adds a blank one. *)
Lemma ReadBytes_all_newline x :
  ReadBytes_all (x ++ [newline]) = ReadBytes_all x ++ [[newline]] \/
  exists cs c, ReadBytes_all x = cs ++ [c] /\ ReadBytes_all (x ++ [newline]) = cs ++ [c ++ [newline]].
Proof.
  induction x as [|b x IH]; [by left|]. cbn [app ReadBytes_all].
  destruct (b =? newline).
  - destruct IH as [-> |(cs & c & -> & ->)]; [by left|right]. by exists ([b] :: cs), c.
  - destruct IH as [-> |(cs & c & -> & ->)].
    + destruct (ReadBytes_all x) as [|c cs]; [right; by exists [], [b]|by left].
    + right. destruct cs as [|c0 cs]; [by exists [], (b :: c)|by exists ((b :: c0) :: cs), c].
Qed.

Lemma last_line_newline x : last_line (x ++ [newline]) = last_line x.
Proof.
  unfold last_line. destruct (ReadBytes_all_newline x) as [-> |(cs & c & -> & ->)].
  - rewrite fmap_app, List.filter_app. cbn. by rewrite app_nil_r.
  - rewrite !fmap_app. cbn. by rewrite TrimSpace_newline.
Qed.

Lemma last_line_cons x y :
  newline ∉ y ->
  last_line (x ++ newline :: y) =
    (if nonempty (TrimSpace y) then Some (TrimSpace y) else last_line x).
Proof.
  intros Hy. rewrite <- (last_line_newline x). unfold last_line.
  rewrite ReadBytes_all_split, fmap_app, List.filter_app.
  destruct (decide (y = [])) as [->|Hne]; [cbn; by rewrite app_nil_r|].
  rewrite (ReadBytes_all_tail y) by done. cbn [fmap list_fmap List.filter].
  destruct (nonempty (TrimSpace y)); [by rewrite last_snoc|by rewrite app_nil_r].
Qed.

Lemma last_line_single y :
  newline ∉ y -> last_line y = (if nonempty (TrimSpace y) then Some (TrimSpace y) else None).
Proof.
  intros Hy. destruct (decide (y = [])) as [->|Hne]; [done|]. unfold last_line.
  rewrite ReadBytes_all_tail by done. cbn. by destruct (nonempty (TrimSpace y)).
Qed.

(** *** The backwards scan *)

Lemma scan_back_spec data i se :
  (i <= se <= length data)%nat -> newline ∉ drop i (take se data) ->
  match scan_back data i se with
  | inl found => forall pre, last_line (pre ++ take se data) = Some found
  | inr se' => (se' <= se)%nat /\ newline ∉ take se' data /\
               forall pre, last_line (pre ++ take se data) = last_line (pre ++ take se' data)
  end.
Proof.
  revert se. induction i as [|i IH]; intros se Hi Hn; [rewrite drop_0 in Hn; done|].
  cbn [scan_back].
  assert (Hnl : newline ∉ drop (S i) (take se data)) by done.
  destruct (nth_lookup_or_length (take se data) i 0) as [Hl|Hl];
    [|rewrite length_take in Hl; lia].
  assert (Hlook : nth i (take se data) 0 = nth i data 0).
  { rewrite <- (take_drop se data) at 2. rewrite app_nth1; [done|]. rewrite length_take. lia. }
  rewrite Hlook in Hl. pose proof (drop_S _ _ _ Hl) as HdS.
  assert (Hdrop : drop (S i) (take se data) = take (se - S i) (drop (S i) data))
    by (by rewrite skipn_firstn_comm).
  assert (Hsplit : take se data = take i data ++ nth i data 0 :: drop (S i) (take se data)).
  { rewrite <- HdS. rewrite <- (take_drop i (take se data)) at 1.
    by rewrite take_take, Nat.min_l by lia. }
  rewrite <- Hdrop. remember (drop (S i) (take se data)) as y eqn:Hy. clear Hy Hdrop.
  destruct (Z.eqb_spec (nth i data 0) newline) as [E|E].
  - assert (Heq : forall pre, last_line (pre ++ take se data) =
              if nonempty (TrimSpace y) then Some (TrimSpace y) else last_line (pre ++ take i data)).
    { intros pre. rewrite Hsplit, E, app_assoc. by apply last_line_cons. }
    destruct (nonempty (TrimSpace y)); [done|].
    assert (Hempty : drop i (take i data) = []) by (apply drop_ge; rewrite length_take; lia).
    specialize (IH i ltac:(lia)). rewrite Hempty in IH. specialize (IH (not_elem_of_nil _)).
    destruct (scan_back data i i) as [found|se'].
    + intros pre. by rewrite Heq.
    + destruct IH as (Hle & Hni & Hpre). split; [lia|]. split; [done|]. intros pre. by rewrite Heq.
  - apply IH; [lia|]. rewrite HdS, elem_of_cons. intros [?|?]; [congruence|done].
Qed.

Lemma read_back_spec k n file fend tail :
  (0 < k)%nat -> (fend <= n)%nat -> (fend <= length file)%nat ->
  newline ∉ tail -> (fend = length file -> tail = []) ->
  read_back k n file fend tail = last_line (take fend file ++ tail).
Proof.
  intros Hk. revert fend tail. induction n as [|n IH]; intros fend tail Hn Hlen Ht Htail.
  - assert (fend = 0)%nat as -> by lia. cbn. by rewrite last_line_single.
  - cbn [read_back]. destruct (Nat.eqb_spec fend 0) as [->|Hne].
    { cbn. by rewrite last_line_single. }
    set (size := if Nat.ltb fend k then fend else k).
    assert (Hsize : (1 <= size <= fend)%nat)
      by (unfold size; destruct (Nat.ltb_spec fend k); lia).
    set (data := take size (drop (fend - size) file) ++ tail).
    assert (Hdata : take fend file ++ tail = take (fend - size) file ++ data).
    { unfold data. rewrite app_assoc. f_equal. rewrite <- (take_drop (fend - size) (take fend file)) at 1.
      rewrite take_take, Nat.min_l by lia. f_equal. rewrite skipn_firstn_comm. f_equal. lia. }
    set (se := if Nat.eqb fend (length file) && negb (at_eof data) then (length data - 1)%nat
               else length data).
    assert (Hse : (se <= length data)%nat /\ forall pre, last_line (pre ++ data) = last_line (pre ++ take se data)).
    { unfold se. destruct (_ && _) eqn:E; [|split; [lia|by rewrite take_ge]].
      apply andb_true_iff in E as [_ E]. split; [lia|]. intros pre.
      unfold at_eof in E. destruct (last data) as [b|] eqn:El; [|done].
      apply last_Some in El as [data' Hd]. rewrite negb_involutive in E. apply Z.eqb_eq in E as ->.
      rewrite Hd, length_app. cbn [length]. rewrite Nat.add_sub, take_app_length, app_assoc.
      apply last_line_newline. }
    destruct Hse as [Hse Hstrip].
    pose proof (scan_back_spec data se se) as Hscan.
    assert (Hempty : drop se (take se data) = []) by (apply drop_ge; rewrite length_take; lia).
    rewrite Hempty in Hscan. specialize (Hscan ltac:(lia) (not_elem_of_nil _)).
    rewrite Hdata, Hstrip. destruct (scan_back data se se) as [found|se'].
    + by rewrite Hscan.
    + destruct Hscan as (Hle & Hni & Hpre). rewrite Hpre. apply IH; [lia|lia|done|lia].
Qed.

(** Whatever the chunk size, reading backwards finds the last line that is not blank. *)
Lemma readLast_reference k file :
  (0 < k)%nat -> readLastNonEmptyLineFromFile k file = last_line file.
Proof.
  intros Hk. unfold readLastNonEmptyLineFromFile. rewrite read_back_spec; try done.
  - by rewrite app_nil_r, firstn_all.
  - apply not_elem_of_nil.
Qed.

End LastLineFacts.
Export LastLineFacts.
