(* ===== verification/AuditLogTheorems.v ===== *)
(** * The signed audit log: histories, crashes and tampering

    Everything an [IntegrityStore] can do to its disk, as a reachability relation over appends with
    any write outcome and flushes that interleave with them; then start-up after a crash at any
    point, and what an accepted log commits to. *)

From Stdlib Require Import ZArith Lia Ascii String Sorted.
From stdpp Require Import base list strings sets gmap.
From S2P Require Import Prelude GoText GoJson AuditChain AuditLog.
Open Scope string_scope.
Open Scope list_scope.
Open Scope Z_scope.

(** Conversion opens the calls of a handler before the sequencing of their results. *)
Strategy 100 [rbind parse_value].

(** ** The first entry *)
Module Boundary.

(** The rotation event without a prior chain, as the decoder reads it. *)
Definition boundary_map (timestamp reasonCode reason fingerprint : string)
  : list (string * json) :=
  [("fields", JObject
     [("new_chain", JObject [("format_version", JNumber [50]);
                             ("key_fingerprint", JString fingerprint);
                             ("sequence", JNumber [48])]);
      ("prior_chain_summary", JNull);
      ("reason", JString reason);
      ("reason_code", JString reasonCode)]);
   ("session_id", JString "");
   ("timestamp", JString timestamp);
   ("type", JString "integrity_chain_rotated")].

Lemma canon_rotation_event ts code reason fp :
  canon (rotation_event ts code reason fp None) = JObject (boundary_map ts code reason fp).
Proof. reflexivity. Qed.

Lemma decode_boundary ts code reason fp :
  decode_members decode_event_member (mkRotation "" None) (boundary_map ts code reason fp) =
    Some (mkRotation "" None).
Proof. vm_compute. reflexivity. Qed.

(** A canonical payload decodes member by member. *)
Lemma Unmarshal_canonical m ev :
  payload_ok (Some m) -> decode_members decode_event_member (mkRotation "" None) m = Some ev ->
  Unmarshal_rotation (marshal (JObject m)) = Some ev.
Proof.
  intros Hm Hd. pose proof (proj1 (decoded_object _ _) Hm) as (Hw & Hs & Hdep).
  unfold Unmarshal_rotation.
  pose proof (skip_ws_marshal (JObject m) [] Hw) as Hsk. rewrite app_nil_r in Hsk. rewrite Hsk.
  pose proof (parse_marshal (JObject m) maxNestingDepth [] Hw) as Hp.
  rewrite app_nil_r, canon_sorted in Hp by done. rewrite Hp; [done| |done].
  by rewrite maxNestingDepth_S.
Qed.

Section Texts.
Context (ts code reason fp : string).
Hypothesis Hts : ValidString ts = true.
Hypothesis Hcode : ValidString code = true.
Hypothesis Hreason : ValidString reason = true.
Hypothesis Hfp : ValidString fp = true.

Lemma digit_valid b : b = 48 \/ b = 50 -> valid_number [b].
Proof using.
  intros [-> | ->]; [apply (FormatInt_valid 0)|apply (FormatInt_valid 2)].
Qed.

Lemma rotation_event_wf : wf (rotation_event ts code reason fp None).
Proof using All.
  simpl. split_and!; try done; apply digit_valid; auto.
Qed.

Lemma parse_rotation_event :
  parseIntegrityPayloadUseNumber (marshal (rotation_event ts code reason fp None)) =
    Ok (Some (boundary_map ts code reason fp)).
Proof using All.
  apply parse_payload_marshal; [apply rotation_event_wf| |apply canon_rotation_event].
  rewrite maxNestingDepth_S. cbn. by apply Nat.leb_le.
Qed.

Lemma boundary_event_map : event_map (boundary_map ts code reason fp).
Proof using All.
  split; [|reflexivity]. eapply parse_payload_ok. apply parse_rotation_event.
Qed.

Lemma boundary_type : entry_type (boundary_map ts code reason fp) = "integrity_chain_rotated".
Proof using. reflexivity. Qed.

Lemma boundary_origin : origin_ok (boundary_map ts code reason fp).
Proof using All.
  intros _. exists (mkRotation "" None). split; [|done].
  apply Unmarshal_canonical; [apply boundary_event_map|apply decode_boundary].
Qed.

End Texts.
End Boundary.
Export Boundary.

(** ** Histories *)
Module History.

#[export] Instance ChainState_eq_dec : EqDecision ChainState.
Proof. solve_decision. Defined.

Section History.
Context (hmac : hmac_fn) `{HmacLaws hmac}.
Context (now : Z) (timestamp : string) (s0 : IntegrityStore) (maxBytes : Z) (maxBackups : nat).

(** A store about to start on an empty directory. *)
Record config_ok : Prop := {
  co_chain : ic_ok (is_chain s0);
  co_genesis : genesis (is_chain s0);
  co_live : is_fatal s0 = false;
  co_timestamp : ValidString timestamp = true;
  co_fingerprint : ValidString (is_keyFingerprint s0) = true;
  co_fingerprint_set : is_keyFingerprint s0 <> "";
  co_maxBytes : 0 < maxBytes;
  co_maxBackups : (0 < maxBackups)%nat
}.
Context (Hconf : config_ok).

Definition empty_disk : Disk := mkDiskState (mkStore [] [] maxBytes maxBackups true) SidecarMissing.

(** Every call of the operating system succeeds. *)
Definition all_ok : outcome := mkOutcome (mkFileRotation true true (fun _ => true) true) WriteOk.

(** No renaming of a rotation fails; its other calls may. *)
Definition renames_ok (o : outcome) : Prop := forall i, ro_rename (oc_rotation o) i = true.

(** A write is cut anywhere but exactly before the newline of the entry. *)
Definition cut_ok (o : outcome) (wrapped : list Z) : Prop :=
  match oc_write o with WriteFailedPartial n => n <> length wrapped | _ => True end.

(** The store in memory, its disk, and the head a flush in progress is about to persist. *)
Inductive history : IntegrityStore -> Disk -> option ChainState -> Prop :=
| history_start s d :
    bootstrap hmac now timestamp s0 empty_disk all_ok = (s, d, Ok tt) -> history s d None
| history_append s d snap o payload m s' d' r :
    history s d snap -> parseIntegrityPayloadUseNumber payload = Ok (Some m) ->
    obj_get "integrity" m = None ->
    (forall wrapped, (Wrap hmac (is_chain s) payload).2 = Ok wrapped -> cut_ok o wrapped) -> renames_ok o ->
    AppendEvent hmac s d o payload = (s', d', r) -> history s' d' snap
| history_flush_begin s d snap s' :
    history s d None -> FlushSync_snapshot s = (snap, s') -> history s' d snap
| history_flush_end s d st sync_ok sidecar_ok s' d' r :
    history s d (Some st) -> FlushSync_write now s d st sync_ok sidecar_ok = (s', d', r) ->
    history s' d' None.

Notation c0 := (is_chain s0).

(** *** The log on disk *)

Record log_inv (st : Store) (ms : list (list (string * json))) (ws : list (list Z))
  (c : IntegrityChain) (tail : list Z) (dropped : list (list Z)) (bgs : list (list (list Z)))
  (active : list (list Z)) : Prop := {
  li_signed : signed hmac c0 ms ws c;
  li_origin : forall m, head ms = Some m -> origin_ok m;
  li_split : ws = dropped ++ concat (rev bgs) ++ active;
  li_groups : Forall (fun g => g <> []) bgs;
  li_dropped : bgs = [] -> dropped = [];
  li_backups : js_backups st = Some <$> ((fun g => concat (line <$> g)) <$> bgs);
  li_active : js_active st = concat (line <$> active) ++ tail;
  li_tail : tail = [] \/ torn tail;
  li_maxBytes : js_maxBytes st = maxBytes;
  li_maxBackups : js_maxBackups st = maxBackups;
  li_count : (length bgs <= maxBackups)%nat
}.

Lemma fmap_List_rev {A B} (f : A -> B) l : f <$> rev l = rev (f <$> l).
Proof. induction l as [|x l IH]; [done|]. cbn. by rewrite fmap_app, IH. Qed.

Lemma omap_Some {A} (l : list A) : omap id (Some <$> l) = l.
Proof. induction l as [|x l IH]; [done|]. cbn. by rewrite IH. Qed.

Lemma discover_full st bs : js_backups st = Some <$> bs ->
  DiscoverRotationSet st = Some (((fun b => mkLogFile true (Some b)) <$> rev bs) ++ [mkLogFile false (Some (js_active st))]).
Proof.
  intros Hb. unfold DiscoverRotationSet. rewrite Hb, omap_Some, take_ge by (by rewrite length_fmap). by rewrite bool_decide_eq_true_2.
Qed.

Lemma log_inv_files st ms ws c tail dropped bgs active :
  log_inv st ms ws c tail dropped bgs active -> DiscoverRotationSet st = Some (log_of (rev bgs) active tail).
Proof.
  intros [_ _ _ _ _ Hb Ha _ _ _ _]. rewrite (discover_full _ _ Hb). unfold log_of. rewrite Ha. do 2 f_equal.
  rewrite <- fmap_List_rev, <- list_fmap_compose. done.
Qed.

(** *** Renaming *)

Lemma put_middle (l1 l2 : list (option (list Z))) x y : put_backup (l1 ++ x :: l2) (length l1) y = l1 ++ y :: l2.
Proof.
  unfold put_backup. rewrite length_app. cbn [length]. rewrite (proj2 (Nat.ltb_lt _ _)) by lia.
  induction l1 as [|z l1 IH]; [done|]. cbn. by f_equal.
Qed.

Lemma put_end (l : list (option (list Z))) y : put_backup l (length l) y = l ++ [y].
Proof. unfold put_backup. by rewrite Nat.ltb_irrefl, Nat.sub_diag. Qed.

Lemma backup_middle (l1 l2 : list (option (list Z))) b : backup (l1 ++ Some b :: l2) (length l1) = Some b.
Proof. unfold backup. by rewrite list_lookup_middle. Qed.

(** One file moves up, over another or behind the last. *)
Lemma move_middle i (l1 l2 : list (option (list Z))) b x : length l1 = i ->
  rename_up true i (l1 ++ Some b :: x :: l2) = l1 ++ None :: Some b :: l2.
Proof.
  intros <-. unfold rename_up. rewrite backup_middle, put_middle.
  replace (l1 ++ None :: x :: l2) with ((l1 ++ [None]) ++ x :: l2) by (by rewrite <- app_assoc).
  replace (S (length l1)) with (length (l1 ++ [@None (list Z)])) by (rewrite length_app; cbn; lia). by rewrite put_middle, <- app_assoc.
Qed.

Lemma move_end i (l1 : list (option (list Z))) b : length l1 = i -> rename_up true i (l1 ++ [Some b]) = l1 ++ [None; Some b].
Proof.
  intros <-. unfold rename_up. rewrite backup_middle, put_middle.
  replace (S (length l1)) with (length (l1 ++ [@None (list Z)])) by (rewrite length_app; cbn; lia). by rewrite put_end, <- app_assoc.
Qed.

Lemma shift_all ok i : (forall j, ok j = true) -> forall pre x suf, length pre = i ->
  shift_backups ok i ((Some <$> pre) ++ x :: suf) = match i with O => x :: suf | _ => None :: (Some <$> pre) ++ suf end.
Proof.
  intros Hok. induction i as [|i IH]; intros pre x suf Hl; [by destruct pre|]. cbn [shift_backups].
  destruct (exists_last (l:=pre)) as (pre' & b & ->); [by destruct pre|]. rewrite length_app in Hl. cbn in Hl.
  assert (Hi : length (Some <$> pre') = i) by (rewrite length_fmap; lia). rewrite fmap_app, <- app_assoc. cbn [fmap list_fmap app].
  rewrite Hok, move_middle, IH by (done || lia). destruct i; [by destruct pre'|by rewrite ?fmap_app, <- ?app_assoc].
Qed.

Lemma shift_short ok i n (bs : list (option (list Z))) : (length bs <= i)%nat -> (i <= n)%nat -> shift_backups ok n bs = shift_backups ok i bs.
Proof.
  intros Hl Hn. induction n as [|n IH]; [by replace i with O by lia|]. destruct (decide (i = S n)) as [->|]; [done|]. cbn [shift_backups].
  assert (Hb : backup bs n = None) by (unfold backup; by rewrite lookup_ge_None_2 by lia). unfold rename_up. rewrite Hb. apply IH. lia.
Qed.

(** When no renaming fails: the backups move up, the active file becomes the first, the one at the
    limit is lost and those beyond it stay. *)
Lemma rotated_all ok n active (bs : list (list Z)) : (forall j, ok j = true) ->
  put_backup (shift_backups ok n (Some <$> bs)) 0 (Some active) = Some <$> (active :: take n bs ++ drop (S n) bs).
Proof.
  intros Hok.
  assert (Hput : forall x suf, put_backup (x :: suf) 0 (Some active) = Some active :: suf) by done.
  destruct (Nat.lt_ge_cases n (length bs)) as [Hn|Hn].
  - destruct (lookup_lt_is_Some_2 bs n Hn) as [x Hx]. rewrite <- (take_drop_middle _ _ _ Hx) at 1. rewrite fmap_app. cbn [fmap list_fmap].
    rewrite (shift_all ok n Hok) by (rewrite length_take; lia). cbn [fmap list_fmap]. rewrite fmap_app. by destruct n; rewrite Hput.
  - rewrite (shift_short ok (length bs) n) by (rewrite ?length_fmap; lia). rewrite take_ge, drop_ge by lia. rewrite app_nil_r.
    destruct (decide (bs = [])) as [->|Hne]; [done|]. destruct (exists_last Hne) as (pre & b & ->).
    rewrite length_app. cbn [length]. rewrite Nat.add_1_r. cbn [shift_backups]. rewrite fmap_app. cbn [fmap list_fmap].
    rewrite Hok, move_end by (by rewrite length_fmap).
    rewrite (shift_all ok _ Hok) by done. destruct pre as [|y pre]; cbn [length]; rewrite Hput; [done|]. cbn [fmap list_fmap app]. by rewrite fmap_app.
Qed.

Lemma concat_rev_split {A} n (l : list (list A)) :
  concat (rev l) = concat (rev (drop n l)) ++ concat (rev (take n l)).
Proof. by rewrite <- concat_app, <- rev_app_distr, take_drop. Qed.

Lemma rotate_inv ro st ms ws c dropped bgs active : (forall i, ro_rename ro i = true) ->
  log_inv st ms ws c [] dropped bgs active ->
  exists dropped' bgs' active', log_inv (rotateIfNeededLocked ro st).1 ms ws c [] dropped' bgs' active'.
Proof using Hconf.
  intros Hro Hli. unfold rotateIfNeededLocked. destruct (negb _); [eauto|].
  destruct (Z.ltb_spec (Z.of_nat (length (js_active st))) (js_maxBytes st)) as [|Hge]; [eauto|].
  destruct (ro_close ro); cbn [negb].
  2: { exists dropped, bgs, active. by destruct Hli. }
  destruct Hli as [Hs Ho Hw Hg Hd Hb Ha _ HmB Hmb Hc]. rewrite app_nil_r in Ha. rewrite Hro.
  assert (Hne : active <> []).
  { intros ->. rewrite Ha in Hge. cbn in Hge. destruct Hconf. lia. }
  assert (Hpos : (0 < maxBackups)%nat) by apply Hconf.
  exists (dropped ++ concat (rev (drop maxBackups (active :: bgs)))), (take maxBackups (active :: bgs)), [].
  split; try done.
  - rewrite app_nil_r, <- app_assoc, <- concat_rev_split. cbn [rev].
    rewrite concat_app. cbn. by rewrite app_nil_r.
  - apply Forall_take. by constructor.
  - intros Ht. by destruct maxBackups; [lia|].
  - cbn [fst js_backups]. rewrite Hmb, Hb, Ha, rotated_all, (drop_ge _ (S _)) by (done || rewrite length_fmap; lia). rewrite app_nil_r.
    f_equal. destruct maxBackups as [|mb]; [lia|]. cbn [take Nat.sub fmap list_fmap]. rewrite Nat.sub_0_r. f_equal. symmetry. apply fmap_take.
  - by left.
  - rewrite length_take. lia.
Qed.

(** Appending the bytes of a new entry, whole or cut. *)
Lemma write_inv st ms ws c dropped bgs active m h o st' r :
  log_inv st ms ws c [] dropped bgs active -> ic_ok c -> event_map m ->
  sa_sequence (ic_alloc c) < max_int64 -> hash_next hmac c (marshal (JObject m)) = Ok h ->
  ws <> [] \/ origin_ok m ->
  let w := wrapped_entry m (next_meta c h) in
  cut_ok o w -> renames_ok o -> WriteRaw st o w = (st', r) ->
  exists tail dropped' bgs' active',
    (log_inv st' ms ws c tail dropped' bgs' active' /\ r <> Ok tt /\
     (r = Err WCleanFailure -> tail = [])) \/
    (log_inv st' (ms ++ [m]) (ws ++ [w]) (advanced c h) tail dropped' bgs' active' /\ tail = [] /\
     r <> Err WCleanFailure).
Proof using All.
  intros Hli Hok Hm Hlt Hh Hor w Hcut Hro Hwr.
  destruct (rotate_inv (oc_rotation o) _ _ _ _ _ _ _ Hro Hli) as (dr & bg & ac & Hli1).
  unfold WriteRaw in Hwr. fold (line w) in Hwr. destruct (rotateIfNeededLocked (oc_rotation o) st) as [s1 rotated]. cbn [fst] in Hli1.
  destruct rotated; cbn [negb] in Hwr.
  2: { injection Hwr as <- <-. exists [], dr, bg, ac. by left. }
  destruct Hli1 as [Hs Ho Hw Hg Hd Hb Ha _ HmB Hmb Hct].
  assert (Hmeta : meta_ok (next_meta c h)) by (by eapply (next_meta_ok hmac)).
  assert (Hwhole : log_inv (mkStore (js_active s1 ++ line w) (js_backups s1) (js_maxBytes s1) (js_maxBackups s1) (js_open s1))
                     (ms ++ [m]) (ws ++ [w]) (advanced c h) [] dr bg (ac ++ [w])).
  { split; try done.
    - by apply signed_snoc.
    - intros m' Hm'. destruct ms as [|m0 ms]; [|by apply Ho]. injection Hm' as <-.
      destruct Hor as [Hne|]; [|done]. by inversion Hs; subst.
    - rewrite Hw, !app_assoc. done.
    - cbn [js_active]. rewrite Ha, fmap_app, concat_app. cbn. by rewrite !app_nil_r.
    - by left. }
  unfold cut_ok in Hcut. destruct (oc_write o) as [| |n].
  - injection Hwr as <- <-. exists [], dr, bg, (ac ++ [w]). right. done.
  - injection Hwr as <- <-. exists [], dr, bg, ac. left. split; [|done]. split; try done. by left.
  - injection Hwr as <- <-.
    destruct (decide (S (length w) <= n)%nat) as [Hfull|Hpart].
    + exists [], dr, bg, (ac ++ [w]). right.
      rewrite take_ge by (unfold line; rewrite length_app; cbn [length]; lia). done.
    + assert (Hlen : (n < length w)%nat) by lia.
      exists (take n w), dr, bg, ac. left. split; [|done]. split; try done.
      * cbn [js_active]. rewrite Ha, app_nil_r. f_equal. unfold line. by rewrite take_app_le by lia.
      * destruct (decide (n = 0%nat)) as [->|Hn0]; [by left|right].
        apply (torn_cut m (next_meta c h) (take n w) (drop n w)); [apply Hm|done| |..].
        -- by rewrite take_drop.
        -- intros Hx. apply (f_equal length) in Hx. rewrite length_drop in Hx. cbn [length] in Hx. lia.
        -- intros Hx. apply (f_equal length) in Hx. rewrite length_take in Hx. cbn [length] in Hx. lia.
Qed.

(** *** The whole state *)

(** A head the chain has had: the state after a non-empty part of the entries. *)
Definition head_of (ws : list (list Z)) (c : IntegrityChain) (st : ChainState) : Prop :=
  exists ms1 ws1 ms2 ws2 c1, ws = ws1 ++ ws2 /\ ws1 <> [] /\ signed hmac c0 ms1 ws1 c1 /\
    signed hmac c1 ms2 ws2 c /\ st = IntegrityChain_State c1.

Lemma head_of_grows ws c m h st :
  event_map m -> sa_sequence (ic_alloc c) < max_int64 ->
  hash_next hmac c (marshal (JObject m)) = Ok h -> head_of ws c st ->
  head_of (ws ++ [wrapped_entry m (next_meta c h)]) (advanced c h) st.
Proof.
  intros Hm Hlt Hh (ms1 & ws1 & ms2 & ws2 & c1 & -> & ? & ? & ? & ?).
  exists ms1, ws1, (ms2 ++ [m]), (ws2 ++ [wrapped_entry m (next_meta c h)]), c1.
  rewrite app_assoc. split_and!; try done. by apply signed_snoc.
Qed.

Record state_inv (s : IntegrityStore) (d : Disk) (snap : option ChainState)
  (ms : list (list (string * json))) (ws : list (list Z)) (c : IntegrityChain) (tail : list Z) : Prop := {
  si_log : exists dropped bgs active, log_inv (d_log d) ms ws c tail dropped bgs active;
  si_fingerprint : is_keyFingerprint s = is_keyFingerprint s0;
  si_live : is_fatal s = false -> is_chain s = c /\ tail = [];
  si_nonempty : ws <> [];
  si_sidecar : exists st, head_of ws c st /\
    d_sidecar d = sidecar_for now s0 (cs_Sequence st) (cs_PrevHash st);
  si_snapshot : forall st, snap = Some st -> head_of ws c st
}.

Lemma signed_genesis_ok ms ws c : signed hmac c0 ms ws c -> ic_ok c.
Proof using All. intros Hs. eapply signed_ok; [done|exact Hs|]. apply Hconf. Qed.

Lemma sidecar_for_fingerprint s seq h :
  is_keyFingerprint s = is_keyFingerprint s0 -> sidecar_for now s seq h = sidecar_for now s0 seq h.
Proof. unfold sidecar_for. by intros ->. Qed.

Lemma start_inv s d :
  bootstrap hmac now timestamp s0 empty_disk all_ok = (s, d, Ok tt) ->
  exists ms ws c, state_inv s d None ms ws c [] .
Proof using All.
  destruct Hconf as [Hok [Hseq Hprev] Hlive Hts Hfp Hfpne HmB Hmb]. unfold bootstrap.
  change (d_sidecar empty_disk) with SidecarMissing. cbn [ReadSidecar].
  change (DiscoverRotationSet (d_log empty_disk)) with (Some [mkLogFile false (Some [])]). cbv beta iota zeta.
  change (ReadLastNonEmptyLine [mkLogFile false (Some [])]) with (@None (nat * list Z)).
  unfold bootstrapWithoutSidecar, appendRotationBoundary. intros Hb.
  set (m := boundary_map timestamp "initial" "initial chain creation" (is_keyFingerprint s0)).
  assert (Hp : parseIntegrityPayloadUseNumber (marshal (rotation_event timestamp "initial"
    "initial chain creation" (is_keyFingerprint s0) None)) = Ok (Some m))
    by (by apply parse_rotation_event).
  assert (Hlt : sa_sequence (ic_alloc c0) < max_int64) by (rewrite Hseq; unfold max_int64; lia).
  destruct (Wrap_object hmac c0 _ m Hok Hp Hlt) as (h & Hh & Hw). rewrite Hw in Hb.
  assert (Hm : event_map m) by (by apply boundary_event_map).
  assert (Hli : log_inv (d_log empty_disk) [] [] c0 [] [] [] []).
  { split; try done; [constructor|by left|cbn [length]; lia]. }
  destruct (WriteRaw (d_log empty_disk) all_ok _) as [log' r] eqn:Ewr.
  destruct (write_inv _ _ _ _ _ _ _ m h all_ok log' r Hli) as (tail & dr & bg & ac & Hcase); try done.
  { right. by apply boundary_origin. }
  assert (r = Ok tt) as ->.
  { unfold WriteRaw, rotateIfNeededLocked in Ewr. cbn [d_log empty_disk js_open js_active js_maxBytes oc_rotation all_ok ro_stat andb negb length Z.of_nat] in Ewr. rewrite (proj2 (Z.ltb_lt (Z.of_nat 0) maxBytes)) in Ewr by done. by injection Ewr as <- <-. }
  destruct Hcase as [(_ & ? & _)|(Hli' & -> & _)]; [done|].
  injection Hb as <- <-. exists [m], [wrapped_entry m (next_meta c0 h)], (advanced c0 h).
  split; try done; cbn [d_log d_sidecar].
  - by eexists _, _, _.
  - exists (IntegrityChain_State (advanced c0 h)). split; [|done].
    exists [m], [wrapped_entry m (next_meta c0 h)], [], [], (advanced c0 h).
    split_and!; try done; [|constructor]. econstructor; [done..|]. constructor.
Qed.

(** A failed clean write leaves the chain as it was. *)
Lemma rollback c h :
  ic_ok c -> IntegrityChain_Restore (advanced c h) (cs_Sequence (IntegrityChain_State c))
    (cs_PrevHash (IntegrityChain_State c)) = (c, Ok tt).
Proof.
  intros [Hs Hg Hcg Hl Hp _]. destruct c as [[sq g] [id key alg gen prev fatal]]. cbn in *. subst.
  unfold IntegrityChain_Restore, SequenceAllocator_Restore, SinkChain_Restore. cbn.
  rewrite (proj2 (Z.ltb_ge sq (-1))) by lia. by rewrite Hp.
Qed.

Lemma Wrap_exhausted c payload m :
  parseIntegrityPayloadUseNumber payload = Ok (Some m) -> sa_sequence (ic_alloc c) = max_int64 ->
  Wrap hmac c payload = (c, Err ErrSequenceOverflow).
Proof.
  intros Hp Hs. unfold Wrap. rewrite Hp. unfold Next. rewrite (proj2 (Z.eqb_eq _ _) Hs).
  by destruct c.
Qed.

Lemma append_inv s d snap ms ws c tail o payload m s' d' r :
  state_inv s d snap ms ws c tail -> parseIntegrityPayloadUseNumber payload = Ok (Some m) ->
  obj_get "integrity" m = None ->
  (forall wrapped, (Wrap hmac (is_chain s) payload).2 = Ok wrapped -> cut_ok o wrapped) -> renames_ok o ->
  AppendEvent hmac s d o payload = (s', d', r) ->
  exists ms' ws' c' tail', state_inv s' d' snap ms' ws' c' tail'.
Proof using All.
  intros [(dr & bg & ac & Hli) Hfp Hlv Hne (sc & Hsc & Hscd) Hsnap] Hp Hi Hcut Hro Ha.
  unfold AppendEvent in Ha. destruct (is_fatal s) eqn:Ef.
  { injection Ha as <- <- <-. exists ms, ws, c, tail. split; eauto. }
  destruct (Hlv eq_refl) as [Hc ->]. rewrite Hc in *.
  assert (Hok : ic_ok c) by (eapply signed_genesis_ok, li_signed, Hli).
  assert (Hm : event_map m) by (split; [by eapply parse_payload_ok|done]).
  destruct (Z.eq_dec (sa_sequence (ic_alloc c)) max_int64) as [Emax|Emax].
  { rewrite (Wrap_exhausted c payload m Hp Emax) in Ha. injection Ha as <- <- <-.
    exists ms, ws, c, []. split; eauto; try done. }
  assert (Hlt : sa_sequence (ic_alloc c) < max_int64) by (destruct Hok; lia).
  destruct (Wrap_object hmac c payload m Hok Hp Hlt) as (h & Hh & Hw). rewrite Hw in Ha.
  set (w := wrapped_entry m (next_meta c h)) in *.
  assert (Hcw : cut_ok o w) by (apply Hcut; by rewrite Hw).
  destruct (WriteRaw (d_log d) o w) as [log' rw] eqn:Ewr.
  destruct (write_inv _ _ _ _ _ _ _ m h o log' rw Hli Hok Hm Hlt Hh (or_introl Hne) Hcw Hro Ewr)
    as (tail & dr' & bg' & ac' & [(Hli' & Hr & Htl)|(Hli' & -> & Hr)]).
  - destruct rw as [[]|[|]]; [done|..].
    + rewrite rollback in Ha by done. injection Ha as <- <- <-.
      exists ms, ws, c, []. split; cbn; eauto; try done.
      rewrite (Htl eq_refl) in Hli'. eauto.
    + injection Ha as <- <- <-. exists ms, ws, c, tail. split; cbn; eauto. done.
  - exists (ms ++ [m]), (ws ++ [w]), (advanced c h), [].
    assert (Hlast : ws ++ [w] <> []) by (by destruct ws).
    destruct rw as [[]|[|]]; [|done|]; injection Ha as <- <- <-.
    + split; cbn; eauto; [|intros; by apply head_of_grows, Hsnap].
      exists sc. split; [by apply head_of_grows|done].
    + split; cbn; eauto; [|intros; by apply head_of_grows, Hsnap].
      exists sc. split; [by apply head_of_grows|done].
Qed.

Lemma history_inv s d snap :
  history s d snap -> exists ms ws c tail, state_inv s d snap ms ws c tail.
Proof using All.
  induction 1 as [s d Hb|s d snap o payload m s' d' r _ IH Hp Hi Hcut Hro Ha
                  |s d snap s' _ IH Hf|s d st b1 b2 s' d' r _ IH Hf].
  - destruct (start_inv _ _ Hb) as (ms & ws & c & Hinv). eauto.
  - destruct IH as (ms & ws & c & tail & Hinv). by eapply append_inv.
  - destruct IH as (ms & ws & c & tail & [Hlog Hfp Hlv Hne Hsc Hsnap]). exists ms, ws, c, tail.
    unfold FlushSync_snapshot in Hf. destruct (_ || _) eqn:E; injection Hf as <- <-.
    { by split. }
    apply orb_false_iff in E as [_ E]. destruct (Hlv E) as [Hc ->]. split; try done.
    intros st [= <-]. destruct Hlog as (dr & bg & ac & Hli).
    exists ms, ws, [], [], c. rewrite app_nil_r. split_and!; [done..| | |by rewrite Hc].
    + apply Hli.
    + constructor.
  - destruct IH as (ms & ws & c & tail & [Hlog Hfp Hlv Hne Hsc Hsnap]). exists ms, ws, c, tail.
    unfold FlushSync_write in Hf. destruct b1; [destruct b2|]; cbn in Hf; injection Hf as <- <- <-;
      split; cbn; try done.
    exists st. split; [by apply Hsnap|]. by apply sidecar_for_fingerprint.
Qed.

(** *** The log validates *)

Lemma log_inv_validates st ms ws c tail dropped bgs active :
  log_inv st ms ws c tail dropped bgs active ->
  validateVisibleChain hmac c0 (log_of (rev bgs) active tail) = Ok tt.
Proof using All.
  intros Hli. unfold validateVisibleChain.
  destruct Hli as [Hs Ho Hw Hg Hd _ _ Ht _ _]. rewrite Hw in Hs.
  apply signed_app_inv in Hs as (ms1 & ms2 & cm & -> & Hs1 & Hs2).
  assert (Hcm : ic_ok cm) by (by eapply signed_genesis_ok).
  assert (Hk : same_key c0 cm) by (destruct (signed_identity _ _ _ _ _ Hs1) as (_ & ? & ?); done).
  destruct Hconf as [_ [Hseq Hprev] _ _ _ _ _ _].
  assert (Hb : begins (bool_decide (dropped <> [])) visible_start cm ms2).
  { right. split; [done|]. destruct dropped as [|x dropped].
    - inversion Hs1; subst. left. split; [done|]. done.
    - right. split; [done|]. apply signed_sequence in Hs1. rewrite Hs1, Hseq. simpl. lia. }
  destruct (validate_log hmac c0 visible_start cm ms2 (rev bgs) active tail c) as [state' ->]; try done.
  destruct (rev bgs) as [|g gs] eqn:Eb.
  - assert (bgs = []) as -> by (by rewrite <- (rev_involutive bgs), Eb).
    rewrite (Hd eq_refl) in Hb. exact Hb.
  - assert (g <> []).
    { rewrite Forall_forall in Hg. apply Hg, list_elem_of_In, in_rev. rewrite Eb. by left. }
    rewrite bool_decide_eq_true_2 by done.
    destruct Hb as [Hb|[Hb [Hx|[_ Hx]]]]; [by left|right; split; [done|by left]|].
    right. split; [done|by right].
Qed.

(** *** Recovery *)

Definition total (ws : list (list Z)) : Z := Z.of_nat (length (concat (line <$> ws))).

Lemma total_cons w ws : total (w :: ws) = Z.of_nat (length (line w)) + total ws.
Proof. unfold total. rewrite fmap_cons. cbn [concat]. rewrite length_app. lia. Qed.

(** Entries the sidecar already covers are skipped. *)
Lemma recover_skip v sc c ms ws c' lv n es ep rest :
  signed hmac c ms ws c' -> ic_ok c -> sa_sequence (ic_alloc c') <= sc ->
  recover_walk hmac v sc (mkWalk lv n n es ep) ((line <$> ws) ++ rest) =
  recover_walk hmac v sc (mkWalk lv (n + total ws) (n + total ws) es ep) rest.
Proof using All.
  intros Hs. revert n. induction Hs as [c|c m ms h ws c' Hm Hlt Hh Hs IH]; intros n Hok Hle.
  { unfold total. cbn. by rewrite Z.add_0_r. }
  assert (Hmeta : meta_ok (next_meta c h)) by (by eapply (next_meta_ok hmac)).
  rewrite fmap_cons, total_cons. cbn [app recover_walk].
  assert (TrimSpace (line (wrapped_entry m (next_meta c h))) = wrapped_entry m (next_meta c h)) as ->
    by apply TrimSpace_line, wrapped_entry_braced.
  assert (nonempty (wrapped_entry m (next_meta c h)) = true) as ->
    by (destruct (wrapped_entry_braced m (next_meta c h)) as [mid ->]; done). cbn [negb].
  rewrite ParseIntegrityEntry_wrapped by done. cbn [mbind option_bind pe_Integrity im_Sequence next_meta].
  pose proof (signed_sequence _ _ _ _ _ Hs) as Hq. cbn in Hq.
  rewrite (proj2 (Z.leb_le _ sc)) by lia. cbn [wk_lastVerified wk_current wk_expectedSeq wk_expectedPrev].
  rewrite IH; [|by eapply (advanced_ok hmac)|done]. by rewrite Z.add_assoc.
Qed.

(** Entries beyond it are verified link by link. *)
Lemma recover_extend v sc c ms ws c' lv n :
  signed hmac c ms ws c' -> ic_ok c -> same_key v c -> sc <= sa_sequence (ic_alloc c) ->
  exists lv', (ws = [] -> lv' = lv) /\
    (ws <> [] -> exists meta, lv' = Some meta /\ im_Sequence meta = sa_sequence (ic_alloc c') /\
                              im_EntryHash meta = sc_prevHash (ic_chain c')) /\
    forall rest,
      recover_walk hmac v sc
        (mkWalk lv n n (wrap_int64 (sa_sequence (ic_alloc c) + 1)) (sc_prevHash (ic_chain c)))
        ((line <$> ws) ++ rest) =
      recover_walk hmac v sc
        (mkWalk lv' (n + total ws) (n + total ws) (wrap_int64 (sa_sequence (ic_alloc c') + 1))
           (sc_prevHash (ic_chain c'))) rest.
Proof using All.
  intros Hs. revert n lv. induction Hs as [c|c m ms h ws c' Hm Hlt Hh Hs IH]; intros n lv Hok Hk Hle.
  { exists lv. split_and!; [done..|]. intros rest. unfold total. cbn. by rewrite Z.add_0_r. }
  assert (Hmeta : meta_ok (next_meta c h)) by (by eapply (next_meta_ok hmac)).
  assert (Hok1 : ic_ok (advanced c h)) by (by eapply (advanced_ok hmac)).
  destruct (IH (n + Z.of_nat (length (line (wrapped_entry m (next_meta c h))))) (Some (next_meta c h)))
    as (lv' & Hnil & Hcons & Hl); [done|done|cbn; lia|].
  exists lv'. split; [done|]. split.
  - intros _. destruct (decide (ws = [])) as [->|Hne]; [|by apply Hcons].
    rewrite (Hnil eq_refl). inversion Hs; subst. by eexists.
  - intros rest. rewrite fmap_cons, total_cons. cbn [app recover_walk].
    assert (TrimSpace (line (wrapped_entry m (next_meta c h))) = wrapped_entry m (next_meta c h)) as ->
      by apply TrimSpace_line, wrapped_entry_braced.
    assert (nonempty (wrapped_entry m (next_meta c h)) = true) as ->
      by (destruct (wrapped_entry_braced m (next_meta c h)) as [mid ->]; done). cbn [negb].
    rewrite ParseIntegrityEntry_wrapped by done.
    cbn [mbind option_bind pe_Integrity pe_CanonicalPayload].
    change (im_Sequence (next_meta c h)) with (sa_sequence (ic_alloc c) + 1).
    change (im_PrevHash (next_meta c h)) with (sc_prevHash (ic_chain c)).
    change (im_EntryHash (next_meta c h)) with h.
    rewrite (proj2 (Z.leb_gt _ sc)) by lia.
    cbn [wk_lastVerified wk_lastGood wk_current wk_expectedSeq wk_expectedPrev].
    assert (-1 <= sa_sequence (ic_alloc c)) by apply Hok.
    rewrite (wrap_int64_id (sa_sequence (ic_alloc c) + 1))
      by (unfold int64_range, min_int64; unfold max_int64 in *; lia).
    rewrite Z.eqb_refl, bool_decide_eq_true_2 by done. cbn [negb orb].
    rewrite verify_entry_wrapped, at_eof_line by done.
    specialize (Hl rest). cbn [sa_sequence ic_alloc advanced ic_chain sc_prevHash] in Hl.
    rewrite Z.add_assoc. exact Hl.
Qed.

Lemma recover_tail v sc w tail :
  tail = [] \/ torn tail ->
  recover_walk hmac v sc w (ReadBytes_all tail) =
    Ok (w, if nonempty tail then Some (wk_lastGood w) else None).
Proof.
  intros [->|Ht]; [done|]. pose proof (torn_nonempty _ Ht) as Hne.
  destruct Ht as (Hnl & Hn & e & He). rewrite ReadBytes_all_tail by done. cbn [recover_walk].
  rewrite Hn, He. by destruct tail.
Qed.

(** *** Start-up on what a crash left *)

Lemma signed_last c ms ws c' :
  signed hmac c ms ws c' -> ws <> [] ->
  exists cp m h ms0 ws0, ws = ws0 ++ [wrapped_entry m (next_meta cp h)] /\ signed hmac c ms0 ws0 cp /\
    c' = advanced cp h /\ event_map m /\ sa_sequence (ic_alloc cp) < max_int64 /\
    hash_next hmac cp (marshal (JObject m)) = Ok h.
Proof.
  induction 1 as [|c m ms h ws c' Hm Hlt Hh Hs IH]; [done|]. intros _.
  destruct ws as [|w ws].
  - inversion Hs; subst. exists c, m, h, [], []. split_and!; try done. constructor.
  - destruct IH as (cp & m' & h' & ms0 & ws0 & -> & Hs0 & Hrest); [done|].
    exists cp, m', h', (m :: ms0), (wrapped_entry m (next_meta c h) :: ws0).
    split; [done|]. split; [by econstructor|done].
Qed.

Lemma signed_head ms ws c :
  signed hmac c0 ms ws c -> ws <> [] ->
  0 <= sa_sequence (ic_alloc c) /\ sc_prevHash (ic_chain c) <> "" /\
  hex_decodable (sc_prevHash (ic_chain c)) = true.
Proof using All.
  intros Hs Hne. pose proof (signed_sequence _ _ _ _ _ Hs) as Hq.
  destruct Hconf as [_ [Hseq _] _ _ _ _ _ _]. split; [destruct ws; [done|]; rewrite Hq, Hseq; simpl; lia|].
  destruct (signed_last _ _ _ _ Hs Hne) as (cp & m & h & ms0 & ws0 & _ & _ & -> & _ & _ & Hh).
  unfold hash_next in Hh. by apply computeIntegrityHash_hex in Hh as (? & ? & _).
Qed.

Lemma read_sidecar_for seq h :
  0 <= seq -> h <> "" -> hex_decodable h = true ->
  exists at_, ReadSidecar (sidecar_for now s0 seq h) =
    Ok (mkSidecar IntegrityFormatVersion seq h (is_keyFingerprint s0) at_).
Proof using Hconf.
  intros Hseq Hne Hh. destruct Hconf as [_ _ _ _ _ Hfp _ _]. unfold sidecar_for, WriteSidecar, ReadSidecar.
  cbn [sd_UpdatedAt sd_Sequence sd_PrevHash sd_KeyFingerprint disk_fields dk_FormatVersion dk_Sequence
       dk_PrevHash dk_KeyFingerprint dk_UpdatedAt].
  change (IntegrityFormatVersion <=? 0) with false. cbv iota.
  rewrite bool_decide_eq_false_2 by done. eexists. cbn [rbind sd_FormatVersion sd_Sequence sd_PrevHash].
  rewrite Z.ltb_irrefl. rewrite (proj2 (Z.ltb_ge seq (-1))), (proj2 (Z.ltb_ge seq 0)) by lia.
  rewrite (bool_decide_eq_false_2 (h = "")) by done. rewrite Hh, andb_false_r. reflexivity.
Qed.

(** Restoring the fresh chain to a head of its own history gives that chain. *)
Lemma restore_head ms ws c :
  signed hmac c0 ms ws c ->
  IntegrityChain_Restore c0 (sa_sequence (ic_alloc c)) (sc_prevHash (ic_chain c)) = (c, Ok tt).
Proof using All.
  intros Hs. pose proof (signed_identity _ _ _ _ _ Hs) as (Hid & Hk & Ha).
  destruct (signed_genesis_ok _ _ _ Hs) as [Hseq Hg Hcg Hl Hp _].
  unfold IntegrityChain_Restore, SequenceAllocator_Restore. cbn [as_Sequence as_Generation].
  rewrite (proj2 (Z.ltb_ge _ (-1))) by lia. unfold SinkChain_Restore.
  rewrite Ha in Hp. rewrite Hp, <- Hid, <- Hk, <- Ha.
  destruct c as [[sq g] [id key alg gen prev fatal]]. cbn in *. by subst.
Qed.

Lemma trimmed_lines ws :
  Forall (fun w => braced w /\ newline ∉ w) ws ->
  List.filter nonempty (TrimSpace <$> (line <$> ws)) = ws.
Proof.
  induction 1 as [|w ws [Hb _] _ IH]; [done|]. rewrite !fmap_cons. cbn [List.filter].
  unfold line at 1 2. rewrite TrimSpace_line by done.
  assert (nonempty w = true) as -> by (destruct Hb as [mid ->]; done). by rewrite IH.
Qed.

Lemma last_line_log ws tail :
  Forall (fun w => braced w /\ newline ∉ w) ws -> tail = [] \/ torn tail ->
  last_line (concat (line <$> ws) ++ tail) =
    (if nonempty tail then Some (TrimSpace tail) else last ws).
Proof.
  intros Hws Ht. unfold last_line.
  rewrite ReadBytes_all_lines by (eapply Forall_impl; [exact Hws|]; by intros w [_ ?]).
  rewrite fmap_app, List.filter_app, trimmed_lines by done.
  destruct Ht as [->|Ht]; [cbn; by rewrite app_nil_r|]. pose proof (torn_nonempty _ Ht) as Hne.
  destruct Ht as (Hnl & Hn & _). rewrite ReadBytes_all_tail by done. cbn [fmap list_fmap List.filter].
  rewrite Hn, last_snoc. by destruct tail.
Qed.

Lemma lastLineChunk_pos : (0 < lastLineChunk)%nat.
Proof. apply Nat.ltb_lt. vm_compute. reflexivity. Qed.

Lemma last_line_single_file st :
  js_backups st = [] ->
  DiscoverRotationSet st = Some [mkLogFile false (Some (js_active st))] /\
  ReadLastNonEmptyLine [mkLogFile false (Some (js_active st))] = (fun l => (0%nat, l)) <$> last_line (js_active st).
Proof.
  intros Hb. split; [unfold DiscoverRotationSet; by rewrite Hb|]. unfold ReadLastNonEmptyLine. cbn [rev app length].
  cbn [ReadLastNonEmptyLine_from lf_content mbind option_bind pred].
  rewrite readLast_reference by apply lastLineChunk_pos. by destruct (last_line _).
Qed.

(** The log of a store that has not rotated, cut to its complete lines. *)
Definition whole_log (op : bool) (ws : list (list Z)) : Store :=
  mkStore (concat (line <$> ws)) [] maxBytes maxBackups op.

Lemma file_content_single a mb mk op : file_content (mkStore a [] mb mk op) 0 = a.
Proof. reflexivity. Qed.

(** The walk over a log whose sidecar names the head [c1] of its first part. *)
Lemma recover_walk_gap ms1 ws1 c1 ms2 ws2 c tail :
  signed hmac c0 ms1 ws1 c1 -> signed hmac c1 ms2 ws2 c -> tail = [] \/ torn tail ->
  exists lv, (ws2 = [] -> lv = None) /\
    (ws2 <> [] -> exists meta, lv = Some meta /\ im_Sequence meta = sa_sequence (ic_alloc c) /\
                               im_EntryHash meta = sc_prevHash (ic_chain c)) /\
    recover_walk hmac c0 (sa_sequence (ic_alloc c1))
      (mkWalk None 0 0 (wrap_int64 (sa_sequence (ic_alloc c1) + 1)) (sc_prevHash (ic_chain c1)))
      (ReadBytes_all (concat (line <$> (ws1 ++ ws2)) ++ tail)) =
    Ok (mkWalk lv (0 + total ws1 + total ws2) (0 + total ws1 + total ws2) (wrap_int64 (sa_sequence (ic_alloc c) + 1))
          (sc_prevHash (ic_chain c)), if nonempty tail then Some (0 + total ws1 + total ws2) else None).
Proof using All.
  intros Hs1 Hs2 Ht. assert (Hok1 : ic_ok c1) by (by eapply signed_genesis_ok).
  assert (Hk1 : same_key c0 c1) by (destruct (signed_identity _ _ _ _ _ Hs1) as (_ & ? & ?); done).
  assert (Hall : Forall (fun w => newline ∉ w) (ws1 ++ ws2)).
  { pose proof (signed_lines hmac _ _ _ _ Hs1 (co_chain Hconf)) as H1.
    pose proof (signed_lines hmac _ _ _ _ Hs2 Hok1) as H2.
    eapply Forall_impl; [by apply Forall_app_2; [exact H1|exact H2]|]. by intros w [_ ?]. }
  destruct (recover_extend c0 (sa_sequence (ic_alloc c1)) c1 ms2 ws2 c None (0 + total ws1))
    as (lv & Hnil & Hcons & Hl); [done..|lia|].
  exists lv. split; [done|]. split; [done|].
  rewrite ReadBytes_all_lines by done. rewrite fmap_app, <- app_assoc.
  rewrite (recover_skip _ _ _ _ _ _ _ _ _ _ _ Hs1); [|apply Hconf|lia].
  by rewrite Hl, recover_tail by done.
Qed.

(** Cutting a torn line off. *)
Lemma cut_whole ws1 ws2 t op :
  match (if nonempty t then Some (0 + total ws1 + total ws2) else None) with
  | Some size => truncate_log (mkStore (concat (line <$> ws1 ++ ws2) ++ t) [] maxBytes maxBackups op) 0 size
  | None => mkStore (concat (line <$> ws1 ++ ws2) ++ t) [] maxBytes maxBackups op
  end = whole_log op (ws1 ++ ws2).
Proof using.
  unfold whole_log. destruct t as [|b t]; cbn [nonempty]; [by rewrite app_nil_r|].
  unfold truncate_log. cbn [js_backups length Nat.eqb js_active js_maxBytes js_maxBackups js_open]. f_equal.
  rewrite fmap_app, concat_app. unfold total.
  rewrite Z.add_0_l, <- Nat2Z.inj_add, <- length_app, Nat2Z.id. apply take_app_length.
Qed.

Lemma recover_gap d ms1 ws1 c1 ms2 ws2 c tail sc op :
  signed hmac c0 ms1 ws1 c1 -> signed hmac c1 ms2 ws2 c -> tail = [] \/ torn tail ->
  d_log d = mkStore (concat (line <$> (ws1 ++ ws2)) ++ tail) [] maxBytes maxBackups op ->
  sd_Sequence sc = sa_sequence (ic_alloc c1) -> sd_PrevHash sc = sc_prevHash (ic_chain c1) ->
  recoverFromSidecarGap hmac now s0 d sc 0 =
    if bool_decide (ws2 = []) then (s0, mkDiskState (whole_log op (ws1 ++ ws2)) (d_sidecar d), Ok false)
    else (set_chain s0 c,
          mkDiskState (whole_log op (ws1 ++ ws2))
            (sidecar_for now s0 (sa_sequence (ic_alloc c)) (sc_prevHash (ic_chain c))), Ok true).
Proof using All.
  intros Hs1 Hs2 Ht Hlog Hsq Hph. unfold recoverFromSidecarGap. rewrite Hlog, file_content_single, Hsq, Hph.
  destruct (recover_walk_gap ms1 ws1 c1 ms2 ws2 c tail Hs1 Hs2 Ht) as (lv & Hnil & Hcons & ->).
  rewrite cut_whole. case_bool_decide as Hn; cbn [wk_lastVerified]; [by rewrite (Hnil Hn)|].
  destruct (Hcons Hn) as (meta & -> & Hms & Hme). rewrite Hms, Hme.
  rewrite (restore_head (ms1 ++ ms2) (ws1 ++ ws2) c); [done|].
  clear -Hs1 Hs2. induction Hs1; [done|]. cbn [app]. econstructor; eauto.
Qed.

(** *** Start-up after a crash *)

Lemma single_file st ms ws c tail dropped bgs active :
  log_inv st ms ws c tail dropped bgs active -> js_backups st = [] ->
  active = ws /\ st = mkStore (concat (line <$> ws) ++ tail) [] maxBytes maxBackups (js_open st).
Proof using.
  intros [_ _ Hw _ Hd Hb Ha _ HmB Hmb _] Hnil. rewrite Hnil in Hb.
  assert (bgs = []) as -> by (by destruct bgs). rewrite (Hd eq_refl) in Hw. cbn in Hw. subst ws.
  split; [done|]. destruct st. cbn in *. by subst.
Qed.

(** The last complete line of a log whose writer is [c]. *)
Lemma last_entry ms ws c :
  signed hmac c0 ms ws c -> ws <> [] ->
  exists m meta, last ws = Some (wrapped_entry m meta) /\
    ParseIntegrityEntry (wrapped_entry m meta) =
      Ok (mkEntry (entry_type m) (Some meta) (marshal (JObject m))) /\
    im_Sequence meta = sa_sequence (ic_alloc c) /\ im_EntryHash meta = sc_prevHash (ic_chain c) /\
    verify_entry hmac c0 meta (marshal (JObject m)) = Ok true.
Proof using All.
  intros Hs Hne.
  destruct (signed_last _ _ _ _ Hs Hne) as (cp & m & h & ms0 & ws0 & -> & Hs0 & -> & Hm & Hlt & Hh).
  assert (Hok : ic_ok cp) by (by eapply signed_genesis_ok).
  assert (Hk : same_key c0 cp) by (destruct (signed_identity _ _ _ _ _ Hs0) as (_ & ? & ?); done).
  exists m, (next_meta cp h). split; [apply last_snoc|].
  split; [apply ParseIntegrityEntry_wrapped; [done|by eapply (next_meta_ok hmac)]|].
  split; [done|]. split; [done|]. by apply verify_entry_wrapped.
Qed.

(** The lines of a file that end with their newline. *)
Definition complete_lines (file : list Z) : list Z := concat (List.filter (fun raw => negb (at_eof raw)) (ReadBytes_all file)).

Lemma complete_lines_log ws tail :
  Forall (fun w => newline ∉ w) ws -> tail = [] \/ torn tail ->
  complete_lines (concat (line <$> ws) ++ tail) = concat (line <$> ws).
Proof using.
  intros Hws Ht. unfold complete_lines. rewrite ReadBytes_all_lines, List.filter_app, concat_app by done.
  assert (Htail : List.filter (fun raw => negb (at_eof raw)) (ReadBytes_all tail) = []).
  { destruct Ht as [->|Ht]; [done|]. pose proof (torn_nonempty _ Ht). destruct Ht as (Hnl & _).
    rewrite ReadBytes_all_tail by done. cbn. by rewrite at_eof_tail. }
  rewrite Htail. cbn [concat]. rewrite app_nil_r. f_equal. clear. induction ws as [|w ws IH]; [done|].
  rewrite fmap_cons. cbn [List.filter]. by rewrite at_eof_line, IH.
Qed.

(** A new process on the disk of a dead one: it opens the log again. *)
Definition reopened (d : Disk) : Disk := mkDiskState (NewWithLock (d_log d)) (d_sidecar d).

(** The sidecar names some head of the log: the fresh store resumes at the last complete entry and
    drops what follows it; only when a cut line follows exactly the entry the sidecar names does it
    drop the line and fail. *)
Lemma crash_bootstrap d o ms ws c tail dropped bgs active st :
  log_inv (d_log d) ms ws c tail dropped bgs active -> js_backups (d_log d) = [] ->
  head_of ws c st -> d_sidecar d = sidecar_for now s0 (cs_Sequence st) (cs_PrevHash st) ->
  bootstrap hmac now timestamp s0 (reopened d) o =
    if nonempty tail && bool_decide (st = IntegrityChain_State c)
    then (s0, mkDiskState (whole_log true ws) (d_sidecar d), Err (LMismatch "malformed last entry"))
    else (set_chain s0 c, mkDiskState (whole_log true ws)
            (sidecar_for now s0 (sa_sequence (ic_alloc c)) (sc_prevHash (ic_chain c))), Ok tt).
Proof using All.
  intros Hli Hnil (ms1 & ws1 & ms2 & ws2 & c1 & Hw & Hne1 & Hs1 & Hs2 & Hst) Hsc.
  destruct (single_file _ _ _ _ _ _ _ _ Hli Hnil) as [-> Hlog].
  pose proof (log_inv_validates _ _ _ _ _ _ _ _ Hli) as Hval.
  assert (bgs = []) as -> by (destruct Hli as [_ _ _ _ _ Hb _ _ _ _ _]; rewrite Hnil in Hb; by destruct bgs).
  destruct Hli as [Hs _ _ _ _ _ _ Ht _ _ _].
  assert (Hlines : Forall (fun w => braced w /\ newline ∉ w) ws)
    by (eapply (signed_lines hmac); [exact Hs|apply Hconf]).
  assert (Hne : ws <> []) by (rewrite Hw; by destruct ws1).
  destruct (signed_head ms1 ws1 c1 Hs1 Hne1) as (Hq1 & Hp1 & Hx1).
  assert (Hsame : st = IntegrityChain_State c <-> ws2 = []).
  { rewrite Hst. split; [|intros ->; by inversion Hs2]. intros E. apply (f_equal cs_Sequence) in E. cbn in E.
    pose proof (signed_sequence _ _ _ _ _ Hs2) as Hq. destruct ws2; [done|]. cbn [length] in Hq. lia. }
  rewrite (bool_decide_ext _ _ Hsame). clear Hsame. rewrite Hst in Hsc.
  change (cs_Sequence (IntegrityChain_State c1)) with (sa_sequence (ic_alloc c1)) in Hsc.
  change (cs_PrevHash (IntegrityChain_State c1)) with (sc_prevHash (ic_chain c1)) in Hsc.
  destruct (read_sidecar_for _ _ Hq1 Hp1 Hx1) as [at_ Hread].
  assert (Hlog' : d_log (reopened d) = mkStore (concat (line <$> (ws1 ++ ws2)) ++ tail) [] maxBytes maxBackups true)
    by (cbn [d_log reopened]; by rewrite Hlog, Hw).
  destruct (last_line_single_file (d_log (reopened d))) as [Hdisc Hlast]; [by rewrite Hlog'|].
  unfold bootstrap. rewrite Hdisc, Hlast. change (d_sidecar (reopened d)) with (d_sidecar d). rewrite Hsc, Hread. cbn [sd_KeyFingerprint].
  rewrite bool_decide_eq_true_2 by done. cbn [negb].
  assert (Hact : js_active (d_log (reopened d)) = concat (line <$> ws) ++ tail) by (by rewrite Hlog', Hw).
  rewrite Hact. unfold log_of in Hval. cbn [rev app fmap list_fmap] in Hval. rewrite Hval, last_line_log by done.
  unfold resumeFromSidecar.
  pose proof (recover_gap (reopened d) ms1 ws1 c1 ms2 ws2 c tail) as Hgap. destruct Ht as [->|Ht].
  - cbn [nonempty andb]. destruct (last_entry _ _ _ Hs Hne) as (m & meta & -> & Hpe & Hsq & Heh & Hver).
    cbn [fmap option_fmap option_map]. rewrite Hpe. cbn [pe_Integrity mbind option_bind sd_Sequence sd_PrevHash].
    rewrite Hsq, Heh. destruct (decide (ws2 = [])) as [->|Hne2].
    + assert (c1 = c) as -> by (by inversion Hs2). rewrite Z.eqb_refl, bool_decide_eq_true_2 by done. cbn [andb pe_CanonicalPayload].
      rewrite Hver, (restore_head _ _ _ Hs). unfold reopened in Hlog' |- *. cbn [d_log] in Hlog'. rewrite Hlog', Hsc, app_nil_r.
      unfold whole_log. by rewrite Hw.
    + pose proof (signed_sequence _ _ _ _ _ Hs2) as Hq. assert (0 < length ws2)%nat by (destruct ws2; [done|simpl; lia]).
      rewrite (proj2 (Z.eqb_neq _ _)), (proj2 (Z.ltb_lt _ _)) by lia. cbn [andb].
      rewrite (Hgap _ true Hs1 Hs2 (or_introl eq_refl) Hlog'), bool_decide_eq_false_2 by done. by rewrite Hw.
  - pose proof Ht as (_ & _ & e & He). destruct tail as [|b tail]; [by apply torn_nonempty in Ht|].
    cbn [nonempty andb fmap option_fmap option_map]. rewrite He. cbv iota.
    rewrite (Hgap _ true Hs1 Hs2 (or_intror Ht) Hlog') by done. rewrite Hw.
    case_bool_decide as E; [|done]. by rewrite <- Hsc.
Qed.

(** What is left when the cut line is gone. *)
Lemma whole_log_inv op st ms ws c tail dropped bgs active :
  log_inv st ms ws c tail dropped bgs active -> js_backups st = [] -> log_inv (whole_log op ws) ms ws c [] [] [] ws.
Proof using Hconf.
  intros Hli Hnil. destruct (single_file _ _ _ _ _ _ _ _ Hli Hnil) as [-> _]. destruct Hli as [Hs Ho _ _ _ _ _ _ _ _ _].
  split; try done; [cbn; by rewrite app_nil_r|by left|cbn [length]; lia].
Qed.

(** The complete lines of a log that has not rotated, and the last of them. *)
Lemma crash_lines st ms ws c tail dropped bgs active :
  log_inv st ms ws c tail dropped bgs active -> js_backups st = [] -> ws <> [] ->
  js_active st = concat (line <$> ws) ++ tail /\ complete_lines (js_active st) = concat (line <$> ws) /\
  exists w e meta, last_line (concat (line <$> ws)) = Some w /\
    ParseIntegrityEntry w = Ok e /\ pe_Integrity e = Some meta /\
    cs_Sequence (IntegrityChain_State c) = im_Sequence meta /\
    cs_PrevHash (IntegrityChain_State c) = im_EntryHash meta.
Proof using All.
  intros Hli Hnil Hne. destruct (single_file _ _ _ _ _ _ _ _ Hli Hnil) as [-> Hst].
  destruct Hli as [Hs _ _ _ _ _ Ha Ht _ _ _]. split; [done|].
  assert (Hlines : Forall (fun w => braced w /\ newline ∉ w) ws)
    by (eapply (signed_lines hmac); [exact Hs|apply Hconf]).
  split.
  - rewrite Ha. apply complete_lines_log; [|done]. eapply Forall_impl; [exact Hlines|]. by intros w [_ ?].
  - destruct (last_entry _ _ _ Hs Hne) as (m & meta & Hl & Hpe & Hsq & Heh & _).
    exists (wrapped_entry m meta), (mkEntry (entry_type m) (Some meta) (marshal (JObject m))), meta.
    pose proof (last_line_log ws [] Hlines (or_introl eq_refl)) as Hll. rewrite app_nil_r in Hll. rewrite Hll.
    split_and!; done.
Qed.

End History.
End History.
Export History.

(** ** What an accepted log commits to *)
Module Tamper.
Section Tamper.
Context (hmac : hmac_fn) `{HmacLaws hmac} (v : IntegrityChain).

Definition signed_entry : Type := ParsedEntry * IntegrityMetadata.

(** The signed entries the validator reads, oldest first. *)
Fixpoint entries_lines (chunks : list (list Z)) : list signed_entry :=
  match chunks with
  | [] => []
  | raw :: rest =>
    let more := if at_eof raw then [] else entries_lines rest in
    if negb (nonempty (TrimSpace raw)) then more
    else match ParseIntegrityEntry (TrimSpace raw) with
    | Ok e => match pe_Integrity e with Some meta => (e, meta) :: more | None => [] end
    | Err _ => []
    end
  end.

Definition visible_entries (files : list LogFile) : list signed_entry :=
  concat ((fun f => match lf_content f with
                    | Some content => entries_lines (ReadBytes_all content)
                    | None => []
                    end) <$> files).

(** The file of the first signed entry is a backup: what came before it may be gone. *)
Fixpoint origin_backup (files : list LogFile) : bool :=
  match files with
  | [] => false
  | f :: fs => if visible_entries [f] is [] then origin_backup fs else lf_IsBackup f
  end.

(** The validator over entries alone; [b] is whether the first of them is in a backup. *)
Fixpoint run (b : bool) (st : visibleChainState) (es : list signed_entry) : result lerr visibleChainState :=
  match es with
  | [] => Ok st
  | e :: es' => st' <-? validate_entry hmac v b st e.1 e.2 ; run b st' es'
  end.

Definition parsed (e : signed_entry) : Prop :=
  exists l, ParseIntegrityEntry l = Ok e.1 /\ pe_Integrity e.1 = Some e.2.

Lemma run_app b st es1 es2 : run b st (es1 ++ es2) = (st' <-? run b st es1 ; run b st' es2).
Proof.
  revert st. induction es1 as [|e es1 IH]; intros st; [done|]. cbn [app run].
  destruct (validate_entry _ _ _ _ _ _); cbn [rbind]; [apply IH|done].
Qed.

(** Past the first entry it no longer matters which file an entry is in. *)
Definition begun (st : visibleChainState) : Prop := vc_seeded st = true /\ 0 < vc_verifiedEntries st.

Lemma validate_entry_flag b b' st e meta :
  begun st -> validate_entry hmac v b st e meta = validate_entry hmac v b' st e meta.
Proof.
  intros [Hs Hn]. unfold validate_entry, seed, validateRotationBoundary. rewrite Hs.
  by rewrite (proj2 (Z.eqb_neq (vc_verifiedEntries st) 0)) by lia.
Qed.

Lemma validate_entry_begun b st e meta st' :
  validate_entry hmac v b st e meta = Ok st' -> 0 <= vc_verifiedEntries st -> begun st'.
Proof.
  unfold validate_entry. intros Hv Hn. do 2 (destruct (_ <? _); [done|]). apply rbind_Ok in Hv as (st1 & H1 & Hv).
  assert (Hst : vc_verifiedEntries st1 = vc_verifiedEntries st).
  { destruct (is_boundary e meta); [by apply rbind_Ok in H1 as (? & _ & [= <-])|].
    do 2 (destruct (negb _) in H1; [done|]). injection H1 as <-. unfold seed. by repeat case_match. }
  destruct (verify_entry _ _ _ _) as [[]|]; [|done..]. injection Hv as <-. split; cbn; [done|lia].
Qed.

Lemma run_flag b b' st es : begun st -> run b st es = run b' st es.
Proof.
  revert st. induction es as [|e es IH]; intros st Hst; [done|]. cbn [run]. rewrite (validate_entry_flag b b') by done.
  destruct (validate_entry hmac v b' st e.1 e.2) as [st'|] eqn:E; [|done]. cbn [rbind]. apply IH.
  eapply validate_entry_begun; [exact E|]. destruct Hst. lia.
Qed.

Lemma validate_lines_run b st chunks st' :
  validate_lines hmac v b st chunks = Ok st' ->
  run b st (entries_lines chunks) = Ok st' /\ Forall parsed (entries_lines chunks).
Proof.
  revert st. induction chunks as [|raw rest IH]; intros st; cbn [validate_lines entries_lines];
    [by intros [= ->]|].
  destruct (nonempty (TrimSpace raw)); cbn [negb].
  - destruct (ParseIntegrityEntry (TrimSpace raw)) as [e|err] eqn:Ep;
      [|destruct (_ && _); [by intros [= ->]|done]].
    destruct (pe_Integrity e) as [meta|] eqn:Em;
      [|destruct (_ && _); [by intros [= ->]|done]].
    intros Hv. apply rbind_Ok in Hv as (st1 & Hv & Hr). cbn [run fst snd]. rewrite Hv. cbn [rbind].
    assert (parsed (e, meta)) by (by exists (TrimSpace raw)).
    destruct (at_eof raw); [injection Hr as ->; split; [done|by apply Forall_singleton]|].
    destruct (IH _ Hr). auto.
  - destruct (at_eof raw); [by intros [= ->]|apply IH].
Qed.

Lemma visible_cons f files : visible_entries (f :: files) = visible_entries [f] ++ visible_entries files.
Proof. unfold visible_entries. cbn. by rewrite app_nil_r. Qed.

Lemma run_begun b st es st' : run b st es = Ok st' -> es <> [] -> 0 <= vc_verifiedEntries st -> begun st'.
Proof.
  revert st. induction es as [|e es IH]; intros st Hr Hne Hn; [done|]. cbn [run] in Hr. apply rbind_Ok in Hr as (st1 & Hv & Hr).
  pose proof (validate_entry_begun _ _ _ _ _ Hv Hn) as Hb. destruct es as [|e' es]; [by injection Hr as <-|].
  apply (IH st1 Hr); [done|]. destruct Hb. lia.
Qed.

Lemma validate_files_run st files st' :
  begun st \/ st = visible_start ->
  validate_files hmac v st files = Ok st' ->
  run (origin_backup files) st (visible_entries files) = Ok st' /\ Forall parsed (visible_entries files).
Proof.
  revert st. induction files as [|f files IH]; intros st Hst; cbn [validate_files];
    [by intros [= ->]|].
  rewrite visible_cons. cbn [origin_backup]. unfold visible_entries at 1 2 4. cbn [fmap list_fmap concat]. rewrite app_nil_r.
  destruct (lf_content f) as [content|]; [|by apply IH]. intros Hv.
  apply rbind_Ok in Hv as (st1 & Hv & Hr). apply validate_lines_run in Hv as [Hrun Hp].
  destruct (entries_lines (ReadBytes_all content)) as [|e es] eqn:Ee.
  { injection Hrun as <-. by apply IH. }
  assert (Hst1 : begun st1).
  { eapply run_begun; [exact Hrun|done|]. destruct Hst as [[_ ?]| ->]; [lia|done]. }
  destruct (IH st1 (or_introl Hst1) Hr) as [Hrun2 Hp2]. rewrite run_app, Hrun. cbn [rbind].
  split; [|by apply Forall_app]. by rewrite (run_flag _ (origin_backup files)).
Qed.

(** *** One accepted entry *)

Lemma obj_get_delete_ne k k' m : k <> k' -> obj_get k (obj_delete k' m) = obj_get k m.
Proof.
  intros Hne. unfold obj_get, obj_delete. induction m as [|[x y] m IH]; [done|].
  cbn [List.filter fst]. destruct (decide (x = k')) as [->|Hk].
  - rewrite bool_decide_eq_true_2 by done. cbn [negb table_get].
    by rewrite (bool_decide_eq_false_2 (k = k')) by done.
  - rewrite (bool_decide_eq_false_2 (x = k')) by done. cbn [negb table_get]. by rewrite IH.
Qed.

Lemma map_get_delete k m : map_get k (map_delete k m) = None.
Proof. destruct m as [m|]; [apply obj_delete_get|done]. Qed.

Lemma map_get_delete_ne k k' m : k <> k' -> map_get k (map_delete k' m) = map_get k m.
Proof. destruct m as [m|]; [apply obj_get_delete_ne|done]. Qed.

(** [ParseIntegrityEntry] after its first call. *)
Lemma ParseIntegrityEntry_Ok l e :
  ParseIntegrityEntry l = Ok e ->
  exists m, payload_ok m /\
    match map_get "integrity" m with
    | Some value =>
      exists meta, integrityMetadataFromMap (Some value) = Some meta /\
        e = mkEntry (default "" (json_string (map_get "type" m))) (Some meta)
              (marshalCanonicalPayload (map_delete "integrity" m))
    | None => e = mkEntry (default "" (json_string (map_get "type" m))) None
                    (marshalCanonicalPayload m)
    end.
Proof.
  unfold ParseIntegrityEntry.
  destruct (parseIntegrityPayloadUseNumber l) as [m|err] eqn:Em; cbn [rbind]; [|discriminate].
  intros Hl. exists m. split; [exact (parse_payload_ok l m Em)|].
  destruct (map_get "integrity" m) as [value|].
  - destruct (integrityMetadataFromMap (Some value)) as [meta|]; [|discriminate].
    injection Hl as <-. by exists meta.
  - by injection Hl as <-.
Qed.

(** The payload of a parsed entry is canonical, so checking it hashes exactly those bytes. *)
Lemma parsed_payload e :
  parsed e -> exists m, payload_ok m /\ map_get "integrity" m = None /\
    pe_CanonicalPayload e.1 = marshalCanonicalPayload m /\
    pe_Type e.1 = default "" (json_string (map_get "type" m)).
Proof.
  destruct e as [e meta]. intros (l & Hl & _). cbn [fst snd] in *.
  apply ParseIntegrityEntry_Ok in Hl as (m & Hm & Hl).
  destruct (map_get "integrity" m) as [value|] eqn:Eg.
  - destruct Hl as (meta' & _ & ->). exists (map_delete "integrity" m).
    split; [by apply payload_ok_delete|]. split; [apply map_get_delete|]. split; [reflexivity|].
    rewrite map_get_delete_ne by discriminate. reflexivity.
  - subst e. exists m. split; [exact Hm|]. split; [exact Eg|]. split; reflexivity.
Qed.

Notation key := (sc_key (ic_chain v)).
Notation alg := (sc_algorithm (ic_chain v)).

(** What one accepted entry says about the state it extends. *)
Record accepted (b : bool) (st : visibleChainState) (e : signed_entry) (st' : visibleChainState) : Prop := {
  ac_version : im_FormatVersion e.2 = IntegrityFormatVersion;
  ac_hash : computeIntegrityHash hmac key alg IntegrityFormatVersion (im_Sequence e.2)
              (im_PrevHash e.2) (pe_CanonicalPayload e.1) = Ok (im_EntryHash e.2);
  ac_next : vc_expectedSequence st' = wrap_int64 (im_Sequence e.2 + 1) /\
            vc_expectedPrevHash st' = im_EntryHash e.2 /\ vc_seeded st' = true /\
            vc_verifiedEntries st' = vc_verifiedEntries st + 1;
  ac_link :
    (is_boundary e.1 e.2 = true /\
     validateRotationBoundary (pe_CanonicalPayload e.1) st b = Ok tt) \/
    (is_boundary e.1 e.2 = false /\ b = true /\ vc_seeded st = false) \/
    (is_boundary e.1 e.2 = false /\
     im_Sequence e.2 = (if vc_seeded st then vc_expectedSequence st else 0) /\
     im_PrevHash e.2 = (if vc_seeded st then vc_expectedPrevHash st else ""))
}.

Lemma validate_entry_accepted b st e st' :
  parsed e -> validate_entry hmac v b st e.1 e.2 = Ok st' -> accepted b st e st'.
Proof.
  intros Hp Hv. destruct (parsed_payload e Hp) as (m & Hm & Hi & Hpl & _).
  unfold validate_entry in Hv.
  destruct (Z.ltb_spec (im_FormatVersion e.2) IntegrityFormatVersion); [done|].
  destruct (Z.ltb_spec IntegrityFormatVersion (im_FormatVersion e.2)); [done|].
  assert (Hver : im_FormatVersion e.2 = IntegrityFormatVersion) by lia.
  apply rbind_Ok in Hv as (st1 & Hst1 & Hv).
  unfold verify_entry, IntegrityChain_VerifyHash in Hv. rewrite Hpl in Hv.
  rewrite VerifyHash_canonical, Hver in Hv by done. rewrite <- Hpl in Hv.
  destruct (computeIntegrityHash _ _ _ _ _ _ _) as [h|] eqn:Eh; cbn [rbind] in Hv; [|done].
  destruct (h ==? im_EntryHash e.2) eqn:Ehe; [|done]. apply bool_decide_eq_true in Ehe as ->.
  injection Hv as <-.
  destruct (is_boundary e.1 e.2) eqn:Eb.
  - apply rbind_Ok in Hst1 as ([] & Hbd & [= <-]). split; try done. by left.
  - destruct (Z.eqb_spec (im_Sequence e.2) (vc_expectedSequence (seed b st e.2))) as [Eq|]; cbn [negb] in Hst1; [|done].
    case_bool_decide as Ep; cbn [negb] in Hst1; [|done]. injection Hst1 as <-. unfold seed in *.
    destruct (vc_seeded st) eqn:Es; [split; try done; right; right; by rewrite Es|].
    destruct (b && _) eqn:Ebz; (split; [done|done|done|right]); [left; by apply andb_true_iff in Ebz as [-> _]|right; by rewrite Es].
Qed.

(** *** Runs from the start of a log *)

(** Where a run from the start can be. *)
Definition standing (es : list signed_entry) (st : visibleChainState) : Prop :=
  (es = [] /\ st = visible_start) \/
  (es <> [] /\ vc_seeded st = true /\ 0 < vc_verifiedEntries st /\ vc_expectedPrevHash st <> "" /\
   124 ∉ string_bytes (vc_expectedPrevHash st) /\ int64_range (vc_expectedSequence st)).

Lemma wrap_int64_range z : int64_range (wrap_int64 z).
Proof using. unfold int64_range, min_int64, max_int64, wrap_int64. div_lia. Qed.

Lemma wrap_pred_inj a b :
  int64_range a -> int64_range b -> wrap_int64 (a - 1) = wrap_int64 (b - 1) -> a = b.
Proof using. unfold int64_range, min_int64, max_int64, wrap_int64. intros. div_lia. Qed.

Lemma run_snoc b es e st' :
  Forall parsed (es ++ [e]) -> run b visible_start (es ++ [e]) = Ok st' ->
  exists st, run b visible_start es = Ok st /\ accepted b st e st'.
Proof using.
  intros Hp Hr. rewrite run_app in Hr. apply rbind_Ok in Hr as (st & Hr & He).
  exists st. split; [done|]. cbn [run] in He. apply rbind_Ok in He as (st1 & He & [= ->]).
  apply validate_entry_accepted; [|done]. rewrite Forall_forall in Hp. apply Hp, elem_of_app.
  right. by apply list_elem_of_singleton.
Qed.

Lemma accepted_hash b st e st' :
  accepted b st e st' -> im_EntryHash e.2 <> "" /\ 124 ∉ string_bytes (im_EntryHash e.2).
Proof using All.
  intros [_ Hh _ _]. apply computeIntegrityHash_hex in Hh as (Hx & Hne & _); [|done].
  split; [done|]. by apply hex_decodable_no_bar.
Qed.

Lemma run_standing b es st :
  Forall parsed es -> run b visible_start es = Ok st -> standing es st.
Proof using All.
  revert st. induction es as [|e es IH] using rev_ind; intros st Hp Hr.
  { cbn in Hr. injection Hr as <-. by left. }
  destruct (run_snoc _ _ _ _ Hp Hr) as (st0 & Hr0 & Ha). pose proof (accepted_hash _ _ _ _ Ha) as [Hne Hb].
  apply Forall_app in Hp as [Hp _]. specialize (IH _ Hp Hr0).
  assert (0 <= vc_verifiedEntries st0).
  { destruct IH as [[_ ->]|(_ & _ & ? & _)]; [done|lia]. }
  destruct Ha as [_ _ (Hs & Hph & Hsd & Hn) _]. right. rewrite Hs, Hph, Hsd, Hn.
  split_and!; try done; [by destruct es|lia|apply wrap_int64_range..].
Qed.

(** The predecessor a log in a backup starts from is not checked; that it has no separator. *)
Definition clean_origin (b : bool) (es : list signed_entry) : Prop :=
  match es with e :: _ => b = true -> 124 ∉ string_bytes (im_PrevHash e.2) | [] => True end.

Lemma clean_prefix b es e : clean_origin b (es ++ [e]) -> clean_origin b es.
Proof. by destruct es. Qed.

Lemma accepted_prev b es st e st' :
  standing es st -> accepted b st e st' -> clean_origin b (es ++ [e]) -> 124 ∉ string_bytes (im_PrevHash e.2).
Proof using.
  intros Hst [_ _ _ [[Hb _]|[(_ & Hb & Hs)|(_ & _ & ->)]]] Hcl.
  - unfold is_boundary in Hb. apply andb_true_iff in Hb as [_ Hb].
    apply bool_decide_eq_true in Hb as ->. cbn. apply not_elem_of_nil.
  - destruct Hst as [[-> _]|(_ & ? & _)]; [by apply Hcl|congruence].
  - destruct Hst as [[_ ->]|(_ & -> & _ & _ & ? & _)]; [cbn; apply not_elem_of_nil|done].
Qed.

(** An entry is determined by its metadata and its canonical payload. *)
Lemma parsed_inj e1 e2 :
  parsed e1 -> parsed e2 -> e1.2 = e2.2 -> pe_CanonicalPayload e1.1 = pe_CanonicalPayload e2.1 ->
  e1 = e2.
Proof using.
  intros H1 H2 Hm Hp. destruct (parsed_payload e1 H1) as (m1 & Hok1 & _ & Hp1 & Ht1).
  destruct (parsed_payload e2 H2) as (m2 & Hok2 & _ & Hp2 & Ht2).
  assert (m1 = m2) as ->.
  { rewrite Hp, Hp2 in Hp1. apply parse_canonical in Hok1, Hok2. congruence. }
  destruct H1 as (_ & _ & Hi1), H2 as (_ & _ & Hi2).
  destruct e1 as [[t1 i1 p1] e1], e2 as [[t2 i2 p2] e2]. cbn in *. congruence.
Qed.

(** The log begins with a rotation boundary that says the log before it was archived. *)
Definition starts_archived (es : list signed_entry) : Prop :=
  match es with
  | e :: _ => is_boundary e.1 e.2 = true /\
      exists ev, Unmarshal_rotation (pe_CanonicalPayload e.1) = Some ev /\ rp_PriorLogArchivedTo ev <> ""
  | [] => False
  end.

Definition same_head (st1 st2 : visibleChainState) : Prop :=
  vc_expectedSequence st1 = vc_expectedSequence st2 /\
  vc_expectedPrevHash st1 = vc_expectedPrevHash st2.

(** The log may leave out what came before its first entry. *)
Definition partial (b : bool) (es : list signed_entry) : Prop := b = true \/ starts_archived es.

(** The boundary that begins a complete log has no summary of a log before it. *)
Lemma boundary_start b e st st' ev :
  accepted b st e st' -> is_boundary e.1 e.2 = true -> vc_verifiedEntries st = 0 ->
  Unmarshal_rotation (pe_CanonicalPayload e.1) = Some ev -> partial b [e] \/ rp_PriorChainSummary ev = None.
Proof using.
  intros [_ _ _ Hl] Hb Hz Hu. destruct Hl as [[_ Hv]|[(? & _)|(? & _)]]; [|congruence..].
  unfold validateRotationBoundary in Hv. rewrite Hu, Hz in Hv. cbn [Z.eqb] in Hv.
  destruct b; [by left; left|]. destruct (decide (rp_PriorLogArchivedTo ev = "")) as [E|E].
  - right. rewrite E in Hv. destruct (rp_PriorChainSummary ev); [|done]. by rewrite bool_decide_eq_true_2 in Hv by eauto.
  - left. right. split; [done|]. by exists ev.
Qed.

(** The boundary in the middle of a log names the head before it. *)
Lemma boundary_inside b e st st' ev :
  accepted b st e st' -> is_boundary e.1 e.2 = true -> vc_verifiedEntries st <> 0 ->
  Unmarshal_rotation (pe_CanonicalPayload e.1) = Some ev ->
  rp_PriorChainSummary ev = Some (wrap_int64 (vc_expectedSequence st - 1), vc_expectedPrevHash st).
Proof using.
  intros [_ _ _ Hl] Hb Hz Hu. destruct Hl as [[_ Hv]|[(? & _)|(? & _)]]; [|congruence..].
  unfold validateRotationBoundary in Hv. rewrite Hu, (proj2 (Z.eqb_neq _ _) Hz) in Hv.
  destruct (rp_PriorChainSummary ev) as [[sq hs]|]; [|done].
  destruct (Z.eqb_spec sq (wrap_int64 (vc_expectedSequence st - 1))) as [->|]; cbn [negb] in Hv; [|done].
  case_bool_decide; cbn [negb] in Hv; [|done]. by subst.
Qed.

Lemma standing_first es st : standing es st -> es = [] <-> vc_verifiedEntries st = 0.
Proof using. intros [[-> ->]|(Hne & _ & Hn & _)]; [done|]. split; [done|lia]. Qed.

(** The same entry at the end of two runs: the runs before it stood at the same head, or both had
    nothing before it, or one of them leaves out what came before. *)
Lemma same_link b1 b2 es1 es2 st1 st2 e st1' st2' :
  standing es1 st1 -> standing es2 st2 -> accepted b1 st1 e st1' -> accepted b2 st2 e st2' ->
  (es1 = [] /\ es2 = []) \/ (es1 = [] /\ partial b1 [e]) \/ (es2 = [] /\ partial b2 [e]) \/ same_head st1 st2.
Proof using.
  intros Hs1 Hs2 Ha1 Ha2. destruct (is_boundary e.1 e.2) eqn:Hb.
  - assert (exists ev, Unmarshal_rotation (pe_CanonicalPayload e.1) = Some ev) as [ev Hu].
    { destruct Ha1 as [_ _ _ [[_ Hv]|[(? & _)|(? & _)]]]; [|congruence..]. unfold validateRotationBoundary in Hv.
      destruct (Unmarshal_rotation _); [by eexists|done]. }
    pose proof (standing_first _ _ Hs1) as [Hn1 Hz1]. pose proof (standing_first _ _ Hs2) as [Hn2 Hz2].
    destruct (decide (vc_verifiedEntries st1 = 0)) as [E1|E1], (decide (vc_verifiedEntries st2 = 0)) as [E2|E2]; [by auto|..].
    + destruct (boundary_start _ _ _ _ _ Ha1 Hb E1 Hu) as [|Hnone]; [by auto|].
      rewrite (boundary_inside _ _ _ _ _ Ha2 Hb E2 Hu) in Hnone. done.
    + destruct (boundary_start _ _ _ _ _ Ha2 Hb E2 Hu) as [|Hnone]; [by auto 6|].
      rewrite (boundary_inside _ _ _ _ _ Ha1 Hb E1 Hu) in Hnone. done.
    + do 3 right. pose proof (boundary_inside _ _ _ _ _ Ha1 Hb E1 Hu) as Hi. rewrite (boundary_inside _ _ _ _ _ Ha2 Hb E2 Hu) in Hi.
      injection Hi as Hq Hp. destruct Hs1 as [[_ ->]|(_ & _ & _ & _ & _ & Hr1)]; [done|].
      destruct Hs2 as [[_ ->]|(_ & _ & _ & _ & _ & Hr2)]; [done|]. split; [|done]. by apply wrap_pred_inj.
  - assert (Hcase : forall b es st st', standing es st -> accepted b st e st' ->
      (es = [] /\ b = true) \/ (es = [] /\ im_PrevHash e.2 = "") \/
      (vc_expectedPrevHash st <> "" /\ im_Sequence e.2 = vc_expectedSequence st /\ im_PrevHash e.2 = vc_expectedPrevHash st)).
    { intros b es st st' Hs [_ _ _ Hl]. destruct Hl as [[? _]|[(_ & Hbt & Hsd)|(_ & Hq & Hp)]]; [congruence|..];
        destruct Hs as [[-> ->]|(_ & Hsd' & _ & Hne & _)]; [by auto|congruence|by auto|]. rewrite Hsd' in Hq, Hp. auto. }
    unfold partial, same_head. destruct (Hcase _ _ _ _ Hs1 Ha1) as [[? ?]|[[? ?]|(? & ? & ?)]], (Hcase _ _ _ _ Hs2 Ha2) as [[? ?]|[[? ?]|(? & ? & ?)]];
      first [by auto|naive_solver congruence].
Qed.

(** What the hash of an entry is taken of. *)
Definition entry_message (e : signed_entry) : list Z :=
  integrity_message IntegrityFormatVersion (im_Sequence e.2) (im_PrevHash e.2)
    (pe_CanonicalPayload e.1).

(** An entry of each log, with different contents and the same keyed hash. *)
Definition forged (es1 es2 : list signed_entry) : Prop :=
  exists e1 e2, e1 ∈ es1 /\ e2 ∈ es2 /\ collide hmac key alg (entry_message e1) (entry_message e2).

Lemma forged_app es1 es2 es1' es2' : forged es1 es2 -> forged (es1 ++ es1') (es2 ++ es2').
Proof using. intros (e1 & e2 & ? & ? & ?). exists e1, e2. rewrite !elem_of_app. auto. Qed.

Lemma partial_snoc b es e : es <> [] -> partial b es -> partial b (es ++ [e]).
Proof using. intros Hne [?|Ha]; [by left|right]. by destruct es. Qed.

(** The last part of a longer log: all of it, or what a log that leaves out its beginning shows. *)
Definition ending (b : bool) (es full : list signed_entry) : Prop :=
  es <> [] /\ partial b es /\ es `suffix_of` full.

Lemma ending_snoc b es full e : ending b es full -> ending b (es ++ [e]) (full ++ [e]).
Proof using.
  intros (Hne & Hp & Hs). split; [by destruct es|]. split; [by apply partial_snoc|].
  destruct Hs as [k ->]. exists k. by rewrite app_assoc.
Qed.

Lemma ending_one b full e : partial b [e] -> ending b [e] (full ++ [e]).
Proof using. intros Hp. split; [done|]. split; [done|]. by exists full. Qed.

(** Two accepted runs that end at the same head are the same run, or one is the end of the other and
    says that its beginning is elsewhere, or entries of them collide. *)
Lemma run_inj b1 b2 es1 es2 st1 st2 :
  Forall parsed es1 -> Forall parsed es2 ->
  run b1 visible_start es1 = Ok st1 -> run b2 visible_start es2 = Ok st2 -> same_head st1 st2 ->
  clean_origin b1 es1 -> clean_origin b2 es2 ->
  es1 = es2 \/ ending b1 es1 es2 \/ ending b2 es2 es1 \/ forged es1 es2.
Proof using All.
  revert es2 st1 st2. induction es1 as [|e1 es1 IH] using rev_ind; intros es2 st1 st2 Hp1 Hp2 Hr1 Hr2 Hh Ha1 Ha2.
  - cbn in Hr1. injection Hr1 as <-. apply run_standing in Hr2; [|done].
    destruct Hr2 as [[-> _]|(_ & _ & _ & Hne & _)]; [by left|].
    exfalso. apply Hne. destruct Hh as [_ <-]. done.
  - destruct es2 as [|e2 es2 _] using rev_ind.
    { cbn in Hr2. injection Hr2 as <-. apply run_standing in Hr1; [|done].
      destruct Hr1 as [[Hx _]|(_ & _ & _ & Hne & _)]; [by destruct es1|].
      exfalso. apply Hne. destruct Hh as [_ ->]. done. }
    destruct (run_snoc _ _ _ _ Hp1 Hr1) as (s1 & Hr1' & Hac1).
    destruct (run_snoc _ _ _ _ Hp2 Hr2) as (s2 & Hr2' & Hac2).
    apply Forall_app in Hp1 as [Hp1 Hpe1], Hp2 as [Hp2 Hpe2]. apply Forall_inv in Hpe1, Hpe2.
    pose proof (run_standing _ _ _ Hp1 Hr1') as Hst1. pose proof (run_standing _ _ _ Hp2 Hr2') as Hst2.
    assert (Hhash : im_EntryHash e1.2 = im_EntryHash e2.2).
    { destruct Hac1 as [_ _ (_ & H1 & _) _], Hac2 as [_ _ (_ & H2 & _) _], Hh as [_ Hh]. congruence. }
    pose proof (accepted_prev _ _ _ _ _ Hst1 Hac1 Ha1) as Hb1. pose proof (accepted_prev _ _ _ _ _ Hst2 Hac2 Ha2) as Hb2.
    destruct (computeIntegrityHash_inj hmac key alg IntegrityFormatVersion (im_Sequence e1.2)
      (im_PrevHash e1.2) (pe_CanonicalPayload e1.1) IntegrityFormatVersion (im_Sequence e2.2)
      (im_PrevHash e2.2) (pe_CanonicalPayload e2.1) (im_EntryHash e1.2)) as [(_ & Hs & Hp & Hpl)|];
      [done|done|apply Hac1|rewrite Hhash; apply Hac2| |].
    2: { do 3 right. exists e1, e2. split_and!; [apply elem_of_app; right; by left..|done]. }
    assert (e1 = e2) as ->.
    { apply parsed_inj; [done..| |done].
      pose proof (ac_version _ _ _ _ Hac1) as Hv1. pose proof (ac_version _ _ _ _ Hac2) as Hv2.
      destruct e1 as [? [? ? ? ?]], e2 as [? [? ? ? ?]]. cbn in *. congruence. }
    destruct (same_link b1 b2 es1 es2 s1 s2 e2 st1 st2) as [[-> ->]|[[-> Hpt]|[[-> Hpt]|Hh']]]; try done.
    + by left.
    + right. left. by apply ending_one.
    + right. right. left. by apply ending_one.
    + apply clean_prefix in Ha1, Ha2.
      destruct (IH es2 s1 s2) as [-> |[|[|]]]; try done; [by left|..]; right; [left|right; left|do 2 right];
        by first [apply ending_snoc|apply forged_app].
Qed.

End Tamper.
End Tamper.
Export Tamper.

(** ** Theorems *)
Module LogTheorems.

(** Reading the last line of a log backwards in chunks finds, for every chunk size, the last
    line of the file that is not blank. *)
Theorem readLast_equiv chunk file :
  (0 < chunk)%nat -> readLastNonEmptyLineFromFile chunk file = last_line file.
Proof. apply readLast_reference. Qed.

Section Theorems.
Context (hmac : hmac_fn) `{Hlaws : HmacLaws hmac}.
Context (now : Z) (timestamp : string) (s0 : IntegrityStore) (maxBytes : Z) (maxBackups : nat).

(** C15. From a first start on an empty directory, whatever is appended, however writes fail (clean,
    or cut at any point but right before the newline), whichever status, close or reopen of a rotation
    fails, and however flushes interleave with appends: as long as no renaming of a rotation fails, at
    every moment the files on disk are found without a gap and pass the start-up check of the visible
    chain. *)
Theorem log_always_validates s d snap :
  config_ok timestamp s0 maxBytes maxBackups ->
  history hmac now timestamp s0 maxBytes maxBackups s d snap ->
  exists files, DiscoverRotationSet (d_log d) = Some files /\
    validateVisibleChain hmac (is_chain s0) files = Ok tt.
Proof using All.
  intros Hc Hh. apply (history_inv hmac now timestamp s0 maxBytes maxBackups Hc) in Hh as (ms & ws & c & tail & Hinv).
  destruct (si_log _ _ _ _ _ _ _ _ _ _ _ _ Hinv) as (dr & bg & ac & Hli). eexists.
  split; [by eapply log_inv_files|by eapply log_inv_validates].
Qed.


(** C17. Tamper evidence: two accepted logs, rotated or not, that end at the same sequence number and
    entry hash hold the same entries, also across rotation boundaries; or one of them is the last part
    of the other and says itself that it leaves out the beginning (its first entry is in a backup, or is
    a boundary that names an archived log); or one of them holds an entry forged to have the keyed hash
    of a different entry of the other.  The predecessor that a log in a backup starts from is not
    checked by the code; here it is one without the separator of the hashed text. *)
Theorem tamper_evident v files1 files2 st1 st2 :
  validate_files hmac v visible_start files1 = Ok st1 ->
  validate_files hmac v visible_start files2 = Ok st2 ->
  vc_expectedSequence st1 = vc_expectedSequence st2 ->
  vc_expectedPrevHash st1 = vc_expectedPrevHash st2 ->
  clean_origin (origin_backup files1) (visible_entries files1) ->
  clean_origin (origin_backup files2) (visible_entries files2) ->
  visible_entries files1 = visible_entries files2 \/
  ending (origin_backup files1) (visible_entries files1) (visible_entries files2) \/
  ending (origin_backup files2) (visible_entries files2) (visible_entries files1) \/
  forged hmac v (visible_entries files1) (visible_entries files2).
Proof using Hlaws.
  intros Hv1 Hv2 Hq Hh Ha1 Ha2.
  apply validate_files_run in Hv1 as [Hr1 Hp1]; [|by right].
  apply validate_files_run in Hv2 as [Hr2 Hp2]; [|by right].
  by eapply (run_inj hmac v).
Qed.

End Theorems.

(** *** A sample log *)

Definition sample_time : string := "2026-01-01T00:00:00Z".
Definition sample_store : IntegrityStore :=
  mkIntegrityStore toy_chain "sha256:0011" false false.

Definition boot (d : Disk) : IntegrityStore * Disk * result lerr unit :=
  bootstrap toy_hmac 1 sample_time sample_store (reopened d) all_ok.

Definition append_with (sd : IntegrityStore * Disk) (o : outcome) : IntegrityStore * Disk :=
  (AppendEvent toy_hmac sd.1 sd.2 o sample_payload).1.

(** The rotation succeeds, the write answers [o]. *)
Definition writing (o : write_outcome) : outcome := mkOutcome (oc_rotation all_ok) o.
Definition append (sd : IntegrityStore * Disk) (o : write_outcome) : IntegrityStore * Disk :=
  append_with sd (writing o).

(** The renaming of [.i] fails. *)
Definition stuck_rename (i : nat) : outcome :=
  mkOutcome (mkFileRotation true true (fun j => negb (Nat.eqb i j)) true) WriteOk.

Definition files_of (st : Store) : list LogFile := default [] (DiscoverRotationSet st).

Definition started : IntegrityStore * Disk := Eval vm_compute in (boot (empty_disk 100000 3)).1.
Definition appended : IntegrityStore * Disk := Eval vm_compute in append started WriteOk.

Lemma sample_config : config_ok sample_time sample_store 100000 3.
Proof. split; try done; [apply toy_chain_ok|lia]. Qed.

Lemma started_history :
  history toy_hmac 1 sample_time sample_store 100000 3 started.1 started.2 None.
Proof. apply history_start. vm_compute. reflexivity. Qed.

Lemma appended_history :
  history toy_hmac 1 sample_time sample_store 100000 3 appended.1 appended.2 None.
Proof.
  apply (history_append toy_hmac 1 sample_time sample_store 100000 3 started.1 started.2 None (writing WriteOk)
           sample_payload [("type", JString "exec")] appended.1 appended.2 (Ok tt)).
  - apply started_history.
  - vm_compute. reflexivity.
  - reflexivity.
  - done.
  - done.
  - vm_compute. reflexivity.
Qed.

(** A write cut in the middle, before and after the sidecar caught up. *)
Definition torn_behind : IntegrityStore * Disk := Eval vm_compute in append appended (WriteFailedPartial 9).
Definition torn_level : IntegrityStore * Disk := Eval vm_compute in append started (WriteFailedPartial 9).

Lemma torn_level_history :
  history toy_hmac 1 sample_time sample_store 100000 3 torn_level.1 torn_level.2 None.
Proof.
  apply (history_append toy_hmac 1 sample_time sample_store 100000 3 started.1 started.2 None (writing (WriteFailedPartial 9))
           sample_payload [("type", JString "exec")] torn_level.1 torn_level.2 (Err (LFatalIntegrity "write audit log"))).
  - apply started_history.
  - vm_compute. reflexivity.
  - reflexivity.
  - intros w Hw. vm_compute in Hw. injection Hw as <-. by apply Nat.eqb_neq.
  - done.
  - vm_compute. reflexivity.
Qed.

Lemma readLast_equiv_witness :
  readLastNonEmptyLineFromFile 4 [123; 125; 10; 32; 10] = last_line [123; 125; 10; 32; 10] /\
  last_line [123; 125; 10; 32; 10] = Some [123; 125].
Proof. split; [apply (readLast_equiv 4 [123; 125; 10; 32; 10]); lia|reflexivity]. Defined.

Lemma log_always_validates_witness :
  exists files, DiscoverRotationSet (d_log appended.2) = Some files /\
    validateVisibleChain toy_hmac toy_chain files = Ok tt.
Proof.
  apply (log_always_validates toy_hmac 1 sample_time sample_store 100000 3 appended.1 appended.2 None).
  - apply sample_config.
  - apply appended_history.
Defined.


Lemma tamper_evident_witness :
  let files1 := files_of (d_log appended.2) in
  let files2 := [mkLogFile true (Some (js_active (d_log started.2)));
                 mkLogFile false (Some (drop (length (js_active (d_log started.2)))
                                          (js_active (d_log appended.2))))] in
  visible_entries files1 = visible_entries files2 \/
  ending (origin_backup files1) (visible_entries files1) (visible_entries files2) \/
  ending (origin_backup files2) (visible_entries files2) (visible_entries files1) \/
  forged toy_hmac toy_chain (visible_entries files1) (visible_entries files2).
Proof.
  set (files1 := files_of (d_log appended.2)).
  set (files2 := [mkLogFile true (Some (js_active (d_log started.2)));
                  mkLogFile false (Some (drop (length (js_active (d_log started.2)))
                                           (js_active (d_log appended.2))))]).
  destruct (validate_files toy_hmac toy_chain visible_start files1) as [st1|] eqn:E1;
    [|vm_compute in E1; discriminate].
  destruct (validate_files toy_hmac toy_chain visible_start files2) as [st2|] eqn:E2;
    [|vm_compute in E2; discriminate].
  assert (Hst : st1 = st2) by (vm_compute in E1, E2; congruence).
  apply (tamper_evident toy_hmac toy_chain files1 files2 st1 st2).
  - exact E1.
  - exact E2.
  - by rewrite Hst.
  - by rewrite Hst.
  - vm_compute. discriminate.
  - vm_compute. intros _ Hx. inversion Hx.
Defined.

(** *** What recovery does not handle *)

(** A write torn right after a flush: the start fails, and only the next one, on the file the failed
    start has truncated, succeeds; with the sidecar behind, the first start succeeds. *)
Example torn_write_after_flush_blocks_start :
  let '(_, d1, r1) := boot torn_level.2 in
  r1 = Err (LMismatch "malformed last entry") /\ (boot d1).2 = Ok tt /\ (boot torn_behind.2).2 = Ok tt.
Proof. vm_compute. done. Qed.

(** A renaming that fails is ignored.  When it is the one of the first backup, the active file takes
    its place: its entries are gone, and the next start refuses the log. *)
Example failed_rename_loses_entries :
  let s := append (append (boot (empty_disk 1 2)).1 WriteOk) WriteOk in
  let d := (append_with s (stuck_rename 1)).2 in
  length (files_of (d_log s.2)) = 3%nat /\ length (files_of (d_log d)) = 3%nat /\
  (boot d).2 = Err (LSequenceMismatch 1 2).
Proof. vm_compute. done. Qed.

(** When it is the one of the active file, its number stays free and the set has a gap. *)
Example failed_rename_leaves_gap :
  let s := append (append (boot (empty_disk 1 3)).1 WriteOk) WriteOk in
  let d := (append_with s (stuck_rename 0)).2 in
  DiscoverRotationSet (d_log d) = None /\ (boot d).2 = Err LMissingFile.
Proof. vm_compute. done. Qed.

(** Unflushed entries on both sides of a file rotation: recovery looks at the last file only. *)
Example rotation_gap_blocks_start :
  let s := (boot (empty_disk 1 3)).1 in
  let d := (append (append s WriteOk) WriteOk).2 in
  (boot d).2 = Err (LMismatch "chain broken during recovery").
Proof. vm_compute. done. Qed.

(** A log that holds an older chain: its entries are taken for the unflushed ones. *)
Example older_chain_blocks_recovery :
  let d := (append (append started WriteOk) WriteOk).2 in
  let s := (boot (mkDiskState (d_log d) SidecarMissing)).1 in
  (boot (append s WriteOk).2).2 = Err (LMismatch "chain broken during recovery").
Proof. vm_compute. done. Qed.

(** A write cut right before the newline is accepted at the next start; the entry after it then
    lands on the same line and the log no longer parses. *)
Example missing_newline_corrupts_log :
  let w := match (Wrap toy_hmac (is_chain started.1) sample_payload).2 with Ok w => w | _ => [] end in
  let d := (append started (WriteFailedPartial (length w))).2 in
  let '(s, d1, r) := boot d in
  r = Ok tt /\ (boot (append (s, d1) WriteOk).2).2 = Err (LCorrupted ErrTrailingData).
Proof. vm_compute. done. Qed.

End LogTheorems.
Export LogTheorems.
