(* ===== verification/CredSub.v ===== *)
(** * Credential substitution ([internal/proxy/credsub], [internal/proxy/credshook.go],
      [internal/proxy/hooks.go], [internal/session/secrets.go], [internal/session/secretsconfig.go])

    The agent only holds fake credentials.  The per-session table pairs each service's fake with its
    real credential; the hooks of the proxy block requests that carry a fake of another service,
    write the real credential into requests for the service, and scrub it from responses.

    Byte slices are lists; the copies the table makes are values here.  A body is absent, readable,
    or fails while it is read.  Secret providers and random bytes are parameters.  Logging is not
    modelled. *)

From Stdlib Require Import ZArith Lia Ascii String.
From stdpp Require Import base list strings gmap.
From S2P Require Import Prelude GoText GoNet GoStrings PolicyModel HttpService.
Open Scope string_scope.
Open Scope list_scope.
Open Scope Z_scope.

(** ** The table *)
Module Table.

Record Entry : Type := mkEntry {
  ServiceName : string;
  Fake : list Z;
  Real : list Z;
  AddedAt : Z
}.

Definition Table : Type := list Entry.
Definition New : Table := [].
Definition Len (t : Table) : nat := length t.

Inductive table_error : Type := ErrLengthMismatch | ErrEmptyValue | ErrServiceExists | ErrFakeCollision.

(** The loop over the entries already there. *)
Fixpoint add_conflict (t : Table) (serviceName : string) (fake real : list Z) : option table_error :=
  match t with
  | [] => None
  | e :: t' =>
    if ServiceName e ==? serviceName then Some ErrServiceExists
    else if Fake e ==? fake then Some ErrFakeCollision
    else if Real e ==? fake then Some ErrFakeCollision
    else if Fake e ==? real then Some ErrFakeCollision
    else if Real e ==? real then Some ErrFakeCollision
    else add_conflict t' serviceName fake real
  end.

Definition Add (t : Table) (serviceName : string) (fake real : list Z) (now : Z) : result table_error Table :=
  if negb (nonempty fake) || negb (nonempty real) then Err ErrEmptyValue
  else if negb (Nat.eqb (length fake) (length real)) then Err ErrLengthMismatch
  else if fake ==? real then Err ErrFakeCollision
  else match add_conflict t serviceName fake real with
  | Some e => Err e
  | None => Ok (t ++ [mkEntry serviceName fake real now])
  end.

Definition FakeForService (t : Table) (serviceName : string) : option (list Z) :=
  Fake <$> List.find (fun e => ServiceName e ==? serviceName) t.

Definition RealForService (t : Table) (serviceName : string) : option (list Z) :=
  Real <$> List.find (fun e => ServiceName e ==? serviceName) t.

Definition Contains_fake (t : Table) (fake : list Z) : option Entry :=
  if negb (nonempty fake) then None else List.find (fun e => Fake e ==? fake) t.

Definition ContainsFake (t : Table) (data : list Z) : option string :=
  if negb (nonempty data) then None
  else ServiceName <$> List.find (fun e => contains (Fake e) data) t.

(** The entry whose pattern is the longest that starts here, the first of equally long ones: its
    length and its replacement. *)
Definition longest_match (pairs : list (list Z * list Z)) (rest : list Z) : nat * list Z :=
  fold_left (fun best p =>
    let n := length p.1 in
    if Nat.leb n best.1 then best
    else if Nat.ltb (length rest) n then best
    else if take n rest ==? p.1 then (n, p.2) else best) pairs (O, []).

(** The scan over the original body: the position, and the output once something was replaced. *)
Fixpoint replace_loop (turns : nat) (pairs : list (list Z * list Z)) (body : list Z) (i : nat)
    (out : option (list Z)) : option (list Z) :=
  match turns with
  | O => out
  | S turns' =>
    if Nat.ltb i (length body) then
      let '(bestLen, best) := longest_match pairs (drop i body) in
      if Nat.ltb 0 bestLen then
        replace_loop turns' pairs body (i + bestLen) (Some (default (take i body) out ++ best))
      else replace_loop turns' pairs body (S i) ((fun o => o ++ take 1 (drop i body)) <$> out)
    else out
  end.

Definition replace (pairs : list (list Z * list Z)) (body : list Z) : list Z :=
  if negb (nonempty body) then body
  else if negb (nonempty pairs) then body
  else default body (replace_loop (length body) pairs body 0 None).

Definition to_real (t : Table) : list (list Z * list Z) := (fun e => (Fake e, Real e)) <$> t.
Definition to_fake (t : Table) : list (list Z * list Z) := (fun e => (Real e, Fake e)) <$> t.

Definition ReplaceFakeToReal (t : Table) (body : list Z) : list Z := replace (to_real t) body.
Definition ReplaceRealToFake (t : Table) (body : list Z) : list Z := replace (to_fake t) body.

(** The wiped buffers and the emptied table. *)
Definition Zero (t : Table) : list Entry * Table :=
  ((fun e => mkEntry (ServiceName e) (replicate (length (Fake e)) 0) (replicate (length (Real e)) 0) (AddedAt e)) <$> t, []).

End Table.
Export Table.

(** ** Hooks *)
Module Hooks.

(** [http.CanonicalHeaderKey]: a token with each word capitalised; other names are left alone. *)
Definition validHeaderFieldByte (b : Z) : bool :=
  is_alpha b || is_num b || has_byte b (string_bytes "!#$%&'*+-.^_`|~").

Fixpoint capitalise (upper : bool) (l : list Z) : list Z :=
  match l with
  | [] => []
  | b :: l' =>
    let b' := if upper && between 97 b 122 then b - 32
              else if negb upper && between 65 b 90 then b + 32 else b in
    b' :: capitalise (b' =? 45) l'
  end.

Definition CanonicalHeaderKey (s : string) : string :=
  if forallb validHeaderFieldByte (string_bytes s) then bytes_string (capitalise true (string_bytes s)) else s.

Inductive Body : Type :=
| NilBody
| Readable (data : list Z)
| Unreadable.

#[global] Instance Body_eq_dec : EqDecision Body.
Proof. solve_decision. Defined.

(** Header values and the parts of the URL are bytes. *)
Record Request : Type := mkRequest {
  rq_Method : string;
  rq_Header : gmap string (list (list Z));
  rq_Path : list Z;
  rq_RawPath : list Z;
  rq_RawQuery : list Z;
  rq_Body : Body;
  rq_ContentLength : Z
}.

Definition with_body (r : Request) (b : Body) (n : Z) : Request :=
  mkRequest (rq_Method r) (rq_Header r) (rq_Path r) (rq_RawPath r) (rq_RawQuery r) b n.
Definition with_header (r : Request) (h : gmap string (list (list Z))) : Request :=
  mkRequest (rq_Method r) h (rq_Path r) (rq_RawPath r) (rq_RawQuery r) (rq_Body r) (rq_ContentLength r).
Definition with_url (r : Request) (path rawPath rawQuery : list Z) : Request :=
  mkRequest (rq_Method r) (rq_Header r) path rawPath rawQuery (rq_Body r) (rq_ContentLength r).

Record Response : Type := mkResponse {
  rs_StatusCode : Z;
  rs_Header : gmap string (list (list Z));
  rs_Body : Body;
  rs_ContentLength : Z
}.

Record HookAbortError : Type := mkAbort { StatusCode : Z; Message : string }.

Inductive Hook : Type :=
| LeakGuardHook
| CredsSubHook (scrubServices : option (gmap string bool))
| HeaderInjectionHook (serviceName headerName template : string).

(** A fake in this part belongs to another service than the one of the request. *)
Definition foreign (t : Table) (service : string) (part : list Z) : bool :=
  match ContainsFake t part with Some s => s !=? service | None => false end.

Definition LeakGuard_PreHook (t : Table) (r : Request) (service : string) : option HookAbortError :=
  let abort := Some (mkAbort 403 "credential leak blocked") in
  if match rq_Body r with Readable body => foreign t service body | _ => false end then abort
  else if nonempty (rq_RawQuery r) && foreign t service (rq_RawQuery r) then abort
  else if existsb (fun kv : string * list (list Z) => existsb (foreign t service) kv.2) (map_to_list (rq_Header r)) then abort
  else if nonempty (rq_Path r) && foreign t service (rq_Path r) then abort
  else None.

(** The parts behind the body: header values, query, path and escaped path. *)
Definition sub_headers_url (sub : list Z -> list Z) (r : Request) : Request :=
  let r := with_header r ((fun vals : list (list Z) => sub <$> vals) <$> rq_Header r) in
  with_url r (if nonempty (rq_Path r) then sub (rq_Path r) else rq_Path r)
    (if nonempty (rq_RawPath r) then sub (rq_RawPath r) else rq_RawPath r)
    (if nonempty (rq_RawQuery r) then sub (rq_RawQuery r) else rq_RawQuery r).

Definition CredsSub_PreHook (t : Table) (r : Request) : Request :=
  let sub := ReplaceFakeToReal t in
  match rq_Body r with
  | NilBody => sub_headers_url sub r
  | Unreadable => r
  | Readable body => sub_headers_url sub (with_body r (Readable (sub body)) (Z.of_nat (length (sub body))))
  end.

Definition CredsSub_PostHook (t : Table) (scrubServices : option (gmap string bool)) (resp : Response)
    (service : string) : Response :=
  match rs_Body resp with
  | NilBody => resp
  | b =>
    if match scrubServices with Some m => negb (default false (m !! service)) | None => false end then resp
    else match b with
    | Readable body =>
      let replaced := ReplaceRealToFake t body in
      mkResponse (rs_StatusCode resp) (rs_Header resp) (Readable replaced) (Z.of_nat (length replaced))
    | _ => resp
    end
  end.

(** [strings.Replace(template, "{{secret}}", real, 1)]. *)
Definition fill_template (template : string) (real : list Z) : list Z :=
  let bs := string_bytes template in
  match index_of (string_bytes "{{secret}}") bs with
  | None => bs
  | Some i => take i bs ++ real ++ drop (i + 10) bs
  end.

Definition HeaderInjection_PreHook (t : Table) (serviceName headerName template : string) (r : Request) : Request :=
  match RealForService t serviceName with
  | None => r
  | Some real =>
    let key := CanonicalHeaderKey headerName in
    with_header r (<[key := [fill_template template real]]> (delete key (rq_Header r)))
  end.

Definition PreHook (t : Table) (h : Hook) (r : Request) (service : string) : Request * option HookAbortError :=
  match h with
  | LeakGuardHook => (r, LeakGuard_PreHook t r service)
  | CredsSubHook _ => (CredsSub_PreHook t r, None)
  | HeaderInjectionHook s n tmpl => (HeaderInjection_PreHook t s n tmpl r, None)
  end.

Definition PostHook (t : Table) (h : Hook) (resp : Response) (service : string) : Response :=
  match h with
  | CredsSubHook scrub => CredsSub_PostHook t scrub resp service
  | _ => resp
  end.

(** *** [Registry] *)

Notation Registry := (gmap string (list Hook)).
Definition NewRegistry : Registry := ∅.
Definition Register (g : Registry) (serviceName : string) (h : Hook) : Registry :=
  <[serviceName := default [] (g !! serviceName) ++ [h]]> g.

Definition snapshot (g : Registry) (serviceName : string) : list Hook * list Hook :=
  (default [] (g !! ""), if serviceName !=? "" then default [] (g !! serviceName) else []).

Fixpoint run_pre (t : Table) (hooks : list Hook) (r : Request) (service : string) : Request * option HookAbortError :=
  match hooks with
  | [] => (r, None)
  | h :: rest =>
    let '(r', err) := PreHook t h r service in
    match err with Some e => (r', Some e) | None => run_pre t rest r' service end
  end.

(** [ctx.ServiceName] is [service]; both callers register and look up under it. *)
Definition ApplyPreHooks (g : Registry) (t : Table) (service : string) (r : Request) : Request * option HookAbortError :=
  let '(global, scoped) := snapshot g service in
  let '(r', err) := run_pre t global r service in
  match err with Some e => (r', Some e) | None => run_pre t scoped r' service end.

Definition ApplyPostHooks (g : Registry) (t : Table) (service : string) (resp : Response) : Response :=
  let '(global, scoped) := snapshot g service in
  fold_left (fun resp h => PostHook t h resp service) scoped
    (fold_left (fun resp h => PostHook t h resp service) global resp).

Definition InjectedHeaderNamesForService (g : Registry) (serviceName : string) : list string :=
  let names := omap (fun h => match h with HeaderInjectionHook _ n _ => Some n | _ => None end) in
  let '(global, scoped) := snapshot g serviceName in
  names global ++ names scoped.

End Hooks.
Export Hooks.

(** ** Start of a session *)
Module Bootstrap.

Record ServiceConfig : Type := mkServiceConfig { sc_Name : string; sc_SecretRef : SecretRef; sc_FakeFormat : string }.
Record InjectHeaderConfig : Type := mkInjectConfig { ic_ServiceName : string; ic_HeaderName : string; ic_Template : string }.
Record ServiceEnvVar : Type := mkServiceEnvVar { ev_ServiceName : string; ev_VarName : string }.
Record ResolvedServices : Type := mkResolved {
  ServiceConfigs : list ServiceConfig;
  InjectHeaders : list InjectHeaderConfig;
  ScrubServices : gmap string bool
}.

Section Resolve.
Context {U : UnicodeCase} `{L : Libraries}.

Fixpoint resolve_services (svcs : list HTTPService) (acc : ResolvedServices)
  : result (string * secret_error) ResolvedServices :=
  match svcs with
  | [] => Ok acc
  | svc :: rest =>
    match h_Secret svc with
    | None => resolve_services rest acc
    | Some sec =>
      match ParseRef (hs_Ref sec) with
      | Err e => Err (h_Name svc, e)
      | Ok ref =>
        resolve_services rest
          (mkResolved (ServiceConfigs acc ++ [mkServiceConfig (h_Name svc) ref (hs_Format sec)])
             (InjectHeaders acc ++
              match h_Inject svc with
              | Some (Some h) => [mkInjectConfig (h_Name svc) (ih_Name h) (ih_Template h)]
              | _ => []
              end)
             (<[h_Name svc := default true (h_ScrubResponse svc)]> (ScrubServices acc)))
      end
    end
  end.

Definition ResolveServiceConfigs (svcs : list HTTPService)
  : result (string * secret_error) (option ResolvedServices) :=
  if negb (nonempty svcs) then Ok None
  else if negb (existsb (fun svc => bool_decide (is_Some (h_Secret svc))) svcs) then Ok None
  else match resolve_services svcs (mkResolved [] [] ∅) with Ok r => Ok (Some r) | Err e => Err e end.

End Resolve.

Inductive boot_error : Type :=
| FetchFailed (service : string)
| GenerateFailed (service : string) (e : secret_error)
| RegenerateFailed (service : string) (e : secret_error)
| AddFailed (service : string) (e : table_error).

Section Boot.
Context (fetch : SecretRef -> option (list Z)) (rand : nat -> nat -> Z) (now : nat -> Z).

(** The bytes [crypto/rand] delivers for the [k]-th fake. *)
Definition draw (format : string) (k : nat) : list Z :=
  match ParseFormat format with Ok (_, n) => rand k <$> seq 0 (Z.to_nat n) | Err _ => [] end.

Definition new_fake (svc : ServiceConfig) (real : list Z) (k : nat) : result secret_error (list Z) :=
  GenerateFake (sc_FakeFormat svc) (Z.of_nat (length real)) (draw (sc_FakeFormat svc) k).

(** One service: a fake, and a second one when the first does not fit the table.  [k] counts the
    fakes made so far. *)
Definition boot_service (t : Table) (k : nat) (svc : ServiceConfig) : result boot_error (Table * nat) :=
  match fetch (sc_SecretRef svc) with
  | None => Err (FetchFailed (sc_Name svc))
  | Some real =>
    match new_fake svc real k with
    | Err e => Err (GenerateFailed (sc_Name svc) e)
    | Ok fake =>
      match Add t (sc_Name svc) fake real (now k) with
      | Ok t' => Ok (t', S k)
      | Err _ =>
        match new_fake svc real (S k) with
        | Err e => Err (RegenerateFailed (sc_Name svc) e)
        | Ok fake2 =>
          match Add t (sc_Name svc) fake2 real (now (S k)) with
          | Ok t' => Ok (t', S (S k))
          | Err e => Err (AddFailed (sc_Name svc) e)
          end
        end
      end
    end
  end.

Fixpoint boot_services (t : Table) (k : nat) (services : list ServiceConfig) : result boot_error Table :=
  match services with
  | [] => Ok t
  | svc :: rest => '(t', k') <-? boot_service t k svc ; boot_services t' k' rest
  end.

Definition BootstrapCredentials (services : list ServiceConfig) : result boot_error Table :=
  boot_services New 0 services.

End Boot.

(** The hooks a session registers: the guard before the substitution, both for every request. *)
Definition session_hooks (resolved : ResolvedServices) : Registry :=
  fold_left (fun g ih => Register g (ic_ServiceName ih)
                           (HeaderInjectionHook (ic_ServiceName ih) (ic_HeaderName ih) (ic_Template ih)))
    (InjectHeaders resolved)
    (Register (Register NewRegistry "" LeakGuardHook) "" (CredsSubHook (Some (ScrubServices resolved)))).

Inductive env_var_error : Type :=
| InvalidVarName (name service : string)
| DuplicateVar (name first second : string).

(** On POSIX systems [envVarKey] is the identity. *)
Definition envVarKey (name : string) : string := name.

Fixpoint env_owners (envVars : list ServiceEnvVar) (owner : gmap string string) : result env_var_error unit :=
  match envVars with
  | [] => Ok tt
  | ev :: rest =>
    if (ev_VarName ev ==? "") || has_byte 61 (string_bytes (ev_VarName ev)) || has_byte 0 (string_bytes (ev_VarName ev))
    then Err (InvalidVarName (ev_VarName ev) (ev_ServiceName ev))
    else match owner !! envVarKey (ev_VarName ev) with
    | Some prev => Err (DuplicateVar (ev_VarName ev) prev (ev_ServiceName ev))
    | None => env_owners rest (<[envVarKey (ev_VarName ev) := ev_ServiceName ev]> owner)
    end
  end.

(** An empty map and a nil map look alike to every caller. *)
Definition BuildServiceEnvVars (envVars : list ServiceEnvVar) (table : option Table)
  : result env_var_error (gmap string (list Z)) :=
  if negb (nonempty envVars) then Ok ∅
  else
    _ <-? env_owners envVars ∅ ;
    match table with
    | None => Ok ∅
    | Some t =>
      Ok (fold_left (fun m ev => match FakeForService t (ev_ServiceName ev) with
                                 | Some fake => <[ev_VarName ev := fake]> m
                                 | None => m
                                 end) envVars ∅)
    end.

End Bootstrap.
Export Bootstrap.
