(* ===== verification/CredSubTheorems.v ===== *)
(** * Theorems about credential substitution

    The substitution is leftmost-longest rewriting whatever the order of registration; the hooks
    never write a credential into a request outside the declared services, nor, for a request that
    keeps services apart, the credential of another service; scrubbed bodies are free of real
    credentials when fakes and reals do not overlap; and the start of a session hands the agent
    fakes only. *)

From Stdlib Require Import ZArith Lia Ascii String.
From stdpp Require Import base list strings gmap.
From S2P Require Import Prelude GoText GoNet GoStrings PolicyModel HttpService CredSub.
Open Scope string_scope.
Open Scope list_scope.
Open Scope Z_scope.

(** ** Substitution *)
Module Substitution.

(** Leftmost-longest rewriting: at each position the longest pattern that starts there is replaced
    and the scan goes on behind it; a byte where no pattern starts is copied. *)
Inductive rewritten (pairs : list (list Z * list Z)) : list Z -> list Z -> Prop :=
| rewritten_end : rewritten pairs [] []
| rewritten_match p q rest out :
    (p, q) ∈ pairs -> p <> [] ->
    (forall p' q', (p', q') ∈ pairs -> p' `prefix_of` p ++ rest -> (length p' <= length p)%nat) ->
    rewritten pairs rest out -> rewritten pairs (p ++ rest) (q ++ out)
| rewritten_copy b rest out :
    (forall p q, (p, q) ∈ pairs -> p <> [] -> ~ p `prefix_of` b :: rest) ->
    rewritten pairs rest out -> rewritten pairs (b :: rest) (b :: out).

Definition table_ok (t : Table) : Prop :=
  Forall (fun e => Fake e <> [] /\ length (Fake e) = length (Real e)) t /\
  NoDup (ServiceName <$> t) /\
  NoDup ((Fake <$> t) ++ (Real <$> t)).

Lemma take_prefix (p rest : list Z) : take (length p) rest = p -> p `prefix_of` rest.
Proof. intros H. exists (drop (length p) rest). by rewrite <- H at 1; rewrite take_drop. Qed.

Lemma prefix_take (p rest : list Z) : p `prefix_of` rest -> take (length p) rest = p.
Proof. intros [k ->]. apply take_app_length. Qed.

Lemma longest_match_snoc pairs x rest :
  longest_match (pairs ++ [x]) rest =
  let best := longest_match pairs rest in
  if Nat.leb (length x.1) best.1 then best
  else if Nat.ltb (length rest) (length x.1) then best
  else if take (length x.1) rest ==? x.1 then (length x.1, x.2) else best.
Proof. unfold longest_match. by rewrite fold_left_app. Qed.

Lemma longest_match_spec pairs rest :
  let '(n, q) := longest_match pairs rest in
  (forall p' q', (p', q') ∈ pairs -> p' `prefix_of` rest -> (length p' <= n)%nat) /\
  (n <> O -> exists p, (p, q) ∈ pairs /\ length p = n /\ p `prefix_of` rest).
Proof.
  induction pairs as [|[p0 q0] pairs IH] using rev_ind.
  { cbn. split; [|lia]. intros p' q' Hin. by apply not_elem_of_nil in Hin. }
  rewrite longest_match_snoc. destruct (longest_match pairs rest) as [n q]. cbn [fst snd]. cbv zeta.
  destruct IH as [Hmax Hex].
  assert (Hkeep : (p0 `prefix_of` rest -> (length p0 <= n)%nat) ->
            (forall p' q', (p', q') ∈ pairs ++ [(p0, q0)] -> p' `prefix_of` rest -> (length p' <= n)%nat) /\
            (n <> O -> exists p, (p, q) ∈ pairs ++ [(p0, q0)] /\ length p = n /\ p `prefix_of` rest)).
  { intros H0. split.
    - intros p' q' [Hin|Hin]%elem_of_app Hp; [eauto|]. apply list_elem_of_singleton in Hin as [= -> ->]. auto.
    - intros Hn. destruct (Hex Hn) as (p & Hin & ?). exists p. rewrite elem_of_app. auto. }
  destruct (Nat.leb_spec (length p0) n); [apply Hkeep; lia|].
  destruct (Nat.ltb_spec (length rest) (length p0)).
  { apply Hkeep. intros Hp. apply prefix_length in Hp. lia. }
  case_bool_decide as Ht; [|apply Hkeep; intros Hp%prefix_take; congruence].
  split.
  - intros p' q' [Hin|Hin]%elem_of_app Hp.
    + specialize (Hmax _ _ Hin Hp). lia.
    + apply list_elem_of_singleton in Hin as [= -> ->]. lia.
  - intros _. exists p0. rewrite elem_of_app, list_elem_of_singleton. split_and!; [by right|done|by apply take_prefix].
Qed.

Lemma replace_loop_rewritten pairs body turns : forall i out,
  (length body - i <= turns)%nat ->
  exists w, rewritten pairs (drop i body) w /\
    match replace_loop turns pairs body i out with
    | Some o => o = default (take i body) out ++ w
    | None => out = None /\ w = drop i body
    end.
Proof.
  induction turns as [|turns IH]; intros i out Hf.
  { exists []. rewrite drop_ge by lia. split; [constructor|]. cbn. destruct out; [by rewrite app_nil_r|done]. }
  cbn [replace_loop]. destruct (Nat.ltb_spec i (length body)).
  2: { exists []. rewrite drop_ge by lia. split; [constructor|]. destruct out; [by rewrite app_nil_r|done]. }
  pose proof (longest_match_spec pairs (drop i body)) as Hm.
  destruct (longest_match pairs (drop i body)) as [n q]. destruct Hm as [Hmax Hex].
  destruct (Nat.ltb_spec 0 n).
  - destruct Hex as (p & Hin & Hlen & rest & Hrest); [lia|].
    assert (Hd : drop (i + n) body = rest).
    { rewrite <- drop_drop, Hrest, <- Hlen. apply drop_app_length. }
    destruct (IH (i + n)%nat (Some (default (take i body) out ++ q))) as (w & Hw & Hr); [lia|].
    exists (q ++ w). rewrite Hd in *. split.
    + rewrite Hrest. constructor; auto. { intros ->. cbn in Hlen. lia. }
      intros p' q' Hin' Hp'. rewrite <- Hrest, Hlen in *. eauto.
    + destruct (replace_loop _ _ _ _ _) as [o|]; [|by destruct Hr]. rewrite Hr. cbn. by rewrite <- app_assoc.
  - assert (n = O) as -> by lia.
    destruct (lookup_lt_is_Some_2 body i) as [b Hb]; [done|].
    rewrite (drop_S _ _ _ Hb) in *. change (take 1 (b :: drop (S i) body)) with [b].
    destruct (IH (S i) ((fun o => o ++ [b]) <$> out)) as (w & Hw & Hr); [lia|].
    exists (b :: w). split.
    + constructor; [|done]. intros p q' Hin Hne Hp. specialize (Hmax _ _ Hin Hp). destruct p; [done|cbn in Hmax; lia].
    + destruct (replace_loop _ _ _ _ _) as [o|].
      * rewrite Hr. destruct out as [o'|]; cbn; [by rewrite <- app_assoc|].
        by rewrite (take_S_r _ _ _ Hb), <- app_assoc.
      * destruct Hr as [Hn ->]. by destruct out.
Qed.

Lemma rewritten_copy_all pairs body :
  (forall p q, (p, q) ∈ pairs -> p <> [] -> forall k, ~ p `prefix_of` drop k body) -> rewritten pairs body body.
Proof.
  induction body as [|b body IH]; intros H; constructor.
  - intros p q Hin Hne. apply (H p q Hin Hne O).
  - apply IH. intros p q Hin Hne k. apply (H p q Hin Hne (S k)).
Qed.

Lemma replace_rewritten pairs body : rewritten pairs body (replace pairs body).
Proof.
  unfold replace. destruct body as [|b body]; [constructor|]. cbn [nonempty negb].
  destruct pairs as [|p pairs].
  { apply rewritten_copy_all. intros ? ? Hin. by apply not_elem_of_nil in Hin. }
  cbn [nonempty negb]. destruct (replace_loop_rewritten (p :: pairs) (b :: body) (length (b :: body)) 0 None) as (w & Hw & Hr).
  { lia. }
  rewrite drop_0 in *. destruct (replace_loop _ _ _ _ _) as [o|]; cbn in *; [by subst|].
  by destruct Hr as [_ ->].
Qed.

(** Each pattern has one replacement. *)
Definition functional_pairs (pairs : list (list Z * list Z)) : Prop :=
  forall p q q', (p, q) ∈ pairs -> (p, q') ∈ pairs -> q = q'.

Lemma prefix_app_inj (p p' rest rest' : list Z) :
  p ++ rest = p' ++ rest' -> length p = length p' -> p = p' /\ rest = rest'.
Proof. intros H Hl. by apply app_inj_1. Qed.

Lemma rewritten_deterministic pairs body out :
  functional_pairs pairs -> rewritten pairs body out -> forall out', rewritten pairs body out' -> out = out'.
Proof.
  intros Hf H. induction H as [|p q rest out Hin Hne Hmax H IH|b rest out Hnone H IH]; intros out' H'.
  - inversion H' as [|p ? ? ? _ Hne' _ _ Heq| ]; [done|]. by destruct p.
  - inversion H' as [Heq|p' q' rest' out1 Hin' Hne' Hmax' H1 Heq|b rest' out1 Hnone H1 Heq]; subst.
    + by destruct p.
    + assert (p = p' /\ rest = rest') as [<- <-].
      { symmetry in Heq. apply prefix_app_inj; [done|]. apply Nat.le_antisymm.
        - apply (Hmax' p q Hin). rewrite <- Heq. by apply prefix_app_r.
        - apply (Hmax p' q' Hin'). rewrite Heq. by apply prefix_app_r. }
      rewrite (Hf _ _ _ Hin Hin'). f_equal. auto.
    + exfalso. apply (Hnone _ _ Hin Hne). rewrite Heq. by apply prefix_app_r.
  - inversion H' as [|p' q' rest' out1 Hin' Hne' Hmax' H1 Heq|b' rest' out1 Hnone' H1 Heq]; subst.
    + exfalso. apply (Hnone _ _ Hin' Hne'). rewrite <- Heq. by apply prefix_app_r.
    + f_equal. auto.
Qed.

End Substitution.
Export Substitution.

(** ** The table *)
Module TableFacts.

Lemma starts_with_spec p l : starts_with p l = true <-> p `prefix_of` l.
Proof.
  revert l. induction p as [|a p IH]; intros l; cbn [starts_with].
  { split; [intros _; apply prefix_nil|done]. }
  destruct l as [|b l].
  { split; [done|]. intros H. by apply prefix_nil_not in H. }
  rewrite andb_true_iff, IH, Z.eqb_eq. split.
  - intros [-> H]. by apply prefix_cons.
  - intros H. by split; [eapply prefix_cons_inv_1|eapply prefix_cons_inv_2].
Qed.

Lemma contains_spec p l : contains p l = true <-> exists k, p `prefix_of` drop k l.
Proof.
  induction l as [|b l IH]; cbn [contains]; rewrite orb_true_iff, starts_with_spec.
  - split; [intros [H|H]; [by exists O|done]|]. intros [k H]. left. by rewrite drop_nil in H.
  - rewrite IH. split.
    + intros [H|[k H]]; [by exists O|by exists (S k)].
    + intros [[|k] H]; [by left|right; by exists k].
Qed.

Lemma contains_none p l k : contains p l = false -> ~ p `prefix_of` drop k l.
Proof. intros H Hp. assert (contains p l = true) by (apply contains_spec; eauto). congruence. Qed.

Lemma empty_table_ok : table_ok New.
Proof. repeat split; constructor. Qed.

Lemma add_conflict_None t s f r :
  add_conflict t s f r = None ->
  Forall (fun e => ServiceName e <> s /\ Fake e <> f /\ Real e <> f /\ Fake e <> r /\ Real e <> r) t.
Proof.
  induction t as [|e t IH]; cbn [add_conflict]; [constructor|]. repeat case_bool_decide; try done.
  intros H'. constructor; auto.
Qed.

Lemma not_elem_fmap {A} (g : Entry -> A) (x : A) (P : Entry -> Prop) t :
  Forall P t -> (forall e, P e -> g e <> x) -> x ∉ g <$> t.
Proof. intros Hall HP (e & -> & He)%list_elem_of_fmap. rewrite Forall_forall in Hall. by apply (HP e); [auto|]. Qed.

Lemma Add_ok t s f r now t' : table_ok t -> Add t s f r now = Ok t' -> table_ok t' /\ t' = t ++ [mkEntry s f r now].
Proof.
  intros (Hlen & Hnames & Hpats). unfold Add. destruct f as [|f0 f]; [done|]. destruct r as [|r0 r]; [done|].
  cbn [nonempty negb orb]. set (F := f0 :: f). set (R := r0 :: r). assert (HF : F <> []) by done. clearbody F R.
  destruct (Nat.eqb_spec (length F) (length R)) as [Hl|]; [|done]. cbn [negb]. case_bool_decide as HFR; [done|].
  destruct (add_conflict t s F R) eqn:Ec; [done|]. apply add_conflict_None in Ec. intros [= <-]. split; [|done].
  split_and!.
  - apply Forall_app. repeat constructor; auto.
  - rewrite fmap_app. apply NoDup_app. split_and!; [done| |apply NoDup_singleton].
    intros x Hx ->%list_elem_of_singleton. revert Hx. eapply not_elem_fmap; [exact Ec|]. intros e He. apply He.
  - rewrite !fmap_app. apply NoDup_app in Hpats as (Hf & Hdis & Hr). cbn [fmap list_fmap Fake Real].
    assert (HFt : F ∉ Fake <$> t) by (eapply not_elem_fmap; [exact Ec|intros e He; apply He]).
    assert (HFr : F ∉ Real <$> t) by (eapply not_elem_fmap; [exact Ec|intros e He; apply He]).
    assert (HRt : R ∉ Fake <$> t) by (eapply not_elem_fmap; [exact Ec|intros e He; apply He]).
    assert (HRr : R ∉ Real <$> t) by (eapply not_elem_fmap; [exact Ec|intros e He; apply He]).
    apply NoDup_app. split_and!.
    + apply NoDup_app. split_and!; [done| |apply NoDup_singleton]. by intros x Hx ->%list_elem_of_singleton.
    + intros x [Hx|Hx]%elem_of_app; rewrite not_elem_of_app, list_elem_of_singleton.
      * split; [auto|]. by intros ->.
      * apply list_elem_of_singleton in Hx as ->. auto.
    + apply NoDup_app. split_and!; [done| |apply NoDup_singleton]. by intros x Hx ->%list_elem_of_singleton.
Qed.

Lemma to_real_elem t p q : (p, q) ∈ to_real t <-> exists e, e ∈ t /\ p = Fake e /\ q = Real e.
Proof. unfold to_real. rewrite list_elem_of_fmap. split; intros (e & H); exists e; naive_solver. Qed.

Lemma to_fake_elem t p q : (p, q) ∈ to_fake t <-> exists e, e ∈ t /\ p = Real e /\ q = Fake e.
Proof. unfold to_fake. rewrite list_elem_of_fmap. split; intros (e & H); exists e; naive_solver. Qed.

Lemma NoDup_fmap_functional {A} (g : Entry -> A) t e e' :
  NoDup (g <$> t) -> e ∈ t -> e' ∈ t -> g e = g e' -> e = e'.
Proof.
  induction t as [|x t IH]; [intros _ H; by apply not_elem_of_nil in H|]. rewrite fmap_cons, NoDup_cons.
  intros [Hx Hnd] [->|He]%elem_of_cons [->|He']%elem_of_cons Hg; auto.
  - destruct Hx. rewrite Hg. by apply list_elem_of_fmap_2.
  - destruct Hx. rewrite <- Hg. by apply list_elem_of_fmap_2.
Qed.

Lemma to_real_functional t : table_ok t -> functional_pairs (to_real t).
Proof.
  intros (_ & _ & [Hf _]%NoDup_app) p q q' (e & He & -> & ->)%to_real_elem (e' & He' & Hp & ->)%to_real_elem.
  by rewrite (NoDup_fmap_functional Fake t e e').
Qed.

Lemma to_fake_functional t : table_ok t -> functional_pairs (to_fake t).
Proof.
  intros (_ & _ & (_ & _ & Hr)%NoDup_app) p q q' (e & He & -> & ->)%to_fake_elem (e' & He' & Hp & ->)%to_fake_elem.
  by rewrite (NoDup_fmap_functional Real t e e').
Qed.

Lemma rewritten_length pairs body out :
  (forall p q, (p, q) ∈ pairs -> length p = length q) -> rewritten pairs body out -> length out = length body.
Proof.
  intros Hl H. induction H as [|p q rest out Hin Hne Hmax H IH|b rest out Hn H IH]; cbn; auto.
  rewrite !length_app, IH, (Hl _ _ Hin). done.
Qed.

Lemma rewritten_ext pairs pairs' body out :
  (forall x, x ∈ pairs <-> x ∈ pairs') -> rewritten pairs body out -> rewritten pairs' body out.
Proof.
  intros He H. induction H as [|p q rest out Hin Hne Hmax H IH|b rest out Hn H IH]; constructor; auto.
  - by apply He.
  - intros p' q' Hin'. apply He in Hin'. eauto.
  - intros p' q' Hin'. apply He in Hin'. eauto.
Qed.

Lemma table_lengths t e : table_ok t -> e ∈ t -> Fake e <> [] /\ length (Fake e) = length (Real e).
Proof. intros [H _] He. rewrite Forall_forall in H. auto. Qed.

Lemma replace_exact pairs pairs' body out :
  functional_pairs pairs -> (forall x, x ∈ pairs' <-> x ∈ pairs) ->
  replace pairs' body = out <-> rewritten pairs body out.
Proof.
  intros Hf He. assert (Hr : rewritten pairs body (replace pairs' body)).
  { eapply rewritten_ext; [exact He|apply replace_rewritten]. }
  split; [by intros <-|]. intros Ho. by eapply rewritten_deterministic.
Qed.

End TableFacts.
Export TableFacts.

Module CredTheorems.

(** C34. Substitution is leftmost-longest rewriting of the original body: in both directions the
    output is the one the rewriting relation determines, whatever the order the services were
    registered in, and has the length of the body. *)
Theorem Replace_exact t t' body :
  table_ok t -> t' ≡ₚ t ->
  (forall out, ReplaceFakeToReal t' body = out <-> rewritten (to_real t) body out) /\
  (forall out, ReplaceRealToFake t' body = out <-> rewritten (to_fake t) body out) /\
  length (ReplaceFakeToReal t' body) = length body /\
  length (ReplaceRealToFake t' body) = length body.
Proof.
  intros Hok Hp.
  assert (Hr : forall x, x ∈ to_real t' <-> x ∈ to_real t) by (intros x; unfold to_real; by rewrite Hp).
  assert (Hf : forall x, x ∈ to_fake t' <-> x ∈ to_fake t) by (intros x; unfold to_fake; by rewrite Hp).
  split_and!.
  - intros out. by apply replace_exact; [apply to_real_functional|].
  - intros out. by apply replace_exact; [apply to_fake_functional|].
  - eapply rewritten_length; [|apply replace_rewritten]. intros p q (e & He & -> & ->)%Hr%to_real_elem.
    by apply (table_lengths t).
  - eapply rewritten_length; [|apply replace_rewritten]. intros p q (e & He & -> & ->)%Hf%to_fake_elem.
    symmetry. by apply (table_lengths t).
Qed.

End CredTheorems.
Export CredTheorems.

(** ** Scrubbing *)
Module Scrub.

Fixpoint suffixes (l : list Z) : list (list Z) :=
  match l with [] => [] | _ :: l' => l :: suffixes l' end.

(** An end of [a] continues as [b] does, or [b] lies in [a]. *)
Definition overlaps (a b : list Z) : bool :=
  existsb (fun s => starts_with s b || starts_with b s) (suffixes a).

(** No fake overlaps a real credential at either end. *)
Definition separated (t : Table) : Prop :=
  Forall (fun e => Forall (fun e' => overlaps (Real e) (Fake e') = false /\ overlaps (Fake e') (Real e) = false) t) t.

Lemma suffix_elem (s1 s2 : list Z) : s2 <> [] -> s2 ∈ suffixes (s1 ++ s2).
Proof.
  intros Hne. induction s1 as [|x s1 IH]; cbn [app suffixes].
  - destruct s2; [done|]. cbn [suffixes]. apply list_elem_of_here.
  - by apply list_elem_of_further.
Qed.

Lemma overlaps_none a b s1 s2 :
  overlaps a b = false -> a = s1 ++ s2 -> s2 <> [] -> ~ (s2 `prefix_of` b \/ b `prefix_of` s2).
Proof.
  intros Ho -> Hne Hp. assert (overlaps (s1 ++ s2) b = true); [|congruence].
  apply existsb_exists. exists s2. rewrite orb_true_iff, !starts_with_spec. split; [|done].
  by apply list_elem_of_In, suffix_elem.
Qed.

Lemma prefix_of_app_cases (w a b : list Z) : w `prefix_of` a ++ b -> w `prefix_of` a \/ a `prefix_of` w.
Proof.
  revert a. induction w as [|x w IH]; intros a H; [left; apply prefix_nil|].
  destruct a as [|y a]; [right; apply prefix_nil|].
  pose proof (prefix_cons_inv_1 _ _ _ _ H) as ->. apply prefix_cons_inv_2 in H.
  destruct (IH _ H) as [Hp|Hp]; [left|right]; by apply prefix_cons.
Qed.

(** A word at the head of the output was at the head of the input or ends in a replacement. *)
Lemma rewritten_prefix pairs body out w :
  rewritten pairs body out -> w `prefix_of` out ->
  w `prefix_of` body \/
  exists w1 w2 p q, w = w1 ++ w2 /\ w2 <> [] /\ (p, q) ∈ pairs /\ (w2 `prefix_of` q \/ q `prefix_of` w2).
Proof.
  intros H. revert w. induction H as [|p q rest out Hin Hne Hmax H IH|b rest out Hn H IH]; intros w Hw; [by left| |].
  - destruct w as [|x w]; [left; apply prefix_nil|]. right. exists [], (x :: w), p, q.
    split_and!; [done..|]. by eapply prefix_of_app_cases.
  - destruct w as [|x w]; [left; apply prefix_nil|].
    pose proof (prefix_cons_inv_1 _ _ _ _ Hw) as ->. apply prefix_cons_inv_2 in Hw.
    destruct (IH _ Hw) as [Hp|(w1 & w2 & p & q & -> & ?)]; [left; by apply prefix_cons|].
    right. by exists (b :: w1), w2, p, q.
Qed.

Lemma rewritten_clean pairs pat body out :
  pat <> [] -> (exists q, (pat, q) ∈ pairs) ->
  (forall p q, (p, q) ∈ pairs -> overlaps pat q = false /\ overlaps q pat = false) ->
  rewritten pairs body out -> forall k, ~ pat `prefix_of` drop k out.
Proof.
  intros Hne [q0 Hin0] Hsep H.
  induction H as [|p q rest out Hin Hpne Hmax H IH|b rest out Hn H IH]; intros k Hp.
  - rewrite drop_nil in Hp. by apply prefix_nil_inv in Hp.
  - destruct (decide (k < length q)%nat).
    + rewrite drop_app_le in Hp by lia. apply prefix_of_app_cases in Hp.
      destruct (Hsep _ _ Hin) as [_ Ho]. eapply (overlaps_none q pat (take k q) (drop k q) Ho); [by rewrite take_drop| |tauto].
      intros Hd%(f_equal length). rewrite length_drop in Hd. cbn in Hd. lia.
    + rewrite drop_app_ge in Hp by lia. by apply (IH _ Hp).
  - destruct k as [|k]; [|by apply (IH _ Hp)]. change (drop 0 (b :: out)) with (b :: out) in Hp.
    destruct (rewritten_prefix pairs (b :: rest) (b :: out) pat) as [Hb|(w1 & w2 & p & q & Hw & Hwne & Hpq & Hc)]; [by constructor|done| |].
    + by apply (Hn pat q0).
    + destruct (Hsep _ _ Hpq) as [Ho _]. by eapply overlaps_none.
Qed.

Lemma scrub_complete_aux t body e :
  table_ok t -> separated t -> e ∈ t -> contains (Real e) (ReplaceRealToFake t body) = false.
Proof.
  intros Hok Hsep He. apply not_true_iff_false. rewrite contains_spec. intros [k Hp].
  destruct (table_lengths t e Hok He) as [Hne Hlen].
  eapply (rewritten_clean (to_fake t) (Real e)); [| | |apply replace_rewritten|exact Hp].
  - intros Hr. rewrite Hr in Hlen. by destruct (Fake e).
  - exists (Fake e). apply to_fake_elem. eauto.
  - intros p q (e' & He' & -> & ->)%to_fake_elem. unfold separated in Hsep.
    rewrite Forall_forall in Hsep. specialize (Hsep e He). rewrite Forall_forall in Hsep. auto.
Qed.

Lemma scrub_complete_post t scrub service resp data :
  default false (scrub !! service) = true -> rs_Body resp = Readable data ->
  rs_Body (CredsSub_PostHook t (Some scrub) resp service) = Readable (ReplaceRealToFake t data).
Proof. intros Hs Hb. unfold CredsSub_PostHook. by rewrite Hs, Hb. Qed.

(** When no fake of the table overlaps a real credential, a scrubbed response body contains no
    real credential, wherever and however often the upstream echoed one. *)
Theorem scrub_complete t scrub service resp :
  table_ok t -> separated t -> default false (scrub !! service) = true ->
  match rs_Body (CredsSub_PostHook t (Some scrub) resp service) with
  | Readable body => forall e, e ∈ t -> contains (Real e) body = false
  | _ => True
  end.
Proof.
  intros Hok Hsep Hs. unfold CredsSub_PostHook. rewrite Hs. cbn [negb].
  destruct (rs_Body resp) eqn:Eb; cbn [rs_Body]; try done; [by rewrite Eb| |by rewrite Eb].
  intros e He. by apply scrub_complete_aux.
Qed.

Definition sample_table : Table :=
  [mkEntry "github" (string_bytes "ghp_fake0001") (string_bytes "ghs-R3AL-xyz") 0;
   mkEntry "stripe" (string_bytes "sk_fake02") (string_bytes "pk-R3AL-2") 1].

Lemma sample_table_ok : table_ok sample_table.
Proof. repeat split; decide_vm. Qed.

Lemma Replace_exact_witness :
  ReplaceFakeToReal (rev sample_table) (string_bytes "Bearer ghp_fake0001") = string_bytes "Bearer ghs-R3AL-xyz" /\
  (forall out, ReplaceFakeToReal (rev sample_table) (string_bytes "a") = out <-> rewritten (to_real sample_table) (string_bytes "a") out).
Proof.
  split; [vm_compute; reflexivity|].
  apply (Replace_exact sample_table (rev sample_table)); [apply sample_table_ok|]. symmetry. apply Permutation_rev.
Defined.

Lemma scrub_complete_witness :
  exists body, rs_Body (CredsSub_PostHook sample_table (Some {["github" := true]})
                          (mkResponse 200 ∅ (Readable (string_bytes "token=ghs-R3AL-xyz;")) 19) "github") = Readable body /\
  contains (string_bytes "ghs-R3AL-xyz") body = false.
Proof.
  assert (Hsep : separated sample_table) by (unfold separated; decide_vm).
  pose proof (scrub_complete sample_table {["github" := true]} "github"
                (mkResponse 200 ∅ (Readable (string_bytes "token=ghs-R3AL-xyz;")) 19) sample_table_ok Hsep eq_refl) as H.
  eexists. split; [reflexivity|]. exact (H _ (list_elem_of_here _ _)).
Defined.

(** Without the condition the end of a fake and the bytes behind it can spell a real credential
    that was not in the response. *)
Example scrub_reveals :
  let t := [mkEntry "a" (string_bytes "cd") (string_bytes "ab") 0; mkEntry "b" (string_bytes "xy") (string_bytes "de") 0] in
  (exists t0, Add New "a" (string_bytes "cd") (string_bytes "ab") 0 = Ok t0 /\ Add t0 "b" (string_bytes "xy") (string_bytes "de") 0 = Ok t) /\
  contains (string_bytes "de") (string_bytes "abe") = false /\
  contains (string_bytes "de") (ReplaceRealToFake t (string_bytes "abe")) = true.
Proof. split; [eexists; split; vm_compute; reflexivity|]. vm_compute. done. Qed.

End Scrub.
Export Scrub.

(** ** Requests *)
Module Requests.

(** What the guard scans and the substitution rewrites (the escaped path apart). *)
Definition parts (r : Request) : list (list Z) :=
  match rq_Body r with Readable b => [b] | _ => [] end ++
  [rq_RawQuery r; rq_Path r] ++ concat (map_to_list (rq_Header r)).*2.

Lemma rewritten_absent pairs body out :
  (forall p q, (p, q) ∈ pairs -> contains p body = false) -> rewritten pairs body out -> out = body.
Proof.
  intros Ha H. induction H as [|p q rest out Hin Hne Hmax H IH|b rest out Hn H IH]; [done| |].
  - specialize (Ha _ _ Hin). apply (contains_none _ _ 0) in Ha. destruct Ha. by apply prefix_app_r.
  - f_equal. apply IH. intros p q Hin. apply not_true_iff_false. rewrite contains_spec. intros [k Hk].
    specialize (Ha _ _ Hin). by apply (contains_none _ _ (S k)) in Ha.
Qed.

(** Pairs whose pattern does not occur do not matter. *)
Lemma rewritten_restrict pairs pairs' body out :
  (forall x, x ∈ pairs' -> x ∈ pairs) ->
  (forall p q, (p, q) ∈ pairs -> contains p body = true -> (p, q) ∈ pairs') ->
  rewritten pairs body out -> rewritten pairs' body out.
Proof.
  intros Hsub Hall H. induction H as [|p q rest out Hin Hne Hmax H IH|b rest out Hn H IH]; [constructor| |].
  - constructor; [|done| |].
    + apply Hall; [done|]. apply contains_spec. exists O. by apply prefix_app_r.
    + intros p' q' Hin'. eauto.
    + apply IH. intros p' q' Hin' [k Hk]%contains_spec. apply Hall; [done|]. apply contains_spec.
      exists (length p + k)%nat. rewrite <- drop_drop, drop_app_length. done.
  - constructor; [eauto|]. apply IH. intros p' q' Hin' [k Hk]%contains_spec. apply Hall; [done|].
    apply contains_spec. by exists (S k).
Qed.

Lemma ContainsFake_None t part : table_ok t -> ContainsFake t part = None -> forall e, e ∈ t -> contains (Fake e) part = false.
Proof.
  intros Hok H e He. destruct part as [|b part].
  { destruct (table_lengths t e Hok He) as [Hne _]. by destruct (Fake e). }
  unfold ContainsFake in H. cbn [nonempty negb] in H. destruct (List.find _ t) eqn:Ef; [done|].
  apply (find_none _ _ Ef). by apply list_elem_of_In.
Qed.

Lemma ContainsFake_Some t part s : ContainsFake t part = Some s -> exists e, e ∈ t /\ ServiceName e = s /\ contains (Fake e) part = true.
Proof.
  unfold ContainsFake. destruct part as [|b part]; [done|]. cbn [nonempty negb].
  destruct (List.find _ t) as [e|] eqn:Ef; [|done]. apply find_some in Ef as [Hin Hc]. intros [= <-].
  exists e. split; [by apply list_elem_of_In|done].
Qed.

Lemma foreign_nil t s : foreign t s [] = false.
Proof. done. Qed.

Lemma LeakGuard_spec t r s :
  LeakGuard_PreHook t r s =
  if existsb (foreign t s) (parts r) then Some (mkAbort 403 "credential leak blocked") else None.
Proof.
  unfold LeakGuard_PreHook, parts. rewrite !existsb_app. cbn [existsb].
  assert (Hn : forall l, nonempty l && foreign t s l = foreign t s l) by (intros [|]; done). rewrite !Hn.
  assert (Hh : existsb (fun kv : string * list (list Z) => existsb (foreign t s) kv.2) (map_to_list (rq_Header r)) =
               existsb (foreign t s) (concat (map_to_list (rq_Header r)).*2)).
  { induction (map_to_list (rq_Header r)) as [|[k vs] l IH]; [done|]. cbn [existsb fmap list_fmap concat snd].
    rewrite existsb_app. f_equal. apply IH. }
  rewrite Hh. generalize (existsb (foreign t s) (concat (map_to_list (rq_Header r)).*2)).
  generalize (foreign t s (rq_RawQuery r)), (foreign t s (rq_Path r)).
  destruct (rq_Body r) as [|data|]; cbn [existsb app]; [by intros [] [] []| |by intros [] [] []].
  by destruct (foreign t s data); intros [] [] [].
Qed.

Lemma guard_passes t r s part : LeakGuard_PreHook t r s = None -> part ∈ parts r -> foreign t s part = false.
Proof.
  rewrite LeakGuard_spec. destruct (existsb _ _) eqn:E; [done|]. intros _ Hin. apply not_true_iff_false. intros Hf.
  assert (existsb (foreign t s) (parts r) = true); [|congruence]. apply existsb_exists. exists part. by rewrite <- list_elem_of_In.
Qed.

(** A substitution that behaves like [sub] on every part of the request. *)
Lemma CredsSub_agrees t r (sub : list Z -> list Z) :
  rq_Body r <> Unreadable -> sub [] = [] ->
  (forall part, part ∈ parts r -> ReplaceFakeToReal t part = sub part) ->
  let r' := CredsSub_PreHook t r in
  rq_Body r' = match rq_Body r with Readable b => Readable (sub b) | b => b end /\
  rq_Path r' = sub (rq_Path r) /\ rq_RawQuery r' = sub (rq_RawQuery r) /\
  rq_Header r' = (fun vals : list (list Z) => sub <$> vals) <$> rq_Header r.
Proof.
  intros Hb H0 Hp. cbv zeta.
  assert (Hne : forall l, l ∈ parts r -> (if nonempty l then ReplaceFakeToReal t l else l) = sub l).
  { intros [|b l] Hl; [done|]. by apply Hp. }
  assert (Hpath : rq_Path r ∈ parts r) by (unfold parts; rewrite !elem_of_app; right; left; repeat constructor).
  assert (Hq : rq_RawQuery r ∈ parts r) by (unfold parts; rewrite !elem_of_app; right; left; repeat constructor).
  assert (Hh : (fun vals : list (list Z) => ReplaceFakeToReal t <$> vals) <$> rq_Header r =
               (fun vals : list (list Z) => sub <$> vals) <$> rq_Header r).
  { apply map_fmap_ext. intros k vals Hk. apply list_fmap_ext. intros i v Hv. apply Hp. unfold parts.
    rewrite !elem_of_app. right. right. apply list_elem_of_In, in_concat. exists vals.
    split; apply list_elem_of_In; [|by eapply list_elem_of_lookup_2]. apply list_elem_of_fmap. exists (k, vals).
    split; [done|]. by apply elem_of_map_to_list. }
  unfold CredsSub_PreHook. destruct (rq_Body r) as [|data|] eqn:Eb; [| |done];
    cbn [sub_headers_url with_url with_header with_body rq_Body rq_Path rq_RawQuery rq_Header rq_RawPath];
    rewrite Hh, !Hne by done; split_and!; try done.
  f_equal. apply Hp. unfold parts. rewrite Eb. apply list_elem_of_here.
Qed.

End Requests.
Export Requests.

Module SessionFacts.

Definition injection (ih : InjectHeaderConfig) : Hook :=
  HeaderInjectionHook (ic_ServiceName ih) (ic_HeaderName ih) (ic_Template ih).

Lemma Register_lookup g s h k :
  default [] (Register g s h !! k) = default [] (g !! k) ++ (if s ==? k then [h] else []).
Proof.
  unfold Register. case_bool_decide; subst.
  - by rewrite lookup_insert_eq.
  - by rewrite lookup_insert_ne, app_nil_r by done.
Qed.

Lemma session_hooks_lookup res k :
  default [] (session_hooks res !! k) =
  (if "" ==? k then [LeakGuardHook; CredsSubHook (Some (ScrubServices res))] else []) ++
  (injection <$> List.filter (fun ih => ic_ServiceName ih ==? k) (InjectHeaders res)).
Proof.
  unfold session_hooks.
  assert (H : forall l g, default [] (fold_left (fun g ih => Register g (ic_ServiceName ih) (injection ih)) l g !! k) =
                default [] (g !! k) ++ (injection <$> List.filter (fun ih => ic_ServiceName ih ==? k) l)).
  { induction l as [|ih l IH]; intros g; cbn [fold_left List.filter]; [by rewrite app_nil_r|].
    rewrite IH, Register_lookup, <- app_assoc. f_equal. by case_bool_decide. }
  rewrite (H (InjectHeaders res)), !Register_lookup. f_equal. unfold NewRegistry. rewrite lookup_empty.
  by case_bool_decide.
Qed.

(** Header names a service injects, as keys of the header map. *)
Definition injected_keys (res : ResolvedServices) (s : string) : list string :=
  (fun ih => CanonicalHeaderKey (ic_HeaderName ih)) <$> List.filter (fun ih => ic_ServiceName ih ==? s) (InjectHeaders res).

Lemma run_injections t ihs r s :
  exists r', run_pre t (injection <$> ihs) r s = (r', None) /\
    rq_Body r' = rq_Body r /\ rq_Path r' = rq_Path r /\ rq_RawQuery r' = rq_RawQuery r /\
    forall k, k ∉ (fun ih => CanonicalHeaderKey (ic_HeaderName ih)) <$> ihs -> rq_Header r' !! k = rq_Header r !! k.
Proof.
  revert r. induction ihs as [|ih ihs IH]; intros r; [by exists r|].
  rewrite fmap_cons. cbn [run_pre PreHook injection].
  destruct (IH (HeaderInjection_PreHook t (ic_ServiceName ih) (ic_HeaderName ih) (ic_Template ih) r)) as (r' & -> & Hb & Hp & Hq & Hh).
  exists r'. split; [done|]. unfold HeaderInjection_PreHook in *.
  destruct (RealForService t (ic_ServiceName ih)); cbn [with_header rq_Body rq_Path rq_RawQuery rq_Header] in *;
    split_and!; try done; intros k Hk; rewrite fmap_cons, not_elem_of_cons in Hk; destruct Hk as [Hk Hk'];
    rewrite (Hh _ Hk'); [|done].
  by rewrite lookup_insert_ne, lookup_delete_ne by congruence.
Qed.

(** The pre-hooks of a request for a service: guard, substitution, injections. *)
Lemma ApplyPreHooks_session res t s r :
  Forall (fun ih => ic_ServiceName ih <> "") (InjectHeaders res) ->
  ApplyPreHooks (session_hooks res) t s r =
  match LeakGuard_PreHook t r s with
  | Some e => (r, Some e)
  | None => run_pre t (injection <$> List.filter (fun ih => ic_ServiceName ih ==? s) (InjectHeaders res)) (CredsSub_PreHook t r) s
  end.
Proof.
  intros Hne. unfold ApplyPreHooks, snapshot. rewrite session_hooks_lookup.
  assert (Hg : List.filter (fun ih => ic_ServiceName ih ==? "") (InjectHeaders res) = []).
  { induction Hne as [|ih l Hih _ IH]; [done|]. cbn [List.filter]. by rewrite bool_decide_eq_false_2. }
  rewrite Hg. rewrite bool_decide_eq_true_2 by done. cbn [app fmap list_fmap run_pre PreHook].
  destruct (LeakGuard_PreHook t r s); [done|]. case_bool_decide as Hs; cbn [negb]; subst; [by rewrite Hg|].
  rewrite session_hooks_lookup, bool_decide_eq_false_2 by congruence. done.
Qed.

Definition named (t : Table) : Prop := Forall (fun e => ServiceName e <> "") t.

Lemma foreign_undeclared t part :
  table_ok t -> named t -> foreign t "" part = existsb (fun e => contains (Fake e) part) t.
Proof.
  intros Hok Hn. unfold foreign. destruct (ContainsFake t part) as [s|] eqn:E; symmetry.
  - apply ContainsFake_Some in E as (e & He & <- & Hc). unfold named in Hn. rewrite Forall_forall in Hn.
    rewrite bool_decide_eq_false_2 by auto. apply existsb_exists. exists e. by rewrite <- list_elem_of_In.
  - apply not_true_iff_false. rewrite existsb_exists. intros (e & He%list_elem_of_In & Hc).
    rewrite (ContainsFake_None t part) in Hc; done.
Qed.

Lemma replace_absent t part :
  (forall e, e ∈ t -> contains (Fake e) part = false) -> ReplaceFakeToReal t part = part.
Proof.
  intros H. eapply rewritten_absent; [|apply replace_rewritten]. intros p q (e & He & -> & _)%to_real_elem. auto.
Qed.

Definition own (t : Table) (s : string) : Table := List.filter (fun e => ServiceName e ==? s) t.

Lemma own_elem t s e : e ∈ own t s <-> e ∈ t /\ ServiceName e = s.
Proof. unfold own. rewrite !list_elem_of_In, filter_In, bool_decide_eq_true. done. Qed.

Lemma replace_own t s part :
  table_ok t -> (forall e, e ∈ t -> contains (Fake e) part = true -> ServiceName e = s) ->
  ReplaceFakeToReal t part = ReplaceFakeToReal (own t s) part.
Proof.
  intros Hok H. unfold ReplaceFakeToReal. symmetry.
  assert (Hf : functional_pairs (to_real (own t s))).
  { intros p q q' (e & He%own_elem & -> & ->)%to_real_elem (e' & He'%own_elem & Hp & ->)%to_real_elem.
    apply (to_real_functional t Hok (Fake e)); apply to_real_elem; [exists e|exists e']; naive_solver. }
  apply (replace_exact _ _ _ _ Hf); [done|]. eapply rewritten_restrict; [| |apply replace_rewritten].
  - intros [p q] (e & [He _]%own_elem & ?)%to_real_elem. apply to_real_elem. eauto.
  - intros p q (e & He & -> & ->)%to_real_elem Hc. apply to_real_elem. exists e. rewrite own_elem. eauto.
Qed.

End SessionFacts.
Export SessionFacts.

Module RequestTheorems.

(** A request outside the declared services (the LLM path) is blocked with status 403 exactly
    when its body, query, path or a header carries a registered fake; a request that passes goes
    upstream unchanged, so no credential is ever written into it. *)
Theorem undeclared_requests_unchanged res t r :
  table_ok t -> named t -> Forall (fun ih => ic_ServiceName ih <> "") (InjectHeaders res) ->
  let carries := existsb (fun part => existsb (fun e => contains (Fake e) part) t) (parts r) in
  let '(r', err) := ApplyPreHooks (session_hooks res) t "" r in
  match err with
  | Some e => carries = true /\ StatusCode e = 403
  | None => carries = false /\ rq_Body r' = rq_Body r /\ rq_Path r' = rq_Path r /\
            rq_RawQuery r' = rq_RawQuery r /\ rq_Header r' = rq_Header r
  end.
Proof.
  intros Hok Hn Hne. cbv zeta. rewrite ApplyPreHooks_session, LeakGuard_spec by done.
  assert (Hc : existsb (foreign t "") (parts r) = existsb (fun part => existsb (fun e => contains (Fake e) part) t) (parts r)).
  { induction (parts r) as [|p l IH]; [done|]. cbn [existsb]. by rewrite IH, foreign_undeclared. }
  rewrite Hc. clear Hc. destruct (existsb _ (parts r)) eqn:E; [by split|].
  assert (Hg : List.filter (fun ih => ic_ServiceName ih ==? "") (InjectHeaders res) = []).
  { clear -Hne. induction Hne as [|ih l Hih _ IH]; [done|]. cbn [List.filter]. by rewrite bool_decide_eq_false_2. }
  rewrite Hg. cbn [fmap list_fmap run_pre]. split; [done|].
  destruct (decide (rq_Body r = Unreadable)) as [Eb|Eb].
  { unfold CredsSub_PreHook. rewrite Eb. done. }
  destruct (CredsSub_agrees t r id) as (H1 & H2 & H3 & H4); [done|done| |].
  - intros part Hpart. apply replace_absent. intros e He. apply not_true_iff_false. intros Hct.
    assert (existsb (fun part => existsb (fun e => contains (Fake e) part) t) (parts r) = true); [|congruence].
    apply existsb_exists. exists part. split; [by apply list_elem_of_In|]. apply existsb_exists. exists e. by rewrite <- list_elem_of_In.
  - split_and!; [|done|done|].
    + rewrite H1. by destruct (rq_Body r).
    + rewrite H4. rewrite <- (map_fmap_id (rq_Header r)) at 2. apply map_fmap_ext. intros. apply list_fmap_id.
Qed.

(** C33. A request for a service that passes the hooks and has no part with fakes of two services
    is rewritten with the credential of that service only, and only headers the service injects
    differ otherwise. *)
Theorem service_requests_own_credential res t s r r' :
  table_ok t -> Forall (fun ih => ic_ServiceName ih <> "") (InjectHeaders res) -> rq_Body r <> Unreadable ->
  Forall (fun part => forall e e', e ∈ t -> e' ∈ t -> contains (Fake e) part = true -> contains (Fake e') part = true ->
                      ServiceName e = ServiceName e') (parts r) ->
  ApplyPreHooks (session_hooks res) t s r = (r', None) ->
  let sub := ReplaceFakeToReal (own t s) in
  rq_Body r' = match rq_Body r with Readable b => Readable (sub b) | b => b end /\
  rq_Path r' = sub (rq_Path r) /\ rq_RawQuery r' = sub (rq_RawQuery r) /\
  forall k, k ∉ injected_keys res s -> rq_Header r' !! k = (fun vals : list (list Z) => sub <$> vals) <$> rq_Header r !! k.
Proof.
  intros Hok Hne Hb Hone. rewrite ApplyPreHooks_session by done.
  destruct (LeakGuard_PreHook t r s) eqn:Eg; [done|].
  destruct (run_injections t (List.filter (fun ih => ic_ServiceName ih ==? s) (InjectHeaders res)) (CredsSub_PreHook t r) s)
    as (r1 & -> & I1 & I2 & I3 & I4). intros [= <-]. cbv zeta.
  destruct (CredsSub_agrees t r (ReplaceFakeToReal (own t s))) as (H1 & H2 & H3 & H4); [done|done| |].
  - intros part Hpart. apply replace_own; [done|]. intros e He Hc.
    pose proof (guard_passes t r s part Eg Hpart) as Hf. unfold foreign in Hf.
    destruct (ContainsFake t part) as [s'|] eqn:Es.
    + apply negb_false_iff, bool_decide_eq_true in Hf as ->. apply ContainsFake_Some in Es as (e' & He' & <- & Hc').
      rewrite Forall_forall in Hone. by eapply Hone.
    + by rewrite (ContainsFake_None t part) in Hc.
  - split_and!; [congruence..|]. intros k Hk. rewrite (I4 k Hk), H4. apply lookup_fmap.
Qed.

End RequestTheorems.
Export RequestTheorems.

(** ** Start of a session *)
Module SessionTheorems.

Section Boot.
Context (fetch : SecretRef -> option (list Z)) (rand : nat -> nat -> Z) (now : nat -> Z).

(** The entry of a service: its own name and secret, and a fake of its format. *)
Definition entry_for (svc : ServiceConfig) (e : Entry) : Prop :=
  ServiceName e = sc_Name svc /\ fetch (sc_SecretRef svc) = Some (Real e) /\
  exists k, new_fake rand svc (Real e) k = Ok (Fake e).

Lemma boot_service_ok t k svc t' k' :
  table_ok t -> boot_service fetch rand now t k svc = Ok (t', k') ->
  table_ok t' /\ exists e, t' = t ++ [e] /\ entry_for svc e.
Proof.
  intros Hok. unfold boot_service. destruct (fetch _) as [real|] eqn:Ef; [|done].
  destruct (new_fake _ _ _ k) as [fake|] eqn:E1; [|done].
  destruct (Add t (sc_Name svc) fake real (now k)) as [t1|] eqn:Ea1.
  { intros [= <- <-]. destruct (Add_ok _ _ _ _ _ _ Hok Ea1) as [Hok' ->]. split; [done|]. eexists. split; [done|].
    repeat split; eauto. }
  destruct (new_fake _ _ _ (S k)) as [fake2|] eqn:E2; [|done].
  destruct (Add t (sc_Name svc) fake2 real (now (S k))) as [t1|] eqn:Ea2; [|done].
  intros [= <- <-]. destruct (Add_ok _ _ _ _ _ _ Hok Ea2) as [Hok' ->]. split; [done|]. eexists. split; [done|].
  repeat split; eauto.
Qed.

Lemma boot_services_ok services : forall t k t',
  table_ok t -> boot_services fetch rand now t k services = Ok t' ->
  table_ok t' /\ exists es, t' = t ++ es /\ Forall2 entry_for services es.
Proof.
  induction services as [|svc services IH]; intros t k t' Hok; cbn [boot_services].
  { intros [= <-]. split; [done|]. exists []. by rewrite app_nil_r. }
  intros H. apply rbind_Ok in H as ([t1 k1] & H1 & H2).
  destruct (boot_service_ok _ _ _ _ _ Hok H1) as (Hok1 & e & -> & He).
  destruct (IH _ _ _ Hok1 H2) as (Hok' & es & -> & Hes). split; [done|].
  exists (e :: es). rewrite <- app_assoc. split; [done|]. by constructor.
Qed.

Lemma FakeForService_Some t s v : FakeForService t s = Some v -> exists e, e ∈ t /\ ServiceName e = s /\ v = Fake e.
Proof.
  unfold FakeForService. destruct (List.find _ t) as [e|] eqn:Ef; [|done]. intros [= <-].
  apply find_some in Ef as [Hin Hs%bool_decide_eq_true]. exists e. by rewrite list_elem_of_In.
Qed.

Lemma env_values t envs var v : forall m : gmap string (list Z),
  fold_left (fun m ev => match FakeForService t (ev_ServiceName ev) with
                         | Some fake => <[ev_VarName ev := fake]> m
                         | None => m
                         end) envs m !! var = Some v ->
  m !! var = Some v \/ exists ev, ev ∈ envs /\ ev_VarName ev = var /\ FakeForService t (ev_ServiceName ev) = Some v.
Proof.
  induction envs as [|ev envs IH]; intros m; cbn [fold_left]; [by left|].
  intros H. destruct (IH _ H) as [Hm|(ev' & Hin & ?)].
  - destruct (FakeForService t (ev_ServiceName ev)) as [fake|] eqn:Ef; [|by left].
    destruct (decide (ev_VarName ev = var)) as [<-|Hne].
    + rewrite lookup_insert_eq in Hm. injection Hm as <-. right. exists ev. split; [apply list_elem_of_here|done].
    + rewrite lookup_insert_ne in Hm by done. by left.
  - right. exists ev'. split; [by apply list_elem_of_further|done].
Qed.

(** A session that starts has one entry per declared service, in order, with the fetched secret
    and a fake of the declared format, all fakes and secrets distinct and of equal lengths; and the
    environment built for the agent holds fakes of the declared services and none of the secrets. *)
Theorem session_credentials services t envs m :
  BootstrapCredentials fetch rand now services = Ok t ->
  BuildServiceEnvVars envs (Some t) = Ok m ->
  table_ok t /\ Forall2 entry_for services t /\
  forall var v, m !! var = Some v ->
    (exists ev e, ev ∈ envs /\ ev_VarName ev = var /\ e ∈ t /\ ServiceName e = ev_ServiceName ev /\ v = Fake e) /\
    (forall e, e ∈ t -> v <> Real e).
Proof.
  intros Hb Hm. destruct (boot_services_ok _ _ _ _ empty_table_ok Hb) as (Hok & es & -> & Hes). change (New ++ es) with es in *.
  split_and!; [done..|]. intros var v Hv. unfold BuildServiceEnvVars in Hm.
  destruct (negb (nonempty envs)); [injection Hm as <-; by rewrite lookup_empty in Hv|].
  apply rbind_Ok in Hm as (_ & _ & [= <-]).
  destruct (env_values _ _ _ _ _ Hv) as [He|(ev & Hev & Hvar & (e & He & Hs & ->)%FakeForService_Some)]; [by rewrite lookup_empty in He|].
  split; [by exists ev, e|]. intros e' He' Heq. destruct Hok as (_ & _ & (_ & Hdis & _)%NoDup_app).
  apply (Hdis (Fake e)); [by apply list_elem_of_fmap_2|]. rewrite Heq. by apply list_elem_of_fmap_2.
Qed.

End Boot.

(** A request of the LLM path and one for a declared service. *)
Definition plain_request : Request :=
  mkRequest "POST" {["X-Key" := [string_bytes "none"]]} (string_bytes "/v1/messages") [] [] (Readable (string_bytes "hello")) 5.
Definition github_request : Request :=
  mkRequest "GET" {["X-Key" := [string_bytes "ghp_fake0001"]]} (string_bytes "/repos") [] [] NilBody 0.
Definition sample_resolved : ResolvedServices :=
  mkResolved [] [mkInjectConfig "github" "authorization" "Bearer {{secret}}"] {["github" := true]}.

Lemma undeclared_requests_unchanged_witness :
  exists r', ApplyPreHooks (session_hooks sample_resolved) sample_table "" plain_request = (r', None) /\
  rq_Header r' = rq_Header plain_request.
Proof.
  assert (Hn : named sample_table) by (unfold named; decide_vm).
  assert (Hi : Forall (fun ih => ic_ServiceName ih <> "") (InjectHeaders sample_resolved)) by decide_vm.
  pose proof (undeclared_requests_unchanged sample_resolved sample_table plain_request sample_table_ok Hn Hi) as H.
  destruct (ApplyPreHooks (session_hooks sample_resolved) sample_table "" plain_request) as [r' err] eqn:E.
  assert (err = None) as -> by (change err with (r', err).2; rewrite <- E; vm_compute; reflexivity).
  destruct H as (_ & _ & _ & _ & H). exists r'. split; [reflexivity|exact H].
Defined.

Lemma service_requests_own_credential_witness :
  exists r', ApplyPreHooks (session_hooks sample_resolved) sample_table "github" github_request = (r', None) /\
  rq_Header r' !! "X-Key" = Some [string_bytes "ghs-R3AL-xyz"] /\
  rq_Header r' !! "Authorization" = Some [string_bytes "Bearer ghs-R3AL-xyz"].
Proof.
  assert (Hi : Forall (fun ih => ic_ServiceName ih <> "") (InjectHeaders sample_resolved)) by decide_vm.
  assert (Hone : Forall (fun part => forall e e', e ∈ sample_table -> e' ∈ sample_table -> contains (Fake e) part = true ->
                   contains (Fake e') part = true -> ServiceName e = ServiceName e') (parts github_request)).
  { assert (Hb : Forall (fun part => Forall (fun e => contains (Fake e) part = true -> ServiceName e = "github") sample_table)
                   (parts github_request)) by decide_vm.
    eapply Forall_impl; [exact Hb|]. cbn. intros part Hp e e' He He' Hc Hc'. rewrite Forall_forall in Hp.
    by rewrite (Hp e), (Hp e'). }
  destruct (ApplyPreHooks (session_hooks sample_resolved) sample_table "github" github_request) as [r' err] eqn:E.
  assert (err = None) as -> by (change err with (r', err).2; rewrite <- E; vm_compute; reflexivity).
  pose proof (service_requests_own_credential sample_resolved sample_table "github" github_request r'
                sample_table_ok Hi ltac:(done) Hone E) as (_ & _ & _ & H).
  exists r'. split; [reflexivity|]. split.
  - rewrite H; [vm_compute; reflexivity|decide_vm].
  - change r' with (r', None : option HookAbortError).1. rewrite <- E. vm_compute. reflexivity.
Defined.

(** Secrets of two services behind a vault, with formats of 24 random bytes. *)
Definition sample_fetch (r : SecretRef) : option (list Z) :=
  if sr_Path r ==? "gh" then Some (string_bytes "ghp_0123456789abcdefghijABCD")
  else if sr_Path r ==? "st" then Some (string_bytes "sk_live9876543210zyxwvutsrqpo") else None.
Definition sample_services : list ServiceConfig :=
  [mkServiceConfig "github" (mkSecretRef "vault" "kv" "gh" "") "ghp_{rand:24}";
   mkServiceConfig "stripe" (mkSecretRef "vault" "kv" "st" "") "sk_l{rand:25}"].
Definition sample_rand (k j : nat) : Z := Z.of_nat (k * 7 + j * j) mod 256.

Lemma session_credentials_witness :
  exists t m, BootstrapCredentials sample_fetch sample_rand (fun _ => 0) sample_services = Ok t /\
  BuildServiceEnvVars [mkServiceEnvVar "github" "GITHUB_TOKEN"] (Some t) = Ok m /\
  is_Some (m !! "GITHUB_TOKEN") /\ table_ok t.
Proof.
  assert (Hrun : match BootstrapCredentials sample_fetch sample_rand (fun _ => 0) sample_services with
                 | Ok t => match BuildServiceEnvVars [mkServiceEnvVar "github" "GITHUB_TOKEN"] (Some t) with
                           | Ok m => bool_decide (is_Some (m !! "GITHUB_TOKEN"))
                           | Err _ => false
                           end
                 | Err _ => false
                 end = true) by (vm_compute; reflexivity).
  destruct (BootstrapCredentials sample_fetch sample_rand (fun _ => 0) sample_services) as [t|] eqn:Et; [|discriminate Hrun].
  destruct (BuildServiceEnvVars [mkServiceEnvVar "github" "GITHUB_TOKEN"] (Some t)) as [m|] eqn:Em; [|discriminate Hrun].
  destruct (session_credentials sample_fetch sample_rand (fun _ => 0) sample_services t _ m Et Em) as [Hok _].
  exists t, m. split; [reflexivity|]. split; [exact Em|]. split; [|exact Hok]. exact (bool_decide_eq_true_1 _ Hrun).
Defined.

(** The guard asks for the first registered fake only: behind a fake of its own service a request
    carries the fake of another one past it, and the substitution sends that service's secret. *)
Example cross_service_leak :
  exists r', ApplyPreHooks (session_hooks sample_resolved) sample_table "github"
    (mkRequest "POST" ∅ (string_bytes "/x") [] [] (Readable (string_bytes "ghp_fake0001 sk_fake02")) 22) = (r', None) /\
  rq_Body r' = Readable (string_bytes "ghs-R3AL-xyz pk-R3AL-2").
Proof. eexists. split; vm_compute; reflexivity. Qed.

(** The same fake alone is blocked. *)
Example cross_service_blocked :
  (ApplyPreHooks (session_hooks sample_resolved) sample_table "github"
    (mkRequest "POST" ∅ (string_bytes "/x") [] [] (Readable (string_bytes "sk_fake02")) 9)).2 =
  Some (mkAbort 403 "credential leak blocked").
Proof. vm_compute. reflexivity. Qed.

End SessionTheorems.
Export SessionTheorems.
