(* ===== verification/DeclaredService.v ===== *)
(** * Requests to declared services ([internal/proxy/declared_service.go])

    The handler of [/svc/<name>/...]: the service is resolved, the policy decides on the method and
    the path below the service, approvals are asked, the hooks of the session rewrite the request,
    it is forwarded to the upstream of the service, and the response is scrubbed and returned.

    [net/url]'s escaping of paths is written out.  The upstream, the approver and SHA-256 are
    arguments; log entries keep what the storage writes.  Request and session identifiers are not
    modelled; neither are the details behind an error message, and a userinfo or fragment in the URL of an upstream. *)

From Stdlib Require Import ZArith Lia Ascii String.
From stdpp Require Import base list strings gmap.
From S2P Require Import Prelude GoText GoNet GoStrings ShellParse PolicyModel HttpService CredSub.
Open Scope string_scope.
Open Scope list_scope.
Open Scope Z_scope.

(** ** Escaping of paths *)
Module PathEscape.

(** [shouldEscape(c, encodePath)]. *)
Definition shouldEscape (b : Z) : bool :=
  negb (is_alpha b || is_num b || has_byte b (string_bytes "-_.~$&+,/:;=@")).

Definition upper_hex (d : Z) : Z := if d <? 10 then 48 + d else 55 + d.

Definition escape (l : list Z) : list Z :=
  concat ((fun b => if shouldEscape b then [37; upper_hex (b / 16); upper_hex (b mod 16)] else [b]) <$> l).

Definition unhex (b : Z) : option Z :=
  if between 48 b 57 then Some (b - 48)
  else if between 97 b 102 then Some (b - 87)
  else if between 65 b 70 then Some (b - 55) else None.

Fixpoint unescape (l : list Z) : option (list Z) :=
  match l with
  | [] => Some []
  | b :: l' =>
    if b =? 37 then
      match l' with
      | h :: k :: l'' => a ← unhex h; c ← unhex k; r ← unescape l''; Some (a * 16 + c :: r)
      | _ => None
      end
    else r ← unescape l'; Some (b :: r)
  end.

Definition validEncoded (l : list Z) : bool :=
  forallb (fun b => has_byte b (string_bytes "!$&'()*+,;=:@[]%") || negb (shouldEscape b)) l.

Definition EscapedPath (path rawPath : list Z) : list Z :=
  if nonempty rawPath && validEncoded rawPath && bool_decide (unescape rawPath = Some path) then rawPath
  else if path ==? [42] then [42] else escape path.

End PathEscape.
Export PathEscape.

(** ** The handler *)
Module Serve.

Definition declaredServicePathPrefix : string := "/svc/".

Section Serve.
Context {U : UnicodeCase} {CO : CaseOrbits} `{L : Libraries} (fl : Flags).
Context (services : list HTTPService) (byName : service_map).        (* the policy engine *)
Context (hooks : Registry) (table : Table).
Context (sha256 : list Z -> list Z).

(** The name as the request spells it, the path below it, and whether it is declared. *)
Definition declaredService (reqPath : list Z) : list Z * list Z * bool :=
  let prefix := string_bytes declaredServicePathPrefix in
  if negb (starts_with prefix reqPath) then ([], [], false)
  else
    let tail := drop (length prefix) reqPath in
    let '(name, rest) := match index_byte ch_slash tail with
                         | None => (tail, [ch_slash])
                         | Some i => (take i tail, drop i tail)
                         end in
    if negb (nonempty name) then ([], [], false)
    else (name, rest, existsb (fun svc => EqualFold (h_Name svc) (bytes_string name)) services).

Definition findHTTPService (name : string) : option HTTPService :=
  List.find (fun s => EqualFold (h_Name s) name) services.

Definition singleSlashJoin (a b : list Z) : list Z :=
  let aSlash := starts_with [ch_slash] (rev a) in
  let bSlash := starts_with [ch_slash] b in
  if aSlash && bSlash then a ++ drop 1 b
  else if negb aSlash && negb bSlash then a ++ [ch_slash] ++ b
  else a ++ b.

Definition isHopByHopHeader (h : string) : bool :=
  one_of (ToLower h) ["connection"; "keep-alive"; "proxy-authenticate"; "proxy-authorization";
                      "te"; "trailer"; "transfer-encoding"; "upgrade"].

Definition nominated (lines : list (list Z)) : list string :=
  omap (fun tok => let tok := bytes_string (TrimSpace tok) in
                   if (tok ==? "") || one_of (ToLower tok) ["close"; "keep-alive"] then None
                   else Some (CanonicalHeaderKey tok))
    (concat (split_byte 44 <$> List.filter nonempty lines)).

Definition connectionNominatedDenylist (connectionHeaders : list (list Z)) : gset string :=
  list_to_set (nominated connectionHeaders).

(** Copies the end-to-end headers, key by key. *)
Definition forward_headers (h : gmap string (list (list Z))) : gmap string (list (list Z)) :=
  let denylist := connectionNominatedDenylist (default [] (h !! "Connection")) in
  map_fold (fun k vs out =>
    if isHopByHopHeader k then out
    else if bool_decide (CanonicalHeaderKey k ∈ denylist) then out
    else if negb (nonempty vs) then out
    else <[CanonicalHeaderKey k := default [] (out !! CanonicalHeaderKey k) ++ vs]> out) ∅ h.

(** What goes on the wire. *)
Record OutRequest : Type := mkOut {
  out_Method : string;
  out_Scheme : string;
  out_Host : string;
  out_Path : list Z;           (* decoded *)
  out_EscapedPath : list Z;    (* as sent *)
  out_RawQuery : list Z;
  out_Header : gmap string (list (list Z));
  out_Body : Body;
  out_ContentLength : Z
}.

Definition buildUpstreamRequest (r : Request) (svcUpstream : string) : option OutRequest :=
  u ← url_Parse svcUpstream;
  let escaped := EscapedPath (rq_Path r) (rq_RawPath r) in
  let escaped := if nonempty escaped then escaped else rq_Path r in
  let upath := string_bytes (url_Path u) in
  let path := singleSlashJoin upath (rq_Path r) in
  let rawPath := singleSlashJoin (EscapedPath upath (string_bytes (url_RawPath u))) escaped in
  Some (mkOut (rq_Method r) (url_Scheme u) (url_Host u) path (EscapedPath path rawPath) (rq_RawQuery r)
          (forward_headers (rq_Header r)) (rq_Body r) (rq_ContentLength r)).

Definition sanitize_denylist : list string :=
  ["Authorization"; "X-Api-Key"; "Api-Key"; "Cookie"; "Set-Cookie"; "Proxy-Authorization"; "Proxy-Authenticate"].

Definition sanitizeHeadersForDeclaredService (h : gmap string (list (list Z))) (injectedNames : list string)
  : gmap string (list (list Z)) :=
  map_imap (fun k v => if one_of (CanonicalHeaderKey k) (sanitize_denylist ++ (CanonicalHeaderKey <$> injectedNames))
                       then Some [string_bytes "[REDACTED]"] else Some v) h.

Definition HashBody (body : list Z) : string :=
  if nonempty body then "sha256:" +:+ hex_encode (sha256 body) else "".

Record LogEntry : Type := mkLog {
  lg_ServiceName : string;
  lg_RuleName : string;
  lg_Method : string;          (* requests *)
  lg_Path : list Z;
  lg_Status : Z;               (* responses *)
  lg_Headers : gmap string (list (list Z));
  lg_BodySize : nat;
  lg_BodyHash : string;
  lg_Stored : list Z           (* the copy on disk; nothing when empty *)
}.

Definition logDeclaredServiceRequest (svcName ruleName : string) (r : Request) (forwardedBody storedBody : list Z) : LogEntry :=
  mkLog svcName ruleName (rq_Method r) (rq_Path r) 0
    (sanitizeHeadersForDeclaredService (rq_Header r) (InjectedHeaderNamesForService hooks svcName))
    (length forwardedBody) (HashBody forwardedBody) storedBody.

Definition logDeclaredServiceResponse (svcName : string) (resp : Response) (respBody : list Z) : LogEntry :=
  mkLog svcName "" "" [] (rs_StatusCode resp)
    (sanitizeHeadersForDeclaredService (rs_Header resp) (InjectedHeaderNamesForService hooks svcName))
    (length respBody) (HashBody respBody) respBody.

(** What the agent gets back. *)
Record Reply : Type := mkReply { rp_Status : Z; rp_Header : gmap string (list (list Z)); rp_Body : list Z }.

Record Outcome : Type := mkOutcome {
  oc_sent : option OutRequest;
  oc_log : list LogEntry;
  oc_reply : Reply
}.

Definition http_Error (sent : option OutRequest) (log : list LogEntry) (msg : string) (code : Z) : Outcome :=
  mkOutcome sent log
    (mkReply code {["Content-Type" := [string_bytes "text/plain; charset=utf-8"];
                    "X-Content-Type-Options" := [string_bytes "nosniff"]]} (string_bytes msg ++ [10])).

(** The path the policy sees. *)
Definition pathForEval (reqPath : list Z) : list Z :=
  match index_byte 63 reqPath with Some idx => take idx reqPath | None => reqPath end.

(** The escaped path below the service. *)
Definition escaped_tail (r : Request) (rawSegment reqPath : list Z) : list Z :=
  let prefix := string_bytes declaredServicePathPrefix ++ rawSegment in
  let escaped := EscapedPath (rq_Path r) (rq_RawPath r) in
  let tail := if starts_with prefix escaped &&
                 (Nat.eqb (length escaped) (length prefix) || starts_with [ch_slash] (drop (length prefix) escaped))
              then drop (length prefix) escaped else EscapedPath reqPath [] in
  if nonempty tail then tail else [ch_slash].

Definition approval_target (r : Request) (rawSegment escapedPath : list Z) : list Z :=
  rawSegment ++ [32] ++ string_bytes (rq_Method r) ++ [32] ++ escapedPath ++
  (if nonempty (rq_RawQuery r) then 63 :: rq_RawQuery r else []).

(** The effective decision after the approver was asked, if there is one; it answers for a target,
    a rule and a message, an error counting as a refusal. *)
Definition approved_decision (approve : option (list Z -> string -> string -> bool)) (target : list Z) (dec : Decision) : string :=
  if (PolicyDecision dec ==? DecisionApprove) && (EffectiveDecision dec ==? DecisionApprove) then
    match approve with
    | None => EffectiveDecision dec
    | Some ask => if ask target (d_Rule dec) (d_Message dec) then DecisionAllow else DecisionDeny
    end
  else EffectiveDecision dec.

(** [io.ReadAll] of a body; no body reads as empty. *)
Definition body_bytes (b : Body) : option (list Z) :=
  match b with NilBody => Some [] | Readable data => Some data | Unreadable => None end.

(** The request as the hooks get it: its body buffered, its URL the one below the service. *)
Definition hook_request (r : Request) (escapedPath reqPath : list Z) : Request :=
  let r0 := match rq_Body r with Readable b => with_body r (Readable b) (Z.of_nat (length b)) | _ => r end in
  with_url r0 reqPath escapedPath (rq_RawQuery r0).

(** A rewritten path makes the escaped form stale unless that was rewritten too. *)
Definition reconcile (r1 r2 : Request) : Request :=
  if negb (bool_decide (rq_Path r2 = rq_Path r1)) && bool_decide (rq_RawPath r2 = rq_RawPath r1)
  then with_url r2 (rq_Path r2) [] (rq_RawQuery r2) else r2.

Definition with_forwarded (r : Request) (forwardedBody : list Z) : Request :=
  if nonempty forwardedBody then with_body r (Readable forwardedBody) (Z.of_nat (length forwardedBody))
  else with_body r NilBody 0.

(** From the rewritten request to the reply. *)
Definition deliver (transport : OutRequest -> option Response) (rule : string) (svc : HTTPService) (r : Request)
    (forwardedBody storedBody : list Z) : Outcome :=
  let log := [logDeclaredServiceRequest (h_Name svc) rule r forwardedBody storedBody] in
  match buildUpstreamRequest r (h_Upstream svc) with
  | None => http_Error None log "rewrite failed" 500
  | Some out =>
    match transport out with
    | None => http_Error (Some out) log "upstream error" 502
    | Some resp =>
      match body_bytes (rs_Body resp) with
      | None => http_Error (Some out) log "read upstream response" 502
      | Some respBody =>
        let resp1 := ApplyPostHooks hooks table (h_Name svc)
                       (mkResponse (rs_StatusCode resp) (rs_Header resp) (Readable respBody) (Z.of_nat (length respBody))) in
        let respBody := match rs_Body resp1 with Readable b => b | _ => respBody end in
        mkOutcome (Some out) (log ++ [logDeclaredServiceResponse (h_Name svc) resp1 respBody])
          (mkReply (rs_StatusCode resp1) (forward_headers (rs_Header resp1)) respBody)
      end
    end
  end.

(** From the hooks to the reply. *)
Definition forward (transport : OutRequest -> option Response) (dec : Decision) (svc : HTTPService) (r : Request)
    (escapedPath reqPath : list Z) : Outcome :=
  match body_bytes (rq_Body r) with
  | None => http_Error None [] "read request body" 400
  | Some storedBody =>
    let r1 := hook_request r escapedPath reqPath in
    let '(r2, err) := ApplyPreHooks hooks table (h_Name svc) r1 in
    match err with
    | Some e => http_Error None [] (Message e)
                  (if (StatusCode e <? 400) || (599 <? StatusCode e) then 502 else StatusCode e)
    | None =>
      let r3 := reconcile r1 r2 in
      match body_bytes (rq_Body r3) with
      | None => http_Error None [] "re-read request body" 502
      | Some forwardedBody =>
        deliver transport (d_Rule dec) svc (with_forwarded r3 forwardedBody) forwardedBody
          (if nonempty forwardedBody then storedBody else [])
      end
    end
  end.

Definition serveDeclaredService (approve : option (list Z -> string -> string -> bool))
    (transport : OutRequest -> option Response) (r : Request) (rawSegment reqPath : list Z) : Outcome :=
  let escapedPath := escaped_tail r rawSegment reqPath in
  let dec := CheckHTTPService fl byName (bytes_string rawSegment) (rq_Method r) (bytes_string (pathForEval reqPath)) in
  let eff := approved_decision approve (approval_target r rawSegment escapedPath) dec in
  if eff ==? DecisionDeny then
    http_Error None [] (if d_Message dec ==? "" then "blocked by http_services rule" else d_Message dec) 403
  else if eff ==? DecisionApprove then http_Error None [] "approval not yet implemented" 501
  else if (eff ==? DecisionAllow) || (eff ==? DecisionAudit) then
    match findHTTPService (bytes_string rawSegment) with
    | None => http_Error None [] "service vanished" 500
    | Some svc => forward transport dec svc r escapedPath reqPath
    end
  else http_Error None [] "unsupported decision" 500.

(** The dispatch at the head of [ServeHTTP]; [None] is the way of the LLM requests. *)
Definition dispatch_declared (approve : option (list Z -> string -> string -> bool))
    (transport : OutRequest -> option Response) (r : Request) : option Outcome :=
  let '(name, rest, ok) := declaredService (rq_Path r) in
  if ok then Some (serveDeclaredService approve transport r name rest)
  else if nonempty name then Some (http_Error None [] "no such service" 404)
  else None.

End Serve.
End Serve.
Export Serve.
