(* ===== verification/DeclaredServiceTheorems.v ===== *)
(** * Theorems about requests to declared services

    What reaches an upstream was permitted by the policy and approved where it says so; the
    approver sees an encoding of exactly the path that is decided; secrets stay out of scrubbed
    replies and of the bodies kept on disk. *)

From Stdlib Require Import ZArith Lia Ascii String.
From stdpp Require Import base list strings gmap.
From S2P Require Import Prelude GoText GoNet GoStrings ShellParse PolicyModel HttpService HttpServiceTheorems.
From S2P Require Import CredSub CredSubTheorems DeclaredService.
Open Scope string_scope.
Open Scope list_scope.
Open Scope Z_scope.

(** ** Escaped paths *)
Module EscapeFacts.

Lemma unhex_upper d : 0 <= d < 16 -> unhex (upper_hex d) = Some d.
Proof.
  intros Hd. unfold upper_hex, unhex, between. destruct (Z.ltb_spec d 10).
  - replace ((48 <=? 48 + d) && (48 + d <=? 57)) with true by lia. f_equal. lia.
  - replace ((48 <=? 55 + d) && (55 + d <=? 57)) with false by lia.
    replace ((97 <=? 55 + d) && (55 + d <=? 102)) with false by lia.
    replace ((65 <=? 55 + d) && (55 + d <=? 70)) with true by lia. f_equal. lia.
Qed.

Lemma unescape_escape l : Forall byte_range l -> unescape (escape l) = Some l.
Proof.
  induction 1 as [|b l Hb _ IH]; [done|]. unfold escape in *. rewrite fmap_cons. cbn [concat].
  destruct (shouldEscape b) eqn:E.
  - cbn [app unescape]. unfold byte_range in Hb. rewrite Z.eqb_refl, !unhex_upper by div_lia.
    cbn [mbind option_bind]. rewrite IH. cbn [mbind option_bind]. do 2 f_equal. div_lia.
  - cbn [app unescape]. destruct (Z.eqb_spec b 37) as [->|_]; [done|]. by rewrite IH.
Qed.

(** The escaped form of a URL decodes to its path. *)
Lemma EscapedPath_decodes path raw : Forall byte_range path -> unescape (EscapedPath path raw) = Some path.
Proof.
  intros Hp. unfold EscapedPath. destruct (nonempty raw && validEncoded raw && _) eqn:E.
  { rewrite !andb_true_iff, bool_decide_eq_true in E. apply E. }
  clear E. case_bool_decide as Hs; [by rewrite Hs|by apply unescape_escape].
Qed.

Lemma unescape_plain p l : 37 ∉ p -> unescape (p ++ l) = (fun r => p ++ r) <$> unescape l.
Proof.
  intros Hp. induction p as [|b p IH]; [cbn [app]; by destruct (unescape l)|].
  rewrite not_elem_of_cons in Hp. destruct Hp as [Hb Hp]. cbn [app unescape].
  destruct (Z.eqb_spec b 37); [congruence|]. rewrite (IH Hp). by destruct (unescape l).
Qed.

Lemma starts_with_drop p l : starts_with p l = true -> l = p ++ drop (length p) l.
Proof. rewrite starts_with_spec. intros [k ->]. by rewrite drop_app_length. Qed.

Section Dispatch.
Context {CO : CaseOrbits} (services : list HTTPService).

(** The request path is the prefix, the name and the rest. *)
Lemma declaredService_split path seg rest :
  declaredService services path = (seg, rest, true) ->
  exists tail, path = string_bytes "/svc/" ++ seg ++ tail /\ rest = (if nonempty tail then tail else [ch_slash]) /\
               (tail = [] \/ exists t, tail = ch_slash :: t).
Proof.
  unfold declaredService. destruct (starts_with _ path) eqn:E; [|done]. cbn [negb].
  apply starts_with_drop in E. set (tail0 := drop _ path) in *. rewrite E. clear E.
  pose proof (index_byte_split ch_slash tail0) as Hi. destruct (index_byte ch_slash tail0) as [i|].
  - destruct Hi as (a & b & -> & <- & _). rewrite take_app_length, drop_app_length. destruct (nonempty a); [|done].
    cbn [negb]. intros [= <- <- _]. exists (ch_slash :: b). eauto.
  - destruct (nonempty tail0); [|done]. cbn [negb]. intros [= <- <- _]. exists []. rewrite app_nil_r. auto.
Qed.

(** The escaped path put before an approver, and handed to the hooks, decodes to exactly the path
    below the service that the request names, however the client escaped it. *)
Theorem escaped_tail_faithful r seg rest :
  declaredService services (rq_Path r) = (seg, rest, true) -> Forall byte_range (rq_Path r) -> 37 ∉ seg ->
  unescape (escaped_tail r seg rest) = Some rest.
Proof.
  intros Hd Hb Hseg. destruct (declaredService_split _ _ _ Hd) as (tail & Hpath & Hrest & Htail).
  assert (Hdec : unescape (EscapedPath (rq_Path r) (rq_RawPath r)) = Some (rq_Path r)) by (by apply EscapedPath_decodes).
  unfold escaped_tail. change (string_bytes declaredServicePathPrefix) with (string_bytes "/svc/").
  set (prefix := string_bytes "/svc/" ++ seg) in *.
  assert (Hpre : 37 ∉ prefix). { unfold prefix. rewrite not_elem_of_app. split; [|done]. decide_vm. }
  assert (Hne : rest <> []) by (rewrite Hrest; by destruct tail).
  assert (Hrb : Forall byte_range rest).
  { rewrite Hrest. rewrite Hpath in Hb. apply Forall_app in Hb as [_ [_ Hb]%Forall_app]. destruct tail; [|done].
    constructor; [unfold byte_range, ch_slash; lia|constructor]. }
  destruct (starts_with prefix _ && _) eqn:E.
  - apply andb_true_iff in E as [E%starts_with_drop _]. rewrite E, (unescape_plain prefix) in Hdec by done.
    destruct (unescape (drop _ _)) as [d|] eqn:Ed; [|done]. apply (inj Some) in Hdec.
    rewrite Hpath, app_assoc in Hdec. change (string_bytes "/svc/" ++ seg) with prefix in Hdec. apply app_inv_head in Hdec as ->.
    destruct (drop _ _) as [|x l]; cbn [nonempty].
    + injection Ed as <-. by rewrite Hrest.
    + rewrite Ed, Hrest. destruct tail; [|done]. exfalso. cbn [unescape] in Ed. destruct (x =? 37).
      * destruct l as [|h [|k l]]; try done. destruct (unhex h); [|done]. destruct (unhex k); [|done]. cbn in Ed.
        by destruct (unescape l).
      * by destruct (unescape l).
  - assert (Hr := EscapedPath_decodes rest [] Hrb). destruct (EscapedPath rest []) as [|x l] eqn:Ee; cbn [nonempty]; [|done].
    injection Hr as Hr. congruence.
Qed.

End Dispatch.
End EscapeFacts.
Export EscapeFacts.

(** ** Forwarding *)
Module Forwarding.

Definition is_readable (b : Body) : Prop := exists data, b = Readable data.

Section Forwarding.
Context {U : UnicodeCase} {CO : CaseOrbits} `{L : Libraries} (fl : Flags).
Context (services : list HTTPService) (byName : service_map).
Context (sha256 : list Z -> list Z).
Context (approve : option (list Z -> string -> string -> bool)) (transport : OutRequest -> option Response).

(** What is kept of a delivered request: the agent's own bytes, and the reply as the hooks left it. *)
Definition delivered (hooks : Registry) (table : Table) (svc : HTTPService) (storedBody : list Z) (oc : Outcome) : Prop :=
  exists reqlog, lg_Stored reqlog = storedBody /\
    (oc_log oc = [reqlog] \/
     exists raw resp1 body resplog,
       resp1 = ApplyPostHooks hooks table (h_Name svc) raw /\ is_readable (rs_Body raw) /\
       (is_readable (rs_Body resp1) -> rs_Body resp1 = Readable body) /\
       rp_Body (oc_reply oc) = body /\ lg_Stored resplog = body /\ oc_log oc = [reqlog; resplog]).

Lemma deliver_sent hooks table rule svc r forwarded stored out :
  oc_sent (deliver hooks table sha256 transport rule svc r forwarded stored) = Some out ->
  buildUpstreamRequest r (h_Upstream svc) = Some out /\
  delivered hooks table svc stored (deliver hooks table sha256 transport rule svc r forwarded stored).
Proof using.
  unfold deliver. destruct (buildUpstreamRequest r _) as [out'|]; [|done].
  destruct (transport out') as [resp|]; [destruct (body_bytes _) as [rb|]|]; intros [= <-]; (split; [done|]);
    exists (logDeclaredServiceRequest hooks sha256 (h_Name svc) rule r forwarded stored); (split; [reflexivity|]).
  2, 3: by left.
  right. set (raw := mkResponse _ _ (Readable rb) _). set (resp1 := ApplyPostHooks hooks table (h_Name svc) raw).
  set (body := match rs_Body resp1 with Readable b => b | _ => rb end).
  exists raw, resp1, body, (logDeclaredServiceResponse hooks sha256 (h_Name svc) resp1 body).
  split_and!; try reflexivity; [by eexists|]. intros [b Hb]. unfold body. by rewrite Hb.
Qed.

Lemma with_forwarded_fields r b :
  rq_Method (with_forwarded r b) = rq_Method r /\ rq_Header (with_forwarded r b) = rq_Header r /\
  rq_Path (with_forwarded r b) = rq_Path r.
Proof using. unfold with_forwarded. by destruct b. Qed.

Lemma reconcile_fields r1 r2 :
  rq_Method (reconcile r1 r2) = rq_Method r2 /\ rq_Header (reconcile r1 r2) = rq_Header r2 /\
  rq_Path (reconcile r1 r2) = rq_Path r2.
Proof using. unfold reconcile. by destruct (_ && _). Qed.

Lemma forward_sent hooks table dec svc r esc reqPath out :
  let oc := forward hooks table sha256 transport dec svc r esc reqPath in
  oc_sent oc = Some out ->
  exists r2 r4 stored, ApplyPreHooks hooks table (h_Name svc) (hook_request r esc reqPath) = (r2, None) /\
    rq_Method r4 = rq_Method r2 /\ rq_Header r4 = rq_Header r2 /\ rq_Path r4 = rq_Path r2 /\
    buildUpstreamRequest r4 (h_Upstream svc) = Some out /\
    (stored = [] \/ rq_Body r = Readable stored) /\ delivered hooks table svc stored oc.
Proof using.
  cbv zeta. unfold forward. destruct (body_bytes (rq_Body r)) as [b0|] eqn:Eb; [|done].
  destruct (ApplyPreHooks _ _ _ _) as [r2 [e|]]; [done|].
  destruct (body_bytes (rq_Body (reconcile _ r2))) as [fb|]; [|done].
  intros [Ho Hd]%deliver_sent. eexists r2, _, _. split; [done|].
  destruct (with_forwarded_fields (reconcile (hook_request r esc reqPath) r2) fb) as (-> & -> & ->).
  destruct (reconcile_fields (hook_request r esc reqPath) r2) as (-> & -> & ->).
  split_and!; try done. destruct (nonempty fb); [|by left].
  destruct (rq_Body r) as [|b|]; cbn in Eb; simplify_eq; [by left|by right].
Qed.

Lemma forward_headers_end_to_end h k vs :
  forward_headers h !! k = Some vs ->
  exists k', is_Some (h !! k') /\ k = CanonicalHeaderKey k' /\ isHopByHopHeader k' = false /\
             k ∉ connectionNominatedDenylist (default [] (h !! "Connection")).
Proof using.
  unfold forward_headers. set (deny := connectionNominatedDenylist _). clearbody deny. revert k vs.
  apply (map_fold_weak_ind (fun out m => forall k vs, out !! k = Some vs ->
           exists k', is_Some (m !! k') /\ k = CanonicalHeaderKey k' /\ isHopByHopHeader k' = false /\ k ∉ deny)).
  { intros k vs Hk. by rewrite lookup_empty in Hk. }
  intros i x m out Hi IH k vs.
  assert (Hold : out !! k = Some vs -> exists k', is_Some (<[i:=x]> m !! k') /\ k = CanonicalHeaderKey k' /\
                   isHopByHopHeader k' = false /\ k ∉ deny).
  { intros Hk. destruct (IH _ _ Hk) as (k' & Hs & ?). exists k'. split; [|done].
    destruct (decide (i = k')) as [->|]; [by rewrite lookup_insert_eq|by rewrite lookup_insert_ne]. }
  destruct (isHopByHopHeader i) eqn:Eh; [done|]. case_bool_decide as Hd; [done|].
  destruct (negb (nonempty x)); [done|]. destruct (decide (CanonicalHeaderKey i = k)) as [<-|Hne].
  - intros _. exists i. by rewrite lookup_insert_eq.
  - by rewrite lookup_insert_ne.
Qed.

Lemma serve_sent hooks table r seg reqPath out :
  let oc := serveDeclaredService fl services byName hooks table sha256 approve transport r seg reqPath in
  let dec := CheckHTTPService fl byName (bytes_string seg) (rq_Method r) (bytes_string (pathForEval reqPath)) in
  oc_sent oc = Some out ->
  (EffectiveDecision dec = DecisionAllow \/ EffectiveDecision dec = DecisionAudit \/
   EffectiveDecision dec = DecisionApprove /\
   exists ask, approve = Some ask /\
     ask (approval_target r seg (escaped_tail r seg reqPath)) (d_Rule dec) (d_Message dec) = true) /\
  exists svc, findHTTPService services (bytes_string seg) = Some svc /\
    oc = forward hooks table sha256 transport dec svc r (escaped_tail r seg reqPath) reqPath.
Proof using.
  cbv zeta. unfold serveDeclaredService. set (dec := CheckHTTPService _ _ _ _ _). clearbody dec.
  set (target := approval_target _ _ _). unfold approved_decision.
  set (appr := (PolicyDecision dec ==? DecisionApprove) && _). destruct appr eqn:Ea.
  - apply andb_true_iff in Ea as [_ Ea%bool_decide_eq_true]. rewrite Ea.
    destruct approve as [ask|]; [|done]. destruct (ask target _ _) eqn:Ek; [|done].
    destruct (findHTTPService _ _) as [svc|]; [|done]. intros _. split; [|by exists svc].
    right. right. split; [done|]. by exists ask.
  - case_bool_decide; [done|]. case_bool_decide; [done|].
    destruct ((EffectiveDecision dec ==? DecisionAllow) || _) eqn:Ed; [|done].
    destruct (findHTTPService _ _) as [svc|]; [|done]. intros _. split; [|by exists svc].
    apply orb_true_iff in Ed as [Ed|Ed]; apply bool_decide_eq_true in Ed; auto.
Qed.

(** The path shown to the policy: all of it, unless a question mark was escaped in it. *)
Lemma pathForEval_shows p : pathForEval p `prefix_of` p /\ (pathForEval p = p <-> 63 ∉ p).
Proof using.
  unfold pathForEval. pose proof (index_byte_split 63 p) as Hi. destruct (index_byte 63 p) as [i|]; [|done].
  destruct Hi as (a & b & -> & <- & _). rewrite take_app_length. split; [by exists (63 :: b)|]. split.
  - intros Hx. apply (f_equal length) in Hx. rewrite length_app in Hx. cbn in Hx. lia.
  - intros Hn. destruct Hn. apply elem_of_app. right. left.
Qed.

(** C31. Only permitted requests reach an upstream: the policy allows (or audits) the method and the
    path as shown to it, or asks for an approval that was given for this target.  What is shown is the
    path below the service up to a decoded question mark, so the whole of it exactly when it has none;
    what follows such a question mark is sent without having been judged.  The request goes to the host
    of the declared service with the path below it as the hooks leave it, which for a path without a question
    mark that the hooks leave alone is the one shown; and no hop-by-hop header nor a header the client
    nominated as one goes along. *)
Theorem forwarded_only_if_permitted hooks table r seg reqPath out :
  oc_sent (serveDeclaredService fl services byName hooks table sha256 approve transport r seg reqPath) = Some out ->
  let shown := pathForEval reqPath in
  let dec := CheckHTTPService fl byName (bytes_string seg) (rq_Method r) (bytes_string shown) in
  (EffectiveDecision dec = DecisionAllow \/ EffectiveDecision dec = DecisionAudit \/
   EffectiveDecision dec = DecisionApprove /\
   exists ask, approve = Some ask /\
     ask (approval_target r seg (escaped_tail r seg reqPath)) (d_Rule dec) (d_Message dec) = true) /\
  (shown `prefix_of` reqPath /\ (shown = reqPath <-> 63 ∉ reqPath)) /\
  exists svc u r2, findHTTPService services (bytes_string seg) = Some svc /\ url_Parse (h_Upstream svc) = Some u /\
    ApplyPreHooks hooks table (h_Name svc) (hook_request r (escaped_tail r seg reqPath) reqPath) = (r2, None) /\
    out_Scheme out = url_Scheme u /\ out_Host out = url_Host u /\ out_Method out = rq_Method r2 /\
    out_Path out = singleSlashJoin (string_bytes (url_Path u)) (rq_Path r2) /\
    (rq_Path r2 = reqPath -> 63 ∉ reqPath -> out_Path out = singleSlashJoin (string_bytes (url_Path u)) shown) /\
    forall k vs, out_Header out !! k = Some vs ->
      exists k', is_Some (rq_Header r2 !! k') /\ k = CanonicalHeaderKey k' /\ isHopByHopHeader k' = false /\
                 k ∉ connectionNominatedDenylist (default [] (rq_Header r2 !! "Connection")).
Proof using.
  intros Hs. destruct (serve_sent _ _ _ _ _ _ Hs) as (Hperm & svc & Hsvc & Hoc). cbv zeta. split; [exact Hperm|]. split; [apply pathForEval_shows|].
  rewrite Hoc in Hs. destruct (forward_sent _ _ _ _ _ _ _ _ Hs) as (r2 & r4 & stored & Hpre & Hm & Hh & Hp & Hb & _).
  unfold buildUpstreamRequest in Hb. destruct (url_Parse (h_Upstream svc)) as [u|] eqn:Eu; [|done].
  injection Hb as <-. exists svc, u, r2. cbn [out_Scheme out_Host out_Method out_Path out_Header]. rewrite Hp, Hm, Hh.
  split_and!; try done; [|apply forward_headers_end_to_end]. intros -> Hq. by rewrite (proj2 (proj2 (pathForEval_shows reqPath)) Hq).
Qed.

End Forwarding.
End Forwarding.
Export Forwarding.

(** ** A session's hooks *)
Module SessionServe.
Section SessionServe.
Context {U : UnicodeCase} {CO : CaseOrbits} `{L : Libraries} (fl : Flags).
Context (services : list HTTPService) (byName : service_map).
Context (sha256 : list Z -> list Z).
Context (approve : option (list Z -> string -> string -> bool)) (transport : OutRequest -> option Response).
Context (res : ResolvedServices) (t : Table).
Context (Htable : table_ok t) (Hinject : Forall (fun ih => ic_ServiceName ih <> "") (InjectHeaders res)).

Definition serve (r : Request) (seg reqPath : list Z) : Outcome :=
  serveDeclaredService fl services byName (session_hooks res) t sha256 approve transport r seg reqPath.

Lemma pre_hooks_path s r r' :
  ApplyPreHooks (session_hooks res) t s r = (r', None) ->
  (forall e, e ∈ t -> contains (Fake e) (rq_Path r) = false) -> rq_Path r' = rq_Path r.
Proof using Hinject.
  intros H Hf. rewrite ApplyPreHooks_session in H by done. destruct (LeakGuard_PreHook t r s); [done|].
  destruct (run_injections t (List.filter (fun ih => ic_ServiceName ih ==? s) (InjectHeaders res)) (CredsSub_PreHook t r) s)
    as (r1 & Hr & _ & Hp & _). rewrite Hr in H. injection H as <-. rewrite Hp.
  pose proof (replace_absent t _ Hf) as Ha. unfold CredsSub_PreHook.
  destruct (rq_Body r); cbn [sub_headers_url with_url with_header with_body rq_Path]; rewrite ?Ha; by destruct (nonempty (rq_Path r)).
Qed.

Lemma hook_request_path r esc reqPath : rq_Path (hook_request r esc reqPath) = reqPath.
Proof using. done. Qed.

Lemma singleSlashJoin_range a b : Forall byte_range a -> Forall byte_range b -> Forall byte_range (singleSlashJoin a b).
Proof using.
  intros Ha Hb. unfold singleSlashJoin. destruct (_ && _); [|destruct (_ && _)]; rewrite ?Forall_app; split_and!; try done.
  - by apply Forall_drop.
  - constructor; [unfold byte_range, ch_slash; lia|constructor].
Qed.

(** For a path without a question mark and without fakes the policy decides on exactly the path
    that is sent below the upstream's own, and the wire form decodes to it. *)
Theorem evaluated_path_forwarded r seg reqPath out :
  oc_sent (serve r seg reqPath) = Some out -> Forall byte_range reqPath -> 63 ∉ reqPath ->
  (forall e, e ∈ t -> contains (Fake e) reqPath = false) ->
  exists svc u, findHTTPService services (bytes_string seg) = Some svc /\ url_Parse (h_Upstream svc) = Some u /\
    out_Path out = singleSlashJoin (string_bytes (url_Path u)) (pathForEval reqPath) /\
    unescape (out_EscapedPath out) = Some (out_Path out).
Proof using Hinject.
  intros Hs Hb Hq Hf. destruct (serve_sent _ _ _ _ _ _ _ _ _ _ _ _ Hs) as (_ & svc & Hsvc & Hoc).
  unfold serve in Hs. rewrite Hoc in Hs.
  destruct (forward_sent _ _ _ _ _ _ _ _ _ _ Hs) as (r2 & r4 & stored & Hpre & _ & _ & Hp & Hbuild & _).
  unfold buildUpstreamRequest in Hbuild. destruct (url_Parse (h_Upstream svc)) as [u|] eqn:Eu; [|done].
  injection Hbuild as <-. exists svc, u. cbn [out_Path out_EscapedPath].
  assert (Hpath : rq_Path r4 = reqPath). { rewrite Hp. rewrite (pre_hooks_path _ _ _ Hpre); apply hook_request_path || done. }
  assert (Heval : pathForEval reqPath = reqPath) by (by apply pathForEval_shows).
  rewrite Hpath, Heval. split_and!; try done. apply EscapedPath_decodes, singleSlashJoin_range; [apply string_bytes_range|done].
Qed.

Lemma ApplyPostHooks_session s resp :
  ApplyPostHooks (session_hooks res) t s resp = CredsSub_PostHook t (Some (ScrubServices res)) resp s.
Proof using Hinject.
  assert (Hinj : forall ihs resp, fold_left (fun resp h => PostHook t h resp s) (injection <$> ihs) resp = resp).
  { induction ihs as [|ih ihs IH]; intros rs; [done|]. rewrite fmap_cons. cbn [fold_left PostHook injection]. apply IH. }
  unfold ApplyPostHooks, snapshot. rewrite !session_hooks_lookup, (bool_decide_eq_true_2 ("" = "")) by done.
  rewrite fold_left_app. cbn [fold_left PostHook]. rewrite Hinj.
  case_bool_decide as Hs; cbn [negb fold_left]; [done|]. rewrite bool_decide_eq_false_2 by congruence. apply Hinj.
Qed.

(** C32. When no fake overlaps a real credential and the service is scrubbed, the body relayed to the
    agent contains no real credential, and every body kept on disk is the agent's own or contains
    none either. *)
Theorem agent_and_disk_see_no_secret r seg reqPath out svc :
  separated t -> oc_sent (serve r seg reqPath) = Some out ->
  findHTTPService services (bytes_string seg) = Some svc -> default false (ScrubServices res !! h_Name svc) = true ->
  let clean body := forall e, e ∈ t -> contains (Real e) body = false in
  Forall (fun lg => lg_Stored lg = [] \/ rq_Body r = Readable (lg_Stored lg) \/ clean (lg_Stored lg)) (oc_log (serve r seg reqPath)) /\
  (length (oc_log (serve r seg reqPath)) = 2%nat -> clean (rp_Body (oc_reply (serve r seg reqPath)))).
Proof using Htable Hinject.
  intros Hsep Hs Hsvc Hscrub. cbv zeta.
  destruct (serve_sent _ _ _ _ _ _ _ _ _ _ _ _ Hs) as (_ & svc' & Hsvc' & Hoc). rewrite Hsvc in Hsvc'. injection Hsvc' as <-.
  change (serveDeclaredService fl services byName (session_hooks res) t sha256 approve transport r seg reqPath) with (serve r seg reqPath) in Hoc.
  rewrite Hoc in *. destruct (forward_sent _ _ _ _ _ _ _ _ _ _ Hs) as (r2 & r4 & stored & _ & _ & _ & _ & _ & Hst & reqlog & Hrl & Hlog).
  assert (Hreq : lg_Stored reqlog = [] \/ rq_Body r = Readable (lg_Stored reqlog)) by (rewrite Hrl; destruct Hst; auto).
  destruct Hlog as [Hl|(raw & resp1 & body & resplog & Hr1 & [rb Hraw] & Hbody & Hrp & Hrs & Hl)]; rewrite Hl.
  { split; [|done]. constructor; [tauto|constructor]. }
  assert (Hclean : forall e, e ∈ t -> contains (Real e) body = false).
  { intros e He. pose proof (scrub_complete_post t (ScrubServices res) (h_Name svc) raw rb Hscrub Hraw) as Hpost.
    rewrite ApplyPostHooks_session in Hr1. rewrite <- Hr1 in Hpost. rewrite Hbody in Hpost by (rewrite Hpost; by eexists).
    injection Hpost as ->. by apply scrub_complete_aux. }
  split; [|by rewrite Hrp]. constructor; [tauto|]. constructor; [|constructor]. right. right. by rewrite Hrs.
Qed.

End SessionServe.
End SessionServe.
Export SessionServe.

(** ** A session with two credentials *)
Module ServeExamples.

#[local] Existing Instances latin_case ascii_orbits.
#[local] Existing Instance small_libraries.

Definition sample_byName : service_map :=
  match compileHTTPServices [sample_service] with Ok maps => maps.1 | Err _ => ∅ end.

(** An upstream that echoes the credential in its body and in a header. *)
Definition echo_upstream (out : OutRequest) : option Response :=
  Some (mkResponse 200 {["X-Echo" := [string_bytes "ghs-R3AL-xyz"]]} (Readable (string_bytes "token ghs-R3AL-xyz")) 18).

#[local] Notation sample_serve r reqPath :=
  (serve sample_flags [sample_service] sample_byName (fun _ => []) None echo_upstream sample_resolved sample_table
    r (string_bytes "github") (string_bytes reqPath)).

Definition sample_get (headers : gmap string (list (list Z))) (reqPath : string) : Request :=
  mkRequest "GET" headers (string_bytes ("/svc/github" +:+ reqPath)) [] [] NilBody 0.

Lemma sample_inject : Forall (fun ih => ic_ServiceName ih <> "") (InjectHeaders sample_resolved).
Proof. decide_vm. Qed.

Lemma sample_sent_Some : exists out, oc_sent (sample_serve (sample_get ∅ "/repos/a") "/repos/a") = Some out.
Proof.
  assert (H : bool_decide (is_Some (oc_sent (sample_serve (sample_get ∅ "/repos/a") "/repos/a"))) = true) by (vm_compute; reflexivity).
  destruct (bool_decide_eq_true_1 _ H) as [out Ho]. by exists out.
Qed.

Lemma forwarded_only_if_permitted_witness :
  EffectiveDecision (CheckHTTPService sample_flags sample_byName "github" "GET" "/repos/a") = DecisionAllow /\
  exists out svc, oc_sent (sample_serve (sample_get ∅ "/repos/a") "/repos/a") = Some out /\
    findHTTPService [sample_service] "github" = Some svc.
Proof.
  split; [vm_compute; reflexivity|]. destruct sample_sent_Some as [out Ho]. unfold serve in Ho.
  destruct (forwarded_only_if_permitted sample_flags [sample_service] sample_byName (fun _ => []) None echo_upstream
              (session_hooks sample_resolved) sample_table (sample_get ∅ "/repos/a") (string_bytes "github") (string_bytes "/repos/a")
              out Ho) as (_ & _ & svc & u & r2 & Hf & _).
  exists out, svc. unfold serve. split; [exact Ho|exact Hf].
Defined.

Lemma evaluated_path_forwarded_witness :
  exists out svc u, oc_sent (sample_serve (sample_get ∅ "/repos/a") "/repos/a") = Some out /\
    url_Parse (h_Upstream svc) = Some u /\
    out_Path out = singleSlashJoin (string_bytes (url_Path u)) (pathForEval (string_bytes "/repos/a")).
Proof.
  destruct sample_sent_Some as [out Ho].
  destruct (evaluated_path_forwarded sample_flags [sample_service] sample_byName (fun _ => []) None echo_upstream
              sample_resolved sample_table sample_inject (sample_get ∅ "/repos/a") (string_bytes "github") (string_bytes "/repos/a") out Ho)
    as (svc & u & _ & Hu & Hp & _).
  - apply string_bytes_range.
  - decide_vm.
  - apply Forall_forall. decide_vm.
  - exists out, svc, u. split; [exact Ho|]. split; [exact Hu|exact Hp].
Defined.

Lemma agent_and_disk_see_no_secret_witness :
  contains (string_bytes "ghs-R3AL-xyz") (rp_Body (oc_reply (sample_serve (sample_get ∅ "/repos/a") "/repos/a"))) = false.
Proof.
  destruct sample_sent_Some as [out Ho].
  assert (Hsep : separated sample_table) by (unfold separated; decide_vm).
  destruct (agent_and_disk_see_no_secret sample_flags [sample_service] sample_byName (fun _ => []) None echo_upstream
              sample_resolved sample_table sample_table_ok sample_inject (sample_get ∅ "/repos/a") (string_bytes "github") (string_bytes "/repos/a")
              out sample_service Hsep Ho) as [_ H].
  - vm_compute. reflexivity.
  - vm_compute. reflexivity.
  - apply (H ltac:(vm_compute; reflexivity) (mkEntry "github" (string_bytes "ghp_fake0001") (string_bytes "ghs-R3AL-xyz") 0)).
    apply list_elem_of_here.
Defined.

Lemma escaped_tail_faithful_witness :
  unescape (escaped_tail (mkRequest "GET" ∅ (string_bytes "/svc/github/a b") (string_bytes "/svc/github/a%20b") [] NilBody 0)
              (string_bytes "github") (string_bytes "/a b")) = Some (string_bytes "/a b").
Proof.
  apply (escaped_tail_faithful [sample_service]).
  - vm_compute. reflexivity.
  - apply string_bytes_range.
  - decide_vm.
Defined.

(** A path whose escaped form has [%3F] is cut there before the policy sees it: a traversal that is
    rejected as such goes upstream behind it. *)
Example traversal_behind_question_mark :
  EffectiveDecision (CheckHTTPService sample_flags sample_byName "github" "GET" "/repos/a?/../../orgs") = DecisionDeny /\
  (out_EscapedPath <$> oc_sent (sample_serve (sample_get ∅ "/repos/a?/../../orgs") "/repos/a?/../../orgs")) =
  Some (string_bytes "/v3/repos/a%3F/../../orgs").
Proof. split; vm_compute; reflexivity. Qed.

(** The log of the request is written after the substitution: a credential in a header that is not
    on the list, or in the path, is logged in clear. *)
Example secret_logged :
  match oc_log (sample_serve (sample_get {["X-Token" := [string_bytes "ghp_fake0001"]]} "/repos/ghp_fake0001") "/repos/ghp_fake0001") with
  | lg :: _ => (lg_Headers lg !! "X-Token", lg_Path lg)
  | [] => (None, [])
  end = (Some [string_bytes "ghs-R3AL-xyz"], string_bytes "/repos/ghs-R3AL-xyz").
Proof. vm_compute. reflexivity. Qed.

(** Response headers are relayed unscrubbed. *)
Example header_echo_reveals :
  rp_Header (oc_reply (sample_serve (sample_get ∅ "/repos/a") "/repos/a")) !! "X-Echo" = Some [string_bytes "ghs-R3AL-xyz"].
Proof. vm_compute. reflexivity. Qed.

End ServeExamples.
Export ServeExamples.
