(* ===== verification/ProcAncestry.v ===== *)
(** * Process ancestry and context rules ([internal/policy/pattern], [internal/policy/ancestry],
      [internal/policy/context_eval.go])

    Processes descended from an AI tool are tainted: the taint cache follows spawns and exits, and
    commands of a tainted process are decided by the chain rules and command lists of its context
    instead of the normal policy.

    [regexp/syntax]'s parser is a parameter ([RegexSyntax]) that yields the tree the complexity
    check walks.  Callbacks are not modelled.  The start time of a live process is an argument.  A
    Go map that is ranged over is a list in the order of the range. *)

From Stdlib Require Import ZArith Lia Ascii String.
From stdpp Require Import base list strings gmap.
From S2P Require Import Prelude GoText GoNet GoStrings ShellParse PolicyModel PolicyEngine.
Open Scope string_scope.
Open Scope list_scope.
Open Scope Z_scope.

(** ** Patterns *)
Module Patterns.

Inductive Op : Type := OpStar | OpPlus | OpQuest | OpRepeat | OpConcat | OpAlternate | OpCapture | OpOther.
Inductive syntax : Type := Syntax (op : Op) (max : Z) (subs : list syntax).

Class RegexSyntax : Type := { syntax_Parse : string -> option syntax }.

(** The score is an [int] and wraps around. *)
Fixpoint calculateComplexity (re : syntax) : Z :=
  let '(Syntax op max subs) := re in
  let total := fold_left (fun acc sub => wrap_int64 (acc + calculateComplexity sub)) subs 0 in
  match op with
  | OpStar | OpPlus => if 1 <? total then wrap_int64 (total * 100) else wrap_int64 (total + 10)
  | OpQuest => wrap_int64 (total + 2)
  | OpRepeat => Z.quot (wrap_int64 (total * (if max <? 0 then 100 else max))) 10
  | OpConcat => total
  | OpAlternate => wrap_int64 (total * 2)
  | OpCapture => wrap_int64 (total + 1)
  | OpOther => 1
  end.

Definition maxRegexComplexity : Z := 1000.

Inductive Pattern : Type :=
| PatternLiteral (s : string)
| PatternGlob (g : Glob)
| PatternRegex (re : Regexp)
| PatternClass (class : string).

Section Patterns.
Context `{L : Libraries} `{R : RegexSyntax}.

Definition checkRegexComplexity (pattern : string) : bool :=
  match syntax_Parse pattern with
  | None => false
  | Some re => calculateComplexity re <=? maxRegexComplexity
  end.

Definition compileRegex (s : string) : option Pattern :=
  let regexStr := TrimPrefix s "re:" in
  if regexStr ==? "" then None
  else if negb (checkRegexComplexity regexStr) then None
  else PatternRegex <$> regexp_Compile regexStr.

Definition compileClass (s : string) : option Pattern :=
  let className := TrimPrefix s "@" in
  if className ==? "" then None else Some (PatternClass className).

Definition isGlobPattern (s : string) : bool := existsb (fun b => has_byte b [42; 63; 91]) (string_bytes s).

Definition Compile (s : string) : option Pattern :=
  if s ==? "" then None
  else if HasPrefix s "re:" then compileRegex s
  else if HasPrefix s "@" then compileClass s
  else if isGlobPattern s then PatternGlob <$> glob_Compile s []
  else Some (PatternLiteral s).

(** Without a resolver; a class pattern does not match. *)
Definition Match (p : Pattern) (s : string) : bool :=
  match p with
  | PatternLiteral l => s ==? l
  | PatternGlob g => g s
  | PatternRegex re => re s
  | PatternClass _ => false
  end.

(** The callers drop the error, which comes with a [false]. *)
Definition MatchWithResolver (p : Pattern) (s : string) (resolver : string -> option (list string)) : bool :=
  match p with
  | PatternClass class =>
    match resolver class with
    | None => false
    | Some patterns => existsb (fun pat => match Compile pat with Some sub => Match sub s | None => false end) patterns
    end
  | _ => Match p s
  end.

Definition NewPatternSet (patterns : list string) : option (list Pattern) := mapM Compile patterns.
Definition MatchAny (ps : list Pattern) (s : string) : bool := existsb (fun p => Match p s) ps.

End Patterns.

(** *** Classes *)

Definition BuiltinClasses : list (string * list string) :=
  [("shell", ["bash"; "zsh"; "fish"; "sh"; "dash"; "ksh"; "tcsh"; "csh"; "pwsh"; "powershell"; "nu"; "nushell"; "xonsh"; "elvish"]);
   ("editor", ["Cursor"; "cursor"; "Code"; "code"; "code-oss"; "codium"; "Atom"; "atom"; "Zed"; "zed"; "vim"; "nvim"; "neovim";
               "emacs"; "emacsclient"; "nano"; "pico"; "micro"; "helix"; "hx"; "kakoune"; "kak"; "idea"; "idea64"; "intellij*";
               "goland"; "goland64"; "pycharm"; "pycharm64"; "webstorm"; "webstorm64"; "clion"; "clion64"; "rustrover"; "rider";
               "rider64"; "eclipse"; "sublime_text"; "subl"; "TextMate"; "notepad++"; "gedit"; "kate"; "geany"; "mousepad"]);
   ("agent", ["claude-agent"; "claude"; "aider"; "aider-chat"; "copilot"; "github-copilot"; "cody"; "continue"; "cursor-agent";
              "windsurf"; "tabnine"; "kite"; "sourcegraph"]);
   ("build", ["npm"; "npx"; "yarn"; "pnpm"; "bun"; "pip"; "pip3"; "poetry"; "pdm"; "uv"; "hatch"; "pipx"; "cargo"; "rustc"; "go";
              "mvn"; "maven"; "gradle"; "gradlew"; "sbt"; "ant"; "make"; "cmake"; "ninja"; "meson"; "bazel"; "gcc"; "g++"; "clang";
              "clang++"; "gem"; "bundle"; "bundler"; "rake"; "composer"; "dotnet"; "nuget"; "msbuild"; "just"; "task"; "earthly"]);
   ("language-server", ["*-language-server"; "*-lsp"; "tsserver"; "typescript-language-server"; "vscode-eslint-language-server";
              "vscode-json-language-server"; "vscode-css-language-server"; "vscode-html-language-server"; "biome"; "gopls";
              "rust-analyzer"; "rls"; "pylsp"; "pyright"; "python-language-server"; "jedi-language-server"; "ruff-lsp";
              "basedpyright"; "clangd"; "ccls"; "solargraph"; "ruby-lsp"; "phpactor"; "intelephense"; "jdtls";
              "java-language-server"; "lua-language-server"; "luals"; "yaml-language-server"; "bash-language-server";
              "docker-langserver"; "terraform-ls"; "marksman"]);
   ("runtime", ["node"; "nodejs"; "deno"; "bun"; "python"; "python3"; "python2"; "pypy"; "pypy3"; "ruby"; "irb"; "php"; "java";
              "kotlin"; "scala"; "groovy"; "dotnet"; "lua"; "luajit"; "perl"; "R"; "Rscript"; "julia"; "elixir"; "iex"; "erl"; "erlang"]);
   ("test", ["jest"; "mocha"; "vitest"; "playwright"; "cypress"; "pytest"; "python -m pytest"; "nose"; "unittest"; "go test";
             "cargo test"; "rspec"; "minitest"; "junit"; "testng"; "ctest"]);
   ("formatter", ["prettier"; "eslint"; "biome"; "black"; "ruff"; "isort"; "autopep8"; "yapf"; "flake8"; "pylint"; "mypy"; "gofmt";
             "goimports"; "golangci-lint"; "rustfmt"; "clippy"; "rubocop"; "pre-commit"]);
   ("vcs", ["git"; "gh"; "hub"; "hg"; "mercurial"; "svn"; "subversion"]);
   ("container", ["docker"; "podman"; "containerd"; "runc"; "crun"; "kubectl"; "k9s"; "helm"; "docker-compose"; "docker compose"])].

(** The patterns of each class, and the sets compiled so far. *)
Record ClassRegistry : Type := mkRegistry {
  cr_classes : gmap string (list string);
  cr_compiled : gmap string (list Pattern)
}.

Definition NewClassRegistry : ClassRegistry := mkRegistry (list_to_map BuiltinClasses) ∅.
Definition registry_Get (r : ClassRegistry) (name : string) : option (list string) := cr_classes r !! name.
Definition registry_Has (r : ClassRegistry) (name : string) : bool := bool_decide (is_Some (cr_classes r !! name)).

Definition registry_Set (r : ClassRegistry) (name : string) (patterns : list string) : ClassRegistry :=
  mkRegistry (<[name := patterns]> (cr_classes r)) (delete name (cr_compiled r)).

Definition registry_Extend (r : ClassRegistry) (name : string) (patterns : list string) : ClassRegistry :=
  mkRegistry (<[name := default [] (cr_classes r !! name) ++ patterns]> (cr_classes r)) (delete name (cr_compiled r)).

Definition registry_Delete (r : ClassRegistry) (name : string) : ClassRegistry :=
  mkRegistry (delete name (cr_classes r)) (delete name (cr_compiled r)).

(** Compiles the set of a class on its first use; [None] is an error. *)
Definition registry_Matches `{L : Libraries} `{R : RegexSyntax} (r : ClassRegistry) (name input : string)
  : ClassRegistry * option bool :=
  match cr_compiled r !! name with
  | Some ps => (r, Some (MatchAny ps input))
  | None =>
    match cr_classes r !! name with
    | None => (r, None)
    | Some patterns =>
      match NewPatternSet patterns with
      | None => (r, None)
      | Some ps => (mkRegistry (cr_classes r) (<[name := ps]> (cr_compiled r)), Some (MatchAny ps input))
      end
    end
  end.

Definition ExpandClass (name : string) : option (list string) :=
  (list_to_map BuiltinClasses : gmap string (list string)) !! TrimPrefix name "@".
Definition IsBuiltinClass (name : string) : bool := bool_decide (is_Some (ExpandClass name)).

End Patterns.
Export Patterns.

(** ** Classes of processes *)
Module Classify.

Inductive ProcessClass : Type :=
| ClassUnknown | ClassShell | ClassEditor | ClassAgent | ClassBuildTool | ClassLanguageServer | ClassLanguageRuntime.

#[global] Instance ProcessClass_eq_dec : EqDecision ProcessClass.
Proof. solve_decision. Defined.

Definition ProcessClass_String (c : ProcessClass) : string :=
  match c with
  | ClassShell => "shell" | ClassEditor => "editor" | ClassAgent => "agent" | ClassBuildTool => "build_tool"
  | ClassLanguageServer => "language_server" | ClassLanguageRuntime => "language_runtime" | ClassUnknown => "unknown"
  end.

Definition ParseProcessClass (s : string) : ProcessClass :=
  if s ==? "shell" then ClassShell
  else if s ==? "editor" then ClassEditor
  else if s ==? "agent" then ClassAgent
  else if s ==? "build_tool" then ClassBuildTool
  else if s ==? "language_server" then ClassLanguageServer
  else if s ==? "language_runtime" then ClassLanguageRuntime
  else ClassUnknown.

(** The built-in classes in the order they are tried. *)
Definition class_order : list (string * ProcessClass) :=
  [("shell", ClassShell); ("editor", ClassEditor); ("agent", ClassAgent); ("build", ClassBuildTool);
   ("language-server", ClassLanguageServer); ("runtime", ClassLanguageRuntime)].

Section Classify.
Context `{L : Libraries} `{R : RegexSyntax}.

Fixpoint classify_builtin (reg : ClassRegistry) (comm : string) (order : list (string * ProcessClass))
  : ClassRegistry * ProcessClass :=
  match order with
  | [] => (reg, ClassUnknown)
  | (name, class) :: rest =>
    let '(reg', m) := registry_Matches reg name comm in
    if default false m then (reg', class) else classify_builtin reg' comm rest
  end.

(** [customRules] in the order of the range. *)
Definition Classify (customRules : list (string * ProcessClass)) (reg : ClassRegistry) (comm : string)
  : ClassRegistry * ProcessClass :=
  match (list_to_map customRules : gmap string ProcessClass) !! comm with
  | Some class => (reg, class)
  | None =>
    match List.find (fun rc : string * ProcessClass =>
            negb (IsBuiltinClass rc.1) && match Compile rc.1 with Some p => Match p comm | None => false end) customRules with
    | Some rc => (reg, rc.2)
    | None => classify_builtin reg comm class_order
    end
  end.

End Classify.

(** *** Chains *)

(** The longest run of processes that satisfy a test: the longest and the current count. *)
Definition run_step {A} (test : A -> bool) (st : nat * nat) (x : A) : nat * nat :=
  let '(best, cur) := st in
  if test x then (if Nat.ltb best (S cur) then S cur else best, S cur) else (best, O).

Definition longest_run {A} (test : A -> bool) (l : list A) : nat := (fold_left (run_step test) l (O, O)).1.

Definition CountConsecutive (classes : list ProcessClass) (target : ProcessClass) : nat :=
  longest_run (fun c => c ==? target) classes.

Definition CountConsecutiveComm (via : list string) (patterns : list string) : nat :=
  longest_run (fun comm => existsb (fun p => (comm ==? p) || Contains comm p) patterns) via.

Record ChainAnalysis : Type := mkAnalysis {
  HasShell : bool; HasEditor : bool; HasAgent : bool; HasLanguageServer : bool;
  ConsecutiveShells : nat; ShellLaundering : bool;
  FirstShellIndex : Z; FirstEditorIndex : Z; FirstAgentIndex : Z
}.

(** The loop's state: the flags and indices so far, the position, and the current run of shells. *)
Fixpoint analyze_loop (a : ChainAnalysis) (i : Z) (cur : nat) (classes : list ProcessClass) : ChainAnalysis :=
  match classes with
  | [] => a
  | c :: rest =>
    let first old := if old =? -1 then i else old in
    match c with
    | ClassShell =>
      analyze_loop (mkAnalysis true (HasEditor a) (HasAgent a) (HasLanguageServer a)
                      (if Nat.ltb (ConsecutiveShells a) (S cur) then S cur else ConsecutiveShells a) false
                      (first (FirstShellIndex a)) (FirstEditorIndex a) (FirstAgentIndex a)) (i + 1) (S cur) rest
    | ClassEditor =>
      analyze_loop (mkAnalysis (HasShell a) true (HasAgent a) (HasLanguageServer a) (ConsecutiveShells a) false
                      (FirstShellIndex a) (first (FirstEditorIndex a)) (FirstAgentIndex a)) (i + 1) O rest
    | ClassAgent =>
      analyze_loop (mkAnalysis (HasShell a) (HasEditor a) true (HasLanguageServer a) (ConsecutiveShells a) false
                      (FirstShellIndex a) (FirstEditorIndex a) (first (FirstAgentIndex a))) (i + 1) O rest
    | ClassLanguageServer =>
      analyze_loop (mkAnalysis (HasShell a) (HasEditor a) (HasAgent a) true (ConsecutiveShells a) false
                      (FirstShellIndex a) (FirstEditorIndex a) (FirstAgentIndex a)) (i + 1) O rest
    | _ => analyze_loop a (i + 1) O rest
    end
  end.

Definition AnalyzeChain (viaClasses : list ProcessClass) : ChainAnalysis :=
  let a := analyze_loop (mkAnalysis false false false false O false (-1) (-1) (-1)) 0 O viaClasses in
  mkAnalysis (HasShell a) (HasEditor a) (HasAgent a) (HasLanguageServer a) (ConsecutiveShells a)
    (Nat.leb 3 (ConsecutiveShells a)) (FirstShellIndex a) (FirstEditorIndex a) (FirstAgentIndex a).

Definition ChainContainsClass (classes : list ProcessClass) (target : ProcessClass) : bool :=
  existsb (fun c => c ==? target) classes.

Definition ChainContainsComm `{L : Libraries} `{R : RegexSyntax} (via patterns : list string) : bool :=
  existsb (fun comm => existsb (fun p =>
    (comm ==? p) || match Compile p with Some c => Match c comm | None => false end) patterns) via.

Definition ChainMatchesPattern `{L : Libraries} `{R : RegexSyntax} (via : list string) (p : Pattern)
    (resolver : string -> option (list string)) : bool :=
  existsb (fun comm => MatchWithResolver p comm resolver) via.

End Classify.
Export Classify.

(** ** Taint *)
Module Taint.

Record ProcessSnapshot : Type := mkSnapshot {
  sn_Comm : string; sn_ExePath : string; sn_Cmdline : list string; sn_StartTime : Z
}.

Record ProcessTaint : Type := mkTaint {
  SourcePID : Z;
  SourceName : string;
  ContextName : string;
  IsAgent : bool;
  Via : list string;
  ViaClasses : list ProcessClass;
  Depth : Z;
  InheritedAt : Z;
  SourceSnapshot : ProcessSnapshot
}.

Record ProcessInfo : Type := mkInfo {
  pi_PID : Z; pi_PPID : Z; pi_Comm : string; pi_ExePath : string; pi_Cmdline : list string; pi_StartTime : Z
}.

(** The two functions set from outside; an unset one is [None]. *)
Record TaintCache : Type := mkTaintCache {
  taints : gmap Z ProcessTaint;
  ttl : Z;
  maxDepth : Z;
  matchesTaintSource : option (ProcessInfo -> option string);
  classifyProcess : option (string -> ProcessClass)
}.

Definition NewTaintCache (ttl maxDepth : Z) : TaintCache := mkTaintCache ∅ ttl maxDepth None None.
Definition SetMatchesTaintSource (c : TaintCache) (f : ProcessInfo -> option string) : TaintCache :=
  mkTaintCache (taints c) (ttl c) (maxDepth c) (Some f) (classifyProcess c).
Definition SetClassifyProcess (c : TaintCache) (f : string -> ProcessClass) : TaintCache :=
  mkTaintCache (taints c) (ttl c) (maxDepth c) (matchesTaintSource c) (Some f).
Definition with_taints (c : TaintCache) (m : gmap Z ProcessTaint) : TaintCache :=
  mkTaintCache m (ttl c) (maxDepth c) (matchesTaintSource c) (classifyProcess c).

Definition IsTainted (c : TaintCache) (pid : Z) : option ProcessTaint := taints c !! pid.

Definition child_taint (c : TaintCache) (parent : ProcessTaint) (info : ProcessInfo) (now : Z) : ProcessTaint :=
  let class := match classifyProcess c with Some f => f (pi_Comm info) | None => ClassUnknown end in
  mkTaint (SourcePID parent) (SourceName parent) (ContextName parent) (IsAgent parent)
    (Via parent ++ [pi_Comm info]) (ViaClasses parent ++ [class]) (Depth parent + 1) now (SourceSnapshot parent).

Definition source_taint (pid : Z) (contextName : string) (info : ProcessInfo) (now : Z) : ProcessTaint :=
  mkTaint pid (pi_Comm info) contextName false [] [] 0 now
    (mkSnapshot (pi_Comm info) (pi_ExePath info) (pi_Cmdline info) (pi_StartTime info)).

Definition OnSpawn (c : TaintCache) (pid ppid : Z) (info : ProcessInfo) (now : Z) : TaintCache :=
  match taints c !! ppid with
  | Some parent =>
    if (0 <? maxDepth c) && (maxDepth c <=? Depth parent) then c
    else with_taints c (<[pid := child_taint c parent info now]> (taints c))
  | None =>
    match matchesTaintSource c with
    | None => c
    | Some f =>
      match f info with
      | Some contextName => with_taints c (<[pid := source_taint pid contextName info now]> (taints c))
      | None => c
      end
    end
  end.

Definition OnExit (c : TaintCache) (pid : Z) : TaintCache := with_taints c (delete pid (taints c)).

Definition mark (t : ProcessTaint) : ProcessTaint :=
  mkTaint (SourcePID t) (SourceName t) (ContextName t) true (Via t) (ViaClasses t) (Depth t) (InheritedAt t) (SourceSnapshot t).

Definition MarkAsAgent (c : TaintCache) (pid : Z) : TaintCache * bool :=
  match taints c !! pid with
  | Some t => (with_taints c (<[pid := mark t]> (taints c)), true)
  | None => (c, false)
  end.

Definition cleanup (c : TaintCache) (now : Z) : TaintCache :=
  with_taints c (filter (fun kv : Z * ProcessTaint => ~ ttl c < now - InheritedAt kv.2) (taints c)).

Definition Clear (c : TaintCache) : TaintCache := with_taints c ∅.
Definition Count (c : TaintCache) : nat := size (taints c).

(** *** What a chain looks like *)

Definition AnalyzeTaint (taint : option ProcessTaint) : ChainAnalysis :=
  match taint with
  | None => mkAnalysis false false false false O false (-1) (-1) (-1)
  | Some t => AnalyzeChain (ViaClasses t)
  end.

Definition IsLikelyUserTerminal (taint : option ProcessTaint) : bool :=
  match taint with
  | None => false
  | Some t => if (Depth t !=? 1) || negb (Nat.eqb (length (ViaClasses t)) 1) then false
              else match ViaClasses t with c :: _ => c ==? ClassShell | [] => false end
  end.

Definition IsLikelyEditorFeature (taint : option ProcessTaint) : bool :=
  match taint with
  | None => false
  | Some t => existsb (fun c => (c ==? ClassLanguageServer) || (c ==? ClassBuildTool)) (ViaClasses t)
  end.

(** *** Events of the process tree *)

Record ProcessNode : Type := mkNode { nd_PID : Z; nd_PPID : Z; nd_Command : string; nd_Args : list string }.

(** What the cache is told of a new process: the provider's answer, if it has one, filled up from the node. *)
Definition spawn_info (infoProvider : option (Z -> option ProcessInfo)) (node : ProcessNode) : ProcessInfo :=
  let plain := mkInfo (nd_PID node) (nd_PPID node) (nd_Command node) "" [] 0 in
  let info := match (f ← infoProvider; f (nd_PID node)) with
    | Some e => mkInfo (nd_PID node) (nd_PPID node) (pi_Comm e) (pi_ExePath e) (pi_Cmdline e) (pi_StartTime e)
    | None => plain
    end in
  mkInfo (pi_PID info) (pi_PPID info)
    (if (pi_Comm info ==? "") && (nd_Command node !=? "") then nd_Command node else pi_Comm info)
    (pi_ExePath info)
    (if negb (nonempty (pi_Cmdline info)) && nonempty (nd_Args node) then nd_Command node :: nd_Args node else pi_Cmdline info)
    (pi_StartTime info).

Definition handleSpawn (infoProvider : option (Z -> option ProcessInfo)) (c : TaintCache) (node : ProcessNode) (now : Z) : TaintCache :=
  OnSpawn c (nd_PID node) (nd_PPID node) (spawn_info infoProvider node) now.
Definition handleExit (c : TaintCache) (node : ProcessNode) : TaintCache := OnExit c (nd_PID node).

(** *** Validation *)

Inductive ValidationResult : Type := ValidationValid | ValidationMissing | ValidationPIDMismatch | ValidationError.

#[global] Instance ValidationResult_eq_dec : EqDecision ValidationResult.
Proof. solve_decision. Defined.

(** [capture] is the start time of the process with this id; [None] when it cannot be read. *)
Definition ValidateSnapshotDetailed (capture : Z -> option Z) (pid : Z) (snapshot : option ProcessSnapshot) : ValidationResult :=
  match snapshot with
  | None => ValidationMissing
  | Some s =>
    match capture pid with
    | None => ValidationValid
    | Some st => if st =? sn_StartTime s then ValidationValid else ValidationPIDMismatch
    end
  end.

End Taint.
Export Taint.

(** ** Chain rules *)
Module Chain.

Record ConsecutiveMatch : Type := mkConsecutive { cm_Value : string; cm_CountGE : Z; cm_CountLE : Z }.

(** The leaf conditions. *)
Record Leaf : Type := mkLeaf {
  ViaIndex : option Z;
  ViaIndexValue : string;
  ViaContains : list string;
  ViaNotContains : list string;
  ViaMatches : list string;
  ClassContains : list string;
  ClassNotContains : list string;
  ConsecutiveClass : option ConsecutiveMatch;
  ConsecutiveComm : option ConsecutiveMatch;
  DepthEQ : option Z; DepthGT : option Z; DepthLT : option Z; DepthGE : option Z; DepthLE : option Z;
  IsTainted_ : option bool;
  IsAgent_ : option bool;
  EnvContains : list string;
  ArgsContain : list string;
  CommMatches : list string;
  PathMatches : list string;
  SourceName_ : list string;
  SourceContext : list string
}.

Definition Leaf_zero : Leaf :=
  mkLeaf None "" [] [] [] [] [] None None None None None None None None None [] [] [] [] [] [].

(** A condition; a nil pointer in a list or below [Not] is [None].  The configuration of a policy
    file ([ChainConditionConfig]) has the same fields and is copied field by field. *)
Inductive ChainCondition : Type :=
| Condition (leaf : Leaf) (or_ and_ : list (option ChainCondition)) (not_ : option ChainCondition).

Fixpoint convertConditionConfig (cfg : ChainCondition) : ChainCondition :=
  let '(Condition leaf o a n) := cfg in
  let convert sub := match sub with Some c => Some (convertConditionConfig c) | None => None end in
  Condition leaf (convert <$> o) (convert <$> a) (match n with Some c => Some (convertConditionConfig c) | None => None end).

Record ExecutionContext : Type := mkExec {
  x_Comm : string; x_Args : list string; x_ExePath : string; x_Env : option (list (string * string))
}.

Section Evaluate.
Context `{L : Libraries} `{R : RegexSyntax} (registry : ClassRegistry).

Definition matches (p : Pattern) (s : string) : bool := MatchWithResolver p s (registry_Get registry).

Definition checkViaIndex (taint : option ProcessTaint) (index : Z) (value : string) : bool :=
  match taint with
  | None => false
  | Some t =>
    if index <? 0 then false
    else match Via t !! Z.to_nat index with
    | None => false
    | Some v => match Compile value with None => v ==? value | Some p => matches p v end
    end
  end.

Definition checkViaContains (taint : option ProcessTaint) (patterns : list string) : bool :=
  match taint with
  | None => false
  | Some t => existsb (fun p => match Compile p with
                                | None => existsb (fun v => v ==? p) (Via t)
                                | Some c => existsb (matches c) (Via t)
                                end) patterns
  end.

Definition checkViaMatches (taint : option ProcessTaint) (patterns : list string) : bool :=
  match taint with
  | None => false
  | Some t => existsb (fun p => match Compile p with None => false | Some c => existsb (matches c) (Via t) end) patterns
  end.

Definition checkClassContains (taint : option ProcessTaint) (classNames : list string) : bool :=
  match taint with
  | None => false
  | Some t => existsb (fun name =>
      let target := ParseProcessClass name in
      if (target ==? ClassUnknown) && (name !=? "unknown") then false
      else existsb (fun c => c ==? target) (ViaClasses t)) classNames
  end.

Definition count_within (m : ConsecutiveMatch) (count : nat) : bool :=
  let n := Z.of_nat count in
  negb ((0 <? cm_CountGE m) && (n <? cm_CountGE m)) && negb ((0 <? cm_CountLE m) && (cm_CountLE m <? n)).

Definition checkConsecutiveClass (taint : option ProcessTaint) (m : ConsecutiveMatch) : bool :=
  match taint with
  | None => false
  | Some t => count_within m (CountConsecutive (ViaClasses t) (ParseProcessClass (cm_Value m)))
  end.

Definition checkConsecutiveComm (taint : option ProcessTaint) (m : ConsecutiveMatch) : bool :=
  match taint with
  | None => false
  | Some t => count_within m (CountConsecutiveComm (Via t) [cm_Value m])
  end.

Definition checkDepth (taint : option ProcessTaint) (c : Leaf) : bool :=
  let depth := match taint with Some t => Depth t | None => 0 end in
  let ok (o : option Z) (test : Z -> bool) := match o with Some n => test n | None => true end in
  ok (DepthEQ c) (fun n => depth =? n) && ok (DepthGT c) (fun n => n <? depth) && ok (DepthLT c) (fun n => depth <? n) &&
  ok (DepthGE c) (fun n => n <=? depth) && ok (DepthLE c) (fun n => depth <=? n).

Definition checkEnvContains (x : ExecutionContext) (patterns : list string) : bool :=
  match x_Env x with
  | None => false
  | Some env => existsb (fun p => match Compile p with
      | None => existsb (fun kv : string * string => (kv.1 ==? p) || (kv.2 ==? p) || Contains (kv.1 +:+ "=" +:+ kv.2) p) env
      | Some c => existsb (fun kv : string * string => matches c kv.1 || matches c kv.2) env
      end) patterns
  end.

Definition checkArgsContain (x : ExecutionContext) (patterns : list string) : bool :=
  existsb (fun p => match Compile p with
                    | None => existsb (fun a => (a ==? p) || Contains a p) (x_Args x)
                    | Some c => existsb (matches c) (x_Args x)
                    end) patterns.

Definition checkPatternMatches (value : string) (patterns : list string) : bool :=
  if value ==? "" then false
  else existsb (fun p => match Compile p with None => value ==? p | Some c => matches c value end) patterns.

Definition checkSourceName (taint : option ProcessTaint) (patterns : list string) : bool :=
  match taint with None => false | Some t => checkPatternMatches (SourceName t) patterns end.

Definition checkSourceContext (taint : option ProcessTaint) (patterns : list string) : bool :=
  match taint with None => false | Some t => checkPatternMatches (ContextName t) patterns end.

(** Every condition that is present must pass. *)
Definition evaluateLeafConditions (c : Leaf) (taint : option ProcessTaint) (x : option ExecutionContext) : bool :=
  let when (present test : bool) := negb present || test in
  let isSome {A} (o : option A) := match o with Some _ => true | None => false end in
  match ViaIndex c with Some i => when (ViaIndexValue c !=? "") (checkViaIndex taint i (ViaIndexValue c)) | None => true end &&
  when (nonempty (ViaContains c)) (checkViaContains taint (ViaContains c)) &&
  when (nonempty (ViaNotContains c)) (negb (checkViaContains taint (ViaNotContains c))) &&
  when (nonempty (ViaMatches c)) (checkViaMatches taint (ViaMatches c)) &&
  when (nonempty (ClassContains c)) (checkClassContains taint (ClassContains c)) &&
  when (nonempty (ClassNotContains c)) (negb (checkClassContains taint (ClassNotContains c))) &&
  match ConsecutiveClass c with Some m => checkConsecutiveClass taint m | None => true end &&
  match ConsecutiveComm c with Some m => checkConsecutiveComm taint m | None => true end &&
  checkDepth taint c &&
  match IsTainted_ c with Some b => Bool.eqb b (isSome taint) | None => true end &&
  match IsAgent_ c with Some b => Bool.eqb b (match taint with Some t => IsAgent t | None => false end) | None => true end &&
  match x with
  | None => true
  | Some x =>
    when (nonempty (EnvContains c)) (checkEnvContains x (EnvContains c)) &&
    when (nonempty (ArgsContain c)) (checkArgsContain x (ArgsContain c)) &&
    when (nonempty (CommMatches c)) (checkPatternMatches (x_Comm x) (CommMatches c)) &&
    when (nonempty (PathMatches c)) (checkPatternMatches (x_ExePath x) (PathMatches c))
  end &&
  when (nonempty (SourceName_ c)) (checkSourceName taint (SourceName_ c)) &&
  when (nonempty (SourceContext c)) (checkSourceContext taint (SourceContext c)).

(** [Or] hides [And], and both hide [Not] and the leaf conditions. *)
Fixpoint Evaluate (cond : ChainCondition) (taint : option ProcessTaint) (x : option ExecutionContext) : bool :=
  let '(Condition leaf o a n) := cond in
  let sub c := match c with Some c => Evaluate c taint x | None => true end in
  if nonempty o then existsb sub o
  else if nonempty a then forallb sub a
  else match n with
  | Some c => negb (Evaluate c taint x)
  | None => evaluateLeafConditions leaf taint x
  end.

Definition Evaluate_opt (cond : option ChainCondition) (taint : option ProcessTaint) (x : option ExecutionContext) : bool :=
  match cond with None => true | Some c => Evaluate c taint x end.

Definition ActionAllowNormalPolicy : string := "allow_normal_policy".
Definition ActionApplyContextPolicy : string := "apply_context_policy".
Definition ActionDeny : string := "deny".
Definition ActionApprove : string := "approve".
Definition ActionMarkAsAgent : string := "mark_as_agent".
Definition ActionAllow : string := "allow".

Record ChainRule : Type := mkChainRule {
  ch_Name : string;
  ch_Priority : Z;
  ch_Condition : option ChainCondition;
  ch_Action : string;
  ch_Message : string;
  ch_Continue : bool
}.

(** [Evaluate] of the rule evaluator: the best of the matching rules. *)
Definition best_rule (taint : option ProcessTaint) (x : option ExecutionContext) (rules : list ChainRule) : option ChainRule :=
  fold_left (fun best rule =>
    if negb (Evaluate_opt (ch_Condition rule) taint x) then best
    else match best with
    | None => Some rule
    | Some b => if ch_Priority b <? ch_Priority rule then Some rule
                else if (ch_Priority rule =? ch_Priority b) && (ch_Action rule ==? ActionDeny) then Some rule else Some b
    end) rules None.

(** The matching rules up to the first that does not continue. *)
Fixpoint EvaluateAll (rules : list ChainRule) (taint : option ProcessTaint) (x : option ExecutionContext) : list ChainRule :=
  match rules with
  | [] => []
  | rule :: rest =>
    if Evaluate_opt (ch_Condition rule) taint x
    then rule :: (if ch_Continue rule then EvaluateAll rest taint x else [])
    else EvaluateAll rest taint x
  end.

(** The action is that of the last one; [""] when none matches. *)
Definition EvaluateWithContinue (rules : list ChainRule) (taint : option ProcessTaint) (x : option ExecutionContext)
  : list ChainRule * string :=
  let matches := EvaluateAll rules taint x in
  (matches, match last matches with Some r => ch_Action r | None => "" end).

End Evaluate.
End Chain.
Export Chain.

(** ** Contexts *)
Module Contexts.

Record CommandOverrideConfig : Type := mkOverrideConfig { oc_ArgsAllow : list string; oc_ArgsDeny : list string; oc_Default : string }.
Record RacePolicyConfig : Type := mkRace { rp_OnMissingParent : string; rp_OnPIDMismatch : string; rp_OnValidationError : string }.

Record ProcessContext : Type := mkContext {
  px_ChainRules : list ChainRule;
  px_CommandRules : list CommandRule;
  px_AllowedCommands : list string;
  px_DeniedCommands : list string;
  px_RequireApproval : list string;
  px_CommandOverrides : list (string * CommandOverrideConfig);
  px_DefaultDecision : string;
  px_RacePolicy : option RacePolicyConfig
}.

Record compiledOverride : Type := mkOverride { argsAllow : list Glob; argsDeny : list Glob; defDecision : string }.

Record compiledContext : Type := mkCompiledContext {
  xc_config : ProcessContext;
  xc_chain : option (list ChainRule);       (* the rules of the evaluator, sorted *)
  xc_allowedCmds : list Glob;
  xc_deniedCmds : list Glob;
  xc_requireApproval : list Glob;
  xc_overrides : gmap string compiledOverride
}.

Inductive context_error : Type :=
| CAllowed (pat : string) | CDenied (pat : string) | CRequireApproval (pat : string)
| CArgsAllow (cmd pat : string) | CArgsDeny (cmd pat : string).

Section Contexts.
Context {U : UnicodeCase} `{L : Libraries} `{R : RegexSyntax}.
Context (sort_Slice : list compiledRegistryRule -> list compiledRegistryRule).
Context (sort_chain : list ChainRule -> list ChainRule).                          (* by falling priority, unstable *)

Definition compile_globs (err : string -> context_error) (pats : list string) : result context_error (list Glob) :=
  each (fun pat => of_option (err pat) (glob_Compile pat [])) pats.

Fixpoint compile_overrides (overrides : list (string * CommandOverrideConfig)) (acc : gmap string compiledOverride)
  : result context_error (gmap string compiledOverride) :=
  match overrides with
  | [] => Ok acc
  | (cmd, o) :: rest =>
    allow <-? compile_globs (CArgsAllow cmd) (oc_ArgsAllow o) ;
    deny <-? compile_globs (CArgsDeny cmd) (oc_ArgsDeny o) ;
    compile_overrides rest (<[ToLower cmd := mkOverride allow deny (oc_Default o)]> acc)
  end.

Definition convert_rule (rc : ChainRule) : ChainRule :=
  mkChainRule (ch_Name rc) (ch_Priority rc) (convertConditionConfig <$> ch_Condition rc) (ch_Action rc) (ch_Message rc) (ch_Continue rc).

Definition compileContext (ctx : ProcessContext) : result context_error compiledContext :=
  allowed <-? compile_globs CAllowed (px_AllowedCommands ctx) ;
  denied <-? compile_globs CDenied (px_DeniedCommands ctx) ;
  approval <-? compile_globs CRequireApproval (px_RequireApproval ctx) ;
  overrides <-? compile_overrides (px_CommandOverrides ctx) ∅ ;
  Ok (mkCompiledContext ctx
        (if nonempty (px_ChainRules ctx) then Some (sort_chain (convert_rule <$> px_ChainRules ctx)) else None)
        allowed denied approval overrides).

Record ContextEngine : Type := mkContextEngine {
  ce_Engine : Engine;
  ce_taintCache : TaintCache;
  ce_contexts : gmap string compiledContext;
  ce_registry : ClassRegistry
}.

(** [contexts] in the order of the range; the base engine is built first. *)
Fixpoint compile_contexts (contexts : list (string * ProcessContext)) (acc : gmap string compiledContext)
  : result (string * context_error) (gmap string compiledContext) :=
  match contexts with
  | [] => Ok acc
  | (name, ctx) :: rest =>
    match compileContext ctx with
    | Err e => Err (name, e)
    | Ok cc => compile_contexts rest (<[name := cc]> acc)
    end
  end.

Definition NewContextEngine (p : Policy) (contexts : list (string * ProcessContext)) (fl : Flags) (cache : TaintCache)
  : result (eerr + string * context_error) ContextEngine :=
  base <-? map_err inl (NewEngine sort_Slice p fl) ;
  cs <-? map_err inr (compile_contexts contexts ∅) ;
  Ok (mkContextEngine base cache cs NewClassRegistry).

Definition allow_decision (rule msg : string) : Decision := decision DecisionAllow DecisionAllow rule msg None None.
Definition deny_decision (rule msg : string) : Decision := decision DecisionDeny DecisionDeny rule msg None None.

(** [None]: no decision from the override. *)
Definition evaluateOverride (fl : Flags) (o : compiledOverride) (command : string) (args : list string) : option Decision :=
  let joined := Join args " " in
  let hit (g : Glob) := g joined || existsb g args in
  match List.find hit (argsDeny o) with
  | Some g => Some (deny_decision "context:override:args_deny"
      (if g joined then "argument pattern denied for " +:+ filepath_Base command
       else "argument " +:+ Quote (default "" (List.find g args)) +:+ " denied for " +:+ filepath_Base command))
  | None =>
    if existsb hit (argsAllow o) then Some (allow_decision "context:override:args_allow" "")
    else if defDecision o ==? "" then None
    else
      let d := ToLower (defDecision o) in
      if d ==? "allow" then Some (allow_decision "context:override:default" "")
      else if d ==? "deny" then Some (deny_decision "context:override:default" "")
      else if d ==? "approve" then Some (wrapDecision fl "approve" "context:override:default" "" None)
      else None
  end.

Definition full_command (command : string) (args : list string) : string :=
  let cmdBase := ToLower (filepath_Base command) in
  ToLower (if nonempty args then cmdBase +:+ " " +:+ Join args " " else cmdBase).

(** A command list is matched against the base name, the path and the whole line. *)
Definition listed (command : string) (args : list string) (globs : list Glob) : bool :=
  existsb (fun g : Glob => g (ToLower (filepath_Base command)) || g (ToLower command) || g (full_command command args)) globs.

Definition rules_policy (rules : list CommandRule) : Policy :=
  mkPolicy 1 "context" [] [] [] rules [] [] [] [] [] (mkLimits 0 0 0 0 0 0) EnvPolicy_zero None [] [] false [].

Definition context_default (fl : Flags) (ctx : ProcessContext) : Decision :=
  let d := ToLower (px_DefaultDecision ctx) in
  if d ==? "allow" then allow_decision "context:default" ""
  else if d ==? "approve" then wrapDecision fl "approve" "context:default" "" None
  else deny_decision "context:default" "command not allowed in this context".

(** The context's own command rules; [None] when there are none, they do not compile, or none
    applies. *)
Definition context_rules (fl : Flags) (ctx : ProcessContext) (command : string) (args : list string) : option Decision :=
  if negb (nonempty (px_CommandRules ctx)) then None
  else match NewEngine sort_Slice (rules_policy (px_CommandRules ctx)) fl with
  | Err _ => None
  | Ok e => let dec := CheckCommand e command args in
            if d_Rule dec ==? "default-deny-commands" then None else Some dec
  end.

Definition evaluateContextPolicy (fl : Flags) (cc : compiledContext) (command : string) (args : list string) : Decision :=
  let cmdBase := ToLower (filepath_Base command) in
  if listed command args (xc_deniedCmds cc) then
    deny_decision "context:denied_commands" ("command " +:+ Quote cmdBase +:+ " denied in this context")
  else match (o ← xc_overrides cc !! cmdBase; evaluateOverride fl o command args) with
  | Some dec => dec
  | None =>
    if listed command args (xc_requireApproval cc) then wrapDecision fl "approve" "context:require_approval" "" None
    else if listed command args (xc_allowedCmds cc) then allow_decision "context:allowed_commands" ""
    else match context_rules fl (xc_config cc) command args with
    | Some dec => dec
    | None => context_default fl (xc_config cc)
    end
  end.

Definition findContext (ce : ContextEngine) (name : string) : option compiledContext :=
  if name ==? "" then None else ce_contexts ce !! name.

Definition validateTaint (capture : Z -> option Z) (taint : ProcessTaint) : ValidationResult :=
  if negb (sn_StartTime (SourceSnapshot taint) =? 0)
  then ValidateSnapshotDetailed capture (SourcePID taint) (Some (SourceSnapshot taint))
  else ValidationValid.

Definition handleRaceCondition (ce : ContextEngine) (v : ValidationResult) (taint : ProcessTaint) (command : string)
    (args : list string) : Decision :=
  match findContext ce (ContextName taint) with
  | None => CheckCommand (ce_Engine ce) command args
  | Some cc =>
    match px_RacePolicy (xc_config cc) with
    | None => deny_decision "race-condition" "taint validation failed"
    | Some rp =>
      let '(action, message) := match v with
        | ValidationMissing => (rp_OnMissingParent rp, "parent process data unavailable")
        | ValidationPIDMismatch => (rp_OnPIDMismatch rp, "PID was reused by a different process")
        | ValidationError => (rp_OnValidationError rp, "error validating process ancestry")
        | ValidationValid => ("deny", "unknown validation failure")
        end in
      let action := ToLower (if action ==? "" then "deny" else action) in
      if action ==? "allow" then CheckCommand (ce_Engine ce) command args
      else if action ==? "approve" then
        decision DecisionApprove DecisionApprove "race-condition" message (Some (mkApproval true ApprovalModeEnforced)) None
      else deny_decision "race-condition" message
    end
  end.

(** The verdict of the chain rules on a taint; [None] goes on to the context's policy. *)
Definition chain_verdict (ce : ContextEngine) (command : string) (args : list string) (matched : list ChainRule) (action : string)
  : option Decision :=
  let last_rule := default (mkChainRule "" 0 None "" "" false) (last matched) in
  let rule := "chain:" +:+ ch_Name last_rule in
  if action ==? ActionAllowNormalPolicy then Some (CheckCommand (ce_Engine ce) command args)
  else if action ==? ActionDeny then Some (deny_decision rule (ch_Message last_rule))
  else if action ==? ActionApprove then
    Some (wrapDecision (e_flags (ce_Engine ce)) "approve" rule (ch_Message last_rule) None)
  else if action ==? ActionAllow then Some (allow_decision rule (ch_Message last_rule))
  else None.

Definition with_cache (ce : ContextEngine) (c : TaintCache) : ContextEngine :=
  mkContextEngine (ce_Engine ce) c (ce_contexts ce) (ce_registry ce).

(** The decision, and the engine with the cache it marked. *)
Definition CheckCommandWithContext (capture : Z -> option Z) (ce : ContextEngine) (pid : Z) (command : string) (args : list string)
  : ContextEngine * Decision :=
  match IsTainted (ce_taintCache ce) pid with
  | None => (ce, CheckCommand (ce_Engine ce) command args)
  | Some taint =>
    let v := validateTaint capture taint in
    if v !=? ValidationValid then (ce, handleRaceCondition ce v taint command args)
    else match findContext ce (ContextName taint) with
    | None => (ce, CheckCommand (ce_Engine ce) command args)
    | Some cc =>
      let fl := e_flags (ce_Engine ce) in
      let x := Some (mkExec (filepath_Base command) args command None) in
      match xc_chain cc with
      | None => (ce, evaluateContextPolicy fl cc command args)
      | Some rules =>
        let first := EvaluateWithContinue (ce_registry ce) rules (Some taint) x in
        let marks := existsb (fun r => ch_Action r ==? ActionMarkAsAgent) first.1 in
        let ce' := if marks then with_cache ce (MarkAsAgent (ce_taintCache ce) pid).1 else ce in
        let taint' := if marks then mark taint else taint in
        let final := if IsAgent taint' then EvaluateWithContinue (ce_registry ce) rules (Some taint') x else first in
        (ce', default (evaluateContextPolicy fl cc command args) (chain_verdict ce command args final.1 final.2))
      end
    end
  end.

End Contexts.
End Contexts.
Export Contexts.
