(* ===== verification/ProcAncestryTheorems.v ===== *)
(** * Theorems about process ancestry and context rules

    Descendants of an AI tool stay tainted however deep they fork; the entries of the cache are
    consistent; counts of consecutive processes are longest runs; compiled classes are never stale;
    and a tainted process is only allowed what its context, a chain rule, or the normal policy
    behind an escape hatch allows. *)

From Stdlib Require Import ZArith Lia Ascii String.
From stdpp Require Import base list strings gmap.
From S2P Require Import Prelude GoText GoNet GoStrings ShellParse PolicyModel PolicyEngine PolicyEngineTheorems ProcAncestry.
Open Scope string_scope.
Open Scope list_scope.
Open Scope Z_scope.

(** ** Runs *)
Module Runs.

(** [m] is a run of [test] somewhere in [l], or at its end. *)
Definition run_in {A} (test : A -> bool) (l m : list A) : Prop :=
  exists a b, l = a ++ m ++ b /\ Forall (fun x => test x = true) m.
Definition run_at_end {A} (test : A -> bool) (l m : list A) : Prop :=
  exists a, l = a ++ m /\ Forall (fun x => test x = true) m.

Lemma run_in_snoc {A} (test : A -> bool) l x m :
  run_in test (l ++ [x]) m <-> run_in test l m \/ run_at_end test (l ++ [x]) m.
Proof.
  split.
  - intros (a & b & Heq & Hm). destruct b as [|y b _] using rev_ind.
    + right. exists a. by rewrite app_nil_r in Heq.
    + left. exists a, b. split; [|done]. rewrite !app_assoc in Heq. apply app_inj_2 in Heq as [Heq _]; [|done].
      by rewrite Heq, <- app_assoc.
  - intros [(a & b & -> & Hm)|(a & Heq & Hm)].
    + exists a, (b ++ [x]). by rewrite <- !app_assoc.
    + exists a, []. by rewrite app_nil_r.
Qed.

Lemma run_at_end_snoc {A} (test : A -> bool) l x m :
  run_at_end test (l ++ [x]) m <-> m = [] \/ test x = true /\ exists m', m = m' ++ [x] /\ run_at_end test l m'.
Proof.
  split.
  - intros (a & Heq & Hm). destruct m as [|y m _] using rev_ind; [by left|]. right.
    rewrite app_assoc in Heq. apply app_inj_2 in Heq as [-> Hxy]; [|done]. injection Hxy as ->.
    apply Forall_app in Hm as [Hm Hy]. split; [by apply Forall_inv in Hy|]. exists m. split; [done|]. by exists a.
  - intros [->|(Hx & m' & -> & a & -> & Hm)].
    + exists (l ++ [x]). by rewrite app_nil_r.
    + exists a. rewrite <- app_assoc. split; [done|]. apply Forall_app. by repeat constructor.
Qed.

Lemma run_fold_spec {A} (test : A -> bool) l :
  let '(best, cur) := fold_left (run_step test) l (O, O) in
  (forall n, (n <= cur)%nat <-> exists m, length m = n /\ run_at_end test l m) /\
  (forall n, (n <= best)%nat <-> exists m, length m = n /\ run_in test l m).
Proof.
  induction l as [|x l IH] using rev_ind.
  { cbn. split; intros n; (split; [intros Hn; exists []; split; [cbn; lia|]|intros (m & <- & Hm)]).
    - by exists [].
    - destruct Hm as (a & Heq & _). symmetry in Heq. apply app_nil in Heq as [_ ->]. done.
    - by exists [], [].
    - destruct Hm as (a & b & Heq & _). symmetry in Heq. apply app_nil in Heq as [_ Heq]. apply app_nil in Heq as [-> _]. done. }
  rewrite fold_left_app. cbn [fold_left]. destruct (fold_left (run_step test) l (O, O)) as [best cur].
  destruct IH as [Hcur Hbest]. cbn [run_step].
  assert (Hend : forall n, (n <= if test x then S cur else O)%nat <-> exists m, length m = n /\ run_at_end test (l ++ [x]) m).
  { intros n. setoid_rewrite run_at_end_snoc. destruct (test x).
    - split.
      + intros Hn. destruct n as [|n]; [exists []; auto|]. destruct (proj1 (Hcur n)) as (m & <- & Hm); [lia|].
        exists (m ++ [x]). rewrite length_app. split; [cbn; lia|]. right. split; [done|]. by exists m.
      + intros (m & <- & [->|(_ & m' & -> & Hm)]); [cbn; lia|]. rewrite length_app. cbn.
        assert (length m' <= cur)%nat by (apply Hcur; eauto). lia.
    - split; [intros Hn; exists []; split; [cbn; lia|by left]|]. intros (m & <- & [->|[Hf _]]); [cbn; lia|done]. }
  assert (Hin : forall n, (n <= Nat.max best (if test x then S cur else O))%nat <-> exists m, length m = n /\ run_in test (l ++ [x]) m).
  { intros n. setoid_rewrite run_in_snoc. rewrite Nat.max_le_iff. split.
    - intros [Hn|Hn]; [apply Hbest in Hn as (m & <- & Hm)|apply Hend in Hn as (m & <- & Hm)]; exists m; auto.
    - intros (m & <- & [Hm|Hm]); [left; apply Hbest|right; apply Hend]; eauto. }
  destruct (test x); (split; [exact Hend|]); intros n; rewrite <- Hin.
  - destruct (Nat.ltb_spec best (S cur)); lia.
  - lia.
Qed.

Lemma longest_run_spec {A} (test : A -> bool) l n :
  (n <= longest_run test l)%nat <-> exists m, length m = n /\ run_in test l m.
Proof. unfold longest_run. pose proof (run_fold_spec test l) as H. destruct (fold_left _ _ _). apply H. Qed.

Lemma analyze_loop_shells classes : forall a i cur,
  ConsecutiveShells (analyze_loop a i cur classes) =
  (fold_left (run_step (fun c => c ==? ClassShell)) classes (ConsecutiveShells a, cur)).1.
Proof.
  induction classes as [|c classes IH]; intros a i cur; [done|]. cbn [analyze_loop fold_left run_step].
  destruct c; rewrite IH; done.
Qed.

Lemma run_shells m : Forall (fun x => (x ==? ClassShell) = true) m -> m = replicate (length m) ClassShell.
Proof. induction 1 as [|x m Hx _ IH]; [done|]. apply bool_decide_eq_true in Hx as ->. cbn. by rewrite <- IH. Qed.

(** The shells counted on a chain are the longest run of consecutive shells: laundering is
    reported exactly when three shells follow one another somewhere in the chain, and a condition
    on consecutive classes sees the same count. *)
Theorem shell_laundering_exact classes :
  ConsecutiveShells (AnalyzeChain classes) = CountConsecutive classes ClassShell /\
  (ShellLaundering (AnalyzeChain classes) = true <->
   exists a b, classes = a ++ [ClassShell; ClassShell; ClassShell] ++ b).
Proof.
  assert (Hc : ConsecutiveShells (analyze_loop (mkAnalysis false false false false O false (-1) (-1) (-1)) 0 O classes) =
               CountConsecutive classes ClassShell) by apply analyze_loop_shells.
  split; [exact Hc|]. unfold AnalyzeChain. cbn [ShellLaundering]. rewrite Hc, Nat.leb_le. unfold CountConsecutive.
  rewrite longest_run_spec. split.
  - intros (m & Hl & a & b & -> & Hm%run_shells). exists a, b. by rewrite Hm, Hl.
  - intros (a & b & ->). exists [ClassShell; ClassShell; ClassShell]. split; [done|]. exists a, b. by repeat constructor.
Qed.

End Runs.
Export Runs.

(** ** Histories of the taint cache *)
Module Histories.

Inductive event : Type :=
| Spawn (pid ppid : Z) (info : ProcessInfo) (now : Z)
| Exit (pid : Z)
| Mark (pid : Z)
| Sweep (now : Z)
| ClearAll.

Definition step (c : TaintCache) (e : event) : TaintCache :=
  match e with
  | Spawn pid ppid info now => OnSpawn c pid ppid info now
  | Exit pid => OnExit c pid
  | Mark pid => (MarkAsAgent c pid).1
  | Sweep now => cleanup c now
  | ClearAll => Clear c
  end.

Definition run (c : TaintCache) (events : list event) : TaintCache := fold_left step events c.

Lemma step_settings c e :
  ttl (step c e) = ttl c /\ maxDepth (step c e) = maxDepth c /\
  matchesTaintSource (step c e) = matchesTaintSource c /\ classifyProcess (step c e) = classifyProcess c.
Proof.
  destruct e; cbn [step]; try done.
  - unfold OnSpawn. repeat case_match; done.
  - unfold MarkAsAgent. by case_match.
Qed.

(** *** Consistency of the entries *)

Definition class_of (c : TaintCache) (comm : string) : ProcessClass :=
  match classifyProcess c with Some f => f comm | None => ClassUnknown end.

(** Depth counts the names passed through, each classified; depth stays within the limit; the
    context is one the matcher gave to a source with the recorded name and start time. *)
Definition taint_ok (c : TaintCache) (t : ProcessTaint) : Prop :=
  Depth t = Z.of_nat (length (Via t)) /\ ViaClasses t = class_of c <$> Via t /\
  (0 < maxDepth c -> Depth t <= maxDepth c) /\
  exists f info, matchesTaintSource c = Some f /\ f info = Some (ContextName t) /\
    SourceName t = pi_Comm info /\ sn_StartTime (SourceSnapshot t) = pi_StartTime info.

Definition cache_ok (c : TaintCache) : Prop := map_Forall (fun _ t => taint_ok c t) (taints c).

Lemma taint_ok_settings c c' t :
  maxDepth c' = maxDepth c -> matchesTaintSource c' = matchesTaintSource c -> classifyProcess c' = classifyProcess c ->
  taint_ok c t -> taint_ok c' t.
Proof. unfold taint_ok, class_of. intros -> -> ->. done. Qed.

Lemma child_taint_ok c parent info now :
  taint_ok c parent -> ~ (0 < maxDepth c /\ maxDepth c <= Depth parent) -> taint_ok c (child_taint c parent info now).
Proof.
  intros (Hd & Hc & Hm & f & i & ?) Hlim. unfold child_taint. split_and!; cbn.
  - rewrite length_app, Hd. cbn. lia.
  - by rewrite Hc, fmap_app.
  - intros Hpos. lia.
  - by exists f, i.
Qed.

Lemma step_ok c e : cache_ok c -> cache_ok (step c e).
Proof.
  intros Hok. unfold cache_ok in *. destruct (step_settings c e) as (_ & H2 & H3 & H4).
  assert (Hgoal : map_Forall (fun _ t => taint_ok c t) (taints (step c e)));
    [|intros pid t Ht; by eapply taint_ok_settings, Hgoal].
  clear H2 H3 H4. destruct e as [pid ppid info now|pid|pid|now|]; cbn [step].
  - unfold OnSpawn. destruct (taints c !! ppid) as [parent|] eqn:Ep.
    + destruct (_ && _) eqn:El; [done|]. apply map_Forall_insert_2; [|done]. apply child_taint_ok; [by eapply Hok|].
      apply andb_false_iff in El. lia.
    + destruct (matchesTaintSource c) as [f|] eqn:Ef; [|done]. destruct (f info) as [name|] eqn:En; [|done].
      apply map_Forall_insert_2; [|done]. split_and!; cbn; try done; [lia|]. by exists f, info.
  - by apply map_Forall_delete.
  - unfold MarkAsAgent. destruct (taints c !! pid) as [t|] eqn:Et; [|done]. apply map_Forall_insert_2; [|done].
    pose proof (Hok _ _ Et) as H. exact H.
  - intros pid t [Ht _]%map_lookup_filter_Some. by eapply Hok.
  - apply map_Forall_empty.
Qed.

(** On every history of spawns, exits, marks and sweeps, with any reuse of process ids, the
    entries of the cache are consistent: the depth of a process is the number of names it passed
    through, each with its class, it never exceeds the limit, and its context was given by the
    matcher to a process with the recorded name and start time. *)
Theorem taints_consistent lifetime limit matcher classifier events :
  cache_ok (run (SetClassifyProcess (SetMatchesTaintSource (NewTaintCache lifetime limit) matcher) classifier) events).
Proof.
  set (c := SetClassifyProcess _ _). assert (Hc : cache_ok c) by apply map_Forall_empty. clearbody c.
  revert c Hc. induction events as [|e events IH]; intros c Hc; [done|]. apply IH, step_ok, Hc.
Qed.

(** *** Descendants *)

(** A line of spawns from [p], recorded since [since], to [q] through the commands [comms]; in
    between anything may happen but the end or replacement of the current process.  [ages] has how long
    the current process had been recorded at each sweep. *)
Inductive lineage : list event -> Z -> Z -> list Z -> list string -> Z -> Prop :=
| lineage_end p since : lineage [] p since [] [] p
| lineage_spawn child p info now since events ages comms q :
    lineage events child now ages comms q ->
    lineage (Spawn child p info now :: events) p since ages (pi_Comm info :: comms) q
| lineage_other_spawn pid ppid info now p since events ages comms q :
    pid <> p -> lineage events p since ages comms q ->
    lineage (Spawn pid ppid info now :: events) p since ages comms q
| lineage_exit pid p since events ages comms q :
    pid <> p -> lineage events p since ages comms q -> lineage (Exit pid :: events) p since ages comms q
| lineage_mark pid p since events ages comms q :
    lineage events p since ages comms q -> lineage (Mark pid :: events) p since ages comms q
| lineage_sweep now p since events ages comms q :
    lineage events p since ages comms q -> lineage (Sweep now :: events) p since (now - since :: ages) comms q.

(** What a descendant keeps of the taint of its ancestor. *)
Definition inherits (t t' : ProcessTaint) (comms : list string) : Prop :=
  SourcePID t' = SourcePID t /\ SourceName t' = SourceName t /\ ContextName t' = ContextName t /\
  SourceSnapshot t' = SourceSnapshot t /\ (IsAgent t = true -> IsAgent t' = true) /\
  Via t' = Via t ++ comms /\ Depth t' = Depth t + Z.of_nat (length comms).

Lemma inherits_refl t : inherits t t [].
Proof. unfold inherits. rewrite app_nil_r. cbn. split_and!; done || lia. Qed.

Lemma inherits_trans t t' t'' c1 c2 : inherits t t' c1 -> inherits t' t'' c2 -> inherits t t'' (c1 ++ c2).
Proof.
  intros (A1 & A2 & A3 & A4 & A5 & A6 & A7) (B1 & B2 & B3 & B4 & B5 & B6 & B7). unfold inherits.
  rewrite B1, B2, B3, B4, B6, B7, A1, A2, A3, A4, A6, A7, length_app, app_assoc. split_and!; try done; [auto|lia].
Qed.

Lemma mark_keeps c pid p t :
  taints c !! p = Some t -> exists t', taints (MarkAsAgent c pid).1 !! p = Some t' /\ inherits t t' [] /\ InheritedAt t' = InheritedAt t.
Proof.
  intros Ht. unfold MarkAsAgent. destruct (taints c !! pid) as [u|] eqn:Eu.
  2: { exists t. auto using inherits_refl. }
  cbn. destruct (decide (pid = p)) as [->|Hne].
  - rewrite lookup_insert_eq. assert (u = t) as -> by congruence. exists (mark t). split_and!; try done.
    destruct (inherits_refl t) as (? & ? & ? & ? & ? & ? & ?). unfold inherits. by split_and!.
  - rewrite lookup_insert_ne by done. exists t. auto using inherits_refl.
Qed.

Lemma descendants_aux c events p since ages comms q t :
  lineage events p since ages comms q -> taints c !! p = Some t -> InheritedAt t = since ->
  (maxDepth c <= 0 \/ Depth t + Z.of_nat (length comms) <= maxDepth c) -> Forall (fun age => age <= ttl c) ages ->
  exists t', taints (run c events) !! q = Some t' /\ inherits t t' comms.
Proof.
  intros H. revert c t.
  induction H as [p since|child p info now since events ages comms q H IH|pid ppid info now p since events ages comms q Hne H IH
                 |pid p since events ages comms q Hne H IH|pid p since events ages comms q H IH|now p since events ages comms q H IH];
    intros c t Ht Hsince Hd Hages; cbn [run fold_left]; [exists t; by split; [|apply inherits_refl]|..];
    match goal with |- context [fold_left step _ (step c ?e)] =>
      destruct (step_settings c e) as (S1 & S2 & _); change (fold_left step events (step c e)) with (run (step c e) events) end;
    rewrite <- S1 in Hages.
  - cbn [length] in Hd.
    assert (Hs : taints (step c (Spawn child p info now)) !! child = Some (child_taint c t info now)).
    { cbn [step]. unfold OnSpawn. rewrite Ht. destruct ((0 <? maxDepth c) && (maxDepth c <=? Depth t)) eqn:El; [lia|].
      apply lookup_insert_eq. }
    destruct (IH _ _ Hs eq_refl) as (t' & Ht' & Hinh); [rewrite S2; cbn; lia|done|].
    exists t'. split; [done|]. apply (inherits_trans t (child_taint c t info now) t' [pi_Comm info] comms); [|done].
    unfold inherits, child_taint. cbn. by split_and!.
  - assert (Hs : taints (step c (Spawn pid ppid info now)) !! p = Some t).
    { cbn [step]. unfold OnSpawn. repeat case_match; try done; cbn; by rewrite lookup_insert_ne. }
    apply (IH _ _ Hs Hsince); [by rewrite S2|done].
  - assert (Hs : taints (step c (Exit pid)) !! p = Some t) by (cbn; by rewrite lookup_delete_ne).
    apply (IH _ _ Hs Hsince); [by rewrite S2|done].
  - destruct (mark_keeps c pid p t Ht) as (u & Hu & Hinh & Hage).
    destruct (IH (step c (Mark pid)) u Hu) as (t' & Ht' & Hi'); [by rewrite Hage| |done|].
    { rewrite S2. destruct Hinh as (_ & _ & _ & _ & _ & _ & ->). cbn [length] in *. lia. }
    exists t'. split; [done|]. exact (inherits_trans _ _ _ [] comms Hinh Hi').
  - apply Forall_cons in Hages as [Hage Hages]. rewrite S1 in Hage.
    assert (Hs : taints (step c (Sweep now)) !! p = Some t).
    { cbn. apply map_lookup_filter_Some. split; [done|]. cbn. lia. }
    apply (IH _ _ Hs Hsince); [by rewrite S2|done].
Qed.

(** C30. No escape by forking: a process that descends from a tainted one through a line of spawns, none
    of which ended or was replaced before the next, is tainted with the same source and context, stays
    an agent, and records the commands passed through, as long as the depth limit allows them, whatever
    happens to other processes; unless a sweep found a process of the line recorded for longer than the
    time to live, before it had spawned the next. *)
Theorem descendants_tainted c events p ages comms q t :
  lineage events p (InheritedAt t) ages comms q -> IsTainted c p = Some t ->
  (maxDepth c <= 0 \/ Depth t + Z.of_nat (length comms) <= maxDepth c) ->
  Exists (fun age => ttl c < age) ages \/
  exists t', IsTainted (run c events) q = Some t' /\ inherits t t' comms.
Proof.
  intros Hl Ht Hd. destruct (decide (Forall (fun age => age <= ttl c) ages)) as [Ha|Ha]; [right; by eapply descendants_aux|left].
  apply not_Forall_Exists in Ha; [|apply _]. eapply Exists_impl; [exact Ha|]. cbn. lia.
Qed.

(** A tool, its shell, and a script below it, while an unrelated process comes and goes. *)
Definition tool : ProcessInfo := mkInfo 10 1 "cursor" "/usr/bin/cursor" [] 7.
Definition named_info (pid : Z) (comm : string) : ProcessInfo := mkInfo pid 0 comm "" [] 0.
Definition is_tool (i : ProcessInfo) : option string := if pi_Comm i ==? "cursor" then Some "ai" else None.
Definition sample_cache : TaintCache :=
  run (SetMatchesTaintSource (NewTaintCache 3600 100) is_tool) [Spawn 10 1 tool 0].
Definition sample_history : list event :=
  [Spawn 11 10 (named_info 11 "bash") 5; Spawn 50 1 (named_info 50 "ls") 6; Mark 10; Exit 10; Sweep 60;
   Spawn 12 11 (named_info 12 "python") 70; Exit 50].

Lemma descendants_tainted_witness :
  exists t', IsTainted (run sample_cache sample_history) 12 = Some t' /\ Via t' = ["bash"; "python"] /\ ContextName t' = "ai".
Proof.
  destruct (descendants_tainted sample_cache sample_history 10 [55] ["bash"; "python"] 12 (source_taint 10 "ai" tool 0)) as [Hold|(t' & Ht & Hi)].
  - unfold sample_history. apply (lineage_spawn 11 10 (named_info 11 "bash")). apply lineage_other_spawn; [done|].
    apply lineage_mark. apply lineage_exit; [done|]. apply (lineage_sweep 60 11 5).
    apply (lineage_spawn 12 11 (named_info 12 "python")). apply lineage_exit; [done|]. apply lineage_end.
  - vm_compute. reflexivity.
  - right. vm_compute. discriminate.
  - exfalso. apply Exists_cons in Hold as [Hold|Hold]; [by vm_compute in Hold|by inversion Hold].
  - exists t'. destruct Hi as (_ & _ & Hc & _ & _ & Hv & _). split; [exact Ht|]. split; [exact Hv|exact Hc].
Defined.

(** The entry of the tool itself expires while it runs: what it starts afterwards is not tainted. *)
Example expired_source_untainted :
  IsTainted (run sample_cache [Sweep 3601; Spawn 11 10 (named_info 11 "bash") 3602]) 11 = None.
Proof. vm_compute. reflexivity. Qed.

(** A process id that is used again keeps the taint of its last owner, when the exit was missed. *)
Example reused_pid_tainted :
  IsTainted (run sample_cache [Spawn 10 1 (named_info 10 "sshd") 9]) 10 = Some (source_taint 10 "ai" tool 0).
Proof. vm_compute. reflexivity. Qed.

End Histories.
Export Histories.

(** ** Classes *)
Module ClassFacts.
Section ClassFacts.
Context `{L : Libraries} `{R : RegexSyntax}.

Inductive registry_op : Type :=
| OpSet (name : string) (patterns : list string)
| OpExtend (name : string) (patterns : list string)
| OpDelete (name : string)
| OpMatches (name input : string).

Definition registry_step (r : ClassRegistry) (o : registry_op) : ClassRegistry :=
  match o with
  | OpSet n p => registry_Set r n p
  | OpExtend n p => registry_Extend r n p
  | OpDelete n => registry_Delete r n
  | OpMatches n i => (registry_Matches r n i).1
  end.

(** Every compiled set is the one its class has now. *)
Definition coherent (r : ClassRegistry) : Prop :=
  forall name ps, cr_compiled r !! name = Some ps -> (cr_classes r !! name) ≫= NewPatternSet = Some ps.

Lemma drop_compiled_coherent r name classes :
  coherent r -> (forall n, n <> name -> classes !! n = cr_classes r !! n) ->
  coherent (mkRegistry classes (delete name (cr_compiled r))).
Proof.
  intros Hr Hc n ps. cbn. destruct (decide (n = name)) as [->|Hne]; [by rewrite lookup_delete_eq|].
  rewrite lookup_delete_ne by done. rewrite Hc by done. apply Hr.
Qed.

Lemma registry_step_coherent r o : coherent r -> coherent (registry_step r o).
Proof.
  intros Hr. destruct o as [n p|n p|n|n i]; cbn [registry_step].
  - apply drop_compiled_coherent; [done|]. intros m Hm. by rewrite lookup_insert_ne.
  - apply drop_compiled_coherent; [done|]. intros m Hm. by rewrite lookup_insert_ne.
  - apply drop_compiled_coherent; [done|]. intros m Hm. by rewrite lookup_delete_ne.
  - unfold registry_Matches. destruct (cr_compiled r !! n); [done|].
    destruct (cr_classes r !! n) as [pats|] eqn:Ec; [|done]. destruct (NewPatternSet pats) as [ps|] eqn:Ep; [|done].
    intros m ps'. cbn. destruct (decide (n = m)) as [<-|Hne].
    + rewrite lookup_insert_eq, Ec. by intros [= <-].
    + rewrite lookup_insert_ne by done. apply Hr.
Qed.

(** The cache of compiled classes is invisible: after any sequence of changes and lookups a
    lookup answers as compiling the patterns the class has now would. *)
Theorem Matches_never_stale ops name input :
  let r := fold_left registry_step ops NewClassRegistry in
  (registry_Matches r name input).2 = (fun ps => MatchAny ps input) <$> ((cr_classes r !! name) ≫= NewPatternSet).
Proof.
  cbv zeta. assert (Hr : coherent (fold_left registry_step ops NewClassRegistry)).
  { assert (H0 : coherent NewClassRegistry) by (intros n ps H; cbn [cr_compiled NewClassRegistry] in H; by rewrite lookup_empty in H). revert H0.
    generalize NewClassRegistry. induction ops as [|o ops IH]; intros r Hr; [done|]. apply IH, registry_step_coherent, Hr. }
  unfold registry_Matches. destruct (cr_compiled _ !! name) as [ps|] eqn:E; [by rewrite (Hr _ _ E)|].
  destruct (cr_classes _ !! name) as [pats|]; [|done]. cbn. by destruct (NewPatternSet pats).
Qed.

End ClassFacts.
End ClassFacts.
Export ClassFacts.

(** ** Decisions *)
Module ContextTheorems.
Section ContextTheorems.
Context {U : UnicodeCase} `{L : Libraries} `{R : RegexSyntax}.
Context (sort_Slice : list compiledRegistryRule -> list compiledRegistryRule).

Lemma convert_same c : convertConditionConfig c = c.
Proof using.
  revert c. fix IH 1. intros [leaf o a n]. cbn [convertConditionConfig]. f_equal.
  - induction o as [|[c|] o IHo]; cbn; [done|by rewrite IH, IHo|by rewrite IHo].
  - induction a as [|[c|] a IHa]; cbn; [done|by rewrite IH, IHa|by rewrite IHa].
  - destruct n as [c|]; [by rewrite IH|done].
Qed.

(** What the context's own policy lets through. *)
Inductive context_permits (fl : Flags) (cc : compiledContext) (command : string) (args : list string) : Prop :=
| permits_args o g : xc_overrides cc !! ToLower (filepath_Base command) = Some o -> g ∈ argsAllow o ->
    g (Join args " ") = true \/ (exists a, a ∈ args /\ g a = true) ->
    (forall g', g' ∈ argsDeny o -> g' (Join args " ") = false /\ forall a, a ∈ args -> g' a = false) ->
    context_permits fl cc command args
| permits_override o : xc_overrides cc !! ToLower (filepath_Base command) = Some o -> ToLower (defDecision o) = "allow" ->
    (forall g', g' ∈ argsDeny o -> g' (Join args " ") = false /\ forall a, a ∈ args -> g' a = false) ->
    context_permits fl cc command args
| permits_listed : listed command args (xc_allowedCmds cc) = true -> listed command args (xc_requireApproval cc) = false ->
    context_permits fl cc command args
| permits_rules e : NewEngine sort_Slice (rules_policy (px_CommandRules (xc_config cc))) fl = Ok e ->
    EffectiveDecision (CheckCommand e command args) = DecisionAllow -> context_permits fl cc command args
| permits_default : ToLower (px_DefaultDecision (xc_config cc)) = "allow" -> context_permits fl cc command args
| permits_shadow rule : EffectiveDecision (wrapDecision fl "approve" rule "" None) = DecisionAllow ->
    listed command args (xc_requireApproval cc) = true \/ ToLower (px_DefaultDecision (xc_config cc)) = "approve" \/
    (exists o, xc_overrides cc !! ToLower (filepath_Base command) = Some o /\ ToLower (defDecision o) = "approve") ->
    context_permits fl cc command args.

Lemma existsb_glob_false (g : Glob) (args : list string) :
  existsb g args = false -> forall a, a ∈ args -> g a = false.
Proof using.
  intros H a Ha. apply not_true_iff_false. intros Hg. assert (existsb g args = true); [|congruence].
  apply existsb_exists. exists a. by rewrite <- list_elem_of_In.
Qed.

Lemma evaluateOverride_allow fl cc command args o d :
  xc_overrides cc !! ToLower (filepath_Base command) = Some o -> evaluateOverride fl o command args = Some d ->
  EffectiveDecision d = DecisionAllow -> context_permits fl cc command args.
Proof using.
  intros Ho. unfold evaluateOverride. destruct (List.find _ (argsDeny o)) eqn:Ed; [by intros [= <-]|].
  assert (Hdeny : forall g', g' ∈ argsDeny o -> g' (Join args " ") = false /\ forall a, a ∈ args -> g' a = false).
  { intros g' Hg%list_elem_of_In. pose proof (find_none _ _ Ed _ Hg) as Hn. apply orb_false_iff in Hn as [H1 H2].
    split; [done|]. by apply existsb_glob_false. }
  destruct (existsb _ (argsAllow o)) eqn:Ea.
  { intros _ _. apply existsb_exists in Ea as (g & Hg%list_elem_of_In & Hhit). apply orb_true_iff in Hhit.
    eapply permits_args; [done|exact Hg| |done]. destruct Hhit as [H|H]; [by left|right].
    apply existsb_exists in H as (a & Hin%list_elem_of_In & Hga). eauto. }
  destruct (defDecision o ==? ""); [done|]. case_bool_decide as Hd; [intros _ _; by eapply permits_override|].
  case_bool_decide; [by intros [= <-]|]. case_bool_decide; [|done]. intros [= <-] Heff. eapply permits_shadow; [exact Heff|]. right; right. by exists o.
Qed.

Lemma context_rules_allow fl cc command args d :
  context_rules sort_Slice fl (xc_config cc) command args = Some d -> EffectiveDecision d = DecisionAllow ->
  context_permits fl cc command args.
Proof using.
  unfold context_rules. destruct (negb _); [done|]. destruct (NewEngine _ _ _) as [e|] eqn:Ee; [|done].
  case_bool_decide; [done|]. intros [= <-] Heff. by eapply permits_rules.
Qed.

Lemma context_default_allow fl cc command args :
  EffectiveDecision (context_default fl (xc_config cc)) = DecisionAllow -> context_permits fl cc command args.
Proof using.
  unfold context_default. case_bool_decide as Hd; [intros _; by apply permits_default|].
  case_bool_decide; [|done]. intros Hs. eapply permits_shadow; [exact Hs|tauto].
Qed.

Lemma context_lists_allow fl cc command args :
  EffectiveDecision
    (if listed command args (xc_requireApproval cc) then wrapDecision fl "approve" "context:require_approval" "" None
     else if listed command args (xc_allowedCmds cc) then allow_decision "context:allowed_commands" ""
     else match context_rules sort_Slice fl (xc_config cc) command args with
          | Some dec => dec | None => context_default fl (xc_config cc) end) = DecisionAllow ->
  context_permits fl cc command args.
Proof using.
  destruct (listed command args (xc_requireApproval cc)) eqn:Er; [intros H; eapply permits_shadow; [exact H|tauto]|].
  destruct (listed command args (xc_allowedCmds cc)) eqn:El; [intros _; by apply permits_listed|].
  destruct (context_rules _ _ _ _ _) eqn:Ec; [by apply context_rules_allow|apply context_default_allow].
Qed.

Lemma evaluateContextPolicy_allow fl cc command args :
  EffectiveDecision (evaluateContextPolicy sort_Slice fl cc command args) = DecisionAllow ->
  listed command args (xc_deniedCmds cc) = false /\ context_permits fl cc command args.
Proof using.
  unfold evaluateContextPolicy. destruct (listed command args (xc_deniedCmds cc)); [done|]. intros H. split; [done|]. revert H.
  destruct (xc_overrides cc !! ToLower (filepath_Base command)) as [o|] eqn:Eo; cbn [mbind option_bind].
  - destruct (evaluateOverride fl o command args) as [d|] eqn:Ed; [by eapply evaluateOverride_allow|]. apply context_lists_allow.
  - apply context_lists_allow.
Qed.

(** *** A tainted process *)

(** The last word of the chain rules, the second round of an agent included. *)
Definition final_rules (ce : ContextEngine) (rules : list ChainRule) (taint : ProcessTaint) (x : option ExecutionContext)
  : list ChainRule * string :=
  let first := EvaluateWithContinue (ce_registry ce) rules (Some taint) x in
  let agent := IsAgent taint || existsb (fun r => ch_Action r ==? ActionMarkAsAgent) first.1 in
  if agent then EvaluateWithContinue (ce_registry ce) rules (Some (mark taint)) x else first.

Lemma mark_agent taint : IsAgent taint = true -> mark taint = taint.
Proof using. destruct taint; cbn. by intros ->. Qed.

Lemma final_rules_same ce rules taint x :
  let first := EvaluateWithContinue (ce_registry ce) rules (Some taint) x in
  let marks := existsb (fun r => ch_Action r ==? ActionMarkAsAgent) first.1 in
  let taint' := if marks then mark taint else taint in
  (if IsAgent taint' then EvaluateWithContinue (ce_registry ce) rules (Some taint') x else first) = final_rules ce rules taint x.
Proof using.
  cbv zeta. unfold final_rules. destruct (existsb _ _); cbn [IsAgent mark].
  - by rewrite orb_true_r.
  - rewrite orb_false_r. destruct (IsAgent taint) eqn:E; [by rewrite mark_agent|done].
Qed.

(** Why a command of a tainted process may run. *)
Inductive tainted_permits (ce : ContextEngine) (taint : ProcessTaint) (command : string) (args : list string)
  : ValidationResult -> Prop :=
| by_no_context v : findContext ce (ContextName taint) = None ->
    EffectiveDecision (CheckCommand (ce_Engine ce) command args) = DecisionAllow -> tainted_permits ce taint command args v
| by_race_policy cc rp : findContext ce (ContextName taint) = Some cc ->
    px_RacePolicy (xc_config cc) = Some rp -> ToLower (rp_OnPIDMismatch rp) = "allow" ->
    EffectiveDecision (CheckCommand (ce_Engine ce) command args) = DecisionAllow ->
    tainted_permits ce taint command args ValidationPIDMismatch
| by_chain cc rules r : findContext ce (ContextName taint) = Some cc -> xc_chain cc = Some rules ->
    r ∈ rules -> last (final_rules ce rules taint (Some (mkExec (filepath_Base command) args command None))).1 = Some r ->
    ch_Action r = ActionAllow \/
    ch_Action r = ActionAllowNormalPolicy /\ EffectiveDecision (CheckCommand (ce_Engine ce) command args) = DecisionAllow \/
    ch_Action r = ActionApprove /\
      EffectiveDecision (wrapDecision (e_flags (ce_Engine ce)) "approve" ("chain:" +:+ ch_Name r) (ch_Message r) None) = DecisionAllow ->
    tainted_permits ce taint command args ValidationValid
| by_context cc : findContext ce (ContextName taint) = Some cc ->
    (forall rules r, xc_chain cc = Some rules ->
       last (final_rules ce rules taint (Some (mkExec (filepath_Base command) args command None))).1 = Some r ->
       ch_Action r <> ActionDeny) ->
    listed command args (xc_deniedCmds cc) = false -> context_permits (e_flags (ce_Engine ce)) cc command args ->
    tainted_permits ce taint command args ValidationValid.

Lemma EvaluateAll_sub reg rules taint x r : r ∈ EvaluateAll reg rules taint x -> r ∈ rules.
Proof using.
  induction rules as [|r0 rules IH]; cbn [EvaluateAll]; [done|]. destruct (Evaluate_opt _ _ _ _).
  - rewrite elem_of_cons. intros [->|H]; [by left|right]. destruct (ch_Continue r0); [by apply IH|by apply not_elem_of_nil in H].
  - intros H. right. by apply IH.
Qed.

Lemma final_rules_action ce rules taint x :
  (final_rules ce rules taint x).2 = match last (final_rules ce rules taint x).1 with Some r => ch_Action r | None => "" end.
Proof using. unfold final_rules. by destruct (_ || _). Qed.

Lemma final_rules_sub ce rules taint x r : last (final_rules ce rules taint x).1 = Some r -> r ∈ rules.
Proof using.
  unfold final_rules. destruct (_ || _); cbn [EvaluateWithContinue fst]; intros H%last_Some_elem_of; by eapply EvaluateAll_sub.
Qed.

Lemma validateTaint_cases capture taint :
  validateTaint capture taint = ValidationValid \/ validateTaint capture taint = ValidationPIDMismatch.
Proof using.
  unfold validateTaint, ValidateSnapshotDetailed. destruct (negb _); [|by left].
  destruct (capture _); [|by left]. destruct (_ =? _); auto.
Qed.

Lemma handleRaceCondition_allow ce taint command args :
  EffectiveDecision (handleRaceCondition ce ValidationPIDMismatch taint command args) = DecisionAllow ->
  tainted_permits ce taint command args ValidationPIDMismatch.
Proof using.
  unfold handleRaceCondition. destruct (findContext ce _) as [cc|] eqn:Ec; [|by apply by_no_context].
  destruct (px_RacePolicy _) as [rp|] eqn:Er; [|done]. cbv zeta.
  destruct (rp_OnPIDMismatch rp ==? ""); [by cbn|].
  case_bool_decide as Hallow; [|by case_bool_decide]. by eapply by_race_policy.
Qed.

Lemma chain_verdict_allow ce taint command args cc rules :
  findContext ce (ContextName taint) = Some cc -> xc_chain cc = Some rules ->
  let final := final_rules ce rules taint (Some (mkExec (filepath_Base command) args command None)) in
  EffectiveDecision (default (evaluateContextPolicy sort_Slice (e_flags (ce_Engine ce)) cc command args)
    (chain_verdict ce command args final.1 final.2)) = DecisionAllow ->
  tainted_permits ce taint command args ValidationValid.
Proof using.
  intros Ec Er. cbv zeta. rewrite final_rules_action.
  destruct (last _) as [r|] eqn:El; unfold chain_verdict; rewrite El; cbn [from_option].
  2: { cbn. intros [Hd Hp]%evaluateContextPolicy_allow. eapply by_context; eauto. intros rules' r' Er' El'. congruence. }
  assert (Hby : forall P, (P -> ch_Action r = ActionAllow \/
    ch_Action r = ActionAllowNormalPolicy /\ EffectiveDecision (CheckCommand (ce_Engine ce) command args) = DecisionAllow \/
    ch_Action r = ActionApprove /\
      EffectiveDecision (wrapDecision (e_flags (ce_Engine ce)) "approve" ("chain:" +:+ ch_Name r) (ch_Message r) None) = DecisionAllow) ->
    P -> tainted_permits ce taint command args ValidationValid).
  { intros P HP p. eapply by_chain; eauto. by eapply final_rules_sub. }
  case_bool_decide; [apply Hby; tauto|]. case_bool_decide; [done|]. case_bool_decide; [apply Hby; tauto|].
  case_bool_decide; [apply Hby; tauto|].
  intros [Hd Hp]%evaluateContextPolicy_allow. eapply by_context; eauto. intros rules' r' Er' El'. congruence.
Qed.

(** C29. A command of a tainted process is only allowed by the chain rules or the policy of its
    context, never by the normal policy alone: unless a chain rule hands it to the normal policy,
    the process has no context, or the race policy says so. *)
Theorem tainted_confined capture ce pid taint command args :
  IsTainted (ce_taintCache ce) pid = Some taint ->
  EffectiveDecision (CheckCommandWithContext sort_Slice capture ce pid command args).2 = DecisionAllow ->
  tainted_permits ce taint command args (validateTaint capture taint).
Proof using.
  intros Ht. unfold CheckCommandWithContext. rewrite Ht. case_bool_decide as Hv; cbn [negb].
  2: { destruct (validateTaint_cases capture taint) as [Hc|Hc]; [done|]. rewrite Hc. by apply handleRaceCondition_allow. }
  rewrite Hv. destruct (findContext ce _) as [cc|] eqn:Ec; [|by apply by_no_context].
  destruct (xc_chain cc) as [rules|] eqn:Er.
  - cbv zeta. rewrite final_rules_same. by apply chain_verdict_allow.
  - intros [Hd Hp]%evaluateContextPolicy_allow. eapply by_context; eauto. intros rules' r' Er'. congruence.
Qed.

End ContextTheorems.

(** *** Concrete runs *)

Definition context_flags : Flags := mkFlags true true (fun _ => "").
Definition no_syntax : RegexSyntax := {| syntax_Parse := fun _ => Some (Syntax OpOther 0 []) |}.

#[local] Existing Instance latin_case.
#[local] Existing Instance small_libraries.
#[local] Existing Instance no_syntax.

Definition chain_sort : list ChainRule -> list ChainRule := stable_sort (fun r1 r2 => ch_Priority r2 <? ch_Priority r1).

Definition via_leaf (names : list string) (agent : option bool) : ChainCondition :=
  Condition (mkLeaf None "" names [] [] [] [] None None None None None None None None agent [] [] [] [] [] []) [] [] None.

(** Python below the tool is marked as an agent, an agent asks a person before it uses the network,
    and editors' terminals fall back to the normal policy. *)
Definition sample_context : ProcessContext :=
  mkContext
    [mkChainRule "mark" 50 (Some (via_leaf ["python"] None)) ActionMarkAsAgent "" true;
     mkChainRule "terminal" 10 (Some (via_leaf ["zsh"] None)) ActionAllowNormalPolicy "" false]
    [] ["git *"; "bash"; "ls"] ["rm"; "git push*"] ["curl*"]
    [("npm", mkOverrideConfig ["test"] ["publish*"] "")] "" None.

Definition sample_contexts (cache : TaintCache) : result (eerr + string * context_error) ContextEngine :=
  @NewContextEngine latin_case small_libraries sample_sort chain_sort
    (sample_policy EnvPolicy_zero) [("ai", sample_context)] context_flags cache.

Definition context_engine (cache : TaintCache) : ContextEngine :=
  match sample_contexts cache with Ok ce => ce | Err _ => mkContextEngine empty_engine cache ∅ NewClassRegistry end.

Definition run_check (cache : TaintCache) (pid : Z) (command : string) (args : list string) : ContextEngine * Decision :=
  @CheckCommandWithContext latin_case small_libraries no_syntax sample_sort (fun _ => None) (context_engine cache) pid command args.

Notation CE := (context_engine (run sample_cache sample_history)).

Lemma tainted_confined_witness :
  exists t, IsTainted (ce_taintCache CE) 12 = Some t /\
    EffectiveDecision (run_check (run sample_cache sample_history) 12 "git" ["status"]).2 = DecisionAllow /\
    tainted_permits sample_sort CE t "git" ["status"] (validateTaint (fun _ => None) t).
Proof.
  destruct (IsTainted (ce_taintCache CE) 12) as [t|] eqn:Et; [|exfalso; revert Et; vm_compute; discriminate].
  assert (Ha : EffectiveDecision (run_check (run sample_cache sample_history) 12 "git" ["status"]).2 = DecisionAllow)
    by (vm_compute; reflexivity).
  exists t. split; [reflexivity|]. split; [exact Ha|].
  exact (tainted_confined sample_sort (fun _ => None) CE 12 t "git" ["status"] Et Ha).
Defined.

Example context_runs :
  let check command args := let d := (run_check (run sample_cache sample_history) 12 command args).2 in (EffectiveDecision d, d_Rule d) in
  check "git" ["push"; "-f"] = (DecisionDeny, "context:denied_commands") /\
  check "npm" ["publish"] = (DecisionDeny, "context:override:args_deny") /\
  check "npm" ["test"] = (DecisionAllow, "context:override:args_allow") /\
  check "make" [] = (DecisionDeny, "context:default") /\
  IsAgent <$> IsTainted (ce_taintCache (run_check (run sample_cache sample_history) 12 "ls" []).1) 12 = Some true.
Proof. cbv zeta; decide_vm. Qed.

(** The command lists do not look inside a shell's script. *)
Example context_shell_evades :
  let d command args := EffectiveDecision (run_check (run sample_cache sample_history) 12 command args).2 in
  d "rm" ["x"] = DecisionDeny /\ d "bash" ["-c"; "rm x"] = DecisionAllow.
Proof. cbv zeta; decide_vm. Qed.

(** Rules of one priority decide by the order the sort left them in. *)
Example chain_tie_by_order :
  let deny := mkChainRule "deny" 5 None ActionDeny "" false in
  let allow := mkChainRule "allow" 5 None ActionAllow "" false in
  (EvaluateWithContinue NewClassRegistry [deny; allow] None None).2 = ActionDeny /\
  (EvaluateWithContinue NewClassRegistry [allow; deny] None None).2 = ActionAllow /\
  ch_Action <$> best_rule NewClassRegistry None None [allow; deny] = Some ActionDeny.
Proof. cbv zeta; decide_vm. Qed.

(** Repetitions nested deeply enough wrap the score around and pass the limit. *)
Example complexity_wraps :
  let nested n := Nat.iter n (fun s => Syntax OpStar 0 [Syntax OpCapture 0 [s]]) (Syntax OpOther 0 []) in
  (maxRegexComplexity <? calculateComplexity (nested 3%nat)) = true /\
  (calculateComplexity (nested 10%nat) <=? maxRegexComplexity) = true.
Proof. cbv zeta; decide_vm. Qed.

End ContextTheorems.
Export ContextTheorems.
