(* ===== verification/WalFrame.v ===== *)
(** * Frames of the write-ahead log ([internal/store/watchtower/wal/framing.go], [meta.go], and the
      payload codecs of [wal.go])

    Segment headers, length-prefixed records protected by CRC-32C, the sequence and generation in
    front of a user record, and loss markers.  A reader is the bytes it has left.

    A frame reads back as it was written; a frame that was cut short is told from a complete one;
    and damage within four consecutive bytes of a payload is always noticed. *)

From Stdlib Require Import ZArith Lia Ascii String.
From stdpp Require Import base list strings gmap.
From S2P Require Import Prelude GoText GoStrings.
Open Scope string_scope.
Open Scope list_scope.
Open Scope Z_scope.

(** ** Integers in bytes *)
Module Codec.

(** The [n] low bytes of [z], most significant first ([binary.BigEndian.PutUint], the loops
    [out[7-i] = byte(seq >> (8*i))]). *)
Fixpoint be_bytes (n : nat) (z : Z) : list Z :=
  match n with
  | O => []
  | S n' => Z.shiftr z (8 * Z.of_nat n') mod 256 :: be_bytes n' z
  end.

Definition be_value (l : list Z) : Z := fold_left (fun acc b => acc * 256 + b) l 0.

Lemma be_bytes_length n z : length (be_bytes n z) = n.
Proof. induction n; cbn; congruence. Qed.

Lemma be_bytes_range n z : Forall byte_range (be_bytes n z).
Proof. induction n; cbn [be_bytes]; constructor; [|done]. apply Z.mod_pos_bound. lia. Qed.

Lemma be_fold acc l : fold_left (fun acc b => acc * 256 + b) l acc = acc * 256 ^ Z.of_nat (length l) + be_value l.
Proof.
  unfold be_value. revert acc. induction l as [|b l IH]; intros acc; cbn [fold_left length]; [lia|].
  rewrite IH, (IH (0 * 256 + b)), Nat2Z.inj_succ, Z.pow_succ_r by lia. ring.
Qed.

Lemma be_value_cons b l : be_value (b :: l) = b * 256 ^ Z.of_nat (length l) + be_value l.
Proof. unfold be_value at 1. cbn [fold_left]. by rewrite be_fold. Qed.

Lemma be_value_bytes n z : be_value (be_bytes n z) = z mod 256 ^ Z.of_nat n.
Proof.
  induction n as [|n IH]; [cbn; by rewrite Z.mod_1_r|]. cbn [be_bytes].
  rewrite be_value_cons, be_bytes_length, IH, Nat2Z.inj_succ, Z.pow_succ_r by lia.
  rewrite Z.shiftr_div_pow2 by lia.
  replace (2 ^ (8 * Z.of_nat n)) with (256 ^ Z.of_nat n) by (rewrite Z.pow_mul_r by lia; done).
  rewrite (Z.mul_comm 256), Z.rem_mul_r by lia. lia.
Qed.

Lemma be_value_id n z : 0 <= z < 256 ^ Z.of_nat n -> be_value (be_bytes n z) = z.
Proof. intros H. rewrite be_value_bytes. by apply Z.mod_small. Qed.

Lemma be_value_range l : Forall byte_range l -> 0 <= be_value l < 256 ^ Z.of_nat (length l).
Proof.
  induction 1 as [|b l Hb _ IH]; [cbn; lia|]. rewrite be_value_cons. cbn [length].
  rewrite Nat2Z.inj_succ, Z.pow_succ_r by lia. unfold byte_range in Hb. nia.
Qed.

End Codec.
Export Codec.

(** ** CRC-32C *)
Module Crc.

Definition castagnoli : Z := 2197175160.  (* 0x82F63B78 *)

Definition crc_shift (c : Z) : Z :=
  if Z.odd c then Z.lxor (Z.shiftr c 1) castagnoli else Z.shiftr c 1.

Definition crc_byte (c b : Z) : Z := Nat.iter 8 crc_shift (Z.lxor c b).

(** [crc32.Checksum(p, crc32.MakeTable(crc32.Castagnoli))]. *)
Definition crc32c (p : list Z) : Z := Z.lxor (fold_left crc_byte p max_uint32) max_uint32.

Example crc32c_check : crc32c (string_bytes "123456789") = 3808858755.  (* 0xE3069283 *)
Proof. vm_compute. reflexivity. Qed.

(** *** Injectivity *)

Lemma lxor_range n a b : 0 <= n -> 0 <= a < 2 ^ n -> 0 <= b < 2 ^ n -> 0 <= Z.lxor a b < 2 ^ n.
Proof.
  intros Hn Ha Hb. assert (H0 : 0 <= Z.lxor a b) by (apply Z.lxor_nonneg; lia). split; [done|].
  assert (Hs : Z.lxor a b / 2 ^ n = 0).
  { rewrite <- Z.shiftr_div_pow2, Z.shiftr_lxor, !Z.shiftr_div_pow2, !Z.div_small by done. done. }
  apply Z.div_small_iff in Hs; lia.
Qed.

Definition word32 (c : Z) : Prop := 0 <= c < 2 ^ 32.

Lemma crc_shift_range c : word32 c -> word32 (crc_shift c).
Proof.
  unfold word32, crc_shift. intros Hc. assert (H : 0 <= Z.shiftr c 1 < 2 ^ 32).
  { rewrite Z.shiftr_div_pow2 by done. div_lia. }
  destruct (Z.odd c); [|done]. by apply lxor_range.
Qed.

(** The top bit of the result tells which branch was taken. *)
Lemma crc_shift_top c : word32 c -> Z.testbit (crc_shift c) 31 = Z.odd c.
Proof.
  unfold word32, crc_shift. intros Hc. assert (H : Z.testbit (Z.shiftr c 1) 31 = false).
  { rewrite Z.shiftr_spec by done. destruct (Z.eq_dec c 0) as [->|]; [done|].
    apply Z.bits_above_log2; [lia|]. apply Z.log2_lt_pow2; lia. }
  destruct (Z.odd c); [by rewrite Z.lxor_spec, H|done].
Qed.

Lemma crc_shift_inj c c' : word32 c -> word32 c' -> crc_shift c = crc_shift c' -> c = c'.
Proof.
  intros Hc Hc' Heq. pose proof (crc_shift_top c Hc) as Ho. rewrite Heq, (crc_shift_top c' Hc') in Ho.
  unfold crc_shift in Heq. rewrite <- Ho in Heq.
  assert (Hs : Z.shiftr c 1 = Z.shiftr c' 1).
  { destruct (Z.odd c'); [|done]. apply (f_equal (fun z => Z.lxor z castagnoli)) in Heq.
    by rewrite !Z.lxor_assoc, Z.lxor_nilpotent, !Z.lxor_0_r in Heq. }
  rewrite <- !Z.div2_spec in Hs. rewrite (Z.div2_odd c), (Z.div2_odd c'). congruence.
Qed.

Lemma crc_iter_range n c : word32 c -> word32 (Nat.iter n crc_shift c).
Proof. intros Hc. induction n; cbn; [done|]. by apply crc_shift_range. Qed.

Lemma crc_iter_inj n c c' : word32 c -> word32 c' -> Nat.iter n crc_shift c = Nat.iter n crc_shift c' -> c = c'.
Proof.
  intros Hc Hc'. induction n as [|n IH]; cbn; [done|]. intros H. apply IH.
  apply crc_shift_inj; [by apply crc_iter_range..|done].
Qed.

(** Bits that have not reached the low end are shifted along unchanged. *)
Lemma crc_shift_above c y : crc_shift (Z.lxor c (2 * y)) = Z.lxor (crc_shift c) y.
Proof.
  unfold crc_shift. rewrite Z.shiftr_lxor.
  replace (Z.shiftr (2 * y) 1) with y by (rewrite Z.shiftr_div_pow2 by done; div_lia).
  replace (Z.odd (Z.lxor c (2 * y))) with (Z.odd c).
  2: { rewrite <- !Z.bit0_odd, Z.lxor_spec, Z.testbit_even_0. by rewrite xorb_false_r. }
  destruct (Z.odd c); [|done]. rewrite !Z.lxor_assoc. f_equal. apply Z.lxor_comm.
Qed.

Lemma crc_iter_above n c y :
  Nat.iter n crc_shift (Z.lxor c (2 ^ Z.of_nat n * y)) = Z.lxor (Nat.iter n crc_shift c) y.
Proof.
  revert c y. induction n as [|n IH]; intros c y; [cbn; by rewrite Z.mul_1_l|].
  rewrite Nat2Z.inj_succ, Z.pow_succ_r, (Z.mul_comm 2), <- Z.mul_assoc by lia.
  cbn [Nat.iter nat_rect]. change (nat_rect (fun _ => Z) ?x (fun _ => crc_shift) n) with (Nat.iter n crc_shift x).
  rewrite IH. apply crc_shift_above.
Qed.

Fixpoint le_value (l : list Z) : Z :=
  match l with [] => 0 | b :: l' => Z.lxor b (256 * le_value l') end.

(** A checksum shifts the state, xored with the whole message, out at the low end. *)
Lemma crc_fold l c : fold_left crc_byte l c = Nat.iter (8 * length l) crc_shift (Z.lxor c (le_value l)).
Proof.
  revert c. induction l as [|b l IH]; intros c; [cbn; by rewrite Z.lxor_0_r|].
  cbn [fold_left le_value length]. rewrite IH. unfold crc_byte.
  change 256 with (2 ^ Z.of_nat 8). rewrite <- (crc_iter_above 8).
  replace (8 * S (length l))%nat with (8 * length l + 8)%nat by lia.
  rewrite Nat.iter_add, Z.lxor_assoc. done.
Qed.

Lemma le_value_range l : Forall byte_range l -> 0 <= le_value l < 2 ^ (8 * Z.of_nat (length l)).
Proof.
  induction 1 as [|b l Hb Hl IH]; [cbn; lia|]. cbn [le_value length].
  replace (8 * Z.of_nat (S (length l))) with (8 + 8 * Z.of_nat (length l)) by lia.
  apply lxor_range; [lia| |].
  - unfold byte_range in Hb. split; [lia|]. rewrite Z.pow_add_r by lia.
    assert (0 < 2 ^ (8 * Z.of_nat (length l))) by (apply Z.pow_pos_nonneg; lia). nia.
  - rewrite Z.pow_add_r by lia. nia.
Qed.

Lemma le_value_inj l l' : Forall byte_range l -> Forall byte_range l' -> length l = length l' -> le_value l = le_value l' -> l = l'.
Proof.
  intros Hl. revert l'. induction Hl as [|b l Hb Hl IH]; intros [|b' l'] Hl' Hlen; [done..|].
  inversion Hl' as [|? ? Hb' Hl'']; subst. cbn [le_value length] in *. intros Heq.
  assert (Hx : forall x y, Z.lxor x (256 * y) / 256 = Z.lxor (x / 256) y).
  { intros x y. change 256 with (2 ^ 8). rewrite <- !Z.shiftr_div_pow2, Z.shiftr_lxor by done. f_equal.
    rewrite Z.shiftr_div_pow2 by done. rewrite Z.mul_comm. by apply Z.div_mul. }
  assert (Hv : le_value l = le_value l').
  { apply (f_equal (fun z => z / 256)) in Heq. rewrite !Hx, (Z.div_small b), (Z.div_small b'), !Z.lxor_0_l in Heq by done. done. }
  f_equal; [|by apply IH; [done|lia|]].
  rewrite Hv in Heq. apply (f_equal (fun z => Z.lxor z (256 * le_value l'))) in Heq.
  by rewrite !Z.lxor_assoc, Z.lxor_nilpotent, !Z.lxor_0_r in Heq.
Qed.

Lemma word32_le_value l : Forall byte_range l -> (length l <= 4)%nat -> word32 (le_value l).
Proof.
  intros Hl Hlen. pose proof (le_value_range l Hl) as [H0 H1]. split; [done|].
  eapply Z.lt_le_trans; [exact H1|]. apply Z.pow_le_mono_r; lia.
Qed.

Lemma crc_fold_range l c : Forall byte_range l -> word32 c -> word32 (fold_left crc_byte l c).
Proof.
  intros Hl. revert c. induction Hl as [|b l Hb Hl IH]; intros c Hc; cbn [fold_left]; [done|]. apply IH.
  apply crc_iter_range, lxor_range; [lia|done|]. unfold byte_range in Hb. lia.
Qed.

Lemma crc_fold_inj l c c' :
  Forall byte_range l -> word32 c -> word32 c' -> fold_left crc_byte l c = fold_left crc_byte l c' -> c = c'.
Proof.
  intros Hl. revert c c'. induction Hl as [|b l Hb Hl IH]; intros c c' Hc Hc'; cbn [fold_left]; [done|]. intros Heq.
  assert (Hw : forall x, word32 x -> word32 (Z.lxor x b)) by (intros; apply lxor_range; unfold byte_range in Hb; [lia|done|lia]).
  assert (Hb' : forall x, word32 x -> word32 (crc_byte x b)) by (intros; by apply crc_iter_range, Hw).
  apply IH, crc_iter_inj in Heq; auto.
  apply (f_equal (fun z => Z.lxor z b)) in Heq. by rewrite !Z.lxor_assoc, Z.lxor_nilpotent, !Z.lxor_0_r in Heq.
Qed.

(** Damage within four consecutive bytes changes the checksum. *)
Lemma crc32c_burst pre d d' post :
  Forall byte_range (pre ++ d ++ post) -> Forall byte_range d' -> length d = length d' -> (length d <= 4)%nat ->
  crc32c (pre ++ d ++ post) = crc32c (pre ++ d' ++ post) -> d = d'.
Proof.
  rewrite !Forall_app. intros (Hpre & Hd & Hpost) Hd' Hlen H4 Heq. unfold crc32c in Heq.
  apply (f_equal (fun z => Z.lxor z max_uint32)) in Heq. rewrite !Z.lxor_assoc, Z.lxor_nilpotent, !Z.lxor_0_r in Heq.
  rewrite !fold_left_app in Heq. set (c := fold_left crc_byte pre max_uint32) in *.
  assert (Hc : word32 c) by (apply crc_fold_range; done).
  apply crc_fold_inj in Heq; [|done|by apply crc_fold_range..].
  rewrite !crc_fold, Hlen in Heq. apply crc_iter_inj in Heq.
  2,3: apply lxor_range; [done|done|apply word32_le_value; [done|lia]].
  apply (f_equal (Z.lxor c)) in Heq. rewrite <- !Z.lxor_assoc, Z.lxor_nilpotent, !Z.lxor_0_l in Heq. by apply le_value_inj.
Qed.

Lemma crc32c_range p : Forall byte_range p -> word32 (crc32c p).
Proof. intros Hp. apply lxor_range; [lia|by apply crc_fold_range|done]. Qed.

End Crc.
Export Crc.

(** ** Framing *)
Module Framing.

Definition SegmentHeaderSize : Z := 16.
Definition SegmentMagic : list Z := string_bytes "WTP1".
Definition SegmentVersion : Z := 1.
Definition FlagGenInit : Z := 1.
Definition knownFlagsMask : Z := FlagGenInit.

Record SegmentHeader : Type := mkHeader { hd_Version : Z; hd_Flags : Z; hd_Generation : Z }.

Inductive frame_error : Type :=
| EOF | UnexpectedEOF
| BadMagic | BadVersion | BadFlags | BadReserved
| BadMaxPayload | EmptyPayload | PayloadTooLarge
| ErrCorruptFrame | ErrCRCMismatch
| ReadFailed.

#[global] Instance frame_error_eq_dec : EqDecision frame_error.
Proof. solve_decision. Defined.

(** The bytes handed to the writer. *)
Definition WriteSegmentHeader (h : SegmentHeader) : result frame_error (list Z) :=
  if negb (Z.ldiff (hd_Flags h) knownFlagsMask =? 0) then Err BadFlags
  else Ok (SegmentMagic ++ be_bytes 2 (hd_Version h) ++ be_bytes 2 (hd_Flags h) ++ be_bytes 4 (hd_Generation h) ++ [0; 0; 0; 0]).

(** [io.ReadFull] of [n] bytes: the bytes and what is left. *)
Definition ReadFull (n : nat) (r : list Z) : result frame_error (list Z * list Z) :=
  if Nat.leb n (length r) then Ok (take n r, drop n r)
  else Err (if nonempty r then UnexpectedEOF else EOF).

Definition slice (l : list Z) (lo hi : nat) : list Z := take (hi - lo) (drop lo l).

Definition ReadSegmentHeader (r : list Z) : result frame_error (SegmentHeader * list Z) :=
  '(buf, rest) <-? ReadFull 16 r ;
  if slice buf 0 4 !=? SegmentMagic then Err BadMagic
  else
    let h := mkHeader (be_value (slice buf 4 6)) (be_value (slice buf 6 8)) (be_value (slice buf 8 12)) in
    if hd_Version h !=? SegmentVersion then Err BadVersion
    else if negb (Z.ldiff (hd_Flags h) knownFlagsMask =? 0) then Err BadFlags
    else if existsb (fun b => negb (b =? 0)) (slice buf 12 16) then Err BadReserved
    else Ok (h, rest).

Definition MaxFramedPayload : Z := max_uint32 - 4.

(** The bytes of a frame. *)
Definition frame (payload : list Z) : list Z :=
  be_bytes 4 (Z.of_nat (length payload) + 4) ++ be_bytes 4 (crc32c payload) ++ payload.

Definition WriteRecord (payload : list Z) (maxPayload : Z) : result frame_error (list Z) :=
  if (maxPayload <=? 0) || (MaxFramedPayload <? maxPayload) then Err BadMaxPayload
  else if negb (nonempty payload) then Err EmptyPayload
  else if maxPayload <? Z.of_nat (length payload) then Err PayloadTooLarge
  else Ok (frame payload).

Definition ReadRecord (r : list Z) (maxPayload : Z) : result frame_error (list Z * list Z) :=
  if (maxPayload <=? 0) || (MaxFramedPayload <? maxPayload) then Err BadMaxPayload
  else
    '(header, r1) <-? ReadFull 8 r ;
    let len := be_value (slice header 0 4) in
    let expectedCRC := be_value (slice header 4 8) in
    if len <? 4 then Err ErrCorruptFrame
    else
      let payloadLen := len - 4 in
      if maxPayload <? payloadLen then Err PayloadTooLarge
      else
        let n := Z.to_nat payloadLen in
        if Nat.ltb (length r1) n then Err UnexpectedEOF
        else if crc32c (take n r1) =? expectedCRC then Ok (take n r1, drop n r1) else Err ErrCRCMismatch.

(** *** User records and loss markers *)

Definition encodeSeqGenFrame (seq gen : Z) (payload : list Z) : list Z := be_bytes 8 seq ++ be_bytes 4 gen ++ payload.

Definition parseSeqGen (framed : list Z) : option (Z * Z) :=
  if Nat.ltb (length framed) 12 then None
  else Some (be_value (slice framed 0 8), be_value (slice framed 8 12)).

(** ["\x00WTPLOSS\x00"], nine bytes. *)
Definition LossMarkerSentinel : list Z := 0 :: string_bytes "WTPLOSS" ++ [0].

Record LossRecord : Type := mkLoss { FromSequence : Z; ToSequence : Z; Generation : Z; Reason : string }.

Definition LossReasonOverflow : string := "overflow".
Definition LossReasonCRCCorruption : string := "crc_corruption".

(** The sentinel is copied into ten bytes, the last of which stays zero. *)
Definition encodeLossPayload (l : LossRecord) : list Z :=
  LossMarkerSentinel ++ [0] ++ be_bytes 8 (FromSequence l) ++ be_bytes 8 (ToSequence l) ++ be_bytes 4 (Generation l)
  ++ string_bytes (Reason l).

Definition isLossMarker (payload : list Z) : bool := starts_with LossMarkerSentinel payload.

Definition decodeLossPayload (payload : list Z) : option LossRecord :=
  if Nat.ltb (length payload) 30 then None
  else if negb (starts_with LossMarkerSentinel payload) then None
  else Some (mkLoss (be_value (slice payload 10 18)) (be_value (slice payload 18 26)) (be_value (slice payload 26 30))
               (bytes_string (drop 30 payload))).

(** *** The loops over the records of a file

    [for { payload, err := ReadRecord(f, maxPayload); if err != nil { stop }; ... }]: the payloads
    read, the error that ended the loop, and how many bytes the payloads and their frames took.
    Each turn consumes at least eight bytes. *)
Fixpoint read_loop (fuel : nat) (r : list Z) (maxPayload : Z) : list (list Z) * frame_error * Z :=
  match fuel with
  | O => ([], EOF, 0)
  | S fuel' =>
    match ReadRecord r maxPayload with
    | Err e => ([], e, 0)
    | Ok (payload, rest) =>
      let '(ps, e, n) := read_loop fuel' rest maxPayload in
      (payload :: ps, e, 8 + Z.of_nat (length payload) + n)
    end
  end.

Definition read_records (r : list Z) (maxPayload : Z) : list (list Z) * frame_error * Z := read_loop (S (length r)) r maxPayload.

End Framing.
Export Framing.

(** ** File names *)
Module SegmentNames.

Definition segmentExt : string := ".seg".
Definition inProgressSuffix : string := ".INPROGRESS".
Definition sealedSuffix : string := segmentExt.
Definition inprogressSuffix : string := segmentExt +:+ inProgressSuffix.

(** Decimal digits; an unsigned 64-bit number has at most twenty. *)
Fixpoint digits (fuel : nat) (z : Z) : list Z :=
  match fuel with
  | O => []
  | S fuel' => if z <? 10 then [48 + z] else digits fuel' (z / 10) ++ [48 + z mod 10]
  end.

(** [%010d.seg]. *)
Definition segmentName (index : Z) : string :=
  let ds := digits 20 index in
  bytes_string (replicate (10 - length ds) 48 ++ ds) +:+ segmentExt.

(** [strconv.ParseUint(s, 10, 64)]. *)
Definition ParseUint (s : string) : option Z :=
  z ← decimal_value (string_bytes s); if z <? 2 ^ 64 then Some z else None.

Definition parseSegmentIndex (name : string) : option Z :=
  if HasSuffix name inprogressSuffix then ParseUint (TrimSuffix name inprogressSuffix)
  else if HasSuffix name sealedSuffix then ParseUint (TrimSuffix name sealedSuffix)
  else None.

End SegmentNames.
Export SegmentNames.

(** ** Round trips *)
Module FrameFacts.

Lemma slice_app_l (a b : list Z) lo hi : (hi <= length a)%nat -> slice (a ++ b) lo hi = slice a lo hi.
Proof.
  intros H. unfold slice. destruct (Nat.le_gt_cases lo hi) as [Hl|Hl].
  - rewrite drop_app_le by lia. rewrite take_app_le; [done|]. rewrite length_drop. lia.
  - replace (hi - lo)%nat with O by lia. done.
Qed.

Lemma slice_all (a : list Z) : slice a 0 (length a) = a.
Proof. unfold slice. rewrite drop_0, Nat.sub_0_r. apply firstn_all. Qed.

(** The slice behind a prefix of known length. *)
Lemma slice_app_r (a b : list Z) lo hi : (length a <= lo)%nat -> slice (a ++ b) lo hi = slice b (lo - length a) (hi - length a).
Proof.
  intros H. unfold slice. rewrite drop_app_ge by done. f_equal. lia.
Qed.

Lemma slice_mid (a b c : list Z) lo hi : length a = lo -> (lo + length b)%nat = hi -> slice (a ++ b ++ c) lo hi = b.
Proof.
  intros <- <-. rewrite slice_app_r by done. rewrite Nat.sub_diag. rewrite slice_app_l by lia.
  replace (length a + length b - length a)%nat with (length b) by lia. apply slice_all.
Qed.

Lemma starts_with_iff p l : starts_with p l = true <-> exists r, l = p ++ r.
Proof.
  split; [|intros [r ->]; apply starts_with_app]. revert l. induction p as [|a p IH]; intros l; [by exists l|].
  destruct l as [|b l]; cbn; [done|]. rewrite andb_true_iff, Z.eqb_eq. intros [-> H].
  destruct (IH _ H) as [r ->]. by exists r.
Qed.

(** *** Headers *)

Definition header_ok (h : SegmentHeader) : Prop :=
  hd_Version h = SegmentVersion /\ (hd_Flags h = 0 \/ hd_Flags h = FlagGenInit) /\ uint32_range (hd_Generation h).

Definition header_bytes (h : SegmentHeader) : list Z :=
  SegmentMagic ++ be_bytes 2 (hd_Version h) ++ be_bytes 2 (hd_Flags h) ++ be_bytes 4 (hd_Generation h) ++ [0; 0; 0; 0].

Lemma header_bytes_length h : length (header_bytes h) = 16%nat.
Proof. unfold header_bytes. by rewrite !length_app, !be_bytes_length. Qed.

Lemma header_write h : header_ok h -> WriteSegmentHeader h = Ok (header_bytes h).
Proof.
  intros (_ & Hf & _). unfold WriteSegmentHeader.
  replace (Z.ldiff (hd_Flags h) knownFlagsMask =? 0) with true by (destruct Hf as [-> | ->]; reflexivity). done.
Qed.

Lemma header_read h r : header_ok h -> ReadSegmentHeader (header_bytes h ++ r) = Ok (h, r).
Proof.
  intros (Hv & Hf & Hg). unfold ReadSegmentHeader, ReadFull.
  rewrite length_app, header_bytes_length. cbn [Nat.leb Nat.add]. 
  rewrite take_app_length' by (by rewrite header_bytes_length).
  rewrite drop_app_length' by (by rewrite header_bytes_length). cbn [rbind].
  unfold header_bytes. rewrite (slice_app_l SegmentMagic) by (cbn; lia).
  change (slice SegmentMagic 0 4) with SegmentMagic. rewrite bool_decide_eq_true_2 by done. cbn [negb].
  rewrite (slice_mid SegmentMagic) by done. rewrite be_value_id by (rewrite Hv; done).
  rewrite (app_assoc SegmentMagic), (slice_mid (SegmentMagic ++ _)) by done.
  rewrite be_value_id by (destruct Hf as [->| ->]; done).
  rewrite (app_assoc (SegmentMagic ++ _)), (slice_mid ((SegmentMagic ++ _) ++ _)) by done.
  rewrite be_value_id by (unfold uint32_range, max_uint32 in Hg; cbn; lia).
  cbn [hd_Version hd_Flags]. rewrite Hv. cbn [negb bool_decide]. rewrite bool_decide_eq_true_2 by done. cbn [negb].
  rewrite !app_assoc. rewrite (slice_app_r _ [0; 0; 0; 0]) by done.
  destruct h as [v f g]; cbn in *; subst v. by destruct Hf as [->| ->].
Qed.

Lemma header_torn h n : header_ok h -> (n < 16)%nat -> exists e, ReadSegmentHeader (take n (header_bytes h)) = Err e.
Proof.
  intros _ Hn. unfold ReadSegmentHeader, ReadFull. rewrite length_take, header_bytes_length.
  destruct (Nat.leb_spec 16 (n `min` 16)); [lia|]. cbn. eauto.
Qed.

(** *** Records *)

Definition max_ok (m : Z) : Prop := 0 < m <= MaxFramedPayload.
Definition payload_ok (m : Z) (p : list Z) : Prop := Forall byte_range p /\ 1 <= Z.of_nat (length p) <= m.

Lemma record_write m p : max_ok m -> payload_ok m p -> WriteRecord p m = Ok (frame p).
Proof.
  intros Hm [_ Hp]. unfold WriteRecord, max_ok in *.
  destruct (Z.leb_spec m 0); [lia|]. destruct (Z.ltb_spec MaxFramedPayload m); [lia|]. cbn [orb].
  destruct p; [cbn in Hp; lia|]. cbn [nonempty negb]. destruct (Z.ltb_spec m (Z.of_nat (length (z :: p)))); [lia|done].
Qed.

Lemma frame_length p : length (frame p) = (8 + length p)%nat.
Proof. unfold frame. rewrite !length_app, !be_bytes_length. lia. Qed.

Lemma frame_range p : Forall byte_range p -> Forall byte_range (frame p).
Proof. intros H. unfold frame. rewrite !Forall_app. auto using be_bytes_range. Qed.

(** What a reader does with the eight bytes in front of a payload. *)
Lemma record_read_header m (crc n : Z) (r : list Z) :
  max_ok m -> 0 <= n <= m -> word32 crc ->
  ReadRecord (be_bytes 4 (n + 4) ++ be_bytes 4 crc ++ r) m =
  if Nat.ltb (length r) (Z.to_nat n) then Err UnexpectedEOF
  else if crc32c (take (Z.to_nat n) r) =? crc then Ok (take (Z.to_nat n) r, drop (Z.to_nat n) r) else Err ErrCRCMismatch.
Proof.
  intros Hm Hn Hcrc. unfold ReadRecord, max_ok, word32 in *.
  destruct (Z.leb_spec m 0); [lia|]. destruct (Z.ltb_spec MaxFramedPayload m); [lia|]. cbn [orb].
  unfold ReadFull. rewrite !length_app, !be_bytes_length. cbn [Nat.leb Nat.add]. rewrite app_assoc.
  rewrite take_app_length', drop_app_length' by (by rewrite length_app, !be_bytes_length). cbn [rbind].
  rewrite (slice_app_l (be_bytes 4 (n + 4))) by (by rewrite be_bytes_length).
  replace (slice (be_bytes 4 (n + 4)) 0 4) with (be_bytes 4 (n + 4)) by done.
  assert (Hw : 0 <= n + 4 < 256 ^ Z.of_nat 4) by (unfold MaxFramedPayload, max_uint32 in *; cbn; lia).
  rewrite be_value_id by done. replace (slice (be_bytes 4 (n + 4) ++ be_bytes 4 crc) 4 8) with (be_bytes 4 crc) by done.
  rewrite be_value_id by (cbn; lia). cbv zeta.
  destruct (Z.ltb_spec (n + 4) 4); [lia|]. replace (n + 4 - 4) with n by lia. destruct (Z.ltb_spec m n); [lia|]. done.
Qed.

Lemma record_read m p r : max_ok m -> payload_ok m p -> ReadRecord (frame p ++ r) m = Ok (p, r).
Proof.
  intros Hm [Hr Hp]. unfold frame. rewrite <- !app_assoc. rewrite record_read_header; [|done|lia|by apply crc32c_range].
  rewrite Nat2Z.id, length_app. destruct (Nat.ltb_spec (length p + length r) (length p)); [lia|].
  rewrite take_app_length, drop_app_length, Z.eqb_refl. done.
Qed.

Lemma record_torn m p n : max_ok m -> payload_ok m p -> (n < 8 + length p)%nat ->
  ReadRecord (take n (frame p)) m = Err (if Nat.eqb n 0 then EOF else UnexpectedEOF).
Proof.
  intros Hm [Hr Hp] Hn. destruct (Nat.lt_ge_cases n 8) as [H8|H8].
  - unfold ReadRecord, max_ok in *. destruct (Z.leb_spec m 0); [lia|]. destruct (Z.ltb_spec MaxFramedPayload m); [lia|].
    cbn [orb]. unfold ReadFull. rewrite length_take, frame_length. destruct (Nat.leb_spec 8 (n `min` (8 + length p))); [lia|].
    cbn [rbind]. destruct n; [done|]. cbn [Nat.eqb].
    destruct (take (S n) (frame p)) eqn:E; [|done]. apply (f_equal length) in E. rewrite length_take, frame_length in E. cbn in E. lia.
  - unfold frame. rewrite app_assoc, take_app_ge, <- app_assoc by (rewrite length_app, !be_bytes_length; lia).
    rewrite length_app, !be_bytes_length. rewrite record_read_header; [|done|lia|by apply crc32c_range].
    rewrite Nat2Z.id, length_take. destruct (Nat.ltb_spec ((n - (4 + 4)) `min` length p) (length p)); [|lia].
    by destruct (Nat.eqb_spec n 0); [lia|].
Qed.

(** *** Sequences and generations *)

Lemma parse_encode seq gen p : 0 <= seq < 2 ^ 64 -> uint32_range gen -> parseSeqGen (encodeSeqGenFrame seq gen p) = Some (seq, gen).
Proof.
  intros Hs Hg. unfold parseSeqGen, encodeSeqGenFrame. rewrite !length_app, !be_bytes_length. cbn [Nat.ltb Nat.leb Nat.add].
  rewrite (slice_app_l (be_bytes 8 seq)) by (by rewrite be_bytes_length).
  replace (slice (be_bytes 8 seq) 0 8) with (be_bytes 8 seq) by done.
  rewrite (slice_mid (be_bytes 8 seq)) by done.
  rewrite !be_value_id; [done| |]; unfold uint32_range, max_uint32 in *; cbn; lia.
Qed.

(** The one sequence number whose bytes spell the sentinel. *)
Definition sentinel_seq : Z := be_value (take 8 LossMarkerSentinel).

Lemma user_record_no_marker seq gen p : 0 <= seq < 2 ^ 64 -> seq <> sentinel_seq -> isLossMarker (encodeSeqGenFrame seq gen p) = false.
Proof.
  intros Hs Hne. apply not_true_iff_false. intros H. apply starts_with_iff in H as [r Hr]. apply Hne.
  apply (f_equal (take 8)) in Hr. unfold encodeSeqGenFrame in Hr.
  rewrite take_app_length' in Hr by (by rewrite be_bytes_length).
  unfold sentinel_seq. replace (take 8 LossMarkerSentinel) with (be_bytes 8 seq) by exact Hr.
  symmetry. apply be_value_id. cbn. lia.
Qed.

Definition loss_ok (l : LossRecord) : Prop :=
  0 <= FromSequence l < 2 ^ 64 /\ 0 <= ToSequence l < 2 ^ 64 /\ uint32_range (Generation l).

Lemma loss_marker l : isLossMarker (encodeLossPayload l) = true.
Proof. apply starts_with_app. Qed.

Lemma loss_decode_encode l : loss_ok l -> decodeLossPayload (encodeLossPayload l) = Some l.
Proof.
  intros (Hf & Ht & Hg). unfold decodeLossPayload.
  assert (Hlen : length (encodeLossPayload l) = (30 + length (string_bytes (Reason l)))%nat).
  { unfold encodeLossPayload. rewrite !length_app, !be_bytes_length. done. }
  destruct (Nat.ltb_spec (length (encodeLossPayload l)) 30); [lia|]. fold (isLossMarker (encodeLossPayload l)). rewrite loss_marker. cbn [negb].
  unfold encodeLossPayload. set (s := LossMarkerSentinel ++ [0]). rewrite (app_assoc LossMarkerSentinel). fold s.
  assert (Hs : length s = 10%nat) by done.
  rewrite (slice_mid s) by done. rewrite (app_assoc s), (slice_mid (s ++ _)) by done.
  rewrite (app_assoc (s ++ _)), (slice_mid ((s ++ _) ++ _)) by done.
  rewrite (app_assoc ((s ++ _) ++ _)), drop_app_length' by done.
  rewrite !be_value_id, bytes_string_bytes by (unfold uint32_range, max_uint32 in *; cbn; lia). by destruct l.
Qed.

(** *** Whole files *)

Definition frames (ps : list (list Z)) : list Z := concat (frame <$> ps).

Lemma frames_app ps qs : frames (ps ++ qs) = frames ps ++ frames qs.
Proof. unfold frames. by rewrite fmap_app, concat_app. Qed.

Definition frames_size (ps : list (list Z)) : Z := Z.of_nat (length (frames ps)).

Lemma frames_size_cons p ps : frames_size (p :: ps) = 8 + Z.of_nat (length p) + frames_size ps.
Proof. unfold frames_size, frames. cbn [fmap list_fmap concat]. rewrite length_app, frame_length. lia. Qed.

(** How a loop over records ends on bytes that are no record. *)
Definition stops (m : Z) (tail : list Z) (e : frame_error) : Prop := ReadRecord tail m = Err e.

Lemma read_loop_frames m ps tail e fuel :
  max_ok m -> Forall (payload_ok m) ps -> stops m tail e -> (length ps < fuel)%nat ->
  read_loop fuel (frames ps ++ tail) m = (ps, e, frames_size ps).
Proof.
  intros Hm Hps He. revert fuel. induction Hps as [|p ps Hp Hps IH]; intros [|fuel] Hf; cbn [length] in *; try lia.
  - cbn. by rewrite He.
  - cbn [frames fmap list_fmap concat read_loop]. unfold frames. cbn [fmap list_fmap concat]. rewrite <- app_assoc.
    rewrite record_read by done. fold (frames ps). rewrite IH by lia. by rewrite frames_size_cons.
Qed.

Lemma frames_count ps : (length ps <= length (frames ps))%nat.
Proof.
  induction ps as [|p ps IH]; [done|]. unfold frames in *. cbn [fmap list_fmap concat length]. rewrite length_app, frame_length. lia.
Qed.

Lemma read_records_frames m ps tail e :
  max_ok m -> Forall (payload_ok m) ps -> stops m tail e -> read_records (frames ps ++ tail) m = (ps, e, frames_size ps).
Proof.
  intros. unfold read_records. apply read_loop_frames; [done..|]. rewrite length_app. pose proof (frames_count ps). lia.
Qed.

Lemma stops_nil m : max_ok m -> stops m [] EOF.
Proof.
  intros Hm. unfold stops, ReadRecord, max_ok in *.
  destruct (Z.leb_spec m 0); [lia|]. destruct (Z.ltb_spec MaxFramedPayload m); [lia|]. done.
Qed.

(** Bytes that come later change nothing, unless the reader ran out of bytes. *)
Definition ran_out (e : frame_error) : Prop := e = EOF \/ e = UnexpectedEOF.

Lemma read_full_more n r t : match ReadFull n r with Ok (a, b) => ReadFull n (r ++ t) = Ok (a, b ++ t) | Err e => ran_out e end.
Proof.
  unfold ReadFull, ran_out. destruct (Nat.leb_spec n (length r)) as [Hn|Hn]; [|destruct (nonempty r); auto].
  rewrite length_app. destruct (Nat.leb_spec n (length r + length t)); [|lia]. by rewrite take_app_le, drop_app_le by lia.
Qed.

Lemma header_more r t : match ReadSegmentHeader r with
  | Ok (h, rest) => ReadSegmentHeader (r ++ t) = Ok (h, rest ++ t) | Err e => ran_out e \/ ReadSegmentHeader (r ++ t) = Err e end.
Proof.
  unfold ReadSegmentHeader. pose proof (read_full_more 16 r t) as H. destruct (ReadFull 16 r) as [[b rest]|e]; [rewrite H|by left].
  cbn [rbind]. repeat case_goal; auto.
Qed.

Lemma record_more m r t : match ReadRecord r m with
  | Ok (p, rest) => ReadRecord (r ++ t) m = Ok (p, rest ++ t) | Err e => ran_out e \/ ReadRecord (r ++ t) m = Err e end.
Proof.
  unfold ReadRecord. destruct (_ || _); [by right|]. pose proof (read_full_more 8 r t) as H. destruct (ReadFull 8 r) as [[b rest]|e]; [rewrite H|by left].
  cbn [rbind]. destruct (_ <? 4); [by right|]. destruct (m <? _); [by right|]. rewrite length_app.
  set (n := Z.to_nat _). destruct (Nat.ltb_spec (length rest) n) as [Hn|Hn]; [left; by right|].
  destruct (Nat.ltb_spec (length rest + length t) n); [lia|]. rewrite take_app_le, drop_app_le by lia. destruct (_ =? _); auto.
Qed.

Lemma read_records_more m r t ps e n : read_records r m = (ps, e, n) -> ran_out e \/ read_records (r ++ t) m = (ps, e, n).
Proof.
  unfold read_records. rewrite length_app. assert (Hf : (S (length r) <= S (length r + length t))%nat) by lia. revert Hf.
  generalize (S (length r)) (S (length r + length t)). intros f. revert r ps e n.
  induction f as [|f IH]; intros r ps e n f' Hf; cbn [read_loop]; [intros [= <- <- <-]; left; by left|]. destruct f' as [|f']; [lia|]. cbn [read_loop].
  pose proof (record_more m r t) as H. destruct (ReadRecord r m) as [[p rest]|x].
  - rewrite H. destruct (read_loop f rest m) as [[ps' e'] n'] eqn:E. intros [= <- <- <-]. destruct (IH _ _ _ _ f' ltac:(lia) E) as [?| ->]; auto.
  - intros [= <- <- <-]. destruct H as [?| ->]; auto.
Qed.

End FrameFacts.
Export FrameFacts.

(** *** Names *)
Module NameFacts.

Lemma digits_value n z acc : 0 <= z < 10 ^ Z.of_nat n ->
  fold_left (fun acc b => acc * 10 + (b - 48)) (digits n z) acc = acc * 10 ^ Z.of_nat (length (digits n z)) + z.
Proof.
  revert z acc. induction n as [|n IH]; intros z acc Hz; [cbn in *; lia|]. cbn [digits].
  destruct (Z.ltb_spec z 10); [cbn [fold_left length]; lia|].
  rewrite fold_left_app, length_app. cbn [fold_left length]. rewrite IH.
  - rewrite Nat2Z.inj_add, Z.pow_add_r by lia. cbn [Z.of_nat]. pose proof (Z.div_mod z 10). nia.
  - rewrite Nat2Z.inj_succ, Z.pow_succ_r in Hz by lia. split; [apply Z.div_pos; lia|]. apply Z.div_lt_upper_bound; lia.
Qed.

Lemma digits_digit n z : 0 <= z -> Forall (fun b => between 48 b 57 = true) (digits n z).
Proof.
  revert z. induction n as [|n IH]; intros z Hz; [constructor|]. cbn [digits]. unfold between in *.
  destruct (Z.ltb_spec z 10); [|apply Forall_app; split; [apply IH, Z.div_pos; lia|]]; (constructor; [|constructor]).
  - lia.
  - pose proof (Z.mod_pos_bound z 10). lia.
Qed.

Lemma digits_nonempty n z : digits (S n) z <> [].
Proof. cbn [digits]. destruct (z <? 10); [done|]. by destruct (digits n (z / 10)). Qed.

Lemma fold_zeros k acc : acc = 0 -> fold_left (fun acc b => acc * 10 + (b - 48)) (replicate k 48) acc = 0.
Proof. intros ->. induction k; cbn [replicate fold_left]; [done|]. by replace (0 * 10 + (48 - 48)) with 0 by lia. Qed.

Definition padded (i : Z) : list Z := replicate (10 - length (digits 20 i)) 48 ++ digits 20 i.

Lemma padded_digit i : 0 <= i -> Forall (fun b => between 48 b 57 = true) (padded i).
Proof. intros Hi. apply Forall_app. split; [|by apply digits_digit]. by apply Forall_replicate. Qed.

Lemma padded_value i : 0 <= i < 2 ^ 64 -> decimal_value (padded i) = Some i.
Proof.
  intros Hi. unfold decimal_value.
  replace (nonempty (padded i)) with true.
  2: { unfold padded. destruct (replicate _ 48); [|done]. cbn [app]. pose proof (digits_nonempty 19 i). by destruct (digits 20 i). }
  rewrite (proj2 (forallb_Forall _ _) (padded_digit i (proj1 Hi))). cbn [andb]. f_equal.
  unfold padded. rewrite fold_left_app, fold_zeros, digits_value by (cbn; lia). lia.
Qed.

Lemma string_bytes_padded i : 0 <= i -> string_bytes (bytes_string (padded i)) = padded i.
Proof.
  intros Hi. apply string_bytes_of. eapply Forall_impl; [by apply padded_digit|]. cbn. unfold between, byte_range. intros; lia.
Qed.

Lemma segmentName_bytes i : 0 <= i -> string_bytes (segmentName i) = padded i ++ string_bytes segmentExt.
Proof. intros Hi. unfold segmentName. fold (padded i). by rewrite string_bytes_app, string_bytes_padded. Qed.

Lemma TrimSuffix_app s t p : string_bytes s = t ++ string_bytes p -> string_bytes (TrimSuffix s p) = string_bytes (bytes_string t).
Proof.
  intros H. unfold TrimSuffix. rewrite (HasSuffix_app _ _ _ H), H.
  assert (Hl : forall s, String.length s = length (string_bytes s)) by (induction s0; cbn; congruence).
  rewrite !Hl, H, length_app. rewrite take_app_length' by lia. done.
Qed.

Lemma ParseUint_padded s i : 0 <= i < 2 ^ 64 -> string_bytes s = padded i -> ParseUint s = Some i.
Proof.
  intros Hi Hs. unfold ParseUint. rewrite Hs, padded_value by done. cbn [mbind option_bind]. by rewrite (proj2 (Z.ltb_lt i (2 ^ 64)) (proj2 Hi)).
Qed.

Lemma sealed_not_inprogress i : 0 <= i -> HasSuffix (segmentName i) inprogressSuffix = false.
Proof. intros Hi. unfold HasSuffix. rewrite segmentName_bytes, rev_app_distr by done. done. Qed.

Lemma sealed_is_sealed i : 0 <= i -> HasSuffix (segmentName i) sealedSuffix = true.
Proof. intros Hi. eapply HasSuffix_app. by apply segmentName_bytes. Qed.

Lemma inprogress_bytes i : 0 <= i -> string_bytes (segmentName i +:+ inProgressSuffix) = padded i ++ string_bytes inprogressSuffix.
Proof. intros Hi. rewrite string_bytes_app, segmentName_bytes, <- app_assoc by done. done. Qed.

Lemma inprogress_is_inprogress i : 0 <= i -> HasSuffix (segmentName i +:+ inProgressSuffix) inprogressSuffix = true.
Proof. intros Hi. eapply HasSuffix_app. by apply inprogress_bytes. Qed.

Lemma inprogress_not_sealed i : 0 <= i -> HasSuffix (segmentName i +:+ inProgressSuffix) sealedSuffix = false.
Proof. intros Hi. unfold HasSuffix. rewrite inprogress_bytes, rev_app_distr by done. done. Qed.

Lemma parse_sealed i : 0 <= i < 2 ^ 64 -> parseSegmentIndex (segmentName i) = Some i.
Proof.
  intros Hi. unfold parseSegmentIndex. rewrite sealed_not_inprogress, sealed_is_sealed by lia.
  apply ParseUint_padded; [done|]. rewrite (TrimSuffix_app _ (padded i)) by (apply segmentName_bytes; lia). apply string_bytes_padded; lia.
Qed.

Lemma parse_inprogress i : 0 <= i < 2 ^ 64 -> parseSegmentIndex (segmentName i +:+ inProgressSuffix) = Some i.
Proof.
  intros Hi. unfold parseSegmentIndex. rewrite inprogress_is_inprogress by lia.
  apply ParseUint_padded; [done|]. rewrite (TrimSuffix_app _ (padded i)) by (apply inprogress_bytes; lia). apply string_bytes_padded; lia.
Qed.

End NameFacts.
Export NameFacts.
