(* ===== verification/Wal.v ===== *)
(** * The write-ahead log ([internal/store/watchtower/wal]: [segment.go], [meta.go], [wal.go], [reader.go])

    Records are appended to segment files of one generation each; full segments are sealed and
    renamed, acknowledged ones are removed, and on overflow the oldest one is dropped behind a loss
    marker.  A start scans the directory, cuts off a torn tail and goes on.

    The file system is explicit: a directory of names, files as the bytes written and the length
    known to be on stable storage, and a plan that says which operation fails and how far a failing
    write got.  Directory entries are as durable as the operation that made them.  [bufio.Writer]
    holds its bytes back until [Flush]; a partial flush of a full buffer is a failing write of the
    same bytes.  Reading a file that could be opened does not fail.  A mutex holds around each
    exported method, which makes it one step.  The wake-up channel of readers is not modelled. *)

From Stdlib Require Import ZArith Lia Ascii String.
From stdpp Require Import base list strings gmap.
From S2P Require Import Prelude GoText GoStrings WalFrame.
Open Scope string_scope.
Open Scope list_scope.
Open Scope Z_scope.

(** ** State *)
Module WalState.

Record Meta : Type := mkMeta {
  FormatVersion : Z;
  AckHighWatermarkSeq : Z;
  AckHighWatermarkGen : Z;
  AckRecorded : bool;
  m_SessionID : string;
  m_KeyFingerprint : string;
  m_ContextDigest : string
}.

Definition metaFormatVersion : Z := 2.

Record Options : Type := mkOptions {
  Dir : string;
  SegmentSize : Z;
  MaxTotalBytes : Z;
  SyncDeferred : bool;
  SessionID : string;
  KeyFingerprint : string;
  ContextDigest : string
}.

(** A file: the bytes written, and how many of them are on stable storage. *)
Record file : Type := mkFile { f_data : list Z; f_durable : nat }.

(** The directory of segments, the files by number, the next number, [meta.json] as decoded, and
    how many operations were made so far. *)
Record disk : Type := mkDisk {
  names : gmap string Z;
  files : gmap Z file;
  next_inode : Z;
  meta : option Meta;
  ops : nat
}.

Inductive err : Type :=
| EIO | EExist | ENoEnt
| EFrame (e : frame_error)
| ESegmentClosed
| ESegmentTooShort | ENotInProgress
| EMetaVersion (v : Z)
| EDirRequired | ESegmentSize | ESyncDeferred
| EIdentityMismatch (field : string)
| ENil.

(** An open segment: where it is, what the writer holds back, whether the writer has failed before,
    whether the file is open, and whether the segment is. *)
Record Segment : Type := mkSegment {
  sg_index : Z;
  sg_gen : Z;
  sg_path : string;
  sg_ino : Z;
  sg_buf : list Z;
  sg_failed : bool;
  sg_open : bool;
  sg_bytes : Z;
  sg_closed : bool
}.

Record WAL : Type := mkWAL {
  w_opts : Options;
  maxRec : Z;
  current : option Segment;
  closed : bool;
  fatalErr : option err;
  highSeq : Z;
  highGen : Z;
  nextIndex : Z;
  totalBytes : Z;
  ackHighSeq : Z;
  ackHighGen : Z;
  ackPresent : bool;
  perGenDataHighWater : gmap Z Z;
  perGenAnyReplayable : gset Z
}.

Definition WAL_zero (o : Options) (m : Z) : WAL :=
  mkWAL o m None false None 0 0 0 0 0 0 false ∅ ∅.

Definition set_current (w : WAL) (c : option Segment) : WAL :=
  mkWAL (w_opts w) (maxRec w) c (closed w) (fatalErr w) (highSeq w) (highGen w) (nextIndex w) (totalBytes w)
    (ackHighSeq w) (ackHighGen w) (ackPresent w) (perGenDataHighWater w) (perGenAnyReplayable w).
Definition set_closed (w : WAL) : WAL :=
  mkWAL (w_opts w) (maxRec w) (current w) true (fatalErr w) (highSeq w) (highGen w) (nextIndex w) (totalBytes w)
    (ackHighSeq w) (ackHighGen w) (ackPresent w) (perGenDataHighWater w) (perGenAnyReplayable w).
Definition set_fatal (w : WAL) (e : err) : WAL :=
  mkWAL (w_opts w) (maxRec w) (current w) (closed w) (match fatalErr w with None => Some e | f => f end)
    (highSeq w) (highGen w) (nextIndex w) (totalBytes w)
    (ackHighSeq w) (ackHighGen w) (ackPresent w) (perGenDataHighWater w) (perGenAnyReplayable w).
Definition set_high (w : WAL) (seq gen : Z) : WAL :=
  mkWAL (w_opts w) (maxRec w) (current w) (closed w) (fatalErr w) seq gen (nextIndex w) (totalBytes w)
    (ackHighSeq w) (ackHighGen w) (ackPresent w) (perGenDataHighWater w) (perGenAnyReplayable w).
Definition set_next (w : WAL) (i : Z) : WAL :=
  mkWAL (w_opts w) (maxRec w) (current w) (closed w) (fatalErr w) (highSeq w) (highGen w) i (totalBytes w)
    (ackHighSeq w) (ackHighGen w) (ackPresent w) (perGenDataHighWater w) (perGenAnyReplayable w).
Definition add_total (w : WAL) (n : Z) : WAL :=
  mkWAL (w_opts w) (maxRec w) (current w) (closed w) (fatalErr w) (highSeq w) (highGen w) (nextIndex w)
    (wrap_int64 (totalBytes w + n))
    (ackHighSeq w) (ackHighGen w) (ackPresent w) (perGenDataHighWater w) (perGenAnyReplayable w).
Definition set_ack (w : WAL) (gen seq : Z) : WAL :=
  mkWAL (w_opts w) (maxRec w) (current w) (closed w) (fatalErr w) (highSeq w) (highGen w) (nextIndex w) (totalBytes w)
    seq gen true (perGenDataHighWater w) (perGenAnyReplayable w).
Definition set_maps (w : WAL) (data : gmap Z Z) (any : gset Z) : WAL :=
  mkWAL (w_opts w) (maxRec w) (current w) (closed w) (fatalErr w) (highSeq w) (highGen w) (nextIndex w) (totalBytes w)
    (ackHighSeq w) (ackHighGen w) (ackPresent w) data any.

(** The highest sequence of a generation, and the set of generations with a payload. *)
Definition note_data (w : WAL) (gen seq : Z) : WAL :=
  set_maps w
    (match perGenDataHighWater w !! gen with
     | Some cur => if cur <? seq then <[gen := seq]> (perGenDataHighWater w) else perGenDataHighWater w
     | None => <[gen := seq]> (perGenDataHighWater w)
     end)
    (perGenAnyReplayable w).
Definition note_any (w : WAL) (gen : Z) : WAL :=
  set_maps w (perGenDataHighWater w) ({[gen]} ∪ perGenAnyReplayable w).

Record sys : Type := mkSys { dk : disk; wl : WAL }.

(** *** The monad: state, and an error that keeps the state it happened in *)

Definition M (E A : Type) : Type := sys -> result E A * sys.

Definition ret {E A} (a : A) : M E A := fun s => (Ok a, s).
Definition fail {E A} (e : E) : M E A := fun s => (Err e, s).
Definition bind {E A B} (m : M E A) (k : A -> M E B) : M E B :=
  fun s => match m s with (Ok a, s') => k a s' | (Err e, s') => (Err e, s') end.
Definition get {E} : M E WAL := fun s => (Ok (wl s), s).
Definition modify {E} (f : WAL -> WAL) : M E unit := fun s => (Ok tt, mkSys (dk s) (f (wl s))).
(** [_ = m]. *)
Definition ignore {E F A} (m : M F A) : M E unit := fun s => (Ok tt, (m s).2).
(** [x, err := m] where the error is looked at later. *)
Definition attempt {E F A} (m : M F A) : M E (result F A) := fun s => let '(r, s') := m s in (Ok r, s').
(** [if err := m; err != nil { h; return err }]. *)
Definition cleanup_on {E A} (m : M E A) (h : M E unit) : M E A :=
  fun s => match m s with (Ok a, s') => (Ok a, s') | (Err e, s') => (Err e, (h s').2) end.
Definition lift {E A} (r : result E A) : M E A := fun s => (r, s).

Notation "x <- m ;; k" := (bind m (fun x => k)) (at level 100, m at next level, right associativity).
Notation "m ;; k" := (bind m (fun _ => k)) (at level 100, right associativity).

End WalState.
Export WalState.

(** ** The file system *)
Module WalDisk.

(** Which operation fails; for a write, after how many bytes.  Reads of file contents have a plan of
    their own: which one fails, and how many bytes came before the error. *)
Class Faults : Type := mkFaults { plan : nat -> option nat; read_plan : nat -> option nat }.

Definition with_files (d : disk) (fs : gmap Z file) : disk := mkDisk (names d) fs (next_inode d) (meta d) (ops d).
Definition with_names (d : disk) (ns : gmap string Z) : disk := mkDisk ns (files d) (next_inode d) (meta d) (ops d).
Definition with_meta (d : disk) (m : option Meta) : disk := mkDisk (names d) (files d) (next_inode d) m (ops d).
Definition tick (d : disk) : disk := mkDisk (names d) (files d) (next_inode d) (meta d) (S (ops d)).

Definition data_of (d : disk) (ino : Z) : list Z := match files d !! ino with Some f => f_data f | None => [] end.
Definition update_file (d : disk) (ino : Z) (f : file -> file) : disk := with_files d (alter f ino (files d)).

Definition append_bytes (bs : list Z) (f : file) : file := mkFile (f_data f ++ bs) (f_durable f).
Definition synced (f : file) : file := mkFile (f_data f) (length (f_data f)).
Definition cut (n : nat) (f : file) : file := mkFile (take n (f_data f)) (f_durable f `min` n).

(** [os.ReadDir] lists the names in order. *)
Definition dir_list (d : disk) : list string := stable_sort (fun a b => String.ltb a b) (map_to_list (names d)).*1.

Section Ops.
Context `{F : Faults}.

Definition io {A} (good : disk -> result err (A * disk)) (fault : nat -> disk -> disk) : M err A :=
  fun s =>
    let d := tick (dk s) in
    match plan (ops (dk s)) with
    | Some n => (Err EIO, mkSys (fault n d) (wl s))
    | None =>
      match good d with
      | Ok (a, d') => (Ok a, mkSys d' (wl s))
      | Err e => (Err e, mkSys d (wl s))
      end
    end.

Definition no_effect (_ : nat) (d : disk) : disk := d.

Definition fs_mkdir : M err unit := io (fun d => Ok (tt, d)) no_effect.
Definition fs_readdir : M err (list string) := io (fun d => Ok (dir_list d, d)) no_effect.
Definition fs_open (name : string) : M err Z :=
  io (fun d => match names d !! name with Some i => Ok (i, d) | None => Err ENoEnt end) no_effect.
(** [O_CREATE|O_EXCL]. *)
Definition fs_create (name : string) : M err Z :=
  io (fun d => match names d !! name with
       | Some _ => Err EExist
       | None => Ok (next_inode d, mkDisk (<[name := next_inode d]> (names d)) (<[next_inode d := mkFile [] 0]> (files d))
                                     (next_inode d + 1) (meta d) (ops d))
       end) no_effect.
Definition fs_write (ino : Z) (bs : list Z) : M err unit :=
  io (fun d => Ok (tt, update_file d ino (append_bytes bs))) (fun n d => update_file d ino (append_bytes (take n bs))).
Definition fs_sync (ino : Z) : M err unit := io (fun d => Ok (tt, update_file d ino synced)) no_effect.
Definition fs_syncdir : M err unit := io (fun d => Ok (tt, d)) no_effect.
Definition fs_close : M err unit := io (fun d => Ok (tt, d)) no_effect.
Definition fs_truncate (ino n : Z) : M err unit := io (fun d => Ok (tt, update_file d ino (cut (Z.to_nat n)))) no_effect.
Definition fs_stat (ino : Z) : M err Z := io (fun d => Ok (Z.of_nat (length (data_of d ino)), d)) no_effect.
Definition fs_stat_name (name : string) : M err Z :=
  io (fun d => match names d !! name with Some i => Ok (Z.of_nat (length (data_of d i)), d) | None => Err ENoEnt end) no_effect.
Definition fs_rename (from to : string) : M err unit :=
  io (fun d => match names d !! from with
       | Some i => Ok (tt, with_names d (<[to := i]> (delete from (names d))))
       | None => Err ENoEnt
       end) no_effect.
Definition fs_remove (name : string) : M err unit :=
  io (fun d => match names d !! name with
       | Some _ => Ok (tt, with_names d (delete name (names d)))
       | None => Err ENoEnt
       end) no_effect.
(** What a handle on the file reads from an offset on: the bytes, and whether an error follows them
    instead of the end of the file. *)
Definition fs_read_at (ino : Z) (off : nat) : M err (list Z * bool) :=
  fun s =>
    let s' := mkSys (tick (dk s)) (wl s) in
    let bytes := drop off (data_of (dk s) ino) in
    match read_plan (ops (dk s)) with
    | Some n => (Ok (take n bytes, true), s')
    | None => (Ok (bytes, false), s')
    end.

Definition fs_read (ino : Z) : M err (list Z * bool) := fs_read_at ino 0.

(** What a reader of the bytes reports where they end. *)
Definition read_error (failed : bool) (e : frame_error) : frame_error :=
  match e with EOF | UnexpectedEOF => if failed then ReadFailed else e | _ => e end.

(** [ReadSegmentHeader] on an open file. *)
Definition read_header (x : list Z * bool) : result err (SegmentHeader * list Z) :=
  map_err (fun e => EFrame (read_error x.2 e)) (ReadSegmentHeader x.1).

(** *** [meta.go] *)

Definition ReadMeta : M err Meta :=
  m <- io (fun d => match meta d with Some m => Ok (m, d) | None => Err ENoEnt end) no_effect ;;
  if FormatVersion m =? 1 then
    ret (mkMeta 1 (AckHighWatermarkSeq m) (AckHighWatermarkGen m) true (m_SessionID m) (m_KeyFingerprint m) (m_ContextDigest m))
  else if FormatVersion m =? metaFormatVersion then ret m
  else fail (EMetaVersion (FormatVersion m)).

(** Replaced by a rename; it fails before that, or behind it when the directory cannot be synced. *)
Definition WriteMeta (m : Meta) : M err unit :=
  let m' := mkMeta metaFormatVersion (AckHighWatermarkSeq m) (AckHighWatermarkGen m) (AckRecorded m)
              (m_SessionID m) (m_KeyFingerprint m) (m_ContextDigest m) in
  io (fun d => Ok (tt, with_meta d (Some m'))) (fun n d => if Nat.eqb n 0 then d else with_meta d (Some m')).

(** *** [segment.go] *)

Definition validateMaxRecordBytes (m : Z) : result err unit :=
  if (m <=? 0) || (MaxFramedPayload <? m) then Err (EFrame BadMaxPayload) else Ok tt.

Definition OpenSegment (index : Z) (hdr : SegmentHeader) (maxRecordBytes : Z) : M err Segment :=
  lift (validateMaxRecordBytes maxRecordBytes) ;;
  let path := segmentName index +:+ inProgressSuffix in
  ino <- fs_create path ;;
  let undo := ignore fs_close ;; ignore (fs_remove path) in
  bs <- cleanup_on (lift (map_err EFrame (WriteSegmentHeader hdr))) undo ;;
  cleanup_on (fs_write ino bs) undo ;;
  cleanup_on (fs_sync ino) undo ;;
  cleanup_on fs_syncdir undo ;;
  ret (mkSegment index (hd_Generation hdr) path ino [] false true SegmentHeaderSize false).

Definition ReopenSegment (name : string) (maxRecordBytes : Z) : M err Segment :=
  lift (validateMaxRecordBytes maxRecordBytes) ;;
  ino <- fs_open name ;;
  size <- fs_stat ino ;;
  if size <? SegmentHeaderSize then fail ESegmentTooShort
  else
    x <- fs_read ino ;;
    hdr <- lift (read_header x) ;;
    if negb (HasSuffix name inprogressSuffix) then fail ENotInProgress
    else
      index <- lift (of_option ENotInProgress (ParseUint (TrimSuffix name inprogressSuffix))) ;;
      ret (mkSegment index (hd_Generation hdr.1) name ino [] false true size false).

(** The methods of the live segment, which is always [w.current]. *)
Definition cur_segment {E} (nil : E) : M E Segment :=
  w <- get ;; match current w with Some seg => ret seg | None => fail nil end.
Definition put_segment {E} (seg : Segment) : M E unit := modify (fun w => set_current w (Some seg)).

Definition Segment_WriteRecord (payload : list Z) : M err unit :=
  seg <- cur_segment ENil ;;
  w <- get ;;
  if sg_closed seg then fail ESegmentClosed
  else
    bs <- lift (map_err EFrame (WriteRecord payload (maxRec w))) ;;
    if sg_failed seg then fail EIO
    else put_segment (mkSegment (sg_index seg) (sg_gen seg) (sg_path seg) (sg_ino seg) (sg_buf seg ++ bs) (sg_failed seg)
                        (sg_open seg) (sg_bytes seg + 8 + Z.of_nat (length payload)) (sg_closed seg)).

(** [writer.Flush]: a failure is remembered and nothing is written after it. *)
Definition Flush : M err unit :=
  seg <- cur_segment ENil ;;
  if sg_failed seg then fail EIO
  else if negb (nonempty (sg_buf seg)) then ret tt
  else
    r <- attempt (fs_write (sg_ino seg) (sg_buf seg)) ;;
    put_segment (mkSegment (sg_index seg) (sg_gen seg) (sg_path seg) (sg_ino seg) [] (match r with Ok _ => false | Err _ => true end)
                   (sg_open seg) (sg_bytes seg) (sg_closed seg)) ;;
    lift r.

Definition Segment_Sync : M err unit :=
  seg <- cur_segment ENil ;;
  if sg_closed seg then fail ESegmentClosed
  else Flush ;; if sg_open seg then fs_sync (sg_ino seg) else fail EIO.

Definition Segment_Seal : M err string :=
  seg <- cur_segment ENil ;;
  if sg_closed seg then fail ESegmentClosed
  else
    Segment_Sync ;;
    fs_truncate (sg_ino seg) (sg_bytes seg) ;;
    fs_sync (sg_ino seg) ;;
    fs_close ;;
    modify (fun w => match current w with
      | Some s => set_current w (Some (mkSegment (sg_index s) (sg_gen s) (sg_path s) (sg_ino s) (sg_buf s) (sg_failed s) false
                                         (sg_bytes s) (sg_closed s)))
      | None => w end) ;;
    fs_rename (sg_path seg) (segmentName (sg_index seg)) ;;
    fs_syncdir ;;
    put_segment (mkSegment (sg_index seg) (sg_gen seg) (segmentName (sg_index seg)) (sg_ino seg) [] false false (sg_bytes seg) true) ;;
    ret (segmentName (sg_index seg)).

Definition Segment_Close : M err unit :=
  seg <- cur_segment ENil ;;
  if sg_closed seg then ret tt
  else
    Segment_Sync ;;
    r <- attempt fs_close ;;
    put_segment (mkSegment (sg_index seg) (sg_gen seg) (sg_path seg) (sg_ino seg) [] false false (sg_bytes seg) true) ;;
    lift r.

End Ops.
End WalDisk.
Export WalDisk.

(** ** The log *)
Module WalLog.

Inductive FailureClass : Type := FailureClean | FailureAmbiguous.

Inductive append_cause : Type := CauseClosed | CauseFatal (original : err) | CauseTooLarge | CauseErr (e : err).

Record AppendError : Type := mkAppendError { ae_Class : FailureClass; ae_Op : string; ae_Err : append_cause }.

Definition IsAmbiguous (e : AppendError) : bool := match ae_Class e with FailureAmbiguous => true | FailureClean => false end.

Definition clean {A} (op : string) (c : append_cause) : M AppendError A := fail (mkAppendError FailureClean op c).

(** [if err := m; err != nil { return w.failAmbiguousLocked(op, err) }]. *)
Definition ambiguous {A} (op : string) (m : M err A) : M AppendError A :=
  fun s => match m s with
  | (Ok a, s') => (Ok a, s')
  | (Err e, s') => (Err (mkAppendError FailureAmbiguous op (CauseErr e)), mkSys (dk s') (set_fatal (wl s') e))
  end.

(** *** Files of the directory *)

Definition is_inprogress (n : string) : bool := HasSuffix n inprogressSuffix.
Definition is_sealed (n : string) : bool := HasSuffix n sealedSuffix && negb (HasSuffix n inprogressSuffix).
Definition is_segment (n : string) : bool := HasSuffix n sealedSuffix || HasSuffix n inprogressSuffix.

(** A name and its index. *)
Notation segmentEntry := (string * Z)%type.

Definition entries (p : string -> bool) (ns : list string) : list segmentEntry :=
  omap (fun n => if p n then (fun i => (n, i)) <$> parseSegmentIndex n else None) ns.

Definition by_index (l : list segmentEntry) : list segmentEntry := stable_sort (fun a b => a.2 <? b.2) l.

Definition pickMaxByIndex (l : list segmentEntry) : option segmentEntry :=
  match l with [] => None | e :: l' => Some (pick_max snd e l') end.

Record Scan : Type := mkScan { sc_hi : Z; sc_user : bool; sc_gen : Z; sc_any : bool }.

Definition scan_step (sc : Scan) (payload : list Z) : Scan :=
  if isLossMarker payload then mkScan (sc_hi sc) (sc_user sc) (sc_gen sc) true
  else match parseSeqGen payload with
  | Some (seq, _) => mkScan (if sc_hi sc <? seq then seq else sc_hi sc) true (sc_gen sc) true
  | None => sc
  end.

(** Any error behind the header ends the scan. *)
Definition scan_data (x : list Z * bool) (maxPayload : Z) : result err Scan :=
  match read_header x with
  | Err e => Err e
  | Ok (hdr, r) => Ok (fold_left scan_step (read_records r maxPayload).1.1 (mkScan 0 false (hd_Generation hdr) false))
  end.

(** Loss range of a file that is dropped: the first and the last sequence, if any. *)
Definition range_step (acc : option (Z * Z)) (payload : list Z) : option (Z * Z) :=
  if isLossMarker payload then acc
  else match parseSeqGen payload with
  | Some (seq, _) => Some (match acc with Some (from, _) => from | None => seq end, seq)
  | None => acc
  end.

Section Log.
Context `{F : Faults}.

Definition segmentHighSeqAndGen (name : string) (maxPayload : Z) : M err Scan :=
  ino <- fs_open name ;;
  x <- fs_read ino ;;
  lift (scan_data x maxPayload).

Definition mapM_ {E A} (f : A -> M E unit) (l : list A) : M E unit :=
  fold_right (fun x k => f x ;; k) (ret tt) l.

(** *** Recovery *)

Definition recover_record (gen : Z) (w : WAL) (payload : list Z) : WAL :=
  if isLossMarker payload then note_any w gen
  else match parseSeqGen payload with
  | Some (seq, g) => note_any (note_data (set_high w seq g) g seq) gen
  | None => w
  end.

Definition scanForRecovery (name : string) : M err Z :=
  ino <- fs_open name ;;
  x <- fs_read ino ;;
  hdr <- lift (read_header x) ;;
  modify (fun w => set_high w (highSeq w) (hd_Generation hdr.1)) ;;
  w <- get ;;
  let '(ps, e, n) := read_records hdr.2 (maxRec w) in
  modify (fun w => fold_left (recover_record (hd_Generation hdr.1)) ps w) ;;
  match read_error x.2 e with
  | EOF | UnexpectedEOF | ErrCRCMismatch | ErrCorruptFrame => ret (SegmentHeaderSize + n)
  | e => fail (EFrame e)
  end.

Definition truncateLiveSegment (name : string) (lastGood : Z) : M err unit :=
  ino <- fs_open name ;;
  size <- fs_stat ino ;;
  if size =? lastGood then ret tt
  else fs_truncate ino lastGood ;; fs_sync ino ;; fs_syncdir.

(** The maps over every file; a file that cannot be scanned is left out. *)
Definition seed_maps (e : segmentEntry) : M err unit :=
  w <- get ;;
  r <- attempt (segmentHighSeqAndGen e.1 (maxRec w)) ;;
  match r with
  | Err _ => ret tt
  | Ok sc =>
    (if sc_any sc then modify (fun w => note_any w (sc_gen sc)) else ret tt) ;;
    (if sc_user sc then modify (fun w => note_data w (sc_gen sc) (sc_hi sc)) else ret tt)
  end.

Definition wrap_uint64 (z : Z) : Z := z mod 2 ^ 64.

Definition recover : M err unit :=
  ns <- fs_readdir ;;
  let sealed := by_index (entries is_sealed ns) in
  let inProgress := by_index (entries is_inprogress ns) in
  let maxIdx := Z.max (match pickMaxByIndex sealed with Some e => e.2 | None => 0 end)
                      (match pickMaxByIndex inProgress with Some e => e.2 | None => 0 end) in
  modify (fun w => set_next w (wrap_uint64 (maxIdx + 1))) ;;
  match pickMaxByIndex inProgress with
  | Some e =>
    lastGood <- scanForRecovery e.1 ;;
    truncateLiveSegment e.1 lastGood ;;
    w <- get ;;
    seg <- ReopenSegment e.1 (maxRec w) ;;
    put_segment seg ;;
    modify (fun w => set_next w (wrap_uint64 (sg_index seg + 1)))
  | None =>
    match pickMaxByIndex sealed with
    | Some e => scanForRecovery e.1 ;; ret tt
    | None => ret tt
    end
  end ;;
  mapM_ (fun e => size <- fs_stat_name (fst e) ;; modify (fun w => add_total w size)) (sealed ++ inProgress) ;;
  mapM_ seed_maps (sealed ++ inProgress).

(** *** Opening *)

(** Any file with the suffix of a segment, also one whose name has no index; one that cannot be
    scanned counts as used. *)
Fixpoint has_records (ns : list string) (maxPayload : Z) : M err bool :=
  match ns with
  | [] => ret false
  | n :: ns' =>
    if negb (is_segment n) then has_records ns' maxPayload
    else
      r <- attempt (segmentHighSeqAndGen n maxPayload) ;;
      match r with
      | Err _ => ret true
      | Ok sc => if sc_user sc then ret true else has_records ns' maxPayload
      end
  end.

Definition segmentsDirHasRecords (maxPayload : Z) : M err bool := ns <- fs_readdir ;; has_records ns maxPayload.

Definition recordBearingBackfillMismatch (m : Meta) (o : Options) : err :=
  EIdentityMismatch
    (if (m_SessionID m ==? "") && (SessionID o !=? "") then "session_id"
     else if (m_KeyFingerprint m ==? "") && (KeyFingerprint o !=? "") then "key_fingerprint"
     else "context_digest").

Definition mismatch (persisted expected : string) : bool :=
  (persisted !=? "") && (expected !=? "") && (persisted !=? expected).
Definition missing (persisted expected : string) : bool := (persisted ==? "") && (expected !=? "").
Definition nonEmpty (a b : string) : string := if a !=? "" then a else b.

Definition check_identity (m : Meta) (o : Options) (maxPayload : Z) : M err unit :=
  if mismatch (m_SessionID m) (SessionID o) then fail (EIdentityMismatch "session_id")
  else if mismatch (m_KeyFingerprint m) (KeyFingerprint o) then fail (EIdentityMismatch "key_fingerprint")
  else if mismatch (m_ContextDigest m) (ContextDigest o) then fail (EIdentityMismatch "context_digest")
  else if missing (m_SessionID m) (SessionID o) || missing (m_KeyFingerprint m) (KeyFingerprint o)
          || missing (m_ContextDigest m) (ContextDigest o)
  then
    has <- segmentsDirHasRecords maxPayload ;;
    if has : bool then fail (recordBearingBackfillMismatch m o)
    else WriteMeta (mkMeta (FormatVersion m) (AckHighWatermarkSeq m) (AckHighWatermarkGen m) (AckRecorded m)
                      (nonEmpty (m_SessionID m) (SessionID o)) (nonEmpty (m_KeyFingerprint m) (KeyFingerprint o))
                      (nonEmpty (m_ContextDigest m) (ContextDigest o)))
  else ret tt.

Definition Meta_zero : Meta := mkMeta 0 0 0 false "" "" "".

Definition seed_identity (o : Options) (maxPayload : Z) : M err unit :=
  if (SessionID o ==? "") && (KeyFingerprint o ==? "") && (ContextDigest o ==? "") then ret tt
  else
    has <- segmentsDirHasRecords maxPayload ;;
    if has : bool then fail (recordBearingBackfillMismatch Meta_zero o)
    else WriteMeta (mkMeta 0 0 0 false (SessionID o) (KeyFingerprint o) (ContextDigest o)).

Definition open_steps (o : Options) (maxRec : Z) : M err unit :=
  fs_mkdir ;;
  r <- attempt ReadMeta ;;
  match r with
  | Ok m =>
    (if AckRecorded m then modify (fun w => set_ack w (AckHighWatermarkGen m) (AckHighWatermarkSeq m)) else ret tt) ;;
    check_identity m o maxRec
  | Err ENoEnt => seed_identity o maxRec
  | Err e => fail e
  end ;;
  recover.

Definition Open (o : Options) (d : disk) : result err WAL * disk :=
  let maxRec := SegmentSize o - SegmentHeaderSize in
  if Dir o ==? "" then (Err EDirRequired, d)
  else if SegmentSize o <=? SegmentHeaderSize then (Err ESegmentSize, d)
  else if (maxRec <=? 0) || (MaxFramedPayload <? maxRec) then (Err ESegmentSize, d)
  else if SyncDeferred o then (Err ESyncDeferred, d)
  else match open_steps o maxRec (mkSys d (WAL_zero o maxRec)) with
  | (Ok _, s) => (Ok (wl s), dk s)
  | (Err e, s) => (Err e, dk s)
  end.

(** *** Accessors *)

Definition HighWatermark (w : WAL) : Z := highSeq w.
Definition HighGeneration (w : WAL) : Z := highGen w.
Definition WrittenDataHighWater (w : WAL) (gen : Z) : result unit (option Z) :=
  if closed w then Err tt else Ok (perGenDataHighWater w !! gen).
Definition HasDataBelowGeneration (w : WAL) (threshold : Z) : result unit bool :=
  if closed w then Err tt else Ok (existsb (fun kv : Z * Z => kv.1 <? threshold) (map_to_list (perGenDataHighWater w))).
Definition HasReplayableRecords (w : WAL) (gen : Z) : result unit bool :=
  if closed w then Err tt else Ok (bool_decide (gen ∈ perGenAnyReplayable w)).

(** The first user record of a payload list. *)
Definition first_data (ps : list (list Z)) : option Z :=
  head (omap (fun p => if isLossMarker p then None else fst <$> parseSeqGen p) ps).

Fixpoint earliest (gen : Z) (es : list segmentEntry) : M err (option Z) :=
  match es with
  | [] => ret None
  | e :: es' =>
    r <- attempt (fs_open e.1) ;;
    match r with
    | Err ENoEnt => earliest gen es'
    | Err x => fail x
    | Ok ino =>
      x <- fs_read ino ;;
      hdr <- lift (read_header x) ;;
      if hd_Generation hdr.1 !=? gen then earliest gen es'
      else
        w <- get ;;
        match first_data (read_records hdr.2 (maxRec w)).1.1 with
        | Some seq => ret (Some seq)
        | None => earliest gen es'
        end
    end
  end.

Definition EarliestDataSequence (gen : Z) : M (option err) (option Z) :=
  w <- get ;;
  if closed w then fail None
  else fun s => match (ns <- fs_readdir ;; earliest gen (by_index (entries is_segment ns))) s with
  | (Ok x, s') => (Ok x, s')
  | (Err e, s') => (Err (Some e), s')
  end.

(** *** Reclaiming *)

Definition segmentFullyAcked (w : WAL) (sc : Scan) : bool :=
  if negb (ackPresent w) then false
  else if negb (sc_user sc) then sc_gen sc <=? ackHighGen w
  else (sc_gen sc <? ackHighGen w) || ((sc_gen sc =? ackHighGen w) && (sc_hi sc <=? ackHighSeq w)).

(** The generation in the header of a file that can be opened and has one. *)
Definition surviving_gen (name : string) : M err (option Z) :=
  r <- attempt (ino <- fs_open name ;; fs_read ino) ;;
  ret (match r with
       | Ok x => match read_header x with Ok (hdr, _) => Some (hd_Generation hdr) | Err _ => None end
       | Err _ => None
       end).

Fixpoint surviving_gens (es : list segmentEntry) : M err (gset Z) :=
  match es with
  | [] => ret ∅
  | e :: es' => g <- surviving_gen e.1 ;; gs <- surviving_gens es' ;; ret (match g with Some g => {[g]} ∪ gs | None => gs end)
  end.

Definition prunePerGenMaps : M err unit :=
  r <- attempt fs_readdir ;;
  match r with
  | Err _ => ret tt
  | Ok ns =>
    surviving <- surviving_gens (entries is_segment ns) ;;
    modify (fun w => set_maps w (filter (fun kv : Z * Z => kv.1 ∈ surviving) (perGenDataHighWater w))
                              (perGenAnyReplayable w ∩ surviving))
  end.

(** Removes from the front while covered by the acknowledged position; the count of removed files
    is kept also when the loop ends in an error. *)
Fixpoint gc_loop (es : list segmentEntry) : M err bool :=
  match es with
  | [] => ret false
  | e :: es' =>
    w <- get ;;
    sc <- segmentHighSeqAndGen e.1 (maxRec w) ;;
    if negb (segmentFullyAcked w sc) then ret false
    else
      st <- attempt (fs_stat_name e.1) ;;
      fs_remove e.1 ;;
      (match st with Ok n => modify (fun w => add_total w (- n)) | Err _ => ret tt end) ;;
      gc_loop es' ;; ret true
  end.

Definition gcAcked : M err unit :=
  w <- get ;;
  if negb (ackPresent w) then ret tt
  else
    ns <- fs_readdir ;;
    removed <- gc_loop (by_index (entries is_sealed ns)) ;;
    if removed : bool then fs_syncdir ;; prunePerGenMaps else ret tt.

(** What was dropped: the range of its user records, if it had any.  The records are read from where
    the header, or the attempt to read it, ended. *)
Definition dropOldest : M err (option (option LossRecord)) :=
  ns <- fs_readdir ;;
  match by_index (entries is_sealed ns) with
  | [] => ret None
  | e :: _ =>
    ino <- fs_open e.1 ;;
    x <- fs_read ino ;;
    let gen := match read_header x with Ok (hdr, _) => hd_Generation hdr | Err _ => 0 end in
    w <- get ;;
    r <- fs_read_at ino (16 `min` length x.1) ;;
    let range := fold_left range_step (read_records r.1 (maxRec w)).1.1 None in
    ignore fs_close ;;
    st <- attempt (fs_stat_name e.1) ;;
    fs_remove e.1 ;;
    (match st with Ok n => modify (fun w => add_total w (- n)) | Err _ => ret tt end) ;;
    fs_syncdir ;;
    prunePerGenMaps ;;
    ret (Some ((fun r : Z * Z => mkLoss r.1 r.2 gen LossReasonOverflow) <$> range))
  end.

(** *** Appending *)

Definition sealCurrent : M err unit :=
  w <- get ;;
  match current w with
  | None => ret tt
  | Some _ => Segment_Seal ;; modify (fun w => set_current w None)
  end.

Definition openNewSegment (gen flags : Z) : M err unit :=
  w <- get ;;
  modify (fun w => set_next w (wrap_uint64 (nextIndex w + 1))) ;;
  seg <- OpenSegment (nextIndex w) (mkHeader SegmentVersion flags gen) (maxRec w) ;;
  put_segment seg.

Definition appendLossLocked (loss : LossRecord) : M err unit :=
  let payload := encodeLossPayload loss in
  Segment_WriteRecord payload ;;
  Segment_Sync ;;
  seg <- cur_segment ENil ;;
  modify (fun w => note_any (add_total w (8 + Z.of_nat (length payload))) (sg_gen seg)).

Definition AppendLoss (loss : LossRecord) : M AppendError unit :=
  w <- get ;;
  if closed w then clean "append-loss" CauseClosed
  else match fatalErr w with
  | Some e => clean "append-loss" (CauseFatal e)
  | None =>
    (if bool_decide (current w = None) then ambiguous "open-loss-segment" (openNewSegment (Generation loss) FlagGenInit) else ret tt) ;;
    let payload := encodeLossPayload loss in
    ambiguous "write-loss" (Segment_WriteRecord payload) ;;
    ambiguous "sync-loss" Segment_Sync ;;
    seg <- cur_segment (mkAppendError FailureAmbiguous "" (CauseErr ENil)) ;;
    modify (fun w => note_any (add_total w (8 + Z.of_nat (length payload))) (sg_gen seg))
  end.

Definition over_budget (w : WAL) : bool :=
  MaxTotalBytes (w_opts w) <? wrap_int64 (totalBytes w + SegmentSize (w_opts w)).

(** Each turn drops a sealed file, so there are at most as many turns as names. *)
Fixpoint overflow_loop (fuel : nat) (gen : Z) : M AppendError unit :=
  match fuel with
  | O => ret tt
  | S fuel' =>
    w <- get ;;
    if negb (over_budget w) then ret tt
    else
      d <- ambiguous "overflow-gc" dropOldest ;;
      match d with
      | None => ret tt
      | Some None => overflow_loop fuel' gen
      | Some (Some loss) =>
        w <- get ;;
        (if bool_decide (current w = None) then ambiguous "overflow-open" (openNewSegment gen FlagGenInit) else ret tt) ;;
        ambiguous "overflow-loss" (appendLossLocked loss) ;;
        overflow_loop fuel' gen
      end
  end.

Definition reclaim (gen : Z) : M AppendError unit :=
  w <- get ;;
  if negb (over_budget w) then ret tt
  else ambiguous "overflow-gc-acked" gcAcked ;; fun s => overflow_loop (S (size (names (dk s)))) gen s.

Definition recordOverhead : Z := 8 + 12.

(** The segment the record goes to, opened or rolled over as needed; tells whether the generation
    changed. *)
Definition prepare_segment (gen : Z) (len : Z) : M AppendError bool :=
  w <- get ;;
  rolled <- match current w with
    | Some seg => if sg_gen seg !=? gen
                  then ambiguous "seal-on-gen-roll" sealCurrent ;; ambiguous "open-on-gen-roll" (openNewSegment gen FlagGenInit) ;; ret true
                  else ret false
    | None => ret false
    end ;;
  w <- get ;;
  (if bool_decide (current w = None) then ambiguous "open-first" (openNewSegment gen FlagGenInit) else ret tt) ;;
  seg <- cur_segment (mkAppendError FailureAmbiguous "" (CauseErr ENil)) ;;
  (if SegmentSize (w_opts w) <? sg_bytes seg + recordOverhead + len
   then ambiguous "seal-on-full" sealCurrent ;; ambiguous "open-on-full" (openNewSegment gen 0)
   else ret tt) ;;
  ret rolled.

Definition Append (seq gen : Z) (payload : list Z) : M AppendError bool :=
  w <- get ;;
  if closed w then clean "append" CauseClosed
  else match fatalErr w with
  | Some e => clean "append" (CauseFatal e)
  | None =>
    let len := Z.of_nat (length payload) in
    if SegmentSize (w_opts w) - SegmentHeaderSize <? recordOverhead + len then clean "append" CauseTooLarge
    else
      reclaim gen ;;
      rolled <- prepare_segment gen len ;;
      let framed := encodeSeqGenFrame seq gen payload in
      ambiguous "write-record" (Segment_WriteRecord framed) ;;
      ambiguous "sync" Segment_Sync ;;
      modify (fun w => note_any (note_data (set_high w (wrap_uint64 seq) gen) gen (wrap_uint64 seq)) gen) ;;
      modify (fun w => add_total w (8 + Z.of_nat (length framed))) ;;
      ret rolled
  end.

(** *** Acknowledging *)

Definition ack_advances (w : WAL) (gen seq : Z) : bool :=
  negb (ackPresent w) || (ackHighGen w <? gen) || ((gen =? ackHighGen w) && (ackHighSeq w <? seq)).

(** Every covered file, not only those at the front; a file that cannot be scanned or removed is
    passed over. *)
Fixpoint ack_loop (es : list segmentEntry) : M err bool :=
  match es with
  | [] => ret false
  | e :: es' =>
    w <- get ;;
    r <- attempt (segmentHighSeqAndGen e.1 (maxRec w)) ;;
    removed <- match r with
      | Err _ => ret false
      | Ok sc =>
        if negb (segmentFullyAcked w sc) then ret false
        else
          st <- attempt (fs_stat_name e.1) ;;
          rm <- attempt (fs_remove e.1) ;;
          match rm with
          | Err _ => ret false
          | Ok _ => (match st with Ok n => modify (fun w => add_total w (- n)) | Err _ => ret tt end) ;; ret true
          end
      end ;;
    rest <- ack_loop es' ;;
    ret (removed || rest)
  end.

Definition MarkAcked (gen seq : Z) : M err unit :=
  modify (fun w => if ack_advances w gen seq then set_ack w gen seq else w) ;;
  w <- get ;;
  WriteMeta (mkMeta 0 (ackHighSeq w) (ackHighGen w) true (SessionID (w_opts w)) (KeyFingerprint (w_opts w)) (ContextDigest (w_opts w))) ;;
  ns <- fs_readdir ;;
  removed <- ack_loop (by_index (entries is_sealed ns)) ;;
  if removed : bool then fs_syncdir ;; prunePerGenMaps else ret tt.

Definition Close : M err unit :=
  w <- get ;;
  if closed w then ret tt
  else
    modify set_closed ;;
    match current w with
    | None => ret tt
    | Some _ => Segment_Close ;; modify (fun w => set_current w None)
    end.

End Log.
End WalLog.
Export WalLog.

(** ** Readers *)
Module WalReader.

Inductive Record_ : Type :=
| RecordData (seq gen : Z) (payload : list Z)
| RecordLoss (loss : LossRecord).

Inductive reader_error : Type := ErrReaderClosed | ErrClosedWAL | RErr (e : err) | BadLossMarker | BadSeqGen.

(** [r_current] is the open file and how far it was read. *)
Record Reader : Type := mkReader {
  r_segments : list (string * Z);
  r_current : option (Z * nat);
  r_curGen : Z;
  r_curIdx : Z;
  r_curLive : bool;
  r_nextScanIdx : Z;
  r_lastGoodSeq : Z;
  r_lastGoodGen : option Z;
  r_nextSeq : Z;
  r_readerGen : Z;
  r_lastEmittedSeq : Z;
  r_closed : bool
}.

Definition set_queue (r : Reader) (q : list (string * Z)) (next : Z) : Reader :=
  mkReader q (r_current r) (r_curGen r) (r_curIdx r) (r_curLive r) next (r_lastGoodSeq r) (r_lastGoodGen r) (r_nextSeq r)
    (r_readerGen r) (r_lastEmittedSeq r) (r_closed r).
Definition set_file (r : Reader) (c : option (Z * nat)) : Reader :=
  mkReader (r_segments r) c (r_curGen r) (r_curIdx r) (r_curLive r) (r_nextScanIdx r) (r_lastGoodSeq r) (r_lastGoodGen r) (r_nextSeq r)
    (r_readerGen r) (r_lastEmittedSeq r) (r_closed r).
Definition set_live (r : Reader) (live : bool) : Reader :=
  mkReader (r_segments r) (r_current r) (r_curGen r) (r_curIdx r) live (r_nextScanIdx r) (r_lastGoodSeq r) (r_lastGoodGen r) (r_nextSeq r)
    (r_readerGen r) (r_lastEmittedSeq r) (r_closed r).
Definition set_last (r : Reader) (seq gen : Z) : Reader :=
  mkReader (r_segments r) (r_current r) (r_curGen r) (r_curIdx r) (r_curLive r) (r_nextScanIdx r) seq (Some gen) (r_nextSeq r)
    (r_readerGen r) (r_lastEmittedSeq r) (r_closed r).
Definition set_emitted (r : Reader) (seq : Z) : Reader :=
  mkReader (r_segments r) (r_current r) (r_curGen r) (r_curIdx r) (r_curLive r) (r_nextScanIdx r) (r_lastGoodSeq r) (r_lastGoodGen r)
    (r_nextSeq r) (r_readerGen r) seq (r_closed r).

(** A segment was opened: the last good sequence is kept within its generation. *)
Definition enter_segment (r : Reader) (ino gen idx : Z) (live : bool) : Reader :=
  let keep := bool_decide (r_lastGoodGen r = Some gen) in
  mkReader (r_segments r) (Some (ino, 16%nat)) gen idx live (r_nextScanIdx r)
    (if keep then r_lastGoodSeq r else 0) (if keep then r_lastGoodGen r else Some gen) (r_nextSeq r)
    (r_readerGen r) (r_lastEmittedSeq r) (r_closed r).

(** How far a failed read moves the file. *)
Definition consumed (rest : list Z) (e : frame_error) : nat :=
  match e with
  | EOF => 0
  | UnexpectedEOF | ReadFailed => length rest
  | _ => 8
  end.

Section Read.
Context `{F : Faults}.

Definition rescan (r : Reader) : M err (result err unit * Reader) :=
  ns <- attempt fs_readdir ;;
  match ns with
  | Err e => ret (Err e, r)
  | Ok ns =>
    let found := by_index (List.filter (fun e : string * Z => r_nextScanIdx r <=? e.2) (entries is_segment ns)) in
    ret (Ok tt, set_queue r (r_segments r ++ found)
                  (match last found with Some e => wrap_uint64 (e.2 + 1) | None => r_nextScanIdx r end))
  end.

Definition NewReader (gen start : Z) : M err (result reader_error Reader) :=
  w <- get ;;
  if closed w then ret (Err ErrClosedWAL)
  else
    x <- rescan (mkReader [] None 0 0 false 0 0 None start gen 0 false) ;;
    ret (match x with (Ok _, r) => Ok r | (Err e, _) => Err (RErr e) end).

(** The live file was sealed, or a newer one exists: its end is final. *)
Definition maybeDemoteLive (r : Reader) : M err (result err bool * Reader) :=
  ns <- attempt fs_readdir ;;
  match ns with
  | Err e => ret (Err e, r)
  | Ok ns =>
    let es := omap (fun n => (fun i => (n, i)) <$> parseSegmentIndex n) ns in
    if existsb (fun e : string * Z => (r_curIdx r <? e.2) || ((e.2 =? r_curIdx r) && is_sealed e.1)) es
    then
      x <- rescan (set_live r false) ;;
      ret (match x with (Ok _, r') => (Ok true, r') | (Err e, r') => (Err e, r') end)
    else ret (Ok false, r)
  end.

(** The file of a queued name; a live one that is gone may have been sealed meanwhile. [None] when
    it was removed. *)
Definition open_queued (e : string * Z) : M err (result err (option (Z * bool))) :=
  a <- attempt (fs_open e.1) ;;
  match a with
  | Ok ino => ret (Ok (Some (ino, is_inprogress e.1)))
  | Err ENoEnt =>
    if is_inprogress e.1 then
      b <- attempt (fs_open (segmentName e.2)) ;;
      match b with
      | Ok ino => ret (Ok (Some (ino, false)))
      | Err ENoEnt => ret (Ok None)
      | Err x => ret (Err x)
      end
    else ret (Ok None)
  | Err x => ret (Err x)
  end.

Fixpoint next_loop (fuel : nat) (r : Reader) : M err (result reader_error (option Record_) * Reader) :=
  match fuel with
  | O => ret (Ok None, r)
  | S fuel' =>
    match r_current r with
    | None =>
      x <- (if nonempty (r_segments r) then ret (Ok tt, r) else rescan r) ;;
      match x with
      | (Err e, r) => ret (Err (RErr e), r)
      | (Ok _, r) =>
        match r_segments r with
        | [] => ret (Ok None, r)
        | e :: q =>
          let r := set_queue r q (r_nextScanIdx r) in
          f <- open_queued e ;;
          match f with
          | Err x => ret (Err (RErr x), r)
          | Ok None => next_loop fuel' r
          | Ok (Some (ino, live)) =>
            x <- fs_read ino ;;
            match read_header x with
            | Err x => ret (Err (RErr x), r)
            | Ok (hdr, _) =>
              if hd_Generation hdr !=? r_readerGen r then next_loop fuel' r
              else next_loop fuel' (enter_segment r ino (hd_Generation hdr) e.2 live)
            end
          end
        end
      end
    | Some (ino, off) =>
      x <- fs_read_at ino off ;;
      w <- get ;;
      match map_err (read_error x.2) (ReadRecord x.1 (maxRec w)) with
      | Err EOF =>
        if r_curLive r then
          d <- maybeDemoteLive r ;;
          match d with
          | (Err x, r) => ret (Err (RErr x), r)
          | (Ok false, r) => ret (Ok None, r)
          | (Ok true, r) => next_loop fuel' r
          end
        else next_loop fuel' (set_file r None)
      | Err ErrCRCMismatch =>
        let from := wrap_uint64 (r_lastGoodSeq r + 1) in
        ret (Ok (Some (RecordLoss (mkLoss from from (r_curGen r) LossReasonCRCCorruption))), set_file r None)
      | Err e => ret (Err (RErr (EFrame e)), set_file r (Some (ino, (off + consumed x.1 e)%nat)))
      | Ok (payload, _) =>
        let r := set_file r (Some (ino, (off + 8 + length payload)%nat)) in
        if isLossMarker payload then
          ret (match decodeLossPayload payload with
               | None => (Err BadLossMarker, r)
               | Some loss => (Ok (Some (RecordLoss loss)), r)
               end)
        else match parseSeqGen payload with
        | None => ret (Err BadSeqGen, r)
        | Some (seq, gen) =>
          let r := set_last r seq gen in
          if seq <? r_nextSeq r then next_loop fuel' r
          else ret (Ok (Some (RecordData seq gen (drop 12 payload))), set_emitted r seq)
        end
      end
    end
  end.

(** A queued file is opened, left and read to its end at most once, and reading a record takes at
    least eight bytes. *)
Definition named_size (d : disk) (name : string) : nat := match names d !! name with Some i => length (data_of d i) | None => 0 end.
Definition read_fuel (d : disk) (r : Reader) : nat :=
  (4 * (size (names d) + length (r_segments r) + 1)
   + sum_list ((fun i => length (data_of d i)) <$> (map_to_list (names d)).*2)
   + sum_list ((fun e : string * Z => named_size d e.1) <$> r_segments r)
   + match r_current r with Some (i, _) => length (data_of d i) | None => 0 end)%nat.

(** [TryNext]; [Next] reports [io.EOF] for [None].  Closing the log closes its readers. *)
Definition TryNext (r : Reader) : M err (result reader_error (option Record_) * Reader) :=
  w <- get ;;
  if r_closed r || closed w then ret (Err ErrReaderClosed, r)
  else fun s => next_loop (read_fuel (dk s) r) r s.

Definition Reader_Close (r : Reader) : Reader :=
  mkReader (r_segments r) None (r_curGen r) (r_curIdx r) (r_curLive r) (r_nextScanIdx r) (r_lastGoodSeq r) (r_lastGoodGen r)
    (r_nextSeq r) (r_readerGen r) (r_lastEmittedSeq r) true.

End Read.
End WalReader.
Export WalReader.
