(* ===== verification/WalDir.v ===== *)
(** * What a directory of segments holds

    A directory that the log has written is described by its sealed segments, in order, and at most
    one segment in progress.  The lemmas here say what listing, opening and scanning find in such a
    directory, and what each file operation makes of its description. *)

From Stdlib Require Import ZArith Lia Ascii String Sorted.
From stdpp Require Import base list strings gmap sorting.
From S2P Require Import Prelude GoText GoStrings WalFrame Wal.
Open Scope string_scope.
Open Scope list_scope.
Open Scope Z_scope.

(** ** Descriptions *)
Module Layout.

Record sealed_seg : Type := mkSealed { q_idx : Z; q_ino : Z; q_hdr : SegmentHeader; q_recs : list (list Z) }.
Record live_seg : Type := mkLive { l_idx : Z; l_ino : Z; l_file : file }.

Definition live_name (i : Z) : string := segmentName i +:+ inProgressSuffix.

Definition seg_bytes (q : sealed_seg) : list Z := header_bytes (q_hdr q) ++ frames (q_recs q).
Definition seg_file (q : sealed_seg) : file := mkFile (seg_bytes q) (length (seg_bytes q)).

(** Name, index and file number of every entry, in order of the index. *)
Definition layout_entries (sealed : list sealed_seg) (live : option live_seg) : list (string * Z * Z) :=
  ((fun q => (segmentName (q_idx q), q_idx q, q_ino q)) <$> sealed) ++
  ((fun l => (live_name (l_idx l), l_idx l, l_ino l)) <$> option_list live).

Definition entry_name (e : string * Z * Z) : string := e.1.1.
Definition entry_idx (e : string * Z * Z) : Z := e.1.2.
Definition entry_ino (e : string * Z * Z) : Z := e.2.

Definition index_ok (i : Z) : Prop := 0 <= i < 2 ^ 64 - 1.

Record layout (m : Z) (d : disk) (sealed : list sealed_seg) (live : option live_seg) : Prop := mkLayout {
  lay_names : names d = list_to_map ((fun e => (entry_name e, entry_ino e)) <$> layout_entries sealed live);
  lay_sorted : StronglySorted Z.lt (entry_idx <$> layout_entries sealed live);
  lay_index : Forall index_ok (entry_idx <$> layout_entries sealed live);
  lay_inodes : NoDup (entry_ino <$> layout_entries sealed live);
  lay_fresh : Forall (fun i => i < next_inode d) (entry_ino <$> layout_entries sealed live);
  lay_sealed : Forall (fun q => files d !! q_ino q = Some (seg_file q) /\ header_ok (q_hdr q) /\ Forall (payload_ok m) (q_recs q)) sealed;
  lay_live : match live with Some l => files d !! l_ino l = Some (l_file l) | None => True end
}.

(** *** Names *)

Lemma name_index_inj sealed live e e' :
  Forall index_ok (entry_idx <$> layout_entries sealed live) ->
  e ∈ layout_entries sealed live -> e' ∈ layout_entries sealed live -> entry_name e = entry_name e' -> entry_idx e = entry_idx e'.
Proof.
  intros Hok. assert (Hp : forall e, e ∈ layout_entries sealed live -> parseSegmentIndex (entry_name e) = Some (entry_idx e)).
  { intros x Hx. rewrite Forall_fmap, Forall_forall in Hok. specialize (Hok _ Hx). unfold index_ok in Hok. cbn in Hok.
    unfold layout_entries in Hx. apply elem_of_app in Hx as [Hx|Hx]; apply list_elem_of_fmap in Hx as (y & -> & _); cbn in *.
    - apply parse_sealed. lia.
    - apply parse_inprogress. lia. }
  intros He He' Heq. apply Hp in He, He'. congruence.
Qed.

Lemma sorted_lt_NoDup (l : list Z) : StronglySorted Z.lt l -> NoDup l.
Proof.
  induction 1 as [|x l Hs IH Hall]; constructor; [|done]. intros Hx. rewrite Forall_forall in Hall. specialize (Hall _ Hx). lia.
Qed.

Lemma layout_names_NoDup sealed live :
  StronglySorted Z.lt (entry_idx <$> layout_entries sealed live) -> Forall index_ok (entry_idx <$> layout_entries sealed live) ->
  NoDup (entry_name <$> layout_entries sealed live).
Proof.
  intros Hs Hok. apply sorted_lt_NoDup in Hs. pose proof (fun e e' => name_index_inj sealed live e e' Hok) as Hinj.
  revert Hs Hinj. generalize (layout_entries sealed live) as l. clear. induction l as [|e l IH]; cbn; [constructor|].
  intros Hnd Hinj. apply NoDup_cons in Hnd as [Hni Hnd]. constructor.
  - intros He. apply list_elem_of_fmap in He as (e' & Heq & He'). apply Hni, list_elem_of_fmap. exists e'. split; [|done].
    apply Hinj; [left|by right|done].
  - apply IH; [done|]. intros x y Hx Hy. apply Hinj; by right.
Qed.

(** *** Listing *)

Lemma sorted_perm_eq (l l' : list (string * Z)) :
  l ≡ₚ l' -> StronglySorted (fun a b => a.2 < b.2) l' -> StronglySorted (fun a b => a.2 <= b.2) l -> l = l'.
Proof.
  intros HP Hs'. revert l HP. induction Hs' as [|x l' Hs' IH Hall]; intros l HP Hs.
  { by apply Permutation_nil_r in HP. }
  destruct l as [|y l]; [by apply Permutation_nil_cons in HP|].
  inversion Hs as [|? ? Hsl Hally]; subst.
  assert (y = x) as ->.
  { assert (Hy : y ∈ x :: l') by (rewrite <- HP; left). apply elem_of_cons in Hy as [->|Hy]; [done|].
    assert (Hx : x ∈ y :: l) by (rewrite HP; left). apply elem_of_cons in Hx as [->|Hx]; [done|].
    rewrite Forall_forall in Hally, Hall. specialize (Hally _ Hx). specialize (Hall _ Hy). lia. }
  f_equal. apply IH; [by apply Permutation_cons_inv in HP|done].
Qed.

Lemma by_index_sorted l : StronglySorted (fun a b => a.2 <= b.2) (by_index l).
Proof.
  assert (H : StronglySorted (not_after (fun a b : string * Z => a.2 <? b.2)) (by_index l)).
  { apply stable_sort_sorted; unfold not_after; intros; lia. }
  revert H. unfold not_after. generalize (by_index l). clear. induction 1 as [|x l Hs IH Hall]; constructor; [done|].
  eapply Forall_impl; [exact Hall|]. cbn. intros; lia.
Qed.

Lemma by_index_eq l l' : l ≡ₚ l' -> StronglySorted (fun a b => a.2 < b.2) l' -> by_index l = l'.
Proof.
  intros HP Hs. apply sorted_perm_eq; [|done|apply by_index_sorted]. unfold by_index. by rewrite stable_sort_perm.
Qed.

Lemma dir_list_perm m d sealed live : layout m d sealed live -> dir_list d ≡ₚ entry_name <$> layout_entries sealed live.
Proof.
  intros H. unfold dir_list. rewrite stable_sort_perm, (lay_names _ _ _ _ H), map_to_list_to_map.
  - rewrite <- list_fmap_compose. done.
  - rewrite <- list_fmap_compose. apply layout_names_NoDup; [apply (lay_sorted _ _ _ _ H)|apply (lay_index _ _ _ _ H)].
Qed.

Definition sealed_entries (sealed : list sealed_seg) : list (string * Z) := (fun q => (segmentName (q_idx q), q_idx q)) <$> sealed.
Definition live_entries (live : option live_seg) : list (string * Z) := (fun l => (live_name (l_idx l), l_idx l)) <$> option_list live.

#[global] Instance omap_perm {A B} (f : A -> option B) : Proper ((≡ₚ) ==> (≡ₚ)) (omap f).
Proof.
  intros l l' HP. induction HP; cbn; [done| | |by etrans].
  - destruct (f x); [by constructor|done].
  - destruct (f x), (f y); try done. apply Permutation_swap.
Qed.

Lemma omap_app {A B} (f : A -> option B) l l' : omap f (l ++ l') = omap f l ++ omap f l'.
Proof. induction l as [|x l IH]; cbn; [done|]. destruct (f x); cbn; by rewrite IH. Qed.

Lemma omap_fmap {A B C} (f : B -> option C) (g : A -> B) (l : list A) : omap f (g <$> l) = omap (fun x => f (g x)) l.
Proof. induction l as [|x l IH]; cbn; [done|]. by rewrite IH. Qed.

Lemma StronglySorted_sublist {A} (R : A -> A -> Prop) l l' : StronglySorted R l' -> sublist l l' -> StronglySorted R l.
Proof.
  intros Hs Hsub. induction Hsub as [|x l l' Hsub IH|x l l' Hsub IH]; [constructor|..]; inversion Hs as [|? ? Hs' Hall]; subst; [|auto].
  constructor; [auto|]. rewrite Forall_forall in *. intros y Hy. apply Hall. by eapply elem_of_sublist.
Qed.

Lemma Forall_sublist {A} (P : A -> Prop) l l' : Forall P l' -> sublist l l' -> Forall P l.
Proof. rewrite !Forall_forall. intros H Hsub x Hx. apply H. by eapply elem_of_sublist. Qed.

Lemma omap_all {A B} (f : A -> option B) (g : A -> B) l : Forall (fun x => f x = Some (g x)) l -> omap f l = g <$> l.
Proof. induction 1 as [|x l Hx _ IH]; cbn; [done|]. by rewrite Hx, IH. Qed.

Lemma omap_none {A B} (f : A -> option B) l : Forall (fun x => f x = None) l -> omap f l = [].
Proof. induction 1 as [|x l Hx _ IH]; cbn; [done|]. by rewrite Hx. Qed.

Lemma entries_perm p ns ns' : ns ≡ₚ ns' -> entries p ns ≡ₚ entries p ns'.
Proof. intros HP. unfold entries. by rewrite HP. Qed.

Lemma layout_index_sealed sealed live q :
  Forall index_ok (entry_idx <$> layout_entries sealed live) -> q ∈ sealed -> index_ok (q_idx q).
Proof.
  unfold layout_entries. rewrite fmap_app, Forall_app, <- list_fmap_compose. intros [H _] Hq.
  rewrite Forall_fmap, Forall_forall in H. exact (H _ Hq).
Qed.

Lemma layout_index_live sealed l :
  Forall index_ok (entry_idx <$> layout_entries sealed (Some l)) -> index_ok (l_idx l).
Proof.
  unfold layout_entries. rewrite fmap_app, Forall_app. intros [_ H]. cbn in H. by apply Forall_inv in H.
Qed.

Section Listing.
Context (m : Z) (d : disk) (sealed : list sealed_seg) (live : option live_seg) (H : layout m d sealed live).

Lemma entries_layout p (on_sealed on_live : bool) :
  (forall i, 0 <= i -> p (segmentName i) = on_sealed) -> (forall i, 0 <= i -> p (live_name i) = on_live) ->
  by_index (entries p (dir_list d)) =
  (if on_sealed then sealed_entries sealed else []) ++ (if on_live then live_entries live else []).
Proof using H.
  intros Hs Hl. pose proof (lay_index _ _ _ _ H) as Hidx.
  apply by_index_eq.
  - rewrite (entries_perm _ _ _ (dir_list_perm _ _ _ _ H)). unfold entries, layout_entries.
    rewrite fmap_app, omap_app, <- !list_fmap_compose.
    apply reflexive_eq. f_equal.
    + assert (Hq : forall q, q ∈ sealed -> index_ok (q_idx q)) by (intros; by eapply layout_index_sealed).
      destruct on_sealed.
      * unfold sealed_entries. rewrite omap_fmap. apply omap_all. apply Forall_forall. intros q Hin. cbn.
        specialize (Hq _ Hin). unfold index_ok in Hq. rewrite Hs, parse_sealed by lia. done.
      * rewrite omap_fmap. apply omap_none, Forall_forall. intros q Hin. cbn. specialize (Hq _ Hin). unfold index_ok in Hq.
        rewrite Hs by lia. done.
    + destruct live as [l|]; [|by destruct on_live]. pose proof (layout_index_live _ _ Hidx) as Hi. unfold index_ok in Hi.
      cbn. change (segmentName (l_idx l) +:+ inProgressSuffix) with (live_name (l_idx l)). rewrite Hl by lia.
      destruct on_live; [|done]. unfold live_name. rewrite parse_inprogress by lia. done.
  - pose proof (lay_sorted _ _ _ _ H) as Hsort. unfold layout_entries in Hsort. rewrite fmap_app, <- !list_fmap_compose in Hsort.
    assert (Hsub : sublist (snd <$> ((if on_sealed then sealed_entries sealed else []) ++ (if on_live then live_entries live else [])))
                     ((entry_idx ∘ (fun q => (segmentName (q_idx q), q_idx q, q_ino q)) <$> sealed) ++
                      (entry_idx ∘ (fun l => (live_name (l_idx l), l_idx l, l_ino l)) <$> option_list live))).
    { rewrite fmap_app. apply sublist_app.
      - destruct on_sealed; [|apply sublist_nil_l]. unfold sealed_entries. rewrite <- list_fmap_compose. done.
      - destruct on_live; [|apply sublist_nil_l]. unfold live_entries. rewrite <- list_fmap_compose. done. }
    eapply StronglySorted_sublist in Hsub; [|exact Hsort]. revert Hsub.
    generalize ((if on_sealed then sealed_entries sealed else []) ++ (if on_live then live_entries live else [])). clear.
    intros l. induction l as [|e l IH]; cbn; intros Hs; constructor; inversion Hs; subst; [auto|].
    by rewrite Forall_fmap in *.
Qed.

Lemma list_sealed : by_index (entries is_sealed (dir_list d)) = sealed_entries sealed.
Proof using H.
  rewrite (entries_layout is_sealed true false).
  - by rewrite app_nil_r.
  - intros i Hi. unfold is_sealed. by rewrite sealed_is_sealed, sealed_not_inprogress.
  - intros i Hi. unfold is_sealed, live_name. by rewrite inprogress_not_sealed.
Qed.

Lemma list_live : by_index (entries is_inprogress (dir_list d)) = live_entries live.
Proof using H.
  rewrite (entries_layout is_inprogress false true); [done|intros i Hi..].
  - by apply sealed_not_inprogress.
  - by apply inprogress_is_inprogress.
Qed.

Lemma list_all : by_index (entries is_segment (dir_list d)) = sealed_entries sealed ++ live_entries live.
Proof using H.
  rewrite (entries_layout is_segment true true); [done|intros i Hi..]; unfold is_segment, live_name.
  - by rewrite sealed_is_sealed.
  - by rewrite inprogress_is_inprogress, orb_true_r.
Qed.

End Listing.

(** *** Lookups *)

Lemma layout_same m d d' sealed live :
  layout m d sealed live -> names d' = names d -> files d' = files d -> next_inode d' = next_inode d -> layout m d' sealed live.
Proof. intros [] Hn Hf Hi. split; rewrite ?Hn, ?Hf, ?Hi; done. Qed.

Lemma layout_lookup m d sealed live e :
  layout m d sealed live -> e ∈ layout_entries sealed live -> names d !! entry_name e = Some (entry_ino e).
Proof.
  intros H He. rewrite (lay_names _ _ _ _ H). apply elem_of_list_to_map.
  - rewrite <- list_fmap_compose. apply layout_names_NoDup; [apply (lay_sorted _ _ _ _ H)|apply (lay_index _ _ _ _ H)].
  - apply list_elem_of_fmap. by exists e.
Qed.

Lemma sealed_entry sealed live q : q ∈ sealed -> (segmentName (q_idx q), q_idx q, q_ino q) ∈ layout_entries sealed live.
Proof. intros Hq. apply elem_of_app. left. apply list_elem_of_fmap. by exists q. Qed.

Lemma live_entry sealed l : (live_name (l_idx l), l_idx l, l_ino l) ∈ layout_entries sealed (Some l).
Proof. apply elem_of_app. right. cbn. left. Qed.

Lemma lookup_sealed m d sealed live q :
  layout m d sealed live -> q ∈ sealed -> names d !! segmentName (q_idx q) = Some (q_ino q).
Proof. intros H Hq. exact (layout_lookup _ _ _ _ _ H (sealed_entry _ _ _ Hq)). Qed.

Lemma lookup_live m d sealed l : layout m d sealed (Some l) -> names d !! live_name (l_idx l) = Some (l_ino l).
Proof. intros H. exact (layout_lookup _ _ _ _ _ H (live_entry _ _)). Qed.

Lemma data_sealed m d sealed live q : layout m d sealed live -> q ∈ sealed -> data_of d (q_ino q) = seg_bytes q.
Proof.
  intros H Hq. pose proof (lay_sealed _ _ _ _ H) as Hs. rewrite Forall_forall in Hs. destruct (Hs _ Hq) as [Hf _].
  unfold data_of. by rewrite Hf.
Qed.

Lemma data_live m d sealed l : layout m d sealed (Some l) -> data_of d (l_ino l) = f_data (l_file l).
Proof. intros H. pose proof (lay_live _ _ _ _ H) as Hl. cbn in Hl. unfold data_of. by rewrite Hl. Qed.

(** A fresh index has no file under either name. *)
Lemma lookup_fresh m d sealed live name i :
  layout m d sealed live -> parseSegmentIndex name = Some i -> Forall (fun j => j < i) (entry_idx <$> layout_entries sealed live) ->
  names d !! name = None.
Proof.
  intros H Hp Hfresh. rewrite (lay_names _ _ _ _ H). apply not_elem_of_list_to_map_1. rewrite <- list_fmap_compose.
  intros Hin. apply list_elem_of_fmap in Hin as (e & -> & He). cbn in Hp.
  pose proof (lay_index _ _ _ _ H) as Hidx. rewrite Forall_fmap, Forall_forall in Hidx, Hfresh.
  specialize (Hidx _ He). specialize (Hfresh _ He). unfold index_ok in *. cbn in *.
  assert (Hpe : parseSegmentIndex (entry_name e) = Some (entry_idx e)).
  { unfold layout_entries in He. apply elem_of_app in He as [Hx|Hx]; apply list_elem_of_fmap in Hx as (y & -> & _); cbn in *.
    - apply parse_sealed. lia.
    - apply parse_inprogress. lia. }
  unfold entry_idx, entry_name in *. assert (e.1.2 = i) by congruence. lia.
Qed.

(** *** Updates *)

Lemma list_to_map_remove {A} (l1 l2 : list (string * A)) k x :
  NoDup (l1 ++ (k, x) :: l2).*1 -> delete k (list_to_map (l1 ++ (k, x) :: l2) : gmap string A) = list_to_map (l1 ++ l2).
Proof.
  intros Hnd. rewrite (list_to_map_proper _ ((k, x) :: (l1 ++ l2))); [|done|by rewrite Permutation_middle].
  cbn. apply delete_insert_id. apply not_elem_of_list_to_map_1.
  rewrite (fmap_Permutation fst _ ((k, x) :: (l1 ++ l2))) in Hnd by (by rewrite Permutation_middle). cbn in Hnd. by apply NoDup_cons in Hnd as [? _].
Qed.

Lemma layout_remove m d a q b live :
  layout m d (a ++ q :: b) live -> layout m (with_names d (delete (segmentName (q_idx q)) (names d))) (a ++ b) live.
Proof.
  intros H. pose proof H as [Hn Hs Hi Hino Hf Hq Hl].
  assert (Hsub : sublist (layout_entries (a ++ b) live) (layout_entries (a ++ q :: b) live)).
  { unfold layout_entries. rewrite !fmap_app. apply sublist_app; [|done]. apply sublist_app; [done|]. cbn. by apply sublist_cons. }
  assert (HsubF : forall A (f : string * Z * Z -> A), sublist (f <$> layout_entries (a ++ b) live) (f <$> layout_entries (a ++ q :: b) live)).
  { intros A f. clear -Hsub. induction Hsub; cbn; [constructor|by apply sublist_skip|by apply sublist_cons]. }
  split; cbn.
  - rewrite Hn. unfold layout_entries. rewrite !fmap_app. cbn. rewrite <- !app_assoc. cbn. rewrite !app_assoc.
    rewrite <- !app_assoc. apply list_to_map_remove. cbn.
    pose proof (layout_names_NoDup _ _ Hs Hi) as Hnd. unfold layout_entries in Hnd. rewrite !fmap_app in Hnd. cbn in Hnd.
    rewrite <- !list_fmap_compose, <- !app_assoc in Hnd. cbn in Hnd. rewrite !fmap_app, fmap_cons, !fmap_app, <- !list_fmap_compose. exact Hnd.
  - eapply StronglySorted_sublist; [exact Hs|apply HsubF].
  - eapply Forall_sublist; [exact Hi|apply HsubF].
  - eapply sublist_NoDup; [exact Hino|apply HsubF].
  - eapply Forall_sublist; [exact Hf|apply HsubF].
  - rewrite Forall_app, Forall_cons in Hq. destruct Hq as (Ha & _ & Hb). by apply Forall_app.
  - done.
Qed.

Lemma layout_update m d sealed l g :
  layout m d sealed (Some l) ->
  layout m (update_file d (l_ino l) g) sealed (Some (mkLive (l_idx l) (l_ino l) (g (l_file l)))).
Proof.
  intros H. pose proof H as [Hn Hs Hi Hino Hf Hq Hl]. split; try done; cbn.
  - rewrite Forall_forall in *. intros q Hin. destruct (Hq _ Hin) as [Hfile Hok]. split; [|done].
    rewrite lookup_alter_ne; [done|]. intros Heq.
    unfold layout_entries in Hino. rewrite fmap_app in Hino. apply NoDup_app in Hino as (_ & Hdis & _).
    apply (Hdis (q_ino q)).
    + rewrite <- list_fmap_compose. apply list_elem_of_fmap. by exists q.
    + cbn. rewrite <- Heq. left.
  - rewrite lookup_alter_eq, Hl. done.
Qed.

Lemma layout_remove_live m d sealed l :
  layout m d sealed (Some l) -> layout m (with_names d (delete (live_name (l_idx l)) (names d))) sealed None.
Proof.
  intros H. pose proof H as [Hn Hs Hi Hino Hf Hq Hl]. pose proof (layout_names_NoDup _ _ Hs Hi) as Hnd.
  unfold layout_entries in *. rewrite !fmap_app in *. cbn in *. rewrite ?app_nil_r.
  split; cbn; unfold layout_entries; cbn; rewrite ?app_nil_r; try done.
  - rewrite Hn. rewrite list_to_map_remove; [by rewrite app_nil_r|]. rewrite fmap_app. rewrite <- !list_fmap_compose in *. exact Hnd.
  - eapply StronglySorted_sublist; [exact Hs|]. by apply sublist_inserts_r.
  - by apply Forall_app in Hi as [? _].
  - by apply NoDup_app in Hino as [? _].
  - by apply Forall_app in Hf as [? _].
Qed.

Lemma StronglySorted_snoc (l : list Z) x : StronglySorted Z.lt l -> Forall (fun y => y < x) l -> StronglySorted Z.lt (l ++ [x]).
Proof.
  induction 1 as [|y l Hs IH Hall]; intros Hx; cbn; [repeat constructor|]. inversion Hx; subst. constructor; [auto|].
  apply Forall_app. split; [done|]. by constructor.
Qed.

Definition create_file (d : disk) (name : string) : disk :=
  mkDisk (<[name := next_inode d]> (names d)) (<[next_inode d := mkFile [] 0]> (files d)) (next_inode d + 1) (meta d) (ops d).

Lemma layout_create m d sealed i :
  layout m d sealed None -> index_ok i -> Forall (fun q => q_idx q < i) sealed ->
  layout m (create_file d (live_name i)) sealed (Some (mkLive i (next_inode d) (mkFile [] 0))).
Proof.
  intros H Hi Hfresh. pose proof H as [Hn Hs Hix Hino Hf Hq _].
  assert (Hfresh' : Forall (fun j => j < i) (entry_idx <$> layout_entries sealed None)).
  { unfold layout_entries. cbn. rewrite app_nil_r, <- list_fmap_compose, Forall_fmap. exact Hfresh. }
  assert (Hnone : names d !! live_name i = None).
  { eapply lookup_fresh; [exact H| |exact Hfresh']. apply parse_inprogress. unfold index_ok in Hi. lia. }
  unfold layout_entries in *. cbn [option_list fmap list_fmap] in *. rewrite app_nil_r in *.
  split; unfold layout_entries; cbn [option_list fmap list_fmap create_file names files next_inode]; rewrite ?fmap_app; cbn.
  - rewrite Hn. rewrite <- list_to_map_snoc; [done|]. rewrite Hn in Hnone. by apply not_elem_of_list_to_map_2 in Hnone.
  - apply StronglySorted_snoc; [exact Hs|exact Hfresh'].
  - apply Forall_app. split; [exact Hix|]. constructor; [exact Hi|constructor].
  - apply NoDup_app. split; [exact Hino|]. split; [|apply NoDup_singleton]. intros x Hx Hx'.
    apply list_elem_of_singleton in Hx' as ->. rewrite Forall_forall in Hf. specialize (Hf _ Hx). lia.
  - apply Forall_app. split; [|constructor; [cbn; lia|constructor]]. eapply Forall_impl; [exact Hf|]. cbn. intros; lia.
  - rewrite Forall_forall in *. intros q Hin. destruct (Hq _ Hin) as [Hfile Hok]. split; [|done].
    rewrite lookup_insert_ne; [done|]. intros Heq. rewrite <- list_fmap_compose, Forall_fmap in Hf.
    eapply Forall_forall in Hf; [|exact Hin]. cbn in Hf. lia.
  - by rewrite lookup_insert_eq.
Qed.

(** Sealing: the live file, complete and synced, gets its final name. *)
Lemma layout_rename m d sealed l hdr recs :
  layout m d sealed (Some l) -> header_ok hdr -> Forall (payload_ok m) recs ->
  l_file l = seg_file (mkSealed (l_idx l) (l_ino l) hdr recs) ->
  layout m (with_names d (<[segmentName (l_idx l) := l_ino l]> (delete (live_name (l_idx l)) (names d))))
    (sealed ++ [mkSealed (l_idx l) (l_ino l) hdr recs]) None.
Proof.
  intros H Hh Hr Hfile. pose proof H as [Hn Hs Hi Hino Hf Hq Hl].
  pose proof (layout_remove_live _ _ _ _ H) as Hrm.
  assert (Hix : index_ok (l_idx l)) by (by eapply layout_index_live). unfold index_ok in Hix.
  assert (Hlt : Forall (fun j => j < l_idx l) (entry_idx <$> layout_entries sealed None)).
  { unfold layout_entries in Hs |- *. rewrite fmap_app in Hs. cbn in Hs |- *. rewrite app_nil_r.
    clear -Hs. induction (entry_idx <$> _) as [|y k IH]; cbn in *; inversion Hs as [|? ? Hs' Hall]; subst; constructor; [|auto].
    apply Forall_app in Hall as [_ Hall]. by apply Forall_inv in Hall. }
  assert (Hnone : delete (live_name (l_idx l)) (names d) !! segmentName (l_idx l) = None).
  { eapply (lookup_fresh _ _ _ _ _ _ Hrm); [apply parse_sealed; lia|exact Hlt]. }
  pose proof Hrm as [Hn' _ _ _ _ _ _].
  unfold layout_entries in *. cbn [option_list fmap list_fmap] in *. rewrite ?app_nil_r in *.
  split; unfold layout_entries; cbn [option_list fmap list_fmap with_names names files next_inode]; rewrite ?app_nil_r, ?fmap_app in *; cbn in *.
  - rewrite Hn'. rewrite <- list_to_map_snoc; [done|]. rewrite Hn' in Hnone. by apply not_elem_of_list_to_map_2 in Hnone.
  - exact Hs.
  - exact Hi.
  - exact Hino.
  - exact Hf.
  - apply Forall_app. split; [exact Hq|]. constructor; [|constructor]. cbn. split; [|done]. by rewrite Hl, Hfile.
  - done.
Qed.

End Layout.
Export Layout.
