(* ===== verification/WalSteps.v ===== *)
(** * What the operations of the log do to its content

    A Hoare logic for the monad of the log, the content of a directory as two logs (what is on
    stable storage, and what has been written), and a specification of every internal operation
    that holds whatever operations of the file system fail. *)

From Stdlib Require Import ZArith Lia Ascii String Sorted.
From stdpp Require Import base list strings gmap sorting.
From S2P Require Import Prelude GoText GoStrings WalFrame Wal WalDir.
Open Scope string_scope.
Open Scope list_scope.
Open Scope Z_scope.

(** ** Triples *)
Module Hoare.

Definition triple {E A} (P : sys -> Prop) (m : M E A) (Q : A -> sys -> Prop) (R : sys -> Prop) : Prop :=
  forall s, P s -> match m s with (Ok a, s') => Q a s' | (Err _, s') => R s' end.

Lemma triple_ret {E A} (a : A) (P : sys -> Prop) (Q : A -> sys -> Prop) (R : sys -> Prop) :
  (forall s, P s -> Q a s) -> triple (E:=E) P (ret a) Q R.
Proof. intros H s Hs. by apply H. Qed.

Lemma triple_fail {E A} (e : E) (P : sys -> Prop) (Q : A -> sys -> Prop) (R : sys -> Prop) :
  (forall s, P s -> R s) -> triple P (fail e) Q R.
Proof. intros H s Hs. by apply H. Qed.

Lemma triple_bind {E A B} (m : M E A) (k : A -> M E B) P (Q : A -> sys -> Prop) (Q' : B -> sys -> Prop) R :
  triple P m Q R -> (forall a, triple (Q a) (k a) Q' R) -> triple P (bind m k) Q' R.
Proof.
  intros Hm Hk s Hs. unfold bind. specialize (Hm s Hs). destruct (m s) as [[a|e] s']; [|done]. by apply Hk.
Qed.

Lemma triple_conseq {E A} (m : M E A) (P P' : sys -> Prop) (Q Q' : A -> sys -> Prop) (R R' : sys -> Prop) :
  triple P m Q R -> (forall s, P' s -> P s) -> (forall a s, Q a s -> Q' a s) -> (forall s, R s -> R' s) -> triple P' m Q' R'.
Proof. intros H HP HQ HR s Hs. specialize (H s (HP s Hs)). destruct (m s) as [[a|e] s']; auto. Qed.

Lemma triple_seq {E A B} (m : M E A) (k : A -> M E B) P P' (Q : A -> sys -> Prop) (Q' : B -> sys -> Prop) (R R' : sys -> Prop) :
  triple P m Q R -> (forall s, P' s -> P s) -> (forall s, R s -> R' s) -> (forall a, triple (Q a) (k a) Q' R') -> triple P' (bind m k) Q' R'.
Proof. intros Hm HP HR Hk. eapply triple_bind; [|exact Hk]. by eapply triple_conseq. Qed.

Lemma triple_get {E} P : triple (E:=E) P get (fun w s => P s /\ w = wl s) (fun _ => False).
Proof. intros s Hs. done. Qed.

Lemma triple_modify {E} (f : WAL -> WAL) (P : sys -> Prop) (Q : unit -> sys -> Prop) (R : sys -> Prop) :
  (forall s, P s -> Q tt (mkSys (dk s) (f (wl s)))) -> triple (E:=E) P (modify f) Q R.
Proof. intros H s Hs. by apply H. Qed.

Lemma triple_lift {E A} (r : result E A) (P : sys -> Prop) (Q : A -> sys -> Prop) (R : sys -> Prop) :
  (forall a s, r = Ok a -> P s -> Q a s) -> (forall e s, r = Err e -> P s -> R s) -> triple P (lift r) Q R.
Proof. intros H1 H2 s Hs. unfold lift. destruct r; eauto. Qed.

Lemma triple_attempt {E F A} (m : M F A) P (Q : A -> sys -> Prop) (R' : sys -> Prop) (R : sys -> Prop) :
  triple P m Q R' -> triple (E:=E) P (attempt m) (fun r s => match r with Ok a => Q a s | Err _ => R' s end) R.
Proof. intros H s Hs. unfold attempt. specialize (H s Hs). by destruct (m s) as [[a|e] s']. Qed.

Lemma triple_ignore {E F A} (m : M F A) P (Q : A -> sys -> Prop) (R' : sys -> Prop) (Q' : unit -> sys -> Prop) (R : sys -> Prop) :
  triple P m Q R' -> (forall a s, Q a s -> Q' tt s) -> (forall s, R' s -> Q' tt s) -> triple (E:=E) P (ignore m) Q' R.
Proof.
  intros H H1 H2 s Hs. unfold ignore. specialize (H s Hs). destruct (m s) as [[a|e] s']; cbn; eauto.
Qed.

Lemma triple_cleanup {E A} (m : M E A) (h : M E unit) P (Q : A -> sys -> Prop) (R R' : sys -> Prop) :
  triple P m Q R -> triple R h (fun _ => R') R' -> triple P (cleanup_on m h) Q R'.
Proof.
  intros Hm Hh s Hs. unfold cleanup_on. specialize (Hm s Hs). destruct (m s) as [[a|e] s']; [done|].
  specialize (Hh s' Hm). destruct (h s') as [[?|?] ?]; done.
Qed.

Lemma triple_pre {E A} (m : M E A) (P : sys -> Prop) (Q : A -> sys -> Prop) (R : sys -> Prop) (p : Prop) :
  (p -> triple P m Q R) -> triple (fun s => P s /\ p) m Q R.
Proof. intros H s [Hs Hp]. by apply H. Qed.

Lemma triple_assoc {E A B C} (m : M E A) (k : A -> M E B) (h : B -> M E C) P (Q : C -> sys -> Prop) R :
  triple P (bind (bind m k) h) Q R -> triple P (bind m (fun x => bind (k x) h)) Q R.
Proof. intros H s Hs. specialize (H s Hs). unfold bind in *. by destruct (m s) as [[a|e] s']. Qed.

Lemma triple_weaken {E A} (m : M E A) (P P' : sys -> Prop) (Q : A -> sys -> Prop) (R : sys -> Prop) :
  triple P m Q R -> (forall s, P' s -> P s) -> triple P' m Q R.
Proof. intros H HP s Hs. exact (H s (HP s Hs)). Qed.

Lemma triple_fact {E A} (m : M E A) (P : sys -> Prop) (Q : A -> sys -> Prop) (R : sys -> Prop) (p : Prop) :
  (forall s, P s -> p) -> (p -> triple P m Q R) -> triple P m Q R.
Proof. intros Hp H s Hs. exact (H (Hp s Hs) s Hs). Qed.

Lemma triple_exists {E A X} (m : M E A) (P : X -> sys -> Prop) (Q : A -> sys -> Prop) (R : sys -> Prop) :
  (forall x, triple (P x) m Q R) -> triple (fun s => exists x, P x s) m Q R.
Proof. intros H s [x Hx]. by apply (H x). Qed.

Lemma triple_io `{F : Faults} {A} (good : disk -> result err (A * disk)) fault (P : sys -> Prop) (Q : A -> sys -> Prop) (R : sys -> Prop) :
  (forall s a d', P s -> good (tick (dk s)) = Ok (a, d') -> Q a (mkSys d' (wl s))) ->
  (forall s e, P s -> good (tick (dk s)) = Err e -> R (mkSys (tick (dk s)) (wl s))) ->
  (forall s n, P s -> R (mkSys (fault n (tick (dk s))) (wl s))) ->
  triple P (io good fault) Q R.
Proof.
  intros H1 H2 H3 s Hs. unfold io. destruct (plan (ops (dk s))) as [n|]; [by apply H3|].
  destruct (good (tick (dk s))) as [[a d']|e] eqn:E; eauto.
Qed.

End Hoare.
Export Hoare.

(** ** Content *)
Module Content.

(** The header of the live file, the records on stable storage, and those written behind them. *)
Record content : Type := mkContent { c_hdr : SegmentHeader; c_sure : list (list Z); c_flight : list (list Z) }.

Record state : Type := mkState { a_sealed : list sealed_seg; a_live : option live_seg; a_content : option content }.

Definition with_gen (gen : Z) (ps : list (list Z)) : list (Z * list Z) := (fun p => (gen, p)) <$> ps.

Definition sealed_log (sealed : list sealed_seg) : list (Z * list Z) :=
  concat ((fun q => with_gen (hd_Generation (q_hdr q)) (q_recs q)) <$> sealed).
Definition sure_log (a : state) : list (Z * list Z) :=
  sealed_log (a_sealed a) ++ match a_content a with Some c => with_gen (hd_Generation (c_hdr c)) (c_sure c) | None => [] end.
Definition full_log (a : state) : list (Z * list Z) :=
  sealed_log (a_sealed a) ++
  match a_content a with Some c => with_gen (hd_Generation (c_hdr c)) (c_sure c ++ c_flight c) | None => [] end.

(** The live file holds its content, up to a tail that was not written completely; a file without
    a complete header holds nothing. *)
Definition holds (m : Z) (live : option live_seg) (c : option content) : Prop :=
  match live, c with
  | None, None => True
  | Some l, None => (f_durable (l_file l) <= length (f_data (l_file l)) < 16)%nat
  | Some l, Some c =>
    header_ok (c_hdr c) /\ Forall (payload_ok m) (c_sure c) /\ Forall (payload_ok m) (c_flight c) /\
    (exists n, f_data (l_file l) = header_bytes (c_hdr c) ++ frames (c_sure c) ++ take n (frames (c_flight c))) /\
    (c_sure c <> [] -> 16 + length (frames (c_sure c)) <= f_durable (l_file l))%nat /\ (f_durable (l_file l) <= length (f_data (l_file l)))%nat
  | None, Some _ => False
  end.

Record At (m : Z) (a : state) (mt : option Meta) (w : WAL) (s : sys) : Prop := mkAt {
  at_layout : layout m (dk s) (a_sealed a) (a_live a);
  at_holds : holds m (a_live a) (a_content a);
  at_meta : meta (dk s) = mt;
  at_wal : wl s = w
}.

(** What a step may do: records on stable storage stay, unless they are excused, and only the given
    records are written. *)
Definition evolves (X : Z * list Z -> Prop) (ps : list (Z * list Z)) (a a' : state) : Prop :=
  (forall y, y ∈ sure_log a -> y ∈ sure_log a' \/ X y) /\ sublist (full_log a') (full_log a ++ ps).

Lemma evolves_refl X a : evolves X [] a a.
Proof. split; [auto|]. by rewrite app_nil_r. Qed.

Lemma evolves_trans (X : Z * list Z -> Prop) ps qs a b c : evolves X ps a b -> evolves X qs b c -> evolves X (ps ++ qs) a c.
Proof.
  intros [H1 H2] [H3 H4]. split.
  - intros y Hy. destruct (H1 _ Hy) as [Hb|Hx]; auto.
  - etrans; [exact H4|]. rewrite app_assoc. by apply sublist_app.
Qed.

Lemma evolves_weaken (X Y : Z * list Z -> Prop) ps qs a b : evolves X ps a b -> (forall y, X y -> Y y) -> sublist ps qs -> evolves Y qs a b.
Proof.
  intros [H1 H2] HX Hs. split.
  - intros y Hy. destruct (H1 _ Hy); auto.
  - etrans; [exact H2|]. by apply sublist_app.
Qed.

Definition nothing : Z * list Z -> Prop := fun _ => False.

(** Same content, other representation. *)
Lemma evolves_same X a b : sure_log a = sure_log b -> full_log a = full_log b -> evolves X [] a b.
Proof. intros H1 H2. split; [rewrite H1; auto|]. by rewrite app_nil_r, H2. Qed.

End Content.
Export Content.

(** ** Operations *)
Module Ops.
Section Ops.
Context `{F : Faults} (m : Z) (Hm : max_ok m).

Lemma At_tick a mt w s : At m a mt w s -> At m a mt w (mkSys (tick (dk s)) (wl s)).
Proof using. intros []. split; [|done..]. by eapply layout_same. Qed.

(** *** Reads *)

Lemma io_read {A} (good : disk -> result err (A * disk)) a mt w :
  (forall d x d', good d = Ok (x, d') -> d' = d) ->
  triple (At m a mt w) (io good no_effect) (fun x s => At m a mt w s /\ good (dk s) = Ok (x, dk s)) (At m a mt w).
Proof using.
  intros Hg. apply triple_io.
  - intros s x d' Hs E. pose proof (Hg _ _ _ E) as ->. split; [by apply At_tick|done].
  - intros s e Hs _. by apply At_tick.
  - intros s n Hs. by apply At_tick.
Qed.

Lemma readdir_spec a mt w :
  triple (At m a mt w) fs_readdir
    (fun ns s => At m a mt w s /\ by_index (entries is_sealed ns) = sealed_entries (a_sealed a) /\
       by_index (entries is_inprogress ns) = live_entries (a_live a) /\
       by_index (entries is_segment ns) = sealed_entries (a_sealed a) ++ live_entries (a_live a)) (At m a mt w).
Proof using.
  eapply triple_conseq; [apply io_read|done| |done].
  - by intros d x d' [= _ <-].
  - intros ns s [Hs [= <-]]. pose proof (at_layout _ _ _ _ _ Hs) as Hl. split; [done|].
    split; [by eapply list_sealed|]. split; [by eapply list_live|by eapply list_all].
Qed.

Lemma open_spec a mt w name :
  triple (At m a mt w) (fs_open name) (fun i s => At m a mt w s /\ names (dk s) !! name = Some i) (At m a mt w).
Proof using.
  eapply triple_conseq; [apply io_read|done| |done].
  - intros d x d'. destruct (names d !! name); [|done]. by intros [= _ <-].
  - intros i s [Hs E]. split; [done|]. destruct (names (dk s) !! name); [|done]. by injection E as ->.
Qed.

Lemma stat_name_spec a mt w name : triple (At m a mt w) (fs_stat_name name) (fun _ s => At m a mt w s) (At m a mt w).
Proof using.
  eapply triple_conseq; [apply io_read|done|by intros x s []|done].
  intros d x d'. destruct (names d !! name); [|done]. by intros [= _ <-].
Qed.

Lemma stat_spec a mt w ino :
  triple (At m a mt w) (fs_stat ino) (fun n s => At m a mt w s /\ n = Z.of_nat (length (data_of (dk s) ino))) (At m a mt w).
Proof using.
  eapply triple_conseq; [apply io_read|done| |done].
  - by intros d x d' [= _ <-].
  - intros n s [Hs [= <-]]. done.
Qed.

Lemma syncdir_spec a mt w : triple (At m a mt w) fs_syncdir (fun _ s => At m a mt w s) (At m a mt w).
Proof using. eapply triple_conseq; [apply io_read|done|by intros x s []|done]. by intros d x d' [= _ <-]. Qed.

Lemma close_spec a mt w : triple (At m a mt w) fs_close (fun _ s => At m a mt w s) (At m a mt w).
Proof using. eapply triple_conseq; [apply io_read|done|by intros x s []|done]. by intros d x d' [= _ <-]. Qed.

(** Some read fails. *)
Definition unread : Prop := exists n, read_plan n <> None.

(** What a read delivers of the bytes it is for. *)
Definition delivered (bytes : list Z) (x : list Z * bool) : Prop :=
  x = (bytes, false) \/ unread /\ exists n, x = (take n bytes, true).

Lemma read_at ino off s : exists x, fs_read_at ino off s = (Ok x, mkSys (tick (dk s)) (wl s)) /\ delivered (drop off (data_of (dk s) ino)) x.
Proof using.
  unfold fs_read_at, delivered. destruct (read_plan (ops (dk s))) as [n|] eqn:E; eexists; (split; [reflexivity|]); [right|by left].
  split; [exists (ops (dk s)); congruence|by exists n].
Qed.

Lemma read_spec a mt w ino off :
  triple (At m a mt w) (fs_read_at ino off) (fun x s => At m a mt w s /\ delivered (drop off (data_of (dk s) ino)) x) (At m a mt w).
Proof using. intros s Hs. destruct (read_at ino off s) as (x & -> & Hx). split; [by apply At_tick|done]. Qed.

Lemma get_spec {E} a mt w : triple (E:=E) (At m a mt w) get (fun w' s => At m a mt w s /\ w' = w) (At m a mt w).
Proof using. intros s Hs. split; [done|]. apply (at_wal _ _ _ _ _ Hs). Qed.

Lemma modify_spec {E} a mt w f : triple (E:=E) (At m a mt w) (modify f) (fun _ s => At m a mt (f w) s) (fun _ => False).
Proof using. intros s []. split; cbn; [done..|]. congruence. Qed.

(** *** Scans *)

Definition data_seq (p : list Z) : option Z := if isLossMarker p then None else fst <$> parseSeqGen p.

Lemma scan_steps ps sc :
  let sc' := fold_left scan_step ps sc in
  sc_gen sc' = sc_gen sc /\ sc_hi sc <= sc_hi sc' /\
  (forall p seq, p ∈ ps -> data_seq p = Some seq -> seq <= sc_hi sc' /\ sc_user sc' = true) /\
  (sc_user sc = true -> sc_user sc' = true).
Proof using.
  revert sc. induction ps as [|p ps IH]; intros sc; cbn [fold_left]; [repeat split; try done|].
  - intros. by apply not_elem_of_nil in H.
  - intros. by apply not_elem_of_nil in H.
  - destruct (IH (scan_step sc p)) as (H1 & H2 & H3 & H4). cbv zeta.
    assert (Hstep : sc_gen (scan_step sc p) = sc_gen sc /\ sc_hi sc <= sc_hi (scan_step sc p) /\
              (forall seq, data_seq p = Some seq -> seq <= sc_hi (scan_step sc p) /\ sc_user (scan_step sc p) = true) /\
              (sc_user sc = true -> sc_user (scan_step sc p) = true)).
    { unfold scan_step, data_seq. destruct (isLossMarker p); [by split; [|split; [cbn; lia|split]]|].
      destruct (parseSeqGen p) as [[seq g]|]; cbn; [|by split; [|split; [lia|split]]].
      split; [done|]. destruct (Z.ltb_spec (sc_hi sc) seq); (split; [lia|]; split; [|done]); intros ? [= <-]; (split; [lia|done]). }
    destruct Hstep as (S1 & S2 & S3 & S4). split; [congruence|]. split; [lia|]. split; [|auto].
    intros x seq Hx Hseq. apply elem_of_cons in Hx as [->|Hx]; [|by eapply H3].
    destruct (S3 _ Hseq) as [? ?]. split; [lia|auto].
Qed.

Lemma scan_sealed q :
  header_ok (q_hdr q) -> Forall (payload_ok m) (q_recs q) ->
  exists sc, scan_data (seg_bytes q, false) m = Ok sc /\ sc_gen sc = hd_Generation (q_hdr q) /\
    (forall p seq, p ∈ q_recs q -> data_seq p = Some seq -> seq <= sc_hi sc /\ sc_user sc = true).
Proof using Hm.
  intros Hh Hr. unfold scan_data, read_header, seg_bytes. cbn [fst]. rewrite header_read by done. cbn [map_err].
  rewrite <- (app_nil_r (frames (q_recs q))). rewrite (read_records_frames m _ [] EOF) by (auto using stops_nil).
  cbn [fst]. destruct (scan_steps (q_recs q) (mkScan 0 false (hd_Generation (q_hdr q)) false)) as (H1 & _ & H3 & _).
  eexists. split; [reflexivity|]. split; [exact H1|exact H3].
Qed.

(** The bytes of a file by its name. *)
Lemma open_read_spec {A} a mt w name data (k : Z -> list Z * bool -> M err A) Q R :
  (forall s ino, At m a mt w s -> names (dk s) !! name = Some ino -> data_of (dk s) ino = data) ->
  (forall s, At m a mt w s -> R s) ->
  (forall ino x, delivered data x -> triple (fun s => At m a mt w s /\ names (dk s) !! name = Some ino) (k ino x) Q R) ->
  triple (At m a mt w) (bind (fs_open name) (fun ino => bind (fs_read ino) (k ino))) Q R.
Proof using.
  intros Hd HR Hk. eapply triple_bind; [eapply triple_conseq; [apply open_spec|done|intros i s H; exact H|exact HR]|].
  intros ino s [Hs Hn]. unfold bind, fs_read. destruct (read_at ino 0 s) as (x & -> & Hx). rewrite drop_0, (Hd _ _ Hs Hn) in Hx.
  apply (Hk ino x Hx). split; [by apply At_tick|done].
Qed.

Lemma sealed_bytes a mt w q : q ∈ a_sealed a -> forall s ino, At m a mt w s -> names (dk s) !! segmentName (q_idx q) = Some ino ->
  data_of (dk s) ino = seg_bytes q.
Proof using.
  intros Hq s ino Hs Hn. pose proof (at_layout _ _ _ _ _ Hs) as Hl.
  rewrite (lookup_sealed _ _ _ _ _ Hl Hq) in Hn. injection Hn as <-. by eapply data_sealed.
Qed.

Lemma sealed_ok a mt w s q : At m a mt w s -> q ∈ a_sealed a -> header_ok (q_hdr q) /\ Forall (payload_ok m) (q_recs q).
Proof using.
  intros Hs Hq. pose proof (lay_sealed _ _ _ _ (at_layout _ _ _ _ _ Hs)) as H. rewrite Forall_forall in H. by destruct (H _ Hq).
Qed.

(** The scan saw every record, unless a read failed. *)
Definition covers_scan (q : sealed_seg) (sc : Scan) : Prop := unread \/
  sc_gen sc = hd_Generation (q_hdr q) /\
  (forall p seq, p ∈ q_recs q -> data_seq p = Some seq -> seq <= sc_hi sc /\ sc_user sc = true).

Lemma high_spec a mt w q : q ∈ a_sealed a ->
  triple (At m a mt w) (segmentHighSeqAndGen (segmentName (q_idx q)) m)
    (fun sc s => At m a mt w s /\ covers_scan q sc) (At m a mt w).
Proof using Hm.
  intros Hq. unfold segmentHighSeqAndGen. apply (open_read_spec _ _ _ _ (seg_bytes q)); [by apply sealed_bytes|done|].
  intros ino x Hx. apply triple_lift.
  - intros sc s E [Hs _]. split; [done|]. destruct Hx as [->|[Hu _]]; [right|by left].
    destruct (sealed_ok _ _ _ _ _ Hs Hq) as [Hh Hr]. destruct (scan_sealed q Hh Hr) as (sc' & E' & H1 & H2).
    rewrite E in E'. by injection E' as <-.
  - by intros e s _ [Hs _].
Qed.

(** *** Removal *)

Definition remove_seg (a : state) (l1 l2 : list sealed_seg) : state := mkState (l1 ++ l2) (a_live a) (a_content a).

Lemma remove_spec a mt w l1 q l2 : a_sealed a = l1 ++ q :: l2 ->
  triple (At m a mt w) (fs_remove (segmentName (q_idx q))) (fun _ s => At m (remove_seg a l1 l2) mt w s) (At m a mt w).
Proof using.
  intros Heq. apply triple_io.
  - intros s x d' Hs E. destruct (names (tick (dk s)) !! _) eqn:En; [|done]. injection E as _ <-.
    destruct Hs as [Hl Hh Hmt Hw]. split; [|done..]. rewrite Heq in Hl. apply (layout_remove m (tick (dk s))). by eapply layout_same.
  - intros s e Hs _. by apply At_tick.
  - intros s n Hs. by apply At_tick.
Qed.

Lemma sealed_log_app l1 l2 : sealed_log (l1 ++ l2) = sealed_log l1 ++ sealed_log l2.
Proof using. unfold sealed_log. by rewrite fmap_app, concat_app. Qed.

(** Records of a generation that an acknowledged position covers. *)
Definition acked_at (ack : option (Z * Z)) (y : Z * list Z) : Prop :=
  match ack with
  | Some (gen, hi) => match data_seq y.2 with Some seq => y.1 < gen \/ y.1 = gen /\ seq <= hi | None => True end
  | None => False
  end.

Definition ack_of (w : WAL) : option (Z * Z) := if ackPresent w then Some (ackHighGen w, ackHighSeq w) else None.

(** What reclaiming may remove: a failed read makes it take a file for acknowledged that is not. *)
Definition acked_by (w : WAL) (y : Z * list Z) : Prop := unread \/ acked_at (ack_of w) y.

Lemma acked_segment w q sc y : covers_scan q sc -> segmentFullyAcked w sc = true ->
  y ∈ with_gen (hd_Generation (q_hdr q)) (q_recs q) -> acked_by w y.
Proof using.
  intros [Hu|[Hg Hseq]] Ha Hy; [by left|right]. apply list_elem_of_fmap in Hy as (p & -> & Hp). unfold segmentFullyAcked in Ha.
  unfold acked_at, ack_of. destruct (ackPresent w) eqn:Hpres; [|done]. cbn [fst snd negb] in *.
  destruct (data_seq p) as [seq|] eqn:Ep; [|done]. destruct (Hseq _ _ Hp Ep) as [Hle Hu]. rewrite Hu in Ha. cbn [negb] in Ha.
  rewrite Hg in Ha. apply orb_true_iff in Ha as [Ha|Ha]; [left; lia|right; lia].
Qed.

Lemma evolves_remove (X : Z * list Z -> Prop) a l1 q l2 : a_sealed a = l1 ++ q :: l2 ->
  (forall y, y ∈ with_gen (hd_Generation (q_hdr q)) (q_recs q) -> X y) -> evolves X [] a (remove_seg a l1 l2).
Proof using.
  intros Heq HX. unfold evolves, sure_log, full_log, remove_seg. cbn [a_sealed a_content]. rewrite Heq, !sealed_log_app.
  assert (Hq : sealed_log (q :: l2) = with_gen (hd_Generation (q_hdr q)) (q_recs q) ++ sealed_log l2) by done. rewrite Hq. split.
  - intros y Hy. rewrite !elem_of_app in *. destruct Hy as [[Hy|[Hy|Hy]]|Hy]; auto.
  - rewrite app_nil_r. apply sublist_app; [|done]. apply sublist_app; [done|]. by apply sublist_inserts_l.
Qed.

(** *** Garbage collection *)

(** Only counters and the maps of generations differ. *)
Record same_core (w w' : WAL) : Prop := mkCore {
  core_opts : w_opts w' = w_opts w; core_max : maxRec w' = maxRec w; core_current : current w' = current w;
  core_closed : closed w' = closed w; core_fatal : fatalErr w' = fatalErr w; core_next : nextIndex w' = nextIndex w;
  core_seq : ackHighSeq w' = ackHighSeq w; core_gen : ackHighGen w' = ackHighGen w; core_ack : ackPresent w' = ackPresent w
}.

Lemma core_refl w : same_core w w.
Proof using. by split. Qed.
Lemma core_trans w1 w2 w3 : same_core w1 w2 -> same_core w2 w3 -> same_core w1 w3.
Proof using. intros [] []. split; congruence. Qed.
Lemma core_total w n : same_core w (add_total w n).
Proof using. by split. Qed.
Lemma core_maps w x y : same_core w (set_maps w x y).
Proof using. by split. Qed.

Lemma ack_core w w' : same_core w w' -> ack_of w' = ack_of w.
Proof using. intros [_ _ _ _ _ _ Hs Hg Hp]. unfold ack_of. by rewrite Hs, Hg, Hp. Qed.

Lemma acked_core w w' y : same_core w w' -> acked_by w' y -> acked_by w y.
Proof using. intros Hc. unfold acked_by. by rewrite (ack_core _ _ Hc). Qed.

Definition Reclaimed (X : Z * list Z -> Prop) (a : state) (mt : option Meta) (w : WAL) (s : sys) : Prop :=
  exists sealed' w', let a' := mkState sealed' (a_live a) (a_content a) in
    At m a' mt w' s /\ evolves X [] a a' /\ same_core w w' /\ sublist sealed' (a_sealed a).

Lemma reclaimed_refl X a mt w s : At m a mt w s -> Reclaimed X a mt w s.
Proof using. destruct a as [q l c]. intros Hs. exists q, w. split; [done|]. split; [apply evolves_refl|]. split; [apply core_refl|done]. Qed.

Lemma reclaimed_core X a mt w w' s : same_core w w' -> Reclaimed X a mt w' s -> Reclaimed X a mt w s.
Proof using. intros Hc (q & w2 & H1 & H2 & H3 & H4). exists q, w2. repeat (split; [done|]). split; [by eapply core_trans|done]. Qed.

Lemma reclaimed_trans (X : Z * list Z -> Prop) a l w w' mt s :
  let a1 := mkState l (a_live a) (a_content a) in
  evolves X [] a a1 -> sublist l (a_sealed a) -> same_core w w' -> Reclaimed X a1 mt w' s -> Reclaimed X a mt w s.
Proof using.
  intros a1 He Hs Hc (q & w2 & H1 & H2 & H3 & H4). exists q, w2. split; [exact H1|]. split.
  - pose proof (evolves_trans X [] [] _ _ _ He H2) as H. exact H.
  - split; [by eapply core_trans|by etrans].
Qed.

Lemma total_spec {F'} (st : result err Z) a mt w :
  triple (E:=F') (At m a mt w) (match st with Ok n => modify (fun w => add_total w (- n)) | Err _ => ret tt end)
    (fun _ s => exists w', At m a mt w' s /\ same_core w w') (fun _ => False).
Proof using.
  destruct st as [n|e].
  - eapply triple_conseq; [apply modify_spec|done| |done]. intros u s Hs. eexists. split; [exact Hs|apply core_total].
  - intros s Hs. exists w. split; [done|apply core_refl].
Qed.

Lemma prune_spec a mt w : triple (At m a mt w) prunePerGenMaps (fun _ s => exists w', At m a mt w' s /\ same_core w w') (fun _ => False).
Proof using.
  unfold prunePerGenMaps. eapply triple_bind; [eapply triple_attempt, readdir_spec|]. intros [ns|e].
  2: { intros s Hs. exists w. split; [done|apply core_refl]. }
  eapply (triple_bind _ _ _ (fun _ s => At m a mt w s)).
  - eapply (triple_conseq _ (At m a mt w) _ (fun _ s => At m a mt w s) _ (fun _ => False)); [|by intros s []|done|done].
    generalize (entries is_segment ns). intros es. induction es as [|e es IH]; cbn [surviving_gens].
    { apply triple_ret. auto. }
    eapply (triple_bind _ _ _ (fun _ s => At m a mt w s)).
    + unfold surviving_gen. eapply triple_bind; [eapply (triple_attempt _ (At m a mt w) (fun _ s => At m a mt w s) (At m a mt w))|intros r; apply triple_ret].
      * eapply (triple_bind _ _ _ (fun _ s => At m a mt w s)); [eapply triple_conseq; [apply open_spec|done|by intros ? s []|done]|]. intros ino.
        eapply triple_conseq; [apply (read_spec a mt w ino 0)|done|by intros ? s []|done].
      * intros s Hs. by destruct r.
    + intros g. eapply triple_bind; [exact IH|]. intros gs. apply triple_ret. auto.
  - intros gs. eapply triple_conseq; [apply modify_spec|done| |done]. intros u s Hs. eexists. split; [exact Hs|apply core_maps].
Qed.

(** Behind a removal: the directory is synced and the maps are pruned. *)
Lemma finish_spec X a mt w (removed : bool) :
  triple (Reclaimed X a mt w) (if removed then fs_syncdir ;; prunePerGenMaps else ret tt)
    (fun _ => Reclaimed X a mt w) (Reclaimed X a mt w).
Proof using.
  destruct removed; [|by apply triple_ret]. apply triple_exists. intros sealed'. apply triple_exists. intros w'.
  intros s (Hs & He & Hc & Hsub). set (a' := mkState sealed' (a_live a) (a_content a)) in *.
  assert (H : triple (At m a' mt w') (fs_syncdir ;; prunePerGenMaps) (fun _ s => exists w2, At m a' mt w2 s /\ same_core w' w2) (At m a' mt w')).
  { eapply triple_bind; [apply syncdir_spec|]. intros u. eapply triple_conseq; [apply prune_spec|done|done|done]. }
  specialize (H s Hs). destruct (bind _ _ s) as [[x|e] s'].
  - destruct H as (w2 & Hs' & Hc'). exists sealed', w2. split; [done|]. split; [done|]. split; [by eapply core_trans|done].
  - exists sealed', w'. done.
Qed.

Lemma remove_acked a mt w l1 q l2 sc (k : M err bool) (X := acked_by w) :
  a_sealed a = l1 ++ q :: l2 -> covers_scan q sc -> segmentFullyAcked w sc = true ->
  (forall w', same_core w w' -> triple (At m (remove_seg a l1 l2) mt w') k (fun _ => Reclaimed X a mt w) (Reclaimed X a mt w)) ->
  triple (At m a mt w)
    (st <- attempt (fs_stat_name (segmentName (q_idx q))) ;;
     fs_remove (segmentName (q_idx q)) ;;
     (match st with Ok n => modify (fun w => add_total w (- n)) | Err _ => ret tt end) ;; k)
    (fun _ => Reclaimed X a mt w) (Reclaimed X a mt w).
Proof using.
  intros Heq Hc Ha Hk. eapply triple_bind; [eapply triple_attempt, stat_name_spec|]. intros st.
  eapply triple_seq; [apply (remove_spec a mt w _ _ _ Heq)|by destruct st|apply reclaimed_refl|]. intros u.
  eapply triple_seq; [apply total_spec|done|done|].
  intros v. apply triple_exists. intros w' s [Hs Hc']. by apply (Hk w').
Qed.

Lemma gc_loop_spec qs : forall a mt w, a_sealed a = qs -> maxRec w = m ->
  triple (At m a mt w) (gc_loop (sealed_entries qs)) (fun _ => Reclaimed (acked_by w) a mt w) (Reclaimed (acked_by w) a mt w).
Proof using Hm.
  induction qs as [|q qs IH]; intros a mt w Heq Hmax; cbn [sealed_entries fmap list_fmap gc_loop].
  { apply triple_ret. intros s. apply reclaimed_refl. }
  eapply triple_bind; [eapply triple_conseq; [apply get_spec|done|intros ? s H; exact H|apply reclaimed_refl]|].
  intros w0. apply triple_pre. intros ->. rewrite Hmax.
  assert (Hq : q ∈ a_sealed a) by (rewrite Heq; left).
  eapply triple_bind; [eapply triple_conseq; [apply (high_spec a mt w _ Hq)|done|intros ? s H; exact H|apply reclaimed_refl]|].
  intros sc. apply triple_pre. intros Hc. destruct (segmentFullyAcked w sc) eqn:Ha; cbn [negb].
  2: { apply triple_ret. intros s. apply reclaimed_refl. }
  apply (remove_acked a mt w [] q qs sc); [done|done|done|]. intros w' Hcore.
  assert (He : evolves (acked_by w) [] a (remove_seg a [] qs)).
  { eapply evolves_remove; [exact Heq|]. intros y Hy. by eapply acked_segment. }
  assert (Hsub : sublist qs (a_sealed a)) by (rewrite Heq; by apply sublist_cons).
  eapply (triple_bind _ _ _ (fun _ => Reclaimed (acked_by w) a mt w)).
  - eapply triple_conseq; [apply (IH (remove_seg a [] qs) mt w' eq_refl)| |intros u|]; [by rewrite (core_max _ _ Hcore)|done|..].
    all: intros s (l & w2 & H1 & H2 & H3 & H4); apply (reclaimed_trans _ a qs w w'); [exact He|exact Hsub|exact Hcore|].
    all: exists l, w2; split; [exact H1|split; [|done]]; eapply evolves_weaken; [exact H2| |done]; intros y; by apply acked_core.
  - intros u. by apply triple_ret.
Qed.

Lemma gcAcked_spec a mt w : maxRec w = m ->
  triple (At m a mt w) gcAcked (fun _ => Reclaimed (acked_by w) a mt w) (Reclaimed (acked_by w) a mt w).
Proof using Hm.
  intros Hmax. unfold gcAcked. eapply triple_bind; [eapply triple_conseq; [apply get_spec|done|intros ? s H; exact H|apply reclaimed_refl]|].
  intros w0. apply triple_pre. intros ->. destruct (ackPresent w); cbn [negb]; [|apply triple_ret; intros s; apply reclaimed_refl].
  eapply triple_bind; [eapply triple_conseq; [apply readdir_spec|done|intros ? s H; exact H|apply reclaimed_refl]|].
  intros ns. apply triple_pre. intros (Hls & _). rewrite Hls.
  eapply triple_bind; [by apply gc_loop_spec|]. intros removed. apply finish_spec.
Qed.

End Ops.
End Ops.
Export Ops.
