(* ===== verification/WalAppend.v ===== *)
(** * Appending to the log

    The state between two operations, and what the operations that write do to the content of the
    directory, whatever operations of the file system fail. *)

From Stdlib Require Import ZArith Lia Ascii String Sorted.
From stdpp Require Import base list strings gmap sorting.
From S2P Require Import Prelude GoText GoStrings WalFrame Wal WalDir WalSteps.
Open Scope string_scope.
Open Scope list_scope.
Open Scope Z_scope.

(** ** States between operations *)
Module Between.

Definition indexes (a : state) : list Z := entry_idx <$> layout_entries (a_sealed a) (a_live a).
Definition bounded (n : Z) (a : state) : Prop := Forall (fun i => i < n) (indexes a).

(** The open segment is the live file, which holds complete records. *)
Record writes_to (seg : Segment) (l : live_seg) (c : content) : Prop := mkWrites {
  wr_index : sg_index seg = l_idx l; wr_gen : sg_gen seg = hd_Generation (c_hdr c); wr_path : sg_path seg = live_name (l_idx l);
  wr_ino : sg_ino seg = l_ino l; wr_buf : sg_buf seg = []; wr_failed : sg_failed seg = false; wr_open : sg_open seg = true;
  wr_closed : sg_closed seg = false;
  wr_data : f_data (l_file l) = header_bytes (c_hdr c) ++ frames (c_sure c ++ c_flight c);
  wr_bytes : sg_bytes seg = Z.of_nat (length (f_data (l_file l)))
}.

Definition has_current (a : state) (cur : option Segment) : Prop :=
  match cur with
  | None => a_live a = None
  | Some seg => exists l c, a_live a = Some l /\ a_content a = Some c /\ writes_to seg l c
  end.

(** Between operations none of which failed; [n] bounds the index of the next file. *)
Record Ready (m n : Z) (a : state) (w : WAL) : Prop := mkReady {
  rd_max : maxRec w = m;
  rd_closed : closed w = false;
  rd_fatal : fatalErr w = None;
  rd_current : has_current a (current w);
  rd_below : 0 <= nextIndex w <= n;
  rd_fresh : bounded (nextIndex w) a
}.

(** After a failure: the open segment, if any, has nothing to write, and what it may still sync is
    the live file. *)
Record Quiet (m n : Z) (a : state) (w : WAL) : Prop := mkQuiet {
  qt_max : maxRec w = m;
  qt_current : match current w with
    | None => True
    | Some seg => sg_buf seg = [] /\ (sg_open seg = true -> exists l, a_live a = Some l /\ sg_ino seg = l_ino l)
    end;
  qt_bounded : bounded n a
}.

Lemma bounded_le n n' a : bounded n a -> n <= n' -> bounded n' a.
Proof. intros H Hn. eapply Forall_impl; [exact H|]. cbn. lia. Qed.

Lemma ready_le m n n' a w : Ready m n a w -> n <= n' -> Ready m n' a w.
Proof. intros [] Hn. split; [done..|lia|done]. Qed.

Lemma ready_quiet m n a w : Ready m n a w -> Quiet m n a w.
Proof.
  intros [Hm Hc Hf Hcur Hb Hfr]. split; [done| |eapply bounded_le; [done|lia]].
  destruct (current w) as [seg|]; [|done]. destruct Hcur as (l & c & Hl & _ & []). split; [done|]. intros _. by exists l.
Qed.

Lemma quiet_le m n n' a w : Quiet m n a w -> n <= n' -> Quiet m n' a w.
Proof. intros [] Hn. split; [done..|by eapply bounded_le]. Qed.

Lemma indexes_sealed_live sealed l c : indexes (mkState sealed (Some l) c) = (q_idx <$> sealed) ++ [l_idx l].
Proof. unfold indexes, layout_entries. cbn [a_sealed a_live]. rewrite fmap_app, <- !list_fmap_compose. done. Qed.

Lemma indexes_sealed sealed c : indexes (mkState sealed None c) = q_idx <$> sealed.
Proof. unfold indexes, layout_entries. cbn [a_sealed a_live]. rewrite fmap_app, <- !list_fmap_compose. cbn. by rewrite app_nil_r. Qed.

(** *** Steps *)

Record keeps (w w' : WAL) : Prop := mkKeeps { kp_ack : ack_of w' = ack_of w; kp_opts : w_opts w' = w_opts w; kp_closed : closed w' = closed w }.

Lemma keeps_refl w : keeps w w.
Proof. by split. Qed.
Lemma keeps_trans w1 w2 w3 : keeps w1 w2 -> keeps w2 w3 -> keeps w1 w3.
Proof. intros [] []. split; congruence. Qed.
Lemma keeps_core w w' : same_core w w' -> keeps w w'.
Proof. intros H. split; [by apply ack_core|apply (core_opts _ _ H)|apply (core_closed _ _ H)]. Qed.
Lemma keeps_current w c : keeps w (set_current w c).
Proof. by split. Qed.

(** The log came from one state to another, writing the given records. *)
Definition Reach (m : Z) (X : Z * list Z -> Prop) (ps : list (Z * list Z)) (a : state) (mt : option Meta) (w : WAL)
  (P : state -> WAL -> Prop) (s : sys) : Prop :=
  exists a' w', At m a' mt w' s /\ evolves X ps a a' /\ keeps w w' /\ P a' w'.

Lemma reach_here m X a mt w (P : state -> WAL -> Prop) s : At m a mt w s -> P a w -> Reach m X [] a mt w P s.
Proof. intros Hs HP. exists a, w. split; [done|]. split; [apply evolves_refl|]. split; [apply keeps_refl|done]. Qed.

Lemma reach_weaken m (X Y : Z * list Z -> Prop) ps a mt w (P Q : state -> WAL -> Prop) s :
  Reach m X ps a mt w P s -> (forall y, X y -> Y y) -> (forall a' w', evolves X ps a a' -> keeps w w' -> P a' w' -> Q a' w') ->
  Reach m Y ps a mt w Q s.
Proof.
  intros (a' & w' & Hs & He & Hk & HP) HX HQ. exists a', w'. split; [done|]. split; [by eapply evolves_weaken|]. split; [done|auto].
Qed.

Lemma reach_trans m (X Y : Z * list Z -> Prop) ps qs a a' mt w w' (P : state -> WAL -> Prop) s :
  evolves X ps a a' -> keeps w w' -> (forall y, X y -> Y y) -> Reach m Y qs a' mt w' P s -> Reach m Y (ps ++ qs) a mt w P s.
Proof.
  intros He Hk HX (a2 & w2 & Hs & He2 & Hk2 & HP). exists a2, w2. split; [done|].
  split; [|split; [by eapply keeps_trans|done]]. eapply evolves_trans; [|exact He2]. by eapply evolves_weaken.
Qed.

(** *** Reading and changing the record of the log *)

Lemma bind_get {E A} m a mt w (k : WAL -> M E A) Q R : triple (At m a mt w) (k w) Q R -> triple (At m a mt w) (bind get k) Q R.
Proof. intros H s Hs. unfold bind, get. rewrite (at_wal _ _ _ _ _ Hs). by apply H. Qed.

Lemma bind_modify {E A} m a mt w f (k : unit -> M E A) Q R :
  triple (At m a mt (f w)) (k tt) Q R -> triple (At m a mt w) (bind (modify f) k) Q R.
Proof. intros H s [H1 H2 H3 H4]. unfold bind, modify. apply H. split; [done..|]. cbn. congruence. Qed.

Lemma modify_at {E} m a mt w f (Q : unit -> sys -> Prop) R :
  (forall s, At m a mt (f w) s -> Q tt s) -> triple (E:=E) (At m a mt w) (modify f) Q R.
Proof. intros H s [H1 H2 H3 H4]. unfold modify. apply H. split; [done..|]. cbn. congruence. Qed.

Lemma bind_current {E A} m a mt w seg (e : E) (k : Segment -> M E A) Q R : current w = Some seg ->
  triple (At m a mt w) (k seg) Q R -> triple (At m a mt w) (bind (cur_segment e) k) Q R.
Proof. intros Hc H s Hs. unfold bind at 1, cur_segment, bind, get. rewrite (at_wal _ _ _ _ _ Hs), Hc. by apply H. Qed.

End Between.
Export Between.

(** ** Writing a record *)
Module Writing.
Section Writing.
Context `{F : Faults} (m : Z) (Hm : max_ok m).

Definition with_buf (seg : Segment) (buf : list Z) (failed : bool) (bytes : Z) : Segment :=
  mkSegment (sg_index seg) (sg_gen seg) (sg_path seg) (sg_ino seg) buf failed (sg_open seg) bytes (sg_closed seg).

Definition buffered (seg : Segment) (p : list Z) : Segment :=
  with_buf seg (sg_buf seg ++ frame p) (sg_failed seg) (sg_bytes seg + 8 + Z.of_nat (length p)).

Lemma WriteRecord_ok p bs : WriteRecord p m = Ok bs -> Forall byte_range p -> bs = frame p /\ payload_ok m p.
Proof using Hm.
  intros E Hb. unfold WriteRecord, max_ok in *. destruct (Z.leb_spec m 0); [lia|]. destruct (Z.ltb_spec MaxFramedPayload m); [lia|].
  cbn [orb] in E. destruct p as [|x p]; [done|]. cbn [nonempty negb] in E.
  destruct (Z.ltb_spec m (Z.of_nat (length (x :: p)))); [done|]. injection E as <-.
  split; [done|]. split; [done|]. cbn [length] in *. lia.
Qed.

Lemma write_spec a mt w seg p : current w = Some seg -> maxRec w = m -> Forall byte_range p ->
  triple (At m a mt w) (Segment_WriteRecord p)
    (fun _ s => At m a mt (set_current w (Some (buffered seg p))) s /\ payload_ok m p) (At m a mt w).
Proof using Hm.
  intros Hcur Hmax Hb s Hs. pose proof (at_wal _ _ _ _ _ Hs) as Hw.
  unfold Segment_WriteRecord, cur_segment, bind, get. rewrite Hw, Hcur. cbn [ret].
  destruct (sg_closed seg) eqn:Ec; [exact Hs|]. unfold lift. rewrite Hw, Hmax.
  destruct (WriteRecord p m) as [bs|e] eqn:E; cbn [map_err]; [|exact Hs].
  destruct (WriteRecord_ok _ _ E Hb) as [-> Hp]. destruct (sg_failed seg) eqn:Ef; [exact Hs|].
  unfold put_segment, modify. split; [|done]. destruct Hs. split; cbn; [done..|]. unfold buffered, with_buf. by rewrite Hw, Ef, Ec.
Qed.

(** *** The live file *)

Definition with_file (l : live_seg) (f : file) : live_seg := mkLive (l_idx l) (l_ino l) f.

Lemma update_live a mt w s l g c : At m a mt w s -> a_live a = Some l -> holds m (Some (with_file l (g (l_file l)))) c ->
  At m (mkState (a_sealed a) (Some (with_file l (g (l_file l)))) c) mt w (mkSys (update_file (tick (dk s)) (l_ino l) g) (wl s)).
Proof using.
  intros [Hl Hh Hmt Hw] Hlive Hc. rewrite Hlive in Hl. split; [|done..]. cbn [a_sealed a_live dk]. apply layout_update. by eapply layout_same.
Qed.

Definition behind (c : content) (p : list Z) : content := mkContent (c_hdr c) (c_sure c) (c_flight c ++ [p]).
Definition settled (c : content) : content := mkContent (c_hdr c) (c_sure c ++ c_flight c) [].

Definition complete (l : live_seg) (c : content) : Prop := f_data (l_file l) = header_bytes (c_hdr c) ++ frames (c_sure c ++ c_flight c).

Lemma holds_behind l c p n : holds m (Some l) (Some c) -> complete l c -> payload_ok m p ->
  holds m (Some (with_file l (append_bytes (take n (frame p)) (l_file l)))) (Some (behind c p)).
Proof using.
  intros (H1 & H2 & H3 & _ & H5 & H6) Hd Hp. unfold holds, behind, with_file, append_bytes. cbn [l_file f_data f_durable c_hdr c_sure c_flight].
  split; [done|]. split; [done|]. split; [apply Forall_app; split; [done|by constructor]|]. split; [|split; [done|rewrite length_app; lia]].
  exists (length (frames (c_flight c)) + n)%nat. rewrite Hd, !frames_app, <- !app_assoc.
  rewrite take_app_add. do 3 f_equal. unfold frames. cbn. by rewrite app_nil_r.
Qed.

Lemma holds_settled l c : holds m (Some l) (Some c) -> complete l c -> holds m (Some (with_file l (synced (l_file l)))) (Some (settled c)).
Proof using.
  intros (H1 & H2 & H3 & _ & H5 & H6) Hd. unfold holds, settled, with_file, synced. cbn [l_file f_data f_durable c_hdr c_sure c_flight].
  split; [done|]. split; [by apply Forall_app; split|]. split; [constructor|]. split; [|split; [|done]].
  - exists O. rewrite Hd. by rewrite app_nil_r.
  - intros _. rewrite Hd, length_app, header_bytes_length. lia.
Qed.

Lemma holds_synced l c : holds m (Some l) c -> holds m (Some (with_file l (synced (l_file l)))) c.
Proof using.
  destruct c as [c|]; unfold holds, with_file, synced; cbn [l_file f_data f_durable]; [|lia]. intros (H1 & H2 & H3 & (n & H4) & H5 & H6). repeat (split; [done|]). split; [by exists n|].
  split; [|done]. intros _. rewrite H4, !length_app, header_bytes_length. lia.
Qed.

Lemma fs_write_spec a mt w l c p : a_live a = Some l -> a_content a = Some c -> complete l c -> payload_ok m p ->
  triple (At m a mt w) (fs_write (l_ino l) (frame p))
    (fun _ s => At m (mkState (a_sealed a) (Some (with_file l (append_bytes (frame p) (l_file l)))) (Some (behind c p))) mt w s)
    (fun s => exists n, At m (mkState (a_sealed a) (Some (with_file l (append_bytes (take n (frame p)) (l_file l)))) (Some (behind c p))) mt w s).
Proof using.
  intros Hl Hc Hd Hp. apply triple_io.
  - intros s x d' Hs [= _ <-]. apply update_live; [done|done|]. rewrite <- (firstn_all (frame p)).
    apply holds_behind; [|done|done]. rewrite <- Hl, <- Hc. apply (at_holds _ _ _ _ _ Hs).
  - intros s e Hs E. done.
  - intros s n Hs. exists n. apply update_live; [done|done|].
    apply holds_behind; [|done|done]. rewrite <- Hl, <- Hc. apply (at_holds _ _ _ _ _ Hs).
Qed.

Lemma fs_sync_spec a mt w l c' : a_live a = Some l ->
  (holds m (Some l) (a_content a) -> holds m (Some (with_file l (synced (l_file l)))) c') ->
  triple (At m a mt w) (fs_sync (l_ino l))
    (fun _ s => At m (mkState (a_sealed a) (Some (with_file l (synced (l_file l)))) c') mt w s) (At m a mt w).
Proof using.
  intros Hl Hh. apply triple_io.
  - intros s x d' Hs [= _ <-]. apply update_live; [done|done|]. apply Hh. rewrite <- Hl. apply (at_holds _ _ _ _ _ Hs).
  - intros s e Hs E. done.
  - intros s n Hs. by apply At_tick.
Qed.

(** *** Flush and sync of one record *)

Definition live_log (c : content) : list (Z * list Z) := with_gen (hd_Generation (c_hdr c)) (c_sure c ++ c_flight c).

Lemma evolves_behind a l l' c p : a_live a = Some l -> a_content a = Some c ->
  evolves nothing [(hd_Generation (c_hdr c), p)] a (mkState (a_sealed a) (Some l') (Some (behind c p))).
Proof using.
  intros Hl Hc. unfold evolves, sure_log, full_log, behind. cbn [a_sealed a_content c_hdr c_sure c_flight]. rewrite Hc. split; [auto|].
  rewrite <- !app_assoc. apply sublist_app; [done|]. unfold with_gen. rewrite app_assoc, (fmap_app _ (c_sure c ++ c_flight c)). done.
Qed.

Lemma evolves_settled X a l' c : a_content a = Some c -> evolves X [] a (mkState (a_sealed a) (Some l') (Some (settled c))).
Proof using.
  intros Hc. unfold evolves, sure_log, full_log, settled. cbn [a_sealed a_content c_hdr c_sure c_flight]. rewrite Hc. split.
  - intros y Hy. left. rewrite elem_of_app in *. destruct Hy as [Hy|Hy]; [auto|]. right. unfold with_gen in *. rewrite fmap_app, elem_of_app. auto.
  - by rewrite !app_nil_r.
Qed.

(** What is on stable storage of the live file. *)
Definition live_sure (a : state) : list (Z * list Z) :=
  match a_content a with Some c => with_gen (hd_Generation (c_hdr c)) (c_sure c) | None => [] end.

Lemma live_sure_log a x : x ∈ live_sure a -> x ∈ sure_log a.
Proof using. intros H. apply elem_of_app. by right. Qed.

(** Only the live file changed, and it keeps what it had. *)
Definition grows (a a' : state) : Prop := a_sealed a' = a_sealed a /\ live_sure a ⊆ live_sure a'.

Lemma grows_refl a : grows a a.
Proof using. done. Qed.
Lemma grows_trans a b c : grows a b -> grows b c -> grows a c.
Proof using. intros [H1 H2] [H3 H4]. split; [congruence|]. by etrans. Qed.

Lemma grows_behind a l c p : a_content a = Some c -> grows a (mkState (a_sealed a) l (Some (behind c p))).
Proof using. intros Hc. split; [done|]. unfold live_sure. rewrite Hc. done. Qed.

Lemma grows_settled a l c : a_content a = Some c -> grows a (mkState (a_sealed a) l (Some (settled c))).
Proof using.
  intros Hc. split; [done|]. unfold live_sure, settled, with_gen. cbn [a_content c_hdr c_sure]. rewrite Hc, fmap_app.
  intros x Hx. apply elem_of_app. by left.
Qed.

Lemma sure_settled_last sealed l c p : (hd_Generation (c_hdr c), p) ∈ live_sure (mkState sealed l (Some (settled (behind c p)))).
Proof using.
  unfold live_sure, settled, behind. cbn [a_sealed a_content c_hdr c_sure c_flight].
  unfold with_gen. apply list_elem_of_fmap. exists p. split; [done|]. rewrite !elem_of_app. do 2 right. by left.
Qed.

Lemma frame_nonempty p : nonempty (frame p) = true.
Proof using. pose proof (frame_length p). by destruct (frame p). Qed.

(** The segment behind the write. *)
Definition advanced (seg : Segment) (p : list Z) (failed : bool) : Segment :=
  with_buf seg [] failed (sg_bytes seg + 8 + Z.of_nat (length p)).

Lemma flush_spec a mt w seg l c p : a_live a = Some l -> a_content a = Some c -> writes_to seg l c -> payload_ok m p ->
  triple (At m a mt (set_current w (Some (buffered seg p)))) Flush
    (fun _ s => At m (mkState (a_sealed a) (Some (with_file l (append_bytes (frame p) (l_file l)))) (Some (behind c p))) mt
                  (set_current w (Some (advanced seg p false))) s)
    (fun s => exists n, At m (mkState (a_sealed a) (Some (with_file l (append_bytes (take n (frame p)) (l_file l)))) (Some (behind c p))) mt
                  (set_current w (Some (advanced seg p true))) s).
Proof using.
  intros Hl Hc Hw Hp s Hs. set (w1 := set_current w _) in *. pose proof (at_wal _ _ _ _ _ Hs) as Ew.
  pose proof (fs_write_spec a mt w1 l c p Hl Hc (wr_data _ _ _ Hw) Hp s Hs) as H.
  unfold Flush, cur_segment, bind, get. rewrite Ew. cbn [current set_current w1 ret]. cbn [buffered with_buf sg_failed sg_buf sg_ino].
  rewrite (wr_failed _ _ _ Hw), (wr_buf _ _ _ Hw), app_nil_l, frame_nonempty, (wr_ino _ _ _ Hw). cbn [negb]. unfold attempt.
  destruct (fs_write (l_ino l) (frame p) s) as [[x|e] s']; unfold put_segment, modify, lift.
  - destruct H as [H1 H2 H3 H4]. split; [done..|]. cbn [wl]. rewrite H4. unfold advanced, with_buf. by rewrite (wr_ino _ _ _ Hw).
  - destruct H as [n [H1 H2 H3 H4]]. exists n. split; [done..|]. cbn [wl]. rewrite H4. unfold advanced, with_buf. by rewrite (wr_ino _ _ _ Hw).
Qed.

Lemma indexes_with_file a l f c : a_live a = Some l -> indexes (mkState (a_sealed a) (Some (with_file l f)) c) = indexes a.
Proof using. intros Hl. unfold indexes, layout_entries. cbn [a_sealed a_live]. by rewrite Hl. Qed.

Lemma ready_live n a w l f c' seg' : Ready m n a w -> a_live a = Some l -> writes_to seg' (with_file l f) c' ->
  Ready m n (mkState (a_sealed a) (Some (with_file l f)) (Some c')) (set_current w (Some seg')).
Proof using.
  intros [] Hl Hw. split; [done..| |done|].
  - exists (with_file l f), c'. done.
  - unfold bounded. cbn [nextIndex set_current]. rewrite indexes_with_file by done. done.
Qed.

Lemma quiet_live n a w l f c' seg' : Ready m n a w -> a_live a = Some l -> sg_buf seg' = [] -> sg_ino seg' = l_ino l ->
  Quiet m n (mkState (a_sealed a) (Some (with_file l f)) c') (set_current w (Some seg')).
Proof using.
  intros [] Hl Hb Hi. split; [done| |].
  - split; [done|]. intros _. by exists (with_file l f).
  - unfold bounded. rewrite indexes_with_file by done. eapply bounded_le; [done|lia].
Qed.

Lemma writes_advanced seg l c p : writes_to seg l c ->
  writes_to (advanced seg p false) (with_file l (synced (append_bytes (frame p) (l_file l)))) (settled (behind c p)).
Proof using.
  intros []. split; cbn [advanced with_buf sg_index sg_gen sg_path sg_ino sg_buf sg_failed sg_open sg_bytes sg_closed with_file l_idx l_ino l_file
    synced append_bytes f_data settled behind c_hdr c_sure c_flight]; try done.
  - rewrite wr_data0, app_nil_r, !frames_app, <- !app_assoc. do 4 f_equal. unfold frames. cbn. by rewrite app_nil_r.
  - rewrite length_app, frame_length. lia.
Qed.

(** The segment a record is written to. *)
Definition in_segment (gen : Z) (w : WAL) : Prop := exists seg, current w = Some seg /\ sg_gen seg = gen.

Definition Wrote (n gen : Z) (p : list Z) (a : state) (w : WAL) : Prop := Ready m n a w /\ (gen, p) ∈ live_sure a /\ in_segment gen w.

Lemma sync_spec n a mt w seg p : Ready m n a w -> current w = Some seg -> payload_ok m p ->
  triple (At m a mt (set_current w (Some (buffered seg p)))) Segment_Sync
    (fun _ => Reach m nothing [(sg_gen seg, p)] a mt w (fun a' w' => Wrote n (sg_gen seg) p a' w' /\ grows a a')) (Reach m nothing [(sg_gen seg, p)] a mt w (fun a' w' => Quiet m n a' w' /\ grows a a')).
Proof using.
  intros Hr Hcur Hp s Hs. pose proof (rd_current _ _ _ _ Hr) as Hc. rewrite Hcur in Hc. destruct Hc as (l & c & Hl & Hc & Hw).
  pose proof (at_wal _ _ _ _ _ Hs) as Ew. unfold Segment_Sync, cur_segment, bind at 1 2, get at 1. rewrite Ew.
  cbn [current set_current ret buffered with_buf sg_closed sg_open sg_ino]. rewrite (wr_closed _ _ _ Hw), (wr_open _ _ _ Hw), (wr_ino _ _ _ Hw).
  set (l1 := with_file l (append_bytes (frame p) (l_file l))).
  pose proof (evolves_behind a l l1 c p Hl Hc) as He. rewrite <- (wr_gen _ _ _ Hw) in He.
  set (a1 := mkState (a_sealed a) (Some l1) (Some (behind c p))) in *.
  revert s Hs Ew. enough (H : triple (At m a mt (set_current w (Some (buffered seg p)))) (Flush ;; fs_sync (l_ino l))
    (fun _ => Reach m nothing [(sg_gen seg, p)] a mt w (fun a' w' => Wrote n (sg_gen seg) p a' w' /\ grows a a')) (Reach m nothing [(sg_gen seg, p)] a mt w (fun a' w' => Quiet m n a' w' /\ grows a a'))) by (intros; by apply H).
  eapply triple_seq; [apply (flush_spec a mt w seg l c p Hl Hc Hw Hp)|done| |].
  - intros s [k Hs]. eexists _, _. split; [exact Hs|]. split; [rewrite (wr_gen _ _ _ Hw); by eapply evolves_behind|].
    split; [apply keeps_current|]. split; [|by apply grows_behind]. apply (quiet_live n a w l); [done|done|done|apply Hw].
  - intros u. eapply triple_conseq; [apply (fs_sync_spec a1 mt (set_current w (Some (advanced seg p false))) l1 (Some (settled (behind c p)))); [done|]|done| |].
    + intros Hh. apply holds_settled; [exact Hh|]. unfold complete, l1, behind.
      cbn [with_file l_file append_bytes f_data c_hdr c_sure c_flight]. rewrite (wr_data _ _ _ Hw), !frames_app, <- !app_assoc.
      do 4 f_equal. unfold frames. cbn. by rewrite app_nil_r.
    + intros v s Hs. eexists _, _. split; [exact Hs|]. split.
      * apply (evolves_trans nothing [(sg_gen seg, p)] [] _ a1); [done|]. by apply evolves_settled.
      * split; [apply keeps_current|]. split; [|eapply grows_trans; [by apply (grows_behind a (Some l1) c p)|by apply grows_settled]].
        split; [apply (ready_live n a w l); [done|done|by apply writes_advanced]|].
        split; [rewrite (wr_gen _ _ _ Hw); apply sure_settled_last|]. by exists (advanced seg p false).
    + intros s Hs. eexists _, _. split; [exact Hs|]. split; [done|]. split; [apply keeps_current|].
      split; [|by apply grows_behind]. apply (quiet_live n a w l); [done|done|done|apply Hw].
Qed.

End Writing.
End Writing.
Export Writing.

(** ** Opening a segment *)
Module Opening.
Section Opening.
Context `{F : Faults} (m : Z) (Hm : max_ok m).

Definition blank (c : option content) : Prop := match c with Some c => c_sure c = [] /\ c_flight c = [] | None => True end.

(** A file was created behind the others; it holds no record. *)
Definition Created (a : state) (mt : option Meta) (w : WAL) (i : Z) (s : sys) : Prop :=
  exists l c, l_idx l = i /\ blank c /\ At m (mkState (a_sealed a) (Some l) c) mt w s.

(** Or it was removed again. *)
Definition Undone (a : state) (mt : option Meta) (w : WAL) (i : Z) (s : sys) : Prop :=
  exists live c, match live with Some l => l_idx l = i | None => True end /\ blank c /\ At m (mkState (a_sealed a) live c) mt w s.

Lemma created_undone a mt w i s : Created a mt w i s -> Undone a mt w i s.
Proof using. intros (l & c & Hi & Hc & Hs). by exists (Some l), c. Qed.

Lemma evolves_blank X a live c : a_live a = None -> holds m (a_live a) (a_content a) -> blank c ->
  evolves X [] a (mkState (a_sealed a) live c).
Proof using.
  intros Hl Hh Hc. assert (Ha : a_content a = None) by (rewrite Hl in Hh; by destruct (a_content a)).
  apply evolves_same; unfold sure_log, full_log; cbn [a_sealed a_content]; rewrite Ha; destruct c as [c|]; cbn [blank] in Hc; try done;
    destruct Hc as [Hc1 Hc2]; rewrite ?Hc1, ?Hc2; done.
Qed.

Lemma undo_spec a mt w i :
  triple (E:=err) (Created a mt w i) (ignore fs_close ;; ignore (fs_remove (live_name i))) (fun _ => Undone a mt w i) (Undone a mt w i).
Proof using.
  apply triple_exists. intros l. apply triple_exists. intros c s (Hi & Hc & Hs). set (a1 := mkState _ _ _) in *. revert s Hs.
  change (triple (E:=err) (At m a1 mt w) (ignore fs_close ;; ignore (fs_remove (live_name i))) (fun _ => Undone a mt w i) (Undone a mt w i)).
  eapply triple_bind; [eapply (triple_ignore _ _ _ _ (fun _ => At m a1 mt w)); [apply close_spec|done|done]|]. intros u.
  eapply (triple_ignore _ _ (fun _ => Undone a mt w i) (Undone a mt w i)); [|done|done].
  apply triple_io.
  - intros s x d' Hs E. destruct (names (tick (dk s)) !! live_name i) as [j|] eqn:En; [|done]. injection E as _ <-.
    exists None, None. split; [done|]. split; [done|]. destruct Hs as [Hl Hh Hmt Hw]. split; [|done..]. subst i. cbn [a_sealed a_live dk].
    apply (layout_remove_live m (tick (dk s))). by eapply layout_same.
  - intros s e Hs _. exists (Some l), c. split; [done|]. split; [done|]. by apply At_tick.
  - intros s n Hs. exists (Some l), c. split; [done|]. split; [done|]. by apply At_tick.
Qed.

(** *** The header *)

Lemma header_prefix l hdr n : header_ok hdr -> f_data (l_file l) = take n (header_bytes hdr) ->
  (f_durable (l_file l) <= length (f_data (l_file l)))%nat ->
  exists c, blank c /\ holds m (Some l) c.
Proof using.
  intros Hh Hd Hdur. destruct (Nat.le_gt_cases 16 n) as [Hn|Hn].
  - exists (Some (mkContent hdr [] [])). split; [done|]. cbn [holds c_hdr c_sure c_flight]. split; [done|]. split; [constructor|]. split; [constructor|].
    split; [|done]. exists O. rewrite Hd, firstn_all2 by (rewrite header_bytes_length; lia). by rewrite app_nil_r.
  - exists None. split; [done|]. cbn [holds]. split; [done|]. rewrite Hd, length_take, header_bytes_length. lia.
Qed.

Lemma header_write_spec sealed mt w l hdr c :
  header_ok hdr -> l_file l = mkFile [] 0 -> blank c ->
  triple (At m (mkState sealed (Some l) c) mt w) (fs_write (l_ino l) (header_bytes hdr))
    (fun _ s => At m (mkState sealed (Some (with_file l (mkFile (header_bytes hdr) 0))) (Some (mkContent hdr [] []))) mt w s)
    (fun s => exists f c, blank c /\ At m (mkState sealed (Some (with_file l f)) c) mt w s).
Proof using.
  intros Hh Hf Hc. set (a := mkState sealed (Some l) c). apply triple_io; [|done|].
  - intros s x d' Hs [= _ <-].
    apply (update_live m a mt w s l (append_bytes (header_bytes hdr)) (Some (mkContent hdr [] []))) in Hs; [|done|].
    + rewrite Hf in Hs. exact Hs.
    + rewrite Hf. cbn [append_bytes f_data f_durable app with_file holds l_file c_hdr c_sure c_flight]. split; [done|]. split; [constructor|].
      split; [constructor|]. split; [|split; [done|lia]]. exists O. by rewrite app_nil_r.
  - intros s n Hs. set (f := append_bytes (take n (header_bytes hdr)) (l_file l)).
    destruct (header_prefix (with_file l f) hdr n) as (c' & Hc' & Hh'); [done| | |].
    + unfold f. by rewrite Hf.
    + unfold f. rewrite Hf. cbn. lia.
    + exists f, c'. split; [done|]. by apply (update_live m a mt w s l (append_bytes (take n (header_bytes hdr))) c').
Qed.

(** *** The whole operation *)

Lemma undone_here a mt w i s : a_live a = None -> At m a mt w s -> Undone a mt w i s.
Proof using.
  intros Hl Hs. pose proof (at_holds _ _ _ _ _ Hs) as Hh. rewrite Hl in Hh. destruct a as [q live c]. cbn in *. subst live.
  exists None, c. split; [done|]. split; [by destruct c|done].
Qed.

Lemma create_spec a mt w i : a_live a = None -> index_ok i -> Forall (fun q => q_idx q < i) (a_sealed a) ->
  triple (At m a mt w) (fs_create (live_name i))
    (fun ino s => At m (mkState (a_sealed a) (Some (mkLive i ino (mkFile [] 0))) None) mt w s) (At m a mt w).
Proof using.
  intros Hl Hi Hfr. apply triple_io.
  - intros s ino d' Hs E. destruct (names (tick (dk s)) !! live_name i); [done|]. injection E as <- <-.
    destruct Hs as [Hlay Hh Hmt Hw]. rewrite Hl in Hlay. split; [|cbn; lia|done..]. cbn [a_sealed a_live dk].
    apply (layout_create m (tick (dk s))); [by eapply layout_same|done|done].
  - intros s e Hs _. by apply At_tick.
  - intros s n Hs. by apply At_tick.
Qed.

Lemma cleanup_created {A} a mt w i (op : M err A) (P : sys -> Prop) (Q : A -> sys -> Prop) :
  triple P op Q (Created a mt w i) ->
  triple P (cleanup_on op (ignore fs_close ;; ignore (fs_remove (live_name i)))) Q (Undone a mt w i).
Proof using. intros H. eapply triple_cleanup; [exact H|apply undo_spec]. Qed.

Definition opened (i ino : Z) (hdr : SegmentHeader) : Segment :=
  mkSegment i (hd_Generation hdr) (live_name i) ino [] false true SegmentHeaderSize false.

Lemma OpenSegment_spec a mt w i hdr : a_live a = None -> index_ok i -> Forall (fun q => q_idx q < i) (a_sealed a) -> header_ok hdr ->
  triple (At m a mt w) (OpenSegment i hdr m)
    (fun seg s => exists l c, At m (mkState (a_sealed a) (Some l) (Some c)) mt w s /\ writes_to seg l c /\ l_idx l = i /\ c = mkContent hdr [] [])
    (Undone a mt w i).
Proof using Hm.
  intros Hl Hi Hfr Hh. unfold OpenSegment.
  replace (validateMaxRecordBytes m) with (Ok (E:=err) tt).
  2: { unfold validateMaxRecordBytes, max_ok in *. destruct (Z.leb_spec m 0); [lia|]. by destruct (Z.ltb_spec MaxFramedPayload m); [lia|]. }
  eapply (triple_bind _ _ _ (fun _ => At m a mt w)); [by apply triple_lift|]. intros _.
  eapply triple_seq; [apply (create_spec a mt w i Hl Hi Hfr)|done|intros s; by apply undone_here|]. intros ino.
  rewrite header_write by done. set (l0 := mkLive i ino (mkFile [] 0)). set (l1 := with_file l0 (mkFile (header_bytes hdr) 0)).
  set (c1 := mkContent hdr [] []).
  eapply (triple_bind _ _ _ (fun bs s => At m (mkState (a_sealed a) (Some l0) None) mt w s /\ bs = header_bytes hdr)).
  { apply cleanup_created. apply triple_lift; [by intros bs s [= <-]|done]. }
  intros bs. apply triple_pre. intros ->.
  eapply (triple_bind _ _ _ (fun _ s => At m (mkState (a_sealed a) (Some l1) (Some c1)) mt w s)).
  { apply cleanup_created. eapply triple_conseq; [apply (header_write_spec (a_sealed a) mt w l0 hdr None); done|done|done|].
    intros s (f & c & Hc & Hs). by exists (with_file l0 f), c. }
  intros u. set (l2 := with_file l1 (synced (l_file l1))).
  eapply (triple_bind _ _ _ (fun _ s => At m (mkState (a_sealed a) (Some l2) (Some c1)) mt w s)).
  { apply cleanup_created. eapply triple_conseq; [apply (fs_sync_spec m (mkState (a_sealed a) (Some l1) (Some c1)) mt w l1 (Some c1)); [done|apply holds_synced]|done|done|].
    intros s Hs. by exists l1, (Some c1). }
  intros u2. eapply (triple_bind _ _ _ (fun _ s => At m (mkState (a_sealed a) (Some l2) (Some c1)) mt w s)).
  { apply cleanup_created. eapply triple_conseq; [apply syncdir_spec|done|done|]. intros s Hs. by exists l2, (Some c1). }
  intros u3. apply triple_ret. intros s Hs. exists l2, c1. split; [done|]. split; [|done].
  by split.
Qed.

Definition header_for (gen flags : Z) : SegmentHeader := mkHeader SegmentVersion flags gen.

Lemma openNew_spec n a mt w gen flags : Ready m n a w -> current w = None -> n < 2 ^ 64 - 1 -> header_ok (header_for gen flags) ->
  triple (At m a mt w) (openNewSegment gen flags)
    (fun _ => Reach m nothing [] a mt w (fun a' w' => Ready m (n + 1) a' w' /\ in_segment gen w' /\ grows a a'))
    (Reach m nothing [] a mt w (fun a' w' => Quiet m (n + 1) a' w' /\ grows a a')).
Proof using Hm.
  intros [Hmax Hcl Hfa Hcur Hbel Hfr] Hnone Hn Hh. rewrite Hnone in Hcur. cbn [has_current] in Hcur.
  assert (Hsealed : Forall (fun q => q_idx q < nextIndex w) (a_sealed a)).
  { destruct a as [q live c]. cbn in Hcur. subst live. unfold bounded in Hfr. rewrite indexes_sealed, Forall_fmap in Hfr. exact Hfr. }
  unfold openNewSegment. apply bind_get, bind_modify. rewrite Hmax. set (w1 := set_next w _).
  assert (Hw1 : nextIndex w1 = nextIndex w + 1) by (unfold w1, wrap_uint64; cbn; rewrite Z.mod_small; lia).
  assert (Hk : keeps w w1) by done.
  apply (triple_fact _ _ _ _ _ (fun s Hs => at_holds _ _ _ _ _ Hs)). intros Hh0.
  assert (Hg : forall live c, grows a (mkState (a_sealed a) live c)).
  { intros live c. split; [done|]. rewrite Hcur in Hh0. unfold live_sure. destruct (a_content a); [done|]. intros x Hx. by apply not_elem_of_nil in Hx. }
  eapply triple_seq; [apply (OpenSegment_spec a mt w1 (nextIndex w)); [done|unfold index_ok; lia|done|done]|done| |].
  - intros s (live & c & Hi & Hc & Hs). eexists _, _. split; [exact Hs|]. split; [by apply evolves_blank|]. split; [done|].
    split; [|by apply Hg]. split; [done|by cbn; rewrite Hnone|]. destruct live as [l|]; unfold bounded; rewrite ?indexes_sealed_live, ?indexes_sealed, ?Forall_app, Forall_fmap.
    + split; [|constructor; [lia|constructor]]. eapply Forall_impl; [exact Hsealed|]. cbn. lia.
    + eapply Forall_impl; [exact Hsealed|]. cbn. lia.
  - intros seg. apply triple_exists. intros l. apply triple_exists. intros c s (Hs & Hw & Hi & ->).
    unfold put_segment, modify. destruct Hs as [H1 H2 H3 H4]. exists (mkState (a_sealed a) (Some l) (Some (mkContent (header_for gen flags) [] []))),
      (set_current w1 (Some seg)).
    split; [split; [done..|]; cbn [wl]; by rewrite H4|]. split; [by apply evolves_blank|]. split; [done|]. split; [|split; [exists seg; split; [done|apply Hw]|apply Hg]].
    split; [done..| | |].
    + eexists _, _. done.
    + cbn [set_current nextIndex]. lia.
    + cbn [set_current nextIndex]. rewrite Hw1. unfold bounded. rewrite indexes_sealed_live, Forall_app, Forall_fmap.
      split; [|constructor; [lia|constructor]]. eapply Forall_impl; [exact Hsealed|]. cbn. lia.
Qed.

End Opening.
End Opening.
Export Opening.

(** ** Sealing *)
Module Sealing.
Section Sealing.
Context `{F : Faults} (m : Z) (Hm : max_ok m).

Lemma truncate_spec a mt w l c n : a_live a = Some l -> l_file l = synced (l_file l) -> n = Z.of_nat (length (f_data (l_file l))) ->
  a_content a = c -> triple (At m a mt w) (fs_truncate (l_ino l) n) (fun _ => At m a mt w) (At m a mt w).
Proof using.
  intros Hl Hs -> <-. unfold fs_truncate. rewrite Nat2Z.id.
  assert (Hcut : with_file l (cut (length (f_data (l_file l))) (l_file l)) = l).
  { destruct l as [i ino [d k]]. cbn in *. injection Hs as ->. unfold with_file, cut. cbn. by rewrite firstn_all, Nat.min_id. }
  assert (Ha : forall live, a_live a = Some live -> mkState (a_sealed a) (Some live) (a_content a) = a) by (intros; destruct a; cbn in *; congruence).
  apply triple_io; [|done|].
  - intros s x d' H [= _ <-]. pose proof (update_live m a mt w s l (cut (length (f_data (l_file l)))) (a_content a) H Hl) as Hu.
    rewrite Hcut, (Ha l Hl) in Hu. apply Hu. rewrite <- Hl. apply (at_holds _ _ _ _ _ H).
  - intros s k H. by apply At_tick.
Qed.

(** The file of the segment behind its sync. *)
Definition settled_state (a : state) (l : live_seg) (c : content) : state :=
  mkState (a_sealed a) (Some (with_file l (synced (l_file l)))) (Some (settled c)).

Definition sealed_state (a : state) (l : live_seg) (c : content) : state :=
  mkState (a_sealed a ++ [mkSealed (l_idx l) (l_ino l) (c_hdr c) (c_sure c ++ c_flight c)]) None None.

Lemma rename_spec a mt w l c : a_live a = Some l -> a_content a = Some c -> complete l c -> 
  let a1 := settled_state a l c in
  triple (At m a1 mt w) (fs_rename (live_name (l_idx l)) (segmentName (l_idx l)))
    (fun _ => At m (sealed_state a l c) mt w) (At m a1 mt w).
Proof using.
  intros Hl Hc Hd a1. apply triple_io.
  - intros s x d' Hs E. destruct Hs as [Hlay Hh Hmt Hw]. set (l1 := with_file l (synced (l_file l))) in *.
    cbn [a1 settled_state a_sealed a_live] in Hlay.
    assert (Hlk : names (tick (dk s)) !! live_name (l_idx l) = Some (l_ino l)) by exact (lookup_live _ _ _ _ Hlay).
    rewrite Hlk in E. injection E as _ <-. split; [|done..]. cbn [sealed_state a_sealed a_live dk].
    destruct Hh as (H1 & H2 & _). apply (layout_rename m (tick (dk s)) (a_sealed a) l1); [by eapply layout_same|done|done|].
    unfold seg_file, seg_bytes, l1, synced. cbn [with_file l_file q_hdr q_recs]. unfold complete in Hd. by rewrite Hd.
  - intros s e Hs _. by apply At_tick.
  - intros s n Hs. by apply At_tick.
Qed.

Lemma evolves_sealed X a l c : a_content a = Some c -> evolves X [] a (sealed_state a l c).
Proof using.
  intros Hc. unfold evolves, sure_log, full_log, sealed_state. cbn [a_sealed a_content]. rewrite Hc, sealed_log_app, !app_nil_r. cbn [sealed_log fmap list_fmap concat q_hdr q_recs].
  split.
  - intros y Hy. left. rewrite elem_of_app in *. destruct Hy as [Hy|Hy]; [auto|]. right. unfold with_gen in *. unfold sealed_log. cbn.
    rewrite app_nil_r. unfold with_gen. rewrite fmap_app, elem_of_app. auto.
  - unfold sealed_log. cbn. by rewrite app_nil_r.
Qed.

Lemma flush_empty {A} a mt w seg (k : M err A) Q R : current w = Some seg -> sg_failed seg = false -> sg_buf seg = [] ->
  triple (At m a mt w) k Q R -> triple (At m a mt w) (Flush ;; k) Q R.
Proof using.
  intros Hc Hf Hb H s Hs. unfold Flush, cur_segment, bind, get. rewrite (at_wal _ _ _ _ _ Hs), Hc. cbn [ret].
  rewrite Hf, Hb. by apply H.
Qed.

Lemma quiet_file n a w l f c : Ready m n a w -> a_live a = Some l -> Quiet m n (mkState (a_sealed a) (Some (with_file l f)) c) w.
Proof using.
  intros Hr Hl. pose proof (ready_quiet _ _ _ _ Hr) as [H1 H2 H3]. split; [done| |].
  - destruct (current w) as [seg|]; [|done]. destruct H2 as [Hb Ho]. split; [done|]. intros E. destruct (Ho E) as (l' & Hl' & Hi).
    exists (with_file l f). split; [done|]. rewrite Hl in Hl'. by injection Hl' as <-.
  - unfold bounded. by rewrite indexes_with_file.
Qed.

Lemma indexes_sealed_state a l c : a_live a = Some l -> indexes (sealed_state a l c) = indexes a.
Proof using.
  intros Hl. unfold sealed_state. rewrite indexes_sealed. destruct a as [q live c0]. cbn in Hl. subst live. rewrite indexes_sealed_live.
  cbn [a_sealed]. by rewrite fmap_app.
Qed.

Definition shut (seg : Segment) : Segment :=
  mkSegment (sg_index seg) (sg_gen seg) (sg_path seg) (sg_ino seg) (sg_buf seg) (sg_failed seg) false (sg_bytes seg) (sg_closed seg).

Lemma quiet_shut n a a' w seg : Ready m n a w -> indexes a' = indexes a -> sg_buf seg = [] -> sg_open seg = false ->
  Quiet m n a' (set_current w (Some seg)).
Proof using.
  intros [] Hi Hb Ho. split; [done| |].
  - cbn. split; [done|]. by rewrite Ho.
  - unfold bounded. rewrite Hi. eapply bounded_le; [done|lia].
Qed.

Lemma seal_spec n a mt w seg : Ready m n a w -> current w = Some seg ->
  triple (At m a mt w) sealCurrent
    (fun _ => Reach m nothing [] a mt w (fun a' w' => Ready m n a' w' /\ current w' = None)) (Reach m nothing [] a mt w (Quiet m n)).
Proof using.
  intros Hr Hcur. pose proof (rd_current _ _ _ _ Hr) as Hc. rewrite Hcur in Hc. destruct Hc as (l & c & Hl & Hc & Hw).
  set (a1 := settled_state a l c). set (l1 := with_file l (synced (l_file l))).
  assert (He : evolves nothing [] a a1) by (by apply evolves_settled).
  assert (Hq1 : forall s, At m a1 mt w s -> Reach m nothing [] a mt w (Quiet m n) s).
  { intros s Hs. exists a1, w. split; [done|]. split; [done|]. split; [apply keeps_refl|]. by apply quiet_file. }
  assert (Hq0 : forall s, At m a mt w s -> Reach m nothing [] a mt w (Quiet m n) s).
  { intros s Hs. apply reach_here; [done|by apply ready_quiet]. }
  unfold sealCurrent. apply bind_get. rewrite Hcur. unfold Segment_Seal.
  eapply (triple_bind _ _ _ (fun _ s => exists seg', At m (sealed_state a l c) mt (set_current w (Some seg')) s)).
  - eapply bind_current; [exact Hcur|]. rewrite (wr_closed _ _ _ Hw).
    eapply (triple_bind _ _ _ (fun _ => At m a1 mt w)).
    { unfold Segment_Sync. eapply bind_current; [exact Hcur|]. rewrite (wr_closed _ _ _ Hw), (wr_open _ _ _ Hw).
      eapply flush_empty; [exact Hcur|apply Hw|apply Hw|]. rewrite (wr_ino _ _ _ Hw).
      eapply triple_conseq; [apply (fs_sync_spec m a mt w l (Some (settled c)) Hl)|done|done|done].
      rewrite Hc. intros Hh. apply holds_settled; [done|apply Hw]. }
    intros ?. rewrite (wr_ino _ _ _ Hw). change (l_ino l) with (l_ino l1).
    eapply triple_seq; [apply (truncate_spec a1 mt w l1 (Some (settled c))); [done|done|by rewrite (wr_bytes _ _ _ Hw)|done]|done|done|]. intros ?.
    eapply triple_seq; [apply (fs_sync_spec m a1 mt w l1 (Some (settled c))); [done|apply holds_synced]|done|done|]. intros ?.
    eapply triple_seq; [apply (close_spec m a1)|done|done|]. intros ?. apply bind_modify. rewrite Hcur.
    fold (shut seg). set (w1 := set_current w (Some (shut seg))).
    assert (Hq2 : forall a' s, evolves nothing [] a a' -> indexes a' = indexes a -> At m a' mt w1 s -> Reach m nothing [] a mt w (Quiet m n) s).
    { intros a' s He' Hi Hs. exists a', w1. split; [done|]. split; [done|]. split; [apply keeps_current|].
      by apply (quiet_shut n a); [|done|apply Hw|]. }
    rewrite (wr_path _ _ _ Hw), (wr_index _ _ _ Hw).
    eapply triple_seq; [apply (rename_spec a mt w1 l c Hl Hc (wr_data _ _ _ Hw))|done| |].
    { intros s. apply Hq2; [done|by apply indexes_with_file]. }
    intros ?. eapply triple_seq; [apply (syncdir_spec m (sealed_state a l c))|done| |].
    { intros s. apply Hq2; [by apply evolves_sealed|by apply indexes_sealed_state]. }
    intros ?. unfold put_segment. apply bind_modify, triple_ret. intros s Hs. by eexists.
  - intros u. apply triple_exists. intros seg'. apply modify_at. intros s Hs. eexists _, _. split; [exact Hs|]. split; [by apply evolves_sealed|].
    split; [done|]. split; [|done]. destruct Hr. split; [done..|]. unfold bounded. rewrite indexes_sealed_state by done. done.
Qed.

End Sealing.
End Sealing.
Export Sealing.
