(* ===== verification/WalOverflow.v ===== *)
(** * Reclaiming room, and appending

    What the overflow loop drops is covered by the markers it writes; then the whole of [Append],
    [AppendLoss], [MarkAcked] and [Close]. *)

From Stdlib Require Import ZArith Lia Ascii String Sorted.
From stdpp Require Import base list strings gmap sorting.
From S2P Require Import Prelude GoText GoStrings WalFrame Wal WalDir WalSteps WalAppend.
Open Scope string_scope.
Open Scope list_scope.
Open Scope Z_scope.

(** ** Loss markers *)
Module Markers.

(** Sequences of one generation do not decrease. *)
Definition in_order (x y : Z * list Z) : Prop :=
  x.1 = y.1 -> forall s t, data_seq x.2 = Some s -> data_seq y.2 = Some t -> s <= t.
Definition ordered (l : list (Z * list Z)) : Prop := StronglySorted in_order l.

Definition seg_log (q : sealed_seg) : list (Z * list Z) := with_gen (hd_Generation (q_hdr q)) (q_recs q).

(** A user record is in the range of a marker among the given records; nothing is asked of markers. *)
Definition covered (ps : list (Z * list Z)) (y : Z * list Z) : Prop :=
  match data_seq y.2 with
  | None => True
  | Some seq => exists g loss, (g, encodeLossPayload loss) ∈ ps /\ Generation loss = y.1 /\ FromSequence loss <= seq <= ToSequence loss
  end.

Definition marker (x : Z * list Z) : Prop := exists loss, x.2 = encodeLossPayload loss.

Lemma marker_no_data x : marker x -> data_seq x.2 = None.
Proof. intros [loss E]. unfold data_seq. by rewrite E, loss_marker. Qed.

Lemma covered_mono ps qs y : covered ps y -> ps ⊆ qs -> covered qs y.
Proof. unfold covered. destruct (data_seq y.2); [|done]. intros (g & l & H1 & H2 & H3) Hs. exists g, l. auto. Qed.

(** *** The range of a file *)

Definition seqs (ps : list (list Z)) : list Z := omap data_seq ps.

Lemma range_step_data acc p :
  range_step acc p = match data_seq p with Some seq => Some (match acc with Some (from, _) => from | None => seq end, seq) | None => acc end.
Proof. unfold range_step, data_seq. destruct (isLossMarker p); [done|]. by destruct (parseSeqGen p) as [[]|]. Qed.

Lemma seqs_cons p ps : seqs (p :: ps) = match data_seq p with Some seq => seq :: seqs ps | None => seqs ps end.
Proof. unfold seqs. cbn. by destruct (data_seq p). Qed.

Lemma range_some ps f t : StronglySorted Z.le (seqs ps) -> Forall (fun s => t <= s) (seqs ps) ->
  exists t', fold_left range_step ps (Some (f, t)) = Some (f, t') /\ t <= t' /\ Forall (fun s => s <= t') (seqs ps).
Proof.
  revert t. induction ps as [|p ps IH]; intros t Hs Ht; [exists t; split; [done|split; [lia|constructor]]|].
  cbn [fold_left]. rewrite range_step_data. rewrite seqs_cons in *. destruct (data_seq p) as [seq|]; [|by apply IH].
  inversion Hs as [|? ? Hs' Hall]; inversion Ht as [|? ? Hle Ht']; subst. destruct (IH seq Hs' Hall) as (t' & E & H1 & H2).
  exists t'. split; [done|]. split; [lia|]. by constructor.
Qed.

Lemma range_all ps : StronglySorted Z.le (seqs ps) ->
  match fold_left range_step ps None with
  | Some (f, t) => Forall (fun s => f <= s <= t) (seqs ps)
  | None => seqs ps = []
  end.
Proof.
  induction ps as [|p ps IH]; [done|]. cbn [fold_left]. rewrite range_step_data, seqs_cons. destruct (data_seq p) as [seq|]; [|done].
  inversion 1 as [|? ? Hs' Hall]; subst. destruct (range_some ps seq seq Hs' Hall) as (t & -> & H1 & H2).
  constructor; [lia|]. rewrite Forall_forall in *. intros x Hx. split; auto.
Qed.

Definition loss_of (q : sealed_seg) : option LossRecord :=
  (fun r : Z * Z => mkLoss r.1 r.2 (hd_Generation (q_hdr q)) LossReasonOverflow) <$> fold_left range_step (q_recs q) None.

Lemma ordered_seqs gen ps : ordered (with_gen gen ps) -> StronglySorted Z.le (seqs ps).
Proof.
  unfold ordered, with_gen. induction ps as [|p ps IH]; [constructor|]. rewrite seqs_cons. inversion 1 as [|? ? Hs Hall]; subst.
  destruct (data_seq p) as [seq|] eqn:Ep; [|by apply IH]. constructor; [by apply IH|].
  apply Forall_forall. intros t Ht. unfold seqs in Ht. apply list_elem_of_omap in Ht as (p' & Hp' & Et).
  apply (proj1 (Forall_fmap _ _ _)) in Hall. rewrite Forall_forall in Hall. by eapply (Hall p').
Qed.

(** The marker of a dropped file covers all its user records. *)
Lemma loss_covers q g y : ordered (seg_log q) -> y ∈ seg_log q ->
  covered (match loss_of q with Some loss => [(g, encodeLossPayload loss)] | None => [] end) y.
Proof.
  intros Ho Hy. apply ordered_seqs in Ho. pose proof (range_all _ Ho) as Hr. unfold loss_of, covered.
  apply list_elem_of_fmap in Hy as (p & -> & Hp). cbn [fst snd]. destruct (data_seq p) as [seq|] eqn:Ep; [|done].
  assert (Hin : seq ∈ seqs (q_recs q)) by (apply list_elem_of_omap; eauto).
  destruct (fold_left range_step (q_recs q) None) as [[f t]|]; cbn [fmap option_fmap option_map].
  - rewrite Forall_forall in Hr. specialize (Hr _ Hin). eexists g, _. split; [by left|]. done.
  - rewrite Hr in Hin. by apply not_elem_of_nil in Hin.
Qed.

(** *** Order *)

Lemma ordered_sublist l l' : ordered l' -> sublist l l' -> ordered l.
Proof. apply StronglySorted_sublist. Qed.

Lemma ordered_app l x : ordered l -> (forall y, y ∈ l -> in_order y x) -> ordered (l ++ [x]).
Proof.
  intros Hl Hx. induction Hl as [|y l Hs IH Hall]; [repeat constructor|]. constructor.
  - apply IH. intros z Hz. apply Hx. by right.
  - apply Forall_app. split; [done|]. constructor; [|done]. apply Hx. left.
Qed.

Lemma ordered_markers l ps : ordered l -> Forall marker ps -> ordered (l ++ ps).
Proof.
  intros Hl Hps. revert l Hl. induction Hps as [|x ps Hx _ IH]; intros l Hl; [by rewrite app_nil_r|].
  change (l ++ x :: ps) with (l ++ [x] ++ ps). rewrite app_assoc. apply IH, ordered_app; [done|]. intros y _ _ s t _ E. by rewrite (marker_no_data _ Hx) in E.
Qed.

Lemma ordered_evolves X a a' ps : evolves X ps a a' -> ordered (full_log a) -> Forall marker ps -> ordered (full_log a').
Proof. intros [_ Hs] Ho Hp. eapply ordered_sublist; [|exact Hs]. by apply ordered_markers. Qed.

Lemma ordered_segment a q : ordered (full_log a) -> q ∈ a_sealed a -> ordered (seg_log q).
Proof.
  intros Ho Hq. eapply ordered_sublist; [exact Ho|]. unfold full_log. apply sublist_inserts_r.
  apply list_elem_of_split in Hq as (l1 & l2 & ->). rewrite sealed_log_app. apply sublist_inserts_l.
  change (sealed_log (q :: l2)) with (seg_log q ++ sealed_log l2). by apply sublist_inserts_r.
Qed.

End Markers.
Export Markers.

(** ** Reclaiming *)
Module Reclaiming.
Section Reclaiming.
Context `{F : Faults} (m : Z) (Hm : max_ok m).

Definition restrict (a : state) (sealed : list sealed_seg) : state := mkState sealed (a_live a) (a_content a).

Lemma indexes_restrict a sealed : sublist sealed (a_sealed a) -> sublist (indexes (restrict a sealed)) (indexes a).
Proof using.
  intros Hs. unfold indexes, layout_entries, restrict. cbn [a_sealed a_live]. apply fmap_sublist. apply sublist_app; [by apply fmap_sublist|done].
Qed.

Lemma bounded_restrict n a sealed : bounded n a -> sublist sealed (a_sealed a) -> bounded n (restrict a sealed).
Proof using. intros Hb Hs. eapply Forall_sublist; [exact Hb|by apply indexes_restrict]. Qed.

Lemma ready_restrict n a w w' sealed : Ready m n a w -> same_core w w' -> sublist sealed (a_sealed a) -> Ready m n (restrict a sealed) w'.
Proof using.
  intros [H1 H2 H3 H4 H5 H6] [C1 C2 C3 C4 C5 C6 C7 C8 C9] Hs. split; [congruence..| | |].
  - rewrite C3. exact H4.
  - lia.
  - rewrite C6. by apply bounded_restrict.
Qed.

Lemma quiet_restrict n a w w' sealed : Quiet m n a w -> same_core w w' -> sublist sealed (a_sealed a) -> Quiet m n (restrict a sealed) w'.
Proof using.
  intros [H1 H2 H3] [C1 C2 C3 C4 C5 C6 C7 C8 C9] Hs. split; [congruence| |by apply bounded_restrict]. rewrite C3. exact H2.
Qed.

(** *** Dropping the oldest file *)

Definition Dropped (a : state) (mt : option Meta) (w : WAL) (q : sealed_seg) (qs : list sealed_seg) (s : sys) : Prop :=
  a_sealed a = q :: qs /\ exists w', At m (restrict a qs) mt w' s /\ same_core w w'.

(** The loss that is reported for a file, unless a read failed. *)
Definition told (q : sealed_seg) (ol : option LossRecord) : Prop := unread \/ ol = loss_of q.

Lemma dropOldest_spec a mt w : maxRec w = m ->
  triple (At m a mt w) dropOldest
    (fun r s => (r = None /\ a_sealed a = [] /\ At m a mt w s) \/ exists q qs ol, r = Some ol /\ told q ol /\ Dropped a mt w q qs s)
    (fun s => At m a mt w s \/ exists q qs, Dropped a mt w q qs s).
Proof using Hm.
  intros Hmax. unfold dropOldest. eapply triple_seq; [apply (readdir_spec m a mt w)|done|auto|]. intros ns. apply triple_pre. intros (Hls & _).
  rewrite Hls. destruct (a_sealed a) as [|q qs] eqn:Hq; cbn [sealed_entries fmap list_fmap fst].
  { apply triple_ret. auto. }
  assert (Hin : q ∈ a_sealed a) by (rewrite Hq; left).
  apply (open_read_spec m a mt w _ (seg_bytes q)); [by apply sealed_bytes|auto|]. intros ino x Hx. cbv zeta.
  eapply (triple_bind _ _ _ (fun w' s => (At m a mt w s /\ names (dk s) !! segmentName (q_idx q) = Some ino) /\ w' = w)).
  { intros s [Hs Hn]. split; [done|apply (at_wal _ _ _ _ _ Hs)]. }
  intros w0. apply triple_pre. intros ->. rewrite Hmax.
  apply (triple_fact _ _ _ _ _ (fun s Hs => sealed_ok _ _ _ _ _ _ (proj1 Hs) Hin)). intros [Hh Hr].
  eapply (triple_bind _ _ _ (fun r s => At m a mt w s /\ told q ((fun r : Z * Z => mkLoss r.1 r.2 (match read_header x with Ok (hdr, _) => hd_Generation hdr | Err _ => 0 end) LossReasonOverflow)
      <$> fold_left range_step (read_records r.1 m).1.1 None))).
  { intros s [Hs Hn]. destruct (read_at ino (16 `min` length x.1) s) as (y & -> & Hy). split; [by apply At_tick|].
    rewrite (sealed_bytes m _ _ _ _ Hin _ _ Hs Hn) in Hy. destruct Hx as [->|[Hu _]]; [|by left]. destruct Hy as [->|[Hu _]]; [right|by left].
    cbn [fst]. unfold read_header, seg_bytes. cbn [fst]. rewrite header_read by done. cbn [map_err].
    replace (16 `min` length (header_bytes (q_hdr q) ++ frames (q_recs q)))%nat with (length (header_bytes (q_hdr q))) by (rewrite length_app, header_bytes_length; lia).
    rewrite drop_app_length. rewrite <- (app_nil_r (frames (q_recs q))). by rewrite (read_records_frames m _ [] EOF) by auto using stops_nil. }
  intros r. apply triple_pre. intros Htold.
  eapply (triple_bind _ _ _ (fun _ => At m a mt w)).
  { eapply triple_ignore; [apply (close_spec m a mt w)|done|done]. }
  intros u. eapply triple_bind; [eapply triple_attempt, (stat_name_spec m a mt w)|]. intros st.
  eapply triple_seq; [apply (remove_spec m a mt w [] q qs Hq)|by destruct st|auto|]. intros u2.
  eapply triple_seq; [apply total_spec|done|done|]. intros u3. apply triple_exists. intros w'. apply triple_pre. intros Hc.
  eapply triple_seq; [apply (syncdir_spec m (restrict a qs) mt w')|done| |].
  { intros s Hs. right. exists q, qs. split; [done|]. by exists w'. }
  intros u4. eapply triple_seq; [apply prune_spec|done|done|]. intros u5. apply triple_ret.
  intros s (w2 & Hs & Hc2). right. eexists q, qs, _. split; [done|]. split; [done|]. split; [done|]. exists w2. split; [done|by eapply core_trans].
Qed.

(** *** Writing a marker *)

Lemma ready_core n a w w' : Ready m n a w -> same_core w w' -> Ready m n a w'.
Proof using. intros H Hc. destruct a as [q l c]. by apply (ready_restrict n (mkState q l c) w). Qed.

Lemma core_note_any w n g : same_core w (note_any (add_total w n) g).
Proof using. by split. Qed.

Lemma loss_bytes loss : Forall byte_range (encodeLossPayload loss).
Proof using.
  unfold encodeLossPayload, LossMarkerSentinel. cbn [string_bytes]. repeat (apply Forall_app; split); auto using be_bytes_range, string_bytes_range.
  all: repeat (constructor; [split; by vm_compute|]); constructor.
Qed.

Lemma reach_pre {E A} X ps a mt w (P : state -> WAL -> Prop) (op : M E A) Q R :
  (forall a' w', evolves X ps a a' -> keeps w w' -> P a' w' -> triple (At m a' mt w') op Q R) -> triple (Reach m X ps a mt w P) op Q R.
Proof using. intros H s (a' & w' & Hs & He & Hk & HP). by apply (H a' w'). Qed.

Definition Marked (n g : Z) (p : list Z) (a : state) : state -> WAL -> Prop := fun a' w' => Wrote m n g p a' w' /\ grows a a'.
Definition Halted (n : Z) (a : state) : state -> WAL -> Prop := fun a' w' => Quiet m n a' w' /\ grows a a'.

Lemma halted_here n a mt w X ps s : Ready m n a w -> At m a mt w s -> Reach m X ps a mt w (Halted n a) s.
Proof using.
  intros Hr Hs. exists a, w. split; [done|]. split; [eapply evolves_weaken; [apply evolves_refl|done|apply sublist_nil_l]|].
  split; [apply keeps_refl|]. split; [by apply ready_quiet|apply grows_refl].
Qed.

Lemma note_spec {E} n g p X ps a mt w k (e : E) :
  triple (E:=E) (Reach m X ps a mt w (Marked n g p a))
    (seg <- cur_segment e ;; modify (fun w => note_any (add_total w k) (sg_gen seg)))
    (fun _ => Reach m X ps a mt w (Marked n g p a)) (fun _ => False).
Proof using.
  apply reach_pre. intros a' w' He Hk ((Hr & Hin & (seg & Hcur & Hg)) & Hgr). eapply bind_current; [exact Hcur|]. apply modify_at.
  intros s Hs. eexists _, _. split; [exact Hs|]. split; [done|]. split; [eapply keeps_trans; [done|apply keeps_core, core_note_any]|]. split; [|done].
  split; [eapply ready_core; [done|apply core_note_any]|]. split; [done|]. by exists seg.
Qed.

Lemma appendLossLocked_spec n a mt w seg loss : Ready m n a w -> current w = Some seg ->
  let x := (sg_gen seg, encodeLossPayload loss) in
  triple (At m a mt w) (appendLossLocked loss)
    (fun _ => Reach m nothing [x] a mt w (Marked n (sg_gen seg) x.2 a)) (Reach m nothing [x] a mt w (Halted n a)).
Proof using Hm.
  intros Hr Hcur x. unfold appendLossLocked.
  eapply triple_seq; [apply (write_spec m Hm a mt w seg _ Hcur (rd_max _ _ _ _ Hr) (loss_bytes loss))|done|intros s; by apply halted_here|].
  intros u. apply triple_pre. intros Hp. eapply triple_seq; [apply (sync_spec m n a mt w seg _ Hr Hcur Hp)|done|done|].
  intros u2. eapply triple_conseq; [apply note_spec|done|done|done].
Qed.

(** *** Failures *)

Definition Failed (n : Z) (a : state) (w : WAL) : Prop := Quiet m n a w /\ fatalErr w <> None.

Lemma fatal_set w e : fatalErr (set_fatal w e) <> None.
Proof using. unfold set_fatal. cbn. by destruct (fatalErr w). Qed.

Lemma ambiguous_spec {A} op (mm : M err A) P Q (R R' : sys -> Prop) :
  triple P mm Q R -> (forall s e, R s -> R' (mkSys (dk s) (set_fatal (wl s) e))) -> triple P (ambiguous op mm) Q R'.
Proof using. intros H HR s Hs. unfold ambiguous. specialize (H s Hs). destruct (mm s) as [[x|e] s']; auto. Qed.

(** At most one file is lost without a marker. *)
Definition one_file (a : state) (D : list (Z * list Z)) : Prop := D = [] \/ exists q, q ∈ a_sealed a /\ D = seg_log q.

(** An append failed: what was stored is stored, acknowledged, covered by a marker that is stored,
    or was in that file; besides markers the given records may have been written. *)
Definition Broken (n : Z) (extra : list (Z * list Z)) (a : state) (mt : option Meta) (w : WAL) (s : sys) : Prop :=
  exists ps qs D, Forall marker (ps ++ qs) /\ one_file a D /\
    Reach m (fun y => acked_by w y \/ covered ps y \/ y ∈ D) (ps ++ qs ++ extra) a mt w
      (fun a' w' => Failed n a' w' /\ ps ⊆ sure_log a' /\ live_sure a ⊆ sure_log a') s.

(** *** Stages of the loop *)

(** Files were dropped, and the markers for them are in the live file. *)
Record Stage (ps : list (Z * list Z)) (a a' : state) (w w' : WAL) : Prop := mkStage {
  st_markers : Forall marker ps;
  st_evolves : evolves (fun y => acked_by w y \/ covered ps y) ps a a';
  st_keeps : keeps w w';
  st_stored : ps ⊆ live_sure a';
  st_sealed : sublist (a_sealed a') (a_sealed a);
  st_live : live_sure a ⊆ live_sure a'
}.

Lemma stage_refl a w : Stage [] a a w w.
Proof using. split; [constructor|apply evolves_refl|apply keeps_refl|apply list_subseteq_nil|done|done]. Qed.

Lemma acked_keeps w w' y : keeps w w' -> acked_by w' y -> acked_by w y.
Proof using. intros [E _ _]. unfold acked_by. by rewrite E. Qed.

Lemma stage_trans ps qs a b c w1 w2 w3 : Stage ps a b w1 w2 -> Stage qs b c w2 w3 -> Stage (ps ++ qs) a c w1 w3.
Proof using.
  clear m Hm. intros [M1 E1 K1 P1 S1 L1] [M2 E2 K2 P2 S2 L2]. split.
  - by apply Forall_app.
  - eapply evolves_trans; (eapply evolves_weaken; [eassumption| |done]); intros y [H|H]; auto.
    + right. eapply covered_mono; [done|]. set_solver.
    + left. by eapply acked_keeps.
    + right. eapply covered_mono; [done|]. set_solver.
  - by eapply keeps_trans.
  - set_solver.
  - by etrans.
  - by etrans.
Qed.

Lemma stage_broken n extra ps a b mt w w' s : Stage ps a b w w' -> Broken n extra b mt w' s -> Broken n extra a mt w s.
Proof using.
  clear Hm. intros [M1 E1 K1 P1 S1 L1] (ps' & qs & D & Hm' & HD & (a' & w2 & Hs & He & Hk & (Hf & Hps & Hl))).
  exists (ps ++ ps'), qs, D. split; [rewrite <- app_assoc; by apply Forall_app|]. split.
  { destruct HD as [->|(q & Hq & ->)]; [by left|]. right. exists q. split; [|done]. by eapply elem_of_sublist. }
  exists a', w2. split; [done|]. split.
  - rewrite <- app_assoc. eapply evolves_trans; (eapply evolves_weaken; [eassumption| |done]).
    + intros y [H|H]; auto. right. left. eapply covered_mono; [done|]. set_solver.
    + intros y [H|[H|H]]; auto; [left; by eapply acked_keeps|]. right. left. eapply covered_mono; [done|]. set_solver.
  - split; [by eapply keeps_trans|]. split; [done|]. split; set_solver.
Qed.

Lemma broken_here n a mt w s e : Quiet m n a w -> At m a mt w s -> Broken n [] a mt w (mkSys (dk s) (set_fatal (wl s) e)).
Proof using.
  intros Hq [H1 H2 H3 H4]. exists [], [], []. split; [constructor|]. split; [by left|]. exists a, (set_fatal w e).
  split; [split; [done..|]; cbn [wl]; by rewrite H4|]. split; [apply evolves_refl|]. split; [done|].
  split; [|split; [apply list_subseteq_nil|intros x; apply live_sure_log]]. split; [|apply fatal_set]. by destruct Hq.
Qed.

(** The file was dropped, and what follows failed before its marker was stored. *)
Lemma broken_drop n a mt w q qs ms b w1 w2 s :
  a_sealed a = q :: qs -> Forall marker ms -> evolves nothing ms (restrict a qs) b -> keeps w w1 -> keeps w1 w2 ->
  At m b mt w2 s -> Failed n b w2 -> Broken n [] a mt w s.
Proof using.
  intros Hq Hms He K1 K2 Hs Hf. exists [], ms, (seg_log q). split; [done|]. split; [right; exists q; rewrite Hq; split; [left|done]|].
  exists b, w2. split; [done|]. rewrite app_nil_l, app_nil_r. split.
  - apply (evolves_trans _ [] ms _ (restrict a qs)).
    + eapply (evolves_weaken (fun y => y ∈ seg_log q)); [|auto|done]. by apply (evolves_remove _ a [] q qs Hq).
    + eapply evolves_weaken; [exact He|done|done].
  - split; [by eapply keeps_trans|]. split; [done|]. split; [apply list_subseteq_nil|]. intros x Hx.
    destruct He as [He _]. destruct (He x) as [?|[]]; [|done]. by apply live_sure_log.
Qed.

Definition marker_of (g : Z) (ol : option LossRecord) : list (Z * list Z) :=
  match ol with Some loss => [(g, encodeLossPayload loss)] | None => [] end.

Lemma marker_of_markers g ol : Forall marker (marker_of g ol).
Proof using. unfold marker_of. destruct ol; [|constructor]. constructor; [by eexists|constructor]. Qed.

Lemma drop_stage g a b q qs ol w w' : a_sealed a = q :: qs -> told q ol -> ordered (full_log a) -> evolves nothing (marker_of g ol) (restrict a qs) b ->
  keeps w w' -> marker_of g ol ⊆ live_sure b -> grows (restrict a qs) b -> Stage (marker_of g ol) a b w w'.
Proof using.
  intros Hq Ht Ho He Hk Hst [Hg1 Hg2]. split; [apply marker_of_markers| |done|done|rewrite Hg1, Hq; by apply sublist_cons|done].
  apply (evolves_trans _ [] (marker_of g ol) _ (restrict a qs)).
  - apply (evolves_remove _ a [] q qs Hq). intros y Hy. destruct Ht as [Hu|Ht]; [left; by left|]. subst ol. right. apply loss_covers; [|done].
    apply (ordered_segment a); [done|]. rewrite Hq. left.
  - by eapply evolves_weaken.
Qed.

(** *** The loop *)

Definition slack (w : WAL) : Z := match current w with None => 1 | Some _ => 0 end.

Definition enough (a : state) (w : WAL) : Prop := over_budget w = false \/ a_sealed a = [].

Definition Freed (n : Z) (a : state) (mt : option Meta) (w : WAL) (s : sys) : Prop :=
  exists ps a' w', At m a' mt w' s /\ Stage ps a a' w w' /\ Ready m n a' w' /\ enough a' w'.

Lemma freed_trans n ps a b mt w w' s : Stage ps a b w w' -> Freed n b mt w' s -> Freed n a mt w s.
Proof using.
  intros H (qs & a' & w2 & Hs & Hst & Hr & He). exists (ps ++ qs), a', w2. split; [done|]. split; [by eapply stage_trans|done].
Qed.

(** Where a marker goes. *)
Lemma broken_le n n' extra a mt w s : Broken n extra a mt w s -> n <= n' -> Broken n' extra a mt w s.
Proof using.
  intros (ps & qs & D & H1 & H2 & H3) Hn. exists ps, qs, D. split; [done|]. split; [done|]. eapply reach_weaken; [exact H3|done|].
  intros a' w' _ _ ((Hq & Hf) & H). split; [|done]. split; [by eapply quiet_le|done].
Qed.

Lemma ensure_spec op n N gen a mt w q qs w1 : uint32_range gen -> n + slack w1 <= N <= 2 ^ 64 - 1 ->
  a_sealed a = q :: qs -> same_core w w1 -> Ready m n (restrict a qs) w1 ->
  triple (At m (restrict a qs) mt w1)
    (if bool_decide (current w1 = None) then ambiguous op (openNewSegment gen FlagGenInit) else ret tt)
    (fun _ => Reach m nothing [] (restrict a qs) mt w1
       (fun b w2 => Ready m (n + slack w1) b w2 /\ grows (restrict a qs) b /\ exists seg, current w2 = Some seg))
    (Broken N [] a mt w).
Proof using Hm.
  intros Hg Hn Hq Hc Hr. unfold slack in *. destruct (current w1) as [seg|] eqn:Ecur.
  - rewrite bool_decide_eq_false_2 by done. apply triple_ret. intros s Hs. apply reach_here; [done|]. rewrite Z.add_0_r.
    split; [done|]. split; [apply grows_refl|by exists seg].
  - rewrite bool_decide_eq_true_2 by done. eapply ambiguous_spec.
    + eapply triple_conseq; [apply (openNew_spec m Hm n _ mt w1 gen FlagGenInit Hr Ecur)|done| |intros s Hs; exact Hs].
      * lia.
      * split; [done|]. split; [by right|done].
      * intros u s (b & w2 & Hs & He & Hk & (Hr2 & (seg & Hs2 & _) & Hgr)). exists b, w2. do 3 (split; [done|]). split; [done|]. split; [done|by exists seg].
    + intros s e (b & w2 & Hs & He & Hk & (Hqt & Hgr)). destruct Hs as [H1 H2 H3 H4].
      apply (broken_le (n + 1)); [|lia]. apply (broken_drop (n + 1) a mt w q qs [] b w1 (set_fatal w2 e)); [done|constructor|done|by apply keeps_core|by eapply keeps_trans|..].
      * split; [done..|]. cbn [wl]. by rewrite H4.
      * split; [by destruct Hqt|apply fatal_set].
Qed.

(** The marker of the file, or a failure without it. *)
Lemma mark_spec op n a mt w q qs w1 b w2 seg loss : a_sealed a = q :: qs -> told q (Some loss) -> same_core w w1 ->
  evolves nothing [] (restrict a qs) b -> keeps w1 w2 -> grows (restrict a qs) b -> Ready m n b w2 -> current w2 = Some seg -> ordered (full_log a) ->
  triple (At m b mt w2) (ambiguous op (appendLossLocked loss))
    (fun _ s => exists c w3, At m c mt w3 s /\ Stage (marker_of (sg_gen seg) (Some loss)) a c w w3 /\ Ready m n c w3 /\ a_sealed c = qs /\ slack w3 = 0)
    (Broken n [] a mt w).
Proof using Hm.
  intros Hq Hloss Hc He Hk Hgr Hr Hcur Ho. set (x := (sg_gen seg, encodeLossPayload loss)).
  assert (Hx : marker_of (sg_gen seg) (Some loss) = [x]) by done.
  eapply ambiguous_spec.
  - eapply triple_conseq; [apply (appendLossLocked_spec n b mt w2 seg loss Hr Hcur)|done| |intros s Hs; exact Hs].
    intros u s (c & w3 & Hs & He2 & Hk2 & ((Hr3 & Hin & (seg3 & Hcur3 & _)) & Hgr2)). exists c, w3. split; [done|].
    assert (Hg : grows (restrict a qs) c) by by eapply grows_trans. split; [|split; [done|split; [apply Hg|unfold slack; by rewrite Hcur3]]].
    eapply drop_stage; [exact Hq|exact Hloss|done| | | |exact Hg].
    + rewrite Hx. by apply (evolves_trans nothing [] [x] _ b).
    + eapply keeps_trans; [by apply keeps_core|]. by eapply keeps_trans.
    + rewrite Hx. intros y Hy. apply list_elem_of_singleton in Hy as ->. done.
  - intros s e (c & w3 & Hs & He2 & Hk2 & (Hqt & Hgr2)). destruct Hs as [H1 H2 H3 H4].
    apply (broken_drop n a mt w q qs [x] c w1 (set_fatal w3 e)); [done| | |by apply keeps_core| | |].
    + constructor; [by eexists|constructor].
    + by apply (evolves_trans nothing [] [x] _ b).
    + eapply keeps_trans; [exact Hk|]. by eapply keeps_trans.
    + split; [done..|]. cbn [wl]. by rewrite H4.
    + split; [by destruct Hqt|apply fatal_set].
Qed.

Lemma overflow_spec gen fuel : uint32_range gen -> forall n N a mt w, n + slack w <= N <= 2 ^ 64 - 1 -> (length (a_sealed a) < fuel)%nat ->
  Ready m n a w -> ordered (full_log a) ->
  triple (At m a mt w) (overflow_loop fuel gen) (fun _ => Freed (n + slack w) a mt w) (Broken N [] a mt w).
Proof using Hm.
  intros Hg. induction fuel as [|fuel IH]; intros n N a mt w Hn Hlen Hr Ho; [lia|]. cbn [overflow_loop].
  assert (Hle : slack w <= 1) by (unfold slack; destruct (current w); lia). assert (Hge : 0 <= slack w) by (unfold slack; destruct (current w); lia).
  assert (Hhere : enough a w -> forall s, At m a mt w s -> Freed (n + slack w) a mt w s).
  { intros He s Hs. exists [], a, w. split; [done|]. split; [apply stage_refl|]. split; [eapply ready_le; [done|lia]|done]. }
  apply bind_get. destruct (over_budget w) eqn:Eb; cbn [negb].
  2: { apply triple_ret. apply Hhere. by left. }
  eapply triple_seq; [eapply (ambiguous_spec _ _ _ _ _ (Broken N [] a mt w)); [apply (dropOldest_spec a mt w (rd_max _ _ _ _ Hr))|]|done|done|].
  { intros s e [Hs|(q & qs & Hq & w1 & Hs & Hc)].
    - apply broken_here; [|done]. eapply quiet_le; [by apply ready_quiet|lia].
    - destruct Hs as [H1 H2 H3 H4].
      apply (broken_drop N a mt w q qs [] (restrict a qs) w1 (set_fatal w1 e)); [done|constructor|apply evolves_refl|by apply keeps_core|done|..].
      + split; [done..|]. cbn [wl]. by rewrite H4.
      + assert (Hsub : sublist qs (a_sealed a)) by (rewrite Hq; by apply sublist_cons).
        destruct (ready_quiet _ _ _ _ (ready_restrict n a w w1 qs Hr Hc Hsub)) as [Q1 Q2 Q3].
        split; [|apply fatal_set]. split; [done..|]. eapply bounded_le; [done|lia]. }
  intros r s [(-> & Hnil & Hs)|(q & qs & ol & -> & Htold & Hq & w1 & Hs & Hc)].
  { by apply Hhere; [right|]. }
  assert (Hsub : sublist qs (a_sealed a)) by (rewrite Hq; by apply sublist_cons).
  pose proof (ready_restrict n a w w1 qs Hr Hc Hsub) as Hr1.
  assert (Hslack : slack w1 = slack w) by (unfold slack; by rewrite (core_current _ _ Hc)).
  rewrite Hq in Hlen. cbn [length] in Hlen. revert s Hs. destruct ol as [loss|].
  - enough (H : triple (At m (restrict a qs) mt w1)
      ((w0 <- get ;; (if bool_decide (current w0 = None) then ambiguous "overflow-open" (openNewSegment gen FlagGenInit) else ret tt) ;;
        ambiguous "overflow-loss" (appendLossLocked loss) ;; overflow_loop fuel gen)) (fun _ => Freed (n + slack w) a mt w) (Broken N [] a mt w)) by exact H.
    apply bind_get. eapply triple_seq; [apply (ensure_spec "overflow-open" n N gen a mt w q qs w1); [done|lia|done..]|done|done|]. intros u. apply reach_pre.
    intros b w2 He Hk (Hr2 & Hgr & (seg & Hcur)).
    eapply triple_seq; [apply (mark_spec "overflow-loss" (n + slack w1) a mt w q qs w1 b w2 seg loss); done|done| |].
    { intros s Hs. eapply broken_le; [exact Hs|lia]. }
    intros u2. apply triple_exists. intros c. apply triple_exists. intros w3 s (Hs & Hst & Hr3 & Hsealed & Hsl).
    pose proof (IH (n + slack w1) N c mt w3) as H. rewrite Hsl, Hslack, Z.add_0_r, Hsealed in H.
    specialize (H ltac:(lia) ltac:(lia) ltac:(by rewrite <- Hslack) (ordered_evolves _ _ _ _ (st_evolves _ _ _ _ _ Hst) Ho (st_markers _ _ _ _ _ Hst)) s Hs).
    destruct (overflow_loop fuel gen s) as [[x|e] s']; [by eapply freed_trans|by eapply stage_broken].
  - assert (Hst : Stage [] a (restrict a qs) w w1).
    { pose proof (drop_stage 0 a (restrict a qs) q qs None w w1 Hq Htold Ho) as H.
      apply H; [apply evolves_refl|by apply keeps_core|apply list_subseteq_nil|apply grows_refl]. }
    intros s Hs. pose proof (IH n N (restrict a qs) mt w1) as H. rewrite Hslack in H.
    specialize (H ltac:(lia) ltac:(cbn; lia) Hr1 (ordered_evolves _ _ _ _ (st_evolves _ _ _ _ _ Hst) Ho (st_markers _ _ _ _ _ Hst)) s Hs).
    destruct (overflow_loop fuel gen s) as [[x|e] s']; [by eapply freed_trans|by eapply stage_broken].
Qed.


End Reclaiming.
End Reclaiming.
Export Reclaiming.

(** ** Appending *)
Module Appending.
Section Appending.
Context `{F : Faults} (m : Z) (Hm : max_ok m).

Lemma names_size d sealed live : layout m d sealed live -> (length sealed <= size (names d))%nat.
Proof using.
  intros Hl. pose proof (layout_names_NoDup _ _ (lay_sorted _ _ _ _ Hl) (lay_index _ _ _ _ Hl)) as Hnd. rewrite (lay_names _ _ _ _ Hl).
  rewrite map_size_list_to_map by (by rewrite <- list_fmap_compose). unfold layout_entries. rewrite length_fmap, length_app, length_fmap. lia.
Qed.

Lemma reclaim_spec gen n N a mt w : uint32_range gen -> n + slack w <= N <= 2 ^ 64 - 1 -> Ready m n a w -> ordered (full_log a) ->
  triple (At m a mt w) (reclaim gen) (fun _ => Freed m (n + slack w) a mt w) (Broken m N [] a mt w).
Proof using Hm.
  intros Hg Hn Hr Ho. assert (Hge : 0 <= slack w) by (unfold slack; destruct (current w); lia).
  unfold reclaim. apply bind_get. destruct (over_budget w) eqn:Eb; cbn [negb].
  2: { apply triple_ret. intros s Hs. exists [], a, w. split; [done|]. split; [apply stage_refl|]. split; [eapply ready_le; [done|lia]|by left]. }
  eapply triple_seq; [eapply (ambiguous_spec _ _ _ _ _ (Broken m N [] a mt w)); [apply (gcAcked_spec m Hm a mt w (rd_max _ _ _ _ Hr))|]|done|done|].
  - intros s e (q & w1 & Hs & He & Hc & Hsub). pose proof (ready_restrict m n a w w1 q Hr Hc Hsub) as Hr1.
    apply (stage_broken m N [] [] a (restrict a q) mt w w1).
    + split; [constructor|eapply evolves_weaken; [exact He|auto|done]|by apply keeps_core|apply list_subseteq_nil|done|done].
    + apply broken_here; [|done]. eapply quiet_le; [by apply ready_quiet|lia].
  - intros u s (q & w1 & Hs & He & Hc & Hsub). pose proof (ready_restrict m n a w w1 q Hr Hc Hsub) as Hr1.
    assert (Hst : Stage [] a (restrict a q) w w1).
    { split; [constructor|eapply evolves_weaken; [exact He|auto|done]|by apply keeps_core|apply list_subseteq_nil|done|done]. }
    assert (Hslack : slack w1 = slack w) by (unfold slack; by rewrite (core_current _ _ Hc)).
    pose proof (overflow_spec m Hm gen (S (size (names (dk s)))) Hg n N (restrict a q) mt w1) as H. rewrite Hslack in H.
    specialize (H ltac:(lia) (proj2 (Nat.lt_succ_r _ _) (names_size _ _ _ (at_layout _ _ _ _ _ Hs))) Hr1
      (ordered_evolves _ _ _ _ (st_evolves _ _ _ _ _ Hst) Ho (st_markers _ _ _ _ _ Hst)) s Hs).
    destruct (overflow_loop _ gen s) as [[x|e] s']; [by eapply freed_trans|by eapply stage_broken].
Qed.

(** *** The segment of the record *)

Lemma ambiguous_reach {A} op (mm : M err A) P Q X ps a mt w n (G : state -> WAL -> Prop) :
  triple P mm Q (Reach m X ps a mt w (fun a' w' => Quiet m n a' w' /\ G a' w')) ->
  triple P (ambiguous op mm) Q (Reach m X ps a mt w (Failed m n)).
Proof using.
  intros H. eapply ambiguous_spec; [exact H|]. intros s e (a' & w' & Hs & He & Hk & Hq & _). destruct Hs as [H1 H2 H3 H4].
  exists a', (set_fatal w' e). split; [split; [done..|]; cbn [wl]; by rewrite H4|]. split; [done|]. split; [by eapply keeps_trans|].
  split; [by destruct Hq|apply fatal_set].
Qed.

Lemma reach_step {E A} X ps qs a a' mt w w' (op : M E A) (P : A -> state -> WAL -> Prop) (P' : state -> WAL -> Prop) :
  evolves X ps a a' -> keeps w w' ->
  triple (At m a' mt w') op (fun x => Reach m X qs a' mt w' (P x)) (Reach m X qs a' mt w' P') ->
  triple (At m a' mt w') op (fun x => Reach m X (ps ++ qs) a mt w (P x)) (Reach m X (ps ++ qs) a mt w P').
Proof using. intros He Hk H. eapply triple_conseq; [exact H|done|intros x s Hs|intros s Hs]; by eapply reach_trans. Qed.

Lemma failed_le n n' a w : Failed m n a w -> n <= n' -> Failed m n' a w.
Proof using. intros [H1 H2] Hn. split; [by eapply quiet_le|done]. Qed.

(** The state in which a record of the generation can be written. *)
Definition Prepared (n gen : Z) (a : state) (w : WAL) : Prop := Ready m n a w /\ in_segment gen w.

Lemma open_amb op n a mt w gen flags : Ready m n a w -> current w = None -> n < 2 ^ 64 - 1 -> uint32_range gen -> flags = 0 \/ flags = FlagGenInit ->
  triple (At m a mt w) (ambiguous op (openNewSegment gen flags))
    (fun _ => Reach m nothing [] a mt w (Prepared (n + 1) gen)) (Reach m nothing [] a mt w (Failed m (n + 1))).
Proof using Hm.
  intros Hr Hc Hn Hg Hf. apply (ambiguous_reach op _ _ _ nothing [] a mt w (n + 1) (fun a' _ => grows a a')). eapply triple_conseq; [apply (openNew_spec m Hm n a mt w gen flags Hr Hc Hn)|done| |done].
  - by split.
  - intros u s Hs. eapply reach_weaken; [exact Hs|done|]. intros a' w' _ _ (H1 & H2 & _). by split.
Qed.

Lemma roll_amb op op' n a mt w seg gen flags : Ready m n a w -> current w = Some seg -> n < 2 ^ 64 - 1 -> uint32_range gen ->
  flags = 0 \/ flags = FlagGenInit ->
  triple (At m a mt w) (ambiguous op sealCurrent ;; ambiguous op' (openNewSegment gen flags))
    (fun _ => Reach m nothing [] a mt w (Prepared (n + 1) gen)) (Reach m nothing [] a mt w (Failed m (n + 1))).
Proof using Hm.
  intros Hr Hc Hn Hg Hf.
  eapply triple_seq; [apply (ambiguous_reach op _ _ _ nothing [] a mt w n (fun _ _ => True)); eapply triple_conseq; [by apply (seal_spec m n a mt w seg)|done|intros u s Hs; exact Hs|]|done| |].
  - intros s Hs. eapply reach_weaken; [exact Hs|done|]. auto.
  - intros s Hs. eapply reach_weaken; [exact Hs|done|]. intros a' w' _ _ H. eapply failed_le; [done|lia].
  - intros u. apply reach_pre. intros a' w' He Hk [Hr' Hc']. apply (reach_step nothing [] [] a a' mt w w'); [done|done|]. by apply open_amb.
Qed.

Lemma prepared_le n n' gen a w : Prepared n gen a w -> n <= n' -> Prepared n' gen a w.
Proof using. intros [H1 H2] Hn. split; [by eapply ready_le|done]. Qed.

Lemma prepare_spec gen len n a mt w : uint32_range gen -> n + 2 <= 2 ^ 64 - 1 -> Ready m n a w ->
  triple (At m a mt w) (prepare_segment gen len)
    (fun _ => Reach m nothing [] a mt w (Prepared (n + 2) gen)) (Reach m nothing [] a mt w (Failed m (n + 2))).
Proof using Hm.
  intros Hg Hn Hr. unfold prepare_segment. apply bind_get.
  assert (Hle : forall k s, k <= 2 -> Reach m nothing [] a mt w (Failed m (n + k)) s -> Reach m nothing [] a mt w (Failed m (n + 2)) s).
  { intros k s Hk Hs. eapply reach_weaken; [exact Hs|done|]. intros a' w' _ _ H. eapply failed_le; [done|lia]. }
  eapply (triple_bind _ _ _ (fun _ => Reach m nothing [] a mt w
    (fun a' w' => Prepared (n + 1) gen a' w' \/ Ready m n a' w' /\ (current w' = None \/ in_segment gen w')))).
  { destruct (current w) as [seg|] eqn:Ec.
    - case_bool_decide as Eg; cbn [negb].
      + apply triple_ret. intros s Hs. apply reach_here; [done|]. right. split; [done|]. right. by exists seg.
      + apply triple_assoc. eapply triple_seq; [apply (roll_amb _ _ n a mt w seg gen FlagGenInit); [done|done|lia|done|by right]|done| |].
        * intros s. apply (Hle 1). lia.
        * intros u. apply triple_ret. intros s Hs. eapply reach_weaken; [exact Hs|done|]. auto.
    - apply triple_ret. intros s Hs. apply reach_here; [done|]. right. split; [done|]. by left. }
  intros rolled. apply reach_pre. intros a1 w1 He1 Hk1 H1. apply bind_get.
  eapply (triple_bind _ _ _ (fun _ => Reach m nothing [] a mt w (Prepared (n + 1) gen))).
  { apply (reach_step nothing [] [] a a1 mt w w1 _ (fun _ => Prepared (n + 1) gen)); [done|done|]. destruct (current w1) as [seg|] eqn:Ec.
    - rewrite bool_decide_eq_false_2 by done. apply triple_ret. intros s Hs. apply reach_here; [done|].
      destruct H1 as [H1|[Hr1 [H1|H1]]]; [done|congruence|]. split; [eapply ready_le; [done|lia]|done].
    - rewrite bool_decide_eq_true_2 by done. destruct H1 as [[_ (seg & Hs & _)]|[Hr1 _]]; [congruence|].
      eapply triple_conseq; [apply (open_amb "open-first" n a1 mt w1 gen FlagGenInit); [done|done|lia|done|by right]|done|done|].
      intros s Hs. eapply reach_weaken; [exact Hs|done|]. intros a' w' _ _ H. eapply failed_le; [done|lia]. }
  intros u. apply reach_pre. intros a2 w2 He2 Hk2 [Hr2 (seg & Hc2 & Hg2)]. eapply bind_current; [exact Hc2|].
  eapply (triple_bind _ _ _ (fun _ => Reach m nothing [] a mt w (Prepared (n + 2) gen))).
  - apply (reach_step nothing [] [] a a2 mt w w2 _ (fun _ => Prepared (n + 2) gen)); [done|done|]. destruct (_ <? _).
    + replace (n + 2) with (n + 1 + 1) by lia. apply (roll_amb _ _ (n + 1) a2 mt w2 seg gen 0); [done|done|lia|done|by left].
    + apply triple_ret. intros s Hs. apply reach_here; [done|]. split; [eapply ready_le; [done|lia]|by exists seg].
  - intros u2. by apply triple_ret.
Qed.

(** *** The record *)

Lemma record_amb {B} op op' n a mt w seg p (k : unit -> M AppendError B) Q R : Ready m n a w -> current w = Some seg -> Forall byte_range p ->
  let x := (sg_gen seg, p) in
  (forall s, Reach m nothing [x] a mt w (Failed m n) s -> R s) ->
  triple (Reach m nothing [x] a mt w (Marked m n (sg_gen seg) p a)) (k tt) Q R ->
  triple (At m a mt w) (ambiguous op (Segment_WriteRecord p) ;; bind (ambiguous op' Segment_Sync) k) Q R.
Proof using Hm.
  intros Hr Hcur Hb x HR Hk.
  eapply triple_seq; [apply (ambiguous_reach op _ (At m a mt w)
    (fun _ s => At m a mt (set_current w (Some (buffered seg p))) s /\ payload_ok m p) nothing [x] a mt w n (fun a' _ => grows a a'))|done|exact HR|].
  { eapply triple_conseq; [apply (write_spec m Hm a mt w seg p Hcur (rd_max _ _ _ _ Hr) Hb)|done|done|]. intros s. by apply halted_here. }
  intros u. apply triple_pre. intros Hp.
  eapply triple_seq; [apply (ambiguous_reach op' _ _ _ nothing [x] a mt w n (fun a' _ => grows a a') (sync_spec m n a mt w seg p Hr Hcur Hp))|done|exact HR|].
  intros []. exact Hk.
Qed.

Definition noted (w : WAL) (seq gen k : Z) : WAL := add_total (note_any (note_data (set_high w seq gen) gen seq) gen) k.
Lemma core_noted w seq gen k : same_core w (noted w seq gen k).
Proof using. by split. Qed.

Lemma fail_stage k extra ps a b mt w w' s : Stage ps a b w w' -> Reach m nothing extra b mt w' (Failed m k) s -> Broken m k extra a mt w s.
Proof using.
  intros H (a' & w2 & Hs & He & Hk & Hf). eapply stage_broken; [exact H|]. exists [], [], []. split; [constructor|]. split; [by left|].
  exists a', w2. split; [done|]. split; [eapply evolves_weaken; [exact He|done|done]|]. split; [done|]. split; [done|].
  split; [apply list_subseteq_nil|]. intros x Hx. destruct He as [He _]. destruct (He x) as [?|[]]; [|done]. by apply live_sure_log.
Qed.

(** An append that succeeded: the record is on stable storage, and so is a marker for what was dropped. *)
Definition Appended (n : Z) (x : Z * list Z) (a : state) (mt : option Meta) (w : WAL) (s : sys) : Prop :=
  exists ps, Forall marker ps /\ Reach m (fun y => acked_by w y \/ covered ps y) (ps ++ [x]) a mt w
    (fun a' w' => Ready m n a' w' /\ ps ⊆ sure_log a' /\ x ∈ sure_log a') s.

Lemma stage_appended n ps a b c mt w w1 w2 x s : Stage ps a b w w1 -> evolves nothing [x] b c -> keeps w1 w2 -> Ready m n c w2 ->
  x ∈ sure_log c -> At m c mt w2 s -> Appended n x a mt w s.
Proof using.
  intros [M1 E1 K1 P1 S1 L1] He Hk Hr Hx Hs. exists ps. split; [done|]. exists c, w2. split; [done|].
  split; [eapply evolves_trans; [exact E1|by eapply evolves_weaken]|]. split; [by eapply keeps_trans|]. split; [done|]. split; [|done].
  intros y Hy. destruct He as [He _]. destruct (He y) as [?|[]]; [|done]. by apply live_sure_log, P1.
Qed.

Lemma encode_bytes seq gen p : Forall byte_range p -> Forall byte_range (encodeSeqGenFrame seq gen p).
Proof using. intros H. unfold encodeSeqGenFrame. rewrite !Forall_app. auto using be_bytes_range. Qed.

Definition too_large (w : WAL) (p : list Z) : bool := SegmentSize (w_opts w) - SegmentHeaderSize <? recordOverhead + Z.of_nat (length p).

Lemma Append_spec seq gen p n a mt w : uint32_range gen -> Forall byte_range p -> n + 3 <= 2 ^ 64 - 1 -> Ready m n a w -> ordered (full_log a) ->
  let x := (gen, encodeSeqGenFrame seq gen p) in
  triple (At m a mt w) (Append seq gen p) (fun _ => Appended (n + 3) x a mt w)
    (fun s => too_large w p = true /\ At m a mt w s \/ Broken m (n + 3) [x] a mt w s).
Proof using Hm.
  intros Hg Hb Hn Hr Ho x. unfold Append. apply bind_get. rewrite (rd_closed _ _ _ _ Hr), (rd_fatal _ _ _ _ Hr).
  fold (too_large w p). destruct (too_large w p) eqn:Et; [apply triple_fail; auto|].
  assert (Hsl : 0 <= slack w <= 1) by (unfold slack; destruct (current w); lia).
  eapply triple_seq; [apply (reclaim_spec gen n (n + 1) a mt w Hg); [lia|done|done]|done| |].
  { intros s Hs. right. apply (broken_le _ (n + 1)); [|lia]. destruct Hs as (ps & qs & D & H1 & H2 & H3). exists ps, qs, D. split; [done|]. split; [done|].
    destruct H3 as (a' & w' & Hs & He & Hk & Hf). exists a', w'. split; [done|]. split; [|done]. eapply evolves_weaken; [exact He|done|].
    rewrite app_nil_r. apply sublist_app; [done|]. by apply sublist_inserts_r. }
  intros u. apply triple_exists. intros ps. apply triple_exists. intros a1. apply triple_exists. intros w1 s (Hs & Hst & Hr1 & _). revert s Hs.
  match goal with |- forall s, _ -> match ?op s with _ => _ end => enough (H : triple (At m a1 mt w1) op (fun _ => Appended (n + 3) x a mt w)
    (fun s => false = true /\ At m a mt w s \/ Broken m (n + 3) [x] a mt w s)) by exact H end.
  apply (ready_le m _ (n + 1)) in Hr1; [|lia].
  eapply triple_seq; [apply (prepare_spec gen (Z.of_nat (length p)) (n + 1) a1 mt w1 Hg); [lia|done]|done| |].
  { intros s Hs. right. replace (n + 3) with (n + 1 + 2) by lia. eapply fail_stage; [exact Hst|].
    eapply reach_weaken; [|done|intros a' w' _ _ Hf; exact Hf]. destruct Hs as (a' & w' & Hs & He & Hk & Hf). exists a', w'.
    split; [done|]. split; [eapply evolves_weaken; [exact He|done|apply sublist_nil_l]|done]. }
  intros rolled. apply reach_pre. intros a2 w2 He2 Hk2 [Hr2 (seg & Hc2 & Hg2)]. replace (n + 1 + 2) with (n + 3) in Hr2 by lia.
  eapply record_amb; [exact Hr2|exact Hc2|by apply encode_bytes| |]; rewrite Hg2; fold x.
  - intros s Hs. right. eapply fail_stage; [exact Hst|]. by apply (reach_trans m nothing nothing [] [x] a1 a2 mt w1 w2).
  - apply reach_pre. intros a3 w3 He3 Hk3 ((Hr3 & Hx & _) & Hgr). apply bind_modify, bind_modify, triple_ret. intros s Hs.
    eapply (stage_appended _ ps a a1 a3); [exact Hst|by apply (evolves_trans nothing [] [x] _ a2)| | |by apply live_sure_log|exact Hs].
    + eapply keeps_trans; [exact Hk2|]. eapply keeps_trans; [exact Hk3|]. apply keeps_core, core_noted.
    + eapply ready_core; [exact Hr3|apply core_noted].
Qed.

End Appending.
End Appending.
Export Appending.
