(* ===== verification/WalAck.v ===== *)
(** * Loss records, acknowledging and closing

    The other exported operations of the log, whatever operations of the file system fail. *)

From Stdlib Require Import ZArith Lia Ascii String Sorted.
From stdpp Require Import base list strings gmap sorting.
From S2P Require Import Prelude GoText GoStrings WalFrame Wal WalDir WalSteps WalAppend WalOverflow.
Open Scope string_scope.
Open Scope list_scope.
Open Scope Z_scope.

Module Acking.
Section Acking.
Context `{F : Faults} (m : Z) (Hm : max_ok m).

(** ** [AppendLoss] *)

Lemma AppendLoss_spec loss n a mt w : uint32_range (Generation loss) -> n + 1 <= 2 ^ 64 - 1 -> Ready m n a w ->
  triple (At m a mt w) (AppendLoss loss)
    (fun _ s => exists g, let x := (g, encodeLossPayload loss) in
       Reach m nothing [x] a mt w (fun a' w' => Ready m (n + 1) a' w' /\ x ∈ sure_log a') s)
    (fun s => exists g, Reach m nothing [(g, encodeLossPayload loss)] a mt w (Failed m (n + 1)) s).
Proof using Hm.
  intros Hg Hn Hr. unfold AppendLoss. apply bind_get. rewrite (rd_closed _ _ _ _ Hr), (rd_fatal _ _ _ _ Hr).
  eapply (triple_bind _ _ _ (fun _ => Reach m nothing [] a mt w (fun a' w' => Ready m (n + 1) a' w' /\ exists seg, current w' = Some seg))).
  - destruct (current w) as [seg|] eqn:Ec.
    + rewrite bool_decide_eq_false_2 by done. apply triple_ret. intros s Hs. apply reach_here; [done|].
      split; [eapply ready_le; [done|lia]|by exists seg].
    + rewrite bool_decide_eq_true_2 by done.
      eapply triple_conseq; [apply (open_amb m Hm "open-loss-segment" n a mt w (Generation loss) FlagGenInit); [done|done|lia|done|by right]|done| |].
      * intros u s Hs. eapply reach_weaken; [exact Hs|done|]. intros a' w' _ _ [H1 (seg & H2 & _)]. split; [done|by exists seg].
      * intros s Hs. exists 0. eapply reach_weaken; [|done|intros a' w' _ _ H; exact H]. destruct Hs as (a' & w' & Hs & He & H).
        exists a', w'. split; [done|]. split; [|done]. eapply evolves_weaken; [exact He|done|apply sublist_nil_l].
  - intros u. apply reach_pre. intros a1 w1 He1 Hk1 [Hr1 (seg & Hc1)]. set (x := (sg_gen seg, encodeLossPayload loss)).
    eapply record_amb; [done|exact Hr1|exact Hc1|apply loss_bytes| |].
    + intros s Hs. exists (sg_gen seg). by apply (reach_trans m nothing nothing [] [x] a a1 mt w w1).
    + eapply triple_conseq; [apply note_spec|done| |done]. intros v s Hs. exists (sg_gen seg). cbv zeta. fold x.
      eapply (reach_trans m nothing nothing [] [x] a a1 mt w w1); [done|done|done|]. eapply reach_weaken; [exact Hs|done|].
      intros a' w' _ _ ((H1 & H2 & _) & _). split; [done|by apply live_sure_log].
Qed.

(** ** [MarkAcked] *)

Definition written_meta (M : Meta) : Meta :=
  mkMeta metaFormatVersion (AckHighWatermarkSeq M) (AckHighWatermarkGen M) (AckRecorded M) (m_SessionID M) (m_KeyFingerprint M) (m_ContextDigest M).

Lemma WriteMeta_spec a mt w M :
  triple (At m a mt w) (WriteMeta M) (fun _ => At m a (Some (written_meta M)) w)
    (fun s => At m a mt w s \/ At m a (Some (written_meta M)) w s).
Proof using.
  assert (Hw : forall s, At m a mt w s -> At m a (Some (written_meta M)) w (mkSys (with_meta (tick (dk s)) (Some (written_meta M))) (wl s))).
  { intros s [H1 H2 H3 H4]. split; [by eapply layout_same|done..]. }
  apply triple_io; [|done|].
  - intros s x d' Hs [= _ <-]. by apply Hw.
  - intros s n Hs. destruct (Nat.eqb n 0); [left; by apply At_tick|right; by apply Hw].
Qed.

Lemma ack_loop_spec qs : forall l1 a mt w, a_sealed a = l1 ++ qs -> maxRec w = m ->
  triple (At m a mt w) (ack_loop (sealed_entries qs)) (fun _ => Reclaimed m (acked_by w) a mt w) (fun _ => False).
Proof using Hm.
  induction qs as [|q qs IH]; intros l1 a mt w Heq Hmax; cbn [sealed_entries fmap list_fmap ack_loop fst].
  { apply triple_ret. intros s. apply reclaimed_refl. }
  apply bind_get. rewrite Hmax. assert (Hq : q ∈ a_sealed a) by (rewrite Heq; apply elem_of_app; right; left).
  eapply triple_bind; [eapply triple_attempt, (high_spec m Hm a mt w q Hq)|]. intros r.
  assert (Hrest : forall x, triple (At m a mt w) (rest <- ack_loop (sealed_entries qs) ;; ret (x || rest))
    (fun _ => Reclaimed m (acked_by w) a mt w) (fun _ => False)).
  { intros x. eapply triple_bind; [apply (IH (l1 ++ [q]) a mt w); [by rewrite <- app_assoc|done]|]. intros rest. by apply triple_ret. }
  eapply (triple_bind _ _ _ (fun x s => if (x : bool) then exists w', At m (restrict a (l1 ++ qs)) mt w' s /\ same_core w w' /\
      evolves (acked_by w) [] a (restrict a (l1 ++ qs)) else At m a mt w s)).
  - destruct r as [sc|e]; [|by apply triple_ret]. apply triple_pre. intros Hc. destruct (segmentFullyAcked w sc) eqn:Ha; cbn [negb].
    2: { by apply triple_ret. }
    eapply triple_bind; [eapply triple_attempt, (stat_name_spec m a mt w)|]. intros st.
    eapply (triple_bind _ _ _ (fun r s => match r with Ok _ => At m (restrict a (l1 ++ qs)) mt w s | Err _ => At m a mt w s end)).
    { eapply triple_conseq; [eapply (triple_attempt (E:=err)), (remove_spec m a mt w l1 q qs Heq)|by destruct st|by intros [x|e]|by intros s Hs; exact Hs]. }
    intros [x|e]; [|by apply triple_ret]. eapply triple_seq; [apply total_spec|done|done|]. intros u. apply triple_ret.
    intros s (w' & Hs & Hcore). exists w'. split; [done|]. split; [done|]. apply (evolves_remove _ a l1 q qs Heq).
    intros y Hy. by eapply acked_segment.
  - intros [|]; [|apply (Hrest false)]. apply triple_exists. intros w'. apply triple_pre. intros (Hcore & He).
    assert (Hsub : sublist (l1 ++ qs) (a_sealed a)) by (rewrite Heq; apply sublist_app; [done|by apply sublist_cons]).
    eapply triple_seq; [apply (IH l1 (restrict a (l1 ++ qs)) mt w' eq_refl); by rewrite (core_max _ _ Hcore)|done|done|].
    intros rest. apply triple_ret. intros s (l & w2 & H1 & H2 & H3 & H4).
    apply (reclaimed_trans m _ a (l1 ++ qs) w w'); [exact He|exact Hsub|exact Hcore|].
    exists l, w2. split; [done|]. split; [|done]. eapply evolves_weaken; [exact H2| |done]. intros y. by apply acked_core.
Qed.

(** The log with the position raised, if it is higher. *)
Definition raised (w : WAL) (gen seq : Z) : WAL := if ack_advances w gen seq then set_ack w gen seq else w.

Lemma raised_ack w gen seq : ack_of (raised w gen seq) = Some (gen, seq) \/ ack_of (raised w gen seq) = ack_of w /\ ackPresent w = true.
Proof using.
  unfold raised. destruct (ack_advances w gen seq) eqn:E; [by left|right]. split; [done|]. unfold ack_advances in E. by destruct (ackPresent w).
Qed.

Definition ack_meta (w : WAL) : Meta :=
  mkMeta metaFormatVersion (ackHighSeq w) (ackHighGen w) true (SessionID (w_opts w)) (KeyFingerprint (w_opts w)) (ContextDigest (w_opts w)).

Definition Acked (w1 : WAL) (a : state) (mt : option Meta) (s : sys) : Prop :=
  exists mt', (mt' = mt \/ mt' = Some (ack_meta w1)) /\ Reclaimed m (acked_by w1) a mt' w1 s.

Lemma MarkAcked_spec gen seq a mt w : maxRec w = m ->
  let w1 := raised w gen seq in triple (At m a mt w) (MarkAcked gen seq) (fun _ => Acked w1 a mt) (Acked w1 a mt).
Proof using Hm.
  intros Hmax w1. assert (Hmax1 : maxRec w1 = m) by (unfold w1, raised; by destruct (ack_advances w gen seq)).
  unfold MarkAcked. apply bind_modify. fold w1. apply bind_get.
  eapply triple_seq; [apply (WriteMeta_spec a mt w1)|done| |].
  { intros s [Hs|Hs]; (eexists; split; [|by apply reclaimed_refl]); auto. }
  intros u. set (mt' := Some _). assert (Hr : forall s, Reclaimed m (acked_by w1) a mt' w1 s -> Acked w1 a mt s) by (intros s Hs; exists mt'; auto).
  eapply triple_seq; [apply (readdir_spec m a mt' w1)|done|intros s Hs; by apply Hr, reclaimed_refl|]. intros ns. apply triple_pre. intros (Hls & _). rewrite Hls.
  eapply triple_seq; [apply (ack_loop_spec (a_sealed a) [] a mt' w1 eq_refl Hmax1)|done|done|]. intros removed.
  eapply triple_conseq; [apply finish_spec|done|intros v s Hs; by apply Hr|exact Hr].
Qed.

(** ** [Close] *)

Definition Closed (n : Z) (a : state) (mt : option Meta) (w : WAL) (s : sys) : Prop :=
  exists a' w', At m a' mt w' s /\ evolves nothing [] a a' /\ ack_of w' = ack_of w /\ w_opts w' = w_opts w /\ closed w' = true /\ Quiet m n a' w'.

Lemma closed_here n a mt w s : closed w = true -> Quiet m n a w -> At m a mt w s -> Closed n a mt w s.
Proof using. intros Hc Hq Hs. exists a, w. split; [done|]. split; [apply evolves_refl|done]. Qed.

Lemma quiet_synced n a w l : a_live a = Some l -> Quiet m n a w -> Quiet m n (mkState (a_sealed a) (Some (with_file l (synced (l_file l)))) (a_content a)) w.
Proof using.
  intros Hl [H1 H2 H3]. split; [done| |unfold bounded; by rewrite indexes_with_file]. destruct (current w) as [seg|]; [|done].
  destruct H2 as [Hb Ho]. split; [done|]. intros E. destruct (Ho E) as (l' & Hl' & Hi). exists (with_file l (synced (l_file l))).
  split; [done|]. rewrite Hl in Hl'. by injection Hl' as <-.
Qed.

Lemma Segment_Sync_quiet n a mt w seg : current w = Some seg -> Quiet m n a w ->
  triple (At m a mt w) Segment_Sync
    (fun _ s => exists a', At m a' mt w s /\ evolves nothing [] a a' /\ Quiet m n a' w) (At m a mt w).
Proof using.
  intros Hc Hq. pose proof (qt_current _ _ _ _ Hq) as Hcur. rewrite Hc in Hcur. destruct Hcur as [Hb Ho].
  unfold Segment_Sync. eapply bind_current; [exact Hc|]. destruct (sg_closed seg); [by apply triple_fail|].
  destruct (sg_failed seg) eqn:Ef.
  - intros s Hs. unfold bind at 1, Flush, cur_segment, bind, get. rewrite (at_wal _ _ _ _ _ Hs), Hc. cbn [ret]. by rewrite Ef.
  - eapply flush_empty; [exact Hc|done|done|]. destruct (sg_open seg); [|by apply triple_fail].
    destruct (Ho eq_refl) as (l & Hl & Hi). rewrite Hi.
    eapply triple_conseq; [apply (fs_sync_spec m a mt w l (a_content a) Hl), holds_synced|done| |done].
    intros u s Hs. eexists. split; [exact Hs|]. split; [by apply evolves_same|by apply quiet_synced].
Qed.

Lemma Close_spec n a mt w : Quiet m n a w -> triple (At m a mt w) Close (fun _ => Closed n a mt w) (Closed n a mt w).
Proof using.
  intros Hq. unfold Close. apply bind_get. destruct (closed w) eqn:Ec; [apply triple_ret; intros s; by apply closed_here|].
  apply bind_modify. set (w1 := set_closed w). assert (Hq1 : Quiet m n a w1) by by destruct Hq.
  assert (Hend : forall a' w' s, At m a' mt w' s -> evolves nothing [] a a' -> ack_of w' = ack_of w -> w_opts w' = w_opts w -> closed w' = true -> Quiet m n a' w' ->
    Closed n a mt w s) by (intros a' w' s H1 H2 H3 H4 H5 H6; exists a', w'; auto 10).
  destruct (current w) as [seg|] eqn:Ecur.
  2: { apply triple_ret. intros s Hs. eapply Hend; [exact Hs|apply evolves_refl|done..]. }
  eapply (triple_bind _ _ _ (fun _ s => exists a' w', At m a' mt w' s /\ evolves nothing [] a a' /\ ack_of w' = ack_of w /\ w_opts w' = w_opts w /\
    closed w' = true /\ Quiet m n a' w')).
  - unfold Segment_Close. eapply bind_current; [exact Ecur|]. destruct (sg_closed seg).
    { apply triple_ret. intros s Hs. eapply Hend; [exact Hs|apply evolves_refl|done..]. }
    eapply triple_seq; [apply (Segment_Sync_quiet n a mt w1 seg Ecur Hq1)|done|intros s Hs; eapply Hend; [exact Hs|apply evolves_refl|done..]|].
    intros u. apply triple_exists. intros a'. apply triple_pre. intros (He & Hq').
    eapply (triple_bind _ _ _ (fun _ => At m a' mt w1)).
    { eapply triple_conseq; [eapply (triple_attempt (E:=err)), (close_spec m a' mt w1)|done|by intros [x|e]|intros s Hs; exact Hs]. }
    intros r. apply bind_modify. set (w2 := set_current w1 _).
    assert (Hq2 : Quiet m n a' w2) by (destruct Hq' as [H1 H2 H3]; split; [done|by split|done]).
    apply triple_lift; intros x s _ Hs; by eapply Hend.
  - intros u. apply triple_exists. intros a'. apply triple_exists. intros w'. apply triple_pre. intros (He & Hk1 & Hk2 & Hk3 & Hq').
    apply modify_at. intros s Hs. eapply Hend; [exact Hs|done..|]. by destruct Hq'.
Qed.

End Acking.
End Acking.
Export Acking.
