(* ===== verification/WalRecover.v ===== *)
(** * Opening the log

    What a start makes of a directory that a crash left behind: the complete records of the live
    file stay, what follows them is cut off, and nothing else changes. *)

From Stdlib Require Import ZArith Lia Ascii String Sorted.
From stdpp Require Import base list strings gmap sorting.
From S2P Require Import Prelude GoText GoStrings WalFrame Wal WalDir WalSteps WalAppend WalOverflow WalAck.
Open Scope string_scope.
Open Scope list_scope.
Open Scope Z_scope.

(** ** Torn files *)
Module Torn.

(** Bytes of records cut somewhere are complete records and a part of the next one. *)
Lemma torn_frames m ps n : max_ok m -> Forall (payload_ok m) ps ->
  exists k tail e, take n (frames ps) = frames (take k ps) ++ tail /\ stops m tail e /\ (e = EOF /\ tail = [] \/ e = UnexpectedEOF /\ tail <> []).
Proof.
  intros Hm Hps. revert n. induction Hps as [|p ps Hp Hps IH]; intros n.
  { exists O, [], EOF. rewrite firstn_nil. split; [done|]. split; [by apply stops_nil|by left]. }
  change (frames (p :: ps)) with (frame p ++ frames ps). destruct (Nat.lt_ge_cases n (length (frame p))) as [Hn|Hn].
  - rewrite take_app_le by lia. exists O. rewrite frame_length in Hn. pose proof (record_torn m p n Hm Hp Hn) as Ht.
    destruct n as [|n]; cbn [Nat.eqb] in Ht.
    + exists [], EOF. split; [done|]. split; [by apply stops_nil|by left].
    + exists (take (S n) (frame p)), UnexpectedEOF. split; [done|]. split; [exact Ht|]. right. split; [done|]. intros E. apply (f_equal length) in E.
      rewrite length_take, frame_length in E. cbn [length] in E. lia.
  - rewrite take_app_ge by done. destruct (IH (n - length (frame p))%nat) as (k & tail & e & Ht & Hs & He).
    exists (S k), tail, e. rewrite Ht. split; [|done]. cbn [take]. change (frames (p :: take k ps)) with (frame p ++ frames (take k ps)). by rewrite app_assoc.
Qed.

End Torn.
Export Torn.

(** ** Recovery *)
Module Recovery.
Section Recovery.
Context `{F : Faults} (m : Z) (Hm : max_ok m).

(** Reading any file changes nothing. *)
Lemma high_any a mt w name k : triple (At m a mt w) (segmentHighSeqAndGen name k) (fun _ => At m a mt w) (At m a mt w).
Proof using.
  unfold segmentHighSeqAndGen. eapply triple_seq; [apply (open_spec m a mt w)|done|done|]. intros ino.
  apply (triple_weaken _ (At m a mt w)); [|by intros s []].
  eapply triple_seq; [apply (read_spec m a mt w)|done|done|]. intros data. apply (triple_weaken _ (At m a mt w)); [|by intros s []].
  by apply triple_lift.
Qed.

Lemma has_records_spec a mt w ns k : triple (At m a mt w) (has_records ns k) (fun _ => At m a mt w) (At m a mt w).
Proof using.
  induction ns as [|n ns IH]; cbn [has_records]; [by apply triple_ret|]. destruct (is_segment n); [|done]. cbn [negb].
  eapply triple_bind; [eapply triple_attempt, high_any|]. intros [sc|e]; [|by apply triple_ret].
  destruct (sc_user sc); [by apply triple_ret|exact IH].
Qed.

Lemma dir_has_spec a mt w k : triple (At m a mt w) (segmentsDirHasRecords k) (fun _ => At m a mt w) (At m a mt w).
Proof using.
  unfold segmentsDirHasRecords. eapply triple_seq; [apply (readdir_spec m a mt w)|done|done|]. intros ns. apply (triple_weaken _ (At m a mt w)); [|by intros s []]. apply has_records_spec.
Qed.

(** *** The live file *)

Lemma core_record gen w p : same_core w (recover_record gen w p).
Proof using. unfold recover_record. destruct (isLossMarker p); [by split|]. destruct (parseSeqGen p) as [[seq g]|]; by split. Qed.

Lemma core_records gen ps w : same_core w (fold_left (recover_record gen) ps w).
Proof using.
  revert w. induction ps as [|p ps IH]; intros w; cbn [fold_left]; [apply core_refl|]. eapply core_trans; [apply core_record|apply IH].
Qed.

Lemma core_high w seq gen : same_core w (set_high w seq gen).
Proof using. by split. Qed.

(** The scan of a file of which the bytes are known. *)
Lemma scanForRecovery_spec a mt w name data : maxRec w = m ->
  (forall s ino, At m a mt w s -> names (dk s) !! name = Some ino -> data_of (dk s) ino = data) ->
  triple (At m a mt w) (scanForRecovery name)
    (fun good s => exists w', At m a mt w' s /\ same_core w w' /\
       exists hdr r, ReadSegmentHeader data = Ok (hdr, r) /\ good = SegmentHeaderSize + (read_records r m).2)
    (fun s => exists w', At m a mt w' s /\ same_core w w').
Proof using.
  intros Hmax Hd. unfold scanForRecovery. apply (open_read_spec m a mt w name data); [done|intros s Hs; exists w; split; [done|apply core_refl]|].
  intros ino x Hx. eapply (triple_weaken _ (At m a mt w)); [|by intros s []]. unfold read_header.
  destruct (ReadSegmentHeader x.1) as [[hdr r]|e] eqn:E; cbn [map_err].
  2: { intros s Hs. exists w. split; [done|apply core_refl]. }
  eapply (triple_bind _ _ _ (fun y s => At m a mt w s /\ y = (hdr, r))); [by apply triple_lift; [intros y s [= <-]|]|]. intros y. apply triple_pre. intros ->.
  cbn [fst snd]. apply bind_modify, bind_get. cbn [maxRec set_high]. rewrite Hmax. destruct (read_records r m) as [[ps e] n] eqn:Er. apply bind_modify.
  set (w' := fold_left _ _ _). assert (Hc : same_core w w') by (eapply core_trans; [apply core_high|apply core_records]).
  assert (Hend : (match read_error x.2 e with EOF | UnexpectedEOF | ErrCRCMismatch | ErrCorruptFrame => True | _ => False end) ->
    exists r', ReadSegmentHeader data = Ok (hdr, r') /\ (read_records r' m).2 = n).
  { destruct Hx as [->|[_ [k ->]]]; cbn [fst snd] in *; intros He; [exists r; by rewrite Er|].
    pose proof (header_more (take k data) (drop k data)) as Hh. rewrite E, take_drop in Hh. exists (r ++ drop k data). split; [done|].
    destruct (read_records_more m r (drop k data) _ _ _ Er) as [[-> | ->]|Er']; [done|done|by rewrite Er']. }
  destruct (read_error x.2 e); (apply triple_ret || apply triple_fail); intros s Hs; exists w'; (split; [exact Hs|]); try done; (split; [done|]);
    destruct (Hend I) as (r' & H1 & H2); exists hdr, r'; by rewrite H2.
Qed.

(** What of the live file a start keeps. *)
Lemma torn_content l c : holds m (Some l) (Some c) ->
  exists k tail, let c' := mkContent (c_hdr c) (c_sure c) (take k (c_flight c)) in
    f_data (l_file l) = header_bytes (c_hdr c) ++ frames (c_sure c ++ take k (c_flight c)) ++ tail /\
    ReadSegmentHeader (f_data (l_file l)) = Ok (c_hdr c, frames (c_sure c ++ take k (c_flight c)) ++ tail) /\
    (read_records (frames (c_sure c ++ take k (c_flight c)) ++ tail) m).2 = frames_size (c_sure c ++ take k (c_flight c)).
Proof using Hm.
  intros (H1 & H2 & H3 & (n & H4) & H5 & H6). destruct (torn_frames m (c_flight c) n Hm H3) as (k & tail & e & Ht & Hs & He).
  exists k, tail. cbv zeta. assert (Hd : f_data (l_file l) = header_bytes (c_hdr c) ++ frames (c_sure c ++ take k (c_flight c)) ++ tail).
  { rewrite H4, Ht, frames_app, <- app_assoc. done. }
  split; [done|]. split; [rewrite Hd; by apply header_read|].
  rewrite (read_records_frames m _ tail e Hm); [done| |done]. apply Forall_app. split; [done|]. by apply Forall_take.
Qed.

(** The file behind the cut. *)
Lemma holds_cut l c k tail f : holds m (Some l) (Some c) ->
  let c' := mkContent (c_hdr c) (c_sure c) (take k (c_flight c)) in
  f_data (l_file l) = header_bytes (c_hdr c) ++ frames (c_sure c ++ take k (c_flight c)) ++ tail ->
  f_data f = header_bytes (c_hdr c) ++ frames (c_sure c ++ take k (c_flight c)) ->
  f_durable f = (f_durable (l_file l) `min` length (f_data f))%nat ->
  holds m (Some (with_file l f)) (Some c').
Proof using.
  intros (H1 & H2 & H3 & _ & H5 & H6) c' Hd Hf Hdur. unfold holds, c'. cbn [c_hdr c_sure c_flight with_file l_file].
  split; [done|]. split; [done|]. split; [by apply Forall_take|]. split; [|split; [|lia]].
  - exists (length (frames (take k (c_flight c)))). rewrite Hf, frames_app, firstn_all. done.
  - intros Hne. rewrite Hdur, Hf, !length_app, frames_app, length_app, header_bytes_length. specialize (H5 Hne). lia.
Qed.

Definition kept (a : state) (l : live_seg) (c : content) (k : nat) (f : file) : state :=
  mkState (a_sealed a) (Some (with_file l f)) (Some (mkContent (c_hdr c) (c_sure c) (take k (c_flight c)))).

Lemma evolves_kept a l c k f : a_content a = Some c -> evolves nothing [] a (kept a l c k f).
Proof using.
  intros Hc. unfold evolves, sure_log, full_log, kept. cbn [a_sealed a_content c_hdr c_sure c_flight]. rewrite Hc. split; [auto|].
  rewrite app_nil_r. apply sublist_app; [done|]. unfold with_gen. apply fmap_sublist. apply sublist_app; [done|]. apply sublist_take.
Qed.

Lemma truncate_live_spec a mt w l c k tail name : a_live a = Some l -> a_content a = Some c -> name = live_name (l_idx l) ->
  let size := length (header_bytes (c_hdr c) ++ frames (c_sure c ++ take k (c_flight c))) in
  f_data (l_file l) = header_bytes (c_hdr c) ++ frames (c_sure c ++ take k (c_flight c)) ++ tail ->
  let P s := exists f, At m (kept a l c k f) mt w s /\ f_data f = header_bytes (c_hdr c) ++ frames (c_sure c ++ take k (c_flight c)) in
  triple (At m a mt w) (truncateLiveSegment name (Z.of_nat size)) (fun _ => P) (fun s => At m a mt w s \/ P s).
Proof using.
  intros Hl Hc -> size Hd P. unfold truncateLiveSegment.
  eapply triple_seq; [apply (open_spec m a mt w)|done|auto|]. intros ino.
  eapply (triple_weaken _ (fun s => At m a mt w s /\ ino = l_ino l)).
  2: { intros s [Hs Hn]. split; [done|]. pose proof (at_layout _ _ _ _ _ Hs) as Hlay. rewrite Hl in Hlay. rewrite (lookup_live _ _ _ _ Hlay) in Hn. congruence. }
  apply triple_pre. intros ->.
  eapply triple_seq; [apply (stat_spec m a mt w)|done|auto|]. intros sz.
  eapply (triple_weaken _ (fun s => At m a mt w s /\ sz = Z.of_nat (length (f_data (l_file l))))).
  2: { intros s [Hs Hn]. split; [done|]. pose proof (at_layout _ _ _ _ _ Hs) as Hlay. rewrite Hl in Hlay. by rewrite (data_live _ _ _ _ Hlay) in Hn. }
  apply triple_pre. intros ->. destruct (Z.eqb_spec (Z.of_nat (length (f_data (l_file l)))) (Z.of_nat size)) as [E|E].
  - apply triple_ret. intros s [H1 H2 H3 H4]. assert (Ht : tail = []).
    { apply nil_length_inv. apply Nat2Z.inj in E. rewrite Hd, app_assoc, length_app in E. unfold size in E. lia. }
    subst tail. rewrite app_nil_r in Hd. exists (l_file l). split; [|done]. rewrite Hl in H1, H2. rewrite Hc in H2.
    assert (Hw : with_file l (l_file l) = l) by by destruct l.
    split; [cbn [kept a_sealed a_live]; by rewrite Hw| |done|done].
    cbn [kept a_live a_content]. apply (holds_cut l c k []); [done|by rewrite app_nil_r|done|]. destruct H2 as (_ & _ & _ & _ & _ & H6). lia.
  - set (f1 := cut size (l_file l)). set (f2 := synced f1).
    assert (Hf1 : f_data f1 = header_bytes (c_hdr c) ++ frames (c_sure c ++ take k (c_flight c))).
    { unfold f1, cut. cbn [f_data]. rewrite Hd, (app_assoc (header_bytes (c_hdr c))). unfold size. by rewrite take_app_length. }
    eapply (triple_bind _ _ _ (fun _ => At m (kept a l c k f1) mt w)).
    { unfold fs_truncate. rewrite Nat2Z.id. apply triple_io; [|done|].
      - intros s x d' Hs [= _ <-]. apply (update_live m a mt w s l (cut size)); [done|done|]. fold f1.
        pose proof (at_holds _ _ _ _ _ Hs) as Hh. rewrite Hl, Hc in Hh. apply (holds_cut l c k tail); [done|done|done|].
        rewrite Hf1. done.
      - intros s n Hs. left. by apply At_tick. }
    intros u. eapply (triple_bind _ _ _ (fun _ => At m (kept a l c k f2) mt w)).
    { eapply triple_conseq; [apply (fs_sync_spec m (kept a l c k f1) mt w (with_file l f1) (a_content (kept a l c k f1)) eq_refl (holds_synced m _ _))|done|done|].
      intros s Hs. right. by exists f1. }
    intros u2. eapply triple_conseq; [apply (syncdir_spec m (kept a l c k f2) mt w)|done| |].
    + intros u3 s Hs. by exists f2.
    + intros s Hs. right. by exists f2.
Qed.

Lemma live_ino_spec a mt w l {A} (k : Z -> M err A) Q R : a_live a = Some l -> (forall s, At m a mt w s -> R s) ->
  triple (At m a mt w) (k (l_ino l)) Q R -> triple (At m a mt w) (bind (fs_open (live_name (l_idx l))) k) Q R.
Proof using.
  intros Hl HR Hk. eapply triple_seq; [apply (open_spec m a mt w)|done|done|]. intros ino s [Hs Hn].
  pose proof (at_layout _ _ _ _ _ Hs) as Hlay. rewrite Hl in Hlay. rewrite (lookup_live _ _ _ _ Hlay) in Hn. injection Hn as <-. by apply Hk.
Qed.

Lemma live_index a mt w s l : At m a mt w s -> a_live a = Some l -> index_ok (l_idx l).
Proof using.
  intros Hs Hl. pose proof (lay_index _ _ _ _ (at_layout _ _ _ _ _ Hs)) as Hi. rewrite Hl in Hi. by eapply layout_index_live.
Qed.

Lemma ReopenSegment_spec a mt w l c : a_live a = Some l -> a_content a = Some c -> complete l c ->
  triple (At m a mt w) (ReopenSegment (live_name (l_idx l)) m) (fun seg s => At m a mt w s /\ writes_to seg l c) (At m a mt w).
Proof using Hm.
  intros Hl Hc Hd. unfold ReopenSegment. eapply (triple_bind _ _ _ (fun _ => At m a mt w)); [by apply triple_lift|]. intros u.
  apply live_ino_spec; [done|done|]. eapply triple_seq; [apply (stat_spec m a mt w)|done|done|]. intros size.
  eapply (triple_weaken _ (fun s => At m a mt w s /\ (size = Z.of_nat (length (f_data (l_file l))) /\ header_ok (c_hdr c) /\ index_ok (l_idx l)))).
  2: { intros s [Hs Hn]. split; [done|]. pose proof (at_layout _ _ _ _ _ Hs) as Hlay. rewrite Hl in Hlay. split; [by rewrite (data_live _ _ _ _ Hlay) in Hn|].
       split; [|by eapply live_index]. pose proof (at_holds _ _ _ _ _ Hs) as Hh. rewrite Hl, Hc in Hh. apply Hh. }
  apply triple_pre. intros (-> & Hh & Hi). unfold complete in Hd.
  assert (Hlen : (16 <= length (f_data (l_file l)))%nat) by (rewrite Hd, length_app, header_bytes_length; lia).
  destruct (Z.ltb_spec (Z.of_nat (length (f_data (l_file l)))) SegmentHeaderSize) as [E|E]; [by apply triple_fail|].
  eapply triple_seq; [apply (read_spec m a mt w _ 0)|done|done|]. intros x.
  eapply (triple_weaken _ (fun s => At m a mt w s /\ delivered (f_data (l_file l)) x)).
  2: { intros s [Hs Hx]. split; [done|]. pose proof (at_layout _ _ _ _ _ Hs) as Hlay. rewrite Hl in Hlay. by rewrite (data_live _ _ _ _ Hlay) in Hx. }
  apply triple_pre. intros Hx.
  eapply (triple_bind _ _ _ (fun y s => At m a mt w s /\ y.1 = c_hdr c)).
  { apply triple_lift; [|done]. intros [hdr r] s Hr Hs. split; [done|]. apply map_err_Ok in Hr.
    pose proof (header_read (c_hdr c) (frames (c_sure c ++ c_flight c)) Hh) as Hfull. rewrite <- Hd in Hfull.
    destruct Hx as [->|[_ [k ->]]]; cbn [fst] in *; [congruence|]. pose proof (header_more (take k (f_data (l_file l))) (drop k (f_data (l_file l)))) as H.
    rewrite Hr, take_drop in H. congruence. }
  intros y. apply triple_pre. intros Hy. unfold index_ok in Hi. unfold live_name at 1. rewrite inprogress_is_inprogress by lia. cbn [negb fst].
  pose proof (parse_inprogress (l_idx l) ltac:(lia)) as Hp. unfold parseSegmentIndex in Hp. rewrite inprogress_is_inprogress in Hp by lia.
  unfold live_name. rewrite Hp. cbn [of_option].
  eapply (triple_bind _ _ _ (fun i s => At m a mt w s /\ i = l_idx l)); [by apply triple_lift; [intros i s [= <-]|]|].
  intros i. apply triple_pre. intros ->. apply triple_ret. intros s Hs. split; [done|]. split; try done; cbn [sg_bytes sg_gen]; congruence.
Qed.

(** *** The rest of the scan *)

Lemma mapM_spec {A} (f : A -> M err unit) l (P : sys -> Prop) :
  (forall x, triple P (f x) (fun _ => P) P) -> triple P (mapM_ f l) (fun _ => P) P.
Proof using. intros Hf. induction l as [|x l IH]; cbn; [by apply triple_ret|]. eapply triple_bind; [apply Hf|]. intros u. exact IH. Qed.

Definition Core (a : state) (mt : option Meta) (w : WAL) (s : sys) : Prop := exists w', At m a mt w' s /\ same_core w w'.

Lemma core_here a mt w s : At m a mt w s -> Core a mt w s.
Proof using. intros Hs. exists w. split; [done|apply core_refl]. Qed.

Lemma core_step {A} a mt w (op : M err A) : (forall w', triple (At m a mt w') op (fun _ => Core a mt w') (Core a mt w')) ->
  triple (Core a mt w) op (fun _ => Core a mt w) (Core a mt w).
Proof using.
  intros H. apply triple_exists. intros w'. apply triple_pre. intros Hc. eapply triple_conseq; [apply H|done| |].
  - intros x s (w2 & Hs & Hc2). exists w2. split; [done|by eapply core_trans].
  - intros s (w2 & Hs & Hc2). exists w2. split; [done|by eapply core_trans].
Qed.

Lemma stats_spec a mt w es :
  triple (Core a mt w) (mapM_ (fun e => size <- fs_stat_name (fst e) ;; modify (fun w => add_total w size)) (es : list (string * Z)))
    (fun _ => Core a mt w) (Core a mt w).
Proof using.
  apply mapM_spec. intros e. apply core_step. intros w'.
  eapply triple_seq; [apply (stat_name_spec m a mt w')|done|apply core_here|]. intros n. apply modify_at. intros s Hs.
  eexists. split; [exact Hs|apply core_total].
Qed.

Lemma seeds_spec a mt w es : triple (Core a mt w) (mapM_ seed_maps es) (fun _ => Core a mt w) (Core a mt w).
Proof using.
  apply mapM_spec. intros e. apply core_step. intros w'. unfold seed_maps. apply bind_get.
  eapply triple_bind; [eapply triple_attempt, high_any|]. intros [sc|x]; [|apply triple_ret; intros s; apply core_here].
  eapply (triple_bind _ _ _ (fun _ => Core a mt w')).
  - destruct (sc_any sc); [|apply triple_ret; intros s; apply core_here]. apply modify_at. intros s Hs. eexists. split; [exact Hs|by split].
  - intros u. apply core_step. intros w2. destruct (sc_user sc); [|apply triple_ret; intros s; apply core_here].
    apply modify_at. intros s Hs. eexists. split; [exact Hs|by split].
Qed.

(** *** The whole of it *)

Definition top (es : list (string * Z)) : Z := match pickMaxByIndex es with Some e => e.2 | None => 0 end.

Lemma top_ge es e : e ∈ es -> e.2 <= top es.
Proof using. intros He. unfold top, pickMaxByIndex. destruct es as [|x es]; [by apply not_elem_of_nil in He|]. by apply (pick_max_ge snd). Qed.

Lemma top_lt es N : Forall (fun e => e.2 < N) es -> 0 < N -> top es < N.
Proof using.
  intros Hes HN. unfold top, pickMaxByIndex. destruct es as [|x es]; [done|]. rewrite Forall_forall in Hes. apply Hes, pick_max_elem.
Qed.

Lemma indexes_entries a : indexes a = (sealed_entries (a_sealed a) ++ live_entries (a_live a)).*2.
Proof using.
  unfold indexes, layout_entries, sealed_entries, live_entries. rewrite !fmap_app, <- !list_fmap_compose. done.
Qed.

Lemma top_bounds N a : bounded N a -> 0 < N -> (forall i, i ∈ indexes a -> 0 <= i) ->
  let t := Z.max (top (sealed_entries (a_sealed a))) (top (live_entries (a_live a))) in 0 <= t < N /\ bounded (t + 1) a.
Proof using.
  intros Hb HN Hpos t. unfold bounded in *. rewrite indexes_entries in *. rewrite Forall_fmap, Forall_app in *. destruct Hb as [H1 H2].
  assert (Hp : forall es, es = sealed_entries (a_sealed a) \/ es = live_entries (a_live a) -> 0 <= top es).
  { intros es Hes. unfold top, pickMaxByIndex. destruct es as [|x es]; [done|]. apply Hpos. apply list_elem_of_fmap. exists (pick_max snd x es). split; [done|].
    rewrite elem_of_app. destruct Hes as [<-|<-]; [left|right]; apply pick_max_elem. }
  pose proof (top_lt _ N H1 HN). pose proof (top_lt _ N H2 HN). pose proof (Hp _ (or_introl eq_refl)). split; [lia|].
  split; apply Forall_forall; intros e He; pose proof (top_ge _ _ He); cbn; lia.
Qed.

Lemma indexes_pos a mt w s : At m a mt w s -> forall i, i ∈ indexes a -> 0 <= i.
Proof using. intros Hs i Hi. pose proof (lay_index _ _ _ _ (at_layout _ _ _ _ _ Hs)) as H. rewrite Forall_forall in H. destruct (H _ Hi). done. Qed.

(** A log that has read no file yet. *)
Record Fresh (w : WAL) : Prop := mkFresh { fr_max : maxRec w = m; fr_closed : closed w = false; fr_fatal : fatalErr w = None; fr_current : current w = None }.

Lemma fresh_core w w' : Fresh w -> same_core w w' -> Fresh w'.
Proof using. intros [] []. split; congruence. Qed.

Lemma core_reach P a mt w a1 w1 s : (forall w2, same_core w1 w2 -> P a1 w2) -> evolves nothing [] a a1 -> keeps w w1 -> Core a1 mt w1 s ->
  Reach m nothing [] a mt w P s.
Proof using.
  intros HP He Hk (w2 & Hs & Hc). exists a1, w2. split; [done|]. split; [done|]. split; [eapply keeps_trans; [done|by apply keeps_core]|auto].
Qed.

(** The bytes of the live file. *)
Lemma live_bytes a mt w l : a_live a = Some l -> forall s ino, At m a mt w s -> names (dk s) !! live_name (l_idx l) = Some ino ->
  data_of (dk s) ino = f_data (l_file l).
Proof using.
  intros Hl s ino Hs Hn. pose proof (at_layout _ _ _ _ _ Hs) as H. rewrite Hl in H. rewrite (lookup_live _ _ _ _ H) in Hn. injection Hn as <-.
  by eapply data_live.
Qed.

Lemma short_header data : (length data < 16)%nat -> exists e, ReadSegmentHeader data = Err e.
Proof using. intros H. unfold ReadSegmentHeader, ReadFull. destruct (Nat.leb_spec 16 (length data)); [lia|]. destruct data; cbn; eauto. Qed.

(** The live file becomes the current segment. *)
Definition recover_live (e : string * Z) : M err unit :=
  lastGood <- scanForRecovery e.1 ;;
  truncateLiveSegment e.1 lastGood ;;
  w <- get ;;
  seg <- ReopenSegment e.1 (maxRec w) ;;
  put_segment seg ;;
  modify (fun w => set_next w (wrap_uint64 (sg_index seg + 1))).

Lemma recover_live_spec N a mt w l : Fresh w -> a_live a = Some l -> bounded N a -> N <= 2 ^ 64 - 1 ->
  triple (At m a mt w) (recover_live (live_name (l_idx l), l_idx l))
    (fun _ => Reach m nothing [] a mt w (Ready m N)) (Reach m nothing [] a mt w (fun a' _ => bounded N a')).
Proof using Hm.
  intros Hf Hl Hb HN. assert (Hno : forall s, Core a mt w s -> Reach m nothing [] a mt w (fun a' _ => bounded N a') s).
  { intros s Hs. eapply core_reach; [|apply evolves_refl|apply keeps_refl|exact Hs]. done. }
  unfold recover_live. cbn [fst].
  eapply triple_seq; [apply (scanForRecovery_spec a mt w _ _ (fr_max _ Hf) (live_bytes a mt w l Hl))|done|exact Hno|].
  intros good. apply triple_exists. intros w1. apply triple_pre. intros (Hc1 & hdr & r & Hh & ->).
  apply (triple_fact _ _ _ _ _ (fun s Hs => conj (at_holds _ _ _ _ _ Hs) (lay_sorted _ _ _ _ (at_layout _ _ _ _ _ Hs)))). intros [Hholds Hsorted]. rewrite Hl in Hholds.
  destruct (a_content a) as [c|] eqn:Hc.
  2: { destruct (short_header (f_data (l_file l))) as [e He]; [apply Hholds|]. congruence. }
  destruct (torn_content l c Hholds) as (k & tail & Hd & Hh' & Hr). rewrite Hh in Hh'. injection Hh' as -> ->. rewrite Hr.
  replace (SegmentHeaderSize + frames_size (c_sure c ++ take k (c_flight c)))
    with (Z.of_nat (length (header_bytes (c_hdr c) ++ frames (c_sure c ++ take k (c_flight c))))).
  2: { rewrite length_app, header_bytes_length. unfold frames_size, SegmentHeaderSize. lia. }
  assert (Hk1 : keeps w w1) by by apply keeps_core.
  assert (Hbk : forall f, bounded N (kept a l c k f)) by (intros f; unfold bounded, kept; by rewrite indexes_with_file).
  assert (Hkept : forall f s, At m (kept a l c k f) mt w1 s -> Reach m nothing [] a mt w (fun a' _ => bounded N a') s).
  { intros f s Hs. exists (kept a l c k f), w1. split; [done|]. split; [by apply evolves_kept|]. by split. }
  eapply triple_seq; [apply (truncate_live_spec a mt w1 l c k tail); done|done| |].
  { intros s [Hs|(f & Hs & _)]; [apply Hno; by exists w1|by eapply Hkept]. }
  intros u. apply triple_exists. intros f. apply triple_pre. intros Hf1. set (a1 := kept a l c k f) in *. set (l1 := with_file l f).
  set (c1 := mkContent (c_hdr c) (c_sure c) (take k (c_flight c))).
  apply bind_get. rewrite (core_max _ _ Hc1), (fr_max _ Hf).
  eapply triple_seq; [apply (ReopenSegment_spec a1 mt w1 l1 c1 eq_refl eq_refl Hf1)|done|by apply Hkept|].
  intros seg. apply triple_pre. intros Hw. apply bind_modify, modify_at. intros s Hs. eexists a1, _. split; [exact Hs|].
  split; [by apply evolves_kept|]. split; [eapply keeps_trans; [exact Hk1|by split]|]. destruct (fresh_core _ _ Hf Hc1) as [F1 F2 F3 F4].
  pose proof (live_index _ _ _ _ l1 Hs eq_refl) as [Hi1 Hi2]. cbn [l1 with_file l_idx] in Hi1, Hi2.
  assert (Hlt : l_idx l < N).
  { unfold bounded in Hb. rewrite Forall_forall in Hb. apply Hb. destruct a as [q lv ct]. cbn in Hl. subst lv. rewrite indexes_sealed_live. apply elem_of_app. right. left. }
  assert (Hnext : wrap_uint64 (sg_index seg + 1) = l_idx l + 1).
  { rewrite (wr_index _ _ _ Hw). unfold wrap_uint64. cbn. rewrite Z.mod_small; lia. }
  split; [exact F1|exact F2|exact F3| | |]; cbn [current nextIndex set_next set_current].
  - by exists l1, c1.
  - rewrite Hnext. lia.
  - rewrite Hnext. unfold bounded, a1, kept. rewrite indexes_with_file by done.
    change (StronglySorted Z.lt (indexes a)) in Hsorted. destruct a as [q lv ct]. cbn in Hl. subst lv. rewrite indexes_sealed_live in *.
    apply Forall_app. split; [|constructor; [lia|constructor]]. apply Forall_forall. intros i Hi.
    assert (i < l_idx l); [|lia]. eapply StronglySorted_app_1_elem_of; [exact Hsorted|done|left].
Qed.

(** Without a live file the newest sealed one is only scanned. *)
Lemma scan_newest_spec a mt w e : Fresh w -> pickMaxByIndex (sealed_entries (a_sealed a)) = Some e ->
  triple (At m a mt w) (scanForRecovery e.1 ;; ret tt) (fun _ => Core a mt w) (Core a mt w).
Proof using.
  intros Hf He. assert (Hin : e ∈ sealed_entries (a_sealed a)).
  { unfold pickMaxByIndex in He. destruct (sealed_entries (a_sealed a)) as [|x l]; [done|]. injection He as <-. apply pick_max_elem. }
  apply list_elem_of_fmap in Hin as (q & -> & Hq). cbn [fst].
  eapply triple_seq; [apply (scanForRecovery_spec a mt w _ _ (fr_max _ Hf) (sealed_bytes m a mt w q Hq))|done|done|].
  intros n. apply triple_ret. intros s (w' & Hs & Hc & _). by exists w'.
Qed.

Lemma after_recover P a mt w a1 w1 es : (forall w2, same_core w1 w2 -> P a1 w2) -> evolves nothing [] a a1 -> keeps w w1 ->
  triple (Core a1 mt w1)
    (mapM_ (fun e => size <- fs_stat_name (fst e) ;; modify (fun w => add_total w size)) (es : list (string * Z)) ;; mapM_ seed_maps es)
    (fun _ => Reach m nothing [] a mt w P) (Reach m nothing [] a mt w P).
Proof using.
  intros HP He Hk. eapply triple_seq; [apply stats_spec|done|intros s; by apply core_reach|]. intros u.
  eapply triple_conseq; [apply seeds_spec|done|intros v s; by apply core_reach|intros s; by apply core_reach].
Qed.

Lemma recover_spec N a mt w : Fresh w -> bounded N a -> 0 < N <= 2 ^ 64 - 1 ->
  triple (At m a mt w) recover (fun _ => Reach m nothing [] a mt w (Ready m N)) (Reach m nothing [] a mt w (fun a' _ => bounded N a')).
Proof using Hm.
  intros Hf Hb HN. assert (Hno : forall s, At m a mt w s -> Reach m nothing [] a mt w (fun a' _ => bounded N a') s) by (intros s Hs; by apply reach_here).
  unfold recover. eapply triple_seq; [apply (readdir_spec m a mt w)|done|exact Hno|]. intros ns. apply triple_pre. intros (-> & -> & _).
  apply (triple_fact _ _ _ _ _ (indexes_pos a mt w)). intros Hpos.
  destruct (top_bounds N a Hb ltac:(lia) Hpos) as [Ht Hbt]. apply bind_modify.
  fold (top (sealed_entries (a_sealed a))). fold (top (live_entries (a_live a))). set (t := Z.max _ _) in *. set (w1 := set_next w _).
  assert (Hw1 : nextIndex w1 = t + 1) by (unfold w1, wrap_uint64; cbn; rewrite Z.mod_small; lia).
  assert (Hf1 : Fresh w1) by by destruct Hf. assert (Hk1 : keeps w w1) by done.
  eapply (triple_bind _ _ _ (fun _ => Reach m nothing [] a mt w (Ready m N))).
  - destruct (a_live a) as [l|] eqn:Hl; cbn [live_entries option_list fmap list_fmap pickMaxByIndex pick_max].
    + fold (recover_live (live_name (l_idx l), l_idx l)).
      eapply triple_conseq; [apply (recover_live_spec N a mt w1 l Hf1 Hl Hb); lia|done| |].
      * intros u s Hs. by apply (reach_trans m nothing nothing [] [] a a mt w w1); [apply evolves_refl| | |].
      * intros s Hs. by apply (reach_trans m nothing nothing [] [] a a mt w w1); [apply evolves_refl| | |].
    + assert (Hr : forall w2, same_core w1 w2 -> Ready m N a w2).
      { intros w2 Hc. destruct (fresh_core _ _ Hf1 Hc) as [F1 F2 F3 F4]. split; [done..| | |].
        - by rewrite F4.
        - rewrite (core_next _ _ Hc), Hw1. lia.
        - rewrite (core_next _ _ Hc), Hw1. done. }
      destruct (pickMaxByIndex (sealed_entries (a_sealed a))) as [e|] eqn:He.
      * eapply triple_conseq; [by apply (scan_newest_spec a mt w1 e Hf1 He)|done| |].
        -- intros u s Hs. eapply core_reach; [exact Hr|apply evolves_refl|exact Hk1|exact Hs].
        -- intros s Hs. eapply core_reach; [|apply evolves_refl|exact Hk1|exact Hs]. done.
      * apply triple_ret. intros s Hs. eapply core_reach; [exact Hr|apply evolves_refl|exact Hk1|by apply core_here].
  - intros u. apply reach_pre. intros a1 w2 He Hk Hr. eapply (triple_weaken _ (Core a1 mt w2)); [|apply core_here].
    eapply triple_conseq; [apply (after_recover (Ready m N) a mt w a1 w2)|done|done|].
    + intros w3 Hc. by eapply ready_core.
    + done.
    + done.
    + intros s Hs. eapply reach_weaken; [exact Hs|done|]. intros a' w' _ _ Hr'. eapply bounded_le; [apply (rd_fresh _ _ _ _ Hr')|apply Hr'].
Qed.

End Recovery.
End Recovery.
Export Recovery.

(** ** [Open] *)
Module Starting.
Section Starting.
Context `{F : Faults} (m : Z) (Hm : max_ok m).

Definition meta_v2 (mt : option Meta) : Prop := match mt with Some M => FormatVersion M = metaFormatVersion | None => True end.

(** The position in the stored metadata. *)
Definition ack_in (mt : option Meta) : option (Z * Z) :=
  match mt with
  | Some M => if AckRecorded M then Some (AckHighWatermarkGen M, AckHighWatermarkSeq M) else None
  | None => None
  end.

Definition SameAck (mt : option Meta) (a : state) (w : WAL) (s : sys) : Prop :=
  exists mt', At m a mt' w s /\ meta_v2 mt' /\ ack_in mt' = ack_in mt.

Lemma same_here mt a w s : meta_v2 mt -> At m a mt w s -> SameAck mt a w s.
Proof using. intros Hv Hs. by exists mt. Qed.

Lemma read_meta_spec a mt w : meta_v2 mt ->
  triple (E:=err) (At m a mt w) (attempt ReadMeta)
    (fun r s => At m a mt w s /\ match r with Ok M => mt = Some M | Err ENoEnt => mt = None | Err _ => True end) (fun _ => False).
Proof using.
  intros Hv s Hs. unfold attempt, ReadMeta, bind, io. destruct (plan (ops (dk s))) as [n|].
  { split; [by apply At_tick|done]. }
  cbn [tick meta]. rewrite (at_meta _ _ _ _ _ Hs). destruct mt as [M|]; [|split; [by apply At_tick|done]]. cbn [meta_v2] in Hv. rewrite Hv.
  cbn [metaFormatVersion Z.eqb Pos.eqb ret]. split; [by apply At_tick|done].
Qed.

Lemma check_identity_spec a M w o k : meta_v2 (Some M) ->
  triple (At m a (Some M) w) (check_identity M o k) (fun _ => SameAck (Some M) a w) (SameAck (Some M) a w).
Proof using.
  intros Hv. unfold check_identity. assert (Hh : forall s, At m a (Some M) w s -> SameAck (Some M) a w s) by (intros s; by apply same_here).
  do 3 (destruct (mismatch _ _); [by apply triple_fail|]). destruct (_ || _); [|by apply triple_ret].
  eapply triple_seq; [apply (dir_has_spec m a (Some M) w)|done|done|]. intros [|]; [by apply triple_fail|].
  eapply triple_conseq; [apply (WriteMeta_spec m a (Some M) w)|done| |].
  - intros u s Hs. eexists. split; [exact Hs|done].
  - intros s [Hs|Hs]; [auto|]. eexists. split; [exact Hs|done].
Qed.

Lemma seed_identity_spec a w o k : triple (At m a None w) (seed_identity o k) (fun _ => SameAck None a w) (SameAck None a w).
Proof using.
  unfold seed_identity. assert (Hh : forall s, At m a None w s -> SameAck None a w s) by (intros s; by apply same_here).
  destruct (_ && _); [by apply triple_ret|].
  eapply triple_seq; [apply (dir_has_spec m a None w)|done|done|]. intros [|]; [by apply triple_fail|].
  eapply triple_conseq; [apply (WriteMeta_spec m a None w)|done| |].
  - intros u s Hs. eexists. split; [exact Hs|done].
  - intros s [Hs|Hs]; [auto|]. eexists. split; [exact Hs|done].
Qed.

(** What a start does to the content, and the position it goes on with. *)
Definition Started (mt : option Meta) (a : state) (P : state -> WAL -> Prop) (s : sys) : Prop :=
  exists a' mt' w', At m a' mt' w' s /\ evolves nothing [] a a' /\ meta_v2 mt' /\ ack_in mt' = ack_in mt /\ P a' w'.

Lemma same_started mt a w (P : state -> WAL -> Prop) s : P a w -> SameAck mt a w s -> Started mt a P s.
Proof using. intros HP (mt' & Hs & Hv & Ha). exists a, mt', w. split; [done|]. split; [apply evolves_refl|done]. Qed.

Lemma open_steps_spec N o a mt : meta_v2 mt -> bounded N a -> 0 < N <= 2 ^ 64 - 1 ->
  triple (At m a mt (WAL_zero o m)) (open_steps o m)
    (fun _ => Started mt a (fun a' w' => Ready m N a' w' /\ ack_of w' = ack_in mt /\ w_opts w' = o)) (Started mt a (fun a' _ => bounded N a')).
Proof using Hm.
  intros Hv Hb HN. set (w := WAL_zero o m).
  assert (Hno : forall w' s, SameAck mt a w' s -> Started mt a (fun a' _ => bounded N a') s) by (intros w' s; by apply same_started).
  unfold open_steps. eapply triple_seq; [apply (io_read m (fun d => Ok (tt, d)) a mt w); by intros d x d' [= _ <-]|done|intros s Hs; by eapply Hno, same_here|].
  intros u. apply (triple_weaken _ (At m a mt w)); [|by intros s []].
  eapply triple_seq; [apply (read_meta_spec a mt w Hv)|done|done|]. intros r.
  eapply (triple_bind _ _ _ (fun _ s => exists w', SameAck mt a w' s /\ Fresh m w' /\ ack_of w' = ack_in mt /\ w_opts w' = o)).
  - apply triple_pre. intros Hr. destruct r as [M|e].
    + subst mt. set (w1 := if AckRecorded M then set_ack w (AckHighWatermarkGen M) (AckHighWatermarkSeq M) else w).
      assert (Hw1 : Fresh m w1 /\ ack_of w1 = ack_in (Some M) /\ w_opts w1 = o) by (unfold w1, ack_in; by destruct (AckRecorded M)).
      eapply (triple_bind _ _ _ (fun _ => At m a (Some M) w1)).
      { unfold w1. destruct (AckRecorded M); [by apply modify_at|by apply triple_ret]. }
      intros u2. eapply triple_conseq; [by apply check_identity_spec|done| |by apply Hno].
      intros u3 s Hs. by exists w1.
    + assert (Hfail : triple (At m a mt w) (fail e) (fun (_ : unit) s => exists w', SameAck mt a w' s /\ Fresh m w' /\ ack_of w' = ack_in mt /\ w_opts w' = o)
        (Started mt a (fun a' _ => bounded N a'))) by (apply triple_fail; intros s Hs; by eapply Hno, same_here).
      destruct e; try exact Hfail. subst mt. eapply triple_conseq; [apply seed_identity_spec|done| |by apply Hno].
      intros u2 s Hs. by exists w.
  - intros u2. apply triple_exists. intros w1 s ((mt' & Hs & Hv' & Ha') & Hf & Hack & Ho).
    pose proof (recover_spec m Hm N a mt' w1 Hf Hb HN s Hs) as H. destruct (recover s) as [[x|e] s'].
    + destruct H as (a' & w' & Hs' & He & Hk & Hr). exists a', mt', w'. split; [done|]. split; [done|]. split; [done|]. split; [done|].
      split; [done|]. destruct Hk as [K1 K2 K3]. split; congruence.
    + destruct H as (a' & w' & Hs' & He & Hk & Hr). by exists a', mt', w'.
Qed.

Record Disk (a : state) (mt : option Meta) (d : disk) : Prop := mkDisk_ {
  dk_layout : layout m d (a_sealed a) (a_live a); dk_holds : holds m (a_live a) (a_content a); dk_meta : meta d = mt
}.

Lemma at_disk a mt w s : At m a mt w s -> Disk a mt (dk s).
Proof using. by intros []. Qed.

Lemma Open_spec N o a mt d : SegmentSize o = m + SegmentHeaderSize -> Disk a mt d -> meta_v2 mt -> bounded N a -> 0 < N <= 2 ^ 64 - 1 ->
  match Open o d with
  | (Ok w, d') => exists a' mt', At m a' mt' w (mkSys d' w) /\ evolves nothing [] a a' /\ meta_v2 mt' /\ ack_in mt' = ack_in mt /\
      Ready m N a' w /\ ack_of w = ack_in mt /\ w_opts w = o
  | (Err _, d') => exists a' mt', Disk a' mt' d' /\ evolves nothing [] a a' /\ meta_v2 mt' /\ ack_in mt' = ack_in mt /\ bounded N a'
  end.
Proof using Hm.
  intros Hsz Hd Hv Hb HN. assert (Hno : exists a' mt', Disk a' mt' d /\ evolves nothing [] a a' /\ meta_v2 mt' /\ ack_in mt' = ack_in mt /\ bounded N a').
  { exists a, mt. split; [done|]. split; [apply evolves_refl|done]. }
  unfold Open. destruct (bool_decide (Dir o = EmptyString)); [done|]. destruct (_ <=? _); [done|]. destruct (_ || _); [done|]. destruct (SyncDeferred o); [done|].
  replace (SegmentSize o - SegmentHeaderSize) with m by lia.
  assert (Hat : At m a mt (WAL_zero o m) (mkSys d (WAL_zero o m))) by by destruct Hd.
  pose proof (open_steps_spec N o a mt Hv Hb HN _ Hat) as H. destruct (open_steps o m _) as [[x|e] s'].
  - destruct H as (a' & mt' & w' & Hs & He & Hv' & Ha & Hr & Hack & Ho). pose proof (at_wal _ _ _ _ _ Hs) as ->.
    exists a', mt'. split; [by destruct Hs|]. done.
  - destruct H as (a' & mt' & w' & Hs & He & Hv' & Ha & Hbd). exists a', mt'. split; [by eapply at_disk|]. done.
Qed.

End Starting.
End Starting.
Export Starting.
