(* ===== verification/WalLocal.v ===== *)
(** * What a call depends on

    Of the plan of faults, a call looks at the operations it performs itself and at no others. *)

From Stdlib Require Import ZArith Lia Ascii String.
From stdpp Require Import base list strings gmap.
From S2P Require Import Prelude GoText GoStrings WalFrame Wal.
Open Scope string_scope.
Open Scope list_scope.
Open Scope Z_scope.

Module Local.

(** Two plans agree on the operations with these numbers. *)
Definition agree (F F' : Faults) (lo hi : nat) : Prop :=
  forall i, (lo <= i < hi)%nat -> plan (Faults:=F') i = plan (Faults:=F) i /\ read_plan (Faults:=F') i = read_plan (Faults:=F) i.

Definition local {E A} (op : Faults -> M E A) : Prop := forall F s,
  (ops (dk s) <= ops (dk (op F s).2))%nat /\
  forall F', agree F F' (ops (dk s)) (ops (dk (op F s).2)) -> op F' s = op F s.

(** ** Rules *)

Lemma agree_sub F F' lo hi lo' hi' : agree F F' lo hi -> (lo <= lo')%nat -> (hi' <= hi)%nat -> agree F F' lo' hi'.
Proof. intros H ? ? i Hi. apply H. lia. Qed.

(** Computations without operations of the file system. *)
Lemma local_pure {E A} (op : M E A) : (forall s, dk (op s).2 = dk s) -> local (fun _ => op).
Proof. intros H F s. rewrite H. split; [lia|done]. Qed.

Lemma local_bind {E A B} (op : Faults -> M E A) (k : Faults -> A -> M E B) :
  local op -> (forall x, local (fun F => k F x)) -> local (fun F => bind (op F) (k F)).
Proof.
  intros Ho Hk F s. unfold bind. destruct (Ho F s) as [H1 H2]. destruct (op F s) as [[x|e] s1] eqn:E1; cbn [snd] in *.
  - destruct (Hk x F s1) as [H3 H4]. split; [lia|]. intros F' Ha.
    rewrite H2 by (eapply agree_sub; [exact Ha|lia..]). apply H4. eapply agree_sub; [exact Ha|lia..].
  - split; [done|]. intros F' Ha. by rewrite H2.
Qed.

Lemma local_attempt {E G A} (op : Faults -> M G A) : local op -> local (fun F => attempt (E:=E) (op F)).
Proof.
  intros H F s. unfold attempt. destruct (H F s) as [H1 H2]. destruct (op F s) as [r s1] eqn:E1. cbn [snd] in *. split; [done|].
  intros F' Ha. by rewrite H2.
Qed.

Lemma local_ignore {E G A} (op : Faults -> M G A) : local op -> local (fun F => ignore (E:=E) (op F)).
Proof.
  intros H F s. unfold ignore. destruct (H F s) as [H1 H2]. split; [done|]. intros F' Ha. by rewrite H2.
Qed.

Lemma local_cleanup {E A} (op : Faults -> M E A) (h : Faults -> M E unit) : local op -> local h -> local (fun F => cleanup_on (op F) (h F)).
Proof.
  intros Ho Hh F s. unfold cleanup_on. destruct (Ho F s) as [H1 H2]. destruct (op F s) as [[x|e] s1] eqn:E1; cbn [snd] in *.
  - split; [done|]. intros F' Ha. by rewrite H2.
  - destruct (Hh F s1) as [H3 H4]. split; [lia|]. intros F' Ha.
    rewrite H2 by (eapply agree_sub; [exact Ha|lia..]). rewrite H4; [done|]. eapply agree_sub; [exact Ha|lia..].
Qed.

Lemma local_ambiguous {A} op (mm : Faults -> M err A) : local mm -> local (fun F => ambiguous op (mm F)).
Proof.
  intros H F s. unfold ambiguous. destruct (H F s) as [H1 H2]. destruct (mm F s) as [[x|e] s1] eqn:E1; cbn [snd dk] in *; (split; [done|]); intros F' Ha; by rewrite H2.
Qed.

Lemma local_state {E A} (op : Faults -> sys -> M E A) : (forall s0, local (fun F => op F s0)) -> local (fun F s => op F s s).
Proof. intros H F s. apply (H s F s). Qed.

Lemma local_io {A} (good : disk -> result err (A * disk)) fault :
  (forall d x d', good d = Ok (x, d') -> ops d' = ops d) -> (forall n d, ops (fault n d) = ops d) -> local (fun F => @io F A good fault).
Proof.
  intros Hg Hf F s. unfold io.
  assert (Hok : forall F', agree F F' (ops (dk s)) (S (ops (dk s))) -> plan (Faults:=F') (ops (dk s)) = plan (Faults:=F) (ops (dk s))).
  { intros F' Ha. apply Ha. lia. }
  destruct (plan (ops (dk s))) as [n|] eqn:Ep; cbn [snd dk].
  - rewrite Hf. cbn [tick ops]. split; [lia|]. intros F' Ha. by rewrite (Hok F' Ha).
  - destruct (good (tick (dk s))) as [[x d']|e] eqn:Eg; cbn [snd dk].
    + rewrite (Hg _ _ _ Eg). cbn [tick ops]. split; [lia|]. intros F' Ha. by rewrite (Hok F' Ha).
    + cbn [tick ops]. split; [lia|]. intros F' Ha. by rewrite (Hok F' Ha).
Qed.

Lemma local_read ino off : local (fun F => @fs_read_at F ino off).
Proof.
  intros F s. unfold fs_read_at. destruct (read_plan (ops (dk s))) as [n|] eqn:Er; cbn [snd dk tick ops]; (split; [lia|]); intros F' Ha;
    destruct (Ha (ops (dk s)) ltac:(lia)) as [_ H]; by rewrite H, Er.
Qed.

(** ** Operations *)

Create HintDb wallocal.
#[local] Hint Resolve local_read : wallocal.

(** One step of the derivation that a call is local: by its shape, or by a lemma on what it calls. *)
Ltac loc1 :=
  match goal with
  | H : local _ |- local _ => exact H
  | H : forall _, local _ |- local _ => apply H
  | |- local (fun _ => ret _) => apply local_pure; done
  | |- local (fun _ => fail _) => apply local_pure; done
  | |- local (fun _ => get) => apply local_pure; done
  | |- local (fun _ => modify _) => apply local_pure; done
  | |- local (fun _ => lift _) => apply local_pure; done
  | |- local (fun _ => cur_segment _) => apply local_pure; intros ?; unfold cur_segment, bind, get; by case_match
  | |- local (fun _ => put_segment _) => apply local_pure; done
  | |- local (fun _ => clean _ _) => apply local_pure; done
  | |- local (fun _ => bind _ _) => apply local_bind; [|intros ?]
  | |- local (fun _ => attempt _) => apply local_attempt
  | |- local (fun _ => ignore _) => apply local_ignore
  | |- local (fun _ => cleanup_on _ _) => apply local_cleanup
  | |- local (fun _ => ambiguous _ _) => apply local_ambiguous
  | |- local (fun _ => io _ _) => apply local_io; [intros ? ? ?; repeat case_match; by intros [= _ <-]|intros ? ?; by repeat case_match]
  | |- local (fun _ => if ?b then _ else _) => destruct b
  | |- local (fun _ => match ?x with _ => _ end) => destruct x
  | |- local _ => solve [auto with wallocal]
  end.
Ltac loc := repeat (cbv zeta; loc1).

Lemma local_mkdir : local (@fs_mkdir).
Proof. unfold fs_mkdir. loc. Qed.
Lemma local_readdir : local (@fs_readdir).
Proof. unfold fs_readdir. loc. Qed.
Lemma local_open name : local (fun F => @fs_open F name).
Proof. unfold fs_open. loc. Qed.
Lemma local_create name : local (fun F => @fs_create F name).
Proof. unfold fs_create. loc. Qed.
Lemma local_write ino bs : local (fun F => @fs_write F ino bs).
Proof. unfold fs_write. loc. Qed.
Lemma local_sync ino : local (fun F => @fs_sync F ino).
Proof. unfold fs_sync. loc. Qed.
Lemma local_syncdir : local (@fs_syncdir).
Proof. unfold fs_syncdir. loc. Qed.
Lemma local_close : local (@fs_close).
Proof. unfold fs_close. loc. Qed.
Lemma local_truncate ino n : local (fun F => @fs_truncate F ino n).
Proof. unfold fs_truncate. loc. Qed.
Lemma local_stat ino : local (fun F => @fs_stat F ino).
Proof. unfold fs_stat. loc. Qed.
Lemma local_stat_name name : local (fun F => @fs_stat_name F name).
Proof. unfold fs_stat_name. loc. Qed.
Lemma local_rename a b : local (fun F => @fs_rename F a b).
Proof. unfold fs_rename. loc. Qed.
Lemma local_remove name : local (fun F => @fs_remove F name).
Proof. unfold fs_remove. loc. Qed.
#[local] Hint Resolve local_mkdir local_readdir local_open local_create local_write local_sync local_syncdir local_close local_truncate
  local_stat local_stat_name local_rename local_remove : wallocal.

Lemma local_write_meta mt : local (fun F => @WriteMeta F mt).
Proof. unfold WriteMeta. loc. Qed.
Lemma local_read_meta : local (@ReadMeta).
Proof. unfold ReadMeta. loc. Qed.
Lemma local_open_segment i h n : local (fun F => @OpenSegment F i h n).
Proof. unfold OpenSegment. loc. Qed.
Lemma local_reopen name n : local (fun F => @ReopenSegment F name n).
Proof. unfold ReopenSegment, fs_read. loc. Qed.
Lemma local_write_record p : local (fun _ => Segment_WriteRecord p).
Proof. unfold Segment_WriteRecord. loc. Qed.
Lemma local_flush : local (@Flush).
Proof. unfold Flush. loc. Qed.
#[local] Hint Resolve local_write_meta local_read_meta local_open_segment local_reopen local_write_record local_flush : wallocal.
Lemma local_segment_sync : local (@Segment_Sync).
Proof. unfold Segment_Sync. loc. Qed.
#[local] Hint Resolve local_segment_sync : wallocal.
Lemma local_seal : local (@Segment_Seal).
Proof. unfold Segment_Seal. loc. Qed.
Lemma local_segment_close : local (@Segment_Close).
Proof. unfold Segment_Close. loc. Qed.
Lemma local_high name n : local (fun F => @segmentHighSeqAndGen F name n).
Proof. unfold segmentHighSeqAndGen, fs_read. loc. Qed.
#[local] Hint Resolve local_seal local_segment_close local_high : wallocal.

Lemma local_mapM {A} (f : Faults -> A -> M err unit) l : (forall x, local (fun F => f F x)) -> local (fun F => mapM_ (f F) l).
Proof. intros H. induction l as [|x l IH]; cbn [mapM_ fold_right]; loc. Qed.

Lemma local_recover : local (@recover).
Proof.
  unfold recover, scanForRecovery, fs_read, truncateLiveSegment. loc; apply local_mapM; intros ?; unfold seed_maps; loc.
Qed.

Lemma local_has_records n : local (fun F => @segmentsDirHasRecords F n).
Proof.
  unfold segmentsDirHasRecords. apply local_bind; [loc|]. intros l. induction l as [|x l IH]; cbn [has_records]; loc.
Qed.
#[local] Hint Resolve local_recover local_has_records : wallocal.

Lemma local_open_steps o n : local (fun F => @open_steps F o n).
Proof. unfold open_steps, check_identity, seed_identity. loc. Qed.

Lemma local_prune : local (@prunePerGenMaps).
Proof.
  unfold prunePerGenMaps. apply local_bind; [loc|]. intros [ns|e]; [|loc]. apply local_bind; [|intros ?; loc].
  induction (entries is_segment ns) as [|x l IH]; cbn [surviving_gens]; unfold surviving_gen, fs_read; loc.
Qed.
#[local] Hint Resolve local_prune : wallocal.

Lemma local_gc : local (@gcAcked).
Proof.
  unfold gcAcked. apply local_bind; [loc|]. intros w. destruct (negb (ackPresent w)); [loc|]. apply local_bind; [loc|]. intros ns.
  apply local_bind; [|intros [|]; loc]. induction (by_index (entries is_sealed ns)) as [|x l IH]; cbn [gc_loop]; loc.
Qed.

Lemma local_drop : local (@dropOldest).
Proof. unfold dropOldest, fs_read. loc. Qed.

Lemma local_new_segment g f : local (fun F => @openNewSegment F g f).
Proof. unfold openNewSegment. loc. Qed.
Lemma local_append_loss loss : local (fun F => @appendLossLocked F loss).
Proof. unfold appendLossLocked. loc. Qed.
Lemma local_seal_current : local (@sealCurrent).
Proof. unfold sealCurrent. loc. Qed.
#[local] Hint Resolve local_gc local_drop local_new_segment local_append_loss local_seal_current : wallocal.

Lemma local_AppendLoss loss : local (fun F => @AppendLoss F loss).
Proof. unfold AppendLoss. loc. Qed.

Lemma local_overflow fuel gen : local (fun F => @overflow_loop F fuel gen).
Proof. induction fuel as [|fuel IH]; cbn [overflow_loop]; loc. Qed.

Lemma local_reclaim gen : local (fun F => @reclaim F gen).
Proof. unfold reclaim. loc. apply (local_state (fun F s => @overflow_loop F (S (size (names (dk s)))) gen)). intros s0. apply local_overflow. Qed.

Lemma local_prepare gen len : local (fun F => @prepare_segment F gen len).
Proof. unfold prepare_segment. loc. Qed.
#[local] Hint Resolve local_reclaim local_prepare : wallocal.

Lemma local_Append seq gen p : local (fun F => @Append F seq gen p).
Proof. unfold Append. loc. Qed.

Lemma local_MarkAcked gen seq : local (fun F => @MarkAcked F gen seq).
Proof.
  unfold MarkAcked. do 4 (apply local_bind; [loc|intros ?]). apply local_bind; [|intros [|]; loc].
  match goal with |- local (fun _ => ack_loop ?es) => induction es as [|e0 l IH]; cbn [ack_loop]; loc end.
Qed.

Lemma local_Close : local (@Close).
Proof. unfold Close. loc. Qed.

End Local.
Export Local.
