(* ===== verification/WalTheorems.v ===== *)
(** * What the log promises

    Histories of appends, loss records, acknowledgements, closes and restarts, with any operation of
    the file system failing and any bytes that were not synced lost at a restart. *)

From Stdlib Require Import ZArith Lia Ascii String Sorted.
From stdpp Require Import base list strings gmap sorting.
From S2P Require Import Prelude GoText GoStrings WalFrame Wal WalDir WalSteps WalAppend WalOverflow WalAck WalRecover WalLocal.
Open Scope string_scope.
Open Scope list_scope.
Open Scope Z_scope.

(** ** Histories *)
Module History.

Inductive event : Type :=
| EvAppend (seq gen : Z) (payload : list Z)
| EvLoss (loss : LossRecord)
| EvAck (gen seq : Z)
| EvClose
| EvRestart (o : Options) (keep : Z -> nat).

(** The disk, and the log of the running process, if it could be opened. *)
Record world : Type := mkWorld { wd_disk : disk; wd_log : option WAL }.

Definition empty_world : world := mkWorld (mkDisk ∅ ∅ 0 None 0) None.

(** A crash keeps of every file what is on stable storage, and possibly more. *)
Definition crash_file (keep : nat) (f : file) : file := mkFile (take (f_durable f `max` keep) (f_data f)) (f_durable f).
Definition crash (keep : Z -> nat) (d : disk) : disk := with_files d (map_imap (fun i f => Some (crash_file (keep i) f)) (files d)).

Section Run.
Context `{F : Faults}.

Definition on_log {E A} (op : M E A) (W : world) : option (result E A) * world :=
  match wd_log W with
  | None => (None, W)
  | Some w => let '(r, s) := op (mkSys (wd_disk W) w) in (Some r, mkWorld (dk s) (Some (wl s)))
  end.

(** The outcome is that of an append. *)
Definition step (W : world) (e : event) : option (result AppendError unit) * world :=
  match e with
  | EvAppend seq gen p => on_log (Append seq gen p ;; ret tt) W
  | EvLoss loss => on_log (AppendLoss loss) W
  | EvAck gen seq => (None, (on_log (MarkAcked gen seq) W).2)
  | EvClose => (None, (on_log Close W).2)
  | EvRestart o keep =>
    (None, match Open o (crash keep (wd_disk W)) with
           | (Ok w, d) => mkWorld d (Some w)
           | (Err _, d) => mkWorld d None
           end)
  end.

Definition run (h : list event) : world := fold_left (fun W e => (step W e).2) h empty_world.

End Run.

(** *** What the files hold *)

Definition records_in (m : Z) (data : list Z) : list (Z * list Z) :=
  match ReadSegmentHeader data with
  | Ok (hdr, r) => with_gen (hd_Generation hdr) (read_records r m).1.1
  | Err _ => []
  end.

Definition file_named (d : disk) (name : string) : option file := names d !! name ≫= fun i => files d !! i.

(** The records of a file that no crash takes away, and all its records. *)
Definition stable (f : file) : list Z := take (f_durable f) (f_data f).
Definition records_of (m : Z) (view : file -> list Z) (d : disk) (name : string) : list (Z * list Z) :=
  match file_named d name with Some f => records_in m (view f) | None => [] end.

Definition all_records (m : Z) (view : file -> list Z) (d : disk) : list (Z * list Z) :=
  concat ((fun e : string * Z => records_of m view d e.1) <$> by_index (entries is_segment (dir_list d))).

Definition stored (m : Z) (d : disk) : list (Z * list Z) := all_records m stable d.
Definition on_disk (m : Z) (d : disk) : list (Z * list Z) := all_records m f_data d.

(** *** Histories that callers make *)

Definition event_ok (m : Z) (e : event) : Prop :=
  match e with
  | EvAppend seq gen p => 0 <= seq < 2 ^ 64 /\ seq <> sentinel_seq /\ uint32_range gen /\ Forall byte_range p
  | EvLoss loss => uint32_range (Generation loss)
  | EvRestart o _ => SegmentSize o = m + SegmentHeaderSize
  | _ => True
  end.

Definition appends (h : list event) : list (Z * Z) :=
  omap (fun e => match e with EvAppend seq gen _ => Some (gen, seq) | _ => None end) h.
Definition attempted (h : list event) : list (Z * list Z) :=
  omap (fun e => match e with EvAppend seq gen p => Some (gen, encodeSeqGenFrame seq gen p) | _ => None end) h.
Definition acks (h : list event) : list (Z * Z) := omap (fun e => match e with EvAck gen seq => Some (gen, seq) | _ => None end) h.

(** Sequences do not go back within a generation. *)
Definition not_back (x y : Z * Z) : Prop := x.1 = y.1 -> x.2 <= y.2.

Record history_ok (m : Z) (h : list event) : Prop := mkHistory {
  hs_events : Forall (event_ok m) h;
  hs_order : StronglySorted not_back (appends h);
  hs_length : Z.of_nat (length h) < 2 ^ 62
}.

(** Some acknowledged position covers the record. *)
Definition acknowledged (h : list event) (y : Z * list Z) : Prop := exists p, p ∈ acks h /\ acked_at (Some p) y.

Definition is_data (y : Z * list Z) : Prop := data_seq y.2 <> None.
#[global] Instance is_data_dec y : Decision (is_data y).
Proof. unfold is_data. apply _. Defined.

End History.
Export History.

(** ** Files and content *)
Module Files.
Section Files.
Context (m : Z) (Hm : max_ok m).

Lemma records_frames hdr ps tail e : header_ok hdr -> Forall (payload_ok m) ps -> stops m tail e ->
  records_in m (header_bytes hdr ++ frames ps ++ tail) = with_gen (hd_Generation hdr) ps.
Proof using Hm. intros Hh Hp Ht. unfold records_in. rewrite header_read by done. by rewrite (read_records_frames m ps tail e Hm Hp Ht). Qed.

Lemma records_short data : (length data < 16)%nat -> records_in m data = [].
Proof using. intros H. unfold records_in. by destruct (short_header data H) as [e ->]. Qed.

Lemma records_sealed q : header_ok (q_hdr q) -> Forall (payload_ok m) (q_recs q) -> records_in m (seg_bytes q) = seg_log q.
Proof using Hm.
  intros Hh Hp. unfold seg_bytes. rewrite <- (app_nil_r (frames (q_recs q))). by apply (records_frames _ _ [] EOF); [| |apply stops_nil].
Qed.

(** Cutting the bytes of a file anywhere leaves a prefix of its records. *)
Lemma records_cut hdr ps n : header_ok hdr -> Forall (payload_ok m) ps ->
  exists k, records_in m (take n (header_bytes hdr ++ frames ps)) = with_gen (hd_Generation hdr) (take k ps).
Proof using Hm.
  intros Hh Hp. destruct (Nat.lt_ge_cases n 16) as [Hn|Hn].
  { exists O. apply records_short. rewrite length_take. lia. }
  rewrite take_app_ge by (rewrite header_bytes_length; lia). destruct (torn_frames m ps (n - length (header_bytes hdr)) Hm Hp) as (k & tail & e & -> & Hs & _).
  exists k. apply (records_frames _ _ _ e); [done|by apply Forall_take|done].
Qed.

(** *** The directory *)

Section view.
Context (view : file -> list Z) (a : state) (mt : option Meta) (d : disk) (Hd : Disk m a mt d).

Definition live_view : list (Z * list Z) := match a_live a with Some l => records_in m (view (l_file l)) | None => [] end.

Lemma all_records_split : (forall q, view (seg_file q) = seg_bytes q) -> all_records m view d = sealed_log (a_sealed a) ++ live_view.
Proof using Hm Hd.
  intros Hv. unfold all_records. rewrite (list_all m d (a_sealed a) (a_live a) (dk_layout _ _ _ _ Hd)). rewrite fmap_app, concat_app. f_equal.
  - pose proof (lay_sealed _ _ _ _ (dk_layout _ _ _ _ Hd)) as Hs. unfold sealed_entries, sealed_log. rewrite <- list_fmap_compose. f_equal.
    apply list_fmap_ext. intros i q Hq. unfold compose. cbn [fst]. unfold records_of, file_named. apply list_elem_of_lookup_2 in Hq.
    rewrite (lookup_sealed _ _ _ _ _ (dk_layout _ _ _ _ Hd) Hq). cbn [mbind option_bind]. rewrite Forall_forall in Hs. destruct (Hs _ Hq) as (Hf & Hh & Hp).
    rewrite Hf, Hv. by apply records_sealed.
  - unfold live_view, live_entries. pose proof (dk_layout _ _ _ _ Hd) as Hl. destruct (a_live a) as [l|]; [|done].
    change (records_of m view d (live_name (l_idx l)) ++ [] = records_in m (view (l_file l))). rewrite app_nil_r. unfold records_of, file_named. rewrite (lookup_live _ _ _ _ Hl). cbn [mbind option_bind].
    by rewrite (lay_live _ _ _ _ Hl).
Qed.

End view.

Lemma stable_sealed q : stable (seg_file q) = seg_bytes q.
Proof using. unfold stable, seg_file. cbn [f_data f_durable]. apply firstn_all. Qed.

Lemma records_of_sealed a mt d q : Disk m a mt d -> q ∈ a_sealed a -> records_of m stable d (segmentName (q_idx q)) = seg_log q.
Proof using Hm.
  intros Hd Hq. pose proof (lay_sealed _ _ _ _ (dk_layout _ _ _ _ Hd)) as Hs. rewrite Forall_forall in Hs. destruct (Hs _ Hq) as (Hf & Hh & Hp).
  unfold records_of, file_named. rewrite (lookup_sealed _ _ _ _ _ (dk_layout _ _ _ _ Hd) Hq). cbn [mbind option_bind]. rewrite Hf, stable_sealed.
  by apply records_sealed.
Qed.

(** *** What is on disk is a part of what was written *)

Lemma on_disk_full a mt d : Disk m a mt d -> sublist (on_disk m d) (full_log a).
Proof using Hm.
  intros Hd. unfold on_disk. rewrite (all_records_split f_data a mt d Hd) by done. unfold full_log. apply sublist_app; [done|].
  pose proof (dk_holds _ _ _ _ Hd) as Hh. unfold live_view. destruct (a_live a) as [l|]; [|apply sublist_nil_l].
  destruct (a_content a) as [c|]; cbn [holds] in Hh.
  - destruct Hh as (H1 & H2 & H3 & (n & H4) & _). rewrite H4.
    replace (header_bytes (c_hdr c) ++ frames (c_sure c) ++ take n (frames (c_flight c)))
      with (take (length (header_bytes (c_hdr c)) + (length (frames (c_sure c)) + n)) (header_bytes (c_hdr c) ++ frames (c_sure c ++ c_flight c)))
      by (by rewrite frames_app, !take_app_add).
    destruct (records_cut (c_hdr c) (c_sure c ++ c_flight c) (length (header_bytes (c_hdr c)) + (length (frames (c_sure c)) + n))) as [k ->];
      [done|by apply Forall_app; split|]. unfold with_gen. apply fmap_sublist, sublist_take.
  - rewrite records_short by lia. done.
Qed.

(** *** What is on stable storage *)

Definition split_at (c : content) (k : nat) : content := mkContent (c_hdr c) (c_sure c ++ take k (c_flight c)) (drop k (c_flight c)).

Lemma split_same c k : c_sure (split_at c k) ++ c_flight (split_at c k) = c_sure c ++ c_flight c.
Proof using. unfold split_at. cbn [c_sure c_flight]. by rewrite <- app_assoc, take_drop. Qed.

(** The records on stable storage are counted as such. *)
Lemma live_stable l c : holds m (Some l) (Some c) ->
  exists k, records_in m (stable (l_file l)) = with_gen (hd_Generation (c_hdr c)) (c_sure (split_at c k)) /\ holds m (Some l) (Some (split_at c k)).
Proof using Hm.
  intros Hh. pose proof Hh as (H1 & H2 & H3 & (n & H4) & H5 & H6). set (D := f_durable (l_file l)) in *. unfold stable. fold D.
  destruct (Nat.lt_ge_cases D (16 + length (frames (c_sure c)))) as [HD|HD].
  { assert (Hs : c_sure c = []) by (destruct (c_sure c); [done|]; specialize (H5 ltac:(done)); lia).
    exists O. rewrite records_short.
    2: { rewrite length_take. rewrite Hs in HD. cbn [frames fmap list_fmap concat length] in HD. lia. }
    unfold split_at. rewrite take_0, drop_0, app_nil_r, Hs. split; [done|]. rewrite <- Hs. by destruct c. }
  set (j := (D - 16 - length (frames (c_sure c)))%nat).
  assert (Ht : take D (f_data (l_file l)) = header_bytes (c_hdr c) ++ frames (c_sure c) ++ take (j `min` n) (frames (c_flight c))).
  { rewrite H4. rewrite take_app_ge by (rewrite header_bytes_length; lia). rewrite take_app_ge by (rewrite header_bytes_length; lia).
    rewrite header_bytes_length, take_take. done. }
  destruct (torn_frames m (c_flight c) (j `min` n) Hm H3) as (k & tail & e & Hk & Hs & _). exists k.
  assert (Hlen : (length (frames (take k (c_flight c))) <= j `min` n)%nat).
  { apply (f_equal length) in Hk. rewrite length_take, length_app in Hk. lia. }
  split.
  - rewrite Ht, Hk. unfold split_at. cbn [c_sure]. rewrite (app_assoc (frames (c_sure c))), <- frames_app.
    apply (records_frames _ _ _ e); [done| |done]. apply Forall_app. split; [done|by apply Forall_take].
  - unfold holds, split_at. cbn [c_hdr c_sure c_flight]. split; [done|].
    split; [apply Forall_app; split; [done|by apply Forall_take]|]. split; [by apply Forall_drop|]. split; [|split; [|done]].
    + exists (n - length (frames (take k (c_flight c))))%nat. rewrite H4, frames_app, <- app_assoc. do 2 f_equal.
      rewrite <- (take_drop k (c_flight c)) at 1. rewrite frames_app, take_app_ge by lia. done.
    + intros _. rewrite frames_app, length_app. fold D. lia.
Qed.

(** A state of the same files that counts as stored exactly what is. *)
Record resplit (a a' : state) : Prop := mkResplit {
  rs_sealed : a_sealed a' = a_sealed a;
  rs_live : a_live a' = a_live a;
  rs_content : match a_content a with Some c => exists k, a_content a' = Some (split_at c k) | None => a_content a' = None end
}.

Lemma resplit_full a a' : resplit a a' -> full_log a' = full_log a.
Proof using.
  intros [H1 H2 H3]. unfold full_log. rewrite H1. f_equal. destruct (a_content a) as [c|]; [|by rewrite H3]. destruct H3 as [k ->].
  by rewrite split_same.
Qed.

Lemma resplit_sure a a' : resplit a a' -> sure_log a ⊆ sure_log a'.
Proof using.
  intros [H1 H2 H3]. unfold sure_log. rewrite H1. destruct (a_content a) as [c|]; [|by rewrite H3]. destruct H3 as [k ->].
  unfold split_at, with_gen. cbn [c_hdr c_sure]. rewrite fmap_app. intros x. rewrite !elem_of_app. tauto.
Qed.

Lemma stored_spec a mt d : Disk m a mt d -> exists a', resplit a a' /\ Disk m a' mt d /\ stored m d = sure_log a'.
Proof using Hm.
  intros Hd. unfold stored. rewrite (all_records_split stable a mt d Hd stable_sealed). unfold live_view. pose proof Hd as [Hl Hh Hmt].
  destruct a as [q [l|] c]; cbn [a_sealed a_live a_content] in *.
  - destruct c as [c|].
    + destruct (live_stable l c Hh) as (k & E & Hh'). exists (mkState q (Some l) (Some (split_at c k))). split; [split; [done..|by exists k]|].
      split; [done|]. unfold sure_log. cbn [a_sealed a_content]. by rewrite E.
    + exists (mkState q (Some l) None). split; [done|]. split; [done|]. unfold sure_log. cbn [a_sealed a_content]. f_equal.
      apply records_short. unfold stable. rewrite length_take. cbn in Hh. lia.
  - exists (mkState q None c). split; [split; [done..|]|].
    + destruct c; [done|done].
    + split; [done|]. unfold sure_log. cbn [a_sealed a_content]. by destruct c.
Qed.

Lemma sure_stored a mt d : Disk m a mt d -> sure_log a ⊆ stored m d.
Proof using Hm. intros Hd. destruct (stored_spec a mt d Hd) as (a' & Hr & _ & ->). by apply resplit_sure. Qed.

Lemma ready_resplit n a a' w : resplit a a' -> Ready m n a w -> Ready m n a' w.
Proof using.
  intros [R1 R2 R3] [H1 H2 H3 H4 H5 H6]. split; [done..| |done|].
  - destruct (current w) as [seg|]; cbn [has_current] in *; [|congruence]. destruct H4 as (l & c & Hl & Hc & Hw). rewrite Hc in R3. destruct R3 as [k Hk].
    exists l, (split_at c k). split; [congruence|]. split; [done|]. destruct Hw. split; [done..| |done]. by rewrite split_same.
  - unfold bounded, indexes in *. by rewrite R1, R2.
Qed.

Lemma quiet_resplit n a a' w : resplit a a' -> Quiet m n a w -> Quiet m n a' w.
Proof using.
  intros [R1 R2 R3] [H1 H2 H3]. split; [done| |unfold bounded, indexes in *; by rewrite R1, R2]. by rewrite R2.
Qed.

(** *** Crashes *)

Lemma crash_sealed k q : crash_file k (seg_file q) = seg_file q.
Proof using. unfold crash_file, seg_file. cbn [f_durable f_data]. f_equal. apply firstn_all2. lia. Qed.

Lemma crash_holds l c keep : holds m (Some l) (Some c) ->
  exists c', holds m (Some (with_file l (crash_file keep (l_file l)))) c' /\
    match c' with
    | Some c' => c_hdr c' = c_hdr c /\ c_sure c' = c_sure c /\ c_flight c' = c_flight c
    | None => c_sure c = []
    end.
Proof using.
  intros Hh. pose proof Hh as (H1 & H2 & H3 & (n & H4) & H5 & H6). unfold holds, with_file, crash_file. cbn [l_file f_data f_durable].
  set (K := (f_durable (l_file l) `max` keep)%nat).
  destruct (Nat.lt_ge_cases K (16 + length (frames (c_sure c)))) as [HK|HK].
  { assert (Hs : c_sure c = []) by (destruct (c_sure c); [done|]; specialize (H5 ltac:(done)); lia).
    exists None. split; [|done]. rewrite length_take. rewrite Hs in HK. cbn [frames fmap list_fmap concat length] in HK. lia. }
  exists (Some c). split; [|done]. split; [done|]. split; [done|]. split; [done|]. split; [|split; [done|rewrite length_take; lia]].
  exists ((K - 16 - length (frames (c_sure c))) `min` n)%nat. rewrite H4. rewrite take_app_ge by (rewrite header_bytes_length; lia).
  rewrite take_app_ge by (rewrite header_bytes_length; lia). by rewrite header_bytes_length, take_take.
Qed.

Lemma crash_spec a mt d keep N : Disk m a mt d -> bounded N a ->
  exists a', Disk m a' mt (crash keep d) /\ evolves nothing [] a a' /\ bounded N a'.
Proof using.
  intros [Hl Hh Hmt] Hb.
  assert (Hlay : layout m (crash keep d) (a_sealed a) ((fun l => with_file l (crash_file (keep (l_ino l)) (l_file l))) <$> a_live a)).
  { destruct Hl as [L1 L2 L3 L4 L5 L6 L7].
    assert (E : layout_entries (a_sealed a) ((fun l => with_file l (crash_file (keep (l_ino l)) (l_file l))) <$> a_live a) = layout_entries (a_sealed a) (a_live a)).
    { unfold layout_entries. by destruct (a_live a). }
    split; rewrite ?E; try done.
    - eapply Forall_impl; [exact L6|]. intros q (Hf & Hr). split; [|done]. cbn [crash with_files files]. rewrite map_lookup_imap, Hf. cbn. by rewrite crash_sealed.
    - destruct (a_live a) as [l|]; [|done]. cbn [fmap option_fmap option_map with_file l_ino l_file crash with_files files]. by rewrite map_lookup_imap, L7. }
  destruct a as [q [l|] c]; cbn [a_sealed a_live a_content fmap option_fmap option_map] in *.
  - set (l' := with_file l (crash_file (keep (l_ino l)) (l_file l))) in *.
    assert (Hb' : forall c', bounded N (mkState q (Some l') c')) by (intros c'; exact Hb).
    destruct c as [c|].
    + destruct (crash_holds l c (keep (l_ino l)) Hh) as (c' & Hh' & Hc'). exists (mkState q (Some l') c'). split; [done|]. split; [|done].
      unfold evolves, sure_log, full_log. cbn [a_sealed a_content]. rewrite app_nil_r. destruct c' as [c'|].
      * destruct Hc' as (-> & -> & ->). split; [auto|done].
      * rewrite Hc'. split; [auto|]. apply sublist_app; [done|apply sublist_nil_l].
    + exists (mkState q (Some l') None). split; [|split; [apply evolves_same; done|done]]. split; [done| |done].
      cbn [a_live a_content holds] in *. unfold l', with_file, crash_file. cbn [l_file f_data f_durable]. rewrite length_take. lia.
  - exists (mkState q None c). split; [done|]. split; [apply evolves_refl|done].
Qed.

End Files.
End Files.
Export Files.

(** ** The invariant of histories *)
Module Invariant.
Section Invariant.
Context `{F : Faults} (m : Z) (Hm : max_ok m).

Definition known (h : list event) (ack : option (Z * Z)) : Prop := match ack with Some p => p ∈ acks h | None => True end.

(** A user record, or a marker. *)
Definition proper (y : Z * list Z) : Prop := is_data y \/ marker y.

(** The process runs, or it has failed or was closed and takes no more records. *)
Definition log_ok (N : Z) (a : state) (w : WAL) : Prop :=
  Ready m N a w \/ Quiet m N a w /\ (closed w = true \/ fatalErr w <> None).

Record Inv (N : Z) (h : list event) (a : state) (mt : option Meta) (W : world) : Prop := mkInv {
  iv_disk : Disk m a mt (wd_disk W);
  iv_meta : meta_v2 mt;
  iv_bounded : bounded N a;
  iv_ack : known h (ack_in mt);
  iv_written : sublist (filter is_data (full_log a)) (attempted h);
  iv_known : Forall proper (full_log a);
  iv_log : match wd_log W with Some w => known h (ack_of w) /\ log_ok N a w | None => True end
}.

(** *** Order *)

Lemma ordered_data l : ordered (filter is_data l) -> ordered l.
Proof using.
  unfold ordered. induction l as [|x l IH]; [constructor|]. rewrite filter_cons. destruct (decide (is_data x)) as [Hx|Hx].
  - inversion 1 as [|? ? Hs Hall]; subst. constructor; [auto|]. rewrite Forall_forall in *. intros y Hy He s t Hs' Ht.
    eapply Hall; [|exact He|exact Hs'|exact Ht]. apply list_elem_of_filter. split; [|done]. unfold is_data. congruence.
  - intros H. constructor; [auto|]. apply Forall_forall. intros y Hy _ s t Hs' _. destruct Hx. unfold is_data. congruence.
Qed.

Lemma attempted_ordered h : Forall (event_ok m) h -> StronglySorted not_back (appends h) -> ordered (attempted h).
Proof using.
  unfold ordered. induction h as [|e h IH]; [constructor|]. inversion 1 as [|? ? He Hh]; subst. destruct e; cbn [appends attempted omap list_omap]; auto.
  fold (appends h). fold (attempted h). inversion 1 as [|? ? Hs Hall]; subst. constructor; [auto|].
  destruct He as (H1 & H2 & H3 & H4). apply Forall_forall. intros y Hy Hg s t Es Et.
  unfold attempted in Hy. apply list_elem_of_omap in Hy as (e & He & Hy). destruct e as [seq' gen' p'| | | |]; try done. injection Hy as <-. cbn [fst snd] in *. subst gen'.
  rewrite Forall_forall in Hh. destruct (Hh _ He) as (G1 & G2 & G3 & G4).
  unfold data_seq in Es, Et. rewrite user_record_no_marker, parse_encode in Es, Et by done. cbn in Es, Et. injection Es as <-. injection Et as <-.
  rewrite Forall_forall in Hall. apply (Hall (gen, seq')); [|done]. unfold appends. apply list_elem_of_omap. by exists (EvAppend seq' gen p').
Qed.

Lemma attempted_app h e : attempted (h ++ [e]) = attempted h ++ attempted [e].
Proof using. unfold attempted. apply omap_app. Qed.
Lemma acks_app h e : acks (h ++ [e]) = acks h ++ acks [e].
Proof using. unfold acks. apply omap_app. Qed.
Lemma known_app h e o : known h o -> known (h ++ [e]) o.
Proof using. destruct o as [p|]; [|done]. cbn. rewrite acks_app. intros H. apply elem_of_app. by left. Qed.

(** *** What a step may do to the records on stable storage *)

(** A user record stays, or may go, or is in the range of a stored marker, or in a file that an
    append lost which reported that it may have failed halfway. *)
Definition accounted (may_go : Z * list Z -> Prop) (W : world) (r : option (result AppendError unit)) (W' : world) : Prop :=
  exists name, forall y seq, y ∈ stored m (wd_disk W) -> data_seq y.2 = Some seq ->
    y ∈ stored m (wd_disk W') \/ may_go y \/
    (exists g loss, (g, encodeLossPayload loss) ∈ stored m (wd_disk W') /\ Generation loss = y.1 /\ FromSequence loss <= seq <= ToSequence loss) \/
    (exists e, r = Some (Err e) /\ IsAmbiguous e = true /\ y ∈ records_of m stable (wd_disk W) name).

(** What a step may remove: acknowledged records, and any when reads fail. *)
Definition excused (h : list event) (y : Z * list Z) : Prop := unread \/ acknowledged h y.

Lemma accounted_evolves h (X : Z * list Z -> Prop) ps a a' mt mt' W r W' :
  Disk m a mt (wd_disk W) -> Disk m a' mt' (wd_disk W') -> stored m (wd_disk W) = sure_log a -> evolves X ps a a' ->
  (forall y, X y -> excused h y) -> accounted (excused h) W r W'.
Proof using Hm.
  intros Hd Hd' Hst [He _] HX. exists ""%string. intros y seq Hy _. rewrite Hst in Hy. destruct (He y Hy) as [H|H]; [left|right; left; auto].
  by apply (sure_stored m Hm a' mt').
Qed.

Lemma filter_mono {A} (P : A -> Prop) `{forall x, Decision (P x)} l l' : sublist l l' -> sublist (filter P l) (filter P l').
Proof using.
  clear. induction 1 as [|x l l' Hs IH|x l l' Hs IH]; [done|rewrite !filter_cons; case_decide; [by apply sublist_skip|done]|].
  rewrite filter_cons. case_decide; [by apply sublist_cons|done].
Qed.

Lemma written_evolves X ps a a' h e : evolves X ps a a' -> sublist (filter is_data (full_log a)) (attempted h) ->
  sublist (filter is_data ps) (attempted [e]) -> sublist (filter is_data (full_log a')) (attempted (h ++ [e])).
Proof using.
  intros [_ He] Hw Hp. rewrite attempted_app. etrans; [by apply filter_mono|]. rewrite filter_app. by apply sublist_app.
Qed.

Lemma proper_evolves X ps a a' : evolves X ps a a' -> Forall proper (full_log a) -> Forall proper ps -> Forall proper (full_log a').
Proof using. intros [_ Hs] H1 H2. eapply Forall_sublist; [|exact Hs]. by apply Forall_app. Qed.

Lemma proper_markers ps : Forall marker ps -> Forall proper ps.
Proof using. intros H. eapply Forall_impl; [exact H|]. by right. Qed.

Lemma known_acked h w y : known h (ack_of w) -> acked_by w y -> excused h y.
Proof using. unfold acked_by, excused, known, acknowledged. intros H [?|Hy]; [by left|right]. revert H Hy. destruct (ack_of w) as [p|]; [|done]. intros Hp Hy. by exists p. Qed.

Lemma markers_no_data ps : Forall marker ps -> filter is_data ps = [].
Proof using.
  induction 1 as [|x ps Hx _ IH]; [done|]. rewrite filter_cons_False; [done|]. intros Hn. apply Hn. by apply marker_no_data.
Qed.

(** *** Steps *)

(** An append that succeeded has put its record on stable storage. *)
Definition landed (e : event) (r : option (result AppendError unit)) (W' : world) : Prop :=
  match e, r with
  | EvAppend seq gen p, Some (Ok _) => (gen, encodeSeqGenFrame seq gen p) ∈ stored m (wd_disk W')
  | EvLoss loss, Some (Ok _) => exists g, (g, encodeLossPayload loss) ∈ stored m (wd_disk W')
  | _, _ => True
  end.

(** An append that fails either changed nothing or has stopped the log. *)
Definition stops_log (r : option (result AppendError unit)) (W W' : world) : Prop :=
  match r with
  | Some (Err e) => if IsAmbiguous e then exists w, wd_log W' = Some w /\ fatalErr w <> None else W' = W
  | _ => True
  end.

Definition Step (N : Z) (h : list event) (e : event) (W : world) : Prop :=
  forall a mt, Inv N h a mt W -> event_ok m e -> ordered (attempted (h ++ [e])) -> 0 < N -> N + 3 <= 2 ^ 64 - 1 ->
  stored m (wd_disk W) = sure_log a ->
  let '(r, W') := step W e in accounted (excused (h ++ [e])) W r W' /\ landed e r W' /\ stops_log r W W' /\ exists a' mt', Inv (N + 3) (h ++ [e]) a' mt' W'.

Lemma disk_at a mt W w : Disk m a mt (wd_disk W) -> At m a mt w (mkSys (wd_disk W) w).
Proof using. by intros []. Qed.

(** Nothing happened. *)
Lemma inv_weaken N h e a mt W : Inv N h a mt W -> Inv (N + 3) (h ++ [e]) a mt W.
Proof using.
  intros [H1 H2 H3 H4 H5 H7 H6]. split; [done|done|eapply bounded_le; [done|lia]|by apply known_app| |done|].
  - rewrite attempted_app. by apply sublist_inserts_r.
  - destruct (wd_log W) as [w|]; [|done]. destruct H6 as [Hk Hl]. split; [by apply known_app|].
    destruct Hl as [Hr|[Hq Hc]]; [left; eapply ready_le; [done|lia]|right; split; [eapply quiet_le; [done|lia]|done]].
Qed.

Lemma accounted_same X W r : accounted X W r W.
Proof using. exists ""%string. auto. Qed.

(** A start, or an operation that is not an append: what it loses was acknowledged. *)
Lemma step_restart N h o keep W : Step N h (EvRestart o keep) W.
Proof using Hm.
  intros a mt [H1 H2 H3 H4 H5 H7 H6] Ho Hord Hpos HN Hst. cbn [step event_ok] in *.
  destruct (crash_spec m a mt (wd_disk W) keep N H1 H3) as (a1 & Hd1 & He1 & Hb1).
  pose proof (Open_spec m Hm N o a1 mt _ Ho Hd1 H2 Hb1 ltac:(lia)) as H. destruct (Open o (crash keep (wd_disk W))) as [[w|e] d'].
  - destruct H as (a' & mt' & Hs & He & Hv & Ha & Hr & Hack & Hopt). assert (Hd' : Disk m a' mt' d') by (by destruct Hs).
    assert (He' : evolves nothing [] a a') by exact (evolves_trans nothing [] [] _ _ _ He1 He).
    split; [|split; [done|split; [done|]]].
    + by eapply (accounted_evolves _ nothing []).
    + exists a', mt'. split; [done|done| | | |by eapply proper_evolves|].
      * eapply bounded_le; [apply (rd_fresh _ _ _ _ Hr)|]. pose proof (rd_below _ _ _ _ Hr). lia.
      * rewrite Ha. by apply known_app.
      * by eapply written_evolves.
      * cbn. rewrite Hack. split; [by apply known_app|]. left. eapply ready_le; [done|lia].
  - destruct H as (a' & mt' & Hd' & He & Hv & Ha & Hb). assert (He' : evolves nothing [] a a') by exact (evolves_trans nothing [] [] _ _ _ He1 He).
    split; [|split; [done|split; [done|]]].
    + by eapply (accounted_evolves _ nothing []).
    + exists a', mt'. split; [done|done|eapply bounded_le; [done|lia]|rewrite Ha; by apply known_app|by eapply written_evolves|by eapply proper_evolves|done].
Qed.

Lemma log_quiet N a w : log_ok N a w -> Quiet m N a w.
Proof using. intros [H|[H _]]; [by apply ready_quiet|done]. Qed.

Lemma step_close N h W : Step N h EvClose W.
Proof using Hm.
  intros a mt Hi Ho Hord Hpos HN Hst. pose proof Hi as [H1 H2 H3 H4 H5 H7 H6]. cbn [step]. unfold on_log. destruct (wd_log W) as [w|] eqn:Ew.
  2: { split; [apply accounted_same|]. split; [done|]. split; [done|]. exists a, mt. by apply inv_weaken. }
  destruct H6 as [Hk Hl]. pose proof (Close_spec m N a mt w (log_quiet _ _ _ Hl) _ (disk_at _ _ _ _ H1)) as H.
  destruct (Close _) as [r s']. assert (Hc : Closed m N a mt w s') by (by destruct r). clear H.
  destruct Hc as (a' & w' & Hs & He & Hack & Hopt & Hcl & Hq). pose proof (at_disk _ _ _ _ _ Hs) as Hd'.
  split; [|split; [done|split; [done|]]].
  - by eapply (accounted_evolves _ nothing []).
  - exists a', mt. split; [done|done|eapply bounded_le; [apply (qt_bounded _ _ _ _ Hq)|lia]|by apply known_app|by eapply written_evolves|by eapply proper_evolves|].
    cbn [snd wd_log]. rewrite (at_wal _ _ _ _ _ Hs), Hack. split; [by apply known_app|]. right. split; [eapply quiet_le; [done|lia]|by left].
Qed.

Lemma raised_same w gen seq : same_core w (raised w gen seq) \/ raised w gen seq = set_ack w gen seq.
Proof using. unfold raised. destruct (ack_advances w gen seq); [by right|left; apply core_refl]. Qed.

Lemma log_raised N a w gen seq : log_ok N a w -> log_ok N a (raised w gen seq).
Proof using.
  unfold raised. destruct (ack_advances w gen seq); [|done]. intros [[]|[[] Hc]]; [by left|by right].
Qed.

Lemma log_restrict N a w w' sealed : log_ok N a w -> same_core w w' -> sublist sealed (a_sealed a) -> log_ok N (restrict a sealed) w'.
Proof using.
  intros [Hr|[Hq Hc]] Hcore Hs; [left; by eapply ready_restrict|right]. split; [by eapply quiet_restrict|].
  by rewrite (core_closed _ _ Hcore), (core_fatal _ _ Hcore).
Qed.

Lemma log_le N N' a w : log_ok N a w -> N <= N' -> log_ok N' a w.
Proof using. intros [Hr|[Hq Hc]] Hn; [left; by eapply ready_le|right; split; [by eapply quiet_le|done]]. Qed.

Lemma step_ack N h gen seq W : Step N h (EvAck gen seq) W.
Proof using Hm.
  intros a mt Hi Ho Hord Hpos HN Hst. pose proof Hi as [H1 H2 H3 H4 H5 H7 H6]. cbn [step]. unfold on_log. destruct (wd_log W) as [w|] eqn:Ew.
  2: { split; [apply accounted_same|]. split; [done|]. split; [done|]. exists a, mt. by apply inv_weaken. }
  destruct H6 as [Hk Hl]. set (w1 := raised w gen seq).
  pose proof (MarkAcked_spec m Hm gen seq a mt w (qt_max _ _ _ _ (log_quiet _ _ _ Hl)) _ (disk_at _ _ _ _ H1)) as H. fold w1 in H.
  destruct (MarkAcked gen seq _) as [r s']. assert (Hc : Acked m w1 a mt s') by (by destruct r). clear H.
  destruct Hc as (mt' & Hmt & (q & w' & Hs & He & Hcore & Hsub)). pose proof (at_disk _ _ _ _ _ Hs) as Hd'.
  assert (Hk1 : known (h ++ [EvAck gen seq]) (ack_of w1)).
  { destruct (raised_ack w gen seq) as [E|[E _]]; fold w1 in E; rewrite E; [|by apply known_app]. cbn. rewrite acks_app. apply elem_of_app. right. left. }
  assert (Hk2 : known (h ++ [EvAck gen seq]) (ack_in mt')).
  { destruct Hmt as [-> | ->]; [by apply known_app|]. unfold ack_of in Hk1. cbn. destruct (raised_ack w gen seq) as [E|[E Hp]].
    - fold w1 in E. unfold ack_of in E. destruct (ackPresent w1); [|done]. done.
    - unfold w1, raised in *. destruct (ack_advances w gen seq); cbn in *; [done|]. by rewrite Hp in Hk1. }
  split; [|split; [done|split; [done|]]].
  - eapply (accounted_evolves _ (acked_by w1) [] a _ mt mt'); [done|exact Hd'|done|exact He|]. intros y. by apply known_acked.
  - exists (restrict a q), mt'. split; [exact Hd'|destruct Hmt as [->| ->]; done| |exact Hk2|by eapply written_evolves|by eapply proper_evolves|].
    + eapply bounded_le; [by apply bounded_restrict|lia].
    + cbn [snd wd_log]. rewrite (at_wal _ _ _ _ _ Hs). split; [by rewrite (ack_core _ _ Hcore)|].
      eapply log_le; [eapply log_restrict; [by apply log_raised|exact Hcore|exact Hsub]|lia].
Qed.

(** *** Errors of an append *)

Definition only_ambiguous {A} (op : M AppendError A) : Prop := forall s, match (op s).1 with Err e => IsAmbiguous e = true | Ok _ => True end.

Lemma oa_ret {A} (x : A) : only_ambiguous (ret x).
Proof using. done. Qed.
Lemma oa_amb {A} op (mm : M err A) : only_ambiguous (ambiguous op mm).
Proof using. intros s. unfold ambiguous. by destruct (mm s) as [[x|e] s']. Qed.
Lemma oa_bind {A B} (op : M AppendError A) (k : A -> M AppendError B) :
  only_ambiguous op -> (forall x, only_ambiguous (k x)) -> only_ambiguous (bind op k).
Proof using. intros H Hk s. unfold bind. specialize (H s). destruct (op s) as [[x|e] s']; [apply Hk|done]. Qed.
Lemma oa_get {A} (k : WAL -> M AppendError A) : (forall w, only_ambiguous (k w)) -> only_ambiguous (bind get k).
Proof using. intros Hk s. unfold bind, get. apply Hk. Qed.
Lemma oa_modify f : only_ambiguous (modify f).
Proof using. done. Qed.
Lemma oa_current (k : Segment -> M AppendError unit) : (forall x, only_ambiguous (k x)) ->
  only_ambiguous (bind (cur_segment (mkAppendError FailureAmbiguous EmptyString (CauseErr ENil))) k).
Proof using. intros Hk. apply oa_bind; [|done]. intros s. unfold cur_segment, bind, get. by destruct (current (wl s)). Qed.

Create HintDb walamb.
#[local] Hint Resolve oa_ret oa_amb oa_bind oa_get oa_modify : walamb.

Lemma oa_overflow gen fuel : only_ambiguous (overflow_loop fuel gen).
Proof using.
  induction fuel as [|fuel IH]; cbn [overflow_loop]; [done|]. apply oa_get. intros w. destruct (negb (over_budget w)); [done|].
  apply oa_bind; [apply oa_amb|]. intros [[loss|]|]; [|exact IH|done]. apply oa_get. intros w2.
  apply oa_bind; [case_bool_decide; auto with walamb|]. intros u. auto with walamb.
Qed.

Lemma oa_reclaim gen : only_ambiguous (reclaim gen).
Proof using.
  unfold reclaim. apply oa_get. intros w. destruct (negb (over_budget w)); [done|]. apply oa_bind; [apply oa_amb|]. intros u s. apply oa_overflow.
Qed.

Lemma oa_prepare gen len : only_ambiguous (prepare_segment gen len).
Proof using.
  unfold prepare_segment. apply oa_get. intros w. apply oa_bind.
  { destruct (current w) as [seg|]; [|done]. destruct (_ !=? _)%go; auto 10 with walamb. }
  intros rolled. apply oa_get. intros w2. apply oa_bind; [case_bool_decide; auto with walamb|]. intros u.
  apply oa_bind; [|intros seg; apply oa_bind; [destruct (_ <? _); auto with walamb|auto with walamb]].
  intros s. unfold cur_segment, bind, get. by destruct (current (wl s)).
Qed.

Lemma oa_loss loss w d : closed w = false -> fatalErr w = None ->
  match AppendLoss loss (mkSys d w) with (Err e, _) => IsAmbiguous e = true | (Ok _, _) => True end.
Proof using.
  intros Hc Hf. unfold AppendLoss, bind at 1, get at 1. cbn [wl]. rewrite Hc, Hf.
  match goal with |- match ?op ?s with _ => _ end => assert (H : only_ambiguous op) end.
  { apply oa_bind; [case_bool_decide; auto with walamb|]. intros u. apply oa_bind; [apply oa_amb|]. intros u2. apply oa_bind; [apply oa_amb|]. intros u3.
    apply oa_current. auto with walamb. }
  specialize (H (mkSys d w)). by destruct (bind _ _ _) as [[x|e] s'].
Qed.

(** An append that fails cleanly changes nothing. *)
Lemma append_clean seq gen p s e s' : Append seq gen p s = (Err e, s') -> IsAmbiguous e = false -> s' = s.
Proof using.
  unfold Append. unfold bind at 1, get at 1. destruct (closed (wl s)); [by intros [= _ <-]|]. destruct (fatalErr (wl s)); [by intros [= _ <-]|].
  destruct (_ <? _); [by intros [= _ <-]|]. intros E Hc. exfalso.
  match type of E with ?op s = _ => assert (H : only_ambiguous op) end.
  { apply oa_bind; [apply oa_reclaim|]. intros u. apply oa_bind; [apply oa_prepare|]. intros rolled. auto 10 with walamb. }
  specialize (H s). rewrite E in H. cbn in H. congruence.
Qed.

Lemma append_too_large seq gen p s e s' : Append seq gen p s = (Err e, s') -> too_large (wl s) p = true -> IsAmbiguous e = false.
Proof using.
  unfold Append. unfold bind at 1, get at 1. destruct (closed (wl s)); [by intros [= <- _]|]. destruct (fatalErr (wl s)); [by intros [= <- _]|].
  fold (too_large (wl s) p). intros E Ht. rewrite Ht in E. by injection E as <- _.
Qed.

Lemma append_stopped seq gen p d w : closed w = true \/ fatalErr w <> None -> exists e, Append seq gen p (mkSys d w) = (Err e, mkSys d w) /\ IsAmbiguous e = false.
Proof using.
  intros H. unfold Append, bind at 1, get at 1. cbn [wl]. destruct (closed w); [by eexists|]. destruct (fatalErr w); [by eexists|].
  by destruct H.
Qed.

Lemma loss_stopped loss d w : closed w = true \/ fatalErr w <> None -> exists e, AppendLoss loss (mkSys d w) = (Err e, mkSys d w) /\ IsAmbiguous e = false.
Proof using.
  intros H. unfold AppendLoss, bind at 1, get at 1. cbn [wl]. destruct (closed w); [by eexists|]. destruct (fatalErr w); [by eexists|].
  by destruct H.
Qed.

(** *** Appends *)

Lemma world_same W w : wd_log W = Some w -> mkWorld (wd_disk W) (Some w) = W.
Proof using. intros <-. by destruct W. Qed.

Lemma known_snoc_acked h e w y : known h (ack_of w) -> acked_by w y -> excused (h ++ [e]) y.
Proof using. intros Hk. apply known_acked. by apply known_app. Qed.

Lemma covered_stored ps a' mt' W' y seq : Disk m a' mt' (wd_disk W') -> ps ⊆ sure_log a' -> covered ps y -> data_seq y.2 = Some seq ->
  exists g loss, (g, encodeLossPayload loss) ∈ stored m (wd_disk W') /\ Generation loss = y.1 /\ FromSequence loss <= seq <= ToSequence loss.
Proof using Hm.
  intros Hd Hps Hc Hs. unfold covered in Hc. rewrite Hs in Hc. destruct Hc as (g & loss & H1 & H2). exists g, loss. split; [|done].
  by apply (sure_stored m Hm a' mt' _ Hd), Hps.
Qed.

Lemma inv_reached N h e a mt W a' w' s (X : Z * list Z -> Prop) ps w :
  Inv N h a mt W -> wd_log W = Some w -> At m a' mt w' s -> evolves X ps a a' -> keeps w w' -> sublist (filter is_data ps) (attempted [e]) ->
  Forall proper ps -> log_ok (N + 3) a' w' -> Inv (N + 3) (h ++ [e]) a' mt (mkWorld (dk s) (Some (wl s))).
Proof using.
  intros [H1 H2 H3 H4 H5 H7 H6] Ew Hs He Hk Hp Hpr Hl. rewrite Ew in H6. destruct H6 as [Hk6 _]. rewrite (at_wal _ _ _ _ _ Hs).
  split; cbn [wd_disk wd_log]; [by eapply at_disk|done|by apply log_quiet in Hl as []|by apply known_app|by eapply written_evolves|by eapply proper_evolves|].
  split; [rewrite (kp_ack _ _ Hk); by apply known_app|done].
Qed.

Lemma append_is_data seq gen p : 0 <= seq < 2 ^ 64 -> seq <> sentinel_seq -> uint32_range gen -> is_data (gen, encodeSeqGenFrame seq gen p).
Proof using. intros H1 H2 H3. unfold is_data, data_seq. cbn [snd]. by rewrite user_record_no_marker, parse_encode. Qed.

Section append.
Context (N : Z) (h : list event) (seq gen : Z) (p : list Z) (W : world) (a : state) (mt : option Meta) (w : WAL).
Context (Hi : Inv N h a mt W) (Ew : wd_log W = Some w) (Hst : stored m (wd_disk W) = sure_log a).
Let e := EvAppend seq gen p.
Let x := (gen, encodeSeqGenFrame seq gen p).
Context (Hx : is_data x).

Lemma data_sub ps : Forall marker ps -> sublist (filter is_data (ps ++ [x])) (attempted [e]).
Proof using. intros Hp. rewrite filter_app, markers_no_data by done. apply sublist_filter. Qed.

Lemma proper_sub ps : Forall marker ps -> Forall proper (ps ++ [x]).
Proof using Hx.
  intros Hp. apply Forall_app. split; [by apply proper_markers|]. constructor; [|constructor]. left. exact Hx.
Qed.

Lemma append_ok_world s r : Appended m (N + 3) x a mt w s ->
  let W' := mkWorld (dk s) (Some (wl s)) in
  accounted (excused (h ++ [e])) W r W' /\ x ∈ stored m (wd_disk W') /\ exists a' mt', Inv (N + 3) (h ++ [e]) a' mt' W'.
Proof using Hm Hi Ew Hst Hx.
  intros (ps & Hps & (a' & w' & Hs & He & Hk & Hr & Hin & Hx0)) W'. pose proof (at_disk _ _ _ _ _ Hs) as Hd'.
  pose proof (iv_log _ _ _ _ _ Hi) as Hl. rewrite Ew in Hl. split; [|split].
  - exists ""%string. intros y s0 Hy Hsy. rewrite Hst in Hy. destruct He as [He _]. destruct (He y Hy) as [H|[H|H]].
    + left. by apply (sure_stored m Hm a' mt _ Hd').
    + right. left. by eapply known_snoc_acked; [apply Hl|].
    + right. right. left. by eapply covered_stored.
  - by apply (sure_stored m Hm a' mt _ Hd').
  - exists a', mt. eapply inv_reached; [exact Hi|exact Ew|exact Hs|exact He|exact Hk|by apply data_sub|by apply proper_sub|by left].
Qed.

Lemma append_broken_world s er : Broken m (N + 3) [x] a mt w s -> IsAmbiguous er = true ->
  let W' := mkWorld (dk s) (Some (wl s)) in
  accounted (excused (h ++ [e])) W (Some (Err er)) W' /\ fatalErr (wl s) <> None /\ exists a' mt', Inv (N + 3) (h ++ [e]) a' mt' W'.
Proof using Hm Hi Ew Hst Hx.
  intros (ps & qs & D & Hps & HD & (a' & w' & Hs & He & Hk & (Hq & Hf) & Hin & _)) Her W'. pose proof (at_disk _ _ _ _ _ Hs) as Hd'.
  pose proof (iv_log _ _ _ _ _ Hi) as Hl. rewrite Ew in Hl. split; [|split; [by rewrite (at_wal _ _ _ _ _ Hs)|]].
  - assert (Hname : exists name, D ⊆ records_of m stable (wd_disk W) name).
    { destruct HD as [->|(q & Hqa & ->)]; [exists ""%string; apply list_subseteq_nil|]. exists (segmentName (q_idx q)).
      by rewrite (records_of_sealed m Hm a mt _ q (iv_disk _ _ _ _ _ Hi) Hqa). }
    destruct Hname as [name Hname]. exists name. intros y s0 Hy Hsy. rewrite Hst in Hy. destruct He as [He _]. destruct (He y Hy) as [H|[H|[H|H]]].
    + left. by apply (sure_stored m Hm a' mt _ Hd').
    + right. left. by eapply known_snoc_acked; [apply Hl|].
    + right. right. left. by eapply covered_stored.
    + right. right. right. exists er. auto.
  - exists a', mt. eapply inv_reached; [exact Hi|exact Ew|exact Hs|exact He|exact Hk| | |].
    + rewrite app_assoc. by apply data_sub.
    + rewrite app_assoc. by apply proper_sub.
    + right. split; [done|]. by right.
Qed.

End append.

Lemma full_ordered N h e a mt W : Inv N h a mt W -> ordered (attempted (h ++ [e])) -> ordered (full_log a).
Proof using.
  intros Hi Ho. apply ordered_data. eapply ordered_sublist; [exact Ho|]. rewrite attempted_app. apply sublist_inserts_r. apply (iv_written _ _ _ _ _ Hi).
Qed.

Lemma step_append N h seq gen p W : Step N h (EvAppend seq gen p) W.
Proof using Hm.
  intros a mt Hi (E1 & E2 & E3 & E4) Hord Hpos HN Hst. cbn [step]. unfold on_log. pose proof (append_is_data seq gen p E1 E2 E3) as Hx.
  assert (Hsame : forall r, (match r with Some (Ok _) => False | Some (Err e) => IsAmbiguous e = false | None => True end) ->
    accounted (excused (h ++ [EvAppend seq gen p])) W r W /\ landed (EvAppend seq gen p) r W /\ stops_log r W W /\
    exists a' mt', Inv (N + 3) (h ++ [EvAppend seq gen p]) a' mt' W).
  { intros r Hr. split; [apply accounted_same|]. split; [by destruct r as [[]|]|]. split; [|exists a, mt; by apply inv_weaken].
    destruct r as [[u|er]|]; cbn; [done|by rewrite Hr|done]. }
  destruct (wd_log W) as [w|] eqn:Ew; [|by apply Hsame].
  pose proof (iv_log _ _ _ _ _ Hi) as Hl. rewrite Ew in Hl. destruct Hl as [Hk [Hr|[_ Hstop]]].
  - pose proof (Append_spec m Hm seq gen p N a mt w E3 E4 HN Hr (full_ordered _ _ _ _ _ _ Hi Hord) _ (disk_at _ _ _ w (iv_disk _ _ _ _ _ Hi))) as H.
    unfold bind. destruct (Append seq gen p _) as [[b|er] s'] eqn:EA; cbn [ret].
    + destruct (append_ok_world N h seq gen p W a mt w Hi Ew Hst Hx s' (Some (Ok tt)) H) as (A1 & A2 & A3). done.
    + destruct (IsAmbiguous er) eqn:Ea.
      * destruct H as [[Ht _]|H]; [by rewrite (append_too_large _ _ _ _ _ _ EA) in Ea|].
        destruct (append_broken_world N h seq gen p W a mt w Hi Ew Hst Hx s' er H Ea) as (A1 & A2 & A3). split; [done|]. split; [done|]. split; [|done].
        cbn [stops_log]. rewrite Ea. by exists (wl s').
      * apply append_clean in EA; [|done]. subst s'. cbn [dk wl]. rewrite (world_same W w Ew). by apply Hsame.
  - destruct (append_stopped seq gen p (wd_disk W) w Hstop) as (er & EA & Ha). unfold bind. rewrite EA. cbn [dk wl].
    rewrite (world_same W w Ew). by apply Hsame.
Qed.

Lemma step_loss N h loss W : Step N h (EvLoss loss) W.
Proof using Hm.
  intros a mt Hi Hev Hord Hpos HN Hst. cbn [step event_ok] in *. unfold on_log. set (e := EvLoss loss) in *.
  assert (Hsame : forall r, (match r with Some (Ok _) => False | Some (Err e) => IsAmbiguous e = false | None => True end) ->
    accounted (excused (h ++ [e])) W r W /\ landed e r W /\ stops_log r W W /\ exists a' mt', Inv (N + 3) (h ++ [e]) a' mt' W).
  { intros r Hr. split; [apply accounted_same|]. split; [by destruct r as [[]|]|]. split; [|exists a, mt; by apply inv_weaken].
    destruct r as [[u|er]|]; cbn; [done|by rewrite Hr|done]. }
  destruct (wd_log W) as [w|] eqn:Ew; [|by apply Hsame].
  pose proof (iv_log _ _ _ _ _ Hi) as Hl. rewrite Ew in Hl. destruct Hl as [Hk [Hr|[_ Hstop]]].
  - pose proof (AppendLoss_spec m Hm loss N a mt w Hev ltac:(lia) Hr _ (disk_at _ _ _ w (iv_disk _ _ _ _ _ Hi))) as H.
    assert (Hsub : forall g, sublist (filter is_data [(g, encodeLossPayload loss)]) (attempted [e]) /\ Forall proper [(g, encodeLossPayload loss)]).
    { intros g. assert (Hg : Forall marker [(g, encodeLossPayload loss)]) by (constructor; [by eexists|constructor]).
      rewrite markers_no_data by done. split; [apply sublist_nil_l|by apply proper_markers]. }
    pose proof (oa_loss loss w (wd_disk W) (rd_closed _ _ _ _ Hr) (rd_fatal _ _ _ _ Hr)) as Hoa. destruct (AppendLoss loss _) as [[u|er] s'].
    + destruct H as (g & a' & w' & Hs & He & Hkp & Hr' & Hx). pose proof (at_disk _ _ _ _ _ Hs) as Hd'. split; [|split; [|split; [done|]]].
      * by eapply (accounted_evolves _ nothing _ a a' mt mt); [apply (iv_disk _ _ _ _ _ Hi)|exact Hd'|done|exact He|].
      * exists g. by apply (sure_stored m Hm a' mt _ Hd').
      * exists a', mt. eapply inv_reached; [exact Hi|exact Ew|exact Hs|exact He|exact Hkp|apply Hsub|apply Hsub|]. left. eapply ready_le; [done|lia].
    + destruct H as (g & a' & w' & Hs & He & Hkp & Hq & Hf). pose proof (at_disk _ _ _ _ _ Hs) as Hd'.
      split; [|split; [done|split; [cbn [stops_log]; rewrite Hoa; exists (wl s'); by rewrite (at_wal _ _ _ _ _ Hs)|]]].
      * by eapply (accounted_evolves _ nothing _ a a' mt mt); [apply (iv_disk _ _ _ _ _ Hi)|exact Hd'|done|exact He|].
      * exists a', mt. eapply inv_reached; [exact Hi|exact Ew|exact Hs|exact He|exact Hkp|apply Hsub|apply Hsub|]. right. split; [eapply quiet_le; [done|lia]|by right].
  - destruct (loss_stopped loss (wd_disk W) w Hstop) as (er & EA & Ha). rewrite EA. cbn [dk wl]. rewrite (world_same W w Ew). by apply Hsame.
Qed.

(** *** Histories *)

Lemma step_spec N h e W : Step N h e W.
Proof using Hm. destruct e; [apply step_append|apply step_loss|apply step_ack|apply step_close|apply step_restart]. Qed.

Lemma inv_resplit N h a mt W : Inv N h a mt W -> exists a', Inv N h a' mt W /\ stored m (wd_disk W) = sure_log a'.
Proof using Hm.
  intros [H1 H2 H3 H4 H5 H7 H6]. destruct (stored_spec m Hm a mt _ H1) as (a' & Hr & Hd & Hst). exists a'. split; [|done].
  split; [done|done| |done|by rewrite (resplit_full _ _ Hr)..|].
  - unfold bounded, indexes in *. by rewrite (rs_sealed _ _ Hr), (rs_live _ _ Hr).
  - destruct (wd_log W) as [w|]; [|done]. destruct H6 as [Hk Hl]. split; [done|].
    destruct Hl as [Hl|[Hl Hc]]; [left; by eapply ready_resplit|right; split; [by eapply quiet_resplit|done]].
Qed.

Lemma inv_empty : Inv 1 [] (mkState [] None None) None empty_world.
Proof using.
  split; [|done|constructor|done|done|constructor|done]. split; [|done..]. split; try done; constructor.
Qed.

Lemma history_prefix h e : history_ok m (h ++ [e]) -> history_ok m h.
Proof using.
  intros [H1 H2 H3]. apply Forall_app in H1 as [H1 _]. split; [done| |rewrite length_app in H3; cbn in H3; lia].
  unfold appends in *. rewrite omap_app in H2. by apply StronglySorted_app_1_l in H2.
Qed.

Lemma wal_run_snoc h e : run (h ++ [e]) = (step (run h) e).2.
Proof using. unfold run. by rewrite fold_left_app. Qed.

Definition index_bound (h : list event) : Z := 3 * Z.of_nat (length h) + 1.

Lemma run_step h e W : history_ok m (h ++ [e]) -> (exists a mt, Inv (index_bound h) h a mt W) ->
  let '(r, W') := step W e in
  accounted (excused (h ++ [e])) W r W' /\ landed e r W' /\ stops_log r W W' /\ exists a' mt', Inv (index_bound (h ++ [e])) (h ++ [e]) a' mt' W'.
Proof using Hm.
  intros Hh (a & mt & Hi). destruct (inv_resplit _ _ _ _ _ Hi) as (a1 & Hi1 & Hst). pose proof (hs_length _ _ Hh) as Hlen. rewrite length_app in Hlen. cbn [length] in Hlen.
  pose proof (hs_events _ _ Hh) as Hev. pose proof Hev as Hev'. apply Forall_app in Hev' as [_ He]. apply Forall_inv in He.
  replace (index_bound (h ++ [e])) with (index_bound h + 3) by (unfold index_bound; rewrite length_app; cbn; lia).
  apply (step_spec (index_bound h) h e W a1 mt Hi1 He); [|unfold index_bound; lia..|done].
  apply attempted_ordered; [done|apply (hs_order _ _ Hh)].
Qed.

Lemma run_inv h : history_ok m h -> exists a mt, Inv (index_bound h) h a mt (run h).
Proof using Hm.
  induction h as [|e h IH] using rev_ind; intros Hh.
  - eexists _, _. apply inv_empty.
  - pose proof (run_step h e (run h) Hh (IH (history_prefix _ _ Hh))) as H. rewrite wal_run_snoc. destruct (step (run h) e) as [r W']. apply H.
Qed.

End Invariant.

(** *** What a step depends on *)

Lemma on_log_local {E A} (op : Faults -> M E A) F F' W : local op -> agree F F' (ops (wd_disk W)) (ops (wd_disk (on_log (op F) W).2)) ->
  on_log (op F') W = on_log (op F) W.
Proof.
  intros Hl. unfold on_log. destruct (wd_log W) as [w|]; [|done]. destruct (Hl F (mkSys (wd_disk W) w)) as [_ H]. cbn [dk] in H.
  destruct (op F (mkSys (wd_disk W) w)) as [r s] eqn:Er. cbn [snd dk wd_disk] in *. intros Ha. by rewrite (H F' Ha).
Qed.

Lemma step_local F F' W e : agree F F' (ops (wd_disk W)) (ops (wd_disk (step (F:=F) W e).2)) -> step (F:=F') W e = step (F:=F) W e.
Proof.
  destruct e as [seq gen p|loss|gen seq| |o keep]; cbn [step].
  - intros Ha. apply (on_log_local (fun F => bind (@Append F seq gen p) (fun _ => ret tt))); [|done].
    apply local_bind; [apply local_Append|]. intros x. by apply local_pure.
  - apply (on_log_local (fun F => @AppendLoss F loss)), local_AppendLoss.
  - cbn [snd]. intros Ha. by rewrite (on_log_local (fun F => @MarkAcked F gen seq) F F' W (local_MarkAcked gen seq) Ha).
  - cbn [snd]. intros Ha. by rewrite (on_log_local (@Close) F F' W local_Close Ha).
  - unfold Open. destruct (_ ==? _)%go; [done|]. destruct (_ <=? _); [done|]. destruct (_ || _); [done|]. destruct (SyncDeferred o); [done|].
    set (n := SegmentSize o - SegmentHeaderSize). set (s := mkSys (crash keep (wd_disk W)) (WAL_zero o n)).
    destruct (local_open_steps o n F s) as [_ Hl]. destruct (open_steps (F:=F) o n s) as [[u|x] s'];
      cbn [snd dk wd_disk] in *; intros Ha; by rewrite (Hl F' Ha).
Qed.

End Invariant.
Export Invariant.

(** ** Theorems *)
Module Promises.

(** A plan without failures, and options with room for about two records a file and three files. *)
Definition no_faults : Faults := mkFaults (fun _ => None) (fun _ => None).
Definition small_options : Options := mkOptions "wal" 116 300 false EmptyString EmptyString EmptyString.
Definition sample : list event :=
  EvRestart small_options (fun _ => O) :: ((fun i => EvAppend (Z.of_nat i) 1 (replicate 20 7)) <$> seq 1 12).

Definition event_okb (m : Z) (e : event) : bool :=
  match e with
  | EvAppend seq gen p => (0 <=? seq) && (seq <? 2 ^ 64) && negb (seq =? sentinel_seq) && (0 <=? gen) && (gen <? 2 ^ 32) &&
      forallb (fun b => (0 <=? b) && (b <? 256)) p
  | EvLoss loss => (0 <=? Generation loss) && (Generation loss <? 2 ^ 32)
  | EvRestart o _ => SegmentSize o =? m + SegmentHeaderSize
  | _ => true
  end.

Fixpoint sortedb (l : list (Z * Z)) : bool :=
  match l with [] => true | x :: l' => forallb (fun y : Z * Z => negb (x.1 =? y.1) || (x.2 <=? y.2)) l' && sortedb l' end.

Lemma history_check m h : forallb (event_okb m) h && sortedb (appends h) && (Z.of_nat (length h) <? 2 ^ 62) = true -> history_ok m h.
Proof.
  rewrite !andb_true_iff, Z.ltb_lt. intros [[H1 H2] H3]. split; [| |done].
  - apply forallb_Forall in H1. eapply Forall_impl; [exact H1|]. intros [seq gen p|loss|g s| |o k]; cbn [event_okb event_ok]; [|unfold uint32_range, max_uint32; lia|done|done|lia].
    rewrite !andb_true_iff, forallb_Forall. intros (((((? & ?) & ?) & ?) & ?) & Hp). split; [lia|]. split; [lia|]. split; [unfold uint32_range, max_uint32; lia|].
    eapply Forall_impl; [exact Hp|]. cbn. unfold byte_range. lia.
  - clear H1 H3. induction (appends h) as [|x l IH]; [constructor|]. cbn in H2. apply andb_true_iff in H2 as [H2 H4]. constructor; [auto|].
    apply forallb_Forall in H2. eapply Forall_impl; [exact H2|]. unfold not_back. intros y Hy. apply orb_true_iff in Hy as [Hy|Hy]; lia.
Qed.

(** C10. In every history whose appends do not go back within a generation and whose restarts keep
    the segment size, whatever operations of the file system fail, reads included, whenever the
    process dies and whatever bytes a crash takes that were not synced: an operation during which no
    read of a file's content fails keeps a user record on stable storage unless an acknowledged
    position covers it, or a loss marker whose range contains it has just been put on stable
    storage, or an append reported that it may have failed halfway, which excuses the records of at
    most one file.  And an append that reports success has put its record, or its loss marker, on
    stable storage, also when reads fail.  (What a failed read does: [failed_read_loses].) *)
Theorem wal_records_accounted `{F : Faults} m h e : max_ok m -> history_ok m (h ++ [e]) ->
  let '(r, W') := step (run h) e in
  ((forall i, (ops (wd_disk (run h)) <= i < ops (wd_disk W'))%nat -> read_plan i = None) -> accounted m (acknowledged (h ++ [e])) (run h) r W') /\
  landed m e r W'.
Proof.
  intros Hm Hh. pose proof (run_inv m Hm h (history_prefix m h e Hh)) as Hi. pose proof (run_step m Hm h e (run h) Hh Hi) as Hl.
  destruct (step (run h) e) as [r W'] eqn:E. split; [|apply Hl]. intros Hr.
  assert (Ha : agree F (mkFaults plan (fun _ => None)) (ops (wd_disk (run h))) (ops (wd_disk (step (run h) e).2))) by (rewrite E; intros i Hi'; cbn; by rewrite Hr).
  apply step_local in Ha. pose proof (run_step (F:=mkFaults plan (fun _ => None)) m Hm h e (run h) Hh Hi) as H. rewrite Ha, E in H.
  destruct H as ((name & H) & _). exists name. intros y seq Hy Hs. destruct (H y seq Hy Hs) as [?|[[[n Hn]|?]|?]]; [auto|by destruct Hn|auto..].
Qed.

Lemma wal_records_accounted_witness :
  let F := no_faults in
  let '(r, W') := step (F:=F) (run (F:=F) sample) (EvAppend 13 2 [1; 2]) in
  accounted 100 (acknowledged (sample ++ [EvAppend 13 2 [1; 2]])) (run (F:=F) sample) r W' /\ landed 100 (EvAppend 13 2 [1; 2]) r W'.
Proof.
  assert (H : history_ok 100 (sample ++ [EvAppend 13 2 [1; 2]])) by (apply history_check; by vm_compute).
  pose proof (wal_records_accounted (F:=no_faults) 100 sample (EvAppend 13 2 [1; 2]) ltac:(split; by vm_compute) H) as G.
  cbv zeta. destruct (step (F:=no_faults) (run (F:=no_faults) sample) (EvAppend 13 2 [1; 2])) as [r W']. split; [apply (proj1 G)|apply (proj2 G)]. done.
Defined.

(** C11. At every time the user records in the files, read in the order of the files, are a
    subsequence of those handed to [Append]: a crash, a failed write or a restart never makes a
    record up, changes one, repeats one or swaps two. *)
Theorem wal_disk_subsequence `{F : Faults} m h : max_ok m -> history_ok m h ->
  sublist (filter is_data (on_disk m (wd_disk (run h)))) (attempted h).
Proof.
  intros Hm Hh. destruct (run_inv m Hm h Hh) as (a & mt & Hi). etrans; [|apply (iv_written _ _ _ _ _ _ Hi)].
  apply filter_mono. eapply on_disk_full; [done|apply (iv_disk _ _ _ _ _ _ Hi)].
Qed.

Lemma wal_disk_subsequence_witness :
  let F := no_faults in
  data_seq <$> (filter is_data (on_disk 100 (wd_disk (run (F:=F) sample)))).*2 = [Some 9; Some 10; Some 11; Some 12] /\
  sublist (filter is_data (on_disk 100 (wd_disk (run (F:=F) sample)))) (attempted sample).
Proof.
  split; [by vm_compute|]. apply (wal_disk_subsequence (F:=no_faults)); [split; by vm_compute|]. apply history_check. by vm_compute.
Defined.

Definition is_append (e : event) : bool := match e with EvAppend _ _ _ | EvLoss _ => true | _ => false end.

(** C12. An append that fails cleanly has changed nothing.  One that may have failed halfway stops the
    log: every later append is refused cleanly, and nothing is written any more. *)
Theorem wal_fail_stop `{F : Faults} m h e x W' : max_ok m -> history_ok m (h ++ [e]) -> step (run h) e = (Some (Err x), W') ->
  if IsAmbiguous x
  then forall e', is_append e' = true -> exists x', step W' e' = (Some (Err x'), W') /\ IsAmbiguous x' = false
  else W' = run h.
Proof.
  intros Hm Hh E. pose proof (run_step m Hm h e (run h) Hh (run_inv m Hm h (history_prefix m h e Hh))) as H. rewrite E in H.
  destruct H as (_ & _ & Hs & _). cbn [stops_log] in Hs. destruct (IsAmbiguous x); [|done]. destruct Hs as (w & Hw & Hf). intros e' He'.
  destruct e' as [seq gen p|loss| | |]; try done; cbn [step]; unfold on_log; rewrite Hw.
  - destruct (append_stopped seq gen p (wd_disk W') w (or_intror Hf)) as (x' & E' & Hx'). exists x'. split; [|done].
    unfold bind. rewrite E'. cbn [dk wl]. by rewrite (world_same W' w Hw).
  - destruct (loss_stopped loss (wd_disk W') w (or_intror Hf)) as (x' & E' & Hx'). exists x'. split; [|done].
    rewrite E'. cbn [dk wl]. by rewrite (world_same W' w Hw).
Qed.

(** The operation with the given number fails, after so many bytes if it writes. *)
Definition fault_at (k n : nat) : Faults := mkFaults (fun i => if Nat.eqb i k then Some n else None) (fun _ => None).

Lemma wal_fail_stop_witness :
  let F := fault_at 186 5 in
  let W' := (step (F:=F) (run (F:=F) sample) (EvAppend 13 1 [1; 2])).2 in
  exists x', step (F:=F) W' (EvAppend 14 1 [3]) = (Some (Err x'), W') /\ IsAmbiguous x' = false.
Proof.
  cbv zeta. apply (wal_fail_stop (F:=fault_at 186 5) 100 sample (EvAppend 13 1 [1; 2]) (mkAppendError FailureAmbiguous "sync" (CauseErr EIO))).
  - split; by vm_compute.
  - apply history_check. by vm_compute.
  - by vm_compute.
  - done.
Defined.

(** C14. A record is read back as it was written, whatever follows it, and a record of which up to
    four consecutive bytes of the payload were overwritten is reported as corrupt, never returned. *)
Theorem wal_record_integrity m pre d post d' rest : max_ok m -> payload_ok m (pre ++ d ++ post) ->
  Forall byte_range d' -> length d' = length d -> (length d <= 4)%nat -> d' <> d ->
  WriteRecord (pre ++ d ++ post) m = Ok (frame (pre ++ d ++ post)) /\
  ReadRecord (frame (pre ++ d ++ post) ++ rest) m = Ok (pre ++ d ++ post, rest) /\
  ReadRecord (take 8 (frame (pre ++ d ++ post)) ++ (pre ++ d' ++ post) ++ rest) m = Err ErrCRCMismatch.
Proof.
  intros Hm Hp Hd' Hlen H4 Hne. split; [by apply record_write|]. split; [by apply record_read|].
  set (p := pre ++ d ++ post) in *. set (p' := pre ++ d' ++ post).
  assert (Hl : length p' = length p) by (unfold p, p'; rewrite !length_app; lia). destruct Hp as [Hb Hsz].
  assert (Ht : take 8 (frame p) = be_bytes 4 (Z.of_nat (length p) + 4) ++ be_bytes 4 (crc32c p)) by done.
  rewrite Ht, <- app_assoc, record_read_header; [|done|lia|by apply crc32c_range]. rewrite Nat2Z.id, length_app, Hl.
  destruct (Nat.ltb_spec (length p + length rest) (length p)); [lia|]. rewrite <- Hl, take_app_length.
  destruct (Z.eqb_spec (crc32c p') (crc32c p)) as [E|_]; [|done]. destruct Hne. symmetry. symmetry in E. by eapply (crc32c_burst pre d d' post).
Qed.

Lemma wal_record_integrity_witness :
  ReadRecord (take 8 (frame ([1; 2] ++ [3; 4] ++ [5])) ++ ([1; 2] ++ [3; 7] ++ [5]) ++ [9]) 100 = Err ErrCRCMismatch.
Proof.
  apply (wal_record_integrity 100 [1; 2] [3; 4] [5] [3; 7] [9]); [split; by vm_compute| | |done|cbn; lia|done].
  - split; [|by vm_compute]. by repeat (constructor; [split; by vm_compute|]).
  - by repeat (constructor; [split; by vm_compute|]).
Defined.

(** *** Where the log says less than it promises *)

(** A read that fails while a file is scanned is taken for the end of the file: with records up to the
    ninth acknowledged, the file of the tenth is removed when its scan breaks off behind the loss
    marker at its front. *)
Example failed_read_loses :
  let F := mkFaults (fun _ => None) (fun i => if Nat.eqb i 183 then Some 40%nat else None) in
  let seqs F := omap (fun y => data_seq y.2) (stored 100 (wd_disk (run (F:=F) (sample ++ [EvAck 1 9])))) in
  (seqs no_faults, seqs F) = ([10; 11; 12], [11; 12]).
Proof. by vm_compute. Qed.

(** Markers leave with the file they were written to: of twelve records eight are gone, and the
    files only tell of three of them. *)
Example dropped_markers_lost :
  omap (fun y : Z * list Z => if isLossMarker y.2 then (fun l => (FromSequence l, ToSequence l)) <$> decodeLossPayload y.2 else None)
    (stored 100 (wd_disk (run (F:=no_faults) sample))) = [(6, 6); (7, 8)] /\
  omap (fun y => data_seq y.2) (stored 100 (wd_disk (run (F:=no_faults) sample))) = [9; 10; 11; 12].
Proof. by vm_compute. Qed.

(** A crash before the header of a new file is synced leaves a file that no start accepts. *)
Example torn_header_blocks_start :
  let F := mkFaults (fun i => if Nat.leb 4 i && Nat.leb i 6 then Some O else None) (fun _ => None) in
  let restart := EvRestart small_options (fun _ => O) in
  let h := [restart; EvAppend 1 1 [1]; restart] in
  map_to_list (names (wd_disk (run (F:=F) h))) = [("0000000001.seg.INPROGRESS", 0)] /\
  wd_log (run (F:=F) h) = None /\ wd_log (run (F:=F) (h ++ [restart; restart; restart])) = None.
Proof. by vm_compute. Qed.

(** The count behind the budget leaves out the header of every new file but takes it off when the
    file is removed, so it falls behind what the files take, here by 128 bytes. *)
Example budget_undercounted :
  let W := run (F:=no_faults) sample in
  totalBytes <$> wd_log W = Some 172 /\
  sum_list ((fun i => length (data_of (wd_disk W) i)) <$> (map_to_list (names (wd_disk W))).*2) = 300%nat /\
  totalBytes <$> wd_log (run (F:=no_faults) (sample ++ [EvRestart small_options (fun _ => O)])) = Some 300.
Proof. by vm_compute. Qed.

(** An acknowledgement writes the identity of the options it runs with, also an empty one. *)
Example ack_erases_identity :
  let named := mkOptions "wal" 116 300 false "session" "key" "digest" in
  let h := [EvRestart named (fun _ => O); EvAppend 1 1 [1]; EvClose; EvRestart small_options (fun _ => O)] in
  m_SessionID <$> meta (wd_disk (run (F:=no_faults) h)) = Some "session" /\
  m_SessionID <$> meta (wd_disk (run (F:=no_faults) (h ++ [EvAck 1 1]))) = Some EmptyString.
Proof. by vm_compute. Qed.

(** After a crash behind the creation of a file the watermark starts again from nothing, though
    sealed files hold records up to the twelfth. *)
Example watermark_reset :
  let F := fault_at 186 0 in
  let h := sample ++ [EvAppend 13 1 [1; 2]] in
  HighWatermark <$> wd_log (run (F:=F) h) = Some 12 /\
  HighWatermark <$> wd_log (run (F:=F) (h ++ [EvRestart small_options (fun _ => O)])) = Some 0 /\
  omap (fun y => data_seq y.2) (stored 100 (wd_disk (run (F:=F) (h ++ [EvRestart small_options (fun _ => O)])))) = [9; 10; 11; 12].
Proof. by vm_compute. Qed.

(** A user record whose sequence number is spelled like the sentinel is taken for a marker. *)
Example sentinel_collision :
  isLossMarker (encodeSeqGenFrame sentinel_seq 1 [1]) = true /\ 0 <= sentinel_seq < 2 ^ 63.
Proof. by vm_compute. Qed.

End Promises.
Export Promises.
