(* ===== verification/WalReaderTheorems.v ===== *)
(** * Readers deliver the log

    A reader that is asked often enough while nothing else happens returns exactly the records of its
    generation from the position it was opened at, in the order of the files, and then nothing. *)

From Stdlib Require Import ZArith Lia Ascii String Sorted.
From stdpp Require Import base list strings gmap sorting.
From S2P Require Import Prelude GoText GoStrings WalFrame Wal WalDir WalSteps WalAppend WalOverflow WalAck WalRecover WalTheorems.
Open Scope string_scope.
Open Scope list_scope.
Open Scope Z_scope.

(** ** What a reader is to deliver *)
Module Delivery.

Definition deliver (start : Z) (p : list Z) : option Record_ :=
  if isLossMarker p then RecordLoss <$> decodeLossPayload p
  else match parseSeqGen p with
  | Some (seq, gen) => if seq <? start then None else Some (RecordData seq gen (drop 12 p))
  | None => None
  end.

Definition expected (m : Z) (d : disk) (gen start : Z) : list Record_ :=
  omap (fun y : Z * list Z => if y.1 =? gen then deliver start y.2 else None) (on_disk m d).

(** Asking until there is nothing, at most so often. *)
Fixpoint drain `{F : Faults} (n : nat) (r : Reader) : M err (list Record_ * option reader_error) :=
  match n with
  | O => ret ([], None)
  | S n' =>
    x <- TryNext r ;;
    match x with
    | (Ok (Some rec), r') => y <- drain n' r' ;; ret (rec :: y.1, y.2)
    | (Ok None, _) => ret ([], None)
    | (Err e, _) => ret ([], Some e)
    end
  end.

Definition readable (p : list Z) : Prop := if isLossMarker p then decodeLossPayload p <> None else parseSeqGen p <> None.

(** *** Files of the directory *)

Record item : Type := mkItem { it_name : string; it_idx : Z; it_ino : Z; it_hdr : SegmentHeader; it_recs : list (list Z); it_live : bool }.

Definition seg_item (q : sealed_seg) : item := mkItem (segmentName (q_idx q)) (q_idx q) (q_ino q) (q_hdr q) (q_recs q) false.
Definition live_item (l : live_seg) (c : content) : item :=
  mkItem (live_name (l_idx l)) (l_idx l) (l_ino l) (c_hdr c) (c_sure c ++ c_flight c) true.
Definition items (a : state) : list item :=
  (seg_item <$> a_sealed a) ++ match a_live a, a_content a with Some l, Some c => [live_item l c] | _, _ => [] end.

Definition entry_of (it : item) : string * Z := (it_name it, it_idx it).
Definition bytes_of (it : item) : list Z := header_bytes (it_hdr it) ++ frames (it_recs it).

(** Every file holds complete records. *)
Definition whole (a : state) : Prop :=
  match a_live a with Some l => exists c, a_content a = Some c /\ complete l c | None => True end.

Lemma items_entries a : whole a -> entry_of <$> items a = sealed_entries (a_sealed a) ++ live_entries (a_live a).
Proof.
  intros Hw. unfold items, sealed_entries, live_entries. rewrite fmap_app, <- list_fmap_compose. f_equal.
  unfold whole in Hw. destruct (a_live a) as [l|]; [|done]. by destruct Hw as (c & -> & _).
Qed.

Lemma items_log a : whole a -> (a_live a = None -> a_content a = None) ->
  full_log a = concat ((fun it => with_gen (hd_Generation (it_hdr it)) (it_recs it)) <$> items a).
Proof.
  intros Hw Hn. unfold full_log, items, sealed_log. rewrite fmap_app, concat_app, <- list_fmap_compose. f_equal.
  unfold whole in Hw. destruct (a_live a) as [l|]; [destruct Hw as (c & -> & _); cbn; by rewrite app_nil_r|]. by rewrite Hn.
Qed.

Record item_ok (m : Z) (d : disk) (it : item) : Prop := mkItemOk {
  io_name : names d !! it_name it = Some (it_ino it);
  io_data : data_of d (it_ino it) = bytes_of it;
  io_header : header_ok (it_hdr it);
  io_recs : Forall (payload_ok m) (it_recs it);
  io_live : is_inprogress (it_name it) = it_live it
}.

Lemma items_ok m a mt w s : At m a mt w s -> whole a -> Forall (item_ok m (dk s)) (items a).
Proof.
  intros Hs Hw. pose proof (at_layout _ _ _ _ _ Hs) as Hl. apply Forall_forall. intros it Hit. apply elem_of_app in Hit as [Hit|Hit].
  - apply list_elem_of_fmap in Hit as (q & -> & Hq). destruct (sealed_ok _ _ _ _ _ _ Hs Hq) as [Hh Hr].
    split; [by eapply lookup_sealed|by eapply data_sealed|done|done|]. cbn. apply sealed_not_inprogress.
    pose proof (lay_index _ _ _ _ Hl) as Hi. apply (layout_index_sealed _ _ q) in Hi; [|done]. destruct Hi. done.
  - unfold whole in Hw. pose proof (at_holds _ _ _ _ _ Hs) as Hh. destruct (a_live a) as [l|] eqn:El; [|by apply not_elem_of_nil in Hit].
    destruct Hw as (c & Hc & Hd). rewrite Hc in *. apply list_elem_of_singleton in Hit as ->. destruct Hh as (H1 & H2 & H3 & _).
    split; [by eapply lookup_live| |done|by apply Forall_app; split|].
    + cbn [live_item it_ino]. rewrite (data_live _ _ _ _ Hl). exact Hd.
    + cbn. apply inprogress_is_inprogress. pose proof (live_index _ _ _ _ _ l Hs El) as []. done.
Qed.

End Delivery.
Export Delivery.

(** ** Reading *)
Module Reading.
Section Reading.
Context `{F : Faults} (m : Z) (Hm : max_ok m) (k0 : nat) (Hnf : forall n, (k0 <= n)%nat -> plan n = None /\ read_plan n = None).
Context (a : state) (mt : option Meta) (w : WAL) (Hwhole : whole a) (Hopen : closed w = false) (Hmax : maxRec w = m).
Context (gen start : Z).

(** The directory does not change, and operations succeed from here on. *)
Definition Now (s : sys) : Prop := At m a mt w s /\ (k0 <= ops (dk s))%nat.

Lemma now_io {A} (good : disk -> result err (A * disk)) fault s x : Now s -> good (tick (dk s)) = Ok (x, tick (dk s)) ->
  exists s', io good fault s = (Ok x, s') /\ Now s' /\ names (dk s') = names (dk s) /\ files (dk s') = files (dk s).
Proof using Hnf.
  intros [Hs Hk] E. unfold io. rewrite (proj1 (Hnf _ Hk)), E. eexists. split; [reflexivity|]. split; [|done]. split; [by apply At_tick|cbn; lia].
Qed.

Lemma now_tick s : Now s -> Now (mkSys (tick (dk s)) (wl s)).
Proof using. intros [Hs Hk]. split; [by apply At_tick|cbn; lia]. Qed.

Lemma bind_read (ino : Z) (off : nat) {A} (k : list Z * bool -> M err A) s : Now s ->
  bind (fs_read_at ino off) k s = k (drop off (data_of (dk s) ino), false) (mkSys (tick (dk s)) (wl s)).
Proof using Hnf. intros [Hs Hk]. unfold bind, fs_read_at. by rewrite (proj2 (Hnf _ Hk)). Qed.

Definition all_entries : list (string * Z) := entry_of <$> items a.

Lemma now_readdir s : Now s -> exists ns s', fs_readdir s = (Ok ns, s') /\ Now s' /\ by_index (entries is_segment ns) = all_entries /\
  (forall n i, n ∈ ns -> parseSegmentIndex n = Some i -> (n, i) ∈ all_entries).
Proof using Hnf Hwhole.
  intros Hs. destruct (now_io (fun d => Ok (dir_list d, d)) no_effect s (dir_list (dk s)) Hs eq_refl) as (s' & E & Hs' & _).
  exists (dir_list (dk s)), s'. split; [exact E|]. split; [done|]. destruct Hs as [Hs _]. pose proof (at_layout _ _ _ _ _ Hs) as Hl.
  unfold all_entries. rewrite (items_entries a Hwhole). split; [by apply (list_all m)|].
  intros n i Hn Hi. rewrite (dir_list_perm _ _ _ _ Hl) in Hn. apply list_elem_of_fmap in Hn as (e & -> & He).
  assert (Hp : parseSegmentIndex (entry_name e) = Some (entry_idx e)).
  { pose proof (lay_index _ _ _ _ Hl) as Hix. rewrite Forall_fmap, Forall_forall in Hix. specialize (Hix _ He). unfold index_ok, compose in Hix.
    unfold layout_entries in He. apply elem_of_app in He as [He|He]; apply list_elem_of_fmap in He as (q & -> & _); cbn [entry_name entry_idx fst snd] in *.
    - apply parse_sealed. lia.
    - apply parse_inprogress. lia. }
  rewrite Hp in Hi. injection Hi as <-. unfold layout_entries in He. apply elem_of_app. apply elem_of_app in He as [He|He]; [left|right];
    apply list_elem_of_fmap in He as (q & -> & Hq); apply list_elem_of_fmap; by exists q.
Qed.

(** *** Where a reader is *)

(** The file being read with the records that are left of it, and the files behind it. *)
Record Rd (r : Reader) (cur : option (item * list (list Z))) (q : list item) : Prop := mkRd {
  rd_queue : r_segments r = entry_of <$> q;
  rd_cur : match cur with
    | None => r_current r = None /\ exists pre, items a = pre ++ q
    | Some (it, ps) => (exists off, r_current r = Some (it_ino it, off) /\ drop off (bytes_of it) = frames ps) /\
        Forall (payload_ok m) ps /\ Forall readable ps /\ r_curIdx r = it_idx it /\ r_curLive r = it_live it /\ exists pre, items a = pre ++ it :: q
    end;
  rd_scan : Forall (fun e : string * Z => e.2 < r_nextScanIdx r) all_entries;
  rd_gen : r_readerGen r = gen;
  rd_start : r_nextSeq r = start;
  rd_open : r_closed r = false
}.

Definition of_item (it : item) : list Record_ :=
  if hd_Generation (it_hdr it) =? gen then omap (deliver start) (it_recs it) else [].

Definition left_to (cur : option (item * list (list Z))) (q : list item) : list Record_ :=
  match cur with Some (_, ps) => omap (deliver start) ps | None => [] end ++ concat (of_item <$> q).

Definition measure (cur : option (item * list (list Z))) (q : list item) : nat :=
  (2 * length q + sum_list ((fun it => length (bytes_of it)) <$> q) + match cur with Some (_, ps) => 1 + length (frames ps) | None => 0 end + 1)%nat.

Definition Answer (rem : list Record_) (x : result err (result reader_error (option Record_) * Reader) * sys) : Prop :=
  exists r' s' cur' q', x = (Ok (Ok (head rem), r'), s') /\ Now s' /\ Rd r' cur' q' /\ left_to cur' q' = tail rem.

Lemma rescan_empty r s : Now s -> Rd r None [] -> exists s' r', rescan r s = (Ok (Ok tt, r'), s') /\ Now s' /\ r_segments r' = [] /\ Rd r' None [].
Proof using Hnf Hwhole.
  intros Hs Hr. destruct (now_readdir s Hs) as (ns & s' & E & Hs' & Hls & _). unfold rescan, bind, attempt. rewrite E. unfold ret.
  assert (Hnil : List.filter (fun e : string * Z => r_nextScanIdx r <=? e.2) (entries is_segment ns) = []).
  { assert (HP : entries is_segment ns ≡ₚ all_entries) by (rewrite <- Hls; unfold by_index; by rewrite stable_sort_perm).
    pose proof (rd_scan _ _ _ Hr) as Hsc. rewrite <- HP in Hsc. clear HP Hls. induction Hsc as [|e l He _ IH]; [done|]. cbn.
    destruct (Z.leb_spec (r_nextScanIdx r) e.2); [lia|exact IH]. }
  rewrite Hnil. cbn [by_index stable_sort last app]. eexists s', _. split; [reflexivity|]. split; [done|].
  destruct Hr as [R1 R2 R3 R4 R5 R6]. cbn in R1. unfold set_queue. cbn [r_segments]. rewrite R1. split; [done|]. by split.
Qed.

(** The end of the live file stays the end while nothing newer is there. *)
Lemma demote_no r s it ps pre : Now s -> Rd r (Some (it, ps)) [] -> items a = pre ++ [it] -> it_live it = true ->
  exists s', maybeDemoteLive r s = (Ok (Ok false, r), s') /\ Now s'.
Proof using Hnf Hwhole.
  intros Hs Hr Hit Hlive. destruct (now_readdir s Hs) as (ns & s' & E & Hs' & _ & Hall). unfold maybeDemoteLive, bind, attempt. rewrite E.
  assert (Hidx : r_curIdx r = it_idx it) by apply Hr. destruct Hs as [Hs _]. pose proof (at_layout _ _ _ _ _ Hs) as Hl.
  assert (Hmaxi : forall e, e ∈ all_entries -> e.2 <= it_idx it /\ (e.2 = it_idx it -> e.1 = it_name it)).
  { pose proof (lay_sorted _ _ _ _ Hl) as Hsort. change (StronglySorted Z.lt (indexes a)) in Hsort. rewrite indexes_entries, <- (items_entries a Hwhole) in Hsort.
    intros e He. unfold all_entries in He. rewrite Hit in He, Hsort. rewrite !fmap_app in *. cbn [fmap list_fmap] in *. apply elem_of_app in He as [He|He].
    - assert (e.2 < it_idx it); [|lia]. eapply (StronglySorted_app_1_elem_of Z.lt); [exact Hsort| |left]. apply list_elem_of_fmap. by exists e.
    - apply list_elem_of_singleton in He as ->. done. }
  assert (Hin : is_sealed (it_name it) = false).
  { pose proof (items_ok _ _ _ _ _ Hs Hwhole) as Hok. rewrite Hit, Forall_app in Hok. destruct Hok as [_ Hok]. apply Forall_inv in Hok.
    pose proof (io_live _ _ _ Hok) as H. rewrite Hlive in H. unfold is_inprogress in H. unfold is_sealed. rewrite H. apply andb_false_r. }
  replace (existsb _ _) with false; [by exists s'|]. symmetry. apply not_true_iff_false. rewrite existsb_exists. intros (e & He & Hcond).
  apply list_elem_of_In, list_elem_of_omap in He as (n & Hn & He). destruct (parseSegmentIndex n) as [i|] eqn:Ei; [|done]. injection He as <-.
  destruct (Hmaxi _ (Hall _ _ Hn Ei)) as [H1 H2]. cbn [fst snd] in *. rewrite Hidx in Hcond. apply orb_true_iff in Hcond as [Hc|Hc]; [lia|].
  apply andb_true_iff in Hc as [Hc1 Hc2]. rewrite H2 in Hc2 by lia. congruence.
Qed.

Lemma drop_frame off it p ps : drop off (bytes_of it) = frames (p :: ps) -> drop (off + 8 + length p) (bytes_of it) = frames ps.
Proof using.
  intros H. replace (off + 8 + length p)%nat with (off + (8 + length p))%nat by lia. rewrite <- drop_drop, H.
  change (frames (p :: ps)) with (frame p ++ frames ps). by rewrite drop_app_length' by (by rewrite frame_length).
Qed.

Lemma next_record r s it p ps q fuel : Now s -> Rd r (Some (it, p :: ps)) q ->
  (forall r' s', Now s' -> Rd r' (Some (it, ps)) q -> Answer (left_to (Some (it, ps)) q) (next_loop fuel r' s')) ->
  Answer (left_to (Some (it, p :: ps)) q) (next_loop (S fuel) r s).
Proof using Hm Hmax Hwhole Hnf.
  intros Hs Hr IH. pose proof Hr as [R1 R2 R3 R4 R5 R6]. destruct R2 as ((off & Hcur & Hoff) & Hp & Hrd & Hidx & Hlive & (pre & Hpre)).
  cbn [next_loop]. rewrite Hcur, bind_read by done. pose proof (now_tick _ Hs) as Ht. set (s1 := mkSys (tick (dk s)) (wl s)) in *.
  unfold bind, get. destruct Hs as [Hs Hk]. rewrite (at_wal _ _ _ _ _ (proj1 Ht)), Hmax. cbn [fst snd].
  assert (Hok : item_ok m (dk s) it).
  { pose proof (items_ok _ _ _ _ _ Hs Hwhole) as Hok. rewrite Hpre, Forall_app in Hok. destruct Hok as [_ Hok]. by apply Forall_inv in Hok. }
  rewrite (io_data _ _ _ Hok), Hoff. change (frames (p :: ps)) with (frame p ++ frames ps). inversion Hp as [|? ? Hp1 Hp2]; subst.
  inversion Hrd as [|? ? Hr1 Hr2]; subst. rewrite record_read by done. cbn [map_err]. set (r1 := set_file r _).
  assert (HR : forall r2, r_segments r2 = r_segments r -> r_current r2 = r_current r1 -> r_curIdx r2 = r_curIdx r -> r_curLive r2 = r_curLive r ->
    r_nextScanIdx r2 = r_nextScanIdx r -> r_readerGen r2 = r_readerGen r -> r_nextSeq r2 = r_nextSeq r -> r_closed r2 = r_closed r -> Rd r2 (Some (it, ps)) q).
  { intros r2 E1 E2 E3 E4 E5 E6 E7 E8. split; [congruence| |by rewrite E5|congruence..]. split; [|split; [done|split; [done|split; [congruence|split; [congruence|by exists pre]]]]].
    eexists. split; [rewrite E2; reflexivity|]. by apply drop_frame. }
  assert (Hl : left_to (Some (it, p :: ps)) q =
    match deliver (r_nextSeq r) p with Some x => x :: left_to (Some (it, ps)) q | None => left_to (Some (it, ps)) q end).
  { unfold left_to. cbn [omap list_omap]. rewrite R5. by destruct (deliver start p). }
  rewrite Hl. clear Hl. unfold deliver, readable in *.
  assert (Hdone : forall x r2, Rd r2 (Some (it, ps)) q -> Answer (x :: left_to (Some (it, ps)) q) (Ok (Ok (Some x), r2), s1)).
  { intros x r2 Hr3. exists r2, s1, (Some (it, ps)), q. done. }
  destruct (isLossMarker p).
  - destruct (decodeLossPayload p) as [loss|]; [|done]. cbn [fmap option_fmap option_map ret]. apply Hdone. by apply HR.
  - destruct (parseSeqGen p) as [[seq g]|]; [|done]. cbn [r_nextSeq set_last r1 set_file]. destruct (seq <? r_nextSeq r).
    + apply IH; [done|]. by apply HR.
    + apply Hdone. by apply HR.
Qed.

Lemma live_last (L tl : list item) pre it q : L ++ tl = pre ++ it :: q -> Forall (fun x => it_live x = false) L -> (length tl <= 1)%nat ->
  it_live it = true -> q = [].
Proof using.
  clear. intros E HL Ht Hit. revert pre E. induction HL as [|x L Hx HL IH]; intros pre E.
  - cbn in E. subst tl. rewrite length_app in Ht. cbn in Ht. destruct q; [done|cbn in Ht; lia].
  - destruct pre as [|y pre]; cbn in E; injection E as -> E; [congruence|by eapply IH].
Qed.

Lemma next_end r s it q fuel : Now s -> Rd r (Some (it, [])) q ->
  (forall r' s', Now s' -> Rd r' None q -> Answer (left_to None q) (next_loop fuel r' s')) -> Answer (left_to (Some (it, [])) q) (next_loop (S fuel) r s).
Proof using Hm Hmax Hwhole Hnf.
  intros Hs Hr IH. pose proof Hr as [R1 R2 R3 R4 R5 R6]. destruct R2 as ((off & Hcur & Hoff) & _ & _ & Hidx & Hlive & (pre & Hpre)).
  cbn [next_loop]. rewrite Hcur, bind_read by done. pose proof Hs as [Hs0 Hk]. apply now_tick in Hs. set (s1 := mkSys (tick (dk s)) (wl s)) in *.
  unfold bind at 1, get. rewrite (at_wal _ _ _ _ _ (proj1 Hs)), Hmax. cbn [fst snd].
  pose proof (items_ok _ _ _ _ _ Hs0 Hwhole) as Hoks. rewrite Hpre, Forall_app in Hoks. destruct Hoks as [_ Hoks]. pose proof (Forall_inv Hoks) as Hok.
  rewrite (io_data _ _ _ Hok), Hoff. change (frames []) with (@nil Z). rewrite (stops_nil m Hm). cbn [map_err read_error].
  rewrite Hlive. destruct (it_live it) eqn:El.
  - assert (Hq : q = []).
    { unfold items in Hpre. eapply live_last; [exact Hpre| | |exact El].
      - apply Forall_fmap, Forall_true. done.
      - destruct (a_live a), (a_content a); cbn; lia. }
    subst q. destruct (demote_no r s1 it [] pre Hs Hr Hpre El) as (s' & E & Hs'). unfold bind. rewrite E. exists r, s', (Some (it, [])), []. done.
  - change (left_to (Some (it, [])) q) with (left_to None q). apply IH; [done|]. split; [done| |done..]. cbn [set_file r_current]. split; [done|].
    exists (pre ++ [it]). by rewrite <- app_assoc.
Qed.

Lemma next_open r s it q fuel : Now s -> Rd r None (it :: q) -> Forall readable (it_recs it) ->
  (forall r' s', Now s' -> Rd r' None q -> Answer (left_to None q) (next_loop fuel r' s')) ->
  (forall r' s', Now s' -> Rd r' (Some (it, it_recs it)) q -> Answer (left_to (Some (it, it_recs it)) q) (next_loop fuel r' s')) ->
  Answer (left_to None (it :: q)) (next_loop (S fuel) r s).
Proof using Hm Hwhole Hnf.
  intros Hs Hr Hrd IH1 IH2. pose proof Hr as [R1 [R2 (pre & Hpre)] R3 R4 R5 R6].
  pose proof (items_ok _ _ _ _ _ (proj1 Hs) Hwhole) as Hoks. rewrite Hpre, Forall_app in Hoks. destruct Hoks as [_ Hoks]. pose proof (Forall_inv Hoks) as Hok.
  destruct (now_io (fun d => match names d !! it_name it with Some i => Ok (i, d) | None => Err ENoEnt end) no_effect s (it_ino it) Hs) as (s1 & E & Hs1 & Hn1 & Hf1).
  { cbn [tick names]. by rewrite (io_name _ _ _ Hok). }
  cbn [next_loop]. rewrite R2, R1. cbn [fmap list_fmap nonempty]. unfold bind at 1, ret at 1. rewrite R1. cbn [fmap list_fmap].
  unfold bind at 1, open_queued, bind at 1, attempt at 1. cbn [entry_of fst snd]. unfold fs_open. rewrite E. cbn [ret]. unfold fs_read. rewrite bind_read by done. apply now_tick in Hs1. rewrite drop_0.
  assert (Hd : data_of (dk s1) (it_ino it) = bytes_of it) by (unfold data_of; rewrite Hf1; apply (io_data _ _ _ Hok)).
  rewrite Hd. unfold read_header, bytes_of. cbn [fst]. rewrite header_read by apply Hok. cbn [map_err set_queue r_readerGen]. rewrite R4.
  assert (Hl : left_to None (it :: q) = of_item it ++ left_to None q) by done. rewrite Hl. unfold of_item.
  case_bool_decide as Eg; cbn [negb].
  - rewrite (proj2 (Z.eqb_eq _ _) Eg). apply IH2; [done|]. rewrite (io_live _ _ _ Hok). unfold enter_segment. split; try done.
    cbn [r_current r_curIdx r_curLive]. split; [|split; [apply Hok|split; [done|split; [done|split; [done|by exists pre]]]]].
    exists 16%nat. split; [done|]. unfold bytes_of. by rewrite drop_app_length' by (by rewrite header_bytes_length).
  - destruct (Z.eqb_spec (hd_Generation (it_hdr it)) gen); [done|]. apply IH1; [done|]. split; try done. split; [done|].
    exists (pre ++ [it]). by rewrite <- app_assoc.
Qed.

Context (Hread : Forall (fun it => Forall readable (it_recs it)) (items a)).

Lemma next_spec fuel : forall r s cur q, Now s -> Rd r cur q -> (measure cur q <= fuel)%nat -> Answer (left_to cur q) (next_loop fuel r s).
Proof using Hm Hmax Hwhole Hnf Hread.
  induction fuel as [|fuel IH]; intros r s cur q Hs Hr Hf; [unfold measure in Hf; lia|]. destruct cur as [[it [|p ps]]|].
  - apply next_end; [done|done|]. intros r' s' Hs' Hr'. apply IH; [done|done|]. unfold measure in *. cbn in *. lia.
  - apply next_record; [done|done|]. intros r' s' Hs' Hr'. apply IH; [done|done|]. unfold measure in *.
    change (frames (p :: ps)) with (frame p ++ frames ps) in Hf. rewrite length_app, frame_length in Hf. lia.
  - destruct q as [|it q].
    + destruct (rescan_empty r s Hs Hr) as (s' & r' & E & Hs' & Hnil & Hr'). pose proof Hr as [R1 [R2 _] R3 R4 R5 R6].
      cbn [next_loop]. rewrite R2, R1. cbn [fmap list_fmap nonempty]. unfold bind at 1. rewrite E, Hnil. by exists r', s', None, [].
    + pose proof (rd_cur _ _ _ Hr) as [_ (pre & Hpre)]. pose proof Hread as Hrd. rewrite Hpre, Forall_app in Hrd. destruct Hrd as [_ Hrd].
      apply Forall_inv in Hrd. apply next_open; [done|done|done| |]; intros r' s' Hs' Hr'; apply IH; try done; unfold measure in *; cbn [fmap list_fmap sum_list length] in Hf.
      * unfold bytes_of in Hf. rewrite length_app, header_bytes_length in Hf. cbn in Hf |- *. lia.
      * unfold bytes_of in Hf at 1. rewrite length_app, header_bytes_length in Hf. cbn in Hf |- *. lia.
Qed.

Lemma fuel_enough r s cur q : Now s -> Rd r cur q -> (measure cur q <= read_fuel (dk s) r)%nat.
Proof using Hwhole.
  intros [Hs _] [R1 R2 R3 R4 R5 R6]. unfold measure, read_fuel. rewrite R1, length_fmap, <- (list_fmap_compose entry_of).
  pose proof (items_ok _ _ _ _ _ Hs Hwhole) as Hoks.
  assert (Hq : forall pre l, items a = pre ++ l -> ((fun e : string * Z => named_size (dk s) e.1) ∘ entry_of) <$> l = (fun it => length (bytes_of it)) <$> l).
  { intros pre l Hl. rewrite Hl, Forall_app in Hoks. destruct Hoks as [_ Hoks]. apply list_fmap_ext. intros i it Hi. apply list_elem_of_lookup_2 in Hi.
    rewrite Forall_forall in Hoks. specialize (Hoks _ Hi). unfold compose, named_size. cbn. by rewrite (io_name _ _ _ Hoks), (io_data _ _ _ Hoks). }
  destruct cur as [[it ps]|].
  - destruct R2 as ((off & Hcur & Hoff) & _ & _ & _ & _ & (pre & Hpre)). rewrite Hcur.
    assert (Hit : item_ok m (dk s) it) by (rewrite Hpre, Forall_app in Hoks; destruct Hoks as [_ Hoks]; by apply Forall_inv in Hoks).
    rewrite (io_data _ _ _ Hit). apply (f_equal length) in Hoff. rewrite length_drop in Hoff.
    replace ((fun it => length (bytes_of it)) <$> q) with (((fun e : string * Z => named_size (dk s) e.1) ∘ entry_of) <$> q).
    2: { apply (Hq (pre ++ [it])). by rewrite <- app_assoc. }
    lia.
  - destruct R2 as (Hcur & pre & Hpre). rewrite Hcur.
    replace ((fun it => length (bytes_of it)) <$> q) with (((fun e : string * Z => named_size (dk s) e.1) ∘ entry_of) <$> q) by (by apply (Hq pre)).
    lia.
Qed.

Lemma TryNext_spec r s cur q : Now s -> Rd r cur q -> Answer (left_to cur q) (TryNext r s).
Proof using Hm Hmax Hwhole Hnf Hread Hopen.
  intros Hs Hr. unfold TryNext, bind, get. rewrite (at_wal _ _ _ _ _ (proj1 Hs)), Hopen, (rd_open _ _ _ Hr). cbn [orb].
  apply next_spec; [done|done|by apply fuel_enough].
Qed.

Lemma drain_spec n : forall r s cur q, Now s -> Rd r cur q -> (length (left_to cur q) < n)%nat ->
  exists s', drain n r s = (Ok (left_to cur q, None), s') /\ Now s'.
Proof using Hm Hmax Hwhole Hnf Hread Hopen.
  induction n as [|n IH]; intros r s cur q Hs Hr Hn; [lia|]. cbn [drain]. unfold bind at 1.
  destruct (TryNext_spec r s cur q Hs Hr) as (r' & s' & cur' & q' & E & Hs' & Hr' & Ht). rewrite E.
  destruct (left_to cur q) as [|x rem]; cbn [head tail] in *.
  - by exists s'.
  - subst rem. cbn [length] in Hn. destruct (IH r' s' cur' q' Hs' Hr' ltac:(lia)) as (s2 & E2 & Hs2). exists s2. unfold bind. rewrite E2. done.
Qed.

Lemma NewReader_spec s : Now s -> exists r s', NewReader gen start s = (Ok (Ok r), s') /\ Now s' /\ Rd r None (items a).
Proof using Hnf Hwhole Hopen.
  intros Hs. unfold NewReader, bind at 1, get at 1. rewrite (at_wal _ _ _ _ _ (proj1 Hs)), Hopen.
  destruct (now_readdir s Hs) as (ns & s' & E & Hs' & Hls & _). unfold bind at 1, rescan, bind, attempt. rewrite E. unfold ret.
  cbn [r_nextScanIdx r_segments app].
  assert (Hpos : Forall (fun e : string * Z => 0 <= e.2 < 2 ^ 64 - 1) all_entries).
  { pose proof (lay_index _ _ _ _ (at_layout _ _ _ _ _ (proj1 Hs))) as Hi. change (Forall index_ok (indexes a)) in Hi.
    rewrite indexes_entries, <- (items_entries a Hwhole) in Hi. rewrite Forall_fmap in Hi. eapply Forall_impl; [exact Hi|]. by intros e [? ?]. }
  assert (Hall : List.filter (fun e : string * Z => 0 <=? e.2) (entries is_segment ns) = entries is_segment ns).
  { assert (HP : entries is_segment ns ≡ₚ all_entries) by (rewrite <- Hls; unfold by_index; by rewrite stable_sort_perm).
    rewrite <- HP in Hpos. clear HP Hls E. induction Hpos as [|e l He _ IH]; [done|]. cbn. destruct (Z.leb_spec 0 e.2); [by rewrite IH|lia]. }
  rewrite Hall, Hls. eexists _, s'. split; [reflexivity|]. split; [done|]. split; cbn [set_queue r_segments r_current r_nextScanIdx r_readerGen r_nextSeq r_closed]; try done.
  - split; [done|]. by exists [].
  - destruct (last all_entries) as [e|] eqn:El.
    2: { apply last_None in El. rewrite El. constructor. }
    apply last_Some in El as (l & El). pose proof (lay_sorted _ _ _ _ (at_layout _ _ _ _ _ (proj1 Hs))) as Hsort.
    change (StronglySorted Z.lt (indexes a)) in Hsort. rewrite indexes_entries, <- (items_entries a Hwhole) in Hsort. fold all_entries in Hsort.
    rewrite El in *. apply Forall_app in Hpos as [Hpos1 Hpos2]. apply Forall_inv in Hpos2. unfold wrap_uint64. rewrite Z.mod_small by lia.
    apply Forall_app. split; [|constructor; [lia|constructor]]. apply Forall_forall. intros e' He'. rewrite fmap_app in Hsort.
    assert (e'.2 < e.2); [|lia]. eapply (StronglySorted_app_1_elem_of Z.lt); [exact Hsort| |cbn; left]. apply list_elem_of_fmap. by exists e'.
Qed.

End Reading.
End Reading.
Export Reading.

(** ** The theorem *)
Module Readers.

Lemma decode_marker loss : decodeLossPayload (encodeLossPayload loss) <> None.
Proof.
  unfold decodeLossPayload.
  assert (Hlen : length (encodeLossPayload loss) = (30 + length (string_bytes (Reason loss)))%nat).
  { unfold encodeLossPayload. rewrite !length_app, !be_bytes_length. done. }
  destruct (Nat.ltb_spec (length (encodeLossPayload loss)) 30); [lia|]. fold (isLossMarker (encodeLossPayload loss)). by rewrite loss_marker.
Qed.

Lemma proper_readable y : proper y -> readable y.2.
Proof.
  unfold readable. intros [Hd|[loss E]].
  - unfold is_data, data_seq in Hd. destruct (isLossMarker y.2); [done|]. by destruct (parseSeqGen y.2).
  - rewrite E, loss_marker. apply decode_marker.
Qed.

Lemma ready_whole m n a w : Ready m n a w -> whole a.
Proof.
  intros Hr. pose proof (rd_current _ _ _ _ Hr) as H. unfold whole. destruct (current w) as [seg|]; cbn [has_current] in H.
  - destruct H as (l & c & -> & Hc & Hw). exists c. split; [done|apply Hw].
  - by rewrite H.
Qed.

Lemma on_disk_whole m a mt d : max_ok m -> Disk m a mt d -> whole a -> on_disk m d = full_log a.
Proof.
  intros Hm Hd Hw. unfold on_disk. rewrite (all_records_split m Hm f_data a mt d Hd) by done. unfold full_log. f_equal.
  pose proof (dk_holds _ _ _ _ Hd) as Hh. unfold live_view, whole in *. destruct (a_live a) as [l|].
  - destruct Hw as (c & Hc & Hcp). rewrite Hc in *. destruct Hh as (H1 & H2 & H3 & _). unfold complete in Hcp. rewrite Hcp.
    rewrite <- (app_nil_r (frames _)). by apply (records_frames m Hm _ _ [] EOF); [|apply Forall_app; split|apply stops_nil].
  - by destruct (a_content a).
Qed.

Lemma omap_concat {A B} (f : A -> option B) (ls : list (list A)) : omap f (concat ls) = concat ((fun l : list A => omap f l) <$> ls) :> list B.
Proof. induction ls as [|l ls IH]; [done|]. cbn [concat fmap list_fmap]. by rewrite omap_app, IH. Qed.

Lemma expected_items m a mt d gen start : max_ok m -> Disk m a mt d -> whole a -> expected m d gen start = concat (of_item gen start <$> items a).
Proof.
  intros Hm Hd Hw. unfold expected. rewrite (on_disk_whole m a mt d Hm Hd Hw), items_log; [|done|].
  2: { intros E. pose proof (dk_holds _ _ _ _ Hd) as Hh. rewrite E in Hh. by destruct (a_content a). }
  rewrite omap_concat, <- list_fmap_compose. f_equal. apply list_fmap_ext. intros i it _. unfold compose, of_item, with_gen. rewrite omap_fmap. cbn [fst snd].
  destruct (hd_Generation (it_hdr it) =? gen); [done|]. by induction (it_recs it).
Qed.



End Readers.
Export Readers.
