(* ===== verification/NetAcl.v ===== *)
(** * Process network rules: data, matching and configuration ([internal/netmonitor/pnacl])

    [matcher.go] and [config.go]: the description of a process, the criteria that select one, the
    matcher over a whole configuration with its specificities, and the validation, merging and
    cloning of configurations.

    Decisions are the strings of the source.  The build is one for Unix: the branch of
    [matchProcessName] for Windows is not taken.  YAML decoding is a parameter ([AclYaml]); it is
    shared with the file persister, which also encodes.  Unicode's case orbits, which
    [strings.EqualFold] walks, are a parameter ([CaseOrbits]). *)

From Stdlib Require Import ZArith Lia Ascii String.
From stdpp Require Import base list strings gmap.
From S2P Require Import Prelude GoText GoNet GoStrings PolicyModel PolicyEngine NetGuards.
Open Scope string_scope.
Open Scope list_scope.
Open Scope Z_scope.

(** ** Addresses and masks *)
Module AclText.

(** [IP.To4] and [IP.To16] on addresses of either length, and [IP.Equal]. *)
Definition IP_To4 (ip : list Z) : option (list Z) :=
  if Nat.eqb (length ip) 4 then Some ip else if Nat.eqb (length ip) 16 then To4 ip else None.
Definition IP_To16 (ip : list Z) : list Z := if Nat.eqb (length ip) 4 then v4_prefix ++ ip else ip.
Definition IP_Equal (ip x : list Z) : bool :=
  if Nat.eqb (length ip) (length x) then ip ==? x
  else if Nat.eqb (length ip) 4 && Nat.eqb (length x) 16 then (take 12 x ==? v4_prefix) && (ip ==? drop 12 x)
  else if Nat.eqb (length ip) 16 && Nat.eqb (length x) 4 then (take 12 ip ==? v4_prefix) && (drop 12 ip ==? x)
  else false.

(** [IPMask.Size]: leading ones, and zero for a mask that is not of that form. *)
Fixpoint leading_ones (turns : nat) (v : Z) : Z * Z :=
  match turns with
  | O => (0, v)
  | S turns' =>
    if Z.testbit v 7 then let '(n, r) := leading_ones turns' (Z.land (Z.shiftl v 1) 255) in (n + 1, r) else (0, v)
  end.

Fixpoint simpleMaskLength (mask : list Z) : Z :=
  match mask with
  | [] => 0
  | v :: rest =>
    if v =? 255 then (let n := simpleMaskLength rest in if n =? -1 then -1 else 8 + n)
    else
      let '(n, r) := leading_ones 8 v in
      if negb (r =? 0) then -1 else if forallb (Z.eqb 0) rest then n else -1
  end.

Definition Mask_Size (mask : list Z) : Z * Z :=
  let ones := simpleMaskLength mask in
  if ones =? -1 then (0, 0) else (ones, 8 * Z.of_nat (length mask)).

(** [strings.SplitN(s, c, 2)] for a byte [c] that occurs in [s]. *)
Definition split_first (c : Z) (s : string) : string * string :=
  let bs := string_bytes s in
  match index_byte c bs with
  | Some i => (bytes_string (take i bs), bytes_string (drop (S i) bs))
  | None => (s, "")
  end.

End AclText.
Export AclText.

Example mask_examples :
  Mask_Size <$> [[255; 255; 240; 0]; [255; 255; 255; 255]; [0; 0; 0; 0]; [255; 0; 255; 0]] = [(20, 32); (32, 32); (0, 32); (0, 0)].
Proof. vm_compute. reflexivity. Qed.

(** ** Data of the package *)
Module AclModel.

Definition DecisionAllow : string := "allow".
Definition DecisionDeny : string := "deny".
Definition DecisionApprove : string := "approve".
Definition DecisionAllowOnceThenApprove : string := "allow_once_then_approve".
Definition DecisionAudit : string := "audit".
Definition DecisionUseDefault : string := "use_default".

Record NetworkTarget : Type := mkTarget {
  t_Host : string; t_IP : string; t_CIDR : string; t_Port : string; t_Protocol : string; t_Decision : string
}.

#[export] Instance NetworkTarget_eq_dec : EqDecision NetworkTarget.
Proof. solve_decision. Defined.

Record ProcessInfo : Type := mkProc {
  p_Name : string; p_Path : string; p_BundleID : string; p_PackageFamilyName : string; p_PID : Z; p_ParentPID : Z
}.

Record ProcessMatchCriteria : Type := mkCriteria {
  c_ProcessName : string; c_Path : string; c_BundleID : string; c_PackageFamilyName : string; c_Strict : bool
}.

#[export] Instance ProcessMatchCriteria_eq_dec : EqDecision ProcessMatchCriteria.
Proof. solve_decision. Defined.

Definition no_criteria : ProcessMatchCriteria := mkCriteria "" "" "" "" false.

Record ConnectionContext : Type := mkConn { cx_Process : ProcessInfo; cx_Host : string; cx_Port : Z; cx_Protocol : string }.

Record ApprovalUIConfig : Type := mkApprovalUI { ui_Mode : string; ui_Timeout : string }.

Record ChildConfig : Type := mkChildConfig {
  cc_Name : string; cc_Match : ProcessMatchCriteria; cc_Inherit : option bool; cc_Rules : list NetworkTarget
}.

Record ProcessConfig : Type := mkProcessConfig {
  pc_Name : string; pc_Match : ProcessMatchCriteria; pc_Default : string; pc_Rules : list NetworkTarget;
  pc_Children : list ChildConfig
}.

Record Config : Type := mkConfig {
  cf_Default : string; cf_Processes : list ProcessConfig; cf_ApprovalUI : option ApprovalUIConfig
}.

Definition empty_config : Config := mkConfig "" [] None.

Definition InheritRules (cc : ChildConfig) : bool := match cc_Inherit cc with None => true | Some b => b end.

Definition GetMode (c : option ApprovalUIConfig) : string :=
  match c with None => "auto" | Some ui => if ui_Mode ui ==? "" then "auto" else ui_Mode ui end.

Definition hasCriteria (c : ProcessMatchCriteria) : bool :=
  (c_ProcessName c !=? "") || (c_Path c !=? "") || (c_BundleID c !=? "") || (c_PackageFamilyName c !=? "").

End AclModel.
Export AclModel.

(** ** Matching of processes ([matcher.go]) *)
Module AclMatcher.
Section Matching.
Context {U : UnicodeCase} {CO : CaseOrbits} `{L : Libraries}.

Inductive MatchSpecificity : Type := SpecNone | SpecDefault | SpecGlob | SpecExact.

Definition spec_rank (s : MatchSpecificity) : Z :=
  match s with SpecNone => 0 | SpecDefault => 1 | SpecGlob => 2 | SpecExact => 3 end.

Definition matchProcessNameWithSpecificity (pattern name : string) (strict : bool) : bool * MatchSpecificity :=
  let pattern := ToLower pattern in
  let name := ToLower name in
  if pattern ==? name then (true, SpecExact)
  else if strict then (false, SpecNone)
  else
    let basename := ToLower (filepath_Base name) in
    if pattern ==? basename then (true, SpecExact)
    else if ContainsAny pattern "*?" then
      if filepath_Match pattern name then (true, SpecGlob)
      else if filepath_Match pattern basename then (true, SpecGlob)
      else (false, SpecNone)
    else (false, SpecNone).

Definition matchProcessName (pattern name : string) (strict : bool) : bool :=
  (matchProcessNameWithSpecificity pattern name strict).1.

Definition path_glob (pattern : string) : option Glob := glob_Compile pattern [ch_slash].

Definition matchPath (pattern path : string) : bool :=
  if (pattern ==? "") || (path ==? "") then false
  else match path_glob pattern with None => false | Some g => g path end.

Definition matchBundleID (pattern bundleID : string) : bool :=
  if (pattern ==? "") || (bundleID ==? "") then false else EqualFold pattern bundleID.

Definition determinePathSpecificity (pattern : string) : MatchSpecificity :=
  if pattern ==? "" then SpecNone
  else if ContainsAny pattern "*?[]{}" then SpecGlob else SpecExact.

(** [if criteria.Path != "" { g, err := glob.Compile(criteria.Path, '/') }] of every constructor. *)
Definition compile_path (c : ProcessMatchCriteria) : option (option Glob) :=
  if c_Path c ==? "" then Some None else g ← path_glob (c_Path c); Some (Some g).

(** *** A single process *)

Record ProcessMatcher : Type := mkMatcher { m_criteria : ProcessMatchCriteria; m_strict : bool; m_pathGlob : option Glob }.

Definition NewProcessMatcher (criteria : ProcessMatchCriteria) : option ProcessMatcher :=
  g ← compile_path criteria; Some (mkMatcher criteria (c_Strict criteria) g).

Definition matchFlexibleSimple (m : ProcessMatcher) (info : ProcessInfo) : bool :=
  let c := m_criteria m in
  if negb (hasCriteria c) then false
  else if (c_ProcessName c !=? "") && matchProcessName (c_ProcessName c) (p_Name info) false then true
  else if (match m_pathGlob m with Some g => g (p_Path info) | None => false end) then true
  else if (c_BundleID c !=? "") && (p_BundleID info !=? "") && EqualFold (c_BundleID c) (p_BundleID info) then true
  else if (c_PackageFamilyName c !=? "") && (p_PackageFamilyName info !=? "") &&
          EqualFold (c_PackageFamilyName c) (p_PackageFamilyName info) then true
  else false.

Definition matchStrictSimple (m : ProcessMatcher) (info : ProcessInfo) : bool :=
  let c := m_criteria m in
  if negb (hasCriteria c) then false
  else if (c_ProcessName c !=? "") && negb (matchProcessName (c_ProcessName c) (p_Name info) true) then false
  else if (match m_pathGlob m with Some g => negb (g (p_Path info)) | None => false end) then false
  else if (c_BundleID c !=? "") && negb (EqualFold (c_BundleID c) (p_BundleID info)) then false
  else if (c_PackageFamilyName c !=? "") && negb (EqualFold (c_PackageFamilyName c) (p_PackageFamilyName info)) then false
  else true.

Definition ProcessMatcher_Matches (m : ProcessMatcher) (info : ProcessInfo) : bool :=
  if m_strict m then matchStrictSimple m info else matchFlexibleSimple m info.

(** *** A whole configuration *)

Record compiledConfigMatcher : Type := mkCompiled { cm_config : ProcessConfig; cm_pathGlob : option Glob }.

Record ConfigMatcher : Type := mkConfigMatcher { cfm_config : Config; cfm_compiled : list compiledConfigMatcher }.

Record MatchedProcessACL : Type := mkMatchedACL {
  ma_Name : string; ma_Match : ProcessMatchCriteria; ma_Default : string; ma_Rules : list NetworkTarget;
  ma_Children : list ChildConfig; ma_Specificity : MatchSpecificity
}.

Fixpoint compile_matchers (l : list ProcessConfig) : option (list compiledConfigMatcher) :=
  match l with
  | [] => Some []
  | pc :: l' => g ← compile_path (pc_Match pc); rest ← compile_matchers l'; Some (mkCompiled pc g :: rest)
  end.

Definition NewConfigMatcherFromConfig (config : option Config) : option ConfigMatcher :=
  match config with
  | None => Some (mkConfigMatcher empty_config [])
  | Some c => l ← compile_matchers (cf_Processes c); Some (mkConfigMatcher c l)
  end.

Definition ConfigMatcher_UpdateConfig (m : ConfigMatcher) (config : option Config) : bool * ConfigMatcher :=
  match config with
  | None => (true, mkConfigMatcher empty_config [])
  | Some c => match compile_matchers (cf_Processes c) with
              | None => (false, m)
              | Some l => (true, mkConfigMatcher c l)
              end
  end.

(** [if cond { matched = true; if spec > max { max = spec } }]. *)
Definition raise_spec (cond : bool) (spec : MatchSpecificity) (acc : bool * MatchSpecificity) : bool * MatchSpecificity :=
  if cond then (true, if spec_rank acc.2 <? spec_rank spec then spec else acc.2) else acc.

Definition matchFlexible (cm : compiledConfigMatcher) (info : ProcessInfo) : bool * MatchSpecificity :=
  let c := pc_Match (cm_config cm) in
  if negb (hasCriteria c) then (false, SpecNone)
  else
    let '(nm, ns) := matchProcessNameWithSpecificity (c_ProcessName c) (p_Name info) false in
    let acc := raise_spec ((c_ProcessName c !=? "") && nm) ns (false, SpecNone) in
    let acc := raise_spec (match cm_pathGlob cm with Some _ => matchPath (c_Path c) (p_Path info) | None => false end)
                 (determinePathSpecificity (c_Path c)) acc in
    let acc := raise_spec ((c_BundleID c !=? "") && (p_BundleID info !=? "") && matchBundleID (c_BundleID c) (p_BundleID info))
                 SpecExact acc in
    raise_spec ((c_PackageFamilyName c !=? "") && (p_PackageFamilyName info !=? "") &&
                EqualFold (c_PackageFamilyName c) (p_PackageFamilyName info)) SpecExact acc.

Definition lower_spec (spec acc : MatchSpecificity) : MatchSpecificity := if spec_rank spec <? spec_rank acc then spec else acc.

Definition matchStrict (cm : compiledConfigMatcher) (info : ProcessInfo) : bool * MatchSpecificity :=
  let c := pc_Match (cm_config cm) in
  if negb (hasCriteria c) then (false, SpecNone)
  else
    let '(nm, ns) := matchProcessNameWithSpecificity (c_ProcessName c) (p_Name info) true in
    if (c_ProcessName c !=? "") && negb nm then (false, SpecNone)
    else
      let acc := if c_ProcessName c !=? "" then lower_spec ns SpecExact else SpecExact in
      if (match cm_pathGlob cm with Some _ => negb (matchPath (c_Path c) (p_Path info)) | None => false end)
      then (false, SpecNone)
      else
        let acc := match cm_pathGlob cm with Some _ => lower_spec (determinePathSpecificity (c_Path c)) acc | None => acc end in
        if (c_BundleID c !=? "") && negb (matchBundleID (c_BundleID c) (p_BundleID info)) then (false, SpecNone)
        else if (c_PackageFamilyName c !=? "") && negb (EqualFold (c_PackageFamilyName c) (p_PackageFamilyName info))
        then (false, SpecNone)
        else (true, acc).

Definition matchProcess (cm : compiledConfigMatcher) (info : ProcessInfo) : bool * MatchSpecificity :=
  if c_Strict (pc_Match (cm_config cm)) then matchStrict cm info else matchFlexible cm info.

Definition matched_acl (pc : ProcessConfig) (s : MatchSpecificity) : MatchedProcessACL :=
  mkMatchedACL (pc_Name pc) (pc_Match pc) (pc_Default pc) (pc_Rules pc) (pc_Children pc) s.

Definition match_step (info : ProcessInfo) (best : option MatchedProcessACL * MatchSpecificity) (cm : compiledConfigMatcher)
  : option MatchedProcessACL * MatchSpecificity :=
  let '(matched, s) := matchProcess cm info in
  if negb matched then best
  else if spec_rank best.2 <? spec_rank s then (Some (matched_acl (cm_config cm) s), s) else best.

Definition ConfigMatcher_Match (m : ConfigMatcher) (info : ProcessInfo) : option MatchedProcessACL :=
  (fold_left (match_step info) (cfm_compiled m) (None, SpecNone)).1.

Definition ConfigMatcher_Matches (m : ConfigMatcher) (info : ProcessInfo) : bool :=
  match ConfigMatcher_Match m info with Some _ => true | None => false end.

Definition MatchChild (acl : option MatchedProcessACL) (info : ProcessInfo) : option ChildConfig :=
  match acl with
  | None => None
  | Some acl =>
    List.find (fun child =>
      match compile_path (cc_Match child) with
      | None => false
      | Some g => (matchFlexible (mkCompiled (mkProcessConfig "" (cc_Match child) "" [] []) g) info).1
      end) (ma_Children acl)
  end.

(** [GetDefaultDecision] of the matcher and of the manager. *)
Definition GetDefaultDecision (c : Config) : string := if cf_Default c ==? "" then DecisionDeny else cf_Default c.

Definition ProcessCount (m : ConfigMatcher) : nat := length (cfm_compiled m).

End Matching.
End AclMatcher.
Export AclMatcher.

(** ** Configuration ([config.go]) *)
Module AclConfig.
Section Configuration.
Context {U : UnicodeCase} {CO : CaseOrbits} `{L : Libraries}.

Inductive acl_error : Type :=
| ENilConfig
| EBadDefault (d : string)
| EAtProcess (i : nat) (name : string) (e : acl_error)
| EAtRule (i : nat) (e : acl_error)
| EAtChild (i : nat) (name : string) (e : acl_error)
| ENameRequired
| ENoCriteria
| ENoTarget
| ENoDecision
| EBadDecision (d : string)
| EBadProtocol (p : string)
| EBadIP (s : string)
| EBadCIDR (s : string)
| EBadHost (s : string)
| EBadPath (s : string)
| EBadPort (spec : string) (e : acl_error)
| ERangeStart
| ERangeEnd
| ERangeOrder (lo hi : Z)
| ERangeBounds (z : Z)
| EPortNumber
| EPortBounds (z : Z)
| EParse
| EValidate (e : acl_error)
| EMatcher (e : acl_error)
| ECompile (name : string) (e : acl_error).

(** [for i, x := range l { if err := f(x); err != nil { return wrap(i, x, err) } }]. *)
Fixpoint check_all {A} (f : A -> result acl_error unit) (wrap : nat -> A -> acl_error -> acl_error) (i : nat) (l : list A)
  : result acl_error unit :=
  match l with
  | [] => Ok tt
  | x :: l' => match f x with Err e => Err (wrap i x e) | Ok _ => check_all f wrap (S i) l' end
  end.

Definition isValidDecision (d : string) : bool :=
  (d ==? DecisionAllow) || (d ==? DecisionDeny) || (d ==? DecisionApprove) ||
  (d ==? DecisionAllowOnceThenApprove) || (d ==? DecisionAudit).

Definition out_of_range (z : Z) : bool := (z <? 1) || (65535 <? z).

Definition validatePortSpec (spec : string) : result acl_error unit :=
  let spec := TrimSpace_string spec in
  if (spec ==? "") || (spec ==? "*") then Ok tt
  else if Contains spec "-" then
    let '(a, b) := split_first 45 spec in
    lo <-? of_option ERangeStart (Atoi (TrimSpace_string a));
    hi <-? of_option ERangeEnd (Atoi (TrimSpace_string b));
    if hi <? lo then Err (ERangeOrder lo hi)
    else if out_of_range lo then Err (ERangeBounds lo)
    else if out_of_range hi then Err (ERangeBounds hi)
    else Ok tt
  else
    port <-? of_option EPortNumber (Atoi spec);
    if out_of_range port then Err (EPortBounds port) else Ok tt.

Definition validateNetworkTarget (t : NetworkTarget) : result acl_error unit :=
  if (t_Host t ==? "") && (t_IP t ==? "") && (t_CIDR t ==? "") then Err ENoTarget
  else if t_Decision t ==? "" then Err ENoDecision
  else if negb (isValidDecision (t_Decision t)) then Err (EBadDecision (t_Decision t))
  else
    let proto := ToLower (t_Protocol t) in
    if (t_Protocol t !=? "") && (t_Protocol t !=? "*") && (proto !=? "tcp") && (proto !=? "udp") then Err (EBadProtocol proto)
    else if (t_IP t !=? "") && match ParseIP (string_bytes (t_IP t)) with None => true | Some _ => false end
    then Err (EBadIP (t_IP t))
    else if (t_CIDR t !=? "") && match ParseCIDR (t_CIDR t) with None => true | Some _ => false end
    then Err (EBadCIDR (t_CIDR t))
    else if (t_Port t !=? "") && (t_Port t !=? "*") then map_err (EBadPort (t_Port t)) (validatePortSpec (t_Port t))
    else Ok tt.

Definition validateChildConfig (cc : ChildConfig) : result acl_error unit :=
  if cc_Name cc ==? "" then Err ENameRequired
  else if negb (hasCriteria (cc_Match cc)) then Err ENoCriteria
  else check_all validateNetworkTarget (fun i _ => EAtRule i) 0 (cc_Rules cc).

Definition validateProcessConfig (pc : ProcessConfig) : result acl_error unit :=
  if pc_Name pc ==? "" then Err ENameRequired
  else if negb (hasCriteria (pc_Match pc)) then Err ENoCriteria
  else if (pc_Default pc !=? "") && negb (isValidDecision (pc_Default pc)) then Err (EBadDefault (pc_Default pc))
  else
    _ <-? check_all validateNetworkTarget (fun i _ => EAtRule i) 0 (pc_Rules pc);
    check_all validateChildConfig (fun i cc => EAtChild i (cc_Name cc)) 0 (pc_Children pc).

Definition ValidateConfig (config : option Config) : result acl_error unit :=
  match config with
  | None => Err ENilConfig
  | Some c =>
    if (cf_Default c !=? "") && negb (isValidDecision (cf_Default c)) then Err (EBadDefault (cf_Default c))
    else check_all validateProcessConfig (fun i pc => EAtProcess i (pc_Name pc)) 0 (cf_Processes c)
  end.

(** *** Copies and merges *)

(** [Clone] copies name, criteria, defaults, rules and children; the field [ApprovalUI] is left at
    its zero value. *)
Definition ChildConfig_Clone (cc : ChildConfig) : ChildConfig :=
  mkChildConfig (cc_Name cc) (cc_Match cc) (cc_Inherit cc) (cc_Rules cc).
Definition ProcessConfig_Clone (pc : ProcessConfig) : ProcessConfig :=
  mkProcessConfig (pc_Name pc) (pc_Match pc) (pc_Default pc) (pc_Rules pc) (ChildConfig_Clone <$> pc_Children pc).
Definition Config_Clone (c : Config) : Config := mkConfig (cf_Default c) (ProcessConfig_Clone <$> cf_Processes c) None.

(** [m := make(map[string]T); for _, x := range l { m[x.Name] = x }]: the last of a name stays. *)
Definition by_name {A} (name : A -> string) (l : list A) : gmap string A := fold_left (fun m x => <[name x := x]> m) l ∅.

Definition merge_child (baseCC overlayCC : ChildConfig) : ChildConfig :=
  mkChildConfig (cc_Name baseCC)
    (if hasCriteria (cc_Match overlayCC) then cc_Match overlayCC else cc_Match baseCC)
    (match cc_Inherit overlayCC with Some b => Some b | None => cc_Inherit baseCC end)
    (cc_Rules overlayCC ++ cc_Rules baseCC).

(** The two loops over the overlay and over what is left of the base, for children and processes. *)
Definition merge_named {A} (name : A -> string) (merge : A -> A -> A) (base overlay : list A) : list A :=
  let baseMap := by_name name base in
  ((fun o => match baseMap !! name o with Some b => merge b o | None => o end) <$> overlay) ++
  List.filter (fun b => negb (existsb (fun o => name o ==? name b) overlay)) base.

Definition mergeChildConfigs (base overlay : list ChildConfig) : list ChildConfig :=
  match base, overlay with
  | _, [] => base
  | [], _ => overlay
  | _, _ => merge_named cc_Name merge_child base overlay
  end.

Definition mergeProcessConfigs (base overlay : ProcessConfig) : ProcessConfig :=
  mkProcessConfig (pc_Name base)
    (if hasCriteria (pc_Match overlay) then pc_Match overlay else pc_Match base)
    (if pc_Default overlay !=? "" then pc_Default overlay else pc_Default base)
    (pc_Rules overlay ++ pc_Rules base)
    (mergeChildConfigs (pc_Children base) (pc_Children overlay)).

Definition MergeConfigs (base overlay : option Config) : option Config :=
  match base, overlay with
  | None, None => None
  | None, Some o => Some (Config_Clone o)
  | Some b, None => Some (Config_Clone b)
  | Some b, Some o =>
    Some (mkConfig (if cf_Default o !=? "" then cf_Default o else cf_Default b)
            (merge_named pc_Name mergeProcessConfigs (cf_Processes b) (cf_Processes o)) None)
  end.

(** *** Decoding *)

(** [gopkg.in/yaml.v3] with known fields only: into the wrapper [network_acl:], and directly; and
    the encoder with an indentation of two. *)
Class AclYaml : Type := {
  yaml_wrapped : string -> option Config;
  yaml_direct : string -> option Config;
  yaml_encode : Config -> option string
}.

Definition ParseConfig `{AclYaml} (data : string) : result acl_error Config :=
  let direct :=
    config <-? of_option EParse (yaml_direct data);
    _ <-? map_err EValidate (ValidateConfig (Some config));
    Ok config in
  match yaml_wrapped data with
  | Some w =>
    if (cf_Default w !=? "") || nonempty (cf_Processes w) || match cf_ApprovalUI w with Some _ => true | None => false end
    then (_ <-? map_err EValidate (ValidateConfig (Some w)); Ok w)
    else direct
  | None => direct
  end.

End Configuration.
End AclConfig.
Export AclConfig.
