(* ===== verification/NetAclEngine.v ===== *)
(** * Process network rules: engine, evaluator and manager ([internal/netmonitor/pnacl])

    [policy.go] has two evaluators of the same configuration: [PolicyEngine], which compiles every
    rule and serves the kernel monitor and the command line, and [PolicyEvaluator], which reads the
    rules as configured, caches compiled patterns and serves the [Manager] of [manager.go].  The
    caches are part of the evaluator's state and passed along.  Locking is not modelled: a call
    sees and leaves one state. *)

From Stdlib Require Import ZArith Lia Ascii String.
From stdpp Require Import base list strings gmap.
From S2P Require Import Prelude GoText GoNet GoStrings PolicyModel PolicyEngine NetGuards NetAcl.
Open Scope string_scope.
Open Scope list_scope.
Open Scope Z_scope.

(** ** Scores and the choice among hits *)
Module AclScore.
Section Scoring.
Context {U : UnicodeCase}.

Definition is_star (r : Z) : bool := r =? 42.

(** Exactness, matched length and minus the number of stars. *)
Definition score : Type := Z * Z * Z.

Definition scorePNACLTarget (t : NetworkTarget) : score :=
  if t_IP t !=? "" then (1, Z.of_nat (String.length (t_IP t)), 0)
  else
    let by_host :=
      let h := string_bytes (ToLower (t_Host t)) in
      let star := Z.of_nat (count_byte 42 h) in
      let '(exact, prefix, wild) :=
        match index_byte 42 h with
        | None => (1, Z.of_nat (length h), 0)
        | Some idx =>
          let lit := Z.of_nat (length (List.filter (fun r => negb (is_star r)) (range_runes h).*1)) in
          (0, if lit <? Z.of_nat idx then Z.of_nat idx else lit, - star)
        end in
      (exact, if (t_Port t !=? "") && (t_Port t !=? "*") then prefix + 1 else prefix, wild) in
    if t_CIDR t !=? "" then
      match ParseCIDR (t_CIDR t) with
      | Some n => let '(ones, bits) := Mask_Size (n_Mask n) in
                  if (0 <? bits) && (ones =? bits) then (1, ones, 0) else (0, ones, 0)
      | None => by_host
      end
    else by_host.

Definition pnaclBetter (a b : score) : bool :=
  let '(ae, ap, aw) := a in let '(be, bp, bw) := b in
  if negb (ae =? be) then be <? ae else if negb (ap =? bp) then bp <? ap else bw <? aw.

(** The loops after the hits are collected: the first best score, the hits of that score, and
    among these the first denial, or else the first. *)
Definition choose_hit {R} (decision : R -> string) (best : score * R) (hits : list (score * R)) : R :=
  let top_score := (fold_left (fun b h => if pnaclBetter h.1 b.1 then h else b) hits best).1 in
  let top := List.filter (fun h : score * R => h.1 ==? top_score) (best :: hits) in
  match List.find (fun h : score * R => decision h.2 ==? DecisionDeny) top with
  | Some h => h.2
  | None => match top with h :: _ => h.2 | [] => best.2 end
  end.

End Scoring.
End AclScore.
Export AclScore.

(** ** The compiled engine *)
Module AclEngine.
Section Engine.
Context {U : UnicodeCase} {CO : CaseOrbits} `{L : Libraries}.

Record NetworkRule : Type := mkRule {
  nr_target : NetworkTarget; nr_hostGlob : option Glob; nr_ipNet : option IPNet; nr_ip : option (list Z);
  nr_portMin : Z; nr_portMax : Z; nr_portAny : bool; nr_protocol : string
}.

(** The first port, the last port, and whether every port is meant. *)
Definition parsePort (spec : string) : result acl_error (Z * Z * bool) :=
  let spec := TrimSpace_string spec in
  if (spec ==? "") || (spec ==? "*") then Ok (0, 0, true)
  else if Contains spec "-" then
    let '(a, b) := split_first 45 spec in
    lo <-? of_option ERangeStart (Atoi (TrimSpace_string a));
    hi <-? of_option ERangeEnd (Atoi (TrimSpace_string b));
    if hi <? lo then Err (ERangeOrder lo hi)
    else if (lo <? 1) || (65535 <? hi) then Err (ERangeBounds lo)
    else Ok (lo, hi, false)
  else
    port <-? of_option EPortNumber (Atoi spec);
    if (port <? 1) || (65535 <? port) then Err (EPortBounds port) else Ok (port, port, false).

Definition CompileNetworkRule (t : NetworkTarget) : result acl_error NetworkRule :=
  let proto := ToLower (t_Protocol t) in
  let proto := if proto ==? "" then "*" else proto in
  hostGlob <-? (if t_Host t ==? "" then Ok None
                else g <-? of_option (EBadHost (t_Host t)) (glob_Compile (ToLower (t_Host t)) [ch_dot]); Ok (Some g));
  ip <-? (if t_IP t ==? "" then Ok None
          else ip <-? of_option (EBadIP (t_IP t)) (ParseIP (string_bytes (t_IP t))); Ok (Some ip));
  ipNet <-? (if t_CIDR t ==? "" then Ok None
             else n <-? of_option (EBadCIDR (t_CIDR t)) (ParseCIDR (t_CIDR t)); Ok (Some n));
  '(lo, hi, any) <-? parsePort (t_Port t);
  Ok (mkRule t hostGlob ipNet ip lo hi any proto).

(** The address of a connection may be unknown. *)
Definition NetworkRule_Matches (r : NetworkRule) (host : string) (ip : option (list Z)) (port : Z) (protocol : string) : bool :=
  if (nr_protocol r !=? "*") && (ToLower protocol !=? nr_protocol r) then false
  else if negb (nr_portAny r) && ((port <? nr_portMin r) || (nr_portMax r <? port)) then false
  else if (match nr_hostGlob r with Some g => negb (g (ToLower host)) | None => false end) then false
  else if (match nr_ip r with
           | Some x => match ip with None => true | Some ip => negb (IP_Equal x ip) end
           | None => false
           end) then false
  else if (match nr_ipNet r with
           | Some n => match ip with None => true | Some ip => negb (IPNet_Contains n ip) end
           | None => false
           end) then false
  else true.

Record ChildPolicy : Type := mkChildPolicy {
  cp_Name : string; cp_Match : ProcessMatchCriteria; cp_Inherit : bool; cp_Rules : list NetworkRule; cp_Matcher : ProcessMatcher
}.

Record ProcessPolicy : Type := mkProcessPolicy {
  pp_Name : string; pp_Match : ProcessMatchCriteria; pp_Default : string; pp_Rules : list NetworkRule;
  pp_Children : list ChildPolicy; pp_Matcher : ProcessMatcher
}.

Record PolicyEngine : Type := mkEngine { e_GlobalDefault : string; e_ProcessPolicies : list ProcessPolicy }.

Fixpoint compile_rules (i : nat) (l : list NetworkTarget) : result acl_error (list NetworkRule) :=
  match l with
  | [] => Ok []
  | t :: l' =>
    r <-? map_err (EAtRule i) (CompileNetworkRule t);
    rest <-? compile_rules (S i) l';
    Ok (r :: rest)
  end.

Definition new_matcher (c : ProcessMatchCriteria) : result acl_error ProcessMatcher :=
  of_option (EMatcher (EBadPath (c_Path c))) (NewProcessMatcher c).

Definition compileChildPolicy (cc : ChildConfig) : result acl_error ChildPolicy :=
  matcher <-? new_matcher (cc_Match cc);
  rules <-? compile_rules 0 (cc_Rules cc);
  Ok (mkChildPolicy (cc_Name cc) (cc_Match cc) (InheritRules cc) rules matcher).

Definition compileProcessPolicy (pc : ProcessConfig) : result acl_error ProcessPolicy :=
  matcher <-? new_matcher (pc_Match pc);
  rules <-? compile_rules 0 (pc_Rules pc);
  children <-? each (fun cc => map_err (ECompile (cc_Name cc)) (compileChildPolicy cc)) (pc_Children pc);
  Ok (mkProcessPolicy (pc_Name pc) (pc_Match pc) (if pc_Default pc !=? "" then pc_Default pc else DecisionApprove)
        rules children matcher).

Definition NewPolicyEngine (config : Config) : result acl_error PolicyEngine :=
  policies <-? each (fun pc => map_err (ECompile (pc_Name pc)) (compileProcessPolicy pc)) (cf_Processes config);
  Ok (mkEngine (if cf_Default config !=? "" then cf_Default config else DecisionDeny) policies).

Record PolicyResult : Type := mkResult {
  r_Decision : string; r_ProcessName : string; r_RuleIndex : Z; r_IsInherited : bool; r_ChildName : string
}.

(** [for i, rule := range rules { if !rule.Matches(...) { continue }; hits = append(hits, ...) }]. *)
Fixpoint rule_hits (bonus : Z) (mk : Z -> NetworkRule -> PolicyResult) (m : NetworkRule -> bool) (i : Z) (l : list NetworkRule)
  : list (score * PolicyResult) :=
  match l with
  | [] => []
  | r :: l' =>
    let rest := rule_hits bonus mk m (i + 1) l' in
    if m r then (let '(ex, pr, w) := scorePNACLTarget (nr_target r) in ((ex, pr + bonus, w), mk i r) :: rest) else rest
  end.

(** A connection as the engine is asked about it. *)
Record Conn : Type := mkQuery { q_host : string; q_ip : option (list Z); q_port : Z; q_protocol : string }.

Definition matches_conn (q : Conn) (r : NetworkRule) : bool := NetworkRule_Matches r (q_host q) (q_ip q) (q_port q) (q_protocol q).

Definition evaluateProcessRules (pp : ProcessPolicy) (q : Conn) : PolicyResult :=
  match rule_hits 0 (fun i r => mkResult (t_Decision (nr_target r)) (pp_Name pp) i false "") (matches_conn q) 0 (pp_Rules pp) with
  | [] => mkResult (pp_Default pp) (pp_Name pp) (-1) false ""
  | h :: hits => choose_hit r_Decision h hits
  end.

Definition child_hits (parent : ProcessPolicy) (child : ChildPolicy) (q : Conn) : list (score * PolicyResult) :=
  rule_hits 100 (fun i r => mkResult (t_Decision (nr_target r)) (pp_Name parent) i false (cp_Name child)) (matches_conn q) 0
    (cp_Rules child) ++
  if cp_Inherit child
  then rule_hits 0 (fun i r => mkResult (t_Decision (nr_target r)) (pp_Name parent) i true (cp_Name child)) (matches_conn q) 0
         (pp_Rules parent)
  else [].

Definition evaluateWithChild (parent : ProcessPolicy) (child : ChildPolicy) (q : Conn) : PolicyResult :=
  match child_hits parent child q with
  | [] => mkResult (pp_Default parent) (pp_Name parent) (-1) (cp_Inherit child) (cp_Name child)
  | h :: hits => choose_hit r_Decision h hits
  end.

Definition findChildPolicy (parent : ProcessPolicy) (proc : ProcessInfo) : option ChildPolicy :=
  List.find (fun cp => ProcessMatcher_Matches (cp_Matcher cp) proc) (pp_Children parent).

(** The policy of the process itself, or of the child of it that [child] is. *)
Definition evaluate_policy (pp : ProcessPolicy) (child : ProcessInfo) (q : Conn) : PolicyResult :=
  match findChildPolicy pp child with
  | Some cp => evaluateWithChild pp cp q
  | None => evaluateProcessRules pp q
  end.

Definition find_policy (e : PolicyEngine) (proc : ProcessInfo) : option ProcessPolicy :=
  List.find (fun pp => ProcessMatcher_Matches (pp_Matcher pp) proc) (e_ProcessPolicies e).

Definition Evaluate (e : PolicyEngine) (proc : ProcessInfo) (q : Conn) : PolicyResult :=
  match find_policy e proc with
  | Some pp => evaluate_policy pp proc q
  | None => mkResult (e_GlobalDefault e) "" (-1) false ""
  end.

Definition EvaluateForParentChild (e : PolicyEngine) (parentProc childProc : ProcessInfo) (q : Conn) : PolicyResult :=
  match find_policy e parentProc with
  | Some pp => evaluate_policy pp childProc q
  | None => Evaluate e childProc q
  end.

End Engine.
End AclEngine.
Export AclEngine.

(** ** The caching evaluator *)
Module AclEvaluator.
Section Evaluator.
Context {U : UnicodeCase} {CO : CaseOrbits} `{L : Libraries}.

Record EvaluationResult : Type := mkEvalResult {
  er_Decision : string; er_MatchedRule : option NetworkTarget; er_RuleIndex : Z; er_ProcessACLName : string;
  er_IsInherited : bool; er_ChildACLName : string
}.

Inductive PolicyEvaluatorACL : Type :=
  mkACL (name : string) (match_ : ProcessMatchCriteria) (default_ : string) (rules : list NetworkTarget)
        (children : list PolicyEvaluatorACL) (inherit : bool).

Definition acl_Name (a : PolicyEvaluatorACL) : string := let 'mkACL n _ _ _ _ _ := a in n.
Definition acl_Match (a : PolicyEvaluatorACL) : ProcessMatchCriteria := let 'mkACL _ m _ _ _ _ := a in m.
Definition acl_Default (a : PolicyEvaluatorACL) : string := let 'mkACL _ _ d _ _ _ := a in d.
Definition acl_Rules (a : PolicyEvaluatorACL) : list NetworkTarget := let 'mkACL _ _ _ r _ _ := a in r.
Definition acl_Children (a : PolicyEvaluatorACL) : list PolicyEvaluatorACL := let 'mkACL _ _ _ _ c _ := a in c.
Definition acl_Inherit (a : PolicyEvaluatorACL) : bool := let 'mkACL _ _ _ _ _ i := a in i.

Record singleProcessMatcher : Type := mkSingle { sm_criteria : ProcessMatchCriteria; sm_pathGlob : option Glob }.

(** [compiledMatchers], keyed by the name of an ACL, and [compiledHostGlobs], keyed by pattern. *)
Record caches : Type := mkCaches { k_matchers : gmap string singleProcessMatcher; k_globs : gmap string Glob }.

Definition no_caches : caches := mkCaches ∅ ∅.

Record PolicyEvaluator : Type := mkEvaluator { pe_GlobalDefault : string; pe_ProcessACLs : list PolicyEvaluatorACL; pe_caches : caches }.

Definition NewPolicyEvaluator : PolicyEvaluator := mkEvaluator DecisionDeny [] no_caches.

Definition getOrCreateMatcher (name : string) (criteria : ProcessMatchCriteria) (k : caches) : option singleProcessMatcher * caches :=
  match k_matchers k !! name with
  | Some m => (Some m, k)
  | None =>
    match compile_path criteria with
    | None => (None, k)
    | Some g => let m := mkSingle criteria g in (Some m, mkCaches (<[name := m]> (k_matchers k)) (k_globs k))
    end
  end.

Definition single_matchFlexible (m : singleProcessMatcher) (info : ProcessInfo) : bool :=
  let c := sm_criteria m in
  if negb (hasCriteria c) then false
  else if (c_ProcessName c !=? "") && EqualFold (c_ProcessName c) (p_Name info) then true
  else if (match sm_pathGlob m with Some g => g (p_Path info) | None => false end) then true
  else if (c_BundleID c !=? "") && (p_BundleID info !=? "") && EqualFold (c_BundleID c) (p_BundleID info) then true
  else if (c_PackageFamilyName c !=? "") && (p_PackageFamilyName info !=? "") &&
          EqualFold (c_PackageFamilyName c) (p_PackageFamilyName info) then true
  else false.

Definition single_matchStrict (m : singleProcessMatcher) (info : ProcessInfo) : bool :=
  let c := sm_criteria m in
  if negb (hasCriteria c) then false
  else if (c_ProcessName c !=? "") && negb (EqualFold (c_ProcessName c) (p_Name info)) then false
  else if (match sm_pathGlob m with Some g => negb (g (p_Path info)) | None => false end) then false
  else if (c_BundleID c !=? "") && negb (EqualFold (c_BundleID c) (p_BundleID info)) then false
  else if (c_PackageFamilyName c !=? "") && negb (EqualFold (c_PackageFamilyName c) (p_PackageFamilyName info)) then false
  else true.

Definition single_matches (m : singleProcessMatcher) (info : ProcessInfo) : bool :=
  if c_Strict (sm_criteria m) then single_matchStrict m info else single_matchFlexible m info.

(** [findChildACL] and [FindProcessACL]: the first ACL whose matcher, taken from the cache, accepts. *)
Fixpoint find_acl (l : list PolicyEvaluatorACL) (info : ProcessInfo) (k : caches) : option PolicyEvaluatorACL * caches :=
  match l with
  | [] => (None, k)
  | a :: l' =>
    match getOrCreateMatcher (acl_Name a) (acl_Match a) k with
    | (None, k') => find_acl l' info k'
    | (Some m, k') => if single_matches m info then (Some a, k') else find_acl l' info k'
    end
  end.

Definition findChildACL (parent : PolicyEvaluatorACL) (cx : ConnectionContext) (k : caches) : option PolicyEvaluatorACL * caches :=
  find_acl (acl_Children parent) (cx_Process cx) k.

Definition FindProcessACL (pe : PolicyEvaluator) (info : ProcessInfo) (k : caches) : option PolicyEvaluatorACL * caches :=
  find_acl (pe_ProcessACLs pe) info k.

Definition matchHost (pattern host : string) (k : caches) : bool * caches :=
  if (pattern ==? "") || (host ==? "") then (false, k)
  else
    let pattern := ToLower pattern in
    let host := ToLower host in
    if pattern ==? host then (true, k)
    else if pattern ==? "*" then (true, k)
    else match k_globs k !! pattern with
    | Some g => (g host, k)
    | None =>
      match glob_Compile pattern [ch_dot] with
      | None => (false, k)
      | Some g => (g host, mkCaches (k_matchers k) (<[pattern := g]> (k_globs k)))
      end
    end.

Definition matchIP (target : string) (ip : option (list Z)) : bool :=
  match ip with
  | None => false
  | Some ip =>
    if target ==? "" then false
    else match ParseIP (string_bytes target) with None => false | Some t => IP_Equal t ip end
  end.

Definition matchCIDR (cidr : string) (ip : option (list Z)) : bool :=
  match ip with
  | None => false
  | Some ip =>
    if cidr ==? "" then false
    else match ParseCIDR cidr with None => false | Some n => IPNet_Contains n ip end
  end.

Definition matchPort (pattern : string) (port : Z) : bool :=
  let pattern := TrimSpace_string pattern in
  if (pattern ==? "") || (pattern ==? "*") then true
  else if Contains pattern "-" then
    let '(a, b) := split_first 45 pattern in
    match Atoi (TrimSpace_string a), Atoi (TrimSpace_string b) with
    | Some lo, Some hi => (lo <=? port) && (port <=? hi)
    | _, _ => false
    end
  else match Atoi pattern with None => false | Some p => port =? p end.

Definition matchProtocol (pattern protocol : string) : bool :=
  let pattern := TrimSpace_string (ToLower pattern) in
  let protocol := TrimSpace_string (ToLower protocol) in
  if (pattern ==? "") || (pattern ==? "*") then true else pattern ==? protocol.

Definition evaluateNetworkTarget (rule : NetworkTarget) (cx : ConnectionContext) (k : caches) : bool * caches :=
  if negb (matchProtocol (t_Protocol rule) (cx_Protocol cx)) then (false, k)
  else if negb (matchPort (t_Port rule) (cx_Port cx)) then (false, k)
  else
    let '(by_host, k) := if t_Host rule !=? "" then matchHost (t_Host rule) (cx_Host cx) k else (false, k) in
    let ip := ParseIP (string_bytes (cx_Host cx)) in
    let by_ip := (t_IP rule !=? "") && matchIP (t_IP rule) ip in
    let by_cidr := (t_CIDR rule !=? "") && matchCIDR (t_CIDR rule) ip in
    if negb ((t_Host rule !=? "") || (t_IP rule !=? "") || (t_CIDR rule !=? "")) then (true, k)
    else (by_host || by_ip || by_cidr, k).

Fixpoint target_hits (bonus : Z) (mk : Z -> NetworkTarget -> EvaluationResult) (cx : ConnectionContext) (i : Z) (l : list NetworkTarget)
  (k : caches) : list (score * EvaluationResult) * caches :=
  match l with
  | [] => ([], k)
  | r :: l' =>
    let '(m, k) := evaluateNetworkTarget r cx k in
    let '(rest, k) := target_hits bonus mk cx (i + 1) l' k in
    if m then (let '(ex, pr, w) := scorePNACLTarget r in (((ex, pr + bonus, w), mk i r) :: rest, k)) else (rest, k)
  end.

Definition evaluateACLRules (global : string) (cx : ConnectionContext) (rules : list NetworkTarget) (aclName defaultDecision : string)
  (k : caches) : EvaluationResult * caches :=
  match target_hits 0 (fun i r => mkEvalResult (t_Decision r) (Some r) i aclName false "") cx 0 rules k with
  | ([], k) => (mkEvalResult (if defaultDecision ==? "" then global else defaultDecision) None (-1) aclName false "", k)
  | (h :: hits, k) => (choose_hit er_Decision h hits, k)
  end.

Definition evaluateWithInheritance (global : string) (cx : ConnectionContext) (parent child : PolicyEvaluatorACL) (k : caches)
  : EvaluationResult * caches :=
  let '(own, k) := target_hits 100 (fun i r => mkEvalResult (t_Decision r) (Some r) i (acl_Name parent) false (acl_Name child))
                     cx 0 (acl_Rules child) k in
  let '(inherited, k) :=
    if acl_Inherit child
    then target_hits 0 (fun i r => mkEvalResult (t_Decision r) (Some r) i (acl_Name parent) true (acl_Name child)) cx 0 (acl_Rules parent) k
    else ([], k) in
  match own ++ inherited with
  | [] =>
    let d := if acl_Default child ==? "" then acl_Default parent else acl_Default child in
    (mkEvalResult (if d ==? "" then global else d) None (-1) (acl_Name parent) (acl_Inherit child) (acl_Name child), k)
  | h :: hits => (choose_hit er_Decision h hits, k)
  end.

Definition Evaluator_Evaluate (global : string) (cx : ConnectionContext) (acl : option PolicyEvaluatorACL) (k : caches)
  : EvaluationResult * caches :=
  match acl with
  | None => (mkEvalResult global None (-1) "" false "", k)
  | Some acl =>
    match findChildACL acl cx k with
    | (Some child, k) => evaluateWithInheritance global cx acl child k
    | (None, k) => evaluateACLRules global cx (acl_Rules acl) (acl_Name acl) (acl_Default acl) k
    end
  end.

Definition set_caches (pe : PolicyEvaluator) (k : caches) : PolicyEvaluator := mkEvaluator (pe_GlobalDefault pe) (pe_ProcessACLs pe) k.

Definition EvaluateConnection (pe : PolicyEvaluator) (cx : ConnectionContext) : EvaluationResult * PolicyEvaluator :=
  let '(acl, k) := FindProcessACL pe (cx_Process cx) (pe_caches pe) in
  let '(r, k) := Evaluator_Evaluate (pe_GlobalDefault pe) cx acl k in
  (r, set_caches pe k).

Definition AddProcessACL (pe : PolicyEvaluator) (acl : PolicyEvaluatorACL) : PolicyEvaluator :=
  mkEvaluator (pe_GlobalDefault pe) (pe_ProcessACLs pe ++ [acl]) (pe_caches pe).
Definition SetGlobalDefault (pe : PolicyEvaluator) (d : string) : PolicyEvaluator := mkEvaluator d (pe_ProcessACLs pe) (pe_caches pe).
Definition ClearCache (pe : PolicyEvaluator) : PolicyEvaluator := set_caches pe no_caches.

Definition child_acl (cc : ChildConfig) : PolicyEvaluatorACL := mkACL (cc_Name cc) (cc_Match cc) "" (cc_Rules cc) [] (InheritRules cc).
Definition process_acl (pc : ProcessConfig) : PolicyEvaluatorACL :=
  mkACL (pc_Name pc) (pc_Match pc) (pc_Default pc) (pc_Rules pc) (child_acl <$> pc_Children pc) false.

Definition LoadFromConfig (config : Config) : PolicyEvaluator :=
  mkEvaluator (if cf_Default config !=? "" then cf_Default config else DecisionDeny) (process_acl <$> cf_Processes config) no_caches.

End Evaluator.
End AclEvaluator.
Export AclEvaluator.

(** ** The manager ([manager.go]) *)
Module AclManager.
Section Managing.
Context {U : UnicodeCase} {CO : CaseOrbits} `{L : Libraries}.

Record Manager : Type := mkManager { mg_config : Config; mg_matcher : ConfigMatcher; mg_evaluator : PolicyEvaluator }.

Definition NewManager (config : option Config) : option Manager :=
  let c := default empty_config config in
  matcher ← NewConfigMatcherFromConfig (Some c);
  Some (mkManager (Config_Clone c) matcher (LoadFromConfig c)).

Definition Manager_Evaluate (m : Manager) (cx : ConnectionContext) : EvaluationResult * Manager :=
  let '(r, pe) := EvaluateConnection (mg_evaluator m) cx in (r, mkManager (mg_config m) (mg_matcher m) pe).

Definition Manager_UpdateConfig (m : Manager) (config : option Config) : bool * Manager :=
  match NewManager config with None => (false, m) | Some m' => (true, m') end.

Definition GetConfig (m : Manager) : Config := Config_Clone (mg_config m).
Definition Manager_GetDefaultDecision (m : Manager) : string := GetDefaultDecision (mg_config m).

End Managing.
End AclManager.
Export AclManager.
