(* ===== verification/NetAclApproval.v ===== *)
(** * Process network rules: persisted rules and approvals ([internal/netmonitor/pnacl])

    [persist.go] adds and removes rules in the YAML file, with a comment line before the rule that
    was added; [approval.go] and [dialog_prompt.go] ask the user about a connection, emit events and
    persist permanent answers through the interface [RulePersister], whose two implementations are
    instances here.

    The file is its content, absent when it does not exist; every call is told how its reads and
    writes end.  Times are values the caller supplies, and so is the date that goes into the
    comment.  A request for approval is two steps, because other goroutines run between them: its
    registration, and the end of its wait by an answer, the timer or a cancelled context.  The
    channel of a pending request holds at most one answer; it is found by the ID of the request, as
    IDs are not reused while a request is pending. *)

From Stdlib Require Import ZArith Lia Ascii String.
From stdpp Require Import base list strings gmap.
From S2P Require Import Prelude GoText GoNet GoStrings PolicyModel PolicyEngine NetGuards NetAcl NetAclEngine.
Open Scope string_scope.
Open Scope list_scope.
Open Scope Z_scope.

(** ** Rules on disk ([persist.go]) *)
Module AclPersist.

(** What one implementation of the interface [RulePersister] does to its store. *)
Class RulePersister (S E : Type) : Type := { AddRule : string -> NetworkTarget -> string -> S -> result E unit * S }.

Definition nl : string := String (ascii_of_nat 10) "".
Definition ch_nl : Z := 10.
Definition ch_space : Z := 32.

Definition ruleExists (rules : list NetworkTarget) (target : NetworkTarget) : bool :=
  existsb (fun r => (t_Host r ==? t_Host target) && (t_IP r ==? t_IP target) && (t_CIDR r ==? t_CIDR target) &&
                    (t_Port r ==? t_Port target) && (t_Protocol r ==? t_Protocol target) && (t_Decision r ==? t_Decision target)) rules.

(** *** In memory *)

Definition memory : Type := gmap string (list NetworkTarget).

Definition memory_rules (p : memory) (name : string) : list NetworkTarget := default [] (p !! name).

#[export] Instance InMemoryRulePersister : RulePersister memory Empty_set := {|
  AddRule name target _ p :=
    if ruleExists (memory_rules p name) target then (Ok tt, p)
    else (Ok tt, <[name := target :: memory_rules p name]> p)
|}.

(** *** Comments in the file *)

Fixpoint count_leading (c : Z) (l : list Z) : nat :=
  match l with b :: l' => if b =? c then S (count_leading c l') else O | [] => O end.

(** Inside the process, inside its rules, and whether the comment was added. *)
Record inject_state : Type := mkInject { in_process : bool; in_rules : bool; added : bool }.

Definition inject_line (processName comment : list Z) (st : inject_state) (line : list Z) : inject_state * list (list Z) :=
  let inProcess := in_process st || (contains (string_bytes "name:") line && contains processName line) in
  let inRules := in_rules st || (inProcess && (TrimSpace line ==? string_bytes "rules:")) in
  let insert := inProcess && inRules && negb (added st) && starts_with (string_bytes "- ") (TrimSpace line) in
  let comment_line := replicate (count_leading ch_space line) ch_space ++ string_bytes "# " ++ comment in
  let leaves := inProcess && match line with b :: _ => negb (b =? ch_space) | [] => false end &&
                negb (starts_with [ch_space; ch_space] line) &&
                starts_with [45] line && negb (starts_with (string_bytes "- target:") (TrimSpace line)) in
  (mkInject (inProcess && negb leaves) (inRules && negb leaves) (added st || insert),
   (if insert then [comment_line] else []) ++ [line]).

Fixpoint inject_lines (processName comment : list Z) (st : inject_state) (lines : list (list Z)) : list (list Z) :=
  match lines with
  | [] => []
  | line :: rest => let '(st', out) := inject_line processName comment st line in out ++ inject_lines processName comment st' rest
  end.

Definition injectComment (content processName comment : string) : string :=
  bytes_string (join_bytes [ch_nl]
    (inject_lines (string_bytes processName) (string_bytes comment) (mkInject false false false) (split_byte ch_nl (string_bytes content)))).

(** *** The file *)

Section Files.
Context {U : UnicodeCase} {CO : CaseOrbits} `{L : Libraries} {Y : AclYaml}.

Inductive persist_error : Type := ERead | ELoad (e : acl_error) | EMkdir | EEncode | EWrite.

(** How the system calls of one operation end: a failed write leaves what it leaves. *)
Record io : Type := mkIO { io_read : bool; io_mkdir : bool; io_write : option (option string) }.

Definition io_fine : io := mkIO true true None.

Definition file : Type := option string.

Definition loadOrCreateConfig (o : io) (f : file) : result persist_error Config :=
  match f with
  | None => Ok (mkConfig DecisionApprove [] None)
  | Some data =>
    if negb (io_read o) then Err ERead
    else config <-? map_err ELoad (ParseConfig data); Ok (Config_Clone config)
  end.

Definition yaml_header : string :=
  "# PNACL Configuration" +:+ nl +:+
  "# Auto-generated rules are added at the top of each process's rules list" +:+ nl +:+
  "# Manual rules below auto-generated rules will be evaluated after" +:+ nl +:+ nl.

Definition writeConfigWithComment (o : io) (f : file) (config : Config) (processName comment : string) : result persist_error unit * file :=
  if negb (io_mkdir o) then (Err EMkdir, f)
  else match yaml_encode config with
  | None => (Err EEncode, f)
  | Some body =>
    let output := yaml_header +:+ body in
    let output := if comment !=? "" then injectComment output processName comment else output in
    match io_write o with
    | None => (Ok tt, Some output)
    | Some rest => (Err EWrite, rest)
    end
  end.

Definition new_process (processName : string) : ProcessConfig :=
  mkProcessConfig processName (mkCriteria processName "" "" "" false) DecisionApprove [] [].

(** The rule goes to the first process of the name, which is created when there is none; [None] when
    the rule is there already. *)
Fixpoint add_to_processes (processName : string) (target : NetworkTarget) (l : list ProcessConfig) : option (list ProcessConfig) :=
  match l with
  | [] => Some [mkProcessConfig processName (pc_Match (new_process processName)) DecisionApprove [target] []]
  | pc :: l' =>
    if pc_Name pc ==? processName then
      if ruleExists (pc_Rules pc) target then None
      else Some (mkProcessConfig (pc_Name pc) (pc_Match pc) (pc_Default pc) (target :: pc_Rules pc) (pc_Children pc) :: l')
    else l'' ← add_to_processes processName target l'; Some (pc :: l'')
  end.

Definition File_AddRule (o : io) (processName : string) (target : NetworkTarget) (comment : string) (f : file)
  : result persist_error unit * file :=
  match loadOrCreateConfig o f with
  | Err e => (Err e, f)
  | Ok config =>
    match add_to_processes processName target (cf_Processes config) with
    | None => (Ok tt, f)
    | Some processes =>
      writeConfigWithComment o f (mkConfig (cf_Default config) processes (cf_ApprovalUI config)) processName comment
    end
  end.

Definition same_rule (target r : NetworkTarget) : bool := ruleExists [r] target.

Fixpoint remove_from_processes (processName : string) (target : NetworkTarget) (l : list ProcessConfig) : list ProcessConfig :=
  match l with
  | [] => []
  | pc :: l' =>
    if pc_Name pc ==? processName
    then mkProcessConfig (pc_Name pc) (pc_Match pc) (pc_Default pc) (List.filter (fun r => negb (same_rule target r)) (pc_Rules pc))
           (pc_Children pc) :: l'
    else pc :: remove_from_processes processName target l'
  end.

Definition RemoveRule (o : io) (processName : string) (target : NetworkTarget) (f : file) : result persist_error unit * file :=
  match loadOrCreateConfig o f with
  | Err e => (Err e, f)
  | Ok config =>
    writeConfigWithComment o f (mkConfig (cf_Default config) (remove_from_processes processName target (cf_Processes config)) (cf_ApprovalUI config))
      "" ""
  end.

Definition GetRules (o : io) (processName : string) (f : file) : result persist_error (list NetworkTarget) :=
  config <-? loadOrCreateConfig o f;
  Ok (match List.find (fun pc => pc_Name pc ==? processName) (cf_Processes config) with Some pc => pc_Rules pc | None => [] end).

(** The file persister under a plan of how the calls of its operations end. *)
Definition FileRulePersister (o : io) : RulePersister file persist_error := {|
  AddRule name target comment f := File_AddRule o name target comment f
|}.

End Files.
End AclPersist.
Export AclPersist.

(** ** Approvals ([approval.go], [dialog_prompt.go]) *)
Module AclApproval.

Definition UserDecisionAllowOnce : string := "allow_once".
Definition UserDecisionAllowPermanent : string := "allow_permanent".
Definition UserDecisionDenyOnce : string := "deny_once".
Definition UserDecisionDenyForever : string := "deny_forever".
Definition UserDecisionSkip : string := "skip".
Definition UserDecisionTimeout : string := "timeout".

Record ApprovalRequest : Type := mkRequest {
  rq_ID : string; rq_CreatedAt : Z; rq_ExpiresAt : Z; rq_ProcessName : string; rq_ProcessPath : string; rq_PID : Z;
  rq_ParentPID : Z; rq_Target : string; rq_Port : Z; rq_Protocol : string
}.

Record ApprovalResponse : Type := mkResponse { rs_RequestID : string; rs_Decision : string; rs_Reason : string; rs_Persistent : bool }.

Record NetworkACLEvent : Type := mkAclEvent {
  ev_ProcessName : string; ev_ProcessPath : string; ev_PID : Z; ev_ParentPID : Z; ev_Target : string; ev_Port : Z;
  ev_Protocol : string; ev_Decision : string; ev_RuleSource : string; ev_UserAction : string
}.

(** [DefaultDecisionFn] is what it returns when it is called. *)
Record ApprovalConfig : Type := mkApprovalConfig {
  ac_Timeout : Z; ac_TimeoutFallback : string; ac_DefaultDecisionFn : option string
}.

Definition DefaultApprovalConfig : ApprovalConfig := mkApprovalConfig 30000000000 DecisionDeny None.

Definition resolveFallbackDecision (c : ApprovalConfig) : string :=
  if ac_TimeoutFallback c ==? DecisionUseDefault
  then match ac_DefaultDecisionFn c with Some d => d | None => DecisionDeny end
  else ac_TimeoutFallback c.

Definition acl_event (r : ApprovalRequest) (eventType ruleSource userAction : string) : NetworkACLEvent :=
  mkAclEvent (rq_ProcessName r) (rq_ProcessPath r) (rq_PID r) (rq_ParentPID r) (rq_Target r) (rq_Port r) (rq_Protocol r)
    eventType ruleSource userAction.

(** *** What the user is asked and answers *)

Definition is_persistent (d : string) : bool := (d ==? UserDecisionAllowPermanent) || (d ==? UserDecisionDenyForever).

(** The answer typed at the terminal. *)
Definition tty_decision {U : UnicodeCase} (line : string) : string :=
  let input := ToLower (TrimSpace_string line) in
  if (input ==? "a") || (input ==? "allow") || (input ==? "allow once") then UserDecisionAllowOnce
  else if (input ==? "p") || (input ==? "permanent") || (input ==? "allow permanent") then UserDecisionAllowPermanent
  else if (input ==? "d") || (input ==? "deny") || (input ==? "deny once") then UserDecisionDenyOnce
  else if (input ==? "f") || (input ==? "forever") || (input ==? "deny forever") then UserDecisionDenyForever
  else UserDecisionSkip.

Definition TTY_Prompt {U : UnicodeCase} (r : ApprovalRequest) (line : string) : ApprovalResponse :=
  let d := tty_decision line in mkResponse (rq_ID r) d "" (is_persistent d).

(** What a desktop notification or a dialog reports: an error, or its three flags. *)
Record ui_response : Type := mkUI { ur_Allowed : bool; ur_Dismissed : bool; ur_TimedOut : bool }.

Definition Notification_Prompt (fallback : string) (r : ApprovalRequest) (resp : result string ui_response) : ApprovalResponse :=
  match resp with
  | Err e => mkResponse (rq_ID r) fallback ("notification unavailable: " +:+ e) false
  | Ok u =>
    if ur_Dismissed u || ur_TimedOut u
    then mkResponse (rq_ID r) fallback (if ur_TimedOut u then "notification timed out" else "notification dismissed") false
    else mkResponse (rq_ID r) (if ur_Allowed u then UserDecisionAllowOnce else UserDecisionDenyOnce) "" false
  end.

Definition Dialog_Prompt (fallback : string) (r : ApprovalRequest) (resp : result string ui_response) : ApprovalResponse :=
  match resp with
  | Err e => mkResponse (rq_ID r) fallback ("dialog unavailable: " +:+ e) false
  | Ok u =>
    if ur_TimedOut u then mkResponse (rq_ID r) fallback "dialog timed out" false
    else mkResponse (rq_ID r) (if ur_Allowed u then UserDecisionAllowOnce else UserDecisionDenyOnce) "" false
  end.

Definition RemoteAPI_Prompt (fallback : string) (r : ApprovalRequest) : ApprovalResponse :=
  mkResponse (rq_ID r) fallback "remote API not implemented" false.

(** The goroutine around a prompt: an error of the prompt is an answer to skip. *)
Definition prompt_answer (r : ApprovalRequest) (resp : result string ApprovalResponse) : ApprovalResponse :=
  match resp with Ok a => a | Err e => mkResponse (rq_ID r) UserDecisionSkip e false end.

(** *** The provider *)

Section Provider.
Context {S E : Type} (P : option (RulePersister S E)) (c : ApprovalConfig) (show_error : E -> string).

Record pendingApproval : Type := mkPending { pa_req : ApprovalRequest; pa_ch : option ApprovalResponse }.

(** The pending requests, the events emitted so far, and the store behind the persister. *)
Record Provider : Type := mkProvider { ap_pending : gmap string pendingApproval; ap_events : list NetworkACLEvent; ap_store : S }.

Definition emitEvent (r : ApprovalRequest) (eventType ruleSource userAction : string) (ap : Provider) : Provider :=
  mkProvider (ap_pending ap) (ap_events ap ++ [acl_event r eventType ruleSource userAction]) (ap_store ap).

Definition persisted_target (r : ApprovalRequest) (decision : string) : NetworkTarget :=
  match ParseIP (string_bytes (rq_Target r)) with
  | Some _ => mkTarget "" (rq_Target r) "" (FormatInt (rq_Port r)) (rq_Protocol r) decision
  | None => mkTarget (rq_Target r) "" "" (FormatInt (rq_Port r)) (rq_Protocol r) decision
  end.

Definition persist_comment (today : string) (r : ApprovalRequest) : string :=
  "Auto-added " +:+ today +:+ " via PNACL prompt (process: " +:+ rq_ProcessName r +:+ ", pid: " +:+ FormatInt (rq_PID r) +:+ ")".

Definition persistRule (today : string) (r : ApprovalRequest) (decision : string) (s : S) : result E unit * S :=
  match P with
  | None => (Ok tt, s)
  | Some p => AddRule (rq_ProcessName r) (persisted_target r decision) (persist_comment today r) s
  end.

(** A failed write of the rule is reported as an event and does not change the answer. *)
Definition persist_and_report (today : string) (r : ApprovalRequest) (decision : string) (ap : Provider) : Provider :=
  match persistRule today r decision (ap_store ap) with
  | (Ok _, s) => mkProvider (ap_pending ap) (ap_events ap) s
  | (Err e, s) => emitEvent r "rule_persist_failed" "" (show_error e) (mkProvider (ap_pending ap) (ap_events ap) s)
  end.

Inductive approval_error : Type := ETimeout | ECancelled.

Definition handleResponse (today : string) (r : ApprovalRequest) (resp : ApprovalResponse) (ap : Provider)
  : (string * string * option approval_error) * Provider :=
  let d := rs_Decision resp in
  if d ==? UserDecisionAllowOnce then ((DecisionAllow, d, None), emitEvent r "approval_granted" "allow_once" d ap)
  else if d ==? UserDecisionAllowPermanent then
    ((DecisionAllow, d, None), persist_and_report today r DecisionAllow (emitEvent r "approval_granted" "allow_permanent" d ap))
  else if d ==? UserDecisionDenyOnce then ((DecisionDeny, d, None), emitEvent r "approval_denied" "deny_once" d ap)
  else if d ==? UserDecisionDenyForever then
    ((DecisionDeny, d, None), persist_and_report today r DecisionDeny (emitEvent r "approval_denied" "deny_forever" d ap))
  else if d ==? UserDecisionSkip then ((resolveFallbackDecision c, d, None), emitEvent r "approval_skipped" "" d ap)
  else ((resolveFallbackDecision c, d, None), emitEvent r "approval_unknown" "" d ap).

Definition handleTimeout (r : ApprovalRequest) (ap : Provider) : (string * string * option approval_error) * Provider :=
  ((resolveFallbackDecision c, UserDecisionTimeout, Some ETimeout), emitEvent r "approval_timeout" "" "timeout" ap).

(** [RequestApproval] up to its [select]; [fresh] is the UUID used when the request has no ID. *)
Definition RequestApproval_start (now : Z) (fresh : string) (r : ApprovalRequest) (ap : Provider) : ApprovalRequest * Provider :=
  let id := if rq_ID r ==? "" then "pnacl-" +:+ fresh else rq_ID r in
  let r := mkRequest id now (now + ac_Timeout c) (rq_ProcessName r) (rq_ProcessPath r) (rq_PID r) (rq_ParentPID r) (rq_Target r)
             (rq_Port r) (rq_Protocol r) in
  (r, emitEvent r "approval_requested" "" "" (mkProvider (<[id := mkPending r None]> (ap_pending ap)) (ap_events ap) (ap_store ap))).

(** A non-blocking send on the channel of a pending request: false when it holds an answer. *)
Definition send_answer (id : string) (resp : ApprovalResponse) (ap : Provider) : bool * Provider :=
  match ap_pending ap !! id with
  | None => (false, ap)
  | Some p =>
    match pa_ch p with
    | Some _ => (false, ap)
    | None => (true, mkProvider (<[id := mkPending (pa_req p) (Some resp)]> (ap_pending ap)) (ap_events ap) (ap_store ap))
    end
  end.

Definition Resolve (id decision reason : string) (ap : Provider) : bool * Provider :=
  send_answer id (mkResponse id decision reason (is_persistent decision)) ap.

(** What ended the wait. *)
Inductive wake : Type := WakeAnswer | WakeTimer | WakeCancelled.

(** The [select] of [RequestApproval] and what follows it; a wait does not end by an answer when
    there is none. *)
Definition RequestApproval_end (today : string) (r : ApprovalRequest) (w : wake) (ap : Provider)
  : option ((string * string * option approval_error) * Provider) :=
  let drop_pending (x : (string * string * option approval_error) * Provider) :=
    (x.1, mkProvider (delete (rq_ID r) (ap_pending x.2)) (ap_events x.2) (ap_store x.2)) in
  match w with
  | WakeAnswer =>
    match ap_pending ap !! rq_ID r with
    | Some (mkPending _ (Some resp)) => Some (drop_pending (handleResponse today r resp ap))
    | _ => None
    end
  | WakeTimer => Some (drop_pending (handleTimeout r ap))
  | WakeCancelled =>
    Some (drop_pending ((DecisionDeny, UserDecisionSkip, Some ECancelled), emitEvent r "approval_cancelled" "" "context_cancelled" ap))
  end.

Definition ListPending (now : Z) (ap : Provider) : list ApprovalRequest :=
  List.filter (fun r => now <? rq_ExpiresAt r) (pa_req <$> (map_to_list (ap_pending ap)).*2).

End Provider.
End AclApproval.
Export AclApproval.
