(* ===== verification/NetAclKernel.v ===== *)
(** * The connection filter in the kernel and its maps ([internal/netmonitor/ebpf])

    [connect.bpf.c] decides on a connection from the maps that [maps_linux.go] fills and reports
    it in a ring buffer that [collector.go] decodes.  Maps and events cross the border between Go
    and C as bytes, so the model has the bytes: a map is the set of its keys, a key the bytes
    [encoding/binary] makes of the Go struct on one side and the memory of the C struct on the
    other, on a little-endian machine.

    A map refuses a key of the wrong size, as [cilium/ebpf] does.  What else the operating system
    answers is an input of every operation: the maps are LRU hashes of 1024 entries that evict others
    to make room, an update may be refused, and an iteration during which keys are deleted may miss
    some or give up.  All maps of the embedded object are there.  The bytes of an event that the
    program does not write are whatever the ring buffer held. *)

From Stdlib Require Import ZArith Lia Ascii String.
From stdpp Require Import base list strings gmap.
From S2P Require Import Prelude GoText GoNet GoStrings PolicyModel PolicyEngine NetGuards NetAcl NetAclEngine.
Open Scope string_scope.
Open Scope list_scope.
Open Scope Z_scope.

(** ** Memory layout *)
Module BpfLayout.

Fixpoint le_bytes (n : nat) (z : Z) : list Z :=
  match n with O => [] | S n' => z mod 256 :: le_bytes n' (z / 256) end.

(** [b[0] | b[1]<<8 | ...] on bytes, whose bits do not overlap. *)
Fixpoint le_num (l : list Z) : Z := match l with [] => 0 | b :: l' => b + 256 * le_num l' end.

(** The size of a C struct from the sizes and alignments of its fields: each field starts at a
    multiple of its alignment, and the struct ends at a multiple of the largest. *)
Definition align_up (off a : Z) : Z := (off + a - 1) / a * a.
Definition c_sizeof (fields : list (Z * Z)) : Z :=
  align_up (fold_left (fun off f => align_up off f.2 + f.1) fields 0) (fold_left (fun m f => Z.max m f.2) fields 1).

(** [struct allow_key], [struct lpm4_key] and [struct lpm6_key]. *)
Definition allow_key_size : Z := c_sizeof [(8, 8); (1, 1); (1, 1); (2, 2); (16, 1)].
Definition lpm4_key_size : Z := c_sizeof [(4, 4); (8, 8); (4, 4); (2, 2)].
Definition lpm6_key_size : Z := c_sizeof [(4, 4); (8, 8); (16, 1); (2, 2)].

End BpfLayout.
Export BpfLayout.

(** ** Keys ([program.go]) *)
Module BpfKeys.

Record AllowKey : Type := mkAllowKey { ak_CgroupID : Z; ak_Family : Z; ak_Protocol : Z; ak_Dport : Z; ak_Addr : list Z }.

Record AllowCIDR : Type := mkAllowCIDR {
  ci_CgroupID : Z; ci_Family : Z; ci_Protocol : Z; ci_PrefixLen : Z; ci_Dport : Z; ci_Addr : list Z
}.

(** [copy(a[:n], b)] on a zeroed array of sixteen bytes. *)
Definition addr16 (b : list Z) : list Z := take 16 (b ++ replicate 16 0).

(** What [encoding/binary] makes of an [AllowKey] with its explicit padding, and of the two key
    structs of the CIDR maps, which have none. *)
Definition marshal_key (k : AllowKey) : list Z :=
  le_bytes 8 (ak_CgroupID k) ++ [ak_Family k; ak_Protocol k] ++ le_bytes 2 (ak_Dport k) ++ ak_Addr k ++ replicate 4 0.

Definition marshal_lpm (prefixlen cgroup : Z) (addr : list Z) (dport : Z) : list Z :=
  le_bytes 4 prefixlen ++ le_bytes 8 cgroup ++ addr ++ le_bytes 2 dport.

End BpfKeys.
Export BpfKeys.

(** ** Maps ([maps_linux.go]) *)
Module BpfMaps.

Record Collection : Type := mkCollection {
  allowlist : gset (list Z); denylist : gset (list Z); default_deny : gmap Z Z;
  lpm4_allow : gset (list Z); lpm6_allow : gset (list Z); lpm4_deny : gset (list Z); lpm6_deny : gset (list Z)
}.

(** [ALLOWLIST_MAX_ENTRIES], and the same for the deny list and the flags. *)
Definition max_entries : nat := 1024.

Definition no_maps : Collection := mkCollection ∅ ∅ ∅ ∅ ∅ ∅ ∅.

(** The maps by name. *)
Inductive map_name : Type := MAllow | MDeny | MLpm4Allow | MLpm6Allow | MLpm4Deny | MLpm6Deny.

Definition get_map (n : map_name) (c : Collection) : gset (list Z) :=
  match n with
  | MAllow => allowlist c | MDeny => denylist c
  | MLpm4Allow => lpm4_allow c | MLpm6Allow => lpm6_allow c | MLpm4Deny => lpm4_deny c | MLpm6Deny => lpm6_deny c
  end.

Definition set_map (n : map_name) (m : gset (list Z)) (c : Collection) : Collection :=
  mkCollection (match n with MAllow => m | _ => allowlist c end) (match n with MDeny => m | _ => denylist c end) (default_deny c)
    (match n with MLpm4Allow => m | _ => lpm4_allow c end) (match n with MLpm6Allow => m | _ => lpm6_allow c end)
    (match n with MLpm4Deny => m | _ => lpm4_deny c end) (match n with MLpm6Deny => m | _ => lpm6_deny c end).

(** What the kernel does during a call: which entries an update evicts, or that it refuses it; the
    same for the flags by cgroup; which keys an iteration visits, and whether it gives up. *)
Record BpfKernel : Type := mkKernel {
  bk_put : gset (list Z) -> list Z -> option (gset (list Z));
  bk_flag : gmap Z Z -> Z -> option (gset Z);
  bk_visits : gset (list Z) -> gset (list Z);
  bk_aborts : gset (list Z) -> bool
}.

Inductive map_error : Type := EMarshalSize (map : map_name) | EPut (map : map_name) | EIterate (map : map_name) | EFlag.

(** An operation on the maps; what was done before a failure stays. *)
Definition map_call : Type := Collection -> result map_error unit * Collection.

Definition done_ : map_call := fun c => (Ok tt, c).
Definition then_ (a b : map_call) : map_call := fun c =>
  match a c with (Err x, c') => (Err x, c') | (Ok _, c') => b c' end.

(** [Map.Put]: the marshalled key has to have the size of the map's keys. *)
Definition put (K : BpfKernel) (n : map_name) (key_size : Z) (key : list Z) : map_call := fun c =>
  if negb (Z.of_nat (length key) =? key_size) then (Err (EMarshalSize n), c)
  else match bk_put K (get_map n c) key with
  | None => (Err (EPut n), c)
  | Some gone => (Ok tt, set_map n ({[key]} ∪ (get_map n c ∖ gone)) c)
  end.

(** The cgroup of a key, which starts at [off]. *)
Definition key_cgroup (off : nat) (key : list Z) : Z := le_num (take 8 (drop off key)).

(** [for iter.Next(&k, &v) { if k.CgroupID == cgroupID { m.Delete(k) } }] and [iter.Err()]. *)
Definition clear_cgroup (K : BpfKernel) (n : map_name) (off : nat) (cgroupID : Z) : map_call := fun c =>
  let m := get_map n c in
  (if bk_aborts K m then Err (EIterate n) else Ok tt,
   set_map n (m ∖ filter (fun key => key_cgroup off key = cgroupID) (bk_visits K m)) c).

Definition with_cgroup (k : AllowKey) (cgroupID : Z) : AllowKey := mkAllowKey cgroupID (ak_Family k) (ak_Protocol k) (ak_Dport k) (ak_Addr k).

(** The loops that put endpoints. *)
Fixpoint put_keys (K : BpfKernel) (n : map_name) (cgroupID : Z) (l : list AllowKey) : map_call :=
  match l with
  | [] => done_
  | e :: l' => then_ (put K n allow_key_size (marshal_key (with_cgroup e cgroupID))) (put_keys K n cgroupID l')
  end.

Definition lpm_prefix (c : AllowCIDR) : Z := if negb (ci_Dport c =? 0) then 64 + ci_PrefixLen c + 16 else 64 + ci_PrefixLen c.

(** The loops that put prefixes into the tries of the two families. *)
Fixpoint put_cidrs (K : BpfKernel) (n4 n6 : map_name) (cgroupID : Z) (l : list AllowCIDR) : map_call :=
  match l with
  | [] => done_
  | c :: l' =>
    then_
      (if ci_Family c =? 2 then put K n4 lpm4_key_size (marshal_lpm (lpm_prefix c) cgroupID (take 4 (ci_Addr c)) (ci_Dport c))
       else if ci_Family c =? 10 then put K n6 lpm6_key_size (marshal_lpm (lpm_prefix c) cgroupID (ci_Addr c) (ci_Dport c))
       else done_)
      (put_cidrs K n4 n6 cgroupID l')
  end.

(** [defdeny.Put(cgroupID, defVal)]. *)
Definition put_default (K : BpfKernel) (cgroupID : Z) (defaultDeny : bool) : map_call := fun c =>
  match bk_flag K (default_deny c) cgroupID with
  | None => (Err EFlag, c)
  | Some gone =>
    (Ok tt, mkCollection (allowlist c) (denylist c)
              (<[cgroupID := if defaultDeny then 1 else 0]> (filter (fun kv => kv.1 ∉ gone) (default_deny c)))
              (lpm4_allow c) (lpm6_allow c) (lpm4_deny c) (lpm6_deny c))
  end.

(** The counters of [GetLastMapCounts] are left out. *)
Definition PopulateAllowlist (K : BpfKernel) (cgroupID : Z) (allow : list AllowKey) (allowCIDRs : list AllowCIDR) (deny : list AllowKey)
  (denyCIDRs : list AllowCIDR) (defaultDeny : bool) : map_call :=
  then_ (clear_cgroup K MLpm4Allow 4 cgroupID)
  (then_ (clear_cgroup K MLpm6Allow 4 cgroupID)
  (then_ (clear_cgroup K MAllow 0 cgroupID)
  (then_ (clear_cgroup K MDeny 0 cgroupID)
  (then_ (put_keys K MAllow cgroupID allow)
  (then_ (put_keys K MDeny cgroupID deny)
  (then_ (put_cidrs K MLpm4Allow MLpm6Allow cgroupID allowCIDRs)
  (then_ (put_cidrs K MLpm4Deny MLpm6Deny cgroupID denyCIDRs)
  (put_default K cgroupID defaultDeny)))))))).

Definition CleanupAllowlist (K : BpfKernel) (cgroupID : Z) : map_call :=
  then_ (clear_cgroup K MAllow 0 cgroupID)
  (then_ (clear_cgroup K MLpm4Allow 4 cgroupID)
  (then_ (clear_cgroup K MLpm6Allow 4 cgroupID)
  (fun c => (Ok tt, mkCollection (allowlist c) (denylist c) (delete cgroupID (default_deny c))
                      (lpm4_allow c) (lpm6_allow c) (lpm4_deny c) (lpm6_deny c))))).

Definition set_allowlist (c : Collection) (a : gset (list Z)) : Collection := set_map MAllow a c.

Definition AddTemporaryAllowRule (K : BpfKernel) (cgroupID : Z) (key : AllowKey) : map_call :=
  put K MAllow allow_key_size (marshal_key (with_cgroup key cgroupID)).

Definition RemoveTemporaryAllowRule (cgroupID : Z) (key : AllowKey) (c : Collection) : Collection :=
  set_allowlist c (allowlist c ∖ {[marshal_key (with_cgroup key cgroupID)]}).

End BpfMaps.
Export BpfMaps.

(** ** The program ([connect.bpf.c]) *)
Module BpfProgram.

(** [struct ctx_info]; the address is in network order, four bytes or sixteen. *)
Record ctx_info : Type := mkInfo { in_cgroup : Z; in_family : Z; in_dport : Z; in_addr : list Z }.

(** The memory of [struct allow_key key = {}] once filled in. *)
Definition allow_key_bytes (i : ctx_info) (protocol : Z) : list Z :=
  le_bytes 8 (in_cgroup i) ++ [in_family i; protocol] ++ le_bytes 2 (in_dport i) ++ addr16 (in_addr i) ++ replicate 4 0.

(** The memory of a trie key behind its prefix length: padding to the cgroup, and at the end. *)
Definition lpm_data (i : ctx_info) (dport : Z) : list Z :=
  replicate 4 0 ++ le_bytes 8 (in_cgroup i) ++ in_addr i ++ le_bytes 2 dport ++ replicate (if in_family i =? 2 then 2 else 6) 0.

(** [BPF_MAP_TYPE_LPM_TRIE]: an entry matches when it is no longer than the key and agrees with it
    in all its bits, the highest bit of the first byte first. *)
Definition bit_at (l : list Z) (n : nat) : bool := Z.testbit (nth (n / 8) l 0) (7 - Z.of_nat (n mod 8)).
Definition prefix_match (n : nat) (a b : list Z) : bool := forallb (fun i => eqb (bit_at a i) (bit_at b i)) (seq 0 n).
Definition lpm_lookup (prefixlen : Z) (data : list Z) (m : gset (list Z)) : bool :=
  existsb (fun e => let p := le_num (take 4 e) in (p <=? prefixlen) && prefix_match (Z.to_nat p) (drop 4 e) data) (base.elements m).

(** The lookups of [is_denied] and [allow] in one pair of maps. *)
Definition listed (exact trie4 trie6 : gset (list Z)) (i : ctx_info) (protocol : Z) : bool :=
  if bool_decide (allow_key_bytes i protocol ∈ exact) then true
  else if negb (protocol =? 0) && bool_decide (allow_key_bytes i 0 ∈ exact) then true
  else if in_family i =? 2 then
    lpm_lookup (64 + 32 + 16) (lpm_data i (in_dport i)) trie4 || lpm_lookup (64 + 32) (lpm_data i 0) trie4
  else if in_family i =? 10 then
    lpm_lookup (64 + 128 + 16) (lpm_data i (in_dport i)) trie6 || lpm_lookup (64 + 128) (lpm_data i 0) trie6
  else false.

Definition is_denied (c : Collection) (i : ctx_info) (protocol : Z) : bool := listed (denylist c) (lpm4_deny c) (lpm6_deny c) i protocol.
Definition allow (c : Collection) (i : ctx_info) (protocol : Z) : bool := listed (allowlist c) (lpm4_allow c) (lpm6_allow c) i protocol.
Definition is_default_deny (c : Collection) (cgroup : Z) : bool := match default_deny c !! cgroup with Some v => negb (v =? 0) | None => false end.

(** The four handlers: connect and sendmsg of each family. *)
Definition denied (c : Collection) (i : ctx_info) (protocol : Z) : bool :=
  if is_denied c i protocol then true else is_default_deny c (in_cgroup i) && negb (allow c i protocol).

(** The event in the ring buffer: [junk] is what the reserved memory held. *)
Definition emit_event (junk : list Z) (ts cookie pid tgid : Z) (i : ctx_info) (protocol : Z) (blocked : bool) : list Z :=
  le_bytes 8 ts ++ le_bytes 8 cookie ++ le_bytes 4 pid ++ le_bytes 4 tgid ++ le_bytes 2 0 ++ le_bytes 2 (in_dport i) ++
  [in_family i; protocol] ++ take 6 junk ++ take 16 (in_addr i ++ drop 6 junk) ++ [if blocked then 1 else 0] ++ take 11 (drop 22 junk).

End BpfProgram.
Export BpfProgram.

(** ** Events ([collector.go]) *)
Module BpfEvents.

Record ConnectEvent : Type := mkConnectEvent {
  ce_TsNs : Z; ce_Cookie : Z; ce_PID : Z; ce_TGID : Z; ce_Sport : Z; ce_Dport : Z; ce_Family : Z; ce_Protocol : Z;
  ce_DstIPv4 : Z; ce_DstIPv6 : list Z; ce_Blocked : Z
}.

Definition zero_event : ConnectEvent := mkConnectEvent 0 0 0 0 0 0 0 0 0 (replicate 16 0) 0.

Definition le_at (off n : nat) (data : list Z) : Z := le_num (take n (drop off data)).

Definition copyToEvent (data : list Z) : ConnectEvent :=
  let n := length data in
  if Nat.ltb n 30 then zero_event
  else mkConnectEvent (le_at 0 8 data) (le_at 8 8 data) (le_at 16 4 data) (le_at 20 4 data) (le_at 24 2 data) (le_at 26 2 data)
         (nth 28 data 0) (nth 29 data 0)
         (if Nat.leb 48 n then le_at 36 4 data else 0)
         (if Nat.leb 48 n then take 16 (drop 32 data) else replicate 16 0)
         (if Nat.ltb 48 n then nth 48 data 0 else 0).

(** One turn of [loop]: a sample that is too short is skipped. *)
Definition collect (sample : list Z) : option ConnectEvent := if Nat.leb 49 (length sample) then Some (copyToEvent sample) else None.

(** [byte(v), byte(v >> 8), ...]. *)
Definition extractDstIP (ev : ConnectEvent) : option (list Z) :=
  if ce_Family ev =? 2 then
    Some [Z.land (ce_DstIPv4 ev) 255; Z.land (Z.shiftr (ce_DstIPv4 ev) 8) 255;
          Z.land (Z.shiftr (ce_DstIPv4 ev) 16) 255; Z.land (Z.shiftr (ce_DstIPv4 ev) 24) 255]
  else if ce_Family ev =? 10 then Some (ce_DstIPv6 ev)
  else None.

End BpfEvents.
Export BpfEvents.
