(* ===== verification/NetAclFilter.v ===== *)
(** * The process filter and the monitor ([internal/netmonitor/ebpf])

    [process_filter.go] finds the process and the host behind a connection event, asks the engine
    and waits for an approver where it says so; [connection_holder.go] counts the decisions, adds a
    kernel rule for what was approved, and fills the kernel's maps from the engine's rules.

    What the filter reads from [/proc] and from reverse name resolution is a parameter ([System]).
    Callbacks are the notifications a call makes, in order.  A connection that waits is in
    [pending]; its wait is a step of its own, as with approvals: cookies are not reused while a
    connection is pending. *)

From Stdlib Require Import ZArith Lia Ascii String.
From stdpp Require Import base list strings gmap.
From S2P Require Import Prelude GoText GoNet GoStrings PolicyModel PolicyEngine NetGuards NetAcl NetAclEngine NetAclKernel.
Open Scope string_scope.
Open Scope list_scope.
Open Scope Z_scope.

(** ** The filter *)
Module AclFilter.
Section Filtering.
Context {U : UnicodeCase} {CO : CaseOrbits} `{L : Libraries}.

(** [net.LookupAddr] under the filter's deadline. *)
Inductive lookup_outcome : Type := Names (l : list string) | LookupError | LookupTimeout.

Record System : Type := mkSystem {
  sys_comm : Z -> option string; sys_exe : Z -> option string; sys_stat : Z -> option string;
  sys_lookup : string -> lookup_outcome
}.

Record ConnectionEvent : Type := mkConnectionEvent {
  ne_PID : Z; ne_TGID : Z; ne_Protocol : string; ne_Family : Z; ne_SrcPort : Z; ne_DstPort : Z; ne_DstIP : option (list Z);
  ne_Host : string; ne_Process : ProcessInfo; ne_Decision : string; ne_Blocked : bool
}.

Record PendingConnection : Type := mkPendingConn { pn_Event : ConnectionEvent; pn_ch : option string }.

Record ProcessFilter : Type := mkFilter {
  pf_engine : option PolicyEngine; pf_approver : bool; pf_pending : gmap Z PendingConnection; pf_allowOnce : gset string;
  pf_dns : gmap string string; pf_procs : gmap Z ProcessInfo; pf_closed : bool
}.

Definition NewProcessFilter (engine : option PolicyEngine) : ProcessFilter := mkFilter engine false ∅ ∅ ∅ ∅ false.

Definition SetPolicyEngine (engine : option PolicyEngine) (f : ProcessFilter) : ProcessFilter :=
  mkFilter engine (pf_approver f) (pf_pending f) (pf_allowOnce f) (pf_dns f) (pf_procs f) (pf_closed f).
Definition SetOnApprovalNeeded (b : bool) (f : ProcessFilter) : ProcessFilter :=
  mkFilter (pf_engine f) b (pf_pending f) (pf_allowOnce f) (pf_dns f) (pf_procs f) (pf_closed f).
Definition set_pending (p : gmap Z PendingConnection) (f : ProcessFilter) : ProcessFilter :=
  mkFilter (pf_engine f) (pf_approver f) p (pf_allowOnce f) (pf_dns f) (pf_procs f) (pf_closed f).
Definition set_allowOnce (s : gset string) (f : ProcessFilter) : ProcessFilter :=
  mkFilter (pf_engine f) (pf_approver f) (pf_pending f) s (pf_dns f) (pf_procs f) (pf_closed f).
Definition set_dns (d : gmap string string) (f : ProcessFilter) : ProcessFilter :=
  mkFilter (pf_engine f) (pf_approver f) (pf_pending f) (pf_allowOnce f) d (pf_procs f) (pf_closed f).
Definition set_procs (p : gmap Z ProcessInfo) (f : ProcessFilter) : ProcessFilter :=
  mkFilter (pf_engine f) (pf_approver f) (pf_pending f) (pf_allowOnce f) (pf_dns f) p (pf_closed f).
Definition Filter_Close (f : ProcessFilter) : ProcessFilter :=
  mkFilter (pf_engine f) (pf_approver f) (pf_pending f) (pf_allowOnce f) (pf_dns f) (pf_procs f) true.

(** The value of [strconv.Atoi] with its error ignored: zero for bad syntax, the nearest integer
    when out of range. *)
Definition Atoi_value (s : string) : Z :=
  match Atoi s with
  | Some z => z
  | None =>
    match string_bytes s with
    | b :: r =>
      if b =? 45 then match decimal_value r with Some _ => min_int64 | None => 0 end
      else match decimal_value (if b =? 43 then r else b :: r) with Some _ => max_int64 | None => 0 end
    | [] => 0
    end
  end.

Definition parseParentPID (stat : string) : Z :=
  let bs := string_bytes stat in
  match last_index_byte 41 bs with
  | None => 0
  | Some idx =>
    if Nat.leb (length bs) (idx + 2) then 0
    else match ThreatFeed.Fields (drop (idx + 2) bs) with
    | _ :: ppid :: _ => Atoi_value (bytes_string ppid)
    | _ => 0
    end
  end.

Definition bare_process (pid : Z) : ProcessInfo := mkProc "" "" "" "" pid 0.

Definition getProcessInfo (sys : System) (pid : Z) (f : ProcessFilter) : ProcessInfo * ProcessFilter :=
  match sys_comm sys pid with
  | None => (bare_process pid, set_procs (delete pid (pf_procs f)) f)
  | Some data =>
    let currentName := TrimSpace_string data in
    let fresh :=
      let info := mkProc currentName (default "" (sys_exe sys pid)) "" "" pid
                    (match sys_stat sys pid with Some s => parseParentPID s | None => 0 end) in
      (info, set_procs (<[pid := info]> (pf_procs f)) f) in
    match pf_procs f !! pid with
    | Some info => if p_Name info ==? currentName then (info, f) else fresh
    | None => fresh
    end
  end.

(** [IP.String]; a nil address prints as [<nil>]. *)
Definition ip_text (ip : option (list Z)) : string := match ip with None => "<nil>" | Some ip => IP_String (IP_To16 ip) end.

Definition resolveHost (sys : System) (ip : option (list Z)) (f : ProcessFilter) : string * ProcessFilter :=
  match ip with
  | None => ("", f)
  | Some _ =>
    let ipStr := ip_text ip in
    match pf_dns f !! ipStr with
    | Some host => (host, f)
    | None =>
      let host := match sys_lookup sys ipStr with
                  | Names (n :: _) => TrimSuffix n "."
                  | Names [] | LookupError => ""
                  | LookupTimeout => ipStr
                  end in
      let host := if host ==? "" then ipStr else host in
      (host, set_dns (<[ipStr := host]> (pf_dns f)) f)
    end
  end.

Definition AddDNSMapping (name : string) (ip : list Z) (f : ProcessFilter) : ProcessFilter :=
  set_dns (<[ip_text (Some ip) := name]> (pf_dns f)) f.
Definition ClearProcessCache (f : ProcessFilter) : ProcessFilter := set_procs ∅ f.
Definition ClearAllowOnceState (f : ProcessFilter) : ProcessFilter := set_allowOnce ∅ f.

Definition protocol_name (p : Z) : string := if p =? 6 then "tcp" else if p =? 17 then "udp" else FormatInt p.

Definition buildConnectionEvent (sys : System) (ev : ConnectEvent) (f : ProcessFilter) : ConnectionEvent * ProcessFilter :=
  let ip := extractDstIP ev in
  let '(host, f) := resolveHost sys ip f in
  let '(proc, f) := getProcessInfo sys (ce_PID ev) f in
  (mkConnectionEvent (ce_PID ev) (ce_TGID ev) (protocol_name (ce_Protocol ev)) (ce_Family ev) (ce_Sport ev) (ce_Dport ev) ip host proc ""
     (ce_Blocked ev =? 1), f).

Definition makeAllowOnceKey (ev : ConnectionEvent) : string :=
  p_Path (ne_Process ev) +:+ ":" +:+ FormatInt (ne_DstPort ev) +:+ ":" +:+ ip_text (ne_DstIP ev) +:+ ":" +:+ FormatInt (ne_Family ev).

Definition event_conn (ev : ConnectionEvent) : Conn := mkQuery (ne_Host ev) (ne_DstIP ev) (ne_DstPort ev) (ne_Protocol ev).

Definition decided (ev : ConnectionEvent) (d : string) (blocked : bool) : ConnectionEvent :=
  mkConnectionEvent (ne_PID ev) (ne_TGID ev) (ne_Protocol ev) (ne_Family ev) (ne_SrcPort ev) (ne_DstPort ev) (ne_DstIP ev) (ne_Host ev)
    (ne_Process ev) d blocked.

Inductive notification : Type :=
| OnAllow (ev : ConnectionEvent) | OnDeny (ev : ConnectionEvent) | OnAudit (ev : ConnectionEvent) | OnApprovalGranted (ev : ConnectionEvent).

(** The policy's answer for an event: the parent is looked up when the process has one. *)
Definition policy_decision (sys : System) (engine : PolicyEngine) (ev : ConnectionEvent) (f : ProcessFilter) : PolicyResult * ProcessFilter :=
  if 1 <? p_ParentPID (ne_Process ev) then
    let '(parent, f) := getProcessInfo sys (wrap_uint32 (p_ParentPID (ne_Process ev))) f in
    (EvaluateForParentChild engine parent (ne_Process ev) (event_conn ev), f)
  else (Evaluate engine (ne_Process ev) (event_conn ev), f).

(** [ProcessEvent] up to the wait of [handleApprove]: a decision, or the event that waits. *)
Inductive outcome : Type := Decided (d : string) (n : list notification) | Waiting (cookie : Z) (ev : ConnectionEvent).

Definition handleApprove_start (ev : ConnectEvent) (connEv : ConnectionEvent) (f : ProcessFilter) : outcome * ProcessFilter :=
  if negb (pf_approver f) then (Decided DecisionDeny [OnDeny (decided connEv (ne_Decision connEv) true)], f)
  else (Waiting (ce_Cookie ev) connEv, set_pending (<[ce_Cookie ev := mkPendingConn connEv None]> (pf_pending f)) f).

Definition ProcessEvent_start (sys : System) (ev : ConnectEvent) (f : ProcessFilter) : outcome * ProcessFilter :=
  let '(connEv, f) := buildConnectionEvent sys ev f in
  match pf_engine f with
  | None => (Decided DecisionAllow [OnAllow (decided connEv DecisionAllow (ne_Blocked connEv))], f)
  | Some engine =>
    let '(res, f) := policy_decision sys engine connEv f in
    let d := r_Decision res in
    let connEv := decided connEv d (ne_Blocked connEv) in
    if d ==? DecisionAllow then (Decided DecisionAllow [OnAllow connEv], f)
    else if d ==? DecisionDeny then (Decided DecisionDeny [OnDeny (decided connEv d true)], f)
    else if d ==? DecisionAudit then (Decided DecisionAudit [OnAudit connEv], f)
    else if d ==? DecisionAllowOnceThenApprove then
      let key := makeAllowOnceKey connEv in
      if bool_decide (key ∈ pf_allowOnce f) then handleApprove_start ev connEv f
      else (Decided DecisionAllow [OnAllow connEv], set_allowOnce ({[key]} ∪ pf_allowOnce f) f)
    else if d ==? DecisionApprove then handleApprove_start ev connEv f
    else (Decided DecisionDeny [], f)
  end.

(** The answer of the approver, of [ApproveConnection] or of [DenyConnection]: the first one stays. *)
Definition answer (cookie : Z) (d : string) (f : ProcessFilter) : bool * ProcessFilter :=
  match pf_pending f !! cookie with
  | None => (false, f)
  | Some p =>
    match pn_ch p with
    | Some _ => (false, f)
    | None => (true, set_pending (<[cookie := mkPendingConn (pn_Event p) (Some d)]> (pf_pending f)) f)
    end
  end.

Definition ApproveConnection (id : Z) (f : ProcessFilter) : bool * ProcessFilter := answer id DecisionAllow f.
Definition DenyConnection (id : Z) (f : ProcessFilter) : bool * ProcessFilter := answer id DecisionDeny f.

Inductive wake : Type := WakeAnswer | WakeTimeout | WakeClosed.

#[export] Instance wake_eq_dec : EqDecision wake.
Proof. solve_decision. Defined.

(** The [select] of [handleApprove] and what follows it; a wait ends by an answer only when there is
    one, and by the filter's end only when it was closed. *)
Definition ProcessEvent_end (defaultOnTimeout : string) (cookie : Z) (w : wake) (f : ProcessFilter)
  : option ((string * list notification) * ProcessFilter) :=
  match pf_pending f !! cookie with
  | None => None
  | Some p =>
    let ev := pn_Event p in
    let leave (x : string * list notification) := Some (x, set_pending (delete cookie (pf_pending f)) f) in
    match w with
    | WakeAnswer =>
      match pn_ch p with
      | None => None
      | Some d =>
        if d ==? DecisionAllow
        then leave (DecisionApprove, [OnApprovalGranted (decided ev d (ne_Blocked ev)); OnAllow (decided ev d (ne_Blocked ev))])
        else leave (DecisionDeny, [OnDeny (decided ev d true)])
      end
    | WakeTimeout =>
      let blocked := defaultOnTimeout !=? DecisionAllow in
      let ev := decided ev defaultOnTimeout blocked in
      if blocked then leave (DecisionDeny, [OnDeny ev]) else leave (DecisionAllow, [OnAllow ev])
    | WakeClosed => if pf_closed f then leave (DecisionDeny, [OnDeny (decided ev (ne_Decision ev) true)]) else None
    end
  end.

End Filtering.
End AclFilter.
Export AclFilter.

(** ** The holder and the monitor ([connection_holder.go], [dialog_approval.go]) *)
Module AclMonitor.
Section Monitoring.
Context {U : UnicodeCase} {CO : CaseOrbits} `{L : Libraries}.

(** Counters are 64-bit. *)
Record Stats : Type := mkStats {
  st_Received : Z; st_Processed : Z; st_Allowed : Z; st_Denied : Z; st_Approved : Z; st_Audited : Z; st_Errors : Z
}.

Definition no_stats : Stats := mkStats 0 0 0 0 0 0 0.

Definition inc (z : Z) : Z := (z + 1) mod 2 ^ 64.

Definition incEventsReceived (s : Stats) : Stats :=
  mkStats (inc (st_Received s)) (st_Processed s) (st_Allowed s) (st_Denied s) (st_Approved s) (st_Audited s) (st_Errors s).
Definition incErrors (s : Stats) : Stats :=
  mkStats (st_Received s) (st_Processed s) (st_Allowed s) (st_Denied s) (st_Approved s) (st_Audited s) (inc (st_Errors s)).

(** [incEventsProcessed] and the switch on the decision. *)
Definition count_decision (d : string) (s : Stats) : Stats :=
  let bump (b : bool) (z : Z) := if b then inc z else z in
  mkStats (st_Received s) (inc (st_Processed s)) (bump (d ==? DecisionAllow) (st_Allowed s)) (bump (d ==? DecisionDeny) (st_Denied s))
    (bump (d ==? DecisionApprove) (st_Approved s)) (bump (d ==? DecisionAudit) (st_Audited s)) (st_Errors s).

Definition protocol_number (p : string) : Z := if p ==? "tcp" then 6 else if p ==? "udp" then 17 else 0.

(** The address is copied when its length fits the family. *)
Definition temporary_key (ev : ConnectionEvent) : AllowKey :=
  let ip := default [] (ne_DstIP ev) in
  mkAllowKey 0 (ne_Family ev) (protocol_number (ne_Protocol ev)) (ne_DstPort ev)
    (addr16 (if (ne_Family ev =? 2) && Nat.leb 4 (length ip) then take 4 (default [] (IP_To4 ip))
             else if (ne_Family ev =? 10) && Nat.leb 16 (length ip) then IP_To16 ip else [])).

(** [cgroupID] is zero when it is not known. *)
Definition addTemporaryAllowRule (K : BpfKernel) (cgroupID : Z) (ev : ConnectionEvent) (x : Collection * Stats) : Collection * Stats :=
  if cgroupID =? 0 then x
  else match AddTemporaryAllowRule K cgroupID (temporary_key ev) x.1 with
  | (Ok _, c) => (c, x.2)
  | (Err _, c) => (c, incErrors x.2)
  end.

(** What the callback of the holder does with the notifications of a decision. *)
Definition holder_notified (K : BpfKernel) (cgroupID : Z) (n : list notification) (x : Collection * Stats) : Collection * Stats :=
  fold_left (fun x n => match n with OnApprovalGranted ev => addTemporaryAllowRule K cgroupID ev x | _ => x end) n x.

(** [parsePort] of the holder: a single number; anything else leaves zero. *)
Definition holder_port (t : NetworkTarget) : Z :=
  if (t_Port t !=? "") && (t_Port t !=? "*") then
    match Atoi (t_Port t) with Some p => if (0 <? p) && (p <=? 65535) then p else 0 | None => 0 end
  else 0.

Record map_entries : Type := mkEntries {
  me_allow : list AllowKey; me_allowCIDRs : list AllowCIDR; me_deny : list AllowKey; me_denyCIDRs : list AllowCIDR
}.

Definition no_entries : map_entries := mkEntries [] [] [] [].

Definition ip_key (protocol port : Z) (ip : list Z) : AllowKey :=
  match IP_To4 ip with
  | Some ip4 => mkAllowKey 0 2 protocol port (addr16 ip4)
  | None => mkAllowKey 0 10 protocol port (addr16 (IP_To16 ip))
  end.

Definition cidr_key (protocol port : Z) (n : IPNet) : AllowCIDR :=
  let ones := (Mask_Size (n_Mask n)).1 in
  match IP_To4 (n_IP n) with
  | Some ip4 => mkAllowCIDR 0 2 protocol (wrap_uint32 ones) port (addr16 ip4)
  | None => mkAllowCIDR 0 10 protocol (wrap_uint32 ones) port (addr16 (IP_To16 (n_IP n)))
  end.

Definition add_target (e : map_entries) (t : NetworkTarget) : map_entries :=
  let protocol := protocol_number (t_Protocol t) in
  let port := holder_port t in
  let e :=
    match (if t_IP t !=? "" then ParseIP (string_bytes (t_IP t)) else None) with
    | None => e
    | Some ip =>
      if t_Decision t ==? DecisionAllow then mkEntries (me_allow e ++ [ip_key protocol port ip]) (me_allowCIDRs e) (me_deny e) (me_denyCIDRs e)
      else if t_Decision t ==? DecisionDeny then mkEntries (me_allow e) (me_allowCIDRs e) (me_deny e ++ [ip_key protocol port ip]) (me_denyCIDRs e)
      else e
    end in
  match (if t_CIDR t !=? "" then ParseCIDR (t_CIDR t) else None) with
  | None => e
  | Some n =>
    if t_Decision t ==? DecisionAllow then mkEntries (me_allow e) (me_allowCIDRs e ++ [cidr_key protocol port n]) (me_deny e) (me_denyCIDRs e)
    else if t_Decision t ==? DecisionDeny then mkEntries (me_allow e) (me_allowCIDRs e) (me_deny e) (me_denyCIDRs e ++ [cidr_key protocol port n])
    else e
  end.

Definition convertPolicyToMapEntries (engine : option PolicyEngine) : map_entries * bool :=
  match engine with
  | None => (no_entries, false)
  | Some e =>
    (fold_left (fun m pp => fold_left (fun m r => add_target m (nr_target r)) (pp_Rules pp) m) (e_ProcessPolicies e) no_entries,
     e_GlobalDefault e ==? DecisionDeny)
  end.

Definition populate (K : BpfKernel) (cgroupID : Z) (engine : option PolicyEngine) (c : Collection) : result map_error unit * Collection :=
  let '(m, defaultDeny) := convertPolicyToMapEntries engine in
  PopulateAllowlist K cgroupID (me_allow m) (me_allowCIDRs m) (me_deny m) (me_denyCIDRs m) defaultDeny c.

Record PNACLMonitor : Type := mkMonitor { mo_engine : option PolicyEngine; mo_filter : ProcessFilter; mo_maps : Collection; mo_running : bool }.

(** [Start] once the program is attached to the cgroup: the maps are filled, and a failure ends the
    start. *)
Definition Monitor_Start (K : BpfKernel) (cgroupID : Z) (m : PNACLMonitor) : bool * PNACLMonitor :=
  if mo_running m then (false, m)
  else match mo_engine m with
  | None => (true, mkMonitor None (mo_filter m) no_maps true)
  | Some e =>
    match populate K cgroupID (Some e) no_maps with
    | (Err _, c) => (false, mkMonitor (Some e) (mo_filter m) c false)
    | (Ok _, c) => (true, mkMonitor (Some e) (mo_filter m) c true)
    end
  end.

(** [SetPolicyEngine]: the error of filling the maps is dropped. *)
Definition Monitor_SetPolicyEngine (K : BpfKernel) (cgroupID : Z) (engine : option PolicyEngine) (m : PNACLMonitor) : PNACLMonitor :=
  mkMonitor engine (SetPolicyEngine engine (mo_filter m))
    (if mo_running m then (populate K cgroupID engine (mo_maps m)).2 else mo_maps m) (mo_running m).

(** [showApprovalDialog]: what the dialog answered, as a decision. *)
Definition showApprovalDialog (fallback : string) (resp : result string (bool * bool)) : string :=
  match resp with
  | Err _ => fallback
  | Ok (allowed, timedOut) => if timedOut then fallback else if allowed then DecisionAllow else DecisionDeny
  end.

End Monitoring.
End AclMonitor.
Export AclMonitor.
