(* ===== verification/NetAclTheorems.v ===== *)
(** * Theorems on process network rules

    [Choice]: the rule that decides, and what a further denial can change.  [Applicable]: the rules
    that count for a process and its children.  [Caching]: the evaluator with its caches answers as
    one without.  [AclPromises]: both over time, and where the two evaluators part. *)

From Stdlib Require Import ZArith Lia Ascii String.
From stdpp Require Import base list strings gmap.
From S2P Require Import Prelude GoText GoNet GoStrings PolicyModel PolicyEngine NetGuards NetAcl NetAclEngine.
Open Scope string_scope.
Open Scope list_scope.
Open Scope Z_scope.

(** ** The rule that decides *)
Module Choice.
Section Choosing.

Lemma better_spec a b : pnaclBetter a b = true <->
  b.1.1 < a.1.1 \/ b.1.1 = a.1.1 /\ (b.1.2 < a.1.2 \/ b.1.2 = a.1.2 /\ b.2 < a.2).
Proof.
  destruct a as [[ae ap] aw], b as [[be bp] bw]. unfold pnaclBetter. cbn.
  destruct (Z.eqb_spec ae be), (Z.eqb_spec ap bp); cbn; rewrite Z.ltb_lt; lia.
Qed.

Lemma better_false a b : pnaclBetter a b = false <->
  a.1.1 < b.1.1 \/ b.1.1 = a.1.1 /\ (a.1.2 < b.1.2 \/ b.1.2 = a.1.2 /\ a.2 <= b.2).
Proof. rewrite <- not_true_iff_false, better_spec. lia. Qed.

Lemma score_eq (a b : score) : a.1.1 = b.1.1 -> a.1.2 = b.1.2 -> a.2 = b.2 -> a = b.
Proof. destruct a as [[??]?], b as [[??]?]. cbn. by intros -> -> ->. Qed.

Lemma better_antisym a b : pnaclBetter a b = false -> pnaclBetter b a = false -> a = b.
Proof. rewrite !better_false. intros ??. apply score_eq; lia. Qed.

Context {R : Type} (decision : R -> string).

(** The scan for the best score: it is one of the list, and no other is better. *)
Lemma best_score (hits : list (score * R)) : forall best,
  let b := fold_left (fun b h => if pnaclBetter h.1 b.1 then h else b) hits best in
  b ∈ best :: hits /\ forall h, h ∈ best :: hits -> pnaclBetter h.1 b.1 = false.
Proof.
  induction hits as [|x hits IH]; intros best; cbn [fold_left].
  - split; [left|]. intros h Hh. apply list_elem_of_singleton in Hh as ->. apply better_false. lia.
  - destruct (IH (if pnaclBetter x.1 best.1 then x else best)) as [H1 H2]. split.
    + rewrite !elem_of_cons in *. destruct H1 as [->|]; [|auto]. destruct (pnaclBetter _ _); auto.
    + intros h Hh. rewrite !elem_of_cons in Hh. destruct (pnaclBetter x.1 best.1) eqn:E.
      * destruct Hh as [->|[->|Hh]]; [|apply H2; left|apply H2; by right].
        specialize (H2 x (list_elem_of_here _ _)). rewrite better_false in H2 |- *. rewrite better_spec in E. lia.
      * destruct Hh as [->|[->|Hh]]; [apply H2; left| |apply H2; by right].
        specialize (H2 best (list_elem_of_here _ _)). rewrite better_false in H2, E |- *. lia.
Qed.

(** A score no hit exceeds, the hits that have it, and the decision they lead to. *)
Definition maximal (s : score) (hits : list (score * R)) : Prop := forall h, h ∈ hits -> pnaclBetter h.1 s = false.

Lemma choose_hit_spec h hits : exists s, (s, choose_hit decision h hits) ∈ h :: hits /\ maximal s (h :: hits) /\
  forall r, (s, r) ∈ h :: hits -> decision r = DecisionDeny -> decision (choose_hit decision h hits) = DecisionDeny.
Proof.
  unfold choose_hit. destruct (best_score hits h) as [Hb Hmax].
  set (b := fold_left _ hits h) in *. set (top := List.filter _ (h :: hits)).
  assert (Htop : forall x, x ∈ top <-> x ∈ h :: hits /\ x.1 = b.1).
  { intros x. unfold top. rewrite !list_elem_of_In, filter_In, bool_decide_eq_true. done. }
  exists b.1. destruct (List.find _ top) as [x|] eqn:Ef.
  - apply find_some in Ef as [Hx Hd]. rewrite <- list_elem_of_In, Htop in Hx. destruct Hx as [Hx Ex].
    split; [rewrite <- Ex; by destruct x|]. split; [done|]. intros. by apply bool_decide_eq_true in Hd.
  - destruct top as [|y top'] eqn:Et.
    + exfalso. assert (b ∈ []) as Hn by (apply Htop; done). by apply not_elem_of_nil in Hn.
    + assert (y ∈ h :: hits /\ y.1 = b.1) as [Hy Ey] by (apply Htop; left).
      split; [rewrite <- Ey; by destruct y|]. split; [done|]. intros r Hr Hd. exfalso.
      assert (Hin : (b.1, r) ∈ y :: top') by (by apply Htop).
      rewrite list_elem_of_In in Hin. pose proof (find_none _ _ Ef _ Hin) as Hn. by apply bool_decide_eq_false in Hn.
Qed.

(** Only one decision fits, unless several rules of the best score disagree without a denial. *)
Lemma maximal_unique s s' hits : maximal s hits -> maximal s' hits -> s ∈ hits.*1 -> s' ∈ hits.*1 -> s = s'.
Proof.
  intros H1 H2 (x & -> & Hx)%list_elem_of_fmap (y & -> & Hy)%list_elem_of_fmap. apply better_antisym; [by apply H2|by apply H1].
Qed.

(** The decision on a list of hits, as both evaluators take it. *)
Definition verdict (otherwise : string) (hits : list (score * R)) : string :=
  match hits with [] => otherwise | h :: hits' => decision (choose_hit decision h hits') end.

Definition pick_top (s : score) (hits : list (score * R)) : option string :=
  let top := List.filter (fun h : score * R => h.1 ==? s) hits in
  match List.find (fun h : score * R => decision h.2 ==? DecisionDeny) top with
  | Some h => Some (decision h.2)
  | None => (fun h => decision h.2) <$> head top
  end.

Lemma verdict_top otherwise s hits : maximal s hits -> s ∈ hits.*1 -> pick_top s hits = Some (verdict otherwise hits).
Proof.
  intros Hmax Hs. destruct hits as [|h hits]; [by apply not_elem_of_nil in Hs|]. cbn [verdict]. unfold choose_hit, pick_top.
  destruct (best_score hits h) as [Hb Hm]. set (b := fold_left _ hits h) in *.
  rewrite (maximal_unique s b.1 (h :: hits)); [|done|exact Hm|done|by apply list_elem_of_fmap_2].
  destruct (List.find _ _); [done|]. destruct (List.filter _ _) as [|y top'] eqn:Et; [|done].
  exfalso. assert (b ∈ []) as Hn by (rewrite <- Et, list_elem_of_In, filter_In, <- list_elem_of_In, bool_decide_eq_true; done).
  by apply not_elem_of_nil in Hn.
Qed.

Lemma has_maximal (hits : list (score * R)) : hits <> [] -> exists s, maximal s hits /\ s ∈ hits.*1.
Proof.
  destruct hits as [|h hits]; [done|]. intros _. destruct (best_score hits h) as [Hb Hm]. eexists. split; [exact Hm|]. by apply list_elem_of_fmap_2.
Qed.

(** A further hit that denies leads to a denial or changes nothing. *)
Lemma verdict_insert_deny otherwise l1 x l2 : decision x.2 = DecisionDeny ->
  verdict otherwise (l1 ++ x :: l2) = DecisionDeny \/ verdict otherwise (l1 ++ x :: l2) = verdict otherwise (l1 ++ l2).
Proof.
  intros Hx. destruct (has_maximal (l1 ++ x :: l2)) as (s & Hm & Hs); [by destruct l1|].
  pose proof (verdict_top otherwise s _ Hm Hs) as Hv. destruct (decide (x.1 = s)) as [Ex|Ex].
  - left. unfold pick_top in Hv. destruct (List.find _ _) as [y|] eqn:Ef.
    + injection Hv as <-. apply find_some in Ef as [_ Hd]. by apply bool_decide_eq_true in Hd.
    + exfalso. assert (In x (List.filter (fun h : score * R => h.1 ==? s) (l1 ++ x :: l2))) as Hin.
      { rewrite filter_In, in_app_iff, bool_decide_eq_true. split; [right; left|]; done. }
      pose proof (find_none _ _ Ef _ Hin) as Hn. by apply bool_decide_eq_false in Hn.
  - right. assert (Hm' : maximal s (l1 ++ l2)).
    { intros h Hh. apply Hm. rewrite elem_of_app, elem_of_cons in *. tauto. }
    assert (Hs' : s ∈ (l1 ++ l2).*1).
    { rewrite fmap_app, fmap_cons, elem_of_app, elem_of_cons in Hs. rewrite fmap_app, elem_of_app. destruct Hs as [?|[->|?]]; [auto|done|auto]. }
    apply (verdict_top otherwise) in Hm'; [|done]. unfold pick_top in *. rewrite List.filter_app in *. cbn [List.filter] in Hv.
    rewrite bool_decide_eq_false_2 in Hv by done. rewrite Hv in Hm'. by injection Hm'.
Qed.

End Choosing.
End Choice.
Export Choice.

(** ** Rules that apply *)
Module Applicable.
Section Rules.
Context {U : UnicodeCase} {CO : CaseOrbits} `{L : Libraries}.

Definition bonus_score (b : Z) (t : NetworkTarget) : score := let '(e, p, w) := scorePNACLTarget t in (e, p + b, w).

Definition rule_decision (r : NetworkRule) : string := t_Decision (nr_target r).

(** A rule that matches the connection and counts for the process, with its score: those of the
    child come first by a bonus, those of the parent count when the child inherits them. *)
Inductive applicable (pp : ProcessPolicy) (child : option ChildPolicy) (q : Conn) : NetworkRule -> score -> Prop :=
| applicable_own c r : child = Some c -> r ∈ cp_Rules c -> matches_conn q r = true ->
    applicable pp child q r (bonus_score 100 (nr_target r))
| applicable_parent r : (forall c, child = Some c -> cp_Inherit c = true) -> r ∈ pp_Rules pp -> matches_conn q r = true ->
    applicable pp child q r (bonus_score 0 (nr_target r)).

Lemma rule_hits_elem b mk m l : forall i s x, (s, x) ∈ rule_hits b mk m i l <->
  exists j r, l !! j = Some r /\ m r = true /\ s = bonus_score b (nr_target r) /\ x = mk (i + Z.of_nat j) r.
Proof.
  induction l as [|r l IH]; intros i s x; cbn [rule_hits].
  - rewrite elem_of_nil. split; [done|]. by intros (j & r & ? & _).
  - assert (Hrest : (s, x) ∈ rule_hits b mk m (i + 1) l <->
      exists j r', (r :: l) !! S j = Some r' /\ m r' = true /\ s = bonus_score b (nr_target r') /\ x = mk (i + Z.of_nat (S j)) r').
    { rewrite IH. cbn [lookup list_lookup]. setoid_rewrite (Nat2Z.inj_succ). unfold Z.succ.
      assert (forall n, i + 1 + n = i + (n + 1)) as E by (intros; lia). by setoid_rewrite E. }
    unfold bonus_score in *. destruct (m r) eqn:Em; [destruct (scorePNACLTarget (nr_target r)) as [[ex pr] w] eqn:Es; rewrite elem_of_cons|]; rewrite Hrest.
    + split.
      * intros [[= -> ->]|(j & r' & H)]; [|by exists (S j), r']. exists 0%nat, r. rewrite Es, Z.add_0_r. done.
      * intros ([|j] & r' & Hl & H2 & H3 & H4); [left|right; by exists j, r']. injection Hl as <-. rewrite Es in H3. rewrite Z.add_0_r in H4. by subst.
    + split; [intros (j & r' & H); by exists (S j), r'|]. intros ([|j] & r' & Hl & H2 & H3); [|by exists j, r'].
      injection Hl as <-. congruence.
Qed.

(** The hits of a policy for a process, as a list and as rules that apply. *)
Definition policy_hits (pp : ProcessPolicy) (child : option ChildPolicy) (q : Conn) : list (score * PolicyResult) :=
  match child with
  | Some c => child_hits pp c q
  | None => rule_hits 0 (fun i r => mkResult (rule_decision r) (pp_Name pp) i false "") (matches_conn q) 0 (pp_Rules pp)
  end.

Lemma policy_hits_sound pp child q s x : (s, x) ∈ policy_hits pp child q ->
  exists r, applicable pp child q r s /\ r_Decision x = rule_decision r.
Proof.
  assert (Hin : forall (l : list NetworkRule) j r, l !! j = Some r -> r ∈ l) by (intros; by eapply list_elem_of_lookup_2).
  destruct child as [c|]; cbn [policy_hits].
  - unfold child_hits. rewrite elem_of_app. intros [H|H].
    + apply rule_hits_elem in H as (j & r & Hl & Hm & -> & ->). exists r. split; [|done]. eapply applicable_own; eauto.
    + destruct (cp_Inherit c) eqn:Ei; [|by apply not_elem_of_nil in H].
      apply rule_hits_elem in H as (j & r & Hl & Hm & -> & ->). exists r. split; [|done]. apply applicable_parent; eauto. by intros ? [= <-].
  - intros H. apply rule_hits_elem in H as (j & r & Hl & Hm & -> & ->). exists r. split; [|done]. apply applicable_parent; eauto. done.
Qed.

Lemma policy_hits_complete pp child q r s : applicable pp child q r s ->
  exists x, (s, x) ∈ policy_hits pp child q /\ r_Decision x = rule_decision r.
Proof.
  intros [c r' -> Hin Hm|r' Hc Hin Hm]; apply list_elem_of_lookup_1 in Hin as [j Hj].
  - cbn [policy_hits]. unfold child_hits. eexists. split; [apply elem_of_app; left; apply rule_hits_elem; by exists j, r'|done].
  - destruct child as [c|]; cbn [policy_hits].
    + unfold child_hits. rewrite (Hc c eq_refl). eexists. split; [apply elem_of_app; right; apply rule_hits_elem; by exists j, r'|done].
    + eexists. split; [apply rule_hits_elem; by exists j, r'|done].
Qed.

Lemma evaluate_policy_verdict pp proc q :
  r_Decision (evaluate_policy pp proc q) = verdict r_Decision (pp_Default pp) (policy_hits pp (findChildPolicy pp proc) q).
Proof.
  unfold evaluate_policy, policy_hits. destruct (findChildPolicy pp proc) as [c|].
  - unfold evaluateWithChild. by destruct (child_hits pp c q).
  - unfold evaluateProcessRules, rule_decision. by destruct (rule_hits _ _ _ _ _).
Qed.

Lemma rule_hits_app b mk m l1 l2 : forall i, rule_hits b mk m i (l1 ++ l2) =
  rule_hits b mk m i l1 ++ rule_hits b mk m (i + Z.of_nat (length l1)) l2.
Proof.
  induction l1 as [|r l1 IH]; intros i; cbn [app rule_hits]; [by rewrite Z.add_0_r|]. rewrite IH.
  replace (i + 1 + Z.of_nat (length l1)) with (i + Z.of_nat (length (r :: l1))) by (cbn [length]; lia).
  destruct (m r); [|done]. by destruct (scorePNACLTarget (nr_target r)) as [[??]?].
Qed.

(** Verdicts look at scores and decisions only, not at the indices in results. *)
Definition shape (hits : list (score * PolicyResult)) : list (score * string) := (fun h => (h.1, r_Decision h.2)) <$> hits.

Lemma pick_top_shape s hits : pick_top r_Decision s hits = pick_top id s (shape hits).
Proof.
  unfold pick_top, shape. set (f := fun h : score * PolicyResult => (h.1, r_Decision h.2)).
  assert (Hf : List.filter (fun h : score * string => h.1 ==? s) (f <$> hits) = f <$> List.filter (fun h : score * PolicyResult => h.1 ==? s) hits).
  { induction hits as [|h hits IH]; [done|]. cbn. destruct (bool_decide (h.1 = s)); cbn; by rewrite IH. }
  rewrite Hf. set (top := List.filter _ hits).
  assert (Hh : forall t, List.find (fun h : score * string => id h.2 ==? DecisionDeny) (f <$> t) =
    f <$> List.find (fun h : score * PolicyResult => r_Decision h.2 ==? DecisionDeny) t).
  { induction t as [|h t IH]; [done|]. cbn. unfold id in *. destruct (bool_decide (r_Decision h.2 = DecisionDeny)); [done|]. apply IH. }
  rewrite Hh. destruct (List.find _ top); [done|]. by destruct top.
Qed.

Lemma verdict_shape d hits hits' : shape hits = shape hits' -> verdict r_Decision d hits = verdict r_Decision d hits'.
Proof.
  intros E. destruct hits as [|h t]; [by destruct hits'|]. destruct (has_maximal (h :: t)) as (s & Hm & Hs); [done|].
  assert (Hfst : (h :: t).*1 = hits'.*1).
  { transitivity (shape (h :: t)).*1; [unfold shape; by rewrite <- list_fmap_compose|]. rewrite E. unfold shape. by rewrite <- list_fmap_compose. }
  assert (Hm' : maximal s hits').
  { intros x Hx. assert (x.1 ∈ (h :: t).*1) as Hx1 by (rewrite Hfst; by apply list_elem_of_fmap_2).
    apply list_elem_of_fmap in Hx1 as (y & -> & Hy). by apply Hm. }
  pose proof (verdict_top r_Decision d s _ Hm Hs) as H1. rewrite Hfst in Hs. pose proof (verdict_top r_Decision d s _ Hm' Hs) as H2.
  rewrite pick_top_shape, E, <- pick_top_shape, H2 in H1. by injection H1.
Qed.

Lemma rule_hits_shape b mk mk' m l : (forall i j r, r_Decision (mk i r) = r_Decision (mk' j r)) ->
  forall i j, shape (rule_hits b mk m i l) = shape (rule_hits b mk' m j l).
Proof.
  intros Hmk. unfold shape. induction l as [|r l IH]; intros i j; [done|]. cbn [rule_hits].
  destruct (m r); [|apply IH]. destruct (scorePNACLTarget (nr_target r)) as [[??]?]. rewrite !fmap_cons. cbn [fst snd]. by rewrite (Hmk i j r), (IH (i + 1) (j + 1)).
Qed.

(** *** A further denial *)

Definition with_rules (pp : ProcessPolicy) (rules : list NetworkRule) : ProcessPolicy :=
  mkProcessPolicy (pp_Name pp) (pp_Match pp) (pp_Default pp) rules (pp_Children pp) (pp_Matcher pp).

Lemma shape_app l k : shape (l ++ k) = shape l ++ shape k.
Proof. apply fmap_app. Qed.

Lemma rule_hits_insert mk m i l1 r l2 : (forall i j r, r_Decision (mk i r) = r_Decision (mk j r)) ->
  shape (rule_hits 0 mk m i (l1 ++ r :: l2)) = shape (rule_hits 0 mk m i (l1 ++ l2)) \/
  exists h1 h2, shape (rule_hits 0 mk m i (l1 ++ l2)) = shape h1 ++ shape h2 /\
    shape (rule_hits 0 mk m i (l1 ++ r :: l2)) = shape h1 ++ (bonus_score 0 (nr_target r), r_Decision (mk 0 r)) :: shape h2.
Proof.
  intros Hmk. rewrite !rule_hits_app. cbn [rule_hits]. set (n := i + Z.of_nat (length l1)). destruct (m r).
  - right. exists (rule_hits 0 mk m i l1), (rule_hits 0 mk m n l2). rewrite !shape_app. split; [done|].
    unfold bonus_score. destruct (scorePNACLTarget (nr_target r)) as [[??]?]. unfold shape. rewrite fmap_cons. cbn [fst snd].
    f_equal. f_equal; [by rewrite (Hmk n 0)|]. apply (rule_hits_shape 0 mk mk m l2 Hmk).
  - left. rewrite !shape_app. f_equal. apply (rule_hits_shape 0 mk mk m l2 Hmk).
Qed.

Lemma policy_hits_insert pp child q l1 r l2 : pp_Rules pp = l1 ++ l2 ->
  shape (policy_hits (with_rules pp (l1 ++ r :: l2)) child q) = shape (policy_hits pp child q) \/
  exists h1 h2, shape (policy_hits pp child q) = shape (h1 ++ h2) /\
    exists x, r_Decision x.2 = rule_decision r /\ shape (policy_hits (with_rules pp (l1 ++ r :: l2)) child q) = shape (h1 ++ x :: h2).
Proof.
  intros E. destruct child as [c|]; cbn [policy_hits with_rules pp_Rules].
  - unfold child_hits. cbn [pp_Rules with_rules pp_Name]. rewrite E. destruct (cp_Inherit c); [|left; done].
    set (mk := fun i r => mkResult (t_Decision (nr_target r)) (pp_Name pp) i true (cp_Name c)).
    set (own := rule_hits 100 _ _ _ _).
    destruct (rule_hits_insert mk (matches_conn q) 0 l1 r l2) as [H|(h1 & h2 & H1 & H2)]; [done| |].
    + left. rewrite !shape_app. by f_equal.
    + right. exists (own ++ h1), h2. split; [rewrite <- app_assoc, !shape_app; by f_equal|].
      exists (bonus_score 0 (nr_target r), mk 0 r). split; [done|]. rewrite <- app_assoc, !shape_app. f_equal. exact H2.
  - rewrite E. set (mk := fun i r => mkResult (rule_decision r) (pp_Name pp) i false "").
    destruct (rule_hits_insert mk (matches_conn q) 0 l1 r l2) as [H|(h1 & h2 & H1 & H2)]; [done|by left|].
    right. exists h1, h2. split; [by rewrite shape_app|]. exists (bonus_score 0 (nr_target r), mk 0 r). split; [done|].
    rewrite shape_app. exact H2.
Qed.

Lemma deny_only_tightens pp proc q l1 r l2 : rule_decision r = DecisionDeny -> pp_Rules pp = l1 ++ l2 ->
  r_Decision (evaluate_policy (with_rules pp (l1 ++ r :: l2)) proc q) = DecisionDeny \/
  r_Decision (evaluate_policy (with_rules pp (l1 ++ r :: l2)) proc q) = r_Decision (evaluate_policy pp proc q).
Proof.
  intros Hr E. rewrite !evaluate_policy_verdict. change (findChildPolicy (with_rules pp (l1 ++ r :: l2)) proc) with (findChildPolicy pp proc).
  change (pp_Default (with_rules pp (l1 ++ r :: l2))) with (pp_Default pp).
  destruct (policy_hits_insert pp (findChildPolicy pp proc) q l1 r l2 E) as [H|(h1 & h2 & H1 & x & Hx & H2)].
  - right. by apply verdict_shape.
  - rewrite (verdict_shape _ _ _ H1), (verdict_shape _ _ _ H2). apply verdict_insert_deny. congruence.
Qed.

Lemma evaluate_policy_decides pp proc q :
  let d := r_Decision (evaluate_policy pp proc q) in
  let applies := applicable pp (findChildPolicy pp proc) q in
  (forall r s, ~ applies r s) /\ d = pp_Default pp \/
  exists r s, applies r s /\ d = rule_decision r /\
    forall r' s', applies r' s' -> pnaclBetter s' s = false /\ (s' = s -> rule_decision r' = DecisionDeny -> d = DecisionDeny).
Proof.
  cbv zeta. rewrite evaluate_policy_verdict. set (child := findChildPolicy pp proc).
  destruct (policy_hits pp child q) as [|h hits] eqn:Eh; cbn [verdict].
  - left. split; [|done]. intros r s (x & Hx & _)%policy_hits_complete. rewrite Eh in Hx. by apply not_elem_of_nil in Hx.
  - right. destruct (choose_hit_spec r_Decision h hits) as (s & Hin & Hmax & Hdeny). rewrite <- Eh in Hin.
    destruct (policy_hits_sound _ _ _ _ _ Hin) as (r & Hr & Hd). exists r, s. split; [done|]. split; [done|].
    intros r' s' (x & Hx & Ex)%policy_hits_complete. rewrite Eh in Hx. split; [exact (Hmax _ Hx)|].
    intros -> Hr'. apply (Hdeny x Hx). congruence.
Qed.

End Rules.
End Applicable.
Export Applicable.

(** ** Evaluation without caches *)
Module Caching.
Section Caches.
Context {U : UnicodeCase} {CO : CaseOrbits} `{L : Libraries}.

(** The evaluator as its rules read, with nothing remembered between or within calls. *)
Definition acl_matches (a : PolicyEvaluatorACL) (info : ProcessInfo) : bool :=
  match compile_path (acl_Match a) with Some g => single_matches (mkSingle (acl_Match a) g) info | None => false end.

Definition host_matches (pattern host : string) : bool :=
  if (pattern ==? "") || (host ==? "") then false
  else if ToLower pattern ==? ToLower host then true
  else if ToLower pattern ==? "*" then true
  else match glob_Compile (ToLower pattern) [ch_dot] with None => false | Some g => g (ToLower host) end.

Definition target_matches (cx : ConnectionContext) (rule : NetworkTarget) : bool :=
  let ip := ParseIP (string_bytes (cx_Host cx)) in
  matchProtocol (t_Protocol rule) (cx_Protocol cx) && matchPort (t_Port rule) (cx_Port cx) &&
  (negb ((t_Host rule !=? "") || (t_IP rule !=? "") || (t_CIDR rule !=? "")) ||
   ((t_Host rule !=? "") && host_matches (t_Host rule) (cx_Host cx)) ||
   ((t_IP rule !=? "") && matchIP (t_IP rule) ip) || ((t_CIDR rule !=? "") && matchCIDR (t_CIDR rule) ip)).

Definition spec_hits (bonus : Z) (mk : Z -> NetworkTarget -> EvaluationResult) (cx : ConnectionContext) (l : list NetworkTarget)
  : list (score * EvaluationResult) :=
  (fun p => (bonus_score bonus p.2, mk (Z.of_nat p.1) p.2)) <$>
    filter (fun p : nat * NetworkTarget => target_matches cx p.2 = true) (imap pair l).

Definition or_default (d otherwise : string) : string := if d ==? "" then otherwise else d.

Definition spec_rules (global : string) (cx : ConnectionContext) (acl : PolicyEvaluatorACL) : EvaluationResult :=
  match spec_hits 0 (fun i r => mkEvalResult (t_Decision r) (Some r) i (acl_Name acl) false "") cx (acl_Rules acl) with
  | [] => mkEvalResult (or_default (acl_Default acl) global) None (-1) (acl_Name acl) false ""
  | h :: hits => choose_hit er_Decision h hits
  end.

Definition spec_child (global : string) (cx : ConnectionContext) (parent child : PolicyEvaluatorACL) : EvaluationResult :=
  let mk inherited i r := mkEvalResult (t_Decision r) (Some r) i (acl_Name parent) inherited (acl_Name child) in
  match spec_hits 100 (mk false) cx (acl_Rules child) ++ (if acl_Inherit child then spec_hits 0 (mk true) cx (acl_Rules parent) else []) with
  | [] => mkEvalResult (or_default (or_default (acl_Default child) (acl_Default parent)) global) None (-1) (acl_Name parent) (acl_Inherit child)
            (acl_Name child)
  | h :: hits => choose_hit er_Decision h hits
  end.

Definition spec_evaluate (global : string) (acls : list PolicyEvaluatorACL) (cx : ConnectionContext) : EvaluationResult :=
  match List.find (fun a => acl_matches a (cx_Process cx)) acls with
  | None => mkEvalResult global None (-1) "" false ""
  | Some acl =>
    match List.find (fun a => acl_matches a (cx_Process cx)) (acl_Children acl) with
    | Some child => spec_child global cx acl child
    | None => spec_rules global cx acl
    end
  end.

(** *** The caches hold what would be compiled *)

Definition all_acls (acls : list PolicyEvaluatorACL) : list PolicyEvaluatorACL := acls ++ (acls ≫= acl_Children).

(** A name stands for one set of criteria. *)
Definition names_ok (acls : list PolicyEvaluatorACL) : Prop :=
  forall a b, a ∈ all_acls acls -> b ∈ all_acls acls -> acl_Name a = acl_Name b -> acl_Match a = acl_Match b.

Record coherent (acls : list PolicyEvaluatorACL) (k : caches) : Prop := mkCoherent {
  co_matchers : forall name m, k_matchers k !! name = Some m -> exists a, a ∈ all_acls acls /\ acl_Name a = name /\
    sm_criteria m = acl_Match a /\ compile_path (acl_Match a) = Some (sm_pathGlob m);
  co_globs : forall p g, k_globs k !! p = Some g -> glob_Compile p [ch_dot] = Some g
}.

Context (acls : list PolicyEvaluatorACL) (Hnames : names_ok acls).

Lemma coherent_empty : coherent acls no_caches.
Proof. split; intros ??; cbn; by rewrite lookup_empty. Qed.

Lemma getOrCreateMatcher_spec a k : coherent acls k -> a ∈ all_acls acls ->
  let '(m, k') := getOrCreateMatcher (acl_Name a) (acl_Match a) k in
  coherent acls k' /\ m = mkSingle (acl_Match a) <$> compile_path (acl_Match a).
Proof.
  intros [Hm Hg] Ha. unfold getOrCreateMatcher. destruct (k_matchers k !! acl_Name a) as [m|] eqn:E.
  - split; [done|]. destruct (Hm _ _ E) as (b & Hb & En & Ec & Ep). rewrite (Hnames a b Ha Hb (eq_sym En)), Ep. cbn. f_equal.
    rewrite <- Ec. by destruct m.
  - destruct (compile_path (acl_Match a)) as [g|] eqn:Ep; [|done]. split; [|done]. split; [|done]. cbn [k_matchers]. intros name m.
    rewrite lookup_insert_Some. intros [[<- <-]|[_ H]]; [|by apply Hm]. exists a. cbn. auto.
Qed.

Lemma find_acl_spec info l : (forall a, a ∈ l -> a ∈ all_acls acls) -> forall k, coherent acls k ->
  let '(x, k') := find_acl l info k in coherent acls k' /\ x = List.find (fun a => acl_matches a info) l.
Proof.
  induction l as [|a l IH]; intros Hl k Hk; cbn [find_acl List.find]; [done|].
  pose proof (getOrCreateMatcher_spec a k Hk (Hl a (list_elem_of_here _ _))) as H.
  destruct (getOrCreateMatcher _ _ k) as [m k']. destruct H as [Hk' ->]. unfold acl_matches at 1.
  assert (Hl' : forall b, b ∈ l -> b ∈ all_acls acls) by (intros; apply Hl; by right).
  destruct (compile_path (acl_Match a)) as [g|]; cbn [fmap option_fmap option_map]; [|by apply IH].
  destruct (single_matches _ info); [done|by apply IH].
Qed.

Lemma matchHost_spec p h k : coherent acls k -> let '(b, k') := matchHost p h k in coherent acls k' /\ b = host_matches p h.
Proof.
  intros [Hm Hg]. unfold matchHost, host_matches. destruct ((p ==? "") || (h ==? "")); [done|].
  destruct (ToLower p ==? ToLower h); [done|]. destruct (ToLower p ==? "*"); [done|].
  destruct (k_globs k !! ToLower p) as [g|] eqn:E; [by rewrite (Hg _ _ E)|].
  destruct (glob_Compile (ToLower p) [ch_dot]) as [g|] eqn:Ec; [|done]. split; [|done]. split; [done|]. cbn [k_globs]. intros q g'.
  rewrite lookup_insert_Some. intros [[<- <-]|[_ H]]; [done|by apply Hg].
Qed.

Lemma evaluateNetworkTarget_spec r cx k : coherent acls k ->
  let '(b, k') := evaluateNetworkTarget r cx k in coherent acls k' /\ b = target_matches cx r.
Proof.
  intros Hk. unfold evaluateNetworkTarget, target_matches. destruct (matchProtocol _ _); [|done]. destruct (matchPort _ _); [|done]. cbn [negb andb].
  assert (Hh : let '(b, k') := (if t_Host r !=? "" then matchHost (t_Host r) (cx_Host cx) k else (false, k)) in
    coherent acls k' /\ b = (t_Host r !=? "") && host_matches (t_Host r) (cx_Host cx)).
  { destruct (t_Host r !=? ""); [apply (matchHost_spec _ _ _ Hk)|done]. }
  destruct (if t_Host r !=? "" then _ else _) as [b k']. destruct Hh as [Hk' ->].
  destruct (t_Host r !=? ""), (t_IP r !=? ""), (t_CIDR r !=? ""); cbn [negb orb andb]; done.
Qed.

Lemma target_hits_spec b mk cx l : forall i k, coherent acls k ->
  let '(h, k') := target_hits b mk cx (Z.of_nat i) l k in
  coherent acls k' /\ h = (fun p => (bonus_score b p.2, mk (Z.of_nat p.1) p.2)) <$>
    filter (fun p : nat * NetworkTarget => target_matches cx p.2 = true) (imap (fun j r => (i + j, r)%nat) l).
Proof.
  induction l as [|r l IH]; intros i k Hk; cbn [target_hits]; [done|].
  pose proof (evaluateNetworkTarget_spec r cx k Hk) as H. destruct (evaluateNetworkTarget r cx k) as [m k1]. destruct H as [Hk1 ->].
  specialize (IH (S i) k1 Hk1). replace (Z.of_nat i + 1) with (Z.of_nat (S i)) by lia. destruct (target_hits b mk cx _ l k1) as [rest k2].
  destruct IH as [Hk2 ->]. rewrite imap_cons, Nat.add_0_r.
  assert (E : imap ((fun (j : nat) r => ((i + j)%nat, r)) ∘ S) l = imap (fun j r => ((S i + j)%nat, r)) l).
  { apply imap_ext. intros. cbn. f_equal. lia. }
  rewrite E. unfold bonus_score. destruct (target_matches cx r) eqn:Em.
  - rewrite filter_cons_True by done. rewrite fmap_cons. cbn [fst snd]. by destruct (scorePNACLTarget r) as [[??]?].
  - rewrite filter_cons_False by (cbn; congruence). done.
Qed.

Lemma target_hits_from b mk cx l k : coherent acls k ->
  let '(h, k') := target_hits b mk cx 0 l k in coherent acls k' /\ h = spec_hits b mk cx l.
Proof. intros Hk. exact (target_hits_spec b mk cx l 0 k Hk). Qed.

Lemma evaluate_coherent pe cx : pe_ProcessACLs pe = acls -> coherent acls (pe_caches pe) ->
  let '(r, pe') := EvaluateConnection pe cx in
  r = spec_evaluate (pe_GlobalDefault pe) acls cx /\ pe' = set_caches pe (pe_caches pe') /\ coherent acls (pe_caches pe').
Proof.
  intros Eacl Hk. unfold EvaluateConnection, FindProcessACL, spec_evaluate, Evaluator_Evaluate, findChildACL. rewrite Eacl.
  pose proof (find_acl_spec (cx_Process cx) acls (fun a Ha => proj2 (elem_of_app _ _ _) (or_introl Ha)) _ Hk) as H1.
  destruct (find_acl acls (cx_Process cx) (pe_caches pe)) as [acl k1]. destruct H1 as [Hk1 ->].
  destruct (List.find _ acls) as [acl|] eqn:Ef; [|done]. apply find_some in Ef as [Hin _].
  assert (Hc : forall c, c ∈ acl_Children acl -> c ∈ all_acls acls).
  { intros c Hc. apply elem_of_app. right. apply list_elem_of_bind. exists acl. split; [done|]. by apply list_elem_of_In. }
  pose proof (find_acl_spec (cx_Process cx) (acl_Children acl) Hc _ Hk1) as H2.
  destruct (find_acl (acl_Children acl) (cx_Process cx) k1) as [ch k2]. destruct H2 as [Hk2 ->].
  destruct (List.find _ (acl_Children acl)) as [child|].
  - unfold evaluateWithInheritance, spec_child. cbv zeta.
    pose proof (target_hits_from 100 (fun i r => mkEvalResult (t_Decision r) (Some r) i (acl_Name acl) false (acl_Name child)) cx (acl_Rules child) k2 Hk2) as H3.
    destruct (target_hits 100 _ cx 0 (acl_Rules child) k2) as [own k3]. destruct H3 as [Hk3 ->].
    pose proof (target_hits_from 0 (fun i r => mkEvalResult (t_Decision r) (Some r) i (acl_Name acl) true (acl_Name child)) cx (acl_Rules acl) k3 Hk3) as H4.
    destruct (acl_Inherit child).
    + destruct (target_hits 0 _ cx 0 (acl_Rules acl) k3) as [inh k4]. destruct H4 as [Hk4 ->]. by destruct (_ ++ _).
    + by destruct (_ ++ _).
  - unfold evaluateACLRules, spec_rules.
    pose proof (target_hits_from 0 (fun i r => mkEvalResult (t_Decision r) (Some r) i (acl_Name acl) false "") cx (acl_Rules acl) k2 Hk2) as H3.
    destruct (target_hits 0 _ cx 0 (acl_Rules acl) k2) as [h k3]. destruct H3 as [Hk3 ->]. by destruct (spec_hits _ _ _ _).
Qed.

End Caches.
End Caching.
Export Caching.

(** ** What the rules promise *)
Module AclPromises.
Section Promises.
Context {U : UnicodeCase} {CO : CaseOrbits} `{L : Libraries}.

(** C18. A process with no policy gets the global default.  Otherwise the decision is that of a rule
    that applies to the process and matches the connection, with no more specific one beside it, and
    it is a denial as soon as a rule of the same specificity denies; the default of the policy is
    left when no rule applies.  Adding a denial anywhere among the rules denies or changes nothing. *)
Theorem acl_rule_decides e proc q :
  let d := r_Decision (Evaluate e proc q) in
  match find_policy e proc with
  | None => d = e_GlobalDefault e
  | Some pp =>
    let applies := applicable pp (findChildPolicy pp proc) q in
    ((forall r s, ~ applies r s) /\ d = pp_Default pp \/
     exists r s, applies r s /\ d = rule_decision r /\
       forall r' s', applies r' s' -> pnaclBetter s' s = false /\ (s' = s -> rule_decision r' = DecisionDeny -> d = DecisionDeny)) /\
    forall l1 r l2, rule_decision r = DecisionDeny -> pp_Rules pp = l1 ++ l2 ->
      let d' := r_Decision (evaluate_policy (with_rules pp (l1 ++ r :: l2)) proc q) in d' = DecisionDeny \/ d' = d
  end.
Proof.
  cbv zeta. unfold Evaluate. destruct (find_policy e proc) as [pp|]; [|done].
  split; [apply evaluate_policy_decides|]. intros l1 r l2 Hr E. by apply deny_only_tightens.
Qed.

(** *** The manager over time *)

Inductive manager_op : Type := MEvaluate (cx : ConnectionContext) | MUpdate (config : Config).

Fixpoint manager_run (m : Manager) (ops : list manager_op) : list EvaluationResult :=
  match ops with
  | [] => []
  | MEvaluate cx :: ops' => let '(r, m') := Manager_Evaluate m cx in r :: manager_run m' ops'
  | MUpdate c :: ops' => manager_run (Manager_UpdateConfig m (Some c)).2 ops'
  end.

Definition config_acls (c : Config) : list PolicyEvaluatorACL := process_acl <$> cf_Processes c.

(** The configuration in force after an update: one that does not compile is refused. *)
Definition in_force (c c' : Config) : Config := match NewManager (Some c') with Some _ => c' | None => c end.

(** The same calls, each answered by a manager made for it from the configuration then in force: no
    call before it has left anything behind. *)
Fixpoint fresh_run (c : Config) (ops : list manager_op) : list EvaluationResult :=
  match ops with
  | [] => []
  | MEvaluate cx :: ops' =>
    match NewManager (Some c) with Some m => [(Manager_Evaluate m cx).1] | None => [] end ++ fresh_run c ops'
  | MUpdate c' :: ops' => fresh_run (in_force c c') ops'
  end.

Definition op_names_ok (o : manager_op) : Prop := match o with MUpdate c => names_ok (config_acls c) | MEvaluate _ => True end.

Lemma default_decision c : (if cf_Default c !=? "" then cf_Default c else DecisionDeny) = GetDefaultDecision c.
Proof. unfold GetDefaultDecision. by destruct (cf_Default c ==? ""). Qed.

(** The evaluator belongs to the configuration, and its caches are coherent with it. *)
Definition serves (c : Config) (m : Manager) : Prop :=
  pe_GlobalDefault (mg_evaluator m) = GetDefaultDecision c /\ pe_ProcessACLs (mg_evaluator m) = config_acls c /\
  coherent (config_acls c) (pe_caches (mg_evaluator m)).

Lemma NewManager_serves c m : NewManager (Some c) = Some m -> serves c m.
Proof.
  unfold NewManager. intros E. cbn [default from_option] in E. apply bind_Some in E as (x & _ & [= <-]).
  split; [apply default_decision|]. split; [done|]. apply coherent_empty.
Qed.

Lemma UpdateConfig_serves c m c' : serves c m -> serves (in_force c c') (Manager_UpdateConfig m (Some c')).2.
Proof.
  intros Hm. unfold Manager_UpdateConfig, in_force. destruct (NewManager (Some c')) as [m'|] eqn:E; [by apply NewManager_serves|done].
Qed.

Lemma in_force_starts c c' : is_Some (NewManager (Some c)) -> is_Some (NewManager (Some (in_force c c'))).
Proof. unfold in_force. by destruct (NewManager (Some c')) eqn:E; [rewrite E|]. Qed.

(** One call to a manager that serves a configuration, whatever it remembers. *)
Lemma serves_evaluate c m cx : names_ok (config_acls c) -> serves c m ->
  (Manager_Evaluate m cx).1 = spec_evaluate (GetDefaultDecision c) (config_acls c) cx /\ serves c (Manager_Evaluate m cx).2.
Proof.
  intros Hc (Hd & Ha & Hk). unfold Manager_Evaluate. pose proof (evaluate_coherent (config_acls c) Hc (mg_evaluator m) cx Ha Hk) as H.
  destruct (EvaluateConnection (mg_evaluator m) cx) as [r pe']. destruct H as (-> & Hpe & Hk'). rewrite Hd. split; [done|].
  unfold serves. cbn [snd mg_evaluator]. rewrite Hpe. done.
Qed.

(** C19. Whatever connections were evaluated before and however often the configuration was replaced,
    the manager gives the answer that one made for this single call from the configuration in force
    gives: the compiled patterns it remembers from earlier calls never show.  This needs a name to stand
    for one set of criteria in each configuration. *)
Theorem manager_as_fresh c m ops : NewManager (Some c) = Some m -> names_ok (config_acls c) -> Forall op_names_ok ops ->
  manager_run m ops = fresh_run c ops.
Proof.
  intros Hnew Hc Hops. pose proof (NewManager_serves _ _ Hnew) as Hm. apply mk_is_Some in Hnew.
  revert c m Hnew Hc Hm. induction Hops as [|o ops Ho Hops IH]; intros c m Hnew Hc Hm; [done|].
  destruct o as [cx|c']; cbn [manager_run fresh_run].
  - destruct (serves_evaluate c m cx Hc Hm) as [Hr Hm']. destruct Hnew as [m0 Hnew]. rewrite Hnew.
    rewrite (proj1 (serves_evaluate c m0 cx Hc (NewManager_serves _ _ Hnew))).
    destruct (Manager_Evaluate m cx) as [x m']. cbn in *. subst x. f_equal. apply IH; [by eexists|done|done].
  - apply IH; [by apply in_force_starts| |by apply UpdateConfig_serves]. unfold in_force. by destruct (NewManager (Some c')).
Qed.

Fixpoint names_check (l : list PolicyEvaluatorACL) : bool :=
  match l with
  | [] => true
  | a :: l' => forallb (fun b => negb (acl_Name a ==? acl_Name b) || (acl_Match a ==? acl_Match b)) l' && names_check l'
  end.

Lemma names_check_ok acls : names_check (all_acls acls) = true -> names_ok acls.
Proof.
  unfold names_ok. generalize (all_acls acls). clear. induction l as [|x l IH]; cbn [names_check]; intros H a b; [by intros ?%not_elem_of_nil|].
  apply andb_true_iff in H as [Hx Hl]. apply forallb_Forall in Hx. rewrite Forall_forall in Hx.
  assert (Hx' : forall y, y ∈ l -> acl_Name x = acl_Name y -> acl_Match x = acl_Match y).
  { intros y Hy E. specialize (Hx y Hy). rewrite bool_decide_eq_true_2 in Hx by done. by apply bool_decide_eq_true in Hx. }
  rewrite !elem_of_cons. intros [->|Ha] [->|Hb] E; [done|by apply Hx'|symmetry; by apply Hx'|by apply IH].
Qed.

End Promises.

(** *** A sample configuration *)
Section Sample.
#[local] Existing Instance latin_case.
#[local] Existing Instance ascii_orbits.
#[local] Existing Instance small_libraries.

Definition named (n : string) : ProcessMatchCriteria := mkCriteria n "" "" "" false.
Definition host_rule (h d : string) : NetworkTarget := mkTarget h "" "" "" "" d.
Definition ip_rule (ip d : string) : NetworkTarget := mkTarget "" ip "" "" "" d.

Definition sample_config : Config := mkConfig "" [
  mkProcessConfig "agent" (named "agent") "approve"
    [host_rule "*.example.com" "allow"; host_rule "api.example.com" "deny"; ip_rule "10.0.0.1" "audit"]
    [mkChildConfig "git" (named "git") None [host_rule "*.example.com" "deny"]];
  mkProcessConfig "curl" (named "curl") "" [host_rule "*" "audit"] []] None.

Definition proc (n : string) : ProcessInfo := mkProc n ("/usr/bin/" +:+ n) "" "" 7 1.
Definition ask (p h : string) : ConnectionContext := mkConn (proc p) h 443 "tcp".

(** At the sample: three processes, and a configuration that does not compile. *)
Lemma manager_as_fresh_witness :
  exists m, NewManager (Some sample_config) = Some m /\
  er_Decision <$> manager_run m [MEvaluate (ask "agent" "www.example.com"); MEvaluate (ask "agent" "API.example.com");
      MUpdate (mkConfig "allow" [mkProcessConfig "x" (mkCriteria "" "[" "" "" false) "" [] []] None); MEvaluate (ask "curl" "a.b")] =
    ["allow"; "deny"; "audit"] /\
  manager_run m [MEvaluate (ask "agent" "www.example.com"); MEvaluate (ask "curl" "a.b")] =
    fresh_run sample_config [MEvaluate (ask "agent" "www.example.com"); MEvaluate (ask "curl" "a.b")].
Proof.
  destruct (NewManager (Some sample_config)) as [m|] eqn:E; [|by vm_compute in E]. exists m. split; [done|].
  split; [vm_compute in E; injection E as <-; by vm_compute|].
  apply (manager_as_fresh sample_config m); [exact E| |repeat constructor].
  apply names_check_ok. by vm_compute.
Defined.

Definition decide_in (c : Config) (p : ProcessInfo) (host : string) (ip : option (list Z)) : option string :=
  match NewPolicyEngine c with Ok e => Some (r_Decision (Evaluate e p (mkQuery host ip 443 "tcp"))) | Err _ => None end.

Example engine_sample :
  (fun p : string * string => decide_in sample_config (proc p.1) p.2 None) <$>
    [("agent", "www.example.com"); ("agent", "api.example.com"); ("agent", "other.net"); ("git", "www.example.com"); ("curl", "host")] =
  [Some "allow"; Some "deny"; Some "approve"; Some "deny"; Some "audit"].
Proof. vm_compute. reflexivity. Qed.

(** *** Where the two evaluators and their comments part *)

Definition manager_decides (c : Config) (p : ProcessInfo) (host : string) : option string :=
  m ← NewManager (Some c); Some (er_Decision (Manager_Evaluate m (mkConn p host 443 "tcp")).1).

Definition one_process (n d : string) (rules : list NetworkTarget) : Config := mkConfig "" [mkProcessConfig "p" (named n) d rules []] None.

(** One configuration, two answers, the engine's first: the target [*] (a single label for the
    engine), a process without a default (approve, and the global default), a wildcard in the name of
    a process, and a rule with both a host and an address (both, and either). *)
Example evaluators_differ :
  let ip := ParseIP (string_bytes "10.0.0.1") in
  let both c p h := (decide_in c p h ip, manager_decides c p h) in
  [both (one_process "curl" "deny" [host_rule "*" "allow"]) (proc "curl") "api.example.com";
   both (one_process "curl" "" []) (proc "curl") "api.example.com";
   both (one_process "claude*" "allow" []) (proc "claude-code") "api.example.com";
   both (one_process "curl" "deny" [mkTarget "api.example.com" "10.0.0.2" "" "" "" "allow"]) (proc "curl") "api.example.com"] =
  [(Some "deny", Some "allow"); (Some "approve", Some "deny"); (Some "allow", Some "deny"); (Some "deny", Some "allow")].
Proof. vm_compute. reflexivity. Qed.

(** The rules of a child are said to come first, but a parent's exact rule is above a child's
    wildcard: the child's denial is not heard. *)
Definition parent_and_child : Config := mkConfig "" [
  mkProcessConfig "agent" (named "agent") "deny" [host_rule "api.example.com" "allow"]
    [mkChildConfig "helper" (mkCriteria "" "/opt/*" "" "" false) None [host_rule "*.example.com" "deny"]]] None.

Example parent_rule_above_child :
  decide_in parent_and_child (mkProc "agent" "/opt/agent" "" "" 7 1) "api.example.com" None = Some "allow" /\
  manager_decides parent_and_child (mkProc "agent" "/opt/agent" "" "" 7 1) "api.example.com" = Some "allow".
Proof. split; vm_compute; reflexivity. Qed.

(** Two processes whose children share a name: the criteria of the one compiled first serve both, and
    the restricted helper of the second is not recognized. *)
Definition shared_name : Config := mkConfig "" [
  mkProcessConfig "a" (named "a") "deny" [] [mkChildConfig "helper" (mkCriteria "" "/opt/a/*" "" "" false) None []];
  mkProcessConfig "b" (named "b") "allow" [] [mkChildConfig "helper" (mkCriteria "" "/opt/b/*" "" "" false) (Some false) [host_rule "*" "deny"]]] None.

Example cached_criteria_reused :
  exists m, NewManager (Some shared_name) = Some m /\
  er_Decision <$> manager_run m [MEvaluate (mkConn (mkProc "b" "/opt/b/x" "" "" 7 1) "h" 443 "tcp")] = ["deny"] /\
  er_Decision <$> manager_run m [MEvaluate (mkConn (mkProc "a" "/opt/a/x" "" "" 7 1) "h" 443 "tcp");
                                 MEvaluate (mkConn (mkProc "b" "/opt/b/x" "" "" 7 1) "h" 443 "tcp")] = ["deny"; "allow"].
Proof. eexists. split; [vm_compute; reflexivity|]. split; vm_compute; reflexivity. Qed.

(** A child with strict criteria is matched as if they were flexible. *)
Example strict_child_matched_loosely :
  let child := mkChildConfig "helper" (mkCriteria "helper" "/opt/*" "" "" true) None [] in
  let acl := mkMatchedACL "a" (named "a") "" [] [child] SpecExact in
  MatchChild (Some acl) (proc "helper") = Some child /\
  (matchProcess (mkCompiled (mkProcessConfig "" (cc_Match child) "" [] []) (Some (fun _ => false))) (proc "helper")).1 = false.
Proof. split; vm_compute; reflexivity. Qed.

(** A copy of a configuration has lost the settings of the approval dialog. *)
Example clone_drops_approval_ui :
  cf_ApprovalUI (Config_Clone (mkConfig "" [] (Some (mkApprovalUI "disabled" "5s")))) = None.
Proof. reflexivity. Qed.

End Sample.
End AclPromises.
Export AclPromises.
