(* ===== verification/NetAclKernelTheorems.v ===== *)
(** * Theorems on the kernel filter

    [Bytes]: the keys Go writes are the keys the program looks up.  [Reached]: the maps after any
    calls.  [KernelPromises]: what the kernel lets through, and what an approval opens. *)

From Stdlib Require Import ZArith Lia Ascii String.
From stdpp Require Import base list strings gmap.
From S2P Require Import Prelude GoText GoNet GoStrings PolicyModel PolicyEngine NetGuards NetAcl NetAclEngine NetAclKernel NetAclFilter.
Open Scope string_scope.
Open Scope list_scope.
Open Scope Z_scope.

(** ** Keys as bytes *)
Module Bytes.

Lemma le_bytes_length n z : length (le_bytes n z) = n.
Proof. revert z. induction n as [|n IH]; intros z; cbn; [done|]. by rewrite IH. Qed.

Lemma le_bytes_range n z : Forall byte_range (le_bytes n z).
Proof. revert z. induction n as [|n IH]; intros z; cbn; constructor; [|apply IH]. unfold byte_range. pose proof (Z.mod_pos_bound z 256). lia. Qed.

Lemma le_num_bytes n z : le_num (le_bytes n z) = z mod 256 ^ Z.of_nat n.
Proof.
  revert z. induction n as [|n IH]; intros z; cbn [le_bytes le_num]; [by rewrite Z.mod_1_r|]. rewrite IH.
  rewrite Nat2Z.inj_succ, Z.pow_succ_r by lia. rewrite Z.rem_mul_r by (try apply Z.pow_pos_nonneg; lia). lia.
Qed.

Lemma le_num_id n z : 0 <= z < 256 ^ Z.of_nat n -> le_num (le_bytes n z) = z.
Proof. intros H. rewrite le_num_bytes. by apply Z.mod_small. Qed.

Lemma le_bytes_inj n a b : 0 <= a < 256 ^ Z.of_nat n -> 0 <= b < 256 ^ Z.of_nat n -> le_bytes n a = le_bytes n b -> a = b.
Proof. intros Ha Hb E. rewrite <- (le_num_id n a), <- (le_num_id n b) by done. by rewrite E. Qed.

Record key_ok (k : AllowKey) : Prop := mkKeyOk {
  ko_cgroup : 0 <= ak_CgroupID k < 2 ^ 64; ko_dport : 0 <= ak_Dport k < 2 ^ 16; ko_addr : length (ak_Addr k) = 16%nat
}.

Record info_ok (i : ctx_info) : Prop := mkInfoOk {
  io_cgroup : 0 <= in_cgroup i < 2 ^ 64; io_dport : 0 <= in_dport i < 2 ^ 16
}.

Lemma addr16_length l : length (addr16 l) = 16%nat.
Proof. unfold addr16. rewrite length_take, length_app, length_replicate. lia. Qed.

Lemma marshal_key_length k : key_ok k -> Z.of_nat (length (marshal_key k)) = allow_key_size.
Proof. intros [_ _ Ha]. unfold marshal_key. rewrite !length_app, !le_bytes_length, Ha. done. Qed.

Lemma app_eq_length {A} (a b a' b' : list A) : length a = length a' -> a ++ b = a' ++ b' -> a = a' /\ b = b'.
Proof. intros Hl E. by apply app_inj_1. Qed.

Lemma marshal_key_inj k k' : key_ok k -> key_ok k' -> marshal_key k = marshal_key k' -> k = k'.
Proof.
  intros [Hc Hd Ha] [Hc' Hd' Ha'] E. unfold marshal_key in E.
  apply app_eq_length in E as [E1 E]; [|by rewrite !le_bytes_length]. apply app_eq_length in E as [E0 E]; [|done]. injection E0 as Ef Ep.
  apply app_eq_length in E as [E2 E]; [|by rewrite !le_bytes_length]. apply app_eq_length in E as [E3 _]; [|by rewrite Ha, Ha'].
  apply le_bytes_inj in E1; [|lia..]. apply le_bytes_inj in E2; [|lia..]. destruct k, k'. cbn in *. by subst.
Qed.

(** The key the program makes is the one Go would make for the same destination. *)
Definition lookup_key (i : ctx_info) (protocol : Z) : AllowKey :=
  mkAllowKey (in_cgroup i) (in_family i) protocol (in_dport i) (addr16 (in_addr i)).

Lemma lookup_key_bytes i p : allow_key_bytes i p = marshal_key (lookup_key i p).
Proof. done. Qed.

Lemma lookup_key_ok i p : info_ok i -> key_ok (lookup_key i p).
Proof. intros [Hc Hd]. split; [done|done|apply addr16_length]. Qed.

Lemma key_cgroup_marshal k : key_ok k -> key_cgroup 0 (marshal_key k) = ak_CgroupID k.
Proof.
  intros [Hc _ _]. unfold key_cgroup, marshal_key. rewrite drop_0, take_app_length'; [|by rewrite le_bytes_length]. by apply le_num_id.
Qed.

Definition retargeted (cgroupID : Z) (l : list AllowKey) : gset (list Z) :=
  list_to_set ((fun k => marshal_key (with_cgroup k cgroupID)) <$> l).

Lemma with_cgroup_ok k cg : 0 <= cg < 2 ^ 64 -> key_ok k -> key_ok (with_cgroup k cg).
Proof. intros Hcg [Hc Hd Ha]. split; done. Qed.

(** A call that the kernel does not disturb: while a map has room nothing is evicted and no update is
    refused, and its iterations visit every key. *)
Record undisturbed (K : BpfKernel) : Prop := mkUndisturbed {
  ud_put : forall m k, (size m < max_entries)%nat -> bk_put K m k = Some ∅;
  ud_flag : forall m k, (size m < max_entries)%nat -> bk_flag K m k = Some ∅;
  ud_visits : forall m, bk_visits K m = m;
  ud_aborts : forall m, bk_aborts K m = false
}.

Lemma get_set n m c : get_map n (set_map n m c) = m.
Proof. by destruct n. Qed.

Lemma set_set n m m' c : set_map n m (set_map n m' c) = set_map n m c.
Proof. by destruct n. Qed.

Lemma set_get n c : set_map n (get_map n c) c = c.
Proof. by destruct n, c. Qed.

Lemma put_keys_ok K n cg l : undisturbed K -> 0 <= cg < 2 ^ 64 -> Forall key_ok l -> forall c,
  (size (get_map n c) + length l <= max_entries)%nat ->
  put_keys K n cg l c = (Ok tt, set_map n (retargeted cg l ∪ get_map n c) c).
Proof.
  intros HK Hcg Hl. induction Hl as [|k l Hk Hl IH]; intros c Hsz; cbn [put_keys].
  - unfold retargeted. cbn. rewrite (left_id_L ∅ (∪)). by rewrite set_get.
  - unfold then_, put. rewrite marshal_key_length, Z.eqb_refl by by apply with_cgroup_ok. cbn [negb].
    cbn [length] in Hsz. rewrite (ud_put K HK) by lia. rewrite difference_empty_L. set (key := marshal_key _). rewrite IH.
    + rewrite set_set, get_set. unfold retargeted. cbn [fmap list_fmap list_to_set]. fold key. do 2 f_equal. set_solver.
    + rewrite get_set. pose proof (size_union_alt ({[key]} : gset (list Z)) (get_map n c)) as Hu. rewrite size_singleton in Hu.
      pose proof (subseteq_size (get_map n c ∖ {[key]}) (get_map n c) ltac:(set_solver)). lia.
Qed.

Lemma retargeted_elem cg l k : 0 <= cg < 2 ^ 64 -> Forall key_ok l -> key_ok k ->
  marshal_key k ∈ retargeted cg l <-> ak_CgroupID k = cg /\ exists k', k' ∈ l /\ with_cgroup k' cg = k.
Proof.
  intros Hcg Hl Hk. unfold retargeted. rewrite elem_of_list_to_set, list_elem_of_fmap. rewrite Forall_forall in Hl. split.
  - intros (k' & E & Hin). apply marshal_key_inj in E; [|done|by apply with_cgroup_ok, Hl]. subst k. split; [done|]. by exists k'.
  - intros (_ & k' & Hin & <-). by exists k'.
Qed.

(** *** Tries refuse every key *)

Lemma lpm4_size_wrong cg p addr dport : length addr = 4%nat -> Z.of_nat (length (marshal_lpm p cg addr dport)) <> lpm4_key_size.
Proof. intros Ha. unfold marshal_lpm. rewrite !length_app, !le_bytes_length, Ha. done. Qed.

Lemma lpm6_size_wrong cg p addr dport : length addr = 16%nat -> Z.of_nat (length (marshal_lpm p cg addr dport)) <> lpm6_key_size.
Proof. intros Ha. unfold marshal_lpm. rewrite !length_app, !le_bytes_length, Ha. done. Qed.

(** A prefix of either family is refused, and the maps stay as they are. *)
Lemma put_cidr_refused K n4 n6 cg x c : length (ci_Addr x) = 16%nat ->
  (if ci_Family x =? 2 then put K n4 lpm4_key_size (marshal_lpm (lpm_prefix x) cg (take 4 (ci_Addr x)) (ci_Dport x))
   else if ci_Family x =? 10 then put K n6 lpm6_key_size (marshal_lpm (lpm_prefix x) cg (ci_Addr x) (ci_Dport x))
   else done_) c =
  (if ci_Family x =? 2 then Err (EMarshalSize n4) else if ci_Family x =? 10 then Err (EMarshalSize n6) else Ok tt, c).
Proof.
  intros Hc. assert (length (take 4 (ci_Addr x)) = 4%nat) as H4 by (rewrite length_take; lia). unfold put.
  destruct (ci_Family x =? 2); [by rewrite (proj2 (Z.eqb_neq _ _) (lpm4_size_wrong cg (lpm_prefix x) _ (ci_Dport x) H4))|].
  destruct (ci_Family x =? 10); [|done]. by rewrite (proj2 (Z.eqb_neq _ _) (lpm6_size_wrong cg (lpm_prefix x) _ (ci_Dport x) Hc)).
Qed.

Lemma put_cidrs_unchanged K n4 n6 cg l c : Forall (fun c => length (ci_Addr c) = 16%nat) l -> (put_cidrs K n4 n6 cg l c).2 = c.
Proof.
  intros Hl. induction Hl as [|x l Hc Hl IH]; cbn [put_cidrs]; [done|]. unfold then_ at 1. rewrite put_cidr_refused by done.
  destruct (ci_Family x =? 2); [done|]. by destruct (ci_Family x =? 10).
Qed.

(** The key structs of the CIDR maps are marshalled without the padding of the C structs, so a policy
    with a prefix of either family is never loaded. *)
Lemma cidr_rules_refused K n4 n6 cg l c : Forall (fun c => length (ci_Addr c) = 16%nat) l ->
  Exists (fun c => ci_Family c = 2 \/ ci_Family c = 10) l -> exists e, (put_cidrs K n4 n6 cg l c).1 = Err e.
Proof.
  intros Hl Hex. induction Hl as [|x l Hc Hl IH]; [by inversion Hex|]. cbn [put_cidrs]. unfold then_ at 1. rewrite put_cidr_refused by done.
  destruct (Z.eqb_spec (ci_Family x) 2) as [E2|E2]; [by eexists|]. destruct (Z.eqb_spec (ci_Family x) 10) as [E10|E10]; [by eexists|].
  apply IH. by inversion Hex as [? ? [H|H]|]; subst.
Qed.

End Bytes.
Export Bytes.

(** ** The maps after any calls *)
Module Reached.

(** A call with what the kernel does during it. *)
Inductive map_op : Type :=
| OpPopulate (K : BpfKernel) (cg : Z) (allow : list AllowKey) (allowCIDRs : list AllowCIDR) (deny : list AllowKey) (denyCIDRs : list AllowCIDR) (dd : bool)
| OpCleanup (K : BpfKernel) (cg : Z)
| OpAdd (K : BpfKernel) (cg : Z) (k : AllowKey)
| OpRemove (cg : Z) (k : AllowKey).

Definition map_step (c : Collection) (o : map_op) : Collection :=
  match o with
  | OpPopulate K cg a ac d dc dd => (PopulateAllowlist K cg a ac d dc dd c).2
  | OpCleanup K cg => (CleanupAllowlist K cg c).2
  | OpAdd K cg k => (AddTemporaryAllowRule K cg k c).2
  | OpRemove cg k => RemoveTemporaryAllowRule cg k c
  end.

(** The collection of a program just loaded, after some calls. *)
Definition maps_run (ops : list map_op) : Collection := fold_left map_step ops no_maps.

(** Addresses of prefixes are arrays of sixteen bytes. *)
Definition op_ok (o : map_op) : Prop :=
  match o with
  | OpPopulate _ _ _ ac _ dc _ => Forall (fun c => length (ci_Addr c) = 16%nat) (ac ++ dc)
  | _ => True
  end.

Record no_prefixes (c : Collection) : Prop := mkNoPrefixes {
  np_4a : lpm4_allow c = ∅; np_6a : lpm6_allow c = ∅; np_4d : lpm4_deny c = ∅; np_6d : lpm6_deny c = ∅
}.

Lemma empty_difference (x : gset (list Z)) : ∅ ∖ x = ∅.
Proof. apply leibniz_equiv. set_solver. Qed.

(** Calls that leave the tries empty. *)
Definition trie_free (f : map_call) : Prop := forall c, no_prefixes c -> no_prefixes (f c).2.

Lemma then_trie_free f g : trie_free f -> trie_free g -> trie_free (then_ f g).
Proof. intros Hf Hg c Hc. unfold then_. specialize (Hf c Hc). destruct (f c) as [[?|?] c']; [by apply Hg|done]. Qed.

Lemma clear_trie_free K n off cg : trie_free (clear_cgroup K n off cg).
Proof.
  intros c [H1 H2 H3 H4]. unfold clear_cgroup.
  destruct n; split; cbn [snd get_map set_map lpm4_allow lpm6_allow lpm4_deny lpm6_deny]; rewrite ?H1, ?H2, ?H3, ?H4; first [done|apply empty_difference].
Qed.

Lemma put_trie_free K n sz key : n = MAllow \/ n = MDeny -> trie_free (put K n sz key).
Proof.
  intros Hn c Hc. unfold put. destruct (negb _); [done|]. destruct (bk_put K _ key); [|done]. destruct Hc. by destruct Hn as [-> | ->].
Qed.

Lemma put_keys_trie_free K n cg l : n = MAllow \/ n = MDeny -> trie_free (put_keys K n cg l).
Proof. intros Hn. induction l as [|k l IH]; [by intros c|]. apply then_trie_free; [by apply put_trie_free|done]. Qed.

Lemma put_cidrs_trie_free K n4 n6 cg l : Forall (fun c => length (ci_Addr c) = 16%nat) l -> trie_free (put_cidrs K n4 n6 cg l).
Proof. intros Hl c Hc. by rewrite put_cidrs_unchanged. Qed.

Lemma put_default_trie_free K cg dd : trie_free (put_default K cg dd).
Proof. intros c [H1 H2 H3 H4]. unfold put_default. by destruct (bk_flag K _ cg). Qed.

Lemma map_step_no_prefixes c o : op_ok o -> no_prefixes c -> no_prefixes (map_step c o).
Proof.
  intros Ho. revert c. change (trie_free (fun c => (Ok tt, map_step c o))). destruct o as [K cg a ac d dc dd|K cg|K cg k|cg k]; cbn [map_step].
  - cbn [op_ok] in Ho. apply Forall_app in Ho as [Hac Hdc].
    assert (trie_free (PopulateAllowlist K cg a ac d dc dd)) as H; [|exact H].
    repeat apply then_trie_free; auto using clear_trie_free, put_keys_trie_free, put_cidrs_trie_free, put_default_trie_free.
  - assert (trie_free (CleanupAllowlist K cg)) as H; [|exact H]. repeat apply then_trie_free; auto using clear_trie_free. by intros c [].
  - assert (trie_free (AddTemporaryAllowRule K cg k)) as H; [|exact H]. apply put_trie_free. by left.
  - by intros c [].
Qed.

Lemma maps_run_no_prefixes ops : Forall op_ok ops -> no_prefixes (maps_run ops).
Proof.
  unfold maps_run. assert (no_prefixes no_maps) as H by done. revert H. generalize no_maps.
  intros c Hc Hops. revert c Hc. induction Hops as [|o ops Ho Hops IH]; intros c Hc; cbn; [done|]. apply IH. by apply map_step_no_prefixes.
Qed.

Lemma lpm_lookup_empty n d : lpm_lookup n d ∅ = false.
Proof. unfold lpm_lookup. by rewrite elements_empty. Qed.

Lemma listed_exact exact i p : listed exact ∅ ∅ i p = true <-> allow_key_bytes i p ∈ exact \/ p <> 0 /\ allow_key_bytes i 0 ∈ exact.
Proof.
  unfold listed. rewrite !lpm_lookup_empty. cbn [orb]. destruct (bool_decide_reflect (allow_key_bytes i p ∈ exact)); [naive_solver|].
  destruct (Z.eqb_spec p 0); cbn [negb andb].
  - destruct (in_family i =? 2), (in_family i =? 10); naive_solver.
  - destruct (bool_decide_reflect (allow_key_bytes i 0 ∈ exact)); [naive_solver|]. destruct (in_family i =? 2), (in_family i =? 10); naive_solver.
Qed.

(** The keys of the other cgroups. *)
Definition others (cg : Z) (m : gset (list Z)) : gset (list Z) := m ∖ filter (fun key => key_cgroup 0 key = cg) m.

Lemma others_elem cg k m : key_ok k -> marshal_key k ∈ others cg m <-> marshal_key k ∈ m /\ ak_CgroupID k <> cg.
Proof. intros Hk. unfold others. rewrite elem_of_difference, elem_of_filter, key_cgroup_marshal by done. naive_solver. Qed.

Lemma others_size cg m : (size (others cg m) <= size m)%nat.
Proof. apply subseteq_size. unfold others. set_solver. Qed.

Lemma clear_complete K n cg c : undisturbed K -> clear_cgroup K n 0 cg c = (Ok tt, set_map n (others cg (get_map n c)) c).
Proof. intros HK. unfold clear_cgroup. by rewrite (ud_aborts K HK), (ud_visits K HK). Qed.

(** An entry for the destination, for its protocol or for all, for its port or, as the comments have it,
    for all. *)
Definition names (l : list AllowKey) (i : ctx_info) (p : Z) : Prop :=
  exists k, k ∈ l /\ ak_Family k = in_family i /\ (ak_Protocol k = p \/ ak_Protocol k = 0) /\ (ak_Dport k = in_dport i \/ ak_Dport k = 0) /\
            ak_Addr k = addr16 (in_addr i).

(** The port is given. *)
Definition ports_given (l : list AllowKey) : Prop := Forall (fun k => ak_Dport k <> 0) l.

Lemma refilled_elem cg l m i p : 0 <= cg < 2 ^ 64 -> Forall key_ok l -> info_ok i ->
  allow_key_bytes i p ∈ retargeted cg l ∪ others cg m <->
  in_cgroup i = cg /\ (exists k, k ∈ l /\ with_cgroup k cg = lookup_key i p) \/ in_cgroup i <> cg /\ allow_key_bytes i p ∈ m.
Proof.
  intros Hcg Hl Hi. rewrite lookup_key_bytes, elem_of_union, retargeted_elem, others_elem by auto using lookup_key_ok. cbn [lookup_key ak_CgroupID]. naive_solver.
Qed.

Lemma names_keys cg l i p : in_cgroup i = cg -> p = 6 \/ p = 17 -> ports_given l ->
  names l i p <-> (exists k, k ∈ l /\ with_cgroup k cg = lookup_key i p) \/ p <> 0 /\ exists k, k ∈ l /\ with_cgroup k cg = lookup_key i 0.
Proof.
  intros Hcg Hp Hports. unfold names, with_cgroup, lookup_key. unfold ports_given in Hports. rewrite Forall_forall in Hports. split.
  - intros (k & Hk & Ef & Ep & [Ed|Ed] & Ea); [|by destruct (Hports k Hk)].
    destruct Ep as [Ep|Ep]; [left|right; split; [lia|]]; exists k; by rewrite Ef, Ep, Ed, Ea, Hcg.
  - intros [(k & Hk & [= Hc Ef Ep Ed Ea])|(_ & k & Hk & [= Hc Ef Ep Ed Ea])]; exists k; auto 6.
Qed.

Lemma listed_refilled cg l m i p : 0 <= cg < 2 ^ 64 -> Forall key_ok l -> ports_given l -> info_ok i -> p = 6 \/ p = 17 ->
  listed (retargeted cg l ∪ others cg m) ∅ ∅ i p = true <->
  in_cgroup i = cg /\ names l i p \/ in_cgroup i <> cg /\ listed m ∅ ∅ i p = true.
Proof.
  intros Hcg Hl Hports Hi Hp. rewrite !listed_exact, !refilled_elem by done. destruct (decide (in_cgroup i = cg)) as [E|E]; [|naive_solver].
  rewrite (names_keys cg) by done. naive_solver.
Qed.

End Reached.
Export Reached.

(** ** Events *)
Module Delivered.
Section Events.
Context {U : UnicodeCase} {CO : CaseOrbits} `{L : Libraries}.

(** An IPv4 destination. *)
Record ipv4 (i : ctx_info) : Prop := mkIpv4 { v4_family : in_family i = 2; v4_length : length (in_addr i) = 4%nat; v4_bytes : Forall byte_range (in_addr i) }.

Lemma four {A} (l : list A) : length l = 4%nat -> exists a b c d, l = [a; b; c; d].
Proof. destruct l as [|a [|b [|c [|d [|]]]]]; try done. intros _. by exists a, b, c, d. Qed.

(** The bytes of the program's event read back as the destination, the process and the cookie. *)
Lemma collect_ipv4 junk ts cookie pid tgid i p blocked : info_ok i -> ipv4 i -> (33 <= length junk)%nat ->
  0 <= cookie < 2 ^ 64 -> 0 <= pid < 2 ^ 32 ->
  exists ev, collect (emit_event junk ts cookie pid tgid i p blocked) = Some ev /\
    ce_Cookie ev = cookie /\ ce_PID ev = pid /\ ce_Family ev = 2 /\ ce_Protocol ev = p /\ ce_Dport ev = in_dport i /\
    extractDstIP ev = Some (in_addr i).
Proof.
  intros [Hcg Hd] [Hf Hl Hb] Hj Hck Hpid. destruct i as [cg fam dport addr]. cbn [in_cgroup in_family in_dport in_addr] in *. subst fam.
  destruct (four addr Hl) as (a & b & c & d & ->). do 6 (destruct junk as [|? junk]; [cbn in Hj; lia|]). do 12 (destruct junk as [|? junk]; [cbn in Hj; lia|]).
  eexists. split; [reflexivity|]. split; [exact (le_num_id 8 cookie Hck)|]. split; [exact (le_num_id 4 pid Hpid)|]. split; [reflexivity|].
  split; [reflexivity|]. split; [exact (le_num_id 2 dport Hd)|].
  rewrite !Forall_cons in Hb. destruct Hb as (Ha & Hb & Hc & Hd' & _). unfold byte_range in *.
  change (Some [Z.land (le_num [a; b; c; d]) 255; Z.land (Z.shiftr (le_num [a; b; c; d]) 8) 255;
    Z.land (Z.shiftr (le_num [a; b; c; d]) 16) 255; Z.land (Z.shiftr (le_num [a; b; c; d]) 24) 255] = Some [a; b; c; d]).
  change 255 with (Z.ones 8). rewrite !Z.land_ones, !Z.shiftr_div_pow2 by lia. cbn [le_num].
  repeat f_equal; div_lia.
Qed.

(** What waits for an approver is the event's own destination. *)
Lemma waiting_event sys ev f cookie ce f1 : ProcessEvent_start sys ev f = (Waiting cookie ce, f1) ->
  cookie = ce_Cookie ev /\ pf_approver f1 = true /\ ne_Family ce = ce_Family ev /\ ne_Protocol ce = protocol_name (ce_Protocol ev) /\
  ne_DstPort ce = ce_Dport ev /\ ne_DstIP ce = extractDstIP ev.
Proof.
  unfold ProcessEvent_start, buildConnectionEvent. destruct (resolveHost sys (extractDstIP ev) f) as [host fa].
  destruct (getProcessInfo sys (ce_PID ev) fa) as [info fb]. destruct (pf_engine fb) as [e|]; [|done].
  destruct (policy_decision sys e _ fb) as [r fc]. set (ne := decided _ _ _).
  assert (Happ : forall fd, handleApprove_start ev ne fd = (Waiting cookie ce, f1) -> cookie = ce_Cookie ev /\ pf_approver f1 = true /\ ce = ne).
  { intros fd. unfold handleApprove_start. destruct (pf_approver fd) eqn:Ea; [|done]. cbn. intros [= <- <- <-]. done. }
  intros H. assert (exists fd, handleApprove_start ev ne fd = (Waiting cookie ce, f1)) as [fd Hfd].
  { destruct (r_Decision r ==? DecisionAllow); [done|]. destruct (r_Decision r ==? DecisionDeny); [done|]. destruct (r_Decision r ==? DecisionAudit); [done|].
    destruct (r_Decision r ==? DecisionAllowOnceThenApprove).
    - destruct (bool_decide _); [by exists fc|done].
    - destruct (r_Decision r ==? DecisionApprove); [by exists fc|done]. }
  destruct (Happ fd Hfd) as (-> & Hap & ->). done.
Qed.

End Events.
End Delivered.
Export Delivered.

(** ** What the kernel lets through *)
Module KernelPromises.

(** The maps have room for the endpoints. *)
Definition fits (allow deny : list AllowKey) (c : Collection) : Prop :=
  (size (allowlist c) + length allow <= max_entries)%nat /\ (size (denylist c) + length deny <= max_entries)%nat /\
  (size (default_deny c) < max_entries)%nat.

Lemma populate_exact K cg allow deny dd c : undisturbed K -> 0 <= cg < 2 ^ 64 -> Forall key_ok allow -> Forall key_ok deny -> no_prefixes c ->
  fits allow deny c ->
  PopulateAllowlist K cg allow [] deny [] dd c =
    (Ok tt, mkCollection (retargeted cg allow ∪ others cg (allowlist c)) (retargeted cg deny ∪ others cg (denylist c))
              (<[cg := if dd then 1 else 0]> (default_deny c)) ∅ ∅ ∅ ∅).
Proof.
  intros HK Hcg Ha Hd [H1 H2 H3 H4] (Hfa & Hfd & Hff). unfold PopulateAllowlist, then_.
  assert (Hclear : forall n, get_map n c = ∅ -> clear_cgroup K n 4 cg c = (Ok tt, c)).
  { intros n Hn. unfold clear_cgroup. by rewrite (ud_aborts K HK), (ud_visits K HK), Hn, empty_difference, <- Hn, set_get. }
  rewrite (Hclear MLpm4Allow H1), (Hclear MLpm6Allow H2), !(clear_complete K _ cg) by done.
  pose proof (others_size cg (allowlist c)). pose proof (others_size cg (denylist c)).
  rewrite (put_keys_ok K MAllow) by (done || cbn; lia). rewrite (put_keys_ok K MDeny) by (done || cbn; lia). cbn [put_cidrs done_].
  unfold put_default. cbn [default_deny set_map]. rewrite (ud_flag K HK) by done.
  rewrite map_filter_id by (intros; cbn; set_solver). cbn. by rewrite H1, H2, H3, H4.
Qed.

Lemma denied_true c i p : denied c i p = true <->
  is_denied c i p = true \/ is_default_deny c (in_cgroup i) = true /\ allow c i p <> true.
Proof.
  unfold denied. destruct (is_denied c i p); [naive_solver|]. rewrite andb_true_iff, negb_true_iff, not_true_iff_false. naive_solver.
Qed.

(** C20. After endpoints, each with its port, were loaded for a cgroup, whatever was loaded, approved,
    evicted or cleaned up before: if the maps have room for them and the kernel neither refuses an
    update nor gives up an iteration of this call, it is loaded, and the kernel refuses a connection of that cgroup exactly
    when an endpoint on the deny list names its destination, or when the default is to deny and none on
    the allow list does; the connections of other cgroups are decided as before. *)
Theorem kernel_enforces_maps K ops cg allow deny dd : undisturbed K -> Forall op_ok ops -> 0 <= cg < 2 ^ 64 ->
  Forall key_ok allow -> Forall key_ok deny -> ports_given allow -> ports_given deny -> fits allow deny (maps_run ops) ->
  let c := maps_run ops in
  exists c', PopulateAllowlist K cg allow [] deny [] dd c = (Ok tt, c') /\
  forall i p, info_ok i -> p = 6 \/ p = 17 ->
    if decide (in_cgroup i = cg)
    then denied c' i p = true <-> names deny i p \/ dd = true /\ ~ names allow i p
    else denied c' i p = denied c i p.
Proof.
  intros HK Hops Hcg Ha Hd Hpa Hpd Hfit. cbv zeta. pose proof (maps_run_no_prefixes ops Hops) as Hnp. rewrite (populate_exact _ _ _ _ _ _ HK Hcg Ha Hd Hnp Hfit).
  eexists. split; [done|]. intros i p Hi Hp. set (c := maps_run ops) in *. destruct Hnp as [H1 H2 H3 H4].
  destruct (decide (in_cgroup i = cg)) as [E|E]; [|apply eq_true_iff_eq]; rewrite ?denied_true;
    unfold is_denied, BpfProgram.allow, is_default_deny; cbn [denylist allowlist default_deny lpm4_allow lpm6_allow lpm4_deny lpm6_deny];
    rewrite ?H1, ?H2, ?H3, ?H4, !listed_refilled by done.
  - rewrite E, lookup_insert_eq. destruct dd; cbn; intuition congruence.
  - rewrite lookup_insert_ne by done. tauto.
Qed.

(** *** What an approval opens *)

Definition same_destination (cg : Z) (i : ctx_info) (p : Z) (i' : ctx_info) (p' : Z) : Prop :=
  in_cgroup i' = cg /\ in_family i' = in_family i /\ in_dport i' = in_dport i /\ addr16 (in_addr i') = addr16 (in_addr i) /\ p' = p.

#[export] Instance same_destination_dec cg i p i' p' : base.Decision (same_destination cg i p i' p').
Proof. unfold same_destination. apply _. Defined.

Definition approved_key (cg : Z) (i : ctx_info) (p : Z) : AllowKey := mkAllowKey cg (in_family i) p (in_dport i) (addr16 (in_addr i)).

Lemma approved_key_iff cg i p i' p' : lookup_key i' p' = approved_key cg i p <-> same_destination cg i p i' p'.
Proof. unfold lookup_key, approved_key, same_destination. split; [by intros [= -> -> -> -> ->]|]. by intros (-> & -> & -> & -> & ->). Qed.

(** One more key on the allow list, and [gone] no longer on it. *)
Definition without (gone : gset (list Z)) (c : Collection) : Collection := set_allowlist c (allowlist c ∖ gone).

Lemma without_none c : without ∅ c = c.
Proof. unfold without, set_allowlist. rewrite difference_empty_L. by destruct c. Qed.

Lemma denied_with_key c cg i p i' p' : no_prefixes c -> 0 <= cg < 2 ^ 64 -> info_ok i -> info_ok i' -> p = 6 \/ p = 17 -> p' = 6 \/ p' = 17 ->
  denied (set_allowlist c ({[marshal_key (approved_key cg i p)]} ∪ allowlist c)) i' p' =
  if decide (same_destination cg i p i' p') then is_denied c i' p' else denied c i' p'.
Proof.
  intros [H1 H2 H3 H4] Hcg Hi Hi' Hp Hp'. set (key := marshal_key _).
  assert (Hk : key_ok (approved_key cg i p)) by (destruct Hi as [Hc Hd]; split; [done|done|apply addr16_length]).
  assert (Hm : forall x, allow_key_bytes i' x ∈ ({[key]} : gset (list Z)) ∪ allowlist c <-> lookup_key i' x = approved_key cg i p \/ allow_key_bytes i' x ∈ allowlist c).
  { intros x. rewrite elem_of_union, elem_of_singleton, lookup_key_bytes. unfold key. split; intros [E|E]; auto; left.
    - by apply marshal_key_inj in E; [|apply lookup_key_ok|].
    - by rewrite E. }
  assert (H0 : lookup_key i' 0 <> approved_key cg i p) by (intros [= _ _ E _ _]; lia).
  assert (Hl : allow (set_allowlist c ({[key]} ∪ allowlist c)) i' p' = true <-> same_destination cg i p i' p' \/ allow c i' p' = true).
  { unfold BpfProgram.allow. cbn [set_allowlist set_map allowlist lpm4_allow lpm6_allow]. rewrite H1, H2, !listed_exact, !Hm, approved_key_iff. tauto. }
  apply eq_true_iff_eq. rewrite denied_true.
  change (is_denied (set_allowlist c ({[key]} ∪ allowlist c)) i' p') with (is_denied c i' p').
  change (is_default_deny (set_allowlist c ({[key]} ∪ allowlist c)) (in_cgroup i')) with (is_default_deny c (in_cgroup i')).
  rewrite Hl. destruct (decide _); [tauto|]. rewrite denied_true. tauto.
Qed.

Section Approvals.
Context {U : UnicodeCase} {CO : CaseOrbits} `{L : Libraries}.

Lemma protocol_number_name p : p = 6 \/ p = 17 -> protocol_number (protocol_name p) = p.
Proof. by intros [-> | ->]. Qed.

Lemma granted_rule K cg ev ce i p c st b : 0 < cg < 2 ^ 64 -> info_ok i -> ipv4 i -> p = 6 \/ p = 17 ->
  ce_Family ev = 2 -> ce_Protocol ev = p -> ce_Dport ev = in_dport i -> extractDstIP ev = Some (in_addr i) ->
  ne_Family ce = ce_Family ev -> ne_Protocol ce = protocol_name (ce_Protocol ev) -> ne_DstPort ce = ce_Dport ev -> ne_DstIP ce = extractDstIP ev ->
  (addTemporaryAllowRule K cg (decided ce DecisionAllow b) (c, st)).1 =
    match bk_put K (allowlist c) (marshal_key (approved_key cg i p)) with
    | None => c
    | Some gone => set_allowlist (without gone c) ({[marshal_key (approved_key cg i p)]} ∪ allowlist (without gone c))
    end.
Proof.
  intros Hcg Hi [Hf Hlen _] Hp E1 E2 E3 E4 N1 N2 N3 N4. unfold addTemporaryAllowRule. destruct (Z.eqb_spec cg 0); [lia|].
  assert (Hk : temporary_key (decided ce DecisionAllow b) = mkAllowKey 0 2 p (in_dport i) (addr16 (in_addr i))).
  { unfold temporary_key, decided. cbn [ne_DstIP ne_Family ne_Protocol ne_DstPort]. rewrite N1, N2, N3, N4, E1, E2, E3, E4, (protocol_number_name p Hp).
    by destruct (four (in_addr i) Hlen) as (x & y & z & t & ->). }
  unfold AddTemporaryAllowRule. rewrite Hk. cbn [fst snd]. unfold put.
  replace (with_cgroup _ cg) with (approved_key cg i p) by (unfold approved_key; by rewrite Hf).
  rewrite marshal_key_length, Z.eqb_refl; [|destruct Hi as [Hc Hd]; split; [cbn; lia|done|apply addr16_length]].
  cbn [negb get_map]. by destruct (bk_put K _ _).
Qed.

(** C21. A connection the kernel reported waits in the filter for an approver.  However the wait ends,
    the kernel's maps change only when the answer is to allow; then, unless the kernel refuses the
    entry, the connections to the same address, port and protocol from the cgroup are let through
    unless the deny list names them, and every other connection is decided as before, less what the
    kernel evicted from the allow list to make room. *)
Theorem approval_opens_destination K sys junk ts cookie pid tgid i p blocked ev f ce f1 ops cg st defaultOnTimeout w f2 ch d n f3 :
  info_ok i -> ipv4 i -> p = 6 \/ p = 17 -> (33 <= length junk)%nat -> 0 <= cookie < 2 ^ 64 -> 0 <= pid < 2 ^ 32 ->
  Forall op_ok ops -> 0 < cg < 2 ^ 64 ->
  collect (emit_event junk ts cookie pid tgid i p blocked) = Some ev ->
  ProcessEvent_start sys ev f = (Waiting cookie ce, f1) ->
  pf_pending f2 !! cookie = Some (mkPendingConn ce ch) ->
  ProcessEvent_end defaultOnTimeout cookie w f2 = Some ((d, n), f3) ->
  let c := maps_run ops in
  let c' := (holder_notified K cg n (c, st)).1 in
  if decide (w = WakeAnswer /\ ch = Some DecisionAllow)
  then d = DecisionApprove /\
    match bk_put K (allowlist c) (marshal_key (approved_key cg i p)) with
    | None => c' = c
    | Some gone => forall i' p', info_ok i' -> p' = 6 \/ p' = 17 ->
        denied c' i' p' = if decide (same_destination cg i p i' p') then is_denied c i' p' else denied (without gone c) i' p'
    end
  else c' = c.
Proof.
  intros Hi H4 Hp Hj Hck Hpid Hops Hcg Hcol Hstart Hpend Hend. cbv zeta.
  destruct (collect_ipv4 junk ts cookie pid tgid i p blocked Hi H4 Hj Hck Hpid) as (ev' & Hcol' & E0 & E1 & E2 & E3 & E4 & E5).
  rewrite Hcol in Hcol'. injection Hcol' as <-. destruct (waiting_event _ _ _ _ _ _ Hstart) as (_ & _ & N1 & N2 & N3 & N4).
  unfold ProcessEvent_end in Hend. rewrite Hpend in Hend. cbn [pn_Event pn_ch] in Hend. destruct w.
  - destruct ch as [a|]; [|done]. destruct (bool_decide_reflect (a = DecisionAllow)) as [->|Ha].
    + rewrite decide_True by done. injection Hend as <- <- <-. split; [done|]. unfold holder_notified. cbn [fold_left].
      rewrite (granted_rule K cg ev ce i p) by done. destruct (bk_put K _ _) as [gone|]; [|done]. intros i' p' Hi' Hp'.
      rewrite denied_with_key; [done| |lia|done|done|done|done]. by destruct (maps_run_no_prefixes ops Hops).
    + rewrite decide_False by naive_solver. by injection Hend as <- <- <-.
  - rewrite decide_False by naive_solver. destruct (defaultOnTimeout !=? DecisionAllow); by injection Hend as <- <- <-.
  - rewrite decide_False by naive_solver. destruct (pf_closed f2); [|done]. by injection Hend as <- <- <-.
Qed.

End Approvals.

(** *** A sample monitor *)
Section Sample.
#[local] Existing Instance latin_case.
#[local] Existing Instance ascii_orbits.
#[local] Existing Instance small_libraries.

Definition web (addr : list Z) (port : Z) : AllowKey := mkAllowKey 0 2 0 port (addr16 addr).
Definition to (addr : list Z) (port : Z) : ctx_info := mkInfo 77 2 port addr.

(** A kernel that follows its documentation: a map with room takes a key, a full one evicts. *)
Definition plain_kernel : BpfKernel :=
  mkKernel (fun m _ => if Nat.ltb (size m) max_entries then Some ∅ else Some (list_to_set (take 1 (base.elements m))))
    (fun m _ => if Nat.ltb (size m) max_entries then Some ∅ else Some (list_to_set (take 1 (map_to_list m).*1)))
    (fun m => m) (fun _ => false).

Lemma plain_kernel_undisturbed : undisturbed plain_kernel.
Proof. split; [| |done|done]; intros m k Hm; unfold plain_kernel, bk_put, bk_flag; by rewrite (proj2 (Nat.ltb_lt _ _) Hm). Qed.

Lemma kernel_enforces_maps_witness :
  let c := maps_run [OpPopulate plain_kernel 77 [web [10; 0; 0; 1] 80] [] [] [] false; OpAdd plain_kernel 77 (web [10; 0; 0; 2] 80)] in
  exists c', PopulateAllowlist plain_kernel 77 [web [10; 1; 2; 3] 443] [] [web [10; 9; 9; 9] 443] [] true c = (Ok tt, c') /\
  denied c' (to [10; 9; 9; 9] 443) 6 = true.
Proof.
  cbv zeta.
  destruct (kernel_enforces_maps plain_kernel [OpPopulate plain_kernel 77 [web [10; 0; 0; 1] 80] [] [] [] false; OpAdd plain_kernel 77 (web [10; 0; 0; 2] 80)] 77
    [web [10; 1; 2; 3] 443] [web [10; 9; 9; 9] 443] true) as (c' & E & H);
    [apply plain_kernel_undisturbed|repeat constructor|lia|repeat constructor; cbn; lia|repeat constructor; cbn; lia|repeat constructor; done|repeat constructor; done| |].
  { split; [|split]; first [apply Nat.leb_le|apply Nat.ltb_lt]; vm_compute; reflexivity. }
  exists c'. split; [exact E|]. specialize (H (to [10; 9; 9; 9] 443) 6). destruct (decide _) as [|n]; [|by destruct n].
  apply H; [split; cbn; lia|by left|]. left. exists (web [10; 9; 9; 9] 443). split; [left|]. repeat split; [by right|by left].
Defined.

Definition quiet_system : System := mkSystem (fun _ => Some "curl") (fun _ => Some "/usr/bin/curl") (fun _ => None) (fun _ => LookupError).
Definition ask_filter : ProcessFilter := SetOnApprovalNeeded true (NewProcessFilter (Some (mkEngine DecisionApprove []))).
Definition sample_event : ConnectEvent := copyToEvent (emit_event (replicate 33 0) 5 9 7 7 (to [10; 1; 2; 3] 443) 6 true).

Lemma approval_opens_destination_witness :
  let c := maps_run [OpPopulate plain_kernel 77 [] [] [] [] true] in
  exists ce f1 n f3, ProcessEvent_start quiet_system sample_event ask_filter = (Waiting 9 ce, f1) /\
    ProcessEvent_end DecisionDeny 9 WakeAnswer (ApproveConnection 9 f1).2 = Some ((DecisionApprove, n), f3) /\
    denied c (to [10; 1; 2; 3] 443) 6 = true /\
    denied (holder_notified plain_kernel 77 n (c, no_stats)).1 (to [10; 1; 2; 3] 443) 6 = false /\
    denied (holder_notified plain_kernel 77 n (c, no_stats)).1 (to [10; 1; 2; 3] 80) 6 = denied c (to [10; 1; 2; 3] 80) 6.
Proof.
  cbv zeta. destruct (ProcessEvent_start quiet_system sample_event ask_filter) as [o f1] eqn:Es. vm_compute in Es. injection Es as <- <-.
  do 4 eexists. split; [reflexivity|]. match goal with |- ProcessEvent_end _ _ _ ?g = _ /\ _ => set (f2 := g) end.
  split; [vm_compute; reflexivity|]. split; [by vm_compute|]. split; [by vm_compute|].
  eassert (H : _); [eapply (approval_opens_destination plain_kernel quiet_system (replicate 33 0) 5 9 7 7 (to [10; 1; 2; 3] 443) 6 true sample_event ask_filter _ _
    [OpPopulate plain_kernel 77 [] [] [] [] true] 77 no_stats DecisionDeny WakeAnswer f2); [split; cbn; lia|split; [done|done|by repeat (constructor; [unfold byte_range; lia|])]|
    by left|cbn; lia|lia|lia|apply Forall_singleton, Forall_nil_2|lia|by vm_compute|vm_compute; reflexivity|vm_compute; reflexivity|vm_compute; reflexivity]|].
  cbv zeta in H. rewrite decide_True in H by done. destruct H as [_ H]. match type of H with match ?x with _ => _ end => replace x with (Some (∅ : gset (list Z))) in H by (symmetry; vm_compute; reflexivity) end.
  specialize (H (to [10; 1; 2; 3] 80) 6). rewrite without_none in H.
  rewrite decide_False in H by (by intros (_ & _ & ? & _)). apply H; [split; cbn; lia|by left].
Defined.

(** *** Where the kernel does not do what is said *)

(** A port of zero is said to stand for any port; no connection to a real port meets the entry, so
    the loopback addresses allowed this way are refused under a default of denial, and an address
    denied on all ports is let through without one. *)
Example any_port_not_matched :
  let allowed := (PopulateAllowlist plain_kernel 77 [web [127; 0; 0; 1] 0] [] [] [] true no_maps).2 in
  let refused := (PopulateAllowlist plain_kernel 77 [] [] [web [10; 9; 9; 9] 0] [] false no_maps).2 in
  denied allowed (to [127; 0; 0; 1] 8080) 6 = true /\ denied refused (to [10; 9; 9; 9] 8080) 6 = false.
Proof. split; vm_compute; reflexivity. Qed.

(** The maps evict: with more endpoints than fit (here two), an address on the deny list gets
    through; and an iteration that gives up leaves the old entries in place. *)
Example evicted_deny_passes :
  let K := mkKernel (fun m _ => if Nat.ltb (size m) 2 then Some ∅ else Some (list_to_set (take 1 (base.elements m)))) (fun _ _ => Some ∅) (fun m => m) (fun _ => false) in
  let '(r, c) := PopulateAllowlist K 77 [] [] [web [10; 9; 9; 7] 80; web [10; 9; 9; 8] 80; web [10; 9; 9; 9] 80] [] false no_maps in
  r = Ok tt /\ (fun b => denied c (to [10; 9; 9; b] 80) 6) <$> [7; 8; 9] = [false; true; true].
Proof. vm_compute. done. Qed.

Example aborted_clear_keeps_old_entries :
  let K := mkKernel (fun _ _ => Some ∅) (fun _ _ => Some ∅) (fun _ => ∅) (fun _ => true) in
  let c := (PopulateAllowlist plain_kernel 77 [web [10; 0; 0; 1] 80] [] [] [] true no_maps).2 in
  let '(r, c') := PopulateAllowlist K 77 [] [] [] [] true c in
  r = Err (EIterate MLpm4Allow) /\ denied c' (to [10; 0; 0; 1] 80) 6 = false.
Proof. vm_compute. done. Qed.

(** A range of ports becomes port zero on its way into the maps. *)
Example port_range_lost : ak_Dport <$> me_deny (add_target no_entries (mkTarget "" "10.9.9.9" "" "8000-9000" "tcp" "deny")) = [0].
Proof. vm_compute. reflexivity. Qed.

(** IPv6 destinations are read four bytes too early, and the flag of a blocked connection from the
    middle of the address. *)
Definition v6_event : ConnectEvent :=
  copyToEvent (emit_event (replicate 33 0) 5 9 7 7 (mkInfo 77 10 443 [32; 1; 13; 184; 0; 1; 0; 2; 0; 3; 0; 4; 0; 5; 0; 6]) 6 true).

Example ipv6_destination_misread :
  extractDstIP v6_event = Some [0; 0; 0; 0; 32; 1; 13; 184; 0; 1; 0; 2; 0; 3; 0; 4] /\ ce_Blocked v6_event = 0.
Proof. split; vm_compute; reflexivity. Qed.

(** A monitor whose policy has one CIDR rule does not start. *)
Example cidr_policy_does_not_start :
  exists e, NewPolicyEngine (mkConfig "deny" [mkProcessConfig "p" (mkCriteria "curl" "" "" "" false) "" [mkTarget "" "" "10.0.0.0/8" "" "" "allow"] []] None) = Ok e /\
  (Monitor_Start plain_kernel 77 (mkMonitor (Some e) (NewProcessFilter (Some e)) no_maps false)).1 = false.
Proof. eexists. split; [vm_compute; reflexivity|]. vm_compute. reflexivity. Qed.

(** With a default of approval the kernel has let the connection through before the user is asked. *)
Example approve_not_held_by_kernel :
  let m := (Monitor_Start plain_kernel 77 (mkMonitor (Some (mkEngine DecisionApprove [])) ask_filter no_maps false)).2 in
  denied (mo_maps m) (to [10; 1; 2; 3] 443) 6 = false /\
  exists ce f, ProcessEvent_start quiet_system sample_event ask_filter = (Waiting 9 ce, f).
Proof. split; [vm_compute; reflexivity|]. do 2 eexists. vm_compute. reflexivity. Qed.

(** A process that executes another program under its old name keeps the path the filter saw first. *)
Example stale_path_after_exec :
  let '(_, f) := getProcessInfo quiet_system 7 ask_filter in
  let after := mkSystem (sys_comm quiet_system) (fun _ => Some "/tmp/curl") (sys_stat quiet_system) (sys_lookup quiet_system) in
  p_Path (getProcessInfo after 7 f).1 = "/usr/bin/curl".
Proof. vm_compute. reflexivity. Qed.

End Sample.

End KernelPromises.
Export KernelPromises.
