(* ===== verification/NetAclApprovalTheorems.v ===== *)
(** * Theorems on persisted rules and approvals

    [Ports]: a port prints as the port specification that means it.  [CommentLines]: what the comment
    before a rule does to the file.  [Persisted]: a permanent answer, written to the file and read
    back, decides the next connection, and exactly when it does not. *)

From Stdlib Require Import ZArith Lia Ascii String DecimalPos.
From stdpp Require Import base list strings gmap.
From S2P Require Import Prelude GoText GoNet GoStrings PolicyModel PolicyEngine NetGuards NetAcl NetAclEngine NetAclApproval NetAclTheorems.
Open Scope string_scope.
Open Scope list_scope.
Open Scope Z_scope.

(** ** Numerals *)
Module Ports.

Definition digit (b : Z) : Prop := 48 <= b <= 57.
Definition decimal (acc : Z) (l : list Z) : Z := fold_left (fun acc b => acc * 10 + (b - 48)) l acc.

Lemma uint_digits d : Forall digit (string_bytes (DecimalString.NilEmpty.string_of_uint d)).
Proof. induction d; cbn; constructor; try done; unfold digit; vm_compute; split; discriminate. Qed.

Lemma uint_value_acc d : forall a, decimal (Z.pos a) (string_bytes (DecimalString.NilEmpty.string_of_uint d)) = Z.pos (Pos.of_uint_acc d a).
Proof.
  unfold decimal. induction d; intros a; cbn [DecimalString.NilEmpty.string_of_uint string_bytes fold_left Pos.of_uint_acc]; [done|..];
    rewrite <- IHd; f_equal; unfold byte_of_char; cbn; lia.
Qed.

Lemma uint_value d : decimal 0 (string_bytes (DecimalString.NilEmpty.string_of_uint d)) = Z.of_N (Pos.of_uint d).
Proof.
  unfold decimal. induction d; cbn [DecimalString.NilEmpty.string_of_uint string_bytes fold_left Pos.of_uint]; [done|exact IHd|..];
    unfold byte_of_char; cbn [N_of_ascii Z.of_N]; apply uint_value_acc.
Qed.

Lemma FormatInt_pos p : exists l, string_bytes (FormatInt (Z.pos p)) = l /\ l <> [] /\ Forall digit l /\ decimal 0 l = Z.pos p.
Proof.
  unfold FormatInt. cbn [Z.to_int DecimalString.NilZero.string_of_int].
  assert (E : DecimalString.NilZero.string_of_uint (Pos.to_uint p) = DecimalString.NilEmpty.string_of_uint (Pos.to_uint p)).
  { destruct (Pos.to_uint p) eqn:Ep; [|done..]. pose proof (DecimalPos.Unsigned.of_to p) as H. by rewrite Ep in H. }
  rewrite E. eexists. split; [done|]. split; [|split; [apply uint_digits|by rewrite uint_value, DecimalPos.Unsigned.of_to]].
  intros H. pose proof (uint_value (Pos.to_uint p)) as Hv. rewrite H, DecimalPos.Unsigned.of_to in Hv. done.
Qed.

Lemma digit_graphic l : Forall digit l -> graphic l.
Proof. intros H. eapply Forall_impl; [exact H|]. unfold digit. lia. Qed.

Lemma contains_absent c l : c ∉ l -> contains [c] l = false.
Proof.
  induction l as [|b l IH]; [done|]. rewrite not_elem_of_cons. intros [Hb Hl]. cbn [contains starts_with].
  rewrite IH by done. by destruct (Z.eqb_spec c b).
Qed.

Lemma digit_not l c : Forall digit l -> ~ digit c -> c ∉ l.
Proof. rewrite Forall_forall. naive_solver. Qed.

(** What printing a port in range gives to the two parsers of port specifications. *)
Record printed_port (z : Z) (s : string) : Prop := mkPrinted {
  pr_trim : TrimSpace_string s = s; pr_nonempty : s <> ""; pr_star : s <> "*"; pr_dash : Contains s "-" = false;
  pr_value : Atoi s = Some z; pr_line : ch_nl ∉ string_bytes s
}.

Lemma port_printed z : 1 <= z <= 65535 -> printed_port z (FormatInt z).
Proof.
  intros Hz. destruct z as [|p|p]; [lia| |lia]. destruct (FormatInt_pos p) as (l & El & Hne & Hd & Hv).
  split.
  - apply TrimSpace_graphic. rewrite El. by apply digit_graphic.
  - intros E. by rewrite E in El.
  - intros E. rewrite E in El. change (string_bytes "*") with [42] in El. subst l. rewrite Forall_cons in Hd. destruct Hd as [[Hd _] _]. by vm_compute in Hd.
  - unfold Contains. rewrite El. change (string_bytes "-") with [45]. apply contains_absent. apply (digit_not _ _ Hd). unfold digit. lia.
  - unfold Atoi. rewrite El. destruct l as [|b r]; [done|]. rewrite Forall_cons in Hd. destruct Hd as [Hb Hr]. unfold digit in Hb.
    destruct (Z.eqb_spec b 43); [lia|]. destruct (Z.eqb_spec b 45); [lia|]. unfold decimal_value.
    assert (forallb (fun b => between 48 b 57) (b :: r) = true) as ->.
    { apply forallb_Forall. constructor; [unfold between; lia|]. eapply Forall_impl; [exact Hr|]. unfold digit, between. lia. }
    cbn [nonempty andb]. cbn [mbind option_bind]. unfold decimal in Hv. rewrite Hv. unfold min_int64, max_int64.
    destruct (Z.leb_spec (- 2 ^ 63) (Z.pos p)), (Z.leb_spec (Z.pos p) (2 ^ 63 - 1)); (done || lia).
  - rewrite El. apply (digit_not _ _ Hd). unfold digit, ch_nl. lia.
Qed.

Lemma parsePort_printed z s : 1 <= z <= 65535 -> printed_port z s -> parsePort s = Ok (z, z, false) /\ validatePortSpec s = Ok tt.
Proof.
  intros Hz [Ht Hn Hs Hd Hv _]. unfold parsePort, validatePortSpec, out_of_range. rewrite Ht, Hd, Hv, !bool_decide_eq_false_2 by done. cbn [of_option rbind orb].
  destruct (Z.ltb_spec z 1); [lia|]. destruct (Z.ltb_spec 65535 z); [lia|]. done.
Qed.

End Ports.
Export Ports.

(** ** Comments in the file *)
Module CommentLines.

(** A line that is neither blank nor a comment. *)
Definition significant (line : list Z) : bool :=
  match drop (count_leading ch_space line) line with [] => false | b :: _ => negb (b =? 35) end.

Definition lines (s : string) : list (list Z) := split_byte ch_nl (string_bytes s).
Definition uncommented (s : string) : list (list Z) := List.filter significant (lines s).

Lemma split_join c l : l <> [] -> Forall (fun x => c ∉ x) l -> split_byte c (join_bytes [c] l) = l.
Proof.
  intros Hne Hl. induction Hl as [|x l Hx Hl IH]; [done|]. destruct l as [|y l]; [by apply split_byte_none|].
  change (join_bytes [c] (x :: y :: l)) with (x ++ [c] ++ join_bytes [c] (y :: l)). cbn [app]. rewrite split_byte_app, split_byte_none by done.
  by rewrite IH.
Qed.

Lemma comment_insignificant n c : significant (replicate n ch_space ++ string_bytes "# " ++ c) = false.
Proof.
  unfold significant. assert (E : count_leading ch_space (replicate n ch_space ++ string_bytes "# " ++ c) = n).
  { induction n as [|n IH]; [done|]. cbn [replicate app count_leading]. by rewrite IH. }
  rewrite E, drop_app_length' by (by rewrite length_replicate). done.
Qed.

Lemma inject_significant name c ls : forall st, List.filter significant (inject_lines name c st ls) = List.filter significant ls.
Proof.
  induction ls as [|line ls IH]; intros st; [done|]. cbn [inject_lines]. unfold inject_line.
  set (insert := _ && starts_with (string_bytes "- ") (TrimSpace line)). rewrite List.filter_app, IH. destruct insert; cbn [app List.filter].
  - rewrite comment_insignificant. by destruct (significant line).
  - by destruct (significant line).
Qed.

Lemma inject_Forall (P : list Z -> Prop) name c ls : (forall n, P (replicate n ch_space ++ string_bytes "# " ++ c)) -> Forall P ls ->
  forall st, Forall P (inject_lines name c st ls).
Proof.
  intros Hc Hls. induction Hls as [|line ls Hl Hls IH]; intros st; [constructor|]. cbn [inject_lines]. unfold inject_line.
  set (insert := _ && starts_with (string_bytes "- ") (TrimSpace line)). apply Forall_app. split; [|apply IH].
  destruct insert; cbn [app]; repeat (constructor; [done|]); constructor.
Qed.

Lemma inject_nonempty name c st ls : ls <> [] -> inject_lines name c st ls <> [].
Proof. destruct ls as [|line ls]; [done|]. intros _. cbn [inject_lines]. unfold inject_line. set (insert := _ && starts_with (string_bytes "- ") (TrimSpace line)). by destruct insert. Qed.

Lemma split_byte_nonempty c l : split_byte c l <> [].
Proof. destruct l as [|b l]; cbn; [done|]. destruct (b =? c); [done|]. by destruct (split_byte c l). Qed.

Lemma lines_of_join ls : ls <> [] -> Forall (fun x => ch_nl ∉ x) ls -> Forall (Forall byte_range) ls -> lines (bytes_string (join_bytes [ch_nl] ls)) = ls.
Proof.
  intros Hne Hnl Hb. unfold lines. rewrite string_bytes_of; [by apply split_join|]. clear Hne Hnl. induction Hb as [|x ls Hx Hb IH]; [constructor|].
  destruct ls as [|y ls]; [done|]. change (join_bytes [ch_nl] (x :: y :: ls)) with (x ++ [ch_nl] ++ join_bytes [ch_nl] (y :: ls)).
  apply Forall_app. split; [done|]. apply Forall_app. split; [|done]. repeat constructor; by vm_compute.
Qed.

Lemma lines_no_nl s : Forall (fun x => ch_nl ∉ x) (lines s).
Proof. apply Forall_forall. intros x Hx. by apply split_byte_no_sep in Hx. Qed.

Lemma lines_bytes s : Forall (Forall byte_range) (lines s).
Proof. apply Forall_forall. intros x Hx. eapply split_byte_Forall; [|exact Hx]. apply string_bytes_range. Qed.

Lemma inject_uncommented content name comment : ch_nl ∉ string_bytes comment -> uncommented (injectComment content name comment) = uncommented content.
Proof.
  intros Hc. unfold uncommented, injectComment. fold (lines content).
  assert (Hsp : forall n (P : Z -> Prop), P ch_space -> Forall P (replicate n ch_space)) by (intros; by apply Forall_replicate).
  rewrite lines_of_join; [apply inject_significant|apply inject_nonempty, split_byte_nonempty| |]; apply inject_Forall.
  - intros n. rewrite !not_elem_of_app. split; [intros [H _]%elem_of_replicate; by vm_compute in H|]. split; [decide_vm|done].
  - apply lines_no_nl.
  - intros n. apply Forall_app. split; [apply Hsp; by vm_compute|]. apply Forall_app. split; [|apply string_bytes_range]. apply (string_bytes_range "# ").
  - apply lines_bytes.
Qed.

Lemma starts_with_subset p l : starts_with p l = true -> forall x, x ∈ p -> x ∈ l.
Proof.
  revert l. induction p as [|a p IH]; intros l H x Hx; [by apply not_elem_of_nil in Hx|]. destruct l as [|b l]; [done|]. cbn [starts_with] in H.
  apply andb_true_iff in H as [->%Z.eqb_eq H]. rewrite elem_of_cons in *. destruct Hx; eauto.
Qed.

Lemma contains_subset p l : contains p l = true -> forall x, x ∈ p -> x ∈ l.
Proof.
  induction l as [|b l IH]; cbn [contains]; intros H x Hx; apply orb_true_iff in H as [H|H]; eauto using starts_with_subset; try done.
  rewrite elem_of_cons. eauto.
Qed.

(** A name with a line break is on no line, so nothing is inserted for it. *)
Lemma inject_nothing name c ls a : ch_nl ∈ name -> Forall (fun x => ch_nl ∉ x) ls -> inject_lines name c (mkInject false false a) ls = ls.
Proof.
  intros Hn Hls. induction Hls as [|line ls Hl Hls IH]; [done|]. cbn [inject_lines]. unfold inject_line. cbn [in_process in_rules added orb].
  destruct (contains name line) eqn:E; [by destruct Hl; apply (contains_subset _ _ E)|]. rewrite andb_false_r. cbn [andb negb app]. by rewrite orb_false_r, IH.
Qed.

(** The comment of an approval never adds anything but a comment, whatever the process is called. *)
Lemma approval_comment_harmless content today r : ch_nl ∉ string_bytes today -> ch_nl ∉ string_bytes (FormatInt (rq_PID r)) ->
  uncommented (injectComment content (rq_ProcessName r) (persist_comment today r)) = uncommented content.
Proof.
  intros Ht Hp. destruct (decide (ch_nl ∈ string_bytes (rq_ProcessName r))) as [Hn|Hn].
  - unfold uncommented, injectComment. fold (lines content). rewrite (inject_nothing _ _ _ _ Hn (lines_no_nl content)).
    f_equal. apply lines_of_join; [apply split_byte_nonempty|apply lines_no_nl|apply lines_bytes].
  - apply inject_uncommented. unfold persist_comment. rewrite !string_bytes_app, !not_elem_of_app. split_and!; try done; decide_vm.
Qed.

End CommentLines.
Export CommentLines.

(** ** Permanent answers *)
Module Persisted.

(** *** What is asked of the libraries *)

Definition plain (s : string) : Prop := ch_nl ∉ string_bytes s.

Definition target_strings (t : NetworkTarget) : list string := [t_Host t; t_IP t; t_CIDR t; t_Port t; t_Protocol t; t_Decision t].
Definition criteria_strings (c : ProcessMatchCriteria) : list string := [c_ProcessName c; c_Path c; c_BundleID c; c_PackageFamilyName c].
Definition child_strings (cc : ChildConfig) : list string := cc_Name cc :: criteria_strings (cc_Match cc) ++ (cc_Rules cc ≫= target_strings).
Definition process_strings (pc : ProcessConfig) : list string :=
  pc_Name pc :: pc_Default pc :: criteria_strings (pc_Match pc) ++ (pc_Rules pc ≫= target_strings) ++ (pc_Children pc ≫= child_strings).

(** No string of the configuration has a line break. *)
Definition plain_config (c : Config) : Prop := plain (cf_Default c) /\ Forall plain (cf_Processes c ≫= process_strings).

(** The encoder writes what the decoder reads; comment lines and blank lines between the lines of a
    document without multi-line strings do not matter; and the wrapper, whose only key is
    [network_acl], refuses the keys of an unwrapped document. *)
Class AclYamlLaws {Y : AclYaml} : Prop := {
  yaml_encodes c : plain_config c -> exists body, yaml_encode c = Some body;
  yaml_reads_back c body text : plain_config c -> cf_ApprovalUI c = None -> yaml_encode c = Some body ->
    uncommented text = uncommented body -> yaml_direct text = Some c;
  yaml_wrapper_strict c body text : plain_config c -> cf_Processes c <> [] -> yaml_encode c = Some body ->
    uncommented text = uncommented body -> yaml_wrapped text = None
}.

Definition no_meta (s : string) : Prop := ContainsAny s "*?[]{}\" = false.

(** A pattern without special characters compiles and matches itself. *)
Class GlobLiteral `{L : Libraries} : Prop := {
  glob_literal s seps : no_meta s -> exists g, glob_Compile s seps = Some g /\ g s = true
}.

(** *** The rule of an answer *)
Section Answers.
Context {U : UnicodeCase} {CO : CaseOrbits} `{L : Libraries} {Y : AclYaml}.
Context {GL : GlobLiteral} {YL : AclYamlLaws}.

(** A request about a host name or an address, as a connection can be made. *)
Record askable (r : ApprovalRequest) : Prop := mkAskable {
  as_port : 1 <= rq_Port r <= 65535; as_protocol : rq_Protocol r = "tcp" \/ rq_Protocol r = "udp";
  as_name : rq_ProcessName r <> ""; as_plain_name : plain (rq_ProcessName r);
  as_target : rq_Target r <> ""; as_plain_target : plain (rq_Target r);
  as_literal : ParseIP (string_bytes (rq_Target r)) = None -> no_meta (ToLower (rq_Target r))
}.

(** The connection the request is about; a target that is an address is the address connected to. *)
Definition about (r : ApprovalRequest) (ip : option (list Z)) : Conn := mkQuery (rq_Target r) ip (rq_Port r) (rq_Protocol r).
Definition agrees (r : ApprovalRequest) (ip : option (list Z)) : Prop := forall x, ParseIP (string_bytes (rq_Target r)) = Some x -> ip = Some x.

Lemma IP_Equal_refl x : IP_Equal x x = true.
Proof. unfold IP_Equal. rewrite Nat.eqb_refl. by apply bool_decide_eq_true_2. Qed.

Lemma protocol_lower r : askable r -> ToLower (rq_Protocol r) = rq_Protocol r.
Proof. intros [_ [-> | ->] _ _ _ _ _]; by vm_compute. Qed.

Lemma persisted_rule r d ip : askable r -> agrees r ip ->
  exists rule, CompileNetworkRule (persisted_target r d) = Ok rule /\ matches_conn (about r ip) rule = true /\ rule_decision rule = d.
Proof.
  intros Hr Hip. pose proof (protocol_lower r Hr) as Hpl. destruct Hr as [Hport Hproto Hn Hpn Ht Hpt Hlit].
  destruct (parsePort_printed _ _ Hport (port_printed _ Hport)) as [Hpp _].
  assert (Hne : rq_Protocol r <> "") by (by destruct Hproto as [-> | ->]).
  unfold persisted_target, CompileNetworkRule. destruct (ParseIP (string_bytes (rq_Target r))) as [x|] eqn:Eip; cbn [t_Host t_IP t_CIDR t_Port t_Protocol].
  - rewrite Hpl, Hpp. rewrite (bool_decide_eq_false_2 (rq_Protocol r = "")) by done. rewrite (bool_decide_eq_false_2 (rq_Target r = "")) by done.
    rewrite Eip. rewrite bool_decide_eq_true_2 by done. cbn [rbind of_option]. eexists. split; [done|]. split; [|done].
    unfold matches_conn, NetworkRule_Matches, about. cbn [nr_protocol nr_portAny nr_portMin nr_portMax nr_hostGlob nr_ip nr_ipNet q_host q_ip q_port q_protocol].
    rewrite Hpl, (Hip x Eip), IP_Equal_refl. rewrite (bool_decide_eq_true_2 (rq_Protocol r = rq_Protocol r)) by done. cbn [negb andb]. rewrite andb_false_r, Z.ltb_irrefl. done.
  - destruct (glob_literal (ToLower (rq_Target r)) [ch_dot] (Hlit eq_refl)) as (g & Eg & Hg).
    rewrite Hpl, Hpp, Eg. rewrite (bool_decide_eq_false_2 (rq_Protocol r = "")) by done. rewrite (bool_decide_eq_false_2 (rq_Target r = "")) by done.
    rewrite bool_decide_eq_true_2 by done. cbn [rbind of_option]. eexists. split; [done|]. split; [|done].
    unfold matches_conn, NetworkRule_Matches, about. cbn [nr_protocol nr_portAny nr_portMin nr_portMax nr_hostGlob nr_ip nr_ipNet q_host q_ip q_port q_protocol].
    rewrite Hpl, Hg. rewrite (bool_decide_eq_true_2 (rq_Protocol r = rq_Protocol r)) by done. cbn [negb andb]. rewrite andb_false_r, Z.ltb_irrefl. done.
Qed.

Lemma persisted_valid r d : askable r -> isValidDecision d = true -> validateNetworkTarget (persisted_target r d) = Ok tt.
Proof.
  intros [Hport Hproto Hn Hpn Ht Hpt Hlit] Hd. destruct (parsePort_printed _ _ Hport (port_printed _ Hport)) as [_ Hvp].
  assert (Hd0 : d <> "") by (by intros ->). unfold persisted_target, validateNetworkTarget.
  assert (Hq : (rq_Protocol r !=? "") && (rq_Protocol r !=? "*") && (ToLower (rq_Protocol r) !=? "tcp") && (ToLower (rq_Protocol r) !=? "udp") = false)
    by (by destruct Hproto as [-> | ->]).
  destruct (ParseIP (string_bytes (rq_Target r))) as [x|] eqn:Eip; cbn [t_Host t_IP t_CIDR t_Port t_Protocol t_Decision];
    rewrite ?Eip, Hq, Hd, Hvp, !(bool_decide_eq_false_2 (d = "")), !(bool_decide_eq_false_2 (rq_Target r = "")), !(bool_decide_eq_true_2 ("" = "")) by done;
    cbn [negb andb orb map_err]; by case_match.
Qed.

(** *** The configuration with the rule *)

Definition add_rule (t : NetworkTarget) (pc : ProcessConfig) : ProcessConfig :=
  mkProcessConfig (pc_Name pc) (pc_Match pc) (pc_Default pc) (t :: pc_Rules pc) (pc_Children pc).

Definition fresh_process (name : string) (t : NetworkTarget) : ProcessConfig := add_rule t (new_process name).

Lemma clone_config c : Config_Clone c = mkConfig (cf_Default c) (cf_Processes c) None.
Proof.
  unfold Config_Clone. f_equal. rewrite <- (list_fmap_id (cf_Processes c)) at 2. apply list_fmap_ext. intros _ pc _. unfold ProcessConfig_Clone.
  destruct pc as [n m d rs ch]. cbn. f_equal. rewrite <- (list_fmap_id ch) at 2. apply list_fmap_ext. intros _ cc _. by destruct cc.
Qed.

Lemma ruleExists_elem rules t : ruleExists rules t = true <-> t ∈ rules.
Proof.
  unfold ruleExists. rewrite existsb_exists. split.
  - intros (x & Hx & E). rewrite !andb_true_iff, !bool_decide_eq_true in E. apply list_elem_of_In. destruct x, t. cbn in E.
    destruct E as (((((-> & ->) & ->) & ->) & ->) & ->). done.
  - intros Ht. exists t. split; [by apply list_elem_of_In|]. by rewrite !bool_decide_eq_true_2 by done.
Qed.

Lemma add_existing name t l1 pc l2 : Forall (fun x => pc_Name x <> name) l1 -> pc_Name pc = name -> t ∉ pc_Rules pc ->
  add_to_processes name t (l1 ++ pc :: l2) = Some (l1 ++ add_rule t pc :: l2).
Proof.
  intros H1 Hn Ht. induction H1 as [|x l1 Hx H1 IH]; cbn [app add_to_processes].
  - rewrite bool_decide_eq_true_2 by done. destruct (ruleExists (pc_Rules pc) t) eqn:E; [by apply ruleExists_elem in E|]. done.
  - rewrite bool_decide_eq_false_2 by done. by rewrite IH.
Qed.

Lemma add_fresh name t l : Forall (fun x => pc_Name x <> name) l -> add_to_processes name t l = Some (l ++ [fresh_process name t]).
Proof. intros H. induction H as [|x l Hx H IH]; cbn [add_to_processes app]; [done|]. rewrite bool_decide_eq_false_2 by done. by rewrite IH. Qed.

Lemma check_all_ok {A} (f : A -> result acl_error unit) w l : forall i, check_all f w i l = Ok tt <-> Forall (fun x => f x = Ok tt) l.
Proof.
  induction l as [|x l IH]; intros i; cbn [check_all]; [by split|]. rewrite Forall_cons. destruct (f x) as [[]|e]; [rewrite IH; naive_solver|]. naive_solver.
Qed.

Definition valid_process (pc : ProcessConfig) : Prop := validateProcessConfig pc = Ok tt.

Lemma valid_config c : ValidateConfig (Some c) = Ok tt <->
  (cf_Default c = "" \/ isValidDecision (cf_Default c) = true) /\ Forall valid_process (cf_Processes c).
Proof.
  unfold ValidateConfig. destruct (bool_decide_reflect (cf_Default c = "")) as [->|Hd]; cbn [negb andb].
  - rewrite check_all_ok. naive_solver.
  - destruct (isValidDecision (cf_Default c)); cbn [negb]; [rewrite check_all_ok; naive_solver|]. naive_solver.
Qed.

Lemma valid_add_rule t pc : validateNetworkTarget t = Ok tt -> valid_process pc -> valid_process (add_rule t pc).
Proof.
  unfold valid_process, validateProcessConfig. cbn [add_rule pc_Name pc_Match pc_Default pc_Rules pc_Children]. intros Ht.
  destruct (pc_Name pc ==? ""); [done|]. destruct (negb (hasCriteria (pc_Match pc))); [done|]. destruct (_ && _); [done|]. intros H.
  apply rbind_Ok in H as ([] & H1 & H2). rewrite check_all_ok in H1.
  assert (check_all validateNetworkTarget (fun i _ => EAtRule i) 0 (t :: pc_Rules pc) = Ok tt) as -> by (rewrite check_all_ok; by constructor). exact H2.
Qed.

Lemma valid_fresh name t : name <> "" -> validateNetworkTarget t = Ok tt -> valid_process (fresh_process name t).
Proof.
  intros Hn Ht. apply valid_add_rule; [done|]. unfold valid_process, validateProcessConfig, new_process. cbn [pc_Name pc_Match pc_Default pc_Rules pc_Children].
  rewrite bool_decide_eq_false_2 by done. unfold hasCriteria. cbn [c_ProcessName]. rewrite bool_decide_eq_false_2 by done. done.
Qed.

Lemma loaded_valid f cf : loadOrCreateConfig io_fine f = Ok cf -> cf_ApprovalUI cf = None /\ ValidateConfig (Some cf) = Ok tt.
Proof.
  unfold loadOrCreateConfig. destruct f as [data|]; [|intros [= <-]; done]. cbn [io_fine io_read negb]. intros H.
  apply rbind_Ok in H as (c & Hc & [= <-]). apply map_err_Ok in Hc. rewrite clone_config. split; [done|].
  assert (ValidateConfig (Some c) = Ok tt) as Hv.
  { unfold ParseConfig in Hc. destruct (yaml_wrapped data) as [w|]; [destruct (_ || _)|].
    - apply rbind_Ok in Hc as ([] & H & [= <-]). by apply map_err_Ok in H.
    - apply rbind_Ok in Hc as (x & _ & Hc). apply rbind_Ok in Hc as ([] & H & [= <-]). by apply map_err_Ok in H.
    - apply rbind_Ok in Hc as (x & _ & Hc). apply rbind_Ok in Hc as ([] & H & [= <-]). by apply map_err_Ok in H. }
  rewrite valid_config in Hv |- *. exact Hv.
Qed.

(** *** Through the file *)

Lemma header_uncommented body : uncommented (yaml_header +:+ body) = uncommented body.
Proof.
  unfold uncommented, lines. rewrite string_bytes_app.
  assert (E : exists h, string_bytes yaml_header = h ++ [ch_nl] /\ List.filter significant (split_byte ch_nl h) = []).
  { exists (take (length (string_bytes yaml_header) - 1) (string_bytes yaml_header)). split; vm_compute; reflexivity. }
  destruct E as (h & -> & Hh). rewrite <- app_assoc. cbn [app]. by rewrite split_byte_app, List.filter_app, Hh.
Qed.

Lemma written_back f cf' today r : plain_config cf' -> cf_ApprovalUI cf' = None -> cf_Processes cf' <> [] -> ValidateConfig (Some cf') = Ok tt ->
  plain today -> ch_nl ∉ string_bytes (FormatInt (rq_PID r)) ->
  exists text, writeConfigWithComment io_fine f cf' (rq_ProcessName r) (persist_comment today r) = (Ok tt, Some text) /\
    loadOrCreateConfig io_fine (Some text) = Ok cf'.
Proof.
  intros Hp Hui Hne Hv Ht Hpid. destruct (yaml_encodes cf' Hp) as [body Hb]. unfold writeConfigWithComment. rewrite Hb. cbn [io_fine io_mkdir io_write negb].
  rewrite bool_decide_eq_false_2 by done. cbn [negb]. eexists. split; [done|]. set (text := injectComment _ _ _).
  assert (Hu : uncommented text = uncommented body) by (unfold text; by rewrite approval_comment_harmless, header_uncommented).
  unfold loadOrCreateConfig, ParseConfig. cbn [io_fine io_read negb]. rewrite (yaml_wrapper_strict cf' body text), (yaml_reads_back cf' body text) by done.
  cbn [of_option rbind]. rewrite Hv. cbn [map_err rbind]. rewrite clone_config. f_equal. destruct cf' as [d ps ui]. cbn in *. by subst.
Qed.

(** *** The engine with the rule *)

Lemma each_intro {E A B} (f : A -> result E B) l ys : Forall2 (fun x y => f x = Ok y) l ys -> each f l = Ok ys.
Proof. intros H. induction H as [|x y l ys Hx H IH]; cbn [each]; [done|]. by rewrite Hx, IH. Qed.

Lemma find_split {A} (f : A -> bool) l x : List.find f l = Some x -> exists l1 l2, l = l1 ++ x :: l2 /\ Forall (fun y => f y = false) l1 /\ f x = true.
Proof.
  induction l as [|y l IH]; cbn; [done|]. destruct (f y) eqn:E.
  - intros [= <-]. by exists [], l.
  - intros H. destruct (IH H) as (l1 & l2 & -> & H1 & H2). exists (y :: l1), l2. split; [done|]. by split; [constructor|].
Qed.

Lemma find_skip {A} (f : A -> bool) l1 x l2 : Forall (fun y => f y = false) l1 -> f x = true -> List.find f (l1 ++ x :: l2) = Some x.
Proof. intros H Hx. induction H as [|y l1 Hy H IH]; cbn; [by rewrite Hx|]. by rewrite Hy. Qed.

Lemma compile_rules_Forall2 l : forall i rs, compile_rules i l = Ok rs <-> Forall2 (fun t r => CompileNetworkRule t = Ok r) l rs.
Proof.
  induction l as [|t l IH]; intros i rs; cbn [compile_rules].
  - split; [intros [= <-]; constructor|]. by inversion 1.
  - split.
    + intros H. apply rbind_Ok in H as (r & Hr & H). apply rbind_Ok in H as (rest & Hrest & [= <-]). apply map_err_Ok in Hr. constructor; [done|]. by eapply IH.
    + inversion 1 as [|? r ? rest Hr Hrest]; subst. rewrite Hr. cbn [map_err rbind]. apply (IH (S i)) in Hrest. by rewrite Hrest.
Qed.

Definition compiles (pc : ProcessConfig) (pp : ProcessPolicy) : Prop := compileProcessPolicy pc = Ok pp.

Lemma engine_policies c e : NewPolicyEngine c = Ok e -> e_GlobalDefault e = (if cf_Default c !=? "" then cf_Default c else DecisionDeny) /\
  Forall2 compiles (cf_Processes c) (e_ProcessPolicies e).
Proof.
  unfold NewPolicyEngine. intros H. apply rbind_Ok in H as (ps & Hps & [= <-]). split; [done|]. apply each_Ok in Hps.
  eapply Forall2_impl; [exact Hps|]. intros pc pp Hpc. by apply map_err_Ok in Hpc.
Qed.

Lemma engine_compiles c ps : Forall2 compiles (cf_Processes c) ps ->
  NewPolicyEngine c = Ok (mkEngine (if cf_Default c !=? "" then cf_Default c else DecisionDeny) ps).
Proof.
  intros H. unfold NewPolicyEngine. rewrite (each_intro _ _ ps); [done|]. eapply Forall2_impl; [exact H|]. unfold compiles. by intros pc pp ->.
Qed.

Lemma compiles_fields pc pp : compiles pc pp -> pp_Name pp = pc_Name pc /\ Forall2 (fun t r => CompileNetworkRule t = Ok r) (pc_Rules pc) (pp_Rules pp).
Proof.
  unfold compiles, compileProcessPolicy. intros H. apply rbind_Ok in H as (m & _ & H). apply rbind_Ok in H as (rs & Hrs & H).
  apply rbind_Ok in H as (ch & _ & [= <-]). split; [done|]. by apply compile_rules_Forall2 in Hrs.
Qed.

Lemma compiles_add_rule t rule pc pp : compiles pc pp -> CompileNetworkRule t = Ok rule -> compiles (add_rule t pc) (with_rules pp (rule :: pp_Rules pp)).
Proof.
  unfold compiles, compileProcessPolicy. cbn [add_rule pc_Name pc_Match pc_Default pc_Rules pc_Children]. intros H Hr.
  apply rbind_Ok in H as (m & Hm & H). rewrite Hm. cbn [rbind]. apply rbind_Ok in H as (rs & Hrs & H). apply rbind_Ok in H as (ch & Hch & [= <-]).
  apply compile_rules_Forall2 in Hrs.
  assert (compile_rules 0 (t :: pc_Rules pc) = Ok (rule :: rs)) as -> by (apply compile_rules_Forall2; by constructor). cbn [rbind]. by rewrite Hch.
Qed.

(** The rules of the policy count for the process: it is no child, or one that inherits them. *)
Definition consults (pp : ProcessPolicy) (proc : ProcessInfo) : Prop :=
  forall cp, findChildPolicy pp proc = Some cp -> cp_Inherit cp = true.

Lemma only_hit pp proc q r : consults pp proc -> (forall x s, ~ applicable pp (findChildPolicy pp proc) q x s) -> matches_conn q r = true ->
  r_Decision (evaluate_policy (with_rules pp (r :: pp_Rules pp)) proc q) = rule_decision r.
Proof.
  intros Hc Hno Hr. destruct (evaluate_policy_decides (with_rules pp (r :: pp_Rules pp)) proc q) as [[Hn _]|(x & s & Hx & Hd & _)].
  - exfalso. apply (Hn r (bonus_score 0 (nr_target r))). apply applicable_parent; [exact Hc|left|done].
  - rewrite Hd. change (findChildPolicy (with_rules pp (r :: pp_Rules pp)) proc) with (findChildPolicy pp proc) in Hx. destruct Hx as [c x Ec Hin Hm|x Hi Hin Hm].
    + destruct (Hno x (bonus_score 100 (nr_target x))). by eapply applicable_own.
    + cbn [with_rules pp_Rules] in Hin. rewrite elem_of_cons in Hin. destruct Hin as [->|Hin]; [done|].
      destruct (Hno x (bonus_score 0 (nr_target x))). by apply applicable_parent.
Qed.

(** Rules that are not consulted do not show. *)
Lemma unconsulted pp proc q cp rs : findChildPolicy pp proc = Some cp -> cp_Inherit cp = false ->
  evaluate_policy (with_rules pp rs) proc q = evaluate_policy pp proc q.
Proof.
  intros Hf Hi. unfold evaluate_policy. change (findChildPolicy (with_rules pp rs) proc) with (findChildPolicy pp proc). rewrite Hf.
  unfold evaluateWithChild, child_hits. by rewrite Hi.
Qed.

Lemma consults_dec pp proc : consults pp proc \/ exists cp, findChildPolicy pp proc = Some cp /\ cp_Inherit cp = false.
Proof.
  unfold consults. destruct (findChildPolicy pp proc) as [cp|]; [|by left]. destruct (cp_Inherit cp) eqn:E; [left; by intros ? [= <-]|right; eauto].
Qed.

(** The question came from a default: no rule that counts for the process speaks of the connection. *)
Definition unspoken (e : PolicyEngine) (proc : ProcessInfo) (q : Conn) : Prop :=
  forall pp x s, find_policy e proc = Some pp -> ~ applicable pp (findChildPolicy pp proc) q x s.

(** The entry that a rule for the process's name goes to is the one the process is judged by: the
    policy it is found under bears the name and its rules count, or it is found under none and no
    entry bears the name. *)
Definition heard (c : Config) (e : PolicyEngine) (proc : ProcessInfo) (r : ApprovalRequest) : Prop :=
  match find_policy e proc with
  | Some pp => pp_Name pp = rq_ProcessName r /\ consults pp proc
  | None => Forall (fun pc => pc_Name pc <> rq_ProcessName r) (cf_Processes c)
  end.

(** A rule that is there already would have matched. *)
Lemma rule_not_there r d ip pc pp proc : askable r -> agrees r ip -> compiles pc pp -> consults pp proc ->
  (forall x s, ~ applicable pp (findChildPolicy pp proc) (about r ip) x s) -> persisted_target r d ∉ pc_Rules pc.
Proof.
  intros Hr Hip Hc Hco Hno Hin. destruct (compiles_fields _ _ Hc) as [_ H2]. apply list_elem_of_lookup_1 in Hin as [k Hk].
  destruct (Forall2_lookup_l _ _ _ _ _ H2 Hk) as (x & Hx & Ex). destruct (persisted_rule r d ip Hr Hip) as (rule & Er & Hm & _).
  rewrite Er in Ex. injection Ex as <-. destruct (Hno rule (bonus_score 0 (nr_target rule))).
  apply applicable_parent; [done|by eapply list_elem_of_lookup_2|done].
Qed.

(** Whether the entry made for a name would match a process. *)
Definition entry_matches (name : string) (p2 : ProcessInfo) : bool :=
  ProcessMatcher_Matches (mkMatcher (mkCriteria name "" "" "" false) false None) p2.

(** What an engine decides once the answer [d] is in its configuration. *)
Record answered (c : Config) (e e' : PolicyEngine) (proc : ProcessInfo) (r : ApprovalRequest) (ip : option (list Z)) (d : string) : Prop := mkAnswered {
  an_heard : heard c e proc r -> r_Decision (Evaluate e' proc (about r ip)) = d;
  an_unheard : ~ heard c e proc r -> Evaluate e' proc (about r ip) = Evaluate e proc (about r ip);
  an_others p2 pp2 q2 : find_policy e p2 = Some pp2 -> pp_Name pp2 <> rq_ProcessName r -> Evaluate e' p2 q2 = Evaluate e p2 q2;
  an_strangers p2 q2 : find_policy e p2 = None -> Exists (fun pc => pc_Name pc = rq_ProcessName r) (cf_Processes c) \/ entry_matches (rq_ProcessName r) p2 = false ->
    Evaluate e' p2 q2 = Evaluate e p2 q2
}.

(** The processes after the rule was added: the same but for one, or one more. *)
Inductive added_to (t : NetworkTarget) (name : string) : list ProcessConfig -> list ProcessConfig -> Prop :=
| added_existing l1 pc l2 : added_to t name (l1 ++ pc :: l2) (l1 ++ add_rule t pc :: l2)
| added_fresh l : added_to t name l (l ++ [fresh_process name t]).

Lemma added_valid t name l l' : added_to t name l l' -> name <> "" -> validateNetworkTarget t = Ok tt -> Forall valid_process l -> Forall valid_process l'.
Proof.
  intros [l1 pc l2|l0] Hn Ht Hl; rewrite Forall_app in *.
  - destruct Hl as [H1 H2]. rewrite Forall_cons in *. destruct H2. auto using valid_add_rule.
  - split; [done|]. constructor; [by apply valid_fresh|constructor].
Qed.

Lemma added_plain t name l l' : added_to t name l l' -> plain name -> Forall plain (target_strings t) -> Forall plain (l ≫= process_strings) ->
  Forall plain (l' ≫= process_strings).
Proof.
  assert (Hadd : forall pc, Forall plain (target_strings t) -> Forall plain (process_strings pc) -> Forall plain (process_strings (add_rule t pc))).
  { intros pc Ht. unfold process_strings. cbn [add_rule pc_Name pc_Match pc_Default pc_Rules pc_Children]. rewrite !Forall_cons, !Forall_app. cbn [mbind list_bind].
    rewrite Forall_app. naive_solver. }
  intros [l1 pc l2|l0] Hn Ht Hl; rewrite bind_app in *; cbn [mbind list_bind] in *; rewrite !Forall_app in *.
  - naive_solver.
  - split; [done|]. split; [|constructor]. apply Hadd; [done|]. unfold process_strings, new_process, criteria_strings. cbn.
    repeat (constructor; [first [done|decide_vm]|]). constructor.
Qed.

Lemma added_nonempty t name l l' : added_to t name l l' -> l' <> [].
Proof. intros [l1 pc l2|l0]; by destruct l1 || destruct l0. Qed.

Lemma fresh_policy r t rule : CompileNetworkRule t = Ok rule ->
  exists pp, compiles (fresh_process (rq_ProcessName r) t) (with_rules pp [rule]) /\ pp_Rules pp = [] /\
    (forall p2, ProcessMatcher_Matches (pp_Matcher pp) p2 = entry_matches (rq_ProcessName r) p2) /\ forall p2, findChildPolicy pp p2 = None.
Proof.
  intros Ht. set (name := rq_ProcessName r).
  set (pp := mkProcessPolicy name (mkCriteria name "" "" "" false) DecisionApprove [] [] (mkMatcher (mkCriteria name "" "" "" false) false None)).
  exists pp. split; [apply (compiles_add_rule t rule (new_process name) pp); [reflexivity|done]|]. done.
Qed.

Lemma entry_matches_own r proc : askable r -> p_Name proc = rq_ProcessName r -> entry_matches (rq_ProcessName r) proc = true.
Proof.
  intros Hr Hp. pose proof (as_name _ Hr) as Hn. unfold entry_matches, ProcessMatcher_Matches. cbn [m_strict]. unfold matchFlexibleSimple, hasCriteria. cbn [m_criteria c_ProcessName].
  rewrite (bool_decide_eq_false_2 (rq_ProcessName r = "")) by done. cbn [negb orb andb]. unfold matchProcessName, matchProcessNameWithSpecificity. rewrite Hp.
  by rewrite bool_decide_eq_true_2 by done.
Qed.

Lemma find_app {A} (f : A -> bool) l k : List.find f (l ++ k) = match List.find f l with Some z => Some z | None => List.find f k end.
Proof. induction l as [|a l IH]; cbn; [done|]. by destruct (f a). Qed.

Lemma find_name {A} (f : A -> bool) (name : A -> string) n l z : Forall (fun x => name x <> n) l -> List.find f l = Some z -> name z <> n.
Proof. intros Hl Hz. apply find_some in Hz as [Hin _]. rewrite Forall_forall in Hl. by apply Hl, list_elem_of_In. Qed.

(** The rule goes to an entry of the process's name. *)
Lemma answered_existing c e proc r ip d l1 pc l2 : NewPolicyEngine c = Ok e -> cf_Processes c = l1 ++ pc :: l2 -> pc_Name pc = rq_ProcessName r ->
  Forall (fun x => pc_Name x <> rq_ProcessName r) l1 -> Forall (fun x => pc_Name x <> rq_ProcessName r) l2 ->
  askable r -> agrees r ip -> unspoken e proc (about r ip) ->
  exists e', NewPolicyEngine (mkConfig (cf_Default c) (l1 ++ add_rule (persisted_target r d) pc :: l2) None) = Ok e' /\ answered c e e' proc r ip d.
Proof.
  intros He El Hn Hl1 Hl2 Hr Hip Huns. destruct (engine_policies _ _ He) as [Hgd Hps]. destruct (persisted_rule r d ip Hr Hip) as (rule & Er & Hm & Hd).
  rewrite El in Hps. apply Forall2_app_inv_l in Hps as (ps1 & ps2' & H1 & H2 & Eps). apply Forall2_cons_inv_l in H2 as (pp & ps2 & Hpc & H2 & ->).
  assert (Hnames : forall l ps, Forall2 compiles l ps -> Forall (fun x => pc_Name x <> rq_ProcessName r) l -> Forall (fun x => pp_Name x <> rq_ProcessName r) ps).
  { intros l ps Hlp Hl. induction Hlp as [|x y l ps Hxy Hlp IH]; [constructor|]. apply Forall_cons in Hl as [Hx Hl].
    destruct (compiles_fields _ _ Hxy) as [Hxn _]. constructor; [congruence|by apply IH]. }
  pose proof (Hnames _ _ H1 Hl1) as Hp1. pose proof (Hnames _ _ H2 Hl2) as Hp2. destruct (compiles_fields _ _ Hpc) as [Hppn _].
  set (pp' := with_rules pp (rule :: pp_Rules pp)).
  exists (mkEngine (if cf_Default c !=? "" then cf_Default c else DecisionDeny) (ps1 ++ pp' :: ps2)).
  split; [apply (engine_compiles (mkConfig (cf_Default c) (l1 ++ add_rule (persisted_target r d) pc :: l2) None)); cbn [cf_Processes]; apply Forall2_app; [done|]; constructor; [by apply compiles_add_rule|done]|].
  rewrite <- Hgd. set (e' := mkEngine (e_GlobalDefault e) (ps1 ++ pp' :: ps2)).
  assert (Hfind : forall p2, find_policy e' p2 = find_policy e p2 /\ (forall x, find_policy e p2 = Some x -> pp_Name x <> rq_ProcessName r) \/
                             find_policy e p2 = Some pp /\ find_policy e' p2 = Some pp').
  { intros p2. unfold find_policy. cbn [e' e_ProcessPolicies]. rewrite Eps, !find_app. cbn [List.find].
    destruct (List.find _ ps1) as [z|] eqn:E1; [left; split; [done|]; intros x [= <-]; by eapply find_name in E1|].
    change (pp_Matcher pp') with (pp_Matcher pp). destruct (ProcessMatcher_Matches (pp_Matcher pp) p2); [by right|].
    left. split; [done|]. intros x Hx. by eapply find_name in Hx. }
  split.
  - intros Hh. destruct (Hfind proc) as [[_ Hx]|[Hf Hf']]; unfold heard in Hh.
    + destruct (find_policy e proc) as [x|]; [by destruct (Hx x), Hh|]. rewrite El, Forall_app, Forall_cons in Hh. naive_solver.
    + rewrite Hf in Hh. destruct Hh as [_ Hco]. unfold Evaluate. rewrite Hf'. subst d. apply only_hit; [done| |done]. intros x s. by apply Huns.
  - intros Hh. destruct (Hfind proc) as [[Hf _]|[Hf Hf']]; unfold Evaluate; [by rewrite Hf|]. rewrite Hf, Hf'.
    destruct (consults_dec pp proc) as [Hco|(cp & Hcp & Hi)]; [|by eapply unconsulted]. destruct Hh. unfold heard. rewrite Hf. split; [congruence|done].
  - intros p2 pp2 q2 Hf2 Hn2. destruct (Hfind p2) as [[Hf _]|[Hf _]]; [unfold Evaluate; by rewrite Hf|]. rewrite Hf in Hf2. congruence.
  - intros p2 q2 Hf2 _. destruct (Hfind p2) as [[Hf _]|[Hf _]]; [unfold Evaluate; by rewrite Hf|congruence].
Qed.

(** An entry is made for the process's name. *)
Lemma answered_fresh c e proc r ip d : NewPolicyEngine c = Ok e -> Forall (fun x => pc_Name x <> rq_ProcessName r) (cf_Processes c) ->
  askable r -> agrees r ip -> p_Name proc = rq_ProcessName r ->
  exists e', NewPolicyEngine (mkConfig (cf_Default c) (cf_Processes c ++ [fresh_process (rq_ProcessName r) (persisted_target r d)]) None) = Ok e' /\ answered c e e' proc r ip d.
Proof.
  intros He Hall Hr Hip Hp. destruct (engine_policies _ _ He) as [Hgd Hps]. destruct (persisted_rule r d ip Hr Hip) as (rule & Er & Hm & Hd).
  destruct (fresh_policy r _ rule Er) as (pp & Hc & Hr0 & Hmt & Hch).
  exists (mkEngine (if cf_Default c !=? "" then cf_Default c else DecisionDeny) (e_ProcessPolicies e ++ [with_rules pp [rule]])).
  split; [apply (engine_compiles (mkConfig (cf_Default c) (cf_Processes c ++ [fresh_process (rq_ProcessName r) (persisted_target r d)]) None)); cbn [cf_Processes]; apply Forall2_app; [done|]; by constructor|].
  rewrite <- Hgd. set (e' := mkEngine _ _).
  assert (Hfind : forall p2, find_policy e' p2 = match find_policy e p2 with Some x => Some x | None => if entry_matches (rq_ProcessName r) p2 then Some (with_rules pp [rule]) else None end).
  { intros p2. unfold find_policy. cbn [e' e_ProcessPolicies]. rewrite find_app. cbn [List.find with_rules pp_Matcher]. by rewrite Hmt. }
  assert (Hnamed : forall p2 x, find_policy e p2 = Some x -> pp_Name x <> rq_ProcessName r).
  { intros p2 x Hx Hxn. apply find_some in Hx as [Hin _]. apply list_elem_of_In, list_elem_of_lookup_1 in Hin as [k Hk].
    destruct (Forall2_lookup_r _ _ _ _ _ Hps Hk) as (pc & Hpc & Hcp). destruct (compiles_fields _ _ Hcp) as [Hn _].
    rewrite Forall_forall in Hall. apply (Hall pc (list_elem_of_lookup_2 _ _ _ Hpc)). congruence. }
  split.
  - unfold heard, Evaluate. rewrite Hfind. destruct (find_policy e proc) as [x|] eqn:Ef; [intros [Hx _]; by apply Hnamed in Ef|]. intros _.
    rewrite (entry_matches_own r proc Hr Hp). subst d. rewrite <- Hr0. apply only_hit; [by intros cp; rewrite Hch| |done].
    intros x s Hx. rewrite Hch in Hx. destruct Hx as [cp x Hcp _ _|x _ Hin _]; [done|]. rewrite Hr0 in Hin. by apply not_elem_of_nil in Hin.
  - unfold heard, Evaluate. rewrite Hfind. by destruct (find_policy e proc).
  - intros p2 pp2 q2 Hf2 _. unfold Evaluate. by rewrite Hfind, Hf2.
  - intros p2 q2 Hf2 [Hex|Hno]; unfold Evaluate; rewrite Hfind, Hf2; [|by rewrite Hno]. exfalso. rewrite Forall_forall in Hall. apply Exists_exists in Hex as (pc & Hin & Hn). by apply (Hall pc).
Qed.

(** The configuration with the answer: the rule added, or there before. *)
Lemma add_decides c e proc r ip d : NewPolicyEngine c = Ok e -> NoDup (pc_Name <$> cf_Processes c) -> askable r -> agrees r ip ->
  p_Name proc = rq_ProcessName r -> unspoken e proc (about r ip) ->
  match add_to_processes (rq_ProcessName r) (persisted_target r d) (cf_Processes c) with
  | None => answered c e e proc r ip d
  | Some ps' => added_to (persisted_target r d) (rq_ProcessName r) (cf_Processes c) ps' /\
      exists e', NewPolicyEngine (mkConfig (cf_Default c) ps' None) = Ok e' /\ answered c e e' proc r ip d
  end.
Proof.
  intros He Hnd Hr Hip Hp Huns. destruct (List.find (fun pc => pc_Name pc ==? rq_ProcessName r) (cf_Processes c)) as [pc|] eqn:Ef.
  - apply find_split in Ef as (l1 & l2 & El & Hl1 & Hn%bool_decide_eq_true). rewrite El in Hnd |- *.
    assert (Hl1' : Forall (fun x => pc_Name x <> rq_ProcessName r) l1) by (eapply Forall_impl; [exact Hl1|]; intros x Hx; by apply bool_decide_eq_false in Hx).
    assert (Hl2 : Forall (fun x => pc_Name x <> rq_ProcessName r) l2).
    { rewrite fmap_app, fmap_cons, NoDup_app, NoDup_cons in Hnd. destruct Hnd as (_ & _ & Hnd & _). apply Forall_forall. intros x Hx Ex.
      apply Hnd. rewrite Hn, <- Ex. by apply list_elem_of_fmap_2. }
    destruct (decide (persisted_target r d ∈ pc_Rules pc)) as [Hin|Hout].
    + assert (add_to_processes (rq_ProcessName r) (persisted_target r d) (l1 ++ pc :: l2) = None) as ->.
      { clear -Hl1' Hn Hin. induction Hl1' as [|x l1 Hx H1 IH]; cbn [app add_to_processes]; [|rewrite bool_decide_eq_false_2 by done; by rewrite IH].
        rewrite bool_decide_eq_true_2 by done. by rewrite (proj2 (ruleExists_elem _ _) Hin). }
      split; try done. intros Hh. exfalso. unfold heard in Hh. destruct (find_policy e proc) as [pp|] eqn:Efp.
      * destruct Hh as [Hppn Hco]. destruct (engine_policies _ _ He) as [_ Hps]. pose proof Efp as Hfp. apply find_some in Efp as [Hpin _].
        apply list_elem_of_In, list_elem_of_lookup_1 in Hpin as [k Hk]. destruct (Forall2_lookup_r _ _ _ _ _ Hps Hk) as (pc' & Hpc' & Hcp).
        destruct (compiles_fields _ _ Hcp) as [Hn' _]. assert (pc' = pc) as ->.
        { apply list_elem_of_lookup_2 in Hpc'. rewrite El, elem_of_app, elem_of_cons in Hpc'. rewrite Forall_forall in Hl1', Hl2.
          destruct Hpc' as [Hx|[Hx|Hx]]; [by destruct (Hl1' _ Hx); congruence|done|by destruct (Hl2 _ Hx); congruence]. }
        eapply (rule_not_there r d ip pc pp proc); try done. intros x s. by apply Huns.
      * rewrite El, Forall_app, Forall_cons in Hh. naive_solver.
    + rewrite add_existing by done. split; [constructor|]. by apply answered_existing.
  - assert (Hall : Forall (fun x => pc_Name x <> rq_ProcessName r) (cf_Processes c)).
    { apply Forall_forall. intros x Hx. pose proof (find_none _ _ Ef x (proj1 (list_elem_of_In _ _) Hx)) as Hb. by apply bool_decide_eq_false in Hb. }
    rewrite add_fresh by done. split; [constructor|]. by apply answered_fresh.
Qed.

Lemma FormatInt_line z : plain (FormatInt z).
Proof.
  unfold plain. destruct z as [|p|p]; [decide_vm|..].
  - destruct (FormatInt_pos p) as (l & -> & _ & Hd & _). apply (digit_not _ _ Hd). unfold digit, ch_nl. lia.
  - change (FormatInt (Z.neg p)) with ("-" +:+ DecimalString.NilZero.string_of_uint (Pos.to_uint p)). rewrite string_bytes_app, not_elem_of_app. split; [decide_vm|].
    destruct (FormatInt_pos p) as (l & El & _ & Hd & _). change (FormatInt (Z.pos p)) with (DecimalString.NilZero.string_of_uint (Pos.to_uint p)) in El.
    rewrite El. apply (digit_not _ _ Hd). unfold digit, ch_nl. lia.
Qed.

Lemma persisted_plain r d : askable r -> plain d -> Forall plain (target_strings (persisted_target r d)).
Proof.
  intros [Hport Hproto Hn Hpn Ht Hpt Hlit] Hd. assert (Hpr : plain (rq_Protocol r)) by (destruct Hproto as [-> | ->]; decide_vm).
  assert (Hnil : plain "") by decide_vm. pose proof (FormatInt_line (rq_Port r)).
  unfold persisted_target, target_strings. destruct (ParseIP _); cbn; repeat (constructor; [done|]); constructor.
Qed.

(** Writing the rule and reading the file back. *)
Lemma persisted_file f cf e proc r ip d today : loadOrCreateConfig io_fine f = Ok cf -> NewPolicyEngine cf = Ok e -> plain_config cf ->
  NoDup (pc_Name <$> cf_Processes cf) -> askable r -> agrees r ip -> plain today -> p_Name proc = rq_ProcessName r -> unspoken e proc (about r ip) ->
  isValidDecision d = true -> plain d ->
  exists f', File_AddRule io_fine (rq_ProcessName r) (persisted_target r d) (persist_comment today r) f = (Ok tt, f') /\
  exists cf' e', loadOrCreateConfig io_fine f' = Ok cf' /\ NewPolicyEngine cf' = Ok e' /\ answered cf e e' proc r ip d.
Proof.
  intros Hf He Hpl Hnd Hr Hip Ht Hpn Huns Hd Hpd. destruct (loaded_valid _ _ Hf) as [Hui Hv].
  pose proof (add_decides cf e proc r ip d He Hnd Hr Hip Hpn Huns) as Hadd.
  unfold File_AddRule. rewrite Hf. destruct (add_to_processes _ _ _) as [ps'|]; [|exists f; split; [done|]; by exists cf, e].
  destruct Hadd as (Hto & e' & He' & Hans). rewrite Hui. set (cf' := mkConfig (cf_Default cf) ps' None). rewrite valid_config in Hv. destruct Hv as [Hv1 Hv2], Hpl as [Hp1 Hp2].
  destruct (written_back f cf' today r) as (text & Hw & Hl); [| |by eapply added_nonempty| |done|apply FormatInt_line|].
  - split; [done|]. eapply added_plain; [done|apply Hr|by apply persisted_plain|done].
  - done.
  - apply valid_config. split; [done|]. eapply added_valid; [done|apply Hr|by apply persisted_valid|done].
  - exists (Some text). split; [exact Hw|]. by exists cf', e'.
Qed.


End Answers.
(** *** A document format for concrete runs: one line of binary digits *)

#[export] Instance ApprovalUIConfig_eq_dec : EqDecision ApprovalUIConfig.
Proof. solve_decision. Defined.
#[export] Instance ChildConfig_eq_dec : EqDecision ChildConfig.
Proof. solve_decision. Defined.
#[export] Instance ProcessConfig_eq_dec : EqDecision ProcessConfig.
Proof. solve_decision. Defined.
#[export] Instance Config_eq_dec : EqDecision Config.
Proof. solve_decision. Defined.

#[export] Instance NetworkTarget_countable : Countable NetworkTarget.
Proof.
  refine (inj_countable' (fun t => (t_Host t, t_IP t, t_CIDR t, t_Port t, t_Protocol t, t_Decision t))
    (fun x => let '(a, b, c, d, e, f) := x in mkTarget a b c d e f) _). by intros [].
Defined.
#[export] Instance ProcessMatchCriteria_countable : Countable ProcessMatchCriteria.
Proof.
  refine (inj_countable' (fun c => (c_ProcessName c, c_Path c, c_BundleID c, c_PackageFamilyName c, c_Strict c))
    (fun x => let '(a, b, c, d, e) := x in mkCriteria a b c d e) _). by intros [].
Defined.
#[export] Instance ApprovalUIConfig_countable : Countable ApprovalUIConfig.
Proof. refine (inj_countable' (fun u => (ui_Mode u, ui_Timeout u)) (fun x => mkApprovalUI x.1 x.2) _). by intros []. Defined.
#[export] Instance ChildConfig_countable : Countable ChildConfig.
Proof.
  refine (inj_countable' (fun c => (cc_Name c, cc_Match c, cc_Inherit c, cc_Rules c)) (fun x => let '(a, b, c, d) := x in mkChildConfig a b c d) _).
  by intros [].
Defined.
#[export] Instance ProcessConfig_countable : Countable ProcessConfig.
Proof.
  refine (inj_countable' (fun c => (pc_Name c, pc_Match c, pc_Default c, pc_Rules c, pc_Children c))
    (fun x => let '(a, b, c, d, e) := x in mkProcessConfig a b c d e) _). by intros [].
Defined.
#[export] Instance Config_countable : Countable Config.
Proof. refine (inj_countable' (fun c => (cf_Default c, cf_Processes c, cf_ApprovalUI c)) (fun x => let '(a, b, c) := x in mkConfig a b c) _). by intros []. Defined.

Fixpoint bits (p : positive) : list Z := match p with xH => [49] | xO p => 48 :: bits p | xI p => 50 :: bits p end.
Fixpoint parse_bits (l : list Z) : option positive :=
  match l with
  | [] => None
  | b :: l' => if b =? 48 then xO <$> parse_bits l' else if b =? 50 then xI <$> parse_bits l'
               else if b =? 49 then (if nonempty l' then None else Some xH) else None
  end.

Definition bit_yaml : AclYaml := {|
  yaml_wrapped _ := None;
  yaml_direct text := match uncommented text with [line] => p ← parse_bits line; countable.decode p | _ => None end;
  yaml_encode c := Some (bytes_string (bits (countable.encode c)))
|}.

Lemma parse_bits_id p : parse_bits (bits p) = Some p.
Proof. induction p as [p IH|p IH|]; cbn [bits parse_bits Z.eqb Pos.eqb]; [by rewrite IH|by rewrite IH|done]. Qed.

Lemma bits_digits p : Forall digit (bits p).
Proof. unfold digit. induction p; cbn; repeat constructor; (done || lia). Qed.

Lemma bits_uncommented p : uncommented (bytes_string (bits p)) = [bits p].
Proof.
  unfold uncommented, lines. rewrite string_bytes_of.
  - rewrite split_byte_none; [|apply (digit_not _ _ (bits_digits p)); unfold digit, ch_nl; lia]. cbn [List.filter]. by destruct p.
  - eapply Forall_impl; [apply bits_digits|]. unfold digit, byte_range. lia.
Qed.

#[export] Instance bit_yaml_laws : @AclYamlLaws bit_yaml.
Proof.
  split; [by eexists| |done]. intros c body text _ _ [= <-] Hu. cbn [yaml_direct bit_yaml]. rewrite Hu, bits_uncommented, parse_bits_id. cbn. apply countable.decode_encode.
Qed.

Lemma glob_match_self seps l : 42 ∉ l -> glob_match seps l l = true.
Proof.
  induction l as [|b l IH]; [done|]. rewrite not_elem_of_cons. intros [Hb Hl]. cbn [glob_match].
  destruct b as [|q|q]; [by rewrite Z.eqb_refl, IH| |by rewrite Z.eqb_refl, IH].
  do 6 (try destruct q as [q|q|]); cbn [glob_match]; rewrite ?Z.eqb_refl, ?IH by done; done.
Qed.

Lemma no_meta_absent s b : no_meta s -> b ∈ string_bytes "*?[]{}\" -> b ∉ string_bytes s.
Proof.
  intros Hs Hb Hin. unfold no_meta, ContainsAny in Hs. apply not_true_iff_false in Hs. apply Hs. apply existsb_exists. exists b. split; [by apply list_elem_of_In|].
  unfold has_byte. apply existsb_exists. exists b. split; [by apply list_elem_of_In|]. apply Z.eqb_refl.
Qed.

#[export] Instance small_glob_literal : @GlobLiteral small_libraries.
Proof.
  split. intros s seps Hs. cbn [glob_Compile small_libraries].
  assert (H42 : 42 ∉ string_bytes s) by (apply no_meta_absent; [done|decide_vm]).
  assert (H91 : 91 ∉ string_bytes s) by (apply no_meta_absent; [done|decide_vm]).
  destruct (has_byte ch_lbrack (string_bytes s)) eqn:E.
  - exfalso. unfold has_byte in E. apply existsb_exists in E as (x & Hx & Ex). apply Z.eqb_eq in Ex. subst x. by apply list_elem_of_In in Hx.
  - eexists. split; [done|]. by apply glob_match_self.
Qed.

Section Sample.
#[local] Existing Instance latin_case.
#[local] Existing Instance ascii_orbits.
#[local] Existing Instance small_libraries.
#[local] Existing Instance bit_yaml.

Definition sample_request : ApprovalRequest := mkRequest "id" 0 0 "curl" "/usr/bin/curl" 7 1 "api.example.com" 443 "tcp".
Definition sample_answer (d : string) : ApprovalResponse := mkResponse "id" d "" true.
Definition no_file : Provider (S:=file) := mkProvider ∅ [] None.


(** *** Where an answer for good is not the last word *)

Definition after_answer (name : string) (t : NetworkTarget) (c : Config) : option Config :=
  ps ← add_to_processes name t (cf_Processes c); Some (mkConfig (cf_Default c) ps (cf_ApprovalUI c)).

(** A policy found by path under a name of its own: the answer makes an entry behind it that is never
    consulted, and the user is asked again. *)
Example answer_behind_path_policy :
  let c := mkConfig "deny" [mkProcessConfig "tools" (mkCriteria "" "/usr/bin/*" "" "" false) "approve" [] []] None in
  decide_in c (proc "curl") "api.example.com" None = Some DecisionApprove /\
  (c' ← after_answer "curl" (persisted_target sample_request DecisionAllow) c; decide_in c' (proc "curl") "api.example.com" None) = Some DecisionApprove.
Proof. split; vm_compute; reflexivity. Qed.

(** The new rule is put first, which is said to give it the highest priority, but rules of the same
    target tie and the denial wins: a later permission is not heard. *)
Example later_permission_not_heard :
  let denied := one_process "curl" "approve" [persisted_target sample_request DecisionDeny] in
  (c ← after_answer "p" (persisted_target sample_request DecisionAllow) denied; decide_in c (proc "curl") "api.example.com" None) = Some DecisionDeny.
Proof. vm_compute. reflexivity. Qed.

(** The user is asked because of a rule on the address; the answer is a rule on the name, which is
    less specific, and the next connection asks again. *)
Example answer_below_prompting_rule :
  let asking := one_process "curl" "deny" [ip_rule "192.168.100.200" "approve"] in
  let ip := ParseIP (string_bytes "192.168.100.200") in
  let short := mkTarget "a.example" "" "" "443" "tcp" DecisionDeny in
  decide_in asking (proc "curl") "a.example" ip = Some DecisionApprove /\
  (c ← after_answer "p" short asking; decide_in c (proc "curl") "a.example" ip) = Some DecisionApprove.
Proof. split; vm_compute; reflexivity. Qed.

End Sample.

End Persisted.
Export Persisted.
