(* ===== verification/GoJsonRaw.v ===== *)
(** * JSON text that is passed on: [json.RawMessage] and decoding into structs

    What the proxy uses of [encoding/json] beyond [GoJson]: documents whose parts are kept as text
    ([map[string]json.RawMessage], [[]json.RawMessage]), written back compacted and with HTML
    escaping, and decoding into structs: members in the order of the text, field names matched up to
    case, repeated members decoded into what the earlier ones left.  A document is its tree of
    tokens; strings keep the text between their quotes.  [RawText]: the scanner, the printer and the
    decoder.  [RawFacts]: what is printed is read back, and escaping changes no meaning. *)

From Stdlib Require Import ZArith Lia Ascii String.
From stdpp Require Import base list strings.
From S2P Require Import Prelude GoText GoNet GoStrings GoJson.
Open Scope string_scope.
Open Scope list_scope.
Open Scope Z_scope.

Module RawText.

Inductive rjson : Type :=
| RNull
| RBool (b : bool)
| RNumber (lit : list Z)
| RString (raw : list Z)
| RArray (l : list rjson)
| RObject (m : list (list Z * rjson)).

(** ** Scanner *)

(** The text of a string up to its closing quote, which is consumed. *)
Fixpoint span_raw (n : nat) (bs : list Z) : option (list Z * list Z) :=
  match n, bs with
  | S n', b :: r =>
    if b =? 34 then Some ([], r)
    else if b =? 92 then
      match r with
      | c :: r1 =>
        if c =? 117 then
          match parse_hex 4 0 r1 with
          | Ok (_, r2) => '(raw, r3) ← span_raw n' r2; Some (92 :: 117 :: take 4 r1 ++ raw, r3)
          | Err _ => None
          end
        else match simple_escape c with
        | Some _ => '(raw, r2) ← span_raw n' r1; Some (92 :: c :: raw, r2)
        | None => None
        end
      | [] => None
      end
    else if b <? 32 then None
    else '(raw, r1) ← span_raw n' r; Some (b :: raw, r1)
  | _, _ => None
  end.

Definition scan_string (bs : list Z) : option (list Z * list Z) := span_raw (length bs) bs.

(** The string a literal stands for. *)
Definition unquote (raw : list Z) : string :=
  match parse_string (raw ++ [34]) with Ok (s, _) => s | Err _ => "" end.

Definition eat (c : Z) (bs : list Z) : option (list Z) :=
  match bs with b :: r => if b =? c then Some r else None | [] => None end.

Section Containers.
Variable scan_value : list Z -> option (rjson * list Z).

Fixpoint scan_members (n : nat) (bs : list Z) : option (list (list Z * rjson) * list Z) :=
  match n with
  | O => None
  | S n' =>
    r0 ← eat 34 bs;
    '(k, r1) ← scan_string r0;
    r2 ← eat 58 (skip_ws r1);
    '(v, r3) ← scan_value (skip_ws r2);
    match skip_ws r3 with
    | [] => None
    | c :: r4 =>
      if c =? 44 then '(m, r5) ← scan_members n' (skip_ws r4); Some ((k, v) :: m, r5)
      else if c =? 125 then Some ([(k, v)], r4)
      else None
    end
  end.

Fixpoint scan_elements (n : nat) (bs : list Z) : option (list rjson * list Z) :=
  match n with
  | O => None
  | S n' =>
    '(v, r1) ← scan_value bs;
    match skip_ws r1 with
    | [] => None
    | c :: r2 =>
      if c =? 44 then '(vs, r3) ← scan_elements n' (skip_ws r2); Some (v :: vs, r3)
      else if c =? 93 then Some ([v], r2)
      else None
    end
  end.

End Containers.

Definition scan_lit {A} (lit : list Z) (v : A) (bs : list Z) : option (A * list Z) :=
  match parse_lit lit v bs with Ok p => Some p | Err _ => None end.

Fixpoint scan_value (d : nat) (bs : list Z) : option (rjson * list Z) :=
  match bs with
  | [] => None
  | b :: r =>
    if b =? 123 then
      match d with
      | O => None
      | S d' =>
        match skip_ws r with
        | [] => None
        | c :: r1 =>
          if c =? 125 then Some (RObject [], r1)
          else '(m, r2) ← scan_members (scan_value d') (length r) (c :: r1); Some (RObject m, r2)
        end
      end
    else if b =? 91 then
      match d with
      | O => None
      | S d' =>
        match skip_ws r with
        | [] => None
        | c :: r1 =>
          if c =? 93 then Some (RArray [], r1)
          else '(l, r2) ← scan_elements (scan_value d') (length r) (c :: r1); Some (RArray l, r2)
        end
      end
    else if b =? 34 then '(raw, r1) ← scan_string r; Some (RString raw, r1)
    else if b =? 116 then scan_lit (string_bytes "rue") (RBool true) r
    else if b =? 102 then scan_lit (string_bytes "alse") (RBool false) r
    else if b =? 110 then scan_lit (string_bytes "ull") RNull r
    else if (b =? 45) || is_digit b then
      match parse_number bs with Ok (lit, r1) => Some (RNumber lit, r1) | Err _ => None end
    else None
  end.

(** The check of [json.Unmarshal] and [json.Valid]: one value and white space around it. *)
Definition scan (bs : list Z) : option rjson :=
  '(c, r) ← scan_value maxNestingDepth (skip_ws bs);
  match skip_ws r with [] => Some c | _ => None end.

(** ** Printer *)

(** [compact] with [escapeHTML] inside a string: [<], [>], [&], U+2028 and U+2029. *)
Fixpoint esc (raw : list Z) : list Z :=
  match raw with
  | [] => []
  | b :: r =>
    if (b =? 60) || (b =? 62) || (b =? 38) then u_escape b ++ esc r
    else match r with
    | 128 :: c :: r' =>
      if (b =? 226) && ((c =? 168) || (c =? 169)) then u_escape (8192 + (c - 128)) ++ esc r'
      else b :: esc r
    | _ => b :: esc r
    end
  end.

(** What marshalling a [RawMessage] writes, as a tree. *)
Fixpoint escaped (c : rjson) : rjson :=
  match c with
  | RString raw => RString (esc raw)
  | RArray l => RArray (map escaped l)
  | RObject m => RObject (map (fun p => (esc p.1, escaped p.2)) m)
  | _ => c
  end.

Fixpoint print (c : rjson) : list Z :=
  match c with
  | RNull => string_bytes "null"
  | RBool true => string_bytes "true"
  | RBool false => string_bytes "false"
  | RNumber lit => lit
  | RString raw => 34 :: raw ++ [34]
  | RArray l => 91 :: sep_by 44 (map print l) ++ [93]
  | RObject m => 123 :: sep_by 44 (map (fun p => 34 :: p.1 ++ 34 :: 58 :: print p.2) m) ++ [125]
  end.

(** The literal of a marshalled string, without its quotes. *)
Definition quote (s : string) : list Z := concat (append_rune <$> range_runes (string_bytes s)).

Definition str (s : string) : rjson := RString (quote s).

(** ** Maps of messages *)

(** [map[string]json.RawMessage], sorted by key as it is marshalled. *)
Definition rmap : Type := list (string * rjson).

Fixpoint rput (k : string) (v : rjson) (m : rmap) : rmap :=
  match m with
  | [] => [(k, v)]
  | (k', v') :: m' =>
    match String.compare k k' with
    | Lt => (k, v) :: m
    | Eq => (k, v) :: m'
    | Gt => (k', v') :: rput k v m'
    end
  end.

Definition rget (k : string) (m : rmap) : option rjson := table_get m k.

Definition rdelete (k : string) (m : rmap) : rmap := List.filter (fun p => p.1 !=? k) m.

(** [json.Unmarshal(data, &m)] into a nil map or slice: nil data is not a document, and null leaves
    nil. *)
Definition as_map (c : option rjson) : option (option rmap) :=
  match c with
  | Some (RObject m) => Some (Some (fold_left (fun acc p => rput (unquote p.1) p.2 acc) m []))
  | Some RNull => Some None
  | _ => None
  end.

Definition as_list (c : option rjson) : option (list rjson) :=
  match c with
  | Some (RArray l) => Some l
  | Some RNull => Some []
  | _ => None
  end.

(** [m[k]] and [json.Marshal]; the slices that are marshalled are nil when they are empty. *)
Definition mget (k : string) (m : option rmap) : option rjson := m ← m; rget k m.
Definition of_map (m : option rmap) : rjson :=
  match m with None => RNull | Some m => RObject (map (fun p => (quote p.1, escaped p.2)) m) end.
Definition of_list (l : list rjson) : rjson := match l with [] => RNull | _ => RArray (map escaped l) end.

(** ** Decoding into structs *)

(** The types the proxy decodes into, and their values.  A slice remembers the elements behind its
    length: a later array is decoded into them. *)
Inductive gotype : Type :=
| TString | TInt | TRaw | TPtrString
| TStruct (fields : list (string * gotype))
| TSlice (t : gotype).

Inductive goval : Type :=
| VString (s : string)
| VInt (z : Z)
| VRaw (c : option rjson)
| VPtr (s : option string)
| VStruct (fields : list (string * goval))
| VSlice (l stale : list goval).

Fixpoint zero (t : gotype) : goval :=
  match t with
  | TString => VString ""
  | TInt => VInt 0
  | TRaw => VRaw None
  | TPtrString => VPtr None
  | TStruct fs => VStruct (map (fun f => (f.1, zero f.2)) fs)
  | TSlice _ => VSlice [] []
  end.

(** [foldName] on the runes of a key.  Besides the ASCII letters only U+017F and U+212A fold to
    ASCII, so other runes never match the name of a field. *)
Definition fold_rune (r : Z) : Z :=
  if between 97 r 122 then r - 32 else if r =? 383 then 83 else if r =? 8490 then 75 else r.

Definition fold_name (s : string) : list Z := fold_rune <$> (range_runes (string_bytes s)).*1.

(** [f := fields.byExactName[key]; if f == nil { f = fields.byFoldedName[foldName(key)] }]. *)
Definition find_field {A} (fs : list (string * A)) (key : string) : option (string * A) :=
  match List.find (fun f => f.1 ==? key) fs with
  | Some f => Some f
  | None => List.find (fun f => fold_name f.1 ==? fold_name key) fs
  end.

Definition set_field (k : string) (v : goval) (vs : list (string * goval)) : list (string * goval) :=
  map (fun f => if f.1 ==? k then (f.1, v) else f) vs.

Definition get_field (k : string) (vs : list (string * goval)) : option goval := table_get vs k.

Section Decoding.
Variable dec : rjson -> gotype -> goval -> option goval.

(** The elements of an array, into those the slice has; the rest of these stays behind its length. *)
Fixpoint decode_elements (t : gotype) (l : list rjson) (old : list goval) : option (list goval * list goval) :=
  match l with
  | [] => Some ([], old)
  | c :: l' =>
    x ← dec c t (match old with o :: _ => o | [] => zero t end);
    '(xs, stale) ← decode_elements t l' (tail old);
    Some (x :: xs, stale)
  end.

Fixpoint decode_members (fs : list (string * gotype)) (m : list (list Z * rjson)) (vs : list (string * goval)) : option (list (string * goval)) :=
  match m with
  | [] => Some vs
  | p :: m' =>
    match find_field fs (unquote p.1) with
    | None => decode_members fs m' vs
    | Some (name, t) =>
      x ← dec p.2 t (default (zero t) (get_field name vs));
      decode_members fs m' (set_field name x vs)
    end
  end.

End Decoding.

Definition backing (v : goval) : list goval := match v with VSlice old stale => old ++ stale | _ => [] end.
Definition vfields (v : goval) : list (string * goval) := match v with VStruct vs => vs | _ => [] end.

(** The decoder behind [json.Unmarshal] on a document that was checked; [None] stands for an error,
    after which no caller looks at the value. *)
Fixpoint decode (c : rjson) (t : gotype) (v : goval) : option goval :=
  match t with
  | TRaw => Some (VRaw (Some c))
  | TString => match c with RNull => Some v | RString raw => Some (VString (unquote raw)) | _ => None end
  | TInt => match c with RNull => Some v | RNumber lit => VInt <$> Atoi (bytes_string lit) | _ => None end
  | TPtrString => match c with RNull => Some (VPtr None) | RString raw => Some (VPtr (Some (unquote raw))) | _ => None end
  | TSlice t' =>
    match c with
    | RNull | RArray [] => Some (VSlice [] [])
    | RArray l => '(vs, stale) ← decode_elements decode t' l (backing v); Some (VSlice vs stale)
    | _ => None
    end
  | TStruct fs =>
    match c with
    | RNull => Some v
    | RObject m => VStruct <$> decode_members decode fs m (vfields v)
    | _ => None
    end
  end.

(** [json.Unmarshal(data, &x)] with [var x T]. *)
Definition unmarshal (t : gotype) (bs : list Z) : option goval := c ← scan bs; decode c t (zero t).

(** Reading a decoded value. *)
Definition field (k : string) (v : goval) : goval := default (VString "") (get_field k (vfields v)).
Definition vstr (v : goval) : string := match v with VString s => s | _ => "" end.
Definition vint (v : goval) : Z := match v with VInt z => z | _ => 0 end.
Definition vlist (v : goval) : list goval := match v with VSlice l _ => l | _ => [] end.
Definition vraw (v : goval) : option rjson := match v with VRaw c => c | _ => None end.
Definition vptr (v : goval) : option string := match v with VPtr s => s | _ => None end.

End RawText.
Export RawText.

Module RawFacts.

(** ** Literals *)

(** The text of a string between its quotes. *)
Inductive raw_text : list Z -> Prop :=
| rt_nil : raw_text []
| rt_byte b r : 32 <= b -> b <> 34 -> b <> 92 -> raw_text r -> raw_text (b :: r)
| rt_simple c x r : c <> 117 -> simple_escape c = Some x -> raw_text r -> raw_text (92 :: c :: r)
| rt_unicode a b c d v r : parse_hex 4 0 [a; b; c; d] = Ok (v, []) -> raw_text r -> raw_text (92 :: 117 :: a :: b :: c :: d :: r).

Lemma parse_hex4 bs v r : parse_hex 4 0 bs = Ok (v, r) ->
  exists a b c d, bs = a :: b :: c :: d :: r /\ forall t, parse_hex 4 0 (a :: b :: c :: d :: t) = Ok (v, t).
Proof.
  destruct bs as [|a [|b [|c [|d bs]]]]; cbn [parse_hex]; intros H; repeat case_match; simplify_eq.
  exists a, b, c, d. split; [done|]. intros t. by simplify_option_eq.
Qed.

Lemma span_raw_sound n bs raw r : span_raw n bs = Some (raw, r) -> raw_text raw /\ bs = raw ++ 34 :: r.
Proof.
  revert bs raw r. induction n as [|n IH]; intros [|b bs] raw r H; try done. cbn [span_raw] in H.
  destruct (Z.eqb_spec b 34) as [->|H34]; [simplify_eq; split; [constructor|done]|].
  destruct (Z.eqb_spec b 92) as [->|H92].
  - destruct bs as [|c bs]; [done|]. destruct (Z.eqb_spec c 117) as [->|Hc].
    + destruct (parse_hex 4 0 bs) as [[v r2]|] eqn:Eh; [|done]. apply parse_hex4 in Eh as (x & y & z & w & -> & Hh).
      apply bind_Some in H as ([raw' r'] & H & [= <- <-]). apply IH in H as [H ->].
      split; [|done]. cbn [take app]. by eapply rt_unicode.
    + destruct (simple_escape c) eqn:Es; [|done]. apply bind_Some in H as ([raw' r'] & H & [= <- <-]).
      apply IH in H as [H ->]. split; [|done]. by eapply rt_simple.
  - destruct (b <? 32) eqn:E32; [done|]. apply bind_Some in H as ([raw' r'] & H & [= <- <-]).
    apply IH in H as [H ->]. split; [|done]. by apply rt_byte; [lia|..].
Qed.

Lemma span_raw_complete raw : raw_text raw -> forall n rest, (length raw < n)%nat -> span_raw n (raw ++ 34 :: rest) = Some (raw, rest).
Proof.
  induction 1 as [|b r H32 H34 H92 Hr IH|c x r Hc Hx Hr IH|a b c d v r Hv Hr IH]; intros n rest Hn;
    (destruct n as [|n]; [cbn in Hn; lia|]); cbn [app span_raw].
  - done.
  - rewrite (proj2 (Z.eqb_neq b 34)), (proj2 (Z.eqb_neq b 92)), (proj2 (Z.ltb_ge b 32)) by lia.
    rewrite IH by (cbn in Hn; lia). done.
  - simpl (92 =? 34). simpl (92 =? 92). cbv iota. rewrite (proj2 (Z.eqb_neq c 117)), Hx by done.
    rewrite IH by (cbn in Hn; lia). done.
  - simpl (92 =? 34). simpl (92 =? 92). simpl (117 =? 117). cbv iota. apply parse_hex4 in Hv as (? & ? & ? & ? & [= <- <- <- <-] & Hv).
    rewrite Hv, IH by (cbn in Hn; lia). done.
Qed.

Lemma scan_string_complete raw rest : raw_text raw -> scan_string (raw ++ 34 :: rest) = Some (raw, rest).
Proof. intros H. apply (span_raw_complete _ H). rewrite length_app. cbn. lia. Qed.

(** *** Escaping changes no meaning *)

Fixpoint cont_prefix (l : list Z) : list Z :=
  match l with b :: r => if is_cont b then b :: cont_prefix r else [] | [] => [] end.

(** Beyond ASCII a rune is decided by its first byte and the continuation bytes behind it. *)
Lemma DecodeRune_cont b r : 127 < b -> DecodeRune (b :: r) = DecodeRune (b :: cont_prefix r).
Proof.
  intros Hb. assert (E : between 0 b 127 = false) by (unfold between; lia).
  destruct r as [|b1 r1]; [done|]. cbn [cont_prefix]. destruct (is_cont b1) eqn:E1.
  2:{ cbn [DecodeRune]. rewrite E, E1. unfold is_cont, between in *. destruct r1 as [|b2 [|b3 ?]]; repeat case_match; try done; lia. }
  destruct r1 as [|b2 r2]; [done|]. cbn [cont_prefix]. destruct (is_cont b2) eqn:E2.
  2:{ cbn [DecodeRune]. rewrite E, E1, E2, !andb_false_r. by destruct (between 194 b 223 && true), r2. }
  destruct r2 as [|b3 r3]; [done|]. cbn [cont_prefix]. destruct (is_cont b3) eqn:E3; [done|].
  cbn [DecodeRune]. by rewrite E, E1, E2, E3, !andb_true_r, !andb_false_r.
Qed.

Lemma DecodeRune_width b r : 127 < b -> exists k, (DecodeRune (b :: r)).2 = S k /\ (k <= length (cont_prefix r))%nat.
Proof.
  intros Hb. rewrite DecodeRune_cont by done. remember (cont_prefix r) as cp eqn:Ec. clear Ec.
  destruct (DecodeRune (b :: cp)) as [ru k] eqn:E. cbn [DecodeRune] in E. cbn [snd].
  repeat case_match; simplify_eq/=; eexists; (split; [reflexivity|]); cbn; lia.
Qed.

Lemma cont_prefix_quote r t : cont_prefix (r ++ 34 :: t) = cont_prefix r.
Proof. induction r as [|b r IH]; cbn; [done|]. by rewrite IH. Qed.

Lemma raw_text_drop k r : raw_text r -> (k <= length (cont_prefix r))%nat -> raw_text (drop k r).
Proof.
  revert k. induction r as [|b r IH]; intros k Hr Hk; [by rewrite drop_nil|].
  destruct k as [|k]; [done|]. cbn [cont_prefix] in Hk. destruct (is_cont b) eqn:E; [|cbn in Hk; lia].
  unfold is_cont, between in E. cbn [drop]. apply IH; [|cbn in Hk; lia]. inversion Hr; subst; [done|lia..].
Qed.

Definition html (b : Z) : bool := (b =? 60) || (b =? 62) || (b =? 38).
Definition line_sep (r : list Z) : option (Z * list Z) :=
  match r with 226 :: 128 :: c :: r' => if (c =? 168) || (c =? 169) then Some (8192 + (c - 128), r') else None | _ => None end.

Lemma esc_unfold b r : esc (b :: r) =
  if html b then u_escape b ++ esc r
  else match line_sep (b :: r) with Some (u, r') => u_escape u ++ esc r' | None => b :: esc r end.
Proof.
  cbn [esc]. unfold html. destruct (_ || _ || _); [done|].
  assert (Hl : line_sep (b :: r) = match r with
    | 128 :: c :: r' => if (b =? 226) && ((c =? 168) || (c =? 169)) then Some (8192 + (c - 128), r') else None
    | _ => None end).
  { unfold line_sep. destruct (Z.eqb_spec b 226) as [->|Hb]; [done|]. cbn [andb]. by repeat case_match. }
  rewrite Hl. by repeat case_match.
Qed.

Lemma line_sep_Some l u r : line_sep l = Some (u, r) -> (u = 8232 /\ l = 226 :: 128 :: 168 :: r) \/ (u = 8233 /\ l = 226 :: 128 :: 169 :: r).
Proof.
  unfold line_sep. intros H. repeat case_match; simplify_eq.
  match goal with H : _ || _ = true |- _ => apply orb_true_iff in H as [->%Z.eqb_eq| ->%Z.eqb_eq] end; [by left|by right].
Qed.

Lemma esc_plain b r : html b = false -> b <> 226 -> esc (b :: r) = b :: esc r.
Proof.
  intros Hb H. rewrite esc_unfold, Hb. destruct (line_sep (b :: r)) as [[u r']|] eqn:E; [|done].
  apply line_sep_Some in E as [[_ ?]|[_ ?]]; simplify_eq.
Qed.

(** The bytes of an escape are not changed. *)
Lemma esc_simple c x r : simple_escape c = Some x -> esc (92 :: c :: r) = 92 :: c :: esc r.
Proof.
  intros Hx. assert (html c = false /\ c <> 226) as [? ?] by (unfold simple_escape, html in *; repeat case_match; simplify_eq; lia).
  by rewrite !esc_plain by done.
Qed.

Lemma esc_unicode a b c d v r : parse_hex 4 0 [a; b; c; d] = Ok (v, []) ->
  esc (92 :: 117 :: a :: b :: c :: d :: r) = 92 :: 117 :: a :: b :: c :: d :: esc r.
Proof.
  assert (Hh : forall h, is_Some (hex_value h) -> html h = false /\ h <> 226).
  { intros h [x Hx]. unfold hex_value, between, html in *. repeat case_match; simplify_eq; lia. }
  intros Hv. cbn [parse_hex] in Hv. destruct (hex_value a) eqn:?, (hex_value b) eqn:?, (hex_value c) eqn:?, (hex_value d) eqn:?; try done.
  by rewrite !esc_plain by (try done; apply Hh; eauto).
Qed.

Lemma esc_cont k r : (k <= length (cont_prefix r))%nat -> cont_prefix (esc r) = cont_prefix r /\ drop k (esc r) = esc (drop k r).
Proof.
  revert k. induction r as [|b r IH]; intros k Hk; [by destruct k|]. cbn [cont_prefix] in *. destruct (is_cont b) eqn:E.
  - assert (128 <= b <= 191) by (unfold is_cont, between in E; lia).
    rewrite esc_plain by (unfold html; lia). cbn [cont_prefix]. rewrite E. split; [f_equal; by apply (IH O); lia|].
    destruct k as [|k]; [cbn [drop]; rewrite esc_plain by (unfold html; lia); done|]. cbn [drop]. apply IH. cbn in Hk. lia.
  - cbn in Hk. assert (k = O) as -> by lia. split; [|done]. rewrite esc_unfold.
    destruct (html b) eqn:Eh; [unfold u_escape; done|]. destruct (line_sep (b :: r)) as [[u r']|]; [unfold u_escape; done|]. cbn. by rewrite E.
Qed.

Lemma raw_text_esc_aux n r : (length r <= n)%nat -> raw_text r -> raw_text (esc r).
Proof.
  revert r. induction n as [|n IH]; intros r Hn Hr; [by destruct r; [constructor|cbn in Hn; lia]|].
  assert (Hu : forall u t, u = 60 \/ u = 62 \/ u = 38 \/ u = 8232 \/ u = 8233 -> raw_text t -> raw_text (u_escape u ++ t)).
  { intros u t Hu Ht. destruct Hu as [->|[->|[->|[->| ->]]]]; (eapply rt_unicode; [vm_compute; reflexivity|done]). }
  destruct Hr as [|b r H32 H34 H92 Hr|c x r Hc Hx Hr|a b c d v r Hv Hr]; cbn [length] in Hn.
  - constructor.
  - rewrite esc_unfold. destruct (html b) eqn:Eh; [apply Hu; [unfold html in Eh; lia|apply IH; [lia|done]]|].
    destruct (line_sep (b :: r)) as [[u r']|] eqn:El.
    + apply line_sep_Some in El as [[-> E]|[-> E]]; injection E as -> ->; (apply Hu; [lia|]); apply IH; try (cbn in Hn; lia);
        inversion_clear Hr as [|? ? ? ? ? Hr'| |]; by inversion_clear Hr'.
    + apply rt_byte; [done..|apply IH; [lia|done]].
  - rewrite (esc_simple _ _ _ Hx). eapply rt_simple; [done..|]. apply IH; [lia|done].
  - rewrite (esc_unicode _ _ _ _ _ _ Hv). eapply rt_unicode; [done|]. apply IH; [lia|done].
Qed.

Lemma raw_text_esc r : raw_text r -> raw_text (esc r).
Proof. by apply (raw_text_esc_aux (length r)). Qed.

(** [raw] stands for the bytes [s], whatever follows its quote. *)
Definition stands (raw s : list Z) : Prop :=
  forall m t, (length raw < m)%nat -> parse_string_from m (raw ++ 34 :: t) = Ok (s, t).

Lemma stands_nil : stands [] [].
Proof. intros [|m] t Hm; [cbn in Hm; lia|done]. Qed.

Lemma stands_u_escape u r s : u = 60 \/ u = 62 \/ u = 38 \/ u = 8232 \/ u = 8233 -> stands r s -> stands (u_escape u ++ r) (encode_rune u ++ s).
Proof.
  intros Hu Hr m t Hm. rewrite <- app_assoc. destruct m as [|m]; [cbn in Hm; lia|]. rewrite parse_u_escape by lia.
  rewrite Hr; [done|]. rewrite length_app in Hm. unfold u_escape in Hm. cbn in Hm. lia.
Qed.

Lemma stands_byte b r s : 32 <= b -> b <> 34 -> b <> 92 -> b <= 127 -> stands r s -> stands (b :: r) (b :: s).
Proof.
  intros H1 H2 H3 H4 Hr m t Hm. destruct m as [|m]; [cbn in Hm; lia|].
  assert (E : encode_rune b = [b]) by (unfold encode_rune; by rewrite (proj2 (Z.leb_le b 127)) by lia).
  pose proof (parse_raw_rune m b (r ++ 34 :: t)) as Hp. rewrite E in Hp. cbn [app] in Hp |- *.
  rewrite Hp by (unfold scalar; lia). rewrite Hr by (cbn in Hm; lia). done.
Qed.

Lemma stands_wide b r s k : 127 < b -> (DecodeRune (b :: r)).2 = S k -> stands (drop k r) s ->
  stands (b :: r) (encode_rune (DecodeRune (b :: r)).1 ++ s).
Proof.
  intros Hb Hk Hr m t Hm. destruct m as [|m]; [cbn in Hm; lia|]. cbn [app parse_string_from].
  rewrite (proj2 (Z.eqb_neq b 34)), (proj2 (Z.eqb_neq b 92)), (proj2 (Z.ltb_ge b 32)) by lia.
  assert (Hd : DecodeRune (b :: r ++ 34 :: t) = DecodeRune (b :: r))
    by (rewrite (DecodeRune_cont b (r ++ 34 :: t)), (DecodeRune_cont b r), cont_prefix_quote by done; done).
  destruct (DecodeRune_width b r Hb) as (k' & Ek & Hk'). rewrite Hk in Ek. injection Ek as <-.
  assert (length (cont_prefix r) <= length r)%nat by (clear; induction r as [|x r IH]; cbn; [done|]; destruct (is_cont x); cbn; lia).
  rewrite Hd. destruct (DecodeRune (b :: r)) as [ru w] eqn:E. cbn [fst snd] in *. subst w. cbn [drop].
  rewrite drop_app_le by lia. rewrite Hr; [done|]. rewrite length_drop. cbn in Hm. lia.
Qed.

Lemma stands_simple c x r s : c <> 117 -> simple_escape c = Some x -> stands r s -> stands (92 :: c :: r) (x :: s).
Proof.
  intros Hc Hx Hr m t Hm. destruct m as [|m]; [cbn in Hm; lia|]. cbn [app parse_string_from].
  simpl (92 =? 34). simpl (92 =? 92). cbv iota. rewrite (proj2 (Z.eqb_neq c 117)), Hx by done. rewrite Hr by (cbn in Hm; lia). done.
Qed.

Lemma stands_unicode h v r s : length h = 4%nat -> (forall t, parse_hex 4 0 (h ++ t) = Ok (v, t)) ->
  (forall m t, (length r < m)%nat -> let '(ru, r') := unicode_escape v (r ++ 34 :: t) in
     ('(s, r'') <-? parse_string_from m r'; Ok (encode_rune ru ++ s, r'')) = Ok (s, t)) ->
  stands (92 :: 117 :: h ++ r) s.
Proof.
  intros Hl Hh Hr m t Hm. destruct m as [|m]; [cbn in Hm; lia|]. cbn [app parse_string_from].
  simpl (92 =? 34). simpl (92 =? 92). simpl (117 =? 117). cbv iota. rewrite <- app_assoc, Hh. cbn [rbind].
  specialize (Hr m t ltac:(cbn in Hm; rewrite length_app in Hm; lia)).
  destruct (unicode_escape v (r ++ 34 :: t)) as [ru r']. exact Hr.
Qed.

(** What a surrogate sees behind it: an escape, or text that is not one. *)
Lemma getu4_escape a b c d v r : (forall t, parse_hex 4 0 (a :: b :: c :: d :: t) = Ok (v, t)) ->
  getu4 (92 :: 117 :: a :: b :: c :: d :: r) = Some (v, r).
Proof. intros H. unfold getu4. by rewrite H. Qed.

Lemma getu4_not92 b r : b <> 92 -> getu4 (b :: r) = None.
Proof. intros H. unfold getu4. by repeat case_match. Qed.

Lemma getu4_simple c r : c <> 117 -> getu4 (92 :: c :: r) = None.
Proof. intros H. unfold getu4. by repeat case_match. Qed.

(** An escape [\uXXXX] with what it takes from the text behind it, escaped or not. *)
Lemma unicode_next v r : raw_text r -> exists u r2, raw_text r2 /\ (length r2 <= length r)%nat /\ (length (esc r2) <= length (esc r))%nat /\
  forall t, unicode_escape v (r ++ 34 :: t) = (u, r2 ++ 34 :: t) /\ unicode_escape v (esc r ++ 34 :: t) = (u, esc r2 ++ 34 :: t).
Proof.
  intros Hr. unfold unicode_escape. destruct (is_surrogate v) eqn:Es; [|by exists v, r].
  assert (Hkeep : forall x, x = 60 \/ x = 62 \/ x = 38 \/ x = 8232 \/ x = 8233 -> forall t, getu4 (u_escape x ++ t) = Some (x, t) /\ utf16_decode v x = RuneError).
  { intros x Hx t. split; [|unfold utf16_decode, between; destruct (_ && _) eqn:E; [lia|done]].
    unfold u_escape. cbn [app]. unfold getu4. by rewrite parse_hex_hex4 by lia. }
  assert (Hstay : (forall t, getu4 (r ++ 34 :: t) = None) ->
    (forall t, getu4 (esc r ++ 34 :: t) = None \/ exists x t', getu4 (esc r ++ 34 :: t) = Some (x, t') /\ utf16_decode v x = RuneError) ->
    exists u r2, raw_text r2 /\ (length r2 <= length r)%nat /\ (length (esc r2) <= length (esc r))%nat /\
      forall t, match getu4 (r ++ 34 :: t) with Some (rr1, r') => if utf16_decode v rr1 =? RuneError then (RuneError, r ++ 34 :: t) else (utf16_decode v rr1, r') | None => (RuneError, r ++ 34 :: t) end = (u, r2 ++ 34 :: t) /\
                match getu4 (esc r ++ 34 :: t) with Some (rr1, r') => if utf16_decode v rr1 =? RuneError then (RuneError, esc r ++ 34 :: t) else (utf16_decode v rr1, r') | None => (RuneError, esc r ++ 34 :: t) end = (u, esc r2 ++ 34 :: t)).
  { intros H1 H2. exists RuneError, r. split_and!; [done..|]. intros t. rewrite H1. split; [done|].
    destruct (H2 t) as [->|(x & t' & -> & ->)]; [done|]. by rewrite Z.eqb_refl. }
  destruct Hr as [|b r H32 H34 H92 Hr|c x r Hc Hx Hr|a b c d v2 r Hv Hr].
  - apply Hstay; [done|by left].
  - apply Hstay; [intros t; by apply getu4_not92|]. intros t. rewrite esc_unfold. destruct (html b) eqn:Eh.
    { right. rewrite <- app_assoc. destruct (Hkeep b ltac:(unfold html in Eh; lia) (esc r ++ 34 :: t)). eauto. }
    destruct (line_sep (b :: r)) as [[u r']|] eqn:El; [|left; by apply getu4_not92].
    right. rewrite <- app_assoc. apply line_sep_Some in El.
    destruct (Hkeep u ltac:(destruct El as [[-> _]|[-> _]]; lia) (esc r' ++ 34 :: t)). eauto.
  - apply Hstay; [intros t; by apply getu4_simple|]. intros t. left. rewrite (esc_simple _ _ _ Hx). by apply getu4_simple.
  - pose proof (esc_unicode _ _ _ _ _ r Hv) as He. pose proof Hv as Hd. apply parse_hex4 in Hv as (? & ? & ? & ? & [= <- <- <- <-] & Hv).
    destruct (Z.eqb_spec (utf16_decode v v2) RuneError) as [E|E].
    + exists RuneError, (92 :: 117 :: a :: b :: c :: d :: r). split_and!; [by eapply rt_unicode|done..|]. intros t.
      rewrite He. cbn [app]. rewrite !(getu4_escape _ _ _ _ _ _ Hv), E, Z.eqb_refl. done.
    + exists (utf16_decode v v2), r. split_and!; [done|cbn; lia|rewrite He; cbn; lia|]. intros t.
      rewrite He. cbn [app]. rewrite !(getu4_escape _ _ _ _ _ _ Hv), (proj2 (Z.eqb_neq _ _) E). done.
Qed.

Lemma meaning_aux n r : (length r <= n)%nat -> raw_text r -> exists s, stands r s /\ stands (esc r) s.
Proof.
  revert r. induction n as [|n IH]; intros r Hn Hr; [destruct r; [|cbn in Hn; lia]; exists []; split; apply stands_nil|].
  destruct Hr as [|b r H32 H34 H92 Hr|c x r Hc Hx Hr|a b c d v r Hv Hr]; cbn [length] in Hn.
  - exists []. split; apply stands_nil.
  - destruct (Z.le_gt_cases b 127) as [Hb|Hb].
    + destruct (IH r ltac:(lia) Hr) as (s & H1 & H2). exists (b :: s). split; [by apply stands_byte|].
      rewrite esc_unfold. destruct (html b) eqn:Eh.
      { pose proof (stands_u_escape b _ _ ltac:(unfold html in Eh; lia) H2) as H. unfold encode_rune in H. by rewrite (proj2 (Z.leb_le b 127)) in H by lia. }
      destruct (line_sep (b :: r)) as [[u r']|] eqn:El; [|by apply stands_byte].
      apply line_sep_Some in El as [[_ E]|[_ E]]; simplify_eq; lia.
    + destruct (DecodeRune_width b r Hb) as (k & Ek & Hk). destruct (esc_cont k r Hk) as [Hcp Hdrop].
      destruct (IH (drop k r)) as (s & H1 & H2); [rewrite length_drop; lia|by apply raw_text_drop|].
      exists (encode_rune (DecodeRune (b :: r)).1 ++ s). split; [by apply (stands_wide _ _ _ k)|].
      rewrite esc_unfold. assert (html b = false) as -> by (unfold html; lia).
      destruct (line_sep (b :: r)) as [[u r']|] eqn:El.
      * assert (drop k r = r' /\ (DecodeRune (b :: r)).1 = u /\ (u = 8232 \/ u = 8233)) as (E1 & -> & Hu).
        { apply line_sep_Some in El as [[-> E]|[-> E]]; injection E as -> ->; cbn in Ek; injection Ek as <-; split_and!; try done; auto. }
        rewrite E1 in H2. apply stands_u_escape; [lia|done].
      * assert (Hd : DecodeRune (b :: esc r) = DecodeRune (b :: r)) by (rewrite DecodeRune_cont, Hcp, <- DecodeRune_cont by done; done).
        rewrite <- Hd. apply (stands_wide _ _ _ k); [done|by rewrite Hd|by rewrite Hdrop].
  - destruct (IH r ltac:(lia) Hr) as (s & H1 & H2). exists (x :: s). split; [by apply stands_simple|].
    rewrite (esc_simple _ _ _ Hx). by apply stands_simple.
  - destruct (unicode_next v r Hr) as (u & r2 & Hr2 & Hl & Hle & Hu). destruct (IH r2 ltac:(lia) Hr2) as (s & H1 & H2).
    rewrite (esc_unicode _ _ _ _ _ r Hv). apply parse_hex4 in Hv as (? & ? & ? & ? & [= <- <- <- <-] & Hv).
    assert (Hgo : forall q q2, (length q2 <= length q)%nat -> (forall t, unicode_escape v (q ++ 34 :: t) = (u, q2 ++ 34 :: t)) -> stands q2 s ->
      stands (92 :: 117 :: [a; b; c; d] ++ q) (encode_rune u ++ s)).
    { intros q q2 Hq Hqu Hs. apply (stands_unicode _ v); [done|exact Hv|]. intros m t Hm. rewrite Hqu, Hs by lia. done. }
    exists (encode_rune u ++ s). split; [apply (Hgo r r2); [done|intros t; apply Hu|done]|].
    apply (Hgo (esc r) (esc r2)); [done|intros t; apply Hu|done].
Qed.

Lemma unquote_stands raw s : stands raw s -> unquote raw = bytes_string s.
Proof.
  intros H. unfold unquote, parse_string. rewrite H; [done|]. rewrite length_app. cbn. lia.
Qed.

Lemma unquote_esc raw : raw_text raw -> unquote (esc raw) = unquote raw.
Proof. intros H. destruct (meaning_aux _ _ (Nat.le_refl _) H) as (s & H1 & H2). by rewrite (unquote_stands _ _ H1), (unquote_stands _ _ H2). Qed.

(** A decoded string is valid text, and its literal stands for it. *)
Lemma unquote_valid raw : ValidString (unquote raw) = true.
Proof. unfold unquote. destruct (parse_string _) as [[s t]|] eqn:E; [by apply parse_string_valid in E|done]. Qed.

Lemma raw_text_app l l' : raw_text l -> raw_text l' -> raw_text (l ++ l').
Proof. induction 1; intros; cbn; [done|constructor; auto|eapply rt_simple; eauto|eapply rt_unicode; eauto]. Qed.

Lemma hex4_text r t : 0 <= r < 65536 -> raw_text t -> raw_text (u_escape r ++ t).
Proof.
  intros Hr Ht. unfold u_escape, hex4. cbn [app fmap list_fmap]. apply (rt_unicode _ _ _ _ r); [|done].
  pose proof (parse_hex_hex4 r [] Hr) as H. rewrite app_nil_r in H. exact H.
Qed.

Lemma encoded_text r : scalar r -> 127 < r -> Forall (fun b => 127 < b) (encode_rune r).
Proof.
  unfold scalar, encode_rune. intros Hs Hr. rewrite (proj2 (Z.leb_gt r 127)) by lia.
  destruct (Z.leb_spec r 2047); [|destruct (Z.leb_spec r 65535)]; repeat constructor; div_lia.
Qed.

Lemma append_rune_text r : scalar r -> raw_text (append_rune (r, encode_rune r)).
Proof.
  intros Hs. assert (0 <= r < 1114112) by (unfold scalar in Hs; lia).
  assert (Hu : 0 <= r < 65536 -> raw_text (u_escape r)) by (intros Hr; rewrite <- (app_nil_r (u_escape r)); by apply hex4_text; [|constructor]).
  assert (Hesc : forall c x, simple_escape c = Some x -> c <> 117 -> raw_text [92; c]) by (intros c x Hx Hc; by eapply rt_simple; [..|constructor]).
  unfold append_rune, between. destruct (_ && _) eqn:Ea.
  - assert (Henc : encode_rune r = [r]) by (unfold encode_rune; by rewrite (proj2 (Z.leb_le r 127)) by lia).
    destruct ((r =? 34) || (r =? 92)) eqn:E1; [apply orb_true_iff in E1 as [->%Z.eqb_eq| ->%Z.eqb_eq]; by eapply Hesc|].
    repeat (case_match; [by eapply Hesc|]). destruct ((r <? 32) || _ || _ || _) eqn:E8; [apply Hu; lia|].
    rewrite Henc. apply rt_byte; [lia..|constructor].
  - destruct ((r =? RuneError) && _); [by rewrite <- (app_nil_r (u_escape RuneError)); apply hex4_text; [unfold RuneError; lia|constructor]|].
    destruct (_ || _) eqn:E2; [apply Hu; lia|].
    pose proof (encoded_text r Hs ltac:(lia)) as H1. induction H1 as [|b l Hb Hl IH]; [constructor|]. apply rt_byte; [lia..|done].
Qed.

Lemma quote_spec s : ValidString s = true -> raw_text (quote s) /\ unquote (quote s) = s.
Proof.
  intros Hs. split.
  - destruct (ValidString_runes s Hs) as (rs & Hrs & _ & E). unfold quote. rewrite E. clear E. induction Hrs as [|r rs Hr Hrs IH]; [constructor|].
    rewrite !fmap_cons. cbn [concat]. apply raw_text_app; [by apply append_rune_text|done].
  - unfold unquote, quote. by rewrite parse_marshal_string.
Qed.

(** ** Documents *)

Section rjson_induction.
Variable P : rjson -> Prop.
Hypothesis Hnull : P RNull.
Hypothesis Hbool : forall b, P (RBool b).
Hypothesis Hnum : forall lit, P (RNumber lit).
Hypothesis Hstr : forall raw, P (RString raw).
Hypothesis Harr : forall l, Forall P l -> P (RArray l).
Hypothesis Hobj : forall m, Forall (fun p => P p.2) m -> P (RObject m).

Fixpoint rjson_induction (c : rjson) : P c :=
  match c with
  | RNull => Hnull
  | RBool b => Hbool b
  | RNumber lit => Hnum lit
  | RString raw => Hstr raw
  | RArray l => Harr l ((fix go l : Forall P l :=
      match l with
      | [] => Forall_nil_2 _
      | x :: l' => Forall_cons_2 _ _ _ (rjson_induction x) (go l')
      end) l)
  | RObject m => Hobj m ((fix go m : Forall (fun p => P p.2) m :=
      match m with
      | [] => Forall_nil_2 _
      | p :: m' => Forall_cons_2 _ _ _ (rjson_induction p.2) (go m')
      end) m)
  end.
End rjson_induction.

Fixpoint rwf (c : rjson) : Prop :=
  match c with
  | RNumber lit => valid_number lit
  | RString raw => raw_text raw
  | RArray l => fold_right (fun x P => rwf x /\ P) True l
  | RObject m => fold_right (fun p P => (raw_text p.1 /\ rwf p.2) /\ P) True m
  | _ => True
  end.

Fixpoint rdepth (c : rjson) : nat :=
  match c with
  | RArray l => S (fold_right (fun x n => Nat.max (rdepth x) n) 0%nat l)
  | RObject m => S (fold_right (fun p n => Nat.max (rdepth p.2) n) 0%nat m)
  | _ => 0%nat
  end.

(** A document within [d] levels of nesting. *)
Definition fits (d : nat) (c : rjson) : Prop := rwf c /\ (rdepth c <= d)%nat.

Lemma fits_array d l : fits (S d) (RArray l) <-> Forall (fits d) l.
Proof.
  unfold fits. cbn [rwf rdepth]. rewrite fold_and_Forall. assert (He : forall n, (S n <= S d)%nat <-> (n <= d)%nat) by lia.
  rewrite He, fold_max_le, !Forall_forall. naive_solver.
Qed.

Lemma fits_object d m : fits (S d) (RObject m) <-> Forall (fun p => raw_text p.1 /\ fits d p.2) m.
Proof.
  unfold fits. cbn [rwf rdepth]. rewrite fold_and_Forall. assert (He : forall n, (S n <= S d)%nat <-> (n <= d)%nat) by lia.
  rewrite He, fold_max_le, !Forall_forall. naive_solver.
Qed.

Lemma fits_le d d' c : fits d c -> (d <= d')%nat -> fits d' c.
Proof. intros [? ?] ?. split; [done|lia]. Qed.

Lemma fits_array_O l : ~ fits 0 (RArray l).
Proof. intros [_ H]. cbn in H. lia. Qed.

Lemma fits_object_O m : ~ fits 0 (RObject m).
Proof. intros [_ H]. cbn in H. lia. Qed.

(** *** What the scanner returns *)

Lemma scan_members_fits sv d n bs m r : (forall bs c r, sv bs = Some (c, r) -> fits d c) ->
  scan_members sv n bs = Some (m, r) -> Forall (fun p => raw_text p.1 /\ fits d p.2) m.
Proof.
  intros Hsv. revert bs m r. induction n as [|n IH]; [done|]. intros bs m r H. cbn [scan_members] in H.
  apply bind_Some in H as (r0 & _ & H). apply bind_Some in H as ([k r1] & Hk & H).
  apply bind_Some in H as (r2 & _ & H). apply bind_Some in H as ([v r3] & Hv & H).
  apply span_raw_sound in Hk as [Hk _]. apply Hsv in Hv. destruct (skip_ws r3) as [|c r4]; [done|].
  destruct (c =? 44).
  - apply bind_Some in H as ([m' r5] & Hm & [= <- <-]). constructor; [done|]. by eapply IH.
  - destruct (c =? 125); [|done]. simplify_eq. constructor; [done|constructor].
Qed.

Lemma scan_elements_fits sv d n bs l r : (forall bs c r, sv bs = Some (c, r) -> fits d c) ->
  scan_elements sv n bs = Some (l, r) -> Forall (fits d) l.
Proof.
  intros Hsv. revert bs l r. induction n as [|n IH]; [done|]. intros bs l r H. cbn [scan_elements] in H.
  apply bind_Some in H as ([v r1] & Hv & H). apply Hsv in Hv. destruct (skip_ws r1) as [|c r2]; [done|].
  destruct (c =? 44).
  - apply bind_Some in H as ([vs r3] & Hvs & [= <- <-]). constructor; [done|]. by eapply IH.
  - destruct (c =? 93); [|done]. simplify_eq. constructor; [done|constructor].
Qed.

Lemma scan_lit_value {A} lit (v v' : A) bs r : scan_lit lit v bs = Some (v', r) -> v' = v.
Proof. unfold scan_lit. destruct (parse_lit lit v bs) as [[x y]|] eqn:E; [|done]. intros [= <- <-]. by apply parse_lit_value in E. Qed.

Lemma scan_value_fits d bs c r : scan_value d bs = Some (c, r) -> fits d c.
Proof.
  assert (Hleaf : forall d c, rwf c -> rdepth c = 0%nat -> fits d c) by (intros d' c' ? Hd; split; [done|]; rewrite Hd; lia).
  revert bs c r. induction d as [|d IH]; intros [|b bs] c r H; try done; cbn [scan_value] in H.
  all: destruct (b =? 123);
    [| destruct (b =? 91);
       [| destruct (b =? 34);
          [apply bind_Some in H as ([s r1] & Hs & [= <- <-]); apply span_raw_sound in Hs as [Hs _]; by apply Hleaf|];
          destruct (b =? 116); [apply scan_lit_value in H as ->; by apply Hleaf|];
          destruct (b =? 102); [apply scan_lit_value in H as ->; by apply Hleaf|];
          destruct (b =? 110); [apply scan_lit_value in H as ->; by apply Hleaf|];
          destruct (_ || _); [|done]; destruct (parse_number (b :: bs)) as [[lit r1]|] eqn:Hl; [|done]; simplify_eq;
          apply parse_number_valid in Hl; by apply Hleaf]]; try done.
  - destruct (skip_ws bs) as [|x r1]; [done|]. destruct (x =? 125); [simplify_eq; by apply fits_object|].
    apply bind_Some in H as ([m r2] & Hm & [= <- <-]). apply fits_object. by eapply scan_members_fits.
  - destruct (skip_ws bs) as [|x r1]; [done|]. destruct (x =? 93); [simplify_eq; by apply fits_array|].
    apply bind_Some in H as ([l r2] & Hl & [= <- <-]). apply fits_array. by eapply scan_elements_fits.
Qed.

Lemma scan_fits bs c : scan bs = Some c -> fits maxNestingDepth c.
Proof.
  unfold scan. intros H. apply bind_Some in H as ([c' r] & H & H'). apply scan_value_fits in H.
  destruct (skip_ws r); by simplify_eq.
Qed.

(** *** What is printed is read back *)

Lemma print_head c : rwf c -> exists b r, print c = b :: r /\ is_ws b = false /\ b <> 93 /\ b <> 125.
Proof.
  destruct c as [|[]|lit|s|l|m]; cbn [print rwf]; intros Hw; try (by do 2 eexists; split; [reflexivity|]).
  destruct Hw as [(b & r & -> & Hb) _]. do 2 eexists. split; [reflexivity|].
  unfold is_ws, is_digit, between in *. destruct Hb as [->|Hb]; [done|]. lia.
Qed.

Lemma skip_ws_print c rest : rwf c -> skip_ws (print c ++ rest) = print c ++ rest.
Proof. intros (b & r & -> & Hb & _)%print_head. cbn. by rewrite Hb. Qed.

Definition pmember (p : list Z * rjson) : list Z := 34 :: p.1 ++ 34 :: 58 :: print p.2.

Section RoundTrip.
Variable sv : list Z -> option (rjson * list Z).

Definition scans (c : rjson) : Prop := rwf c /\ forall rest, num_delim rest -> sv (print c ++ rest) = Some (c, rest).

Lemma scan_members_print m p n rest : (length m < n)%nat -> Forall (fun p => raw_text p.1 /\ scans p.2) (p :: m) ->
  scan_members sv n (pmember p ++ concat (map (fun q => 44 :: pmember q) m) ++ 125 :: rest) = Some (p :: m, rest).
Proof.
  revert p n. induction m as [|q m IH]; intros [k v] n Hn Hall; (destruct n as [|n]; [cbn in Hn; lia|]);
    inversion_clear Hall as [|? ? [Hk [Hw Hv]] Hm]; cbn [fst snd] in Hk, Hw, Hv; unfold pmember at 1; cbn [fst snd app scan_members eat];
    rewrite Z.eqb_refl; cbn [mbind option_bind]; rewrite <- app_assoc; cbn [app]; rewrite scan_string_complete by done; cbn [mbind option_bind];
    rewrite skip_ws_cons by done; cbn [eat]; rewrite Z.eqb_refl; cbn [mbind option_bind]; rewrite skip_ws_print, Hv by done; cbn [mbind option_bind].
  - done.
  - cbn [map concat app]. rewrite skip_ws_cons by done. cbv iota. rewrite Z.eqb_refl, <- app_assoc.
    replace (skip_ws (pmember q ++ _)) with (pmember q ++ concat (map (fun q => 44 :: pmember q) m) ++ 125 :: rest) by done.
    rewrite IH; [done|cbn in Hn; lia|done].
Qed.

Lemma scan_elements_print l x n rest : (length l < n)%nat -> Forall scans (x :: l) ->
  scan_elements sv n (print x ++ concat (map (fun y => 44 :: print y) l) ++ 93 :: rest) = Some (x :: l, rest).
Proof.
  revert x n. induction l as [|y l IH]; intros x n Hn Hall; (destruct n as [|n]; [cbn in Hn; lia|]);
    inversion_clear Hall as [|? ? [Hw Hv] Hl]; cbn [scan_elements]; rewrite Hv by done; cbn [mbind option_bind].
  - done.
  - cbn [map concat app]. rewrite skip_ws_cons by done. cbv iota. rewrite Z.eqb_refl.
    rewrite <- app_assoc, skip_ws_print by (by inversion_clear Hl as [|? ? []]). rewrite IH; [done|cbn in Hn; lia|done].
Qed.

End RoundTrip.

Lemma scan_print c d rest : fits d c -> num_delim rest -> scan_value d (print c ++ rest) = Some (c, rest).
Proof.
  revert d rest. induction c as [|[]|lit|s|l IH|m IH] using rjson_induction; intros d rest Hf Hr; try (destruct d; done).
  - destruct Hf as [[(b & r & -> & Hb) Hl] _]. cbn [print]. pose proof (Hl rest Hr) as Hp. cbn [app] in Hp |- *.
    assert (Hpv : scan_value d (b :: r ++ rest) =
      match parse_number (b :: r ++ rest) with Ok (lit, r1) => Some (RNumber lit, r1) | Err _ => None end).
    { assert (Hz : b <> 123 /\ b <> 91 /\ b <> 34 /\ b <> 116 /\ b <> 102 /\ b <> 110) by (unfold is_digit, between in Hb; lia).
      destruct Hz as (?&?&?&?&?&?). destruct d; cbn [scan_value]; rewrite !(proj2 (Z.eqb_neq b _)) by done;
        (destruct Hb as [->|Hb]; [done|]); rewrite Hb, orb_true_r; done. }
    by rewrite Hpv, Hp.
  - destruct Hf as [Hw _]. cbn [rwf] in Hw. cbn [print app].
    assert (Hpv : forall r, scan_value d (34 :: r) = '(raw, r1) ← scan_string r; Some (RString raw, r1)) by (by destruct d).
    rewrite Hpv, <- app_assoc. cbn [app]. by rewrite scan_string_complete.
  - destruct d as [|d]; [by apply fits_array_O in Hf|]. apply fits_array in Hf.
    assert (Hall : Forall (scans (scan_value d)) l).
    { rewrite Forall_forall in Hf, IH |- *. intros x Hx. split; [by apply Hf|]. auto. }
    destruct l as [|x l]; [done|]. cbn [print]. rewrite sep_by_cons.
    destruct (print_head x) as (b & r & Eb & Hws & H93 & _); [by inversion_clear Hf as [|? ? []]|].
    assert (Heq : forall t, scan_value (S d) (91 :: b :: t) =
       '(l, r2) ← scan_elements (scan_value d) (length (b :: t)) (b :: t); Some (RArray l, r2)).
    { intros t. cbn [scan_value]. simpl (91 =? 123). simpl (91 =? 91). cbv iota.
      cbn [skip_ws]. rewrite Hws. by rewrite (proj2 (Z.eqb_neq b 93)) by done. }
    rewrite Eb. cbn [app]. rewrite Heq, <- !app_assoc. cbn [app].
    pose proof (scan_elements_print (scan_value d) l x (length (b :: r ++ concat (map (fun y => 44 :: print y) l) ++ 93 :: rest)) rest) as Hp.
    rewrite Eb in Hp. cbn [app] in Hp. rewrite Hp; [done| |done].
    pose proof (concat_map_length print l). cbn [length]. rewrite !length_app. cbn [length]. lia.
  - destruct d as [|d]; [by apply fits_object_O in Hf|]. apply fits_object in Hf.
    assert (Hall : Forall (fun p => raw_text p.1 /\ scans (scan_value d) p.2) m).
    { rewrite Forall_forall in Hf, IH |- *. intros x Hx. destruct (Hf x Hx) as [? [? ?]]. split; [done|]. split; [done|]. intros; by apply IH. }
    destruct m as [|x m]; [done|]. cbn [print].
    change (fun p : list Z * rjson => 34 :: p.1 ++ 34 :: 58 :: print p.2) with pmember. rewrite sep_by_cons.
    assert (Heq : forall t, scan_value (S d) (123 :: 34 :: t) =
       '(m, r2) ← scan_members (scan_value d) (length (34 :: t)) (34 :: t); Some (RObject m, r2)) by done.
    assert (Hx : exists t, pmember x = 34 :: t) by (eexists; reflexivity). destruct Hx as [t Ht].
    pose proof (scan_members_print (scan_value d) m x (length (34 :: t ++ concat (map (fun y => 44 :: pmember y) m) ++ 125 :: rest)) rest) as Hp.
    rewrite Ht in Hp |- *. cbn [app] in Hp |- *. rewrite Heq, <- !app_assoc. cbn [app]. rewrite Hp; [done| |done].
    pose proof (concat_map_length pmember m). cbn [length]. rewrite !length_app. cbn [length]. lia.
Qed.

(** A printed document is the document, for every reader. *)
Lemma scan_printed c : fits maxNestingDepth c -> scan (print c) = Some c.
Proof.
  intros Hc. unfold scan. pose proof (scan_print c maxNestingDepth [] Hc I) as H. rewrite app_nil_r in H.
  pose proof (skip_ws_print c [] (proj1 Hc)) as Hw. rewrite app_nil_r in Hw. by rewrite Hw, H.
Qed.

Lemma escaped_fits d c : fits d c -> fits d (escaped c).
Proof.
  revert d. induction c as [| | |s|l IH|m IH] using rjson_induction; intros d Hf; try done.
  - destruct Hf as [Hw ?]. split; [by apply raw_text_esc|done].
  - destruct d as [|d]; [by apply fits_array_O in Hf|]. cbn [escaped]. rewrite fits_array in Hf |- *. apply Forall_map.
    rewrite Forall_forall in *. intros x Hx. by apply IH, Hf.
  - destruct d as [|d]; [by apply fits_object_O in Hf|]. cbn [escaped]. rewrite fits_object in Hf |- *. apply Forall_map.
    rewrite Forall_forall in *. intros x Hx. destruct (Hf x Hx). split; [by apply raw_text_esc|by apply IH].
Qed.

(** *** Escaped documents decode alike *)

Fixpoint esc_val (v : goval) : goval :=
  match v with
  | VRaw (Some c) => VRaw (Some (escaped c))
  | VStruct vs => VStruct (map (fun f => (f.1, esc_val f.2)) vs)
  | VSlice l stale => VSlice (map esc_val l) (map esc_val stale)
  | _ => v
  end.

Definition esc_fields (vs : list (string * goval)) : list (string * goval) := map (fun f => (f.1, esc_val f.2)) vs.

Lemma esc_zero t : esc_val (zero t) = zero t.
Proof.
  revert t. fix IH 1. intros [| | | |fs|t]; try reflexivity. cbn [zero esc_val]. f_equal. rewrite map_map.
  induction fs as [|[k t] fs IHfs]; [done|]. cbn [map fst snd]. f_equal; [by rewrite IH|exact IHfs].
Qed.

Lemma get_field_esc k vs : get_field k (esc_fields vs) = esc_val <$> get_field k vs.
Proof.
  unfold get_field, table_get. induction vs as [|[k' v] vs IH]; [done|]. cbn. by destruct (_ ==? _).
Qed.

Lemma set_field_esc k v vs : set_field k (esc_val v) (esc_fields vs) = esc_fields (set_field k v vs).
Proof. unfold set_field, esc_fields. rewrite !map_map. apply map_ext. intros [k' v']. cbn. by destruct (_ ==? _). Qed.

Lemma decode_members_esc fs m vs :
  Forall (fun p => raw_text p.1 /\ forall t v, decode (escaped p.2) t (esc_val v) = esc_val <$> decode p.2 t v) m ->
  decode_members decode fs (map (fun p => (esc p.1, escaped p.2)) m) (esc_fields vs) = esc_fields <$> decode_members decode fs m vs.
Proof.
  intros Hm. revert vs. induction Hm as [|[k c] m [Hk Hc] Hm IH]; intros vs; [done|]. cbn [map decode_members fst snd].
  rewrite unquote_esc by done. destruct (find_field fs (unquote k)) as [[name t]|]; [|apply IH].
  rewrite get_field_esc. replace (default (zero t) (esc_val <$> get_field name vs)) with (esc_val (default (zero t) (get_field name vs)))
    by (destruct (get_field name vs); [done|apply esc_zero]).
  cbn [snd] in Hc. rewrite Hc. destruct (decode c t _) as [x|]; [|done]. cbn [fmap option_fmap option_map mbind option_bind]. by rewrite set_field_esc, IH.
Qed.

Lemma decode_elements_esc t l old :
  Forall (fun c => forall t v, decode (escaped c) t (esc_val v) = esc_val <$> decode c t v) l ->
  decode_elements decode t (map escaped l) (map esc_val old) = (fun p => (map esc_val p.1, map esc_val p.2)) <$> decode_elements decode t l old.
Proof.
  intros Hl. revert old. induction Hl as [|c l Hc Hl IH]; intros old; [done|]. cbn [map decode_elements].
  assert (E : match map esc_val old with o :: _ => o | [] => zero t end = esc_val (match old with o :: _ => o | [] => zero t end))
    by (destruct old; [by rewrite esc_zero|done]).
  rewrite E, Hc. destruct (decode c t _) as [x|]; [|done]. cbn [fmap option_fmap option_map mbind option_bind].
  replace (tail (map esc_val old)) with (map esc_val (tail old)) by (by destruct old). rewrite IH.
  destruct (decode_elements decode t l (tail old)) as [[xs st]|]; done.
Qed.

Lemma decode_escaped c t v : rwf c -> decode (escaped c) t (esc_val v) = esc_val <$> decode c t v.
Proof.
  revert t v. induction c as [| | |s|l IH|m IH] using rjson_induction; intros t v Hw; try (destruct t; done).
  - destruct t; cbn [decode escaped]; try done. by destruct (Atoi _).
  - cbn [rwf] in Hw. destruct t; cbn [decode escaped]; rewrite ?unquote_esc by done; done.
  - cbn [rwf] in Hw. apply fold_and_Forall in Hw. destruct t as [| | | |fs|t]; try done.
    destruct l as [|x l]; [done|]. cbn [decode escaped]. change (escaped x :: map escaped l) with (map escaped (x :: l)).
    replace (backing (esc_val v)) with (map esc_val (backing v)) by (destruct v as [| |[]| | |]; cbn; [done..|by rewrite map_app]).
    rewrite decode_elements_esc.
    + by destruct (decode_elements decode t (x :: l) (backing v)) as [[? ?]|].
    + rewrite Forall_forall in *. intros c Hc t' v'. by apply IH; [|apply Hw].
  - cbn [rwf] in Hw. apply fold_and_Forall in Hw. destruct t as [| | | |fs|t]; try done. cbn [decode escaped].
    replace (vfields (esc_val v)) with (esc_fields (vfields v)) by (by destruct v as [| |[]| | |]).
    rewrite decode_members_esc.
    + by destruct (decode_members decode fs m (vfields v)).
    + rewrite Forall_forall in *. intros p Hp. destruct (Hw p Hp) as [? ?]. split; [done|]. intros t' v'. by apply IH.
Qed.

Lemma field_esc k v : field k (esc_val v) = esc_val (field k v).
Proof.
  unfold field. replace (vfields (esc_val v)) with (esc_fields (vfields v)) by (by destruct v as [| |[]| | |]).
  rewrite get_field_esc. by destruct (get_field k (vfields v)).
Qed.

Lemma vstr_esc v : vstr (esc_val v) = vstr v.
Proof. by destruct v as [| |[]| | |]. Qed.

Lemma vlist_esc v : vlist (esc_val v) = map esc_val (vlist v).
Proof. by destruct v as [| |[]| | |]. Qed.

End RawFacts.
Export RawFacts.
