(* ===== verification/GoJsonTypes.v ===== *)
(** * Decoding a document into a smaller type

    [encoding/json] on two struct types, one with some of the fields of the other: where the larger
    decodes, so does the smaller, and to the same values. *)

From Stdlib Require Import ZArith Lia Ascii String.
From stdpp Require Import base list strings sets.
From S2P Require Import Prelude GoText GoNet GoStrings GoJson GoJsonRaw.
Open Scope string_scope.
Open Scope list_scope.
Open Scope Z_scope.

(** ** Decoding into a smaller type *)
Module RawNarrow.

(** No two fields of a struct are one up to case. *)
Definition distinct {A} (fs : list (string * A)) : bool := bool_decide (NoDup ((fun f => fold_name f.1) <$> fs)).

(** Every struct of the type has distinct fields. *)
Fixpoint regular (t : gotype) : bool :=
  match t with
  | TStruct fs => distinct fs && forallb (fun f => regular f.2) fs
  | TSlice t => regular t
  | _ => true
  end.

(** Values of a type; their texts are valid and their messages well formed. *)
Inductive typed : gotype -> goval -> Prop :=
| ty_string s : ValidString s = true -> typed TString (VString s)
| ty_int z : typed TInt (VInt z)
| ty_raw c : (forall x, c = Some x -> rwf x) -> typed TRaw (VRaw c)
| ty_ptr s : (forall x, s = Some x -> ValidString x = true) -> typed TPtrString (VPtr s)
| ty_struct fs vs : distinct fs = true -> Forall2 (fun f w => w.1 = f.1 /\ typed f.2 w.2) fs vs -> typed (TStruct fs) (VStruct vs)
| ty_slice t l stale : regular t = true -> Forall (typed t) l -> Forall (typed t) stale -> typed (TSlice t) (VSlice l stale).

Lemma zero_typed t : regular t = true -> typed t (zero t).
Proof.
  revert t. fix IH 1. intros [| | | |fs|t] Ht; cbn in Ht.
  - constructor. reflexivity.
  - constructor.
  - constructor. discriminate.
  - constructor. discriminate.
  - apply andb_prop in Ht as [Hd Ht]. constructor; [exact Hd|]. clear Hd.
    revert Ht. induction fs as [|f fs IHfs]; intros Ht; cbn in Ht; constructor.
    + apply andb_prop in Ht as [Ht _]. split; [reflexivity|apply IH, Ht].
    + apply andb_prop in Ht as [_ Ht]. apply IHfs, Ht.
  - constructor; [exact Ht|constructor|constructor].
Qed.

(** The fields of the first type are fields of the second. *)
Fixpoint narrower (t' t : gotype) : bool :=
  match t', t with
  | TString, TString | TInt, TInt | TRaw, TRaw | TPtrString, TPtrString => true
  | TSlice a, TSlice b => narrower a b
  | TStruct fs', TStruct fs =>
    distinct fs' && distinct fs && forallb (fun f => match table_get fs f.1 with Some t => narrower f.2 t | None => false end) fs'
  | _, _ => false
  end.

Fixpoint narrow (t : gotype) (v : goval) : goval :=
  match t, v with
  | TStruct fs, VStruct vs => VStruct (map (fun f => (f.1, narrow f.2 (default (zero f.2) (get_field f.1 vs)))) fs)
  | TSlice t, VSlice l stale => VSlice (map (narrow t) l) (map (narrow t) stale)
  | _, _ => v
  end.

Definition narrow_fields (fs : list (string * gotype)) (vs : list (string * goval)) : list (string * goval) :=
  map (fun f => (f.1, narrow f.2 (default (zero f.2) (get_field f.1 vs)))) fs.

Lemma distinct_inj {A} (fs : list (string * A)) f g : distinct fs = true -> f ∈ fs -> g ∈ fs -> fold_name f.1 = fold_name g.1 -> f = g.
Proof.
  unfold distinct. rewrite bool_decide_eq_true. induction fs as [|h fs IH]; [set_solver|]. cbn. rewrite NoDup_cons. intros [Hn Hd] Hf Hg E.
  rewrite elem_of_cons in Hf, Hg. destruct Hf as [->|Hf], Hg as [->|Hg]; [done| | |by apply IH].
  - destruct Hn. apply list_elem_of_fmap. by exists g.
  - destruct Hn. apply list_elem_of_fmap. by exists f.
Qed.

Lemma distinct_names {A} (fs : list (string * A)) : distinct fs = true -> NoDup fs.*1.
Proof.
  unfold distinct. rewrite bool_decide_eq_true. intros H. apply (NoDup_fmap_1 fold_name). by rewrite <- list_fmap_compose.
Qed.

Lemma find_field_spec {A} (fs : list (string * A)) k f : distinct fs = true ->
  find_field fs k = Some f <-> f ∈ fs /\ fold_name f.1 = fold_name k.
Proof.
  intros Hd. unfold find_field. destruct (List.find (fun f => f.1 ==? k) fs) as [g|] eqn:E1.
  - apply List.find_some in E1 as [Hg Hk%bool_decide_eq_true]. subst k. apply list_elem_of_In in Hg.
    split; [by intros [= ->]|]. intros [Hf E]. f_equal. by apply (distinct_inj fs).
  - destruct (List.find (fun f => fold_name f.1 ==? fold_name k) fs) as [g|] eqn:E2.
    + apply List.find_some in E2 as [Hg Hk%bool_decide_eq_true]. apply list_elem_of_In in Hg.
      split; [by intros [= ->]|]. intros [Hf E]. f_equal. apply (distinct_inj fs); [done..|congruence].
    + split; [done|]. intros [Hf E]. apply list_elem_of_In in Hf. apply (List.find_none _ _ E2), bool_decide_eq_false in Hf. done.
Qed.

Lemma get_field_set_other k n x vs : k <> n -> get_field k (set_field n x vs) = get_field k vs.
Proof.
  intros Hk. unfold get_field, set_field. induction vs as [|[m v] vs IH]; [done|]. cbn. destruct (decide (m = n)) as [->|Hm].
  - rewrite (bool_decide_eq_true_2 (n = n)) by done. cbn. by rewrite !(bool_decide_eq_false_2 (k = n)).
  - rewrite (bool_decide_eq_false_2 (m = n)) by done. cbn. by rewrite IH.
Qed.

Lemma get_field_set_same n x vs : n ∈ vs.*1 -> get_field n (set_field n x vs) = Some x.
Proof.
  unfold get_field, set_field. induction vs as [|[m v] vs IH]; [set_solver|]. cbn. intros Hn. destruct (decide (m = n)) as [->|Hm].
  - rewrite (bool_decide_eq_true_2 (n = n)) by done. cbn. by rewrite bool_decide_eq_true_2.
  - rewrite (bool_decide_eq_false_2 (m = n)) by done. cbn. rewrite bool_decide_eq_false_2 by done. apply IH. set_solver.
Qed.

Lemma get_field_set k n x vs : n ∈ vs.*1 -> get_field k (set_field n x vs) = if k ==? n then Some x else get_field k vs.
Proof.
  intros Hn. destruct (decide (k = n)) as [->|Hk].
  - rewrite bool_decide_eq_true_2 by done. by apply get_field_set_same.
  - rewrite bool_decide_eq_false_2 by done. by apply get_field_set_other.
Qed.

Lemma set_field_names n x vs : (set_field n x vs).*1 = vs.*1.
Proof. unfold set_field. induction vs as [|[m v] vs IH]; [done|]. cbn. rewrite IH. by destruct (m ==? n). Qed.

Lemma typed_names (fs : list (string * gotype)) (vs : list (string * goval)) : Forall2 (fun f w => w.1 = f.1 /\ typed f.2 w.2) fs vs -> vs.*1 = fs.*1.
Proof. induction 1 as [|f w fs vs [E _] _ IH]; [done|]. cbn. by rewrite E, IH. Qed.

Lemma fields_cons n t fs (vs : list (string * goval)) :
  Forall2 (fun (f : string * gotype) (w : string * goval) => w.1 = f.1 /\ typed f.2 w.2) ((n, t) :: fs) vs ->
  exists v vs', vs = (n, v) :: vs' /\ typed t v /\ Forall2 (fun f w => w.1 = f.1 /\ typed f.2 w.2) fs vs'.
Proof. inversion 1 as [|? [m v] ? vs' [E Hv] HF]; subst. cbn in *. subst. eauto. Qed.

Lemma fields_nil vs : Forall2 (fun (f : string * gotype) (w : string * goval) => w.1 = f.1 /\ typed f.2 w.2) [] vs -> vs = [].
Proof. by inversion 1. Qed.

(** Opens the values of a known type. *)
Ltac open_typed :=
  repeat match goal with
  | H : Forall2 _ (_ :: _) _ |- _ => let v := fresh "v" in let vs := fresh "vs" in let Hv := fresh "Hv" in let Hf := fresh "Hf" in
      destruct (fields_cons _ _ _ _ H) as (v & vs & -> & Hv & Hf); clear H
  | H : Forall2 _ [] ?vs |- _ => rewrite (fields_nil _ H) in *; clear H
  | H : typed TString _ |- _ => inversion H; subst; clear H
  | H : typed TInt _ |- _ => inversion H; subst; clear H
  | H : typed TRaw _ |- _ => inversion H; subst; clear H
  | H : typed TPtrString _ |- _ => inversion H; subst; clear H
  | H : typed (TStruct _) _ |- _ => inversion H; subst; clear H
  | H : typed (TSlice _) _ |- _ => inversion H; subst; clear H
  end.

Lemma typed_get fs vs n t : Forall2 (fun f w => w.1 = f.1 /\ typed f.2 w.2) fs vs -> distinct fs = true -> (n, t) ∈ fs ->
  exists v, get_field n vs = Some v /\ typed t v.
Proof.
  intros HF Hd Hin. apply distinct_names in Hd. unfold get_field.
  induction HF as [|[k t0] [k' v] fs vs [E Ht] HF IH]; [set_solver|]. cbn in *. subst k'. apply NoDup_cons in Hd as [Hk Hd].
  apply elem_of_cons in Hin as [[= -> ->]|Hin]; [rewrite bool_decide_eq_true_2 by done; eauto|].
  rewrite bool_decide_eq_false_2; [auto|]. intros ->. destruct Hk. by apply (list_elem_of_fmap_2 fst) in Hin.
Qed.

Lemma typed_set fs vs n t x : Forall2 (fun f w => w.1 = f.1 /\ typed f.2 w.2) fs vs -> distinct fs = true -> (n, t) ∈ fs -> typed t x ->
  Forall2 (fun f w => w.1 = f.1 /\ typed f.2 w.2) fs (set_field n x vs).
Proof.
  intros HF Hd Hin Hx. apply distinct_names in Hd.
  assert (Hu : forall t', (n, t') ∈ fs -> typed t' x).
  { intros t' Hin'. apply (table_get_in _ _ _ Hd) in Hin, Hin'. congruence. }
  clear Hin Hd. unfold set_field. induction HF as [|[k t0] [k' v] fs vs [E Ht] HF IH]; [constructor|]. cbn in *. subst k'. constructor.
  - destruct (decide (k = n)) as [->|Hk]; [rewrite bool_decide_eq_true_2 by done|by rewrite bool_decide_eq_false_2].
    cbn. split; [done|]. apply Hu. constructor.
  - apply IH. intros t' Ht'. apply Hu. by constructor.
Qed.

Lemma decode_members_typed fs m vs vs' : distinct fs = true ->
  Forall (fun p => forall t v w, typed t v -> decode p.2 t v = Some w -> typed t w) m ->
  Forall2 (fun f w => w.1 = f.1 /\ typed f.2 w.2) fs vs -> decode_members decode fs m vs = Some vs' ->
  Forall2 (fun f w => w.1 = f.1 /\ typed f.2 w.2) fs vs'.
Proof.
  intros Hd Hm. revert vs. induction Hm as [|[k c] m Hc Hm IH]; intros vs HF; cbn [decode_members]; [by intros [= <-]|].
  destruct (find_field fs (unquote (k, c).1)) as [[n t]|] eqn:Ef; [|apply IH; done].
  apply find_field_spec in Ef as [Hin _]; [|done]. destruct (typed_get _ _ _ _ HF Hd Hin) as (v & -> & Hv). cbn [default].
  intros (x & Hx & H)%bind_Some. eapply IH; [|exact H]. eapply typed_set; [done..|]. by eapply Hc.
Qed.

Lemma decode_elements_typed t l old xs stale : regular t = true ->
  Forall (fun c => forall t v w, typed t v -> decode c t v = Some w -> typed t w) l -> Forall (typed t) old ->
  decode_elements decode t l old = Some (xs, stale) -> Forall (typed t) xs /\ Forall (typed t) stale.
Proof.
  intros Hr Hl. revert old xs stale. induction Hl as [|c l Hc Hl IH]; intros old xs stale Ho; cbn [decode_elements]; [by intros [= <- <-]|].
  intros (x & Hx & ([xs' st'] & H & [= <- <-])%bind_Some)%bind_Some.
  apply IH in H as [H1 H2]; [|destruct Ho; [constructor|done]]. split; [|done]. constructor; [|done].
  eapply Hc; [|exact Hx]. destruct Ho; [by apply zero_typed|done].
Qed.


Lemma backing_typed t v : typed (TSlice t) v -> regular t = true /\ Forall (typed t) (backing v).
Proof. inversion 1; subst. split; [done|]. by apply Forall_app. Qed.

Lemma decode_typed c t v w : rwf c -> typed t v -> decode c t v = Some w -> typed t w.
Proof.
  revert t v w. induction c as [|b|lit|raw|l IH|m IH] using rjson_induction; intros t v w Hw Ht; destruct t as [| | | |fs|t]; cbn [decode];
    try (intros [= <-]; first [exact Ht|by constructor; intros; simplify_eq|by constructor; intros; simplify_eq; apply unquote_valid]).
  - apply backing_typed in Ht as [? _]. intros [= <-]. by repeat constructor.
  - intros (z & _ & ->)%fmap_Some. constructor.
  - apply backing_typed in Ht as [Hr Ht]. destruct l as [|x l]; [intros [= <-]; by repeat constructor|].
    intros ([xs st] & H & [= <-])%bind_Some. cbn [rwf] in Hw. apply fold_and_Forall in Hw.
    apply decode_elements_typed in H as [? ?]; [by constructor|done| |done].
    rewrite Forall_forall in IH, Hw |- *. intros y Hy t' v' w' Hv'. apply IH; [done|by apply Hw|done].
  - intros (vs & H & ->)%fmap_Some. inversion Ht; subst. constructor; [done|]. eapply decode_members_typed; [done| |done|exact H].
    cbn [rwf] in Hw. apply fold_and_Forall in Hw.
    rewrite Forall_forall in IH, Hw |- *. intros y Hy t' v' w' Hv'. apply IH; [done|by apply Hw|done].
Qed.

Lemma unmarshal_typed t bs v : regular t = true -> unmarshal t bs = Some v -> typed t v.
Proof.
  unfold unmarshal. intros Hr. destruct (scan bs) as [c|] eqn:E; [|done]. apply scan_fits in E as [Hc _]. cbn [mbind option_bind]. intros H.
  apply (decode_typed c t (zero t)); [done|by apply zero_typed|exact H].
Qed.

(** *** Narrowing *)

Lemma narrower_struct fs' fs : narrower (TStruct fs') (TStruct fs) = true ->
  distinct fs' = true /\ distinct fs = true /\ forall n t', (n, t') ∈ fs' -> exists t, (n, t) ∈ fs /\ narrower t' t = true.
Proof.
  cbn. rewrite !andb_true_iff, forallb_forall. intros [[H1 H2] H]. split; [done|]. split; [done|]. intros n t' Hin.
  apply list_elem_of_In, H in Hin. cbn in Hin. destruct (table_get fs n) as [t|] eqn:E; [|done]. apply table_get_elem in E. eauto.
Qed.

Lemma narrow_zero t' t : narrower t' t = true -> narrow t' (zero t) = zero t'.
Proof.
  revert t' t. fix IH 1. intros [| | | |fs'|t'] [| | | |fs|t]; try discriminate; try reflexivity. intros H. cbn [zero narrow]. f_equal.
  cbn in H. apply andb_prop in H as [_ H]. revert H. induction fs' as [|f fs' IHfs]; intros H; cbn in H |- *; [reflexivity|].
  apply andb_prop in H as [Hf H]. f_equal; [|apply IHfs, H]. f_equal.
  assert (E : forall n, get_field n (map (fun f => (f.1, zero f.2)) fs) = zero <$> table_get fs n).
  { intros n. clear. unfold get_field. induction fs as [|[k t] fs IH]; [reflexivity|]. cbn. destruct (n ==? k); [reflexivity|exact IH]. }
  rewrite E. destruct (table_get fs f.1) as [t|]; [|discriminate]. apply IH, Hf.
Qed.

Lemma find_field_narrow fs' fs k : narrower (TStruct fs') (TStruct fs) = true ->
  match find_field fs k with
  | None => find_field fs' k = None
  | Some (n, t) => (exists t', find_field fs' k = Some (n, t') /\ narrower t' t = true) \/ (find_field fs' k = None /\ n ∉ fs'.*1)
  end.
Proof.
  intros (Hd' & Hd & Hsub)%narrower_struct. destruct (find_field fs' k) as [[n' t']|] eqn:E'.
  - apply find_field_spec in E' as [Hin' Hk]; [|done]. destruct (Hsub _ _ Hin') as (t & Hin & Hn).
    rewrite (proj2 (find_field_spec fs k (n', t) Hd)) by done. left. by exists t'.
  - destruct (find_field fs k) as [[n t]|] eqn:E; [|done]. apply find_field_spec in E as [Hin Hk]; [|done]. right. split; [done|].
    intros ([n1 t1] & -> & Hin1)%list_elem_of_fmap. cbn in *.
    by rewrite (proj2 (find_field_spec fs' k (n1, t1) Hd')) in E' by done.
Qed.

Lemma narrow_set_other fs' n x vs : n ∈ vs.*1 -> n ∉ fs'.*1 -> narrow_fields fs' (set_field n x vs) = narrow_fields fs' vs.
Proof.
  intros Hv Hn. unfold narrow_fields. apply map_ext_in. intros [k t] Hk%list_elem_of_In. cbn. do 3 f_equal. rewrite get_field_set by done.
  rewrite bool_decide_eq_false_2; [done|]. intros ->. destruct Hn. by apply (list_elem_of_fmap_2 fst) in Hk.
Qed.

Lemma narrow_set fs' n t' x vs : distinct fs' = true -> n ∈ vs.*1 -> (n, t') ∈ fs' ->
  set_field n (narrow t' x) (narrow_fields fs' vs) = narrow_fields fs' (set_field n x vs).
Proof.
  intros Hd Hv Hn. unfold narrow_fields, set_field at 1. rewrite map_map. apply map_ext_in. intros [k t] Hk%list_elem_of_In. cbn.
  rewrite get_field_set by done. destruct (decide (k = n)) as [->|Hkn]; [|by rewrite !bool_decide_eq_false_2].
  rewrite !bool_decide_eq_true_2 by done. do 2 f_equal. apply distinct_names in Hd.
  apply (table_get_in _ _ _ Hd) in Hn, Hk. congruence.
Qed.

Lemma narrow_get fs' n t' vs : distinct fs' = true -> (n, t') ∈ fs' ->
  get_field n (narrow_fields fs' vs) = Some (narrow t' (default (zero t') (get_field n vs))).
Proof.
  intros Hd Hn. apply table_get_in.
  - unfold narrow_fields. rewrite map_map. apply distinct_names in Hd. exact Hd.
  - apply list_elem_of_In, in_map_iff. exists (n, t'). split; [done|]. by apply list_elem_of_In.
Qed.

Lemma decode_members_narrow fs' fs m vs vs1 : narrower (TStruct fs') (TStruct fs) = true ->
  Forall (fun p => rwf p.2 /\ forall t' t v w, narrower t' t = true -> typed t v -> decode p.2 t v = Some w ->
                               decode p.2 t' (narrow t' v) = Some (narrow t' w)) m ->
  Forall2 (fun f w => w.1 = f.1 /\ typed f.2 w.2) fs vs -> decode_members decode fs m vs = Some vs1 ->
  decode_members decode fs' m (narrow_fields fs' vs) = Some (narrow_fields fs' vs1).
Proof.
  intros Hnar Hm. pose proof (narrower_struct _ _ Hnar) as (Hd' & Hd & _). revert vs.
  induction Hm as [|[k c] m [Hw Hc] Hm IH]; intros vs HF; cbn [decode_members]; [by intros [= <-]|].
  pose proof (find_field_narrow fs' fs (unquote (k, c).1) Hnar) as Hf. destruct (find_field fs (unquote (k, c).1)) as [[n t]|] eqn:Ef.
  2:{ rewrite Hf. apply IH, HF. }
  apply find_field_spec in Ef as [Hin _]; [|done]. destruct (typed_get _ _ _ _ HF Hd Hin) as (v & Hv & Htv). rewrite Hv. cbn [default].
  intros (x & Hx & H)%bind_Some.
  assert (Hn : n ∈ vs.*1) by (rewrite (typed_names _ _ HF); by apply (list_elem_of_fmap_2 fst) in Hin).
  assert (HF' := typed_set _ _ _ _ x HF Hd Hin (decode_typed _ _ _ _ Hw Htv Hx)).
  destruct Hf as [(t' & Ef' & Hn')|[Ef' Hni]]; rewrite Ef'.
  - apply find_field_spec in Ef' as [Hin' _]; [|done]. rewrite (narrow_get _ _ t') by done. rewrite Hv. cbn [default].
    cbn [snd] in *. unfold id in *. rewrite (Hc _ _ _ _ Hn' Htv Hx). cbn [mbind option_bind]. rewrite narrow_set by done. by apply IH.
  - rewrite <- (narrow_set_other fs' n x) by done. by apply IH.
Qed.

Lemma decode_elements_narrow t' t l old xs stale : narrower t' t = true ->
  Forall (fun c => forall t' t v w, narrower t' t = true -> typed t v -> decode c t v = Some w ->
                   decode c t' (narrow t' v) = Some (narrow t' w)) l ->
  regular t = true -> Forall (typed t) old -> decode_elements decode t l old = Some (xs, stale) ->
  decode_elements decode t' l (map (narrow t') old) = Some (map (narrow t') xs, map (narrow t') stale).
Proof.
  intros Hn Hl Hr. revert old xs stale. induction Hl as [|c l Hc Hl IH]; intros old xs stale Ho; cbn [decode_elements]; [by intros [= <- <-]|].
  intros (x & Hx & ([xs' st'] & H & [= <- <-])%bind_Some)%bind_Some.
  assert (Hh : decode c t' (match map (narrow t') old with o :: _ => o | [] => zero t' end) = Some (narrow t' x)).
  { destruct Ho as [|o old Ho Hos]; cbn [map].
    - rewrite <- (narrow_zero t' t) by done. eapply Hc; [done|by apply zero_typed|exact Hx].
    - by eapply Hc. }
  rewrite Hh. cbn [mbind option_bind]. replace (tail (map (narrow t') old)) with (map (narrow t') (tail old)) by (by destruct old).
  assert (Ht : Forall (typed t) (tail old)) by (by destruct Ho). by rewrite (IH _ _ _ Ht H).
Qed.

Lemma decode_narrow c t' t v w : rwf c -> narrower t' t = true -> typed t v -> decode c t v = Some w ->
  decode c t' (narrow t' v) = Some (narrow t' w).
Proof.
  revert t' t v w. induction c as [|b|lit|raw|l IH|m IH] using rjson_induction; intros t' t v w Hw Hn Ht;
    destruct t' as [| | | |fs'|t'], t as [| | | |fs|t]; try discriminate; cbn [decode]; try discriminate;
    try (intros [= <-]; first [reflexivity|by inversion Ht]).
  - by intros (z & -> & ->)%fmap_Some.
  - destruct l as [|x l]; [by intros [= <-]|]. intros ([xs st] & H & [= <-])%bind_Some. pose proof (backing_typed _ _ Ht) as [Hr Hb].
    replace (backing (narrow (TSlice t') v)) with (map (narrow t') (backing v)) by (inversion Ht; subst; cbn; by rewrite map_app).
    cbn [rwf] in Hw. apply fold_and_Forall in Hw. erewrite (decode_elements_narrow t' t _ _ _ _ Hn); [done| |done..].
    rewrite Forall_forall in IH, Hw |- *. intros y Hy ? ? ? ? Hv'. apply IH; [done|by apply Hw|done].
  - intros (vs1 & H & ->)%fmap_Some. inversion Ht as [| | | |? vs Hd HF|]; subst. cbn [vfields narrow] in *.
    cbn [rwf] in Hw. apply fold_and_Forall in Hw.
    assert (E : decode_members decode fs' m (narrow_fields fs' vs) = Some (narrow_fields fs' vs1)).
    { eapply decode_members_narrow; [done| |done|exact H]. rewrite Forall_forall in IH, Hw |- *.
      intros y Hy. destruct (Hw y Hy). split; [done|]. intros ? ? ? ? Hv'. by apply IH. }
    unfold narrow_fields in E. by rewrite E.
Qed.

(** The smaller type sees what the larger one sees. *)
Lemma unmarshal_narrow t' t bs v : narrower t' t = true -> regular t = true -> unmarshal t bs = Some v ->
  unmarshal t' bs = Some (narrow t' v) /\ typed t v.
Proof.
  intros Hn Hr H. split; [|exact (unmarshal_typed t bs v Hr H)]. revert H. unfold unmarshal. destruct (scan bs) as [c|] eqn:E; [|done].
  apply scan_fits in E as [Hc _]. cbn [mbind option_bind]. intros H. rewrite <- (narrow_zero t' t) by done.
  apply (decode_narrow c t' t (zero t)); [done..|by apply zero_typed|exact H].
Qed.

End RawNarrow.
Export RawNarrow.

(** ** Printed documents of any depth *)
Module RawDepth.

Lemma scan_members_mono sv sv' n bs p : (forall bs q, sv bs = Some q -> sv' bs = Some q) ->
  scan_members sv n bs = Some p -> scan_members sv' n bs = Some p.
Proof.
  intros Hsv. revert bs p. induction n as [|n IH]; intros bs p H; [done|]. cbn [scan_members] in *.
  destruct (eat 34 bs) as [r0|]; [|done]. cbn [mbind option_bind] in *. destruct (scan_string r0) as [[k r1]|]; [|done]. cbn [mbind option_bind] in *.
  destruct (eat 58 (skip_ws r1)) as [r2|]; [|done]. cbn [mbind option_bind] in *.
  destruct (sv (skip_ws r2)) as [[v r3]|] eqn:E; [|done]. rewrite (Hsv _ _ E). cbn [mbind option_bind] in *.
  destruct (skip_ws r3) as [|c r4]; [done|]. destruct (c =? 44); [|done].
  destruct (scan_members sv n (skip_ws r4)) as [[m r5]|] eqn:E'; [|done]. by rewrite (IH _ _ E').
Qed.

Lemma scan_elements_mono sv sv' n bs p : (forall bs q, sv bs = Some q -> sv' bs = Some q) ->
  scan_elements sv n bs = Some p -> scan_elements sv' n bs = Some p.
Proof.
  intros Hsv. revert bs p. induction n as [|n IH]; intros bs p H; [done|]. cbn [scan_elements] in *.
  destruct (sv bs) as [[v r1]|] eqn:E; [|done]. rewrite (Hsv _ _ E). cbn [mbind option_bind] in *.
  destruct (skip_ws r1) as [|c r2]; [done|]. destruct (c =? 44); [|done].
  destruct (scan_elements sv n (skip_ws r2)) as [[m r5]|] eqn:E'; [|done]. by rewrite (IH _ _ E').
Qed.

Lemma scan_value_mono d d' bs p : (d <= d')%nat -> scan_value d bs = Some p -> scan_value d' bs = Some p.
Proof.
  revert d' bs p. induction d as [|d IH]; intros d' bs p Hd H; destruct bs as [|b r]; try done.
  - destruct d' as [|d']; [done|]. cbn [scan_value] in *. destruct (b =? 123); [done|]. destruct (b =? 91); done.
  - destruct d' as [|d']; [lia|]. cbn [scan_value] in *. destruct (b =? 123); [|destruct (b =? 91); [|done]];
      (destruct (skip_ws r) as [|c r1]; [done|]).
    + destruct (c =? 125); [done|]. destruct (scan_members (scan_value d) (length r) (c :: r1)) as [[m r2]|] eqn:E; [|done].
      apply (scan_members_mono _ (scan_value d')) in E; [by rewrite E|]. intros; apply IH; [lia|done].
    + destruct (c =? 93); [done|]. destruct (scan_elements (scan_value d) (length r) (c :: r1)) as [[m r2]|] eqn:E; [|done].
      apply (scan_elements_mono _ (scan_value d')) in E; [by rewrite E|]. intros; apply IH; [lia|done].
Qed.

(** What is printed is read as itself, where it is read at all. *)
Lemma scan_print_inv c c' : rwf c -> scan (print c) = Some c' -> c' = c.
Proof.
  intros Hc. unfold scan. pose proof (skip_ws_print c [] Hc) as Hw. rewrite app_nil_r in Hw. rewrite Hw. clear Hw.
  generalize maxNestingDepth. intros n. destruct (scan_value n (print c)) as [[c1 r]|] eqn:E; [|done]. cbn [mbind option_bind].
  apply (scan_value_mono n (Nat.max n (rdepth c))) in E; [|lia].
  pose proof (scan_print c (Nat.max n (rdepth c)) [] (conj Hc (Nat.le_max_r _ _)) I) as Hp. rewrite app_nil_r in Hp.
  rewrite Hp in E. injection E as <- <-. by intros [= ->].
Qed.

End RawDepth.
Export RawDepth.

(** ** Documents whose fields come once *)
Module RawPick.

Definition matches (n : string) (p : list Z * rjson) : bool := fold_name (unquote p.1) ==? fold_name n.

(** At most one member is the field, up to case. *)
Definition once (m : list (list Z * rjson)) (n : string) : Prop := (length (List.filter (matches n) m) <= 1)%nat.

Definition member (n : string) (m : list (list Z * rjson)) : option rjson := snd <$> List.find (matches n) m.

Definition pick (m : list (list Z * rjson)) (vs : list (string * goval)) (f : string * gotype) : option (string * goval) :=
  let old := default (zero f.2) (get_field f.1 vs) in
  pair f.1 <$> match member f.1 m with None => Some old | Some c => decode c f.2 old end.

Lemma once_cons p m n : once (p :: m) n -> once m n /\ (matches n p = true -> member n m = None).
Proof.
  unfold once, member. cbn. destruct (matches n p) eqn:E; cbn; [|by split].
  intros H. destruct (List.filter (matches n) m) eqn:Ef; cbn in *; [|lia]. split; [lia|]. intros _.
  destruct (List.find (matches n) m) as [q|] eqn:Eq; [exfalso|done]. apply List.find_some in Eq as [Hin Hq].
  assert (H' : In q (List.filter (matches n) m)) by (by apply filter_In). by rewrite Ef in H'.
Qed.

Lemma pick_nil fs vs : distinct fs = true -> vs.*1 = fs.*1 -> mapM (pick [] vs) fs = Some vs.
Proof.
  intros Hd%distinct_names E. apply mapM_Some, Forall2_same_length_lookup. split.
  { apply (f_equal length) in E. by rewrite !length_fmap in E. }
  intros i f [n v] Hf Hv. assert (En : f.1 = n).
  { apply (f_equal (fun l => l !! i)) in E. rewrite !list_lookup_fmap, Hf, Hv in E. by injection E. }
  unfold pick. cbn. rewrite En. assert (Hg : get_field n vs = Some v).
  { apply table_get_in; [by rewrite E|]. by eapply list_elem_of_lookup_2. }
  by rewrite Hg.
Qed.

Lemma mapM_ext_in {A B} (f g : A -> option B) l : (forall x, x ∈ l -> f x = g x) -> mapM f l = mapM g l.
Proof.
  induction l as [|x l IH]; intros H; [done|]. cbn. rewrite (H x) by constructor. destruct (g x); [|done]. cbn.
  rewrite IH; [done|]. intros y Hy. apply H. by constructor.
Qed.

Lemma mapM_fail {A B} (f : A -> option B) l x : x ∈ l -> f x = None -> mapM f l = None.
Proof.
  induction 1 as [x l|x y l Hx IH]; intros E; cbn; [by rewrite E|]. destruct (f y); [|done]. cbn. by rewrite IH.
Qed.

(** Then a struct is decoded field by field. *)
Lemma decode_members_pick fs m vs : distinct fs = true -> Forall (once m) fs.*1 -> vs.*1 = fs.*1 ->
  decode_members decode fs m vs = mapM (pick m vs) fs.
Proof.
  intros Hd. revert vs. induction m as [|[k c] m IH]; intros vs Ho Hn; cbn [decode_members]; [by rewrite pick_nil|].
  assert (Ho' : Forall (once m) fs.*1) by (eapply Forall_impl; [exact Ho|]; intros n H; by apply once_cons in H as [? _]).
  destruct (find_field fs (unquote (k, c).1)) as [[n t]|] eqn:Ef.
  - apply find_field_spec in Ef as [Hin Hk]; [|done]. cbn [fst snd] in *.
    assert (Hm : matches n (k, c) = true) by (unfold matches; cbn; by rewrite bool_decide_eq_true_2).
    assert (Hnone : member n m = None).
    { rewrite Forall_forall in Ho. apply (once_cons (k, c) m n); [|done]. apply Ho. by apply (list_elem_of_fmap_2 fst) in Hin. }
    assert (Hp : pick ((k, c) :: m) vs (n, t) = pair n <$> decode c t (default (zero t) (get_field n vs))).
    { unfold pick, member. cbn. by rewrite Hm. }
    destruct (decode c t (default (zero t) (get_field n vs))) as [x|] eqn:Ex; cbn [mbind option_bind].
    2:{ symmetry. eapply mapM_fail; [exact Hin|]. by rewrite Hp. }
    rewrite IH; [|done|by rewrite set_field_names]. apply mapM_ext_in. intros [n' t'] Hin'.
    destruct (decide (n' = n)) as [->|Hne].
    + assert (t' = t) as -> by (apply distinct_names in Hd; apply (table_get_in _ _ _ Hd) in Hin, Hin'; congruence).
      rewrite Hp. unfold pick. cbn [fst snd]. rewrite Hnone, get_field_set_same; [done|]. rewrite Hn. by apply (list_elem_of_fmap_2 fst) in Hin.
    + unfold pick. cbn [fst snd]. rewrite get_field_set_other by done. unfold member. cbn [List.find].
      assert (Hf : matches n' (k, c) = false).
      { unfold matches. cbn. rewrite bool_decide_eq_false_2; [done|]. intros E. apply Hne. rewrite <- Hk in E.
        assert (Heq : (n, t) = (n', t')) by (by apply (distinct_inj fs)). by injection Heq. }
      by rewrite Hf.
  - rewrite IH by done. apply mapM_ext_in. intros [n' t'] Hin'. unfold pick, member. cbn [fst snd List.find].
    assert (Hf : matches n' (k, c) = false).
    { unfold matches. cbn. rewrite bool_decide_eq_false_2; [done|]. intros E.
      assert (Hs : find_field fs (unquote k) = Some (n', t')) by (by apply find_field_spec). cbn in Ef. by rewrite Hs in Ef. }
    by rewrite Hf.
Qed.

End RawPick.
Export RawPick.
