(* ===== verification/Mcp.v ===== *)
(** * Tools of MCP servers: registry, policy and cross-server detection

    [McpMatch]: [path.Match] with its error.  [McpRegistry]: [internal/mcpregistry/registry.go], the
    tools a session knows, their servers and the hash first seen of each.  [McpPolicy]:
    [internal/mcpinspect/policy.go].  [McpClassifier]: [tool_classifier.go].  [McpAnalyzer]:
    [session_analyzer.go], the rules on sequences of calls.  [McpLimits]: [ratelimit.go] over an
    abstract token bucket.  [McpNames]: [name_similarity.go].  Times are nanoseconds; the clock is an
    argument. *)

From Stdlib Require Import ZArith Lia Ascii String.
From stdpp Require Import base list strings gmap.
From S2P Require Import Prelude GoText GoNet GoStrings PolicyModel PolicyEngine NetGuards NetAcl.
Open Scope string_scope.
Open Scope list_scope.
Open Scope Z_scope.

(** ** [path.Match] *)
Module McpMatch.

(** A chunk of a pattern is well formed: classes are closed, and nothing ends in a backslash. *)
Fixpoint chunk_ok (turns : nat) (chunk : list Z) : bool :=
  match chunk with
  | [] => true
  | b :: c' =>
    match turns with
    | O => false
    | S turns' =>
      if b =? ch_lbrack then
        match class_ranges turns' 0 false false (if starts_with [94] c' then drop 1 c' else c') with
        | Some (_, rest) => chunk_ok turns' rest
        | None => false
        end
      else if b =? 92 then match c' with _ :: c'' => chunk_ok turns' c'' | [] => false end
      else chunk_ok turns' c'
    end
  end.

Fixpoint pattern_ok (turns : nat) (pattern : list Z) : bool :=
  match turns, pattern with
  | _, [] => true
  | O, _ => false
  | S turns', _ =>
    let '(chunk, rest) := scan_chunk false (strip_stars pattern).2 in
    chunk_ok (S (length chunk)) chunk && pattern_ok turns' rest
  end.

(** [None] is [ErrBadPattern], which does not depend on the name. *)
Definition path_Match (pattern name : string) : option bool :=
  if pattern_ok (S (String.length pattern)) (string_bytes pattern) then Some (filepath_Match pattern name) else None.

Example path_Match_examples :
  (fun p : string * string => path_Match p.1 p.2) <$> [("git*", "github"); ("a[", "a["); ("a\", "a"); ("*[^a-", "x"); ("[ab]?", "b1"); ("*", "a/b")] =
  [Some true; None; None; None; Some true; Some false].
Proof. vm_compute. reflexivity. Qed.

End McpMatch.
Export McpMatch.

(** ** The registry ([mcpregistry/registry.go]) *)
Module McpRegistry.

Record ToolEntry : Type := mkToolEntry {
  te_ToolName : string; te_ServerID : string; te_ServerType : string; te_ServerAddr : string; te_ToolHash : string; te_RegisteredAt : Z
}.

Record ToolInfo : Type := mkToolInfo { ti_Name : string; ti_Hash : string }.

Record OverwrittenTool : Type := mkOverwritten { ow_ToolName : string; ow_PreviousServerID : string; ow_NewServerID : string }.

(** Which callbacks are set, and a call of one. *)
Record RegistryCallbacks : Type := mkCallbacks { cb_OnMultiServer : bool; cb_OnOverwrite : bool }.

Inductive callback : Type := CallMultiServer | CallOverwrite (ow : OverwrittenTool).

Record Registry : Type := mkRegistry {
  rg_tools : gmap string ToolEntry; rg_addrs : gmap string string; rg_pinned : gmap string string;
  rg_callbacks : option RegistryCallbacks; rg_servers : gset string; rg_multiFired : bool
}.

Definition NewRegistry : Registry := mkRegistry ∅ ∅ ∅ None ∅ false.

Definition SetCallbacks (cb : RegistryCallbacks) (r : Registry) : list callback * Registry :=
  let fire := (2 <=? Z.of_nat (size (rg_servers r))) && negb (rg_multiFired r) && cb_OnMultiServer cb in
  (if fire then [CallMultiServer] else [],
   mkRegistry (rg_tools r) (rg_addrs r) (rg_pinned r) (Some cb) (rg_servers r) (rg_multiFired r || fire)).

(** One turn of the loop over the tools: the entry is replaced, a different owner is reported, and the
    first hash of a name is pinned. *)
Definition register_tool (now : Z) (serverID serverType serverAddr : string)
  (acc : gmap string ToolEntry * gmap string string * list OverwrittenTool) (t : ToolInfo)
  : gmap string ToolEntry * gmap string string * list OverwrittenTool :=
  let '(tools, pinned, overwrites) := acc in
  (<[ti_Name t := mkToolEntry (ti_Name t) serverID serverType serverAddr (ti_Hash t) now]> tools,
   (if ti_Hash t !=? "" then match pinned !! ti_Name t with Some _ => pinned | None => <[ti_Name t := ti_Hash t]> pinned end else pinned),
   overwrites ++ match tools !! ti_Name t with
                 | Some e => if te_ServerID e !=? serverID then [mkOverwritten (ti_Name t) (te_ServerID e) serverID] else []
                 | None => []
                 end).

Definition Register (now : Z) (serverID serverType serverAddr : string) (tools : list ToolInfo) (r : Registry)
  : list OverwrittenTool * list callback * Registry :=
  let '(ts, pinned, overwrites) :=
    fold_left (register_tool now serverID serverType serverAddr) tools (rg_tools r, rg_pinned r, []) in
  let servers := {[serverID]} ∪ rg_servers r in
  let fire := (2 <=? Z.of_nat (size servers)) && negb (rg_multiFired r) &&
              match rg_callbacks r with Some cb => cb_OnMultiServer cb | None => false end in
  (overwrites,
   match rg_callbacks r with
   | None => []
   | Some cb => (if fire then [CallMultiServer] else []) ++ (if cb_OnOverwrite cb then CallOverwrite <$> overwrites else [])
   end,
   mkRegistry ts (if serverAddr !=? "" then <[serverAddr := serverID]> (rg_addrs r) else rg_addrs r) pinned (rg_callbacks r) servers
     (rg_multiFired r || fire)).

Definition Lookup (toolName : string) (r : Registry) : option ToolEntry := rg_tools r !! toolName.

Definition LookupBatch (toolNames : list string) (r : Registry) : gmap string ToolEntry :=
  fold_left (fun m name => match rg_tools r !! name with Some e => <[name := e]> m | None => m end) toolNames ∅.

Definition ServerAddrs (r : Registry) : gmap string string := rg_addrs r.

Definition PinnedHash (toolName : string) (r : Registry) : option string := rg_pinned r !! toolName.

Definition Remove (serverID : string) (r : Registry) : Registry :=
  mkRegistry (filter (fun p => te_ServerID p.2 ≠ serverID) (rg_tools r)) (filter (fun p => p.2 ≠ serverID) (rg_addrs r)) (rg_pinned r)
    (rg_callbacks r) (rg_servers r) (rg_multiFired r).

(** [bridgeEventToRegistry] on the fields of an event ([server/mcp_bridge.go]). *)
Definition bridgeEventToRegistry (now : Z) (type : string) (fields : string -> string) (r : Registry) : list callback * Registry :=
  let go (hash : string) :=
    if (fields "server_id" ==? "") || (fields "tool_name" ==? "") then ([], r)
    else
      let serverType := if fields "server_type" ==? "" then "stdio" else fields "server_type" in
      let '(_, cbs, r') := Register now (fields "server_id") serverType "" [mkToolInfo (fields "tool_name") hash] r in (cbs, r') in
  if type ==? "mcp_tool_seen" then go (fields "tool_hash")
  else if type ==? "mcp_tool_changed" then go (fields "new_hash")
  else ([], r).

End McpRegistry.
Export McpRegistry.

(** ** Tool categories ([tool_classifier.go]) *)
Module McpClassifier.

Definition CategoryRead : string := "read".
Definition CategoryWrite : string := "write".
Definition CategorySend : string := "send".
Definition CategoryCompute : string := "compute".
Definition CategoryUnknown : string := "unknown".

Definition defaultPrefixes : list (string * string) :=
  [("read_", CategoryRead); ("get_", CategoryRead); ("query_", CategoryRead); ("list_", CategoryRead); ("fetch_", CategoryRead);
   ("search_", CategoryRead); ("find_", CategoryRead); ("lookup_", CategoryRead);
   ("write_", CategoryWrite); ("update_", CategoryWrite); ("set_", CategoryWrite); ("create_", CategoryWrite); ("delete_", CategoryWrite);
   ("remove_", CategoryWrite); ("put_", CategoryWrite); ("insert_", CategoryWrite);
   ("send_", CategorySend); ("post_", CategorySend); ("upload_", CategorySend); ("http_", CategorySend); ("email_", CategorySend);
   ("notify_", CategorySend); ("publish_", CategorySend); ("push_", CategorySend);
   ("run_", CategoryCompute); ("exec_", CategoryCompute); ("eval_", CategoryCompute); ("execute_", CategoryCompute);
   ("invoke_", CategoryCompute); ("call_", CategoryCompute)].

Definition Classify {U : UnicodeCase} (toolName : string) : string :=
  let lower := ToLower toolName in
  match List.find (fun p => HasPrefix lower p.1) defaultPrefixes with Some p => p.2 | None => CategoryUnknown end.

Definition isSuspiciousCategory (category : string) : bool :=
  (category ==? CategoryWrite) || (category ==? CategorySend) || (category ==? CategoryCompute) || (category ==? CategoryUnknown).

End McpClassifier.
Export McpClassifier.

(** ** Reasons: the formatted texts, by their arguments *)
Module McpReason.

Inductive reason : Type :=
| NoReason
| EnforcementDisabled | NoToolPolicy | UnknownToolPolicy (p : string)
| ServerInAllowlist | ServerNotInAllowlist | ServerInDenylist | UnknownServerPolicy (p : string)
| MatchedAllowRule | NoAllowRule (failClosed : bool) | MatchedDenyRule | NoDenyRule
| RateLimited (server : string)
| HashChanged (tool pinned current : string) | HashChangedAlert (tool pinned current : string)
| Shadowed (tool original now : string)
| BurstExceeded (server : string) (calls window : Z)
| SendAfterRead (server reader : string) (elapsed : Z)
| CrossFlow (reader server : string).

#[export] Instance reason_eq_dec : EqDecision reason.
Proof. solve_decision. Defined.

End McpReason.
Export McpReason.

(** ** Tool policy ([policy.go]) *)
Module McpPolicy.
Section Policy.
Context {U : UnicodeCase} {CO : CaseOrbits}.

Record MCPToolRule : Type := mkToolRule { tr_Server : string; tr_Tool : string; tr_ContentHash : string }.

#[export] Instance MCPToolRule_eq_dec : EqDecision MCPToolRule.
Proof. solve_decision. Defined.

(** The fields of [config.SandboxMCPConfig] the evaluator reads; a server rule is its pattern. *)
Record SandboxMCPConfig : Type := mkMCPConfig {
  mc_EnforcePolicy : bool; mc_FailClosed : bool; mc_ServerPolicy : string; mc_AllowedServers : list string; mc_DeniedServers : list string;
  mc_ToolPolicy : string; mc_AllowedTools : list MCPToolRule; mc_DeniedTools : list MCPToolRule
}.

Record PolicyDecision : Type := mkPolicyDecision { pd_Allowed : bool; pd_Reason : reason; pd_Rule : option MCPToolRule }.

#[export] Instance PolicyDecision_eq_dec : EqDecision PolicyDecision.
Proof. solve_decision. Defined.

(** [PolicyDecision{}]. *)
Definition no_decision : PolicyDecision := mkPolicyDecision false NoReason None.

Definition matchesPattern (pattern value : string) : bool :=
  match path_Match (ToLower pattern) (ToLower value) with Some b => b | None => EqualFold pattern value end.

Definition matchesRule (rule : MCPToolRule) (serverID toolName hash : string) : bool :=
  if negb (matchesPattern (tr_Server rule) serverID) then false
  else if negb (matchesPattern (tr_Tool rule) toolName) then false
  else if (tr_ContentHash rule !=? "") && (tr_ContentHash rule !=? hash) then false
  else true.

Definition evaluateServerPolicy (c : SandboxMCPConfig) (serverID : string) : option PolicyDecision :=
  if mc_ServerPolicy c ==? "allowlist" then
    Some (if existsb (fun rule => matchesPattern rule serverID) (mc_AllowedServers c)
          then mkPolicyDecision true ServerInAllowlist None else mkPolicyDecision false ServerNotInAllowlist None)
  else if mc_ServerPolicy c ==? "denylist" then
    if existsb (fun rule => matchesPattern rule serverID) (mc_DeniedServers c) then Some (mkPolicyDecision false ServerInDenylist None) else None
  else if (mc_ServerPolicy c ==? "") || (mc_ServerPolicy c ==? "none") then None
  else Some (mkPolicyDecision false (UnknownServerPolicy (mc_ServerPolicy c)) None).

Definition evaluateAllowlist (c : SandboxMCPConfig) (serverID toolName hash : string) : PolicyDecision :=
  match List.find (fun rule => matchesRule rule serverID toolName hash) (mc_AllowedTools c) with
  | Some rule => mkPolicyDecision true MatchedAllowRule (Some rule)
  | None => mkPolicyDecision false (NoAllowRule (mc_FailClosed c)) None
  end.

Definition evaluateDenylist (c : SandboxMCPConfig) (serverID toolName hash : string) : PolicyDecision :=
  match List.find (fun rule => matchesRule rule serverID toolName hash) (mc_DeniedTools c) with
  | Some rule => mkPolicyDecision false MatchedDenyRule (Some rule)
  | None => mkPolicyDecision true NoDenyRule None
  end.

Definition Policy_Evaluate (c : SandboxMCPConfig) (serverID toolName hash : string) : PolicyDecision :=
  if negb (mc_EnforcePolicy c) then mkPolicyDecision true EnforcementDisabled None
  else
    let tool_level :=
      if mc_ToolPolicy c ==? "allowlist" then evaluateAllowlist c serverID toolName hash
      else if mc_ToolPolicy c ==? "denylist" then evaluateDenylist c serverID toolName hash
      else if (mc_ToolPolicy c ==? "") || (mc_ToolPolicy c ==? "none") then mkPolicyDecision true NoToolPolicy None
      else mkPolicyDecision false (UnknownToolPolicy (mc_ToolPolicy c)) None in
    match evaluateServerPolicy c serverID with
    | Some decision => if negb (pd_Allowed decision) then decision else tool_level
    | None => tool_level
    end.

End Policy.
End McpPolicy.
Export McpPolicy.

(** ** Sequences of calls ([session_analyzer.go]) *)
Module McpAnalyzer.
Section Analyzer.
Context {U : UnicodeCase}.

Record ToolCallRecord : Type := mkCall {
  tc_Timestamp : Z; tc_ServerID : string; tc_ToolName : string; tc_ToolCallID : string; tc_RequestID : string; tc_Action : string;
  tc_Category : string
}.

(** [config.CrossServerConfig]; the three pointers are [None] when unset. *)
Record CrossServerConfig : Type := mkCross {
  cs_Enabled : bool; cs_Read_Enabled : bool; cs_Read_Window : Z; cs_Burst_Enabled : bool; cs_Burst_MaxCalls : Z; cs_Burst_Window : Z;
  cs_Flow_Enabled : bool; cs_Flow_SameTurnOnly : option bool; cs_Flow_Window : Z; cs_Shadow_Enabled : option bool
}.

Record CrossServerDecision : Type := mkCrossDecision {
  cd_Blocked : bool; cd_Rule : string; cd_Reason : reason; cd_Severity : string; cd_Related : list ToolCallRecord
}.

Record shadowInfo : Type := mkShadow { sh_Original : string; sh_New : string }.

Record SessionAnalyzer : Type := mkAnalyzer {
  an_active : bool; an_cfg : CrossServerConfig; an_window : list ToolCallRecord; an_maxWindow : Z; an_shadows : gmap string shadowInfo;
  an_bursts : gmap string (list Z)
}.

Definition maxWindowEntries : nat := 1000.

Definition NewSessionAnalyzer (cfg : CrossServerConfig) : SessionAnalyzer := mkAnalyzer false cfg [] 0 ∅ ∅.

(** Thirty seconds when no window is set. *)
Definition computeMaxWindow (cfg : CrossServerConfig) : Z :=
  let max := cs_Read_Window cfg in
  let max := if max <? cs_Burst_Window cfg then cs_Burst_Window cfg else max in
  let max := if max <? cs_Flow_Window cfg then cs_Flow_Window cfg else max in
  if max =? 0 then 30000000000 else max.

Definition Activate (a : SessionAnalyzer) : SessionAnalyzer :=
  if an_active a then a else mkAnalyzer true (an_cfg a) [] (computeMaxWindow (an_cfg a)) (an_shadows a) ∅.

Definition set_window (w : list ToolCallRecord) (a : SessionAnalyzer) : SessionAnalyzer :=
  mkAnalyzer (an_active a) (an_cfg a) w (an_maxWindow a) (an_shadows a) (an_bursts a).
Definition set_shadows (s : gmap string shadowInfo) (a : SessionAnalyzer) : SessionAnalyzer :=
  mkAnalyzer (an_active a) (an_cfg a) (an_window a) (an_maxWindow a) s (an_bursts a).
Definition set_bursts (b : gmap string (list Z)) (a : SessionAnalyzer) : SessionAnalyzer :=
  mkAnalyzer (an_active a) (an_cfg a) (an_window a) (an_maxWindow a) (an_shadows a) b.

Definition NotifyOverwrite (toolName oldServerID newServerID : string) (a : SessionAnalyzer) : SessionAnalyzer :=
  set_shadows (<[toolName := mkShadow oldServerID newServerID]> (an_shadows a)) a.
Definition ClearShadow (toolName : string) (a : SessionAnalyzer) : SessionAnalyzer := set_shadows (delete toolName (an_shadows a)) a.

Fixpoint drop_old (cutoff : Z) (w : list ToolCallRecord) : list ToolCallRecord :=
  match w with r :: w' => if tc_Timestamp r <? cutoff then drop_old cutoff w' else w | [] => [] end.

(** Entries that are too old at the front, and what is over the cap. *)
Definition pruneWindow (now : Z) (a : SessionAnalyzer) : SessionAnalyzer :=
  let w := drop_old (now - an_maxWindow a) (an_window a) in
  set_window (drop (length w - maxWindowEntries) w) a.

Definition recordLocked (serverID toolName toolCallID requestID action category : string) (now : Z) (a : SessionAnalyzer) : SessionAnalyzer :=
  if negb (an_active a) then a
  else pruneWindow now (set_window (an_window a ++ [mkCall now serverID toolName toolCallID requestID action category]) a).

Definition checkShadow (toolName : string) (a : SessionAnalyzer) : option CrossServerDecision :=
  info ← an_shadows a !! toolName;
  Some (mkCrossDecision true "shadow_tool" (Shadowed toolName (sh_Original info) (sh_New info)) "critical" []).

Definition checkBurst (serverID : string) (now : Z) (a : SessionAnalyzer) : option CrossServerDecision * SessionAnalyzer :=
  let window := cs_Burst_Window (an_cfg a) in
  let maxCalls := cs_Burst_MaxCalls (an_cfg a) in
  if maxCalls <=? 0 then (None, a)
  else
    let pruned := List.filter (fun t => negb (t <? now - window)) (default [] (an_bursts a !! serverID)) ++ [now] in
    let n := Z.of_nat (length pruned) in
    (if maxCalls <=? n then Some (mkCrossDecision true "burst" (BurstExceeded serverID n window) "high" []) else None,
     set_bursts (<[serverID := pruned]> (an_bursts a)) a).

(** The loops from the end of the window: up to the first record that is too old, the first that the
    condition accepts. *)
Fixpoint find_recent (cutoff : Z) (accept : ToolCallRecord -> bool) (rev_window : list ToolCallRecord) : option ToolCallRecord :=
  match rev_window with
  | [] => None
  | r :: w => if tc_Timestamp r <? cutoff then None else if accept r then Some r else find_recent cutoff accept w
  end.

Definition allowed_read_elsewhere (serverID : string) (r : ToolCallRecord) : bool :=
  (tc_Category r ==? CategoryRead) && (tc_Action r ==? "allow") && (tc_ServerID r !=? serverID).

Definition checkReadThenSend (serverID : string) (now : Z) (a : SessionAnalyzer) : option CrossServerDecision :=
  r ← find_recent (now - cs_Read_Window (an_cfg a)) (allowed_read_elsewhere serverID) (rev (an_window a));
  Some (mkCrossDecision true "read_then_send" (SendAfterRead serverID (tc_ServerID r) (now - tc_Timestamp r)) "critical" [r]).

Definition checkCrossServerFlow (serverID requestID : string) (now : Z) (a : SessionAnalyzer) : option CrossServerDecision :=
  let sameTurnOnly := default false (cs_Flow_SameTurnOnly (an_cfg a)) in
  r ← find_recent (now - cs_Flow_Window (an_cfg a))
        (fun r => allowed_read_elsewhere serverID r && negb (sameTurnOnly && (tc_RequestID r !=? requestID))) (rev (an_window a));
  Some (mkCrossDecision true "cross_server_flow" (CrossFlow (tc_ServerID r) serverID) "high" [r]).

Definition CheckAndRecord (now : Z) (serverID toolName toolCallID requestID : string) (a : SessionAnalyzer)
  : option CrossServerDecision * string * SessionAnalyzer :=
  let category := Classify toolName in
  let cfg := an_cfg a in
  let record (action : string) (a : SessionAnalyzer) := recordLocked serverID toolName toolCallID requestID action category now a in
  if negb (cs_Enabled cfg) then (None, category, a)
  else if negb (an_active a) && bool_decide (an_shadows a = ∅) then (None, category, a)
  else
    match (if default false (cs_Shadow_Enabled cfg) then checkShadow toolName a else None) with
    | Some dec => (Some dec, category, record "block" a)
    | None =>
      if negb (an_active a) then (None, category, a)
      else
        let '(burst, a) := if cs_Burst_Enabled cfg then checkBurst serverID now a else (None, a) in
        match burst with
        | Some dec => (Some dec, category, record "block" a)
        | None =>
          match (if cs_Read_Enabled cfg && (category ==? CategorySend) then checkReadThenSend serverID now a else None) with
          | Some dec => (Some dec, category, record "block" a)
          | None =>
            match (if cs_Flow_Enabled cfg && isSuspiciousCategory category then checkCrossServerFlow serverID requestID now a else None) with
            | Some dec => (Some dec, category, record "block" a)
            | None => (None, category, record "allow" a)
            end
          end
        end
    end.

(** The last allowed entry of the call becomes blocked; [rev_window] is the window from its end. *)
Definition block_record (r : ToolCallRecord) : ToolCallRecord :=
  mkCall (tc_Timestamp r) (tc_ServerID r) (tc_ToolName r) (tc_ToolCallID r) (tc_RequestID r) "block" (tc_Category r).

Definition same_call (serverID toolName toolCallID requestID : string) (r : ToolCallRecord) : bool :=
  if toolCallID !=? "" then tc_ToolCallID r ==? toolCallID
  else (tc_ServerID r ==? serverID) && (tc_ToolName r ==? toolName) && (tc_RequestID r ==? requestID).

Fixpoint mark_first (same : ToolCallRecord -> bool) (rev_window : list ToolCallRecord) : list ToolCallRecord :=
  match rev_window with
  | [] => []
  | r :: w => if tc_Action r !=? "allow" then r :: mark_first same w
              else if same r then block_record r :: w else r :: mark_first same w
  end.

Definition MarkBlocked (serverID toolName toolCallID requestID : string) (a : SessionAnalyzer) : SessionAnalyzer :=
  set_window (rev (mark_first (same_call serverID toolName toolCallID requestID) (rev (an_window a)))) a.

Definition Record_call (r : ToolCallRecord) (a : SessionAnalyzer) : SessionAnalyzer :=
  if negb (an_active a) then a else pruneWindow (tc_Timestamp r) (set_window (an_window a ++ [r]) a).

(** What the callbacks of a session's registry do to its analyzer ([api/app.go]). *)
Definition run_callback (a : SessionAnalyzer) (c : callback) : SessionAnalyzer :=
  match c with
  | CallMultiServer => Activate a
  | CallOverwrite ow => NotifyOverwrite (ow_ToolName ow) (ow_PreviousServerID ow) (ow_NewServerID ow) a
  end.

End Analyzer.
End McpAnalyzer.
Export McpAnalyzer.

(** ** Rate limits ([ratelimit.go]) *)
Module McpLimits.

(** A token bucket: made from calls per minute and a burst, asked at a time. *)
Class TokenBucket : Type := { bucket : Type; NewLimiter : Z -> Z -> bucket; Limiter_Allow : Z -> bucket -> bool * bucket }.

Record MCPRateLimit : Type := mkRateLimit { ml_CallsPerMinute : Z; ml_Burst : Z }.

Record MCPRateLimitsConfig : Type := mkLimits {
  lc_Enabled : bool; lc_DefaultRPM : Z; lc_DefaultBurst : Z; lc_PerServer : gmap string MCPRateLimit
}.

Section Limits.
Context {B : TokenBucket}.

Record RateLimiterRegistry : Type := mkLimiters { rr_cfg : MCPRateLimitsConfig; rr_limiters : gmap string bucket }.

Definition NewRateLimiterRegistry (cfg : MCPRateLimitsConfig) : RateLimiterRegistry := mkLimiters cfg ∅.

Definition getLimiter (serverID : string) (r : RateLimiterRegistry) : bucket :=
  match rr_limiters r !! serverID with
  | Some l => l
  | None =>
    match lc_PerServer (rr_cfg r) !! serverID with
    | Some s => NewLimiter (ml_CallsPerMinute s) (ml_Burst s)
    | None => NewLimiter (lc_DefaultRPM (rr_cfg r)) (lc_DefaultBurst (rr_cfg r))
    end
  end.

Definition Limits_Allow (now : Z) (serverID : string) (r : RateLimiterRegistry) : bool * RateLimiterRegistry :=
  if negb (lc_Enabled (rr_cfg r)) then (true, r)
  else
    let '(ok, l) := Limiter_Allow now (getLimiter serverID r) in
    (ok, mkLimiters (rr_cfg r) (<[serverID := l]> (rr_limiters r))).

Definition Limits_Reset (r : RateLimiterRegistry) : RateLimiterRegistry := mkLimiters (rr_cfg r) ∅.

End Limits.
End McpLimits.
Export McpLimits.

(** ** Names of servers ([name_similarity.go]) *)
Module McpNames.

(** One row of the table from the one above: [prev] from its second column on, with the entry
    diagonally above and the entry to the left. *)
Fixpoint next_row (x : Z) (b : list Z) (prev : list Z) (diag left : Z) : list Z :=
  match b, prev with
  | y :: b', up :: prev' =>
    let cost := if x =? y then 0 else 1 in
    let m := up + 1 in
    let m := if left + 1 <? m then left + 1 else m in
    let m := if diag + cost <? m then diag + cost else m in
    m :: next_row x b' prev' up m
  | _, _ => []
  end.

Fixpoint rows (a : list Z) (i : Z) (b : list Z) (prev : list Z) : list Z :=
  match a with
  | [] => prev
  | x :: a' => rows a' (i + 1) b (match prev with d :: ps => i :: next_row x b ps d i | [] => [] end)
  end.

Definition levenshtein (s t : string) : Z :=
  let a := string_bytes s in
  let b := string_bytes t in
  let la := Z.of_nat (length a) in
  let lb := Z.of_nat (length b) in
  if la =? 0 then lb else if lb =? 0 then la
  else List.last (rows a 1 b (Z.of_nat <$> seq 0 (S (length b)))) 0.

End McpNames.
Export McpNames.
