(* ===== verification/McpProxy.v ===== *)
(** * Tool calls in the answers of a model

    [McpIntercept]: [internal/proxy/mcp_intercept.go], whole responses in both dialects: the tool
    calls in them, the decision on each and the response without the blocked ones.  [McpStream]:
    [sse_intercept.go] and [mcp_streaming.go], the same on a stream of server-sent events, line by
    line.  Bodies and lines are bytes. *)

From Stdlib Require Import ZArith Lia Ascii String.
From stdpp Require Import base list strings gmap.
From S2P Require Import Prelude GoText GoNet GoStrings GoJson GoJsonRaw PolicyModel PolicyEngine NetGuards NetAcl Mcp.
Open Scope string_scope.
Open Scope list_scope.
Open Scope Z_scope.

(** ** Decisions and whole responses ([mcp_intercept.go]) *)
Module McpIntercept.

Inductive Dialect : Type := DialectUnknown | DialectAnthropic | DialectOpenAI.

Record ToolCall : Type := mkToolCall { tl_ID : string; tl_Name : string; tl_Input : option rjson }.

(** *** The calls of a response *)

Definition anthropic_block : gotype := TStruct [("type", TString); ("id", TString); ("name", TString); ("input", TRaw)].
Definition anthropic_response : gotype := TStruct [("stop_reason", TString); ("content", TSlice anthropic_block)].

Definition block_call (b : goval) : ToolCall := mkToolCall (vstr (field "id" b)) (vstr (field "name" b)) (vraw (field "input" b)).

Definition is_tool_use (b : goval) : bool := vstr (field "type" b) ==? "tool_use".

Definition extractAnthropicToolCalls (body : list Z) : list ToolCall :=
  match unmarshal anthropic_response body with
  | None => []
  | Some resp =>
    if vstr (field "stop_reason" resp) !=? "tool_use" then []
    else block_call <$> List.filter is_tool_use (vlist (field "content" resp))
  end.

Definition openai_function : gotype := TStruct [("name", TString); ("arguments", TString)].
Definition openai_call : gotype := TStruct [("id", TString); ("function", openai_function)].
Definition openai_choice : gotype :=
  TStruct [("finish_reason", TString); ("message", TStruct [("tool_calls", TSlice openai_call)])].
Definition openai_response : gotype := TStruct [("choices", TSlice openai_choice)].

(** Arguments that are not JSON are left out. *)
Definition choice_call (tc : goval) : ToolCall :=
  mkToolCall (vstr (field "id" tc)) (vstr (field "name" (field "function" tc))) (scan (string_bytes (vstr (field "arguments" (field "function" tc))))).

Definition choice_calls (choice : goval) : list ToolCall :=
  if vstr (field "finish_reason" choice) !=? "tool_calls" then []
  else choice_call <$> vlist (field "tool_calls" (field "message" choice)).

Definition extractOpenAIToolCalls (body : list Z) : list ToolCall :=
  match unmarshal openai_response body with
  | None => []
  | Some resp => vlist (field "choices" resp) ≫= choice_calls
  end.

Definition ExtractToolCalls (body : list Z) (dialect : Dialect) : list ToolCall :=
  match dialect with
  | DialectAnthropic => extractAnthropicToolCalls body
  | DialectOpenAI => extractOpenAIToolCalls body
  | DialectUnknown => []
  end.

(** *** The response without blocked calls *)

Definition blocked_text (name : string) : string := "[aep-caw] Tool '" +:+ name +:+ "' blocked by policy".

Definition block_info : gotype := TStruct [("type", TString); ("name", TString)].

(** [map[string]string{"type": "text", "text": ...}] as it is marshalled. *)
Definition text_block (name : string) : rjson := RObject [(quote "text", str (blocked_text name)); (quote "type", str "text")].

(** A content block after the loop, and whether it counts as a remaining tool call. *)
Definition rewrite_block (blocked : gset string) (block : rjson) : rjson * bool :=
  match decode block block_info (zero block_info) with
  | None => (block, false)
  | Some info =>
    if is_tool_use info && bool_decide (vstr (field "name" info) ∈ blocked) then (text_block (vstr (field "name" info)), false)
    else (block, is_tool_use info)
  end.

Definition rewriteAnthropicResponse (body : list Z) (blocked : gset string) : option (list Z) :=
  c ← scan body;
  resp ← as_map (Some c);
  content ← as_list (mget "content" resp);
  resp ← resp;
  let rewritten := rewrite_block blocked <$> content in
  let resp := rput "content" (of_list rewritten.*1) resp in
  let resp := if existsb snd rewritten then resp else rput "stop_reason" (str "end_turn") resp in
  Some (print (of_map (Some resp))).

Definition call_info : gotype := TStruct [("function", TStruct [("name", TString)])].

Definition call_blocked (blocked : gset string) (tc : rjson) : option string :=
  info ← decode tc call_info (zero call_info);
  let name := vstr (field "name" (field "function" info)) in
  if bool_decide (name ∈ blocked) then Some name else None.

(** The messages joined by newlines. *)
Definition joined (l : list string) : string := String.concat (String (ascii_of_nat 10) "") l.

Definition kept_calls (blocked : gset string) (l : list rjson) : list rjson :=
  List.filter (fun tc => match call_blocked blocked tc with None => true | Some _ => false end) l.

(** The message and the choice once its tool calls are filtered. *)
Definition rewrite_message (blocked : gset string) (toolCalls : list rjson) (msg : rmap) : rmap * bool :=
  let kept := kept_calls blocked toolCalls in
  let names := omap (call_blocked blocked) toolCalls in
  match kept, names with
  | [], _ :: _ => (rdelete "tool_calls" (rput "content" (str (joined (blocked_text <$> names))) msg), true)
  | _, _ => if Nat.ltb (length kept) (length toolCalls) then (rput "tool_calls" (of_list kept) msg, false) else (msg, false)
  end.

Definition rewrite_choice (blocked : gset string) (choiceRaw : rjson) : rjson :=
  match as_map (Some choiceRaw) with
  | None => choiceRaw
  | Some choice =>
    match as_map (mget "message" choice) with
    | None => choiceRaw
    | Some msg =>
      match (match mget "tool_calls" msg with Some l => as_list (Some l) | None => Some [] end), choice with
      | None, _ | _, None => choiceRaw
      | Some toolCalls, Some choice =>
        let '(msg, stop) := match msg with Some m => let '(m', stop) := rewrite_message blocked toolCalls m in (Some m', stop) | None => (None, false) end in
        let choice := if stop then rput "finish_reason" (str "stop") choice else choice in
        of_map (Some (rput "message" (of_map msg) choice))
      end
    end
  end.

Definition rewriteOpenAIResponse (body : list Z) (blocked : gset string) : option (list Z) :=
  c ← scan body;
  resp ← as_map (Some c);
  choices ← as_list (mget "choices" resp);
  resp ← resp;
  Some (print (of_map (Some (rput "choices" (of_list (rewrite_choice blocked <$> choices)) resp)))).

(** *** The decision on a call *)

Record MCPVersionPinningConfig : Type := mkPinning { vp_Enabled : bool; vp_OnChange : string }.

Record MCPToolCallInterceptedEvent : Type := mkIntercepted {
  ie_Timestamp : Z; ie_SessionID : string; ie_RequestID : string; ie_Dialect : Dialect; ie_ToolName : string; ie_ToolCallID : string;
  ie_Input : option rjson; ie_Entry : ToolEntry; ie_Action : string; ie_Reason : reason; ie_CrossServerRule : string;
  ie_CrossServerSeverity : string; ie_CrossServerRelated : list ToolCallRecord
}.

Definition crossServerRule (d : option CrossServerDecision) : string := match d with Some d => cd_Rule d | None => "" end.
Definition crossServerSeverity (d : option CrossServerDecision) : string := match d with Some d => cd_Severity d | None => "" end.
Definition crossServerRelated (d : option CrossServerDecision) : list ToolCallRecord := match d with Some d => cd_Related d | None => [] end.

Section Interception.
Context {U : UnicodeCase} {CO : CaseOrbits} {B : TokenBucket}.

(** What a session's interception is made of; each check is there or not. *)
Record Interceptor : Type := mkInterceptor {
  ic_registry : Registry; ic_policy : option SandboxMCPConfig; ic_pin : option MCPVersionPinningConfig; ic_session : string; ic_request : string
}.

(** The state behind the checks; [ck_time] counts the readings of the clock. *)
Record checks : Type := mkChecks { ck_analyzer : option SessionAnalyzer; ck_limiter : option RateLimiterRegistry; ck_time : nat }.

Variable clock : nat -> Z.

Definition cross_check (ic : Interceptor) (entry : ToolEntry) (name id : string) (k : checks) : option CrossServerDecision * checks :=
  match ck_analyzer k with
  | None => (None, k)
  | Some a =>
    let '(dec, _, a) := CheckAndRecord (clock (ck_time k)) (te_ServerID entry) name id (ic_request ic) a in
    (dec, mkChecks (Some a) (ck_limiter k) (S (ck_time k)))
  end.

Definition limit_check (entry : ToolEntry) (k : checks) : bool * checks :=
  match ck_limiter k with
  | None => (true, k)
  | Some l => let '(ok, l) := Limits_Allow (clock (ck_time k)) (te_ServerID entry) l in (ok, mkChecks (ck_analyzer k) (Some l) (S (ck_time k)))
  end.

Definition mark_blocked (ic : Interceptor) (entry : ToolEntry) (name id : string) (k : checks) : checks :=
  mkChecks (MarkBlocked (te_ServerID entry) name id (ic_request ic) <$> ck_analyzer k) (ck_limiter k) (ck_time k).

(** The pinned hash, when it is enforced and not that of the entry, with the configured action. *)
Definition pin_changed (ic : Interceptor) (entry : ToolEntry) (name : string) : option (string * string) :=
  match ic_pin ic with
  | None => None
  | Some v =>
    if vp_Enabled v then
      match PinnedHash name (ic_registry ic) with
      | Some h => if te_ToolHash entry !=? h then Some (h, vp_OnChange v) else None
      | None => None
      end
    else None
  end.

(** One turn of the loop of [interceptMCPToolCalls] on a tool of the registry: the decision, the
    reason of the event, and the cross-server rule that fired. *)
Definition decide_call (ic : Interceptor) (entry : ToolEntry) (call : ToolCall) (k : checks)
  : PolicyDecision * reason * option CrossServerDecision * checks :=
  let name := tl_Name call in
  let '(cross, k) := cross_check ic entry name (tl_ID call) k in
  match cross with
  | Some block =>
    (mkPolicyDecision false (cd_Reason block) None, cd_Reason block, Some block, k)
  | None =>
    let '(ok, k) := limit_check entry k in
    let decision := if ok then no_decision else mkPolicyDecision false (RateLimited (te_ServerID entry)) None in
    let '(decision, reason) :=
      if decision ==? no_decision then
        match pin_changed ic entry name with
        | Some (h, onChange) =>
          if onChange ==? "block" then (mkPolicyDecision false (HashChanged name h (te_ToolHash entry)) None, NoReason)
          else if onChange ==? "alert" then (decision, HashChangedAlert name h (te_ToolHash entry))
          else (decision, NoReason)
        | None => (decision, NoReason)
        end
      else (decision, NoReason) in
    let decision :=
      if decision ==? no_decision then
        match ic_policy ic with Some p => Policy_Evaluate p (te_ServerID entry) name (te_ToolHash entry) | None => decision end
      else decision in
    let decision := if decision ==? no_decision then mkPolicyDecision true NoReason None else decision in
    if pd_Allowed decision then (decision, reason, None, k)
    else (decision, pd_Reason decision, None, mark_blocked ic entry name (tl_ID call) k)
  end.

Record InterceptResult : Type := mkResult { ir_Events : list MCPToolCallInterceptedEvent; ir_HasBlocked : bool; ir_RewrittenBody : option (list Z) }.

(** The loop over the calls: events, blocked names and the checks after it. *)
Fixpoint intercept_calls (now : Z) (dialect : Dialect) (ic : Interceptor) (calls : list ToolCall) (k : checks)
  : list MCPToolCallInterceptedEvent * gset string * checks :=
  match calls with
  | [] => ([], ∅, k)
  | call :: rest =>
    match Lookup (tl_Name call) (ic_registry ic) with
    | None => intercept_calls now dialect ic rest k
    | Some entry =>
      let '(decision, reason, cross, k) := decide_call ic entry call k in
      let '(evs, blocked, k) := intercept_calls now dialect ic rest k in
      (mkIntercepted now (ic_session ic) (ic_request ic) dialect (tl_Name call) (tl_ID call) (tl_Input call) entry
         (if pd_Allowed decision then "allow" else "block") reason (crossServerRule cross) (crossServerSeverity cross) (crossServerRelated cross) :: evs,
       (if pd_Allowed decision then blocked else {[tl_Name call]} ∪ blocked), k)
    end
  end.

Definition interceptMCPToolCalls (body : list Z) (dialect : Dialect) (ic : Interceptor) (k : checks) : InterceptResult * checks :=
  match ExtractToolCalls body dialect with
  | [] => (mkResult [] false None, k)
  | calls =>
    let '(evs, blocked, k) := intercept_calls (clock (ck_time k)) dialect ic calls (mkChecks (ck_analyzer k) (ck_limiter k) (S (ck_time k))) in
    let has := bool_decide (blocked <> ∅) in
    (mkResult evs has
       (if has then match dialect with
                    | DialectAnthropic => rewriteAnthropicResponse body blocked
                    | DialectOpenAI => rewriteOpenAIResponse body blocked
                    | DialectUnknown => None
                    end
        else None), k)
  end.

Definition hasInterception (ic : Interceptor) (k : checks) : bool :=
  bool_decide (is_Some (ic_policy ic)) || bool_decide (is_Some (ck_limiter k)) || bool_decide (is_Some (ic_pin ic)).

(** [ModifyResponse] of the proxy on a whole response: the body the client gets ([proxy.go]). *)
Definition relayed_body (statusOK : bool) (body : list Z) (dialect : Dialect) (ic : Interceptor) (k : checks) : list Z :=
  if hasInterception ic k && statusOK then
    let '(r, _) := interceptMCPToolCalls body dialect ic k in
    if ir_HasBlocked r then default body (ir_RewrittenBody r) else body
  else body.

End Interception.
End McpIntercept.
Export McpIntercept.

(** ** Streams ([sse_intercept.go], [mcp_streaming.go]) *)
Module McpStream.

Definition sseMaxLineSize : nat := Z.to_nat 262144.

Definition drop_cr (line : list Z) : list Z := match rev line with 13 :: r => rev r | _ => line end.

(** The lines a scanner with that buffer returns, and whether it stopped at a line that is too long;
    the last line needs no newline. *)
Fixpoint scanned (segments : list (list Z)) : list (list Z) * bool :=
  match segments with
  | [] => ([], false)
  | seg :: rest =>
    if Nat.leb sseMaxLineSize (length seg) then ([], true)
    else match rest, seg with
    | [], [] => ([], false)
    | _, _ => let '(l, e) := scanned rest in (drop_cr seg :: l, e)
    end
  end.

Definition scan_lines (bs : list Z) : list (list Z) * bool := scanned (split_byte 10 bs).

Definition extractSSEData (line : list Z) : option (list Z) :=
  if starts_with (string_bytes "data: ") line then Some (drop 6 line)
  else if starts_with (string_bytes "data:") line then Some (drop 5 line)
  else None.

(** *** The calls of a recorded stream *)

Definition sse_block : gotype :=
  TStruct [("type", TString); ("content_block", TStruct [("type", TString); ("id", TString); ("name", TString)])].

Definition anthropic_line_call (line : list Z) : option ToolCall :=
  data ← extractSSEData line;
  evt ← unmarshal sse_block data;
  let b := field "content_block" evt in
  if (vstr (field "type" evt) ==? "content_block_start") && is_tool_use b
  then Some (mkToolCall (vstr (field "id" b)) (vstr (field "name" b)) None) else None.

Definition extractAnthropicSSEToolCalls (body : list Z) : list ToolCall := omap anthropic_line_call (scan_lines body).1.

Definition sse_openai : gotype :=
  TStruct [("choices", TSlice (TStruct [("delta", TStruct [("tool_calls",
    TSlice (TStruct [("id", TString); ("function", TStruct [("name", TString)])]))])]))].

(** The first entry with an ID and a name, for each ID. *)
Definition openai_line_calls (line : list Z) : list ToolCall :=
  match extractSSEData line with
  | None => []
  | Some data =>
    if data ==? string_bytes "[DONE]" then []
    else match unmarshal sse_openai data with
    | None => []
    | Some chunk =>
      vlist (field "choices" chunk) ≫= fun choice =>
        (fun tc => mkToolCall (vstr (field "id" tc)) (vstr (field "name" (field "function" tc))) None) <$>
          List.filter (fun tc => (vstr (field "id" tc) !=? "") && (vstr (field "name" (field "function" tc)) !=? ""))
            (vlist (field "tool_calls" (field "delta" choice)))
    end
  end.

Fixpoint first_of_id (seen : gset string) (l : list ToolCall) : list ToolCall :=
  match l with
  | [] => []
  | c :: l' => if bool_decide (tl_ID c ∈ seen) then first_of_id seen l' else c :: first_of_id ({[tl_ID c]} ∪ seen) l'
  end.

Definition extractOpenAISSEToolCalls (body : list Z) : list ToolCall := first_of_id ∅ ((scan_lines body).1 ≫= openai_line_calls).

Definition ExtractToolCallsFromSSE (body : list Z) (dialect : Dialect) : list ToolCall :=
  match dialect with
  | DialectAnthropic => extractAnthropicSSEToolCalls body
  | DialectOpenAI => extractOpenAISSEToolCalls body
  | DialectUnknown => []
  end.

(** *** Chunks of the OpenAI dialect *)

Record openAIChunkToolCall : Type := mkChunkCall { kc_Index : Z; kc_ID : string; kc_Type : string; kc_Name : string; kc_Arguments : string }.
Record openAIChunkDelta : Type := mkDelta { kd_Role : string; kd_Content : option rjson; kd_ToolCalls : list openAIChunkToolCall }.
Record openAIChunkChoice : Type := mkChoice { kh_Index : Z; kh_Delta : openAIChunkDelta; kh_FinishReason : option string }.
Record openAIChunk : Type := mkChunk { ku_ID : string; ku_Object : string; ku_Choices : list openAIChunkChoice }.

Definition chunk_call_type : gotype :=
  TStruct [("index", TInt); ("id", TString); ("type", TString); ("function", openai_function)].
Definition chunk_type : gotype :=
  TStruct [("id", TString); ("object", TString); ("choices", TSlice (TStruct [("index", TInt);
    ("delta", TStruct [("role", TString); ("content", TRaw); ("tool_calls", TSlice chunk_call_type)]); ("finish_reason", TPtrString)]))].

Definition chunk_call_of (v : goval) : openAIChunkToolCall :=
  mkChunkCall (vint (field "index" v)) (vstr (field "id" v)) (vstr (field "type" v)) (vstr (field "name" (field "function" v)))
    (vstr (field "arguments" (field "function" v))).
Definition delta_of (v : goval) : openAIChunkDelta :=
  mkDelta (vstr (field "role" v)) (vraw (field "content" v)) (chunk_call_of <$> vlist (field "tool_calls" v)).
Definition choice_of (v : goval) : openAIChunkChoice := mkChoice (vint (field "index" v)) (delta_of (field "delta" v)) (vptr (field "finish_reason" v)).
Definition chunk_of (v : goval) : openAIChunk :=
  mkChunk (vstr (field "id" v)) (vstr (field "object" v)) (choice_of <$> vlist (field "choices" v)).

(** [json.Marshal] of a chunk, with its [omitempty]. *)
Definition unless_empty (k s : string) : list (list Z * rjson) := if s ==? "" then [] else [(quote k, str s)].
Definition int_json (z : Z) : rjson := RNumber (string_bytes (FormatInt z)).

Definition chunk_call_json (c : openAIChunkToolCall) : rjson :=
  RObject ([(quote "index", int_json (kc_Index c))] ++ unless_empty "id" (kc_ID c) ++ unless_empty "type" (kc_Type c) ++
           [(quote "function", RObject (unless_empty "name" (kc_Name c) ++ [(quote "arguments", str (kc_Arguments c))]))]).
Definition delta_json (d : openAIChunkDelta) : rjson :=
  RObject (unless_empty "role" (kd_Role d) ++ match kd_Content d with Some c => [(quote "content", escaped c)] | None => [] end ++
           match kd_ToolCalls d with [] => [] | l => [(quote "tool_calls", RArray (chunk_call_json <$> l))] end).
Definition choice_json (c : openAIChunkChoice) : rjson :=
  RObject [(quote "index", int_json (kh_Index c)); (quote "delta", delta_json (kh_Delta c));
           (quote "finish_reason", match kh_FinishReason c with Some s => str s | None => RNull end)].
Definition chunk_json (c : openAIChunk) : rjson :=
  RObject [(quote "id", str (ku_ID c)); (quote "object", str (ku_Object c)); (quote "choices", RArray (choice_json <$> ku_Choices c))].

(** *** The interceptor *)

Section Interceptor.
Context {U : UnicodeCase} {CO : CaseOrbits} {B : TokenBucket}.

Record openAIChoiceTracking : Type := mkTracking { ot_blocked : gset Z; ot_total : Z; ot_nblocked : Z }.

(** What an [SSEInterceptor] carries from line to line.  [ss_buf] and [ss_client] are the lines
    buffered and those the client took, [ss_events] the events fired. *)
Record SSEInterceptor : Type := mkSSE {
  ss_checks : checks; ss_blockedIndices : gset Z; ss_totalToolUse : Z; ss_blockedToolUse : Z; ss_openAIChoices : gmap Z openAIChoiceTracking;
  ss_events : list MCPToolCallInterceptedEvent; ss_buf : list (list Z); ss_client : list (list Z); ss_clientErr : bool
}.

Definition NewSSEInterceptor (k : checks) : SSEInterceptor := mkSSE k ∅ 0 0 ∅ [] [] [] false.

Definition with_checks (k : checks) (s : SSEInterceptor) : SSEInterceptor :=
  mkSSE k (ss_blockedIndices s) (ss_totalToolUse s) (ss_blockedToolUse s) (ss_openAIChoices s) (ss_events s) (ss_buf s) (ss_client s) (ss_clientErr s).
Definition with_choices (m : gmap Z openAIChoiceTracking) (s : SSEInterceptor) : SSEInterceptor :=
  mkSSE (ss_checks s) (ss_blockedIndices s) (ss_totalToolUse s) (ss_blockedToolUse s) m (ss_events s) (ss_buf s) (ss_client s) (ss_clientErr s).

Definition getChoiceTracking (choiceIdx : Z) (s : SSEInterceptor) : openAIChoiceTracking * SSEInterceptor :=
  match ss_openAIChoices s !! choiceIdx with
  | Some st => (st, s)
  | None => let st := mkTracking ∅ 0 0 in (st, with_choices (<[choiceIdx := st]> (ss_openAIChoices s)) s)
  end.

(** What becomes of a line: replaced by lines, dropped, or the process panics. *)
Inductive outcome : Type := Emit (lines : list (list Z)) | Suppress | Panic.

Variable clock : nat -> Z.
Variable ic : Interceptor.
(** Whether the nth write to the client succeeds. *)
Variable accepts : nat -> bool.

(** The entry, the decision and the cross-server rule that fired; no registry is an empty one. *)
Definition lookupAndEvaluate (name id : string) (k : checks) : option (ToolEntry * PolicyDecision * option CrossServerDecision) * checks :=
  match Lookup name (ic_registry ic) with
  | None => (None, k)
  | Some entry =>
    let '(cross, k) := cross_check clock ic entry name id k in
    match cross with
    | Some block => (Some (entry, mkPolicyDecision false (cd_Reason block) None, Some block), k)
    | None =>
      let '(ok, k) := limit_check clock entry k in
      if negb ok then (Some (entry, mkPolicyDecision false (RateLimited (te_ServerID entry)) None, None), mark_blocked ic entry name id k)
      else
        let evaluate (alertReason : reason) :=
          let decision := match ic_policy ic with
                          | Some p => Policy_Evaluate p (te_ServerID entry) name (te_ToolHash entry)
                          | None => mkPolicyDecision true NoReason None
                          end in
          let k := if negb (pd_Allowed decision) then mark_blocked ic entry name id k else k in
          let decision := if pd_Allowed decision && (alertReason !=? NoReason)
                          then mkPolicyDecision (pd_Allowed decision) alertReason (pd_Rule decision) else decision in
          (Some (entry, decision, None), k) in
        match pin_changed ic entry name with
        | Some (h, onChange) =>
          if onChange ==? "block"
          then (Some (entry, mkPolicyDecision false (HashChanged name h (te_ToolHash entry)) None, None), mark_blocked ic entry name id k)
          else if onChange ==? "alert" then evaluate (HashChangedAlert name h (te_ToolHash entry))
          else evaluate NoReason
        | None => evaluate NoReason
        end
    end
  end.

Definition fireEvent (name id action : string) (r : reason) (entry : ToolEntry) (cross : option CrossServerDecision) (dialect : Dialect)
  (s : SSEInterceptor) : SSEInterceptor :=
  let k := ss_checks s in
  let ev := mkIntercepted (clock (ck_time k)) (ic_session ic) (ic_request ic) dialect name id None entry action r
              (crossServerRule cross) (crossServerSeverity cross) (crossServerRelated cross) in
  mkSSE (mkChecks (ck_analyzer k) (ck_limiter k) (S (ck_time k))) (ss_blockedIndices s) (ss_totalToolUse s) (ss_blockedToolUse s)
    (ss_openAIChoices s) (ss_events s ++ [ev]) (ss_buf s) (ss_client s) (ss_clientErr s).

Definition writeLine (line : list Z) (s : SSEInterceptor) : SSEInterceptor :=
  let ok := negb (ss_clientErr s) && accepts (length (ss_client s)) in
  mkSSE (ss_checks s) (ss_blockedIndices s) (ss_totalToolUse s) (ss_blockedToolUse s) (ss_openAIChoices s) (ss_events s) (ss_buf s ++ [line])
    (if ok then ss_client s ++ [line] else ss_client s) (negb ok).

(** *** Anthropic *)

Definition data_line (json : list Z) : list Z := string_bytes "data: " ++ json.

Definition emitAnthropicTextBlock (index : Z) (toolName : string) : list (list Z) :=
  let event (t : string) (rest : list (list Z * rjson)) :=
    [string_bytes ("event: " +:+ t); data_line (print (RObject ((quote "type", str t) :: (quote "index", int_json index) :: rest))); []] in
  event "content_block_start" [(quote "content_block", RObject [(quote "type", str "text"); (quote "text", str "")])] ++
  event "content_block_delta" [(quote "delta", RObject [(quote "type", str "text_delta"); (quote "text", str (blocked_text toolName))])] ++
  event "content_block_stop" [].

(** [None] when the delta is null: the assignment to its nil map panics. *)
Definition rewriteAnthropicStopReason (data : list Z) : option (list Z) :=
  match as_map (scan data) with
  | None => Some data
  | Some obj =>
    match as_map (mget "delta" obj), obj with
    | None, _ | _, None => Some data
    | Some None, _ => None
    | Some (Some delta), Some obj =>
      Some (print (of_map (Some (rput "delta" (of_map (Some (rput "stop_reason" (str "end_turn") delta))) obj))))
    end
  end.

Definition handleMessageDelta (line data : list Z) (s : SSEInterceptor) : outcome :=
  if (0 <? ss_totalToolUse s) && (ss_blockedToolUse s =? ss_totalToolUse s) then
    match rewriteAnthropicStopReason data with Some d => Emit [data_line d] | None => Panic end
  else Emit [line].

Definition block_start : gotype :=
  TStruct [("type", TString); ("index", TInt); ("content_block", TStruct [("type", TString); ("id", TString); ("name", TString)])].

Definition handleContentBlockStart (line data : list Z) (index : Z) (s : SSEInterceptor) : outcome * SSEInterceptor :=
  match unmarshal block_start data with
  | None => (Emit [line], s)
  | Some block =>
    let b := field "content_block" block in
    if negb (is_tool_use b) then (Emit [line], s)
    else
      let name := vstr (field "name" b) in
      let id := vstr (field "id" b) in
      let '(found, k) := lookupAndEvaluate name id (ss_checks s) in
      let counted (indices : gset Z) (blocked : Z) :=
        mkSSE k indices (ss_totalToolUse s + 1) blocked (ss_openAIChoices s) (ss_events s) (ss_buf s) (ss_client s) (ss_clientErr s) in
      match found with
      | None => (Emit [line], counted (ss_blockedIndices s) (ss_blockedToolUse s))
      | Some (entry, decision, cross) =>
        if pd_Allowed decision
        then (Emit [line], fireEvent name id "allow" (pd_Reason decision) entry None DialectAnthropic (counted (ss_blockedIndices s) (ss_blockedToolUse s)))
        else (Emit (emitAnthropicTextBlock index name),
              fireEvent name id "block" (pd_Reason decision) entry cross DialectAnthropic
                (counted ({[index]} ∪ ss_blockedIndices s) (ss_blockedToolUse s + 1)))
      end
  end.

Definition event_head : gotype := TStruct [("type", TString); ("index", TInt)].

Definition processAnthropicEvent (line data : list Z) (s : SSEInterceptor) : outcome * SSEInterceptor :=
  match unmarshal event_head data with
  | None => (Emit [line], s)
  | Some evt =>
    let type := vstr (field "type" evt) in
    let index := vint (field "index" evt) in
    if type ==? "content_block_start" then handleContentBlockStart line data index s
    else if (type ==? "content_block_delta") || (type ==? "content_block_stop") then
      (if bool_decide (index ∈ ss_blockedIndices s) then Suppress else Emit [line], s)
    else if type ==? "message_delta" then (handleMessageDelta line data s, s)
    else (Emit [line], s)
  end.

(** *** OpenAI *)

Definition is_empty {A} (l : list A) : bool := match l with [] => true | _ => false end.

(** The loop of [handleOpenAIFirstToolChunk]: the calls kept and the messages for the others. *)
Fixpoint first_calls (toolCalls : list openAIChunkToolCall) (st : openAIChoiceTracking) (s : SSEInterceptor)
  : list openAIChunkToolCall * list string * openAIChoiceTracking * SSEInterceptor :=
  match toolCalls with
  | [] => ([], [], st, s)
  | tc :: rest =>
    let st := mkTracking (ot_blocked st) (ot_total st + 1) (ot_nblocked st) in
    let '(found, k) := lookupAndEvaluate (kc_Name tc) (kc_ID tc) (ss_checks s) in
    let s := with_checks k s in
    match found with
    | None => let '(allowed, msgs, st, s) := first_calls rest st s in (tc :: allowed, msgs, st, s)
    | Some (entry, decision, cross) =>
      if pd_Allowed decision then
        let '(allowed, msgs, st, s) :=
          first_calls rest st (fireEvent (kc_Name tc) (kc_ID tc) "allow" (pd_Reason decision) entry None DialectOpenAI s) in
        (tc :: allowed, msgs, st, s)
      else
        let st := mkTracking ({[kc_Index tc]} ∪ ot_blocked st) (ot_total st) (ot_nblocked st + 1) in
        let '(allowed, msgs, st, s) :=
          first_calls rest st (fireEvent (kc_Name tc) (kc_ID tc) "block" (pd_Reason decision) entry cross DialectOpenAI s) in
        (allowed, blocked_text (kc_Name tc) :: msgs, st, s)
    end
  end.

Definition set_calls (calls : list openAIChunkToolCall) (c : openAIChunkChoice) : openAIChunkChoice :=
  mkChoice (kh_Index c) (mkDelta (kd_Role (kh_Delta c)) (kd_Content (kh_Delta c)) calls) (kh_FinishReason c).

(** The choice after it, and whether it was modified. *)
Definition handleOpenAIFirstToolChunk (c : openAIChunkChoice) (s : SSEInterceptor) : openAIChunkChoice * bool * SSEInterceptor :=
  let '(st, s) := getChoiceTracking (kh_Index c) s in
  let '(allowed, msgs, st, s) := first_calls (kd_ToolCalls (kh_Delta c)) st s in
  let s := with_choices (<[kh_Index c := st]> (ss_openAIChoices s)) s in
  if is_empty msgs then (c, false, s)
  else if is_empty allowed then
    (mkChoice (kh_Index c) (mkDelta (kd_Role (kh_Delta c)) (Some (str (joined msgs))) []) (kh_FinishReason c), true, s)
  else (set_calls allowed c, true, s).

Definition handleOpenAIArgChunk (c : openAIChunkChoice) (s : SSEInterceptor) : openAIChunkChoice * bool :=
  match ss_openAIChoices s !! kh_Index c with
  | None => (c, false)
  | Some st =>
    if bool_decide (ot_blocked st = ∅) then (c, false)
    else
      let calls := kd_ToolCalls (kh_Delta c) in
      let kept := List.filter (fun tc => negb (bool_decide (kc_Index tc ∈ ot_blocked st))) calls in
      if Nat.eqb (length kept) (length calls) then (c, false) else (set_calls kept c, true)
  end.

Definition rewriteOpenAIFinish (c : openAIChunkChoice) (s : SSEInterceptor) : openAIChunkChoice * bool :=
  match ss_openAIChoices s !! kh_Index c with
  | None => (c, false)
  | Some st =>
    if (0 <? ot_total st) && (ot_nblocked st =? ot_total st) && (kh_FinishReason c ==? Some "tool_calls")
    then (mkChoice (kh_Index c) (kh_Delta c) (Some "stop"), true) else (c, false)
  end.

(** One turn of the loop over the choices. *)
Definition process_choice (c : openAIChunkChoice) (s : SSEInterceptor) : openAIChunkChoice * bool * SSEInterceptor :=
  match kh_FinishReason c with
  | Some _ => (rewriteOpenAIFinish c s, s)
  | None =>
    if is_empty (kd_ToolCalls (kh_Delta c)) then (c, false, s)
    else if existsb (fun tc => kc_ID tc !=? "") (kd_ToolCalls (kh_Delta c)) then handleOpenAIFirstToolChunk c s
    else (handleOpenAIArgChunk c s, s)
  end.

Fixpoint process_choices (l : list openAIChunkChoice) (s : SSEInterceptor) : list openAIChunkChoice * bool * SSEInterceptor :=
  match l with
  | [] => ([], false, s)
  | c :: l' =>
    let '(c, m, s) := process_choice c s in
    let '(cs, m', s) := process_choices l' s in
    (c :: cs, m || m', s)
  end.

Definition choice_empty (c : openAIChunkChoice) : bool :=
  is_empty (kd_ToolCalls (kh_Delta c)) && bool_decide (kd_Content (kh_Delta c) = None) && (kd_Role (kh_Delta c) ==? "") &&
  bool_decide (kh_FinishReason c = None).

Definition processOpenAIEvent (line : list Z) (s : SSEInterceptor) : outcome * SSEInterceptor :=
  match extractSSEData line with
  | None => (Emit [line], s)
  | Some data =>
    if data ==? string_bytes "[DONE]" then (Emit [line], s)
    else match unmarshal chunk_type data with
    | None => (Emit [line], s)
    | Some v =>
      let chunk := chunk_of v in
      if is_empty (ku_Choices chunk) then (Emit [line], s)
      else
        let '(choices, modified, s) := process_choices (ku_Choices chunk) s in
        (if negb modified then Emit [line]
         else if forallb choice_empty choices then Suppress
         else Emit [data_line (print (chunk_json (mkChunk (ku_ID chunk) (ku_Object chunk) choices)))], s)
    end
  end.

(** *** The loop over the lines *)

(** The event line that waits for its data, and whether the next empty line is dropped. *)
Record pending : Type := mkPending { pe_event : option (list Z); pe_suppress : bool }.

Definition write_all (lines : list (list Z)) (s : SSEInterceptor) : SSEInterceptor := fold_left (fun s l => writeLine l s) lines s.

Definition flush (p : option (list Z)) (s : SSEInterceptor) : SSEInterceptor := match p with Some l => writeLine l s | None => s end.

(** One line; [None] is a panic. *)
Definition stream_line (dialect : Dialect) (line : list Z) (p : pending) (s : SSEInterceptor) : option (pending * SSEInterceptor) :=
  match dialect with
  | DialectAnthropic =>
    if pe_suppress p && is_empty line then Some (mkPending (pe_event p) false, s)
    else match extractSSEData line with
    | Some data =>
      let '(o, s) := processAnthropicEvent line data s in
      match o with
      | Panic => None
      | Suppress => Some (mkPending None true, s)
      | Emit lines =>
        let s := if existsb (starts_with (string_bytes "event:")) lines then s else flush (pe_event p) s in
        Some (mkPending None false, write_all lines s)
      end
    | None =>
      if starts_with (string_bytes "event:") line then Some (mkPending (Some line) false, s)
      else Some (mkPending None false, writeLine line (flush (pe_event p) s))
    end
  | DialectOpenAI =>
    let '(o, s) := processOpenAIEvent line s in
    match o with
    | Panic => None
    | Suppress => Some (p, s)
    | Emit lines => Some (p, write_all lines s)
    end
  | DialectUnknown => Some (p, writeLine line s)
  end.

(** The loop, and the event line left at its end; the flag is set by a panic, after which nothing is
    written. *)
Fixpoint stream_lines (dialect : Dialect) (lines : list (list Z)) (p : pending) (s : SSEInterceptor) : bool * SSEInterceptor :=
  match lines with
  | line :: rest =>
    if ss_clientErr s then (false, s)
    else match stream_line dialect line p s with
    | None => (true, s)
    | Some (p, s) => stream_lines dialect rest p s
    end
  | [] => (false, if ss_clientErr s then s else flush (pe_event p) s)
  end.

Definition Stream (dialect : Dialect) (upstream : list Z) (k : checks) : bool * SSEInterceptor :=
  stream_lines dialect (scan_lines upstream).1 (mkPending None false) (NewSSEInterceptor k).

(** What reaches the client. *)
Definition client_bytes (s : SSEInterceptor) : list Z := ss_client s ≫= fun line => line ++ [10].

End Interceptor.
End McpStream.
Export McpStream.
