(* ===== verification/McpStreamTheorems.v ===== *)
(** * Intercepted streams

    What reaches the client of [SSEInterceptor.Stream], in either dialect, on lines as the upstream
    services send them: exactly the calls of the stream that were not blocked, in their order.  And
    streams and whole responses decide a call alike. *)

From Stdlib Require Import ZArith Lia Ascii String.
From stdpp Require Import base list strings gmap sets.
From S2P Require Import Prelude GoText GoNet GoStrings GoJson GoJsonRaw GoJsonTypes PolicyModel PolicyEngine NetGuards NetAcl Mcp McpProxy.
Open Scope string_scope.
Open Scope list_scope.
Open Scope Z_scope.

#[local] Opaque scan.

Module StreamText.

Lemma ValidString_app s t : ValidString s = true -> ValidString t = true -> ValidString (s +:+ t) = true.
Proof.
  intros (rs & Hr & Es & _)%ValidString_runes (rs' & Hr' & Et & _)%ValidString_runes.
  unfold ValidString. rewrite string_bytes_app, Es, Et, <- concat_app, <- fmap_app, decode_encode_runes; [done|]. by apply Forall_app.
Qed.

Lemma blocked_text_valid name : ValidString name = true -> ValidString (blocked_text name) = true.
Proof. intros H. unfold blocked_text. repeat apply ValidString_app; [reflexivity|done|reflexivity]. Qed.

Lemma str_wf s : ValidString s = true -> rwf (str s).
Proof. apply quote_spec. Qed.

Lemma unquote_quote s : ValidString s = true -> unquote (quote s) = s.
Proof. apply quote_spec. Qed.

Lemma object_wf m : Forall (fun p => raw_text p.1 /\ rwf p.2) m -> rwf (RObject m).
Proof. intros H. cbn [rwf]. by apply fold_and_Forall. Qed.

Lemma array_wf l : Forall rwf l -> rwf (RArray l).
Proof. intros H. cbn [rwf]. by apply fold_and_Forall. Qed.

Lemma member_wf k c : ValidString k = true -> rwf c -> raw_text (quote k, c).1 /\ rwf (quote k, c).2.
Proof. intros Hk Hc. split; [by apply quote_spec|done]. Qed.

Lemma int_wf z : rwf (int_json z).
Proof. apply FormatInt_valid. Qed.

Lemma scan_print_cases c : rwf c -> scan (print c) = None \/ scan (print c) = Some c.
Proof. intros Hc. destruct (scan (print c)) as [c'|] eqn:E; [right|by left]. f_equal. by apply (scan_print_inv c). Qed.

Lemma extract_data_line j : extractSSEData (data_line j) = Some j.
Proof. reflexivity. Qed.

(** What the proxy prints is read as the document it was printed from, if at all. *)
Lemma unmarshal_printed t c : rwf c -> unmarshal t (print c) = None \/ unmarshal t (print c) = decode c t (zero t).
Proof. intros Hc. unfold unmarshal. destruct (scan_print_cases c Hc) as [E|E]; rewrite E; [by left|by right]. Qed.

Lemma event_not_data l : starts_with (string_bytes "event:") l = true -> extractSSEData l = None.
Proof.
  destruct l as [|b l]; [done|]. intros H. apply andb_prop in H as [H _]. apply Z.eqb_eq in H. by subst b.
Qed.

(** Documents built of quoted keys and valid texts are well formed. *)
Ltac doc_wf :=
  repeat first
    [ apply object_wf | apply array_wf | apply int_wf | apply Forall_nil_2
    | apply Forall_cons_2; [apply member_wf; [reflexivity|]|]
    | apply str_wf; first [reflexivity|assumption] ].

(** *** Maps of messages *)

Definition map_wf (m : rmap) : Prop := Forall (fun p => ValidString p.1 = true /\ rwf p.2) m.

Lemma escaped_wf c : rwf c -> rwf (escaped c).
Proof. intros H. by apply (escaped_fits (rdepth c)). Qed.

Lemma of_map_wf m : map_wf m -> rwf (of_map (Some m)).
Proof.
  intros H. apply object_wf, Forall_map. eapply Forall_impl; [exact H|]. intros [k c] [Hk Hc]. apply member_wf; [done|by apply escaped_wf].
Qed.

Lemma of_list_wf l : Forall rwf l -> rwf (of_list l).
Proof. intros H. destruct l as [|x l]; [done|]. apply array_wf, Forall_map. eapply Forall_impl; [exact H|]. intros. by apply escaped_wf. Qed.

Lemma rput_elem k v m p : p ∈ rput k v m -> p = (k, v) \/ p ∈ m.
Proof.
  induction m as [|[k' v'] m IH]; cbn; [set_solver|]. destruct (String.compare k k'); set_solver.
Qed.

Lemma rput_wf k v m : ValidString k = true -> rwf v -> map_wf m -> map_wf (rput k v m).
Proof.
  unfold map_wf. rewrite !Forall_forall. intros Hk Hv Hm p [->|Hp]%rput_elem; [done|by apply Hm].
Qed.

Lemma as_map_elem c mp p : as_map (Some c) = Some (Some mp) -> p ∈ mp ->
  exists m q, c = RObject m /\ q ∈ m /\ unquote q.1 = p.1 /\ q.2 = p.2.
Proof.
  destruct c as [| | | | |m]; try done. intros [= <-] Hp. exists m. cut (p ∈ ([] : rmap) \/ exists q, q ∈ m /\ unquote q.1 = p.1 /\ q.2 = p.2).
  { intros [?%not_elem_of_nil|(q & ?)]; [done|]. by exists q. }
  revert Hp. generalize ([] : rmap). induction m as [|q m IH]; intros acc Hp; [by left|]. cbn in Hp. apply IH in Hp as [Hp|(q' & Hq & ?)].
  - apply rput_elem in Hp as [->|Hp]; [right; exists q; set_solver|by left].
  - right. exists q'. set_solver.
Qed.

Lemma as_map_wf c mp : rwf c -> as_map (Some c) = Some (Some mp) -> map_wf mp.
Proof.
  intros Hc H. apply Forall_forall. intros p Hp. destruct (as_map_elem _ _ _ H Hp) as (m & q & -> & Hq & <- & <-).
  split; [apply unquote_valid|]. cbn [rwf] in Hc. apply fold_and_Forall in Hc. rewrite Forall_forall in Hc. by apply Hc.
Qed.

(** A text in a field is that of a member with its name. *)
Lemma decode_text_member fs m vs vs' n a b : distinct fs = true -> (n, TString) ∈ fs -> n ∈ vs.*1 ->
  decode_members decode fs m vs = Some vs' -> get_field n vs = Some (VString a) -> get_field n vs' = Some (VString b) -> b <> a ->
  exists p raw, p ∈ m /\ fold_name (unquote p.1) = fold_name n /\ p.2 = RString raw /\ unquote raw = b.
Proof.
  intros Hd Hn. revert vs a. induction m as [|[k c] m IH]; intros vs a Hv; cbn [decode_members]; [intros [= <-] -> [= ->]; done|].
  destruct (find_field fs (unquote (k, c).1)) as [[n' t']|] eqn:Ef.
  2:{ intros H Ha Hb Hne. destruct (IH _ _ Hv H Ha Hb Hne) as (p & raw & Hp & ?). exists p, raw. by split; [constructor|]. }
  intros (x & Hx & H)%bind_Some Ha Hb Hne. apply find_field_spec in Ef as [Hin Hk]; [|done]. cbn [fst snd] in *.
  destruct (decide (n' = n)) as [->|Hnn].
  - assert (Ht : t' = TString).
    { apply distinct_names in Hd. apply (table_get_in _ _ _ Hd) in Hn, Hin. congruence. }
    subst t'. rewrite Ha in Hx. cbn [default from_option] in Hx. unfold id in Hx.
    assert (Hcase : exists a', x = VString a' /\ (a' = a \/ exists raw, c = RString raw /\ unquote raw = a')).
    { destruct c; cbn in Hx; simplify_eq; eauto 10. }
    destruct Hcase as (a' & -> & Hor). destruct (decide (b = a')) as [->|Hb'].
    + destruct Hor as [->|(raw & -> & Hr)]; [done|]. exists (k, RString raw), raw. by split_and!; [constructor|..].
    + destruct (IH (set_field n (VString a') vs) a') as (p & raw & Hp & ?); [by rewrite set_field_names|done|by apply get_field_set_same|done..|].
      exists p, raw. by split; [constructor|].
  - destruct (IH (set_field n' x vs) a) as (p & raw & Hp & ?); [by rewrite set_field_names|done|by rewrite get_field_set_other|done..|].
    exists p, raw. by split; [constructor|].
Qed.

End StreamText.
Export StreamText.

(** ** Calls in a stream *)
Module StreamCalls.
Section Stream.
Context {U : UnicodeCase} {CO : CaseOrbits} {B : TokenBucket}.
Variable clock : nat -> Z.
Variable ic : Interceptor.
Variable accepts : nat -> bool.

(** Each call decided in its turn: those that are kept, and the checks after it; an event reads the
    clock. *)
Fixpoint judged (calls : list ToolCall) (k : checks) : list ToolCall * checks :=
  match calls with
  | [] => ([], k)
  | c :: rest =>
    let '(found, k) := lookupAndEvaluate clock ic (tl_Name c) (tl_ID c) k in
    match found with
    | None => let '(l, k) := judged rest k in (c :: l, k)
    | Some (_, decision, _) =>
      let '(l, k) := judged rest (mkChecks (ck_analyzer k) (ck_limiter k) (S (ck_time k))) in
      (if pd_Allowed decision then c :: l else l, k)
    end
  end.

(** A line the upstream API sends: its object has one type, and the start of a tool call an index. *)
Definition is_type (p : list Z * rjson) : bool := fold_name (unquote p.1) ==? fold_name "type".
Definition anthropic_plain (line : list Z) : bool :=
  match extractSSEData line with
  | None => true
  | Some data =>
    match scan data with Some (RObject m) => Nat.leb (length (List.filter is_type m)) 1 | _ => true end &&
    match anthropic_line_call line with Some _ => bool_decide (is_Some (unmarshal block_start data)) | None => true end
  end.

(** *** Writing *)

Definition same_but_written (s s' : SSEInterceptor) : Prop :=
  ss_checks s' = ss_checks s /\ ss_blockedIndices s' = ss_blockedIndices s /\ ss_totalToolUse s' = ss_totalToolUse s /\
  ss_blockedToolUse s' = ss_blockedToolUse s /\ ss_openAIChoices s' = ss_openAIChoices s /\ ss_events s' = ss_events s.

(** The client takes a prefix of what is written, all of it unless a write fails. *)
Definition wrote (lines : list (list Z)) (s s' : SSEInterceptor) : Prop :=
  same_but_written s s' /\ exists n, ss_client s' = ss_client s ++ take n lines /\ (ss_clientErr s' = false -> (length lines <= n)%nat).

Lemma write_line_failed l s : ss_clientErr s = true ->
  ss_client (writeLine accepts l s) = ss_client s /\ ss_clientErr (writeLine accepts l s) = true.
Proof. intros H. unfold writeLine. by rewrite H. Qed.

Lemma write_all_failed lines s : ss_clientErr s = true ->
  ss_client (write_all accepts lines s) = ss_client s /\ ss_clientErr (write_all accepts lines s) = true.
Proof.
  revert s. induction lines as [|l lines IH]; intros s H; [done|]. cbn [write_all fold_left].
  destruct (write_line_failed l s H) as [E1 E2]. rewrite <- E1. by apply IH.
Qed.

Lemma write_all_same lines s : same_but_written s (write_all accepts lines s).
Proof.
  revert s. induction lines as [|l lines IH]; intros s; [done|]. cbn [write_all fold_left].
  destruct (IH (writeLine accepts l s)) as (? & ? & ? & ? & ? & ?). by repeat split.
Qed.

Lemma write_all_wrote lines s : wrote lines s (write_all accepts lines s).
Proof.
  split; [apply write_all_same|]. revert s. induction lines as [|l lines IH]; intros s.
  { exists 0%nat. cbn. by rewrite app_nil_r. }
  cbn [write_all fold_left]. destruct (ss_clientErr (writeLine accepts l s)) eqn:E.
  - exists 0%nat. destruct (write_all_failed lines _ E) as [E1 E2]. cbn [take]. rewrite app_nil_r.
    unfold write_all in E1, E2. rewrite E1, E2. split; [|done]. unfold writeLine in *. cbn in *. by destruct (_ && _).
  - destruct (IH (writeLine accepts l s)) as (n & E1 & E2). exists (S n). cbn [take length]. unfold write_all in *. rewrite E1.
    split; [|intros H; apply E2 in H; lia]. unfold writeLine in *. cbn in *. destruct (_ && _); [|done]. cbn. by rewrite <- app_assoc.
Qed.

(** *** What a line says *)

Definition data_call (data : list Z) : option ToolCall :=
  evt ← unmarshal sse_block data;
  let b := field "content_block" evt in
  if (vstr (field "type" evt) ==? "content_block_start") && is_tool_use b
  then Some (mkToolCall (vstr (field "id" b)) (vstr (field "name" b)) None) else None.

Lemma line_data_call line data : extractSSEData line = Some data -> anthropic_line_call line = data_call data.
Proof. unfold anthropic_line_call. by intros ->. Qed.

Definition start_value (t : string) (i : Z) (bt id name : string) : goval :=
  VStruct [("type", VString t); ("index", VInt i); ("content_block", VStruct [("type", VString bt); ("id", VString id); ("name", VString name)])].

Lemma start_shape v : typed block_start v -> exists t i bt id name, v = start_value t i bt id name /\ ValidString name = true.
Proof.
  unfold block_start. intros H. open_typed. unfold start_value. do 5 eexists. split; [reflexivity|assumption].
Qed.

(** The three types the line is decoded into agree. *)
Lemma start_views data v : unmarshal block_start data = Some v -> exists t i bt id name,
  v = start_value t i bt id name /\ ValidString name = true /\
  unmarshal event_head data = Some (VStruct [("type", VString t); ("index", VInt i)]) /\
  data_call data = if (t ==? "content_block_start") && (bt ==? "tool_use") then Some (mkToolCall id name None) else None.
Proof.
  intros Hv. assert (Hr : regular block_start = true) by (vm_compute; reflexivity).
  destruct (unmarshal_narrow event_head block_start data v) as [He Ht]; [vm_compute; reflexivity|done|done|].
  destruct (unmarshal_narrow sse_block block_start data v) as [Hb _]; [vm_compute; reflexivity|done|done|].
  apply start_shape in Ht as (t & i & bt & id & name & -> & Hn). exists t, i, bt, id, name. split; [done|]. split; [done|].
  split; [exact He|]. unfold data_call. rewrite Hb. reflexivity.
Qed.

Lemma plain_start line data : extractSSEData line = Some data -> anthropic_plain line = true -> data_call data <> None ->
  exists v, unmarshal block_start data = Some v.
Proof.
  intros E. unfold anthropic_plain. rewrite E, (line_data_call _ _ E). intros [_ H]%andb_prop Hc. destruct (data_call data); [|done].
  apply bool_decide_eq_true in H as [v ?]. eauto.
Qed.

(** Only a line whose head says so starts a call. *)
Lemma no_call line data : extractSSEData line = Some data -> anthropic_plain line = true ->
  match unmarshal event_head data with Some evt => vstr (field "type" evt) <> "content_block_start" | None => True end -> data_call data = None.
Proof.
  intros E Hp Ht. destruct (data_call data) as [c|] eqn:Ec; [exfalso|done].
  destruct (plain_start line data E Hp) as [v Hv]; [by rewrite Ec|].
  destruct (start_views data v Hv) as (t & i & bt & id & name & -> & _ & He & Hc). rewrite He in Ht. cbn in Ht.
  rewrite Ec in Hc. by rewrite bool_decide_eq_false_2 in Hc.
Qed.

(** *** Lines the proxy writes itself *)

Lemma printed_call c : rwf c -> anthropic_line_call (data_line (print c)) <> None ->
  exists evt, decode c sse_block (zero sse_block) = Some evt /\ vstr (field "type" evt) = "content_block_start" /\
    is_tool_use (field "content_block" evt) = true.
Proof.
  intros Hc. rewrite (line_data_call _ _ (extract_data_line _)). unfold data_call.
  destruct (unmarshal_printed sse_block c Hc) as [E|E]; rewrite E; [done|].
  destruct (decode c sse_block (zero sse_block)) as [evt|]; [|done]. cbn [mbind option_bind].
  destruct (vstr (field "type" evt) ==? "content_block_start") eqn:E1, (is_tool_use (field "content_block" evt)) eqn:E2; try done.
  apply bool_decide_eq_true in E1. eauto.
Qed.

Lemma text_block_calls index name : ValidString name = true ->
  emitAnthropicTextBlock index name ≫= (fun line => option_list (anthropic_line_call line)) = [].
Proof.
  intros Hn. apply blocked_text_valid in Hn.
  assert (Hs : forall c, rwf c -> (decode c sse_block (zero sse_block) = None \/ exists evt, decode c sse_block (zero sse_block) = Some evt /\
     ((vstr (field "type" evt) ==? "content_block_start") && is_tool_use (field "content_block" evt)) = false) ->
     anthropic_line_call (data_line (print c)) = None).
  { intros c Hc Hd. destruct (anthropic_line_call (data_line (print c))) eqn:E; [exfalso|done].
    destruct (printed_call c Hc) as (evt & E1 & E2 & E3); [by rewrite E|]. destruct Hd as [Hd|(evt' & Hd & Hf)]; rewrite E1 in Hd; [done|].
    injection Hd as <-. by rewrite E2, E3 in Hf. }
  assert (He : forall t, anthropic_line_call (string_bytes ("event: " +:+ t)) = None) by reflexivity.
  unfold emitAnthropicTextBlock. cbn [app mbind list_bind]. rewrite !He, !Hs; [done|..]; doc_wf; right; eexists; (split; [lazy; reflexivity|reflexivity]).
Qed.

(** A text in the type of an event that is not empty is that of a member. *)
Lemma type_member fs m vs b : distinct fs = true -> ("type", TString) ∈ fs ->
  decode_members decode fs m (map (fun f => (f.1, zero f.2)) fs) = Some vs -> vstr (field "type" (VStruct vs)) = b -> b <> "" ->
  exists p raw, p ∈ m /\ is_type p = true /\ p.2 = RString raw /\ unquote raw = b.
Proof.
  intros Hd Hin Hm Hb Hne.
  assert (Hz : get_field "type" (map (fun f => (f.1, zero f.2)) fs) = Some (VString "")).
  { apply table_get_in; [rewrite map_map; by apply distinct_names|]. apply list_elem_of_In, in_map_iff.
    exists ("type", TString). split; [done|]. by apply list_elem_of_In. }
  assert (Hv : get_field "type" vs = Some (VString b)).
  { unfold field in Hb. cbn [vfields] in Hb. destruct (get_field "type" vs) as [[s| | | | |]|]; cbn in Hb; congruence. }
  destruct (decode_text_member fs m (map (fun f => (f.1, zero f.2)) fs) vs "type" "" b Hd Hin) as (p & raw & Hp & Hk & ? & ?); [..|done|done|done|done|].
  - rewrite map_map. apply (list_elem_of_fmap_2 fst) in Hin. exact Hin.
  - exists p, raw. split; [done|]. unfold is_type. by rewrite bool_decide_eq_true_2.
Qed.

Lemma one_type m p q : (length (List.filter is_type m) <= 1)%nat -> p ∈ m -> q ∈ m -> is_type p = true -> is_type q = true -> p = q.
Proof.
  intros Hl Hp Hq Tp Tq. apply list_elem_of_In in Hp, Hq.
  assert (Hp' : In p (List.filter is_type m)) by (by apply filter_In). assert (Hq' : In q (List.filter is_type m)) by (by apply filter_In).
  destruct (List.filter is_type m) as [|x [|y l]]; cbn in *; [done| |lia]. by destruct Hp' as [<-|[]], Hq' as [<-|[]].
Qed.

Lemma head_type data m evt : scan data = Some (RObject m) -> unmarshal event_head data = Some evt -> vstr (field "type" evt) <> "" ->
  exists p raw, p ∈ m /\ is_type p = true /\ p.2 = RString raw /\ unquote raw = vstr (field "type" evt).
Proof.
  intros Es. unfold unmarshal. rewrite Es. cbn [mbind option_bind]. unfold event_head. cbn [decode]. intros (vs & Hm & ->)%fmap_Some Hne.
  cbn [vfields zero] in Hm. by eapply type_member; [..|exact Hm|done|done]; [vm_compute; reflexivity|repeat constructor].
Qed.

Lemma printed_type mp evt : decode (of_map (Some mp)) sse_block (zero sse_block) = Some evt -> vstr (field "type" evt) <> "" -> map_wf mp ->
  exists k c raw, (k, c) ∈ mp /\ fold_name k = fold_name "type" /\ c = RString raw /\ unquote raw = vstr (field "type" evt).
Proof.
  unfold sse_block at 1. cbn [of_map decode]. intros (vs & Hm & ->)%fmap_Some Hne Hw. cbn [vfields] in Hm.
  eapply type_member in Hm as (p & raw & Hp & Ht & Hr & Hu); [| | |reflexivity|exact Hne]; [|vm_compute; reflexivity|repeat constructor].
  apply list_elem_of_In, in_map_iff in Hp as ([k c] & <- & Hin%list_elem_of_In). cbn [fst snd] in *.
  unfold map_wf in Hw. rewrite Forall_forall in Hw. destruct (Hw _ Hin) as [Hk Hc]. cbn [fst snd] in *.
  unfold is_type in Ht. cbn [fst] in Ht. rewrite unquote_quote in Ht by done. apply bool_decide_eq_true in Ht.
  destruct c; cbn in Hr; simplify_eq. cbn in Hc. rewrite unquote_esc in Hu by done. eauto 10.
Qed.

Lemma rewritten_type data c obj delta evt : scan data = Some c -> as_map (Some c) = Some (Some obj) ->
  match c with RObject m => (length (List.filter is_type m) <= 1)%nat | _ => True end ->
  as_map (mget "delta" (Some obj)) = Some (Some delta) -> unmarshal event_head data = Some evt -> vstr (field "type" evt) = "message_delta" ->
  data_call (print (of_map (Some (rput "delta" (of_map (Some (rput "stop_reason" (str "end_turn") delta))) obj)))) = None.
Proof.
  intros Es Em H1 Ed He Ht. destruct (scan_fits _ _ Es) as [Hc _]. pose proof (as_map_wf _ _ Hc Em) as Hw.
  assert (Hd : map_wf delta).
  { destruct (mget "delta" (Some obj)) as [dc|] eqn:Eg; [|done]. eapply as_map_wf; [|exact Ed]. cbn in Eg. apply table_get_elem in Eg.
    unfold map_wf in Hw. rewrite Forall_forall in Hw. by apply (Hw _ Eg). }
  assert (Hw' : map_wf (rput "delta" (of_map (Some (rput "stop_reason" (str "end_turn") delta))) obj)).
  { apply rput_wf; [reflexivity| |done]. apply of_map_wf, rput_wf; [reflexivity|by apply str_wf|done]. }
  set (mp := rput "delta" _ obj) in *. pose proof (printed_call _ (of_map_wf _ Hw')) as Hpc. rewrite (line_data_call _ _ (extract_data_line _)) in Hpc.
  destruct (data_call (print (of_map (Some mp)))) eqn:E; [exfalso|done]. destruct Hpc as (evt' & Hdec & Ht' & _); [done|].
  destruct (printed_type mp evt' Hdec) as (k & c' & raw & Hin & Hk & -> & Hraw); [by rewrite Ht'|done|].
  apply rput_elem in Hin as [?|Hin]; [simplify_eq|].
  destruct (as_map_elem _ _ _ Em Hin) as (m & q & -> & Hq & Hqk & Hq2). cbn [fst snd] in *.
  destruct (head_type data m evt Es He) as (p & raw' & Hp & Hpt & Hp2 & Hraw'); [by rewrite Ht|].
  assert (p = q) as -> by (apply (one_type m); [done..|unfold is_type; by rewrite Hqk, bool_decide_eq_true_2]).
  rewrite Hp2 in Hq2. injection Hq2 as ->. rewrite Hraw', Ht, Ht' in Hraw. done.
Qed.

Lemma stop_reason_call line data d evt : extractSSEData line = Some data -> anthropic_plain line = true ->
  unmarshal event_head data = Some evt -> vstr (field "type" evt) = "message_delta" ->
  rewriteAnthropicStopReason data = Some d -> anthropic_line_call (data_line d) = None.
Proof.
  intros E Hp He Ht. rewrite (line_data_call _ _ (extract_data_line _)).
  assert (Hno : data_call data = None) by (apply (no_call line data E Hp); rewrite He, Ht; done).
  unfold rewriteAnthropicStopReason. destruct (scan data) as [c|] eqn:Es; [|by intros [= <-]].
  destruct (as_map (Some c)) as [[obj|]|] eqn:Em; [|by intros [= <-]|by intros [= <-]].
  destruct (as_map (mget "delta" (Some obj))) as [[delta|]|] eqn:Ed; [|done|by intros [= <-]]. intros [= <-].
  apply (rewritten_type data c obj delta evt); [done..| |done|done|done].
  unfold anthropic_plain in Hp. rewrite E, Es in Hp. apply andb_prop in Hp as [Hp _]. destruct c; try done. by apply Nat.leb_le.
Qed.

(** *** What becomes of a line *)

Definition line_calls (dialect : Dialect) (line : list Z) : list ToolCall :=
  match dialect with
  | DialectAnthropic => option_list (anthropic_line_call line)
  | DialectOpenAI => openai_line_calls line
  | DialectUnknown => []
  end.

(** The outcome of an event holds the calls of the line that are kept. *)
Definition event_ok (dialect : Dialect) (line : list Z) (s : SSEInterceptor) (o : outcome) (s' : SSEInterceptor) : Prop :=
  ss_client s' = ss_client s /\
  match o with
  | Emit ls => (ls ≫= line_calls dialect, ss_checks s') = judged (line_calls dialect line) (ss_checks s)
  | Suppress => ([], ss_checks s') = judged (line_calls dialect line) (ss_checks s)
  | Panic => True
  end.

Lemma unchanged_ok dialect line s : line_calls dialect line = [] -> event_ok dialect line s (Emit [line]) s.
Proof. intros H. split; [done|]. cbn. by rewrite H. Qed.

Lemma none_ok line s : anthropic_line_call line = None -> event_ok DialectAnthropic line s (Emit [line]) s.
Proof. intros H. apply unchanged_ok. cbn. by rewrite H. Qed.

Lemma block_start_ok line data index s : extractSSEData line = Some data -> anthropic_plain line = true ->
  (forall v, unmarshal block_start data = Some v -> vstr (field "type" v) = "content_block_start") ->
  event_ok DialectAnthropic line s (handleContentBlockStart clock ic line data index s).1 (handleContentBlockStart clock ic line data index s).2.
Proof.
  intros E Hp Ht. pose proof (line_data_call _ _ E) as Ecall. unfold handleContentBlockStart. destruct (unmarshal block_start data) as [v|] eqn:Ev.
  2:{ apply none_ok. rewrite Ecall. destruct (data_call data) eqn:Ec; [exfalso|done].
      destruct (plain_start line data E Hp) as [v Hv]; [by rewrite Ec|congruence]. }
  destruct (start_views data v Ev) as (t & i & bt & id & name & -> & Hn & _ & Hc). specialize (Ht _ eq_refl). change (t = "content_block_start") in Ht. subst t.
  change (is_tool_use (field "content_block" (start_value "content_block_start" i bt id name))) with (bt ==? "tool_use").
  rewrite Hc in Ecall. destruct (bt ==? "tool_use") eqn:Eb; [|by apply none_ok]. cbn [negb].
  change (vstr (field "name" _)) with name. change (vstr (field "id" _)) with id. cbn [andb] in Ecall.
  rewrite bool_decide_eq_true_2 in Ecall by done. cbn [andb] in Ecall.
  assert (Hv : judged (line_calls DialectAnthropic line) (ss_checks s) = judged [mkToolCall id name None] (ss_checks s)) by (cbn [line_calls]; by rewrite Ecall).
  cbn [judged tl_Name tl_ID] in Hv. destruct (lookupAndEvaluate clock ic name id (ss_checks s)) as [[[[entry decision] cross]|] k'] eqn:El.
  - destruct (pd_Allowed decision); (split; [done|]); rewrite Hv; cbn [fst snd fireEvent ss_checks ck_analyzer ck_limiter ck_time].
    + cbn [mbind list_bind line_calls]. by rewrite Ecall.
    + by rewrite text_block_calls.
  - split; [done|]. rewrite Hv. cbn [fst snd ss_checks mbind list_bind line_calls]. by rewrite Ecall.
Qed.

Lemma process_ok line data s : extractSSEData line = Some data -> anthropic_plain line = true ->
  event_ok DialectAnthropic line s (processAnthropicEvent clock ic line data s).1 (processAnthropicEvent clock ic line data s).2.
Proof.
  intros E Hp. pose proof (no_call line data E Hp) as Hno. pose proof (line_data_call _ _ E) as Ecall. rewrite <- Ecall in Hno.
  unfold processAnthropicEvent. destruct (unmarshal event_head data) as [evt|] eqn:Ee; [|by apply none_ok, Hno].
  destruct (vstr (field "type" evt) ==? "content_block_start") eqn:E1.
  { apply block_start_ok; [done..|]. intros v Hv. apply bool_decide_eq_true in E1.
    destruct (start_views data v Hv) as (t & i & bt & id & name & -> & _ & He & _). rewrite Ee in He. injection He as ->. exact E1. }
  apply bool_decide_eq_false in E1. specialize (Hno E1).
  destruct ((vstr (field "type" evt) ==? "content_block_delta") || _).
  { destruct (bool_decide _); [|by apply none_ok]. split; [done|]. cbn. by rewrite Hno. }
  destruct (vstr (field "type" evt) ==? "message_delta") eqn:E2; [|by apply none_ok]. apply bool_decide_eq_true in E2.
  unfold handleMessageDelta. destruct (_ && _); [|by apply none_ok].
  destruct (rewriteAnthropicStopReason data) as [d|] eqn:Er; (split; [done|]); [|done].
  cbn [fst snd mbind list_bind line_calls]. by rewrite (stop_reason_call line data d evt), Hno.
Qed.

Lemma judged_app a b k :
  judged (a ++ b) k = ((judged a k).1 ++ (judged b (judged a k).2).1, (judged b (judged a k).2).2).
Proof.
  revert k. induction a as [|c a IH]; intros k; cbn [app judged fst snd]; [by destruct (judged b k)|].
  destruct (lookupAndEvaluate _ _ _ _ k) as [[[[entry decision] cross]|] k']; rewrite IH.
  - destruct (judged a _) as [l k1]. cbn [fst snd]. by destruct (pd_Allowed decision).
  - by destruct (judged a k') as [l k1].
Qed.

(** *** The stream *)

Section Lines.
Variable dialect : Dialect.
Notation calls := (line_calls dialect).

(** Part of the calls that should come out did, and all of them unless a write failed. *)
Definition came_out (kept : list ToolCall) (s s' : SSEInterceptor) : Prop :=
  exists new, ss_client s' = ss_client s ++ new /\ (new ≫= calls) `prefix_of` kept /\ (ss_clientErr s' = false -> new ≫= calls = kept).

Lemma wrote_came_out ls s s' : wrote ls s s' -> came_out (ls ≫= calls) s s'.
Proof.
  intros (_ & n & E & Hn). exists (take n ls). split; [done|]. split.
  - rewrite <- (take_drop n ls) at 2. rewrite bind_app. by apply prefix_app_r.
  - intros H. by rewrite take_ge by auto.
Qed.

Lemma nothing_came_out s s' : ss_client s' = ss_client s -> came_out [] s s'.
Proof. intros E. exists []. rewrite E, app_nil_r. by split_and!. Qed.

Lemma written_ok ls s kept s1 : ls ≫= calls = kept -> ss_client s1 = ss_client s ->
  came_out kept s (write_all accepts ls s1) /\ ss_checks (write_all accepts ls s1) = ss_checks s1.
Proof.
  intros <- E. split; [|apply write_all_same]. destruct (wrote_came_out _ _ _ (write_all_wrote ls s1)) as (new & H & ?).
  exists new. by rewrite <- E.
Qed.

Lemma flush_all p ls s : write_all accepts ls (flush accepts p s) = write_all accepts (option_list p ++ ls) s.
Proof. by destruct p. Qed.

(** The event line that waits holds no call. *)
Definition waits (p : pending) : Prop := match pe_event p with Some l => calls l = [] | None => True end.

Lemma waits_calls p : waits p -> option_list (pe_event p) ≫= calls = [].
Proof. unfold waits. destruct (pe_event p) as [l|]; [|done]. cbn. by intros ->. Qed.

Definition line_ok (line : list Z) : Prop := forall p s, waits p ->
  match stream_line clock ic accepts dialect line p s with
  | None => True
  | Some (p', s') => waits p' /\ came_out (judged (calls line) (ss_checks s)).1 s s' /\ ss_checks s' = (judged (calls line) (ss_checks s)).2
  end.

Lemma stream_lines_ok lines p s : Forall line_ok lines -> waits p ->
  exists new, ss_client (stream_lines clock ic accepts dialect lines p s).2 = ss_client s ++ new /\
    (new ≫= calls) `prefix_of` (judged (lines ≫= calls) (ss_checks s)).1 /\
    ((stream_lines clock ic accepts dialect lines p s).1 = false -> ss_clientErr (stream_lines clock ic accepts dialect lines p s).2 = false ->
     new ≫= calls = (judged (lines ≫= calls) (ss_checks s)).1).
Proof.
  intros Hall. revert p s. induction Hall as [|line lines Hl Hall IH]; intros p s Hw; cbn [stream_lines].
  { destruct (ss_clientErr s) eqn:Ee; cbn [fst snd].
    - exists []. rewrite app_nil_r. split_and!; [done|apply prefix_nil|]. by rewrite Ee.
    - change (flush accepts (pe_event p) s) with (write_all accepts [] (flush accepts (pe_event p) s)). rewrite flush_all, app_nil_r.
      destruct (written_ok (option_list (pe_event p)) s _ s (waits_calls p Hw) eq_refl) as [(new & ? & ? & ?) _]. by exists new. }
  destruct (ss_clientErr s) eqn:Ee; cbn [fst snd].
  { exists []. rewrite app_nil_r. split_and!; [done|apply prefix_nil|]. by rewrite Ee. }
  rewrite bind_cons, judged_app. cbn [fst]. pose proof (Hl p s Hw) as Hs.
  destruct (stream_line clock ic accepts dialect line p s) as [[p' s1]|]; cbn [fst snd].
  2:{ exists []. rewrite app_nil_r. by split_and!; [|apply prefix_nil|]. }
  destruct Hs as (Hw' & (new & Hc & Hpre & Heq) & Hk). rewrite <- Hk. destruct (ss_clientErr s1) eqn:E1.
  - assert (E : stream_lines clock ic accepts dialect lines p' s1 = (false, s1)) by (destruct lines; cbn; by rewrite E1).
    rewrite E. cbn [fst snd]. exists new. split_and!; [done|by apply prefix_app_r|]. by rewrite E1.
  - specialize (Heq eq_refl). destruct (IH p' s1 Hw') as (new' & Hc' & Hpre' & Heq'). exists (new ++ new').
    rewrite Hc', Hc, bind_app, Heq, app_assoc. split_and!; [done|by apply prefix_app|]. intros Hp1 Hp2. by rewrite Heq'.
Qed.

End Lines.

Lemma anthropic_line_ok line : anthropic_plain line = true -> line_ok DialectAnthropic line.
Proof.
  intros Hp p s Hw. cbn [stream_line]. destruct (extractSSEData line) as [data|] eqn:Ed.
  - assert (Hl : is_empty line = false) by (by destruct line). rewrite Hl, andb_false_r.
    pose proof (process_ok line data s Ed Hp) as Hev. destruct (processAnthropicEvent clock ic line data s) as [o s1].
    destruct Hev as (Hc & Ho). cbn [fst snd] in *. destruct o as [ls| |]; [rewrite <- Ho; cbn [fst snd]; split; [done|]|rewrite <- Ho|done].
    + destruct (existsb _ ls); [by apply written_ok|]. rewrite flush_all. apply written_ok; [|done]. by rewrite bind_app, waits_calls.
    + split_and!; [done|by apply nothing_came_out|done].
  - assert (Hn : line_calls DialectAnthropic line = []) by (cbn; unfold anthropic_line_call; by rewrite Ed). rewrite Hn. cbn [judged fst snd].
    destruct (pe_suppress p && is_empty line); [by split_and!; [|apply nothing_came_out|]|].
    destruct (starts_with _ line); [by split_and!; [|apply nothing_came_out|]|].
    split; [done|]. change (writeLine accepts line (flush accepts (pe_event p) s)) with (write_all accepts [line] (flush accepts (pe_event p) s)).
    rewrite flush_all. apply written_ok; [|done]. rewrite bind_app, waits_calls by done. cbn [mbind list_bind]. by rewrite Hn.
Qed.

(** *** Chunks *)

Definition call_of (tc : openAIChunkToolCall) : ToolCall := mkToolCall (kc_ID tc) (kc_Name tc) None.
Definition named (tc : openAIChunkToolCall) : bool := (kc_ID tc !=? "") && (kc_Name tc !=? "").
Definition choice_calls_of (c : openAIChunkChoice) : list ToolCall := call_of <$> List.filter named (kd_ToolCalls (kh_Delta c)).

(** A choice the upstream API sends: the last chunk of a choice brings no calls, the calls of a chunk
    are all introduced or all continued, and the content is text. *)
Definition plain_choice (c : openAIChunkChoice) : bool :=
  let calls := kd_ToolCalls (kh_Delta c) in
  match kh_FinishReason c with Some _ => is_empty calls | None => forallb named calls || forallb (fun tc => kc_ID tc ==? "") calls end &&
  match kd_Content (kh_Delta c) with None | Some RNull | Some (RString _) => true | _ => false end.

Definition openai_plain (line : list Z) : bool :=
  match extractSSEData line with
  | None => true
  | Some data =>
    match unmarshal chunk_type data with
    | Some v => forallb plain_choice (ku_Choices (chunk_of v))
    | None => is_empty (openai_line_calls line)
    end
  end.

(** The interceptor's type and the extractor's agree on the calls. *)
Definition call_view : gotype := TStruct [("id", TString); ("function", TStruct [("name", TString)])].
Definition choice_view : gotype := TStruct [("delta", TStruct [("tool_calls", TSlice call_view)])].
Definition view_call (tc : goval) : ToolCall := mkToolCall (vstr (field "id" tc)) (vstr (field "name" (field "function" tc))) None.
Definition view_named (tc : goval) : bool := (vstr (field "id" tc) !=? "") && (vstr (field "name" (field "function" tc)) !=? "").
Definition view_calls (choice : goval) : list ToolCall := view_call <$> List.filter view_named (vlist (field "tool_calls" (field "delta" choice))).

Definition text_ok (s : string) : Prop := ValidString s = true.
Definition call_ok (tc : openAIChunkToolCall) : Prop := text_ok (kc_ID tc) /\ text_ok (kc_Type tc) /\ text_ok (kc_Name tc) /\ text_ok (kc_Arguments tc).
Definition choice_ok (c : openAIChunkChoice) : Prop :=
  text_ok (kd_Role (kh_Delta c)) /\ Forall call_ok (kd_ToolCalls (kh_Delta c)) /\
  (forall x, kd_Content (kh_Delta c) = Some x -> rwf x) /\ (forall x, kh_FinishReason c = Some x -> text_ok x).

Lemma call_narrow tc : typed chunk_call_type tc ->
  call_ok (chunk_call_of tc) /\ view_call (narrow call_view tc) = call_of (chunk_call_of tc) /\
  view_named (narrow call_view tc) = named (chunk_call_of tc).
Proof. unfold chunk_call_type, openai_function. intros H. open_typed. unfold call_ok, text_ok. split_and!; try reflexivity; eassumption. Qed.

Definition choice_type : gotype :=
  TStruct [("index", TInt); ("delta", TStruct [("role", TString); ("content", TRaw); ("tool_calls", TSlice chunk_call_type)]);
           ("finish_reason", TPtrString)].

Lemma calls_narrow l : Forall (typed chunk_call_type) l ->
  Forall call_ok (chunk_call_of <$> l) /\
  view_call <$> List.filter view_named (map (narrow call_view) l) = call_of <$> List.filter named (chunk_call_of <$> l).
Proof.
  induction 1 as [|tc l Htc Hl [IH1 IH2]]; [by split; [constructor|]|]. destruct (call_narrow tc Htc) as (H1 & H2 & H3). split; [by constructor|].
  change (chunk_call_of <$> tc :: l) with (chunk_call_of tc :: (chunk_call_of <$> l)). cbn [map List.filter]. rewrite H3. destruct (named (chunk_call_of tc)); [|exact IH2]. rewrite !fmap_cons, H2. f_equal. exact IH2.
Qed.

Lemma choice_narrow c : typed choice_type c -> choice_ok (choice_of c) /\ view_calls (narrow choice_view c) = choice_calls_of (choice_of c).
Proof.
  unfold choice_type. intros H. open_typed. match goal with H : Forall (typed chunk_call_type) ?l |- context [VSlice ?l _] =>
    destruct (calls_narrow l H) as [Hc Hv] end.
  split; [by split_and!|exact Hv].
Qed.

Lemma choices_narrow l : Forall (typed choice_type) l ->
  Forall choice_ok (choice_of <$> l) /\ map (narrow choice_view) l ≫= view_calls = (choice_of <$> l) ≫= choice_calls_of.
Proof.
  induction 1 as [|c l Hc Hl [IH1 IH2]]; [by split; [constructor|]|]. destruct (choice_narrow c Hc) as (H1 & H2). split; [by constructor|].
  change (choice_of <$> c :: l) with (choice_of c :: (choice_of <$> l)). cbn [map]. by rewrite !bind_cons, H2, IH2.
Qed.

Lemma chunk_views line data v : extractSSEData line = Some data -> data <> string_bytes "[DONE]" -> unmarshal chunk_type data = Some v ->
  text_ok (ku_ID (chunk_of v)) /\ text_ok (ku_Object (chunk_of v)) /\ Forall choice_ok (ku_Choices (chunk_of v)) /\
  openai_line_calls line = ku_Choices (chunk_of v) ≫= choice_calls_of.
Proof.
  intros E Hd Hv. destruct (unmarshal_narrow sse_openai chunk_type data v) as [Hn Ht]; [vm_compute; reflexivity|vm_compute; reflexivity|done|].
  unfold openai_line_calls. rewrite E, bool_decide_eq_false_2, Hn by done. clear Hn Hv.
  unfold chunk_type in Ht. fold choice_type in Ht. open_typed. 
  match goal with H : Forall (typed choice_type) ?l |- context [VSlice ?l _] => destruct (choices_narrow l H) as [Hc Hv] end.
  split_and!; [assumption..|exact Hv].
Qed.

(** *** Printed chunks *)

Definition member_fits (d : nat) (p : list Z * rjson) : Prop := raw_text p.1 /\ fits d p.2.

Lemma quoted_fits d k c : text_ok k -> fits d c -> member_fits d (quote k, c).
Proof. intros Hk Hc. split; [by apply quote_spec|done]. Qed.

Lemma str_fits d s : text_ok s -> fits d (str s).
Proof. intros H. split; [by apply str_wf|]. cbn. lia. Qed.

Lemma int_fits d z : fits d (int_json z).
Proof. split; [apply int_wf|]. cbn. lia. Qed.

Lemma unless_empty_fits d k s : text_ok k -> text_ok s -> Forall (member_fits d) (unless_empty k s).
Proof. intros Hk Hs. unfold unless_empty. destruct (s ==? ""); constructor; [|constructor]. apply quoted_fits; [done|by apply str_fits]. Qed.

Lemma one_fits d k c : text_ok k -> fits d c -> Forall (member_fits d) [(quote k, c)].
Proof. intros Hk Hc. constructor; [by apply quoted_fits|constructor]. Qed.

Lemma call_json_fits d tc : call_ok tc -> fits (S (S d)) (chunk_call_json tc).
Proof.
  intros (H1 & H2 & H3 & H4). unfold chunk_call_json. apply fits_object. rewrite !Forall_app. split_and!.
  - apply one_fits; [done|apply int_fits].
  - by apply unless_empty_fits.
  - by apply unless_empty_fits.
  - apply one_fits; [done|]. apply fits_object. rewrite Forall_app. split; [by apply unless_empty_fits|]. apply one_fits; [done|by apply str_fits].
Qed.

Definition flat (c : openAIChunkChoice) : Prop :=
  match kd_Content (kh_Delta c) with None | Some RNull | Some (RString _) => True | _ => False end.

Lemma choice_json_fits d c : choice_ok c -> flat c -> fits (S (S (S (S (S d))))) (choice_json c).
Proof.
  intros (H1 & H2 & H3 & H4) Hf. unfold choice_json. apply fits_object.
  apply (Forall_app _ [_] [_; _]). split; [apply one_fits; [done|apply int_fits]|].
  apply (Forall_app _ [_] [_]). split; apply one_fits; [done| |done|].
  - unfold delta_json. apply fits_object. rewrite !Forall_app. split_and!; [by apply unless_empty_fits| |].
    + unfold flat in Hf. destruct (kd_Content (kh_Delta c)) as [x|]; [|constructor]. apply one_fits; [done|]. apply escaped_fits.
      split; [by apply H3|]. destruct x; try done; cbn; lia.
    + destruct (kd_ToolCalls (kh_Delta c)) as [|tc l]; [constructor|]. apply one_fits; [done|]. apply fits_array. apply Forall_map.
      eapply Forall_impl; [exact H2|]. intros. by apply call_json_fits.
  - destruct (kh_FinishReason c); [apply str_fits; by apply H4|]. split; [done|cbn; lia].
Qed.

Lemma chunk_json_fits ch : text_ok (ku_ID ch) -> text_ok (ku_Object ch) -> Forall choice_ok (ku_Choices ch) -> Forall flat (ku_Choices ch) ->
  fits maxNestingDepth (chunk_json ch).
Proof.
  intros H1 H2 H3 H4. apply (fits_le 7); [|apply Nat.leb_le; vm_compute; reflexivity]. unfold chunk_json. apply fits_object.
  apply (Forall_app _ [_] [_; _]). split; [apply one_fits; [done|by apply str_fits]|].
  apply (Forall_app _ [_] [_]). split; apply one_fits; [done|by apply str_fits|done|].
  apply fits_array, Forall_map. rewrite Forall_forall in *. intros c Hc. apply choice_json_fits; auto.
Qed.

Lemma members_skip fs k c m vs : text_ok k -> find_field fs k = None ->
  decode_members decode fs ((quote k, c) :: m) vs = decode_members decode fs m vs.
Proof. intros Hk Hf. cbn [decode_members fst]. rewrite unquote_quote by done. by rewrite Hf. Qed.

Lemma members_take fs k n t c x m vs : text_ok k -> find_field fs k = Some (n, t) -> decode c t (default (zero t) (get_field n vs)) = Some x ->
  decode_members decode fs ((quote k, c) :: m) vs = decode_members decode fs m (set_field n x vs).
Proof. intros Hk Hf Hx. cbn [decode_members fst snd]. rewrite unquote_quote by done. by rewrite Hf, Hx. Qed.

Lemma members_text fs k s m vs : text_ok k -> text_ok s -> find_field fs k = Some (k, TString) -> get_field k vs = Some (VString "") ->
  set_field k (VString "") vs = vs ->
  decode_members decode fs (unless_empty k s ++ m) vs = decode_members decode fs m (set_field k (VString s) vs).
Proof.
  intros Hk Hs Hf Hg He. unfold unless_empty. destruct (s ==? "") eqn:E.
  - apply bool_decide_eq_true in E as ->. by rewrite He.
  - cbn [app]. eapply members_take; [done..|]. cbn [str decode]. by rewrite unquote_quote.
Qed.

Lemma members_skip_text fs k s m vs : text_ok k -> find_field fs k = None ->
  decode_members decode fs (unless_empty k s ++ m) vs = decode_members decode fs m vs.
Proof. intros Hk Hf. unfold unless_empty. destruct (s ==? ""); [done|]. by apply members_skip. Qed.

Definition call_value (tc : openAIChunkToolCall) : goval :=
  VStruct [("id", VString (kc_ID tc)); ("function", VStruct [("name", VString (kc_Name tc))])].

Lemma decode_call tc : call_ok tc -> decode (chunk_call_json tc) call_view (zero call_view) = Some (call_value tc).
Proof.
  intros (H1 & H2 & H3 & H4). unfold chunk_call_json, call_view at 1. cbn [decode app]. rewrite members_skip by (vm_compute; reflexivity).
  rewrite members_text; [|done..|vm_compute; reflexivity|reflexivity|reflexivity].
  rewrite members_skip_text by (vm_compute; reflexivity).
  erewrite members_take; [|done|vm_compute; reflexivity|].
  2:{ cbn [decode]. rewrite members_text; [|done..|vm_compute; reflexivity|reflexivity|reflexivity].
      rewrite members_skip by (vm_compute; reflexivity). reflexivity. }
  reflexivity.
Qed.

Lemma decode_list t {A} (js : A -> rjson) (val : A -> goval) l :
  Forall (fun a => decode (js a) t (zero t) = Some (val a)) l -> decode_elements decode t (map js l) [] = Some (map val l, []).
Proof. induction 1 as [|a l Ha Hl IH]; [done|]. cbn [map decode_elements tail]. rewrite Ha. cbn [mbind option_bind]. by rewrite IH. Qed.

Definition choice_value (c : openAIChunkChoice) : goval :=
  VStruct [("delta", VStruct [("tool_calls", VSlice (map call_value (kd_ToolCalls (kh_Delta c))) [])])].

Lemma view_choice_value c : view_calls (choice_value c) = choice_calls_of c.
Proof.
  unfold choice_calls_of. change (vlist _) with (map call_value (kd_ToolCalls (kh_Delta c))).
  unfold view_calls. change (vlist _) with (map call_value (kd_ToolCalls (kh_Delta c))).
  induction (kd_ToolCalls (kh_Delta c)) as [|tc l IH]; [done|]. cbn [map List.filter].
  change (view_named (call_value tc)) with (named tc). destruct (named tc); [|exact IH]. rewrite !fmap_cons. by rewrite IH.
Qed.

Lemma decode_slice t {A} (js : A -> rjson) (val : A -> goval) l :
  Forall (fun a => decode (js a) t (zero t) = Some (val a)) l -> decode (RArray (map js l)) (TSlice t) (VSlice [] []) = Some (VSlice (map val l) []).
Proof.
  intros H. destruct l as [|a l]; [done|]. cbn [decode map]. change (js a :: map js l) with (map js (a :: l)). cbn [backing app].
  by rewrite (decode_list t js val) by done.
Qed.

Lemma decode_choice c : choice_ok c -> decode (choice_json c) choice_view (zero choice_view) = Some (choice_value c).
Proof.
  intros (H1 & H2 & H3 & H4). unfold choice_json, choice_view at 1. cbn [decode]. rewrite members_skip by (vm_compute; reflexivity).
  erewrite members_take; [|done|vm_compute; reflexivity|].
  2:{ unfold delta_json. cbn [decode]. rewrite members_skip_text by (vm_compute; reflexivity).
      assert (Hc : forall m vs, decode_members decode [("tool_calls", TSlice call_view)]
        (match kd_Content (kh_Delta c) with Some x => [(quote "content", escaped x)] | None => [] end ++ m) vs =
        decode_members decode [("tool_calls", TSlice call_view)] m vs).
      { intros m vs. destruct (kd_Content (kh_Delta c)); [|done]. cbn [app]. by rewrite members_skip by (vm_compute; reflexivity). }
      change (TSlice (TStruct [("id", TString); ("function", TStruct [("name", TString)])])) with (TSlice call_view). rewrite Hc.
      assert (Ht : decode_members decode [("tool_calls", TSlice call_view)]
        match kd_ToolCalls (kh_Delta c) with [] => [] | l => [(quote "tool_calls", RArray (chunk_call_json <$> l))] end
        [("tool_calls", VSlice [] [])] = Some [("tool_calls", VSlice (map call_value (kd_ToolCalls (kh_Delta c))) [])]).
      { destruct (kd_ToolCalls (kh_Delta c)) as [|tc l]; [done|]. erewrite members_take; [|done|vm_compute; reflexivity|].
        2:{ apply (decode_slice call_view chunk_call_json call_value). eapply Forall_impl; [exact H2|]. apply decode_call. }
        reflexivity. }
      change (vfields _) with [("tool_calls", VSlice [] [])]. rewrite Ht. reflexivity. }
  rewrite members_skip by (vm_compute; reflexivity). reflexivity.
Qed.

Lemma decode_chunk ch : Forall choice_ok (ku_Choices ch) ->
  decode (chunk_json ch) sse_openai (zero sse_openai) = Some (VStruct [("choices", VSlice (map choice_value (ku_Choices ch)) [])]).
Proof.
  intros H. unfold chunk_json, sse_openai at 1. cbn [decode]. rewrite !members_skip by (vm_compute; reflexivity).
  erewrite members_take; [|done|vm_compute; reflexivity|].
  2:{ apply (decode_slice choice_view choice_json choice_value). eapply Forall_impl; [exact H|]. apply decode_choice. }
  reflexivity.
Qed.

Lemma printed_chunk_calls ch : text_ok (ku_ID ch) -> text_ok (ku_Object ch) -> Forall choice_ok (ku_Choices ch) -> Forall flat (ku_Choices ch) ->
  openai_line_calls (data_line (print (chunk_json ch))) = ku_Choices ch ≫= choice_calls_of.
Proof.
  intros H1 H2 H3 H4. unfold openai_line_calls. rewrite extract_data_line, bool_decide_eq_false_2 by done.
  unfold unmarshal. rewrite scan_printed by (by apply chunk_json_fits). cbn [mbind option_bind]. rewrite decode_chunk by done.
  transitivity (map choice_value (ku_Choices ch) ≫= view_calls); [reflexivity|]. clear. induction (ku_Choices ch) as [|c l IH]; [done|].
  cbn [map]. rewrite !bind_cons, <- view_choice_value. f_equal. exact IH.
Qed.

(** *** The events of a chunk *)

Lemma joined_valid l : Forall text_ok l -> text_ok (joined l).
Proof.
  unfold joined. induction 1 as [|x l Hx Hl IH]; [done|]. destruct l as [|y l]; [done|]. cbn [String.concat] in *.
  by apply ValidString_app; [|apply ValidString_app].
Qed.

Lemma first_calls_ok l st s : Forall call_ok l ->
  let '(allowed, msgs, _, s') := first_calls clock ic l st s in
  (call_of <$> allowed, ss_checks s') = judged (call_of <$> l) (ss_checks s) /\ ss_client s' = ss_client s /\
  sublist allowed l /\ (msgs = [] -> allowed = l) /\ Forall text_ok msgs.
Proof.
  intros Hl. revert st s. induction Hl as [|tc l Htc Hl IH]; intros st s; [done|].
  cbn [first_calls]. rewrite fmap_cons. cbn [judged]. change (tl_Name (call_of tc)) with (kc_Name tc). change (tl_ID (call_of tc)) with (kc_ID tc).
  destruct (lookupAndEvaluate clock ic (kc_Name tc) (kc_ID tc) (ss_checks s)) as [[[[entry decision] cross]|] k'].
  - destruct (pd_Allowed decision).
    + match goal with |- context [first_calls clock ic l ?st ?s] => specialize (IH st s); destruct (first_calls clock ic l st s) as [[[allowed msgs] st'] s'] end.
      destruct IH as (IH1 & IH2 & IH3 & IH4 & IH5). cbn [fireEvent ss_checks with_checks ck_analyzer ck_limiter ck_time ss_client] in *. rewrite <- IH1.
      split_and!; [done|done|by apply sublist_skip|intros E; by rewrite IH4|done].
    + match goal with |- context [first_calls clock ic l ?st ?s] => specialize (IH st s); destruct (first_calls clock ic l st s) as [[[allowed msgs] st'] s'] end.
      destruct IH as (IH1 & IH2 & IH3 & IH4 & IH5). cbn [fireEvent ss_checks with_checks ck_analyzer ck_limiter ck_time ss_client] in *. rewrite <- IH1.
      split_and!; [done|done|by apply sublist_cons|done|]. constructor; [|done]. apply blocked_text_valid, Htc.
  - match goal with |- context [first_calls clock ic l ?st ?s] => specialize (IH st s); destruct (first_calls clock ic l st s) as [[[allowed msgs] st'] s'] end.
    destruct IH as (IH1 & IH2 & IH3 & IH4 & IH5). cbn [ss_checks with_checks ss_client] in *. rewrite <- IH1.
    split_and!; [done|done|by apply sublist_skip|intros E; by rewrite IH4|done].
Qed.

Lemma filter_all {A} (f : A -> bool) l : Forall (fun x => f x = true) l -> List.filter f l = l.
Proof. induction 1 as [|x l Hx Hl IH]; [done|]. cbn. by rewrite Hx, IH. Qed.

Lemma filter_none {A} (f : A -> bool) l : Forall (fun x => f x = false) l -> List.filter f l = [].
Proof. induction 1 as [|x l Hx Hl IH]; [done|]. cbn. by rewrite Hx. Qed.

Lemma sublist_all {A} (P : A -> Prop) l l' : sublist l l' -> Forall P l' -> Forall P l.
Proof. induction 1 as [|x l l' _ IH|x l l' _ IH]; intros H; [done| |]; apply Forall_cons in H as [? ?]; [constructor; auto|auto]. Qed.

(** What [process_choice] leaves of a choice. *)
Definition choice_step (c : openAIChunkChoice) (s : SSEInterceptor) (r : openAIChunkChoice * bool * SSEInterceptor) : Prop :=
  (choice_calls_of r.1.1, ss_checks r.2) = judged (choice_calls_of c) (ss_checks s) /\ ss_client r.2 = ss_client s /\ choice_ok r.1.1 /\ flat r.1.1 /\
  (r.1.2 = false -> r.1.1 = c).

Lemma choice_same c s : choice_ok c -> flat c -> choice_calls_of c = [] -> choice_step c s (c, false, s).
Proof. intros H1 H2 H3. split_and!; [|done..]. cbn [fst snd]. by rewrite H3. Qed.

Lemma plain_flat c : plain_choice c = true -> flat c.
Proof. unfold plain_choice, flat. intros [_ H]%andb_prop. destruct (kd_Content (kh_Delta c)) as [[]|]; done. Qed.

Lemma tracked_same i s : ss_checks (getChoiceTracking i s).2 = ss_checks s /\ ss_client (getChoiceTracking i s).2 = ss_client s.
Proof. unfold getChoiceTracking. by destruct (ss_openAIChoices s !! i). Qed.

Lemma first_chunk_ok c s : choice_ok c -> flat c -> Forall (fun tc => named tc = true) (kd_ToolCalls (kh_Delta c)) ->
  choice_step c s (handleOpenAIFirstToolChunk clock ic c s).
Proof.
  intros (H1 & H2 & H3 & H4) Hf Hn. unfold handleOpenAIFirstToolChunk. destruct (tracked_same (kh_Index c) s) as [Ek Ec].
  destruct (getChoiceTracking (kh_Index c) s) as [st s1]. cbn [snd] in *.
  pose proof (first_calls_ok (kd_ToolCalls (kh_Delta c)) st s1 H2) as Hcalls.
  destruct (first_calls clock ic (kd_ToolCalls (kh_Delta c)) st s1) as [[[allowed msgs] st'] s2]. destruct Hcalls as (E & Hcl & Hsub & Hmsgs & Htxt).
  assert (Ha : Forall (fun tc => named tc = true) allowed) by (by eapply sublist_all).
  assert (Hj : (call_of <$> allowed, ss_checks s2) = judged (choice_calls_of c) (ss_checks s)).
  { unfold choice_calls_of. rewrite filter_all by done. by rewrite E, Ek. }
  unfold choice_step. destruct (is_empty msgs) eqn:Em; [|destruct (is_empty allowed) eqn:Ea]; cbn [fst snd with_choices ss_checks ss_client].
  - destruct msgs; [|done]. specialize (Hmsgs eq_refl). subst allowed. split; [|split; [congruence|done]].
    rewrite <- Hj. unfold choice_calls_of. by rewrite filter_all.
  - destruct allowed; [|done]. split; [done|]. split; [congruence|]. split; [|done]. split; [done|]. split; [constructor|]. split; [|done].
    cbn. intros x [= <-]. by apply str_wf, joined_valid.
  - split; [|split; [congruence|]].
    + rewrite <- Hj. unfold choice_calls_of. cbn. by rewrite filter_all.
    + split; [|done]. split; [done|]. split; [by eapply sublist_all|done].
Qed.

Lemma no_id_calls c : Forall (fun tc => kc_ID tc = "") (kd_ToolCalls (kh_Delta c)) -> choice_calls_of c = [].
Proof.
  intros H. unfold choice_calls_of. rewrite filter_none; [done|]. eapply Forall_impl; [exact H|]. intros tc E. unfold named. by rewrite E.
Qed.

Lemma finish_ok c s : choice_ok c -> flat c -> kd_ToolCalls (kh_Delta c) = [] -> choice_step c s (rewriteOpenAIFinish c s, s).
Proof.
  intros Hc Hf Hn. assert (Hz : choice_calls_of c = []) by (apply no_id_calls; by rewrite Hn).
  unfold rewriteOpenAIFinish. destruct (ss_openAIChoices s !! kh_Index c) as [st|]; [|by apply choice_same].
  destruct (_ && _); [|by apply choice_same]. destruct Hc as (? & ? & ? & ?). unfold choice_step. cbn [fst snd]. rewrite Hz.
  split; [unfold choice_calls_of; cbn; by rewrite Hn|]. split; [done|]. split; [|done]. do 3 (split; [done|]). by intros x [= <-].
Qed.

Lemma arg_chunk_ok c s : choice_ok c -> flat c -> Forall (fun tc => kc_ID tc = "") (kd_ToolCalls (kh_Delta c)) ->
  choice_step c s (handleOpenAIArgChunk c s, s).
Proof.
  intros Hc Hf Hn. pose proof (no_id_calls c Hn) as Hz. unfold handleOpenAIArgChunk.
  destruct (ss_openAIChoices s !! kh_Index c) as [st|]; [|by apply choice_same]. destruct (bool_decide _); [by apply choice_same|].
  destruct (Nat.eqb _ _); [by apply choice_same|]. set (kept := List.filter _ _). destruct Hc as (? & Hcalls & ? & ?).
  assert (Hk : forall x, x ∈ kept -> x ∈ kd_ToolCalls (kh_Delta c)).
  { intros x Hx%list_elem_of_In. apply list_elem_of_In. by apply filter_In in Hx as [? _]. }
  rewrite Forall_forall in Hn, Hcalls. unfold choice_step. cbn [fst snd]. rewrite Hz. split; [|split; [done|split; [|done]]].
  - rewrite no_id_calls; [done|]. apply Forall_forall. intros x Hx. apply Hn, Hk, Hx.
  - split; [done|]. split; [|done]. apply Forall_forall. intros x Hx. apply Hcalls, Hk, Hx.
Qed.

Lemma process_choice_ok c s : choice_ok c -> plain_choice c = true -> choice_step c s (process_choice clock ic c s).
Proof.
  intros Hc Hp. pose proof (plain_flat c Hp) as Hf. unfold plain_choice in Hp. apply andb_prop in Hp as [Hp _]. unfold process_choice.
  destruct (kh_FinishReason c) eqn:Ef; [apply finish_ok; [done..|]; by destruct (kd_ToolCalls (kh_Delta c))|].
  destruct (is_empty (kd_ToolCalls (kh_Delta c))) eqn:Ee; [apply choice_same; [done..|]; apply no_id_calls; by destruct (kd_ToolCalls (kh_Delta c))|].
  destruct (existsb _ _) eqn:Ex.
  - apply first_chunk_ok; [done..|]. apply orb_prop in Hp as [Hp|Hp]; [by apply Forall_forall; intros x Hx%list_elem_of_In; rewrite forallb_forall in Hp; apply Hp|].
    apply existsb_exists in Ex as (x & Hx & Hne). rewrite forallb_forall in Hp. apply Hp in Hx. by rewrite Hx in Hne.
  - apply arg_chunk_ok; [done..|]. apply Forall_forall. intros x Hx%list_elem_of_In. destruct (decide (kc_ID x = "")) as [|Hne]; [done|].
    assert (existsb (fun tc => kc_ID tc !=? "") (kd_ToolCalls (kh_Delta c)) = true) as Hex; [|by rewrite Hex in Ex].
    apply existsb_exists. exists x. split; [done|]. by rewrite bool_decide_eq_false_2.
Qed.

Lemma process_choices_ok l s : Forall choice_ok l -> forallb plain_choice l = true ->
  let '(l', m, s') := process_choices clock ic l s in
  (l' ≫= choice_calls_of, ss_checks s') = judged (l ≫= choice_calls_of) (ss_checks s) /\ ss_client s' = ss_client s /\
  Forall choice_ok l' /\ Forall flat l' /\ (m = false -> l' = l).
Proof.
  intros Hl. revert s. induction Hl as [|c l Hc Hl IH]; intros s Hp; [done|]. apply andb_prop in Hp as [Hpc Hp]. cbn [process_choices].
  pose proof (process_choice_ok c s Hc Hpc) as Hs. destruct (process_choice clock ic c s) as [[c' m] s1].
  destruct Hs as (E & Ecl & Hc' & Hf & Hm). cbn [fst snd] in *. specialize (IH s1 Hp).
  destruct (process_choices clock ic l s1) as [[l' m'] s2]. destruct IH as (E' & Ecl' & Hl' & Hf' & Hm').
  rewrite !bind_cons, judged_app, <- E. cbn [fst snd]. rewrite <- E'. split; [done|]. split; [congruence|].
  split; [by constructor|]. split; [by constructor|]. intros [-> ->]%orb_false_elim. by rewrite Hm, Hm'.
Qed.

Lemma empty_no_calls l : forallb choice_empty l = true -> l ≫= choice_calls_of = [].
Proof.
  intros H. rewrite forallb_forall in H. induction l as [|c l IH]; [done|]. rewrite bind_cons, IH by (intros; apply H; by right).
  rewrite no_id_calls; [done|]. assert (He := H c (or_introl eq_refl)). unfold choice_empty in He.
  destruct (kd_ToolCalls (kh_Delta c)); [constructor|done].
Qed.

Lemma process_openai_ok line s : openai_plain line = true ->
  event_ok DialectOpenAI line s (processOpenAIEvent clock ic line s).1 (processOpenAIEvent clock ic line s).2.
Proof.
  unfold openai_plain, processOpenAIEvent. destruct (extractSSEData line) as [data|] eqn:Ed.
  2:{ intros _. apply unchanged_ok. cbn. unfold openai_line_calls. by rewrite Ed. }
  destruct (data ==? string_bytes "[DONE]") eqn:Edone.
  { intros _. apply unchanged_ok. cbn. unfold openai_line_calls. by rewrite Ed, Edone. }
  apply bool_decide_eq_false in Edone. destruct (unmarshal chunk_type data) as [v|] eqn:Ev.
  2:{ intros Hp. apply unchanged_ok. cbn. by destruct (openai_line_calls line). }
  intros Hp. destruct (chunk_views line data v Ed Edone Ev) as (H1 & H2 & H3 & Ecalls). set (ch := chunk_of v) in *.
  destruct (is_empty (ku_Choices ch)) eqn:Ee.
  { apply unchanged_ok. cbn. rewrite Ecalls. by destruct (ku_Choices ch). }
  pose proof (process_choices_ok (ku_Choices ch) s H3 Hp) as Hc. destruct (process_choices clock ic (ku_Choices ch) s) as [[l m] s'].
  destruct Hc as (E & Ecl & Hok & Hflat & Hm). split; [done|]. cbn [fst snd line_calls]. rewrite Ecalls, <- E.
  destruct m; cbn [negb].
  - destruct (forallb choice_empty l) eqn:Eem; [by rewrite empty_no_calls|]. cbn [mbind list_bind line_calls].
    rewrite printed_chunk_calls by done. by rewrite app_nil_r.
  - cbn [mbind list_bind line_calls]. by rewrite Ecalls, app_nil_r, Hm.
Qed.

Lemma openai_line_ok line : openai_plain line = true -> line_ok DialectOpenAI line.
Proof.
  intros Hp p s Hw. cbn [stream_line]. pose proof (process_openai_ok line s Hp) as Hev. destruct (processOpenAIEvent clock ic line s) as [o s1].
  destruct Hev as (Hc & Ho). cbn [fst snd] in *. destruct o as [ls| |]; [rewrite <- Ho; cbn [fst snd]; split; [done|]; by apply written_ok|rewrite <- Ho|done].
  split_and!; [done|by apply nothing_came_out|done].
Qed.

(** *** The stream *)

Definition plain_line (dialect : Dialect) (line : list Z) : bool :=
  match dialect with DialectAnthropic => anthropic_plain line | DialectOpenAI => openai_plain line | DialectUnknown => true end.

Lemma unknown_line_ok line : line_ok DialectUnknown line.
Proof. intros p s Hw. cbn [stream_line]. split; [done|]. by apply (written_ok DialectUnknown [line]). Qed.

Lemma plain_line_ok dialect line : plain_line dialect line = true -> line_ok dialect line.
Proof. destruct dialect; [intros _; apply unknown_line_ok|apply anthropic_line_ok|apply openai_line_ok]. Qed.

(** C22. What a client reads of an intercepted stream whose lines are plain, as the upstream APIs send
    them: in Anthropic's dialect an object has one type and the start of a call an index; in OpenAI's
    the last chunk of a choice brings no calls, the calls of one chunk are all introduced (with an id
    and a name) or all continued, and contents are text.  Then the tool calls in the lines that reach
    the client are those of the lines read that are kept when each is looked up and decided in its
    turn, with the state of the analyzer and of the limits carried along; a blocked call leaves none
    behind.  The lines read end at one that is too long for the scanner; of these, a client that goes
    away, or a panic, cuts the calls short, and nothing else does.  Lines that are not plain can carry
    calls past the decision: see the examples at the end. *)
Theorem stream_keeps_unblocked dialect upstream k : forallb (plain_line dialect) (scan_lines upstream).1 = true ->
  let '(panicked, s) := Stream clock ic accepts dialect upstream k in
  let sent := ss_client s ≫= line_calls dialect in
  let kept := (judged ((scan_lines upstream).1 ≫= line_calls dialect) k).1 in
  sent `prefix_of` kept /\ (panicked = false -> ss_clientErr s = false -> sent = kept).
Proof.
  intros Hp. unfold Stream. generalize dependent (scan_lines upstream).1. intros lines Hp.
  destruct (stream_lines_ok dialect lines (mkPending None false) (NewSSEInterceptor k)) as (new & Hc & Hpre & Heq); [|done|].
  { apply Forall_forall. intros l Hl%list_elem_of_In. rewrite forallb_forall in Hp. by apply plain_line_ok, Hp. }
  destruct (stream_lines clock ic accepts dialect lines (mkPending None false) (NewSSEInterceptor k)) as [panicked s]. cbn [fst snd] in *.
  rewrite Hc. by split.
Qed.

(** *** One decision for streams and whole responses *)

Lemma Evaluate_decides p server name hash : Policy_Evaluate p server name hash <> no_decision.
Proof.
  unfold Policy_Evaluate, evaluateServerPolicy, evaluateAllowlist, evaluateDenylist, no_decision. repeat case_match; simplify_eq/=; congruence.
Qed.

(** C26. The two code paths decide alike.  For a call of a registered tool, the loop over a whole
    response and the interceptor of a stream look at the same entry, allow or block it alike, name the
    same cross-server rule and leave the same analyzer and limits behind; where they block, the
    reason of the event is the same. *)
Theorem paths_decide_alike name id input entry k : Lookup name (ic_registry ic) = Some entry ->
  let '(decision, reason, cross, k1) := decide_call clock ic entry (mkToolCall id name input) k in
  exists decision', lookupAndEvaluate clock ic name id k = (Some (entry, decision', cross), k1) /\
    pd_Allowed decision' = pd_Allowed decision /\ (pd_Allowed decision = false -> pd_Reason decision' = reason).
Proof.
  intros Hl. unfold decide_call, lookupAndEvaluate. rewrite Hl. cbn [tl_Name tl_ID].
  destruct (cross_check clock ic entry name id k) as [[block|] k1]; [by eexists|].
  destruct (limit_check clock entry k1) as [ok k2]. destruct ok; cbn [negb].
  2:{ rewrite (bool_decide_eq_false_2 (mkPolicyDecision false _ None = no_decision)) by done. cbn [fst snd]. by eexists. }
  rewrite (bool_decide_eq_true_2 (no_decision = no_decision)) by done.
  set (d0 := match ic_policy ic with Some p => Policy_Evaluate p (te_ServerID entry) name (te_ToolHash entry) | None => mkPolicyDecision true NoReason None end).
  assert (Hd : (if match ic_policy ic with Some p => Policy_Evaluate p (te_ServerID entry) name (te_ToolHash entry) | None => no_decision end ==? no_decision
                then mkPolicyDecision true NoReason None
                else match ic_policy ic with Some p => Policy_Evaluate p (te_ServerID entry) name (te_ToolHash entry) | None => no_decision end) = d0).
  { unfold d0. destruct (ic_policy ic) as [p|]; [|done]. pose proof (Evaluate_decides p (te_ServerID entry) name (te_ToolHash entry)) as Hne.
    by rewrite (bool_decide_eq_false_2 (Policy_Evaluate p (te_ServerID entry) name (te_ToolHash entry) = no_decision)). }
  assert (Halt : forall r : reason, exists d1, (if pd_Allowed d0 && (r !=? NoReason) then mkPolicyDecision (pd_Allowed d0) r (pd_Rule d0) else d0) = d1 /\
    pd_Allowed d1 = pd_Allowed d0 /\ (pd_Allowed d0 = false -> pd_Reason d1 = pd_Reason d0)).
  { intros r. eexists. split; [reflexivity|]. by destruct (pd_Allowed d0) eqn:Ea, (r !=? NoReason). }
  destruct (pin_changed ic entry name) as [[h oc]|]; [destruct (oc ==? "block"); [|destruct (oc ==? "alert")]|].
  { rewrite (bool_decide_eq_false_2 (mkPolicyDecision false _ None = no_decision)) by done. cbn [fst snd]. by eexists. }
  all: rewrite (bool_decide_eq_true_2 (no_decision = no_decision)) by done; rewrite Hd.
  all: match goal with |- context [(?r !=? NoReason)] => destruct (Halt r) as (d1 & -> & H1 & H2) | _ => idtac end.
  all: fold d0; destruct (pd_Allowed d0) eqn:Ea.
  all: cbn [negb andb]; eexists; (split; [reflexivity|]); cbn; rewrite Ea; (split; [done|]); intros; first [done|auto].
Qed.

End Stream.
End StreamCalls.
Export StreamCalls.

(** ** Samples *)
Module StreamSamples.

#[local] Existing Instances latin_case ascii_orbits.

(** A bucket that counts down from its burst. *)
Definition counting_bucket : TokenBucket :=
  {| bucket := Z; NewLimiter := fun _ burst => burst; Limiter_Allow := fun _ n => (0 <? n, Z.max 0 (n - 1)) |}.

#[local] Existing Instance counting_bucket.

(** JSON written with apostrophes for its quotes. *)
Definition json (s : string) : list Z := (fun b => if b =? 39 then 34 else b) <$> string_bytes s.
Definition lines_of (l : list string) : list Z := l ≫= fun s => json s ++ [10].

Definition sample_registry : Registry := (Register 0 "files" "stdio" "" [mkToolInfo "read_file" "h1"; mkToolInfo "delete_file" "h2"] NewRegistry).2.
Definition sample_policy : SandboxMCPConfig := mkMCPConfig true false "" [] [] "denylist" [] [mkToolRule "*" "delete_*" ""].
Definition sample_ic : Interceptor := mkInterceptor sample_registry (Some sample_policy) None "s1" "r1".
Definition sample_checks : checks := mkChecks None None 0.
Definition sample_clock (n : nat) : Z := Z.of_nat n.
Definition always (n : nat) : bool := true.

(** A blocked call, an allowed one and the end of the message. *)
Definition anthropic_sample : list Z := lines_of
  ["event: content_block_start"; "data: {'type':'content_block_start','index':0,'content_block':{'type':'tool_use','id':'t1','name':'delete_file'}}"; "";
   "event: content_block_delta"; "data: {'type':'content_block_delta','index':0,'delta':{'partial_json':'{}'}}"; "";
   "event: content_block_start"; "data: {'type':'content_block_start','index':1,'content_block':{'type':'tool_use','id':'t2','name':'read_file'}}"; "";
   "event: message_delta"; "data: {'type':'message_delta','delta':{'stop_reason':'tool_use'}}"; ""].

Definition openai_sample : list Z := lines_of
  ["data: {'id':'c','object':'x','choices':[{'index':0,'delta':{'role':'assistant','content':null,'tool_calls':[{'index':0,'id':'t1','function':{'name':'delete_file','arguments':''}},{'index':1,'id':'t2','function':{'name':'read_file','arguments':''}}]},'finish_reason':null}]}"; "";
   "data: {'choices':[{'index':0,'delta':{'tool_calls':[{'index':0,'function':{'arguments':'{}'}}]},'finish_reason':null}]}"; "";
   "data: {'choices':[{'index':0,'delta':{},'finish_reason':'tool_calls'}]}"; ""; "data: [DONE]"; ""].

Definition sample_stream (dialect : Dialect) (upstream : list Z) : bool * SSEInterceptor :=
  Stream sample_clock sample_ic always dialect upstream sample_checks.

Example sample_streams :
  (fun d => let '(p, s) := sample_stream d (match d with DialectOpenAI => openai_sample | _ => anthropic_sample end) in
            (p, ss_client s ≫= line_calls d, ie_Action <$> ss_events s, length (ss_client s))) <$> [DialectAnthropic; DialectOpenAI] =
  [(false, [mkToolCall "t2" "read_file" None], ["block"; "allow"], 16%nat); (false, [mkToolCall "t2" "read_file" None], ["block"; "allow"], 7%nat)].
Proof. vm_compute. reflexivity. Qed.

(** The premises of both theorems hold of the samples. *)
Lemma stream_keeps_unblocked_witness :
  forallb (plain_line DialectOpenAI) (scan_lines openai_sample).1 = true /\
  (let '(panicked, s) := Stream sample_clock sample_ic always DialectOpenAI openai_sample sample_checks in
   let sent := ss_client s ≫= line_calls DialectOpenAI in
   let kept := (judged sample_clock sample_ic ((scan_lines openai_sample).1 ≫= line_calls DialectOpenAI) sample_checks).1 in
   sent `prefix_of` kept /\ (panicked = false -> ss_clientErr s = false -> sent = kept)).
Proof.
  assert (H : forallb (plain_line DialectOpenAI) (scan_lines openai_sample).1 = true) by (vm_compute; reflexivity).
  split; [exact H|]. exact (stream_keeps_unblocked sample_clock sample_ic always DialectOpenAI openai_sample sample_checks H).
Defined.

Lemma paths_decide_alike_witness : exists entry,
  Lookup "delete_file" (ic_registry sample_ic) = Some entry /\
  (let '(decision, reason, cross, k1) := decide_call sample_clock sample_ic entry (mkToolCall "t1" "delete_file" None) sample_checks in
   exists decision', lookupAndEvaluate sample_clock sample_ic "delete_file" "t1" sample_checks = (Some (entry, decision', cross), k1) /\
     pd_Allowed decision' = pd_Allowed decision /\ (pd_Allowed decision = false -> pd_Reason decision' = reason)).
Proof.
  exists (mkToolEntry "delete_file" "files" "stdio" "" "h2" 0).
  assert (H : Lookup "delete_file" (ic_registry sample_ic) = Some (mkToolEntry "delete_file" "files" "stdio" "" "h2" 0)) by (vm_compute; reflexivity).
  split; [exact H|]. exact (paths_decide_alike sample_clock sample_ic "delete_file" "t1" None _ sample_checks H).
Defined.

(** A chunk that brings a call and a finish reason is not looked at. *)
Example finished_chunk_passes :
  let up := lines_of ["data: {'choices':[{'index':0,'delta':{'tool_calls':[{'index':0,'id':'t1','function':{'name':'delete_file','arguments':'{}'}}]},'finish_reason':'tool_calls'}]}"] in
  let s := (sample_stream DialectOpenAI up).2 in (ss_client s ≫= line_calls DialectOpenAI, ss_events s) = ([mkToolCall "t1" "delete_file" None], []).
Proof. vm_compute. reflexivity. Qed.

(** A call that comes without an ID is taken for the continuation of another. *)
Example call_without_id_passes :
  let up := lines_of ["data: {'choices':[{'index':0,'delta':{'tool_calls':[{'index':0,'function':{'name':'delete_file','arguments':'{}'}}]},'finish_reason':null}]}"] in
  let s := (sample_stream DialectOpenAI up).2 in (ss_client s, ss_events s) = ((scan_lines up).1, []).
Proof. vm_compute. reflexivity. Qed.

(** A null delta, once every call of the message was blocked, is a write to a nil map. *)
Example null_delta_panics :
  let up := lines_of ["data: {'type':'content_block_start','index':0,'content_block':{'type':'tool_use','id':'t1','name':'delete_file'}}"; "";
                      "data: {'type':'message_delta','delta':null}"] in (sample_stream DialectAnthropic up).1 = true.
Proof. vm_compute. reflexivity. Qed.

(** A rewritten chunk loses the fields the interceptor does not know. *)
Example rewritten_chunk_drops_fields :
  let up := lines_of ["data: {'id':'c','object':'x','model':'m','choices':[{'index':0,'delta':{'tool_calls':[{'index':0,'id':'t1','function':{'name':'delete_file','arguments':''}}]},'finish_reason':null}]}"] in
  ss_client (sample_stream DialectOpenAI up).2 =
  [json "data: {'id':'c','object':'x','choices':[{'index':0,'delta':{'content':'[aep-caw] Tool " ++ [39] ++ json "delete_file" ++ [39] ++
   json " blocked by policy'},'finish_reason':null}]}"].
Proof. vm_compute. reflexivity. Qed.

(** A chunk that starts a call and continues a blocked one passes the arguments of the latter on. *)
Example mixed_chunk_passes_arguments :
  let up := lines_of ["data: {'choices':[{'index':0,'delta':{'tool_calls':[{'index':0,'id':'t1','function':{'name':'delete_file','arguments':''}}]},'finish_reason':null}]}";
                      "data: {'choices':[{'index':0,'delta':{'tool_calls':[{'index':0,'function':{'arguments':'{}'}},{'index':1,'id':'t2','function':{'name':'read_file','arguments':''}}]},'finish_reason':null}]}"] in
  last (ss_client (sample_stream DialectOpenAI up).2) = last (scan_lines up).1.
Proof. vm_compute. reflexivity. Qed.

End StreamSamples.
Export StreamSamples.
