(* ===== verification/McpBodyTheorems.v ===== *)
(** * Rewritten responses

    [rewriteAnthropicResponse] and [rewriteOpenAIResponse] read back with [ExtractToolCalls]: of the
    calls of a response exactly those with a blocked name are gone, and so in what the proxy relays. *)

From Stdlib Require Import ZArith Lia Ascii String Sorted.
From stdpp Require Import base list strings gmap sets.
From S2P Require Import Prelude GoText GoNet GoStrings GoJson GoJsonRaw GoJsonTypes PolicyModel PolicyEngine NetGuards NetAcl Mcp McpProxy McpStreamTheorems.
Open Scope string_scope.
Open Scope list_scope.
Open Scope Z_scope.

#[local] Opaque scan.

(** ** Maps of messages *)
Module BodyMaps.

Definition rsorted (m : rmap) : Prop := StronglySorted key_lt m.*1.

Lemma rput_sorted k v m : rsorted m -> rsorted (rput k v m).
Proof.
  unfold rsorted. induction m as [|[k' v'] m IH]; simpl; [repeat constructor|].
  inversion_clear 1 as [|? ? Hs Hall]. destruct (String.compare k k') eqn:E; simpl.
  - apply String.compare_eq_iff in E as ->. by constructor.
  - constructor; [by constructor|]. constructor; [done|]. eapply Forall_impl; [exact Hall|]. intros x Hx. by eapply key_lt_trans.
  - constructor; [auto|]. apply Forall_forall. intros x ([x' y] & -> & [[= -> ->]|Hx]%rput_elem)%list_elem_of_fmap; [by apply compare_Gt|].
    rewrite Forall_forall in Hall. apply Hall, list_elem_of_fmap. by exists (x', y).
Qed.

Lemma rget_put k v m : rget k (rput k v m) = Some v.
Proof.
  unfold rget. induction m as [|[k' v'] m IH]; simpl; [by rewrite bool_decide_eq_true_2|].
  destruct (String.compare k k') eqn:E; simpl; [by rewrite bool_decide_eq_true_2..|].
  rewrite bool_decide_eq_false_2; [done|]. apply compare_Gt, key_lt_neq in E. congruence.
Qed.

Lemma rget_put_ne k k' v m : k <> k' -> rget k (rput k' v m) = rget k m.
Proof.
  intros Hne. unfold rget. induction m as [|[x y] m IH]; simpl; [by rewrite bool_decide_eq_false_2|].
  destruct (String.compare k' x) eqn:E; simpl.
  - apply String.compare_eq_iff in E as ->. by rewrite bool_decide_eq_false_2.
  - by rewrite (bool_decide_eq_false_2 (k = k')).
  - by rewrite IH.
Qed.

Lemma rget_delete k m : rget k (rdelete k m) = None.
Proof.
  unfold rget, rdelete. induction m as [|[k' v'] m IH]; simpl; [done|]. destruct (decide (k' = k)) as [->|Hne].
  - by rewrite (bool_decide_eq_true_2 (k = k)).
  - rewrite (bool_decide_eq_false_2 (k' = k)) by done. simpl. by rewrite bool_decide_eq_false_2.
Qed.

Lemma rdelete_sublist k m : sublist (rdelete k m) m.
Proof. unfold rdelete. induction m as [|p m IH]; cbn; [constructor|]. destruct (_ !=? _); by constructor. Qed.

Lemma sorted_sublist (l l' : list string) : sublist l l' -> StronglySorted key_lt l' -> StronglySorted key_lt l.
Proof.
  induction 1 as [|x l l' Hs IH|x l l' Hs IH]; intros H; [done| |]; inversion_clear H; [|auto].
  constructor; [auto|]. by eapply sublist_all.
Qed.

Lemma rdelete_sorted k m : rsorted m -> rsorted (rdelete k m).
Proof.
  apply sorted_sublist. pose proof (rdelete_sublist k m) as H. clear -H. induction H; cbn; by constructor.
Qed.

(** *** Keys that are a field only when they are its name *)

Definition clean (m : rmap) (n : string) : Prop := forall p, p ∈ m -> fold_name p.1 = fold_name n -> p.1 = n.

Lemma clean_put k v m n : (fold_name k = fold_name n -> k = n) -> clean m n -> clean (rput k v m) n.
Proof. intros Hk Hm p [->|Hp]%rput_elem; [done|by apply Hm]. Qed.

Lemma clean_delete k m n : clean m n -> clean (rdelete k m) n.
Proof. intros Hm p Hp. apply Hm. unfold rdelete in Hp. apply list_elem_of_In, filter_In in Hp as [Hp _]. by apply list_elem_of_In. Qed.

(** At most one member is the field, and it has its name. *)
Definition exactly (m : list (list Z * rjson)) (n : string) : bool :=
  match List.filter (matches n) m with [] => true | [p] => unquote p.1 ==? n | _ => false end.

Lemma exactly_once m n : exactly m n = true -> once m n.
Proof. unfold exactly, once. destruct (List.filter (matches n) m) as [|? [|]]; cbn; [lia|lia|done]. Qed.

Lemma exactly_name m n p : exactly m n = true -> p ∈ m -> matches n p = true -> unquote p.1 = n.
Proof.
  unfold exactly. intros H Hp Hm. apply list_elem_of_In in Hp. assert (Hin : In p (List.filter (matches n) m)) by (by apply filter_In).
  destruct (List.filter (matches n) m) as [|q [|]]; [done| |done]. destruct Hin as [<-|[]]. by apply bool_decide_eq_true in H.
Qed.

Definition puts (m : list (list Z * rjson)) (acc : rmap) : rmap := fold_left (fun acc p => rput (unquote p.1) p.2 acc) m acc.

Lemma puts_sorted m acc : rsorted acc -> rsorted (puts m acc).
Proof. revert acc. induction m as [|p m IH]; intros acc H; [done|]. by apply IH, rput_sorted. Qed.

Lemma puts_get m acc n : exactly m n = true -> rget n (puts m acc) = match member n m with Some c => Some c | None => rget n acc end.
Proof.
  revert acc. induction m as [|p m IH]; intros acc H; [done|]. cbn [puts fold_left]. fold (puts m (rput (unquote p.1) p.2 acc)).
  assert (Hm : exactly m n = true /\ (matches n p = true -> unquote p.1 = n /\ member n m = None) /\ (matches n p = false -> unquote p.1 <> n)).
  { split_and!.
    - unfold exactly in *. cbn in H. destruct (matches n p) eqn:E; [|done]. by destruct (List.filter (matches n) m).
    - intros E. split; [eapply exactly_name; [exact H|constructor|done]|]. destruct (once_cons p m n (exactly_once _ _ H)) as [_ Hn]. by apply Hn.
    - intros E <-. unfold matches in E. by rewrite bool_decide_eq_true_2 in E. }
  destruct Hm as (Hm & H1 & H2). rewrite IH by done. unfold member at 2. cbn [List.find]. destruct (matches n p) eqn:E.
  - destruct (H1 eq_refl) as [Hu Hn]. rewrite Hn, Hu. cbn. by rewrite rget_put.
  - specialize (H2 eq_refl). fold (member n m). destruct (member n m); [done|]. by rewrite rget_put_ne.
Qed.

Lemma as_map_puts m : as_map (Some (RObject m)) = Some (Some (puts m [])).
Proof. done. Qed.

Lemma puts_clean m n : exactly m n = true -> clean (puts m []) n.
Proof.
  intros H p Hp Hf. destruct (as_map_elem (RObject m) _ p (as_map_puts m) Hp) as (m' & q & [= <-] & Hq & Eq & _).
  rewrite <- Eq in *. eapply exactly_name; [done..|]. by apply bool_decide_eq_true_2.
Qed.

(** *** Printed maps *)

Definition map_fits (d : nat) (m : rmap) : Prop := Forall (fun p => ValidString p.1 = true /\ fits d p.2) m.

Lemma map_fits_wf d m : map_fits d m -> map_wf m.
Proof. intros H. eapply Forall_impl; [exact H|]. intros p [? [? _]]. done. Qed.

Lemma puts_fits d m : fits (S d) (RObject m) -> map_fits d (puts m []).
Proof.
  intros H. apply Forall_forall. intros p Hp. destruct (as_map_elem (RObject m) _ p (as_map_puts m) Hp) as (m' & q & [= <-] & Hq & <- & <-).
  split; [apply unquote_valid|]. apply fits_object in H. rewrite Forall_forall in H. by apply H.
Qed.

Lemma rput_fits d k v m : ValidString k = true -> fits d v -> map_fits d m -> map_fits d (rput k v m).
Proof. unfold map_fits. rewrite !Forall_forall. intros Hk Hv Hm p [->|Hp]%rput_elem; [done|by apply Hm]. Qed.

Lemma rdelete_fits d k m : map_fits d m -> map_fits d (rdelete k m).
Proof. intros H. eapply sublist_all; [apply rdelete_sublist|done]. Qed.

Lemma rget_fits d k m c : map_fits d m -> rget k m = Some c -> fits d c.
Proof. intros H Hg. apply table_get_elem in Hg. unfold map_fits in H. rewrite Forall_forall in H. by apply (H _ Hg). Qed.

Lemma of_map_fits d m : map_fits d m -> fits (S d) (of_map (Some m)).
Proof.
  intros H. apply fits_object, Forall_map. eapply Forall_impl; [exact H|]. intros [k c] [Hk Hc]. split; [by apply quote_spec|by apply escaped_fits].
Qed.

Lemma of_list_fits d l : Forall (fits d) l -> fits (S d) (of_list l).
Proof.
  intros H. destruct l as [|x l]; [split; [done|cbn; lia]|]. apply fits_array, Forall_map. eapply Forall_impl; [exact H|]. intros. by apply escaped_fits.
Qed.

Definition printed (m : rmap) : list (list Z * rjson) := map (fun p => (quote p.1, escaped p.2)) m.

Lemma printed_member m n : map_wf m -> clean m n -> member n (printed m) = escaped <$> rget n m.
Proof.
  unfold member, rget. induction m as [|[k c] m IH]; intros Hw Hc; [done|]. apply Forall_cons in Hw as [[Hk _] Hw].
  assert (Hcm : clean m n) by (intros p Hp; apply Hc; by constructor). specialize (IH Hw Hcm).
  cbn [printed map List.find table_get]. unfold matches at 1. cbn [fst snd] in *. rewrite unquote_quote by done.
  destruct (decide (n = k)) as [->|Hne]; [by rewrite !bool_decide_eq_true_2|].
  assert (Hf : fold_name k <> fold_name n) by (intros E; apply Hne; symmetry; apply (Hc (k, c)); [constructor|done]).
  rewrite (bool_decide_eq_false_2 (fold_name k = _)), (bool_decide_eq_false_2 (n = k)) by done.
  exact IH.
Qed.

Lemma printed_once m n : rsorted m -> map_wf m -> clean m n -> once (printed m) n.
Proof.
  unfold once, rsorted. induction m as [|[k c] m IH]; intros Hs Hw Hc; [cbn; lia|]. apply Forall_cons in Hw as [[Hk _] Hw].
  cbn in Hs. inversion_clear Hs as [|? ? Hs' Hlt].
  assert (Hcm : clean m n) by (intros p Hp; apply Hc; by constructor).
  cbn [printed map List.filter]. unfold matches at 1. cbn [fst snd] in *. rewrite unquote_quote by done.
  destruct (fold_name k ==? fold_name n) eqn:E; [|by apply IH]. apply bool_decide_eq_true in E.
  assert (k = n) as -> by (apply (Hc (k, c)); [constructor|done]). cbn [length].
  rewrite filter_none; [cbn; lia|]. apply Forall_map, Forall_forall. intros [k' c'] Hp. unfold matches. cbn [fst].
  unfold map_wf in Hw. rewrite Forall_forall in Hw. rewrite unquote_quote by (by apply (Hw _ Hp)). apply bool_decide_eq_false_2. intros E'.
  assert (k' = n) as -> by (by apply (Hcm (k', c'))). rewrite Forall_forall in Hlt.
  apply (list_elem_of_fmap_2 fst), Hlt, key_lt_neq in Hp. done.
Qed.

(** *** Structs, field by field *)

Definition value_as (o : option rjson) (t : gotype) : option goval := match o with None => Some (zero t) | Some c => decode c t (zero t) end.

Definition fields_as (get : string -> option rjson) (fs : list (string * gotype)) : option goval :=
  VStruct <$> mapM (fun f => pair f.1 <$> value_as (get f.1) f.2) fs.

Lemma zero_names (fs : list (string * gotype)) : (map (fun f => (f.1, zero f.2)) fs).*1 = fs.*1.
Proof. induction fs as [|f fs IH]; [done|]. cbn. by rewrite IH. Qed.

Lemma zero_get fs n t : distinct fs = true -> (n, t) ∈ fs -> get_field n (map (fun f => (f.1, zero f.2)) fs) = Some (zero t).
Proof.
  intros Hd Hin. apply table_get_in; [rewrite zero_names; by apply distinct_names|]. apply list_elem_of_In, in_map_iff.
  exists (n, t). split; [done|]. by apply list_elem_of_In.
Qed.

Lemma decode_once fs m (get : string -> option rjson) : distinct fs = true -> Forall (once m) fs.*1 -> (forall n, n ∈ fs.*1 -> member n m = get n) ->
  decode (RObject m) (TStruct fs) (zero (TStruct fs)) =
  fields_as get fs.
Proof.
  unfold fields_as. intros Hd Ho Hg. cbn [decode zero vfields]. rewrite decode_members_pick by (try done; apply zero_names). f_equal.
  apply mapM_ext_in. intros [n t] Hin. unfold pick. cbn [fst snd]. rewrite (zero_get fs n t) by done. cbn [default from_option]. unfold id.
  rewrite Hg; [done|]. by apply (list_elem_of_fmap_2 fst) in Hin.
Qed.

Lemma decode_object fs m : distinct fs = true -> forallb (exactly m) fs.*1 = true ->
  decode (RObject m) (TStruct fs) (zero (TStruct fs)) = fields_as (fun n => rget n (puts m [])) fs.
Proof.
  intros Hd He. rewrite forallb_forall in He. apply (decode_once fs m (fun n => rget n (puts m []))); [done| |].
  - apply Forall_forall. intros n Hn%list_elem_of_In. by apply exactly_once, He.
  - intros n Hn%list_elem_of_In. rewrite puts_get by (by apply He). by destruct (member n m).
Qed.

Lemma decode_map fs m : distinct fs = true -> rsorted m -> map_wf m -> Forall (clean m) fs.*1 ->
  decode (of_map (Some m)) (TStruct fs) (zero (TStruct fs)) =
  fields_as (fun n => escaped <$> rget n m) fs.
Proof.
  intros Hd Hs Hw Hc. rewrite Forall_forall in Hc. apply (decode_once fs (printed m) (fun n => escaped <$> rget n m)); [done| |].
  - apply Forall_forall. intros n Hn. apply printed_once; auto.
  - intros n Hn. apply printed_member; auto.
Qed.

Lemma two_fields get a ta b tb :
  fields_as get [(a, ta); (b, tb)] = (va ← value_as (get a) ta; vb ← value_as (get b) tb; Some (VStruct [(a, va); (b, vb)])).
Proof. unfold fields_as. cbn. destruct (value_as (get a) ta); [|done]. cbn. by destruct (value_as (get b) tb). Qed.

Lemma one_field get a ta : fields_as get [(a, ta)] = (va ← value_as (get a) ta; Some (VStruct [(a, va)])).
Proof. unfold fields_as. cbn. by destruct (value_as (get a) ta). Qed.

Lemma decode_escaped_zero c t : rwf c -> decode (escaped c) t (zero t) = esc_val <$> decode c t (zero t).
Proof. intros H. rewrite <- (esc_zero t) at 1. by apply decode_escaped. Qed.

Lemma nesting : exists d, maxNestingDepth = S (S (S (S (S (S d))))).
Proof. exists (maxNestingDepth - 6)%nat. vm_compute. reflexivity. Qed.

(** The elements of an array, each from zero. *)
Lemma decode_elements_new t l vs stale :
  decode_elements decode t l [] = Some (vs, stale) <-> Forall2 (fun c v => decode c t (zero t) = Some v) l vs /\ stale = [].
Proof.
  revert vs stale. induction l as [|c l IH]; intros vs stale; cbn [decode_elements tail].
  - split; [by intros [= <- <-]|]. intros [H ->]. by inversion H.
  - split.
    + intros (x & Hx & ([xs st] & H & [= <- <-])%bind_Some)%bind_Some. apply IH in H as [H ->]. split; [by constructor|done].
    + intros [H ->]. inversion H as [|? x ? xs Hx Hxs]; subst. rewrite Hx. cbn [mbind option_bind].
      by rewrite (proj2 (IH xs [])) by done.
Qed.

Lemma slice_list t (o : option rjson) v x l : value_as o (TSlice t) = Some v -> vlist v = x :: l ->
  exists cs, o = Some (RArray cs) /\ Forall2 (fun c v => decode c t (zero t) = Some v) cs (vlist v).
Proof.
  destruct o as [c|]; [|by intros [= <-]]. cbn [value_as zero]. destruct c as [| | | |cs|]; cbn [decode]; try done; [by intros [= <-]|].
  destruct cs as [|c cs]; [by intros [= <-]|]. cbn [backing app]. intros ([vs st] & H & [= <-])%bind_Some _.
  apply decode_elements_new in H as [H _]. by exists (c :: cs).
Qed.

Definition array_or_null (l : list rjson) : rjson := match l with [] => RNull | _ => RArray l end.

Lemma array_out t cs vs : Forall2 (fun c v => decode c t (zero t) = Some v) cs vs ->
  decode (array_or_null cs) (TSlice t) (zero (TSlice t)) = Some (VSlice vs []).
Proof.
  intros H. destruct cs as [|c cs]; [by inversion H|]. cbn [array_or_null decode zero backing app].
  by rewrite (proj2 (decode_elements_new t (c :: cs) vs [])).
Qed.

Lemma escaped_of_list l : escaped (of_list l) = array_or_null (escaped <$> (escaped <$> l)).
Proof. by destruct l. Qed.

Lemma value_escaped o t v : (forall c, o = Some c -> rwf c) -> value_as o t = Some v -> value_as (escaped <$> o) t = Some (esc_val v).
Proof.
  intros Hw. destruct o as [c|]; cbn [value_as fmap option_fmap option_map]; [|intros [= <-]; by rewrite esc_zero].
  intros H. rewrite decode_escaped_zero by auto. by rewrite H.
Qed.

End BodyMaps.
Export BodyMaps.

(** ** Anthropic *)
Module AnthropicBody.

(** A call after two marshallings of its block. *)
Definition esc_call (c : ToolCall) : ToolCall := mkToolCall (tl_ID c) (tl_Name c) ((fun x => escaped (escaped x)) <$> tl_Input c).

Definition unblocked (blocked : gset string) (c : ToolCall) : bool := negb (bool_decide (tl_Name c ∈ blocked)).

Definition block_value (t id name : string) (input : option rjson) : goval :=
  VStruct [("type", VString t); ("id", VString id); ("name", VString name); ("input", VRaw input)].

Lemma block_shape v : typed anthropic_block v -> exists t id name input, v = block_value t id name input /\ ValidString name = true.
Proof. unfold anthropic_block. intros H. open_typed. unfold block_value. do 4 eexists. split; [reflexivity|assumption]. Qed.

Lemma decode_text_block name : decode (text_block name) anthropic_block (zero anthropic_block) = Some (block_value "text" "" "" None).
Proof.
  unfold text_block, anthropic_block at 1. cbn [decode]. rewrite members_skip by (vm_compute; reflexivity).
  erewrite members_take; [|done|vm_compute; reflexivity|cbn [str decode]; rewrite unquote_quote by done; reflexivity]. reflexivity.
Qed.

Lemma text_block_fits d name : ValidString name = true -> fits (S d) (text_block name).
Proof.
  intros H. apply fits_object. repeat (apply Forall_cons_2 || apply Forall_nil_2); apply quoted_fits; try done; apply str_fits; [by apply blocked_text_valid|done].
Qed.

(** A content block after the rewriting. *)
Lemma block_out blocked b v : rwf b -> decode b anthropic_block (zero anthropic_block) = Some v ->
  exists v', decode (escaped (escaped (rewrite_block blocked b).1)) anthropic_block (zero anthropic_block) = Some v' /\
    (rewrite_block blocked b).2 = is_tool_use v' /\ is_tool_use v' = is_tool_use v && unblocked blocked (block_call v) /\
    (is_tool_use v' = true -> block_call v' = esc_call (block_call v)).
Proof.
  intros Hw Hv. assert (Ht : typed anthropic_block v) by (eapply decode_typed; [done| |done]; by apply zero_typed; vm_compute).
  assert (Hi : decode b block_info (zero block_info) = Some (narrow block_info v)).
  { rewrite <- (narrow_zero block_info anthropic_block) by (vm_compute; reflexivity).
    apply (decode_narrow b block_info anthropic_block (zero anthropic_block)); [done|vm_compute; reflexivity|by apply zero_typed; vm_compute|done]. }
  apply block_shape in Ht as (t & id & name & input & -> & Hn).
  assert (Hs : decode (escaped (escaped b)) anthropic_block (zero anthropic_block) = Some (block_value t id name ((fun x => escaped (escaped x)) <$> input))).
  { rewrite decode_escaped_zero by (by apply escaped_wf). rewrite decode_escaped_zero by done. rewrite Hv. by destruct input. }
  unfold rewrite_block. rewrite Hi. change (is_tool_use (narrow block_info (block_value t id name input))) with (t ==? "tool_use").
  change (vstr (field "name" (narrow block_info (block_value t id name input)))) with name.
  unfold unblocked. change (tl_Name (block_call (block_value t id name input))) with name.
  change (is_tool_use (block_value t id name input)) with (t ==? "tool_use").
  destruct ((t ==? "tool_use") && bool_decide (name ∈ blocked)) eqn:E.
  - apply andb_prop in E as [-> ->]. exists (block_value "text" "" "" None). split; [|done].
    assert (Hwf : rwf (text_block name)) by (by apply (text_block_fits 0)).
    cbn [fst]. rewrite decode_escaped_zero by (by apply escaped_wf). rewrite decode_escaped_zero by done. by rewrite decode_text_block.
  - eexists. split; [exact Hs|]. split; [done|]. split; [|done]. change (is_tool_use (block_value _ _ _ _)) with (t ==? "tool_use").
    destruct (t ==? "tool_use"); [|done]. cbn [andb] in E. by rewrite E.
Qed.

Lemma blocks_out blocked l vs : Forall rwf l -> Forall2 (fun c v => decode c anthropic_block (zero anthropic_block) = Some v) l vs ->
  exists vs', Forall2 (fun c v => decode c anthropic_block (zero anthropic_block) = Some v) (escaped <$> (escaped <$> (rewrite_block blocked <$> l).*1)) vs' /\
    block_call <$> List.filter is_tool_use vs' = esc_call <$> List.filter (unblocked blocked) (block_call <$> List.filter is_tool_use vs) /\
    (existsb snd (rewrite_block blocked <$> l) = false -> List.filter is_tool_use vs' = []).
Proof.
  intros Hw HF. induction HF as [|b v l vs Hv HF IH]; [exists []; by repeat split|]. apply Forall_cons in Hw as [Hb Hw].
  destruct (IH Hw) as (vs' & H1 & H2 & H3). destruct (block_out blocked b v Hb Hv) as (v' & D & E1 & E2 & E3).
  exists (v' :: vs'). rewrite !fmap_cons. split; [by constructor|]. cbn [List.filter existsb]. rewrite E1. split.
  - destruct (is_tool_use v); cbn [andb] in E2; [|by rewrite E2]. rewrite fmap_cons. cbn [List.filter]. rewrite <- E2.
    destruct (is_tool_use v'); [|done]. rewrite !fmap_cons, H2, E3; done.
  - intros [Ef ?]%orb_false_elim. rewrite Ef. by apply H3.
Qed.

Definition plain_anthropic (body : list Z) : bool :=
  match scan body with Some (RObject m) => forallb (exactly m) ["stop_reason"; "content"] | _ => true end.

Lemma rewrite_block_fits d blocked b : fits (S d) b -> fits (S d) (rewrite_block blocked b).1.
Proof.
  intros Hb. unfold rewrite_block. destruct (decode b block_info (zero block_info)) as [info|] eqn:E; [|done].
  destruct (_ && _); [|done]. cbn [fst]. apply text_block_fits.
  assert (Ht : typed block_info info) by (eapply decode_typed; [apply Hb| |exact E]; by apply zero_typed; vm_compute).
  unfold block_info in Ht. open_typed. assumption.
Qed.

(** The map of the rewritten response. *)
Definition rewritten_map (blocked : gset string) (bs : list rjson) (mp : rmap) : rmap :=
  let resp := rput "content" (of_list (rewrite_block blocked <$> bs).*1) mp in
  if existsb snd (rewrite_block blocked <$> bs) then resp else rput "stop_reason" (str "end_turn") resp.

Lemma rewritten_map_ok d blocked bs mp : map_fits (S (S d)) mp -> Forall (fits (S d)) bs -> rsorted mp -> Forall (clean mp) ["stop_reason"; "content"] ->
  let mp' := rewritten_map blocked bs mp in map_fits (S (S d)) mp' /\ rsorted mp' /\ Forall (clean mp') ["stop_reason"; "content"] /\
  rget "content" mp' = Some (of_list (rewrite_block blocked <$> bs).*1) /\
  rget "stop_reason" mp' = if existsb snd (rewrite_block blocked <$> bs) then rget "stop_reason" mp else Some (str "end_turn").
Proof.
  intros Hf Hbs Hs Hc.
  assert (Hf1 : map_fits (S (S d)) (rput "content" (of_list (rewrite_block blocked <$> bs).*1) mp)).
  { apply rput_fits; [done| |done]. apply of_list_fits, Forall_fmap, Forall_fmap. eapply Forall_impl; [exact Hbs|]. intros b. apply rewrite_block_fits. }
  assert (Hc1 : forall k v m, k = "content" \/ k = "stop_reason" -> Forall (clean m) ["stop_reason"; "content"] -> Forall (clean (rput k v m)) ["stop_reason"; "content"]).
  { intros k v m Hk Hm. rewrite !Forall_cons in Hm |- *. destruct Hm as (? & ? & _).
    split; [|split; [|done]]; (apply clean_put; [|done]); intros E; destruct Hk as [->| ->]; try done; vm_compute in E; done. }
  unfold rewritten_map. cbv zeta. destruct (existsb snd _); split_and!; rewrite ?rget_put_ne, ?rget_put by done; try done; auto using rput_sorted.
  apply rput_fits; [done|by apply str_fits|done].
Qed.

Lemma anthropic_rewritten blocked body : plain_anthropic body = true -> extractAnthropicToolCalls body <> [] ->
  exists body', rewriteAnthropicResponse body blocked = Some body' /\
    extractAnthropicToolCalls body' = esc_call <$> List.filter (unblocked blocked) (extractAnthropicToolCalls body).
Proof.
  unfold plain_anthropic, extractAnthropicToolCalls at 1 3, rewriteAnthropicResponse, unmarshal. destruct (scan body) as [c|] eqn:Es; [|done].
  cbn [mbind option_bind]. apply scan_fits in Es. destruct nesting as [d0 Hmax]. set (d := S (S (S d0))) in *. change (maxNestingDepth = S (S (S d))) in Hmax.
  clearbody d. rewrite Hmax in Es.
  destruct c as [| | | | |m]; try done. intros Hp. pose proof (puts_fits _ _ Es) as Hf. pose proof (puts_sorted m [] (SSorted_nil _)) as Hs.
  assert (Hc : Forall (clean (puts m [])) ["stop_reason"; "content"]).
  { apply Forall_forall. intros n Hn%list_elem_of_In. apply puts_clean. rewrite forallb_forall in Hp. by apply Hp. }
  pose proof (decode_object [("stop_reason", TString); ("content", TSlice anthropic_block)] m (ltac:(vm_compute; reflexivity)) Hp) as Hdec.
  fold anthropic_response in Hdec. rewrite Hdec, as_map_puts. clear Hdec Es Hp. set (mp := puts m []) in *. cbn [mbind option_bind mget].
  rewrite two_fields. destruct (value_as (rget "stop_reason" mp) TString) as [sv|] eqn:Esv; [|done].
  destruct (value_as (rget "content" mp) (TSlice anthropic_block)) as [cv|] eqn:Ecv; [|done]. cbn [mbind option_bind].
  change (field "stop_reason" (VStruct [("stop_reason", sv); ("content", cv)])) with sv.
  change (field "content" (VStruct [("stop_reason", sv); ("content", cv)])) with cv.
  destruct (vstr sv !=? "tool_use") eqn:Estop; [done|]. intros Hne.
  assert (Hl : exists x l, vlist cv = x :: l) by (destruct (vlist cv); [done|eauto]). destruct Hl as (x & l & Hl).
  destruct (slice_list _ _ _ _ _ Ecv Hl) as (bs & Ebs & HF). rewrite Ebs. cbn [as_list mbind option_bind].
  assert (Hbs : Forall (fits (S d)) bs) by (apply fits_array; by eapply rget_fits).
  destruct (rewritten_map_ok d blocked bs mp Hf Hbs Hs Hc) as (Hf' & Hs' & Hc' & Ec' & Er'). eexists. split; [reflexivity|].
  fold (rewritten_map blocked bs mp). set (mp' := rewritten_map blocked bs mp) in *.
  unfold extractAnthropicToolCalls, unmarshal. rewrite scan_printed by (rewrite Hmax; by apply of_map_fits). cbn [mbind option_bind].
  pose proof (decode_map [("stop_reason", TString); ("content", TSlice anthropic_block)] mp' (ltac:(vm_compute; reflexivity)) Hs' (map_fits_wf _ _ Hf') Hc') as Hdec.
  fold anthropic_response in Hdec. rewrite Hdec, two_fields, Ec', Er'. clear Hdec Ec' Er' Hc' Hs' Hf'.
  destruct (blocks_out blocked bs (vlist cv)) as (vs' & HF' & Hout & Hnone); [by eapply Forall_impl; [exact Hbs|intros ? [? _]]|done|].
  apply array_out in HF'.
  assert (Hcv : value_as (escaped <$> Some (of_list (rewrite_block blocked <$> bs).*1)) (TSlice anthropic_block) = Some (VSlice vs' [])).
  { change (decode (escaped (of_list (rewrite_block blocked <$> bs).*1)) (TSlice anthropic_block) (zero (TSlice anthropic_block)) = Some (VSlice vs' [])).
    rewrite escaped_of_list. exact HF'. }
  rewrite Hcv, <- Hout. clear HF' Hout Hcv.
  destruct (existsb snd (rewrite_block blocked <$> bs)).
  - assert (Hst : value_as (escaped <$> rget "stop_reason" mp) TString = Some (esc_val sv)).
    { apply value_escaped; [|done]. intros sc Hsc. by eapply rget_fits. }
    rewrite Hst. cbn [mbind option_bind]. change (vstr (field "stop_reason" _)) with (vstr (esc_val sv)). rewrite vstr_esc, Estop. reflexivity.
  - rewrite (Hnone eq_refl). reflexivity.
Qed.

End AnthropicBody.
Export AnthropicBody.

(** ** OpenAI *)
Module OpenAIBody.

Definition message_type : gotype := TStruct [("tool_calls", TSlice openai_call)].

Lemma choice_call_esc v : choice_call (esc_val v) = choice_call v.
Proof. unfold choice_call. by rewrite !field_esc, !vstr_esc. Qed.

Lemma choice_calls_esc v : choice_calls (esc_val v) = choice_calls v.
Proof.
  unfold choice_calls. rewrite !field_esc, vstr_esc, vlist_esc. destruct (_ !=? _); [done|].
  induction (vlist _) as [|u l IH]; [done|].
  change (choice_call (esc_val u) :: (choice_call <$> map esc_val l) = choice_call u :: (choice_call <$> l)). by rewrite IH, choice_call_esc.
Qed.

Lemma call_kept blocked tc u : rwf tc -> decode tc openai_call (zero openai_call) = Some u ->
  call_blocked blocked tc = if unblocked blocked (choice_call u) then None else Some (tl_Name (choice_call u)).
Proof.
  intros Hw Hu. assert (Ht : typed openai_call u) by (eapply decode_typed; [done| |done]; by apply zero_typed; vm_compute).
  assert (Hi : decode tc call_info (zero call_info) = Some (narrow call_info u)).
  { rewrite <- (narrow_zero call_info openai_call) by (vm_compute; reflexivity).
    apply (decode_narrow tc call_info openai_call (zero openai_call)); [done|vm_compute; reflexivity|by apply zero_typed; vm_compute|done]. }
  unfold call_blocked, unblocked. rewrite Hi. unfold openai_call, openai_function in Ht. open_typed. cbn [mbind option_bind].
  match goal with |- context [narrow call_info ?u] => change (vstr (field "name" (field "function" (narrow call_info u)))) with (tl_Name (choice_call u)) end.
  by destruct (bool_decide _).
Qed.

Lemma calls_kept blocked l us : Forall rwf l -> Forall2 (fun c v => decode c openai_call (zero openai_call) = Some v) l us ->
  exists us', Forall2 (fun c v => decode c openai_call (zero openai_call) = Some v) (kept_calls blocked l) us' /\
    choice_call <$> us' = List.filter (unblocked blocked) (choice_call <$> us).
Proof.
  intros Hw HF. induction HF as [|c u l us Hc HF IH]; [by exists []|]. apply Forall_cons in Hw as [Hwc Hw].
  destruct (IH Hw) as (us' & H1 & H2). unfold kept_calls. cbn [List.filter]. rewrite (call_kept blocked c u) by done. rewrite fmap_cons. cbn [List.filter].
  destruct (unblocked blocked (choice_call u)); [|by exists us']. exists (u :: us'). split; [by constructor|]. by rewrite fmap_cons, H2.
Qed.

Lemma calls_escaped l us : Forall rwf l -> Forall2 (fun c v => decode c openai_call (zero openai_call) = Some v) l us ->
  Forall2 (fun c v => decode c openai_call (zero openai_call) = Some v) (escaped <$> (escaped <$> l)) (esc_val <$> (esc_val <$> us)) /\
  choice_call <$> (esc_val <$> (esc_val <$> us)) = choice_call <$> us.
Proof.
  intros Hw HF. induction HF as [|c u l us Hc HF IH]; [done|]. apply Forall_cons in Hw as [Hwc Hw]. destruct (IH Hw) as [H1 H2]. rewrite !fmap_cons.
  split; [constructor; [|done]|by rewrite H2, !choice_call_esc].
  rewrite decode_escaped_zero by (by apply escaped_wf). rewrite decode_escaped_zero by done. by rewrite Hc.
Qed.

Lemma kept_all blocked l : length (kept_calls blocked l) = length l -> kept_calls blocked l = l.
Proof.
  unfold kept_calls. set (f := fun tc => _). induction l as [|x l IH]; [done|]. cbn. destruct (f x); cbn; intros H; [f_equal; apply IH; lia|].
  pose proof (filter_length_le f l). lia.
Qed.

Lemma blocked_name_valid blocked tc n : rwf tc -> call_blocked blocked tc = Some n -> ValidString n = true.
Proof.
  intros Hw. unfold call_blocked. destruct (decode tc call_info (zero call_info)) as [info|] eqn:E; [|done]. cbn [mbind option_bind].
  assert (Ht : typed call_info info) by (eapply decode_typed; [done| |exact E]; by apply zero_typed; vm_compute).
  unfold call_info in Ht. open_typed. destruct (bool_decide _); [|done]. by intros [= <-].
Qed.

Lemma slice_calls d mm cv : map_fits (S (S d)) mm -> value_as (rget "tool_calls" mm) (TSlice openai_call) = Some cv ->
  exists l, (match rget "tool_calls" mm with Some l => as_list (Some l) | None => Some [] end) = Some l /\
    Forall2 (fun c v => decode c openai_call (zero openai_call) = Some v) l (vlist cv) /\ Forall (fits (S d)) l.
Proof.
  intros Hf Hv. destruct (vlist cv) as [|u us] eqn:El.
  - destruct (rget "tool_calls" mm) as [c|]; [|by exists []]. cbn [value_as] in Hv.
    destruct c as [| | | |[|x l]|]; cbn [decode zero backing app as_list] in Hv |- *; try done; try (by exists []).
    apply bind_Some in Hv as ([xs st] & H & [= <-]). apply decode_elements_new in H as [H _]. cbn in El. subst xs. by inversion H.
  - destruct (slice_list _ _ _ _ _ Hv El) as (cs & Ecs & HF). rewrite El in HF. rewrite Ecs. exists cs. split; [done|]. split; [done|].
    apply fits_array. by eapply rget_fits.
Qed.

Definition message_ok (d : nat) (mm : rmap) : Prop := map_fits (S (S d)) mm /\ rsorted mm /\ clean mm "tool_calls".

Lemma message_put d k v mm : message_ok d mm -> ValidString k = true -> fits (S (S d)) v -> (fold_name k = fold_name "tool_calls" -> k = "tool_calls") ->
  message_ok d (rput k v mm).
Proof. intros (H1 & H2 & H3) Hk Hv He. split_and!; [by apply rput_fits|by apply rput_sorted|by apply clean_put]. Qed.

Lemma message_delete d k mm : message_ok d mm -> message_ok d (rdelete k mm).
Proof. intros (H1 & H2 & H3). split_and!; [by apply rdelete_fits|by apply rdelete_sorted|by apply clean_delete]. Qed.

Lemma kept_forall (P : rjson -> Prop) blocked l : Forall P l -> Forall P (kept_calls blocked l).
Proof.
  rewrite !Forall_forall. unfold kept_calls. intros H x Hx%list_elem_of_In. apply H, list_elem_of_In. by apply filter_In in Hx as [? _].
Qed.

(** The message after the rewriting: its calls are those that are kept. *)
Definition message_step (d : nat) (blocked : gset string) (cv : goval) (r : rmap * bool) : Prop :=
  message_ok d r.1 /\ exists cv', value_as (escaped <$> rget "tool_calls" r.1) (TSlice openai_call) = Some cv' /\
    choice_call <$> vlist cv' = List.filter (unblocked blocked) (choice_call <$> vlist cv) /\
    (r.2 = true -> List.filter (unblocked blocked) (choice_call <$> vlist cv) = []).

Lemma message_filtered d blocked mm cv l : message_ok d mm -> value_as (rget "tool_calls" mm) (TSlice openai_call) = Some cv ->
  Forall2 (fun c v => decode c openai_call (zero openai_call) = Some v) l (vlist cv) -> Forall (fits (S d)) l ->
  message_step d blocked cv
    (if Nat.ltb (length (kept_calls blocked l)) (length l) then (rput "tool_calls" (of_list (kept_calls blocked l)) mm, false) else (mm, false)).
Proof.
  intros Hm Hcv HF Hl. assert (Hw : Forall rwf l) by (eapply Forall_impl; [exact Hl|]; by intros ? [? _]).
  destruct (calls_kept blocked l _ Hw HF) as (us' & HF' & Hus). destruct (Nat.ltb_spec (length (kept_calls blocked l)) (length l)) as [Hlt|Hge].
  - split; cbn [fst snd].
    { apply message_put; [done|done| |done]. apply of_list_fits. by apply kept_forall. }
    rewrite rget_put. destruct (calls_escaped _ us' (kept_forall _ _ _ Hw) HF') as [HE Hcalls].
    exists (VSlice (esc_val <$> (esc_val <$> us')) []). split; [|split; [by rewrite <- Hus, <- Hcalls|done]].
    change (decode (escaped (of_list (kept_calls blocked l))) (TSlice openai_call) (zero (TSlice openai_call)) = Some (VSlice (esc_val <$> (esc_val <$> us')) [])).
    rewrite escaped_of_list. by apply array_out.
  - split; [done|]. cbn [fst snd]. exists (esc_val cv). split; [|split; [|done]].
    + apply value_escaped; [|done]. intros c Hc. eapply rget_fits; [apply Hm|exact Hc].
    + assert (Ek : kept_calls blocked l = l).
      { apply kept_all. pose proof (filter_length_le (fun tc => match call_blocked blocked tc with None => true | Some _ => false end) l). unfold kept_calls in *. lia. }
      rewrite Ek in HF'. assert (Eu : us' = vlist cv).
      { clear -HF HF'. revert us' HF'. induction HF as [|c u l us Hc HF IH]; intros us' HF'; inversion HF'; subst; [done|]. f_equal; [congruence|auto]. }
      rewrite <- Hus, Eu, vlist_esc. clear. induction (vlist cv) as [|u us IH]; [done|].
      change (choice_call (esc_val u) :: (choice_call <$> map esc_val us) = choice_call u :: (choice_call <$> us)). by rewrite IH, choice_call_esc.
Qed.

Lemma message_out d blocked mm cv l : message_ok d mm -> value_as (rget "tool_calls" mm) (TSlice openai_call) = Some cv ->
  Forall2 (fun c v => decode c openai_call (zero openai_call) = Some v) l (vlist cv) -> Forall (fits (S d)) l ->
  message_step d blocked cv (rewrite_message blocked l mm).
Proof.
  intros Hm Hcv HF Hl. assert (Hw : Forall rwf l) by (eapply Forall_impl; [exact Hl|]; by intros ? [? _]).
  pose proof (message_filtered d blocked mm cv l Hm Hcv HF Hl) as Hfil. destruct (calls_kept blocked l _ Hw HF) as (us' & HF' & Hus).
  unfold rewrite_message. destruct (kept_calls blocked l) as [|x kept] eqn:Ek; [|done].
  destruct (omap (call_blocked blocked) l) as [|n names] eqn:En; [done|]. rewrite <- En. inversion HF'; subst us'.
  split; cbn [fst snd].
  - apply message_delete, message_put; [done|done| |]; [|by vm_compute]. apply str_fits, joined_valid, Forall_fmap, Forall_forall.
    intros n' (tc & Htc & Hb)%list_elem_of_omap. apply blocked_text_valid. rewrite Forall_forall in Hw. by eapply blocked_name_valid; [apply Hw|].
  - rewrite rget_delete. exists (zero (TSlice openai_call)). by split_and!.
Qed.

Definition plain_choice_doc (c : rjson) : bool :=
  match c with
  | RObject m => forallb (exactly m) ["finish_reason"; "message"] &&
                 match member "message" m with Some (RObject mm) => exactly mm "tool_calls" | _ => true end
  | _ => true
  end.

Definition choice_map_ok (d : nat) (ch : rmap) : Prop := map_fits (S (S (S d))) ch /\ rsorted ch /\ Forall (clean ch) ["finish_reason"; "message"].

Lemma choice_put d k v ch : choice_map_ok d ch -> k = "finish_reason" \/ k = "message" -> fits (S (S (S d))) v -> choice_map_ok d (rput k v ch).
Proof.
  intros (H1 & H2 & H3) Hk Hv. rewrite !Forall_cons in H3. destruct H3 as (H3 & H4 & _). split_and!.
  - apply rput_fits; [by destruct Hk as [->| ->]|done..].
  - by apply rput_sorted.
  - repeat (apply Forall_cons_2 || apply Forall_nil_2); (apply clean_put; [|done]); intros E; destruct Hk as [->| ->]; try done; vm_compute in E; done.
Qed.

(** The calls of a choice that was marshalled with its message. *)
Lemma choice_printed d ch fv msg mv : choice_map_ok d ch -> value_as (escaped <$> rget "finish_reason" ch) TString = Some fv ->
  fits (S (S (S d))) msg -> decode msg message_type (zero message_type) = Some mv ->
  exists v', decode (escaped (escaped (of_map (Some (rput "message" msg ch))))) openai_choice (zero openai_choice) = Some v' /\
    choice_calls v' = if vstr fv !=? "tool_calls" then [] else choice_call <$> vlist (field "tool_calls" mv).
Proof.
  intros Hch Hfv Hmsg Hmv. pose proof (choice_put d "message" msg ch Hch (or_intror eq_refl) Hmsg) as (H1 & H2 & H3).
  pose proof (map_fits_wf _ _ H1) as Hw.
  assert (Hdec : decode (of_map (Some (rput "message" msg ch))) openai_choice (zero openai_choice) = Some (VStruct [("finish_reason", fv); ("message", esc_val mv)])).
  { pose proof (decode_map [("finish_reason", TString); ("message", message_type)] _ (ltac:(vm_compute; reflexivity)) H2 Hw H3) as E.
    change (TStruct [("finish_reason", TString); ("message", message_type)]) with openai_choice in E. rewrite E, two_fields, rget_put, rget_put_ne, Hfv by done. cbn [mbind option_bind].
    change (value_as (escaped <$> Some msg) message_type) with (decode (escaped msg) message_type (zero message_type)).
    rewrite decode_escaped_zero by apply Hmsg. by rewrite Hmv. }
  exists (esc_val (esc_val (VStruct [("finish_reason", fv); ("message", esc_val mv)]))). split.
  - rewrite decode_escaped_zero by (by apply escaped_wf, of_map_wf). rewrite decode_escaped_zero by (by apply of_map_wf). by rewrite Hdec.
  - rewrite !choice_calls_esc. unfold choice_calls.
    change (field "finish_reason" (VStruct [("finish_reason", fv); ("message", esc_val mv)])) with fv.
    change (field "message" (VStruct [("finish_reason", fv); ("message", esc_val mv)])) with (esc_val mv).
    destruct (vstr fv !=? "tool_calls"); [done|]. rewrite field_esc, vlist_esc.
    induction (vlist _) as [|u us IH]; [done|].
    change (choice_call (esc_val u) :: (choice_call <$> map esc_val us) = choice_call u :: (choice_call <$> us)). by rewrite IH, choice_call_esc.
Qed.

Definition choice_result (d : nat) (blocked : gset string) (v : goval) (c' : rjson) : Prop :=
  fits (S (S (S (S d)))) c' /\ exists v', decode (escaped (escaped c')) openai_choice (zero openai_choice) = Some v' /\
    choice_calls v' = List.filter (unblocked blocked) (choice_calls v).

Lemma choice_kept d blocked c v : fits (S (S (S (S d)))) c -> decode c openai_choice (zero openai_choice) = Some v -> choice_calls v = [] ->
  choice_result d blocked v c.
Proof.
  intros Hc Hv Hz. split; [done|]. exists (esc_val (esc_val v)). rewrite !choice_calls_esc, Hz. split; [|done].
  rewrite decode_escaped_zero by (apply escaped_wf, Hc). rewrite decode_escaped_zero by apply Hc. by rewrite Hv.
Qed.

Lemma message_decode d mm cv : message_ok d mm -> value_as (escaped <$> rget "tool_calls" mm) (TSlice openai_call) = Some cv ->
  decode (of_map (Some mm)) message_type (zero message_type) = Some (VStruct [("tool_calls", cv)]).
Proof.
  intros (H1 & H2 & H3) Hcv. pose proof (decode_map [("tool_calls", TSlice openai_call)] mm (ltac:(vm_compute; reflexivity)) H2 (map_fits_wf _ _ H1)
    (Forall_cons_2 _ _ _ H3 (Forall_nil_2 _))) as E. fold message_type in E. by rewrite E, one_field, Hcv.
Qed.

Lemma filter_if {A} (f : A -> bool) (b : bool) l : List.filter f (if b then [] else l) = if b then [] else List.filter f l.
Proof. by destruct b. Qed.

Lemma choice_object d blocked m v : fits (S (S (S (S d)))) (RObject m) -> plain_choice_doc (RObject m) = true ->
  decode (RObject m) openai_choice (zero openai_choice) = Some v -> choice_result d blocked v (rewrite_choice blocked (RObject m)).
Proof.
  intros Hf Hp Hv. pose proof (choice_kept d blocked _ _ Hf Hv) as Hkept. cbn [plain_choice_doc] in Hp. apply andb_prop in Hp as [Hp Hpm].
  assert (Hch : choice_map_ok d (puts m [])).
  { split_and!; [by apply puts_fits|apply puts_sorted; constructor|]. apply Forall_forall. intros n Hn%list_elem_of_In.
    apply puts_clean. rewrite forallb_forall in Hp. by apply Hp. }
  assert (Hg : member "message" m = rget "message" (puts m [])).
  { rewrite puts_get; [by destruct (member "message" m)|]. rewrite forallb_forall in Hp. apply Hp. right. by left. }
  rewrite Hg in Hpm. clear Hg. pose proof (decode_object [("finish_reason", TString); ("message", message_type)] m (ltac:(vm_compute; reflexivity)) Hp) as E.
  change (TStruct [("finish_reason", TString); ("message", message_type)]) with openai_choice in E. rewrite E, two_fields in Hv. clear E Hp.
  unfold rewrite_choice in *. rewrite as_map_puts in *. set (ch := puts m []) in *. cbn [mget mbind option_bind].
  destruct (value_as (rget "finish_reason" ch) TString) as [fv|] eqn:Efv; [|done]. destruct (value_as (rget "message" ch) message_type) as [mv|] eqn:Emv; [|done].
  injection Hv as <-. apply value_escaped in Efv as Efv'; [|intros c Hc; eapply rget_fits; [apply Hch|exact Hc]].
  assert (Hcalls : choice_calls (VStruct [("finish_reason", fv); ("message", mv)]) =
    if vstr fv !=? "tool_calls" then [] else choice_call <$> vlist (field "tool_calls" mv)) by done.
  destruct (rget "message" ch) as [msg|] eqn:Emsg.
  2:{ cbn [as_map]. apply Hkept. rewrite Hcalls. cbn in Emv. injection Emv as <-. by destruct (vstr fv !=? _). }
  destruct msg as [| | | | |mm0]; try done.
  - cbn in Emv. injection Emv as <-. cbn [as_map mget mbind option_bind of_map].
    assert (HN : fits (S (S (S d))) RNull) by (split; [done|cbn; lia]). split.
    { apply of_map_fits. destruct (choice_put d "message" RNull ch Hch (or_intror eq_refl) HN) as (? & _). done. }
    destruct (choice_printed d ch _ RNull (zero message_type) Hch Efv' HN) as (v' & Hv' & Hc'); [done|].
    exists v'. split; [exact Hv'|]. rewrite Hc', Hcalls, vstr_esc, filter_if. by destruct (vstr fv !=? _).
  - rewrite as_map_puts. set (mm := puts mm0 []).
    assert (Hm0 : fits (S (S (S d))) (RObject mm0)) by (eapply rget_fits; [apply Hch|exact Emsg]).
    assert (Hmm : message_ok d mm) by (split_and!; [by apply puts_fits|apply puts_sorted; constructor|by apply puts_clean]).
    assert (Hpm' : forallb (exactly mm0) ["tool_calls"] = true) by (cbn; by rewrite Hpm).
    pose proof (decode_object [("tool_calls", TSlice openai_call)] mm0 (ltac:(vm_compute; reflexivity)) Hpm') as E. fold message_type in E.
    cbn [value_as] in Emv. rewrite E, one_field in Emv. clear E Hpm Hpm'. fold mm in Emv.
    destruct (value_as (rget "tool_calls" mm) (TSlice openai_call)) as [cv|] eqn:Ecv; [|done]. injection Emv as <-.
    change (field "tool_calls" (VStruct [("tool_calls", cv)])) with cv in Hcalls.
    destruct (slice_calls d mm cv) as (l & El & HF & Hl); [apply Hmm|done|]. cbn [mget mbind option_bind]. rewrite El.
    destruct (message_out d blocked mm cv l Hmm Ecv HF Hl) as (Hmm' & cv' & Ecv' & Hcv' & Hstop).
    destruct (rewrite_message blocked l mm) as [mm' stop]. cbn [fst snd] in *.
    pose proof (message_decode d mm' cv' Hmm' Ecv') as Hmd. assert (Hmf : fits (S (S (S d))) (of_map (Some mm'))) by (apply of_map_fits, Hmm').
    set (ch' := if stop then rput "finish_reason" (str "stop") ch else ch). assert (Hch' : choice_map_ok d ch').
    { unfold ch'. destruct stop; [|done]. apply choice_put; [done|by left|by apply str_fits]. }
    assert (Hfv' : exists fv', value_as (escaped <$> rget "finish_reason" ch') TString = Some fv' /\ vstr fv' = if stop then "stop" else vstr fv).
    { unfold ch'. destruct stop; [|exists (esc_val fv); by rewrite vstr_esc]. rewrite rget_put. by exists (VString "stop"). }
    destruct Hfv' as (fv' & Hfv' & Efv2). split.
    { apply of_map_fits. by destruct (choice_put d "message" (of_map (Some mm')) ch' Hch' (or_intror eq_refl) Hmf) as (? & _). }
    destruct (choice_printed d ch' fv' (of_map (Some mm')) _ Hch' Hfv' Hmf Hmd) as (v' & Hv' & Hc').
    exists v'. split; [exact Hv'|]. rewrite Hc', Hcalls, Efv2, filter_if. change (field "tool_calls" (VStruct [("tool_calls", cv')])) with cv'. rewrite Hcv'.
    destruct stop; [|done]. rewrite (Hstop eq_refl). by destruct (vstr fv !=? _).
Qed.

Lemma choice_out d blocked c v : fits (S (S (S (S d)))) c -> plain_choice_doc c = true -> decode c openai_choice (zero openai_choice) = Some v ->
  choice_result d blocked v (rewrite_choice blocked c).
Proof.
  intros Hf Hp Hv. destruct c as [| | | | |m]; try done; [|by apply choice_object]. injection Hv as <-. by apply choice_kept.
Qed.

Lemma choices_out d blocked cs vs : Forall (fits (S (S (S (S d))))) cs -> forallb plain_choice_doc cs = true ->
  Forall2 (fun c v => decode c openai_choice (zero openai_choice) = Some v) cs vs ->
  Forall (fits (S (S (S (S d))))) (rewrite_choice blocked <$> cs) /\
  exists vs', Forall2 (fun c v => decode c openai_choice (zero openai_choice) = Some v) (escaped <$> (escaped <$> (rewrite_choice blocked <$> cs))) vs' /\
    vs' ≫= choice_calls = List.filter (unblocked blocked) (vs ≫= choice_calls).
Proof.
  intros Hf Hp HF. induction HF as [|c v cs vs Hc HF IH]; [split; [constructor|by exists []]|].
  apply Forall_cons in Hf as [Hfc Hf]. apply andb_prop in Hp as [Hpc Hp]. destruct (IH Hf Hp) as (H1 & vs' & H2 & H3).
  destruct (choice_out d blocked c v Hfc Hpc Hc) as (H4 & v' & H5 & H6). rewrite !fmap_cons. split; [by constructor|].
  exists (v' :: vs'). split; [by constructor|]. by rewrite !bind_cons, List.filter_app, H3, H6.
Qed.

Definition plain_openai (body : list Z) : bool :=
  match scan body with
  | Some (RObject m) => exactly m "choices" && match member "choices" m with Some (RArray cs) => forallb plain_choice_doc cs | _ => true end
  | _ => true
  end.

Lemma openai_rewritten blocked body : plain_openai body = true -> extractOpenAIToolCalls body <> [] ->
  exists body', rewriteOpenAIResponse body blocked = Some body' /\
    extractOpenAIToolCalls body' = List.filter (unblocked blocked) (extractOpenAIToolCalls body).
Proof.
  unfold plain_openai, extractOpenAIToolCalls at 1 3, rewriteOpenAIResponse, unmarshal. destruct (scan body) as [c|] eqn:Es; [|done].
  cbn [mbind option_bind]. apply scan_fits in Es. destruct nesting as [d Hmax]. rewrite Hmax in Es.
  destruct c as [| | | | |m]; try done. intros [Hp Hpc]%andb_prop.
  pose proof (puts_fits _ _ Es) as Hf. pose proof (puts_sorted m [] (SSorted_nil _)) as Hs. pose proof (puts_clean m _ Hp) as Hc.
  assert (Hg : member "choices" m = rget "choices" (puts m [])) by (rewrite puts_get by done; by destruct (member "choices" m)).
  rewrite Hg in Hpc. clear Hg. assert (Hp' : forallb (exactly m) ["choices"] = true) by (cbn; by rewrite Hp).
  pose proof (decode_object [("choices", TSlice openai_choice)] m (ltac:(vm_compute; reflexivity)) Hp') as E. fold openai_response in E.
  rewrite E, one_field, as_map_puts. clear E Hp Hp' Es. set (mp := puts m []) in *. cbn [mbind option_bind mget].
  destruct (value_as (rget "choices" mp) (TSlice openai_choice)) as [cv|] eqn:Ecv; [|done]. cbn [mbind option_bind].
  change (field "choices" (VStruct [("choices", cv)])) with cv. intros Hne.
  assert (Hl : exists x l, vlist cv = x :: l) by (destruct (vlist cv); [done|eauto]). destruct Hl as (x & l & Hl).
  destruct (slice_list _ _ _ _ _ Ecv Hl) as (cs & Ecs & HF). rewrite Ecs in *. cbn [as_list mbind option_bind].
  assert (Hcs : Forall (fits (S (S (S (S d))))) cs) by (apply fits_array; by eapply rget_fits).
  destruct (choices_out d blocked cs _ Hcs Hpc HF) as (Hcs' & vs' & HF' & Hout). eexists. split; [reflexivity|].
  set (mp' := rput "choices" (of_list (rewrite_choice blocked <$> cs)) mp).
  assert (Hf' : map_fits (S (S (S (S (S d))))) mp') by (apply rput_fits; [done|by apply of_list_fits|done]).
  unfold extractOpenAIToolCalls, unmarshal. rewrite scan_printed by (rewrite Hmax; by apply of_map_fits). cbn [mbind option_bind].
  pose proof (decode_map [("choices", TSlice openai_choice)] mp' (ltac:(vm_compute; reflexivity)) (rput_sorted _ _ _ Hs) (map_fits_wf _ _ Hf')
    (Forall_cons_2 _ _ _ (clean_put _ _ _ _ (fun _ => eq_refl) Hc) (Forall_nil_2 _))) as E. fold openai_response in E.
  rewrite E, one_field. unfold mp'. rewrite rget_put.
  change (value_as (escaped <$> Some (of_list (rewrite_choice blocked <$> cs))) (TSlice openai_choice)) with
    (decode (escaped (of_list (rewrite_choice blocked <$> cs))) (TSlice openai_choice) (zero (TSlice openai_choice))).
  rewrite escaped_of_list, (array_out _ _ vs') by done. cbn [mbind option_bind]. exact Hout.
Qed.

End OpenAIBody.
Export OpenAIBody.

(** ** What is relayed *)
Module Relayed.
Section Relayed.
Context {U : UnicodeCase} {CO : CaseOrbits} {B : TokenBucket}.
Variable clock : nat -> Z.

Definition plain_body (dialect : Dialect) (body : list Z) : bool :=
  match dialect with DialectAnthropic => plain_anthropic body | DialectOpenAI => plain_openai body | DialectUnknown => true end.

(** A call read back from a rewritten response. *)
Definition reprinted (dialect : Dialect) (c : ToolCall) : ToolCall := match dialect with DialectAnthropic => esc_call c | _ => c end.

Definition blocks (evs : list MCPToolCallInterceptedEvent) (name : string) : bool :=
  existsb (fun ev => (ie_Action ev ==? "block") && (ie_ToolName ev ==? name)) evs.

Lemma blocks_cons ev evs n : blocks (ev :: evs) n = true <-> (ie_Action ev = "block" /\ ie_ToolName ev = n) \/ blocks evs n = true.
Proof. unfold blocks. cbn [existsb]. by rewrite orb_true_iff, andb_true_iff, !bool_decide_eq_true. Qed.

Lemma intercept_calls_events now dialect ic calls k :
  let '(evs, blocked, _) := intercept_calls clock now dialect ic calls k in
  (forall n, n ∈ blocked <-> blocks evs n = true) /\ (forall n, blocks evs n = true -> exists c, c ∈ calls /\ tl_Name c = n) /\
  (forall c, c ∈ calls -> Lookup (tl_Name c) (ic_registry ic) = None \/ exists ev, ev ∈ evs /\ ie_ToolName ev = tl_Name c /\ ie_ToolCallID ev = tl_ID c).
Proof.
  revert k. induction calls as [|c calls IH]; intros k; cbn [intercept_calls].
  { split_and!; [|done|by intros ? ?%not_elem_of_nil]. intros n. cbn. set_solver. }
  destruct (Lookup (tl_Name c) (ic_registry ic)) as [entry|] eqn:El.
  - destruct (decide_call clock ic entry c k) as [[[decision reason] cross] k1]. specialize (IH k1).
    destruct (intercept_calls clock now dialect ic calls k1) as [[evs blocked] k2]. destruct IH as (IH1 & IH2 & IH3). split_and!.
    + intros n. rewrite blocks_cons, <- IH1. cbn [ie_Action ie_ToolName]. destruct (pd_Allowed decision); [|set_solver].
      split; [by right|]. by intros [[? _]|?].
    + intros n [[_ <-]|H]%blocks_cons; [exists c; split; [constructor|done]|].
      destruct (IH2 n H) as (c' & ? & ?). exists c'. by split; [constructor|].
    + intros c' [->|Hc]%elem_of_cons; [right; eexists; split; [constructor|done]|].
      destruct (IH3 c' Hc) as [?|(ev & ? & ?)]; [by left|right]. exists ev. by split; [constructor|].
  - specialize (IH k). destruct (intercept_calls clock now dialect ic calls k) as [[evs blocked] k2]. destruct IH as (IH1 & IH2 & IH3). split_and!; [done| |].
    + intros n H. destruct (IH2 n H) as (c' & ? & ?). exists c'. by split; [constructor|].
    + intros c' [->|Hc]%elem_of_cons; [by left|by apply IH3].
Qed.

Lemma rewritten_calls dialect blocked body : plain_body dialect body = true -> ExtractToolCalls body dialect <> [] ->
  exists body', match dialect with
                | DialectAnthropic => rewriteAnthropicResponse body blocked
                | DialectOpenAI => rewriteOpenAIResponse body blocked
                | DialectUnknown => None
                end = Some body' /\
    ExtractToolCalls body' dialect = reprinted dialect <$> List.filter (unblocked blocked) (ExtractToolCalls body dialect).
Proof.
  destruct dialect; [done|apply anthropic_rewritten|]. intros Hp Hc. destruct (openai_rewritten blocked body Hp Hc) as (body' & ? & E).
  exists body'. split; [done|]. cbn [ExtractToolCalls reprinted]. rewrite E. symmetry. apply list_fmap_id.
Qed.


End Relayed.
End Relayed.
Export Relayed.

(** ** Samples *)
Module BodySamples.

#[local] Existing Instances latin_case ascii_orbits counting_bucket.

Definition anthropic_body (stop : string) : list Z :=
  json ("{'id':'m','content':[{'type':'text','text':'<ok>'},{'type':'tool_use','id':'t1','name':'delete_file','input':{}}," +:+
        "{'type':'tool_use','id':'t2','name':'read_file','input':{'path':'a'}}],'stop_reason':'" +:+ stop +:+ "'}").

Definition openai_body (finish : string) : list Z :=
  json ("{'choices':[{'index':0,'message':{'content':null,'tool_calls':[{'id':'t1','function':{'name':'delete_file','arguments':'{}'}}]},'finish_reason':'" +:+
        finish +:+ "'}]}").

Definition relayed (ic : Interceptor) (k : checks) (dialect : Dialect) (body : list Z) : list Z * list (string * string) :=
  (relayed_body sample_clock true body dialect ic k,
   (fun ev => (ie_ToolCallID ev, ie_Action ev)) <$> ir_Events (interceptMCPToolCalls sample_clock body dialect ic k).1).

Example relayed_samples :
  (let '(b, evs) := relayed sample_ic sample_checks DialectAnthropic (anthropic_body "tool_use") in (tl_ID <$> ExtractToolCalls b DialectAnthropic, evs)) =
    (["t2"], [("t1", "block"); ("t2", "allow")]) /\
  relayed sample_ic sample_checks DialectOpenAI (openai_body "tool_calls") =
    (json "{'choices':[{'finish_reason':'stop','index':0,'message':{'content':'[aep-caw] Tool " ++ [39] ++ json "delete_file" ++ [39] ++
     json " blocked by policy'}}]}", [("t1", "block")]).
Proof. vm_compute. split; reflexivity. Qed.


(** A response that ends for another reason is not looked at, whatever calls it holds. *)
Example other_stop_reason_passes :
  relayed sample_ic sample_checks DialectAnthropic (anthropic_body "max_tokens") = (anthropic_body "max_tokens", []) /\
  relayed sample_ic sample_checks DialectOpenAI (openai_body "stop") = (openai_body "stop", []).
Proof. vm_compute. split; reflexivity. Qed.

(** A field under another case is decoded but not rewritten: the call is blocked and relayed. *)
Definition capital_body : list Z :=
  json "{'Content':[{'type':'tool_use','id':'t1','name':'delete_file','input':{}}],'stop_reason':'tool_use'}".

Example capital_content_relayed : relayed sample_ic sample_checks DialectAnthropic capital_body = (capital_body, [("t1", "block")]).
Proof. vm_compute. reflexivity. Qed.

(** One block with a field of another type turns the inspection off. *)
Definition odd_body : list Z :=
  json ("{'content':[{'type':'tool_use','id':'t1','name':'delete_file','input':{}},{'type':'search_result','id':7}],'stop_reason':'tool_use'}").

Example odd_block_passes : relayed sample_ic sample_checks DialectAnthropic odd_body = (odd_body, []).
Proof. vm_compute. reflexivity. Qed.

(** Calls are removed by name: with one token left, the second of two calls is blocked and both go. *)
Definition one_token : checks := mkChecks None (Some (NewRateLimiterRegistry (mkLimits true 60 1 ∅))) 0.
Definition twice_body : list Z :=
  json ("{'content':[{'type':'tool_use','id':'t1','name':'read_file'},{'type':'tool_use','id':'t2','name':'read_file'}],'stop_reason':'tool_use'}").

Example allowed_call_removed :
  (let '(b, evs) := relayed sample_ic one_token DialectAnthropic twice_body in (ExtractToolCalls b DialectAnthropic, evs)) =
  ([], [("t1", "allow"); ("t2", "block")]).
Proof. vm_compute. reflexivity. Qed.

(** The analyzer alone does not turn interception on. *)
Example analyzer_alone_is_off : forall a n, hasInterception (mkInterceptor sample_registry None None "s1" "r1") (mkChecks (Some a) None n) = false.
Proof. reflexivity. Qed.

End BodySamples.
