(* ===== verification/McpTheorems.v ===== *)
(** * Tools of MCP servers: theorems

    [NameDistance]: [levenshtein] against chains of single edits.  [WindowHistory]: the pruned windows
    of [SessionAnalyzer] against the whole history.  [SessionTools]: the registry of a session with its
    analyzer, and tools taken over by another server. *)

From Stdlib Require Import ZArith Lia Ascii String Sorted.
From stdpp Require Import base list strings gmap sets sorting.
From S2P Require Import Prelude GoText GoNet GoStrings PolicyModel PolicyEngine NetGuards NetAcl Mcp.
Open Scope string_scope.
Open Scope list_scope.
Open Scope Z_scope.

(** ** Distances of names *)
Module NameDistance.

(** One byte inserted, removed or replaced. *)
Inductive one_edit : list Z -> list Z -> Prop :=
| edit_insert l1 x l2 : one_edit (l1 ++ l2) (l1 ++ x :: l2)
| edit_remove l1 x l2 : one_edit (l1 ++ x :: l2) (l1 ++ l2)
| edit_replace l1 x y l2 : one_edit (l1 ++ x :: l2) (l1 ++ y :: l2).

Inductive edits : nat -> list Z -> list Z -> Prop :=
| edits_none l : edits 0 l l
| edits_step n a b c : one_edit a b -> edits n b c -> edits (S n) a c.

(** The distance of two texts by their last bytes, as the table has it; the texts are reversed. *)
Fixpoint dist (a : list Z) : list Z -> Z :=
  match a with
  | [] => fun b => Z.of_nat (length b)
  | x :: a' =>
    fix go (b : list Z) : Z :=
      match b with
      | [] => Z.of_nat (length (x :: a'))
      | y :: b' => Z.min (Z.min (dist a' (y :: b') + 1) (go b' + 1)) (dist a' b' + (if x =? y then 0 else 1))
      end
  end.

Lemma dist_nil_r a : dist a [] = Z.of_nat (length a).
Proof. by destruct a. Qed.

Lemma dist_cons x a y b :
  dist (x :: a) (y :: b) = Z.min (Z.min (dist a (y :: b) + 1) (dist (x :: a) b + 1)) (dist a b + (if x =? y then 0 else 1)).
Proof. done. Qed.

Lemma dist_pos a b : 0 <= dist a b.
Proof.
  revert b. induction a as [|x a IH]; intros b; [cbn; lia|]. induction b as [|y b IHb]; [cbn; lia|]. rewrite dist_cons.
  pose proof (IH b). pose proof (IH (y :: b)). destruct (x =? y); lia.
Qed.

(** *** The table *)

(** The row of a prefix of the first text, from a column of the second on. *)
Fixpoint row (ra rb b : list Z) : list Z := match b with [] => [] | y :: b' => dist ra (y :: rb) :: row ra (y :: rb) b' end.

Lemma min_if a b : (if b <? a then b else a) = Z.min a b.
Proof. destruct (Z.ltb_spec b a); lia. Qed.

Lemma next_row_row x ra b rb : next_row x b (row ra rb b) (dist ra rb) (dist (x :: ra) rb) = row (x :: ra) rb b.
Proof.
  revert rb. induction b as [|y b IH]; intros rb; [done|]. cbn [row next_row].
  assert (E : (let m := dist ra (y :: rb) + 1 in let m := if dist (x :: ra) rb + 1 <? m then dist (x :: ra) rb + 1 else m in
               if dist ra rb + (if x =? y then 0 else 1) <? m then dist ra rb + (if x =? y then 0 else 1) else m) = dist (x :: ra) (y :: rb)).
  { cbv zeta. by rewrite !min_if, dist_cons. }
  cbv zeta in E. rewrite E. by rewrite IH.
Qed.

Lemma rows_dist a ra b : rows a (Z.of_nat (length ra) + 1) b (dist ra [] :: row ra [] b) = dist (rev a ++ ra) [] :: row (rev a ++ ra) [] b.
Proof.
  revert ra. induction a as [|x a IH]; intros ra; [done|]. cbn [rows].
  assert (E : Z.of_nat (length ra) + 1 = dist (x :: ra) []) by (cbn; lia). rewrite E at 2 3. rewrite next_row_row.
  replace (Z.of_nat (length ra) + 1 + 1) with (Z.of_nat (length (x :: ra)) + 1) by (cbn; lia). rewrite IH. cbn [rev]. by rewrite <- app_assoc.
Qed.

Lemma first_row b rb : Z.of_nat <$> seq (S (length rb)) (length b) = row [] rb b.
Proof. revert rb. induction b as [|y b IH]; intros rb; [done|]. cbn [length seq row]. rewrite fmap_cons. f_equal. apply (IH (y :: rb)). Qed.

Lemma row_last ra rb b d : List.last (dist ra rb :: row ra rb b) d = dist ra (rev b ++ rb).
Proof.
  revert rb. induction b as [|y b IH]; intros rb; [done|]. cbn [row rev].
  change (List.last (dist ra rb :: dist ra (y :: rb) :: row ra (y :: rb) b) d) with (List.last (dist ra (y :: rb) :: row ra (y :: rb) b) d).
  rewrite IH. by rewrite <- app_assoc.
Qed.

Lemma levenshtein_dist s t : levenshtein s t = dist (rev (string_bytes s)) (rev (string_bytes t)).
Proof.
  unfold levenshtein. set (a := string_bytes s). set (b := string_bytes t). destruct (Z.eqb_spec (Z.of_nat (length a)) 0) as [Ha|Ha].
  { destruct a; [|cbn in Ha; lia]. cbn. by rewrite length_rev. }
  destruct (Z.eqb_spec (Z.of_nat (length b)) 0) as [Hb|Hb].
  { destruct b; [|cbn in Hb; lia]. cbn [rev]. by rewrite dist_nil_r, length_rev. }
  change (seq 0 (S (length b))) with (0%nat :: seq 1 (length b)). rewrite fmap_cons. pose proof (first_row b []) as Hrow. cbn [length] in Hrow. rewrite Hrow.
  change (Z.of_nat 0) with (dist [] []). change 1 with (Z.of_nat (length ([] : list Z)) + 1) at 1. rewrite rows_dist, !app_nil_r.
  rewrite row_last. by rewrite app_nil_r.
Qed.

(** *** Edits and the distance *)

Lemma dist_remove_l x a b : dist (x :: a) b <= dist a b + 1.
Proof. destruct b as [|y b]; [rewrite !dist_nil_r; cbn [length]; lia|]. rewrite dist_cons. lia. Qed.

Lemma dist_add a y b : dist a (y :: b) <= dist a b + 1.
Proof. destruct a as [|x a]; [cbn; lia|]. rewrite dist_cons. lia. Qed.

Lemma dist_drop a y b : dist a b <= dist a (y :: b) + 1.
Proof.
  induction a as [|x a IH]; [cbn; lia|]. rewrite dist_cons. pose proof (dist_remove_l x a b). destruct (x =? y); lia.
Qed.

Lemma dist_replace a y y' b : dist a (y :: b) <= dist a (y' :: b) + 1.
Proof. induction a as [|x a IH]; [cbn; lia|]. rewrite !dist_cons. destruct (x =? y), (x =? y'); lia. Qed.

Lemma dist_cong b c : (forall a, dist a c <= dist a b + 1) -> forall y a, dist a (y :: c) <= dist a (y :: b) + 1.
Proof.
  intros H y a. induction a as [|x a IH]; [specialize (H []); cbn in *; lia|]. rewrite !dist_cons.
  pose proof (H a). pose proof (H (x :: a)). destruct (x =? y); lia.
Qed.

Lemma dist_edit b c : one_edit b c -> forall a, dist a c <= dist a b + 1.
Proof.
  intros [l1 x l2|l1 x l2|l1 x y l2]; induction l1 as [|z l1 IH]; cbn [app]; try (apply dist_cong, IH); intros a;
    [apply dist_add|apply dist_drop|apply dist_replace].
Qed.

Lemma dist_refl a : dist a a = 0.
Proof. induction a as [|x a IH]; [done|]. rewrite dist_cons, Z.eqb_refl, IH. pose proof (dist_pos a (x :: a)). pose proof (dist_pos (x :: a) a). lia. Qed.

Lemma dist_edits n a b : edits n a b -> dist a b <= Z.of_nat n.
Proof.
  intros H. cut (forall c, dist c b <= dist c a + Z.of_nat n); [intros Hc; specialize (Hc a); rewrite dist_refl in Hc; lia|].
  induction H as [l|n a b c H1 H2 IH]; intros d; [lia|]. pose proof (dist_edit _ _ H1 d). specialize (IH d). lia.
Qed.

Lemma edits_app n m a b c : edits n a b -> edits m b c -> edits (n + m) a c.
Proof. induction 1 as [|n a b c' H1 H2 IH]; intros H; [done|]. cbn. econstructor; [exact H1|auto]. Qed.

Lemma one_edit_cons z a b : one_edit a b -> one_edit (z :: a) (z :: b).
Proof. intros [l1 x l2|l1 x l2|l1 x y l2]; [apply (edit_insert (z :: l1))|apply (edit_remove (z :: l1))|apply (edit_replace (z :: l1))]. Qed.

Lemma edits_cons z n a b : edits n a b -> edits n (z :: a) (z :: b).
Proof. induction 1 as [|n a b c H1 H2 IH]; [constructor|]. econstructor; [by apply one_edit_cons|done]. Qed.

Lemma edits_insert_all b : edits (length b) [] b.
Proof. induction b as [|y b IH]; [constructor|]. cbn [length]. econstructor; [apply (edit_insert [] y [])|]. by apply edits_cons. Qed.

Lemma edits_remove_all a : edits (length a) a [].
Proof. induction a as [|x a IH]; [constructor|]. cbn [length]. econstructor; [apply (edit_remove [] x a)|]. exact IH. Qed.

Lemma dist_achieved a b : edits (Z.to_nat (dist a b)) a b.
Proof.
  revert b. induction a as [|x a IH]; intros b; [cbn; rewrite Nat2Z.id; apply edits_insert_all|].
  induction b as [|y b IHb]; [rewrite dist_nil_r, Nat2Z.id; apply edits_remove_all|]. rewrite dist_cons.
  pose proof (dist_pos a (y :: b)). pose proof (dist_pos (x :: a) b). pose proof (dist_pos a b).
  destruct (Z.min_spec (Z.min (dist a (y :: b) + 1) (dist (x :: a) b + 1)) (dist a b + (if x =? y then 0 else 1))) as [[_ ->]|[_ ->]].
  - destruct (Z.min_spec (dist a (y :: b) + 1) (dist (x :: a) b + 1)) as [[_ ->]|[_ ->]].
    + replace (Z.to_nat (dist a (y :: b) + 1)) with (S (Z.to_nat (dist a (y :: b)))) by lia. econstructor; [apply (edit_remove [] x a)|apply IH].
    + replace (Z.to_nat (dist (x :: a) b + 1)) with (Z.to_nat (dist (x :: a) b) + 1)%nat by lia. eapply edits_app; [exact IHb|].
      econstructor; [apply (edit_insert [] y b)|constructor].
  - destruct (Z.eqb_spec x y) as [->|Hxy].
    + rewrite Z.add_0_r. by apply edits_cons.
    + replace (Z.to_nat (dist a b + 1)) with (S (Z.to_nat (dist a b))) by lia. econstructor; [apply (edit_replace [] x y a)|]. by apply edits_cons.
Qed.

Lemma one_edit_rev a b : one_edit a b -> one_edit (rev a) (rev b).
Proof.
  intros [l1 x l2|l1 x l2|l1 x y l2]; rewrite !rev_app_distr; cbn [rev]; rewrite <- !app_assoc; cbn [app];
    [apply edit_insert|apply edit_remove|apply edit_replace].
Qed.

Lemma edits_rev n a b : edits n a b -> edits n (rev a) (rev b).
Proof. induction 1 as [|n a b c H1 H2 IH]; [constructor|]. econstructor; [by apply one_edit_rev|done]. Qed.

(** [levenshtein] is the edit distance.  One text becomes the other by that many insertions,
    removals and replacements of single bytes, and by no fewer. *)
Theorem levenshtein_exact s t :
  0 <= levenshtein s t /\ edits (Z.to_nat (levenshtein s t)) (string_bytes s) (string_bytes t) /\
  forall n, edits n (string_bytes s) (string_bytes t) -> levenshtein s t <= Z.of_nat n.
Proof.
  rewrite levenshtein_dist. split_and!; [apply dist_pos| |].
  - rewrite <- (rev_involutive (string_bytes s)), <- (rev_involutive (string_bytes t)) at 2. apply edits_rev, dist_achieved.
  - intros n H. by apply dist_edits, edits_rev.
Qed.

Example levenshtein_examples : levenshtein "github" "githuh" = 1 /\ levenshtein "kitten" "sitting" = 3 /\ levenshtein "" "ab" = 2.
Proof. vm_compute. split_and!; reflexivity. Qed.

End NameDistance.
Export NameDistance.

(** ** Windows and the whole history *)
Module WindowHistory.
Section History.
Context {U : UnicodeCase}.
Variable cfg : CrossServerConfig.

(** What an analyzer would remember if it forgot nothing: the calls it recorded, the times of the
    calls it counted for bursts, and the tools taken over. *)
Record history : Type := mkHistory {
  hi_active : bool; hi_calls : list ToolCallRecord; hi_counted : gmap string (list Z); hi_shadows : gmap string shadowInfo
}.

Definition no_history : history := mkHistory false [] ∅ ∅.

Definition since (cutoff : Z) (r : ToolCallRecord) : bool := cutoff <=? tc_Timestamp r.

(** The last call of a window that a condition accepts. *)
Definition last_call (cutoff : Z) (accept : ToolCallRecord -> bool) (h : history) : option ToolCallRecord :=
  List.find accept (rev (List.filter (since cutoff) (hi_calls h))).

Definition calls_since (cutoff : Z) (serverID : string) (h : history) : Z :=
  Z.of_nat (length (List.filter (fun t => cutoff <=? t) (default [] (hi_counted h !! serverID)))).

(** The rules, each on the whole history. *)
Definition shadow_rule (tool : string) (h : history) : option CrossServerDecision :=
  if default false (cs_Shadow_Enabled cfg) then
    info ← hi_shadows h !! tool;
    Some (mkCrossDecision true "shadow_tool" (Shadowed tool (sh_Original info) (sh_New info)) "critical" [])
  else None.

Definition counts_bursts : bool := cs_Burst_Enabled cfg && (0 <? cs_Burst_MaxCalls cfg).

Definition burst_rule (server : string) (now : Z) (h : history) : option CrossServerDecision :=
  let n := calls_since (now - cs_Burst_Window cfg) server h + 1 in
  if counts_bursts && (cs_Burst_MaxCalls cfg <=? n) then Some (mkCrossDecision true "burst" (BurstExceeded server n (cs_Burst_Window cfg)) "high" []) else None.

Definition read_rule (server tool : string) (now : Z) (h : history) : option CrossServerDecision :=
  if cs_Read_Enabled cfg && (Classify tool ==? CategorySend) then
    r ← last_call (now - cs_Read_Window cfg) (allowed_read_elsewhere server) h;
    Some (mkCrossDecision true "read_then_send" (SendAfterRead server (tc_ServerID r) (now - tc_Timestamp r)) "critical" [r])
  else None.

Definition flow_rule (server tool request : string) (now : Z) (h : history) : option CrossServerDecision :=
  if cs_Flow_Enabled cfg && isSuspiciousCategory (Classify tool) then
    let same := default false (cs_Flow_SameTurnOnly cfg) in
    r ← last_call (now - cs_Flow_Window cfg)
          (fun r => allowed_read_elsewhere server r && negb (same && (tc_RequestID r !=? request))) h;
    Some (mkCrossDecision true "cross_server_flow" (CrossFlow (tc_ServerID r) server) "high" [r])
  else None.

(** A call: the first rule that fires, and the history with the call. *)
Definition history_check (now : Z) (server tool id request : string) (h : history) : option CrossServerDecision * history :=
  if negb (cs_Enabled cfg) then (None, h)
  else
    let shadow := shadow_rule tool h in
    if negb (hi_active h) then (shadow, h)
    else
      let dec := match shadow with Some d => Some d | None =>
                 match burst_rule server now h with Some d => Some d | None =>
                 match read_rule server tool now h with Some d => Some d | None => flow_rule server tool request now h end end end in
      let action := match dec with Some _ => "block" | None => "allow" end in
      let counted := match shadow with Some _ => false | None => counts_bursts end in
      (dec, mkHistory true (hi_calls h ++ [mkCall now server tool id request action (Classify tool)])
              (if counted then <[server := default [] (hi_counted h !! server) ++ [now]]> (hi_counted h) else hi_counted h) (hi_shadows h)).

(** What happens to an analyzer. *)
Inductive happening : Type :=
| Checked (now : Z) (server tool id request : string)
| Marked (server tool id request : string)
| Overwritten (tool old new : string)
| Cleared (tool : string)
| Activated.

Definition analyzer_step (e : happening) (a : SessionAnalyzer) : list (option CrossServerDecision) * SessionAnalyzer :=
  match e with
  | Checked now server tool id request => let '(d, _, a) := CheckAndRecord now server tool id request a in ([d], a)
  | Marked server tool id request => ([], MarkBlocked server tool id request a)
  | Overwritten tool old new => ([], NotifyOverwrite tool old new a)
  | Cleared tool => ([], ClearShadow tool a)
  | Activated => ([], Activate a)
  end.

Definition history_step (e : happening) (h : history) : list (option CrossServerDecision) * history :=
  match e with
  | Checked now server tool id request => let '(d, h) := history_check now server tool id request h in ([d], h)
  | Marked server tool id request =>
    ([], mkHistory (hi_active h) (rev (mark_first (same_call server tool id request) (rev (hi_calls h)))) (hi_counted h) (hi_shadows h))
  | Overwritten tool old new => ([], mkHistory (hi_active h) (hi_calls h) (hi_counted h) (<[tool := mkShadow old new]> (hi_shadows h)))
  | Cleared tool => ([], mkHistory (hi_active h) (hi_calls h) (hi_counted h) (delete tool (hi_shadows h)))
  | Activated => ([], mkHistory true (hi_calls h) (hi_counted h) (hi_shadows h))
  end.

Section Run.
Context {S : Type} (step : happening -> S -> list (option CrossServerDecision) * S).

Fixpoint decisions (es : list happening) (s : S) : list (option CrossServerDecision) :=
  match es with [] => [] | e :: es' => let '(ds, s) := step e s in ds ++ decisions es' s end.

End Run.

(** The clock does not go back, and no more calls than the window holds fall into its time. *)
Fixpoint calm (t : Z) (es : list happening) (h : history) : bool :=
  match es with
  | [] => true
  | e :: es' =>
    let h' := (history_step e h).2 in
    match e with
    | Checked now _ _ _ _ =>
      (t <=? now) && Nat.leb (length (List.filter (since (now - computeMaxWindow cfg)) (hi_calls h'))) maxWindowEntries && calm now es' h'
    | _ => calm t es' h'
    end
  end.

(** *** Windows *)

Lemma computeMaxWindow_ge : cs_Read_Window cfg <= computeMaxWindow cfg /\ cs_Burst_Window cfg <= computeMaxWindow cfg /\
  cs_Flow_Window cfg <= computeMaxWindow cfg.
Proof.
  unfold computeMaxWindow. cbv zeta. destruct (Z.ltb_spec (cs_Read_Window cfg) (cs_Burst_Window cfg));
    match goal with |- context [?a <? ?b] => destruct (Z.ltb_spec a b) end; match goal with |- context [?a =? 0] => destruct (Z.eqb_spec a 0) end; lia.
Qed.

Definition in_order (l : list ToolCallRecord) : Prop := StronglySorted Z.le (tc_Timestamp <$> l).

Lemma since_false cutoff r : since cutoff r = false <-> tc_Timestamp r < cutoff.
Proof. unfold since. rewrite Z.leb_gt. lia. Qed.

Lemma since_none cutoff l : (forall x, x ∈ l -> tc_Timestamp x < cutoff) -> List.filter (since cutoff) l = [].
Proof.
  induction l as [|x l IH]; intros H; [done|]. cbn. rewrite (proj2 (since_false cutoff x)) by (apply H; constructor).
  apply IH. intros y Hy. apply H. by constructor.
Qed.

Lemma since_all cutoff l : (forall x, x ∈ l -> cutoff <= tc_Timestamp x) -> List.filter (since cutoff) l = l.
Proof.
  induction l as [|x l IH]; intros H; [done|]. cbn. assert (E : since cutoff x = true) by (unfold since; apply Z.leb_le, H; constructor).
  rewrite E, IH; [done|]. intros y Hy. apply H. by constructor.
Qed.

(** The loop from the end stops where the window ends. *)
Lemma find_recent_window cutoff accept l : in_order l -> find_recent cutoff accept (rev l) = List.find accept (rev (List.filter (since cutoff) l)).
Proof.
  induction l as [|r l IH] using rev_ind; intros Ho; [done|]. rewrite rev_app_distr, List.filter_app. cbn [rev app List.filter].
  unfold in_order in Ho. rewrite fmap_app in Ho. apply StronglySorted_app in Ho as (Hr & Hl & _).
  assert (Hold : forall x, x ∈ l -> tc_Timestamp x <= tc_Timestamp r).
  { intros x Hx. apply Hr; [by apply list_elem_of_fmap_2|]. cbn. constructor. }
  cbn [find_recent]. destruct (Z.ltb_spec (tc_Timestamp r) cutoff) as [Hlt|Hge].
  - assert (E : since cutoff r = false) by (by apply since_false). rewrite E, app_nil_r.
    assert (En : List.filter (since cutoff) l = []); [|by rewrite En].
    apply since_none. intros x Hx. specialize (Hold x Hx). lia.
  - assert (E : since cutoff r = true) by (unfold since; lia). rewrite E, rev_app_distr. cbn [rev app List.find].
    destruct (accept r); [done|]. by apply IH.
Qed.

(** Pruning drops what is too old, and no more in calm times. *)
Lemma drop_old_spec cutoff l : in_order l ->
  exists old, l = old ++ drop_old cutoff l /\ (forall x, x ∈ old -> tc_Timestamp x < cutoff) /\ drop_old cutoff l = List.filter (since cutoff) l.
Proof.
  unfold in_order. induction l as [|r l IH]; intros Ho; [by exists []; split_and!; [|intros ? ?%not_elem_of_nil|]|].
  rewrite fmap_cons in Ho. inversion_clear Ho as [|? ? Hs Hr]. cbn [drop_old List.filter]. destruct (Z.ltb_spec (tc_Timestamp r) cutoff) as [Hlt|Hge].
  - destruct (IH Hs) as (old & E & Hold & Ef). exists (r :: old). rewrite (proj2 (since_false cutoff r)) by done.
    split; [cbn; by rewrite <- E|]. split; [|done]. intros x [->|Hx]%elem_of_cons; auto.
  - exists []. split; [done|]. split; [by intros ? ?%not_elem_of_nil|]. assert (E : since cutoff r = true) by (unfold since; lia). rewrite E.
    rewrite since_all; [done|]. intros x Hx. rewrite Forall_forall in Hr. specialize (Hr (tc_Timestamp x)).
    apply Z.le_trans with (tc_Timestamp r); [lia|]. apply Hr. by apply list_elem_of_fmap_2.
Qed.

Lemma mark_first_times same l : tc_Timestamp <$> mark_first same l = tc_Timestamp <$> l.
Proof.
  induction l as [|r l IH]; [done|]. cbn [mark_first]. destruct (tc_Action r !=? "allow"); [by rewrite !fmap_cons, IH|].
  destruct (same r); [done|]. by rewrite !fmap_cons, IH.
Qed.

Lemma mark_first_app same l1 l2 : exists l2', mark_first same (l1 ++ l2) = mark_first same l1 ++ l2' /\ (tc_Timestamp <$> l2') = (tc_Timestamp <$> l2).
Proof.
  induction l1 as [|r l1 IH]; cbn [app mark_first]; [exists (mark_first same l2); by rewrite mark_first_times|].
  destruct IH as (l2' & E & Ht). destruct (tc_Action r !=? "allow"); [exists l2'; by rewrite E|].
  destruct (same r); [by exists l2|]. exists l2'. by rewrite E.
Qed.

(** *** The analyzer follows the history *)

Definition counted_since (cutoff : Z) (m : gmap string (list Z)) (server : string) : list Z :=
  List.filter (fun t => cutoff <=? t) (default [] (m !! server)).

(** At time [t]: the window is the end of the history, and what went before is too old. *)
Definition follows (t : Z) (w : list ToolCallRecord) (calls : list ToolCallRecord) : Prop :=
  in_order calls /\ (forall x, x ∈ calls -> tc_Timestamp x <= t) /\
  exists old, calls = old ++ w /\ forall x, x ∈ old -> tc_Timestamp x < t - computeMaxWindow cfg.

Definition sim (t : Z) (a : SessionAnalyzer) (h : history) : Prop :=
  an_cfg a = cfg /\ an_active a = hi_active h /\ an_shadows a = hi_shadows h /\
  if hi_active h then
    an_maxWindow a = computeMaxWindow cfg /\ follows t (an_window a) (hi_calls h) /\
    forall server, counted_since (t - cs_Burst_Window cfg) (an_bursts a) server = counted_since (t - cs_Burst_Window cfg) (hi_counted h) server
  else hi_calls h = [] /\ hi_counted h = ∅.

Lemma filter_filter_le t now l : t <= now -> List.filter (fun x => now <=? x) (List.filter (fun x => t <=? x) l) = List.filter (fun x => now <=? x) l.
Proof.
  intros H. induction l as [|x l IH]; [done|]. cbn. destruct (Z.leb_spec t x); cbn; [by rewrite IH|].
  rewrite IH. destruct (Z.leb_spec now x); [lia|done].
Qed.

Lemma counted_later t now m m' server : t <= now -> counted_since t m server = counted_since t m' server ->
  counted_since now m server = counted_since now m' server.
Proof.
  unfold counted_since. intros Ht E. rewrite <- (filter_filter_le t now (default [] (m !! server))), E by done. by apply filter_filter_le.
Qed.

Lemma follows_later t now w calls : t <= now -> follows t w calls -> follows now w calls.
Proof.
  intros Ht (H1 & H2 & old & E & H3). split; [done|]. split; [intros x Hx; specialize (H2 x Hx); lia|].
  exists old. split; [done|]. intros x Hx. specialize (H3 x Hx). lia.
Qed.

Lemma sim_later t now a h : t <= now -> sim t a h -> sim now a h.
Proof.
  intros Ht (H1 & H2 & H3 & H4). split_and!; [done..|]. destruct (hi_active h); [|done]. destruct H4 as (H4 & H5 & H6).
  split_and!; [done|by eapply follows_later|]. intros server. eapply counted_later; [|apply H6]. lia.
Qed.

Lemma follows_last t now w calls cutoff accept : follows t w calls -> t <= now -> now - computeMaxWindow cfg <= cutoff ->
  find_recent cutoff accept (rev w) = List.find accept (rev (List.filter (since cutoff) calls)).
Proof.
  intros (H1 & _ & old & -> & H3) Ht Hc. unfold in_order in H1. rewrite fmap_app in H1. apply StronglySorted_app in H1 as (_ & _ & Hw).
  rewrite find_recent_window by done. rewrite List.filter_app, (since_none cutoff old); [done|]. intros x Hx. specialize (H3 x Hx). lia.
Qed.

(** A call at the end: recorded and pruned. *)
Lemma follows_record t now w calls r : follows t w calls -> t <= now -> tc_Timestamp r = now ->
  (length (List.filter (since (now - computeMaxWindow cfg)) (calls ++ [r])) <= maxWindowEntries)%nat ->
  let w' := drop_old (now - computeMaxWindow cfg) (w ++ [r]) in follows now (drop (length w' - maxWindowEntries) w') (calls ++ [r]).
Proof.
  intros (H1 & H2 & old & -> & H3) Ht Hr Hlen. cbv zeta.
  assert (Ho : in_order ((old ++ w) ++ [r])).
  { unfold in_order in *. rewrite fmap_app. apply StronglySorted_app. split_and!; [|done|repeat constructor].
    intros x1 x2 (x & -> & Hx)%list_elem_of_fmap Hx2. cbn in Hx2. apply list_elem_of_singleton in Hx2 as ->. specialize (H2 x Hx). lia. }
  assert (Hw : in_order (w ++ [r])).
  { unfold in_order in *. rewrite <- app_assoc, fmap_app in Ho. by apply StronglySorted_app in Ho as (_ & _ & ?). }
  destruct (drop_old_spec (now - computeMaxWindow cfg) (w ++ [r]) Hw) as (old' & E & Hold & Ef).
  assert (Hn : (length (drop_old (now - computeMaxWindow cfg) (w ++ [r])) <= maxWindowEntries)%nat).
  { rewrite <- app_assoc, List.filter_app, length_app in Hlen. rewrite Ef. unfold maxWindowEntries in *. lia. }
  replace (length (drop_old (now - computeMaxWindow cfg) (w ++ [r])) - maxWindowEntries)%nat with 0%nat by lia. rewrite drop_0.
  split; [done|]. split.
  - intros x [Hx| ->%list_elem_of_singleton]%elem_of_app; [specialize (H2 x Hx); lia|lia].
  - exists (old ++ old'). rewrite <- !app_assoc. split; [by rewrite <- E|]. intros x [Hx|Hx]%elem_of_app; [specialize (H3 x Hx); lia|by apply Hold].
Qed.

Lemma recorded_sim t now server tool id request action a h counted : sim t a h -> hi_active h = true -> t <= now ->
  (length (List.filter (since (now - computeMaxWindow cfg)) (hi_calls h ++ [mkCall now server tool id request action (Classify tool)])) <= maxWindowEntries)%nat ->
  (forall s, counted_since (now - cs_Burst_Window cfg) (an_bursts a) s = counted_since (now - cs_Burst_Window cfg) counted s) ->
  sim now (recordLocked server tool id request action (Classify tool) now a)
    (mkHistory true (hi_calls h ++ [mkCall now server tool id request action (Classify tool)]) counted (hi_shadows h)).
Proof.
  intros (H1 & H2 & H3 & H4) Hact Ht Hlen Hb. rewrite Hact in H2, H4. destruct H4 as (H4 & H5 & _). unfold recordLocked. rewrite H2. cbn [negb].
  split_and!; [done..|]. cbn [hi_active hi_calls hi_counted]. split_and!; [done| |done].
  unfold pruneWindow, set_window. cbn [an_window an_maxWindow]. rewrite H4. by apply (follows_record t).
Qed.

(** The burst check is the burst rule, and counts the call. *)
Lemma burst_sim t now server a h : sim t a h -> hi_active h = true -> t <= now ->
  let '(d, a') := if cs_Burst_Enabled (an_cfg a) then checkBurst server now a else (None, a) in
  d = burst_rule server now h /\
  sim now a' (mkHistory (hi_active h) (hi_calls h)
    (if counts_bursts then <[server := default [] (hi_counted h !! server) ++ [now]]> (hi_counted h) else hi_counted h) (hi_shadows h)).
Proof.
  intros Hs Hact Ht. pose proof (sim_later _ now _ _ Ht Hs) as Hnow. destruct Hs as (H1 & _). rewrite H1.
  unfold burst_rule, counts_bursts, checkBurst. rewrite H1. destruct (cs_Burst_Enabled cfg); cbn [andb]; [|by destruct h].
  destruct (Z.leb_spec (cs_Burst_MaxCalls cfg) 0) as [Hmax|Hmax].
  { rewrite (proj2 (Z.ltb_ge 0 (cs_Burst_MaxCalls cfg))) by lia. by destruct h. }
  rewrite (proj2 (Z.ltb_lt 0 (cs_Burst_MaxCalls cfg))) by lia. cbn [andb].
  destruct Hnow as (_ & H2 & H3 & H4). rewrite Hact in H2, H4. destruct H4 as (H4 & H5 & H6).
  set (cutoff := now - cs_Burst_Window cfg) in *.
  assert (Ep : List.filter (fun t0 => negb (t0 <? cutoff)) (default [] (an_bursts a !! server)) = counted_since cutoff (hi_counted h) server).
  { rewrite <- H6. apply List.filter_ext. intros x. rewrite <- Z.leb_antisym. done. }
  rewrite Ep. split.
  - unfold calls_since. fold (counted_since cutoff (hi_counted h) server). rewrite length_app. cbn [length].
    replace (Z.of_nat (length (counted_since cutoff (hi_counted h) server) + 1)) with (Z.of_nat (length (counted_since cutoff (hi_counted h) server)) + 1) by lia. done.
  - rewrite Hact. split_and!; [done..|]. cbn [hi_active hi_calls hi_counted an_maxWindow an_window an_bursts set_bursts]. split_and!; [done..|].
    intros s. unfold counted_since. destruct (decide (s = server)) as [->|Hne]; [|rewrite !lookup_insert_ne by done; apply H6].
    rewrite !lookup_insert_eq. cbn [default from_option]. unfold id. rewrite !List.filter_app. f_equal.
    unfold counted_since. by rewrite filter_filter_le by lia.
Qed.

Lemma rules_sim t now server tool request a h : sim t a h -> hi_active h = true -> t <= now ->
  (if cs_Read_Enabled cfg && (Classify tool ==? CategorySend) then checkReadThenSend server now a else None) = read_rule server tool now h /\
  (if cs_Flow_Enabled cfg && isSuspiciousCategory (Classify tool) then checkCrossServerFlow server request now a else None) = flow_rule server tool request now h.
Proof.
  intros (H1 & H2 & H3 & H4) Hact Ht. rewrite Hact in H4. destruct H4 as (_ & H5 & _). destruct computeMaxWindow_ge as (W1 & W2 & W3).
  unfold read_rule, flow_rule, checkReadThenSend, checkCrossServerFlow, last_call. rewrite H1.
  split; [destruct (cs_Read_Enabled cfg && _)|destruct (cs_Flow_Enabled cfg && _)]; try done; by rewrite (follows_last t now _ _ _ _ H5) by lia.
Qed.

Lemma shadow_sim t tool a h : sim t a h -> (if default false (cs_Shadow_Enabled cfg) then checkShadow tool a else None) = shadow_rule tool h.
Proof. intros (_ & _ & H3 & _). unfold shadow_rule, checkShadow. by rewrite H3. Qed.

Lemma check_sim t now server tool id request a h : sim t a h -> t <= now ->
  (length (List.filter (since (now - computeMaxWindow cfg)) (hi_calls (history_check now server tool id request h).2)) <= maxWindowEntries)%nat ->
  let '(d, _, a') := CheckAndRecord now server tool id request a in
  d = (history_check now server tool id request h).1 /\ sim now a' (history_check now server tool id request h).2.
Proof.
  intros Hs Ht. pose proof (shadow_sim t tool a h Hs) as Hsh. pose proof (sim_later _ now _ _ Ht Hs) as Hnow.
  destruct (Hs) as (H1 & H2 & H3 & _). unfold CheckAndRecord, history_check. rewrite H1. cbv zeta.
  destruct (cs_Enabled cfg); cbn [negb]; [|by intros _]. rewrite H2. destruct (hi_active h) eqn:Hact; cbn [negb andb fst snd hi_calls].
  2:{ intros _. rewrite Hsh. destruct (bool_decide (an_shadows a = ∅)) eqn:Es.
      - apply bool_decide_eq_true in Es. split; [|done]. unfold shadow_rule. rewrite <- H3, Es, lookup_empty. by destruct (default _ _).
      - destruct (shadow_rule tool h); [|done]. unfold recordLocked. by rewrite H2. }
  rewrite Hsh. destruct (shadow_rule tool h) as [d|].
  { intros Hlen. split; [done|]. eapply recorded_sim; [exact Hs|done|done|done|]. intros s.
    destruct Hnow as (_ & _ & _ & Hn). rewrite Hact in Hn. apply Hn. }
  pose proof (burst_sim t now server a h Hs Hact Ht) as Hb. rewrite H1 in Hb.
  destruct (if cs_Burst_Enabled cfg then checkBurst server now a else (None, a)) as [burst a1] eqn:Eb. destruct Hb as [-> Hs1].
  rewrite Hact in Hs1. set (counted := if counts_bursts then _ else _) in *.
  assert (Hrec : forall action, (length (List.filter (since (now - computeMaxWindow cfg)) (hi_calls h ++ [mkCall now server tool id request action (Classify tool)])) <= maxWindowEntries)%nat ->
    sim now (recordLocked server tool id request action (Classify tool) now a1)
      (mkHistory true (hi_calls h ++ [mkCall now server tool id request action (Classify tool)]) counted (hi_shadows h))).
  { intros action Hlen. apply (recorded_sim now now server tool id request action a1 (mkHistory true (hi_calls h) counted (hi_shadows h)) counted); [exact Hs1|done|lia|done|].
    destruct Hs1 as (_ & _ & _ & Hn). apply Hn. }
  destruct (burst_rule server now h) as [d|]; [by intros Hlen; split; [|apply Hrec]|].
  destruct (rules_sim now now server tool request a1 _ Hs1 eq_refl (Z.le_refl _)) as [-> ->].
  change (read_rule server tool now _) with (read_rule server tool now h). change (flow_rule server tool request now _) with (flow_rule server tool request now h).
  destruct (read_rule server tool now h) as [d|]; [by intros Hlen; split; [|apply Hrec]|].
  destruct (flow_rule server tool request now h) as [d|]; by intros Hlen; split; [|apply Hrec].
Qed.

Lemma fmap_rev_list {A B} (f : A -> B) l : f <$> rev l = rev (f <$> l).
Proof. induction l as [|x l IH]; [done|]. cbn [rev]. rewrite fmap_app, IH, fmap_cons. done. Qed.

Lemma follows_mark t w calls same : follows t w calls -> follows t (rev (mark_first same (rev w))) (rev (mark_first same (rev calls))).
Proof.
  intros (H1 & H2 & old & -> & H3). rewrite rev_app_distr. destruct (mark_first_app same (rev w) (rev old)) as (old' & E & Hold). rewrite E, rev_app_distr.
  assert (Ht : tc_Timestamp <$> (rev old' ++ rev (mark_first same (rev w))) = tc_Timestamp <$> (old ++ w)).
  { rewrite !fmap_app. f_equal.
    - rewrite fmap_rev_list, Hold, fmap_rev_list. apply rev_involutive.
    - rewrite fmap_rev_list, mark_first_times, fmap_rev_list. apply rev_involutive. }
  assert (Hpre : tc_Timestamp <$> rev old' = tc_Timestamp <$> old).
  { rewrite fmap_rev_list, Hold, fmap_rev_list. apply rev_involutive. }
  split; [unfold in_order; by rewrite Ht|]. split.
  - intros x Hx. apply (list_elem_of_fmap_2 tc_Timestamp) in Hx. rewrite Ht in Hx. apply list_elem_of_fmap in Hx as (y & -> & Hy). by apply H2.
  - exists (rev old'). split; [done|]. intros x Hx. apply (list_elem_of_fmap_2 tc_Timestamp) in Hx. rewrite Hpre in Hx.
    apply list_elem_of_fmap in Hx as (y & -> & Hy). by apply H3.
Qed.

Lemma step_sim t e a h : sim t a h ->
  match e with
  | Checked now _ _ _ _ => t <= now /\ (length (List.filter (since (now - computeMaxWindow cfg)) (hi_calls (history_step e h).2)) <= maxWindowEntries)%nat
  | _ => True
  end ->
  (analyzer_step e a).1 = (history_step e h).1 /\
  sim (match e with Checked now _ _ _ _ => now | _ => t end) (analyzer_step e a).2 (history_step e h).2.
Proof.
  intros Hs. destruct e as [now server tool id request|server tool id request|tool old new|tool|]; cbn [analyzer_step history_step].
  - intros [Ht Hlen]. pose proof (check_sim t now server tool id request a h Hs Ht) as Hc.
    destruct (CheckAndRecord now server tool id request a) as [[d cat] a']. destruct (history_check now server tool id request h) as [d' h'].
    cbn [fst snd] in *. destruct (Hc Hlen) as [-> ?]. done.
  - intros _. split; [done|]. destruct Hs as (H1 & H2 & H3 & H4). split_and!; [done..|]. cbn [snd hi_active hi_calls hi_counted an_window an_maxWindow an_bursts MarkBlocked set_window].
    destruct (hi_active h); [|destruct H4 as [-> ->]; done]. destruct H4 as (H4 & H5 & H6). split_and!; [done|by apply follows_mark|done].
  - intros _. split; [done|]. destruct Hs as (H1 & H2 & H3 & H4). split_and!; [done..| |done]. cbn. by rewrite H3.
  - intros _. split; [done|]. destruct Hs as (H1 & H2 & H3 & H4). split_and!; [done..| |done]. cbn. by rewrite H3.
  - intros _. split; [done|]. destruct Hs as (H1 & H2 & H3 & H4). unfold Activate. rewrite H2. destruct (hi_active h) eqn:Ea; cbn [fst snd].
    + split_and!; done.
    + split_and!; [done..|]. cbn. rewrite H1. destruct H4 as [-> ->]. split_and!; [done| |done]. split; [constructor|].
      split; [by intros ? ?%not_elem_of_nil|]. exists []. split; [done|]. by intros ? ?%not_elem_of_nil.
Qed.

(** C24. Forgetting changes no decision.  The analyzer prunes its window of calls and its burst
    counters; as long as the clock does not go back and no more than a thousand calls fall into the
    longest window, the decisions on every sequence of calls, blocks by other checks, takeovers and
    activations are those of the four rules on the whole history of the session. *)
Theorem window_as_history t es : calm t es no_history = true ->
  decisions analyzer_step es (NewSessionAnalyzer cfg) = decisions history_step es no_history.
Proof.
  assert (Hs : sim t (NewSessionAnalyzer cfg) no_history) by done. revert Hs. generalize (NewSessionAnalyzer cfg) no_history t. clear t.
  induction es as [|e es IH]; intros a h t Hs Hc; [done|]. cbn [decisions]. cbn [calm] in Hc.
  assert (Hpre : match e with
    | Checked now _ _ _ _ => t <= now /\ (length (List.filter (since (now - computeMaxWindow cfg)) (hi_calls (history_step e h).2)) <= maxWindowEntries)%nat
    | _ => True end).
  { destruct e; try done. apply andb_prop in Hc as [[Ht Hl]%andb_prop _]. split; [by apply Z.leb_le|by apply Nat.leb_le]. }
  destruct (step_sim t e a h Hs Hpre) as [Eds Hs']. destruct (analyzer_step e a) as [ds a'], (history_step e h) as [ds' h']. cbn [fst snd] in *. subst ds'.
  f_equal. eapply IH; [exact Hs'|]. destruct e; try done. by apply andb_prop in Hc as [_ Hc].
Qed.

End History.
End WindowHistory.
Export WindowHistory.

(** ** The tools of a session *)
Module SessionTools.
Section Session.
Context {U : UnicodeCase}.

(** A session: its registry and its analyzer, with the callbacks that join them ([api/app.go]). *)
Definition session : Type := Registry * SessionAnalyzer.

Definition new_session (cfg : CrossServerConfig) : session :=
  let '(cbs, r) := SetCallbacks (mkCallbacks true true) NewRegistry in (r, fold_left run_callback cbs (NewSessionAnalyzer cfg)).

Inductive session_event : Type :=
| ToolsRegistered (now : Z) (serverID serverType serverAddr : string) (tools : list ToolInfo)
| ToolSeen (now : Z) (type : string) (fields : string -> string)
| ServerRemoved (serverID : string)
| CallChecked (now : Z) (serverID tool id request : string)
| CallBlocked (serverID tool id request : string)
| ShadowCleared (tool : string).

Definition session_step (s : session) (e : session_event) : session :=
  let '(r, a) := s in
  match e with
  | ToolsRegistered now serverID serverType serverAddr tools =>
    let '(_, cbs, r) := Register now serverID serverType serverAddr tools r in (r, fold_left run_callback cbs a)
  | ToolSeen now type fields => let '(cbs, r) := bridgeEventToRegistry now type fields r in (r, fold_left run_callback cbs a)
  | ServerRemoved serverID => (Remove serverID r, a)
  | CallChecked now serverID tool id request => (r, (CheckAndRecord now serverID tool id request a).2)
  | CallBlocked serverID tool id request => (r, MarkBlocked serverID tool id request a)
  | ShadowCleared tool => (r, ClearShadow tool a)
  end.

Definition run_session (es : list session_event) (s : session) : session := fold_left session_step es s.

(** *** Takeovers *)

Lemma register_tools_keep now server type addr tools acc ow : ow ∈ acc.2 -> ow ∈ (fold_left (register_tool now server type addr) tools acc).2.
Proof.
  revert acc. induction tools as [|t tools IH]; intros [[ts ps] ows] H; [done|]. cbn [fold_left]. apply IH. cbn in *. by apply elem_of_app; left.
Qed.

Lemma register_tools_report now server type addr tools ts ps ows name e : ts !! name = Some e -> te_ServerID e <> server -> name ∈ (ti_Name <$> tools) ->
  mkOverwritten name (te_ServerID e) server ∈ (fold_left (register_tool now server type addr) tools (ts, ps, ows)).2.
Proof.
  revert ts ps ows. induction tools as [|t tools IH]; intros ts ps ows Hl Hne Hin; [by apply not_elem_of_nil in Hin|].
  cbn [fold_left]. destruct (decide (ti_Name t = name)) as [<-|Hn].
  - apply register_tools_keep. cbn. apply elem_of_app. right. rewrite Hl, bool_decide_eq_false_2 by done. by constructor.
  - apply IH; [by rewrite lookup_insert_ne|done|]. rewrite fmap_cons in Hin. by apply elem_of_cons in Hin as [?|?].
Qed.

Definition shadowed (name : string) (a : SessionAnalyzer) : Prop := is_Some (an_shadows a !! name).

Lemma callbacks_keep cbs a name : shadowed name a -> shadowed name (fold_left run_callback cbs a).
Proof.
  revert a. induction cbs as [|c cbs IH]; intros a H; [done|]. apply IH. destruct c as [|ow]; cbn.
  - unfold Activate. by destruct (an_active a).
  - unfold shadowed. cbn. destruct (decide (ow_ToolName ow = name)) as [->|Hn]; [by rewrite lookup_insert_eq|by rewrite lookup_insert_ne].
Qed.

Lemma callbacks_shadow cbs a ow : CallOverwrite ow ∈ cbs -> shadowed (ow_ToolName ow) (fold_left run_callback cbs a).
Proof.
  revert a. induction cbs as [|c cbs IH]; intros a H; [by apply not_elem_of_nil in H|]. cbn [fold_left]. apply elem_of_cons in H as [<-|H]; [|by apply IH].
  apply callbacks_keep. unfold shadowed. cbn. by rewrite lookup_insert_eq.
Qed.

(** What every analyzer of a session keeps: its configuration, and the callbacks of its registry. *)
Definition wired (cfg : CrossServerConfig) (s : session) : Prop := an_cfg s.2 = cfg /\ rg_callbacks s.1 = Some (mkCallbacks true true).

Lemma callbacks_cfg cbs a : an_cfg (fold_left run_callback cbs a) = an_cfg a.
Proof.
  revert a. induction cbs as [|c cbs IH]; intros a; [done|]. cbn [fold_left]. rewrite IH. destruct c; [|done]. cbn. unfold Activate. by destruct (an_active a).
Qed.

Lemma record_keeps server tool id request action cat now a :
  an_shadows (recordLocked server tool id request action cat now a) = an_shadows a /\ an_cfg (recordLocked server tool id request action cat now a) = an_cfg a.
Proof. unfold recordLocked. by destruct (negb (an_active a)). Qed.

Lemma analyzer_check_keeps now server tool id request a :
  an_shadows (CheckAndRecord now server tool id request a).2 = an_shadows a /\ an_cfg (CheckAndRecord now server tool id request a).2 = an_cfg a.
Proof.
  unfold CheckAndRecord. cbv zeta. repeat (case_match; try done); simplify_eq/=; rewrite ?(proj1 (record_keeps _ _ _ _ _ _ _ _)), ?(proj2 (record_keeps _ _ _ _ _ _ _ _)); try done.
  all: unfold checkBurst in *; repeat case_match; simplify_eq/=; done.
Qed.

Lemma register_keeps now server type addr tools r : rg_callbacks (Register now server type addr tools r).2 = rg_callbacks r.
Proof. unfold Register. by destruct (fold_left _ _ _) as [[? ?] ?]. Qed.

Lemma step_wired cfg s e : wired cfg s -> wired cfg (session_step s e).
Proof.
  destruct s as [r a]. intros [H1 H2]. cbn [fst snd] in *. destruct e as [now server type addr tools|now type fields|server|now server tool id request| |]; cbn [session_step].
  - pose proof (register_keeps now server type addr tools r). destruct (Register now server type addr tools r) as [[ows cbs] r'].
    split; cbn [fst snd] in *; [by rewrite callbacks_cfg|congruence].
  - unfold bridgeEventToRegistry. destruct (_ ==? "mcp_tool_seen"); [|destruct (_ ==? "mcp_tool_changed")]; [..|done];
      (destruct (_ || _); [done|]); cbv zeta;
      match goal with |- context [Register ?n ?s ?t ?ad ?l r] =>
        pose proof (register_keeps n s t ad l r); destruct (Register n s t ad l r) as [[ows cbs] r'] end;
      split; cbn [fst snd] in *; [by rewrite callbacks_cfg|congruence|by rewrite callbacks_cfg|congruence].
  - done.
  - split; [|done]. cbn [snd]. by rewrite (proj2 (analyzer_check_keeps now server tool id request a)).
  - done.
  - done.
Qed.

Lemma step_shadowed s e name : e <> ShadowCleared name -> shadowed name s.2 -> shadowed name (session_step s e).2.
Proof.
  destruct s as [r a]. intros Hclear H. cbn [snd] in *. destruct e as [now server type addr tools|now type fields|server|now server tool id request| |tool]; cbn [session_step]; try done.
  - destruct (Register now server type addr tools r) as [[ows cbs] r']. by apply callbacks_keep.
  - destruct (bridgeEventToRegistry now type fields r) as [cbs r']. by apply callbacks_keep.
  - unfold shadowed. cbn [snd]. by rewrite (proj1 (analyzer_check_keeps now server tool id request a)).
  - unfold shadowed. cbn. rewrite lookup_delete_ne; [done|]. by intros ->.
Qed.

Lemma run_wired cfg es s : wired cfg s -> wired cfg (run_session es s).
Proof. revert s. induction es as [|e es IH]; intros s H; [done|]. by apply IH, step_wired. Qed.

Lemma run_shadowed es s name : ShadowCleared name ∉ es -> shadowed name s.2 -> shadowed name (run_session es s).2.
Proof.
  revert s. induction es as [|e es IH]; intros s Hc H; [done|]. apply not_elem_of_cons in Hc as [He Hc]. by apply IH; [|apply step_shadowed].
Qed.

Lemma new_wired cfg : wired cfg (new_session cfg).
Proof. done. Qed.

Lemma shadowed_check cfg now server name cid request a : an_cfg a = cfg -> cs_Enabled cfg = true -> cs_Shadow_Enabled cfg = Some true -> shadowed name a ->
  exists info, an_shadows a !! name = Some info /\
  (CheckAndRecord now server name cid request a).1.1 = Some (mkCrossDecision true "shadow_tool" (Shadowed name (sh_Original info) (sh_New info)) "critical" []).
Proof.
  intros Hc He Hs [info Hi]. exists info. split; [done|]. unfold CheckAndRecord. cbv zeta. rewrite Hc, He, Hs. cbn [negb default from_option].
  assert (Hne : bool_decide (an_shadows a = ∅) = false) by (apply bool_decide_eq_false_2; intros E; by rewrite E in Hi).
  rewrite Hne, andb_false_r. unfold id, checkShadow. by rewrite Hi.
Qed.


End Session.
End SessionTools.
Export SessionTools.

(** ** Samples *)
Module McpSamples.

#[local] Existing Instance latin_case.

Definition sample_cross : CrossServerConfig := mkCross true true 60000 true 3 10000 true (Some false) 60000 (Some true).

(** A read on one server, then a send on another; a tool taken over; a burst. *)
Definition sample_happenings : list happening :=
  [Checked 0 "files" "read_file" "c0" "r1"; Activated; Checked 1000 "files" "read_file" "c1" "r1"; Checked 2000 "mail" "send_mail" "c2" "r1";
   Overwritten "get_item" "files" "evil"; Checked 3000 "evil" "get_item" "c3" "r2"; Marked "files" "read_file" "c1" "r1";
   Checked 4000 "mail" "send_mail" "c4" "r2"; Checked 5000 "mail" "send_mail" "c5" "r2"; Checked 90000 "mail" "send_mail" "c6" "r3"].

Example sample_decisions : (fun d : option CrossServerDecision => cd_Rule <$> d) <$> decisions analyzer_step sample_happenings (NewSessionAnalyzer sample_cross) =
  [None; None; Some "read_then_send"; Some "shadow_tool"; None; Some "burst"; None].
Proof. vm_compute. reflexivity. Qed.

Lemma window_as_history_witness : calm sample_cross 0 sample_happenings no_history = true /\
  decisions analyzer_step sample_happenings (NewSessionAnalyzer sample_cross) = decisions (history_step sample_cross) sample_happenings no_history.
Proof.
  assert (H : calm sample_cross 0 sample_happenings no_history = true) by (vm_compute; reflexivity).
  split; [exact H|]. exact (window_as_history sample_cross 0 sample_happenings H).
Defined.

Definition sample_before : list session_event := [ToolsRegistered 1 "files" "stdio" "" [mkToolInfo "read_file" "h1"]].
Definition sample_after : list session_event := [ServerRemoved "evil"; ShadowCleared "write_file"; ToolsRegistered 5 "files" "stdio" "" [mkToolInfo "read_file" "h1"]].


(** Once the shadow is cleared the calls of the tool pass again, also those of the server that took it
    over. *)
Example cleared_shadow_passes :
  let s := run_session [ToolsRegistered 1 "files" "stdio" "" [mkToolInfo "read_file" "h1"]; ToolsRegistered 2 "evil" "http" "" [mkToolInfo "read_file" "h9"];
                        ShadowCleared "read_file"] (new_session sample_cross) in
  (CheckAndRecord 9 "evil" "read_file" "c" "r" s.2).1.1 = None.
Proof. vm_compute. reflexivity. Qed.

(** A server that is removed first is not taken over: nothing is reported. *)
Example removed_server_not_shadowed :
  let s := run_session [ToolsRegistered 1 "files" "stdio" "" [mkToolInfo "read_file" "h1"]; ServerRemoved "files";
                        ToolsRegistered 2 "evil" "http" "" [mkToolInfo "read_file" "h9"]] (new_session sample_cross) in
  (an_shadows s.2 !! "read_file", te_ServerID <$> Lookup "read_file" s.1) = (None, Some "evil").
Proof. vm_compute. reflexivity. Qed.

(** The call that reaches the limit of a burst is blocked, not the one that exceeds it. *)
Example burst_at_the_limit :
  (fun d : option CrossServerDecision => cd_Rule <$> d) <$> decisions analyzer_step [Activated; Checked 1 "a" "x" "1" "r"; Checked 2 "a" "x" "2" "r"; Checked 3 "a" "x" "3" "r"]
    (NewSessionAnalyzer sample_cross) = [None; None; Some "burst"].
Proof. vm_compute. reflexivity. Qed.

End McpSamples.
